(* ===== verification/_CoqProject ===== *)
-Q . S2P
Prelude.v
PortName.v
IpcSplay.v
IpcSplaySpec.v
IpcTable.v
IpcTypes.v
IpcHash.v
IpcHashSpec.v
IpcEntry.v
IpcSpaceInv.v
IpcEntrySpec.v
IpcReverse.v
IpcGrow.v
IpcAlloc.v
IpcSpace.v
IpcEntryThms.v
IpcCap.v
IpcCapSpace.v
IpcMqueue.v
IpcPort.v
IpcRequests.v
IpcWorld.v
IpcPortOps.v
IpcCircular.v
IpcRight.v
IpcRightCopy.v
IpcRightBits.v
IpcDelta.v
IpcRightInv.v
IpcRightSteps.v
IpcDealloc.v
IpcDeltaSpec.v
IpcRightThms.v
IpcObject.v
IpcObjectCompat.v
IpcCopyin.v
IpcCopyout.v
IpcObjectThms.v
MachPort.v
MachPortNames.v
IpcItems.v
MachPortNamesSpec.v
MachPortMembers.v
MachPortCompat.v
MachPortThms.v
IpcSend.v
Counting.v
IpcSendInv.v
IpcSendSteps.v
IpcRecvSteps.v
IpcSendThms.v
IpcQueue.v
IpcQueueSpec.v
IpcMarequest.v
IpcMarequestSpec.v
IpcKmsg.v
IpcKmsgSpec.v
IpcKmsgOut.v
IpcKmsgOutSpec.v
IpcKmsgThms.v
IpcRpc.v
KernLock.v
KernLockSpec.v
VmMap.v
VmMapOps.v
VmMapDelete.v
VmMapInv.v
VmMapFind.v
VmMapSpec.v
VmMapEnter.v
VmMapRemove.v
VmMapWire.v
VmMapFault.v
KernSched.v
KernSwitch.v
KernSchedInv.v
KernSchedOps.v
KernSchedWake.v
KernSchedThms.v
KernSchedMachine.v
