(* ===== verification/Prelude.v ===== *)
(** * The core of the xMach kernel: communication, scheduling, locks and maps

    The development models the machine-independent core of the kernel and proves
    what makes it correct: inter-process communication
    (src/kernel/generic/kernel/ipc), the scheduler (kern/sched_prim.c), the
    read-write locks (kern/lock.c) and the address maps of virtual memory
    (vm/vm_map.c with the calls of vm/vm_user.c).

    In the communication code a task has a _space_ of port rights (ipc_space.c), a map from 32-bit names to
    capabilities.  A capability is an _entry_ (ipc_entry.c) in a table or, for
    names that the table does not reach, in a splay tree (ipc_splay.c); reverse
    hash tables (ipc_hash.c) find the send right that a space has for a port.
    _Ports_ (ipc_port.c) count the send and send-once rights that exist for them
    and keep requests for notifications; _port sets_ (ipc_pset.c) share one
    message queue (ipc_mqueue.c) among ports, in linked queues (ipc_thread.c,
    ipc_kmsg.c).  ipc_right.c moves rights in and out of entries, ipc_object.c
    looks names up for it, and the system calls of mach_port.c check their
    arguments and call these.  Sending a message turns the names in its header
    into ports and receiving it turns them back (ipc_kmsg.c); a sender may ask to
    be told when its message is accepted (ipc_marequest.c).

    _Threads_ wait for events in hashed wait queues (assert_wait, thread_wakeup)
    and for a processor in run queues by priority.  thread_block takes the best
    thread that can run, or the idle thread, and gives it the processor, often
    with the kernel stack of the old one (thread_invoke); threads without a stack
    are swapped in by a thread of their own (thread_swap.c).  Threads are
    suspended and resumed (thread.c), and the clock ages their usage and decides
    on preemption (priority.c, ast.c).

    _Locks_ with many readers or one writer protect the address maps.  An
    _address map_ is the sorted list of the ranges of memory that a task has
    mapped, with their objects, protections, inheritance and wired counts.  User
    calls enter, protect, wire and remove ranges, splitting entries at the ends
    of a range; a page fault looks an address up to find its object and offset.

    ** Files

    - Prelude: fallible code, counted loops, 32-bit words, arrays, sorted lists.
    - PortName: names, generations, user references and the bits of entries
      (mach/port.h, ipc/port.h, ipc/ipc_entry.h).
    - IpcSplay, IpcSplaySpec: ipc_splay.c with its inverted pointers, as two
      contexts and a current tree; its refinement of sorted finite maps.
    - IpcTable: the arrays of table sizes of ipc_table.c.
    - IpcTypes: entries, tree entries and spaces (ipc_entry.h, ipc_space.h).
    - IpcHash, IpcHashSpec: ipc_hash.c, the global chained table and the local
      table with linear probing in the entries' [ie_index] fields.
    - IpcEntry: ipc_entry.c.  IpcSpaceInv: the invariant [space_wf] and the map
      [space_caps] that a space denotes.  IpcEntrySpec, IpcReverse, IpcGrow,
      IpcAlloc, IpcSpace: the correctness of its operations, of the growth of
      the table and of ipc_space_create.  IpcEntryThms: the theorems.
    - IpcCap: the class [CapSpace] of the operations that ipc_right.c uses on a
      space, and [CapSpaceLaws], what it relies on.  IpcCapSpace: the entries of
      IpcEntry satisfy them.
    - IpcMqueue, IpcPort, IpcRequests, IpcWorld, IpcPortOps, IpcCircular:
      message queues, ports, their request tables, port sets, the operations of
      ipc_port.c, ipc_pset.c and the circularity check.
    - IpcRight, IpcRightCopy, IpcDelta: ipc_right.c.  IpcRightBits, IpcRightInv,
      IpcRightSteps, IpcDealloc, IpcDeltaSpec, IpcRightThms: the agreement of
      the rights of a space with the counts of the ports, and its preservation.
    - IpcObject, IpcObjectCompat: ipc_object.c over [CapSpace] and the class
      [SpaceAlloc] of allocations; IpcCopyin, IpcCopyout: theorems against
      [CapSpaceLaws] and [SpaceAllocLaws], and the instances;
      IpcObjectThms: the theorems at the concrete spaces.
    - MachPort, MachPortNames: the system calls of mach_port.c; those that copy
      lists out to the user, over kernel memory whose pages are counted.
      IpcItems: every capability of a space, once.  MachPortNamesSpec,
      MachPortMembers: mach_port_names and mach_port_get_set_status under
      interference, and mach_port_type.  MachPortCompat: the old-style calls.
      MachPortThms: the theorems at the sample space.
    - IpcSend: ipc_mqueue_send and ipc_mqueue_receive, split at thread_block,
      and threads as a step relation.  Counting: how many threads
      are in a state.  IpcSendInv, IpcSendSteps, IpcRecvSteps: the invariant of
      the relation.  IpcSendThms: order and wake-ups.
    - IpcQueue, IpcQueueSpec: the circular linked queues of ipc_thread.c and
      ipc_kmsg.c over a memory of links; they refine the lists used elsewhere.
    - IpcMarequest, IpcMarequestSpec: ipc_marequest.c.
    - IpcKmsg, IpcKmsgOut: ipc_kmsg_copyin_header, ipc_kmsg_copyout_header and
      ipc_kmsg_copyout_object, the fast paths on the tables of a space and the
      general path over [CapSpace].  IpcKmsgSpec, IpcKmsgOutSpec: the fast paths
      are the general path, and one-way messages.  IpcKmsgThms: the theorems.
      IpcRpc: a remote procedure call.
    - KernLock: kern/lock.c, split where a thread spins or sleeps.
      KernLockSpec: the threads that share a lock as a step relation, its
      invariant, exclusion, progress and recursion.
    - VmMap: entries, maps and lookup.  VmMapOps: clipping, the search for space,
      vm_map_enter, vm_map_find_entry, vm_map_protect, vm_map_inherit and
      vm_map_pageable_common.  VmMapDelete: vm_map_delete, vm_map_submap,
      vm_map_simplify, vm_map_lookup, vm_map_verify, vm_region and the calls of
      vm_user.c.
    - VmMapInv: the invariant [map_ok], what an address is mapped to ([view])
      and the references that entries hold.  VmMapFind: lookup, clipping
      and the loop over a range.  VmMapSpec: protection and inheritance.
      VmMapEnter: allocation.  VmMapRemove: deletion.  VmMapWire: wiring.
      VmMapFault: page faults, simplification, the hints, the round trip, an
      interleaving of deletion, and a concrete map.
    - KernSched: threads, run queues, priorities, selection and waits
      (kern/sched_prim.c, kern/ipc_sched.c).  KernSwitch: context switches,
      stacks and swapping (kern/sched_prim.c, kern/thread_swap.c), suspension and
      priority calls (kern/thread.c) and the clock (kern/priority.c, kern/ast.c).
    - KernSchedInv: the invariant [sched_ok]; the bits of a thread's state as a
      record, and its place.  KernSchedOps, KernSchedWake: run queues, selection,
      waits, wake-ups and switches keep it.  KernSchedThms: the other operations.
      KernSchedMachine: sequences of operations, the theorems, and a system of
      three threads.

    ** How the code is modelled

    Addresses, names and counters are [Z]; arithmetic that the C code does on
    32-bit words is taken modulo [wordsize].  A function returns [None] where
    the C code would fail an assertion, dereference a null or freed pointer or
    index an array out of bounds, so that a theorem with a result [Some] says
    that none of these happens.  Error returns are [kern_return] values in a sum.
    Ports and port sets live in a [world], a store by address, so that aliasing
    is as in the code; objects without references leave the store.  Messages
    sent by the kernel and threads that are woken are recorded in a log of
    events, in order.  Except in KernLock, a function runs in one piece while
    its lock is held, and where the code releases the lock of the space or of a
    port and takes it again, what others do in between, and whether memory is
    available, are arguments (a [window], a [wait], an environment) on which
    theorems state what they assume: as a rule that others respect the locking
    protocol and the invariants; a copyout that has to grow the table assumes
    that they leave the capabilities of the space and the ports alone.  In
    [IpcSend] the
    threads that send and receive interleave at every block; its steps cover
    messages of users to live user ports without circular receive rights, and
    not the death of ports or changes of port sets.

    The scheduler is that of a uniprocessor with one processor set and fixed
    priorities configured (NCPUS 1, MACH_HOST 0, MACH_FIXPRI 1).  Code at splsched
    is not interrupted, so that each function is one step from state to state; one
    that switches ends in the state in which the new thread runs, and what a
    thread does after it runs again is a definition of its own.  Wait and run
    queues are lists of threads; [remqueue], which in C follows the links of the
    thread, takes it out of whichever queue of the array it is on.  A timer is
    whether it is set, and the time of a thread's timers since they were last read
    is a field of the thread.

    The memory below an address map is seen through what the map asks of it: the
    class [VmEnv] has what the code relies on of zones, objects and
    the configuration (fresh addresses, whether objects coalesce), and calls to objects and physical maps are
    recorded in the log of the map with their arguments, so that the references
    taken and given back can be counted.  The lock of a map is a flag that every
    operation takes and gives back; where an operation waits with the map
    unlocked, the part after the wait is a definition of its own, run on the map
    as others left it.

    ** Fuel

    Loops over tables and lists are structural.  Traversals of splay trees have
    the size of the tree as fuel, probes of the local hash table the size of the
    table, both shown to suffice.  Loops that start again after the lock was
    released take their number of turns as an argument; theorems give a number
    of turns that is enough under the assumption on the environment; for the
    allocation of an entry it is two for each size of the table, one to wait for
    the growth by another thread and one to grow it.  The calls
    that copy lists out start again with a larger buffer; as every turn is at
    least a page larger, [wordsize / PAGE_SIZE] turns are enough.  The fuel of
    ipc_mqueue_send bounds the replies that the kernel sends to itself.  A loop
    over the entries of an address map has the number of entries and one or two
    as fuel: a turn goes to the next entry, and of the entries that clipping adds
    a loop visits at most the first; the theorems on these operations show that
    the fuel suffices.  The search for the first run queue that is not empty has
    one turn more than there are queues; [thread_block] has one turn more than
    there are threads, as each turn that fails sends one more thread to be swapped
    in.

    ** The theorems

    Splay trees, hash tables and entries refine finite maps and keep their
    invariants, and the allocation of names is total and fresh, also when several
    threads grow the table.  The operations on rights keep the agreement [settled]
    between the capabilities of a space and the counts of ports, and do what their
    specification says, error returns included; excepted is the copyin of an
    old-style name whose port has died, an error shown below.  The circularity check terminates and keeps ports in transit acyclic;
    requests for dead names survive the growth of their tables.  The lists that
    system calls return are those of one moment, without overrun or leak.

    However threads interleave, a message that a live port accepted is received
    once and in order, the message count is exact, and no sender sleeps on a port
    that has room (a limit of 0 leaves no room).  Message-accepted requests are found again and their
    notifications sent once.  The fast paths of the header copyin and copyout
    have the effect of the general path in a space that is active; a one-way header is one copyin; and a
    remote procedure call leaves every count, the client's space and the server's
    capabilities as they were.

    In every state that operations of threads and interrupts reach no operation
    panics, and no thread is lost or queued twice: its state bits say where it is.
    A wake-up wakes exactly the threads that wait for the event; the thread that
    is selected has the best priority, whatever the hint of the run queue; the
    two-shift approximation ages usage by 5/8 a second within a stated error.

    Of threads that share a lock a writer excludes all others, the fields of the
    lock count its holders, and when nobody holds it a waiter can get it.  The
    operations on address maps keep the entries sorted and disjoint, the hints,
    counts and size exact and the references accounted for; each changes what is
    mapped in exactly its range, on errors as well.  The search for space takes
    the first place that fits; a wiring succeeds exactly where the range is mapped
    and permits it, and restores every count where it fails; a fault gets the
    object and offset that its address was mapped to, a new object or the same page
    of a shadow; a lookup does not depend on its
    hint; and memory that is entered and removed leaves the map as it was.

    The error theorems show where the code does what it should not, or not what
    its comments say (see the findings of the manifest): each exhibits one
    execution, but that vm_map_enter returns with the map locked is shown for
    every map in which the search does not start at 0.

    ** Not modelled

    In ipc/, message bodies, the allocation of messages
    and the old-style message format (the rest of ipc_kmsg.c), which are mostly
    copying of memory through the virtual memory system; mach_msg.c, which
    combines these; ipc_notify.c (its notifications are events of the log) and
    ipc_space_destroy; the system calls under
    MIGRATING_THREADS; debugger routines (ipc_hash_info, ipc_marequest_info,
    mach_debug.c).  In vm/, the map copies (vm_map_copyin and the functions that
    place or overwrite copies), vm_map_fork and vm_map_deallocate, and the layers
    below the maps: objects, pages, faults beyond the map's lookup, and pagers,
    whose code is mostly about the state of hardware and of external servers.  In
    kern/, the simple locks (no code on one processor), the parts of the scheduler
    for several processors or processor sets, thread_handoff, the scan for stuck
    threads and the load averages, the creation and termination of threads, and
    tasks and zones.  Device drivers, the default pager and the bootstrap code.  The
    atomicity of a header copyin with two different names
    against the death of its ports is modelled with its undo path but only proved
    for requests without interference. *)

From stdpp Require Export base tactics numbers list gmap sorting.
#[global] Open Scope Z_scope.

(** ** Fallible code

    C code that dereferences a null pointer, indexes out of bounds or fails an
    [assert] has no result: those executions are [None].  Theorems of the form
    [f x = Some y] therefore also say that none of these happens. *)

Declare Scope c_scope.
Delimit Scope c_scope with c.

(** [ASSERT b ;; k] is the kernel's [assert(b); k]. *)
Notation "'ASSERT' b ';;' k" := (if b then k else None)
  (at level 100, b at level 99, k at level 200, right associativity) : c_scope.

Notation "'LET' x '<-' e ';;' k" := (match e with Some x => k | None => None end)
  (at level 100, x pattern, e at level 99, k at level 200, right associativity) : c_scope.

#[global] Open Scope c_scope.

(** ** Counted loops *)

(** [for (i = lo; count--; i++) body] and [for (i = hi; count--; i--) body]. *)
Fixpoint for_up {S : Type} (count : nat) (lo : Z) (body : Z -> S -> option S) (s : S) : option S :=
  match count with
  | O => Some s
  | Datatypes.S count' => LET s' <- body lo s ;; for_up count' (lo + 1) body s'
  end.

Fixpoint for_down {S : Type} (count : nat) (hi : Z) (body : Z -> S -> option S) (s : S) : option S :=
  match count with
  | O => Some s
  | Datatypes.S count' => LET s' <- body hi s ;; for_down count' (hi - 1) body s'
  end.

(** Loop rules: an invariant indexed by the loop variable. *)
Lemma for_up_rule {S} (I : Z -> S -> Prop) body count lo s :
  I lo s ->
  (forall i s, lo <= i < lo + Z.of_nat count -> I i s -> exists s', body i s = Some s' /\ I (i + 1) s') ->
  exists s', for_up count lo body s = Some s' /\ I (lo + Z.of_nat count) s'.
Proof.
  revert lo s. induction count as [|count IH]; intros lo s HI Hb; cbn [for_up].
  - exists s. split; [done|]. by rewrite Z.add_0_r.
  - destruct (Hb lo s) as (s1 & -> & H1); [lia|done|].
    destruct (IH (lo + 1) s1 H1) as (s2 & -> & H2).
    { intros i s' ? ?. apply Hb; [lia|done]. }
    exists s2. split; [done|]. by replace (lo + Z.of_nat (Datatypes.S count)) with (lo + 1 + Z.of_nat count) by lia.
Qed.

Lemma for_down_rule {S} (I : Z -> S -> Prop) body count hi s :
  I hi s ->
  (forall i s, hi - Z.of_nat count < i <= hi -> I i s -> exists s', body i s = Some s' /\ I (i - 1) s') ->
  exists s', for_down count hi body s = Some s' /\ I (hi - Z.of_nat count) s'.
Proof.
  revert hi s. induction count as [|count IH]; intros hi s HI Hb; cbn [for_down].
  - exists s. split; [done|]. by rewrite Z.sub_0_r.
  - destruct (Hb hi s) as (s1 & -> & H1); [lia|done|].
    destruct (IH (hi - 1) s1 H1) as (s2 & -> & H2).
    { intros i s' ? ?. apply Hb; [lia|done]. }
    exists s2. split; [done|]. by replace (hi - Z.of_nat (Datatypes.S count)) with (hi - 1 - Z.of_nat count) by lia.
Qed.

(** ** 32-bit unsigned arithmetic *)

Definition wordsize : Z := 2 ^ 32.

Definition u32 (x : Z) : Z := x mod wordsize.

Definition is_u32 (x : Z) : Prop := 0 <= x < wordsize.

Lemma u32_range x : is_u32 (u32 x).
Proof. apply Z.mod_pos_bound. reflexivity. Qed.

Lemma u32_small x : is_u32 x -> u32 x = x.
Proof. apply Z.mod_small. Qed.

(** ** Bit fields

    A field mask is a run of ones; [mask_testbit] turns membership of a bit
    into comparisons, after which [bits_solve] decides word equations bit by
    bit, using word equations among the hypotheses given to it. *)

Lemma mask_testbit m lo w n :
  m = Z.shiftl (Z.ones w) lo -> 0 <= lo -> 0 <= w -> 0 <= n ->
  Z.testbit m n = (lo <=? n) && (n <? lo + w).
Proof.
  intros -> ? ? ?. rewrite Z.shiftl_spec by done.
  destruct (Z.leb_spec lo n), (Z.ltb_spec n (lo + w)); cbn.
  - rewrite Z.ones_spec_low by lia. done.
  - rewrite Z.ones_spec_high by lia. done.
  - rewrite Z.testbit_neg_r by lia. done.
  - rewrite Z.testbit_neg_r by lia. done.
Qed.

Lemma bit_testbit m b n :
  m = Z.shiftl (Z.ones 1) b -> 0 <= b -> 0 <= n -> Z.testbit m n = (n =? b).
Proof.
  intros Hm ? ?. rewrite (mask_testbit m b 1) by (done || lia).
  destruct (Z.leb_spec b n), (Z.ltb_spec n (b + 1)), (Z.eqb_spec n b); cbn; lia || done.
Qed.

(** The bits of a 32-bit word above bit 31 are clear. *)
Lemma u32_testbit_high x n : is_u32 x -> 32 <= n -> Z.testbit x n = false.
Proof.
  intros [? Hx] ?. destruct (Z.eq_dec x 0) as [->|]; [apply Z.bits_0|].
  apply Z.bits_above_log2; [done|]. apply Z.log2_lt_pow2; [lia|].
  eapply Z.lt_le_trans; [exact Hx|]. apply Z.pow_le_mono_r; lia.
Qed.

Lemma u32_of_testbit x : 0 <= x -> (forall n, 32 <= n -> Z.testbit x n = false) -> is_u32 x.
Proof.
  intros Hx H. split; [done|]. destruct (Z.eq_dec x 0) as [->|]; [done|].
  apply Z.log2_lt_pow2; [lia|]. destruct (Z.ltb_spec (Z.log2 x) 32); [done|].
  specialize (H (Z.log2 x)). rewrite Z.bit_log2 in H by lia. specialize (H ltac:(lia)). done.
Qed.

Lemma is_u32_land x y : is_u32 x -> is_u32 (Z.land x y).
Proof.
  intros H. apply u32_of_testbit; [apply Z.land_nonneg; left; apply H|].
  intros n ?. by rewrite Z.land_spec, (u32_testbit_high x).
Qed.

Lemma is_u32_ldiff x y : is_u32 x -> is_u32 (Z.ldiff x y).
Proof.
  intros H. apply u32_of_testbit; [apply Z.ldiff_nonneg; left; apply H|].
  intros n ?. by rewrite Z.ldiff_spec, (u32_testbit_high x).
Qed.

Lemma is_u32_lor x y : is_u32 x -> is_u32 y -> is_u32 (Z.lor x y).
Proof.
  intros Hx Hy. apply u32_of_testbit; [apply Z.lor_nonneg; split; [apply Hx|apply Hy]|].
  intros n ?. by rewrite Z.lor_spec, !u32_testbit_high.
Qed.

(** ** Arrays indexed by [Z]

    A C array is a list; reading outside it is [None], and so is writing. *)

Section Array.
Context {A : Type}.
Implicit Types (t : list A) (i j : Z) (x y : A).

Definition aget t i : option A :=
  if decide (0 <= i) then t !! Z.to_nat i else None.

Definition aset t i x : list A :=
  if decide (0 <= i) then <[Z.to_nat i := x]> t else t.

Definition alen t : Z := Z.of_nat (length t).

Lemma aget_Some_range t i x : aget t i = Some x -> 0 <= i < alen t.
Proof.
  unfold aget, alen. case_decide; [|done]. intros ?%lookup_lt_Some. lia.
Qed.

Lemma aget_is_Some t i : 0 <= i < alen t -> is_Some (aget t i).
Proof.
  unfold aget, alen. intros. case_decide; [|lia]. apply lookup_lt_is_Some. lia.
Qed.

Lemma aget_None t i : aget t i = None <-> ~ (0 <= i < alen t).
Proof.
  split; intros H.
  - intros Hr. destruct (aget_is_Some t i Hr). congruence.
  - destruct (aget t i) eqn:E; [|done]. by apply aget_Some_range in E.
Qed.

Lemma alen_aset t i x : alen (aset t i x) = alen t.
Proof. unfold alen, aset. case_decide; [|done]. by rewrite length_insert. Qed.

Lemma alen_nonneg t : 0 <= alen t.
Proof. unfold alen. lia. Qed.

Lemma aget_aset_eq t i x : 0 <= i < alen t -> aget (aset t i x) i = Some x.
Proof.
  unfold aget, aset, alen. intros. repeat case_decide; try lia.
  apply list_lookup_insert_eq. lia.
Qed.

Lemma aget_aset_ne t i j x : i <> j -> aget (aset t i x) j = aget t j.
Proof.
  unfold aget, aset. intros. repeat case_decide; try done.
  apply list_lookup_insert_ne. lia.
Qed.

Lemma aget_aset t i j x :
  aget (aset t i x) j =
  if decide (i = j /\ 0 <= j < alen t) then Some x else aget t j.
Proof.
  case_decide as H.
  - destruct H as [-> ?]. by apply aget_aset_eq.
  - destruct (decide (i = j)) as [->|]; [|by apply aget_aset_ne].
    rewrite (proj2 (aget_None t j)), aget_None, alen_aset; naive_solver.
Qed.

Lemma aset_aset_eq t i x y : aset (aset t i x) i y = aset t i y.
Proof. unfold aset. case_decide; [|done]. apply list_insert_insert_eq. Qed.

Lemma aget_ext t1 t2 :
  alen t1 = alen t2 -> (forall i, 0 <= i < alen t1 -> aget t1 i = aget t2 i) -> t1 = t2.
Proof.
  unfold alen, aget. intros Hl H. apply list_eq. intros n.
  destruct (decide (n < length t1)%nat).
  - specialize (H (Z.of_nat n)). rewrite Nat2Z.id in H.
    case_decide; [apply H|]; lia.
  - rewrite !lookup_ge_None_2 by lia. done.
Qed.

Lemma aset_id t i x : aget t i = Some x -> aset t i x = t.
Proof.
  intros H. apply aget_ext; [apply alen_aset|]. intros j _.
  rewrite aget_aset. case_decide as Hd; [|done]. destruct Hd as [-> _]. done.
Qed.

Lemma aget_app_l t1 t2 i : i < alen t1 -> aget (t1 ++ t2) i = aget t1 i.
Proof.
  unfold aget, alen. intros. case_decide; [|done]. apply lookup_app_l. lia.
Qed.

Lemma aget_app_r t1 t2 i :
  alen t1 <= i -> aget (t1 ++ t2) i = aget t2 (i - alen t1).
Proof.
  unfold aget, alen. intros. repeat case_decide; try lia.
  rewrite lookup_app_r by lia. f_equal. lia.
Qed.

Lemma alen_app t1 t2 : alen (t1 ++ t2) = alen t1 + alen t2.
Proof. unfold alen. rewrite length_app. lia. Qed.
End Array.

Create HintDb arr discriminated.
Create Rewrite HintDb arr.
#[export] Hint Rewrite @alen_aset @aset_aset_eq @alen_app : arr.
#[export] Hint Resolve aget_Some_range alen_nonneg : arr.

(** Rewrites reads of updated arrays, splitting on index equality. *)
Ltac array_simpl :=
  repeat first
    [ progress autorewrite with arr in *
    | rewrite aget_aset_eq by (autorewrite with arr; (assumption || lia))
    | rewrite aget_aset_ne by (assumption || lia || congruence) ].

(** ** Booleans of the C code *)

Ltac b2p :=
  repeat match goal with
  | H : (_ =? _) = true |- _ => apply Z.eqb_eq in H
  | H : (_ =? _) = false |- _ => apply Z.eqb_neq in H
  | H : (_ <? _) = true |- _ => apply Z.ltb_lt in H
  | H : (_ <? _) = false |- _ => apply Z.ltb_ge in H
  | H : (_ <=? _) = true |- _ => apply Z.leb_le in H
  | H : (_ <=? _) = false |- _ => apply Z.leb_gt in H
  | H : (_ && _)%bool = true |- _ => apply andb_true_iff in H as [? ?]
  | H : (_ && _)%bool = false |- _ => apply andb_false_iff in H
  | H : (_ || _)%bool = true |- _ => apply orb_true_iff in H
  | H : (_ || _)%bool = false |- _ => apply orb_false_iff in H as [? ?]
  | H : negb _ = true |- _ => apply negb_true_iff in H
  | H : negb _ = false |- _ => apply negb_false_iff in H
  end.

(** Case analysis on the first boolean comparison of the goal. *)
Ltac zcase :=
  match goal with
  | |- context [?a =? ?b] => destruct (Z.eqb_spec a b)
  | |- context [?a <? ?b] => destruct (Z.ltb_spec a b)
  | |- context [?a <=? ?b] => destruct (Z.leb_spec a b)
  end.

(** Right-associates concatenations. *)
Ltac app_norm := repeat first [rewrite <- app_assoc | progress cbn [app]].

Ltac app_norm_all := repeat first [progress rewrite <- app_assoc in * | progress cbn [app] in *].

(** ** Association lists sorted by an integer key *)

Section Keyed.
Context {A : Type}.
Implicit Types (l : list (Z * A)) (n : Z).

Definition key_lt (p q : Z * A) : Prop := p.1 < q.1.

Definition keys_sorted l : Prop := StronglySorted key_lt l.

(** Every key of [l] is below (above) [n]. *)
Definition keys_below n l : Prop := Forall (fun p => p.1 < n) l.
Definition keys_above n l : Prop := Forall (fun p => n < p.1) l.

Lemma keys_sorted_app l1 l2 :
  keys_sorted (l1 ++ l2) <->
  keys_sorted l1 /\ keys_sorted l2 /\
  (forall p q, p ∈ l1 -> q ∈ l2 -> p.1 < q.1).
Proof. unfold keys_sorted. rewrite StronglySorted_app. unfold key_lt. naive_solver. Qed.

Lemma keys_sorted_cons p l :
  keys_sorted (p :: l) <-> keys_above p.1 l /\ keys_sorted l.
Proof. apply StronglySorted_cons. Qed.

Lemma keys_below_app n l1 l2 :
  keys_below n (l1 ++ l2) <-> keys_below n l1 /\ keys_below n l2.
Proof. apply Forall_app. Qed.

Lemma keys_above_app n l1 l2 :
  keys_above n (l1 ++ l2) <-> keys_above n l1 /\ keys_above n l2.
Proof. apply Forall_app. Qed.

Lemma keys_below_cons n p l : keys_below n (p :: l) <-> p.1 < n /\ keys_below n l.
Proof. unfold keys_below. by rewrite Forall_cons. Qed.

Lemma keys_above_cons n p l : keys_above n (p :: l) <-> n < p.1 /\ keys_above n l.
Proof. unfold keys_above. by rewrite Forall_cons. Qed.

(** Splitting a sorted list at one of its elements. *)
Lemma keys_sorted_mid l1 n (v : A) l2 :
  keys_sorted (l1 ++ (n, v) :: l2) <->
  keys_sorted l1 /\ keys_sorted l2 /\ keys_below n l1 /\ keys_above n l2.
Proof.
  rewrite keys_sorted_app, keys_sorted_cons. unfold keys_below, keys_above.
  rewrite !Forall_forall. split.
  - intros (H1 & (H2 & H3) & H4). split_and!; try done.
    intros p Hp. apply (H4 p (n, v)); [done|]. apply list_elem_of_here.
  - intros (H1 & H2 & H3 & H4). split_and!; try done.
    intros p q Hp Hq. apply elem_of_cons in Hq as [->|Hq]; [by apply H3|].
    specialize (H3 p Hp). specialize (H4 q Hq). cbn in *. lia.
Qed.

Lemma keys_below_trans n m l : n <= m -> keys_below n l -> keys_below m l.
Proof. intros ? H. eapply Forall_impl; [exact H|]. cbn. intros; lia. Qed.

Lemma keys_above_trans n m l : m <= n -> keys_above n l -> keys_above m l.
Proof. intros ? H. eapply Forall_impl; [exact H|]. cbn. intros; lia. Qed.

Lemma keys_below_elem n l p : keys_below n l -> p ∈ l -> p.1 < n.
Proof. unfold keys_below. rewrite Forall_forall. auto. Qed.

Lemma keys_above_elem n l p : keys_above n l -> p ∈ l -> n < p.1.
Proof. unfold keys_above. rewrite Forall_forall. auto. Qed.

Lemma keys_sorted_NoDup l : keys_sorted l -> NoDup l.*1.
Proof.
  induction l as [|p l IH]; intros H; cbn; [constructor|].
  apply keys_sorted_cons in H as [H1 H2]. constructor; [|by apply IH].
  intros (q & Hq & Hin)%list_elem_of_fmap. unfold keys_above in H1.
  rewrite Forall_forall in H1. specialize (H1 q Hin). lia.
Qed.

(** A key between the keys of two lists is in neither. *)
Lemma keys_gap n l1 l2 :
  keys_below n l1 -> keys_above n l2 -> (list_to_map (l1 ++ l2) : gmap Z A) !! n = None.
Proof.
  intros H1 H2. apply not_elem_of_list_to_map_1.
  intros (q & -> & [Hq|Hq]%elem_of_app)%list_elem_of_fmap.
  - pose proof (keys_below_elem _ _ _ H1 Hq). lia.
  - pose proof (keys_above_elem _ _ _ H2 Hq). lia.
Qed.

Lemma keys_mid_insert n (v : A) l1 l2 :
  keys_sorted (l1 ++ (n, v) :: l2) ->
  (list_to_map (l1 ++ (n, v) :: l2) : gmap Z A) = <[n := v]> (list_to_map (l1 ++ l2)).
Proof.
  intros Hs. pose proof (keys_sorted_NoDup _ Hs) as Hnd.
  rewrite (list_to_map_proper (l1 ++ (n, v) :: l2) ((n, v) :: l1 ++ l2)); [done|done|].
  symmetry. apply Permutation_middle.
Qed.

Lemma keys_mid_delete n (v : A) l1 l2 :
  keys_sorted (l1 ++ (n, v) :: l2) ->
  (list_to_map (l1 ++ l2) : gmap Z A) = delete n (list_to_map (l1 ++ (n, v) :: l2)).
Proof.
  intros Hs. rewrite keys_mid_insert by done.
  apply keys_sorted_mid in Hs as (_ & _ & H1 & H2).
  rewrite delete_insert_id; [done|]. by apply keys_gap.
Qed.

Lemma keys_sorted_drop_mid l1 p l2 : keys_sorted (l1 ++ p :: l2) -> keys_sorted (l1 ++ l2).
Proof.
  rewrite !keys_sorted_app, keys_sorted_cons. intros (? & [_ ?] & Hlt).
  split_and!; try done. intros q q' Hq Hq'. apply Hlt; [done|]. by apply list_elem_of_further.
Qed.

(** Sorted lists with the same map are equal. *)
Lemma keys_sorted_map_inj l1 l2 :
  keys_sorted l1 -> keys_sorted l2 ->
  (list_to_map l1 : gmap Z A) = list_to_map l2 -> l1 = l2.
Proof.
  intros H1 H2 Hm. apply (StronglySorted_unique_strong key_lt); [|done..|].
  { unfold key_lt. intros; lia. }
  apply NoDup_Permutation.
  1,2: eapply NoDup_fmap_1; by apply keys_sorted_NoDup.
  intros [i x]. rewrite !elem_of_list_to_map by (by apply keys_sorted_NoDup).
  by rewrite Hm.
Qed.
End Keyed.

Lemma NoDup_middle {A} (l1 : list A) x l2 : NoDup (l1 ++ x :: l2) -> x ∉ l1 ++ l2.
Proof.
  intros (_ & Hd1 & Hd2)%NoDup_app. apply NoDup_cons in Hd2 as [? _]. intros [Hin|]%elem_of_app; [|done].
  apply (Hd1 x Hin). apply list_elem_of_here.
Qed.
