(* ===== verification/PortName.v ===== *)
(** * Port names and entry bits (ipc/port.h, mach/port.h, ipc/ipc_entry.h)

    A port name packs a table index and a generation number; the bits of a
    capability entry pack the generation, the collision, compat and
    msg-accepted flags, the capability type and the user-reference count.  Both
    layouts depend on [PORT_GENERATIONS], which the sources leave to the
    configuration; the development holds for either setting. *)

From S2P Require Import Prelude.

Class PortConfig := { PORT_GENERATIONS : bool }.

(** ** mach/port.h *)

Definition MACH_PORT_NULL : Z := 0.
Definition MACH_PORT_DEAD : Z := wordsize - 1.

Definition MACH_PORT_VALID (name : Z) : bool :=
  negb (name =? MACH_PORT_NULL) && negb (name =? MACH_PORT_DEAD).

Definition MACH_PORT_RIGHT_SEND : Z := 0.
Definition MACH_PORT_RIGHT_RECEIVE : Z := 1.
Definition MACH_PORT_RIGHT_SEND_ONCE : Z := 2.
Definition MACH_PORT_RIGHT_PORT_SET : Z := 3.
Definition MACH_PORT_RIGHT_DEAD_NAME : Z := 4.
Definition MACH_PORT_RIGHT_NUMBER : Z := 5.

Definition MACH_PORT_TYPE (right : Z) : Z := Z.shiftl 1 (right + 16).
Definition MACH_PORT_TYPE_NONE : Z := 0.
Definition MACH_PORT_TYPE_SEND : Z := MACH_PORT_TYPE MACH_PORT_RIGHT_SEND.
Definition MACH_PORT_TYPE_RECEIVE : Z := MACH_PORT_TYPE MACH_PORT_RIGHT_RECEIVE.
Definition MACH_PORT_TYPE_SEND_ONCE : Z := MACH_PORT_TYPE MACH_PORT_RIGHT_SEND_ONCE.
Definition MACH_PORT_TYPE_PORT_SET : Z := MACH_PORT_TYPE MACH_PORT_RIGHT_PORT_SET.
Definition MACH_PORT_TYPE_DEAD_NAME : Z := MACH_PORT_TYPE MACH_PORT_RIGHT_DEAD_NAME.
Definition MACH_PORT_TYPE_SEND_RECEIVE : Z :=
  Z.lor MACH_PORT_TYPE_SEND MACH_PORT_TYPE_RECEIVE.
Definition MACH_PORT_TYPE_SEND_RIGHTS : Z :=
  Z.lor MACH_PORT_TYPE_SEND MACH_PORT_TYPE_SEND_ONCE.
Definition MACH_PORT_TYPE_PORT_RIGHTS : Z :=
  Z.lor MACH_PORT_TYPE_SEND_RIGHTS MACH_PORT_TYPE_RECEIVE.
Definition MACH_PORT_TYPE_PORT_OR_DEAD : Z :=
  Z.lor MACH_PORT_TYPE_PORT_RIGHTS MACH_PORT_TYPE_DEAD_NAME.

Definition MACH_PORT_TYPE_ALL_RIGHTS : Z :=
  Z.lor MACH_PORT_TYPE_PORT_OR_DEAD MACH_PORT_TYPE_PORT_SET.

(** ** ipc/port.h *)

Definition MACH_PORT_UREFS_MAX : Z := Z.shiftl 1 16 - 1.

(** [urefs] is unsigned and [delta] is an [int]: sums and the comparison with
    [-delta] are made in unsigned arithmetic. *)
Definition MACH_PORT_UREFS_OVERFLOW (urefs delta : Z) : bool :=
  (0 <? delta) &&
  ((u32 (urefs + delta) <=? urefs) || (MACH_PORT_UREFS_MAX <? u32 (urefs + delta))).

Definition MACH_PORT_UREFS_UNDERFLOW (urefs delta : Z) : bool :=
  (delta <? 0) && (urefs <? u32 (- delta)).

(** ** ipc/ipc_entry.h *)

Definition IE_BITS_UREFS_MASK : Z := 0x0000ffff.
Definition IE_BITS_UREFS (bits : Z) : Z := Z.land bits IE_BITS_UREFS_MASK.
Definition IE_BITS_TYPE_MASK : Z := 0x001f0000.
Definition IE_BITS_TYPE (bits : Z) : Z := Z.land bits IE_BITS_TYPE_MASK.
Definition IE_BITS_MAREQUEST : Z := 0x00200000.
Definition IE_BITS_COMPAT : Z := 0x00400000.
Definition IE_BITS_COLLISION : Z := 0x00800000.
Definition IE_BITS_RIGHT_MASK : Z := 0x007fffff.

Section Names.
Context `{PC : PortConfig}.

Definition MACH_PORT_INDEX (name : Z) : Z :=
  if PORT_GENERATIONS then Z.shiftr name 8 else name.

Definition MACH_PORT_GEN (name : Z) : Z :=
  if PORT_GENERATIONS then u32 (Z.shiftl (Z.land name 0xff) 24) else 0.

Definition MACH_PORT_MAKE (index gen : Z) : Z :=
  if PORT_GENERATIONS then Z.lor (u32 (Z.shiftl index 8)) (Z.shiftr gen 24) else index.

Definition IE_BITS_GEN_MASK : Z := if PORT_GENERATIONS then 0xff000000 else 0.
Definition IE_BITS_GEN (bits : Z) : Z :=
  if PORT_GENERATIONS then Z.land bits IE_BITS_GEN_MASK else 0.
Definition IE_BITS_GEN_ONE : Z := if PORT_GENERATIONS then 0x01000000 else 0.

Definition MACH_PORT_MAKEB (index bits : Z) : Z := MACH_PORT_MAKE index (IE_BITS_GEN bits).

(** ** The laws of the name layout *)

(** A generation number as the macros represent it. *)
Definition is_gen (g : Z) : Prop :=
  if PORT_GENERATIONS then exists k, 0 <= k < 256 /\ g = k * 2 ^ 24 else g = 0.

(** An index that [MACH_PORT_MAKE] does not truncate. *)
Definition is_index (i : Z) : Prop := 0 <= i <= MACH_PORT_INDEX MACH_PORT_DEAD.

Lemma make_arith i g :
  is_index i -> is_gen g ->
  MACH_PORT_MAKE i g = if PORT_GENERATIONS then i * 2 ^ 8 + g / 2 ^ 24 else i.
Proof.
  unfold is_index, is_gen, MACH_PORT_MAKE, MACH_PORT_INDEX.
  destruct PORT_GENERATIONS; [|done]. intros [Hi0 Hi1] (k & Hk & ->).
  change (Z.shiftr MACH_PORT_DEAD 8) with (2 ^ 24 - 1) in Hi1.
  rewrite Z.shiftl_mul_pow2, Z.shiftr_div_pow2, Z.div_mul by lia.
  rewrite u32_small by (unfold is_u32, wordsize; lia).
  rewrite <- Z.add_lor_land. 
  enough (Z.land (i * 2 ^ 8) k = 0) as -> by lia.
  apply Z.bits_inj'. intros n Hn. rewrite Z.land_spec, Z.bits_0, Z.mul_pow2_bits by lia.
  destruct (Z.ltb_spec n 8).
  - by rewrite Z.testbit_neg_r by lia.
  - apply andb_false_intro2. destruct (Z.eq_dec k 0) as [->|]; [apply Z.bits_0|].
    apply Z.bits_above_log2; [lia|]. apply Z.log2_lt_pow2; [lia|].
    eapply (Z.lt_le_trans _ (2 ^ 8)); [lia|]. apply Z.pow_le_mono_r; lia.
Qed.

Lemma index_arith name :
  MACH_PORT_INDEX name = if PORT_GENERATIONS then name / 2 ^ 8 else name.
Proof. unfold MACH_PORT_INDEX. by rewrite Z.shiftr_div_pow2. Qed.

Lemma gen_arith name :
  MACH_PORT_GEN name = if PORT_GENERATIONS then (name mod 2 ^ 8) * 2 ^ 24 else 0.
Proof.
  unfold MACH_PORT_GEN. destruct PORT_GENERATIONS; [|done].
  change 0xff with (Z.ones 8). rewrite Z.land_ones, Z.shiftl_mul_pow2 by lia.
  apply u32_small. pose proof (Z.mod_pos_bound name (2 ^ 8)). unfold is_u32, wordsize. lia.
Qed.

Lemma is_gen_port name : is_gen (MACH_PORT_GEN name).
Proof.
  rewrite gen_arith. unfold is_gen. destruct PORT_GENERATIONS; [|done].
  exists (name mod 2 ^ 8). split; [apply Z.mod_pos_bound|]; lia.
Qed.

Lemma is_index_port name : is_u32 name -> is_index (MACH_PORT_INDEX name).
Proof.
  unfold is_index, is_u32. rewrite !index_arith. unfold MACH_PORT_DEAD.
  destruct PORT_GENERATIONS; [|lia]. intros [? ?]. split; [apply Z.div_pos; lia|].
  apply Z.div_le_mono; lia.
Qed.

Lemma index_make i g : is_index i -> is_gen g -> MACH_PORT_INDEX (MACH_PORT_MAKE i g) = i.
Proof.
  intros Hi Hg. rewrite make_arith, index_arith by done. unfold is_gen in Hg.
  destruct PORT_GENERATIONS; [|done]. destruct Hg as (k & Hk & ->).
  rewrite Z.div_mul by lia. rewrite Z.add_comm, Z.div_add by lia. rewrite Z.div_small; lia.
Qed.

Lemma gen_make i g : is_index i -> is_gen g -> MACH_PORT_GEN (MACH_PORT_MAKE i g) = g.
Proof.
  intros Hi Hg. rewrite make_arith, gen_arith by done. unfold is_gen in Hg.
  destruct PORT_GENERATIONS; [|done]. destruct Hg as (k & Hk & ->).
  rewrite Z.div_mul by lia. rewrite Z.add_comm, Z.mod_add by lia. rewrite Z.mod_small; lia.
Qed.

Lemma make_index_gen name :
  is_u32 name -> MACH_PORT_MAKE (MACH_PORT_INDEX name) (MACH_PORT_GEN name) = name.
Proof.
  intros Hn. rewrite make_arith by auto using is_index_port, is_gen_port.
  rewrite index_arith, gen_arith. destruct PORT_GENERATIONS; [|done].
  rewrite Z.div_mul by lia. pose proof (Z.div_mod name (2 ^ 8)). lia.
Qed.

Lemma make_u32 i g : is_index i -> is_gen g -> is_u32 (MACH_PORT_MAKE i g).
Proof.
  unfold is_index. intros Hi Hg. rewrite make_arith by done. unfold is_gen, is_u32 in *.
  rewrite index_arith in Hi. unfold MACH_PORT_DEAD, wordsize in *.
  destruct PORT_GENERATIONS; [|lia]. destruct Hg as (k & Hk & ->).
  rewrite Z.div_mul by lia. change ((2 ^ 32 - 1) / 2 ^ 8) with (2 ^ 24 - 1) in Hi. lia.
Qed.

(** Names are ordered by index: what [ipc_splay_tree_split] relies on. *)
Lemma make_zero_le i name :
  is_index i -> is_u32 name -> MACH_PORT_MAKE i 0 <= name <-> i <= MACH_PORT_INDEX name.
Proof.
  intros Hi Hn. assert (is_gen 0) as H0.
  { unfold is_gen. destruct PORT_GENERATIONS; [exists 0; lia|done]. }
  rewrite make_arith, index_arith by done. destruct PORT_GENERATIONS; [|done].
  change (0 / 2 ^ 24) with 0. rewrite Z.add_0_r.
  pose proof (Z.div_mod name (2 ^ 8)). pose proof (Z.mod_pos_bound name (2 ^ 8)). lia.
Qed.

Lemma index_mono a b : a <= b -> MACH_PORT_INDEX a <= MACH_PORT_INDEX b.
Proof.
  intros. rewrite !index_arith. destruct PORT_GENERATIONS; [|done]. apply Z.div_le_mono; lia.
Qed.

Lemma index_gen_inj a b :
  MACH_PORT_INDEX a = MACH_PORT_INDEX b -> MACH_PORT_GEN a = MACH_PORT_GEN b -> a = b.
Proof.
  rewrite !index_arith, !gen_arith. destruct PORT_GENERATIONS; [|done]. intros Hi Hg.
  pose proof (Z.div_mod a (2 ^ 8)). pose proof (Z.div_mod b (2 ^ 8)). lia.
Qed.

(** Names with an index between those of the null and the dead name. *)
Lemma make_valid i g :
  0 < i < MACH_PORT_INDEX MACH_PORT_DEAD -> is_gen g -> MACH_PORT_VALID (MACH_PORT_MAKE i g) = true.
Proof.
  intros Hi Hg. assert (MACH_PORT_INDEX (MACH_PORT_MAKE i g) = i) as Hx
    by (apply index_make; [unfold is_index; lia|done]).
  unfold MACH_PORT_VALID. apply andb_true_iff. split; apply negb_true_iff, Z.eqb_neq; intros E;
    rewrite E in Hx; [|lia]. revert Hx. rewrite index_arith. unfold MACH_PORT_NULL.
  destruct PORT_GENERATIONS; [change (0 / 2 ^ 8) with 0|]; lia.
Qed.

(** ** The laws of the entry bits *)

Definition IE_BITS_RIGHT (bits : Z) : Z := Z.land bits IE_BITS_RIGHT_MASK.

Lemma urefs_mask_testbit n : 0 <= n -> Z.testbit IE_BITS_UREFS_MASK n = (0 <=? n) && (n <? 0 + 16).
Proof. intros. by apply mask_testbit. Qed.
Lemma type_mask_testbit n : 0 <= n -> Z.testbit IE_BITS_TYPE_MASK n = (16 <=? n) && (n <? 16 + 5).
Proof. intros. by apply mask_testbit. Qed.
Lemma right_mask_testbit n : 0 <= n -> Z.testbit IE_BITS_RIGHT_MASK n = (0 <=? n) && (n <? 0 + 23).
Proof. intros. by apply mask_testbit. Qed.
Lemma collision_testbit n : 0 <= n -> Z.testbit IE_BITS_COLLISION n = (n =? 23).
Proof. intros. by apply bit_testbit. Qed.
Lemma compat_testbit n : 0 <= n -> Z.testbit IE_BITS_COMPAT n = (n =? 22).
Proof. intros. by apply bit_testbit. Qed.
Lemma marequest_testbit n : 0 <= n -> Z.testbit IE_BITS_MAREQUEST n = (n =? 21).
Proof. intros. by apply bit_testbit. Qed.
Lemma gen_mask_testbit n :
  0 <= n -> Z.testbit IE_BITS_GEN_MASK n = PORT_GENERATIONS && ((24 <=? n) && (n <? 24 + 8)).
Proof.
  intros. unfold IE_BITS_GEN_MASK. destruct PORT_GENERATIONS; cbn [andb]; [by apply mask_testbit|apply Z.bits_0].
Qed.

Lemma IE_BITS_GEN_land bits : IE_BITS_GEN bits = Z.land bits IE_BITS_GEN_MASK.
Proof. unfold IE_BITS_GEN, IE_BITS_GEN_MASK. destruct PORT_GENERATIONS; [done|by rewrite Z.land_0_r]. Qed.

(** A generation is a word whose only set bits are in the generation mask. *)
Lemma is_gen_land g : is_gen g <-> is_u32 g /\ Z.land g IE_BITS_GEN_MASK = g.
Proof.
  unfold is_gen, IE_BITS_GEN_MASK. destruct PORT_GENERATIONS.
  2:{ rewrite Z.land_0_r. split; [intros ->; done|by intros [_ ?]]. }
  assert (forall x, is_u32 x -> Z.land x 0xff000000 = x / 2 ^ 24 * 2 ^ 24) as Hm.
  { intros x Hx. rewrite <- Z.shiftl_mul_pow2, <- Z.shiftr_div_pow2 by lia.
    apply Z.bits_inj'. intros n Hn. rewrite Z.land_spec, (mask_testbit 0xff000000 24 8) by done.
    rewrite Z.shiftl_spec by done. destruct (Z.leb_spec 24 n).
    - rewrite Z.shiftr_spec by lia. replace (n - 24 + 24) with n by lia.
      destruct (Z.ltb_spec n (24 + 8)); [by rewrite andb_true_r|].
      rewrite (u32_testbit_high x) by (done || lia). done.
    - rewrite (Z.testbit_neg_r _ (n - 24)) by lia. apply andb_false_r. }
  split.
  - intros (k & Hk & ->). assert (is_u32 (k * 2 ^ 24)) by (unfold is_u32, wordsize; lia).
    split; [done|]. rewrite Hm, Z.div_mul by (done || lia). done.
  - intros [Hg He]. exists (g / 2 ^ 24). rewrite Hm in He by done. split; [|done].
    unfold is_u32, wordsize in Hg. split; [apply Z.div_pos; lia|].
    apply Z.div_lt_upper_bound; lia.
Qed.

End Names.

(** Proves an equation between words bit by bit. *)
Ltac bits_pose n :=
  repeat match goal with
  | H : @eq Z _ _ |- _ => apply (f_equal (fun z => Z.testbit z n)) in H
  end.

Ltac bits_solve :=
  let n := fresh "n" in
  let Hn := fresh "Hn" in
  apply Z.bits_inj'; intros n Hn; bits_pose n; cbv beta in *;
  rewrite ?Z.land_spec, ?Z.lor_spec, ?Z.ldiff_spec, ?Z.bits_0, ?urefs_mask_testbit,
    ?type_mask_testbit, ?right_mask_testbit, ?collision_testbit, ?compat_testbit,
    ?marequest_testbit, ?gen_mask_testbit in * by exact Hn;
  repeat match goal with
  | |- context [Z.testbit ?a n] => destruct (Z.testbit a n)
  | H : context [Z.testbit ?a n] |- _ => destruct (Z.testbit a n)
  end;
  destruct PORT_GENERATIONS; cbn in *; lia.

Section BitLaws.
Context `{PC : PortConfig}.

Lemma gen_land_self g : is_gen g -> Z.land g IE_BITS_GEN_MASK = g.
Proof. by intros [_ ?]%is_gen_land. Qed.

Lemma is_gen_u32 g : is_gen g -> is_u32 g.
Proof. by intros [? _]%is_gen_land. Qed.

Lemma gen_of_gen g : is_gen g -> IE_BITS_GEN g = g.
Proof. rewrite IE_BITS_GEN_land. apply gen_land_self. Qed.

Lemma gen_mask_is_gen : is_gen IE_BITS_GEN_MASK.
Proof. unfold is_gen, IE_BITS_GEN_MASK. destruct PORT_GENERATIONS; [exists 255; lia|done]. Qed.

Lemma is_gen_mask b : is_u32 b -> is_gen (Z.land b IE_BITS_GEN_MASK).
Proof. intros Hb. apply is_gen_land. split; [by apply is_u32_land|]. bits_solve. Qed.

Lemma is_gen_bits b : is_u32 b -> is_gen (IE_BITS_GEN b).
Proof.
  intros Hb. rewrite IE_BITS_GEN_land. apply is_gen_land. split; [by apply is_u32_land|].
  bits_solve.
Qed.

Lemma right_of_gen g : is_gen g -> IE_BITS_RIGHT g = 0.
Proof. intros H%gen_land_self. unfold IE_BITS_RIGHT. bits_solve. Qed.

Lemma type_of_gen g : is_gen g -> IE_BITS_TYPE g = 0.
Proof. intros H%gen_land_self. unfold IE_BITS_TYPE. bits_solve. Qed.

Lemma collision_of_gen g : is_gen g -> Z.land g IE_BITS_COLLISION = 0.
Proof. intros H%gen_land_self. bits_solve. Qed.

(** Setting and clearing the collision bit leaves the other fields. *)
Lemma type_set_collision b : IE_BITS_TYPE (Z.lor b IE_BITS_COLLISION) = IE_BITS_TYPE b.
Proof. unfold IE_BITS_TYPE. bits_solve. Qed.
Lemma right_set_collision b : IE_BITS_RIGHT (Z.lor b IE_BITS_COLLISION) = IE_BITS_RIGHT b.
Proof. unfold IE_BITS_RIGHT. bits_solve. Qed.
Lemma gen_set_collision b : IE_BITS_GEN (Z.lor b IE_BITS_COLLISION) = IE_BITS_GEN b.
Proof. rewrite !IE_BITS_GEN_land. bits_solve. Qed.
Lemma collision_set_collision b :
  Z.land (Z.lor b IE_BITS_COLLISION) IE_BITS_COLLISION = IE_BITS_COLLISION.
Proof. bits_solve. Qed.
Lemma type_clear_collision b : IE_BITS_TYPE (Z.ldiff b IE_BITS_COLLISION) = IE_BITS_TYPE b.
Proof. unfold IE_BITS_TYPE. bits_solve. Qed.
Lemma right_clear_collision b : IE_BITS_RIGHT (Z.ldiff b IE_BITS_COLLISION) = IE_BITS_RIGHT b.
Proof. unfold IE_BITS_RIGHT. bits_solve. Qed.
Lemma gen_clear_collision b : IE_BITS_GEN (Z.ldiff b IE_BITS_COLLISION) = IE_BITS_GEN b.
Proof. rewrite !IE_BITS_GEN_land. bits_solve. Qed.
Lemma collision_clear_collision b : Z.land (Z.ldiff b IE_BITS_COLLISION) IE_BITS_COLLISION = 0.
Proof. bits_solve. Qed.

(** Adding a generation to the bits of a tree entry, which has none. *)
Lemma type_lor_gen b g : is_gen g -> IE_BITS_TYPE (Z.lor b g) = IE_BITS_TYPE b.
Proof. intros H%gen_land_self. unfold IE_BITS_TYPE. bits_solve. Qed.
Lemma right_lor_gen b g : is_gen g -> IE_BITS_RIGHT (Z.lor b g) = IE_BITS_RIGHT b.
Proof. intros H%gen_land_self. unfold IE_BITS_RIGHT. bits_solve. Qed.
Lemma gen_lor_gen b g : is_gen g -> IE_BITS_RIGHT b = b -> IE_BITS_GEN (Z.lor b g) = g.
Proof.
  intros H%gen_land_self Hb. unfold IE_BITS_RIGHT in Hb. rewrite IE_BITS_GEN_land. bits_solve.
Qed.
Lemma collision_lor_gen b g :
  is_gen g -> IE_BITS_RIGHT b = b -> Z.land (Z.lor b g) IE_BITS_COLLISION = 0.
Proof. intros H%gen_land_self Hb. unfold IE_BITS_RIGHT in Hb. bits_solve. Qed.

(** A right's bits determine its type. *)
Lemma type_right b : IE_BITS_TYPE (IE_BITS_RIGHT b) = IE_BITS_TYPE b.
Proof. unfold IE_BITS_TYPE, IE_BITS_RIGHT. bits_solve. Qed.
Lemma right_right b : IE_BITS_RIGHT (IE_BITS_RIGHT b) = IE_BITS_RIGHT b.
Proof. unfold IE_BITS_RIGHT. bits_solve. Qed.

(** The generation of a free entry is incremented modulo its width. *)
Lemma gen_incr g : is_gen g -> is_gen (u32 (g + IE_BITS_GEN_ONE)).
Proof.
  unfold is_gen, IE_BITS_GEN_ONE, u32, wordsize. destruct PORT_GENERATIONS; [|intros ->; done].
  intros (k & Hk & ->). exists ((k + 1) mod 256). split; [apply Z.mod_pos_bound; lia|].
  replace (k * 2 ^ 24 + 0x01000000) with ((k + 1) * 2 ^ 24) by lia.
  change (2 ^ 32) with (256 * 2 ^ 24). by rewrite Z.mul_mod_distr_r by lia.
Qed.
End BitLaws.

Create Rewrite HintDb iebits.
#[export] Hint Rewrite @type_set_collision @right_set_collision @gen_set_collision
  @collision_set_collision @type_clear_collision @right_clear_collision @gen_clear_collision
  @collision_clear_collision @type_right @right_right : iebits.

(** The user-reference macros, for counts in range. *)
Lemma urefs_macros_bounds urefs delta
    (Hu : 0 <= urefs <= MACH_PORT_UREFS_MAX) (Hd : - 2 ^ 31 <= delta < 2 ^ 31) :
  (MACH_PORT_UREFS_OVERFLOW urefs delta = true <-> MACH_PORT_UREFS_MAX < urefs + delta) /\
  (MACH_PORT_UREFS_UNDERFLOW urefs delta = true <-> urefs + delta < 0) /\
  (MACH_PORT_UREFS_OVERFLOW urefs delta = false -> MACH_PORT_UREFS_UNDERFLOW urefs delta = false ->
   0 <= urefs + delta <= MACH_PORT_UREFS_MAX).
Proof.
  unfold MACH_PORT_UREFS_OVERFLOW, MACH_PORT_UREFS_UNDERFLOW.
  change MACH_PORT_UREFS_MAX with 65535 in *.
  assert (0 < delta -> u32 (urefs + delta) = urefs + delta) as H1
    by (intros; apply u32_small; unfold is_u32, wordsize; lia).
  assert (delta < 0 -> u32 (- delta) = - delta) as H2
    by (intros; apply u32_small; unfold is_u32, wordsize; lia).
  destruct (Z.ltb_spec 0 delta) as [Hp|Hp], (Z.ltb_spec delta 0) as [Hn|Hn]; cbn [andb]; [lia| | |lia].
  - rewrite (H1 Hp), orb_true_iff, orb_false_iff, Z.leb_le, Z.leb_gt, Z.ltb_lt, Z.ltb_ge. lia.
  - rewrite (H2 Hn), Z.ltb_lt, Z.ltb_ge. lia.
Qed.

(** ** Theorems *)

(** Names and their parts determine each other.  Every 32-bit name is rebuilt
    from its index and generation, and an index up to that of the dead name with
    any generation gives a 32-bit name with that index and generation; names
    compare as their indices do.  This holds with and without port generations. *)
Lemma port_name_layout `{PortConfig} :
  (forall name, is_u32 name -> is_index (MACH_PORT_INDEX name) /\ is_gen (MACH_PORT_GEN name) /\
     MACH_PORT_MAKE (MACH_PORT_INDEX name) (MACH_PORT_GEN name) = name) /\
  (forall i g, is_index i -> is_gen g -> is_u32 (MACH_PORT_MAKE i g) /\
     MACH_PORT_INDEX (MACH_PORT_MAKE i g) = i /\ MACH_PORT_GEN (MACH_PORT_MAKE i g) = g) /\
  (forall a b, is_u32 a -> is_u32 b -> MACH_PORT_INDEX a < MACH_PORT_INDEX b -> a < b).
Proof.
  split_and!.
  - intros name Hn. auto using is_index_port, is_gen_port, make_index_gen.
  - intros i g Hi Hg. auto using make_u32, index_make, gen_make.
  - intros a b _ _ Hlt. destruct (Z.lt_ge_cases a b) as [|Hge%index_mono]; [done|lia].
Qed.

(** The user-reference macros are exact.  For a count of at most
    MACH_PORT_UREFS_MAX and any 32-bit signed delta, MACH_PORT_UREFS_OVERFLOW holds
    exactly when the sum exceeds the maximum and MACH_PORT_UREFS_UNDERFLOW exactly
    when it is negative, in spite of the wrap-around of the unsigned sums; when
    neither holds the sum is a legal count. *)
Lemma urefs_macros_exact urefs delta
    (Hu : 0 <= urefs <= MACH_PORT_UREFS_MAX) (Hd : - 2 ^ 31 <= delta < 2 ^ 31) :
  (MACH_PORT_UREFS_OVERFLOW urefs delta = true <-> MACH_PORT_UREFS_MAX < urefs + delta) /\
  (MACH_PORT_UREFS_UNDERFLOW urefs delta = true <-> urefs + delta < 0) /\
  (MACH_PORT_UREFS_OVERFLOW urefs delta = false -> MACH_PORT_UREFS_UNDERFLOW urefs delta = false ->
   0 <= urefs + delta <= MACH_PORT_UREFS_MAX).
Proof. by apply urefs_macros_bounds. Qed.

Lemma urefs_macros_exact_witness :
  (MACH_PORT_UREFS_OVERFLOW 65535 1 = true <-> MACH_PORT_UREFS_MAX < 65535 + 1) /\
  (MACH_PORT_UREFS_UNDERFLOW 65535 1 = true <-> 65535 + 1 < 0) /\
  (MACH_PORT_UREFS_OVERFLOW 65535 1 = false -> MACH_PORT_UREFS_UNDERFLOW 65535 1 = false ->
   0 <= 65535 + 1 <= MACH_PORT_UREFS_MAX).
Proof. apply (urefs_macros_exact 65535 1); vm_compute; split; congruence. Defined.
