(* ===== verification/IpcSplay.v ===== *)
(** * Splay trees of capability entries (ipc/ipc_splay.c)

    The splay tree holds the entries of a space whose names do not fit in the
    space's table.  It is stored unassembled, as the left, middle and right
    trees of a top-down splay.  A tree node is [ITE]; the left (right) tree is
    a context whose hole is the child field that [ist_ltreep] ([ist_rtreep])
    points to.  Traversal inverts child pointers, so the chain of parents is
    again a value of the tree type. *)

From S2P Require Import Prelude.

(** Boundary names handed to [ipc_splay_prim_lookup]. *)
Definition MACH_PORT_SMALLEST : Z := 0.
Definition MACH_PORT_LARGEST : Z := wordsize - 1.

Section Splay.
Context {A : Type}.

(** ** Data *)

Inductive ite_tree : Type :=
| ITE_NULL : ite_tree
| ITE : ite_tree -> Z -> A -> ite_tree -> ite_tree.

(** A node of the left tree whose [ite_rchild] is the hole, and a node of the
    right tree whose [ite_lchild] is the hole. *)
Record lframe := LFrame { lf_lchild : ite_tree; lf_name : Z; lf_entry : A }.
Record rframe := RFrame { rf_name : Z; rf_entry : A; rf_rchild : ite_tree }.

(** [*ltreep = t] and [*rtreep = t], read back from the root of the tree.  The
    innermost frame, the one whose field the pointer designates, is the head. *)
Fixpoint plug_ltree (k : list lframe) (t : ite_tree) : ite_tree :=
  match k with
  | [] => t
  | f :: k' => plug_ltree k' (ITE (lf_lchild f) (lf_name f) (lf_entry f) t)
  end.

Fixpoint plug_rtree (k : list rframe) (t : ite_tree) : ite_tree :=
  match k with
  | [] => t
  | f :: k' => plug_rtree k' (ITE t (rf_name f) (rf_entry f) (rf_rchild f))
  end.

Record ipc_splay_tree := mk_splay {
  ist_name : Z;                 (* name used in last lookup *)
  ist_root : ite_tree;          (* root of middle tree *)
  ist_ltree : list lframe;      (* left tree and the pointer into it *)
  ist_rtree : list rframe       (* right tree and the pointer into it *)
}.

Definition non_null (t : ite_tree) : bool :=
  match t with ITE_NULL => false | ITE _ _ _ _ => true end.

(** ** ipc_splay_prim_lookup *)

(** The locals of the top-down splay: the middle tree and the two pointers. *)
Record prim_state := mk_prim {
  ps_tree : ite_tree; ps_ltree : list lframe; ps_rtree : list rframe }.

Definition link_left (st : prim_state) : option prim_state :=
  match ps_tree st with
  | ITE l n v r => Some (mk_prim r (LFrame l n v :: ps_ltree st) (ps_rtree st))
  | ITE_NULL => None
  end.

Definition link_right (st : prim_state) : option prim_state :=
  match ps_tree st with
  | ITE l n v r => Some (mk_prim l (ps_ltree st) (RFrame n v r :: ps_rtree st))
  | ITE_NULL => None
  end.

Definition rotate_left (st : prim_state) : option prim_state :=
  match ps_tree st with
  | ITE l n v (ITE rl rn rv rr) =>
      Some (mk_prim (ITE (ITE l n v rl) rn rv rr) (ps_ltree st) (ps_rtree st))
  | _ => None
  end.

Definition rotate_right (st : prim_state) : option prim_state :=
  match ps_tree st with
  | ITE (ITE ll ln lv lr) n v r =>
      Some (mk_prim (ITE ll ln lv (ITE lr n v r)) (ps_ltree st) (ps_rtree st))
  | _ => None
  end.

(** One evaluation of the loop condition and body; [false] is loop exit. *)
Definition prim_body (name : Z) (st : prim_state) : option (bool * prim_state) :=
  match ps_tree st with
  | ITE_NULL => None
  | ITE lchild tname _ rchild =>
      if name =? tname then Some (false, st)
      else if name <? tname then
        (* descend to left *)
        match lchild with
        | ITE_NULL => Some (false, st)
        | ITE ll lname _ lr =>
            LET st1 <- (if (name <? lname) && non_null ll
                        then rotate_right st else Some st) ;;
            LET st2 <- link_right st1 ;;
            LET st3 <- (if (lname <? name) && non_null lr
                        then link_left st2 else Some st2) ;;
            ASSERT non_null (ps_tree st3) ;; Some (true, st3)
        end
      else
        (* descend to right *)
        match rchild with
        | ITE_NULL => Some (false, st)
        | ITE rl rname _ rr =>
            LET st1 <- (if (rname <? name) && non_null rr
                        then rotate_left st else Some st) ;;
            LET st2 <- link_left st1 ;;
            LET st3 <- (if (name <? rname) && non_null rl
                        then link_right st2 else Some st2) ;;
            ASSERT non_null (ps_tree st3) ;; Some (true, st3)
        end
  end%bool.

Fixpoint prim_loop (fuel : nat) (name : Z) (st : prim_state) : option prim_state :=
  match fuel with
  | O => None
  | S fuel' =>
      LET (again, st') <- prim_body name st ;;
      if again : bool then prim_loop fuel' name st' else Some st'
  end.

Fixpoint tree_size (t : ite_tree) : nat :=
  match t with
  | ITE_NULL => 0
  | ITE l _ _ r => S (tree_size l + tree_size r)
  end.

Definition ipc_splay_prim_lookup (name : Z) (tree : ite_tree) : option prim_state :=
  ASSERT non_null tree ;; prim_loop (tree_size tree) name (mk_prim tree [] []).

(** ** ipc_splay_prim_assemble *)

Definition ipc_splay_prim_assemble (tree : ite_tree)
    (ltree : list lframe) (rtree : list rframe) : option ite_tree :=
  match tree with
  | ITE_NULL => None
  | ITE l n v r => Some (ITE (plug_ltree ltree l) n v (plug_rtree rtree r))
  end.

(** ** The operations *)

(** The fields that a null [ist_root] leaves uninitialised are left as they
    are found; nothing reads them. *)
Definition ipc_splay_tree_init (splay : ipc_splay_tree) : ipc_splay_tree :=
  mk_splay (ist_name splay) ITE_NULL (ist_ltree splay) (ist_rtree splay).

Definition ipc_splay_tree_pick (splay : ipc_splay_tree) : option (Z * A) :=
  match ist_root splay with
  | ITE_NULL => None
  | ITE _ n v _ => Some (n, v)
  end.

(** The splaying prefix shared by the operations: reassemble and look [name]
    up again unless the last lookup was of the same name. *)
Definition splay_to (splay : ipc_splay_tree) (name : Z) : option prim_state :=
  if ist_name splay =? name then
    Some (mk_prim (ist_root splay) (ist_ltree splay) (ist_rtree splay))
  else
    LET root <- ipc_splay_prim_assemble (ist_root splay)
                  (ist_ltree splay) (ist_rtree splay) ;;
    ipc_splay_prim_lookup name root.

Definition ipc_splay_tree_lookup (splay : ipc_splay_tree) (name : Z)
    : option (ipc_splay_tree * option A) :=
  match ist_root splay with
  | ITE_NULL => Some (splay, None)
  | ITE _ _ _ _ =>
      LET st <- splay_to splay name ;;
      let splay' := mk_splay name (ps_tree st) (ps_ltree st) (ps_rtree st) in
      match ps_tree st with
      | ITE_NULL => None
      | ITE _ n v _ => Some (splay', if name =? n then Some v else None)
      end
  end.

Definition ipc_splay_tree_insert (splay : ipc_splay_tree) (name : Z) (entry : A)
    : option ipc_splay_tree :=
  match ist_root splay with
  | ITE_NULL => Some (mk_splay name (ITE ITE_NULL name entry ITE_NULL) [] [])
  | ITE _ _ _ _ =>
      LET st <- splay_to splay name ;;
      match ps_tree st with
      | ITE_NULL => None
      | ITE l n v r =>
          ASSERT negb (n =? name) ;;
          LET (ltree, rtree) <-
            (if name <? n then
               ASSERT negb (non_null l) ;;
               Some (plug_ltree (ps_ltree st) ITE_NULL,
                     plug_rtree (ps_rtree st) (ps_tree st))
             else
               ASSERT negb (non_null r) ;;
               Some (plug_ltree (ps_ltree st) (ps_tree st),
                     plug_rtree (ps_rtree st) ITE_NULL)) ;;
          Some (mk_splay name (ITE ltree name entry rtree) [] [])
      end
  end.

(** [ist_root], [ist_name] and the pointers after the root is replaced by an
    assembled tree; when the tree is empty only [ist_root] is stored. *)
Definition splay_reset (splay : ipc_splay_tree) (root : ite_tree) : ipc_splay_tree :=
  match root with
  | ITE_NULL => mk_splay (ist_name splay) ITE_NULL (ist_ltree splay) (ist_rtree splay)
  | ITE _ n _ _ => mk_splay n root [] []
  end.

(** [root->ite_rchild = saved] under [assert(root->ite_rchild == ITE_NULL)]. *)
Definition set_null_rchild (root saved : ite_tree) : option ite_tree :=
  match root with
  | ITE l n v ITE_NULL => Some (ITE l n v saved)
  | _ => None
  end.

Definition set_null_lchild (root sroot : ite_tree) : option ite_tree :=
  match root, sroot with
  | ITE ITE_NULL n v r, ITE _ sn _ _ => ASSERT sn <? n ;; Some (ITE sroot n v r)
  | _, _ => None
  end.

Definition ipc_splay_tree_delete (splay : ipc_splay_tree) (name : Z)
    : option ipc_splay_tree :=
  ASSERT non_null (ist_root splay) ;;
  LET st <- splay_to splay name ;;
  match ps_tree st with
  | ITE_NULL => None
  | ITE l n v r =>
      ASSERT n =? name ;;
      let root := plug_ltree (ps_ltree st) l in
      let saved := plug_rtree (ps_rtree st) r in
      LET root' <-
        (if negb (non_null root) then Some saved
         else if non_null saved then
           LET st' <- ipc_splay_prim_lookup MACH_PORT_LARGEST root ;;
           LET root' <- ipc_splay_prim_assemble (ps_tree st') (ps_ltree st') (ps_rtree st') ;;
           set_null_rchild root' saved
         else Some root) ;;
      Some (splay_reset splay root')
  end.

(** Returns the tree of the names at or above [name], and [small]. *)
Definition ipc_splay_tree_split (splay : ipc_splay_tree) (name : Z)
    (small : ipc_splay_tree) : option (ipc_splay_tree * ipc_splay_tree) :=
  let small := ipc_splay_tree_init small in
  match ist_root splay with
  | ITE_NULL => Some (splay, small)
  | ITE _ _ _ _ =>
      LET st <- splay_to splay name ;;
      match ps_tree st with
      | ITE_NULL => None
      | ITE l n v r =>
          if n <? name then
            (* root goes into small *)
            ASSERT negb (non_null r) ;;
            let rtree := plug_rtree (ps_rtree st) ITE_NULL in
            let root := ITE (plug_ltree (ps_ltree st) l) n v r in
            Some (splay_reset splay rtree, mk_splay n root [] [])
          else
            (* root stays in splay *)
            let ltree := plug_ltree (ps_ltree st) l in
            Some (mk_splay name (ITE ITE_NULL n v r) [] (ps_rtree st),
                  splay_reset small ltree)
      end
  end.

(** Returns [splay] and the emptied [small]. *)
Definition ipc_splay_tree_join (splay small : ipc_splay_tree)
    : option (ipc_splay_tree * ipc_splay_tree) :=
  match ist_root small with
  | ITE_NULL => Some (splay, small)
  | ITE _ _ _ _ =>
      LET sroot <- ipc_splay_prim_assemble (ist_root small)
                     (ist_ltree small) (ist_rtree small) ;;
      let small' := ipc_splay_tree_init small in
      LET root <-
        match ist_root splay with
        | ITE_NULL => Some sroot
        | ITE _ _ _ _ =>
            (* get smallest entry in splay tree to top *)
            LET st <- splay_to splay MACH_PORT_SMALLEST ;;
            LET root <- ipc_splay_prim_assemble (ps_tree st) (ps_ltree st) (ps_rtree st) ;;
            set_null_lchild root sroot
        end ;;
      Some (splay_reset splay root, small')
  end.

Definition ipc_splay_tree_bounds (splay : ipc_splay_tree) (name : Z)
    : option (ipc_splay_tree * (Z * Z)) :=
  match ist_root splay with
  | ITE_NULL => Some (splay, (MACH_PORT_LARGEST, MACH_PORT_SMALLEST))
  | ITE _ _ _ _ =>
      LET st <- splay_to splay name ;;
      let splay' := mk_splay name (ps_tree st) (ps_ltree st) (ps_rtree st) in
      match ps_tree st with
      | ITE_NULL => None
      | ITE _ rname _ _ =>
          let lower :=
            if rname <=? name then rname
            else match ps_ltree st with
                 | [] => MACH_PORT_LARGEST
                 | f :: _ => lf_name f
                 end in
          let upper :=
            if name <=? rname then rname
            else match ps_rtree st with
                 | [] => MACH_PORT_SMALLEST
                 | f :: _ => rf_name f
                 end in
          Some (splay', (lower, upper))
      end
  end.

(** ** Traversal by pointer inversion *)

(** [ist_ltree] and [ist_rtree] of a tree under traversal hold the current
    entry and its parent; the parent's child field on the path holds the
    parent's parent.  [trav_root] is [ist_root], stored when the traversal
    ends. *)
Record traversal := mk_trav {
  trav_current : ite_tree; trav_parent : ite_tree; trav_root : ite_tree }.

(** [traverse_left]: descend to the leftmost entry, inverting left children. *)
Fixpoint traverse_left (current parent : ite_tree) : ite_tree * ite_tree :=
  match current with
  | ITE (ITE _ _ _ _ as next) n v r => traverse_left next (ITE parent n v r)
  | _ => (current, parent)
  end.

(** [traverse_back]: ascend until the current entry is a left child.  The
    result is the entry to visit, or the restored tree at the top. *)
Fixpoint traverse_back (fuel : nat) (current parent : ite_tree)
    : option (ite_tree + ite_tree * ite_tree) :=
  match fuel with
  | O => None
  | S fuel' =>
      match parent with
      | ITE_NULL => Some (inl current)
      | ITE pl pn pv pr =>
          match current with
          | ITE_NULL => None
          | ITE _ cn _ _ =>
              if cn <? pn then Some (inr (ITE current pn pv pr, pl))
              else traverse_back fuel' (ITE pl pn pv current) pr
          end
      end
  end.

(** [traverse_entry] stores the cursor and returns the current entry. *)
Definition traverse_entry (tr : traversal) (current parent : ite_tree)
    : option (traversal * option (Z * A)) :=
  match current with
  | ITE_NULL => None
  | ITE _ n v _ => Some (mk_trav current parent (trav_root tr), Some (n, v))
  end.

Definition traverse_back_from (tr : traversal) (current parent : ite_tree)
    : option (traversal * option (Z * A)) :=
  LET res <- traverse_back (S (tree_size parent)) current parent ;;
  match res with
  | inl root => Some (mk_trav (trav_current tr) (trav_parent tr) root, None)
  | inr (current', parent') => traverse_entry tr current' parent'
  end.

Definition traverse_right_from (tr : traversal) (current parent : ite_tree)
    : option (traversal * option (Z * A)) :=
  match current with
  | ITE_NULL => None
  | ITE l n v (ITE _ _ _ _ as next) =>
      let '(current', parent') := traverse_left next (ITE l n v parent) in
      traverse_entry tr current' parent'
  | ITE _ _ _ ITE_NULL => traverse_back_from tr current parent
  end.

Definition ipc_splay_traverse_start (splay : ipc_splay_tree)
    : option (traversal * option (Z * A)) :=
  match ist_root splay with
  | ITE_NULL => Some (mk_trav ITE_NULL ITE_NULL ITE_NULL, None)
  | ITE _ _ _ _ =>
      LET current <- ipc_splay_prim_assemble (ist_root splay)
                       (ist_ltree splay) (ist_rtree splay) ;;
      let '(current', parent') := traverse_left current ITE_NULL in
      traverse_entry (mk_trav current ITE_NULL current) current' parent'
  end.

Definition ipc_splay_traverse_next (tr : traversal) (delete : bool)
    : option (traversal * option (Z * A)) :=
  let current := trav_current tr in
  let parent := trav_parent tr in
  match current with
  | ITE_NULL => None
  | ITE l cn cv r =>
      if negb delete then traverse_right_from tr current parent
      else
        (* we must delete current and patch the tree *)
        match l, r with
        | ITE_NULL, ITE_NULL =>
            match parent with
            | ITE_NULL => Some (mk_trav current parent ITE_NULL, None)
            | ITE pl pn pv pr =>
                if cn <? pn then traverse_entry tr (ITE ITE_NULL pn pv pr) pl
                else traverse_back_from tr (ITE pl pn pv ITE_NULL) pr
            end
        | ITE_NULL, ITE _ _ _ _ =>
            let '(current', parent') := traverse_left r parent in
            traverse_entry tr current' parent'
        | ITE _ _ _ _, ITE_NULL => traverse_back_from tr l parent
        | ITE _ _ _ _, ITE _ _ _ _ =>
            (* replace current with largest of left children *)
            LET st <- ipc_splay_prim_lookup MACH_PORT_LARGEST l ;;
            LET current' <- ipc_splay_prim_assemble (ps_tree st) (ps_ltree st) (ps_rtree st) ;;
            LET current'' <- set_null_rchild current' r ;;
            traverse_right_from tr current'' parent
        end
  end.

Definition ipc_splay_traverse_finish (splay : ipc_splay_tree) (tr : traversal)
    : ipc_splay_tree := splay_reset splay (trav_root tr).

(** The [for] loop of the usage comment.  The body sees the current entry and
    says whether [ipc_splay_traverse_next] is to delete it. *)
Fixpoint traverse_loop {S : Type} (body : S -> Z -> A -> S * bool) (fuel : nat)
    (s : S) (tr : traversal) (entry : option (Z * A)) : option (S * traversal) :=
  match entry with
  | None => Some (s, tr)
  | Some (n, v) =>
      match fuel with
      | O => None
      | Datatypes.S fuel' =>
          let '(s', delete) := body s n v in
          LET (tr', entry') <- ipc_splay_traverse_next tr delete ;;
          traverse_loop body fuel' s' tr' entry'
      end
  end.

Definition splay_for_each {S : Type} (body : S -> Z -> A -> S * bool)
    (s : S) (splay : ipc_splay_tree) : option (S * ipc_splay_tree) :=
  LET (tr, entry) <- ipc_splay_traverse_start splay ;;
  LET (s', tr') <- traverse_loop body (tree_size (trav_root tr)) s tr entry ;;
  Some (s', ipc_splay_traverse_finish splay tr').

(** ** Contents and well-formedness *)

Abbreviation entries := (list (Z * A)).

(** Symmetric order of a tree, of the left context and of the right one. *)
Fixpoint tree_elems (t : ite_tree) : entries :=
  match t with
  | ITE_NULL => []
  | ITE l n v r => tree_elems l ++ (n, v) :: tree_elems r
  end.

Fixpoint ltree_elems (k : list lframe) : entries :=
  match k with
  | [] => []
  | f :: k' => ltree_elems k' ++ tree_elems (lf_lchild f) ++ [(lf_name f, lf_entry f)]
  end.

Fixpoint rtree_elems (k : list rframe) : entries :=
  match k with
  | [] => []
  | f :: k' => (rf_name f, rf_entry f) :: tree_elems (rf_rchild f) ++ rtree_elems k'
  end.

Definition prim_elems (st : prim_state) : entries :=
  ltree_elems (ps_ltree st) ++ tree_elems (ps_tree st) ++ rtree_elems (ps_rtree st).

#[local] Arguments prim_elems : simpl never.

(** [t] is where a search for [name] stops: at [name], or at a node with no
    child on the side of [name]. *)
Definition stops_at (name : Z) (t : ite_tree) : Prop :=
  match t with
  | ITE_NULL => False
  | ITE l n _ r => n = name \/ (name < n /\ l = ITE_NULL) \/ (n < name /\ r = ITE_NULL)
  end.

(** The three trees of a splay for [name] are a search tree divided around it. *)
Definition divided (name : Z) (st : prim_state) : Prop :=
  keys_sorted (prim_elems st) /\ keys_below name (ltree_elems (ps_ltree st)) /\
  keys_above name (rtree_elems (ps_rtree st)).

Definition splay_state (s : ipc_splay_tree) : prim_state :=
  mk_prim (ist_root s) (ist_ltree s) (ist_rtree s).

#[local] Arguments divided : simpl never.

(** The entries of a splay tree, in order, and as a map. *)
Definition splay_elems (s : ipc_splay_tree) : entries :=
  match ist_root s with ITE_NULL => [] | _ => prim_elems (splay_state s) end.

Definition splay_map (s : ipc_splay_tree) : gmap Z A := list_to_map (splay_elems s).

Definition name_in_range (n : Z) : Prop := MACH_PORT_SMALLEST <= n <= MACH_PORT_LARGEST.

(** The invariant of [struct ipc_splay_tree] stated by the file's head comment. *)
Definition splay_wf (s : ipc_splay_tree) : Prop :=
  Forall (fun p => name_in_range p.1) (splay_elems s) /\
  (ist_root s <> ITE_NULL ->
     divided (ist_name s) (splay_state s) /\ stops_at (ist_name s) (ist_root s)).

(** ** Lemmas on contexts *)

Lemma tree_elems_plug_ltree k t : tree_elems (plug_ltree k t) = ltree_elems k ++ tree_elems t.
Proof.
  revert t. induction k as [|f k IH]; intros t; cbn; [done|].
  rewrite IH. cbn. by rewrite <- !app_assoc.
Qed.

Lemma tree_elems_plug_rtree k t : tree_elems (plug_rtree k t) = tree_elems t ++ rtree_elems k.
Proof.
  revert t. induction k as [|f k IH]; intros t; cbn; [by rewrite app_nil_r|].
  rewrite IH. cbn. by rewrite <- app_assoc.
Qed.

Lemma tree_elems_nil t : tree_elems t = [] <-> t = ITE_NULL.
Proof. destruct t; cbn; [done|]. split; [|done]. by intros [_ ?]%app_eq_nil. Qed.

Lemma non_null_spec t : non_null t = true <-> t <> ITE_NULL.
Proof. destruct t; naive_solver. Qed.

Lemma tree_size_elems t : tree_size t = length (tree_elems t).
Proof. induction t; cbn; [done|]. rewrite length_app. cbn. lia. Qed.

(** ** The top-down splay *)

(** The name at the root of the middle tree is on the left (right) of [name]. *)
Definition root_below (name : Z) (st : prim_state) : Prop :=
  match ps_tree st with ITE _ n _ _ => n < name | ITE_NULL => False end.
Definition root_above (name : Z) (st : prim_state) : Prop :=
  match ps_tree st with ITE _ n _ _ => name < n | ITE_NULL => False end.

Lemma divided_root l n v r k k' name :
  divided name (mk_prim (ITE l n v r) k k') ->
  keys_below n (tree_elems l) /\ keys_above n (tree_elems r).
Proof.
  intros (Hs & _ & _). unfold prim_elems in Hs. cbn in Hs.
  apply keys_sorted_app in Hs as (_ & Hs & _). rewrite <- app_assoc in Hs. cbn in Hs.
  apply keys_sorted_mid in Hs as (_ & _ & ? & [? _]%keys_above_app). done.
Qed.

Lemma link_left_divided name st st' :
  divided name st -> root_below name st -> link_left st = Some st' ->
  divided name st' /\ prim_elems st' = prim_elems st.
Proof.
  destruct st as [[|l n v r] k k']; [done|]. intros H Hn [= <-]. cbn in Hn.
  pose proof (divided_root _ _ _ _ _ _ _ H) as [? _]. destruct H as (Hs & Hl & Hr).
  enough (prim_elems (mk_prim r (LFrame l n v :: k) k') =
          prim_elems (mk_prim (ITE l n v r) k k')) as He.
  { split; [split; [by rewrite He|]|done]. cbn in *. split; [|done].
    rewrite !keys_below_app, keys_below_cons. split_and!; try done.
    - by eapply keys_below_trans; [|done]; lia.
    - by apply Forall_nil. }
  unfold prim_elems. cbn. by app_norm.
Qed.

Lemma link_right_divided name st st' :
  divided name st -> root_above name st -> link_right st = Some st' ->
  divided name st' /\ prim_elems st' = prim_elems st.
Proof.
  destruct st as [[|l n v r] k k']; [done|]. intros H Hn [= <-]. cbn in Hn.
  pose proof (divided_root _ _ _ _ _ _ _ H) as [_ ?]. destruct H as (Hs & Hl & Hr).
  enough (prim_elems (mk_prim l k (RFrame n v r :: k')) =
          prim_elems (mk_prim (ITE l n v r) k k')) as He.
  { split; [split; [by rewrite He|]|done]. cbn in *. split; [done|].
    rewrite keys_above_cons, keys_above_app. split_and!; try done.
    by eapply keys_above_trans; [|done]; lia. }
  unfold prim_elems. cbn. by app_norm.
Qed.

Lemma rotate_divided name st st' :
  divided name st -> rotate_left st = Some st' \/ rotate_right st = Some st' ->
  divided name st' /\ prim_elems st' = prim_elems st.
Proof.
  destruct st as [t k k']. intros (Hs & Hl & Hr) H.
  enough (prim_elems st' = prim_elems (mk_prim t k k') /\
          ps_ltree st' = k /\ ps_rtree st' = k') as (He & Hk & Hk').
  { unfold divided. by rewrite He, Hk, Hk'. }
  destruct t as [|l n v r], H as [H|H]; try done; cbn in H.
  - destruct r; [done|]. injection H as <-. unfold prim_elems. cbn.
    split_and!; [|done|done]. by app_norm.
  - destruct l; [done|]. injection H as <-. unfold prim_elems. cbn.
    split_and!; [|done|done]. by app_norm.
Qed.

(** One iteration keeps the division and the contents, and either stops where
    it should or strictly shrinks a non-empty middle tree. *)
Lemma prim_body_spec name st :
  divided name st -> ps_tree st <> ITE_NULL ->
  exists b st', prim_body name st = Some (b, st') /\
    divided name st' /\ prim_elems st' = prim_elems st /\ ps_tree st' <> ITE_NULL /\
    (if b : bool then (tree_size (ps_tree st') < tree_size (ps_tree st))%nat
     else stops_at name (ps_tree st')).
Proof.
  destruct st as [[|l n v r] k k']; [done|]. intros Hd _.
  unfold prim_body; cbn [ps_tree]. zcase; [subst; exists false; eexists; split_and!; naive_solver|].
  zcase.
  - destruct l as [|ll ln lv lr]; [exists false; eexists; split_and!; naive_solver|].
    destruct ((name <? ln) && non_null ll)%bool eqn:E; b2p.
    + pose proof (rotate_divided name _ _ Hd (or_intror eq_refl)) as [Hd1 He1].
      replace (ln <? name) with false by lia.
      destruct (link_right_divided name _ _ Hd1 ltac:(cbn; lia) eq_refl) as [Hd2 He2].
      destruct ll; [done|]. cbn in *. do 2 eexists. split; [done|].
      split_and!; [done|congruence|done|cbn; lia].
    + destruct (link_right_divided name _ _ Hd ltac:(cbn; lia) eq_refl) as [Hd2 He2].
      destruct ((ln <? name) && non_null lr)%bool eqn:E'; b2p.
      * destruct (link_left_divided name _ _ Hd2 ltac:(cbn; lia) eq_refl) as [Hd3 He3].
        destruct lr; [done|]. cbn in *. do 2 eexists. split; [done|].
        split_and!; [done|congruence|done|cbn; lia].
      * cbn in *. do 2 eexists. split; [done|]. split_and!; [done|congruence|done|cbn; lia].
  - destruct r as [|rl rn rv rr].
    { exists false. eexists. split_and!; try done. cbn. right; right. split; [lia|done]. }
    destruct ((rn <? name) && non_null rr)%bool eqn:E; b2p.
    + pose proof (rotate_divided name _ _ Hd (or_introl eq_refl)) as [Hd1 He1].
      replace (name <? rn) with false by lia.
      destruct (link_left_divided name _ _ Hd1 ltac:(cbn; lia) eq_refl) as [Hd2 He2].
      destruct rr; [done|]. cbn in *. do 2 eexists. split; [done|].
      split_and!; [done|congruence|done|cbn; lia].
    + destruct (link_left_divided name _ _ Hd ltac:(cbn; lia) eq_refl) as [Hd2 He2].
      destruct ((name <? rn) && non_null rl)%bool eqn:E'; b2p.
      * destruct (link_right_divided name _ _ Hd2 ltac:(cbn; lia) eq_refl) as [Hd3 He3].
        destruct rl; [done|]. cbn in *. do 2 eexists. split; [done|].
        split_and!; [done|congruence|done|cbn; lia].
      * cbn in *. do 2 eexists. split; [done|]. split_and!; [done|congruence|done|cbn; lia].
Qed.

Lemma prim_loop_spec name fuel st :
  divided name st -> ps_tree st <> ITE_NULL -> (tree_size (ps_tree st) <= fuel)%nat ->
  exists st', prim_loop fuel name st = Some st' /\
    divided name st' /\ prim_elems st' = prim_elems st /\ stops_at name (ps_tree st').
Proof.
  revert st. induction fuel as [|fuel IH]; intros st Hd Hn Hf.
  - destruct (ps_tree st); cbn in Hf; [done|lia].
  - cbn. destruct (prim_body_spec name st Hd Hn) as (b & st' & -> & Hd' & He & Hn' & Hb).
    destruct b.
    + destruct (IH st' Hd' Hn') as (st'' & -> & ? & ? & ?); [lia|].
      exists st''. split_and!; [done|done|congruence|done].
    + exists st'. done.
Qed.

Lemma prim_lookup_spec name t :
  keys_sorted (tree_elems t) -> t <> ITE_NULL ->
  exists st, ipc_splay_prim_lookup name t = Some st /\
    divided name st /\ prim_elems st = tree_elems t /\ stops_at name (ps_tree st).
Proof.
  intros Hs Hn. unfold ipc_splay_prim_lookup. rewrite (proj2 (non_null_spec t) Hn).
  destruct (prim_loop_spec name (tree_size t) (mk_prim t [] [])) as (st & ? & ? & He & ?);
    [|done|done|].
  - split; [|split; constructor]. unfold prim_elems. cbn. by rewrite app_nil_r.
  - exists st. split_and!; try done. rewrite He. unfold prim_elems. cbn. by rewrite app_nil_r.
Qed.

Lemma assemble_spec st :
  ps_tree st <> ITE_NULL ->
  exists t, ipc_splay_prim_assemble (ps_tree st) (ps_ltree st) (ps_rtree st) = Some t /\
    t <> ITE_NULL /\ tree_elems t = prim_elems st.
Proof.
  destruct st as [[|l n v r] k k']; [done|]. intros _. cbn. eexists. split_and!; [done|done|].
  cbn. rewrite tree_elems_plug_ltree, tree_elems_plug_rtree. unfold prim_elems. cbn.
  by app_norm.
Qed.

Lemma splay_elems_state s : ist_root s <> ITE_NULL -> splay_elems s = prim_elems (splay_state s).
Proof. unfold splay_elems. by destruct (ist_root s). Qed.

Lemma splay_elems_null s : ist_root s = ITE_NULL -> splay_elems s = [].
Proof. unfold splay_elems. by intros ->. Qed.

Lemma splay_wf_sorted s : splay_wf s -> keys_sorted (splay_elems s).
Proof.
  intros [_ H]. destruct (ist_root s) eqn:E.
  - rewrite splay_elems_null by done. constructor.
  - rewrite splay_elems_state by congruence. destruct H as [[H _] _]; [congruence|done].
Qed.

(** The prefix of every operation leaves the same entries, divided at [name]. *)
Lemma splay_to_spec s name :
  splay_wf s -> ist_root s <> ITE_NULL ->
  exists st, splay_to s name = Some st /\
    divided name st /\ prim_elems st = splay_elems s /\ stops_at name (ps_tree st).
Proof.
  intros Hwf Hn. unfold splay_to. zcase.
  - subst. destruct Hwf as [_ H]. destruct (H Hn) as [? ?]. eexists. split_and!; try done.
    by rewrite splay_elems_state.
  - destruct (assemble_spec (splay_state s) Hn) as (t & Ht & Htn & He). cbn in Ht.
    rewrite Ht. rewrite splay_elems_state, <- He by done.
    apply prim_lookup_spec; [|done]. rewrite He, <- splay_elems_state by done.
    by apply splay_wf_sorted.
Qed.

(** A tree divided at [name], around its root. *)
Lemma divided_parts name l n v r k k' :
  divided name (mk_prim (ITE l n v r) k k') ->
  let L := ltree_elems k ++ tree_elems l in
  let R := tree_elems r ++ rtree_elems k' in
  prim_elems (mk_prim (ITE l n v r) k k') = L ++ (n, v) :: R /\
  keys_sorted (L ++ (n, v) :: R) /\ keys_below n L /\ keys_above n R /\
  keys_below name (ltree_elems k) /\ keys_above name (rtree_elems k').
Proof.
  intros (Hs & Hl & Hr). cbn.
  assert (prim_elems (mk_prim (ITE l n v r) k k') =
    (ltree_elems k ++ tree_elems l) ++ (n, v) :: tree_elems r ++ rtree_elems k') as He
    by (unfold prim_elems; cbn; by app_norm).
  rewrite He in Hs. pose proof Hs as (_ & _ & ? & ?)%keys_sorted_mid. done.
Qed.

Lemma splay_wf_intro name t k k' :
  Forall (fun p => name_in_range p.1) (prim_elems (mk_prim t k k')) ->
  divided name (mk_prim t k k') -> stops_at name t ->
  splay_wf (mk_splay name t k k') /\
  splay_elems (mk_splay name t k k') = prim_elems (mk_prim t k k').
Proof.
  intros Hr Hd Hs. split; [|by destruct t].
  split; [|done]. destruct t; [by constructor|done].
Qed.

Lemma splay_wf_null s : ist_root s = ITE_NULL -> splay_wf s.
Proof. intros H. split; [rewrite splay_elems_null by done; constructor|done]. Qed.

Lemma splay_reset_spec s t :
  Forall (fun p => name_in_range p.1) (tree_elems t) -> keys_sorted (tree_elems t) ->
  splay_wf (splay_reset s t) /\ splay_elems (splay_reset s t) = tree_elems t.
Proof.
  intros Hr Hs. destruct t as [|l n v r]; [split; [by apply splay_wf_null|done]|].
  assert (prim_elems (mk_prim (ITE l n v r) [] []) = tree_elems (ITE l n v r)) as He
    by (unfold prim_elems; cbn; by rewrite app_nil_r).
  rewrite <- He. apply splay_wf_intro; [by rewrite He| |by left].
  split; [by rewrite He|]. split; constructor.
Qed.

(** ** Correctness of the operations *)

Lemma keys_in_range_app (l1 l2 : entries) :
  Forall (fun p => name_in_range p.1) (l1 ++ l2) <->
  Forall (fun p => name_in_range p.1) l1 /\ Forall (fun p => name_in_range p.1) l2.
Proof. apply Forall_app. Qed.

(** What a stopped search knows: the entry, or the gap where it would be. *)
Lemma stops_lookup name l n v r k k' :
  divided name (mk_prim (ITE l n v r) k k') -> stops_at name (ITE l n v r) ->
  (list_to_map (prim_elems (mk_prim (ITE l n v r) k k')) : gmap Z A) !! name =
  if name =? n then Some v else None.
Proof.
  intros Hd Hs. destruct (divided_parts _ _ _ _ _ _ _ Hd) as (-> & Hso & HL & HR & HkL & HkR).
  zcase.
  - subst. rewrite keys_mid_insert by done. apply lookup_insert_eq.
  - destruct Hs as [?|[[Hlt ->]|[Hlt ->]]]; [done|..]; cbn in *.
    + rewrite app_nil_r in *. apply keys_gap; [done|]. rewrite keys_above_cons. split; [done|].
      by eapply keys_above_trans; [|done]; cbn; lia.
    + rewrite cons_middle, app_assoc. apply keys_gap; [|done].
      rewrite keys_below_app, keys_below_cons. split_and!; [|done|constructor].
      by eapply keys_below_trans; [|done]; cbn; lia.
Qed.

(** The tree is nonempty and splayed: destruct it. *)
Lemma splay_op s name :
  splay_wf s -> ist_root s <> ITE_NULL ->
  exists l n v r k k', let st := mk_prim (ITE l n v r) k k' in
    splay_to s name = Some st /\ divided name st /\ stops_at name (ITE l n v r) /\
    prim_elems st = splay_elems s /\
    Forall (fun p => name_in_range p.1) (prim_elems st).
Proof.
  intros Hwf Hn. destruct (splay_to_spec s name Hwf Hn) as ([t k k'] & H1 & H2 & H3 & H4).
  destruct t as [|l n v r]; [done|]. exists l, n, v, r, k, k'. cbn.
  split_and!; try done. rewrite H3. apply Hwf.
Qed.

Lemma ipc_splay_tree_lookup_correct s name :
  splay_wf s ->
  exists s', ipc_splay_tree_lookup s name = Some (s', splay_map s !! name) /\
    splay_wf s' /\ splay_elems s' = splay_elems s.
Proof.
  intros Hwf. unfold ipc_splay_tree_lookup. destruct (ist_root s) eqn:E.
  { exists s. split_and!; try done. unfold splay_map. by rewrite splay_elems_null. }
  destruct (splay_op s name Hwf) as (l & n & v & r & k & k' & -> & Hd & Hs & He & Hr);
    [congruence|]. cbn.
  destruct (splay_wf_intro name _ _ _ Hr Hd Hs) as [Hwf' He'].
  eexists. split_and!; [|exact Hwf'|congruence].
  unfold splay_map. rewrite <- He. by rewrite (stops_lookup _ _ _ _ _ _ _ Hd Hs).
Qed.

(** Inserting at the gap found by the search. *)
Lemma insert_root (name : Z) (v : A) lt rt (s : ipc_splay_tree) :
  splay_wf s -> name_in_range name ->
  splay_elems s = tree_elems lt ++ tree_elems rt ->
  keys_below name (tree_elems lt) -> keys_above name (tree_elems rt) ->
  let s' := mk_splay name (ITE lt name v rt) [] [] in
  splay_wf s' /\ splay_map s' = <[name := v]> (splay_map s).
Proof.
  intros Hwf Hn He Hl Hr s'. pose proof (splay_wf_sorted s Hwf) as Hso.
  destruct Hwf as [Hrg _]. rewrite He in Hso, Hrg.
  apply keys_sorted_app in Hso as (? & ? & _).
  assert (keys_sorted (tree_elems (ITE lt name v rt))) as Hso'
    by (cbn; apply keys_sorted_mid; done).
  apply keys_in_range_app in Hrg as [? ?].
  destruct (splay_reset_spec s (ITE lt name v rt)) as [Hw' He']; [|done|].
  { cbn. apply keys_in_range_app. split; [done|]. by constructor. }
  split; [done|]. unfold splay_map. change s' with (splay_reset s (ITE lt name v rt)).
  rewrite He', He. by apply keys_mid_insert.
Qed.

Lemma ipc_splay_tree_insert_correct s name v :
  splay_wf s -> name_in_range name -> splay_map s !! name = None ->
  exists s', ipc_splay_tree_insert s name v = Some s' /\
    splay_wf s' /\ splay_map s' = <[name := v]> (splay_map s).
Proof.
  intros Hwf Hnr Hno. unfold ipc_splay_tree_insert. destruct (ist_root s) eqn:E.
  { eexists. split; [done|]. apply insert_root; cbn; try done; [|constructor..].
    by apply splay_elems_null. }
  destruct (splay_op s name Hwf) as (l & n & w & r & k & k' & -> & Hd & Hs & He & Hr);
    [congruence|]. cbn.
  pose proof (stops_lookup _ _ _ _ _ _ _ Hd Hs) as Hl. rewrite He in Hl.
  fold (splay_map s) in Hl. rewrite Hno in Hl.
  destruct (Z.eqb_spec name n) as [|Hne]; [done|]. clear Hl.
  rewrite (proj2 (Z.eqb_neq n name)) by congruence. cbn.
  destruct (divided_parts _ _ _ _ _ _ _ Hd) as (He' & Hso & HL & HR & HkL & HkR).
  rewrite He' in He. symmetry in He.
  zcase; destruct Hs as [?|[[Hlt ->]|[Hlt ->]]]; try lia; cbn in *;
    (eexists; split; [done|]; apply insert_root; try done;
     rewrite ?tree_elems_plug_ltree, ?tree_elems_plug_rtree; cbn;
     rewrite ?app_nil_r in *; [rewrite He; by app_norm|..]).
  - done.
  - rewrite keys_above_cons. split; [done|]. by eapply keys_above_trans; [|done]; cbn; lia.
  - rewrite app_assoc, keys_below_app, keys_below_cons. split_and!; [|done|constructor].
    by eapply keys_below_trans; [|done]; cbn; lia.
  - done.
Qed.

(** Nothing is above the largest name, so a search for it ends without a right child. *)
Lemma splay_largest t :
  keys_sorted (tree_elems t) -> t <> ITE_NULL ->
  Forall (fun p => name_in_range p.1) (tree_elems t) ->
  exists st l n v, ipc_splay_prim_lookup MACH_PORT_LARGEST t = Some st /\
    ipc_splay_prim_assemble (ps_tree st) (ps_ltree st) (ps_rtree st) =
      Some (ITE l n v ITE_NULL) /\
    tree_elems (ITE l n v ITE_NULL) = tree_elems t.
Proof.
  intros Hs Hn Hrg.
  destruct (prim_lookup_spec MACH_PORT_LARGEST t Hs Hn) as ([[|l n v r] k k'] & H1 & Hd & He & H4);
    [done|]. rewrite H1.
  destruct (divided_parts _ _ _ _ _ _ _ Hd) as (He' & Hso & HL & HR & HkL & HkR).
  assert (forall p, p ∈ tree_elems t -> p.1 <= MACH_PORT_LARGEST) as Hle.
  { rewrite Forall_forall in Hrg. intros p Hp. apply (Hrg p Hp). }
  assert (k' = []) as ->.
  { destruct k' as [|[rn rv rr] k']; [done|]. apply keys_above_cons in HkR as [HkR _].
    cbn in HkR. enough (rn <= MACH_PORT_LARGEST) by lia. apply (Hle (rn, rv)).
    rewrite <- He, He'. cbn. set_solver. }
  assert (r = ITE_NULL) as ->.
  { apply tree_elems_nil. destruct (tree_elems r) as [|p ps] eqn:Er; [done|exfalso].
    assert (p ∈ tree_elems t) as Hp by (rewrite <- He, He'; set_solver).
    assert ((n, v) ∈ tree_elems t) as Hp' by (rewrite <- He, He'; set_solver).
    apply Hle in Hp. apply Hle in Hp'. apply keys_above_app in HR as [[HR _]%keys_above_cons _].
    destruct H4 as [?|[[? _]|[? Hr]]]; cbn in *; [lia|lia|]. subst. done. }
  do 4 eexists. split_and!; [done|cbn; done|]. cbn. rewrite <- He, He'.
  rewrite tree_elems_plug_ltree. cbn. done.
Qed.

Lemma ipc_splay_tree_delete_correct s name v :
  splay_wf s -> splay_map s !! name = Some v ->
  exists s', ipc_splay_tree_delete s name = Some s' /\
    splay_wf s' /\ splay_map s' = delete name (splay_map s).
Proof.
  intros Hwf Hin. unfold ipc_splay_tree_delete.
  assert (ist_root s <> ITE_NULL) as Hn.
  { intros E. unfold splay_map in Hin. rewrite splay_elems_null in Hin by done. done. }
  rewrite (proj2 (non_null_spec _) Hn).
  destruct (splay_op s name Hwf Hn) as (l & n & w & r & k & k' & -> & Hd & Hs & He & Hr). cbn.
  pose proof (stops_lookup _ _ _ _ _ _ _ Hd Hs) as Hl. rewrite He in Hl.
  fold (splay_map s) in Hl. rewrite Hin in Hl.
  destruct (Z.eqb_spec name n) as [<-|]; [|done]. rewrite Z.eqb_refl.
  destruct (divided_parts _ _ _ _ _ _ _ Hd) as (He' & Hso & _).
  set (L := plug_ltree k l). set (R := plug_rtree k' r).
  assert (splay_elems s = tree_elems L ++ (name, w) :: tree_elems R) as HLR.
  { unfold L, R. rewrite tree_elems_plug_ltree, tree_elems_plug_rtree. congruence. }
  assert (keys_sorted (tree_elems L ++ (name, w) :: tree_elems R)) as Hso'
    by (rewrite <- HLR; by apply splay_wf_sorted).
  assert (Forall (fun p => name_in_range p.1) (tree_elems L ++ tree_elems R)) as Hrg.
  { destruct Hwf as [Hrg _]. rewrite HLR in Hrg.
    apply keys_in_range_app in Hrg as [? [_ ?]%Forall_cons]. by apply keys_in_range_app. }
  pose proof (keys_sorted_drop_mid _ _ _ Hso') as Hso''.
  enough (exists root, (if negb (non_null L) then Some R
    else if non_null R then
      LET st' <- ipc_splay_prim_lookup MACH_PORT_LARGEST L ;;
      LET root' <- ipc_splay_prim_assemble (ps_tree st') (ps_ltree st') (ps_rtree st') ;;
      set_null_rchild root' R
    else Some L) = Some root /\ tree_elems root = tree_elems L ++ tree_elems R)
    as (root & -> & Hroot).
  { eexists. split; [done|]. rewrite <- Hroot in Hrg, Hso''.
    destruct (splay_reset_spec s root Hrg Hso'') as [? He'']. split; [done|].
    unfold splay_map. rewrite He'', Hroot, HLR. by apply keys_mid_delete. }
  apply keys_in_range_app in Hrg as [HrL _]. apply keys_sorted_app in Hso' as (HsL & _).
  destruct (non_null L) eqn:EL; cbn.
  - destruct (non_null R) eqn:ER.
    + apply non_null_spec in EL.
      destruct (splay_largest L HsL EL HrL) as (st & l' & n' & v' & -> & -> & Hl'). cbn.
      eexists. split; [done|]. rewrite <- Hl'. cbn. by app_norm.
    + exists L. destruct R; [|done]. by rewrite app_nil_r.
  - exists R. by destruct L.
Qed.

(** Splitting at [name] separates the names below it from the others. *)
Lemma ipc_splay_tree_split_correct s name small :
  splay_wf s ->
  exists s' small', ipc_splay_tree_split s name small = Some (s', small') /\
    splay_wf s' /\ splay_wf small' /\ splay_elems s = splay_elems small' ++ splay_elems s' /\
    keys_below name (splay_elems small') /\
    Forall (fun p => name <= p.1) (splay_elems s').
Proof.
  intros Hwf. unfold ipc_splay_tree_split. destruct (ist_root s) eqn:E.
  { do 2 eexists. split; [done|]. rewrite !splay_elems_null by done.
    split_and!; [done|by apply splay_wf_null|done|constructor|constructor]. }
  destruct (splay_op s name Hwf) as (l & n & w & r & k & k' & -> & Hd & Hs & He & Hr);
    [congruence|]. cbn.
  destruct (divided_parts _ _ _ _ _ _ _ Hd) as (He' & Hso & HL & HR & HkL & HkR).
  rewrite He' in He, Hr. apply keys_in_range_app in Hr as [HrL [Hrn HrR]%Forall_cons].
  pose proof Hso as (HsL & HsR & _)%keys_sorted_mid.
  zcase.
  - assert (r = ITE_NULL) as -> by (destruct Hs as [?|[[? _]|[_ ?]]]; [lia|lia|done]).
    cbn in *. do 2 eexists. split; [done|].
    set (lt := ITE (plug_ltree k l) n w ITE_NULL). set (rt := plug_rtree k' ITE_NULL).
    assert (tree_elems lt = (ltree_elems k ++ tree_elems l) ++ [(n, w)]) as Elt
      by (unfold lt; cbn; by rewrite tree_elems_plug_ltree).
    assert (tree_elems rt = rtree_elems k') as Ert
      by (unfold rt; by rewrite tree_elems_plug_rtree).
    destruct (splay_reset_spec s lt) as [Hw1 He1].
    { rewrite Elt, keys_in_range_app. split; [done|]. constructor; [done|constructor]. }
    { rewrite Elt, keys_sorted_mid. split_and!; try done; constructor. }
    destruct (splay_reset_spec s rt) as [Hw2 He2]; [by rewrite Ert..|].
    change (mk_splay n lt [] []) with (splay_reset s lt).
    rewrite He1, He2, Elt, Ert. split_and!; try done.
    + rewrite <- He. by app_norm.
    + rewrite keys_below_app, keys_below_cons. split_and!; [|done|constructor].
      by eapply keys_below_trans; [|done]; cbn; lia.
    + eapply Forall_impl; [exact HkR|]. cbn. lia.
  - set (lt := plug_ltree k l). do 2 eexists. split; [done|].
    assert (tree_elems lt = ltree_elems k ++ tree_elems l) as Elt
      by (unfold lt; by rewrite tree_elems_plug_ltree).
    destruct (splay_reset_spec (ipc_splay_tree_init small) lt) as [Hw1 He1]; [by rewrite Elt..|].
    assert (prim_elems (mk_prim (ITE ITE_NULL n w r) [] k') =
            (n, w) :: tree_elems r ++ rtree_elems k') as Ep by done.
    destruct (splay_wf_intro name (ITE ITE_NULL n w r) [] k') as [Hw2 He2].
    { rewrite Ep. by constructor. }
    { split; [rewrite Ep; by apply keys_sorted_cons|]. split; [constructor|done]. }
    { cbn. destruct (decide (n = name)); [by left|]. right; left. split; [lia|done]. }
    rewrite He1, He2, Ep, Elt. split_and!; try done.
    + destruct Hs as [->|[[_ ->]|[? _]]]; [done| |lia]. cbn. by rewrite app_nil_r.
    + constructor; [cbn; lia|]. eapply Forall_impl; [exact HR|]. cbn. lia.
Qed.

(** Nothing is below the smallest name, so a search for it ends without a left child. *)
Lemma splay_smallest s :
  splay_wf s -> ist_root s <> ITE_NULL ->
  exists st n v r, splay_to s MACH_PORT_SMALLEST = Some st /\
    ipc_splay_prim_assemble (ps_tree st) (ps_ltree st) (ps_rtree st) =
      Some (ITE ITE_NULL n v r) /\
    tree_elems (ITE ITE_NULL n v r) = splay_elems s.
Proof.
  intros Hwf Hn.
  destruct (splay_op s MACH_PORT_SMALLEST Hwf Hn) as (l & n & v & r & k & k' & -> & Hd & Hs & He & Hr).
  destruct (divided_parts _ _ _ _ _ _ _ Hd) as (He' & Hso & HL & HR & HkL & HkR).
  rewrite He' in He, Hr. rewrite Forall_forall in Hr.
  assert (k = []) as ->.
  { destruct k as [|[ll ln lv] k]; [done|]. cbn in HkL.
    apply keys_below_app in HkL as [_ [_ [HkL _]%keys_below_cons]%keys_below_app]. cbn in HkL.
    enough (MACH_PORT_SMALLEST <= ln) by lia. apply (Hr (ln, lv)). cbn. set_solver. }
  assert (l = ITE_NULL) as ->.
  { apply tree_elems_nil. destruct (tree_elems l) as [|p ps] eqn:El; [done|exfalso].
    assert (MACH_PORT_SMALLEST <= p.1) as Hp by (apply Hr; set_solver).
    assert (MACH_PORT_SMALLEST <= n) as Hp' by (apply (Hr (n, v)); set_solver).
    apply keys_below_app in HL as [_ [HL _]%keys_below_cons].
    destruct Hs as [?|[[? Hl]|[? _]]]; cbn in *; [lia| |lia]. by subst. }
  do 4 eexists. split_and!; [done|done|]. cbn. rewrite tree_elems_plug_rtree. done.
Qed.

Lemma ipc_splay_tree_join_correct s small :
  splay_wf s -> splay_wf small ->
  (forall p q, p ∈ splay_elems small -> q ∈ splay_elems s -> p.1 < q.1) ->
  exists s' small', ipc_splay_tree_join s small = Some (s', small') /\
    splay_wf s' /\ ist_root small' = ITE_NULL /\
    splay_elems s' = splay_elems small ++ splay_elems s.
Proof.
  intros Hwf Hwfs Hlt. unfold ipc_splay_tree_join. destruct (ist_root small) eqn:E.
  { do 2 eexists. split; [done|]. rewrite (splay_elems_null small) by done. done. }
  assert (ist_root small <> ITE_NULL) as Hns by congruence. rewrite <- E.
  destruct (assemble_spec (splay_state small) Hns) as (sroot & Hsr & Hsn & Hse).
  cbn in Hsr. rewrite Hsr. rewrite <- splay_elems_state in Hse by done.
  pose proof (splay_wf_sorted _ Hwf) as Hso. pose proof (splay_wf_sorted _ Hwfs) as Hsos.
  enough (exists root, (match ist_root s with
    | ITE_NULL => Some sroot
    | ITE _ _ _ _ =>
        LET st <- splay_to s MACH_PORT_SMALLEST ;;
        LET root <- ipc_splay_prim_assemble (ps_tree st) (ps_ltree st) (ps_rtree st) ;;
        set_null_lchild root sroot
    end) = Some root /\ tree_elems root = splay_elems small ++ splay_elems s)
    as (root & -> & Hroot).
  { do 2 eexists. split; [done|].
    destruct (splay_reset_spec s root) as [? He'']; rewrite ?Hroot.
    - apply keys_in_range_app. split; [apply Hwfs|apply Hwf].
    - apply keys_sorted_app. done.
    - split_and!; [done|done|congruence]. }
  destruct (ist_root s) eqn:Es.
  { exists sroot. split; [done|]. by rewrite (splay_elems_null s), app_nil_r. }
  destruct (splay_smallest s Hwf) as (st & n & v & r & -> & -> & He); [congruence|].
  destruct sroot as [|sl sn sv sr]; [done|]. unfold set_null_lchild.
  assert (sn < n) as Hlt'.
  { apply (Hlt (sn, sv) (n, v)); [rewrite <- Hse|rewrite <- He]; cbn; set_solver. }
  rewrite (proj2 (Z.ltb_lt _ _) Hlt'). eexists. split; [done|].
  rewrite <- Hse, <- He. done.
Qed.

(** [x] is the largest (smallest) name at or below (above) [name], or the
    marker that there is none. *)
Definition is_lower (l : entries) (name x : Z) : Prop :=
  (x ∈ l.*1 /\ x <= name /\ (forall p, p ∈ l -> p.1 <= name -> p.1 <= x)) \/
  ((forall p, p ∈ l -> name < p.1) /\ x = MACH_PORT_LARGEST).

Definition is_upper (l : entries) (name x : Z) : Prop :=
  (x ∈ l.*1 /\ name <= x /\ (forall p, p ∈ l -> name <= p.1 -> x <= p.1)) \/
  ((forall p, p ∈ l -> p.1 < name) /\ x = MACH_PORT_SMALLEST).

Lemma is_lower_mid name (l1 l2 : entries) n v :
  keys_below n l1 -> keys_above name l2 -> n <= name ->
  is_lower (l1 ++ (n, v) :: l2) name n.
Proof.
  intros H1 H2 Hn. left. split_and!; [rewrite fmap_app; set_solver|done|].
  intros p [Hp|[->|Hp]%elem_of_cons]%elem_of_app Hle; [|done|].
  - pose proof (keys_below_elem _ _ _ H1 Hp). lia.
  - pose proof (keys_above_elem _ _ _ H2 Hp). lia.
Qed.

Lemma is_upper_mid name (l1 l2 : entries) n v :
  keys_below name l1 -> keys_above n l2 -> name <= n ->
  is_upper (l1 ++ (n, v) :: l2) name n.
Proof.
  intros H1 H2 Hn. left. split_and!; [rewrite fmap_app; set_solver|done|].
  intros p [Hp|[->|Hp]%elem_of_cons]%elem_of_app Hle; [|done|].
  - pose proof (keys_below_elem _ _ _ H1 Hp). lia.
  - pose proof (keys_above_elem _ _ _ H2 Hp). lia.
Qed.

Lemma is_lower_ltree name k (l2 : entries) :
  keys_sorted (ltree_elems k) -> keys_below name (ltree_elems k) -> keys_above name l2 ->
  is_lower (ltree_elems k ++ l2) name
    (match k with [] => MACH_PORT_LARGEST | f :: _ => lf_name f end).
Proof.
  intros Hs H1 H2. destruct k as [|[fl fn fv] k]; cbn in *.
  - right. split; [|done]. intros p Hp. by apply (keys_above_elem _ _ _ H2).
  - rewrite app_assoc in *. apply keys_sorted_mid in Hs as (_ & _ & ? & _).
    rewrite <- app_assoc. apply is_lower_mid; [done|done|].
    apply keys_below_app in H1 as [_ [H1 _]%keys_below_cons]. cbn in H1. lia.
Qed.

Lemma is_upper_rtree name k (l1 : entries) :
  keys_sorted (rtree_elems k) -> keys_below name l1 -> keys_above name (rtree_elems k) ->
  is_upper (l1 ++ rtree_elems k) name
    (match k with [] => MACH_PORT_SMALLEST | f :: _ => rf_name f end).
Proof.
  intros Hs H1 H2. destruct k as [|[fn fv fr] k]; cbn in *.
  - right. split; [|done]. rewrite app_nil_r. intros p Hp. by apply (keys_below_elem _ _ _ H1).
  - apply keys_sorted_cons in Hs as [? _]. apply keys_above_cons in H2 as [H2 _].
    apply is_upper_mid; [done|done|]. cbn in H2. lia.
Qed.

Lemma ipc_splay_tree_bounds_correct s name :
  splay_wf s ->
  exists s' lower upper, ipc_splay_tree_bounds s name = Some (s', (lower, upper)) /\
    splay_wf s' /\ splay_elems s' = splay_elems s /\
    is_lower (splay_elems s) name lower /\ is_upper (splay_elems s) name upper.
Proof.
  intros Hwf. unfold ipc_splay_tree_bounds. destruct (ist_root s) eqn:E.
  { do 3 eexists. split; [done|]. rewrite splay_elems_null by done.
    split_and!; try done; right; set_solver. }
  destruct (splay_op s name Hwf) as (l & n & w & r & k & k' & -> & Hd & Hs & He & Hr);
    [congruence|]. cbn.
  destruct (splay_wf_intro name _ _ _ Hr Hd Hs) as [Hwf' Hel].
  do 3 eexists. split; [done|]. split; [done|]. split; [congruence|]. rewrite <- He.
  destruct (divided_parts _ _ _ _ _ _ _ Hd) as (-> & Hso & HL & HR & HkL & HkR).
  pose proof Hso as ([? _]%keys_sorted_app & (_ & ? & _)%keys_sorted_app & _)%keys_sorted_mid.
  split; zcase.
  - apply is_lower_mid; [done| |done]. destruct Hs as [->|[[? _]|[_ ->]]]; [done|lia|done].
  - destruct Hs as [?|[[? ->]|[? _]]]; [lia| |lia]. cbn in *. rewrite app_nil_r in *.
    apply is_lower_ltree; [done|done|]. rewrite keys_above_cons. split; [done|].
    by eapply keys_above_trans; [|done]; lia.
  - apply is_upper_mid; [|done|done]. destruct Hs as [->|[[_ ->]|[? _]]]; [done| |lia].
    cbn in *. by rewrite app_nil_r in *.
  - destruct Hs as [?|[[? _]|[? ->]]]; [lia|lia|]. cbn in *.
    rewrite cons_middle, app_assoc. apply is_upper_rtree; [done| |done].
    rewrite keys_below_app, keys_below_cons. split_and!; [|done|constructor].
    by eapply keys_below_trans; [|done]; lia.
Qed.

(** ** Correctness of the traversal *)

(** [chain p b a]: the inverted path [p] has the entries [b] before the current
    subtree and [a] after it.  The two ways of inverting a node are told apart
    by the names, not by a tag. *)
Inductive chain : ite_tree -> entries -> entries -> Prop :=
| chain_top : chain ITE_NULL [] []
| chain_left p n v r b a : chain p b a -> chain (ITE p n v r) b ((n, v) :: tree_elems r ++ a)
| chain_right l n v p b a : chain p b a -> chain (ITE l n v p) (b ++ tree_elems l ++ [(n, v)]) a.

(** The traversal is at entry [e], with [kept] already visited and in the tree
    and [todo] still to visit. *)
Definition at_entry (tr : traversal) (kept : entries) (e : Z * A) (todo : entries) : Prop :=
  keys_sorted (kept ++ e :: todo) /\
  exists l r b a, trav_current tr = ITE l e.1 e.2 r /\ chain (trav_parent tr) b a /\
    kept = b ++ tree_elems l /\ todo = tree_elems r ++ a.

(** The result of moving on, with [kept] visited and [todo] left. *)
Definition moves_on (res : option (traversal * option (Z * A))) (kept todo : entries) : Prop :=
  match todo with
  | [] => exists tr, res = Some (tr, None) /\ tree_elems (trav_root tr) = kept
  | e :: todo' => exists tr, res = Some (tr, Some e) /\ at_entry tr kept e todo'
  end.

Lemma traverse_left_moves tr current parent b a :
  chain parent b a -> current <> ITE_NULL -> keys_sorted (b ++ tree_elems current ++ a) ->
  moves_on (let '(c, p) := traverse_left current parent in traverse_entry tr c p)
    b (tree_elems current ++ a).
Proof.
  revert parent b a. induction current as [|l IH n v r _]; intros parent b a Hc Hn Hs; [done|].
  destruct l as [|ll ln lv lr].
  - cbn in *. eexists. split; [done|]. split; [done|].
    exists ITE_NULL, r, b, a. split_and!; try done. by rewrite app_nil_r.
  - specialize (IH (ITE parent n v r) b ((n, v) :: tree_elems r ++ a)
      (chain_left _ _ _ _ _ _ Hc)).
    replace (tree_elems (ITE (ITE ll ln lv lr) n v r) ++ a)
      with (tree_elems (ITE ll ln lv lr) ++ (n, v) :: tree_elems r ++ a) in *
      by (cbn; by app_norm).
    by apply IH.
Qed.

Lemma traverse_back_moves tr fuel current parent b a :
  chain parent b a -> current <> ITE_NULL -> keys_sorted (b ++ tree_elems current ++ a) ->
  (tree_size parent < fuel)%nat ->
  moves_on (LET res <- traverse_back fuel current parent ;;
            match res with
            | inl root => Some (mk_trav (trav_current tr) (trav_parent tr) root, None)
            | inr (current', parent') => traverse_entry tr current' parent'
            end) (b ++ tree_elems current) a.
Proof.
  intros Hc. revert fuel current.
  induction Hc as [|p n v r b a Hc IH|l n v p b a Hc IH];
    intros fuel [|cl cn cv cr] Hn Hs Hf; try done; (destruct fuel as [|fuel]; [lia|]); cbn.
  - eexists. split; [done|done].
  - assert (cn < n) as Hlt.
    { apply keys_sorted_app in Hs as (_ & (_ & _ & Hs)%keys_sorted_app & _).
      apply (Hs (cn, cv) (n, v)); cbn; set_solver. }
    rewrite (proj2 (Z.ltb_lt _ _) Hlt). cbn. eexists. split; [done|].
    split; [cbn in *; by app_norm_all|].
    exists (ITE cl cn cv cr), r, b, a. done.
  - assert (n < cn) as Hlt.
    { apply keys_sorted_app in Hs as (_ & _ & Hs).
      apply (Hs (n, v) (cn, cv)); cbn; set_solver. }
    rewrite (proj2 (Z.ltb_ge _ _)) by lia.
    specialize (IH fuel (ITE l n v (ITE cl cn cv cr))).
    replace ((b ++ tree_elems l ++ [(n, v)]) ++ tree_elems cl ++ (cn, cv) :: tree_elems cr)
      with (b ++ tree_elems (ITE l n v (ITE cl cn cv cr))) by (cbn; by app_norm).
    apply IH; [done| |cbn in Hf; lia].
    cbn in *. by app_norm_all.
Qed.

Lemma traverse_back_from_moves tr current parent b a :
  chain parent b a -> current <> ITE_NULL -> keys_sorted (b ++ tree_elems current ++ a) ->
  moves_on (traverse_back_from tr current parent) (b ++ tree_elems current) a.
Proof. intros. unfold traverse_back_from. apply traverse_back_moves; auto with lia. Qed.

Lemma traverse_right_moves tr l n v r parent b a :
  chain parent b a -> keys_sorted (b ++ tree_elems (ITE l n v r) ++ a) ->
  moves_on (traverse_right_from tr (ITE l n v r) parent)
    (b ++ tree_elems l ++ [(n, v)]) (tree_elems r ++ a).
Proof.
  intros Hc Hs. destruct r as [|rl rn rv rr]; unfold traverse_right_from.
  - by apply (traverse_back_from_moves tr (ITE l n v ITE_NULL) parent b a).
  - apply traverse_left_moves; [by constructor|done|].
    cbn in *. by app_norm_all.
Qed.

Lemma keys_sorted_keep (d : bool) (kept todo : entries) (e : Z * A) :
  keys_sorted (kept ++ e :: todo) ->
  keys_sorted (kept ++ (if d then [] else [e]) ++ todo).
Proof. destruct d; [apply keys_sorted_drop_mid|done]. Qed.

(** One step of the traversal: the current entry is kept or deleted and the
    next entry in symmetric order becomes current. *)
Lemma traverse_next_moves tr d kept e todo :
  at_entry tr kept e todo -> Forall (fun p => name_in_range p.1) (kept ++ e :: todo) ->
  moves_on (ipc_splay_traverse_next tr d) (kept ++ if d then [] else [e]) todo.
Proof.
  destruct tr as [current parent root], e as [n v].
  intros (Hs & l & r & b & a & Hcur & Hc & -> & ->) Hrg. cbn in Hcur, Hc. subst current.
  unfold ipc_splay_traverse_next. cbn [trav_current trav_parent].
  destruct d; cbn [negb]; rewrite ?app_nil_r, <- ?app_assoc in *; cbn [app] in *.
  2:{ apply traverse_right_moves; [done|]. cbn. by app_norm. }
  assert (keys_sorted (b ++ tree_elems l ++ tree_elems r ++ a)) as Hs'.
  { rewrite app_assoc in *. by apply keys_sorted_drop_mid in Hs. }
  destruct l as [|ll ln lv lr], r as [|rl rn rv rr]; cbn [tree_elems app] in *;
    rewrite ?app_nil_r in *.
  - (* a leaf *)
    inversion Hc as [|p pn pv r b' a' Hc'|l pn pv p b' a' Hc']; subst.
    + eexists. done.
    + assert (n < pn) as Hlt.
      { apply keys_sorted_app in Hs as (_ & [Hs _]%keys_sorted_cons & _).
        apply (keys_above_elem _ _ (pn, pv) Hs). set_solver. }
      rewrite (proj2 (Z.ltb_lt _ _) Hlt). cbn. eexists. split; [done|]. split; [done|].
      exists ITE_NULL, r, b, a'. cbn. by rewrite app_nil_r.
    + assert (pn < n) as Hlt.
      { apply keys_sorted_app in Hs as (_ & _ & Hs).
        apply (Hs (pn, pv) (n, v)); set_solver. }
      rewrite (proj2 (Z.ltb_ge _ _)) by lia.
      apply (traverse_back_from_moves _ (ITE l pn pv ITE_NULL) p b' a); [done|done|].
      cbn. by app_norm_all.
  - (* only a right child *)
    apply (traverse_left_moves _ (ITE rl rn rv rr)); done.
  - (* only a left child *)
    by apply (traverse_back_from_moves _ (ITE ll ln lv lr) parent b a).
  - (* both children *)
    destruct (splay_largest (ITE ll ln lv lr)) as (st & l' & n' & v' & -> & -> & He); [|done|..].
    { by apply keys_sorted_app in Hs' as (_ & (? & _)%keys_sorted_app & _). }
    { apply Forall_app in Hrg as [_ [? _]%Forall_app]. done. }
    cbn [set_null_rchild].
    pose proof (traverse_right_moves (mk_trav (ITE (ITE ll ln lv lr) n v (ITE rl rn rv rr)) parent root)
      l' n' v' (ITE rl rn rv rr) parent b a Hc) as Hm.
    cbn [tree_elems] in *. rewrite He in Hm. apply Hm.
    replace ((tree_elems l' ++ (n', v') :: tree_elems rl ++ (rn, rv) :: tree_elems rr) ++ a)
      with ((tree_elems l' ++ [(n', v')]) ++ tree_elems rl ++ (rn, rv) :: tree_elems rr ++ a)
      by (by app_norm).
    rewrite He. by app_norm_all.
Qed.

(** The reference: visit the entries in order, keeping the ones not deleted. *)
Fixpoint visit {S : Type} (body : S -> Z -> A -> S * bool) (s : S) (l : entries)
    : S * entries :=
  match l with
  | [] => (s, [])
  | (n, v) :: l' =>
      let '(s1, d) := body s n v in
      let '(s2, kept) := visit body s1 l' in
      (s2, (if d : bool then [] else [(n, v)]) ++ kept)
  end.

Lemma traverse_loop_visit {S} (body : S -> Z -> A -> S * bool) fuel s tr kept n v todo :
  at_entry tr kept (n, v) todo ->
  Forall (fun p => name_in_range p.1) (kept ++ (n, v) :: todo) ->
  (length todo < fuel)%nat ->
  exists tr', traverse_loop body fuel s tr (Some (n, v)) =
      Some ((visit body s ((n, v) :: todo)).1, tr') /\
    tree_elems (trav_root tr') = kept ++ (visit body s ((n, v) :: todo)).2.
Proof.
  revert s tr kept n v todo. induction fuel as [|fuel IH]; intros s tr kept n v todo Hat Hrg Hf; [lia|].
  cbn. destruct (body s n v) as [s1 d]. pose proof (traverse_next_moves tr d _ _ _ Hat Hrg) as Hm.
  destruct todo as [|[n' v'] todo']; cbn in Hm; destruct Hm as (tr' & -> & Htr).
  - cbn. exists tr'. rewrite Htr. destruct fuel; cbn; by rewrite app_nil_r.
  - destruct (IH s1 tr' _ n' v' todo' Htr) as (tr'' & -> & Hroot); [|cbn in Hf; lia|].
    { apply Forall_app in Hrg as [? [? ?]%Forall_cons].
      rewrite <- app_assoc. apply Forall_app. split; [done|]. by destruct d; cbn; [|constructor]. }
    exists tr''. cbn in *. destruct (body s1 n' v') as [s2 d'], (visit body s2 todo') as [s3 k].
    cbn in *. split; [done|]. rewrite Hroot. by app_norm.
Qed.

Lemma visit_sublist {S} (body : S -> Z -> A -> S * bool) s l : sublist (visit body s l).2 l.
Proof.
  revert s. induction l as [|[n v] l IH]; intros s; cbn; [done|].
  destruct (body s n v) as [s1 d]. specialize (IH s1). destruct (visit body s1 l) as [s2 k].
  destruct d; cbn; by constructor.
Qed.

Lemma keys_sorted_sublist (l1 l2 : entries) : sublist l1 l2 -> keys_sorted l2 -> keys_sorted l1.
Proof.
  induction 1 as [|p l1 l2 Hsub IH|p l1 l2 Hsub IH]; [done| |]; rewrite ?keys_sorted_cons.
  - intros [H ?]. split; [|by apply IH]. unfold keys_above in *. rewrite Forall_forall in *.
    intros q Hq. apply H. by eapply elem_of_sublist.
  - intros [_ ?]. by apply IH.
Qed.

Lemma splay_for_each_correct {S} (body : S -> Z -> A -> S * bool) s splay :
  splay_wf splay ->
  exists splay', splay_for_each body s splay =
      Some ((visit body s (splay_elems splay)).1, splay') /\
    splay_wf splay' /\ splay_elems splay' = (visit body s (splay_elems splay)).2.
Proof.
  intros Hwf. pose proof (splay_wf_sorted _ Hwf) as Hso. unfold splay_for_each, ipc_splay_traverse_start.
  destruct (ist_root splay) eqn:E.
  { rewrite splay_elems_null by done. eexists. split; [done|]. cbn.
    split; [by apply splay_wf_null|done]. }
  rewrite <- E. assert (ist_root splay <> ITE_NULL) as Hn by congruence.
  destruct (assemble_spec (splay_state splay) Hn) as (t & Ht & Htn & He).
  cbn in Ht. rewrite Ht. rewrite <- splay_elems_state in He by done.
  pose proof (traverse_left_moves (mk_trav t ITE_NULL t) t ITE_NULL [] [] chain_top Htn) as Hm.
  cbn [app] in Hm. rewrite app_nil_r, He in Hm. specialize (Hm Hso).
  destruct (splay_elems splay) as [|[n v] todo] eqn:El.
  { by apply tree_elems_nil in He. }
  assert (forall c p tr res, traverse_entry (mk_trav t ITE_NULL t) c p = Some (tr, res) ->
    trav_root tr = t) as Hroot by (intros [] ? ? ? [= <- <-]; done).
  cbn in Hm. destruct Hm as (tr & Hm & Hat).
  destruct (traverse_left t ITE_NULL) as [c p]. rewrite Hm. rewrite (Hroot _ _ _ _ Hm).
  destruct (traverse_loop_visit body (tree_size t) s tr [] n v todo) as (tr' & -> & Htr'); [done| | |].
  { cbn [app]. rewrite <- El. apply Hwf. }
  { rewrite tree_size_elems, He. cbn. lia. }
  pose proof (visit_sublist body s ((n, v) :: todo)) as Hsub.
  destruct (splay_reset_spec splay (trav_root tr')) as [Hw' He'].
  { rewrite Htr'. cbn [app]. apply Forall_forall. intros q Hq.
    destruct Hwf as [Hrg _]. rewrite El, Forall_forall in Hrg. apply Hrg.
    by eapply elem_of_sublist. }
  { rewrite Htr'. cbn [app]. by eapply keys_sorted_sublist. }
  eexists. split; [done|]. split; [done|]. unfold ipc_splay_traverse_finish.
  by rewrite He', Htr'.
Qed.

Lemma ipc_splay_tree_pick_correct s :
  splay_wf s ->
  match ipc_splay_tree_pick s with
  | Some (n, v) => splay_map s !! n = Some v
  | None => splay_elems s = []
  end.
Proof.
  intros Hwf. unfold ipc_splay_tree_pick. destruct (ist_root s) eqn:E; [by apply splay_elems_null|].
  pose proof (splay_wf_sorted _ Hwf) as Hso. unfold splay_map.
  apply elem_of_list_to_map; [by apply keys_sorted_NoDup|].
  unfold splay_elems. rewrite E. unfold prim_elems, splay_state. cbn. rewrite E. cbn. set_solver.
Qed.

(** Deletion seen on the list of entries. *)
Lemma splay_delete_elems s s' n v :
  splay_wf s -> splay_wf s' -> splay_map s !! n = Some v ->
  splay_map s' = delete n (splay_map s) ->
  exists l1 l2, splay_elems s = l1 ++ (n, v) :: l2 /\ splay_elems s' = l1 ++ l2.
Proof.
  intros Hwf Hwf' Hn Hd. pose proof (splay_wf_sorted _ Hwf) as Hso.
  pose proof (splay_wf_sorted _ Hwf') as Hso'. unfold splay_map in *.
  apply elem_of_list_to_map in Hn; [|by apply keys_sorted_NoDup].
  apply list_elem_of_split in Hn as (l1 & l2 & He). exists l1, l2. split; [done|].
  rewrite He in *. apply keys_sorted_map_inj; [done|by eapply keys_sorted_drop_mid|].
  by rewrite Hd, (keys_mid_delete n v l1 l2).
Qed.

(** ** Writing through a pointer to an entry *)

(** [entry->field = x] where [entry] is the node named [name]: the shape of the
    tree does not change. *)
Section Update.
Variables (name : Z) (f : A -> A).

Definition upd_at (n : Z) (v : A) : A := if n =? name then f v else v.

Fixpoint tree_upd (t : ite_tree) : ite_tree :=
  match t with
  | ITE_NULL => ITE_NULL
  | ITE l n v r => ITE (tree_upd l) n (upd_at n v) (tree_upd r)
  end.

Definition lframe_upd (fr : lframe) : lframe :=
  LFrame (tree_upd (lf_lchild fr)) (lf_name fr) (upd_at (lf_name fr) (lf_entry fr)).
Definition rframe_upd (fr : rframe) : rframe :=
  RFrame (rf_name fr) (upd_at (rf_name fr) (rf_entry fr)) (tree_upd (rf_rchild fr)).

Definition splay_upd (s : ipc_splay_tree) : ipc_splay_tree :=
  mk_splay (ist_name s) (tree_upd (ist_root s)) (lframe_upd <$> ist_ltree s) (rframe_upd <$> ist_rtree s).

Definition elem_upd (p : Z * A) : Z * A := (p.1, upd_at p.1 p.2).

Lemma tree_upd_elems t : tree_elems (tree_upd t) = elem_upd <$> tree_elems t.
Proof. induction t as [|l IHl n v r IHr]; cbn; [done|]. by rewrite IHl, IHr, fmap_app. Qed.

Lemma ltree_upd_elems k : ltree_elems (lframe_upd <$> k) = elem_upd <$> ltree_elems k.
Proof. induction k as [|fr k IH]; cbn; [done|]. by rewrite IH, tree_upd_elems, !fmap_app. Qed.

Lemma rtree_upd_elems k : rtree_elems (rframe_upd <$> k) = elem_upd <$> rtree_elems k.
Proof. induction k as [|fr k IH]; cbn; [done|]. by rewrite IH, tree_upd_elems, fmap_app. Qed.

Lemma splay_upd_elems s : splay_elems (splay_upd s) = elem_upd <$> splay_elems s.
Proof.
  unfold splay_elems, prim_elems, splay_state. cbn. destruct (ist_root s) as [|l n v r] eqn:E; cbn; [done|].
  rewrite ltree_upd_elems, rtree_upd_elems, !tree_upd_elems. rewrite ?fmap_app; cbn; rewrite ?fmap_app. cbn.
  rewrite ?fmap_app. done.
Qed.

Lemma elem_upd_keys l : (elem_upd <$> l).*1 = l.*1.
Proof. rewrite <- list_fmap_compose. done. Qed.

Lemma keys_below_upd n (l : entries) : keys_below n (elem_upd <$> l) <-> keys_below n l.
Proof. unfold keys_below. by rewrite Forall_fmap. Qed.
Lemma keys_above_upd n (l : entries) : keys_above n (elem_upd <$> l) <-> keys_above n l.
Proof. unfold keys_above. by rewrite Forall_fmap. Qed.
Lemma keys_sorted_upd (l : entries) : keys_sorted (elem_upd <$> l) <-> keys_sorted l.
Proof.
  induction l as [|p l IH]; [done|]. rewrite fmap_cons, !keys_sorted_cons, IH.
  by rewrite keys_above_upd.
Qed.

Lemma splay_upd_correct s :
  splay_wf s -> splay_wf (splay_upd s) /\ splay_map (splay_upd s) = alter f name (splay_map s).
Proof.
  intros Hwf. pose proof (splay_wf_sorted _ Hwf) as Hs. destruct Hwf as [Hr Hd]. split.
  - split.
    + rewrite splay_upd_elems, Forall_fmap. exact Hr.
    + cbn. intros Hn. assert (ist_root s <> ITE_NULL) as Hn' by (intros E; by rewrite E in Hn).
      destruct (Hd Hn') as [(H1 & H2 & H3) Hst]. split.
      * split_and!; cbn in *.
        -- unfold prim_elems in *. cbn in *. rewrite ltree_upd_elems, rtree_upd_elems, tree_upd_elems, <- !fmap_app.
           by apply keys_sorted_upd.
        -- rewrite ltree_upd_elems. by apply keys_below_upd.
        -- rewrite rtree_upd_elems. by apply keys_above_upd.
      * destruct (ist_root s) as [|l n v r]; cbn in *; [done|].
        destruct Hst as [?|[[? ->]|[? ->]]]; auto.
  - apply map_eq. intros n. apply option_eq. intros v. unfold splay_map at 1.
    rewrite splay_upd_elems, <- elem_of_list_to_map.
    2:{ rewrite elem_upd_keys. by apply keys_sorted_NoDup. }
    rewrite list_elem_of_fmap. unfold splay_map.
    pose proof (fun w => elem_of_list_to_map (M := gmap Z) (splay_elems s) n w (keys_sorted_NoDup _ Hs)) as Hin.
    split.
    + intros ([n' w] & Heq & Hp). unfold elem_upd in Heq. cbn in Heq. injection Heq as <- ->.
      apply Hin in Hp. unfold upd_at. zcase.
      * subst n. by rewrite lookup_alter_eq, Hp.
      * by rewrite lookup_alter_ne by congruence.
    + intros Hv. destruct (decide (n = name)) as [->|Hne].
      * rewrite lookup_alter_eq in Hv. destruct (_ !! name) as [w|] eqn:E; [|done]. injection Hv as <-.
        exists (name, w). split; [|by apply Hin]. unfold elem_upd, upd_at. cbn. by rewrite Z.eqb_refl.
      * rewrite lookup_alter_ne in Hv by congruence. exists (n, v). split; [|by apply Hin].
        unfold elem_upd, upd_at. cbn. by rewrite (proj2 (Z.eqb_neq n name)).
Qed.
End Update.

End Splay.

Arguments ite_tree : clear implicits.
Arguments ipc_splay_tree : clear implicits.
Arguments lframe : clear implicits.
Arguments rframe : clear implicits.
Arguments prim_state : clear implicits.
Arguments traversal : clear implicits.
