(* ===== verification/IpcSplaySpec.v ===== *)
(** * What a splay tree promises (ipc/ipc_splay.c)

    The abstract specification is a finite map from names to entries.  Every
    sequence of operations on a tree refines the same sequence on the map;
    splitting and joining, the bounds of a name and the traversal are specified
    by the sorted list of the entries. *)

From S2P Require Import Prelude IpcSplay.

Section Trace.
Context {A : Type}.

Inductive splay_op :=
| SLookup (name : Z)
| SInsert (name : Z) (v : A)
| SDelete (name : Z).

Definition splay_run_op (s : ipc_splay_tree A) (op : splay_op)
    : option (ipc_splay_tree A * option A) :=
  match op with
  | SLookup name => ipc_splay_tree_lookup s name
  | SInsert name v => LET s' <- ipc_splay_tree_insert s name v ;; Some (s', None)
  | SDelete name => LET s' <- ipc_splay_tree_delete s name ;; Some (s', None)
  end.

Fixpoint splay_run (s : ipc_splay_tree A) (ops : list splay_op)
    : option (ipc_splay_tree A * list (option A)) :=
  match ops with
  | [] => Some (s, [])
  | op :: ops' =>
      LET (s1, r) <- splay_run_op s op ;;
      LET (s2, rs) <- splay_run s1 ops' ;;
      Some (s2, r :: rs)
  end.

(** The specification: the callers' obligations are that inserted names are new
    names and deleted names are present. *)
Definition spec_op (m : gmap Z A) (op : splay_op) : option (gmap Z A * option A) :=
  match op with
  | SLookup name => Some (m, m !! name)
  | SInsert name v =>
      match m !! name with
      | None => ASSERT (MACH_PORT_SMALLEST <=? name) && (name <=? MACH_PORT_LARGEST) ;;
                Some (<[name := v]> m, None)
      | Some _ => None
      end
  | SDelete name =>
      match m !! name with Some _ => Some (delete name m, None) | None => None end
  end.

Fixpoint spec_run (m : gmap Z A) (ops : list splay_op) : option (gmap Z A * list (option A)) :=
  match ops with
  | [] => Some (m, [])
  | op :: ops' =>
      LET (m1, r) <- spec_op m op ;;
      LET (m2, rs) <- spec_run m1 ops' ;;
      Some (m2, r :: rs)
  end.

Lemma splay_op_refines s op m' r :
  splay_wf s -> spec_op (splay_map s) op = Some (m', r) ->
  exists s', splay_run_op s op = Some (s', r) /\ splay_wf s' /\ splay_map s' = m'.
Proof.
  intros Hwf Hs. destruct op as [n|n v|n]; cbn in *.
  - injection Hs as <- <-. destruct (ipc_splay_tree_lookup_correct s n Hwf) as (s' & -> & Hw & He).
    exists s'. split_and!; try done. unfold splay_map. by rewrite He.
  - destruct (splay_map s !! n) eqn:E; [done|]. destruct (_ && _) eqn:Hr; [|done].
    injection Hs as <- <-. b2p.
    destruct (ipc_splay_tree_insert_correct s n v Hwf) as (s' & -> & Hw & Hm); [done|done|]. eauto.
  - destruct (splay_map s !! n) as [v|] eqn:E; [|done]. injection Hs as <- <-.
    destruct (ipc_splay_tree_delete_correct s n v Hwf E) as (s' & -> & Hw & Hm). eauto.
Qed.

Lemma splay_run_refines s ops m' rs :
  splay_wf s -> spec_run (splay_map s) ops = Some (m', rs) ->
  exists s', splay_run s ops = Some (s', rs) /\ splay_wf s' /\ splay_map s' = m'.
Proof.
  revert s m' rs. induction ops as [|op ops IH]; intros s m' rs Hwf Hs; cbn in *.
  { injection Hs as <- <-. eauto. }
  destruct (spec_op (splay_map s) op) as [[m1 r]|] eqn:E; [|done].
  destruct (spec_run m1 ops) as [[m2 rs']|] eqn:E2; [|done]. injection Hs as <- <-.
  destruct (splay_op_refines s op m1 r Hwf E) as (s1 & -> & Hw1 & Hm1).
  rewrite <- Hm1 in E2. destruct (IH s1 m2 rs' Hw1 E2) as (s2 & -> & Hw2 & Hm2). eauto.
Qed.
End Trace.
Arguments splay_op : clear implicits.

(** ** Theorems *)

(** C32: An initialised splay tree refines a finite map.  For every sequence of
    lookups, insertions and deletions that the map accepts, the tree performs it
    without failing, whatever memory it was initialised in, returns the same
    results and ends as a well-formed tree that holds the same map. *)
Theorem splay_refines_map (A : Type) (mem : ipc_splay_tree A) ops m rs
    (Hspec : spec_run ∅ ops = Some (m, rs)) :
  exists s, splay_run (ipc_splay_tree_init mem) ops = Some (s, rs) /\
    splay_wf s /\ splay_map s = m.
Proof.
  apply splay_run_refines; [by apply splay_wf_null|].
  unfold splay_map. by rewrite splay_elems_null.
Qed.

Lemma splay_refines_map_witness :
  exists s, splay_run (ipc_splay_tree_init (mk_splay 9 (ITE ITE_NULL 3 0%nat ITE_NULL) [] []))
      [SInsert 5 50%nat; SInsert 2 20%nat; SInsert 7 70%nat; SLookup 2; SDelete 5; SLookup 5] =
      Some (s, [None; None; None; Some 20%nat; None; None]) /\
    splay_wf s /\ splay_map s = {[2 := 20%nat; 7 := 70%nat]}.
Proof.
  apply (splay_refines_map nat _ _ {[2 := 20%nat; 7 := 70%nat]}). vm_compute. reflexivity.
Defined.

(** Splitting at a name divides the entries into those below the name and the
    others, and joining the two parts gives back a tree with the same entries,
    whatever the splays have done to the shape of the tree. *)
Lemma splay_split_join (A : Type) (s small : ipc_splay_tree A) name (Hwf : splay_wf s) :
  exists s1 small1 s2 small2,
    ipc_splay_tree_split s name small = Some (s1, small1) /\
    splay_map small1 = filter (fun p => p.1 < name) (splay_map s) /\
    splay_map s1 = filter (fun p => name <= p.1) (splay_map s) /\
    ipc_splay_tree_join s1 small1 = Some (s2, small2) /\
    splay_wf s2 /\ splay_elems s2 = splay_elems s /\ splay_elems small2 = [].
Proof.
  destruct (ipc_splay_tree_split_correct s name small Hwf) as (s1 & small1 & Heq & Hw1 & Hw2 & He & Hlo & Hhi).
  destruct (ipc_splay_tree_join_correct s1 small1 Hw1 Hw2) as (s2 & small2 & Hj & Hw3 & Hn & He2).
  { intros p q Hp Hq. pose proof (keys_below_elem _ _ _ Hlo Hp). rewrite Forall_forall in Hhi.
    specialize (Hhi q Hq). cbn in *. lia. }
  exists s1, small1, s2, small2. split; [done|].
  assert (forall n v, (splay_map s : gmap Z A) !! n = Some v <->
    (n, v) ∈ splay_elems small1 \/ (n, v) ∈ splay_elems s1) as Hin.
  { intros n v. unfold splay_map. rewrite <- elem_of_list_to_map by by apply keys_sorted_NoDup, splay_wf_sorted.
    rewrite He. apply elem_of_app. }
  split_and!; try done.
  - apply map_eq. intros n. apply option_eq. intros v. unfold splay_map at 1.
    rewrite <- elem_of_list_to_map by by apply keys_sorted_NoDup, splay_wf_sorted.
    rewrite map_lookup_filter_Some, Hin. split.
    + intros Hp. split; [by left|]. apply (keys_below_elem _ _ _ Hlo Hp).
    + intros [[Hp|Hp] Hlt]; [done|]. rewrite Forall_forall in Hhi. specialize (Hhi _ Hp). cbn in *. lia.
  - apply map_eq. intros n. apply option_eq. intros v. unfold splay_map at 1.
    rewrite <- elem_of_list_to_map by by apply keys_sorted_NoDup, splay_wf_sorted.
    rewrite map_lookup_filter_Some, Hin. rewrite Forall_forall in Hhi. split.
    + intros Hp. split; [by right|]. apply (Hhi _ Hp).
    + intros [[Hp|Hp] Hlt]; [|done]. pose proof (keys_below_elem _ _ _ Hlo Hp). cbn in *. lia.
  - congruence.
  - by apply splay_elems_null.
Qed.

(** A tree with the names 10, 20 and 30, the last lookup having been of 20. *)
Definition sample_tree : ipc_splay_tree Z :=
  mk_splay 20 (ITE ITE_NULL 20 2 ITE_NULL) [LFrame ITE_NULL 10 1] [RFrame 30 3 ITE_NULL].

Lemma sample_tree_wf : splay_wf sample_tree.
Proof.
  split.
  - repeat constructor; cbn; unfold MACH_PORT_SMALLEST, MACH_PORT_LARGEST, wordsize; lia.
  - intros _. split; [|by left]. split_and!; cbn; repeat constructor; cbn; lia.
Qed.

Lemma splay_split_join_witness :
  exists s1 small1 s2 small2,
    ipc_splay_tree_split sample_tree 25 sample_tree = Some (s1, small1) /\
    splay_map small1 = filter (fun p => p.1 < 25) (splay_map sample_tree) /\
    splay_map s1 = filter (fun p => 25 <= p.1) (splay_map sample_tree) /\
    ipc_splay_tree_join s1 small1 = Some (s2, small2) /\
    splay_wf s2 /\ splay_elems s2 = splay_elems sample_tree /\ splay_elems small2 = [].
Proof. apply (splay_split_join Z sample_tree sample_tree 25), sample_tree_wf. Defined.

(** The bounds of a name are its nearest neighbours.  The lower bound is the
    largest name in the tree not above the argument, or MACH_PORT_LARGEST when
    every name is above it; the upper bound is the smallest name not below it, or
    MACH_PORT_SMALLEST when every name is below it.  The tree keeps its entries. *)
Lemma splay_bounds_nearest (A : Type) (s : ipc_splay_tree A) name (Hwf : splay_wf s) :
  exists s' lower upper,
    ipc_splay_tree_bounds s name = Some (s', (lower, upper)) /\ splay_wf s' /\
    splay_elems s' = splay_elems s /\
    ((is_Some (splay_map s !! lower) /\ lower <= name /\
        forall n, is_Some (splay_map s !! n) -> n <= name -> n <= lower) \/
     ((forall n, is_Some (splay_map s !! n) -> name < n) /\ lower = MACH_PORT_LARGEST)) /\
    ((is_Some (splay_map s !! upper) /\ name <= upper /\
        forall n, is_Some (splay_map s !! n) -> name <= n -> upper <= n) \/
     ((forall n, is_Some (splay_map s !! n) -> n < name) /\ upper = MACH_PORT_SMALLEST)).
Proof.
  destruct (ipc_splay_tree_bounds_correct s name Hwf) as (s' & lo & up & Heq & Hw & He & Hlo & Hup).
  assert (forall n, is_Some (splay_map s !! n) <-> n ∈ (splay_elems s).*1) as Hin.
  { intros n. unfold splay_map. rewrite <- elem_of_dom, dom_list_to_map_L. apply elem_of_list_to_set. }
  setoid_rewrite Hin. exists s', lo, up. split_and!; try done.
  - destruct Hlo as [(Hx & Hle & Hmax)|[Hno ->]]; [left|right]; split_and!; try done.
    + intros n (p & -> & Hp)%list_elem_of_fmap. by apply Hmax.
    + intros n (p & -> & Hp)%list_elem_of_fmap. by apply Hno.
  - destruct Hup as [(Hx & Hle & Hmin)|[Hno ->]]; [left|right]; split_and!; try done.
    + intros n (p & -> & Hp)%list_elem_of_fmap. by apply Hmin.
    + intros n (p & -> & Hp)%list_elem_of_fmap. by apply Hno.
Qed.

Lemma splay_bounds_nearest_witness :
  exists s' lower upper,
    ipc_splay_tree_bounds sample_tree 25 = Some (s', (lower, upper)) /\ splay_wf s' /\
    splay_elems s' = splay_elems sample_tree /\
    ((is_Some (splay_map sample_tree !! lower) /\ lower <= 25 /\
        forall n, is_Some (splay_map sample_tree !! n) -> n <= 25 -> n <= lower) \/
     ((forall n, is_Some (splay_map sample_tree !! n) -> 25 < n) /\ lower = MACH_PORT_LARGEST)) /\
    ((is_Some (splay_map sample_tree !! upper) /\ 25 <= upper /\
        forall n, is_Some (splay_map sample_tree !! n) -> 25 <= n -> upper <= n) \/
     ((forall n, is_Some (splay_map sample_tree !! n) -> n < 25) /\ upper = MACH_PORT_SMALLEST)).
Proof. apply (splay_bounds_nearest Z sample_tree 25), sample_tree_wf. Defined.

(** A traversal visits every entry once, in increasing order of names, while
    inverting the child pointers, and terminates.  The state that the loop body
    threads is that of a left-to-right visit of the sorted entries; afterwards the
    tree is well formed again and holds exactly the entries that the body did not
    ask to delete. *)
Lemma splay_traversal_in_order (A S : Type) (body : S -> Z -> A -> S * bool) s0
    (splay : ipc_splay_tree A) (Hwf : splay_wf splay) :
  keys_sorted (splay_elems splay) /\
  exists splay', splay_for_each body s0 splay =
      Some ((visit body s0 (splay_elems splay)).1, splay') /\
    splay_wf splay' /\ splay_elems splay' = (visit body s0 (splay_elems splay)).2.
Proof. split; [by apply splay_wf_sorted|by apply splay_for_each_correct]. Qed.

Lemma splay_traversal_in_order_witness :
  keys_sorted (splay_elems sample_tree) /\
  exists splay', splay_for_each (fun acc n v => (acc ++ [n], v =? 2)) [] sample_tree =
      Some ([10; 20; 30], splay') /\
    splay_wf splay' /\ splay_elems splay' = [(10, 1); (30, 3)].
Proof.
  apply (splay_traversal_in_order Z (list Z) (fun acc n v => (acc ++ [n], v =? 2)) []), sample_tree_wf.
Defined.
