(* ===== verification/IpcTable.v ===== *)
(** * Sizes of capability tables (ipc/ipc_table.c)

    The tables of entries and of dead-name requests grow through the sizes of
    two arrays filled at boot: powers of two below a page, then increments of
    one, two, four and eight pages. *)

From S2P Require Import Prelude PortName.

(** i386 constants: the page size and the sizes of the table elements. *)
Definition PAGE_SIZE : Z := 4096.
Definition sizeof_ipc_entry : Z := 16.
Definition sizeof_ipc_tree_entry : Z := 32.
Definition sizeof_ipc_port_request : Z := 8.

Definition ipc_table_entries_size : Z := 512.
Definition ipc_table_dnrequests_size : Z := 64.

Section Fill.
Variables (num minsize elemsize : Z).

(** [if (size >= minsize) its[index++].its_size = size / elemsize] *)
Definition fill_one (size : Z) (its : list Z) : list Z :=
  if minsize <=? size then its ++ [size / elemsize] else its.

(** First use powers of two, up to the page size. *)
Fixpoint fill_pow2 (fuel : nat) (size : Z) (its : list Z) : option (Z * list Z) :=
  if (alen its <? num) && (size <? PAGE_SIZE) then
    match fuel with
    | O => None
    | S fuel' => fill_pow2 fuel' (u32 (Z.shiftl size 1)) (fill_one size its)
    end
  else Some (size, its).

(** At most [period] increments of the same size. *)
Fixpoint fill_period (period : nat) (incrsize size : Z) (its : list Z) : Z * list Z :=
  match period with
  | O => (size, its)
  | S period' =>
      if alen its <? num
      then fill_period period' incrsize (u32 (size + incrsize)) (fill_one size its)
      else (size, its)
  end.

(** Then increments of a page, then two pages, etc. *)
Fixpoint fill_pages (fuel : nat) (incrsize size : Z) (its : list Z) : option (list Z) :=
  if alen its <? num then
    match fuel with
    | O => None
    | S fuel' =>
        let '(size', its') := fill_period 15 incrsize size its in
        fill_pages fuel'
          (if incrsize <? Z.shiftl PAGE_SIZE 3 then u32 (Z.shiftl incrsize 1) else incrsize)
          size' its'
    end
  else Some its.
End Fill.

(** Twelve doublings reach a page; every period stores an element once the
    size has reached [minsize]. *)
Definition ipc_table_fill (num min elemsize : Z) : option (list Z) :=
  let minsize := u32 (min * elemsize) in
  LET (size, its) <- fill_pow2 num minsize elemsize 12 1 [] ;;
  fill_pages num minsize elemsize (Z.to_nat num) PAGE_SIZE size its.

(** The arrays [ipc_table_entries] and [ipc_table_dnrequests]. *)
Definition ipc_table_init : option (list Z * list Z) :=
  LET entries <- ipc_table_fill (ipc_table_entries_size - 1) 4 sizeof_ipc_entry ;;
  LET last_size <- aget entries (ipc_table_entries_size - 2) ;;
  LET dnrequests <- ipc_table_fill (ipc_table_dnrequests_size - 1) 2 sizeof_ipc_port_request ;;
  Some (entries ++ [last_size], dnrequests ++ [0]).

(** ** Strict growth *)

Definition increasing (l : list Z) : Prop := StronglySorted Z.lt l.

Lemma increasing_aget l a b x y :
  increasing l -> aget l a = Some x -> aget l b = Some y -> a < b -> x < y.
Proof.
  unfold increasing, aget. intros Hi Ha Hb Hab. repeat case_decide; try done.
  set (k := S (Z.to_nat a)). rewrite <- (take_drop k l) in Hi.
  apply StronglySorted_app in Hi as (Hlt & _). apply Hlt.
  - apply list_elem_of_lookup. exists (Z.to_nat a). rewrite lookup_take_lt by lia. done.
  - apply list_elem_of_lookup. exists (Z.to_nat b - k)%nat. rewrite lookup_drop.
    replace (k + (Z.to_nat b - k))%nat with (Z.to_nat b) by lia. done.
Qed.

Section FillProofs.
Variables (num minsize elemsize e : Z).
Hypothesis Helem : elemsize = 2 ^ e.
Hypothesis He : 0 <= e <= 12.
Hypothesis Hmin : elemsize <= minsize <= PAGE_SIZE.
Hypothesis Hnum : 0 <= num <= 2 ^ 16.

Lemma elem_pos : 0 < elemsize.
Proof using All. subst. apply Z.pow_pos_nonneg; lia. Qed.

Lemma elem_divides_page k : (elemsize | k * PAGE_SIZE).
Proof using All.
  subst. exists (k * 2 ^ (12 - e)). change PAGE_SIZE with (2 ^ 12).
  rewrite <- Z.mul_assoc, <- Z.pow_add_r by lia. do 2 f_equal. lia.
Qed.

(** What the loops maintain: the sizes stored so far are increasing and end
    below the current size. *)
Definition filled (size : Z) (its : list Z) : Prop :=
  increasing its /\ Forall (fun x => x * elemsize < size) its /\ alen its <= num.

Lemma fill_one_filled size size' its :
  filled size its -> alen its < num -> (minsize <= size -> (elemsize | size)) ->
  size < size' -> filled size' (fill_one minsize elemsize size its).
Proof using All.
  intros (Hi & Hf & Hl) Hn Hd Hlt. pose proof elem_pos. unfold fill_one, filled.
  assert (Forall (fun x => x * elemsize < size') its) as Hf'
    by (eapply Forall_impl; [exact Hf|]; cbn; lia).
  zcase; [|split_and!; (done || lia)].
  destruct (Hd ltac:(done)) as [q ->]. rewrite Z.div_mul by lia.
  rewrite alen_app. change (alen [q]) with 1. split_and!; [|apply Forall_app; split; [done|]|lia].
  - apply StronglySorted_app. split_and!; [|done|by repeat constructor].
    intros x y Hx ->%list_elem_of_singleton. rewrite Forall_forall in Hf.
    specialize (Hf x Hx). cbn in Hf. nia.
  - constructor; [cbn; lia|constructor].
Qed.

Lemma fill_pow2_spec k fuel its :
  0 <= k -> k + Z.of_nat fuel = 12 -> filled (2 ^ k) its ->
  exists size its', fill_pow2 num minsize elemsize fuel (2 ^ k) its = Some (size, its') /\
    filled size its' /\ size <= PAGE_SIZE /\ (alen its' < num -> size = PAGE_SIZE).
Proof using All.
  revert k its. induction fuel as [|fuel IH]; intros k its Hk Hf Hfl; cbn [fill_pow2].
  - replace k with 12 in * by lia. rewrite (proj2 (Z.ltb_ge (2 ^ 12) PAGE_SIZE)) by done.
    rewrite andb_false_r. do 2 eexists. split_and!; (done || lia).
  - assert (2 ^ k < PAGE_SIZE) as Hlt by (apply (Z.pow_lt_mono_r 2 k 12); lia).
    destruct (Z.ltb_spec (alen its) num); cbn [andb].
    2:{ do 2 eexists. split_and!; (done || lia). }
    rewrite (proj2 (Z.ltb_lt _ _) Hlt).
    replace (u32 (Z.shiftl (2 ^ k) 1)) with (2 ^ (k + 1)).
    2:{ rewrite Z.shiftl_mul_pow2, <- Z.pow_add_r by lia. symmetry. apply u32_small.
        split; [apply Z.pow_nonneg; lia|]. apply Z.pow_lt_mono_r; lia. }
    apply IH; [lia|lia|]. eapply fill_one_filled; [done|done| |apply Z.pow_lt_mono_r; lia].
    intros Hm. rewrite Helem. assert (e <= k) as Hek.
    { rewrite Helem in Hmin. apply (Z.pow_le_mono_r_iff 2); lia. }
    exists (2 ^ (k - e)). rewrite <- Z.pow_add_r by lia. f_equal. lia.
Qed.

(** Sizes in the page-increment phase are small multiples of a page. *)
Definition page_size_ok (size : Z) (its : list Z) : Prop :=
  exists k, size = k * PAGE_SIZE /\ 1 <= k <= 1 + 8 * alen its.

Definition incr_ok (incrsize : Z) : Prop := 
  exists j, incrsize = j * PAGE_SIZE /\ (j = 1 \/ j = 2 \/ j = 4 \/ j = 8).

Lemma fill_period_spec p incrsize size its :
  incr_ok incrsize -> filled size its -> page_size_ok size its ->
  let '(size', its') := fill_period num minsize elemsize p incrsize size its in
  filled size' its' /\ page_size_ok size' its' /\
  (alen its' = num \/ alen its' = alen its + Z.of_nat p).
Proof using All.
  intros (j & -> & Hj). revert size its.
  induction p as [|p IH]; intros size its Hf Hp; cbn [fill_period].
  { split_and!; [done|done|lia]. }
  destruct (Z.ltb_spec (alen its) num).
  2:{ split_and!; [done|done|]. destruct Hf as (_ & _ & ?). lia. }
  destruct Hp as (k & -> & Hk). unfold PAGE_SIZE in *.
  assert (u32 (k * 4096 + j * 4096) = (k + j) * 4096) as Hu.
  { rewrite <- Z.mul_add_distr_r. apply u32_small. unfold is_u32, wordsize. lia. }
  rewrite Hu.
  assert (alen (fill_one minsize elemsize (k * 4096) its) = alen its + 1) as Hl.
  { unfold fill_one. rewrite (proj2 (Z.leb_le minsize (k * 4096))) by lia.
    by rewrite alen_app. }
  specialize (IH ((k + j) * 4096) (fill_one minsize elemsize (k * 4096) its)).
  destruct (fill_period _ _ _ p _ _ _) as [size' its'].
  destruct IH as (? & ? & ?); [| |split_and!; [done|done|lia]].
  - eapply fill_one_filled; [done|done|intros; apply elem_divides_page|lia].
  - exists (k + j). split; [done|]. lia.
Qed.

Lemma fill_pages_spec fuel incrsize size its :
  incr_ok incrsize -> filled size its -> page_size_ok size its ->
  num - alen its <= Z.of_nat fuel ->
  exists its', fill_pages num minsize elemsize fuel incrsize size its = Some its' /\
    increasing its' /\ alen its' = num /\
    Forall (fun x => x * elemsize < (1 + 8 * num) * PAGE_SIZE) its'.
Proof using All.
  revert incrsize size its. induction fuel as [|fuel IH];
    intros incrsize size its Hi Hf Hp Hfu; cbn [fill_pages]; destruct (Z.ltb_spec (alen its) num);
    try lia.
  2: { pose proof (fill_period_spec 15 incrsize size its Hi Hf Hp) as Hper.
       destruct (fill_period _ _ _ 15 _ _ _) as [size' its']. destruct Hper as (Hf' & Hp' & Hl).
       apply IH; [|done|done|lia].
       destruct Hi as (j & -> & Hj). unfold incr_ok, PAGE_SIZE in *. zcase.
       - change (Z.shiftl 4096 3) with (8 * 4096) in *. exists (2 * j).
         rewrite Z.shiftl_mul_pow2 by lia. rewrite u32_small by (unfold is_u32, wordsize; lia).
         split; lia.
       - exists j. done. }
  all: eexists; split; [done|]; destruct Hf as (? & Hf & ?), Hp as (k & -> & ?);
    split_and!; [done|lia|]; eapply Forall_impl; [exact Hf|]; cbn; unfold PAGE_SIZE; lia.
Qed.
End FillProofs.

Lemma ipc_table_fill_correct num min elemsize e :
  elemsize = 2 ^ e -> 0 <= e <= 12 -> 1 <= min -> min * elemsize <= PAGE_SIZE ->
  0 <= num <= 2 ^ 16 ->
  exists its, ipc_table_fill num min elemsize = Some its /\
    increasing its /\ alen its = num /\
    Forall (fun x => x * elemsize < (1 + 8 * num) * PAGE_SIZE) its.
Proof.
  intros Helem He Hmin Hmax Hnum. assert (0 < elemsize) as Hpos by (subst; apply Z.pow_pos_nonneg; lia).
  unfold ipc_table_fill. rewrite u32_small by (unfold is_u32, wordsize, PAGE_SIZE in *; nia).
  assert (elemsize <= min * elemsize <= PAGE_SIZE) as Hm by nia.
  destruct (fill_pow2_spec num (min * elemsize) elemsize e Helem He Hm Hnum 0 12 [])
    as (size & its & Heq & Hf & Hsz & Hs); [lia|lia| |].
  { split_and!; [constructor|constructor|]. change (alen (@nil Z)) with 0. lia. }
  change (2 ^ 0) with 1 in Heq. rewrite Heq.
  destruct (decide (alen its < num)) as [Hlt|Hge].
  - eapply fill_pages_spec; try done.
    + exists 1. unfold PAGE_SIZE. lia.
    + exists 1. split; [by rewrite Hs|]. pose proof (alen_nonneg its). lia.
    + pose proof (alen_nonneg its). lia.
  - destruct Hf as (? & Hf & ?). exists its.
    assert (forall fuel i s, fill_pages num (min * elemsize) elemsize fuel i s its = Some its) as ->.
    { intros [] ? ?; cbn [fill_pages]; by rewrite (proj2 (Z.ltb_ge (alen its) num)) by lia. }
    split_and!; [done|done|lia|]. eapply Forall_impl; [exact Hf|]. cbn.
    unfold PAGE_SIZE in *. lia.
Qed.

(** ** The contract of ipc_table.h *)

(** The array of sizes: strictly increasing, then its last size repeated; no
    size exceeds the index of the dead name. *)
Definition entries_sizes_ok `{PortConfig} (its : list Z) : Prop :=
  exists l last, its = l ++ [last; last] /\ increasing (l ++ [last]) /\
    Forall (fun x => 4 <= x) (l ++ [last]) /\ last <= MACH_PORT_INDEX MACH_PORT_DEAD.

Lemma fill_split (its : list Z) k :
  alen its = k + 1 -> 0 <= k -> exists l x, its = l ++ [x] /\ aget its k = Some x.
Proof.
  intros Hl Hk. destruct its as [|x its _] using rev_ind; [unfold alen in Hl; cbn in Hl; lia|].
  rewrite alen_app in Hl. change (alen [x]) with 1 in Hl.
  exists its, x. split; [done|]. rewrite aget_app_r by lia.
  replace (k - alen its) with 0 by lia. done.
Qed.

Lemma entries_sizes_range `{PortConfig} its k x :
  entries_sizes_ok its -> aget its k = Some x -> 4 <= x <= MACH_PORT_INDEX MACH_PORT_DEAD.
Proof.
  intros (l & last & -> & Hi & H4 & Hl) Hx.
  assert (x ∈ l ++ [last]) as Hin.
  { unfold aget in Hx. case_decide; [|done]. apply list_elem_of_lookup_2 in Hx. set_solver. }
  rewrite Forall_forall in H4. split; [by apply H4|].
  apply StronglySorted_app in Hi as (Hi & _). apply elem_of_app in Hin as [Hin|Hin]; [|set_solver].
  specialize (Hi x last Hin ltac:(set_solver)). lia.
Qed.

Lemma increasing_first_le l x : increasing l -> x ∈ l -> exists y, head l = Some y /\ y <= x.
Proof.
  destruct l as [|y l]; [set_solver|]. intros Hs Hx. exists y. split; [done|].
  apply StronglySorted_cons in Hs as [Hall _]. rewrite Forall_forall in Hall.
  apply elem_of_cons in Hx as [->|Hx]; [lia|]. specialize (Hall x Hx). lia.
Qed.

(** Every size stored is at least [minsize / elemsize]. *)
Lemma ipc_table_fill_head num min elemsize its :
  ipc_table_fill num min elemsize = Some its ->
  1 <= elemsize -> 0 <= min * elemsize < wordsize -> Forall (fun x => min <= x) its.
Proof.
  intros H He Hm. unfold ipc_table_fill in H. rewrite u32_small in H by done.
  assert (forall size l, Forall (fun x => min <= x) l -> Forall (fun x => min <= x) (fill_one (min * elemsize) elemsize size l)) as H1.
  { intros size l Hl. unfold fill_one. zcase; [|done]. apply Forall_app. split; [done|].
    constructor; [|constructor]. apply Z.div_le_lower_bound; lia. }
  assert (forall fuel size l r, fill_pow2 num (min * elemsize) elemsize fuel size l = Some r ->
    Forall (fun x => min <= x) l -> Forall (fun x => min <= x) r.2) as H2.
  { induction fuel as [|fuel IH]; intros size l r Hr Hl; cbn in Hr; destruct (_ && _); try done;
      [by injection Hr as <-| |by injection Hr as <-]. eapply IH; [exact Hr|by apply H1]. }
  assert (forall p incr size l, Forall (fun x => min <= x) l ->
    Forall (fun x => min <= x) (fill_period num (min * elemsize) elemsize p incr size l).2) as H3.
  { induction p as [|p IH]; intros incr size l Hl; cbn; [done|]. destruct (_ <? _); [|done]. by apply IH, H1. }
  assert (forall fuel incr size l r, fill_pages num (min * elemsize) elemsize fuel incr size l = Some r ->
    Forall (fun x => min <= x) l -> Forall (fun x => min <= x) r) as H4.
  { induction fuel as [|fuel IH]; intros incr size l r Hr Hl; cbn [fill_pages] in Hr; destruct (_ <? num); try done;
      try (by injection Hr as <-).
    pose proof (H3 15%nat incr size l Hl) as Hp. destruct (fill_period _ _ _ 15 _ _ _) as [s2 l2].
    by eapply IH. }
  destruct (fill_pow2 num (min * elemsize) elemsize 12 1 []) as [[size l]|] eqn:E; [|done].
  eapply H4; [exact H|]. exact (H2 _ _ _ _ E ltac:(constructor)).
Qed.

Lemma ipc_table_init_entries `{PC : PortConfig} :
  exists entries dnrequests, ipc_table_init = Some (entries, dnrequests) /\
    entries_sizes_ok entries /\ alen entries = ipc_table_entries_size /\
    exists l, dnrequests = l ++ [0] /\ increasing l /\ Forall (fun x => 2 <= x) l /\
      alen dnrequests = ipc_table_dnrequests_size.
Proof.
  unfold ipc_table_init.
  destruct (ipc_table_fill_correct (ipc_table_entries_size - 1) 4 sizeof_ipc_entry 4)
    as (e & He & Hi & Hl & Hb); [done|lia|lia|done|vm_compute; split; discriminate|].
  destruct (ipc_table_fill_correct (ipc_table_dnrequests_size - 1) 2 sizeof_ipc_port_request 3)
    as (d & Hd & Hid & Hld & _); [done|lia|lia|done|vm_compute; split; discriminate|].
  assert (Forall (fun x => 4 <= x) e) as H4
    by (eapply ipc_table_fill_head; [exact He|unfold sizeof_ipc_entry, wordsize; lia..]).
  assert (Forall (fun x => 2 <= x) d) as H2
    by (eapply ipc_table_fill_head; [exact Hd|unfold sizeof_ipc_port_request, wordsize; lia..]).
  rewrite He, Hd. unfold ipc_table_entries_size, ipc_table_dnrequests_size in *.
  change (512 - 2) with 510. destruct (fill_split e 510) as (l & x & -> & ->); [lia|lia|]. do 2 eexists. split; [done|].
  rewrite Forall_app in Hb. destruct Hb as [_ Hb]. apply Forall_cons in Hb as [Hb _].
  split_and!.
  - exists l, x. split_and!; [by rewrite <- app_assoc|done|done|]. unfold PAGE_SIZE, sizeof_ipc_entry in Hb.
    rewrite index_arith. unfold MACH_PORT_DEAD, wordsize. destruct PORT_GENERATIONS; [|lia].
    change ((2 ^ 32 - 1) / 2 ^ 8) with 16777215. lia.
  - rewrite alen_app. change (alen [x]) with 1. lia.
  - exists d. split_and!; [done|done|done|]. rewrite alen_app. change (alen [0]) with 1. lia.
Qed.

(** ** Theorem *)

(** Ipc_table_init establishes the contract of ipc_table.h.  The array of
    entry-table sizes has 512 elements of at least 4 entries, strictly increasing
    except that the last two are equal, and none exceeds the index of the dead
    name, with or without port generations; the array of request-table sizes has
    64 elements, strictly increasing up to a terminating zero. *)
Lemma table_sizes_contract `{PC : PortConfig} :
  exists entries dnrequests, ipc_table_init = Some (entries, dnrequests) /\
    entries_sizes_ok entries /\ alen entries = 512 /\
    (forall k x y, 0 <= k < 510 -> aget entries k = Some x -> aget entries (k + 1) = Some y -> x < y) /\
    aget entries 511 = aget entries 510 /\
    exists l, dnrequests = l ++ [0] /\ increasing l /\ Forall (fun x => 2 <= x) l /\ alen dnrequests = 64.
Proof.
  destruct ipc_table_init_entries as (e & d & Heq & Hok & Hl & Hd). exists e, d.
  change ipc_table_entries_size with 512 in Hl.
  split; [exact Heq|]. split; [exact Hok|]. split; [exact Hl|]. split; [|split; [|exact Hd]].
  - destruct Hok as (l & last & -> & Hi & _). intros k x y Hk Hx Hy.
    replace (l ++ [last; last]) with ((l ++ [last]) ++ [last]) in * by by rewrite <- app_assoc.
    rewrite alen_app in Hl. change (alen [last]) with 1 in Hl.
    rewrite aget_app_l in Hx, Hy by lia. eapply increasing_aget; [exact Hi|exact Hx|exact Hy|lia].
  - destruct Hok as (l & last & -> & _). rewrite alen_app in Hl. change (alen [last; last]) with 2 in Hl.
    rewrite !aget_app_r by lia. by replace (511 - alen l) with 1 by lia; replace (510 - alen l) with 0 by lia.
Qed.
