(* ===== verification/IpcTypes.v ===== *)
(** * The data of capability spaces (ipc/ipc_entry.h, ipc/ipc_space.h)

    Objects, spaces and entries are identified by their addresses, [Z].  The
    [index] union of an entry is one field, read as the free-list link of a
    free entry and as the dead-name request of an allocated one; the [hash]
    union is [ie_index] in a table entry, and in a tree entry the link of its
    global hash bucket, which the model keeps in the bucket. *)

From S2P Require Import Prelude PortName IpcSplay.

Definition IO_NULL : Z := 0.
Definition IO_DEAD : Z := wordsize - 1.

Record ipc_entry := mk_entry {
  ie_bits : Z;
  ie_object : Z;
  ie_request : Z;    (* union with ie_next *)
  ie_index : Z       (* slot of the local reverse hash table *)
}.

Definition ie_next : ipc_entry -> Z := ie_request.

Definition set_bits (b : Z) (e : ipc_entry) : ipc_entry :=
  mk_entry b (ie_object e) (ie_request e) (ie_index e).
Definition set_object (o : Z) (e : ipc_entry) : ipc_entry :=
  mk_entry (ie_bits e) o (ie_request e) (ie_index e).
Definition set_request (r : Z) (e : ipc_entry) : ipc_entry :=
  mk_entry (ie_bits e) (ie_object e) r (ie_index e).
Definition set_next : Z -> ipc_entry -> ipc_entry := set_request.
Definition set_index (i : Z) (e : ipc_entry) : ipc_entry :=
  mk_entry (ie_bits e) (ie_object e) (ie_request e) i.

(** The fields of [struct ipc_tree_entry] other than its name and children. *)
Record ipc_tree_entry := mk_ite {
  ite_bits : Z;
  ite_object : Z;
  ite_request : Z;
  ite_space : Z
}.

#[export] Instance ipc_entry_eq_dec : EqDecision ipc_entry.
Proof. solve_decision. Defined.
#[export] Instance ipc_tree_entry_eq_dec : EqDecision ipc_tree_entry.
Proof. solve_decision. Defined.

(** [entry->field = x] through a pointer into the table. *)
Definition table_upd (t : list ipc_entry) (i : Z) (f : ipc_entry -> ipc_entry)
    : option (list ipc_entry) :=
  LET e <- aget t i ;; Some (aset t i (f e)).

Lemma table_upd_Some t i f e : aget t i = Some e -> table_upd t i f = Some (aset t i (f e)).
Proof. unfold table_upd. by intros ->. Qed.

Record ipc_space := mk_space {
  is_self : Z;                         (* the address of the space *)
  is_references : Z;
  is_active : bool;
  is_growing : bool;
  is_table : list ipc_entry;
  is_table_size : Z;
  is_table_next : Z;                   (* element of ipc_table_entries *)
  is_tree : ipc_splay_tree ipc_tree_entry;
  is_tree_total : Z;
  is_tree_small : Z;
  is_tree_hash : Z
}.

(** ** Field updates of a space *)

Definition sp_set_references (r : Z) (sp : ipc_space) : ipc_space :=
  mk_space (is_self sp) r (is_active sp) (is_growing sp) (is_table sp) (is_table_size sp)
    (is_table_next sp) (is_tree sp) (is_tree_total sp) (is_tree_small sp) (is_tree_hash sp).
Definition sp_set_active (a : bool) (sp : ipc_space) : ipc_space :=
  mk_space (is_self sp) (is_references sp) a (is_growing sp) (is_table sp) (is_table_size sp)
    (is_table_next sp) (is_tree sp) (is_tree_total sp) (is_tree_small sp) (is_tree_hash sp).
Definition sp_set_growing (b : bool) (sp : ipc_space) : ipc_space :=
  mk_space (is_self sp) (is_references sp) (is_active sp) b (is_table sp) (is_table_size sp)
    (is_table_next sp) (is_tree sp) (is_tree_total sp) (is_tree_small sp) (is_tree_hash sp).
Definition sp_set_table (t : list ipc_entry) (sp : ipc_space) : ipc_space :=
  mk_space (is_self sp) (is_references sp) (is_active sp) (is_growing sp) t (is_table_size sp)
    (is_table_next sp) (is_tree sp) (is_tree_total sp) (is_tree_small sp) (is_tree_hash sp).
Definition sp_set_size (n next : Z) (sp : ipc_space) : ipc_space :=
  mk_space (is_self sp) (is_references sp) (is_active sp) (is_growing sp) (is_table sp) n
    next (is_tree sp) (is_tree_total sp) (is_tree_small sp) (is_tree_hash sp).
Definition sp_set_tree (tr : ipc_splay_tree ipc_tree_entry) (sp : ipc_space) : ipc_space :=
  mk_space (is_self sp) (is_references sp) (is_active sp) (is_growing sp) (is_table sp)
    (is_table_size sp) (is_table_next sp) tr (is_tree_total sp) (is_tree_small sp) (is_tree_hash sp).
Definition sp_set_total (n : Z) (sp : ipc_space) : ipc_space :=
  mk_space (is_self sp) (is_references sp) (is_active sp) (is_growing sp) (is_table sp)
    (is_table_size sp) (is_table_next sp) (is_tree sp) n (is_tree_small sp) (is_tree_hash sp).
Definition sp_set_small (n : Z) (sp : ipc_space) : ipc_space :=
  mk_space (is_self sp) (is_references sp) (is_active sp) (is_growing sp) (is_table sp)
    (is_table_size sp) (is_table_next sp) (is_tree sp) (is_tree_total sp) n (is_tree_hash sp).
Definition sp_set_hash (n : Z) (sp : ipc_space) : ipc_space :=
  mk_space (is_self sp) (is_references sp) (is_active sp) (is_growing sp) (is_table sp)
    (is_table_size sp) (is_table_next sp) (is_tree sp) (is_tree_total sp) (is_tree_small sp) n.

Lemma space_ext sp sp' :
  is_self sp' = is_self sp -> is_references sp' = is_references sp ->
  is_active sp' = is_active sp -> is_growing sp' = is_growing sp ->
  is_table sp' = is_table sp -> is_table_size sp' = is_table_size sp ->
  is_table_next sp' = is_table_next sp -> is_tree sp' = is_tree sp ->
  is_tree_total sp' = is_tree_total sp -> is_tree_small sp' = is_tree_small sp ->
  is_tree_hash sp' = is_tree_hash sp -> sp' = sp.
Proof. destruct sp, sp'; cbn. by intros; subst. Qed.

(** A pointer to an entry: an element of the table or a node of the tree. *)
Inductive entry_ref := InTable (index : Z) | InTree (name : Z).

#[export] Instance entry_ref_eq_dec : EqDecision entry_ref.
Proof. solve_decision. Defined.

Inductive kern_return :=
| KERN_SUCCESS | KERN_NO_SPACE | KERN_RESOURCE_SHORTAGE | KERN_INVALID_TASK
| KERN_INVALID_NAME | KERN_INVALID_RIGHT | KERN_INVALID_VALUE | KERN_INVALID_ARGUMENT
| KERN_UREFS_OVERFLOW | KERN_NAME_EXISTS | KERN_RIGHT_EXISTS | KERN_INVALID_CAPABILITY
| KERN_NOT_IN_SET | KERN_FAILURE | KERN_NOT_RECEIVER.

#[export] Instance kern_return_eq_dec : EqDecision kern_return.
Proof. solve_decision. Defined.
