(* ===== verification/IpcHash.v ===== *)
(** * Reverse hash tables (ipc/ipc_hash.c)

    Two tables convert an object to its name in a space.  The local table is
    an open-addressing hash table with linear probing kept in the [ie_index]
    fields of the space's own table; the global table chains tree entries in
    move-to-front buckets. *)

From S2P Require Import Prelude PortName IpcSplay IpcTypes.

(** ** The local table *)

Definition IH_LOCAL_HASH (obj size : Z) : Z := Z.shiftr obj 6 mod size.

(** [if (++hindex == size) hindex = 0] *)
Definition next_slot (size hindex : Z) : Z :=
  if hindex + 1 =? size then 0 else hindex + 1.

Section Local.
Context `{PC : PortConfig}.

Fixpoint local_lookup_loop (fuel : nat) (table : list ipc_entry) (size obj hindex : Z)
    : option (option (Z * Z)) :=
  match fuel with
  | O => None
  | S fuel' =>
      LET slot <- aget table hindex ;;
      let index := ie_index slot in
      if index =? 0 then Some None
      else
        LET entry <- aget table index ;;
        if ie_object entry =? obj
        then Some (Some (MACH_PORT_MAKEB index (ie_bits entry), index))
        else local_lookup_loop fuel' table size obj (next_slot size hindex)
  end.

(** The name and the table index of the entry, if there is one. *)
Definition ipc_hash_local_lookup (table : list ipc_entry) (size obj : Z)
    : option (option (Z * Z)) :=
  ASSERT negb (obj =? IO_NULL) ;;
  local_lookup_loop (Z.to_nat size) table size obj (IH_LOCAL_HASH obj size).

Fixpoint local_insert_loop (fuel : nat) (table : list ipc_entry) (size hindex : Z)
    : option Z :=
  match fuel with
  | O => None
  | S fuel' =>
      LET slot <- aget table hindex ;;
      if negb (ie_index slot =? 0)
      then local_insert_loop fuel' table size (next_slot size hindex)
      else Some hindex
  end.

Definition ipc_hash_local_insert (table : list ipc_entry) (size obj index : Z)
    : option (list ipc_entry) :=
  ASSERT negb (index =? 0) ;;
  ASSERT negb (obj =? IO_NULL) ;;
  LET entry <- aget table index ;;
  ASSERT ie_object entry =? obj ;;
  LET hindex <- local_insert_loop (Z.to_nat size) table size (IH_LOCAL_HASH obj size) ;;
  table_upd table hindex (set_index index).

(** The search for the slot of [index]; [None] inside is the "gak!" exit. *)
Fixpoint local_find_loop (fuel : nat) (table : list ipc_entry) (size index hindex : Z)
    : option (option Z) :=
  match fuel with
  | O => None
  | S fuel' =>
      LET slot <- aget table hindex ;;
      if negb (ie_index slot =? index) then
        if ie_index slot =? 0 then Some None
        else local_find_loop fuel' table size index (next_slot size hindex)
      else Some (Some hindex)
  end.

(** [(dindex < hindex) ? ... : ...]: the object at [dindex] that hashes to
    [tindex] is displaced past the hole at [hindex]. *)
Definition is_displaced (dindex tindex hindex : Z) : bool :=
  if dindex <? hindex
  then (dindex <? tindex) && (tindex <=? hindex)
  else (dindex <? tindex) || (tindex <=? hindex).

(** The inner loop: the end of the clump (index 0) or a displaced object. *)
Fixpoint local_displaced_loop (fuel : nat) (table : list ipc_entry) (size hindex dindex : Z)
    : option (Z * Z) :=
  match fuel with
  | O => None
  | S fuel' =>
      let dindex := next_slot size dindex in
      ASSERT negb (dindex =? hindex) ;;
      LET slot <- aget table dindex ;;
      let index := ie_index slot in
      if index =? 0 then Some (dindex, 0)
      else
        LET tentry <- aget table index ;;
        ASSERT negb (ie_object tentry =? IO_NULL) ;;
        let tindex := IH_LOCAL_HASH (ie_object tentry) size in
        if is_displaced dindex tindex hindex then Some (dindex, index)
        else local_displaced_loop fuel' table size hindex dindex
  end.

Fixpoint local_fill_loop (fuel : nat) (table : list ipc_entry) (size hindex : Z)
    : option (list ipc_entry) :=
  match fuel with
  | O => None
  | S fuel' =>
      LET (dindex, index) <- local_displaced_loop (Z.to_nat size) table size hindex hindex ;;
      LET table' <- table_upd table hindex (set_index index) ;;
      if index =? 0 then Some table' else local_fill_loop fuel' table' size dindex
  end.

Definition ipc_hash_local_delete (table : list ipc_entry) (size obj index : Z)
    : option (list ipc_entry) :=
  ASSERT negb (index =? MACH_PORT_NULL) ;;
  ASSERT negb (obj =? IO_NULL) ;;
  LET entry <- aget table index ;;
  ASSERT ie_object entry =? obj ;;
  LET found <- local_find_loop (Z.to_nat size) table size index (IH_LOCAL_HASH obj size) ;;
  match found with
  | None => Some table
  | Some hindex => local_fill_loop (Z.to_nat size) table size hindex
  end.

End Local.

(** ** The global table *)

(** A hashed tree entry: its space and name identify it, and its object does
    not change while it is in a bucket. *)
Record ghash_entry := mk_ghash { gh_space : Z; gh_name : Z; gh_object : Z }.

Definition ghash_same (a b : ghash_entry) : bool :=
  (gh_space a =? gh_space b) && (gh_name a =? gh_name b).

Record ghash := mk_ghtable {
  ipc_hash_global_size : Z;
  ipc_hash_global_mask : Z;
  ipc_hash_global_table : list (list ghash_entry)
}.

Section Global.
Context (g : ghash).

Definition IH_GLOBAL_HASH (space obj : Z) : Z :=
  Z.land (u32 (Z.shiftr space 4 + Z.shiftr obj 6)) (ipc_hash_global_mask g).

Definition gh_matches (space obj : Z) (e : ghash_entry) : bool :=
  (gh_object e =? obj) && (gh_space e =? space).

(** Unlinks the first entry of the chain satisfying [p]. *)
Fixpoint unlink (p : ghash_entry -> bool) (chain : list ghash_entry)
    : option (ghash_entry * list ghash_entry) :=
  match chain with
  | [] => None
  | e :: chain' =>
      if p e then Some (e, chain')
      else match unlink p chain' with
           | Some (e', rest) => Some (e', e :: rest)
           | None => None
           end
  end.

Definition set_bucket (h : Z) (bucket : list ghash_entry) : ghash :=
  mk_ghtable (ipc_hash_global_size g) (ipc_hash_global_mask g)
    (aset (ipc_hash_global_table g) h bucket).

Definition ipc_hash_global_lookup (space obj : Z) : option (ghash * option ghash_entry) :=
  let h := IH_GLOBAL_HASH space obj in
  LET bucket <- aget (ipc_hash_global_table g) h ;;
  match bucket with
  | [] => Some (g, None)
  | this :: rest =>
      if gh_matches space obj this then
        (* found it at front; no need to move *)
        Some (g, Some this)
      else
        match unlink (gh_matches space obj) rest with
        | Some (e, rest') => (* found it; move to front *)
            Some (set_bucket h (e :: this :: rest'), Some e)
        | None => Some (g, None)
        end
  end.

Definition ipc_hash_global_insert (entry : ghash_entry) : option ghash :=
  let h := IH_GLOBAL_HASH (gh_space entry) (gh_object entry) in
  LET bucket <- aget (ipc_hash_global_table g) h ;;
  Some (set_bucket h (entry :: bucket)).

Definition ipc_hash_global_delete (entry : ghash_entry) : option ghash :=
  let h := IH_GLOBAL_HASH (gh_space entry) (gh_object entry) in
  LET bucket <- aget (ipc_hash_global_table g) h ;;
  match unlink (ghash_same entry) bucket with
  | Some (_, bucket') => Some (set_bucket h bucket')
  | None => None (* assert(this != ITE_NULL) *)
  end.
End Global.

(** The rounding loop of [ipc_hash_init]. *)
Fixpoint round_loop (fuel : nat) (mask bit : Z) : option Z :=
  match fuel with
  | O => None
  | S fuel' =>
      let mask := Z.lor mask bit in
      let size := u32 (mask + 1) in
      if Z.land size mask =? 0 then Some mask
      else round_loop fuel' mask (u32 (Z.shiftl bit 1))
  end.

(** [configured] is the initial value of [ipc_hash_global_size]. *)
Definition ipc_hash_init (configured ipc_tree_entry_max : Z) : option ghash :=
  let size :=
    if configured =? 0
    then (let size := Z.shiftr ipc_tree_entry_max 8 in if size <? 32 then 32 else size)
    else configured in
  let mask := u32 (size - 1) in
  LET mask' <- (if negb (Z.land size mask =? 0) then round_loop 32 mask 1 else Some mask) ;;
  let size' := u32 (mask' + 1) in
  Some (mk_ghtable size' mask' (replicate (Z.to_nat size') [])).

(** ** Linear probing: invariant and lemmas *)

(** Cyclic distance from slot [a] to slot [b] in a table of [n] slots. *)
Definition cdist (n a b : Z) : Z := if a <=? b then b - a else b - a + n.

Section LocalProofs.
Context `{PC : PortConfig}.
Implicit Types (t : list ipc_entry) (p q i j : Z).

(** The index stored in slot [p], and the object of entry [i]. *)
Definition slot t p : Z := match aget t p with Some e => ie_index e | None => 0 end.
Definition object_of t i : Z := match aget t i with Some e => ie_object e | None => 0 end.
Definition home t i : Z := IH_LOCAL_HASH (object_of t i) (alen t).

(** Slots hold indices of the table. *)
Definition slots_ok t : Prop :=
  forall p, 0 <= p < alen t -> slot t p <> 0 -> 0 < slot t p < alen t.

(** No index is in two slots other than [hole]. *)
Definition slots_inj (hole : option Z) t : Prop :=
  forall p q, 0 <= p < alen t -> 0 <= q < alen t -> hole <> Some p -> hole <> Some q ->
    slot t p = slot t q -> slot t p <> 0 -> p = q.

(** Every slot between an entry's home and its slot is in use. *)
Definition slots_reach (hole : option Z) t : Prop :=
  forall p q, 0 <= p < alen t -> 0 <= q < alen t -> hole <> Some p -> slot t p <> 0 ->
    cdist (alen t) (home t (slot t p)) q < cdist (alen t) (home t (slot t p)) p ->
    slot t q <> 0.

Definition local_wf t : Prop :=
  0 < alen t /\ slots_ok t /\ slots_inj None t /\ slots_reach None t.

(** Entry [i] is in the reverse table. *)
Definition hashed t i : Prop := i <> 0 /\ exists p, 0 <= p < alen t /\ slot t p = i.

(** Distinct hashed entries name distinct objects, none of them null. *)
Definition hashed_distinct t : Prop :=
  (forall i, hashed t i -> object_of t i <> IO_NULL) /\
  (forall i j, hashed t i -> hashed t j -> object_of t i = object_of t j -> i = j).

(** Tables that differ only in their reverse-hash slots. *)
Definition same_entries t t' : Prop :=
  alen t' = alen t /\
  forall p, set_index 0 <$> aget t' p = set_index 0 <$> aget t p.

(** The reverse table depends on its slots and on the objects of the hashed
    entries. *)
Definition same_slots t t' : Prop :=
  alen t' = alen t /\ forall p, ie_index <$> aget t' p = ie_index <$> aget t p.

Lemma same_slots_slot t t' p : same_slots t t' -> slot t' p = slot t p.
Proof. intros [_ H]. specialize (H p). unfold slot. destruct (aget t' p), (aget t p); cbn in H; congruence. Qed.

Lemma same_slots_hashed t t' i : same_slots t t' -> hashed t' i <-> hashed t i.
Proof.
  intros H. unfold hashed. setoid_rewrite (same_slots_slot t t'); [|done]. by destruct H as [-> _].
Qed.

Lemma same_slots_wf t t' :
  same_slots t t' -> (forall i, hashed t i -> object_of t' i = object_of t i) ->
  local_wf t -> local_wf t'.
Proof.
  intros Hs Ho (Hn & Hok & Hinj & Hr). pose proof (fun p => same_slots_slot t t' p Hs) as Hsl.
  unfold local_wf, slots_ok, slots_inj, slots_reach. destruct Hs as [Hl _]. setoid_rewrite Hsl.
  rewrite Hl. split; [done|]. split; [done|]. split; [done|].
  intros p q Hp Hq Hh Hsp. unfold home. rewrite Hl, Ho; [by apply Hr|]. split; [done|]. by exists p.
Qed.

Lemma same_entries_refl t : same_entries t t.
Proof. done. Qed.

Lemma same_entries_trans t1 t2 t3 :
  same_entries t1 t2 -> same_entries t2 t3 -> same_entries t1 t3.
Proof. intros [? H1] [? H2]. split; [congruence|]. intros p. by rewrite H2, H1. Qed.

Lemma same_entries_fields t t' p e' :
  same_entries t t' -> aget t' p = Some e' ->
  exists e, aget t p = Some e /\ ie_bits e' = ie_bits e /\ ie_object e' = ie_object e /\
    ie_request e' = ie_request e.
Proof.
  intros [_ H] He. specialize (H p). rewrite He in H. cbn in H.
  destruct (aget t p) as [e|]; [|done]. injection H as ? ? ?. by exists e.
Qed.

Lemma same_entries_sym t t' : same_entries t t' -> same_entries t' t.
Proof. intros [? H]. split; [done|]. intros p. by rewrite H. Qed.

Lemma same_entries_object t t' i : same_entries t t' -> object_of t' i = object_of t i.
Proof.
  intros [_ H]. specialize (H i). unfold object_of.
  destruct (aget t' i), (aget t i); cbn in H; try done. unfold set_index in H. congruence.
Qed.

Lemma same_entries_home t t' i : same_entries t t' -> home t' i = home t i.
Proof.
  intros H. unfold home. rewrite (same_entries_object t t') by done. by destruct H as [-> _].
Qed.

Lemma home_range t i : 0 < alen t -> 0 <= home t i < alen t.
Proof. intros. unfold home, IH_LOCAL_HASH. by apply Z.mod_pos_bound. Qed.

Lemma cdist_range n a b : 0 <= a < n -> 0 <= b < n -> 0 <= cdist n a b < n.
Proof. unfold cdist. intros. zcase; lia. Qed.

Lemma next_slot_range n p : 0 <= p < n -> 0 <= next_slot n p < n.
Proof. unfold next_slot. intros. zcase; lia. Qed.

(** The slot at cyclic distance [k] from [a]. *)
Lemma next_slot_dist n a p :
  0 <= a < n -> 0 <= p < n -> next_slot n p <> a ->
  cdist n a (next_slot n p) = cdist n a p + 1.
Proof.
  unfold cdist, next_slot. intros ? ?. destruct (Z.eqb_spec (p + 1) n); intros ?; repeat zcase; lia.
Qed.

Lemma cdist_inj n a p q :
  0 <= a < n -> 0 <= p < n -> 0 <= q < n -> cdist n a p = cdist n a q -> p = q.
Proof. unfold cdist. intros ? ? ?. repeat zcase; lia. Qed.

(** The test of the source says that the hole is between home and slot. *)
Lemma is_displaced_spec n d h g :
  0 <= d < n -> 0 <= h < n -> 0 <= g < n -> d <> g ->
  is_displaced d h g = true <-> cdist n h g < cdist n h d.
Proof.
  intros. unfold is_displaced, cdist.
  repeat zcase; cbn; split; intros; try done; try lia.
Qed.

Lemma aget_slot t p : 0 <= p < alen t -> exists e, aget t p = Some e /\ ie_index e = slot t p.
Proof. intros Hp. destruct (aget_is_Some t p Hp) as [e He]. exists e. unfold slot. by rewrite He. Qed.

Lemma aget_object t i :
  0 <= i < alen t -> exists e, aget t i = Some e /\ ie_object e = object_of t i.
Proof. intros Hp. destruct (aget_is_Some t i Hp) as [e He]. exists e. unfold object_of. by rewrite He. Qed.

(** There is always a free slot, because index 0 is never stored. *)
Lemma free_slot t :
  0 < alen t -> slots_ok t -> slots_inj None t -> exists z, 0 <= z < alen t /\ slot t z = 0.
Proof.
  intros Hn Hok Hinj.
  destruct (decide (Exists (fun k => slot t (Z.of_nat k) = 0) (seq 0 (length t)))) as [He|Hne].
  { apply Exists_exists in He as (k & Hk & Hz). apply elem_of_seq in Hk.
    exists (Z.of_nat k). unfold alen. split; [lia|done]. }
  exfalso. apply not_Exists_Forall in Hne; [|solve_decision]. rewrite Forall_forall in Hne.
  assert (forall k, (k < length t)%nat -> slot t (Z.of_nat k) <> 0) as Hnz.
  { intros k Hk. apply (Hne k). apply elem_of_seq. lia. }
  set (vals := (fun k => Z.to_nat (slot t (Z.of_nat k))) <$> seq 0 (length t)).
  assert (NoDup vals) as Hnd.
  { apply NoDup_fmap_2_strong; [|apply NoDup_seq].
    intros x y Hx Hy Hxy. apply elem_of_seq in Hx. apply elem_of_seq in Hy.
    pose proof (Hok (Z.of_nat x) ltac:(unfold alen; lia) (Hnz x ltac:(lia))).
    pose proof (Hok (Z.of_nat y) ltac:(unfold alen; lia) (Hnz y ltac:(lia))).
    apply Nat2Z.inj. apply Hinj; unfold alen in *; (done || lia). }
  assert (vals ⊆ seq 1 (length t - 1)) as Hsub.
  { intros v (k & -> & Hk)%list_elem_of_fmap. apply elem_of_seq in Hk. apply elem_of_seq.
    pose proof (Hok (Z.of_nat k) ltac:(unfold alen; lia) (Hnz k ltac:(lia))).
    unfold alen in *. lia. }
  apply NoDup_submseteq in Hsub; [|done]. apply submseteq_length in Hsub.
  unfold vals in Hsub. rewrite length_fmap, !length_seq in Hsub. unfold alen in Hn. lia.
Qed.

(** Walking from [a], slots at distance below [k] have been passed. *)
Lemma walk_step n a p :
  0 <= a < n -> 0 <= p < n -> cdist n a p + 1 < n ->
  cdist n a (next_slot n p) = cdist n a p + 1.
Proof.
  intros Ha Hp Hd. apply next_slot_dist; [done|done|]. intros He. revert Hd.
  unfold cdist, next_slot in *. destruct (Z.eqb_spec (p + 1) n); repeat zcase; lia.
Qed.

(** A walk from [h] has passed slots with property [P]; it passes one more and
    cannot come back to [h] before the slot [z], which lacks it. *)
Lemma walk_past n h p z (P : Z -> Prop) :
  0 <= h < n -> 0 <= p < n -> 0 <= z < n ->
  (forall q, 0 <= q < n -> cdist n h q < cdist n h p -> P q) ->
  P p -> ~ P z -> z <> p ->
  cdist n h (next_slot n p) = cdist n h p + 1 /\
  (forall q, 0 <= q < n -> cdist n h q < cdist n h (next_slot n p) -> P q).
Proof.
  intros Hh Hp Hz Hpast HP HPz Hne.
  assert (cdist n h p + 1 < n) as Hroom.
  { pose proof (cdist_range _ _ _ Hh Hz). pose proof (cdist_range _ _ _ Hh Hp).
    destruct (Z.lt_total (cdist n h z) (cdist n h p)) as [Hlt|[Hq|Hgt]].
    - by destruct (HPz (Hpast z Hz Hlt)).
    - by apply cdist_inj in Hq.
    - lia. }
  pose proof (walk_step _ _ _ Hh Hp Hroom) as Hw. split; [done|].
  intros q Hq Hlt. rewrite Hw in Hlt.
  destruct (decide (cdist n h q = cdist n h p)) as [Hq'|].
  - apply cdist_inj in Hq'; [|done..]. by subst.
  - apply Hpast; [done|lia].
Qed.

(** Lookup finds the hashed entry of an object, or reports that there is none. *)
Lemma local_lookup_loop_spec t obj fuel p :
  local_wf t -> hashed_distinct t -> 0 <= p < alen t ->
  let h := IH_LOCAL_HASH obj (alen t) in
  (forall q, 0 <= q < alen t -> cdist (alen t) h q < cdist (alen t) h p ->
     slot t q <> 0 /\ object_of t (slot t q) <> obj) ->
  alen t - cdist (alen t) h p <= Z.of_nat fuel ->
  exists res, local_lookup_loop fuel t (alen t) obj p = Some res /\
    match res with
    | Some (name, i) => hashed t i /\ object_of t i = obj /\
        exists e, aget t i = Some e /\ name = MACH_PORT_MAKEB i (ie_bits e)
    | None => forall i, hashed t i -> object_of t i <> obj
    end.
Proof.
  intros (Hn & Hok & Hinj & Hreach) Hdist Hp h Hpast Hf.
  assert (0 <= h < alen t) as Hh by (unfold h, IH_LOCAL_HASH; by apply Z.mod_pos_bound).
  revert p Hp Hpast Hf. induction fuel as [|fuel IH]; intros p Hp Hpast Hf.
  { pose proof (cdist_range _ _ _ Hh Hp). lia. }
  cbn [local_lookup_loop]. destruct (aget_slot t p Hp) as (e & -> & ->).
  destruct (Z.eqb_spec (slot t p) 0) as [Hz|Hnz].
  { exists None. split; [done|]. intros i [Hi (q & Hq & <-)] Ho.
    assert (home t (slot t q) = h) as Hhome by (unfold home; by rewrite Ho).
    destruct (Z.lt_total (cdist (alen t) h q) (cdist (alen t) h p)) as [Hlt|[Heq|Hgt]].
    - by destruct (Hpast q Hq Hlt).
    - apply cdist_inj in Heq; [|done..]. by subst.
    - apply (Hreach q p Hq Hp); [done|done| |done]. by rewrite Hhome. }
  pose proof (Hok p Hp Hnz) as Hr. destruct (aget_object t (slot t p)) as (e' & He' & Ho); [lia|].
  rewrite He'. destruct (Z.eqb_spec (ie_object e') obj) as [Heq|Hne].
  { eexists. split; [done|]. cbn. split_and!; [split; [done|by exists p]|congruence|].
    by exists e'. }
  destruct (free_slot t Hn Hok Hinj) as (z & Hz & Hz0).
  destruct (walk_past (alen t) h p z _ Hh Hp Hz Hpast) as [Hw Hpast'];
    [split; congruence|naive_solver|congruence|].
  apply IH; [by apply next_slot_range|done|lia].
Qed.

Lemma ipc_hash_local_lookup_correct t obj :
  local_wf t -> hashed_distinct t -> obj <> IO_NULL ->
  exists res, ipc_hash_local_lookup t (alen t) obj = Some res /\
    match res with
    | Some (name, i) => hashed t i /\ object_of t i = obj /\
        exists e, aget t i = Some e /\ name = MACH_PORT_MAKEB i (ie_bits e)
    | None => forall i, hashed t i -> object_of t i <> obj
    end.
Proof.
  intros Hwf Hd Ho. unfold ipc_hash_local_lookup. rewrite (proj2 (Z.eqb_neq _ _) Ho). cbn [negb].
  pose proof Hwf as (Hn & _).
  assert (0 <= IH_LOCAL_HASH obj (alen t) < alen t) as Hh
    by (unfold IH_LOCAL_HASH; by apply Z.mod_pos_bound).
  apply local_lookup_loop_spec; [done|done|done| |].
  - intros q Hq. pose proof (cdist_range _ _ _ Hh Hq). unfold cdist at 2. zcase; lia.
  - unfold cdist. zcase; lia.
Qed.

(** The first free slot from an object's home. *)
Lemma local_insert_loop_spec t h fuel p :
  0 < alen t -> slots_ok t -> slots_inj None t -> 0 <= h < alen t -> 0 <= p < alen t ->
  (forall q, 0 <= q < alen t -> cdist (alen t) h q < cdist (alen t) h p -> slot t q <> 0) ->
  alen t - cdist (alen t) h p <= Z.of_nat fuel ->
  exists p', local_insert_loop fuel t (alen t) p = Some p' /\ 0 <= p' < alen t /\
    slot t p' = 0 /\
    (forall q, 0 <= q < alen t -> cdist (alen t) h q < cdist (alen t) h p' -> slot t q <> 0).
Proof.
  intros Hn Hok Hinj Hh. revert p. induction fuel as [|fuel IH]; intros p Hp Hpast Hf.
  { pose proof (cdist_range _ _ _ Hh Hp). lia. }
  cbn [local_insert_loop]. destruct (aget_slot t p Hp) as (e & -> & ->).
  destruct (Z.eqb_spec (slot t p) 0) as [Hz|Hnz]; cbn [negb]; [by exists p|].
  destruct (free_slot t Hn Hok Hinj) as (z & Hz & Hz0).
  destruct (walk_past (alen t) h p z _ Hh Hp Hz Hpast) as [Hw Hpast']; [done|congruence|congruence|].
  apply IH; [by apply next_slot_range|done|lia].
Qed.

(** Writing one slot. *)
Lemma table_upd_index t p i :
  0 <= p < alen t ->
  exists t', table_upd t p (set_index i) = Some t' /\ same_entries t t' /\
    forall q, slot t' q = if decide (q = p) then i else slot t q.
Proof.
  intros Hp. unfold table_upd. destruct (aget_is_Some t p Hp) as [e He]. rewrite He.
  eexists. split; [done|]. split; [split; [apply alen_aset|]|].
  - intros q. rewrite aget_aset. case_decide as Hd; [|done]. destruct Hd as [-> _]. by rewrite He.
  - intros q. unfold slot. case_decide as Hd.
    + subst. by rewrite aget_aset_eq.
    + by rewrite aget_aset_ne.
Qed.

Lemma ipc_hash_local_insert_correct t i e :
  local_wf t -> 0 < i < alen t -> ~ hashed t i -> aget t i = Some e -> ie_object e <> IO_NULL ->
  exists t', ipc_hash_local_insert t (alen t) (ie_object e) i = Some t' /\
    local_wf t' /\ same_entries t t' /\ (forall j, hashed t' j <-> hashed t j \/ j = i).
Proof.
  intros (Hn & Hok & Hinj & Hreach) Hi Hnh He Ho. unfold ipc_hash_local_insert.
  rewrite (proj2 (Z.eqb_neq i 0)), (proj2 (Z.eqb_neq _ _) Ho), He, Z.eqb_refl by lia. cbn [negb].
  set (h := IH_LOCAL_HASH (ie_object e) (alen t)).
  assert (0 <= h < alen t) as Hh by (unfold h, IH_LOCAL_HASH; by apply Z.mod_pos_bound).
  assert (home t i = h) as Hhome by (unfold home, object_of; by rewrite He).
  destruct (local_insert_loop_spec t h (Z.to_nat (alen t)) h) as (p & -> & Hp & Hp0 & Hpast);
    [done..| | |].
  { intros q Hq. pose proof (cdist_range _ _ _ Hh Hq). unfold cdist at 2. zcase; lia. }
  { unfold cdist. zcase; lia. }
  destruct (table_upd_index t p i Hp) as (t' & -> & Hse & Hslot).
  exists t'. split; [done|]. pose proof Hse as [Hlen _]. unfold local_wf. rewrite Hlen.
  assert (forall q, 0 <= q < alen t -> slot t q <> i) as Hni.
  { intros q Hq Hqi. apply Hnh. split; [lia|]. by exists q. }
  split_and!; [done| | | |done|].
  - intros q Hq. rewrite Hslot. case_decide; [lia|]. rewrite Hlen in *. by apply Hok.
  - intros a b Ha Hb _ _. rewrite !Hslot, Hlen in *.
    repeat case_decide; subst; intros Hab Hnz; try done.
    + by destruct (Hni b Hb).
    + by destruct (Hni a Ha).
    + by apply Hinj.
  - intros a b Ha Hb _. rewrite !Hslot, Hlen in *. rewrite (same_entries_home t t') by done.
    case_decide; subst.
    + intros _. rewrite Hhome. intros Hlt. case_decide; [lia|]. by apply Hpast.
    + intros Hnz Hlt. case_decide; [lia|]. by apply (Hreach a b).
  - intros j. unfold hashed. setoid_rewrite Hlen. setoid_rewrite Hslot. split.
    + intros [Hj (q & Hq & Hs)]. case_decide; [by right|]. left. split; [done|]. by exists q.
    + intros [[Hj (q & Hq & Hs)]| ->].
      * split; [done|]. exists q. split; [done|]. case_decide; [congruence|done].
      * split; [lia|]. exists p. split; [done|]. by case_decide.
Qed.

(** The slot of a hashed entry is found from its home. *)
Lemma local_find_loop_spec t i fuel p :
  local_wf t -> 0 < i -> 0 <= p < alen t ->
  (forall q, 0 <= q < alen t -> cdist (alen t) (home t i) q < cdist (alen t) (home t i) p ->
     slot t q <> 0 /\ slot t q <> i) ->
  alen t - cdist (alen t) (home t i) p <= Z.of_nat fuel ->
  exists res, local_find_loop fuel t (alen t) i p = Some res /\
    match res with
    | Some g => 0 <= g < alen t /\ slot t g = i
    | None => ~ hashed t i
    end.
Proof.
  intros (Hn & Hok & Hinj & Hreach) Hi. pose proof (home_range t i Hn) as Hh.
  revert p. induction fuel as [|fuel IH]; intros p Hp Hpast Hf.
  { pose proof (cdist_range _ _ _ Hh Hp). lia. }
  cbn [local_find_loop]. destruct (aget_slot t p Hp) as (e & -> & ->).
  destruct (Z.eqb_spec (slot t p) i) as [He|Hne]; cbn [negb]; [by exists (Some p)|].
  destruct (Z.eqb_spec (slot t p) 0) as [H0|Hnz].
  { exists None. split; [done|]. intros [_ (q & Hq & Hqi)].
    destruct (Z.lt_total (cdist (alen t) (home t i) q) (cdist (alen t) (home t i) p))
      as [Hlt|[Heq|Hgt]].
    - by destruct (Hpast q Hq Hlt).
    - apply cdist_inj in Heq; [|done..]. congruence.
    - apply (Hreach q p Hq Hp); [done|lia| |done]. by rewrite Hqi. }
  destruct (free_slot t Hn Hok Hinj) as (z & Hz & Hz0).
  destruct (walk_past (alen t) (home t i) p z _ Hh Hp Hz Hpast) as [Hw Hpast'];
    [done|naive_solver|congruence|].
  apply IH; [by apply next_slot_range|done|lia].
Qed.

(** The table while a hole at [g] is being filled: the index still stored in
    [g] is the removed one or a duplicate. *)
Definition hole_wf (g z : Z) t : Prop :=
  0 <= g < alen t /\ 0 <= z < alen t /\ slot t z = 0 /\ slot t g <> 0 /\
  slots_ok t /\ slots_inj (Some g) t /\ slots_reach (Some g) t /\
  (forall p, 0 <= p < alen t -> p <> g -> slot t p <> 0 -> object_of t (slot t p) <> IO_NULL).

(** Slot [p] holds an entry that would be lost if [g] were emptied. *)
Definition displaced_past t g p : Prop :=
  cdist (alen t) (home t (slot t p)) g < cdist (alen t) (home t (slot t p)) p.

Lemma local_displaced_loop_spec g z t fuel d :
  hole_wf g z t -> 0 <= d < alen t -> cdist (alen t) g d < cdist (alen t) g z ->
  (forall p, 0 <= p < alen t -> 0 < cdist (alen t) g p <= cdist (alen t) g d ->
     slot t p <> 0 /\ ~ displaced_past t g p) ->
  cdist (alen t) g z - cdist (alen t) g d <= Z.of_nat fuel ->
  exists d', local_displaced_loop fuel t (alen t) g d = Some (d', slot t d') /\
    0 <= d' < alen t /\ 0 < cdist (alen t) g d' <= cdist (alen t) g z /\
    (slot t d' = 0 \/ displaced_past t g d') /\
    (forall p, 0 <= p < alen t -> 0 < cdist (alen t) g p < cdist (alen t) g d' ->
       slot t p <> 0 /\ ~ displaced_past t g p).
Proof.
  intros Hwf. pose proof Hwf as (Hg & Hz & Hz0 & Hg0 & Hok & Hinj & Hreach & Hobj).
  revert d. induction fuel as [|fuel IH]; intros d Hd Hdz Hscan Hf; [lia|].
  pose proof (cdist_range _ _ _ Hg Hz) as Hrz.
  pose proof (walk_step (alen t) g d Hg Hd ltac:(lia)) as Hw.
  pose proof (next_slot_range _ _ Hd) as Hd'. cbn [local_displaced_loop].
  set (d' := next_slot (alen t) d) in *.
  pose proof (cdist_range _ _ _ Hg Hd) as Hrd.
  assert (d' <> g) as Hdg by (intros ->; revert Hw; unfold cdist at 1; zcase; lia).
  rewrite (proj2 (Z.eqb_neq _ _) Hdg). cbn [negb].
  assert (forall p, 0 <= p < alen t -> 0 < cdist (alen t) g p < cdist (alen t) g d' ->
    slot t p <> 0 /\ ~ displaced_past t g p) as Hscan' by (intros; apply Hscan; (done || lia)).
  destruct (aget_slot t d' Hd') as (e & -> & ->).
  destruct (Z.eqb_spec (slot t d') 0) as [H0|Hnz].
  { exists d'. rewrite H0. split_and!; (done || lia || auto). }
  pose proof (Hok d' Hd' Hnz) as Hr. destruct (aget_object t (slot t d')) as (e' & -> & ->); [lia|].
  rewrite (proj2 (Z.eqb_neq _ _) (Hobj d' Hd' Hdg Hnz)). cbn [negb].
  fold (home t (slot t d')). pose proof (home_range t (slot t d') ltac:(lia)) as Hhr.
  pose proof (is_displaced_spec (alen t) d' (home t (slot t d')) g Hd' Hhr Hg Hdg) as Hdisp.
  destruct (is_displaced d' (home t (slot t d')) g) eqn:E.
  { exists d'. split_and!; (done || lia || auto). right. by apply Hdisp. }
  assert (cdist (alen t) g d' <> cdist (alen t) g z).
  { intros Heq. apply cdist_inj in Heq; [|done..]. congruence. }
  apply IH; [done|lia| |lia].
  intros p Hp Hpd. destruct (decide (cdist (alen t) g p = cdist (alen t) g d')) as [Hq|].
  - apply cdist_inj in Hq; [|done..]. subst p. split; [done|].
    unfold displaced_past. rewrite <- Hdisp. congruence.
  - apply Hscan'; [done|lia].
Qed.

(** Slots on the way from home past the hole to a farther slot. *)
Lemma cdist_between n h g d p :
  0 <= h < n -> 0 <= g < n -> 0 <= d < n -> 0 <= p < n ->
  cdist n h g < cdist n h p -> cdist n g d < cdist n g p -> cdist n h d < cdist n h p.
Proof. unfold cdist. intros ? ? ? ?. repeat zcase; lia. Qed.

Lemma cdist_advance n g d z :
  0 <= g < n -> 0 <= d < n -> 0 <= z < n ->
  0 < cdist n g d < cdist n g z -> cdist n d z < cdist n g z.
Proof. unfold cdist. intros ? ? ?. repeat zcase; lia. Qed.

(** At the end of the clump the hole can be emptied. *)
Lemma hole_close g z t t' d :
  hole_wf g z t -> same_entries t t' ->
  (forall q, slot t' q = if decide (q = g) then 0 else slot t q) ->
  0 <= d < alen t -> slot t d = 0 ->
  (forall p, 0 <= p < alen t -> 0 < cdist (alen t) g p < cdist (alen t) g d ->
     slot t p <> 0 /\ ~ displaced_past t g p) ->
  local_wf t'.
Proof.
  intros (Hg & Hz & Hz0 & Hg0 & Hok & Hinj & Hreach & Hobj) Hse Hslot Hd Hd0 Hscan.
  pose proof Hse as [Hlen _]. unfold local_wf. rewrite Hlen. split_and!; [lia|..].
  - intros q Hq. rewrite Hslot. case_decide; [done|]. rewrite Hlen in *. by apply Hok.
  - intros a b Ha Hb _ _. rewrite !Hslot, Hlen in *. repeat case_decide; try done.
    intros. apply Hinj; congruence.
  - intros a b Ha Hb _. rewrite !Hslot, Hlen in *. rewrite (same_entries_home t t') by done.
    case_decide as Hag; [done|]. intros Hnz Hlt. case_decide as Hbg.
    2:{ apply (Hreach a b); congruence. }
    subst b. exfalso. pose proof (home_range t (slot t a) ltac:(lia)) as Hh.
    destruct (Z.lt_total (cdist (alen t) g a) (cdist (alen t) g d)) as [Hl|[Heq|Hgt]].
    + destruct (Hscan a Ha) as [_ Hnd]; [|by apply Hnd].
      pose proof (cdist_range _ _ _ Hg Ha). split; [|done].
      enough (cdist (alen t) g a <> cdist (alen t) g g) as He
        by (revert He; unfold cdist at 2; zcase; lia).
      intros Heq. by apply cdist_inj in Heq.
    + apply cdist_inj in Heq; [|done..]. congruence.
    + apply (Hreach a d Ha Hd); [congruence|done| |done]. by eapply (cdist_between _ _ g).
Qed.

(** Moving a displaced entry into the hole makes its slot the hole. *)
Lemma hole_move g z t t' d :
  hole_wf g z t -> same_entries t t' -> 0 <= d < alen t -> d <> g -> slot t d <> 0 ->
  displaced_past t g d ->
  (forall q, slot t' q = if decide (q = g) then slot t d else slot t q) ->
  hole_wf d z t' /\
  (forall j, j <> 0 ->
     (exists p, 0 <= p < alen t /\ p <> d /\ slot t' p = j) <->
     (exists p, 0 <= p < alen t /\ p <> g /\ slot t p = j)).
Proof.
  intros (Hg & Hz & Hz0 & Hg0 & Hok & Hinj & Hreach & Hobj) Hse Hd Hdg Hd0 Hdisp Hslot.
  pose proof Hse as [Hlen _]. split.
  - unfold hole_wf. rewrite Hlen, !Hslot. rewrite (decide_False (P := d = g)) by done.
    rewrite (decide_False (P := z = g)) by congruence. split_and!; try (done || lia).
    + intros q Hq. rewrite Hslot. rewrite Hlen in *. case_decide; intros; by apply Hok.
    + intros a b Ha Hb Hna Hnb. rewrite !Hslot, Hlen in *.
      repeat case_decide; subst; try done; intros Heq Hnz.
      * destruct Hnb. f_equal. apply Hinj; congruence.
      * destruct Hna. f_equal. symmetry. apply Hinj; congruence.
      * apply Hinj; congruence.
    + intros a b Ha Hb Hna. rewrite !Hslot, Hlen in *. rewrite (same_entries_home t t') by done.
      repeat case_decide; subst; try done; intros Hnz Hlt.
      * apply (Hreach d b); [done|done|congruence|done|]. unfold displaced_past in Hdisp. lia.
      * apply (Hreach a b); congruence.
    + intros q Hq Hne. rewrite Hslot. rewrite (same_entries_object t t') by done.
      case_decide; intros; apply Hobj; done.
  - intros j Hj. split.
    + intros (p & Hp & Hpd & Hs). rewrite Hslot in Hs. case_decide; [by exists d|by exists p].
    + intros (p & Hp & Hpg & Hs). destruct (decide (p = d)) as [->|].
      * exists g. rewrite Hslot, decide_True by done. split; [done|]. split; [congruence|done].
      * exists p. rewrite Hslot, decide_False by done. done.
Qed.

Lemma local_fill_loop_spec fuel g z t :
  hole_wf g z t -> cdist (alen t) g z <= Z.of_nat fuel ->
  exists t', local_fill_loop fuel t (alen t) g = Some t' /\ local_wf t' /\ same_entries t t' /\
    (forall j, hashed t' j <-> j <> 0 /\ exists p, 0 <= p < alen t /\ p <> g /\ slot t p = j).
Proof.
  revert g t. induction fuel as [|fuel IH]; intros g t Hwf Hf;
    pose proof Hwf as (Hg & Hz & Hz0 & Hg0 & _).
  { exfalso. pose proof (cdist_range _ _ _ Hg Hz).
    assert (cdist (alen t) g z = cdist (alen t) g g) as Heq
      by (unfold cdist at 2; zcase; lia). apply cdist_inj in Heq; [|done..]. congruence. }
  assert (cdist (alen t) g g = 0) as Hgg by (unfold cdist; zcase; lia).
  assert (0 < cdist (alen t) g z) as Hgz.
  { pose proof (cdist_range _ _ _ Hg Hz). enough (cdist (alen t) g z <> cdist (alen t) g g) by lia.
    intros Heq. apply cdist_inj in Heq; [|done..]. congruence. }
  cbn [local_fill_loop].
  destruct (local_displaced_loop_spec g z t (Z.to_nat (alen t)) g Hwf)
    as (d & -> & Hd & Hdz & Hcase & Hscan); [done|lia|lia| |].
  { pose proof (cdist_range _ _ _ Hg Hz). lia. }
  destruct (table_upd_index t g (slot t d) Hg) as (t1 & -> & Hse & Hslot).
  pose proof Hse as [Hlen _].
  destruct (Z.eqb_spec (slot t d) 0) as [H0|Hnz].
  - exists t1. rewrite H0 in *. split_and!; [done|by eapply hole_close|done|].
    intros j. unfold hashed. rewrite Hlen. split; intros [Hj Hex]; (split; [done|]).
    + destruct Hex as (p & Hp & Hs). rewrite Hslot in Hs. case_decide; [congruence|]. by exists p.
    + destruct Hex as (p & Hp & Hpg & Hs). exists p. rewrite Hslot, decide_False by done. done.
  - destruct Hcase as [?|Hdisp]; [done|].
    assert (d <> g) as Hdg by (intros ->; lia).
    destruct (hole_move g z t t1 d Hwf Hse Hd Hdg Hnz Hdisp Hslot) as [Hwf1 Hcont].
    destruct (IH d t1 Hwf1) as (t' & Heq & Hwf' & Hse' & Hh').
    { rewrite Hlen. enough (cdist (alen t) d z < cdist (alen t) g z) by lia.
      apply cdist_advance; [done..|]. split; [lia|].
      enough (cdist (alen t) g d <> cdist (alen t) g z) by lia.
      intros Hq. apply cdist_inj in Hq; [|done..]. congruence. }
    rewrite Hlen in Heq. exists t'. split_and!; [done|done|by eapply same_entries_trans|].
    intros j. rewrite Hh', Hlen. split; intros [Hj Hex]; (split; [done|]); by apply Hcont.
Qed.

Lemma ipc_hash_local_delete_correct t i e :
  local_wf t -> hashed_distinct t -> 0 < i < alen t -> aget t i = Some e ->
  ie_object e <> IO_NULL ->
  exists t', ipc_hash_local_delete t (alen t) (ie_object e) i = Some t' /\
    local_wf t' /\ same_entries t t' /\ (forall j, hashed t' j <-> hashed t j /\ j <> i).
Proof.
  intros Hwf [Hobj _] Hi He Ho. unfold ipc_hash_local_delete, MACH_PORT_NULL.
  pose proof Hwf as (Hn & Hok & Hinj & Hreach).
  rewrite (proj2 (Z.eqb_neq i 0)), (proj2 (Z.eqb_neq _ _) Ho), He, Z.eqb_refl by lia. cbn [negb].
  assert (home t i = IH_LOCAL_HASH (ie_object e) (alen t)) as Hhome
    by (unfold home, object_of; by rewrite He).
  pose proof (home_range t i Hn) as Hh. rewrite <- Hhome.
  assert (cdist (alen t) (home t i) (home t i) = 0) as Hd0 by (unfold cdist; zcase; lia).
  destruct (local_find_loop_spec t i (Z.to_nat (alen t)) (home t i) Hwf) as (res & -> & Hres);
    [lia|done| |lia|].
  { intros q Hq. pose proof (cdist_range _ _ _ Hh Hq). lia. }
  destruct res as [g|].
  - destruct Hres as [Hg Hgi]. destruct (free_slot t Hn Hok Hinj) as (z & Hz & Hz0).
    destruct (local_fill_loop_spec (Z.to_nat (alen t)) g z t) as (t' & -> & Hwf' & Hse & Hh').
    { unfold hole_wf. split_and!; try (done || lia).
      - intros p q Hp Hq _ _. by apply Hinj.
      - intros p q Hp Hq _. by apply Hreach.
      - intros p Hp _ Hnz. apply Hobj. split; [done|]. by exists p. }
    { pose proof (cdist_range _ _ _ Hg Hz). lia. }
    exists t'. split_and!; [done..|]. intros j. rewrite Hh'. unfold hashed. split.
    + intros [Hj (p & Hp & Hpg & Hs)]. split; [split; [done|by exists p]|].
      intros ->. apply Hpg. apply Hinj; congruence.
    + intros [[Hj (p & Hp & Hs)] Hji]. split; [done|]. exists p. split; [done|]. split; [|done].
      intros ->. congruence.
  - exists t. split_and!; [done|done|done|]. intros j. split; [|by intros []].
    intros Hj. split; [done|]. intros ->. done.
Qed.
End LocalProofs.

(** ** The global table: invariant and lemmas *)

Definition gh_key (e : ghash_entry) : Z * Z := (gh_space e, gh_name e).

Definition ghashed (g : ghash) (e : ghash_entry) : Prop :=
  exists h b, aget (ipc_hash_global_table g) h = Some b /\ e ∈ b.

(** Power-of-two size; every entry is in its bucket, once. *)
Definition ghash_wf (g : ghash) : Prop :=
  (exists k, 0 <= k <= 32 /\ ipc_hash_global_size g = 2 ^ k /\
     ipc_hash_global_mask g = 2 ^ k - 1 /\ alen (ipc_hash_global_table g) = 2 ^ k) /\
  (forall h b e, aget (ipc_hash_global_table g) h = Some b -> e ∈ b ->
     IH_GLOBAL_HASH g (gh_space e) (gh_object e) = h) /\
  (forall h b, aget (ipc_hash_global_table g) h = Some b -> NoDup b) /\
  (forall e e', ghashed g e -> ghashed g e' -> gh_key e = gh_key e' -> e = e').

Lemma unlink_Some p b e b' : unlink p b = Some (e, b') -> p e = true /\ b ≡ₚ e :: b'.
Proof.
  revert e b'. induction b as [|x b IH]; intros e b' H; cbn in H; [done|].
  destruct (p x) eqn:E; [by injection H as <- <-|].
  destruct (unlink p b) as [[y rest]|]; [|done]. injection H as <- <-.
  destruct (IH y rest eq_refl) as [? Hp]. split; [done|]. rewrite Hp. apply Permutation_swap.
Qed.

Lemma unlink_None p b : unlink p b = None -> forall e, e ∈ b -> p e = false.
Proof.
  induction b as [|x b IH]; intros H e; cbn in H; [set_solver|].
  destruct (p x) eqn:E; [done|]. destruct (unlink p b) as [[]|]; [done|].
  intros [->|He]%elem_of_cons; [done|by apply IH].
Qed.

Lemma global_hash_range g space obj :
  ghash_wf g -> 0 <= IH_GLOBAL_HASH g space obj < alen (ipc_hash_global_table g).
Proof.
  intros [(k & Hk & _ & Hm & ->) _]. unfold IH_GLOBAL_HASH. rewrite Hm.
  replace (2 ^ k - 1) with (Z.ones k) by (rewrite Z.ones_equiv; lia).
  rewrite Z.land_ones by lia. apply Z.mod_pos_bound. apply Z.pow_pos_nonneg; lia.
Qed.

Lemma global_bucket g space obj :
  ghash_wf g -> exists b, aget (ipc_hash_global_table g) (IH_GLOBAL_HASH g space obj) = Some b /\
    (forall e, ghashed g e -> gh_space e = space -> gh_object e = obj -> e ∈ b).
Proof.
  intros Hwf. destruct (aget_is_Some _ _ (global_hash_range g space obj Hwf)) as [b Hb].
  exists b. split; [done|]. intros e (h & b' & Hb' & He) <- <-.
  destruct Hwf as (_ & Hh & _). rewrite (Hh _ _ _ Hb' He) in Hb. congruence.
Qed.

(** Replacing a bucket. *)
Lemma set_bucket_ghashed g h b b' e :
  aget (ipc_hash_global_table g) h = Some b ->
  ghashed (set_bucket g h b') e <->
  e ∈ b' \/ exists h' b'', h' <> h /\ aget (ipc_hash_global_table g) h' = Some b'' /\ e ∈ b''.
Proof.
  intros Hb. pose proof (aget_Some_range _ _ _ Hb) as Hr. unfold ghashed. cbn. split.
  - intros (h' & b'' & Hg & He). rewrite aget_aset in Hg. case_decide as Hd.
    + injection Hg as <-. by left.
    + right. exists h', b''. split_and!; [|done|done]. intros ->. apply Hd. done.
  - intros [He|(h' & b'' & Hne & Hg & He)].
    + exists h, b'. by rewrite aget_aset_eq.
    + exists h', b''. by rewrite aget_aset_ne by congruence.
Qed.

Lemma set_bucket_wf g h b b' :
  ghash_wf g -> aget (ipc_hash_global_table g) h = Some b -> NoDup b' ->
  (forall e, e ∈ b' -> IH_GLOBAL_HASH g (gh_space e) (gh_object e) = h) ->
  (forall e e', ghashed (set_bucket g h b') e -> ghashed (set_bucket g h b') e' ->
     gh_key e = gh_key e' -> e = e') ->
  ghash_wf (set_bucket g h b').
Proof.
  intros (Hk & Hh & Hnd & _) Hb Hnd' Hh' Hu. pose proof (aget_Some_range _ _ _ Hb) as Hr.
  split_and!; [| | |done].
  - destruct Hk as (k & ? & ? & ? & ?). exists k. cbn. by rewrite alen_aset.
  - intros h' b'' e Hg He. change (IH_GLOBAL_HASH g (gh_space e) (gh_object e) = h'). cbn in Hg.
    rewrite aget_aset in Hg. case_decide as Hd; [|by eapply Hh].
    destruct Hd as [<- _]. injection Hg as <-. by apply Hh'.
  - intros h' b'' Hg. cbn in Hg. rewrite aget_aset in Hg. case_decide as Hd; [|by eapply Hnd].
    congruence.
Qed.

Lemma ghashed_bucket g h b e :
  aget (ipc_hash_global_table g) h = Some b ->
  ghashed g e <->
  e ∈ b \/ exists h' b'', h' <> h /\ aget (ipc_hash_global_table g) h' = Some b'' /\ e ∈ b''.
Proof.
  intros Hb. split.
  - intros (h' & b'' & Hg & He). destruct (decide (h' = h)) as [->|].
    + left. congruence.
    + right. by exists h', b''.
  - intros [He|(h' & b'' & _ & Hg & He)]; [by exists h, b|by exists h', b''].
Qed.

Lemma ipc_hash_global_lookup_correct g space obj :
  ghash_wf g ->
  exists g' res, ipc_hash_global_lookup g space obj = Some (g', res) /\ ghash_wf g' /\
    (forall e, ghashed g' e <-> ghashed g e) /\
    match res with
    | Some e => ghashed g e /\ gh_space e = space /\ gh_object e = obj
    | None => forall e, ghashed g e -> ~ (gh_space e = space /\ gh_object e = obj)
    end.
Proof.
  intros Hwf. unfold ipc_hash_global_lookup.
  destruct (global_bucket g space obj Hwf) as (b & Hb & Hin). rewrite Hb.
  assert (forall e, gh_matches space obj e = true -> gh_space e = space /\ gh_object e = obj) as Hm
    by (intros e; unfold gh_matches; intros; b2p; done).
  destruct b as [|this rest].
  { do 2 eexists. split_and!; [done..|]. intros e He [? ?]. by apply (not_elem_of_nil e), Hin. }
  destruct (gh_matches space obj this) eqn:E.
  { do 2 eexists. split_and!; [done|done|done|]. split; [|by apply Hm].
    eexists _, _. split; [done|]. set_solver. }
  destruct (unlink (gh_matches space obj) rest) as [[e rest']|] eqn:Eu.
  - destruct (unlink_Some _ _ _ _ Eu) as [Hp Hperm].
    assert (this :: rest ≡ₚ e :: this :: rest') as Hperm'
      by (rewrite Hperm; apply Permutation_swap).
    set (h := IH_GLOBAL_HASH g space obj) in *.
    assert (forall e', ghashed (set_bucket g h (e :: this :: rest')) e' <-> ghashed g e') as Hsame.
    { intros e'. rewrite (set_bucket_ghashed _ _ _ _ _ Hb), (ghashed_bucket _ _ _ _ Hb).
      by rewrite Hperm'. }
    do 2 eexists. split; [done|]. split_and!; [|done| |by apply Hm..].
    + pose proof Hwf as (_ & Hh & Hnd & Hu). eapply set_bucket_wf; [done|done| | |].
      * rewrite <- Hperm'. by eapply Hnd.
      * intros e' He'. rewrite <- Hperm' in He'. by eapply Hh.
      * intros e1 e2. rewrite !Hsame. apply Hu.
    + eexists _, _. split; [exact Hb|]. rewrite Hperm'. set_solver.
  - do 2 eexists. split_and!; [done..|]. intros e He [Hs Ho].
    apply Hin in He; [|done..]. apply elem_of_cons in He as [->|He].
    + unfold gh_matches in E. rewrite Hs, Ho, !Z.eqb_refl in E. done.
    + pose proof (unlink_None _ _ Eu e He) as Hf. unfold gh_matches in Hf.
      rewrite Hs, Ho, !Z.eqb_refl in Hf. done.
Qed.

Lemma ipc_hash_global_insert_correct g entry :
  ghash_wf g -> (forall e, ghashed g e -> gh_key e <> gh_key entry) ->
  exists g', ipc_hash_global_insert g entry = Some g' /\ ghash_wf g' /\
    (forall e, ghashed g' e <-> ghashed g e \/ e = entry).
Proof.
  intros Hwf Hnew. unfold ipc_hash_global_insert.
  destruct (global_bucket g (gh_space entry) (gh_object entry) Hwf) as (b & Hb & _). rewrite Hb.
  set (h := IH_GLOBAL_HASH g (gh_space entry) (gh_object entry)) in *.
  assert (forall e, ghashed (set_bucket g h (entry :: b)) e <-> ghashed g e \/ e = entry) as Hc.
  { intros e. rewrite (set_bucket_ghashed _ _ _ _ _ Hb), (ghashed_bucket _ _ _ _ Hb).
    rewrite elem_of_cons. naive_solver. }
  eexists. split; [done|]. split; [|done]. pose proof Hwf as (_ & Hh & Hnd & Hu).
  eapply set_bucket_wf; [done|done| | |].
  - constructor; [|by eapply Hnd]. intros He. eapply Hnew; [|done]. by exists h, b.
  - intros e [->|He]%elem_of_cons; [done|by eapply Hh].
  - intros e e'. rewrite !Hc. intros [?| ->] [?| ->] Hk; [by apply Hu|..|done].
    + by destruct (Hnew e).
    + by destruct (Hnew e').
Qed.

Lemma ipc_hash_global_delete_correct g entry :
  ghash_wf g -> ghashed g entry ->
  exists g', ipc_hash_global_delete g entry = Some g' /\ ghash_wf g' /\
    (forall e, ghashed g' e <-> ghashed g e /\ e <> entry).
Proof.
  intros Hwf Hent. unfold ipc_hash_global_delete.
  destruct (global_bucket g (gh_space entry) (gh_object entry) Hwf) as (b & Hb & Hin). rewrite Hb.
  specialize (Hin entry Hent eq_refl eq_refl). pose proof Hwf as (_ & Hh & Hnd & Hu).
  set (h := IH_GLOBAL_HASH g (gh_space entry) (gh_object entry)) in *.
  destruct (unlink (ghash_same entry) b) as [[e b']|] eqn:Eu.
  2:{ pose proof (unlink_None _ _ Eu _ Hin) as Hf. unfold ghash_same in Hf.
      by rewrite !Z.eqb_refl in Hf. }
  destruct (unlink_Some _ _ _ _ Eu) as [Hs Hperm].
  assert (e = entry) as ->.
  { apply Hu; [|done|].
    - exists h, b. split; [done|]. rewrite Hperm. set_solver.
    - unfold ghash_same in Hs. b2p. unfold gh_key. congruence. }
  pose proof (Hnd _ _ Hb) as Hndb. rewrite Hperm in Hndb. apply NoDup_cons in Hndb as [Hni Hndb].
  assert (forall e, ghashed (set_bucket g h b') e <-> ghashed g e /\ e <> entry) as Hc.
  { intros e. rewrite (set_bucket_ghashed _ _ _ _ _ Hb), (ghashed_bucket _ _ _ _ Hb).
    setoid_rewrite Hperm. rewrite elem_of_cons. split.
    - intros [He|Hex]; [split; [auto|congruence]|]. split; [auto|]. intros ->.
      destruct Hex as (h' & b'' & Hne & Hg & He). by specialize (Hh _ _ _ Hg He).
    - intros [[[->|He]|Hex] Hne]; [done|auto|auto]. }
  eexists. split; [done|]. split; [|done]. eapply set_bucket_wf; [done|done|done| |].
  - intros e He. eapply Hh; [done|]. rewrite Hperm. set_solver.
  - intros e e' [? _]%Hc [? _]%Hc. by apply Hu.
Qed.

(** ** Initialisation *)

Lemma pow2_mask x : 0 <= x -> Z.land (x + 1) x = 0 -> exists j, 0 <= j /\ x = 2 ^ j - 1.
Proof.
  intros Hx Hl. exists (Z.log2 (x + 1)). split; [apply Z.log2_nonneg|].
  destruct (Z.log2_spec (x + 1)) as [Hlo Hhi]; [lia|].
  destruct (Z.eq_dec (x + 1) (2 ^ Z.log2 (x + 1))) as [|Hne]; [lia|exfalso].
  assert (Z.log2 x = Z.log2 (x + 1)) as Hlog.
  { apply Z.log2_unique; [apply Z.log2_nonneg|]. lia. }
  assert (0 < x) by (pose proof (Z.pow_pos_nonneg 2 (Z.log2 (x + 1)) ltac:(lia) (Z.log2_nonneg _)); lia).
  apply (f_equal (fun z => Z.testbit z (Z.log2 (x + 1)))) in Hl.
  rewrite Z.land_spec, Z.bits_0, Z.bit_log2 in Hl by lia.
  rewrite <- Hlog, Z.bit_log2 in Hl by lia. done.
Qed.

Lemma lor_ge x y : 0 <= y -> x <= Z.lor x y.
Proof.
  intros Hy. assert (Z.lor x y = x + Z.ldiff y x) as ->.
  { rewrite <- Z.add_lor_land, <- (Z.add_0_r (Z.lor x y)). f_equal.
    - apply Z.bits_inj'. intros n Hn. rewrite !Z.lor_spec, Z.ldiff_spec.
      by destruct (Z.testbit x n), (Z.testbit y n).
    - apply Z.bits_inj'. intros n Hn. rewrite Z.land_spec, Z.ldiff_spec, Z.bits_0.
      by destruct (Z.testbit x n), (Z.testbit y n). }
  enough (0 <= Z.ldiff y x) by lia. apply Z.ldiff_nonneg. auto.
Qed.

Lemma lor_ones_absorb x m : 0 <= x < 2 ^ m -> 0 <= m -> Z.lor x (Z.ones m) = Z.ones m.
Proof.
  intros Hx Hm. apply Z.bits_inj'. intros n Hn. rewrite Z.lor_spec. destruct (Z.ltb_spec n m).
  - by rewrite Z.ones_spec_low, orb_true_r by lia.
  - rewrite Z.ones_spec_high, orb_false_r by lia.
    destruct (Z.eq_dec x 0) as [->|]; [apply Z.bits_0|].
    apply Z.bits_above_log2; [lia|]. apply (Z.lt_le_trans _ m); [|done].
    apply Z.log2_lt_pow2; lia.
Qed.

Lemma ones_lor_succ k : 0 <= k -> Z.lor (Z.ones k) (2 ^ k) = Z.ones (k + 1).
Proof.
  intros Hk. apply Z.bits_inj'. intros n Hn. rewrite Z.lor_spec, Z.pow2_bits_eqb by done.
  destruct (Z.ltb_spec n k); [|destruct (Z.eqb_spec k n)].
  - rewrite !Z.ones_spec_low by lia. done.
  - subst. by rewrite Z.ones_spec_high, Z.ones_spec_low by lia.
  - by rewrite !Z.ones_spec_high by lia.
Qed.

(** The loop rounds [x + 1] up to the next power of two. *)
Lemma round_loop_spec x m fuel k :
  2 ^ (m - 1) <= x < 2 ^ m -> 1 <= m <= 31 -> 0 <= k < m -> m - k <= Z.of_nat fuel ->
  round_loop fuel (Z.lor x (Z.ones k)) (2 ^ k) = Some (2 ^ m - 1).
Proof.
  intros Hx Hm. revert k. induction fuel as [|fuel IH]; intros k Hk Hf; [lia|].
  cbn [round_loop].
  assert (Z.lor (Z.lor x (Z.ones k)) (2 ^ k) = Z.lor x (Z.ones (k + 1))) as ->
    by (rewrite <- Z.lor_assoc, ones_lor_succ by lia; done).
  set (M := Z.lor x (Z.ones (k + 1))).
  assert (0 <= 2 ^ (m - 1)) by (apply Z.pow_nonneg; lia).
  assert (0 <= Z.ones (k + 1)) by (rewrite Z.ones_equiv; pose proof (Z.pow_pos_nonneg 2 (k + 1)); lia).
  assert (x <= M) by (by apply lor_ge).
  assert (Z.lor M (Z.ones m) = Z.ones m) as HMm.
  { unfold M. rewrite <- Z.lor_assoc, (lor_ones_absorb (Z.ones (k + 1))), lor_ones_absorb; try lia.
    rewrite Z.ones_equiv. pose proof (Z.pow_le_mono_r 2 (k + 1) m). lia. }
  assert (M <= Z.ones m) as HM.
  { rewrite <- HMm. apply lor_ge. rewrite Z.ones_equiv. pose proof (Z.pow_pos_nonneg 2 m). lia. }
  rewrite Z.ones_equiv in HM. assert (2 ^ m <= 2 ^ 31) by (apply Z.pow_le_mono_r; lia).
  rewrite (u32_small (M + 1)) by (unfold is_u32, wordsize; lia).
  destruct (Z.eqb_spec (Z.land (M + 1) M) 0) as [Hz|Hnz].
  - apply pow2_mask in Hz as (j & Hj & HMj); [|lia]. rewrite HMj. do 2 f_equal. f_equal.
    assert (j <= m) by (apply (Z.pow_le_mono_r_iff 2); lia).
    assert (m - 1 < j) by (apply (Z.pow_lt_mono_r_iff 2); lia). lia.
  - assert (k + 1 <> m) as Hne.
    { intros Heq. apply Hnz. unfold M. rewrite Heq, lor_ones_absorb by lia.
      rewrite Z.ones_equiv. replace (Z.pred (2 ^ m) + 1) with (2 ^ m) by lia.
      rewrite <- Z.ones_equiv, Z.land_ones, Z.mod_same; lia. }
    replace (u32 (Z.shiftl (2 ^ k) 1)) with (2 ^ (k + 1)); [apply IH; lia|].
    rewrite Z.shiftl_mul_pow2, <- Z.pow_add_r by lia. symmetry. apply u32_small.
    split; [apply Z.pow_nonneg; lia|]. apply Z.pow_lt_mono_r; lia.
Qed.

Lemma land_pow2_pred k : 0 <= k -> Z.land (2 ^ k) (2 ^ k - 1) = 0.
Proof.
  intros Hk. replace (2 ^ k - 1) with (Z.ones k) by (rewrite Z.ones_equiv; lia).
  rewrite Z.land_ones by done. apply Z.mod_same. apply Z.pow_nonzero; lia.
Qed.

(** The size asked for: configured, or derived from the number of entries. *)
Definition requested_size (configured ipc_tree_entry_max : Z) : Z :=
  if configured =? 0
  then (let size := Z.shiftr ipc_tree_entry_max 8 in if size <? 32 then 32 else size)
  else configured.

Lemma ipc_hash_init_correct configured ite_max :
  1 <= requested_size configured ite_max <= 2 ^ 31 ->
  exists g, ipc_hash_init configured ite_max = Some g /\ ghash_wf g /\
    requested_size configured ite_max <= ipc_hash_global_size g /\
    ipc_hash_global_size g < 2 * requested_size configured ite_max /\
    (forall e, ~ ghashed g e).
Proof.
  intros Hs. unfold ipc_hash_init. fold (requested_size configured ite_max).
  set (s := requested_size configured ite_max) in *.
  rewrite (u32_small (s - 1)) by (unfold is_u32, wordsize; lia).
  enough (exists k, 0 <= k <= 31 /\ s <= 2 ^ k < 2 * s /\
    (if negb (Z.land s (s - 1) =? 0) then round_loop 32 (s - 1) 1 else Some (s - 1)) =
    Some (2 ^ k - 1)) as (k & Hk & Hks & ->).
  { replace (2 ^ k - 1 + 1) with (2 ^ k) by lia.
    assert (2 ^ k <= 2 ^ 31) by (apply Z.pow_le_mono_r; lia).
    rewrite u32_small by (unfold is_u32, wordsize; lia).
    assert (forall h b, aget (replicate (Z.to_nat (2 ^ k)) ([] : list ghash_entry)) h = Some b ->
      b = []) as Hnil.
    { intros h b. unfold aget. case_decide; [|done]. by intros [? _]%lookup_replicate. }
    eexists. split; [done|]. cbn. split_and!; [|lia|lia|].
    2:{ intros e (h & b & Hb & He). apply Hnil in Hb. subst. set_solver. }
    split_and!.
    - exists k. cbn. split_and!; try done; try lia. unfold alen. rewrite length_replicate. lia.
    - intros h b e Hb He. apply Hnil in Hb. subst. set_solver.
    - intros h b Hb. apply Hnil in Hb. subst. constructor.
    - intros e e' (h & b & Hb & He). apply Hnil in Hb. subst. set_solver. }
  destruct (Z.eqb_spec (Z.land s (s - 1)) 0) as [Hz|Hnz]; cbn [negb].
  - rewrite <- (Z.sub_add 1 s) in Hz at 1. apply pow2_mask in Hz as (j & Hj & Heq); [|lia].
    exists j. assert (s = 2 ^ j) as Hsj by lia. rewrite <- Hsj. split_and!; try lia; [|done].
    apply (Z.pow_le_mono_r_iff 2); lia.
  - destruct (Z.eq_dec s 1) as [Hs1|]; [by rewrite Hs1 in Hnz|].
    destruct (Z.log2_spec (s - 1)) as [Hlo Hhi]; [lia|].
    set (m := Z.log2 (s - 1) + 1). pose proof (Z.log2_nonneg (s - 1)).
    assert (Z.log2 (s - 1) < 31) by (apply Z.log2_lt_pow2; lia).
    exists m. replace (Z.succ (Z.log2 (s - 1))) with m in Hhi by lia.
    assert (2 ^ m = 2 * 2 ^ Z.log2 (s - 1)) as Hm2
      by (unfold m; rewrite Z.pow_add_r by lia; lia).
    split_and!; try lia.
    pose proof (round_loop_spec (s - 1) m 32 0) as Hr.
    change (Z.ones 0) with 0 in Hr. rewrite Z.lor_0_r in Hr. apply Hr; try lia.
    replace (m - 1) with (Z.log2 (s - 1)) by lia. lia.
Qed.
