(* ===== verification/IpcHashSpec.v ===== *)
(** * What the reverse hash tables promise (ipc/ipc_hash.c)

    The local table is specified by the set of the indices entered in it, the
    global table by the list of the entries in its buckets.  Every sequence of
    insertions and deletions that respects the callers' obligations succeeds,
    and a lookup finds exactly the entries that are in the specification. *)

From S2P Require Import Prelude PortName IpcSplay IpcTypes IpcHash.

Section LocalTrace.
Context `{PC : PortConfig}.
Implicit Types (t : list ipc_entry) (s : gset Z).

Inductive local_op := LInsert (index : Z) | LDelete (index : Z).

Definition local_run_op t (op : local_op) : option (list ipc_entry) :=
  match op with
  | LInsert i => ipc_hash_local_insert t (alen t) (object_of t i) i
  | LDelete i => ipc_hash_local_delete t (alen t) (object_of t i) i
  end.

Fixpoint local_run t (ops : list local_op) : option (list ipc_entry) :=
  match ops with
  | [] => Some t
  | op :: ops' => LET next <- local_run_op t op ;; local_run next ops'
  end.

(** An entry may be entered when it has an object that no entered entry has. *)
Definition insertable t s (i : Z) : Prop :=
  0 < i < alen t /\ object_of t i <> IO_NULL /\ i ∉ s /\
  set_Forall (fun j => object_of t j <> object_of t i) s.

#[export] Instance insertable_dec t s i : Decision (insertable t s i).
Proof. unfold insertable. apply _. Defined.

Definition local_spec_op t s (op : local_op) : option (gset Z) :=
  match op with
  | LInsert i => if decide (insertable t s i) then Some ({[i]} ∪ s) else None
  | LDelete i => if decide (i ∈ s) then Some (s ∖ {[i]}) else None
  end.

Fixpoint local_spec t s (ops : list local_op) : option (gset Z) :=
  match ops with
  | [] => Some s
  | op :: ops' => LET next <- local_spec_op t s op ;; local_spec t next ops'
  end.

(** The table represents the set. *)
Definition represents t s : Prop :=
  local_wf t /\ hashed_distinct t /\ (forall i, hashed t i <-> i ∈ s) /\
  (forall i, i ∈ s -> 0 < i < alen t).

Lemma represents_objects t t' s : same_entries t t' -> forall i, object_of t' i = object_of t i.
Proof. intros H i. by apply same_entries_object. Qed.

Lemma local_op_refines t s op s' :
  represents t s -> local_spec_op t s op = Some s' ->
  exists t', local_run_op t op = Some t' /\ same_entries t t' /\ represents t' s'.
Proof.
  intros (Hw & [Hd1 Hd2] & Hh & Hr) Hs. destruct op as [i|i]; cbn in *; case_decide as Hi; try done;
    injection Hs as <-.
  - destruct Hi as (Hi & Ho & Hn & Hall). destruct (aget_object t i) as (e & He & Heo); [lia|].
    destruct (ipc_hash_local_insert_correct t i e) as (t' & Heq & Hw' & Hse & Hh'); try done.
    { by rewrite Hh. } { congruence. }
    rewrite Heo in Heq. exists t'. split; [done|]. split; [done|].
    pose proof (represents_objects t t' s Hse) as Hob. unfold represents, hashed_distinct.
    setoid_rewrite Hob. setoid_rewrite Hh'. setoid_rewrite Hh. assert (alen t' = alen t) as -> by apply Hse.
    split_and!; try done.
    + intros j [Hj| ->]; [by apply Hd1, Hh|done].
    + intros j j' [Hj| ->] [Hj'| ->] Heq'; try done.
      * apply Hd2; [by apply Hh..|done].
      * by destruct (Hall j Hj).
      * by destruct (Hall j' Hj').
    + set_solver.
    + intros j [->%elem_of_singleton|Hj]%elem_of_union; [done|by apply Hr].
  - pose proof (Hr i Hi) as Hir. destruct (aget_object t i) as (e & He & Heo); [lia|].
    destruct (ipc_hash_local_delete_correct t i e) as (t' & Heq & Hw' & Hse & Hh'); try done.
    { rewrite Heo. by apply Hd1, Hh. }
    rewrite Heo in Heq. exists t'. split; [done|]. split; [done|].
    pose proof (represents_objects t t' s Hse) as Hob. unfold represents, hashed_distinct.
    setoid_rewrite Hob. setoid_rewrite Hh'. setoid_rewrite Hh. assert (alen t' = alen t) as -> by apply Hse.
    split_and!; try done.
    + intros j [Hj _]. by apply Hd1, Hh.
    + intros j j' [Hj _] [Hj' _]. apply Hd2; by apply Hh.
    + set_solver.
    + intros j [Hj _]%elem_of_difference. by apply Hr.
Qed.

Lemma local_spec_op_same t t' s op : same_entries t t' -> local_spec_op t' s op = local_spec_op t s op.
Proof.
  intros H. destruct op as [i|i]; cbn; [|done].
  assert (insertable t' s i <-> insertable t s i) as Hi.
  { unfold insertable, set_Forall. setoid_rewrite (represents_objects t t' s H). by destruct H as [-> _]. }
  repeat case_decide; tauto.
Qed.

Lemma local_spec_same t t' s ops : same_entries t t' -> local_spec t' s ops = local_spec t s ops.
Proof.
  intros H. revert s. induction ops as [|op ops IH]; intros s; cbn; [done|].
  rewrite (local_spec_op_same t t') by done. destruct (local_spec_op t s op); [apply IH|done].
Qed.

Lemma local_run_refines t s ops s' :
  represents t s -> local_spec t s ops = Some s' ->
  exists t', local_run t ops = Some t' /\ same_entries t t' /\ represents t' s'.
Proof.
  revert t s. induction ops as [|op ops IH]; intros t s Hr Hs; cbn in *.
  { injection Hs as <-. exists t. split_and!; [done|apply same_entries_refl|done]. }
  destruct (local_spec_op t s op) as [s1|] eqn:E; [|done].
  destruct (local_op_refines t s op s1 Hr E) as (t1 & -> & Hse & Hr1).
  rewrite <- (local_spec_same t t1) in Hs by done.
  destruct (IH t1 s1 Hr1 Hs) as (t2 & -> & Hse2 & Hr2). exists t2. split_and!; [done| |done].
  by eapply same_entries_trans.
Qed.

(** C33: The linear-probing table is a correct reverse map.  Starting from a table
    with empty slots, any sequence of insertions and deletions that enters an
    entry only when its object is new and deletes only entered entries succeeds;
    afterwards a lookup of an object returns the entry, with its name, exactly
    when an entered entry has the object.  In particular deletion never cuts an
    entry off from its probe sequence. *)
Theorem local_hash_refines_set t ops s
    (Hlen : 0 < alen t) (Hempty : forall p, slot t p = 0) (Hspec : local_spec t ∅ ops = Some s) :
  exists t', local_run t ops = Some t' /\ same_entries t t' /\
    forall obj, obj <> IO_NULL ->
      exists res, ipc_hash_local_lookup t' (alen t') obj = Some res /\
        match res with
        | Some (name, i) => i ∈ s /\ object_of t i = obj /\
            exists e, aget t i = Some e /\ name = MACH_PORT_MAKEB i (ie_bits e)
        | None => forall i, i ∈ s -> object_of t i <> obj
        end.
Proof.
  assert (represents t ∅) as Hr.
  { assert (forall i, ~ hashed t i) as Hn by (intros i (Hi & p & _ & Hp); rewrite Hempty in Hp; congruence).
    split_and!; [| |set_solver|set_solver].
    - split; [done|]. unfold slots_ok, slots_inj, slots_reach. setoid_rewrite Hempty. done.
    - split; [by intros i ?%Hn|by intros i j ?%Hn]. }
  destruct (local_run_refines t ∅ ops s Hr Hspec) as (t' & Heq & Hse & Hw & Hd & Hh & _).
  exists t'. split; [done|]. split; [done|]. intros obj Ho.
  destruct (ipc_hash_local_lookup_correct t' obj Hw Hd Ho) as (res & -> & Hres).
  exists res. split; [done|]. pose proof (represents_objects t t' s Hse) as Hob.
  destruct res as [[name i]|].
  - destruct Hres as (Hi & Hio & e & He & ->). rewrite Hob in Hio.
    split; [by apply Hh|]. split; [done|].
    destruct (same_entries_fields _ _ _ _ Hse He) as (e0 & He0 & Hb & _). exists e0. by rewrite Hb.
  - intros i Hi. rewrite <- Hob. by apply Hres, Hh.
Qed.
End LocalTrace.

(** Entries 1 and 2 hash to the same slot of a table of four. *)
Definition sample_table : list ipc_entry :=
  [mk_entry 0 0 0 0; mk_entry 0x00010001 0x100 0 0; mk_entry 0x00010001 0x200 0 0; mk_entry 0 0 0 0].

Lemma local_hash_refines_set_witness :
  let pc := {| PORT_GENERATIONS := true |} in
  exists t', local_run sample_table [LInsert 1; LInsert 2; LDelete 1] = Some t' /\
    same_entries sample_table t' /\
    forall obj, obj <> IO_NULL ->
      exists res, ipc_hash_local_lookup t' (alen t') obj = Some res /\
        match res with
        | Some (name, i) => i ∈ ({[2]} : gset Z) /\ object_of sample_table i = obj /\
            exists e, aget sample_table i = Some e /\ name = MACH_PORT_MAKEB i (ie_bits e)
        | None => forall i, i ∈ ({[2]} : gset Z) -> object_of sample_table i <> obj
        end.
Proof.
  intros pc. apply (local_hash_refines_set sample_table [LInsert 1; LInsert 2; LDelete 1]).
  - reflexivity.
  - intros p. unfold slot, aget. case_decide; [|done].
    destruct (Z.to_nat p) as [|[|[|[|]]]]; reflexivity.
  - vm_compute. reflexivity.
Defined.

(** ** The global table *)

Inductive global_op := GInsert (e : ghash_entry) | GDelete (e : ghash_entry).

#[export] Instance ghash_entry_eq_dec : EqDecision ghash_entry.
Proof. solve_decision. Defined.

Definition global_run_op (g : ghash) (op : global_op) : option ghash :=
  match op with
  | GInsert e => ipc_hash_global_insert g e
  | GDelete e => ipc_hash_global_delete g e
  end.

Fixpoint global_run (g : ghash) (ops : list global_op) : option ghash :=
  match ops with
  | [] => Some g
  | op :: ops' => LET g1 <- global_run_op g op ;; global_run g1 ops'
  end.

(** A tree entry, identified by its space and name, is entered at most once. *)
Definition global_spec_op (l : list ghash_entry) (op : global_op) : option (list ghash_entry) :=
  match op with
  | GInsert e => if decide (Forall (fun e' => gh_key e' <> gh_key e) l) then Some (e :: l) else None
  | GDelete e => if decide (e ∈ l) then Some (filter (fun e' => e' <> e) l) else None
  end.

Fixpoint global_spec (l : list ghash_entry) (ops : list global_op) : option (list ghash_entry) :=
  match ops with
  | [] => Some l
  | op :: ops' => LET l1 <- global_spec_op l op ;; global_spec l1 ops'
  end.

Lemma global_run_refines g l ops l' :
  ghash_wf g -> (forall e, ghashed g e <-> e ∈ l) -> global_spec l ops = Some l' ->
  exists g', global_run g ops = Some g' /\ ghash_wf g' /\ forall e, ghashed g' e <-> e ∈ l'.
Proof.
  revert g l. induction ops as [|op ops IH]; intros g l Hw Hl Hs; cbn in *.
  { injection Hs as <-. eauto. }
  destruct (global_spec_op l op) as [l1|] eqn:E; [|done].
  enough (exists g1, global_run_op g op = Some g1 /\ ghash_wf g1 /\ forall e, ghashed g1 e <-> e ∈ l1)
    as (g1 & -> & Hw1 & Hl1) by by apply (IH g1 l1).
  destruct op as [e|e]; cbn in *; case_decide as Hd; try done; injection E as <-.
  - destruct (ipc_hash_global_insert_correct g e Hw) as (g1 & -> & Hw1 & Hg1).
    { intros e' He'. rewrite Forall_forall in Hd. by apply Hd, Hl. }
    exists g1. split_and!; [done|done|]. intros e'. rewrite Hg1, Hl, elem_of_cons. tauto.
  - destruct (ipc_hash_global_delete_correct g e Hw) as (g1 & -> & Hw1 & Hg1); [by apply Hl|].
    exists g1. split_and!; [done|done|]. intros e'. rewrite Hg1, Hl, list_elem_of_filter. tauto.
Qed.

(** The global reverse table finds exactly the entered entries.  After
    ipc_hash_init and any sequence of insertions of new entries and deletions of
    entered ones, a lookup of a space and an object returns an entered entry of
    that space and object if there is one, and nothing otherwise; moving buckets'
    entries to the front changes neither. *)
Lemma global_hash_refines_list configured ite_max ops l
    (Hsize : 1 <= requested_size configured ite_max <= 2 ^ 31)
    (Hspec : global_spec [] ops = Some l) :
  exists g0 g, ipc_hash_init configured ite_max = Some g0 /\ global_run g0 ops = Some g /\
    forall space obj, exists g' res, ipc_hash_global_lookup g space obj = Some (g', res) /\
      (forall e, ghashed g' e <-> e ∈ l) /\
      match res with
      | Some e => e ∈ l /\ gh_space e = space /\ gh_object e = obj
      | None => forall e, e ∈ l -> ~ (gh_space e = space /\ gh_object e = obj)
      end.
Proof.
  destruct (ipc_hash_init_correct configured ite_max Hsize) as (g0 & Hg0 & Hw0 & _ & _ & Hn0).
  destruct (global_run_refines g0 [] ops l Hw0) as (g & Hg & Hw & Hl); [|done|].
  { intros e. split; [by intros ?%Hn0|set_solver]. }
  exists g0, g. split; [done|]. split; [done|]. intros space obj.
  destruct (ipc_hash_global_lookup_correct g space obj Hw) as (g' & res & -> & _ & Hg' & Hres).
  exists g', res. split; [done|]. split; [intros e; by rewrite Hg', Hl|].
  destruct res as [e|].
  - by rewrite <- Hl.
  - intros e He. by apply Hres, Hl.
Qed.

Lemma global_hash_refines_list_witness :
  exists g0 g, ipc_hash_init 3 0 = Some g0 /\
    global_run g0 [GInsert (mk_ghash 0x40 5 0x80); GInsert (mk_ghash 0x40 6 0x90);
                   GDelete (mk_ghash 0x40 5 0x80)] = Some g /\
    forall space obj, exists g' res, ipc_hash_global_lookup g space obj = Some (g', res) /\
      (forall e, ghashed g' e <-> e ∈ [mk_ghash 0x40 6 0x90]) /\
      match res with
      | Some e => e ∈ [mk_ghash 0x40 6 0x90] /\ gh_space e = space /\ gh_object e = obj
      | None => forall e, e ∈ [mk_ghash 0x40 6 0x90] -> ~ (gh_space e = space /\ gh_object e = obj)
      end.
Proof.
  apply (global_hash_refines_list 3 0 [GInsert (mk_ghash 0x40 5 0x80); GInsert (mk_ghash 0x40 6 0x90);
                   GDelete (mk_ghash 0x40 5 0x80)]).
  - vm_compute. split; discriminate.
  - vm_compute. reflexivity.
Defined.

(** Ipc_hash_init rounds the configured size up to the next power of two.  The
    table it builds is well formed, has at least the requested number of buckets
    and fewer than twice as many, and is empty. *)
Lemma hash_init_power_of_two configured ite_max
    (Hsize : 1 <= requested_size configured ite_max <= 2 ^ 31) :
  exists g, ipc_hash_init configured ite_max = Some g /\ ghash_wf g /\
    requested_size configured ite_max <= ipc_hash_global_size g < 2 * requested_size configured ite_max /\
    (exists k, 0 <= k /\ ipc_hash_global_size g = 2 ^ k) /\ (forall e, ~ ghashed g e).
Proof.
  destruct (ipc_hash_init_correct configured ite_max Hsize) as (g & Hg & Hw & Hlo & Hhi & Hn).
  exists g. pose proof Hw as ((k & Hk & Hs & _) & _). split_and!; try done. exists k. split; [lia|done].
Qed.

Lemma hash_init_power_of_two_witness :
  exists g, ipc_hash_init 33 0 = Some g /\ ghash_wf g /\
    33 <= ipc_hash_global_size g < 66 /\
    (exists k, 0 <= k /\ ipc_hash_global_size g = 2 ^ k) /\ (forall e, ~ ghashed g e).
Proof. apply (hash_init_power_of_two 33 0). vm_compute. split; discriminate. Defined.
