(* ===== verification/IpcEntry.v ===== *)
(** * Capability entries of a space (ipc/ipc_entry.c)

    A space keeps the entries with small names in a table and the others in a
    splay tree.  These are the operations that look up, allocate and
    deallocate entries and that grow the table, moving entries from the tree.

    The state is the space and the global reverse hash table.  Code that
    releases the space lock is modelled by a [window]: what other threads do
    until the lock is taken again, or, for a thread that waits for the end of
    somebody else's growth, by a [wait].  Windows and allocator outcomes are numbered
    by a tick that the code threads along. *)

From S2P Require Import Prelude PortName IpcSplay IpcTable IpcTypes IpcHash.

Record kstate := mk_kstate { k_space : ipc_space; k_ghash : ghash }.

Definition on_space (f : ipc_space -> ipc_space) (st : kstate) : kstate :=
  mk_kstate (f (k_space st)) (k_ghash st).

Section Entry.
Context `{PC : PortConfig}.

(** ** Hash operations on a space *)

(** [ipc_hash_global_delete] and [ipc_hash_global_insert] of the tree entry
    [entry] named [name], with their effect on [is_tree_hash]. *)
Definition hash_global_delete (st : kstate) (obj name : Z) (entry : ipc_tree_entry)
    : option kstate :=
  let sp := k_space st in
  ASSERT ite_space entry =? is_self sp ;;
  ASSERT negb (obj =? IO_NULL) ;;
  ASSERT ite_object entry =? obj ;;
  ASSERT 0 <? is_tree_hash sp ;;
  LET g' <- ipc_hash_global_delete (k_ghash st) (mk_ghash (is_self sp) name obj) ;;
  Some (mk_kstate (sp_set_hash (is_tree_hash sp - 1) sp) g').

Definition hash_global_insert (st : kstate) (obj name : Z) (entry : ipc_tree_entry)
    : option kstate :=
  let sp := k_space st in
  ASSERT ite_space entry =? is_self sp ;;
  ASSERT negb (obj =? IO_NULL) ;;
  ASSERT ite_object entry =? obj ;;
  ASSERT is_tree_hash sp + 1 <=? is_tree_total sp ;;
  LET g' <- ipc_hash_global_insert (k_ghash st) (mk_ghash (is_self sp) name obj) ;;
  Some (mk_kstate (sp_set_hash (is_tree_hash sp + 1) sp) g').

Definition hash_local_insert (st : kstate) (obj index : Z) : option kstate :=
  let sp := k_space st in
  LET t' <- ipc_hash_local_insert (is_table sp) (is_table_size sp) obj index ;;
  Some (mk_kstate (sp_set_table t' sp) (k_ghash st)).

Definition hash_local_delete (st : kstate) (obj index : Z) : option kstate :=
  let sp := k_space st in
  LET t' <- ipc_hash_local_delete (is_table sp) (is_table_size sp) obj index ;;
  Some (mk_kstate (sp_set_table t' sp) (k_ghash st)).

(** [(index < size) && (entry == &table[index])] chooses the table. *)
Definition ref_in_table (sp : ipc_space) (name : Z) (ref : entry_ref) : bool :=
  (MACH_PORT_INDEX name <? is_table_size sp) &&
  bool_decide (ref = InTable (MACH_PORT_INDEX name)).

Definition ipc_hash_insert (st : kstate) (obj name : Z) (ref : entry_ref) : option kstate :=
  if ref_in_table (k_space st) name ref
  then hash_local_insert st obj (MACH_PORT_INDEX name)
  else
    LET entry <- splay_map (is_tree (k_space st)) !! name ;;
    hash_global_insert st obj name entry.

Definition ipc_hash_delete (st : kstate) (obj name : Z) (ref : entry_ref) : option kstate :=
  if ref_in_table (k_space st) name ref
  then hash_local_delete st obj (MACH_PORT_INDEX name)
  else
    LET entry <- splay_map (is_tree (k_space st)) !! name ;;
    hash_global_delete st obj name entry.

Definition ipc_hash_lookup (st : kstate) (obj : Z)
    : option (kstate * option (Z * entry_ref)) :=
  let sp := k_space st in
  LET res <- ipc_hash_local_lookup (is_table sp) (is_table_size sp) obj ;;
  match res with
  | Some (name, index) => Some (st, Some (name, InTable index))
  | None =>
      if 0 <? is_tree_hash sp then
        LET (g', res') <- ipc_hash_global_lookup (k_ghash st) (is_self sp) obj ;;
        Some (mk_kstate sp g',
              (fun e => (gh_name e, InTree (gh_name e))) <$> res')
      else Some (st, None)
  end.

(** ** Entries through their pointers *)

(** The fields of the entry a pointer designates. *)
Definition get_entry (sp : ipc_space) (ref : entry_ref) : option ipc_entry :=
  match ref with
  | InTable i => aget (is_table sp) i
  | InTree name =>
      LET te <- splay_map (is_tree sp) !! name ;;
      Some (mk_entry (ite_bits te) (ite_object te) (ite_request te) 0)
  end.

(** ** Lookup *)

Definition ipc_entry_tree_collision (sp : ipc_space) (name : Z)
    : option (ipc_space * bool) :=
  ASSERT is_active sp ;;
  LET (tree', (lower, upper)) <- ipc_splay_tree_bounds (is_tree sp) name ;;
  let index := MACH_PORT_INDEX name in
  Some (sp_set_tree tree' sp,
        (negb (lower =? MACH_PORT_LARGEST) && (MACH_PORT_INDEX lower =? index)) ||
        (negb (upper =? 0) && (MACH_PORT_INDEX upper =? index))).

(** [tree_lookup:], with the final assertion on the type of a found entry. *)
Definition entry_tree_lookup (sp : ipc_space) (name : Z)
    : option (ipc_space * option entry_ref) :=
  LET (tree', found) <- ipc_splay_tree_lookup (is_tree sp) name ;;
  match found with
  | Some te =>
      ASSERT negb (IE_BITS_TYPE (ite_bits te) =? 0) ;;
      Some (sp_set_tree tree' sp, Some (InTree name))
  | None => Some (sp_set_tree tree' sp, None)
  end.

Definition ipc_entry_lookup (sp : ipc_space) (name : Z)
    : option (ipc_space * option entry_ref) :=
  ASSERT is_active sp ;;
  let index := MACH_PORT_INDEX name in
  if index <? is_table_size sp then
    LET entry <- aget (is_table sp) index ;;
    if negb (IE_BITS_GEN (ie_bits entry) =? MACH_PORT_GEN name) then
      if negb (Z.land (ie_bits entry) IE_BITS_COLLISION =? 0) then
        ASSERT 0 <? is_tree_total sp ;;
        entry_tree_lookup sp name
      else Some (sp, None)
    else if IE_BITS_TYPE (ie_bits entry) =? MACH_PORT_TYPE_NONE then Some (sp, None)
    else Some (sp, Some (InTable index))
  else if is_tree_total sp =? 0 then Some (sp, None)
  else entry_tree_lookup sp name.

(** ** Allocation from the free list *)

(** [None] is KERN_NO_SPACE; otherwise the new name and the table index. *)
Definition ipc_entry_get (sp : ipc_space) : option (ipc_space * option (Z * Z)) :=
  ASSERT is_active sp ;;
  LET head <- aget (is_table sp) 0 ;;
  let first_free := ie_next head in
  if first_free =? 0 then Some (sp, None)
  else
    LET free_entry <- aget (is_table sp) first_free ;;
    LET t1 <- table_upd (is_table sp) 0 (set_next (ie_next free_entry)) ;;
    (* Initialize the new entry: increment the generation, clear ie_request. *)
    ASSERT Z.ldiff (ie_bits free_entry) IE_BITS_GEN_MASK =? 0 ;;
    let gen := u32 (ie_bits free_entry + IE_BITS_GEN_ONE) in
    LET t2 <- table_upd t1 first_free (fun e => set_request 0 (set_bits gen e)) ;;
    let new_name := MACH_PORT_MAKE first_free gen in
    ASSERT MACH_PORT_VALID new_name ;;
    ASSERT ie_object free_entry =? IO_NULL ;;
    Some (sp_set_table t2 sp, Some (new_name, first_free)).

(** ** Deallocation *)

(** A send right that moves from the tree to the table changes hash tables. *)
Definition rehash_moved (st : kstate) (tentry : ipc_tree_entry) (name index : Z) : option kstate :=
  if IE_BITS_TYPE (ite_bits tentry) =? MACH_PORT_TYPE_SEND then
    LET st' <- hash_global_delete st (ite_object tentry) name tentry ;;
    hash_local_insert st' (ite_object tentry) index
  else Some st.

(** The collision case of [ipc_entry_dealloc]: an entry with the same index is
    moved from the tree to the table. *)
Definition dealloc_collision (st : kstate) (index : Z) : option kstate :=
  let sp := k_space st in
  LET (tree, collisions) <- ipc_splay_tree_split (is_tree sp)
                              (MACH_PORT_MAKE (index + 1) 0) (is_tree sp) ;;
  LET (collisions, small) <- ipc_splay_tree_split collisions
                               (MACH_PORT_MAKE index 0) collisions ;;
  LET (tname, tentry) <- ipc_splay_tree_pick collisions ;;
  ASSERT MACH_PORT_INDEX tname =? index ;;
  let bits := ite_bits tentry in
  let obj := ite_object tentry in
  LET t1 <- table_upd (is_table sp) index
              (fun e => mk_entry (Z.lor bits (MACH_PORT_GEN tname)) obj
                          (ite_request tentry) (ie_index e)) ;;
  ASSERT ite_space tentry =? is_self sp ;;
  let st1 := mk_kstate (sp_set_table t1 sp) (k_ghash st) in
  LET st2 <- rehash_moved st1 tentry tname index ;;
  LET collisions <- ipc_splay_tree_delete collisions tname ;;
  ASSERT 0 <? is_tree_total (k_space st2) ;;
  let st3 := on_space (fun s => sp_set_total (is_tree_total s - 1) s) st2 in
  (* check if collision bit should still be on *)
  LET (tree, t3) <-
    match ipc_splay_tree_pick collisions with
    | Some _ =>
        LET t3 <- table_upd (is_table (k_space st3)) index
                    (fun e => set_bits (Z.lor (ie_bits e) IE_BITS_COLLISION) e) ;;
        LET (tree, _) <- ipc_splay_tree_join tree collisions ;;
        Some (tree, t3)
    | None => Some (tree, is_table (k_space st3))
    end ;;
  LET (tree, _) <- ipc_splay_tree_join tree small ;;
  Some (on_space (fun s => sp_set_tree tree (sp_set_table t3 s)) st3).

(** Back on the free list. *)
Definition dealloc_free (t : list ipc_entry) (index : Z) : option (list ipc_entry) :=
  LET head <- aget t 0 ;;
  LET t1 <- table_upd t index
              (fun e => set_next (ie_next head) (set_bits (Z.land (ie_bits e) IE_BITS_GEN_MASK) e)) ;;
  table_upd t1 0 (set_next index).

(** A tree entry. *)
Definition dealloc_tree (sp : ipc_space) (name : Z) : option ipc_space :=
  let index := MACH_PORT_INDEX name in
  LET tentry <- splay_map (is_tree sp) !! name ;;
  ASSERT ite_space tentry =? is_self sp ;;
  LET tree <- ipc_splay_tree_delete (is_tree sp) name ;;
  ASSERT 0 <? is_tree_total sp ;;
  let sp1 := sp_set_total (is_tree_total sp - 1) (sp_set_tree tree sp) in
  if index <? is_table_size sp1 then
    LET ientry <- aget (is_table sp1) index ;;
    ASSERT negb (Z.land (ie_bits ientry) IE_BITS_COLLISION =? 0) ;;
    LET (sp2, collides) <- ipc_entry_tree_collision sp1 name ;;
    if negb collides then
      LET t' <- table_upd (is_table sp2) index
                  (fun e => set_bits (Z.ldiff (ie_bits e) IE_BITS_COLLISION) e) ;;
      Some (sp_set_table t' sp2)
    else Some sp2
  else Some sp1.

Section Sizes.
(** [ipc_table_entries]. *)
Variable its : list Z.

(** The accounting of [is_tree_small] when a tree entry goes away. *)
Definition dealloc_small (sp : ipc_space) (name : Z) : option ipc_space :=
  let index := MACH_PORT_INDEX name in
  if index <? is_table_size sp then Some sp
  else
    LET next_size <- aget its (is_table_next sp) ;;
    if index <? next_size then
      LET (sp', collides) <- ipc_entry_tree_collision sp name ;;
      if negb collides then
        ASSERT 0 <? is_tree_small sp' ;;
        Some (sp_set_small (is_tree_small sp' - 1) sp')
      else Some sp'
    else Some sp.

Definition ipc_entry_dealloc (st : kstate) (name : Z) (ref : entry_ref) : option kstate :=
  let sp := k_space st in
  ASSERT is_active sp ;;
  LET entry <- get_entry sp ref ;;
  ASSERT ie_object entry =? IO_NULL ;;
  ASSERT ie_request entry =? 0 ;;
  let index := MACH_PORT_INDEX name in
  if ref_in_table sp name ref then
    ASSERT IE_BITS_GEN (ie_bits entry) =? MACH_PORT_GEN name ;;
    if negb (Z.land (ie_bits entry) IE_BITS_COLLISION =? 0) then
      (* must move an entry from tree to table *)
      dealloc_collision st index
    else
      LET t' <- dealloc_free (is_table sp) index ;;
      Some (mk_kstate (sp_set_table t' sp) (k_ghash st))
  else
    LET sp1 <- dealloc_tree sp name ;;
    LET sp2 <- dealloc_small sp1 name ;;
    Some (mk_kstate sp2 (k_ghash st)).

(** ** Growing the table *)

(** What happens while the space lock is released: [window k] is what other
    threads do to the state in the [k]th interval, [memory k] whether the
    allocation made during it succeeds.  [wait k] is what they do while this
    thread is blocked until somebody else has grown the table. *)
Variables window wait : nat -> kstate -> kstate.
Variable memory : nat -> bool.

Definition zero_entry : ipc_entry := mk_entry 0 IO_NULL 0 0.

(** The reallocated table: the old entries with their hash slots cleared, then
    zeroed entries.  Remapped or copied, the old part holds what the old table
    holds when the lock is taken again. *)
Definition grow_copy (t : list ipc_entry) (osize size : Z) : list ipc_entry :=
  (set_index 0 <$> t) ++ replicate (Z.to_nat (size - osize)) zero_entry.

(** Put old entries into the reverse hash table. *)
Definition grow_rehash (osize : Z) (st : kstate) : option kstate :=
  for_up (Z.to_nat osize) 0 (fun i st =>
    LET entry <- aget (is_table (k_space st)) i ;;
    if IE_BITS_TYPE (ie_bits entry) =? MACH_PORT_TYPE_SEND
    then hash_local_insert st (ie_object entry) i
    else Some st) st.

(** The body of the loop that moves tree entries into the table; the boolean
    says whether the entry leaves the tree. *)
Definition grow_move_body (osize size : Z) (acc : option kstate) (name : Z)
    (tentry : ipc_tree_entry) : option kstate * bool :=
  match acc with
  | None => (None, false)
  | Some st =>
      let sp := k_space st in
      let gen := MACH_PORT_GEN name in
      let index := MACH_PORT_INDEX name in
      match aget (is_table sp) index with
      | None => (None, false)
      | Some entry =>
          if negb ((ite_space tentry =? is_self sp) && ((osize <=? index) && (index <? size)))
          then (None, false)
          else if negb (ie_bits entry =? 0) then
            (* collision with previously moved entry *)
            if negb (IE_BITS_TYPE (ie_bits entry) =? 0) &&
               negb (IE_BITS_GEN (ie_bits entry) =? gen)
            then (LET t' <- table_upd (is_table sp) index
                              (set_bits (Z.lor (ie_bits entry) IE_BITS_COLLISION)) ;;
                  Some (mk_kstate (sp_set_table t' sp) (k_ghash st)), false)
            else (None, false)
          else
            let bits := ite_bits tentry in
            let type := IE_BITS_TYPE bits in
            let obj := ite_object tentry in
            (ASSERT negb (type =? MACH_PORT_TYPE_NONE) ;;
             LET t' <- table_upd (is_table sp) index
                         (fun e => mk_entry (Z.lor bits gen) obj (ite_request tentry) (ie_index e)) ;;
             let st1 := mk_kstate (sp_set_table t' sp) (k_ghash st) in
             LET st2 <- rehash_moved st1 tentry name index ;;
             Some (on_space (fun s => sp_set_total (is_tree_total s - 1) s) st2), true)
      end
  end.

(** The body of the loop that counts entries for [is_tree_small]: the count
    and the last index. *)
Definition grow_count_body (acc : Z * Z) (name : Z) (_ : ipc_tree_entry) : (Z * Z) * bool :=
  let '(nosmall, index) := acc in
  let nindex := MACH_PORT_INDEX name in
  if negb (nindex =? index) then ((nosmall + 1, nindex), false) else ((nosmall, index), false).

(** Transfer entries to the table and update [is_tree_small]. *)
Definition grow_transfer (osize size nsize : Z) (st : kstate) : option kstate :=
  let tree := is_tree (k_space st) in
  LET (tree, small) <- ipc_splay_tree_split tree (MACH_PORT_MAKE nsize 0) tree ;;
  LET (small, move) <- ipc_splay_tree_split small (MACH_PORT_MAKE size 0) small ;;
  LET (move, ignore) <- ipc_splay_tree_split move (MACH_PORT_MAKE osize 0) move ;;
  LET (moved, move) <- splay_for_each (grow_move_body osize size) (Some st) move ;;
  LET st1 <- moved ;;
  LET (count, small) <- splay_for_each grow_count_body (0, 0) small ;;
  let nosmall := count.1 in
  ASSERT nosmall <=? nsize - size ;;
  ASSERT nosmall <=? is_tree_total (k_space st1) ;;
  LET (tree, _) <- ipc_splay_tree_join tree small ;;
  LET (tree, _) <- ipc_splay_tree_join tree move ;;
  LET (tree, _) <- ipc_splay_tree_join tree ignore ;;
  Some (on_space (fun s => sp_set_tree tree (sp_set_small nosmall s)) st1).

(** Add entries in the new part which still aren't used to the free list, in
    reverse order. *)
Definition grow_free (osize size : Z) (t : list ipc_entry) : option (list ipc_entry) :=
  LET head <- aget t 0 ;;
  LET (t', free_index) <-
    for_down (Z.to_nat (size - osize)) (size - 1) (fun i s =>
      let '(t, free_index) := s in
      LET entry <- aget t i ;;
      if ie_bits entry =? 0 then
        LET t' <- table_upd t i (fun e => set_next free_index (set_bits IE_BITS_GEN_MASK e)) ;;
        Some (t', i)
      else Some s) (t, ie_next head) ;;
  table_upd t' 0 (set_next free_index).

(** From the allocation of the new table to the release of the old one. *)
Definition grow_install (osize size nsize nits : Z) (st : kstate) : option kstate :=
  let t := grow_copy (is_table (k_space st)) osize size in
  let st1 := on_space (fun s => sp_set_size size nits (sp_set_table t s)) st in
  LET st2 <- grow_rehash osize st1 ;;
  LET st3 <- (if 0 <? is_tree_total (k_space st2)
              then grow_transfer osize size nsize st2 else Some st2) ;;
  LET t' <- grow_free osize size (is_table (k_space st3)) ;;
  Some (on_space (sp_set_table t') st3).

(** The table can be profitably grown again. *)
Definition grow_again (size nsize : Z) (sp : ipc_space) : bool :=
  (0 <? is_tree_small sp) &&
  (u32 (u32 (nsize - size) * sizeof_ipc_entry) <? u32 (is_tree_small sp * sizeof_ipc_tree_entry)).

(** [its + 1] is read before the check that there is such an element: an
    [nsize] that the array does not have fails only where it is used. *)
Fixpoint ipc_entry_grow_table (fuel : nat) (k : nat) (st : kstate)
    : option (kern_return * kstate * nat) :=
  match fuel with
  | O => None
  | S fuel' =>
      let sp := k_space st in
      ASSERT is_active sp ;;
      if is_growing sp then
        (* Somebody else is growing the table. *)
        Some (KERN_SUCCESS, wait k st, S k)
      else
        let nits := is_table_next sp + 1 in
        LET size <- aget its (is_table_next sp) ;;
        LET osize <- aget its (is_table_next sp - 1) ;;
        let nsize_read := aget its nits in
        if osize =? size then Some (KERN_NO_SPACE, st, k)
        else
          LET nsize <- nsize_read ;;
          ASSERT (osize <? size) && (size <=? nsize) ;;
          let st1 := on_space (sp_set_growing false)
                       (window k (on_space (sp_set_growing true) st)) in
          if negb (memory k) then Some (KERN_RESOURCE_SHORTAGE, st1, S k)
          else if negb (is_active (k_space st1)) then
            Some (KERN_SUCCESS, window (S k) st1, S (S k))
          else
            ASSERT is_table_next (k_space st1) =? is_table_next sp ;;
            ASSERT is_table_size (k_space st1) =? osize ;;
            LET st2 <- grow_install osize size nsize nits st1 ;;
            let st3 := window (S k) st2 in
            if negb (is_active (k_space st3)) || negb (is_table_next (k_space st3) =? nits)
            then Some (KERN_SUCCESS, st3, S (S k))
            else if grow_again size nsize (k_space st3)
            then ipc_entry_grow_table fuel' (S (S k)) st3
            else Some (KERN_SUCCESS, st3, S (S k))
  end.

(** ** Allocation *)

(** The do-while loop of [ipc_entry_grow_table] visits each size once. *)
Definition grow_table (k : nat) (st : kstate) : option (kern_return * kstate * nat) :=
  ipc_entry_grow_table (S (length its)) k st.

(** The result is a name and its table index, or an error. *)
Fixpoint ipc_entry_alloc (fuel : nat) (k : nat) (st : kstate)
    : option ((Z * Z + kern_return) * kstate * nat) :=
  match fuel with
  | O => None
  | S fuel' =>
      if negb (is_active (k_space st)) then Some (inr KERN_INVALID_TASK, st, k)
      else
        LET (sp', res) <- ipc_entry_get (k_space st) ;;
        let st' := mk_kstate sp' (k_ghash st) in
        match res with
        | Some found => Some (inl found, st', k)
        | None =>
            LET (r, k') <- grow_table k st' ;;
            let '(kr, st'') := r in
            if bool_decide (kr = KERN_SUCCESS) then ipc_entry_alloc fuel' k' st''
            else Some (inr kr, st'', k')
        end
  end.

(** Rip the entry out of the free list: the index whose link is [index]. *)
Fixpoint find_free_link (fuel : nat) (t : list ipc_entry) (free_index index : Z) : option Z :=
  match fuel with
  | O => None
  | S fuel' =>
      LET entry <- aget t free_index ;;
      if negb (ie_next entry =? index) then find_free_link fuel' t (ie_next entry) index
      else Some free_index
  end.

Definition take_free (t : list ipc_entry) (index gen : Z) : option (list ipc_entry) :=
  LET free_index <- find_free_link (length t) t 0 index ;;
  LET entry <- aget t index ;;
  LET t1 <- table_upd t free_index (set_next (ie_next entry)) ;;
  ASSERT ie_object entry =? IO_NULL ;;
  table_upd t1 index (fun e => set_request 0 (set_bits gen e)).

(** Enter a new entry in the tree. *)
Definition insert_tree_entry (sp : ipc_space) (name next_size : Z) : option ipc_space :=
  let index := MACH_PORT_INDEX name in
  let sp1 := sp_set_total (is_tree_total sp + 1) sp in
  LET sp2 <-
    (if index <? is_table_size sp1 then
       LET t' <- table_upd (is_table sp1) index
                   (fun e => set_bits (Z.lor (ie_bits e) IE_BITS_COLLISION) e) ;;
       Some (sp_set_table t' sp1)
     else if index <? next_size then
       LET (sp', collides) <- ipc_entry_tree_collision sp1 name ;;
       if negb collides then Some (sp_set_small (is_tree_small sp' + 1) sp') else Some sp'
     else Some sp1) ;;
  LET tree <- ipc_splay_tree_insert (is_tree sp2) name (mk_ite 0 IO_NULL 0 (is_self sp2)) ;;
  Some (sp_set_tree tree sp2).

(** Check if the table should be grown. *)
Definition should_grow (sp : ipc_space) (index next_size : Z) : bool :=
  (is_table_size sp <=? index) && (index <? next_size) &&
  (u32 (u32 (next_size - is_table_size sp) * sizeof_ipc_entry) <?
   u32 (u32 (is_tree_small sp + 1) * sizeof_ipc_tree_entry)).

(** The body of the loop under the table cutoff: [Some] a result when the
    function returns there. *)
Definition alloc_name_table (sp : ipc_space) (name : Z) : option (option (ipc_space * entry_ref)) :=
  let index := MACH_PORT_INDEX name in
  let gen := MACH_PORT_GEN name in
  if (0 <? index) && (index <? is_table_size sp) then
    LET entry <- aget (is_table sp) index ;;
    if negb (IE_BITS_TYPE (ie_bits entry) =? 0) then
      if IE_BITS_GEN (ie_bits entry) =? gen then Some (Some (sp, InTable index)) else Some None
    else
      LET t' <- take_free (is_table sp) index gen ;;
      Some (Some (sp_set_table t' sp, InTable index))
  else Some None.

(** Check if the entry already exists in the tree. *)
Definition alloc_name_tree (sp : ipc_space) (name : Z) : option (ipc_space * bool) :=
  if 0 <? is_tree_total sp then
    LET (tree', found) <- ipc_splay_tree_lookup (is_tree sp) name ;;
    match found with
    | Some tentry =>
        ASSERT ite_space tentry =? is_self sp ;;
        ASSERT negb (IE_BITS_TYPE (ite_bits tentry) =? 0) ;;
        Some (sp_set_tree tree' sp, true)
    | None => Some (sp_set_tree tree' sp, false)
    end
  else Some (sp, false).

Fixpoint alloc_name_loop (fuel : nat) (k : nat) (have_tree_entry : bool) (name : Z) (st : kstate)
    : option ((entry_ref + kern_return) * kstate * nat) :=
  match fuel with
  | O => None
  | S fuel' =>
      let sp := k_space st in
      if negb (is_active sp) then Some (inr KERN_INVALID_TASK, st, k)
      else
        LET hit <- alloc_name_table sp name ;;
        match hit with
        | Some (sp', ref) => Some (inl ref, mk_kstate sp' (k_ghash st), k)
        | None =>
            LET (sp1, found) <- alloc_name_tree sp name ;;
            let st1 := mk_kstate sp1 (k_ghash st) in
            if found : bool then Some (inl (InTree name), st1, k)
            else
              LET next_size <- aget its (is_table_next sp1) ;;
              if should_grow sp1 (MACH_PORT_INDEX name) next_size then
                LET (r, k') <- grow_table k st1 ;;
                let '(kr, st2) := r in
                ASSERT negb (bool_decide (kr = KERN_NO_SPACE)) ;;
                if bool_decide (kr = KERN_SUCCESS)
                then alloc_name_loop fuel' k' have_tree_entry name st2
                else Some (inr kr, st2, k')
              else if have_tree_entry then
                LET sp2 <- insert_tree_entry sp1 name next_size ;;
                Some (inl (InTree name), mk_kstate sp2 (k_ghash st), k)
              else
                (* Allocate a tree entry and try again. *)
                let st2 := window k st1 in
                if negb (memory k) then Some (inr KERN_RESOURCE_SHORTAGE, st2, S k)
                else alloc_name_loop fuel' (S k) true name st2
        end
  end.

Definition ipc_entry_alloc_name (fuel : nat) (k : nat) (name : Z) (st : kstate)
    : option ((entry_ref + kern_return) * kstate * nat) :=
  ASSERT MACH_PORT_VALID name ;;
  alloc_name_loop fuel k false name st.

End Sizes.
End Entry.
