(* ===== verification/IpcSpaceInv.v ===== *)
(** * The invariant of a capability space (ipc/ipc_entry.h, ipc/ipc_space.h)

    What the comments of the two headers say of spaces, as a predicate: the
    free list, the collision bits, the counters [is_tree_total],
    [is_tree_small] and [is_tree_hash], and the two reverse hash tables.  Code
    holding the space lock works on at most one entry whose fields are in flux,
    the [open] entry.  A space denotes a finite map from names to capabilities,
    [caps]; the operations of IpcEntry are specified by it. *)

From S2P Require Import Prelude PortName IpcSplay IpcTable IpcTypes IpcHash IpcEntry.

Section Inv.
Context `{PC : PortConfig}.
Implicit Types (t : list ipc_entry) (m : gmap Z ipc_tree_entry) (open : option entry_ref).

(** ** Capabilities *)

Record capability := mk_cap { cap_right : Z; cap_object : Z; cap_request : Z }.

Definition cap_of (bits obj req : Z) : option capability :=
  if IE_BITS_TYPE bits =? MACH_PORT_TYPE_NONE then None
  else Some (mk_cap (IE_BITS_RIGHT bits) obj req).

Definition entry_cap (e : ipc_entry) : option capability :=
  cap_of (ie_bits e) (ie_object e) (ie_request e).
Definition tentry_cap (te : ipc_tree_entry) : option capability :=
  cap_of (ite_bits te) (ite_object te) (ite_request te).

(** The capability a space holds for a name. *)
Definition caps t m (name : Z) : option capability :=
  let in_tree := m !! name ≫= tentry_cap in
  match aget t (MACH_PORT_INDEX name) with
  | Some e => if IE_BITS_GEN (ie_bits e) =? MACH_PORT_GEN name then entry_cap e else in_tree
  | None => in_tree
  end.

Definition tree_map (sp : ipc_space) : gmap Z ipc_tree_entry := splay_map (is_tree sp).
Definition space_caps (sp : ipc_space) : Z -> option capability := caps (is_table sp) (tree_map sp).

(** A capability name that entries can have. *)
Definition valid_name (n : Z) : Prop :=
  is_u32 n /\ MACH_PORT_VALID n = true /\ 0 < MACH_PORT_INDEX n.

(** ** The parts of the invariant *)

(** The free list from the link of entry [i]. *)
Inductive free_chain t : Z -> list Z -> Prop :=
| chain_end i e : aget t i = Some e -> ie_next e = 0 -> free_chain t i []
| chain_next i e l : aget t i = Some e -> ie_next e <> 0 ->
    free_chain t (ie_next e) l -> free_chain t i (ie_next e :: l).

Definition is_free open t i : Prop :=
  0 < i /\ open <> Some (InTable i) /\
  exists e, aget t i = Some e /\ IE_BITS_TYPE (ie_bits e) = 0.

Definition free_wf open t : Prop :=
  exists l, free_chain t 0 l /\ NoDup l /\ forall i, i ∈ l <-> is_free open t i.

(** Free entries have null objects and, but for the generation, null bits. *)
Definition entry_wf open i (e : ipc_entry) : Prop :=
  is_u32 (ie_bits e) /\ (i = 0 -> IE_BITS_TYPE (ie_bits e) = 0) /\
  (IE_BITS_TYPE (ie_bits e) = 0 -> open <> Some (InTable i) ->
     is_gen (ie_bits e) /\ ie_object e = IO_NULL).

Definition table_wf open t : Prop := forall i e, aget t i = Some e -> entry_wf open i e.

Definition tentry_wf self open n (te : ipc_tree_entry) : Prop :=
  valid_name n /\ IE_BITS_RIGHT (ite_bits te) = ite_bits te /\ ite_space te = self /\
  (IE_BITS_TYPE (ite_bits te) = 0 -> open = Some (InTree n)).

Definition tree_wf self open m : Prop := map_Forall (tentry_wf self open) m.

(** The collision bit of a table entry: some tree entry has its index. *)
Definition collides m i : Prop := exists n, is_Some (m !! n) /\ MACH_PORT_INDEX n = i.

Definition collision_wf m i (e : ipc_entry) : Prop :=
  (Z.land (ie_bits e) IE_BITS_COLLISION <> 0 <-> collides m i) /\
  (forall n, is_Some (m !! n) -> MACH_PORT_INDEX n = i -> IE_BITS_GEN (ie_bits e) <> MACH_PORT_GEN n).

Definition collisions_wf t m : Prop := forall i e, aget t i = Some e -> collision_wf m i e.

(** The indices of the tree entries in [[size, next_size)]. *)
Definition small_indices (size next_size : Z) m : gset Z :=
  filter (fun i => size <= i < next_size) (set_map MACH_PORT_INDEX (dom m)).

Definition small_count (size next_size : Z) m : Z := Z.of_nat (base.size (small_indices size next_size m)).

(** The send rights of the space that are not open; these are hashed. *)
Definition entry_of t m (ref : entry_ref) : option (Z * Z) :=
  match ref with
  | InTable i => (fun e => (ie_bits e, ie_object e)) <$> aget t i
  | InTree n => (fun te => (ite_bits te, ite_object te)) <$> (m !! n)
  end.

Definition live_send open t m ref obj : Prop :=
  open <> Some ref /\
  exists bits, entry_of t m ref = Some (bits, obj) /\ IE_BITS_TYPE bits = MACH_PORT_TYPE_SEND.

(** A space has at most one send right for an object. *)
Definition sends_wf open t m : Prop :=
  forall ref obj, live_send open t m ref obj ->
    obj <> IO_NULL /\ forall ref', live_send open t m ref' obj -> ref' = ref.

Definition hashed_ok open t m : Prop :=
  forall i, hashed t i <-> exists obj, live_send open t m (InTable i) obj.

Definition ghashed_ok self open t m (g : ghash) : Prop :=
  forall n obj, ghashed g (mk_ghash self n obj) <-> live_send open t m (InTree n) obj.

(** The names of the hashed tree entries. *)
Definition tree_sends open m : gset Z :=
  dom (filter (fun p => IE_BITS_TYPE (ite_bits p.2) = MACH_PORT_TYPE_SEND /\
                        open <> Some (InTree p.1)) m).

Definition open_wf open t m : Prop :=
  match open with
  | None => True
  | Some (InTable i) => 0 < i < alen t
  | Some (InTree n) => is_Some (m !! n)
  end.

Section Sizes.
Variable its : list Z.

(** The table has the size before [is_table_next] in [ipc_table_entries]. *)
Definition sizes_wf (sp : ipc_space) : Prop :=
  alen (is_table sp) = is_table_size sp /\
  aget its (is_table_next sp - 1) = Some (is_table_size sp) /\
  is_Some (aget its (is_table_next sp)).

Definition next_size (sp : ipc_space) : Z := default 0 (aget its (is_table_next sp)).

Record space_wf (open : option entry_ref) (st : kstate) : Prop := {
  wf_active : is_active (k_space st) = true;
  wf_sizes : sizes_wf (k_space st);
  wf_open : open_wf open (is_table (k_space st)) (tree_map (k_space st));
  wf_table : table_wf open (is_table (k_space st));
  wf_free : free_wf open (is_table (k_space st));
  wf_splay : splay_wf (is_tree (k_space st));
  wf_tree : tree_wf (is_self (k_space st)) open (tree_map (k_space st));
  wf_collisions : collisions_wf (is_table (k_space st)) (tree_map (k_space st));
  wf_total : is_tree_total (k_space st) = Z.of_nat (size (tree_map (k_space st)));
  wf_small : is_tree_small (k_space st) =
    small_count (is_table_size (k_space st)) (next_size (k_space st)) (tree_map (k_space st));
  wf_local : local_wf (is_table (k_space st));
  wf_hashed : hashed_ok open (is_table (k_space st)) (tree_map (k_space st));
  wf_ghash : ghash_wf (k_ghash st);
  wf_ghashed : ghashed_ok (is_self (k_space st)) open (is_table (k_space st))
                 (tree_map (k_space st)) (k_ghash st);
  wf_hash : is_tree_hash (k_space st) = Z.of_nat (size (tree_sends open (tree_map (k_space st))));
  wf_sends : sends_wf open (is_table (k_space st)) (tree_map (k_space st))
}.
End Sizes.

(** ** Splaying *)

(** Spaces that differ by a restructuring of the tree. *)
Definition resplays (sp sp' : ipc_space) : Prop :=
  exists tr, sp' = sp_set_tree tr sp /\ splay_wf tr /\ splay_elems tr = splay_elems (is_tree sp).

Lemma resplays_refl sp : splay_wf (is_tree sp) -> resplays sp sp.
Proof. intros. exists (is_tree sp). by destruct sp. Qed.

Lemma resplays_map sp sp' : resplays sp sp' -> tree_map sp' = tree_map sp.
Proof. intros (tr & -> & _ & He). unfold tree_map, splay_map. cbn. by rewrite He. Qed.

Lemma resplays_caps sp sp' : resplays sp sp' -> space_caps sp' = space_caps sp.
Proof. intros H. unfold space_caps. rewrite (resplays_map _ _ H). by destruct H as (tr & -> & _). Qed.

Lemma resplays_wf its open sp sp' g :
  resplays sp sp' -> space_wf its open (mk_kstate sp g) -> space_wf its open (mk_kstate sp' g).
Proof.
  intros H [Hact Hsz Hop Hta Hfr Hsp Htr Hco Hto Hsm Hlo Hha Hgw Hgh Hh Hse].
  pose proof (resplays_map _ _ H) as Hm. destruct H as (tr & -> & Hw & _).
  constructor; cbn in *; rewrite ?Hm; done.
Qed.

Lemma tree_map_null sp : tree_map sp = ∅ -> forall n, tree_map sp !! n = None.
Proof. intros ->. apply lookup_empty. Qed.

(** ** Lookup *)

Lemma tree_map_elem sp n :
  splay_wf (is_tree sp) -> n ∈ (splay_elems (is_tree sp)).*1 <-> is_Some (tree_map sp !! n).
Proof.
  intros Hwf. unfold tree_map, splay_map. rewrite <- elem_of_dom, dom_list_to_map_L.
  by rewrite elem_of_list_to_set.
Qed.

Lemma valid_name_not_ends n :
  valid_name n -> n <> MACH_PORT_LARGEST /\ n <> MACH_PORT_SMALLEST.
Proof.
  intros (_ & Hv & _). unfold MACH_PORT_VALID in Hv. unfold MACH_PORT_LARGEST, MACH_PORT_SMALLEST,
    MACH_PORT_DEAD, MACH_PORT_NULL in *. b2p. done.
Qed.

Lemma tree_collision_correct self open sp name :
  is_active sp = true -> splay_wf (is_tree sp) -> tree_wf self open (tree_map sp) ->
  exists sp' b, ipc_entry_tree_collision sp name = Some (sp', b) /\ resplays sp sp' /\
    (b = true <-> collides (tree_map sp) (MACH_PORT_INDEX name)).
Proof.
  intros Ha Hwf Htr. unfold ipc_entry_tree_collision. rewrite Ha.
  destruct (ipc_splay_tree_bounds_correct _ name Hwf) as (tr & lo & up & -> & Hw & He & Hlo & Hup).
  do 2 eexists. split; [done|]. split; [by exists tr|].
  assert (forall x, x ∈ (splay_elems (is_tree sp)).*1 ->
    is_Some (tree_map sp !! x) /\ x <> MACH_PORT_LARGEST /\ x <> MACH_PORT_SMALLEST) as Hin.
  { intros x Hx%tree_map_elem; [|done]. split; [done|]. destruct Hx as [te Hx].
    apply valid_name_not_ends. by apply (Htr _ _ Hx). }
  rewrite orb_true_iff, !andb_true_iff, !negb_true_iff, !Z.eqb_eq, !Z.eqb_neq. split.
  - intros [[Hne Hi]|[Hne Hi]].
    + destruct Hlo as [[Hx _]|[_ ?]]; [|done]. exists lo. split; [by apply Hin|done].
    + destruct Hup as [[Hx _]|[_ ?]]; [|done]. exists up. split; [by apply Hin|done].
  - intros (n & Hn & Hi). apply tree_map_elem in Hn; [|done].
    apply list_elem_of_fmap in Hn as ([n' v] & -> & Hn). cbn in *.
    destruct (Z.le_ge_cases n' name) as [Hle|Hge].
    + left. destruct Hlo as [(Hx & Hl & Hmax)|[Hno _]].
      2:{ specialize (Hno _ Hn). cbn in Hno. lia. }
      split; [by apply Hin|]. specialize (Hmax _ Hn Hle). cbn in Hmax.
      apply index_mono in Hl, Hmax. lia.
    + right. destruct Hup as [(Hx & Hl & Hmin)|[Hno _]].
      2:{ specialize (Hno _ Hn). cbn in Hno. lia. }
      split; [by apply Hin|]. specialize (Hmin _ Hn Hge). cbn in Hmin.
      apply index_mono in Hl, Hmin. lia.
Qed.

Lemma entry_tree_lookup_correct self open sp name :
  splay_wf (is_tree sp) -> tree_wf self open (tree_map sp) -> open <> Some (InTree name) ->
  exists sp', entry_tree_lookup sp name =
      Some (sp', if tree_map sp !! name then Some (InTree name) else None) /\
    resplays sp sp'.
Proof.
  intros Hwf Htr Ho. unfold entry_tree_lookup.
  destruct (ipc_splay_tree_lookup_correct _ name Hwf) as (tr & -> & Hw & He).
  fold (tree_map sp). destruct (tree_map sp !! name) as [te|] eqn:E.
  2:{ eexists. split; [done|]. by exists tr. }
  destruct (Htr _ _ E) as (_ & _ & _ & Ht).
  rewrite (proj2 (Z.eqb_neq (IE_BITS_TYPE (ite_bits te)) 0)) by (intros H; by apply Ho, Ht).
  eexists. split; [done|]. by exists tr.
Qed.

(** The entry a pointer for [name] designates. *)
Definition ref_for (sp : ipc_space) (name : Z) (ref : entry_ref) : Prop :=
  (ref = InTable (MACH_PORT_INDEX name) /\
     exists e, aget (is_table sp) (MACH_PORT_INDEX name) = Some e /\
       IE_BITS_GEN (ie_bits e) = MACH_PORT_GEN name) \/
  (ref = InTree name /\ is_Some (tree_map sp !! name)).

Lemma get_entry_tree sp name :
  get_entry sp (InTree name) =
    (fun te => mk_entry (ite_bits te) (ite_object te) (ite_request te) 0) <$> tree_map sp !! name.
Proof. cbn. fold (tree_map sp). by destruct (tree_map sp !! name). Qed.

Lemma get_entry_resplays sp sp' ref : resplays sp sp' -> get_entry sp' ref = get_entry sp ref.
Proof.
  intros H. destruct ref as [i|n]; [by destruct H as (tr & -> & _)|].
  by rewrite !get_entry_tree, (resplays_map _ _ H).
Qed.

Lemma ref_for_resplays sp sp' name ref : resplays sp sp' -> ref_for sp' name ref <-> ref_for sp name ref.
Proof.
  intros H. unfold ref_for. rewrite (resplays_map _ _ H). by destruct H as (tr & -> & _).
Qed.

(** The entry for a name is the one its capability is read from. *)
Lemma ref_for_caps sp name ref :
  collisions_wf (is_table sp) (tree_map sp) -> ref_for sp name ref ->
  space_caps sp name = (get_entry sp ref ≫= entry_cap).
Proof.
  intros Hc. unfold space_caps, caps. intros [[-> (e & He & Hg)]|[-> [te Hte]]].
  - cbn. by rewrite He, Hg, Z.eqb_refl.
  - rewrite get_entry_tree, Hte. cbn. destruct (aget _ _) as [e|] eqn:He; [|done].
    destruct (Hc _ _ He) as [_ Hg]. rewrite (proj2 (Z.eqb_neq _ _)); [done|].
    apply Hg; [by rewrite Hte|done].
Qed.

Lemma aget_index_range sp name its open g :
  space_wf its open (mk_kstate sp g) -> is_u32 name ->
  if MACH_PORT_INDEX name <? is_table_size sp
  then is_Some (aget (is_table sp) (MACH_PORT_INDEX name))
  else aget (is_table sp) (MACH_PORT_INDEX name) = None.
Proof.
  intros Hwf Hn. destruct (wf_sizes _ _ _ Hwf) as [Hl _]. cbn in Hl.
  pose proof (is_index_port name Hn) as [? _]. zcase.
  - apply aget_is_Some. lia.
  - apply aget_None. lia.
Qed.

Lemma no_collision_none m i e name :
  collision_wf m i e -> Z.land (ie_bits e) IE_BITS_COLLISION = 0 -> MACH_PORT_INDEX name = i ->
  m !! name = None.
Proof.
  intros [Hc _] H0 Hi. apply eq_None_not_Some. intros Hs. apply Hc in H0; [done|]. by exists name.
Qed.

Lemma ipc_entry_lookup_correct its open sp g name :
  space_wf its open (mk_kstate sp g) -> is_u32 name -> open <> Some (InTree name) ->
  exists sp' res, ipc_entry_lookup sp name = Some (sp', res) /\ resplays sp sp' /\
    match res with
    | Some ref => ref_for sp name ref /\ is_Some (space_caps sp name)
    | None => space_caps sp name = None
    end.
Proof.
  intros Hwf Hn Ho. pose proof (aget_index_range _ _ _ _ _ Hwf Hn) as Hr.
  pose proof (resplays_refl _ (wf_splay _ _ _ Hwf)) as Hrefl. cbn in Hrefl.
  pose proof (wf_collisions _ _ _ Hwf) as Hc. cbn in Hc.
  destruct (entry_tree_lookup_correct _ _ sp name (wf_splay _ _ _ Hwf) (wf_tree _ _ _ Hwf) Ho)
    as (sp' & Hlk & Hs).
  assert (forall te, tree_map sp !! name = Some te -> is_Some (tentry_cap te)) as Htc.
  { intros te Hte. destruct (wf_tree _ _ _ Hwf _ _ Hte) as (_ & _ & _ & Ht). unfold tentry_cap, cap_of.
    zcase; [|done]. exfalso. by apply Ho, Ht. }
  assert ((forall e, aget (is_table sp) (MACH_PORT_INDEX name) = Some e ->
      IE_BITS_GEN (ie_bits e) <> MACH_PORT_GEN name) ->
    exists sp' res, entry_tree_lookup sp name = Some (sp', res) /\ resplays sp sp' /\
    match res with
    | Some ref => ref_for sp name ref /\ is_Some (space_caps sp name)
    | None => space_caps sp name = None
    end) as Htree.
  { intros Hne. exists sp'. eexists. split; [done|]. split; [done|]. unfold space_caps, caps.
    destruct (tree_map sp !! name) as [te|] eqn:E.
    - split; [right; rewrite E; done|]. destruct (aget _ _) as [e|]; [|by apply Htc].
      rewrite (proj2 (Z.eqb_neq _ _)) by by apply Hne. by apply Htc.
    - destruct (aget _ _) as [e|]; [|done]. by rewrite (proj2 (Z.eqb_neq _ _)) by by apply Hne. }
  unfold ipc_entry_lookup. rewrite (wf_active _ _ _ Hwf : is_active sp = true).
  destruct (MACH_PORT_INDEX name <? is_table_size sp).
  - destruct Hr as [e He]. rewrite He.
    destruct (Z.eqb_spec (IE_BITS_GEN (ie_bits e)) (MACH_PORT_GEN name)) as [Hg|Hg]; cbn [negb].
    + destruct (Z.eqb_spec (IE_BITS_TYPE (ie_bits e)) MACH_PORT_TYPE_NONE) as [Ht|Ht];
        do 2 eexists; (split; [done|]); (split; [done|]).
      * unfold space_caps, caps, entry_cap, cap_of. by rewrite He, Hg, Z.eqb_refl, Ht.
      * split; [left; eauto|]. unfold space_caps, caps, entry_cap, cap_of.
        rewrite He, Hg, Z.eqb_refl. by rewrite (proj2 (Z.eqb_neq _ _)) by done.
    + destruct (Z.eqb_spec (Z.land (ie_bits e) IE_BITS_COLLISION) 0) as [H0|H0]; cbn [negb].
      * do 2 eexists. split; [done|]. split; [done|]. unfold space_caps, caps.
        rewrite He, (proj2 (Z.eqb_neq _ _)) by done.
        by rewrite (no_collision_none _ _ _ name (Hc _ _ He) H0).
      * assert (0 < is_tree_total sp) as Ht.
        { apply (Hc _ _ He) in H0 as (n & [te Hte] & _). pose proof (wf_total _ _ _ Hwf) as Hto.
          cbn in Hto. rewrite Hto. enough (size (tree_map sp) <> 0%nat) by lia.
          intros ?%map_size_empty_inv. by apply (tree_map_null sp) with n in H; simplify_eq. }
        rewrite (proj2 (Z.ltb_lt _ _) Ht). apply Htree. intros e' He'. congruence.
  - destruct (Z.eqb_spec (is_tree_total sp) 0) as [H0|H0].
    + do 2 eexists. split; [done|]. split; [done|]. unfold space_caps, caps. rewrite Hr.
      pose proof (wf_total _ _ _ Hwf) as Hto. cbn in Hto.
      rewrite tree_map_null; [done|]. apply map_size_empty_inv. lia.
    + apply Htree. congruence.
Qed.

(** ** Changes to one part *)

Lemma free_chain_frame t t' i l :
  free_chain t i l ->
  (forall j, j = i \/ j ∈ l -> ie_next <$> aget t' j = ie_next <$> aget t j) ->
  free_chain t' i l.
Proof.
  induction 1 as [i e He Hn|i e l He Hn Hc IH]; intros H.
  - specialize (H i (or_introl eq_refl)). rewrite He in H.
    destruct (aget t' i) as [e'|] eqn:E; [|done]. injection H as H. econstructor; [done|congruence].
  - pose proof (H i (or_introl eq_refl)) as Hi. rewrite He in Hi.
    destruct (aget t' i) as [e'|] eqn:E; [|done]. injection Hi as Hi. rewrite <- Hi.
    constructor; [done|congruence|]. rewrite Hi. apply IH. intros j Hj. apply H. set_solver.
Qed.

(** A name whose index designates a free entry has no capability. *)
Lemma caps_inert t m i e n :
  aget t i = Some e -> IE_BITS_TYPE (ie_bits e) = 0 -> ~ collides m i -> MACH_PORT_INDEX n = i ->
  caps t m n = None.
Proof.
  intros He Ht Hc Hi. unfold caps. rewrite Hi, He. unfold entry_cap, cap_of. rewrite Ht. cbn.
  destruct (_ =? _); [done|]. destruct (m !! n) as [te|] eqn:E; [|done]. destruct Hc.
  exists n. by rewrite E.
Qed.

Lemma caps_table_ext t t' m n :
  aget t' (MACH_PORT_INDEX n) = aget t (MACH_PORT_INDEX n) -> caps t' m n = caps t m n.
Proof. unfold caps. by intros ->. Qed.

Lemma elem_tree_sends open t m n :
  n ∈ tree_sends open m <-> exists obj, live_send open t m (InTree n) obj.
Proof.
  unfold tree_sends, live_send. rewrite elem_of_dom. split.
  - intros [te [Hte [Ht Ho]]%map_lookup_filter_Some]. cbn in *. exists (ite_object te).
    split; [done|]. exists (ite_bits te). by rewrite Hte.
  - intros (obj & Ho & bits & He & Ht). cbn in He. destruct (m !! n) as [te|] eqn:E; [|done].
    injection He as <- <-. exists te. apply map_lookup_filter_Some. done.
Qed.

Section Transfer.
Variables (open open' : option entry_ref) (t t' : list ipc_entry) (m m' : gmap Z ipc_tree_entry).
Hypothesis Hiff : forall ref obj, live_send open' t' m' ref obj <-> live_send open t m ref obj.

Lemma sends_wf_transfer : sends_wf open t m -> sends_wf open' t' m'.
Proof using Hiff.
  intros H ref obj Hr%Hiff. destruct (H _ _ Hr) as [Ho Hu]. split; [done|].
  intros ref' Hr'%Hiff. by apply Hu.
Qed.

Lemma hashed_ok_transfer :
  (forall i, hashed t' i <-> hashed t i) -> hashed_ok open t m -> hashed_ok open' t' m'.
Proof using Hiff. intros Hh H i. rewrite Hh, (H i). by setoid_rewrite Hiff. Qed.

Lemma ghashed_ok_transfer self g : ghashed_ok self open t m g -> ghashed_ok self open' t' m' g.
Proof using Hiff. intros H n obj. by rewrite (H n), Hiff. Qed.

Lemma tree_sends_transfer : tree_sends open' m' = tree_sends open m.
Proof using Hiff.
  apply set_eq. intros n. rewrite (elem_tree_sends open' t' m'), (elem_tree_sends open t m).
  by setoid_rewrite Hiff.
Qed.
End Transfer.

(** An operation that changes the table only. *)
Lemma space_wf_table its open open' st t' :
  space_wf its open st ->
  let t := is_table (k_space st) in
  let m := tree_map (k_space st) in
  same_slots t t' -> (forall i, hashed t i -> object_of t' i = object_of t i) ->
  open_wf open' t' m -> table_wf open' t' -> free_wf open' t' ->
  tree_wf (is_self (k_space st)) open' m -> collisions_wf t' m ->
  (forall ref obj, live_send open' t' m ref obj <-> live_send open t m ref obj) ->
  space_wf its open' (on_space (sp_set_table t') st).
Proof.
  intros [Hact Hsz Hop Hta Hfr Hsp Htr Hco Hto Hsm Hlo Hha Hgw Hgh Hh Hse] t m Hss Hobj ? ? ? ? ? Hiff.
  constructor; try done; cbn.
  - destruct Hsz as (Hl & ?). destruct Hss as [Hl' _]. split; [|done]. cbn. subst t. congruence.
  - eapply same_slots_wf; done.
  - eapply hashed_ok_transfer; [done| |done]. intros i. by apply same_slots_hashed.
  - eapply ghashed_ok_transfer; done.
  - rewrite Hh. f_equal. f_equal. symmetry. by eapply tree_sends_transfer.
  - by eapply sends_wf_transfer.
Qed.

(** Tables that differ at the entries [i] only in fields other than the slot. *)
Lemma same_slots_aset t i e e' :
  aget t i = Some e -> ie_index e' = ie_index e -> same_slots t (aset t i e').
Proof.
  intros He Hi. split; [apply alen_aset|]. intros p. rewrite aget_aset. case_decide as Hd; [|done].
  destruct Hd as [-> _]. by rewrite He; cbn; rewrite Hi.
Qed.

Lemma same_slots_trans t1 t2 t3 : same_slots t1 t2 -> same_slots t2 t3 -> same_slots t1 t3.
Proof. intros [? H1] [? H2]. split; [congruence|]. intros p. by rewrite H2, H1. Qed.

(** The opening of a free entry of the table. *)
Lemma free_not_collides t m open i :
  table_wf open t -> collisions_wf t m -> is_free open t i -> ~ collides m i.
Proof.
  intros Ht Hc (Hi & Ho & e & He & H0) Hcol. destruct (Ht _ _ He) as (_ & _ & Hg).
  destruct (Hg H0 Ho) as [Hg' _]. apply (Hc _ _ He) in Hcol. by apply Hcol, collision_of_gen.
Qed.

Lemma head_not_collides self open m : tree_wf self open m -> ~ collides m 0.
Proof. intros Htr (n & [te Hte] & Hi). destruct (Htr _ _ Hte) as [(_ & _ & ?) _]. lia. Qed.

(** ** Counting small names *)

Lemma elem_tree_indices m i :
  i ∈ (set_map MACH_PORT_INDEX (dom m) : gset Z) <-> collides m i.
Proof. rewrite elem_of_map. unfold collides. setoid_rewrite elem_of_dom. naive_solver. Qed.

#[export] Instance collides_dec m i : Decision (collides m i).
Proof.
  refine (cast_if (decide (i ∈ (set_map MACH_PORT_INDEX (dom m) : gset Z))));
    by rewrite <- elem_tree_indices.
Defined.

Lemma elem_small_indices size next_size m i :
  i ∈ small_indices size next_size m <-> size <= i < next_size /\ collides m i.
Proof.
  unfold small_indices, collides. rewrite elem_of_filter, elem_of_map. setoid_rewrite elem_of_dom.
  naive_solver.
Qed.

Lemma collides_insert m n te i :
  collides (<[n := te]> m) i <-> MACH_PORT_INDEX n = i \/ collides m i.
Proof.
  unfold collides. setoid_rewrite lookup_insert_is_Some'. naive_solver.
Qed.

Lemma small_count_insert size next_size m n te :
  small_count size next_size (<[n := te]> m) =
  small_count size next_size m +
    (if decide (size <= MACH_PORT_INDEX n < next_size /\ ~ collides m (MACH_PORT_INDEX n)) then 1 else 0).
Proof.
  unfold small_count. set (S := small_indices size next_size m).
  destruct (decide (size <= MACH_PORT_INDEX n < next_size)) as [Hr|Hr].
  - assert (small_indices size next_size (<[n := te]> m) = {[MACH_PORT_INDEX n]} ∪ S) as ->.
    { apply set_eq. intros i. rewrite elem_of_union, elem_of_singleton. unfold S.
      rewrite !elem_small_indices, collides_insert. naive_solver. }
    case_decide as Hd.
    + rewrite size_union, size_singleton; [lia|]. unfold S.
      apply disjoint_singleton_l. rewrite elem_small_indices. tauto.
    + replace ({[MACH_PORT_INDEX n]} ∪ S) with S; [lia|]. apply set_eq. intros i.
      rewrite elem_of_union, elem_of_singleton. split; [tauto|]. intros [->|]; [|done].
      apply elem_small_indices. split; [done|]. by apply dec_stable; tauto.
  - rewrite decide_False by tauto.
    replace (small_indices size next_size (<[n := te]> m)) with S; [lia|].
    apply set_eq. intros i. unfold S. rewrite !elem_small_indices, collides_insert. naive_solver.
Qed.

Lemma small_count_delete size next_size m n te :
  m !! n = Some te ->
  small_count size next_size m =
  small_count size next_size (delete n m) +
    (if decide (size <= MACH_PORT_INDEX n < next_size /\ ~ collides (delete n m) (MACH_PORT_INDEX n))
     then 1 else 0).
Proof.
  intros Hm. rewrite <- (small_count_insert _ _ _ _ te). by rewrite insert_delete_id.
Qed.

(** ** Changing the collision bit of an entry *)

Section Recollide.
Variables (t : list ipc_entry) (i b : Z) (e : ipc_entry).
Hypothesis Hi : aget t i = Some e.
Hypothesis Hb : is_u32 b.
Hypothesis Htype : IE_BITS_TYPE b = IE_BITS_TYPE (ie_bits e).
Hypothesis Hright : IE_BITS_RIGHT b = IE_BITS_RIGHT (ie_bits e).
Hypothesis Hgen : IE_BITS_GEN b = IE_BITS_GEN (ie_bits e).
Let t' := aset t i (set_bits b e).

Lemma recollide_get k :
  aget t' k = if decide (k = i) then Some (set_bits b e) else aget t k.
Proof using All.
  pose proof (aget_Some_range _ _ _ Hi). unfold t'. case_decide as Hk; [subst k|].
  - by apply aget_aset_eq.
  - by apply aget_aset_ne.
Qed.

Lemma recollide_slots : same_slots t t'.
Proof using All. by eapply same_slots_aset. Qed.

Lemma recollide_object k : object_of t' k = object_of t k.
Proof using All.
  unfold object_of. rewrite recollide_get. case_decide; [subst; by rewrite Hi|done].
Qed.

Lemma recollide_table open :
  (IE_BITS_TYPE (ie_bits e) <> 0 \/ open = Some (InTable i)) -> table_wf open t -> table_wf open t'.
Proof using All.
  intros Hu H k x. rewrite recollide_get. case_decide; [subst k; intros [= <-]|by apply H].
  destruct (H _ _ Hi) as (? & ? & ?). unfold entry_wf. cbn. rewrite Htype. split_and!; try done.
  intros ? ?. destruct Hu; done.
Qed.

Lemma recollide_is_free open k : is_free open t' k <-> is_free open t k.
Proof using All.
  unfold is_free. rewrite recollide_get. case_decide as Hk; [subst k|done]. split.
  - intros (? & ? & x & [= <-] & Ht). split_and!; try done. exists e. cbn in Ht. split; [done|congruence].
  - intros (? & ? & x & Hx & Ht). split_and!; try done. eexists. split; [done|]. cbn. simplify_eq. congruence.
Qed.

Lemma recollide_free open : free_wf open t -> free_wf open t'.
Proof using All.
  intros (l & Hc & Hnd & Hf). exists l. split_and!; [|done|].
  - eapply free_chain_frame; [done|]. intros j _. rewrite recollide_get.
    case_decide; [subst; by rewrite Hi|done].
  - intros k. by rewrite recollide_is_free.
Qed.

Lemma recollide_live open m ref obj : live_send open t' m ref obj <-> live_send open t m ref obj.
Proof using All.
  destruct ref as [k|n]; [|done]. unfold live_send. cbn. rewrite recollide_get.
  case_decide as Hk; [subst k|done]. rewrite Hi. cbn. split; intros (? & x & [= <- <-] & Ht);
    (split; [done|]); eexists; (split; [done|]); congruence.
Qed.

Lemma recollide_caps m n : caps t' m n = caps t m n.
Proof using All.
  unfold caps. rewrite recollide_get. case_decide as Hk; [|done]. rewrite Hk, Hi. cbn.
  unfold entry_cap, cap_of. cbn. by rewrite Hgen, Htype, Hright.
Qed.

Lemma recollide_collisions m m' :
  collisions_wf t m ->
  (forall k, k <> i -> collides m' k <-> collides m k) ->
  (forall n, is_Some (m' !! n) -> MACH_PORT_INDEX n < alen t ->
     MACH_PORT_INDEX n <> i -> is_Some (m !! n)) ->
  (Z.land b IE_BITS_COLLISION <> 0 <-> collides m' i) ->
  (forall n, is_Some (m' !! n) -> MACH_PORT_INDEX n = i -> IE_BITS_GEN (ie_bits e) <> MACH_PORT_GEN n) ->
  collisions_wf t' m'.
Proof using All.
  intros H Hk Hsome Hc Hg k x. rewrite recollide_get. case_decide as Hki; [subst k; intros [= <-]|].
  - split; cbn; [done|]. rewrite Hgen. done.
  - intros Hx. destruct (H _ _ Hx) as [H1 H2]. split; [by rewrite Hk|].
    intros n Hn Hin. apply H2; [|done]. apply Hsome; [done| |congruence].
    rewrite Hin. apply (aget_Some_range _ _ _ Hx).
Qed.
End Recollide.

(** ** The reverse hash tables *)

(** The state of the hash tables when the tree holds the map [m]. *)
Record hash_wf open m (st : kstate) : Prop := {
  hw_size : alen (is_table (k_space st)) = is_table_size (k_space st);
  hw_local : local_wf (is_table (k_space st));
  hw_hashed : hashed_ok open (is_table (k_space st)) m;
  hw_ghash : ghash_wf (k_ghash st);
  hw_ghashed : ghashed_ok (is_self (k_space st)) open (is_table (k_space st)) m (k_ghash st);
  hw_hash : is_tree_hash (k_space st) = Z.of_nat (size (tree_sends open m));
  hw_sends : sends_wf open (is_table (k_space st)) m
}.

Lemma space_wf_hash its open st : space_wf its open st -> hash_wf open (tree_map (k_space st)) st.
Proof. intros []. constructor; try done. by destruct wf_sizes0. Qed.

(** The entries of other spaces in the global table. *)
Definition ghash_frame (self : Z) (g g' : ghash) : Prop :=
  forall e, gh_space e <> self -> ghashed g' e <-> ghashed g e.

Lemma ghash_frame_refl self g : ghash_frame self g g.
Proof. done. Qed.

Lemma ghash_frame_trans self g1 g2 g3 :
  ghash_frame self g1 g2 -> ghash_frame self g2 g3 -> ghash_frame self g1 g3.
Proof. intros H1 H2 e He. by rewrite (H2 e He), (H1 e He). Qed.

(** A hash state in which the live send rights are the same. *)
Lemma hash_wf_transfer open open' m m' st st' :
  hash_wf open m st ->
  same_slots (is_table (k_space st)) (is_table (k_space st')) ->
  (forall i, hashed (is_table (k_space st)) i ->
     object_of (is_table (k_space st')) i = object_of (is_table (k_space st)) i) ->
  is_table_size (k_space st') = is_table_size (k_space st) ->
  is_tree_hash (k_space st') = is_tree_hash (k_space st) ->
  is_self (k_space st') = is_self (k_space st) -> k_ghash st' = k_ghash st ->
  (forall ref obj, live_send open' (is_table (k_space st')) m' ref obj <->
     live_send open (is_table (k_space st)) m ref obj) ->
  hash_wf open' m' st'.
Proof.
  intros [] Hs Ho Hsz Hh Hse Hg Hl. constructor.
  - rewrite Hsz. destruct Hs as [-> _]. done.
  - by eapply same_slots_wf.
  - eapply hashed_ok_transfer; [done| |done]. intros i. by apply same_slots_hashed.
  - by rewrite Hg.
  - rewrite Hg, Hse. by eapply ghashed_ok_transfer.
  - rewrite Hh, (tree_sends_transfer _ _ _ _ _ _ Hl). done.
  - by eapply sends_wf_transfer.
Qed.

Lemma hash_wf_table open open' m st t' :
  hash_wf open m st -> same_slots (is_table (k_space st)) t' ->
  (forall i, object_of t' i = object_of (is_table (k_space st)) i) ->
  (forall ref obj, live_send open' t' m ref obj <-> live_send open (is_table (k_space st)) m ref obj) ->
  hash_wf open' m (on_space (sp_set_table t') st).
Proof. intros H Hs Ho Hl. eapply hash_wf_transfer; [exact H|exact Hs|auto|done..|exact Hl]. Qed.

Section MoveHash.
(** The tree entry [te] named [n] moves to the entry [i] of the table. *)
Variables (open open' : option entry_ref) (st : kstate) (m : gmap Z ipc_tree_entry).
Variables (i n : Z) (e : ipc_entry) (te : ipc_tree_entry).
Let sp := k_space st.
Let t := is_table sp.
Hypothesis Hwf : hash_wf open m st.
Hypothesis Hi : aget t i = Some e.
Hypothesis Hi0 : 0 < i.
Hypothesis Hdead : forall obj, ~ live_send open t m (InTable i) obj.
Hypothesis Hn : m !! n = Some te.
Hypothesis Hspace : ite_space te = is_self sp.
Hypothesis Hopen : open <> Some (InTree n).
Hypothesis Hopen' : forall ref, ref <> InTable i -> ref <> InTree n -> open' = Some ref <-> open = Some ref.
Hypothesis Hclosed : open' <> Some (InTable i).

Let moved := mk_entry (Z.lor (ite_bits te) (MACH_PORT_GEN n)) (ite_object te) (ite_request te) (ie_index e).
Let t1 := aset t i moved.
Let st1 := on_space (sp_set_table t1) st.

Lemma moved_get k : aget t1 k = if decide (k = i) then Some moved else aget t k.
Proof using All.
  pose proof (aget_Some_range _ _ _ Hi). unfold t1. case_decide as Hk; [subst k|].
  - by apply aget_aset_eq.
  - by apply aget_aset_ne.
Qed.

Lemma moved_live t2 ref obj :
  same_entries t1 t2 ->
  live_send open' t2 (delete n m) ref obj <->
  (ref = InTable i /\ live_send open t m (InTree n) obj) \/
  (ref <> InTable i /\ ref <> InTree n /\ live_send open t m ref obj).
Proof using All.
  intros Hse. assert (forall k, entry_of t2 (delete n m) (InTable k) = entry_of t1 m (InTable k)) as Heq.
  { intros k. destruct Hse as [_ Hse]. specialize (Hse k). cbn.
    destruct (aget t2 k), (aget t1 k); cbn in *; try done. unfold set_index in Hse. congruence. }
  unfold live_send. destruct ref as [k|n'].
  - rewrite Heq. cbn. rewrite moved_get. case_decide as Hk; [subst k|].
    + rewrite Hn. cbn. split.
      * intros (_ & b & Hb & Ht). simplify_eq. left. split; [done|]. split; [done|]. eexists.
        split; [done|]. by rewrite type_lor_gen in Ht by apply is_gen_port.
      * intros [(_ & _ & b & Hb & Ht)|(? & _)]; [|done]. simplify_eq. split; [done|]. eexists.
        split; [done|]. by rewrite type_lor_gen by apply is_gen_port.
    + rewrite (Hopen' (InTable k)) by congruence. split; [|naive_solver].
      intros ?. right. split_and!; [congruence|done|naive_solver..].
  - destruct (decide (n' = n)) as [->|Hne]; cbn.
    + rewrite lookup_delete_eq. cbn. naive_solver.
    + rewrite lookup_delete_ne by congruence. rewrite (Hopen' (InTree n')) by congruence.
      split; [|naive_solver]. intros ?. right. split_and!; [done|congruence|naive_solver..].
Qed.

Lemma moved_slots : same_slots t t1.
Proof using All. by eapply same_slots_aset. Qed.

Lemma moved_not_hashed : ~ hashed t i.
Proof using All. intros [obj Ho]%(hw_hashed _ _ _ Hwf). by eapply Hdead. Qed.

Lemma moved_local : local_wf t1.
Proof using All.
  eapply same_slots_wf; [apply moved_slots| |apply (hw_local _ _ _ Hwf)].
  intros k Hk. unfold object_of. rewrite moved_get. case_decide; [|done]. subst k. by destruct moved_not_hashed.
Qed.

Lemma moved_hashed t2 :
  same_entries t1 t2 ->
  (forall k, hashed t2 k <->
     hashed t k \/ (k = i /\ IE_BITS_TYPE (ite_bits te) = MACH_PORT_TYPE_SEND)) ->
  hashed_ok open' t2 (delete n m).
Proof using All.
  intros Hse Hh k. rewrite Hh.
  rewrite (hw_hashed _ _ _ Hwf k : hashed t k <-> exists obj, live_send open t m (InTable k) obj).
  setoid_rewrite (moved_live t2); [|done]. split.
  - intros [[obj Ho]|[-> Hs]].
    + exists obj. right. split_and!; [|done|done]. intros [= ->]. by eapply Hdead.
    + exists (ite_object te). left. split; [done|]. split; [done|]. exists (ite_bits te). cbn. by rewrite Hn.
  - intros [obj [[[= ->] (_ & b & Hb & Ht)]|(_ & _ & Ho)]].
    + right. split; [done|]. cbn in Hb. rewrite Hn in Hb. by simplify_eq/=.
    + left. by exists obj.
Qed.

Lemma moved_sends t2 : same_entries t1 t2 -> sends_wf open' t2 (delete n m).
Proof using All.
  intros Hse ref obj. rewrite moved_live by done. intros Hr. split.
  - destruct Hr as [[_ Hr]|(_ & _ & Hr)]; by apply (hw_sends _ _ _ Hwf) in Hr as [? _].
  - intros ref'. rewrite moved_live by done.
    destruct Hr as [[-> Hr]|(? & ? & Hr)]; intros [[-> Hr']|(? & ? & Hr')]; try done;
      pose proof (proj2 (hw_sends _ _ _ Hwf _ _ Hr) _ Hr'); congruence.
Qed.

Lemma moved_tree_sends t2 :
  same_entries t1 t2 ->
  tree_sends open' (delete n m) = tree_sends open m ∖ {[n]}.
Proof using All.
  intros Hse. apply set_eq. intros k. rewrite elem_of_difference, elem_of_singleton.
  rewrite (elem_tree_sends open' t2), (elem_tree_sends open t). setoid_rewrite (moved_live t2); [|done].
  split.
  - intros [obj [[? _]|(_ & ? & ?)]]; [done|]. split; [by exists obj|congruence].
  - intros [[obj ?] ?]. exists obj. right. split_and!; [done|congruence|done].
Qed.

Lemma moved_send_live :
  IE_BITS_TYPE (ite_bits te) = MACH_PORT_TYPE_SEND ->
  live_send open t m (InTree n) (ite_object te).
Proof using All. intros Hs. split; [done|]. exists (ite_bits te). cbn. by rewrite Hn. Qed.

(** The final state: the space has lost the tree entry. *)
Definition moved_state (st2 : kstate) (sp' : ipc_space) : Prop :=
  is_table sp' = is_table (k_space st2) /\ is_table_size sp' = is_table_size sp /\
  is_tree_hash sp' = is_tree_hash (k_space st2) /\ is_self sp' = is_self sp.

Lemma rehash_moved_correct :
  exists t2 h g, let st2 := mk_kstate (sp_set_hash h (sp_set_table t2 sp)) g in
    rehash_moved st1 te n i = Some st2 /\
    same_entries t1 t2 /\ ghash_frame (is_self sp) (k_ghash st) g /\
    forall sp', moved_state st2 sp' -> hash_wf open' (delete n m) (mk_kstate sp' g).
Proof using All.
  unfold rehash_moved. pose proof (hw_size _ _ _ Hwf) as Hsz. fold sp t in Hsz.
  assert (alen t1 = alen t) as Hlen by (unfold t1; apply alen_aset).
  pose proof (aget_Some_range _ _ _ Hi) as Hr.
  destruct (Z.eqb_spec (IE_BITS_TYPE (ite_bits te)) MACH_PORT_TYPE_SEND) as [Hs|Hs].
  - pose proof (moved_send_live Hs) as Hl. destruct (hw_sends _ _ _ Hwf _ _ Hl) as [Hnn _].
    assert (n ∈ tree_sends open m) as Hin by (apply (elem_tree_sends open t); by eexists).
    unfold hash_global_delete. cbn. fold sp. rewrite Hspace, !Z.eqb_refl, (proj2 (Z.eqb_neq _ _) Hnn). cbn [negb].
    pose proof (hw_hash _ _ _ Hwf) as Hh. fold sp in Hh.
    assert (size (tree_sends open m) <> 0%nat) as Hpos.
    { intros H0%size_empty_inv. by apply H0 in Hin. }
    fold sp. rewrite (proj2 (Z.ltb_lt 0 (is_tree_hash sp))) by lia.
    destruct (ipc_hash_global_delete_correct (k_ghash st) (mk_ghash (is_self sp) n (ite_object te)))
      as (g' & -> & Hgw & Hgd); [apply (hw_ghash _ _ _ Hwf)|by apply (hw_ghashed _ _ _ Hwf)|].
    unfold hash_local_insert. cbn. fold sp. rewrite <- Hsz, <- Hlen.
    destruct (ipc_hash_local_insert_correct t1 i moved) as (t2 & Hins & Hw2 & Hse2 & Hh2).
    { by apply moved_local. } { lia. }
    { rewrite same_slots_hashed by apply moved_slots. by apply moved_not_hashed. }
    { by rewrite moved_get, decide_True. } { done. }
    cbn in Hins. rewrite Hins. exists t2, (is_tree_hash sp - 1), g'. cbn zeta. split; [done|]. split; [done|].
    split.
    { intros x Hx. rewrite Hgd. split; [tauto|]. intros ?. split; [done|]. intros ->. done. }
    intros sp' (Ht' & Hz' & Hhs' & Hself). cbn in Ht', Hhs'.
    constructor; cbn; rewrite ?Ht', ?Hz', ?Hhs', ?Hself; try done.
    + destruct Hse2 as [-> _]. congruence.
    + apply moved_hashed; [done|]. intros k. rewrite Hh2, same_slots_hashed by apply moved_slots. tauto.
    + intros k obj. rewrite Hgd, (hw_ghashed _ _ _ Hwf k obj :
        ghashed (k_ghash st) (mk_ghash (is_self sp) k obj) <-> live_send open t m (InTree k) obj).
      rewrite (moved_live t2) by done. split.
      * intros [Hk Hne]. right. split_and!; [done| |done]. intros [= ->]. apply Hne. f_equal.
        destruct Hk as (_ & b & Hb & _). cbn in Hb. rewrite Hn in Hb. by simplify_eq/=.
      * intros [[? _]|(_ & ? & ?)]; [done|]. split; [done|congruence].
    + rewrite (moved_tree_sends t2), size_difference, size_singleton by (done || set_solver). lia.
    + by apply moved_sends.
  - exists t1, (is_tree_hash sp), (k_ghash st). cbn zeta. split.
    { reflexivity. }
    split; [apply same_entries_refl|]. split; [done|].
    intros sp' (Ht' & Hz' & Hhs' & Hself). cbn in Ht', Hhs'.
    assert (~ n ∈ tree_sends open m) as Hnin.
    { intros [obj (_ & b & Hb & ?)]%(elem_tree_sends open t). cbn in Hb. rewrite Hn in Hb. by simplify_eq/=. }
    constructor; cbn; rewrite ?Ht', ?Hz', ?Hhs', ?Hself; try apply (hw_ghash _ _ _ Hwf).
    + congruence.
    + apply moved_local.
    + apply moved_hashed; [apply same_entries_refl|]. intros k.
      rewrite same_slots_hashed by apply moved_slots. tauto.
    + intros k obj. rewrite (hw_ghashed _ _ _ Hwf k obj :
        ghashed (k_ghash st) (mk_ghash (is_self sp) k obj) <-> live_send open t m (InTree k) obj).
      rewrite (moved_live t1) by apply same_entries_refl. split.
      * intros Hk. right. split_and!; [done| |done]. intros [= ->]. apply Hnin.
        apply (elem_tree_sends open t). by exists obj.
      * intros [[? _]|(_ & ? & ?)]; done.
    + rewrite (moved_tree_sends t1) by apply same_entries_refl.
      replace (tree_sends open m ∖ {[n]}) with (tree_sends open m) by set_solver. apply (hw_hash _ _ _ Hwf).
    + apply moved_sends, same_entries_refl.
Qed.
End MoveHash.
(** ** Splitting the tree by index *)

Definition names_u32 (tr : ipc_splay_tree ipc_tree_entry) : Prop :=
  Forall (fun p => is_u32 p.1) (splay_elems tr).

Lemma tree_wf_names self open sp :
  splay_wf (is_tree sp) -> tree_wf self open (tree_map sp) -> names_u32 (is_tree sp).
Proof.
  intros Hw Htr. apply Forall_forall. intros [n te] Hin.
  apply (elem_of_list_to_map (M := gmap Z)) in Hin;
    [|by apply keys_sorted_NoDup, splay_wf_sorted].
  by apply (Htr n te).
Qed.

Lemma split_index tr small i :
  splay_wf tr -> names_u32 tr -> is_index i ->
  exists tr' small', ipc_splay_tree_split tr (MACH_PORT_MAKE i 0) small = Some (tr', small') /\
    splay_wf tr' /\ splay_wf small' /\ names_u32 tr' /\ names_u32 small' /\
    splay_elems tr = splay_elems small' ++ splay_elems tr' /\
    Forall (fun p => MACH_PORT_INDEX p.1 < i) (splay_elems small') /\
    Forall (fun p => i <= MACH_PORT_INDEX p.1) (splay_elems tr').
Proof.
  intros Hw Hu Hi. destruct (ipc_splay_tree_split_correct tr (MACH_PORT_MAKE i 0) small Hw)
    as (tr' & small' & Heq & Hw1 & Hw2 & He & Hlo & Hhi).
  unfold names_u32 in *. rewrite He, Forall_app in Hu. destruct Hu as [Hu1 Hu2].
  exists tr', small'. split_and!; try done; apply Forall_forall; intros p Hp.
  - rewrite Forall_forall in Hu1. pose proof (keys_below_elem _ _ _ Hlo Hp) as Hlt.
    apply Z.nle_gt. rewrite <- (make_zero_le i) by auto. lia.
  - rewrite Forall_forall in Hu2, Hhi. apply make_zero_le; auto.
Qed.

(** Reassembling the parts. *)
Lemma join_index (tr small : ipc_splay_tree ipc_tree_entry) :
  splay_wf tr -> splay_wf small -> keys_sorted (splay_elems small ++ splay_elems tr) ->
  exists tr' small', ipc_splay_tree_join tr small = Some (tr', small') /\ splay_wf tr' /\
    splay_elems tr' = splay_elems small ++ splay_elems tr.
Proof.
  intros H1 H2 Hs. apply keys_sorted_app in Hs as (_ & _ & Hlt).
  destruct (ipc_splay_tree_join_correct tr small H1 H2 Hlt) as (tr' & small' & ? & ? & _ & ?).
  by exists tr', small'.
Qed.

End Inv.
