(* ===== verification/IpcEntrySpec.v ===== *)
(** * Correctness of entry allocation and deallocation (ipc/ipc_entry.c)

    [ipc_entry_get], the table cases of [ipc_entry_alloc_name] and
    [ipc_entry_dealloc] preserve the invariant of the space and change the
    capability map at the name they are given only. *)

From S2P Require Import Prelude PortName IpcSplay IpcTable IpcTypes IpcHash IpcEntry.
From S2P Require Import IpcSpaceInv.

Section FreeList.
Context `{PC : PortConfig}.
Implicit Types (t : list ipc_entry).

Definition chain_pred (j : Z) (l : list Z) : Z := default j (last l).

Lemma chain_pred_cons j a l : chain_pred j (a :: l) = chain_pred a l.
Proof. unfold chain_pred. rewrite last_cons. by destruct (last l). Qed.

Lemma chain_pred_elem j l : chain_pred j l ∈ j :: l.
Proof.
  revert j. induction l as [|a l IH]; intros j; [set_solver|].
  rewrite chain_pred_cons. specialize (IH a). set_solver.
Qed.

(** The links around an element of the free list. *)
Lemma free_chain_mid t j l1 i l2 :
  free_chain t j (l1 ++ i :: l2) ->
  exists ep, aget t (chain_pred j l1) = Some ep /\ ie_next ep = i /\ i <> 0 /\ free_chain t i l2.
Proof.
  revert j. induction l1 as [|a l1 IH]; intros j H; cbn [app] in H.
  - inversion H; subst. eauto.
  - rewrite chain_pred_cons. apply IH. inversion H; subst. done.
Qed.

Lemma free_chain_head t j l : free_chain t j l -> exists e, aget t j = Some e /\ ie_next e = default 0 (head l).
Proof. inversion 1; subst; eauto. Qed.

(** Unlinking an element. *)
Lemma free_chain_unlink t t' j l1 i l2 :
  free_chain t j (l1 ++ i :: l2) -> NoDup (j :: l1 ++ i :: l2) ->
  ie_next <$> aget t' (chain_pred j l1) = ie_next <$> aget t i ->
  (forall k, k <> i -> k <> chain_pred j l1 -> ie_next <$> aget t' k = ie_next <$> aget t k) ->
  free_chain t' j (l1 ++ l2).
Proof.
  revert j. induction l1 as [|a l1 IH]; intros j H Hnd Hp Hk; cbn [app] in *;
    apply NoDup_cons in Hnd as [Hj Hnd].
  - change (chain_pred j []) with j in *. apply NoDup_cons in Hnd as [Hi Hnd].
    destruct (free_chain_mid t j [] i l2 H) as (ep & _ & _ & _ & Hc).
    destruct (free_chain_head _ _ _ Hc) as (e & He & Hn). rewrite He in Hp.
    destruct (aget t' j) as [ej|] eqn:Ej; [|done]. injection Hp as Hp. rewrite Hn in Hp.
    destruct l2 as [|b l2]; cbn in Hp; [by econstructor|].
    destruct (free_chain_mid t i [] b l2 Hc) as (_ & _ & _ & Hb & Hc'). rewrite <- Hp.
    constructor; [done|congruence|]. rewrite Hp.
    eapply free_chain_frame; [done|]. intros k Hk'. apply Hk; set_solver.
  - rewrite chain_pred_cons in *. pose proof (chain_pred_elem a l1) as Hin.
    destruct (free_chain_mid t j [] a _ H) as (e & He & Hn & Ha & Hc).
    pose proof (Hk j ltac:(set_solver) ltac:(set_solver)) as Hj'.
    change (chain_pred j []) with j in He. rewrite He in Hj'.
    destruct (aget t' j) as [ej|] eqn:Ej; [|done]. injection Hj' as Hj'. rewrite Hn in Hj'.
    rewrite <- Hj'. constructor; [done|congruence|]. rewrite Hj'. by apply IH.
Qed.

(** Linking an element at the head. *)
Lemma free_chain_push t t' l i :
  free_chain t 0 l -> i <> 0 -> ~ i ∈ l -> ~ 0 ∈ l ->
  ie_next <$> aget t' 0 = Some i -> ie_next <$> aget t' i = ie_next <$> aget t 0 ->
  (forall k, k <> i -> k <> 0 -> ie_next <$> aget t' k = ie_next <$> aget t k) ->
  free_chain t' 0 (i :: l).
Proof.
  intros Hc Hi Hil H0l H0 Hn Hk. destruct (aget t' 0) as [e0|] eqn:E0; [|done]. injection H0 as <-.
  constructor; [done|done|]. destruct (free_chain_head _ _ _ Hc) as (e & He & Hh). rewrite He in Hn.
  destruct (aget t' (ie_next e0)) as [ei|] eqn:Ei; [|done]. injection Hn as Hn.
  inversion Hc; subst; simplify_eq.
  - econstructor; [done|congruence].
  - rewrite <- Hn. constructor; [done|congruence|]. rewrite Hn.
    eapply free_chain_frame; [done|]. intros k Hkin. apply Hk; set_solver.
Qed.
End FreeList.

Section Relinking.
Context `{PC : PortConfig}.

(** The fields of an entry other than the free-list link. *)
Definition core (e : ipc_entry) : Z * Z * Z := (ie_bits e, ie_object e, ie_index e).

Lemma entry_wf_core open i e e' :
  core e' = core e -> entry_wf open i e -> entry_wf open i e'.
Proof. destruct e, e'. unfold core, entry_wf. cbn. by intros [= -> -> ->]. Qed.

Section Relink.
(** A table [t'] that has the entries of [t], but for links, and a new entry at [i]. *)
Variables (t t' : list ipc_entry) (i : Z) (e e' : ipc_entry).
Hypothesis Hlen : alen t' = alen t.
Hypothesis Hi : aget t i = Some e.
Hypothesis Hi' : aget t' i = Some e'.
Hypothesis Hindex : ie_index e' = ie_index e.
Hypothesis Hcore : forall k, k <> i -> core <$> aget t' k = core <$> aget t k.

Lemma relink_slots : same_slots t t'.
Proof using All.
  split; [done|]. intros p. destruct (decide (p = i)) as [->|Hne].
  - rewrite Hi, Hi'. cbn. by rewrite Hindex.
  - specialize (Hcore p Hne). destruct (aget t' p), (aget t p); cbn in *; try done.
    unfold core in Hcore. congruence.
Qed.

Lemma relink_get k x' : k <> i -> aget t' k = Some x' -> exists x, aget t k = Some x /\ core x' = core x.
Proof using All.
  intros Hne Hx. specialize (Hcore k Hne). rewrite Hx in Hcore.
  destruct (aget t k) as [x|]; [|done]. exists x. split; [done|]. cbn in Hcore. congruence.
Qed.

Lemma relink_object k : k <> i -> object_of t' k = object_of t k.
Proof using All.
  intros Hne. specialize (Hcore k Hne). unfold object_of.
  destruct (aget t' k), (aget t k); cbn in *; try done. unfold core in Hcore. congruence.
Qed.

Lemma relink_entry_of m ref : ref <> InTable i -> entry_of t' m ref = entry_of t m ref.
Proof using All.
  intros Hne. destruct ref as [k|n]; cbn; [|done].
  assert (k <> i) as Hk by congruence. specialize (Hcore k Hk).
  destruct (aget t' k), (aget t k); cbn in *; try done. unfold core in Hcore. congruence.
Qed.

(** Neither entry [i] of the two tables is a live send right. *)
Lemma relink_live open open' m :
  (forall ref, ref <> InTable i -> open' = Some ref <-> open = Some ref) ->
  (open = Some (InTable i) \/ IE_BITS_TYPE (ie_bits e) <> MACH_PORT_TYPE_SEND) ->
  (open' = Some (InTable i) \/ IE_BITS_TYPE (ie_bits e') <> MACH_PORT_TYPE_SEND) ->
  forall ref obj, live_send open' t' m ref obj <-> live_send open t m ref obj.
Proof using All.
  intros Hopen H H' ref obj. unfold live_send. destruct (decide (ref = InTable i)) as [->|Hne].
  - cbn. rewrite Hi, Hi'. naive_solver.
  - rewrite relink_entry_of by done. naive_solver.
Qed.

Lemma relink_caps m :
  (forall k x, k <> i -> aget t k = Some x -> aget t' k <> Some x ->
     IE_BITS_TYPE (ie_bits x) = 0 /\ ~ collides m k) ->
  forall n, MACH_PORT_INDEX n <> i -> caps t' m n = caps t m n.
Proof using All.
  intros Hfree n Hn. destruct (aget t (MACH_PORT_INDEX n)) as [x|] eqn:Ex.
  2:{ apply caps_table_ext. specialize (Hcore _ Hn). rewrite Ex in Hcore |- *. by destruct (aget t' (MACH_PORT_INDEX n)). }
  destruct (aget t' (MACH_PORT_INDEX n)) as [x'|] eqn:Ex'.
  2:{ specialize (Hcore _ Hn). by rewrite Ex, Ex' in Hcore. }
  destruct (decide (x' = x)) as [->|Hne]; [apply caps_table_ext; congruence|].
  destruct (Hfree _ _ Hn Ex) as [H0 Hc]; [congruence|].
  destruct (relink_get _ _ Hn Ex') as (y & Hy & Hcr).
  rewrite (caps_inert t m (MACH_PORT_INDEX n) x) by done.
  apply (caps_inert t' m (MACH_PORT_INDEX n) x'); try done.
  simplify_eq. unfold core in Hcr. congruence.
Qed.
End Relink.
End Relinking.

Section Spec.
Context `{PC : PortConfig}.
Variable its : list Z.
Hypothesis Hits : entries_sizes_ok its.
Implicit Types (t : list ipc_entry) (m : gmap Z ipc_tree_entry) (st : kstate).

(** An entry just allocated: its generation, and nothing else. *)
Definition fresh_entry (sp : ipc_space) (ref : entry_ref) (gen : Z) : Prop :=
  exists e, get_entry sp ref = Some e /\ ie_bits e = gen /\ ie_object e = IO_NULL /\ ie_request e = 0.

Lemma size_range open st :
  space_wf its open st ->
  4 <= is_table_size (k_space st) <= MACH_PORT_INDEX MACH_PORT_DEAD /\
  alen (is_table (k_space st)) = is_table_size (k_space st).
Proof using Hits.
  intros Hwf. destruct (wf_sizes _ _ _ Hwf) as (Hl & Hs & _). split; [|done].
  by eapply entries_sizes_range.
Qed.

Lemma table_name_valid open st i g :
  space_wf its open st -> 0 < i < alen (is_table (k_space st)) -> is_gen g ->
  valid_name (MACH_PORT_MAKE i g) /\ MACH_PORT_INDEX (MACH_PORT_MAKE i g) = i /\
  MACH_PORT_GEN (MACH_PORT_MAKE i g) = g.
Proof using Hits.
  intros Hwf Hi Hg. destruct (size_range _ _ Hwf) as [Hs Hl].
  assert (is_index i) by (unfold is_index; lia).
  unfold valid_name. rewrite index_make, gen_make by done. split_and!; try done; try lia.
  - by apply make_u32.
  - apply make_valid; [lia|done].
Qed.

(** ** Taking an entry from the free list *)

Lemma tree_wf_open_table self m i :
  tree_wf self None m -> tree_wf self (Some (InTable i)) m.
Proof. intros H n te Hte. destruct (H n te Hte) as (? & ? & ? & H0). split_and!; try done. intros ?%H0. done. Qed.

Section TakeFree.
Variables (st : kstate) (l1 l2 : list Z) (i g : Z) (e ep : ipc_entry).
Hypothesis Hwf : space_wf its None st.
Let t := is_table (k_space st).
Let p := chain_pred 0 l1.
Hypothesis Hchain : free_chain t 0 (l1 ++ i :: l2).
Hypothesis Hnodup : NoDup (l1 ++ i :: l2).
Hypothesis Hfree : forall j, j ∈ l1 ++ i :: l2 <-> is_free None t j.
Hypothesis Hep : aget t p = Some ep.
Hypothesis Hent : aget t i = Some e.
Hypothesis Hgen : is_gen g.
Let t' := aset (aset t p (set_next (ie_next e) ep)) i (set_request 0 (set_bits g e)).

Lemma take_free_facts :
  is_free None t i /\ p <> i /\ ~ 0 ∈ l1 ++ i :: l2 /\ is_gen (ie_bits e) /\ ie_object e = IO_NULL /\
  0 < i < alen t.
Proof using All.
  assert (is_free None t i) as Hf by (apply Hfree; set_solver).
  assert (~ 0 ∈ l1 ++ i :: l2) as H0 by (rewrite Hfree; intros [? _]; lia).
  split_and!; try done.
  - intros Hpi. pose proof (chain_pred_elem 0 l1) as Hin. fold p in Hin. rewrite Hpi in Hin.
    apply elem_of_cons in Hin as [->|Hin]; [set_solver|].
    apply NoDup_app in Hnodup as (_ & Hd & _). specialize (Hd i Hin). set_solver.
  - destruct Hf as (_ & _ & e' & He' & Ht). simplify_eq. by apply (wf_table _ _ _ Hwf _ _ Hent).
  - destruct Hf as (_ & _ & e' & He' & Ht). simplify_eq. by apply (wf_table _ _ _ Hwf _ _ Hent).
  - apply Hf.
  - apply aget_Some_range in Hent. lia.
Qed.

Lemma take_free_get k :
  aget t' k = if decide (k = i) then Some (set_request 0 (set_bits g e))
              else if decide (k = p) then Some (set_next (ie_next e) ep) else aget t k.
Proof using All.
  destruct take_free_facts as (_ & Hpi & _ & _ & _ & Hi). unfold t'.
  pose proof (aget_Some_range _ _ _ Hep). case_decide as Hk; [subst k|].
  - apply aget_aset_eq. rewrite alen_aset. lia.
  - rewrite aget_aset_ne by congruence. case_decide; [subst k; by apply aget_aset_eq|].
    by apply aget_aset_ne.
Qed.

Lemma take_free_core k : k <> i -> core <$> aget t' k = core <$> aget t k.
Proof using All.
  intros Hk. rewrite take_free_get, decide_False by done. case_decide; [|done]. subst k. by rewrite Hep.
Qed.

Lemma take_free_len : alen t' = alen t.
Proof using All. unfold t'. by rewrite !alen_aset. Qed.

Lemma take_free_wf :
  space_wf its (Some (InTable i)) (on_space (sp_set_table t') st) /\
  (forall n, space_caps (k_space (on_space (sp_set_table t') st)) n = space_caps (k_space st) n).
Proof using All.
  destruct take_free_facts as (Hf & Hpi & H0 & Hge & Ho & Hi).
  pose proof (take_free_get i) as Hi'. rewrite decide_True in Hi' by done.
  pose proof (take_free_len) as Hlen. pose proof take_free_core as Hcore.
  assert (~ collides (tree_map (k_space st)) i) as Hnc
    by (eapply free_not_collides; [apply (wf_table _ _ _ Hwf)|apply (wf_collisions _ _ _ Hwf)|done]).
  split.
  - apply (space_wf_table its None); try done.
    + eapply relink_slots; eauto.
    + intros k Hk. destruct (decide (k = i)) as [->|Hne]; [|by eapply relink_object; eauto].
      fold t. unfold object_of. rewrite Hi', Hent. done.
    + cbn. by rewrite Hlen.
    + intros k x Hx. destruct (decide (k = i)) as [->|Hne].
      * rewrite Hi' in Hx. injection Hx as <-. split_and!; cbn; try done.
        -- by apply is_gen_u32.
        -- intros ->. by apply type_of_gen.
      * destruct (relink_get t t' i e _ Hlen Hent Hi' eq_refl Hcore _ _ Hne Hx) as (y & Hy & Hc).
        eapply entry_wf_core; [exact Hc|]. destruct (wf_table _ _ _ Hwf _ _ Hy) as (? & ? & Hz).
        split_and!; try done. intros. by apply Hz.
    + exists (l1 ++ l2). split_and!.
      * eapply free_chain_unlink; [exact Hchain|by constructor| |].
        -- fold p. by rewrite take_free_get, decide_False, decide_True, Hent.
        -- intros k Hk Hkp. by rewrite take_free_get, !decide_False.
      * apply NoDup_app in Hnodup as (? & Hd & [? ?]%NoDup_cons). apply NoDup_app. set_solver.
      * intros j. transitivity (j ∈ l1 ++ i :: l2 /\ j <> i).
        { apply NoDup_app in Hnodup as (? & Hd & [? ?]%NoDup_cons). set_solver. }
        rewrite Hfree. unfold is_free. rewrite take_free_get. split.
        -- intros [(? & _ & x & Hx & Ht) Hne]. rewrite decide_False by done.
           split_and!; [done|congruence|]. case_decide; [|by exists x]. subst j.
           eexists. split; [done|]. cbn. simplify_eq. done.
        -- intros (? & Hne & x & Hx & Ht). assert (j <> i) by congruence.
           rewrite decide_False in Hx by done. split; [|done]. split_and!; [done|done|].
           case_decide; [|by exists x]. subst j. simplify_eq. by exists ep.
    + apply tree_wf_open_table, Hwf.
    + intros k x Hx. destruct (decide (k = i)) as [->|Hne].
      * rewrite Hi' in Hx. injection Hx as <-. split; cbn.
        -- rewrite collision_of_gen by done. naive_solver.
        -- intros n Hn Hin. destruct Hnc. by exists n.
      * destruct (relink_get t t' i e _ Hlen Hent Hi' eq_refl Hcore _ _ Hne Hx) as (y & Hy & Hc).
        unfold collision_wf. injection Hc as -> _ _. by apply (wf_collisions _ _ _ Hwf).
    + eapply relink_live; eauto. 
      * intros ref Hr. naive_solver.
      * right. by rewrite type_of_gen.
  - intros n. unfold space_caps. cbn. fold t. change (tree_map (on_space (sp_set_table t') st).(k_space))
      with (tree_map (k_space st)).
    destruct (decide (MACH_PORT_INDEX n = i)) as [Hn|Hn].
    + rewrite (caps_inert t _ i e), (caps_inert t' _ i (set_request 0 (set_bits g e))); try done;
        cbn; by apply type_of_gen.
    + eapply relink_caps; eauto. intros k x Hk Hx Hx'.
      rewrite take_free_get, decide_False in Hx' by done. case_decide; [|done]. subst k.
      simplify_eq. pose proof (chain_pred_elem 0 l1) as [Hp|Hp]%elem_of_cons; fold p in Hp.
      * split; [|rewrite Hp; by eapply head_not_collides, Hwf].
        apply (wf_table _ _ _ Hwf _ _ Hep). done.
      * assert (is_free None t p) as Hfp by (apply Hfree; set_solver). split.
        -- destruct Hfp as (_ & _ & y & ? & ?). by simplify_eq.
        -- eapply free_not_collides; [apply Hwf|apply Hwf|done].
Qed.
End TakeFree.

Lemma free_list_length t l :
  NoDup l -> (forall i, i ∈ l -> 0 < i < alen t) -> (length l < length t)%nat \/ l = [].
Proof.
  intros Hnd Hr. destruct l as [|a l]; [by right|left]. set (L := a :: l) in *.
  assert (length L <= length (seqZ 1 (alen t - 1)))%nat as H.
  { apply submseteq_length, NoDup_submseteq; [done|]. intros x Hx. apply elem_of_seqZ.
    specialize (Hr x Hx). lia. }
  rewrite length_seqZ in H. specialize (Hr a ltac:(set_solver)). unfold alen in *. lia.
Qed.

Lemma find_free_link_correct t j l1 i l2 fuel :
  free_chain t j (l1 ++ i :: l2) -> ~ i ∈ l1 -> (length l1 < fuel)%nat ->
  find_free_link fuel t j i = Some (chain_pred j l1).
Proof.
  revert j fuel. induction l1 as [|a l1 IH]; intros j fuel Hc Hn Hf;
    (destruct fuel as [|fuel]; [cbn in Hf; lia|]); cbn [find_free_link app] in *.
  - destruct (free_chain_mid t j [] i l2 Hc) as (ep & He & Hi & _). unfold chain_pred in *. cbn in *.
    by rewrite He, Hi, Z.eqb_refl.
  - destruct (free_chain_mid t j [] a _ Hc) as (ep & He & Ha & _ & Hc'). change (chain_pred j []) with j in He.
    rewrite He, Ha, (proj2 (Z.eqb_neq _ _)) by set_solver. cbn [negb]. rewrite chain_pred_cons.
    apply IH; [done|set_solver|cbn in Hf; lia].
Qed.

Lemma ipc_entry_get_correct sp gh :
  space_wf its None (mk_kstate sp gh) ->
  exists sp' res, ipc_entry_get sp = Some (sp', res) /\
    match res with
    | None => sp' = sp /\ forall i, ~ is_free None (is_table sp) i
    | Some (name, i) =>
        space_wf its (Some (InTable i)) (mk_kstate sp' gh) /\
        valid_name name /\ ref_for sp' name (InTable i) /\
        fresh_entry sp' (InTable i) (MACH_PORT_GEN name) /\
        space_caps sp name = None /\ (forall n, space_caps sp' n = space_caps sp n)
    end.
Proof using Hits.
  intros Hwf. destruct (wf_free _ _ _ Hwf) as (l & Hc & Hnd & Hfr). cbn in Hc, Hfr.
  unfold ipc_entry_get. rewrite (wf_active _ _ _ Hwf : is_active sp = true).
  destruct (free_chain_head _ _ _ Hc) as (e0 & He0 & Hn0). rewrite He0, Hn0.
  destruct l as [|i l]; cbn [head default].
  { do 2 eexists. split; [done|]. split; [done|]. intros i Hi%Hfr. set_solver. }
  destruct (free_chain_mid _ 0 [] i l Hc) as (ep & Hep & _ & Hi0 & Hc').
  destruct (free_chain_head _ _ _ Hc') as (e & He & _).
  cbn. rewrite (proj2 (Z.eqb_neq i 0) Hi0), He, (table_upd_Some _ _ _ _ He0).
  set (g := u32 (ie_bits e + IE_BITS_GEN_ONE)).
  destruct (take_free_facts (mk_kstate sp gh) [] l i 0 e ep) as (Hf & H0i & _ & Hg & Ho & Hi); try done.
  { unfold is_gen. destruct PORT_GENERATIONS; [exists 0; lia|done]. }
  assert (is_gen g) as Hg' by by apply gen_incr.
  assert (Z.ldiff (ie_bits e) IE_BITS_GEN_MASK = 0) as ->.
  { apply gen_land_self in Hg. bits_solve. }
  assert (aget (aset (is_table sp) 0 (set_next (ie_next e) e0)) i = Some e) as He'
    by by rewrite aget_aset_ne by congruence.
  cbn. rewrite (table_upd_Some _ _ _ _ He').
  destruct (table_name_valid None (mk_kstate sp gh) i g Hwf Hi Hg') as (Hv & Hix & Hgx).
  destruct Hv as (Hv1 & Hv2 & Hv3). rewrite Hv2, Ho. cbn.
  destruct (take_free_wf (mk_kstate sp gh) [] l i g e e0) as [Hwf' Hcaps]; try done.
  do 2 eexists. split; [done|]. cbn beta iota. rewrite Hgx. cbn in *.
  assert (aget (aset (aset (is_table sp) 0 (set_next (ie_next e) e0)) i
    (set_request 0 (set_bits g e))) i = Some (set_request 0 (set_bits g e))) as Hnew.
  { apply aget_aset_eq. rewrite alen_aset. lia. }
  split_and!; try done.
  - left. cbn. rewrite Hix, Hgx. split; [done|]. eexists. split; [done|]. by apply gen_of_gen.
  - eexists. split; [done|]. done.
  - eapply caps_inert; [exact He|by apply type_of_gen| |done].
    eapply (free_not_collides _ _ None); [apply (wf_table _ _ _ Hwf)|apply (wf_collisions _ _ _ Hwf)|done].
Qed.
(** ** Returning an entry to the free list *)

Lemma tree_wf_close_table self m i :
  tree_wf self (Some (InTable i)) m -> tree_wf self None m.
Proof. intros H n te Hte. destruct (H n te Hte) as (? & ? & ? & H0). split_and!; try done. intros ?%H0. done. Qed.

Section GiveFree.
Variables (st : kstate) (i : Z) (e : ipc_entry).
Hypothesis Hwf : space_wf its (Some (InTable i)) st.
Let t := is_table (k_space st).
Hypothesis Hent : aget t i = Some e.
Hypothesis Hobj : ie_object e = IO_NULL.
Hypothesis Hcoll : Z.land (ie_bits e) IE_BITS_COLLISION = 0.

Lemma dealloc_free_correct :
  exists t' e', dealloc_free t i = Some t' /\ alen t' = alen t /\ aget t' i = Some e' /\
    core e' = (Z.land (ie_bits e) IE_BITS_GEN_MASK, ie_object e, ie_index e) /\
    (forall k, k <> i -> core <$> aget t' k = core <$> aget t k) /\
    (forall k, k <> i -> k <> 0 -> aget t' k = aget t k) /\
    ie_next <$> aget t' i = ie_next <$> aget t 0 /\ ie_next <$> aget t' 0 = Some i.
Proof using All.
  pose proof (wf_open _ _ _ Hwf) as Hi. cbn in Hi. fold t in Hi.
  destruct (aget_is_Some t 0) as [e0 He0]; [lia|]. unfold dealloc_free. rewrite He0.
  rewrite (table_upd_Some _ _ _ _ Hent).
  set (e1 := set_next _ _). assert (aget (aset t i e1) 0 = Some e0) as H0
    by by rewrite aget_aset_ne by lia.
  rewrite (table_upd_Some _ _ _ _ H0).
  assert (forall k, aget (aset (aset t i e1) 0 (set_next i e0)) k =
    if decide (k = 0) then Some (set_next i e0) else if decide (k = i) then Some e1 else aget t k) as Hget.
  { intros k. case_decide; [subst; apply aget_aset_eq; rewrite alen_aset; lia|].
    rewrite aget_aset_ne by done. case_decide; [subst; apply aget_aset_eq; lia|].
    by apply aget_aset_ne. }
  do 2 eexists. split; [done|]. rewrite !Hget, !alen_aset.
  rewrite (decide_False (P := i = 0)), (decide_True (P := i = i)) by (done || lia).
  split_and!; try done.
  - intros k Hk. rewrite Hget. case_decide; [subst k; by rewrite He0|]. by rewrite decide_False.
  - intros k Hk Hk0. by rewrite Hget, !decide_False.
Qed.

Lemma give_free_wf :
  exists t', dealloc_free t i = Some t' /\
    space_wf its None (on_space (sp_set_table t') st) /\
    (forall n, MACH_PORT_INDEX n <> i -> space_caps (sp_set_table t' (k_space st)) n = space_caps (k_space st) n) /\
    (forall n, MACH_PORT_INDEX n = i -> space_caps (sp_set_table t' (k_space st)) n = None).
Proof using All.
  destruct dealloc_free_correct as (t' & e' & Heq & Hlen & Hi' & Hce & Hcore & Hoth & Hni & Hn0).
  exists t'. split; [done|]. pose proof (wf_open _ _ _ Hwf) as Hi. cbn in Hi. fold t in Hi.
  assert (is_gen (Z.land (ie_bits e) IE_BITS_GEN_MASK)) as Hg
    by (apply is_gen_mask, (wf_table _ _ _ Hwf _ _ Hent)).
  unfold core in Hce. injection Hce as Hb Ho Hix.
  assert (~ collides (tree_map (k_space st)) i) as Hnc
    by (intros Hc; by apply (wf_collisions _ _ _ Hwf _ _ Hent) in Hc).
  destruct (wf_free _ _ _ Hwf) as (l & Hc & Hnd & Hfr). fold t in Hc, Hfr.
  assert (~ 0 ∈ l) as H0l by (rewrite Hfr; intros [? _]; lia).
  assert (~ i ∈ l) as Hil by (rewrite Hfr; intros (_ & ? & _); done).
  split_and!.
  - eapply space_wf_table; [exact Hwf|..]; try done; fold t.
    + eapply relink_slots; eauto.
    + intros k Hk. destruct (decide (k = i)) as [->|Hne]; [|by eapply relink_object; eauto].
      unfold object_of. rewrite Hi', Hent. done.
    + intros k x Hx. destruct (decide (k = i)) as [->|Hne].
      * simplify_eq. unfold entry_wf. rewrite Hb, Ho. split_and!; try done.
        -- by apply is_gen_u32.
        -- intros ->. lia.
      * destruct (relink_get t t' i e _ Hlen Hent Hi' Hix Hcore _ _ Hne Hx) as (y & Hy & Hc').
        eapply entry_wf_core; [exact Hc'|]. destruct (wf_table _ _ _ Hwf _ _ Hy) as (? & ? & Hz).
        split_and!; try done. intros. apply Hz; congruence.
    + exists (i :: l). split_and!.
      * eapply free_chain_push; try done; [lia|]. intros. f_equal. by apply Hoth.
      * by constructor.
      * intros j. rewrite elem_of_cons, Hfr. unfold is_free. split.
        -- intros [->|(? & Hne & x & Hx & Ht)].
           ++ split_and!; [lia|done|]. exists e'. split; [done|]. rewrite Hb. by apply type_of_gen.
           ++ split_and!; [done|done|]. assert (j <> i) by congruence.
              rewrite Hoth by (done || lia). by exists x.
        -- intros (? & _ & x & Hx & Ht). destruct (decide (j = i)) as [->|Hne]; [by left|right].
           rewrite Hoth in Hx by (done || lia). split_and!; [done|congruence|]. by exists x.
    + eapply tree_wf_close_table, Hwf.
    + intros k x Hx. destruct (decide (k = i)) as [->|Hne].
      * simplify_eq. split; rewrite Hb.
        -- rewrite collision_of_gen by done. naive_solver.
        -- intros n Hn Hin. destruct Hnc. by exists n.
      * destruct (relink_get t t' i e _ Hlen Hent Hi' Hix Hcore _ _ Hne Hx) as (y & Hy & Hc').
        unfold collision_wf. injection Hc' as -> _ _. by apply (wf_collisions _ _ _ Hwf).
    + eapply relink_live; eauto.
      * intros ref Hr. naive_solver.
      * right. rewrite Hb. by rewrite type_of_gen.
  - intros n Hn. unfold space_caps. cbn. fold t.
    change (tree_map (sp_set_table t' (k_space st))) with (tree_map (k_space st)).
    eapply relink_caps; eauto. intros k x Hk Hx Hx'.
    destruct (decide (k = 0)) as [->|Hk0].
    + split; [by apply (wf_table _ _ _ Hwf _ _ Hx)|]. by eapply head_not_collides, Hwf.
    + rewrite Hoth in Hx' by done. congruence.
  - intros n Hn. eapply caps_inert; [exact Hi'| |done|done]. rewrite Hb. by apply type_of_gen.
Qed.
End GiveFree.

(** ** Removing an entry from the tree *)

(** The fields of a space that the entry operations leave alone. *)
Definition same_header (sp sp' : ipc_space) : Prop :=
  is_self sp' = is_self sp /\ is_active sp' = is_active sp /\
  is_growing sp' = is_growing sp /\ is_references sp' = is_references sp /\
  is_table_size sp' = is_table_size sp /\ is_table_next sp' = is_table_next sp.

Lemma resplays_header sp sp' : resplays sp sp' -> same_header sp sp'.
Proof. by intros (tr & -> & _). Qed.

Lemma caps_delete t m name n :
  collisions_wf t m -> is_Some (m !! name) ->
  caps t (delete name m) n = if decide (n = name) then None else caps t m n.
Proof.
  intros Hc Hs. unfold caps. case_decide as Hn.
  - subst n. rewrite lookup_delete_eq. cbn. destruct (aget t _) as [e|] eqn:E; [|done].
    rewrite (proj2 (Z.eqb_neq _ _)); [done|]. by apply (Hc _ _ E).
  - by rewrite lookup_delete_ne by congruence.
Qed.

Section DeleteTree.
Variables (st : kstate) (name : Z) (te : ipc_tree_entry).
Hypothesis Hwf : space_wf its (Some (InTree name)) st.
Let sp := k_space st.
Let t := is_table sp.
Let m := tree_map sp.
Hypothesis Hte : m !! name = Some te.
Let index := MACH_PORT_INDEX name.

Lemma collides_delete_other k : k <> index -> collides (delete name m) k <-> collides m k.
Proof using All.
  intros Hk. rewrite <- (insert_delete_id m name te Hte) at 2. rewrite collides_insert.
  fold index. naive_solver.
Qed.

Lemma delete_live t' ref obj :
  (forall o, live_send (Some (InTree name)) t' m ref o <-> live_send (Some (InTree name)) t m ref o) ->
  live_send None t' (delete name m) ref obj <-> live_send (Some (InTree name)) t m ref obj.
Proof using All.
  intros H. rewrite <- H. unfold live_send. destruct ref as [k|n]; cbn; [naive_solver|].
  destruct (decide (n = name)) as [->|Hn].
  - rewrite lookup_delete_eq. naive_solver.
  - rewrite lookup_delete_ne by congruence. naive_solver.
Qed.

(** The space [sp'] left by the deletion. *)
Lemma delete_tree_wf sp' :
  same_header sp sp' -> is_tree_hash sp' = is_tree_hash sp ->
  splay_wf (is_tree sp') -> tree_map sp' = delete name m ->
  is_tree_total sp' = is_tree_total sp - 1 ->
  is_tree_small sp' = small_count (is_table_size sp) (next_size its sp) (delete name m) ->
  same_slots t (is_table sp') -> (forall i, object_of (is_table sp') i = object_of t i) ->
  (forall open, table_wf open t -> table_wf open (is_table sp')) ->
  (forall open, free_wf open t -> free_wf open (is_table sp')) ->
  collisions_wf (is_table sp') (delete name m) ->
  (forall open ref obj, live_send open (is_table sp') m ref obj <-> live_send open t m ref obj) ->
  space_wf its None (mk_kstate sp' (k_ghash st)).
Proof using All.
  intros (Hse & Hac & _ & _ & Hsz & Hnx) Hhash Hsw Hm Hto Hsm Hsl Hob Hta Hfr Hco Hli.
  assert (forall ref obj, live_send None (is_table sp') (delete name m) ref obj <->
    live_send (Some (InTree name)) t m ref obj) as Hlive.
  { intros ref obj. apply delete_live. by intros; apply Hli. }
  assert (table_wf None t) as Ht0.
  { intros i x Hx. destruct (wf_table _ _ _ Hwf _ _ Hx) as (? & ? & H). split_and!; try done. intros; by apply H. }
  assert (free_wf None t) as Hf0.
  { destruct (wf_free _ _ _ Hwf) as (l & ? & ? & H). exists l. split_and!; try done. intros i.
    rewrite H. unfold is_free. naive_solver. }
  constructor; cbn; rewrite ?Hm, ?Hse, ?Hsz; try done.
  - by rewrite Hac; apply (wf_active _ _ _ Hwf).
  - unfold sizes_wf. rewrite Hsz, Hnx. destruct (wf_sizes _ _ _ Hwf) as (Hl & ?). split; [|done].
    fold sp t in Hl. destruct Hsl as [? _]. congruence.
  - by apply Hta.
  - by apply Hfr.
  - intros n x. destruct (decide (n = name)) as [->|Hn]; [by rewrite lookup_delete_eq|].
    rewrite lookup_delete_ne by congruence. intros Hx.
    destruct (wf_tree _ _ _ Hwf _ _ Hx) as (? & ? & ? & Ho). split_and!; try done.
    intros Hz. apply Ho in Hz. congruence.
  - rewrite Hto. rewrite (wf_total _ _ _ Hwf : is_tree_total sp = Z.of_nat (base.size m)).
    rewrite map_size_delete_Some by by rewrite Hte.
    enough (base.size m <> 0%nat) by lia. intros Hz%map_size_empty_inv.
    pose proof Hte as Hx. rewrite Hz in Hx. by rewrite lookup_empty in Hx.
  - rewrite Hsm. unfold next_size. by rewrite Hnx.
  - eapply same_slots_wf; [exact Hsl| |apply (wf_local _ _ _ Hwf)]. by intros; apply Hob.
  - eapply hashed_ok_transfer; [exact Hlive| |apply (wf_hashed _ _ _ Hwf)].
    intros i. by apply same_slots_hashed.
  - apply (wf_ghash _ _ _ Hwf).
  - eapply ghashed_ok_transfer; [exact Hlive|apply (wf_ghashed _ _ _ Hwf)].
  - rewrite Hhash. rewrite (tree_sends_transfer _ _ _ _ _ _ Hlive). apply (wf_hash _ _ _ Hwf).
  - eapply sends_wf_transfer; [exact Hlive|apply (wf_sends _ _ _ Hwf)].
Qed.

Lemma table_collision_clear e :
  aget t index = Some e -> Z.land (ie_bits e) IE_BITS_COLLISION <> 0 /\ IE_BITS_TYPE (ie_bits e) <> 0.
Proof using All.
  intros He. assert (Z.land (ie_bits e) IE_BITS_COLLISION <> 0) as Hc.
  { apply (wf_collisions _ _ _ Hwf _ _ He). exists name. by rewrite (Hte : tree_map (k_space st) !! _ = _). }
  split; [done|]. intros H0. destruct (wf_table _ _ _ Hwf _ _ He) as (_ & _ & Hg).
  destruct (Hg H0) as [Hg' _]; [done|]. by apply Hc, collision_of_gen.
Qed.

(** The collision bit is cleared when no other entry has the index. *)
Lemma delete_recollide e b' :
  aget t index = Some e ->
  b' = (if decide (collides (delete name m) index) then ie_bits e else Z.ldiff (ie_bits e) IE_BITS_COLLISION) ->
  let t' := aset t index (set_bits b' e) in
  same_slots t t' /\ (forall i, object_of t' i = object_of t i) /\
  (forall open, table_wf open t -> table_wf open t') /\
  (forall open, free_wf open t -> free_wf open t') /\
  collisions_wf t' (delete name m) /\
  (forall open ref obj, live_send open t' m ref obj <-> live_send open t m ref obj) /\
  (forall m' n, caps t' m' n = caps t m' n).
Proof using All.
  intros He Hb'. destruct (table_collision_clear e He) as [Hc Ht].
  destruct (wf_table _ _ _ Hwf _ _ He) as (Hu & _).
  destruct (wf_collisions _ _ _ Hwf _ _ He) as [_ Hg].
  assert (is_u32 b' /\ IE_BITS_TYPE b' = IE_BITS_TYPE (ie_bits e) /\
    IE_BITS_RIGHT b' = IE_BITS_RIGHT (ie_bits e) /\ IE_BITS_GEN b' = IE_BITS_GEN (ie_bits e) /\
    (Z.land b' IE_BITS_COLLISION <> 0 <-> collides (delete name m) index)) as (H1 & H2 & H3 & H4 & H5).
  { rewrite Hb'. case_decide; [tauto|]. autorewrite with iebits; try exact PC. split_and!; try done;
      first [by apply is_u32_ldiff|tauto]. }
  assert (forall n, is_Some (delete name m !! n) -> is_Some (m !! n)) as Hsub.
  { intros n [x Hx]. apply lookup_delete_Some in Hx as [_ ->]. done. }
  split_and!.
  - by eapply recollide_slots.
  - intros i. by eapply recollide_object.
  - intros open Ho. eapply recollide_table; eauto.
  - intros open Ho. by eapply recollide_free.
  - eapply recollide_collisions with (m := m); eauto.
    + apply (wf_collisions _ _ _ Hwf).
    + intros k Hk. by apply collides_delete_other.
  - intros. by eapply recollide_live.
  - intros. by eapply recollide_caps.
Qed.

Definition tree_dealloc (s : ipc_space) : option ipc_space :=
  LET sp1 <- dealloc_tree s name ;; dealloc_small its sp1 name.

Definition tree_dealloc_post (sp2 : ipc_space) : Prop :=
  space_wf its None (mk_kstate sp2 (k_ghash st)) /\ same_header sp sp2 /\
  (forall n, space_caps sp2 n = if decide (n = name) then None else space_caps sp n).

Lemma tree_dealloc_low tr :
  splay_wf tr -> splay_map tr = delete name m -> index < is_table_size sp ->
  let sp1 := sp_set_total (is_tree_total sp - 1) (sp_set_tree tr sp) in
  exists ientry sp2 b, aget t index = Some ientry /\
    negb (Z.land (ie_bits ientry) IE_BITS_COLLISION =? 0) = true /\
    ipc_entry_tree_collision sp1 name = Some (sp2, b) /\
    tree_dealloc_post (if negb b
      then sp_set_table (aset (is_table sp2) index
             (set_bits (Z.ldiff (ie_bits ientry) IE_BITS_COLLISION) ientry)) sp2
      else sp2) /\ is_table sp2 = t /\ is_table_size sp2 = is_table_size sp.
Proof using All.
  intros Hw Hmap Hlt sp1. destruct (size_range _ _ Hwf) as [_ Hl]. fold sp t in Hl.
  destruct (wf_tree _ _ _ Hwf _ _ Hte) as ((? & ? & Hpos) & _). fold index in Hpos.
  destruct (aget_is_Some t index) as [e He]; [lia|]. exists e.
  destruct (table_collision_clear e He) as [Hc _].
  destruct (tree_collision_correct (is_self sp) None sp1 name) as (sp2 & b & Heq & Hrs & Hb).
  { apply (wf_active _ _ _ Hwf). } { done. }
  { unfold tree_map. cbn. rewrite Hmap. intros n x [Hn Hx]%lookup_delete_Some.
    destruct (wf_tree _ _ _ Hwf _ _ Hx) as (? & ? & ? & Ho). split_and!; try done.
    intros Hz. apply Ho in Hz. congruence. }
  exists sp2, b. split; [done|]. split; [by apply negb_true_iff, Z.eqb_neq|]. split; [done|].
  assert (tree_map sp1 = delete name m) as Hm1 by done. rewrite Hm1 in Hb. fold index in Hb.
  pose proof (resplays_map _ _ Hrs) as Hm2. rewrite Hm1 in Hm2.
  destruct Hrs as (tr2 & -> & Hw2 & _). split; [|done]. cbn.
  set (b' := if decide (collides (delete name m) index) then ie_bits e else Z.ldiff (ie_bits e) IE_BITS_COLLISION).
  destruct (delete_recollide e b' He eq_refl) as (Hs & Ho & Hta & Hfr & Hco & Hli & Hca).
  set (spf := if negb b then _ else _).
  assert (is_table spf = aset t index (set_bits b' e)) as Htf.
  { unfold spf, b'. destruct b; cbn.
    - rewrite decide_True by by apply Hb. symmetry. apply aset_id.
      transitivity (Some e); [exact He|by destruct e].
    - rewrite decide_False; [done|]. intros ?%Hb. done. }
  assert (tree_map spf = delete name m) as Hmf by (unfold spf; by destruct b).
  assert (same_header sp spf) as Hhd by (unfold spf; by destruct b).
  split_and!; [|done|].
  - apply delete_tree_wf; rewrite ?Htf; try done; try (unfold spf; by destruct b).
    enough (is_tree_small spf = is_tree_small sp) as ->.
    { etransitivity; [apply (wf_small _ _ _ Hwf)|]. fold sp m. rewrite (small_count_delete _ _ _ _ _ Hte).
      rewrite decide_False; [lia|]. fold index. lia. }
    unfold spf. by destruct b.
  - intros n. unfold space_caps. rewrite Hmf, Htf, Hca.
    rewrite (caps_delete t m name n (wf_collisions _ _ _ Hwf)); [done|]. by rewrite Hte.
Qed.

Lemma tree_dealloc_high tr :
  splay_wf tr -> splay_map tr = delete name m -> is_table_size sp <= index ->
  exists sp2, dealloc_small its (sp_set_total (is_tree_total sp - 1) (sp_set_tree tr sp)) name = Some sp2 /\
    tree_dealloc_post sp2.
Proof using All.
  intros Hw Hmap Hge. set (sp1 := sp_set_total _ _).
  destruct (size_range _ _ Hwf) as [_ Hl]. fold sp t in Hl.
  destruct (wf_sizes _ _ _ Hwf) as (_ & _ & [ns Hns]). fold sp in Hns.
  assert (next_size its sp = ns) as Hnx by (unfold next_size; by rewrite Hns).
  pose proof (small_count_delete (is_table_size sp) ns _ _ _ Hte) as Hsc. fold index in Hsc.
  pose proof (wf_small _ _ _ Hwf) as Hsm. fold sp m in Hsm. rewrite Hnx in Hsm.
  assert (tree_map sp1 = delete name m) as Hm1 by done.
  assert (forall sp2, same_header sp sp2 -> is_tree_hash sp2 = is_tree_hash sp ->
    splay_wf (is_tree sp2) -> tree_map sp2 = delete name m -> is_table sp2 = t ->
    is_tree_total sp2 = is_tree_total sp - 1 ->
    is_tree_small sp2 = small_count (is_table_size sp) ns (delete name m) ->
    tree_dealloc_post sp2) as Hpost.
  { intros sp2 Hh Hhash Hw2 Hm2 Ht2 Hto Hs2. split_and!; [|done|].
    - apply delete_tree_wf; rewrite ?Ht2, ?Hnx; try done.
      intros k e He. pose proof (aget_Some_range _ _ _ He).
      destruct (wf_collisions _ _ _ Hwf _ _ He) as [H1 H2]. split.
      + rewrite H1. symmetry. apply collides_delete_other. lia.
      + intros n [x Hx]. apply lookup_delete_Some in Hx as [_ Hx]. apply H2. by exists x.
    - intros n. unfold space_caps. rewrite Hm2, Ht2.
      rewrite (caps_delete t m name n (wf_collisions _ _ _ Hwf)); [done|]. by rewrite Hte. }
  unfold dealloc_small. change (is_table_size sp1) with (is_table_size sp).
  change (is_table_next sp1) with (is_table_next sp). fold index.
  rewrite (proj2 (Z.ltb_ge index (is_table_size sp)) Hge), Hns.
  destruct (Z.ltb_spec index ns).
  2:{ exists sp1. split; [done|]. apply Hpost; try done. cbn. rewrite Hsm, Hsc, decide_False; lia. }
  destruct (tree_collision_correct (is_self sp) None sp1 name) as (sp2 & b & -> & Hrs & Hb).
  { apply (wf_active _ _ _ Hwf). } { done. }
  { rewrite Hm1. intros n x [Hn Hx]%lookup_delete_Some.
    destruct (wf_tree _ _ _ Hwf _ _ Hx) as (? & ? & ? & Ho). split_and!; try done.
    intros Hz. apply Ho in Hz. congruence. }
  rewrite Hm1 in Hb. fold index in Hb. pose proof (resplays_map _ _ Hrs) as Hm2. rewrite Hm1 in Hm2.
  destruct Hrs as (tr2 & -> & Hw2 & _). destruct b; cbn [negb].
  - eexists. split; [done|]. apply Hpost; try done. cbn. rewrite Hsm, Hsc, decide_False; [lia|].
    pose proof (proj1 Hb eq_refl). tauto.
  - assert (~ collides (delete name m) index) as Hnc by (intros ?%Hb; done).
    rewrite decide_True in Hsc by (split; [lia|done]).
    cbn. fold sp. rewrite Hsm, Hsc. 
    assert (0 <= small_count (is_table_size sp) ns (delete name m)) by (unfold small_count; lia).
    rewrite (proj2 (Z.ltb_lt _ _)) by lia. eexists. split; [done|]. apply Hpost; try done. cbn. lia.
Qed.

Lemma tree_dealloc_correct : exists sp2, tree_dealloc sp = Some sp2 /\ tree_dealloc_post sp2.
Proof using All.
  unfold tree_dealloc, dealloc_tree. fold (tree_map sp) m. rewrite Hte.
  destruct (wf_tree _ _ _ Hwf _ _ Hte) as (_ & _ & -> & _). fold sp. rewrite Z.eqb_refl.
  destruct (ipc_splay_tree_delete_correct (is_tree sp) name te) as (tr & -> & Hw & Hmap);
    [apply (wf_splay _ _ _ Hwf)|done|].
  fold (tree_map sp) m in Hmap. fold index. cbn [is_table_size sp_set_total sp_set_tree is_table].
  assert (0 < is_tree_total sp) as Hto.
  { pose proof (wf_total _ _ _ Hwf) as Hto. fold sp m in Hto. rewrite Hto.
    enough (base.size m <> 0%nat) by lia. intros Hz%map_size_empty_inv.
    pose proof Hte as Hx. rewrite Hz in Hx. by rewrite lookup_empty in Hx. }
  rewrite (proj2 (Z.ltb_lt _ _) Hto). destruct (Z.ltb_spec index (is_table_size sp)) as [Hlt|Hge].
  - destruct (tree_dealloc_low tr Hw Hmap Hlt) as (e & sp2 & b & He & Hc & Heq & Hp & Ht & Hsz).
    fold t. rewrite He, Hc, Heq. exists (if negb b then sp_set_table (aset (is_table sp2) index
      (set_bits (Z.ldiff (ie_bits e) IE_BITS_COLLISION) e)) sp2 else sp2).
    split; [|done]. unfold dealloc_small. fold index.
    destruct b; cbn [negb]; [|rewrite Ht, (table_upd_Some _ _ _ _ He)]; cbn [is_table_size sp_set_table];
      by rewrite Hsz, (proj2 (Z.ltb_lt _ _) Hlt).
  - by apply tree_dealloc_high.
Qed.
End DeleteTree.

(** ** Moving a colliding entry from the tree to the table *)

Section DeallocCollision.
Variables (st : kstate) (i : Z) (e : ipc_entry).
Hypothesis Hwf : space_wf its (Some (InTable i)) st.
Let sp := k_space st.
Let t := is_table sp.
Let m := tree_map sp.
Hypothesis Hent : aget t i = Some e.
Hypothesis Hcoll : Z.land (ie_bits e) IE_BITS_COLLISION <> 0.

Lemma collision_index : 0 < i < alen t /\ is_index i /\ is_index (i + 1).
Proof using All.
  pose proof (wf_open _ _ _ Hwf) as Hi. cbn in Hi. fold sp t in Hi.
  destruct (size_range _ _ Hwf) as [Hs Hl]. fold sp t in Hs, Hl. unfold is_index. lia.
Qed.

(** The elements with index [i] are a segment of the tree. *)
Lemma collision_segment tree small coll :
  splay_elems (is_tree sp) = splay_elems small ++ splay_elems coll ++ splay_elems tree ->
  Forall (fun p => MACH_PORT_INDEX p.1 < i) (splay_elems small) ->
  Forall (fun p => i <= MACH_PORT_INDEX p.1 < i + 1) (splay_elems coll) ->
  Forall (fun p => i + 1 <= MACH_PORT_INDEX p.1) (splay_elems tree) ->
  forall l1 tname te l2, splay_elems coll = l1 ++ (tname, te) :: l2 ->
  m !! tname = Some te /\ MACH_PORT_INDEX tname = i /\
  keys_sorted (splay_elems small ++ (l1 ++ l2) ++ splay_elems tree) /\
  list_to_map (splay_elems small ++ (l1 ++ l2) ++ splay_elems tree) = delete tname m /\
  (collides (delete tname m) i <-> l1 ++ l2 <> []).
Proof using All.
  intros He Hs Hc Ht l1 n te l2 Hel. rewrite Hel in He, Hc.
  pose proof (splay_wf_sorted _ (wf_splay _ _ _ Hwf)) as Hso. fold sp in Hso.
  assert (splay_elems (is_tree sp) = (splay_elems small ++ l1) ++ (n, te) :: l2 ++ splay_elems tree) as He'.
  { rewrite He. by app_norm. }
  rewrite He' in Hso. assert (delete n m = list_to_map ((splay_elems small ++ l1) ++ l2 ++ splay_elems tree)) as Hd.
  { rewrite (keys_mid_delete n te) by done. unfold m, tree_map, splay_map. by rewrite He'. }
  replace (splay_elems small ++ (l1 ++ l2) ++ splay_elems tree)
    with ((splay_elems small ++ l1) ++ l2 ++ splay_elems tree) by (by app_norm).
  split_and!.
  - unfold m, tree_map, splay_map. rewrite He'. apply elem_of_list_to_map; [by apply keys_sorted_NoDup|].
    set_solver.
  - apply Forall_app in Hc as [_ [? _]%Forall_cons]. cbn in *. lia.
  - by eapply keys_sorted_drop_mid.
  - done.
  - assert (NoDup ((splay_elems small ++ l1) ++ l2 ++ splay_elems tree).*1) as Hnd
      by (by eapply keys_sorted_NoDup, keys_sorted_drop_mid).
    unfold collides. rewrite Hd. split.
    + intros (n' & [x Hx] & Hi) Hnil. apply elem_of_list_to_map in Hx; [|done].
      apply app_eq_nil in Hnil as [-> ->]. cbn in Hx.
      rewrite app_nil_r in Hx. apply elem_of_app in Hx as [Hx|Hx]; rewrite Forall_forall in Hs, Ht.
      * specialize (Hs _ Hx). cbn in Hs. lia.
      * specialize (Ht _ Hx). cbn in Ht. lia.
    + intros Hne. destruct (l1 ++ l2) as [|[n' x] l] eqn:El; [done|].
      assert ((n', x) ∈ l1 ++ l2) as Hin by (rewrite El; set_solver).
      exists n'. split.
      * exists x. apply elem_of_list_to_map; [done|]. set_solver.
      * rewrite Forall_app, Forall_cons in Hc. destruct Hc as (Hc1 & _ & Hc2).
        rewrite Forall_forall in Hc1, Hc2.
        apply elem_of_app in Hin as [Hin|Hin]; [specialize (Hc1 _ Hin)|specialize (Hc2 _ Hin)];
          cbn in *; lia.
Qed.

(** The tree operations of the collision case. *)
Lemma collision_tree :
  exists tree coll0 small coll tname te coll' more,
    ipc_splay_tree_split (is_tree sp) (MACH_PORT_MAKE (i + 1) 0) (is_tree sp) = Some (tree, coll0) /\
    ipc_splay_tree_split coll0 (MACH_PORT_MAKE i 0) coll0 = Some (coll, small) /\
    ipc_splay_tree_pick coll = Some (tname, te) /\
    m !! tname = Some te /\ MACH_PORT_INDEX tname = i /\
    ipc_splay_tree_delete coll tname = Some coll' /\
    match ipc_splay_tree_pick coll' with Some _ => more = true | None => more = false end /\
    (more = true <-> collides (delete tname m) i) /\
    exists tree' trf x y, (if more then ipc_splay_tree_join tree coll' else Some (tree, coll')) = Some (tree', x) /\
      ipc_splay_tree_join tree' small = Some (trf, y) /\
      splay_wf trf /\ splay_map trf = delete tname m.
Proof using All.
  destruct collision_index as (Hi & Hx & Hx1).
  pose proof (wf_splay _ _ _ Hwf) as Hw. fold sp in Hw.
  pose proof (tree_wf_names _ _ _ Hw (wf_tree _ _ _ Hwf)) as Hnu. fold sp in Hnu.
  destruct (split_index (is_tree sp) (is_tree sp) (i + 1) Hw Hnu Hx1)
    as (tree & coll0 & Heq1 & Hwt & Hw0 & _ & Hnu0 & He0 & Hlt0 & Hge0).
  destruct (split_index coll0 coll0 i Hw0 Hnu0 Hx)
    as (coll & small & Heq2 & Hwc & Hws & _ & _ & He1 & Hlt1 & Hge1).
  rewrite He1 in He0, Hlt0. rewrite <- app_assoc in He0. apply Forall_app in Hlt0 as [_ Hlt0].
  assert (Forall (fun p => i <= MACH_PORT_INDEX p.1 < i + 1) (splay_elems coll)) as Hc.
  { rewrite Forall_forall in *. intros p Hp. specialize (Hlt0 p Hp). specialize (Hge1 p Hp). cbn in *. lia. }
  pose proof (collision_segment tree small coll He0 Hlt1 Hc Hge0) as Hseg.
  pose proof (ipc_splay_tree_pick_correct coll Hwc) as Hpick.
  destruct (ipc_splay_tree_pick coll) as [[tname te]|] eqn:Ep.
  2:{ exfalso. apply (wf_collisions _ _ _ Hwf _ _ Hent) in Hcoll as (n & [x Hnx] & Hni).
      apply (elem_of_list_to_map_2 (M := gmap Z)) in Hnx. fold sp in Hnx. rewrite He0, Hpick in Hnx. cbn in Hnx.
      rewrite Forall_forall in Hlt1, Hge0. apply elem_of_app in Hnx as [Hnx|Hnx].
      - specialize (Hlt1 _ Hnx). cbn in Hlt1. lia.
      - specialize (Hge0 _ Hnx). cbn in Hge0. lia. }
  destruct (ipc_splay_tree_delete_correct coll tname te Hwc Hpick) as (coll' & Hdel & Hwc' & Hmc').
  destruct (splay_delete_elems coll coll' tname te Hwc Hwc' Hpick Hmc') as (l1 & l2 & Hl & Hl').
  destruct (Hseg l1 tname te l2 Hl) as (Hmn & Hin & Hso & Hmap & Hco).
  exists tree, coll0, small, coll, tname, te, coll',
    (match ipc_splay_tree_pick coll' with Some _ => true | None => false end).
  do 6 (split; [done|]). rewrite <- Hl' in Hso, Hmap, Hco.
  pose proof (ipc_splay_tree_pick_correct coll' Hwc') as Hpick'. rewrite Hco.
  destruct (ipc_splay_tree_pick coll') as [[n' x']|] eqn:Ep'.
  - split; [done|]. split.
    { split; [|done]. intros _ Hnil. unfold splay_map in Hpick'. by rewrite Hnil in Hpick'. }
    pose proof Hso as (_ & Hso2 & _)%keys_sorted_app.
    destruct (join_index tree coll' Hwt Hwc' Hso2) as (tree' & x & Hj1 & Hwt' & Het').
    rewrite <- Het' in Hso. destruct (join_index tree' small Hwt' Hws Hso) as (trf & y & Hj2 & Hwf' & Hef).
    exists tree', trf, x, y. split_and!; try done. unfold splay_map. by rewrite Hef, Het'.
  - split; [done|]. split; [split; [done|by rewrite Hpick']|]. rewrite Hpick' in Hso, Hmap. cbn [app] in Hso, Hmap.
    destruct (join_index tree small Hwt Hws Hso) as (trf & y & Hj2 & Hwf' & Hef).
    exists tree, trf, coll', y. split_and!; try done. unfold splay_map. by rewrite Hef.
Qed.

(** The table after the move: [tn] and [te] are the entry moved, [b'] its bits. *)
Section Moved.
Variables (tn b' : Z) (te : ipc_tree_entry) (t3 : list ipc_entry) (e3 : ipc_entry).
Hypothesis Hte : m !! tn = Some te.
Hypothesis Htn : MACH_PORT_INDEX tn = i.
Hypothesis Hlen3 : alen t3 = alen t.
Hypothesis Hget3 : aget t3 i = Some e3.
Hypothesis Hbits3 : ie_bits e3 = b'.
Hypothesis Hcap3 : entry_cap e3 = tentry_cap te.
Hypothesis Hrest3 : forall k, k <> i -> set_index 0 <$> aget t3 k = set_index 0 <$> aget t k.
Hypothesis Hu32 : is_u32 b'.
Hypothesis Hgen' : IE_BITS_GEN b' = MACH_PORT_GEN tn.
Hypothesis Htype' : IE_BITS_TYPE b' = IE_BITS_TYPE (ite_bits te).
Hypothesis Hcoll' : Z.land b' IE_BITS_COLLISION <> 0 <-> collides (delete tn m) i.

Lemma moved_rest k x : k <> i -> aget t3 k = Some x ->
  exists y, aget t k = Some y /\ ie_bits x = ie_bits y /\ ie_object x = ie_object y /\ ie_request x = ie_request y.
Proof using All.
  intros Hk Hx. specialize (Hrest3 k Hk). rewrite Hx in Hrest3. cbn in Hrest3.
  destruct (aget t k) as [y|]; [|done]. injection Hrest3 as ? ? ?. by exists y.
Qed.

Lemma moved_type : IE_BITS_TYPE b' <> 0.
Proof using All.
  rewrite Htype'. destruct (wf_tree _ _ _ Hwf _ _ Hte) as (_ & _ & _ & Ht). intros Hz.
  apply Ht in Hz. congruence.
Qed.

Lemma moved_table : table_wf None t3.
Proof using All.
  intros k x Hx. destruct (decide (k = i)) as [->|Hk].
  - rewrite Hget3 in Hx. injection Hx as <-. unfold entry_wf. rewrite Hbits3.
    pose proof moved_type. destruct collision_index as [? _]. split_and!; try done; lia.
  - destruct (moved_rest k x Hk Hx) as (y & Hy & Hb & Ho & _).
    destruct (wf_table _ _ _ Hwf _ _ Hy) as (? & ? & Hf). unfold entry_wf. rewrite Hb, Ho.
    split_and!; try done. intros Hz _. apply Hf; [done|congruence].
Qed.

Lemma moved_free : free_wf None t3.
Proof using All.
  destruct (wf_free _ _ _ Hwf) as (l & Hc & Hnd & Hf). fold sp t in Hc, Hf.
  assert (~ i ∈ l) as Hil by (rewrite Hf; intros (_ & ? & _); done).
  destruct collision_index as [Hi _]. exists l. split_and!; [|done|].
  - eapply free_chain_frame; [done|]. intros j Hj.
    assert (j <> i) as Hji by (destruct Hj as [->|Hj]; [lia|congruence]).
    pose proof (Hrest3 j Hji) as Hr. destruct (aget t3 j), (aget t j); cbn in *; try done.
    unfold set_index in Hr. unfold ie_next. congruence.
  - intros k. rewrite Hf. unfold is_free. destruct (decide (k = i)) as [->|Hk].
    + split; [intros (_ & ? & _); done|]. intros (_ & _ & x & Hx & Ht).
      rewrite Hget3 in Hx. injection Hx as <-. rewrite Hbits3 in Ht. by apply moved_type in Ht.
    + pose proof (Hrest3 k Hk) as Hr. split.
      * intros (? & _ & x & Hx & Ht). split_and!; [done|done|]. rewrite Hx in Hr.
        destruct (aget t3 k) as [y|]; [|done]. exists y. split; [done|]. cbn in Hr.
        unfold set_index in Hr. congruence.
      * intros (? & _ & x & Hx & Ht). split_and!; [done|congruence|].
        destruct (moved_rest k x Hk Hx) as (y & Hy & Hb & _). exists y. split; [done|congruence].
Qed.

Lemma moved_collisions : collisions_wf t3 (delete tn m).
Proof using All.
  intros k x Hx. destruct (decide (k = i)) as [->|Hk].
  - rewrite Hget3 in Hx. injection Hx as <-. unfold collision_wf. rewrite Hbits3.
    split; [done|]. intros n [y Hn] Hni Hg.
    apply lookup_delete_Some in Hn as [Hne _]. apply Hne. symmetry. apply index_gen_inj; congruence.
  - destruct (moved_rest k x Hk Hx) as (y & Hy & Hb & _).
    destruct (wf_collisions _ _ _ Hwf _ _ Hy) as [H1 H2]. unfold collision_wf. rewrite Hb. split.
    + rewrite H1. fold sp m. rewrite <- (insert_delete_id m tn te Hte) at 1. rewrite collides_insert.
      rewrite Htn. naive_solver.
    + intros n [z Hn]. apply lookup_delete_Some in Hn as [_ Hn]. apply H2. by exists z.
Qed.

Lemma moved_tree : tree_wf (is_self sp) None (delete tn m).
Proof using All.
  intros n x [Hn Hx]%lookup_delete_Some. destruct (wf_tree _ _ _ Hwf _ _ Hx) as (? & ? & ? & Ht).
  split_and!; try done. intros Hz. apply Ht in Hz. congruence.
Qed.

Lemma moved_caps name n :
  MACH_PORT_INDEX name = i -> MACH_PORT_GEN name = IE_BITS_GEN (ie_bits e) ->
  caps t3 (delete tn m) n = if decide (n = name) then None else caps t m n.
Proof using All.
  intros Hni Hng. pose proof (wf_collisions _ _ _ Hwf _ _ Hent) as [_ Hg]. fold sp m in Hg.
  pose proof (Hg tn ltac:(by rewrite Hte) Htn) as Hgt.
  destruct (decide (MACH_PORT_INDEX n = i)) as [Hi|Hi].
  - unfold caps. rewrite Hi, Hget3, Hent, Hbits3, Hgen'.
    destruct (Z.eqb_spec (MACH_PORT_GEN tn) (MACH_PORT_GEN n)) as [E|E].
    + assert (n = tn) as -> by (apply index_gen_inj; congruence).
      rewrite decide_False by congruence. rewrite (proj2 (Z.eqb_neq _ _)) by done. rewrite Hte. done.
    + rewrite lookup_delete_ne by congruence. case_decide as Hd.
      * subst n. destruct (m !! name) as [x|] eqn:Ex; [|done].
        destruct (Hg name); [by rewrite Ex|done|done].
      * rewrite (proj2 (Z.eqb_neq _ (MACH_PORT_GEN n))); [done|]. intros Heq. apply Hd.
        apply index_gen_inj; congruence.
  - rewrite decide_False by congruence. unfold caps. rewrite lookup_delete_ne by congruence.
    specialize (Hrest3 _ Hi). destruct (aget t3 (MACH_PORT_INDEX n)) as [x|], (aget t (MACH_PORT_INDEX n)) as [y|];
      cbn in Hrest3; try done. injection Hrest3 as Hb Ho Hr. unfold entry_cap. by rewrite Hb, Ho, Hr.
Qed.
End Moved.

(** The new entry, with or without a collision bit. *)
Lemma moved_bits te tn (more : bool) :
  m !! tn = Some te ->
  let b := Z.lor (ite_bits te) (MACH_PORT_GEN tn) in
  let b' := if more then Z.lor b IE_BITS_COLLISION else b in
  is_u32 b' /\ IE_BITS_GEN b' = MACH_PORT_GEN tn /\ IE_BITS_TYPE b' = IE_BITS_TYPE (ite_bits te) /\
  IE_BITS_RIGHT b' = IE_BITS_RIGHT (ite_bits te) /\
  (Z.land b' IE_BITS_COLLISION <> 0 <-> more = true).
Proof using All.
  intros Hte. destruct (wf_tree _ _ _ Hwf _ _ Hte) as (_ & Hr & _).
  pose proof (is_gen_port tn) as Hg. assert (is_u32 (ite_bits te)) as Hu.
  { rewrite <- Hr. unfold IE_BITS_RIGHT. rewrite Z.land_comm. by apply is_u32_land. }
  pose proof (is_u32_lor _ _ Hu (is_gen_u32 _ Hg)) as Hb. destruct more; cbn zeta.
  - rewrite gen_set_collision, type_set_collision, right_set_collision, collision_set_collision.
    rewrite gen_lor_gen, type_lor_gen, right_lor_gen by done. split_and!; try done.
    by apply is_u32_lor.
  - rewrite gen_lor_gen, type_lor_gen, right_lor_gen, collision_lor_gen by done. done.
Qed.

Lemma collision_final tn te t2 h g trf (more : bool) e2 spf :
  m !! tn = Some te -> MACH_PORT_INDEX tn = i ->
  let t1 := aset t i (mk_entry (Z.lor (ite_bits te) (MACH_PORT_GEN tn)) (ite_object te)
                        (ite_request te) (ie_index e)) in
  let st2 := mk_kstate (sp_set_hash h (sp_set_table t2 sp)) g in
  same_entries t1 t2 -> aget t2 i = Some e2 ->
  (forall sp', moved_state st st2 sp' -> hash_wf None (delete tn m) (mk_kstate sp' g)) ->
  splay_wf trf -> splay_map trf = delete tn m ->
  (more = true <-> collides (delete tn m) i) ->
  spf = sp_set_tree trf (sp_set_table
          (if more then aset t2 i (set_bits (Z.lor (ie_bits e2) IE_BITS_COLLISION) e2) else t2)
          (sp_set_total (is_tree_total sp - 1) (sp_set_hash h (sp_set_table t2 sp)))) ->
  space_wf its None (mk_kstate spf g) /\
  forall name, MACH_PORT_INDEX name = i -> MACH_PORT_GEN name = IE_BITS_GEN (ie_bits e) ->
  forall n, space_caps spf n = if decide (n = name) then None else space_caps sp n.
Proof using All.
  intros Hte Htn t1 st2 Hse He2 Hhw Hwt Hmt Hmore ->.
  destruct collision_index as (Hi & _). destruct (moved_bits te tn more Hte) as (Hu & Hg & Hty & Hri & Hcb).
  set (b := Z.lor (ite_bits te) (MACH_PORT_GEN tn)) in *.
  set (b' := if more then Z.lor b IE_BITS_COLLISION else b) in *.
  assert (ie_bits e2 = b /\ ie_object e2 = ite_object te /\ ie_request e2 = ite_request te) as (Hb2 & Ho2 & Hr2).
  { destruct (same_entries_fields _ _ _ _ Hse He2) as (x & Hx & -> & -> & ->).
    unfold t1 in Hx. rewrite aget_aset_eq in Hx by lia. by injection Hx as <-. }
  set (e3 := set_bits b' e2).
  set (t3 := if more then _ else _).
  assert (t3 = aset t2 i e3) as Ht3.
  { unfold t3, e3, b'. rewrite Hb2. destruct more; [done|]. symmetry. apply aset_id. rewrite He2, <- Hb2.
    by destruct e2. }
  assert (alen t3 = alen t) as Hlen.
  { rewrite Ht3, alen_aset. destruct Hse as [-> _]. apply alen_aset. }
  assert (aget t3 i = Some e3) as Hget.
  { rewrite Ht3. apply aget_aset_eq. by apply (aget_Some_range _ _ _ He2). }
  assert (entry_cap e3 = tentry_cap te) as Hcap.
  { unfold entry_cap, tentry_cap, cap_of. cbn. by rewrite Hty, Hri, Ho2, Hr2. }
  assert (forall k, k <> i -> set_index 0 <$> aget t3 k = set_index 0 <$> aget t k) as Hrest.
  { intros k Hk. rewrite Ht3, aget_aset_ne by congruence. destruct Hse as [_ ->]. unfold t1.
    by rewrite aget_aset_ne by congruence. }
  assert (Z.land b' IE_BITS_COLLISION <> 0 <-> collides (delete tn m) i) as Hco by tauto.
  split.
  - assert (hash_wf None (delete tn m) (mk_kstate (sp_set_tree trf (sp_set_hash h (sp_set_table t2 sp))) g)) as Hh2.
    { by apply Hhw. }
    assert (hash_wf None (delete tn m) (mk_kstate (sp_set_tree trf (sp_set_table t3
      (sp_set_total (is_tree_total sp - 1) (sp_set_hash h (sp_set_table t2 sp))))) g)) as Hh3.
    { destruct (moved_bits te tn false Hte) as (_ & Hg0 & Hty0 & Hri0 & _). fold b in Hg0, Hty0, Hri0.
      rewrite <- Hb2 in Hg0, Hty0, Hri0.
      eapply hash_wf_transfer; [exact Hh2|..]; try done; cbn; rewrite Ht3.
      - by eapply same_slots_aset.
      - intros k _. eapply recollide_object; [exact He2|..]; try done; congruence.
      - intros ref obj. eapply recollide_live; [exact He2|..]; try done; congruence. }
    destruct Hh3 as [Hs3 Hl3 Hhs3 Hgw3 Hgh3 Hhc3 Hsd3]. cbn in *.
    assert (tree_map (sp_set_tree trf (sp_set_table t3
      (sp_set_total (is_tree_total sp - 1) (sp_set_hash h (sp_set_table t2 sp))))) = delete tn m) as Hm by done.

    constructor; cbn; rewrite ?Hm; try done.
    + apply (wf_active _ _ _ Hwf).
    + destruct (wf_sizes _ _ _ Hwf) as (Hl & ?). split; [|done]. cbn. fold sp t in Hl. congruence.
    + by eapply moved_table.
    + by eapply moved_free.
    + by eapply moved_tree.
    + by eapply moved_collisions.
    + rewrite (wf_total _ _ _ Hwf : is_tree_total sp = Z.of_nat (base.size m)).
      rewrite map_size_delete_Some by by rewrite Hte.
      enough (base.size m <> 0%nat) by lia. intros Hz%map_size_empty_inv.
      pose proof Hte as Hx. rewrite Hz in Hx. by rewrite lookup_empty in Hx.
    + etransitivity; [apply (wf_small _ _ _ Hwf)|]. fold sp m.
      rewrite (small_count_delete _ _ _ _ _ Hte), decide_False; [by rewrite Z.add_0_r|].
      destruct (size_range _ _ Hwf) as [_ Hl]. fold sp t in Hl. lia.
  - intros name Hn1 Hn2 n. change (caps t3 (splay_map trf) n = if decide (n = name) then None else caps t m n).
    rewrite Hmt. eapply moved_caps; eauto.
Qed.

Lemma dealloc_collision_correct name :
  MACH_PORT_INDEX name = i -> MACH_PORT_GEN name = IE_BITS_GEN (ie_bits e) ->
  exists st', dealloc_collision st i = Some st' /\ space_wf its None st' /\
    same_header sp (k_space st') /\ ghash_frame (is_self sp) (k_ghash st) (k_ghash st') /\
    (forall n, space_caps (k_space st') n = if decide (n = name) then None else space_caps sp n).
Proof using All.
  intros Hn1 Hn2. destruct collision_index as (Hi & _).
  destruct collision_tree as (tree & coll0 & small & coll & tn & te & coll' & more & Hs1 & Hs2 & Hp1 &
    Hte & Htn & Hdel & Hp2 & Hmore & tree' & trf & x & y & Hj1 & Hj2 & Hwt & Hmt).
  destruct (rehash_moved_correct (Some (InTable i)) None st m i tn e te) as (t2 & h & g & Hrm & Hse & Hfr & Hhw);
    try done; [by apply (space_wf_hash its)|lia|by intros ? [? _]|by apply (wf_tree _ _ _ Hwf _ _ Hte)|naive_solver|].
  assert (exists e2, aget t2 i = Some e2) as [e2 He2].
  { apply aget_is_Some. destruct Hse as [-> _]. rewrite alen_aset. fold sp t. lia. }
  set (spf := sp_set_tree trf (sp_set_table
    (if more then aset t2 i (set_bits (Z.lor (ie_bits e2) IE_BITS_COLLISION) e2) else t2)
    (sp_set_total (is_tree_total sp - 1) (sp_set_hash h (sp_set_table t2 sp))))).
  destruct (collision_final tn te t2 h g trf more e2 spf Hte Htn Hse He2 Hhw Hwt Hmt Hmore eq_refl)
    as [Hwf' Hcaps].
  assert (0 < is_tree_total sp) as Hto.
  { pose proof (wf_total _ _ _ Hwf) as Hto. fold sp m in Hto. rewrite Hto.
    enough (base.size m <> 0%nat) by lia. intros Hz%map_size_empty_inv.
    pose proof Hte as Hx. rewrite Hz in Hx. by rewrite lookup_empty in Hx. }
  exists (mk_kstate spf g).
  split; [|split_and!; [done|by destruct more|done|by apply Hcaps]].
  unfold dealloc_collision. fold sp t. rewrite Hs1, Hs2, Hp1, Htn, Z.eqb_refl.
  rewrite (table_upd_Some _ _ _ _ Hent). destruct (wf_tree _ _ _ Hwf _ _ Hte) as (_ & _ & -> & _).
  fold sp. rewrite Z.eqb_refl. cbn beta in Hrm |- *. 
  change (mk_kstate (sp_set_table _ sp) (k_ghash st)) with
    (on_space (sp_set_table (aset t i (mk_entry (Z.lor (ite_bits te) (MACH_PORT_GEN tn))
      (ite_object te) (ite_request te) (ie_index e)))) st).
  fold sp t in Hrm. rewrite Hrm, Hdel. cbn [k_space is_tree_total sp_set_hash sp_set_table].
  rewrite (proj2 (Z.ltb_lt _ _) Hto). unfold spf.
  destruct (ipc_splay_tree_pick coll'); subst more; cbn [on_space k_space is_table sp_set_total sp_set_hash sp_set_table].
  - rewrite (table_upd_Some _ _ _ _ He2), Hj1, Hj2. done.
  - injection Hj1 as <- <-. rewrite Hj2. done.
Qed.
End DeallocCollision.

(** ** ipc_entry_dealloc *)

Lemma ref_in_table_spec open st name ref :
  space_wf its open st -> ref_for (k_space st) name ref ->
  ref_in_table (k_space st) name ref = true <-> ref = InTable (MACH_PORT_INDEX name).
Proof using Hits.
  intros Hwf Hr. unfold ref_in_table. rewrite andb_true_iff, bool_decide_eq_true, Z.ltb_lt.
  split; [tauto|]. intros ->. split; [|done]. destruct Hr as [[_ (e & He & _)]|[? _]]; [|done].
  destruct (wf_sizes _ _ _ Hwf) as [<- _]. apply (aget_Some_range _ _ _ He).
Qed.

Lemma ipc_entry_dealloc_correct st name ref e :
  space_wf its (Some ref) st -> ref_for (k_space st) name ref ->
  get_entry (k_space st) ref = Some e -> ie_object e = IO_NULL -> ie_request e = 0 ->
  exists st', ipc_entry_dealloc its st name ref = Some st' /\ space_wf its None st' /\
    same_header (k_space st) (k_space st') /\
    ghash_frame (is_self (k_space st)) (k_ghash st) (k_ghash st') /\
    (forall n, space_caps (k_space st') n =
       if decide (n = name) then None else space_caps (k_space st) n).
Proof using Hits.
  intros Hwf Hr Hg Ho Hq. unfold ipc_entry_dealloc. rewrite (wf_active _ _ _ Hwf), Hg, Ho, Hq. cbn.
  pose proof (ref_in_table_spec _ _ _ _ Hwf Hr) as Hrt.
  destruct (ref_in_table _ _ _).
  - pose proof (proj1 Hrt eq_refl) as ->. clear Hrt. cbn in Hg.
    destruct Hr as [[_ (e' & He' & Hgen)]|[? _]]; [|done]. assert (e' = e) as -> by congruence.
    rewrite Hgen, Z.eqb_refl. destruct (Z.eqb_spec (Z.land (ie_bits e) IE_BITS_COLLISION) 0) as [Hc|Hc]; cbn [negb].
    + destruct (give_free_wf st _ e Hwf Hg Ho Hc) as (t' & -> & Hwf' & Hc1 & Hc2).
      eexists. split; [done|]. split_and!; try done. intros n. cbn. case_decide as Hn.
      * subst n. by apply Hc2.
      * destruct (decide (MACH_PORT_INDEX n = MACH_PORT_INDEX name)) as [Hi|Hi]; [|by apply Hc1].
        rewrite Hc2 by done. unfold space_caps, caps. rewrite Hi, Hg, (proj2 (Z.eqb_neq _ _)).
        -- by rewrite (no_collision_none _ _ _ n (wf_collisions _ _ _ Hwf _ _ Hg) Hc).
        -- intros Hgn. apply Hn, index_gen_inj; congruence.
    + apply (dealloc_collision_correct st _ e Hwf Hg Hc name); congruence.
  - destruct Hr as [[-> _]|[-> [te Hte]]]; [by pose proof (proj2 Hrt eq_refl)|].
    destruct (tree_dealloc_correct st name te Hwf Hte) as (sp2 & Heq & Hwf' & Hh & Hcaps).
    unfold tree_dealloc in Heq.
    destruct (dealloc_tree (k_space st) name) as [sp1|]; [|done]. rewrite Heq.
    eexists. split; [done|]. done.
Qed.

(** ** Allocation under a given name *)

(** The entry returned for [name]: an existing one, or a fresh one that the
    caller has to fill in. *)
Definition name_entry (sp : ipc_space) (name : Z) (ref : entry_ref) (st' : kstate) : Prop :=
  ref_for (k_space st') name ref /\
  (forall n, space_caps (k_space st') n = space_caps sp n) /\
  ((is_Some (space_caps sp name) /\ space_wf its None st') \/
   (space_caps sp name = None /\ space_wf its (Some ref) st' /\
    exists g, fresh_entry (k_space st') ref g /\ is_gen g)).

(** No entry for [name] can be in the table. *)
Definition table_miss (sp : ipc_space) (name : Z) : Prop :=
  forall e, aget (is_table sp) (MACH_PORT_INDEX name) = Some e ->
    IE_BITS_TYPE (ie_bits e) <> 0 /\ IE_BITS_GEN (ie_bits e) <> MACH_PORT_GEN name.

Lemma take_free_correct st i g :
  space_wf its None st -> is_free None (is_table (k_space st)) i -> is_gen g ->
  exists t', take_free (is_table (k_space st)) i g = Some t' /\
    space_wf its (Some (InTable i)) (on_space (sp_set_table t') st) /\
    (exists e', aget t' i = Some e' /\ ie_bits e' = g /\ ie_object e' = IO_NULL /\ ie_request e' = 0) /\
    (forall n, space_caps (sp_set_table t' (k_space st)) n = space_caps (k_space st) n).
Proof using Hits.
  intros Hwf Hf Hg. destruct (wf_free _ _ _ Hwf) as (l & Hc & Hnd & Hfr).
  pose proof (proj2 (Hfr i) Hf) as Hin. apply list_elem_of_split in Hin as (l1 & l2 & ->).
  pose proof Hnd as (_ & Hd & _)%NoDup_app.
  destruct (free_chain_mid _ _ _ _ _ Hc) as (ep & Hep & Hnext & _ & Hc').
  destruct (free_chain_head _ _ _ Hc') as (e & He & _).
  destruct (take_free_facts st l1 l2 i g e ep) as (_ & Hpi & _ & _ & Ho & Hi); try done.
  destruct (take_free_wf st l1 l2 i g e ep) as [Hwf' Hcaps]; try done.
  unfold take_free. rewrite (find_free_link_correct _ 0 l1 i l2); [|done| |].
  - rewrite He, (table_upd_Some _ _ _ _ Hep), Ho. cbn.
    rewrite (table_upd_Some _ _ _ e) by by rewrite aget_aset_ne.
    eexists. split; [done|]. split; [done|]. split; [|done]. eexists. split.
    + apply aget_aset_eq. rewrite alen_aset. lia.
    + done.
  - intros Hin. specialize (Hd i Hin). set_solver.
  - destruct (free_list_length (is_table (k_space st)) (l1 ++ i :: l2)) as [H|H]; [done| | |].
    + intros k Hk%Hfr. destruct Hk as (? & _ & x & Hx & _). apply aget_Some_range in Hx. lia.
    + rewrite length_app in H. cbn in H. lia.
    + by destruct l1.
Qed.

Lemma alloc_name_table_correct st name :
  space_wf its None st -> valid_name name ->
  exists res, alloc_name_table (k_space st) name = Some res /\
    match res with
    | Some (sp', ref) => name_entry (k_space st) name ref (mk_kstate sp' (k_ghash st)) /\
        same_header (k_space st) sp'
    | None => table_miss (k_space st) name
    end.
Proof using Hits.
  intros Hwf (Hu & Hv & Hi). unfold alloc_name_table. rewrite (proj2 (Z.ltb_lt _ _) Hi). cbn [andb].
  pose proof (aget_index_range (k_space st) name its None (k_ghash st)) as Hr.
  destruct st as [sp gh]. cbn in *. specialize (Hr Hwf Hu).
  destruct (_ <? is_table_size sp).
  2:{ eexists. split; [done|]. intros e He. congruence. }
  destruct Hr as [e He]. rewrite He.
  destruct (Z.eqb_spec (IE_BITS_TYPE (ie_bits e)) 0) as [Ht|Ht]; cbn [negb].
  - assert (is_free None (is_table sp) (MACH_PORT_INDEX name)) as Hf
      by (split_and!; [done|done|by exists e]).
    destruct (take_free_correct (mk_kstate sp gh) _ (MACH_PORT_GEN name) Hwf Hf (is_gen_port name))
      as (t' & Heq & Hwf' & (e' & He' & Hb & Ho & Hq) & Hcaps). cbn in *. rewrite Heq.
    eexists. split; [done|]. split; [|done]. split; [|split; [done|right; split]].
    + left. split; [done|]. exists e'. split; [done|]. rewrite Hb. apply gen_of_gen, is_gen_port.
    + eapply caps_inert; [exact He|done| |done].
      eapply (free_not_collides _ _ None); [apply (wf_table _ _ _ Hwf)|apply (wf_collisions _ _ _ Hwf)|done].
    + split; [done|]. exists (MACH_PORT_GEN name). split; [|apply is_gen_port]. by exists e'.
  - destruct (Z.eqb_spec (IE_BITS_GEN (ie_bits e)) (MACH_PORT_GEN name)) as [Hg|Hg].
    + eexists. split; [done|]. split; [|done]. split; [left; eauto|]. split; [done|]. left. split; [|done].
      unfold space_caps, caps, entry_cap, cap_of. rewrite He, Hg, Z.eqb_refl.
      by rewrite (proj2 (Z.eqb_neq _ _)) by done.
    + eexists. split; [done|]. intros x Hx. simplify_eq. done.
Qed.

(** ** Entering a name in the tree *)

Section InsertTree.
Variables (st : kstate) (name : Z).
Hypothesis Hwf : space_wf its None st.
Hypothesis Hname : valid_name name.
Let sp := k_space st.
Let t := is_table sp.
Let m := tree_map sp.
Let index := MACH_PORT_INDEX name.
Let te := mk_ite 0 IO_NULL 0 (is_self sp).
Hypothesis Hnone : m !! name = None.
Hypothesis Hmiss : table_miss sp name.

Lemma insert_live t' ref obj :
  (forall open o, live_send open t' m ref o <-> live_send open t m ref o) ->
  live_send (Some (InTree name)) t' (<[name := te]> m) ref obj <-> live_send None t m ref obj.
Proof using All.
  intros H. rewrite <- H. unfold live_send. destruct ref as [k|n]; cbn; [naive_solver|].
  destruct (decide (n = name)) as [->|Hn].
  - rewrite Hnone. naive_solver.
  - rewrite lookup_insert_ne by congruence. naive_solver.
Qed.

Lemma insert_tree_wf sp' :
  same_header sp sp' -> is_tree_hash sp' = is_tree_hash sp ->
  splay_wf (is_tree sp') -> tree_map sp' = <[name := te]> m ->
  is_tree_total sp' = is_tree_total sp + 1 ->
  is_tree_small sp' = small_count (is_table_size sp) (next_size its sp) (<[name := te]> m) ->
  same_slots t (is_table sp') -> (forall i, object_of (is_table sp') i = object_of t i) ->
  table_wf None (is_table sp') -> free_wf None (is_table sp') ->
  collisions_wf (is_table sp') (<[name := te]> m) ->
  (forall open ref obj, live_send open (is_table sp') m ref obj <-> live_send open t m ref obj) ->
  space_wf its (Some (InTree name)) (mk_kstate sp' (k_ghash st)).
Proof using All.
  intros (Hse & Hac & _ & _ & Hsz & Hnx) Hhash Hsw Hm Hto Hsm Hsl Hob Hta Hfr Hco Hli.
  assert (forall ref obj, live_send (Some (InTree name)) (is_table sp') (<[name := te]> m) ref obj <->
    live_send None t m ref obj) as Hlive by (intros ref obj; apply insert_live; auto).
  constructor; cbn; rewrite ?Hm, ?Hse, ?Hsz; try done.
  - by rewrite Hac; apply (wf_active _ _ _ Hwf).
  - unfold sizes_wf. rewrite Hsz, Hnx. destruct (wf_sizes _ _ _ Hwf) as (Hl & ?). split; [|done].
    fold sp t in Hl. destruct Hsl as [? _]. congruence.
  - rewrite lookup_insert_eq. done.
  - intros i x Hx. destruct (Hta i x Hx) as (? & ? & H). split_and!; try done. intros; by apply H.
  - destruct Hfr as (l & ? & ? & H). exists l. split_and!; try done. intros i. rewrite H.
    unfold is_free. naive_solver.
  - intros n x. destruct (decide (n = name)) as [->|Hn].
    + rewrite lookup_insert_eq. intros [= <-]. split_and!; done.
    + rewrite lookup_insert_ne by congruence. intros Hx.
      destruct (wf_tree _ _ _ Hwf _ _ Hx) as (? & ? & ? & Ho). split_and!; try done.
      intros Hz. by apply Ho in Hz.
  - rewrite Hto, map_size_insert_None by done.
    rewrite (wf_total _ _ _ Hwf : is_tree_total sp = Z.of_nat (base.size m)). lia.
  - rewrite Hsm. unfold next_size. by rewrite Hnx.
  - eapply same_slots_wf; [exact Hsl| |apply (wf_local _ _ _ Hwf)]. by intros; apply Hob.
  - eapply hashed_ok_transfer; [exact Hlive| |apply (wf_hashed _ _ _ Hwf)].
    intros i. by apply same_slots_hashed.
  - apply (wf_ghash _ _ _ Hwf).
  - eapply ghashed_ok_transfer; [exact Hlive|apply (wf_ghashed _ _ _ Hwf)].
  - rewrite Hhash. rewrite (tree_sends_transfer _ _ _ _ _ _ Hlive). apply (wf_hash _ _ _ Hwf).
  - eapply sends_wf_transfer; [exact Hlive|apply (wf_sends _ _ _ Hwf)].
Qed.

Lemma caps_insert n : caps t (<[name := te]> m) n = caps t m n.
Proof using All.
  unfold caps. destruct (decide (n = name)) as [->|Hn]; [|by rewrite lookup_insert_ne by congruence].
  rewrite lookup_insert_eq, Hnone. done.
Qed.

Lemma caps_name_none : caps t m name = None.
Proof using All.
  unfold caps. rewrite Hnone. destruct (aget t _) as [e|] eqn:E; [|done].
  destruct (Hmiss e E) as [_ Hg]. by rewrite (proj2 (Z.eqb_neq _ _)) by done.
Qed.

Lemma insert_collisions_other k e :
  k <> index -> aget t k = Some e -> collision_wf (<[name := te]> m) k e.
Proof using All.
  intros Hk He. destruct (wf_collisions _ _ _ Hwf _ _ He) as [H1 H2]. split.
  - rewrite H1, collides_insert. fold sp m index. naive_solver.
  - intros n Hn Hi. apply H2; [|done]. rewrite lookup_insert_is_Some' in Hn.
    destruct Hn as [<-|Hn]; [|done]. unfold index in *. congruence.
Qed.

(** Setting the collision bit of the table entry with the index of [name]. *)
Lemma insert_recollide e :
  aget t index = Some e ->
  let t' := aset t index (set_bits (Z.lor (ie_bits e) IE_BITS_COLLISION) e) in
  same_slots t t' /\ (forall i, object_of t' i = object_of t i) /\ table_wf None t' /\ free_wf None t' /\
  collisions_wf t' (<[name := te]> m) /\
  (forall open ref obj, live_send open t' m ref obj <-> live_send open t m ref obj) /\
  (forall m' n, caps t' m' n = caps t m' n).
Proof using All.
  intros He. destruct (wf_table _ _ _ Hwf _ _ He) as (Hu & _). destruct (Hmiss e He) as [Ht Hg].
  destruct (wf_collisions _ _ _ Hwf _ _ He) as [_ Hgen].
  assert (is_u32 (Z.lor (ie_bits e) IE_BITS_COLLISION)) as Hb by (by apply is_u32_lor).
  pose proof (type_set_collision (ie_bits e)) as H1. pose proof (right_set_collision (ie_bits e)) as H2.
  pose proof (gen_set_collision (ie_bits e)) as H3. cbn zeta. split_and!.
  - by eapply recollide_slots.
  - intros. by eapply recollide_object.
  - eapply recollide_table; eauto. apply (wf_table _ _ _ Hwf).
  - eapply recollide_free; eauto. apply (wf_free _ _ _ Hwf).
  - intros k x Hx. rewrite (recollide_get t index _ e) in Hx by done. case_decide; [subst k|by apply insert_collisions_other].
    injection Hx as <-. split; cbn.
    + rewrite collision_set_collision, collides_insert. split; [by left|done].
    + rewrite H3. intros n Hn Hi. rewrite lookup_insert_is_Some' in Hn.
      destruct Hn as [<-|Hn]; [done|by apply Hgen].
  - intros. by eapply recollide_live.
  - intros. by eapply recollide_caps.
Qed.

Lemma valid_name_range : name_in_range name.
Proof using Hname. destruct Hname as (Hu & _). unfold name_in_range, MACH_PORT_SMALLEST, MACH_PORT_LARGEST. unfold is_u32 in Hu. lia. Qed.

(** The space [sp2] on which the insertion is made. *)
Lemma insert_entry_final sp2 :
  same_header sp sp2 -> is_tree_hash sp2 = is_tree_hash sp -> splay_wf (is_tree sp2) ->
  tree_map sp2 = m -> is_tree_total sp2 = is_tree_total sp + 1 ->
  is_tree_small sp2 = small_count (is_table_size sp) (next_size its sp) (<[name := te]> m) ->
  same_slots t (is_table sp2) -> (forall i, object_of (is_table sp2) i = object_of t i) ->
  table_wf None (is_table sp2) -> free_wf None (is_table sp2) ->
  collisions_wf (is_table sp2) (<[name := te]> m) ->
  (forall open ref obj, live_send open (is_table sp2) m ref obj <-> live_send open t m ref obj) ->
  (forall m' n, caps (is_table sp2) m' n = caps t m' n) ->
  exists tree, ipc_splay_tree_insert (is_tree sp2) name (mk_ite 0 IO_NULL 0 (is_self sp2)) = Some tree /\
    name_entry sp name (InTree name) (mk_kstate (sp_set_tree tree sp2) (k_ghash st)) /\
    same_header sp (sp_set_tree tree sp2).
Proof using All.
  intros Hh Hhash Hw Hm Hto Hsm Hsl Hob Hta Hfr Hco Hli Hca.
  destruct (ipc_splay_tree_insert_correct (is_tree sp2) name (mk_ite 0 IO_NULL 0 (is_self sp2)))
    as (tree & -> & Hw' & Hm'); [done|apply valid_name_range|by fold (tree_map sp2); rewrite Hm|].
  fold (tree_map sp2) in Hm'. rewrite Hm in Hm'.
  assert (is_self sp2 = is_self sp) as Hself by apply Hh. rewrite Hself in Hm'. fold te in Hm'.
  exists tree. split; [done|]. split; [|done]. split_and!.
  - right. split; [done|]. change (is_Some (splay_map tree !! name)).
    rewrite Hm', lookup_insert_eq. done.
  - intros n. change (caps (is_table sp2) (splay_map tree) n = caps t m n).
    rewrite Hca, Hm'. apply caps_insert.
  - right. split; [apply caps_name_none|]. split; [by apply insert_tree_wf|].
    exists 0. split; [|unfold is_gen; destruct PORT_GENERATIONS; [exists 0; lia|done]].
    exists (mk_entry 0 IO_NULL 0 0). split; [|done].
    change (get_entry (sp_set_tree tree sp2) (InTree name) = Some (mk_entry 0 IO_NULL 0 0)).
    rewrite get_entry_tree. change (tree_map (sp_set_tree tree sp2)) with (splay_map tree).
    rewrite Hm', lookup_insert_eq. done.
Qed.

Lemma insert_tree_entry_correct ns :
  aget its (is_table_next sp) = Some ns ->
  exists sp', insert_tree_entry sp name ns = Some sp' /\
    name_entry sp name (InTree name) (mk_kstate sp' (k_ghash st)) /\ same_header sp sp'.
Proof using All.
  intros Hns. unfold insert_tree_entry. cbn [is_table_size sp_set_total is_table]. fold index.
  assert (next_size its sp = ns) as Hnx by (unfold next_size; by rewrite Hns).
  pose proof (wf_small _ _ _ Hwf) as Hsm. fold sp m in Hsm. rewrite Hnx in Hsm.
  pose proof (small_count_insert (is_table_size sp) ns m name te) as Hsc. fold index in Hsc.
  destruct (size_range _ _ Hwf) as [_ Hl]. fold sp t in Hl.
  pose proof (wf_splay _ _ _ Hwf) as Hsw. fold sp in Hsw. destruct Hname as (_ & _ & Hpos). fold index in Hpos.
  pose proof (wf_table _ _ _ Hwf) as Htw. pose proof (wf_free _ _ _ Hwf) as Hfw.
  assert (forall P : ipc_space -> Prop, (exists sp2, P sp2 /\
     exists tree, ipc_splay_tree_insert (is_tree sp2) name (mk_ite 0 IO_NULL 0 (is_self sp2)) = Some tree /\
    name_entry sp name (InTree name) (mk_kstate (sp_set_tree tree sp2) (k_ghash st)) /\
    same_header sp (sp_set_tree tree sp2)) -> exists sp2, P sp2 /\ 
    exists sp', (LET tree <- ipc_splay_tree_insert (is_tree sp2) name (mk_ite 0 IO_NULL 0 (is_self sp2)) ;;
      Some (sp_set_tree tree sp2)) = Some sp' /\
    name_entry sp name (InTree name) (mk_kstate sp' (k_ghash st)) /\ same_header sp sp') as Hwrap.
  { intros P (sp2 & HP & tree & Heq & ?). exists sp2. split; [done|]. rewrite Heq. eauto. }
  destruct (Z.ltb_spec index (is_table_size sp)) as [Hlt|Hge].
  - destruct (aget_is_Some t index) as [e He]; [lia|]. fold t. rewrite (table_upd_Some _ _ _ _ He).
    destruct (insert_recollide e He) as (? & ? & ? & ? & ? & ? & ?).
    destruct (Hwrap (eq (sp_set_table (aset t index (set_bits (Z.lor (ie_bits e) IE_BITS_COLLISION) e))
      (sp_set_total (is_tree_total sp + 1) sp)))) as (? & <- & Hres); [|exact Hres].
    eexists. split; [done|]. apply insert_entry_final; try done. cbn. rewrite Hnx, Hsc, Hsm, decide_False; lia.
  - assert (collisions_wf t (<[name := te]> m)) as Hcw.
    { intros k e He. apply insert_collisions_other; [|done].
      apply aget_Some_range in He. lia. }
    destruct (Z.ltb_spec index ns).
    2:{ destruct (Hwrap (eq (sp_set_total (is_tree_total sp + 1) sp))) as (? & <- & Hres); [|exact Hres].
        eexists. split; [done|]. apply insert_entry_final; try done. cbn. rewrite Hnx, Hsc, Hsm, decide_False; lia. }
    destruct (tree_collision_correct (is_self sp) None (sp_set_total (is_tree_total sp + 1) sp) name)
      as (sp' & b & -> & Hrs & Hb); [apply (wf_active _ _ _ Hwf)|done|apply (wf_tree _ _ _ Hwf)|].
    change (tree_map (sp_set_total (is_tree_total sp + 1) sp)) with m in Hb. fold index in Hb.
    pose proof (resplays_map _ _ Hrs) as Hm'.
    change (tree_map (sp_set_total (is_tree_total sp + 1) sp)) with m in Hm'.
    destruct Hrs as (tr & -> & Hwtr & _). destruct b; cbn [negb].
    + destruct (Hwrap (eq (sp_set_tree tr (sp_set_total (is_tree_total sp + 1) sp))))
        as (? & <- & Hres); [|exact Hres].
      eexists. split; [done|]. apply insert_entry_final; try done. cbn.
      rewrite Hnx, Hsc, Hsm, decide_False; [lia|]. pose proof (proj1 Hb eq_refl). tauto.
    + cbn [is_tree_small sp_set_tree sp_set_total].
      destruct (Hwrap (eq (sp_set_small (is_tree_small sp + 1) (sp_set_tree tr (sp_set_total (is_tree_total sp + 1) sp)))))
        as (? & <- & Hres); [|exact Hres].
      eexists. split; [done|]. apply insert_entry_final; try done. cbn.
      rewrite Hnx, Hsc, Hsm, decide_True; [lia|]. split; [lia|]. intros ?%Hb. done.
Qed.
End InsertTree.
End Spec.
