(* ===== verification/IpcReverse.v ===== *)
(** * The reverse hash table of a space (ipc_hash_lookup, ipc_hash_insert and
    ipc_hash_delete of ipc/ipc_hash.c)

    The entry points choose between the local and the global table.  In a space
    that satisfies its invariant, lookup finds the send right for an object. *)

From S2P Require Import Prelude PortName IpcSplay IpcTable IpcTypes IpcHash IpcEntry.
From S2P Require Import IpcSpaceInv IpcEntrySpec.

Section Reverse.
Context `{PC : PortConfig}.
Variable its : list Z.
Hypothesis Hits : entries_sizes_ok its.
Implicit Types (st : kstate).

(** Spaces and hash tables that differ by the order of buckets. *)
Definition rebuckets (g g' : ghash) : Prop :=
  ghash_wf g' /\ forall e, ghashed g' e <-> ghashed g e.

Lemma rebuckets_wf open st g' :
  space_wf its open st -> rebuckets (k_ghash st) g' -> space_wf its open (mk_kstate (k_space st) g').
Proof.
  intros [] [Hw Hg]. constructor; try done. cbn. intros n obj. rewrite Hg. done.
Qed.

Lemma local_distinct open st : space_wf its open st -> hashed_distinct (is_table (k_space st)).
Proof.
  intros Hwf. pose proof (wf_hashed _ _ _ Hwf) as Hh. pose proof (wf_sends _ _ _ Hwf) as Hs.
  assert (forall i obj, live_send open (is_table (k_space st)) (tree_map (k_space st)) (InTable i) obj ->
    obj = object_of (is_table (k_space st)) i) as Hobj.
  { intros i obj (_ & b & Hb & _). cbn in Hb. unfold object_of. destruct (aget _ i); [|done].
    cbn in Hb. congruence. }
  split.
  - intros i [obj Ho]%Hh. rewrite <- (Hobj _ _ Ho). by apply (Hs _ _ Ho).
  - intros i j [oi Hoi]%Hh [oj Hoj]%Hh Heq. rewrite <- (Hobj _ _ Hoi), <- (Hobj _ _ Hoj) in Heq. subst oj.
    pose proof (proj2 (Hs _ _ Hoi) _ Hoj). congruence.
Qed.

Lemma live_send_entry open st ref obj :
  live_send open (is_table (k_space st)) (tree_map (k_space st)) ref obj ->
  exists e, get_entry (k_space st) ref = Some e /\ ie_object e = obj /\
    IE_BITS_TYPE (ie_bits e) = MACH_PORT_TYPE_SEND.
Proof.
  intros (_ & b & Hb & Ht). destruct ref as [i|n].
  - cbn in *. destruct (aget _ i) as [e|]; [|done]. exists e. injection Hb as <- <-. done.
  - rewrite get_entry_tree. cbn in Hb. destruct (tree_map _ !! n) as [te|]; [|done].
    eexists. split; [done|]. injection Hb as <- <-. done.
Qed.

Lemma ipc_hash_lookup_correct open st obj :
  space_wf its open st -> obj <> IO_NULL ->
  exists g' res, ipc_hash_lookup st obj = Some (mk_kstate (k_space st) g', res) /\
    rebuckets (k_ghash st) g' /\
    match res with
    | Some (name, ref) => ref_for (k_space st) name ref /\
        live_send open (is_table (k_space st)) (tree_map (k_space st)) ref obj
    | None => forall ref, ~ live_send open (is_table (k_space st)) (tree_map (k_space st)) ref obj
    end.
Proof using Hits.
  intros Hwf Ho. unfold ipc_hash_lookup. destruct (wf_sizes _ _ _ Hwf) as [Hl _]. rewrite <- Hl.
  set (t := is_table (k_space st)) in *. set (m := tree_map (k_space st)).
  destruct (ipc_hash_local_lookup_correct t obj (wf_local _ _ _ Hwf) (local_distinct _ _ Hwf) Ho)
    as (res & -> & Hres).
  assert (rebuckets (k_ghash st) (k_ghash st)) as Hrefl by (split; [apply (wf_ghash _ _ _ Hwf)|done]).
  assert (mk_kstate (k_space st) (k_ghash st) = st) as Hst by by destruct st.
  destruct res as [[name i]|].
  - exists (k_ghash st). eexists. rewrite Hst. split; [done|]. split; [done|].
    destruct Hres as (Hi & Hob & e & He & ->). apply (wf_hashed _ _ _ Hwf) in Hi as [o Hlive].
    pose proof Hlive as (_ & b & Hb & Ht). cbn in Hb. fold t in Hb, Hlive. rewrite He in Hb. injection Hb as <- <-.
    unfold object_of in Hob. rewrite He in Hob. subst obj. split; [|done].
    assert (0 < i) as Hi0.
    { destruct (wf_table _ _ _ Hwf _ _ He) as (_ & H0 & _). apply aget_Some_range in He as Hr.
      destruct (decide (i = 0)) as [->|]; [|lia]. rewrite H0 in Ht by done. done. }
    assert (is_gen (IE_BITS_GEN (ie_bits e))) as Hg
      by (apply is_gen_bits, (wf_table _ _ _ Hwf _ _ He)).
    pose proof (aget_Some_range _ _ _ He) as Hr.
    destruct (table_name_valid its Hits open st i _ Hwf ltac:(fold t; lia) Hg) as (_ & Hix & Hgx).
    unfold MACH_PORT_MAKEB. left. rewrite Hix, Hgx. split; [done|]. by exists e.
  - assert (forall i o, live_send open t m (InTable i) o -> o <> obj) as Hnt.
    { intros i o Hlive. assert (hashed t i) as Hi by (apply (wf_hashed _ _ _ Hwf); by exists o).
      specialize (Hres i Hi). destruct Hlive as (_ & b & Hb & _). cbn in Hb. unfold object_of in Hres.
      destruct (aget t i); [|done]. cbn in Hb. congruence. }
    pose proof (wf_hash _ _ _ Hwf) as Hh.
    destruct (Z.ltb_spec 0 (is_tree_hash (k_space st))) as [Hp|Hz].
    + destruct (ipc_hash_global_lookup_correct (k_ghash st) (is_self (k_space st)) obj (wf_ghash _ _ _ Hwf))
        as (g' & r & -> & Hw' & Hg' & Hr). exists g'. eexists. split; [done|]. split; [done|].
      destruct r as [e|]; cbn.
      * destruct Hr as (He & Hsp & Hob). destruct e as [s n o]. cbn in *. subst s o.
        apply (wf_ghashed _ _ _ Hwf) in He. split; [|done]. right. split; [done|].
        destruct He as (_ & b & Hb & _). cbn in Hb. by destruct (tree_map _ !! n).
      * intros [i|n] Hlive; [exact (Hnt _ _ Hlive eq_refl)|].
        apply (wf_ghashed _ _ _ Hwf), Hr in Hlive. by apply Hlive.
    + exists (k_ghash st). eexists. rewrite Hst. split; [done|]. split; [done|].
      intros [i|n] Hlive; [exact (Hnt _ _ Hlive eq_refl)|].
      assert (n ∈ tree_sends open m) as Hin by (apply (elem_tree_sends open t); by exists obj).
      assert (size (tree_sends open m) = 0%nat) as H0%size_empty_inv by (fold m in Hh; lia). by apply H0 in Hin.
Qed.
End Reverse.
