(* ===== verification/IpcGrow.v ===== *)
(** * Growing the table of a space (ipc_entry_grow_table, ipc/ipc_entry.c)

    Growing copies the table, rebuilds its reverse hash table, moves tree
    entries into the new part, recounts [is_tree_small] and extends the free
    list.  It preserves the invariant and changes no capability. *)

From S2P Require Import Prelude PortName IpcSplay IpcTable IpcTypes IpcHash IpcEntry.
From S2P Require Import IpcSpaceInv IpcEntrySpec.

Section Grow.
Context `{PC : PortConfig}.
Implicit Types (t : list ipc_entry) (m : gmap Z ipc_tree_entry) (st : kstate).

(** ** The new table *)

Lemma grow_copy_get t osize size k :
  alen t = osize -> osize <= size ->
  aget (grow_copy t osize size) k =
    if decide (k < osize) then set_index 0 <$> aget t k
    else if decide (k < size) then Some zero_entry else None.
Proof.
  intros Hl Hs. unfold grow_copy. assert (alen (set_index 0 <$> t) = osize) as Hl'
    by (unfold alen in *; by rewrite length_fmap).
  case_decide as Hk.
  - rewrite aget_app_l by lia. unfold aget. case_decide; [|done]. by rewrite list_lookup_fmap.
  - rewrite aget_app_r by lia. rewrite Hl'. unfold aget. pose proof (alen_nonneg t).
    rewrite decide_True by lia. case_decide.
    + apply lookup_replicate. split; [done|lia].
    + apply lookup_ge_None. rewrite length_replicate. lia.
Qed.

Lemma grow_copy_alen t osize size : alen t = osize -> osize <= size -> alen (grow_copy t osize size) = size.
Proof.
  intros Hl Hs. unfold grow_copy. rewrite alen_app. unfold alen in *.
  rewrite length_fmap, length_replicate. lia.
Qed.

Lemma grow_copy_slot t osize size p : alen t = osize -> osize <= size -> slot (grow_copy t osize size) p = 0.
Proof.
  intros Hl Hs. unfold slot. rewrite grow_copy_get by done.
  case_decide; [by destruct (aget t p)|]. by case_decide.
Qed.

Lemma empty_slots_wf t : 0 < alen t -> (forall p, slot t p = 0) -> local_wf t /\ forall i, ~ hashed t i.
Proof.
  intros Hl H0. split.
  - split; [done|]. unfold slots_ok, slots_inj, slots_reach. setoid_rewrite H0. done.
  - intros i (Hi & p & _ & Hp). rewrite H0 in Hp. congruence.
Qed.

(** ** Rebuilding the reverse hash table *)

Section Rehash.
Variables (st : kstate) (t0 : list ipc_entry) (osize : Z).
Hypothesis Ht0 : is_table (k_space st) = t0.
Hypothesis Hsize : is_table_size (k_space st) = alen t0.
Hypothesis Hosize : 0 <= osize <= alen t0.
Hypothesis Hlocal : local_wf t0.
Hypothesis Hempty : forall i, ~ hashed t0 i.
(** Every send entry of the old part has an object, and entry 0 is free. *)
Hypothesis Hsends : forall k e, k < osize -> aget t0 k = Some e ->
  IE_BITS_TYPE (ie_bits e) = MACH_PORT_TYPE_SEND -> 0 < k /\ ie_object e <> IO_NULL.

Definition is_send t k : Prop :=
  exists e, aget t k = Some e /\ IE_BITS_TYPE (ie_bits e) = MACH_PORT_TYPE_SEND.

Lemma is_send_same t t' k : same_entries t t' -> is_send t' k <-> is_send t k.
Proof using All.
  intros H. unfold is_send. split; intros (e & He & Ht).
  - destruct (same_entries_fields _ _ _ _ H He) as (e' & He' & Hb & _). exists e'. by rewrite <- Hb.
  - destruct (same_entries_fields _ _ _ _ (same_entries_sym _ _ H) He) as (e' & He' & Hb & _).
    exists e'. by rewrite <- Hb.
Qed.

Definition rehashed (i : Z) (s : kstate) : Prop :=
  exists t, s = on_space (sp_set_table t) st /\ same_entries t0 t /\ local_wf t /\
    forall k, hashed t k <-> k < i /\ is_send t0 k.

Lemma grow_rehash_correct :
  exists t, grow_rehash osize st = Some (on_space (sp_set_table t) st) /\ same_entries t0 t /\
    local_wf t /\ forall k, hashed t k <-> k < osize /\ is_send t0 k.
Proof using All.
  unfold grow_rehash.
  destruct (for_up_rule rehashed (fun i st =>
    LET entry <- aget (is_table (k_space st)) i ;;
    if IE_BITS_TYPE (ie_bits entry) =? MACH_PORT_TYPE_SEND
    then hash_local_insert st (ie_object entry) i else Some st) (Z.to_nat osize) 0 st) as (s' & Heq & Hr).
  - exists t0. split_and!; [|apply same_entries_refl|done|].
    + destruct st as [sp g]. unfold on_space. cbn in *. subst t0. by destruct sp.
    + intros k. split; [by intros ?%Hempty|]. intros [Hk (e & He & _)]. apply aget_Some_range in He. lia.
  - intros i s Hi (t & -> & Hse & Hw & Hh). cbn [on_space k_space is_table sp_set_table].
    assert (alen t = alen t0) as Hlen by apply Hse.
    destruct (aget_is_Some t i) as [e He]; [lia|]. rewrite He.
    destruct (same_entries_fields _ _ _ _ Hse He) as (e0 & He0 & Hb & Ho & _).
    destruct (Z.eqb_spec (IE_BITS_TYPE (ie_bits e)) MACH_PORT_TYPE_SEND) as [Hs|Hs].
    + rewrite Hb in Hs. destruct (Hsends i e0) as [Hpos Hobj]; [lia|done|done|].
      destruct (ipc_hash_local_insert_correct t i e) as (t' & Hins & Hw' & Hse' & Hh'); [done|lia| |done|congruence|].
      { rewrite Hh. lia. }
      unfold hash_local_insert. cbn [on_space k_space is_table sp_set_table is_table_size k_ghash].
      rewrite Hsize, <- Hlen, Hins. eexists. split; [done|]. exists t'. split_and!; [done| |done|].
      * by eapply same_entries_trans.
      * intros k. rewrite Hh', Hh. split; [intros [[? ?]| ->]|intros [? ?]].
        -- split; [lia|done].
        -- split; [lia|]. by exists e0.
        -- destruct (decide (k = i)); [by right|left]. split; [lia|done].
    + eexists. split; [done|]. exists t. split_and!; try done. intros k. rewrite Hh.
      split; intros [? Hk]; (split; [|done]); [lia|].
      destruct (decide (k = i)) as [->|]; [|lia]. destruct Hk as (x & Hx & ?). simplify_eq. congruence.
  - destruct Hr as (t & -> & Hse & Hw & Hh). exists t. split_and!; try done.
    intros k. rewrite Hh. replace (0 + Z.of_nat (Z.to_nat osize)) with osize by lia. done.
Qed.
End Rehash.

(** ** Moving tree entries into the table *)

Section Move.
Variables (osize size : Z) (sp0 : ipc_space) (told : list ipc_entry) (g0 : ghash).
(** The entries of the tree below, in and above the part that moves. *)
Variables (ign move rest : list (Z * ipc_tree_entry)).
Hypothesis Hos : 0 < osize <= size.
Hypothesis Hsize0 : is_table_size sp0 = size.
Hypothesis Hmove : forall n te, (n, te) ∈ move ->
  tentry_wf (is_self sp0) None n te /\ osize <= MACH_PORT_INDEX n < size.

Definition tree_now (kept todo : list (Z * ipc_tree_entry)) : list (Z * ipc_tree_entry) :=
  ign ++ kept ++ todo ++ rest.

Definition map_now kept todo : gmap Z ipc_tree_entry := list_to_map (tree_now kept todo).

(** The table entry that holds the moved entry [te] named [n]. *)
Definition holds (e : ipc_entry) (n : Z) (te : ipc_tree_entry) : Prop :=
  is_u32 (ie_bits e) /\ IE_BITS_TYPE (ie_bits e) <> 0 /\
  IE_BITS_GEN (ie_bits e) = MACH_PORT_GEN n /\ entry_cap e = tentry_cap te.

(** An entry of the new part after the names [past] were visited. *)
Definition new_entry (past kept : list (Z * ipc_tree_entry)) (k : Z) (e : ipc_entry) : Prop :=
  (ie_bits e = 0 /\ ie_object e = IO_NULL /\ forall p, p ∈ past -> MACH_PORT_INDEX p.1 <> k) \/
  (exists n te, (n, te) ∈ past /\ n ∉ kept.*1 /\ MACH_PORT_INDEX n = k /\ holds e n te /\
     (Z.land (ie_bits e) IE_BITS_COLLISION <> 0 <-> exists p, p ∈ kept /\ MACH_PORT_INDEX p.1 = k)).

Definition state_now t (tot h : Z) (g : ghash) : kstate :=
  mk_kstate (sp_set_total tot (sp_set_hash h (sp_set_table t sp0))) g.

Record moving (past kept todo : list (Z * ipc_tree_entry)) t (tot h : Z) (g : ghash) : Prop := {
  mv_past : move = past ++ todo;
  mv_kept : forall p, p ∈ kept -> p ∈ past;
  mv_sorted : keys_sorted (tree_now kept todo);
  mv_names : NoDup move.*1;
  mv_hash : hash_wf None (map_now kept todo) (state_now t tot h g);
  mv_frame : ghash_frame (is_self sp0) g0 g;
  mv_total : tot = Z.of_nat (base.size (map_now kept todo));
  mv_old : forall k, k < osize -> set_index 0 <$> aget t k = set_index 0 <$> aget told k;
  mv_new : forall k e, osize <= k < size -> aget t k = Some e -> new_entry past kept k e;
  mv_moved : forall n te, (n, te) ∈ past -> n ∉ kept.*1 ->
    exists e, aget t (MACH_PORT_INDEX n) = Some e /\ holds e n te
}.

Lemma moving_alen past kept todo t tot h g : moving past kept todo t tot h g -> alen t = size.
Proof using Hsize0. intros [_ _ _ _ [Hl _ _ _ _ _ _]]. cbn in Hl. congruence. Qed.

Lemma map_now_mid kept n te todo :
  keys_sorted (tree_now kept ((n, te) :: todo)) ->
  map_now kept ((n, te) :: todo) !! n = Some te /\
  map_now kept todo = delete n (map_now kept ((n, te) :: todo)) /\
  keys_sorted (tree_now kept todo) /\
  tree_now (kept ++ [(n, te)]) todo = tree_now kept ((n, te) :: todo).
Proof.
  unfold map_now, tree_now. intros Hs. rewrite (app_assoc ign kept) in Hs.
  rewrite !(app_assoc ign kept). split_and!.
  - apply elem_of_list_to_map; [by apply keys_sorted_NoDup|]. set_solver.
  - cbn [app] in Hs |- *. by rewrite <- (keys_mid_delete n te).
  - by eapply keys_sorted_drop_mid.
  - by app_norm.
Qed.

Lemma same_fields_cap e e' :
  set_index 0 e' = set_index 0 e ->
  ie_bits e' = ie_bits e /\ ie_object e' = ie_object e /\ entry_cap e' = entry_cap e.
Proof. intros [= Hb Ho Hr]. unfold entry_cap. by rewrite Hb, Ho, Hr. Qed.

Lemma new_entry_same past kept k e e' :
  set_index 0 e' = set_index 0 e -> new_entry past kept k e -> new_entry past kept k e'.
Proof.
  intros (Hb & Ho & Hc)%same_fields_cap. unfold new_entry, holds. by rewrite Hb, Ho, Hc.
Qed.

Lemma holds_same e e' n te : set_index 0 e' = set_index 0 e -> holds e n te -> holds e' n te.
Proof. intros (Hb & _ & Hc)%same_fields_cap. unfold holds. by rewrite Hb, Hc. Qed.

Lemma holds_collision e n te :
  holds e n te -> holds (set_bits (Z.lor (ie_bits e) IE_BITS_COLLISION) e) n te.
Proof.
  intros (Hu & Ht & Hg & Hc). unfold holds. cbn.
  rewrite type_set_collision, gen_set_collision. split_and!; [by apply is_u32_lor|done|done|].
  rewrite <- Hc. unfold entry_cap, cap_of. cbn. by rewrite type_set_collision, right_set_collision.
Qed.

Section Step.
Variables (past kept todo : list (Z * ipc_tree_entry)) (t : list ipc_entry) (tot h : Z) (g : ghash).
Variables (n : Z) (te : ipc_tree_entry) (e : ipc_entry).
Hypothesis Hmv : moving past kept ((n, te) :: todo) t tot h g.
Let k := MACH_PORT_INDEX n.
Hypothesis He : aget t k = Some e.

Lemma step_facts :
  tentry_wf (is_self sp0) None n te /\ osize <= k < size /\
  (forall p, p ∈ past -> p.1 <> n) /\ n ∉ kept.*1 /\ new_entry past kept k e.
Proof using All.
  destruct (Hmove n te) as [Hw Hk]; [rewrite (mv_past _ _ _ _ _ _ _ Hmv); set_solver|].
  assert (forall p, p ∈ past -> p.1 <> n) as Hpn.
  { intros p Hp Heq. pose proof (mv_names _ _ _ _ _ _ _ Hmv) as Hnd.
    rewrite (mv_past _ _ _ _ _ _ _ Hmv), fmap_app in Hnd. apply NoDup_app in Hnd as (_ & Hd & _).
    apply (Hd p.1); [by apply list_elem_of_fmap_2|]. rewrite Heq. cbn. set_solver. }
  split_and!; try done; try lia.
  - intros (p & Heq & Hp)%list_elem_of_fmap. apply (Hpn p); [|done]. by apply (mv_kept _ _ _ _ _ _ _ Hmv).
  - by apply (mv_new _ _ _ _ _ _ _ Hmv).
Qed.

(** An entry with this index was moved before. *)
Lemma step_collide :
  ie_bits e <> 0 ->
  IE_BITS_TYPE (ie_bits e) <> 0 /\ IE_BITS_GEN (ie_bits e) <> MACH_PORT_GEN n /\
  moving (past ++ [(n, te)]) (kept ++ [(n, te)]) todo
    (aset t k (set_bits (Z.lor (ie_bits e) IE_BITS_COLLISION) e)) tot h g.
Proof using All.
  intros Hne. destruct step_facts as (Hw & Hk & Hpn & Hnk & [[? _]|Hold]); [done|].
  destruct Hold as (n0 & te0 & Hp0 & Hk0 & Hi0 & Hh & Hc). pose proof Hh as (Hu & Ht & Hg & _).
  assert (n0 <> n) as Hn0 by apply (Hpn _ Hp0).
  split; [done|]. split; [intros Heq; apply Hn0, index_gen_inj; subst k; congruence|].
  set (t' := aset t k _). set (b := Z.lor (ie_bits e) IE_BITS_COLLISION) in *.
  assert (is_u32 b) as Hb by by apply is_u32_lor.
  pose proof (type_set_collision (ie_bits e)) as H1. pose proof (right_set_collision (ie_bits e)) as H2.
  pose proof (gen_set_collision (ie_bits e)) as H3.
  pose proof (fun j => recollide_get t k b e He Hb H1 H2 H3 j) as Hget. fold t' in Hget.
  destruct (map_now_mid kept n te todo (mv_sorted _ _ _ _ _ _ _ Hmv)) as (Hmn & Hmd & Hs & Htn).
  constructor.
  - rewrite (mv_past _ _ _ _ _ _ _ Hmv). by app_norm.
  - intros p. rewrite !elem_of_app. intros [?%(mv_kept _ _ _ _ _ _ _ Hmv)|]; tauto.
  - rewrite Htn. apply (mv_sorted _ _ _ _ _ _ _ Hmv).
  - apply (mv_names _ _ _ _ _ _ _ Hmv).
  - unfold map_now. rewrite Htn. eapply hash_wf_transfer; [apply (mv_hash _ _ _ _ _ _ _ Hmv)|..]; try done; cbn.
    + by eapply same_slots_aset.
    + intros j _. by eapply recollide_object.
    + intros. by eapply recollide_live.
  - apply (mv_frame _ _ _ _ _ _ _ Hmv).
  - unfold map_now. rewrite Htn. apply (mv_total _ _ _ _ _ _ _ Hmv).
  - intros j Hj. rewrite Hget, decide_False by lia. by apply (mv_old _ _ _ _ _ _ _ Hmv).
  - intros j x Hj. rewrite Hget. case_decide as Hjk.
    + subst j. intros [= <-]. right. exists n0, te0. split_and!; [set_solver| |done|by apply holds_collision|].
      * rewrite fmap_app. set_solver.
      * cbn. unfold b. rewrite collision_set_collision. split; [|done]. intros _. exists (n, te).
        split; [set_solver|done].
    + intros Hx. destruct (mv_new _ _ _ _ _ _ _ Hmv j x Hj Hx) as [(? & ? & Hno)|(n1 & te1 & Hp1 & Hk1 & Hi1 & Hh1 & Hc1)].
      * left. split_and!; try done. intros p [Hp| ->%list_elem_of_singleton]%elem_of_app; [by apply Hno|done].
      * right. exists n1, te1. split_and!; try done; [set_solver| |].
        -- rewrite fmap_app. pose proof (Hpn _ Hp1). set_solver.
        -- rewrite Hc1. split; intros (p & Hp & Hpi); exists p; (split; [|done]); [set_solver|].
           apply elem_of_app in Hp as [Hp| ->%list_elem_of_singleton]; [done|]. by cbn in Hpi.
  - intros n1 te1 Hp1 Hk1. rewrite fmap_app in Hk1.
    assert ((n1, te1) ∈ past /\ n1 ∉ kept.*1) as [Hp1' Hk1'] by set_solver.
    destruct (mv_moved _ _ _ _ _ _ _ Hmv n1 te1 Hp1' Hk1') as (x & Hx & Hhx). rewrite Hget.
    case_decide as Hj; [|by exists x]. rewrite Hj in Hx. assert (x = e) as -> by congruence.
    eexists. split; [done|]. by apply holds_collision.
Qed.


(** The entry moves to the table. *)
Lemma step_move :
  ie_bits e = 0 ->
  let t1 := aset t k (mk_entry (Z.lor (ite_bits te) (MACH_PORT_GEN n)) (ite_object te)
                        (ite_request te) (ie_index e)) in
  exists t2 h2 g2,
    rehash_moved (state_now t1 tot h g) te n k = Some (state_now t2 tot h2 g2) /\
    moving (past ++ [(n, te)]) kept todo t2 (tot - 1) h2 g2.
Proof using All.
  intros Hz t1. destruct step_facts as (Hw & Hk & Hpn & Hnk & Hnew).
  destruct Hnew as [(_ & Ho & Hno)|(? & ? & _ & _ & _ & (_ & Ht & _) & _)]; [|by rewrite Hz in Ht].
  destruct (map_now_mid kept n te todo (mv_sorted _ _ _ _ _ _ _ Hmv)) as (Hmn & Hmd & Hs & Htn).
  destruct (rehash_moved_correct None None (state_now t tot h g) (map_now kept ((n, te) :: todo)) k n e te)
    as (t2 & h2 & g2 & Hr & Hse & Hfr & Hhw); try done; [apply (mv_hash _ _ _ _ _ _ _ Hmv)|lia| |by apply Hw|].
  { intros obj (_ & b & Hb & Ht). cbn in Hb. rewrite He in Hb. cbn in Hb.
    assert (b = 0) as -> by congruence. done. }
  exists t2, h2, g2. split; [exact Hr|]. destruct Hw as (Hv & Hright & Hsp & Hty).
  pose proof (is_gen_port n) as Hgp.
  assert (is_u32 (ite_bits te)) as Hu.
  { rewrite <- Hright. unfold IE_BITS_RIGHT. rewrite Z.land_comm. by apply is_u32_land. }
  assert (alen t = size) as Hlen by by eapply moving_alen.
  assert (forall j x, j <> k -> aget t2 j = Some x -> exists y, aget t j = Some y /\ set_index 0 x = set_index 0 y) as Hother.
  { intros j x Hj Hx. destruct Hse as [_ Hse]. specialize (Hse j). rewrite Hx in Hse. cbn in Hse.
    rewrite aget_aset_ne in Hse by congruence. destruct (aget t j) as [y|]; cbn in Hse; [|done].
    exists y. split; [done|congruence]. }
  assert (exists x, aget t2 k = Some x /\ holds x n te /\ Z.land (ie_bits x) IE_BITS_COLLISION = 0) as (x & Hx & Hhold & Hcoll).
  { destruct (aget_is_Some t2 k) as [x Hx]; [destruct Hse as [-> _]; rewrite alen_aset; cbn; lia|].
    exists x. split; [done|]. destruct (same_entries_fields _ _ _ _ Hse Hx) as (y & Hy & Hb & Hob & Hrq).
    cbn in Hy. rewrite aget_aset_eq in Hy by lia. injection Hy as <-. cbn in Hb, Hob, Hrq.
    split; [|rewrite Hb; by apply collision_lor_gen]. unfold holds. rewrite Hb.
    rewrite type_lor_gen, gen_lor_gen by done. split_and!; [|by intros ?%Hty|done|].
    - apply is_u32_lor; [done|by apply is_gen_u32].
    - unfold entry_cap, tentry_cap, cap_of. by rewrite Hb, Hob, Hrq, type_lor_gen, right_lor_gen. }
  constructor.
  - rewrite (mv_past _ _ _ _ _ _ _ Hmv). by app_norm.
  - intros p Hp%(mv_kept _ _ _ _ _ _ _ Hmv). set_solver.
  - done.
  - apply (mv_names _ _ _ _ _ _ _ Hmv).
  - rewrite Hmd. apply Hhw. done.
  - eapply ghash_frame_trans; [apply (mv_frame _ _ _ _ _ _ _ Hmv)|exact Hfr].
  - rewrite Hmd, map_size_delete_Some by by rewrite Hmn. rewrite (mv_total _ _ _ _ _ _ _ Hmv).
    enough (base.size (map_now kept ((n, te) :: todo)) <> 0%nat) by lia.
    intros Hz'%map_size_empty_inv. rewrite Hz' in Hmn. by rewrite lookup_empty in Hmn.
  - intros j Hj. rewrite <- (mv_old _ _ _ _ _ _ _ Hmv) by done. destruct Hse as [_ ->]. cbn.
    by rewrite aget_aset_ne by lia.
  - intros j y Hj Hy. destruct (decide (j = k)) as [->|Hjk].
    + assert (y = x) as -> by congruence. right. exists n, te. split_and!; try done; [set_solver|].
      rewrite Hcoll. split; [done|]. intros (p & Hp & Hpk). by destruct (Hno p); [apply (mv_kept _ _ _ _ _ _ _ Hmv)|].
    + destruct (Hother j y Hjk Hy) as (z & Hz' & Hsame).
      apply (new_entry_same _ _ _ z); [done|].
      destruct (mv_new _ _ _ _ _ _ _ Hmv j z Hj Hz') as [(? & ? & Hno1)|(n1 & te1 & Hp1 & Hk1 & Hi1 & Hh1 & Hc1)].
      * left. split_and!; try done. intros p [Hp| ->%list_elem_of_singleton]%elem_of_app; [by apply Hno1|].
        cbn. fold k. congruence.
      * right. exists n1, te1. split_and!; try done. set_solver.
  - intros n1 te1 Hp1 Hk1. apply elem_of_app in Hp1 as [Hp1|Hp1%list_elem_of_singleton].
    + destruct (mv_moved _ _ _ _ _ _ _ Hmv n1 te1 Hp1 Hk1) as (y & Hy & Hhy).
      assert (MACH_PORT_INDEX n1 <> k) as Hne by apply (Hno _ Hp1).
      destruct Hse as [Hl2 Hse]. specialize (Hse (MACH_PORT_INDEX n1)). cbn in Hse.
      rewrite aget_aset_ne, Hy in Hse by congruence. destruct (aget t2 _) as [z|]; cbn in Hse; [|done].
      exists z. split; [done|]. eapply holds_same; [|done]. congruence.
    + injection Hp1 as -> ->. by exists x.
Qed.

Lemma step_body :
  exists t' tot' h' g' (d : bool),
    grow_move_body osize size (Some (state_now t tot h g)) n te = (Some (state_now t' tot' h' g'), d) /\
    moving (past ++ [(n, te)]) (kept ++ if d then [] else [(n, te)]) todo t' tot' h' g'.
Proof using All.
  destruct step_facts as ((_ & _ & Hsp & Hty) & Hk & _). unfold grow_move_body.
  cbn [state_now k_space is_table sp_set_total sp_set_hash sp_set_table is_self].
  fold k. rewrite He, Hsp, Z.eqb_refl. rewrite (proj2 (Z.leb_le osize k)), (proj2 (Z.ltb_lt k size)) by lia.
  cbn [andb negb]. destruct (Z.eqb_spec (ie_bits e) 0) as [Hz|Hz]; cbn [negb].
  - destruct (step_move Hz) as (t2 & h2 & g2 & Hr & Hm).
    rewrite (proj2 (Z.eqb_neq (IE_BITS_TYPE (ite_bits te)) MACH_PORT_TYPE_NONE)) by (intros ?%Hty; done).
    rewrite (table_upd_Some _ _ _ _ He). cbn [negb].
    change (mk_kstate (sp_set_table ?t1 _) _) with (state_now t1 tot h g). rewrite Hr.
    exists t2, (tot - 1), h2, g2, true. split; [done|]. by rewrite app_nil_r.
  - destruct (step_collide Hz) as (Ht & Hg & Hm).
    rewrite (proj2 (Z.eqb_neq _ _) Ht), (proj2 (Z.eqb_neq _ _) Hg). cbn [negb andb].
    rewrite (table_upd_Some _ _ _ _ He). by exists (aset t k (set_bits (Z.lor (ie_bits e) IE_BITS_COLLISION) e)), tot, h, g, false.
Qed.
End Step.

Lemma move_loop_correct todo past kept t tot h g :
  moving past kept todo t tot h g ->
  exists t' tot' h' g', 
    (visit (grow_move_body osize size) (Some (state_now t tot h g)) todo).1 = Some (state_now t' tot' h' g') /\
    moving (past ++ todo) (kept ++ (visit (grow_move_body osize size) (Some (state_now t tot h g)) todo).2)
      [] t' tot' h' g'.
Proof using All.
  revert past kept t tot h g. induction todo as [|[n te] todo IH]; intros past kept t tot h g Hmv.
  { cbn. rewrite !app_nil_r. eauto 10. }
  assert (osize <= MACH_PORT_INDEX n < size) as Hk.
  { apply (Hmove n te). rewrite (mv_past _ _ _ _ _ _ _ Hmv). set_solver. }
  destruct (aget_is_Some t (MACH_PORT_INDEX n)) as [e He].
  { rewrite (moving_alen _ _ _ _ _ _ _ Hmv). lia. }
  destruct (step_body past kept todo t tot h g n te e Hmv He) as (t1 & tot1 & h1 & g1 & d & Heq & Hmv1).
  cbn [visit]. rewrite Heq. destruct (IH _ _ _ _ _ _ Hmv1) as (t2 & tot2 & h2 & g2 & Heq2 & Hmv2).
  destruct (visit _ _ todo) as [s2 kept2]. cbn in *.
  exists t2, tot2, h2, g2. split; [done|]. rewrite <- !app_assoc in Hmv2. exact Hmv2.
Qed.
End Move.

(** ** Counting the entries for is_tree_small *)

Definition list_indices (l : list (Z * ipc_tree_entry)) : gset Z :=
  list_to_set (MACH_PORT_INDEX <$> l.*1).

Lemma count_loop_correct l c idx :
  keys_sorted l -> (forall p, p ∈ l -> idx <= MACH_PORT_INDEX p.1) ->
  (visit grow_count_body (c, idx) l).1.1 = c + Z.of_nat (size (list_indices l ∖ {[idx]})) /\
  (visit grow_count_body (c, idx) l).2 = l.
Proof.
  unfold list_indices. revert c idx. induction l as [|[n te] l IH]; intros c idx Hs Hge.
  { cbn. replace (∅ ∖ {[idx]} : gset Z) with (∅ : gset Z) by set_solver. rewrite size_empty. split; [lia|done]. }
  apply keys_sorted_cons in Hs as [Hab Hs]. cbn [visit grow_count_body].
  assert (forall p, p ∈ l -> MACH_PORT_INDEX n <= MACH_PORT_INDEX p.1) as Hn.
  { intros p Hp. apply index_mono. pose proof (keys_above_elem _ _ _ Hab Hp). cbn in *. lia. }
  pose proof (Hge (n, te) ltac:(set_solver)) as Hni. cbn in Hni.
  destruct (Z.eqb_spec (MACH_PORT_INDEX n) idx) as [Heq|Hne]; cbn [negb].
  - destruct (IH c idx Hs) as [Hc Hl]; [intros; apply Hge; set_solver|].
    destruct (visit grow_count_body (c, idx) l) as [s2 kept]. cbn [fst snd] in *. subst kept. split; [|done].
    rewrite Hc, fmap_cons, fmap_cons, list_to_set_cons. do 3 f_equal. set_solver.
  - destruct (IH (c + 1) (MACH_PORT_INDEX n) Hs Hn) as [Hc Hl].
    destruct (visit grow_count_body (c + 1, MACH_PORT_INDEX n) l) as [s2 kept]. cbn [fst snd] in *. subst kept.
    split; [|done]. rewrite Hc, fmap_cons, fmap_cons, list_to_set_cons. cbn [fst].
    set (I := list_to_set (MACH_PORT_INDEX <$> l.*1)) in *.
    assert (idx ∉ ({[MACH_PORT_INDEX n]} ∪ I : gset Z)) as Hidx.
    { unfold I. intros Hin. apply elem_of_union in Hin as [?%elem_of_singleton|Hin]; [congruence|].
      apply elem_of_list_to_set, list_elem_of_fmap in Hin as (x & -> & Hx).
      apply list_elem_of_fmap in Hx as (p & -> & Hp). specialize (Hn p Hp). lia. }
    replace (({[MACH_PORT_INDEX n]} ∪ I) ∖ {[idx]} : gset Z)
      with ({[MACH_PORT_INDEX n]} ∪ (I ∖ {[MACH_PORT_INDEX n]}) : gset Z).
    + rewrite (size_union {[MACH_PORT_INDEX n]} (I ∖ {[MACH_PORT_INDEX n]})), size_singleton by set_solver. lia.
    + apply set_eq. intros i. rewrite elem_of_difference, !elem_of_union, elem_of_difference, !elem_of_singleton.
      split; [intros Hi; split; [tauto|]|destruct (decide (i = MACH_PORT_INDEX n)); tauto].
      intros ->. apply Hidx. set_solver.
Qed.

(** ** Extending the free list *)

Inductive free_path t : Z -> list Z -> Prop :=
| path_nil : free_path t 0 []
| path_cons j e l : j <> 0 -> aget t j = Some e -> free_path t (ie_next e) l -> free_path t j (j :: l).

Lemma chain_path t i l : free_chain t i l <-> exists e, aget t i = Some e /\ free_path t (ie_next e) l.
Proof.
  split.
  - induction 1 as [i e He Hn|i e l He Hn Hc (e' & He' & Hp)]; exists e; (split; [done|]).
    + rewrite Hn. constructor.
    + by econstructor.
  - intros (e & He & Hp). remember (ie_next e) as f eqn:Ef. revert i e He Ef.
    induction Hp as [|j e' l Hj He' Hp IH]; intros i e He Ef.
    + by econstructor.
    + subst j. by econstructor; [| |eapply IH].
Qed.

Lemma free_path_frame t t' f l :
  free_path t f l -> (forall j, j ∈ l -> ie_next <$> aget t' j = ie_next <$> aget t j) -> free_path t' f l.
Proof.
  induction 1 as [|j e l Hj He Hp IH]; intros Hf; [constructor|].
  pose proof (Hf j ltac:(set_solver)) as Hn. rewrite He in Hn.
  destruct (aget t' j) as [e'|] eqn:E; [|done]. cbn in Hn. econstructor; [done|done|].
  replace (ie_next e') with (ie_next e) by congruence. apply IH. intros; apply Hf; set_solver.
Qed.

Section Free.
Variables (t : list ipc_entry) (osize : Z) (l0 : list Z).
Hypothesis Hos : 0 < osize <= alen t.
Hypothesis Hchain : free_chain t 0 l0.
Hypothesis Hlow : forall j, j ∈ l0 -> 0 < j < osize.

Definition zero_at k : Prop := exists e, aget t k = Some e /\ ie_bits e = 0.

(** An entry after the loop has visited it. *)
Definition freed (e e' : ipc_entry) : Prop :=
  if decide (ie_bits e = 0)
  then ie_bits e' = IE_BITS_GEN_MASK /\ ie_object e' = ie_object e /\ ie_index e' = ie_index e
  else e' = e.

Definition freeing (i : Z) (s : list ipc_entry * Z) : Prop :=
  alen s.1 = alen t /\ (forall k, k <= i -> aget s.1 k = aget t k) /\
  (forall k e, i < k -> aget t k = Some e -> exists e', aget s.1 k = Some e' /\ freed e e') /\
  exists l, free_path s.1 s.2 (l ++ l0) /\ NoDup l /\ forall k, k ∈ l <-> i < k /\ osize <= k /\ zero_at k.

Lemma freeing_start f : (exists e, aget t 0 = Some e /\ ie_next e = f) -> freeing (alen t - 1) (t, f).
Proof using All.
  intros (e & He & <-). split_and!; try done.
  - intros k x Hk Hx. apply aget_Some_range in Hx. lia.
  - exists []. cbn [app]. apply chain_path in Hchain as (e' & He' & Hp). simplify_eq.
    split_and!; [done|constructor|]. intros k. split; [set_solver|]. intros (? & _ & x & Hx & _).
    apply aget_Some_range in Hx. lia.
Qed.

Lemma freeing_step i t' f :
  osize <= i < alen t -> freeing i (t', f) ->
  exists s', (LET entry <- aget t' i ;;
      if ie_bits entry =? 0 then
        LET upd <- table_upd t' i (fun e => set_next f (set_bits IE_BITS_GEN_MASK e)) ;;
        Some (upd, i)
      else Some (t', f)) = Some s' /\ freeing (i - 1) s'.
Proof using All.
  intros Hi (Hl & Hlo & Hhi & l & Hp & Hnd & Hin). cbn in *.
  destruct (aget_is_Some t i) as [e He]; [lia|]. rewrite (Hlo i), He by lia.
  assert (aget t' i = Some e) as He' by (by rewrite Hlo).
  destruct (Z.eqb_spec (ie_bits e) 0) as [Hz|Hz].
  - rewrite (table_upd_Some _ _ _ _ He'). eexists. split; [done|].
    set (e2 := set_next f _).
    assert (forall k, aget (aset t' i e2) k = if decide (k = i) then Some e2 else aget t' k) as Hget.
    { intros k. case_decide; [subst; apply aget_aset_eq; lia|by apply aget_aset_ne]. }
    split_and!; cbn; [by rewrite alen_aset| | |].
    + intros k Hk. rewrite Hget, decide_False by lia. apply Hlo. lia.
    + intros k x Hk Hx. rewrite Hget. case_decide.
      * subst k. assert (x = e) as -> by congruence. exists e2. split; [done|]. unfold freed.
        by rewrite decide_True.
      * apply Hhi; [lia|done].
    + exists (i :: l). cbn [app]. split_and!.
      * econstructor; [lia|by rewrite Hget, decide_True|]. cbn.
        eapply free_path_frame; [exact Hp|]. intros j Hj. rewrite Hget, decide_False; [done|].
        intros ->. apply elem_of_app in Hj as [Hj%Hin|Hj%Hlow]; lia.
      * constructor; [|done]. rewrite Hin. lia.
      * intros k. rewrite elem_of_cons, Hin. split.
        -- intros [->|(? & ? & ?)]; [|split_and!; (done || lia)]. split_and!; [lia|lia|]. by exists e.
        -- intros (? & ? & ?). destruct (decide (k = i)); [by left|right]. split_and!; (done || lia).
  - eexists. split; [done|]. split_and!; cbn; [done| | |].
    + intros k Hk. apply Hlo. lia.
    + intros k x Hk Hx. destruct (decide (k = i)) as [->|]; [|apply Hhi; [lia|done]].
      exists e. assert (x = e) as -> by congruence. split; [done|]. unfold freed. by rewrite decide_False.
    + exists l. split_and!; [done|done|]. intros k. rewrite Hin. split; [intros (?&?&?); split_and!; (done||lia)|].
      intros (? & ? & Hzk). split_and!; try done. destruct (decide (k = i)) as [->|]; [|lia].
      destruct Hzk as (x & Hx & ?). congruence.
Qed.

Lemma grow_free_correct :
  NoDup l0 ->
  exists t', grow_free osize (alen t) t = Some t' /\ alen t' = alen t /\
    (forall k, k < osize -> core <$> aget t' k = core <$> aget t k /\
       (k <> 0 -> aget t' k = aget t k)) /\
    (forall k e, osize <= k -> aget t k = Some e -> exists e', aget t' k = Some e' /\ freed e e') /\
    exists l, free_chain t' 0 l /\ NoDup l /\ forall k, k ∈ l <-> k ∈ l0 \/ (osize <= k /\ zero_at k).
Proof using All.
  intros Hnd0. unfold grow_free. destruct (aget_is_Some t 0) as [e0 He0]; [lia|]. rewrite He0.
  destruct (for_down_rule freeing (fun i s => let '(table, free_index) := s in
      LET entry <- aget table i ;;
      if ie_bits entry =? 0 then
        LET upd <- table_upd table i (fun e => set_next free_index (set_bits IE_BITS_GEN_MASK e)) ;;
        Some (upd, i)
      else Some s) (Z.to_nat (alen t - osize)) (alen t - 1) (t, ie_next e0)) as ([t1 f] & Heq & Hf).
  { apply freeing_start. by exists e0. }
  { intros i [t1 f] Hi Hf. apply freeing_step; [lia|done]. }
  cbn beta in Heq. rewrite Heq. replace (alen t - 1 - Z.of_nat (Z.to_nat (alen t - osize))) with (osize - 1) in Hf by lia.
  destruct Hf as (Hl & Hlo & Hhi & l & Hp & Hnd & Hin). cbn in *.
  assert (aget t1 0 = Some e0) as H0 by (rewrite Hlo; [done|lia]).
  rewrite (table_upd_Some _ _ _ _ H0). eexists. split; [done|].
  assert (forall k, aget (aset t1 0 (set_next f e0)) k = if decide (k = 0) then Some (set_next f e0) else aget t1 k) as Hget.
  { intros k. case_decide; [subst; apply aget_aset_eq; lia|by apply aget_aset_ne]. }
  split_and!; [by rewrite alen_aset| | |].
  - intros k Hk. rewrite Hget. case_decide; [subst k; by rewrite He0|]. rewrite Hlo by lia. done.
  - intros k e Hk He. rewrite Hget, decide_False by lia. apply Hhi; [lia|done].
  - exists (l ++ l0). split_and!.
    + apply chain_path. exists (set_next f e0). split; [by rewrite Hget, decide_True|]. cbn.
      eapply free_path_frame; [exact Hp|]. intros j Hj. rewrite Hget, decide_False; [done|].
      apply elem_of_app in Hj as [Hj%Hin|Hj%Hlow]; lia.
    + apply NoDup_app. split_and!; [done| |done]. intros x Hx%Hin Hx'%Hlow. lia.
    + intros k. rewrite elem_of_app, Hin. split; [tauto|]. intros [?|[? ?]]; [tauto|]. left. split_and!; (done || lia).
Qed.
End Free.

(** ** The table and the tree after the transfer *)

Section Transferred.
Variables (t t3 : list ipc_entry) (m mm : gmap Z ipc_tree_entry) (osize size : Z).

Record transferred : Prop := {
  tr_alen : alen t3 = size;
  tr_old : forall k, k < osize -> set_index 0 <$> aget t3 k = set_index 0 <$> aget t k;
  tr_new : forall k e, osize <= k -> aget t3 k = Some e ->
    (ie_bits e = 0 /\ ie_object e = IO_NULL /\ ~ collides m k) \/
    (exists n te, m !! n = Some te /\ mm !! n = None /\ MACH_PORT_INDEX n = k /\ holds e n te /\
       (Z.land (ie_bits e) IE_BITS_COLLISION <> 0 <-> collides mm k));
  tr_moved : forall n te, m !! n = Some te -> mm !! n = None ->
    osize <= MACH_PORT_INDEX n < size /\ exists e, aget t3 (MACH_PORT_INDEX n) = Some e /\ holds e n te;
  tr_sub : forall n te, mm !! n = Some te -> m !! n = Some te
}.

Hypothesis Htr : transferred.

Lemma tr_collides_old k : ~ (osize <= k < size) -> collides mm k <-> collides m k.
Proof using All.
  intros Hk. unfold collides. split; intros (n & [te Hn] & Hi); exists n; (split; [|done]).
  - exists te. by apply (tr_sub Htr).
  - destruct (mm !! n) as [x|] eqn:E; [done|]. destruct (tr_moved Htr _ _ Hn E) as [? _]. lia.
Qed.

Lemma holds_type e n te : holds e n te -> ie_bits e <> 0 /\ IE_BITS_TYPE (ie_bits e) <> 0.
Proof. intros (_ & Ht & _). split; [|done]. intros Hz. by rewrite Hz in Ht. Qed.

Lemma tr_zero_none k e : osize <= k -> aget t3 k = Some e -> ie_bits e = 0 -> ~ collides m k /\ ie_object e = IO_NULL.
Proof using All.
  intros Hk He Hz. destruct (tr_new Htr k e Hk He) as [(_ & ? & ?)|(n & te & _ & _ & _ & Hh & _)]; [done|].
  by apply holds_type in Hh as [? _].
Qed.

Section Final.
Variables (t4 : list ipc_entry) (l0 : list Z).
Hypothesis Hwf_t : alen t = osize.
Hypothesis Hos : 0 < osize <= size.
Hypothesis Htable : table_wf None t.
Hypothesis Hcoll : collisions_wf t m.
Hypothesis Hfree_t : forall k, k ∈ l0 <-> is_free None t k.
Hypothesis Hlen4 : alen t4 = size.
Hypothesis Hold4 : forall k, k < osize -> core <$> aget t4 k = core <$> aget t3 k /\
  (k <> 0 -> aget t4 k = aget t3 k).
Hypothesis Hnew4 : forall k e, osize <= k -> aget t3 k = Some e ->
  exists e', aget t4 k = Some e' /\ freed e e'.

(** The entries of the final table. *)
Lemma final_get k e :
  aget t4 k = Some e ->
  (k < osize /\ exists x, aget t k = Some x /\ ie_bits e = ie_bits x /\ ie_object e = ie_object x /\
     (k <> 0 -> ie_request e = ie_request x)) \/
  (osize <= k /\ exists x, aget t3 k = Some x /\ freed x e).
Proof using All.
  intros He. destruct (decide (k < osize)) as [Hk|Hk].
  - left. split; [done|]. destruct (Hold4 k Hk) as [Hc Hne]. rewrite He in Hc.
    destruct (aget t3 k) as [y|] eqn:Ey; cbn in Hc; [|done].
    pose proof (tr_old Htr k Hk) as Ho. rewrite Ey in Ho. cbn in Ho.
    destruct (aget t k) as [x|]; [|done]. cbn in Ho. exists x. split; [done|].
    unfold core, set_index in *. split_and!; [congruence..|].
    intros Hk0. specialize (Hne Hk0). congruence.
  - right. split; [lia|]. destruct (aget_is_Some t3 k) as [x Hx].
    { rewrite (tr_alen Htr). apply aget_Some_range in He. lia. }
    exists x. split; [done|]. destruct (Hnew4 k x) as (e' & He' & Hf); [lia|done|]. congruence.
Qed.

Lemma final_table : table_wf None t4.
Proof using All.
  intros k e He. destruct (final_get k e He) as [(Hk & x & Hx & Hb & Ho & _)|(Hk & x & Hx & Hf)].
  - destruct (Htable k x Hx) as (? & ? & ?). unfold entry_wf. by rewrite Hb, Ho.
  - unfold freed in Hf. case_decide as Hz.
    + destruct Hf as (Hb & Ho & _). destruct (tr_zero_none k x Hk Hx Hz) as [_ Hn].
      pose proof gen_mask_is_gen as Hg. unfold entry_wf. rewrite Hb, Ho.
      split_and!; [by apply is_gen_u32|by intros; apply type_of_gen|done].
    + subst e. destruct (tr_new Htr k x Hk Hx) as [(? & _)|(n & te & _ & _ & _ & Hh & _)]; [done|].
      destruct Hh as (Hu & Ht & _). unfold entry_wf. split_and!; try done. lia.
Qed.

Lemma final_collisions : collisions_wf t4 mm.
Proof using All.
  intros k e He. pose proof (aget_Some_range _ _ _ He) as Hr. rewrite Hlen4 in Hr.
  destruct (final_get k e He) as [(Hk & x & Hx & Hb & _)|(Hk & x & Hx & Hf)].
  - destruct (Hcoll k x Hx) as [H1 H2]. unfold collision_wf. rewrite Hb. split.
    + rewrite tr_collides_old by lia. done.
    + intros n [te Hn]. apply H2. exists te. by apply (tr_sub Htr).
  - unfold freed in Hf. case_decide as Hz.
    + destruct Hf as (Hb & _). destruct (tr_zero_none k x Hk Hx Hz) as [Hnc _].
      assert (~ collides mm k) as Hnm.
      { intros (n & [te Hn] & Hi). apply Hnc. exists n. split; [|done]. exists te. by apply (tr_sub Htr). }
      unfold collision_wf. rewrite Hb, collision_of_gen by apply gen_mask_is_gen. split; [tauto|].
      intros n Hn Hi. destruct Hnm. by exists n.
    + subst e. destruct (tr_new Htr k x Hk Hx) as [(? & _)|(n & te & Hn & Hnn & Hi & Hh & Hc)]; [done|].
      split; [done|]. destruct Hh as (_ & _ & Hg & _). rewrite Hg. intros n' [te' Hn'] Hi' Heq.
      assert (n' = n) as -> by (apply index_gen_inj; congruence). congruence.
Qed.

Lemma final_is_free k : is_free None t4 k <-> k ∈ l0 \/ (osize <= k /\ zero_at t3 k).
Proof using All.
  rewrite Hfree_t. unfold is_free, zero_at. split.
  - intros (Hk0 & _ & e & He & Ht).
    destruct (final_get k e He) as [(Hk & x & Hx & Hb & _)|(Hk & x & Hx & Hf)].
    + left. split_and!; [done|done|]. exists x. by rewrite <- Hb.
    + right. split; [done|]. exists x. split; [done|]. unfold freed in Hf. case_decide as Hz; [done|].
      subst e. destruct (tr_new Htr k x Hk Hx) as [(? & _)|(n & te & _ & _ & _ & Hh & _)]; [done|].
      by apply holds_type in Hh as [_ ?].
  - intros [(Hk0 & _ & x & Hx & Ht)|(Hk & x & Hx & Hz)].
    + split_and!; [done|done|]. assert (k < osize) as Hk by (apply aget_Some_range in Hx; lia).
      pose proof (tr_old Htr k Hk) as Ho. rewrite Hx in Ho. destruct (Hold4 k Hk) as [_ Heq].
      rewrite Heq by lia. destruct (aget t3 k) as [y|]; [|done]. exists y. split; [done|].
      cbn in Ho. unfold set_index in Ho. congruence.
    + split_and!; [lia|done|]. destruct (Hnew4 k x Hk Hx) as (e' & He' & Hf). exists e'. split; [done|].
      unfold freed in Hf. rewrite decide_True in Hf by done. destruct Hf as (-> & _).
      apply type_of_gen, gen_mask_is_gen.
Qed.

Lemma final_core k : forall e3 e4, aget t3 k = Some e3 -> aget t4 k = Some e4 ->
  ie_object e4 = ie_object e3 /\ ie_index e4 = ie_index e3 /\
  IE_BITS_TYPE (ie_bits e4) = IE_BITS_TYPE (ie_bits e3).
Proof using All.
  intros e3 e4 H3 H4. destruct (decide (k < osize)) as [Hk|Hk].
  - destruct (Hold4 k Hk) as [Hc _]. rewrite H3, H4 in Hc. cbn in Hc. unfold core in Hc.
    injection Hc as -> -> ->. done.
  - destruct (Hnew4 k e3) as (e' & He' & Hf); [lia|done|]. assert (e' = e4) as -> by congruence.
    unfold freed in Hf. case_decide as Hz; [|by subst e4]. destruct Hf as (Hb & -> & ->).
    rewrite Hb, Hz. split_and!; try done. rewrite type_of_gen by apply gen_mask_is_gen. done.
Qed.

Lemma final_both k : is_Some (aget t4 k) <-> is_Some (aget t3 k).
Proof using All.
  split; intros [e He].
  - apply aget_is_Some. rewrite (tr_alen Htr). apply aget_Some_range in He. lia.
  - apply aget_is_Some. rewrite Hlen4. apply aget_Some_range in He. rewrite (tr_alen Htr) in He. done.
Qed.

Lemma final_slots : same_slots t3 t4 /\ (forall k, object_of t4 k = object_of t3 k) /\
  forall ref obj, live_send None t4 mm ref obj <-> live_send None t3 mm ref obj.
Proof using All.
  assert (forall k, match aget t3 k, aget t4 k with
    | Some e3, Some e4 => ie_object e4 = ie_object e3 /\ ie_index e4 = ie_index e3 /\
        IE_BITS_TYPE (ie_bits e4) = IE_BITS_TYPE (ie_bits e3)
    | None, None => True | _, _ => False end) as H.
  { intros k. pose proof (final_both k) as Hb. pose proof (final_core k) as Hc.
    destruct (aget t3 k), (aget t4 k); [by apply Hc| | |done]; exfalso;
      [destruct Hb as [_ Hb]|destruct Hb as [Hb _]]; destruct (Hb (ex_intro _ _ eq_refl)); done. }
  split_and!.
  - split; [rewrite Hlen4, (tr_alen Htr); done|]. intros p. specialize (H p).
    destruct (aget t3 p), (aget t4 p); try done. cbn. by destruct H as (_ & -> & _).
  - intros k. specialize (H k). unfold object_of. destruct (aget t3 k), (aget t4 k); try done.
    by destruct H as (-> & _).
  - intros [k|n] obj; [|done]. unfold live_send. cbn. specialize (H k).
    destruct (aget t3 k), (aget t4 k); try done. cbn. destruct H as (Ho & _ & Ht).
    split; intros (? & b & Hb & Hty); (split; [done|]); injection Hb as <- <-; eexists;
      (split; [by rewrite Ho|congruence]).
Qed.

Lemma final_caps n : caps t4 mm n = caps t m n.
Proof using All.
  unfold caps at 1. destruct (aget t4 (MACH_PORT_INDEX n)) as [e|] eqn:Ee.
  - destruct (final_get _ _ Ee) as [(Hk & x & Hx & Hb & Ho & Hr)|(Hk & x & Hx & Hf)].
    + assert (mm !! n = m !! n) as ->.
      { destruct (m !! n) as [te|] eqn:E; [|destruct (mm !! n) as [y|] eqn:Ey; [|done]].
        - destruct (mm !! n) as [y|] eqn:Ey; [apply (tr_sub Htr) in Ey; congruence|].
          destruct (tr_moved Htr _ _ E Ey) as [? _]. lia.
        - apply (tr_sub Htr) in Ey. congruence. }
      unfold caps. rewrite Hx, Hb. destruct (decide (MACH_PORT_INDEX n = 0)) as [Hz|Hz].
      * destruct (Htable _ _ Hx) as (_ & Ht & _). specialize (Ht Hz).
        unfold entry_cap, cap_of. by rewrite Hb, Ht.
      * unfold entry_cap. by rewrite Hb, Ho, Hr.
    + assert (aget t (MACH_PORT_INDEX n) = None) as Hnone by (apply aget_None; lia).
      unfold caps. rewrite Hnone. unfold freed in Hf. case_decide as Hz.
      * destruct Hf as (Hb & _). destruct (tr_zero_none _ x Hk Hx Hz) as [Hnc _].
        assert (m !! n = None) as Hm.
        { apply eq_None_not_Some. intros Hs. apply Hnc. by exists n. }
        assert (mm !! n = None) as ->.
        { destruct (mm !! n) eqn:E; [|done]. apply (tr_sub Htr) in E. congruence. }
        rewrite Hm. unfold entry_cap, cap_of. rewrite Hb, type_of_gen by apply gen_mask_is_gen.
        by destruct (_ =? _).
      * subst e. destruct (tr_new Htr _ x Hk Hx) as [(? & _)|(n0 & te & Hn & Hnn & Hi & Hhd & Hc)]; [done|].
        destruct Hhd as (_ & _ & Hg & Hcap). rewrite Hg.
        destruct (Z.eqb_spec (MACH_PORT_GEN n0) (MACH_PORT_GEN n)) as [Heq|Hne].
        -- assert (n0 = n) as -> by (apply index_gen_inj; congruence). by rewrite Hn.
        -- destruct (m !! n) as [te'|] eqn:E; [|destruct (mm !! n) eqn:Ey; [apply (tr_sub Htr) in Ey; congruence|done]].
           destruct (mm !! n) as [y|] eqn:Ey; [apply (tr_sub Htr) in Ey; congruence|].
           destruct (tr_moved Htr _ _ E Ey) as [_ (y & Hy & _ & _ & Hgy & _)].
           assert (y = x) as -> by congruence. congruence.
  - apply aget_None in Ee. rewrite Hlen4 in Ee. unfold caps.
    rewrite (proj2 (aget_None t (MACH_PORT_INDEX n))) by lia.
    destruct (m !! n) as [te'|] eqn:E; [|destruct (mm !! n) eqn:Ey; [apply (tr_sub Htr) in Ey; congruence|done]].
    destruct (mm !! n) as [y|] eqn:Ey; [apply (tr_sub Htr) in Ey; congruence|].
    destruct (tr_moved Htr _ _ E Ey) as [? _]. lia.
Qed.
End Final.
End Transferred.

(** ** The transfer *)

Lemma size_list_to_set_le (l : list Z) : (size (list_to_set l : gset Z) <= length l)%nat.
Proof.
  induction l as [|x l IH]; cbn [list_to_set length]; [by rewrite size_empty|].
  rewrite (size_union_alt {[x]} (list_to_set l)), size_singleton.
  assert (size (list_to_set l ∖ {[x]} : gset Z) <= size (list_to_set l : gset Z))%nat
    by (apply subseteq_size; set_solver). lia.
Qed.

Lemma small_count_bounds size nsize m :
  size <= nsize -> 0 <= small_count size nsize m <= nsize - size /\
  small_count size nsize m <= Z.of_nat (base.size m).
Proof.
  intros Hs. unfold small_count. split; [split; [lia|]|].
  - transitivity (Z.of_nat (base.size (list_to_set (seqZ size (nsize - size)) : gset Z))).
    + apply inj_le, subseteq_size. intros i Hi%elem_small_indices.
      apply elem_of_list_to_set, elem_of_seqZ. lia.
    + rewrite size_list_to_set by apply NoDup_seqZ. rewrite length_seqZ. lia.
  - apply inj_le. transitivity (base.size (set_map MACH_PORT_INDEX (dom m) : gset Z)).
    + apply subseteq_size. intros i Hi%elem_small_indices. apply elem_tree_indices. tauto.
    + unfold set_map. rewrite size_list_to_set_le, length_fmap. by rewrite <- size_dom.
Qed.

Section Transfer.
Variables (st : kstate) (t : list ipc_entry) (osize size nsize : Z).
Let sp := k_space st.
Let m := tree_map sp.
Hypothesis Hos : 0 < osize <= size.
Hypothesis Hns : size <= nsize <= MACH_PORT_INDEX MACH_PORT_DEAD.
Hypothesis Hsize : is_table_size sp = size.
Hypothesis Hsplay : splay_wf (is_tree sp).
Hypothesis Htree : tree_wf (is_self sp) None m.
Hypothesis Htotal : is_tree_total sp = Z.of_nat (base.size m).
Hypothesis Hhash : hash_wf None m st.
Hypothesis Hold : forall k, k < osize -> set_index 0 <$> aget (is_table sp) k = set_index 0 <$> aget t k.
Hypothesis Hzero : forall k e, osize <= k -> aget (is_table sp) k = Some e -> ie_bits e = 0 /\ ie_object e = IO_NULL.

(** The four regions of the tree. *)
Lemma transfer_split :
  exists big small0 small move0 move ign,
    ipc_splay_tree_split (is_tree sp) (MACH_PORT_MAKE nsize 0) (is_tree sp) = Some (big, small0) /\
    ipc_splay_tree_split small0 (MACH_PORT_MAKE size 0) small0 = Some (small, move0) /\
    ipc_splay_tree_split move0 (MACH_PORT_MAKE osize 0) move0 = Some (move, ign) /\
    splay_wf big /\ splay_wf small /\ splay_wf move /\ splay_wf ign /\
    splay_elems (is_tree sp) = splay_elems ign ++ splay_elems move ++ splay_elems small ++ splay_elems big /\
    (forall p, p ∈ splay_elems ign -> MACH_PORT_INDEX p.1 < osize) /\
    (forall p, p ∈ splay_elems move -> osize <= MACH_PORT_INDEX p.1 < size) /\
    (forall p, p ∈ splay_elems small -> size <= MACH_PORT_INDEX p.1 < nsize) /\
    (forall p, p ∈ splay_elems big -> nsize <= MACH_PORT_INDEX p.1).
Proof using All.
  pose proof (tree_wf_names _ _ _ Hsplay Htree) as Hnu.
  assert (is_index nsize /\ is_index size /\ is_index osize) as (Hi1 & Hi2 & Hi3) by (unfold is_index; lia).
  destruct (split_index (is_tree sp) (is_tree sp) nsize Hsplay Hnu Hi1)
    as (big & small0 & Heq1 & Hw1 & Hw1' & _ & Hnu1 & He1 & Hlt1 & Hge1).
  destruct (split_index small0 small0 size Hw1' Hnu1 Hi2)
    as (small & move0 & Heq2 & Hw2 & Hw2' & _ & Hnu2 & He2 & Hlt2 & Hge2).
  destruct (split_index move0 move0 osize Hw2' Hnu2 Hi3)
    as (move & ign & Heq3 & Hw3 & Hw3' & _ & _ & He3 & Hlt3 & Hge3).
  exists big, small0, small, move0, move, ign. do 7 (split; [done|]).
  rewrite He2 in He1, Hlt1. rewrite He3 in He1, Hlt1, Hlt2. rewrite !Forall_app in *. rewrite !Forall_forall in *.
  rewrite He1. split; [by app_norm|]. split_and!; intros p Hp.
  - by apply Hlt3.
  - split; [by apply Hge3|]. by apply Hlt2.
  - split; [by apply Hge2|]. by apply Hlt1.
  - by apply Hge1.
Qed.

Section Regions.
Variables (ign move rest : list (Z * ipc_tree_entry)).
Hypothesis Helems : splay_elems (is_tree sp) = ign ++ move ++ rest.
Hypothesis Hign : forall p, p ∈ ign -> MACH_PORT_INDEX p.1 < osize.
Hypothesis Hmove : forall p, p ∈ move -> osize <= MACH_PORT_INDEX p.1 < size.
Hypothesis Hrest : forall p, p ∈ rest -> size <= MACH_PORT_INDEX p.1.

Lemma tree_elem n te : m !! n = Some te <-> (n, te) ∈ ign ++ move ++ rest.
Proof using All.
  unfold m, tree_map, splay_map. rewrite <- elem_of_list_to_map, Helems; [done|].
  by apply keys_sorted_NoDup, splay_wf_sorted.
Qed.

Lemma moving_start :
  moving osize size sp t (k_ghash st) ign move rest [] [] move
    (is_table sp) (is_tree_total sp) (is_tree_hash sp) (k_ghash st).
Proof using All.
  pose proof (splay_wf_sorted _ Hsplay) as Hs. rewrite Helems in Hs.
  assert (map_now ign rest [] move = m) as Hmm.
  { unfold map_now, tree_now, m, tree_map, splay_map. by rewrite Helems. }
  constructor; try done.
  - pose proof (keys_sorted_NoDup _ Hs) as Hnd. rewrite !fmap_app in Hnd.
    by apply NoDup_app in Hnd as (_ & _ & [Hnd _]%NoDup_app).
  - rewrite Hmm. unfold state_now. destruct Hhash. constructor; done.
  - by rewrite Hmm.
  - intros k e Hk He. left. destruct (Hzero k e) as [? ?]; [lia|done|]. split_and!; try done. set_solver.
  - set_solver.
Qed.

Lemma moving_end kept t3 tot h g :
  moving osize size sp t (k_ghash st) ign move rest move kept [] t3 tot h g ->
  transferred t t3 m (map_now ign rest kept []) osize size.
Proof using All.
  intros Hmv. assert (alen t3 = size) as Hl by (by eapply moving_alen).
  pose proof (mv_sorted _ _ _ _ _ _ _ _ _ _ _ _ _ _ _ Hmv) as Hs.
  assert (forall n te, map_now ign rest kept [] !! n = Some te <-> (n, te) ∈ ign ++ kept ++ rest) as Hmm.
  { intros n te. unfold map_now, tree_now in *. cbn [app] in *. rewrite elem_of_list_to_map; [done|].
    by apply keys_sorted_NoDup. }
  pose proof (mv_kept _ _ _ _ _ _ _ _ _ _ _ _ _ _ _ Hmv) as Hk.
  assert (forall k, osize <= k < size -> collides (map_now ign rest kept []) k <->
    exists p, p ∈ kept /\ MACH_PORT_INDEX p.1 = k) as Hck.
  { intros k Hkr. unfold collides. split.
    - intros (n & [te Hn%Hmm] & Hi). exists (n, te). split; [|done].
      rewrite !elem_of_app in Hn. destruct Hn as [Hn%Hign|[Hn|Hn%Hrest]]; [cbn in *; lia|done|cbn in *; lia].
    - intros ([n te] & Hp & Hi). exists n. split; [|done]. exists te. apply Hmm. set_solver. }
  constructor.
  - done.
  - apply (mv_old _ _ _ _ _ _ _ _ _ _ _ _ _ _ _ Hmv).
  - intros k e Hk0 He. assert (osize <= k < size) as Hkr by (apply aget_Some_range in He; lia).
    destruct (mv_new _ _ _ _ _ _ _ _ _ _ _ _ _ _ _ Hmv k e Hkr He)
      as [(Hz & Ho & Hno)|(n & te & Hp & Hnk & Hi & Hh & Hc)].
    + left. split_and!; try done. intros (n & [te Hn%tree_elem] & Hi). rewrite !elem_of_app in Hn.
      destruct Hn as [Hn%Hign|[Hn|Hn%Hrest]]; [cbn in *; lia| |cbn in *; lia].
      by apply (Hno (n, te)).
    + right. exists n, te. split_and!; try done.
      * apply tree_elem. set_solver.
      * apply eq_None_not_Some. intros [x Hx%Hmm]. rewrite !elem_of_app in Hx.
        pose proof (Hmove _ Hp) as Hr. cbn in Hr.
        destruct Hx as [Hx%Hign|[Hx|Hx%Hrest]]; [cbn in *; lia| |cbn in *; lia].
        apply Hnk. apply list_elem_of_fmap. by exists (n, x).
      * rewrite Hc, Hck by lia. done.
  - intros n te Hn%tree_elem Hnone. assert (~ (n, te) ∈ ign ++ kept ++ rest) as Hno.
    { intros Hx%Hmm. congruence. }
    rewrite !elem_of_app in Hn, Hno. assert ((n, te) ∈ move) as Hin by tauto.
    split; [by apply (Hmove (n, te))|]. apply (mv_moved _ _ _ _ _ _ _ _ _ _ _ _ _ _ _ Hmv); [done|].
    intros (q & Hq & Hqk)%list_elem_of_fmap. apply Hno. right. left.
    assert (q ∈ move) as Hqm by by apply Hk.
    pose proof (mv_names _ _ _ _ _ _ _ _ _ _ _ _ _ _ _ Hmv) as Hnd.
    destruct q as [n' te']. cbn in Hq. subst n'.
    assert ((list_to_map move : gmap Z ipc_tree_entry) !! n = Some te) as H1 by by apply elem_of_list_to_map.
    assert ((list_to_map move : gmap Z ipc_tree_entry) !! n = Some te') as H2 by by apply elem_of_list_to_map.
    congruence.
  - intros n te Hn%Hmm. apply tree_elem. set_solver.
Qed.
End Regions.

(** The indices in [[size, nsize)] are those of the third region. *)
Lemma small_region ign kept small big :
  keys_sorted (ign ++ kept ++ small ++ big) ->
  (forall p, p ∈ ign ++ kept -> MACH_PORT_INDEX p.1 < size) ->
  (forall p, p ∈ small -> size <= MACH_PORT_INDEX p.1 < nsize) ->
  (forall p, p ∈ big -> nsize <= MACH_PORT_INDEX p.1) ->
  small_indices size nsize (list_to_map (ign ++ kept ++ small ++ big)) = list_indices small ∖ {[0]}.
Proof using All.
  intros Hs Hlo Hsm Hbig. apply set_eq. intros i.
  rewrite elem_small_indices, elem_of_difference, elem_of_singleton. unfold list_indices, collides.
  rewrite elem_of_list_to_set, list_elem_of_fmap. setoid_rewrite list_elem_of_fmap.
  pose proof (keys_sorted_NoDup _ Hs) as Hnd. split.
  - intros [Hr (n & [te Hn] & Hi)]. split; [|lia]. apply elem_of_list_to_map in Hn; [|done].
    exists n. split; [done|]. exists (n, te). split; [done|].
    rewrite app_assoc, !elem_of_app, <- elem_of_app in Hn.
    destruct Hn as [Hn%Hlo|[Hn|Hn%Hbig]]; [cbn in *; lia|done|cbn in *; lia].
  - intros [(n & -> & ([n' te] & -> & Hp)) Hi0]. split; [by apply Hsm in Hp|]. exists n'.
    split; [|done]. exists te. apply elem_of_list_to_map; [done|]. set_solver.
Qed.

Definition transfer_result (t3 : list ipc_entry) (h : Z) (g : ghash)
    (trf : ipc_splay_tree ipc_tree_entry) (mm : gmap Z ipc_tree_entry) : kstate :=
  mk_kstate (sp_set_tree trf (sp_set_small (small_count size nsize mm)
    (sp_set_total (Z.of_nat (base.size mm)) (sp_set_hash h (sp_set_table t3 sp))))) g.

Lemma grow_transfer_correct :
  exists t3 h g trf mm,
    grow_transfer osize size nsize st = Some (transfer_result t3 h g trf mm) /\
    transferred t t3 m mm osize size /\ splay_wf trf /\ splay_map trf = mm /\
    hash_wf None mm (transfer_result t3 h g trf mm) /\ ghash_frame (is_self sp) (k_ghash st) g.
Proof using All.
  destruct transfer_split as (big & small0 & small & move0 & move & ign & Hs1 & Hs2 & Hs3 & Hwb & Hws & Hwm &
    Hwi & He & Hign & Hmove & Hsm & Hbig).
  set (L := splay_elems ign) in *. set (M := splay_elems move) in *.
  set (S := splay_elems small) in *. set (B := splay_elems big) in *.
  assert (forall p, p ∈ S ++ B -> size <= MACH_PORT_INDEX p.1) as Hrest.
  { intros p [Hp%Hsm|Hp%Hbig]%elem_of_app; lia. }
  assert (forall n te, (n, te) ∈ M -> tentry_wf (is_self sp) None n te /\ osize <= MACH_PORT_INDEX n < size) as Hmw.
  { intros n te Hp. split; [|by apply (Hmove (n, te))]. apply Htree.
    apply (tree_elem L M (S ++ B) He Hign Hmove Hrest). set_solver. }
  pose proof (moving_start L M (S ++ B) He Hign Hmove Hrest) as Hstart.
  destruct (move_loop_correct osize size sp t (k_ghash st) L M (S ++ B) Hos Hsize Hmw M [] []
    _ _ _ _ Hstart) as (t3 & tot & h & g & Hl1 & Hend).
  assert (state_now sp (is_table sp) (is_tree_total sp) (is_tree_hash sp) (k_ghash st) = st) as Hst.
  { unfold state_now, sp. destruct st as [[] ?]. done. }
  rewrite Hst in Hl1, Hend. cbn [app] in Hend.
  destruct (splay_for_each_correct (grow_move_body osize size) (Some st) move Hwm) as (move' & Hfe & Hwm' & Hem').
  fold M in Hfe, Hem'. rewrite Hl1 in Hfe. rewrite <- Hem' in Hend. set (K := splay_elems move') in *.
  destruct (splay_for_each_correct grow_count_body (0, 0) small Hws) as (small' & Hfe2 & Hws' & Hes').
  pose proof (splay_wf_sorted _ Hws) as HsoS. fold S in HsoS, Hfe2, Hes'.
  destruct (count_loop_correct S 0 0 HsoS) as [Hcnt Hkeep].
  { intros p Hp%Hsm. lia. }
  rewrite Hkeep in Hes'. set (mm := map_now L (S ++ B) K []).
  pose proof (mv_sorted _ _ _ _ _ _ _ _ _ _ _ _ _ _ _ Hend) as Hso. unfold tree_now in Hso. cbn [app] in Hso.
  assert (small_indices size nsize mm = list_indices S ∖ {[0]}) as Hsmall.
  { apply (small_region L K S B); try done. intros p [Hp%Hign|Hp]%elem_of_app; [lia|].
    apply (mv_kept _ _ _ _ _ _ _ _ _ _ _ _ _ _ _ Hend), Hmove in Hp. lia. }
  assert (0 + Z.of_nat (base.size (list_indices S ∖ {[0]})) = small_count size nsize mm) as Hcount.
  { unfold small_count. by rewrite Hsmall. }
  rewrite Hcount in Hcnt. destruct (small_count_bounds size nsize mm) as [Hb1 Hb2]; [lia|].
  pose proof (mv_total _ _ _ _ _ _ _ _ _ _ _ _ _ _ _ Hend) as Htot. fold mm in Htot.
  rewrite app_assoc in Hso. pose proof Hso as (_ & HsoSB & _)%keys_sorted_app. rewrite <- app_assoc in Hso.
  destruct (join_index big small') as (b1 & x1 & Hj1 & Hwb1 & Heb1); [done|done|by rewrite Hes'|].
  rewrite Hes' in Heb1. fold B in Heb1. pose proof Hso as (_ & HsoKSB & _)%keys_sorted_app.
  destruct (join_index b1 move') as (b2 & x2 & Hj2 & Hwb2 & Heb2); [done|done|by rewrite Heb1|].
  rewrite Heb1 in Heb2. fold K in Heb2.
  destruct (join_index b2 ign) as (b3 & x3 & Hj3 & Hwb3 & Heb3); [done|done|by rewrite Heb2|].
  rewrite Heb2 in Heb3. fold L in Heb3.
  assert (splay_map b3 = mm) as Hmap3.
  { unfold splay_map, mm, map_now, tree_now. rewrite Heb3. done. }
  exists t3, h, g, b3, mm. split.
  - unfold grow_transfer. fold sp. rewrite Hs1, Hs2, Hs3, Hfe, Hfe2. rewrite Hcnt.
    rewrite (proj2 (Z.leb_le _ _)) by lia. cbn [k_space state_now is_tree_total sp_set_total].
    rewrite Htot, (proj2 (Z.leb_le _ _)) by lia. rewrite Hj1, Hj2, Hj3. done.
  - split; [by eapply moving_end|]. split_and!; try done.
    + destruct (mv_hash _ _ _ _ _ _ _ _ _ _ _ _ _ _ _ Hend). constructor; done.
    + apply (mv_frame _ _ _ _ _ _ _ _ _ _ _ _ _ _ _ Hend).
Qed.
End Transfer.

Lemma small_count_empty a b : small_count a b ∅ = 0.
Proof.
  unfold small_count. replace (small_indices a b ∅) with (∅ : gset Z); [done|].
  apply set_eq. intros i. rewrite elem_small_indices. unfold collides. split; [set_solver|].
  intros (_ & n & [? Hn] & _). by rewrite lookup_empty in Hn.
Qed.

(** ** Installing the new table *)

Section Install.
Variable its : list Z.
Hypothesis Hits : entries_sizes_ok its.
Variables (st : kstate) (size nsize : Z).
Let sp := k_space st.
Let t := is_table sp.
Let m := tree_map sp.
Let osize := is_table_size sp.
Let nits := is_table_next sp + 1.
Hypothesis Hwf : space_wf its None st.
Hypothesis Hsz : aget its (is_table_next sp) = Some size.
Hypothesis Hnsz : aget its nits = Some nsize.
Hypothesis Hgrow : osize < size <= nsize.

Lemma install_ranges : 0 < osize <= size /\ size <= nsize <= MACH_PORT_INDEX MACH_PORT_DEAD /\ alen t = osize.
Proof using All.
  destruct (size_range its Hits _ _ Hwf) as [Hs Hl]. fold sp t osize in Hs, Hl.
  pose proof (entries_sizes_range _ _ _ Hits Hnsz). lia.
Qed.

Let t0 := grow_copy t osize size.
Let st1 := on_space (fun s => sp_set_size size nits (sp_set_table t0 s)) st.

Lemma install_copy k e :
  aget t0 k = Some e ->
  (k < osize /\ exists x, aget t k = Some x /\ e = set_index 0 x) \/ (osize <= k < size /\ e = zero_entry).
Proof using All.
  destruct install_ranges as (H1 & H2 & H3). unfold t0. rewrite grow_copy_get by (done || lia).
  case_decide as Hk.
  - destruct (aget t k) as [x|] eqn:E; [|done]. intros [= <-]. left. eauto.
  - case_decide; [|done]. intros [= <-]. right. split; [lia|done].
Qed.

Lemma install_rehash :
  exists t2, grow_rehash osize st1 = Some (on_space (sp_set_table t2) st1) /\
    same_entries t0 t2 /\ hash_wf None m (on_space (sp_set_table t2) st1).
Proof using All.
  destruct install_ranges as (H1 & H2 & H3).
  assert (alen t0 = size) as Hl0 by (apply grow_copy_alen; [done|lia]).
  destruct (empty_slots_wf t0) as [Hlw Hne]; [lia|intros p; apply grow_copy_slot; [done|lia]|].
  destruct (grow_rehash_correct st1 t0 osize) as (t2 & Heq & Hse & Hw & Hh); try done; [rewrite Hl0; done || lia..| |].
  { intros k e Hk He Ht. destruct (install_copy k e He) as [(_ & x & Hx & ->)|[? _]]; [|lia]. cbn in Ht.
    assert (live_send None t m (InTable k) (ie_object x)) as Hl.
    { split; [done|]. exists (ie_bits x). cbn. by rewrite Hx. }
    destruct (wf_sends _ _ _ Hwf _ _ Hl) as [Hn _]. split; [|done].
    apply aget_Some_range in Hx as Hr. destruct (decide (k = 0)) as [->|]; [|lia].
    destruct (wf_table _ _ _ Hwf _ _ Hx) as (_ & H0 & _). rewrite H0 in Ht by done. done. }
  exists t2. split; [done|]. split; [done|].
  assert (forall k, match aget t k with
    | Some x => exists e, aget t2 k = Some e /\ ie_bits e = ie_bits x /\ ie_object e = ie_object x
    | None => forall e, aget t2 k = Some e -> ie_bits e = 0 end) as Hent.
  { intros k. destruct (aget t k) as [x|] eqn:Ex.
    - destruct (aget_is_Some t2 k) as [e He].
      { destruct Hse as [-> _]. apply aget_Some_range in Ex. lia. }
      exists e. split; [done|]. destruct (same_entries_fields _ _ _ _ Hse He) as (y & Hy & -> & -> & _).
      destruct (install_copy k y Hy) as [(_ & z & Hz & ->)|[? _]]; [|apply aget_Some_range in Ex; lia].
      by assert (z = x) as -> by congruence.
    - intros e He. destruct (same_entries_fields _ _ _ _ Hse He) as (y & Hy & -> & _).
      destruct (install_copy k y Hy) as [(_ & z & Hz & ->)|[_ ->]]; [congruence|done]. }
  assert (forall ref obj, live_send None t2 m ref obj <-> live_send None t m ref obj) as Hlive.
  { intros [k|n] obj; [|done]. unfold live_send. cbn. specialize (Hent k). destruct (aget t k) as [x|].
    - destruct Hent as (e & -> & Hb & Ho). cbn. by rewrite Hb, Ho.
    - split; [|by intros (_ & b & ? & _)]. intros (_ & b & Hb & Ht). destruct (aget t2 k) as [e|]; [|done].
      cbn in Hb. injection Hb as <- _. by rewrite (Hent e eq_refl) in Ht. }
  constructor; cbn.
  - destruct Hse as [-> _]. done.
  - done.
  - intros k. rewrite Hh. setoid_rewrite Hlive. unfold is_send. split.
    + intros [Hk (e & He & Ht)]. destruct (install_copy k e He) as [(_ & x & Hx & ->)|[? _]]; [|lia].
      exists (ie_object x). split; [done|]. exists (ie_bits x). cbn. by rewrite Hx.
    + intros (obj & _ & b & Hb & Ht). cbn in Hb. destruct (aget t k) as [x|] eqn:Ex; [|done].
      injection Hb as <- _. pose proof (aget_Some_range _ _ _ Ex) as Hr.
      assert (k < osize) as Hk by lia. split; [done|]. exists (set_index 0 x). split; [|done].
      unfold t0. rewrite grow_copy_get, decide_True, Ex by (done || lia). done.
  - apply (wf_ghash _ _ _ Hwf).
  - intros n obj. rewrite Hlive. apply (wf_ghashed _ _ _ Hwf).
  - apply (wf_hash _ _ _ Hwf).
  - eapply sends_wf_transfer; [exact Hlive|apply (wf_sends _ _ _ Hwf)].
Qed.

(** With an empty tree there is nothing to transfer. *)
Lemma transfer_nothing st2 t2 :
  st2 = on_space (sp_set_table t2) st1 -> m = ∅ ->
  st2 = transfer_result st2 size nsize t2 (is_tree_hash sp) (k_ghash st) (is_tree sp) m.
Proof using All.
  intros -> Hm. pose proof (wf_total _ _ _ Hwf) as Hto. fold sp m in Hto.
  pose proof (wf_small _ _ _ Hwf) as Hsm. fold sp m in Hsm.
  rewrite Hm, small_count_empty in Hsm. rewrite Hm, map_size_empty in Hto.
  unfold transfer_result. rewrite Hm, small_count_empty, map_size_empty.
  transitivity (mk_kstate (k_space (on_space (sp_set_table t2) st1)) (k_ghash st)); [reflexivity|].
  f_equal. apply space_ext; try reflexivity; [exact Hto|exact Hsm].
Qed.

Lemma install_table t2 :
  same_entries t0 t2 ->
  (forall k, k < osize -> set_index 0 <$> aget t2 k = set_index 0 <$> aget t k) /\
  (forall k e, osize <= k -> aget t2 k = Some e -> ie_bits e = 0 /\ ie_object e = IO_NULL).
Proof using All.
  intros Hse. destruct install_ranges as (H1 & H2 & H3). split.
  - intros k Hk. destruct Hse as [_ ->]. unfold t0. rewrite grow_copy_get, decide_True by (done || lia).
    by destruct (aget t k).
  - intros k e Hk He. destruct (same_entries_fields _ _ _ _ Hse He) as (y & Hy & -> & -> & _).
    destruct (install_copy k y Hy) as [[? _]|[_ ->]]; [lia|done].
Qed.

(** The state after the transfer, whether or not the tree had entries. *)
Lemma install_transfer st2 t2 :
  st2 = on_space (sp_set_table t2) st1 ->
  same_entries t0 t2 -> hash_wf None m st2 ->
  exists t3 h g trf mm,
    (if 0 <? is_tree_total (k_space st2) then grow_transfer osize size nsize st2 else Some st2) =
      Some (transfer_result st2 size nsize t3 h g trf mm) /\
    transferred t t3 m mm osize size /\ splay_wf trf /\ splay_map trf = mm /\
    hash_wf None mm (transfer_result st2 size nsize t3 h g trf mm) /\
    ghash_frame (is_self sp) (k_ghash st) g.
Proof using All.
  intros Hst2 Hse Hh2. destruct install_ranges as (H1 & H2 & H3).
  pose proof (wf_total _ _ _ Hwf) as Hto. fold sp m in Hto. destruct (install_table t2 Hse) as [Hold Hzero].
  assert (is_tree_total (k_space st2) = is_tree_total sp /\ is_table (k_space st2) = t2 /\
    tree_map (k_space st2) = m /\ is_self (k_space st2) = is_self sp /\ is_tree (k_space st2) = is_tree sp /\
    is_table_size (k_space st2) = size /\ k_ghash st2 = k_ghash st)
    as (Ht2 & Htb & Hm2 & Hself & Htree & Hsize & Hgh) by (rewrite Hst2; done).
  rewrite Ht2. destruct (Z.ltb_spec 0 (is_tree_total sp)) as [Hpos|Hz].
  - destruct (grow_transfer_correct st2 t osize size nsize)
      as (t3 & h & g & trf & mm & Heq & Htr & Hw & Hmap & Hhf & Hfr);
      rewrite ?Htb, ?Hm2, ?Hself, ?Htree, ?Ht2; try done.
    { apply (wf_splay _ _ _ Hwf). } { apply (wf_tree _ _ _ Hwf). }
    rewrite Hm2 in Htr. rewrite Hself, Hgh in Hfr. exists t3, h, g, trf, mm. done.
  - assert (m = ∅) as Hm by (apply map_size_empty_inv; lia).
    exists t2, (is_tree_hash sp), (k_ghash st), (is_tree sp), m.
    rewrite <- (transfer_nothing st2 t2) by done. split_and!; try done.
    + constructor; try done.
      * destruct Hse as [-> _]. apply grow_copy_alen; [done|lia].
      * intros k e Hk He. left. destruct (Hzero k e Hk He). split_and!; try done.
        rewrite Hm. intros (n & [? Hn] & _). by rewrite lookup_empty in Hn.
      * rewrite Hm. intros n te Hn. by rewrite lookup_empty in Hn.
    + apply (wf_splay _ _ _ Hwf).
Qed.

Lemma grow_install_correct :
  exists st', grow_install osize size nsize nits st = Some st' /\ space_wf its None st' /\
    (forall n, space_caps (k_space st') n = space_caps sp n) /\
    ghash_frame (is_self sp) (k_ghash st) (k_ghash st') /\
    is_self (k_space st') = is_self sp /\ is_growing (k_space st') = is_growing sp /\
    is_table_size (k_space st') = size /\ is_table_next (k_space st') = nits.
Proof using All.
  destruct install_ranges as (H1 & H2 & H3).
  destruct install_rehash as (t2 & Hre & Hse & Hh2).
  remember (on_space (sp_set_table t2) st1) as st2 eqn:Hst2.
  destruct (install_transfer st2 t2 Hst2 Hse Hh2) as (t3 & h & g & trf & mm & Hif & Htr & Hw & Hmap & Hhf & Hfr).
  destruct (wf_free _ _ _ Hwf) as (l0 & Hc & Hnd & Hfree). fold sp t in Hc, Hfree.
  assert (forall j, j ∈ l0 -> 0 < j < osize) as Hlow.
  { intros j (Hj & _ & x & Hx & _)%Hfree. apply aget_Some_range in Hx. lia. }
  destruct (grow_free_correct t3 osize l0) as (t4 & Hgf & Hl4 & Hold4 & Hnew4 & l & Hc4 & Hnd4 & Hin4); try done.
  { rewrite (tr_alen _ _ _ _ _ _ Htr). lia. }
  { eapply free_chain_frame; [exact Hc|]. intros j Hj.
    assert (j < osize) as Hjo by (destruct Hj as [->|Hj%Hlow]; lia).
    pose proof (tr_old _ _ _ _ _ _ Htr j Hjo) as Ho.
    destruct (aget t3 j), (aget t j); cbn in *; try done. unfold set_index in Ho. unfold ie_next. congruence. }
  rewrite (tr_alen _ _ _ _ _ _ Htr) in Hgf, Hl4.
  pose proof (wf_table _ _ _ Hwf) as Htw. pose proof (wf_collisions _ _ _ Hwf) as Hcw. fold sp t m in Htw, Hcw.
  unfold grow_install. fold sp t t0 st1. rewrite Hre, Hif.
  change (is_table (k_space (transfer_result st2 size nsize t3 h g trf mm))) with t3. rewrite Hgf.
  eexists. split; [done|]. clear Hif Hre Hh2. subst st2. split.
  - destruct (final_slots t t3 m mm osize size Htr t4 l0 H3 H1 Htw Hcw Hfree Hl4 Hold4 Hnew4) as (Hsl & Hob & Hli).
    assert (hash_wf None mm (on_space (sp_set_table t4)
      (transfer_result (on_space (sp_set_table t2) st1) size nsize t3 h g trf mm))) as [? ? ? ? ? ? ?].
    { eapply hash_wf_table; [exact Hhf|exact Hsl|exact Hob|exact Hli]. }
    set (stf := on_space (sp_set_table t4)
      (transfer_result (on_space (sp_set_table t2) st1) size nsize t3 h g trf mm)) in *.
    assert (tree_map (k_space stf) = mm) as Hmf by exact Hmap.
    assert (is_table (k_space stf) = t4) as Htf by reflexivity.
    assert (next_size its (k_space stf) = nsize) as Hnf.
    { unfold next_size. change (is_table_next (k_space stf)) with nits. by rewrite Hnsz. }
    constructor; rewrite ?Hmf, ?Htf, ?Hnf; try assumption.
    + apply (wf_active _ _ _ Hwf).
    + unfold sizes_wf. rewrite Htf. change (is_table_next (k_space stf)) with nits.
      change (is_table_size (k_space stf)) with size. split_and!; [done| |by exists nsize].
      unfold nits. by replace (is_table_next sp + 1 - 1) with (is_table_next sp) by lia.
    + exact I.
    + eapply final_table; eauto.
    + exists l. split_and!; try done. intros i. rewrite Hin4. symmetry. eapply final_is_free; eauto.
    + intros n te Hn. apply (wf_tree _ _ _ Hwf). by apply (tr_sub _ _ _ _ _ _ Htr).
    + eapply final_collisions; eauto.
    + reflexivity.
    + reflexivity.
  - split; [|split; [exact Hfr|done]]. intros n. change (caps t4 (splay_map trf) n = caps t m n). rewrite Hmap.
    eapply final_caps; eauto.
Qed.
End Install.
End Grow.
