(* ===== verification/IpcAlloc.v ===== *)
(** * Allocation of entries with the lock released (ipc/ipc_entry.c)

    [ipc_entry_grow_table], [ipc_entry_alloc] and [ipc_entry_alloc_name] release
    the space lock while they allocate memory or wait for the end of another
    thread's growth.  What other threads may do meanwhile is the hypothesis
    [rely]; the theorems hold for every such environment, and for every property
    [Inv] of the capability map that the environment maintains. *)

From S2P Require Import Prelude PortName IpcSplay IpcTable IpcTypes IpcHash IpcEntry.
From S2P Require Import IpcSpaceInv IpcEntrySpec IpcGrow.

Section Alloc.
Context `{PC : PortConfig}.
Variable its : list Z.
Hypothesis Hits : entries_sizes_ok its.
Variables window wait : nat -> kstate -> kstate.
Variable memory : nat -> bool.
Implicit Types (st : kstate) (k : nat).

Definition next_of st : Z := is_table_next (k_space st).
Definition growing st : bool := is_growing (k_space st).
Definition active st : Prop := is_active (k_space st) = true.

(** Whenever the lock is free, an active space satisfies its invariant. *)
Definition ok st : Prop := active st -> space_wf its None st.

(** Other threads keep the invariant and never shrink the table; dead spaces
    stay dead. *)
Record respects (others : nat -> kstate -> kstate) : Prop := {
  res_ok : forall k st, ok st -> ok (others k st);
  res_dead : forall k st, active (others k st) -> active st;
  res_next : forall k st, active (others k st) -> next_of st <= next_of (others k st)
}.

(** While this thread grows the table it is not grown by another thread
    (ipc/ipc_space.h); while it waits, it may be. *)
Record rely : Prop := {
  rely_window : respects window;
  rely_wait : respects wait;
  rely_growing : forall k st, growing st = true -> active (window k st) ->
    next_of (window k st) = next_of st
}.

(** A thread that waited finds the table grown, or nobody growing it. *)
Definition waits_end : Prop := forall k st,
  active (wait k st) -> growing (wait k st) = true -> next_of st < next_of (wait k st).

(** Other threads leave the space the space of its task, and active. *)
Definition same_self st st' : Prop := active st' /\ is_self (k_space st') = is_self (k_space st).
Definition calm : Prop := forall k st, active st -> same_self st (window k st) /\ same_self st (wait k st).

Section Env.
Variable Inv : (Z -> option capability) -> Prop.
Hypothesis Inv_ext : Proper (pointwise_relation Z eq ==> iff) Inv.
Hypothesis Hrely : rely.
(** The other threads keep [Inv]. *)
Definition keeps_inv (others : nat -> kstate -> kstate) : Prop := forall k st, ok st -> active (others k st) ->
  Inv (space_caps (k_space st)) -> Inv (space_caps (k_space (others k st))).
Hypothesis Hinv : keeps_inv window.
Hypothesis Hinvw : keeps_inv wait.

Lemma Inv_same sp sp' : (forall n, space_caps sp' n = space_caps sp n) -> Inv (space_caps sp) -> Inv (space_caps sp').
Proof using Inv_ext. intros H. by apply Inv_ext. Qed.

Lemma space_wf_growing open b st :
  space_wf its open st -> space_wf its open (on_space (sp_set_growing b) st).
Proof. intros []. by constructor. Qed.

Definition good st : Prop := ok st /\ (active st -> Inv (space_caps (k_space st))).

Lemma good_others others k st : respects others -> keeps_inv others -> good st -> good (others k st).
Proof.
  intros Hres Hk [Hok Hi]. split; [by apply Hres|]. intros Ha. apply Hk; [done|done|].
  by apply Hi, (res_dead _ Hres k).
Qed.

Lemma good_window k st : good st -> good (window k st).
Proof using Hrely Hinv. apply good_others; [apply Hrely|done]. Qed.

Lemma good_wait k st : good st -> good (wait k st).
Proof using Hrely Hinvw. apply good_others; [apply Hrely|done]. Qed.

Lemma good_same st st' :
  (active st' -> space_wf its None st' /\ active st /\
     forall n, space_caps (k_space st') n = space_caps (k_space st) n) -> good st -> good st'.
Proof using Inv_ext.
  intros H [_ Hi]. split.
  - intros Ha. by apply H.
  - intros Ha. destruct (H Ha) as (_ & Ha' & Hc). eapply Inv_same; [exact Hc|]. by apply Hi.
Qed.

Lemma good_growing b st : good st -> good (on_space (sp_set_growing b) st).
Proof using Inv_ext. intros Hg. eapply good_same; [|exact Hg]. intros Ha. split; [by apply space_wf_growing, Hg|]. done. Qed.

(** The sizes before and after the next one. *)
Lemma sizes_around st :
  space_wf its None st ->
  exists size, aget its (next_of st) = Some size /\
    aget its (next_of st - 1) = Some (is_table_size (k_space st)) /\
    (is_table_size (k_space st) = size \/
     is_table_size (k_space st) < size /\ exists nsize, aget its (next_of st + 1) = Some nsize /\ size <= nsize).
Proof using Hits.
  intros Hwf. destruct (wf_sizes _ _ _ Hwf) as (_ & Hs & [size Hsize]). fold (next_of st) in Hs, Hsize.
  exists size. split; [done|]. split; [done|].
  destruct Hits as (l & last & -> & Hinc & _).
  set (i := next_of st) in *. replace (l ++ [last; last]) with ((l ++ [last]) ++ [last]) in * by by rewrite <- app_assoc.
  pose proof (fun a b x y => increasing_aget (l ++ [last]) a b x y Hinc) as Hmono.
  destruct (decide (i < alen (l ++ [last]))) as [Hi|Hi].
  - rewrite aget_app_l in Hs, Hsize by lia. right. split; [eapply Hmono; [exact Hs|exact Hsize|lia]|].
    destruct (decide (i + 1 < alen (l ++ [last]))) as [Hi1|Hi1].
    + destruct (aget_is_Some (l ++ [last]) (i + 1)) as [ns Hns].
      { apply aget_Some_range in Hsize. lia. }
      exists ns. split; [by rewrite aget_app_l|]. eapply Z.lt_le_incl, Hmono; [exact Hsize|exact Hns|lia].
    + exists last. rewrite aget_app_r by lia. split.
      { replace (i + 1 - alen (l ++ [last])) with 0 by lia. done. }
      rewrite aget_app_r in Hsize by (rewrite alen_app in *; unfold alen in *; cbn in *; lia).
      replace (i - alen l) with 0 in Hsize by (rewrite alen_app in *; unfold alen in *; cbn in *; lia).
      injection Hsize as ->. done.
  - left. assert (i = alen (l ++ [last])) as Hi'.
    { apply aget_Some_range in Hsize. rewrite alen_app in Hsize. unfold alen in *. cbn in *. lia. }
    rewrite aget_app_r in Hsize by lia. replace (i - alen (l ++ [last])) with 0 in Hsize by lia.
    injection Hsize as <-. rewrite alen_app in Hi'. change (alen [last]) with 1 in Hi'.
    rewrite aget_app_l in Hs by (rewrite alen_app; change (alen [last]) with 1; lia).
    rewrite aget_app_r in Hs by lia. replace (i - 1 - alen l) with 0 in Hs by lia. by injection Hs.
Qed.

(** ** Growing *)

Definition grow_post st (kr : kern_return) st' : Prop :=
  good st' /\ (active st' -> next_of st <= next_of st') /\
  (calm -> same_self st st') /\
  match kr with
  | KERN_SUCCESS => active st' ->
      (growing st = false -> next_of st < next_of st') /\
      (waits_end -> growing st' = true -> next_of st < next_of st')
  | KERN_NO_SPACE => st' = st /\ aget its (next_of st) = Some (is_table_size (k_space st))
  | KERN_RESOURCE_SHORTAGE => exists j, memory j = false
  | _ => False
  end.

Lemma next_range st : space_wf its None st -> 1 <= next_of st < alen its.
Proof using Hits.
  intros Hwf. destruct (wf_sizes _ _ _ Hwf) as (_ & Hs & [x Hx]). fold (next_of st) in Hs, Hx.
  apply aget_Some_range in Hs, Hx. lia.
Qed.

Section GrowOnce.
Variables (k : nat) (st : kstate) (size nsize : Z).
Hypothesis Hwf : space_wf its None st.
Hypothesis Hgood : good st.
Hypothesis Hsize : aget its (next_of st) = Some size.
Hypothesis Hnsize : aget its (next_of st + 1) = Some nsize.
Hypothesis Hlt : is_table_size (k_space st) < size <= nsize.
Let st1 := on_space (sp_set_growing false) (window k (on_space (sp_set_growing true) st)).

Lemma grow_window :
  good st1 /\ growing st1 = false /\ (calm -> same_self st st1) /\
  (active st1 -> next_of st1 = next_of st /\ is_table_size (k_space st1) = is_table_size (k_space st)).
Proof using All.
  assert (good (window k (on_space (sp_set_growing true) st))) as Hg
    by (apply good_window, good_growing, Hgood).
  split; [by apply good_growing|]. split; [done|].
  split; [intros Hcalm; exact (proj1 (Hcalm k (on_space (sp_set_growing true) st) (wf_active _ _ _ Hwf)))|]. intros Ha.
  assert (next_of st1 = next_of st) as Hn by (apply (rely_growing Hrely k (on_space (sp_set_growing true) st)); done).
  split; [done|]. assert (space_wf its None st1) as Hwf1 by (apply space_wf_growing; by apply Hg).
  destruct (wf_sizes _ _ _ Hwf1) as (_ & Hs1 & _). destruct (wf_sizes _ _ _ Hwf) as (_ & Hs & _).
  fold (next_of st1) in Hs1. fold (next_of st) in Hs. congruence.
Qed.

Lemma grow_installed :
  active st1 ->
  exists st2, grow_install (is_table_size (k_space st)) size nsize (next_of st + 1) st1 = Some st2 /\
    good st2 /\ same_self st1 st2 /\ growing st2 = false /\ next_of st2 = next_of st + 1.
Proof using All.
  intros Ha. destruct grow_window as (Hg & Hgr & _ & Hn). destruct (Hn Ha) as [Hn1 Hs1].
  assert (space_wf its None st1) as Hwf1 by by apply Hg.
  destruct (grow_install_correct its Hits st1 size nsize) as (st2 & Heq & Hwf2 & Hcaps & _ & Hself2 & Hgr2 & _ & Hnx2);
    try done; fold (next_of st1) in *; rewrite ?Hn1, ?Hs1; try done.
  rewrite Hs1, Hn1 in Heq. exists st2. split; [done|]. split; [|split_and!].
  - eapply good_same; [|exact Hg]. intros _. done.
  - split; [apply (wf_active _ _ _ Hwf2)|done].
  - rewrite <- Hgr. done.
  - rewrite <- Hn1. done.
Qed.
End GrowOnce.

Lemma grow_table_correct fuel k st :
  space_wf its None st -> good st -> alen its - next_of st <= Z.of_nat fuel ->
  exists kr st' k', ipc_entry_grow_table its window wait memory fuel k st = Some (kr, st', k') /\
    grow_post st kr st'.
Proof using Hits Hrely Hinv Hinvw Inv_ext.
  revert k st. induction fuel as [|fuel IH]; intros k st Hwf Hg Hf;
    pose proof (next_range st Hwf) as Hr; [lia|].
  cbn [ipc_entry_grow_table]. rewrite (wf_active _ _ _ Hwf).
  destruct (is_growing (k_space st)) eqn:Hgr.
  { do 3 eexists. split; [done|]. split_and!; [by apply good_wait|apply Hrely| |].
    - intros Hcalm. apply Hcalm, (wf_active _ _ _ Hwf).
    - intros Ha. split; [unfold growing; congruence|]. intros Hw. by apply Hw. }
  destruct (sizes_around st Hwf) as (size & Hs & Hs0 & Hcase). unfold next_of in Hs, Hs0. rewrite Hs, Hs0.
  destruct Hcase as [<-|[Hlt (nsize & Hns & Hle)]].
  { rewrite Z.eqb_refl. do 3 eexists. split; [done|]. split_and!; try done. intros _. split; [apply (wf_active _ _ _ Hwf)|done]. }
  rewrite (proj2 (Z.eqb_neq _ _)) by lia. fold (next_of st). fold (next_of st) in Hs. rewrite Hns.
  rewrite (proj2 (Z.ltb_lt _ _)), (proj2 (Z.leb_le _ _)) by lia. cbn [andb].
  set (st1 := on_space (sp_set_growing false) _).
  destruct (grow_window k st size nsize Hwf Hg Hs Hns) as (Hg1 & Hgr1 & Hc1 & Hn1); [lia|]. fold st1 in Hg1, Hgr1, Hc1, Hn1.
  destruct (memory k) eqn:Hm; cbn [negb].
  2:{ do 3 eexists. split; [done|]. split_and!; [done| |done|by exists k]. intros Ha. destruct (Hn1 Ha). lia. }
  destruct (is_active (k_space st1)) eqn:Hact; cbn [negb].
  2:{ do 3 eexists. split; [done|].
      assert (~ active (window (S k) st1)) as Hd by (intros Ha%(res_dead _ (rely_window Hrely)); unfold active in Ha; congruence).
      split_and!; [by apply good_window|tauto| |tauto].
      intros Hcalm. destruct (Hc1 Hcalm) as [Ha _]. unfold active in Ha. congruence. }
  destruct (Hn1 Hact) as [Hn1' Hs1']. unfold next_of in Hn1'. rewrite Hn1', Z.eqb_refl, Hs1', Z.eqb_refl.
  destruct (grow_installed k st size nsize Hwf Hg Hs Hns) as (st2 & Heq & Hg2 & Hc2 & Hgr2 & Hn2); [lia|done|].
  fold st1 in Heq, Hc2. rewrite Heq. set (st3 := window (S k) st2).
  assert (good st3) as Hg3 by by apply good_window.
  assert (active st3 -> next_of st + 1 <= next_of st3) as Hn3.
  { intros Ha. rewrite <- Hn2. by apply Hrely. }
  assert (calm -> same_self st st3) as Hc3.
  { intros Hcalm. destruct (Hc1 Hcalm) as [_ E1], Hc2 as [Ha2 E2], (Hcalm (S k) st2 Ha2) as [[Ha3 E3] _].
    split; [done|]. unfold st3. congruence. }
  assert (grow_post st KERN_SUCCESS st3) as Hpost.
  { split_and!; [done|intros Ha; specialize (Hn3 Ha); lia|done|]. intros Ha. specialize (Hn3 Ha). split; intros; lia. }
  destruct (is_active (k_space st3)) eqn:Hact3; cbn [negb orb]; [|by do 3 eexists].
  destruct (Z.eqb_spec (is_table_next (k_space st3)) (next_of st + 1)) as [Hn3'|]; cbn [negb]; [|by do 3 eexists].
  destruct (grow_again size nsize (k_space st3)) eqn:Hagain; [|by do 3 eexists].
  assert (space_wf its None st3) as Hwf3 by by apply Hg3. fold (next_of st3) in Hn3'.
  destruct (IH (S (S k)) st3 Hwf3 Hg3) as (kr & st' & k' & Hrec & Hg' & Hn' & Hc' & Hkr); [lia|].
  do 3 eexists. split; [exact Hrec|]. split_and!; [done|intros Ha; specialize (Hn' Ha); lia| |].
  - intros Hcalm. destruct (Hc3 Hcalm) as [_ E3], (Hc' Hcalm) as [Ha' E']. split; [done|congruence].
  - destruct kr; try done; [intros Ha; specialize (Hn' Ha); split; intros; lia|].
    (* no small names can be left when the table has its largest size *)
    exfalso. destruct Hkr as [_ Hmax]. unfold grow_again in Hagain. b2p.
    pose proof (wf_small _ _ _ Hwf3) as Hsm. unfold next_size in Hsm. fold (next_of st3) in Hsm.
    rewrite Hmax in Hsm. simpl in Hsm.
    destruct (small_count_bounds (is_table_size (k_space st3)) (is_table_size (k_space st3))
      (tree_map (k_space st3))) as [? _]; [done|]. lia.
Qed.

Lemma grow_table_wrap k st :
  space_wf its None st -> good st ->
  exists kr st' k', grow_table its window wait memory k st = Some (kr, st', k') /\ grow_post st kr st'.
Proof using Hits Hrely Hinv Hinvw Inv_ext.
  intros Hwf Hg. apply grow_table_correct; [done|done|].
  pose proof (next_range st Hwf). unfold alen in *. lia.
Qed.

(** ** Allocation of a name *)

(** How often a loop can go round: for each size left, once to wait and once to
    grow. *)
Definition rounds_left st : Z := 2 * (alen its - next_of st) + (if growing st then 1 else 0).

Lemma rounds_decrease st st' : waits_end -> grow_post st KERN_SUCCESS st' -> active st' ->
  rounds_left st' < rounds_left st.
Proof.
  intros Hw (_ & Hn & _ & Hkr) Ha. destruct (Hkr Ha) as [Hfree Hwait]. specialize (Hn Ha). specialize (Hwait Hw).
  unfold rounds_left. destruct (growing st'), (growing st); try (specialize (Hwait eq_refl)); try (specialize (Hfree eq_refl)); lia.
Qed.

Definition alloc_post (res : Z * Z + kern_return) st' : Prop :=
  match res with
  | inl (name, i) =>
      space_wf its (Some (InTable i)) st' /\ valid_name name /\
      ref_for (k_space st') name (InTable i) /\
      fresh_entry (k_space st') (InTable i) (MACH_PORT_GEN name) /\
      space_caps (k_space st') name = None /\ Inv (space_caps (k_space st'))
  | inr KERN_INVALID_TASK => ~ active st'
  | inr KERN_NO_SPACE => good st' /\ active st' /\
      aget its (next_of st') = Some (is_table_size (k_space st')) /\
      forall i, ~ is_free None (is_table (k_space st')) i
  | inr KERN_RESOURCE_SHORTAGE => good st' /\ exists j, memory j = false
  | inr _ => False
  end.

Lemma ipc_entry_alloc_correct fuel k st :
  waits_end -> good st -> (active st -> rounds_left st < Z.of_nat fuel) -> (0 < fuel)%nat ->
  exists res st' k', ipc_entry_alloc its window wait memory fuel k st = Some (res, st', k') /\ alloc_post res st'.
Proof using Hits Hrely Hinv Hinvw Inv_ext.
  intros Hw. revert k st. induction fuel as [|fuel IH]; intros k st Hg Hf Hf0; [lia|].
  cbn [ipc_entry_alloc]. destruct (is_active (k_space st)) eqn:Ha; cbn [negb].
  2:{ do 3 eexists. split; [done|]. unfold alloc_post, active. congruence. }
  specialize (Hf Ha). assert (space_wf its None st) as Hwf by by apply Hg. destruct st as [sp gh]. cbn in Ha.
  destruct (ipc_entry_get_correct its Hits sp gh Hwf) as (sp' & [[name i]|] & Hget & Hres);
    cbn [k_space k_ghash]; rewrite Hget.
  - do 3 eexists. split; [done|]. destruct Hres as (? & ? & ? & ? & Hn & Hc). cbn.
    split_and!; try done; [by rewrite Hc|]. eapply Inv_same; [exact Hc|]. by apply (proj2 Hg).
  - destruct Hres as [-> Hnofree].
    destruct (grow_table_wrap k (mk_kstate sp gh) Hwf Hg) as (kr & st' & k' & Heq & Hpost).
    rewrite Heq. pose proof Hpost as (Hg' & _ & _ & Hkr). destruct (bool_decide (kr = KERN_SUCCESS)) eqn:Hd.
    + apply bool_decide_eq_true in Hd as ->. apply IH; [done| |].
      * intros Ha'. pose proof (rounds_decrease _ _ Hw Hpost Ha'). lia.
      * pose proof (next_range _ Hwf). unfold rounds_left in Hf. destruct (growing _); lia.
    + apply bool_decide_eq_false in Hd. do 3 eexists. split; [done|].
      destruct kr; try done. destruct Hkr as [-> Hmax]. done.
Qed.

(** ** Allocation under a given name *)

Lemma alloc_name_tree_correct st name :
  space_wf its None st ->
  exists sp', alloc_name_tree (k_space st) name =
      Some (sp', if tree_map (k_space st) !! name is Some _ then true else false) /\
    resplays (k_space st) sp'.
Proof.
  intros Hwf. unfold alloc_name_tree. pose proof (wf_total _ _ _ Hwf) as Hto.
  destruct (Z.ltb_spec 0 (is_tree_total (k_space st))) as [Hpos|Hz].
  - destruct (ipc_splay_tree_lookup_correct _ name (wf_splay _ _ _ Hwf)) as (tr & -> & Hw & He).
    fold (tree_map (k_space st)). destruct (tree_map (k_space st) !! name) as [te|] eqn:E.
    + destruct (wf_tree _ _ _ Hwf _ _ E) as (_ & _ & -> & Ht). rewrite Z.eqb_refl.
      rewrite (proj2 (Z.eqb_neq _ _)) by (intros ?%Ht; done). eexists. split; [done|]. by exists tr.
    + eexists. split; [done|]. by exists tr.
  - rewrite tree_map_null by (apply map_size_empty_inv; lia).
    eexists. split; [done|]. apply resplays_refl, (wf_splay _ _ _ Hwf).
Qed.

Definition alloc_name_post (name : Z) (res : entry_ref + kern_return) st' : Prop :=
  match res with
  | inl ref =>
      ref_for (k_space st') name ref /\ Inv (space_caps (k_space st')) /\
      ((is_Some (space_caps (k_space st') name) /\ space_wf its None st') \/
       (space_caps (k_space st') name = None /\ space_wf its (Some ref) st' /\
        exists g, fresh_entry (k_space st') ref g /\ is_gen g))
  | inr KERN_INVALID_TASK => ~ active st'
  | inr KERN_RESOURCE_SHORTAGE => good st' /\ exists j, memory j = false
  | inr _ => False
  end.

Lemma name_entry_post sp name ref st' :
  Inv (space_caps sp) -> name_entry its sp name ref st' -> alloc_name_post name (inl ref) st'.
Proof using Inv_ext.
  intros Hi (Hr & Hc & Hor). split; [done|]. split; [by eapply Inv_same|]. by rewrite Hc.
Qed.

Lemma should_grow_not_full st1 name ns :
  aget its (next_of st1) = Some ns -> should_grow (k_space st1) (MACH_PORT_INDEX name) ns = true ->
  aget its (next_of st1) <> Some (is_table_size (k_space st1)).
Proof. intros Hns Hsg. unfold should_grow in Hsg. b2p. rewrite Hns. intros [= ?]. lia. Qed.

Lemma alloc_name_loop_correct fuel k (have : bool) name st :
  waits_end -> valid_name name -> good st ->
  (active st -> rounds_left st + (if have then 0 else 2) < Z.of_nat fuel) -> (0 < fuel)%nat ->
  exists res st' k', alloc_name_loop its window wait memory fuel k have name st = Some (res, st', k') /\
    alloc_name_post name res st'.
Proof using Hits Hrely Hinv Hinvw Inv_ext.
  intros Hw Hv. revert k have st. induction fuel as [|fuel IH]; intros k have st Hg Hf Hf0; [lia|].
  cbn [alloc_name_loop]. destruct (is_active (k_space st)) eqn:Ha; cbn [negb].
  2:{ do 3 eexists. split; [done|]. unfold alloc_name_post, active. congruence. }
  specialize (Hf Ha). assert (space_wf its None st) as Hwf by by apply Hg.
  assert (Inv (space_caps (k_space st))) as Hi by by apply Hg.
  pose proof (next_range _ Hwf) as Hnr.
  destruct (alloc_name_table_correct its Hits st name Hwf Hv) as ([[sp' ref]|] & -> & Hres).
  { do 3 eexists. split; [done|]. destruct Hres as [Hne _]. by eapply name_entry_post. }
  destruct (alloc_name_tree_correct st name Hwf) as (sp1 & -> & Hrs).
  assert (space_wf its None (mk_kstate sp1 (k_ghash st))) as Hwf1.
  { eapply resplays_wf; [exact Hrs|]. by destruct st. }
  pose proof (resplays_map _ _ Hrs) as Hm1. pose proof (resplays_caps _ _ Hrs) as Hc1.
  assert (is_table sp1 = is_table (k_space st) /\ is_table_next sp1 = next_of st /\
    rounds_left (mk_kstate sp1 (k_ghash st)) = rounds_left st) as (Ht1 & Hn1 & Hrl1) by (by destruct Hrs as (tr & -> & _)).
  destruct (tree_map (k_space st) !! name) as [te|] eqn:E; cbn match.
  { do 3 eexists. split; [done|]. eapply name_entry_post; [exact Hi|].
    assert (ref_for sp1 name (InTree name)) as Hr1 by (right; by rewrite Hm1, E).
    split; [done|]. split; [intros n; by cbn; rewrite Hc1|]. left. split; [|done].
    pose proof (ref_for_caps sp1 name _ (wf_collisions _ _ _ Hwf1) Hr1) as Hcap.
    rewrite <- Hc1, Hcap, get_entry_tree, Hm1, E. cbn.
    destruct (wf_tree _ _ _ Hwf _ _ E) as (_ & _ & _ & Ht). unfold entry_cap, cap_of. cbn.
    rewrite (proj2 (Z.eqb_neq _ _)) by (intros ?%Ht; done). done. }
  assert (good (mk_kstate sp1 (k_ghash st))) as Hg1.
  { eapply good_same; [|exact Hg]. intros _. split; [done|]. split; [done|]. intros n. cbn. by rewrite Hc1. }
  destruct (wf_sizes _ _ _ Hwf1) as (_ & _ & [ns Hns]). cbn in Hns. rewrite Hns.
  destruct (should_grow sp1 (MACH_PORT_INDEX name) ns) eqn:Hsg.
  - destruct (grow_table_wrap k (mk_kstate sp1 (k_ghash st)) Hwf1 Hg1)
      as (kr & st' & k' & -> & Hpost). pose proof Hpost as (Hg' & _ & _ & Hkr).
    rewrite (bool_decide_eq_false_2 (kr = KERN_NO_SPACE)).
    2:{ intros ->. destruct Hkr as [_ Hmax]. revert Hmax.
        by apply (should_grow_not_full (mk_kstate sp1 (k_ghash st)) name ns). }
    cbn [negb]. destruct (bool_decide (kr = KERN_SUCCESS)) eqn:Hd.
    + apply bool_decide_eq_true in Hd as ->. apply IH; [done| |].
      * intros Ha'. pose proof (rounds_decrease _ _ Hw Hpost Ha'). lia.
      * unfold rounds_left in Hf. destruct have, (growing st); lia.
    + apply bool_decide_eq_false in Hd. do 3 eexists. split; [done|]. destruct kr; try done.
      destruct Hkr as [-> Hmax]. by apply (should_grow_not_full (mk_kstate sp1 (k_ghash st)) name ns) in Hmax.
  - destruct have.
    + destruct (insert_tree_entry_correct its Hits (mk_kstate sp1 (k_ghash st)) name Hwf1 Hv) with (ns := ns)
        as (sp2 & Hins & Hne & _); try done.
      { cbn. by rewrite Hm1. } { unfold table_miss. cbn. rewrite Ht1. exact Hres. }
      cbn in Hins. rewrite Hins. do 3 eexists. split; [done|]. eapply name_entry_post; [|exact Hne].
      cbn. by rewrite Hc1.
    + assert (good (window k (mk_kstate sp1 (k_ghash st)))) as Hgw by by apply good_window.
      destruct (memory k) eqn:Hmem; cbn [negb].
      * apply IH; [done| |].
        -- intros Ha'. pose proof (res_next _ (rely_window Hrely) _ _ Ha') as Hnw. unfold next_of in Hnw at 1. cbn in Hnw.
           unfold rounds_left in *. destruct (growing st), (growing (window _ _)); lia.
        -- unfold rounds_left in Hf. destruct (growing st); lia.
      * do 3 eexists. split; [done|]. split; [done|]. by exists k.
Qed.
End Env.
End Alloc.
