(* ===== verification/IpcSpace.v ===== *)
(** * Creation and references of spaces (ipc/ipc_space.c)

    The table a new space starts with, the initial values of its fields and
    its reference count.  [ipc_space_create] also allocates the notify port of
    the compatibility interface, which belongs to the port component. *)

From S2P Require Import Prelude PortName IpcSplay IpcTable IpcTypes IpcHash IpcEntry.
From S2P Require Import IpcSpaceInv IpcEntrySpec IpcGrow.

Section Space.
Context `{PC : PortConfig}.

(** [memset] and the loop that links every entry to the next one. *)
Definition init_entry (index : Z) (t : list ipc_entry) : option (list ipc_entry) :=
  table_upd t index (fun e => set_next (index + 1) (set_bits IE_BITS_GEN_MASK e)).

Definition init_table (new_size : Z) : option (list ipc_entry) :=
  let table := replicate (Z.to_nat new_size) zero_entry in
  LET table <- for_up (Z.to_nat new_size) 0 init_entry table ;;
  table_upd table (new_size - 1) (set_next 0).

(** The initialisation of a space from the memory [is_alloc] returned, whose
    fields hold anything but for its address [is_self]; [initial] points into
    [ipc_table_entries]. *)
Definition space_init (its : list Z) (mem : ipc_space) (initial : Z) : option ipc_space :=
  LET new_size <- aget its initial ;;
  LET table <- init_table new_size ;;
  Some (mk_space (is_self mem) 2 true false table new_size (initial + 1)
          (ipc_splay_tree_init (is_tree mem)) 0 0 0).

(** [mem] is what [is_alloc] returns. *)
Definition ipc_space_create_special (mem : option ipc_space) : ipc_space + kern_return :=
  match mem with
  | None => inr KERN_RESOURCE_SHORTAGE
  | Some space => inl (sp_set_active false (sp_set_references 1 space))
  end.

Definition ipc_space_reference (sp : ipc_space) : option ipc_space :=
  ASSERT 0 <? is_references sp ;;
  Some (sp_set_references (u32 (is_references sp + 1)) sp).

(** The boolean says that the space is freed. *)
Definition ipc_space_release (sp : ipc_space) : option (ipc_space * bool) :=
  ASSERT 0 <? is_references sp ;;
  let sp' := sp_set_references (is_references sp - 1) sp in
  Some (sp', is_references sp' =? 0).

(** ** The table of a new space *)

Lemma init_loop_correct n :
  exists t, for_up (Z.to_nat n) 0 init_entry (replicate (Z.to_nat n) zero_entry) = Some t /\
    alen t = Z.of_nat (Z.to_nat n) /\
    forall k, 0 <= k < n -> aget t k = Some (mk_entry IE_BITS_GEN_MASK IO_NULL (k + 1) 0).
Proof.
  set (N := Z.to_nat n).
  destruct (for_up_rule (fun i t => alen t = Z.of_nat N /\
    (forall k, 0 <= k < i -> aget t k = Some (mk_entry IE_BITS_GEN_MASK IO_NULL (k + 1) 0)) /\
    (forall k, i <= k < Z.of_nat N -> aget t k = Some zero_entry)) init_entry N 0
    (replicate N zero_entry)) as (t & Heq & Hl & Hlo & _).
  - split_and!.
    + unfold alen. by rewrite length_replicate.
    + lia.
    + intros k Hk. unfold aget. rewrite decide_True by lia. apply lookup_replicate. split; [done|lia].
  - intros i t Hi (Hl & Hlo & Hhi). unfold init_entry.
    rewrite (table_upd_Some _ _ _ _ (Hhi i ltac:(lia))). eexists. split; [done|]. split_and!.
    + by rewrite alen_aset.
    + intros k Hk. destruct (decide (k = i)) as [->|]; [apply aget_aset_eq; lia|].
      rewrite aget_aset_ne by done. apply Hlo. lia.
    + intros k Hk. rewrite aget_aset_ne by lia. apply Hhi. lia.
  - exists t. split_and!; [done|done|]. intros k Hk. apply Hlo. lia.
Qed.

Lemma init_table_correct n :
  1 <= n ->
  exists t, init_table n = Some t /\ alen t = n /\
    forall k, 0 <= k < n ->
      aget t k = Some (mk_entry IE_BITS_GEN_MASK IO_NULL (if k =? n - 1 then 0 else k + 1) 0).
Proof.
  intros Hn. unfold init_table. destruct (init_loop_correct n) as (t & -> & Hl & Hget).
  rewrite (table_upd_Some _ _ _ _ (Hget (n - 1) ltac:(lia))). eexists. split; [done|].
  split; [rewrite alen_aset; lia|]. intros k Hk. zcase.
  - subst k. apply aget_aset_eq. lia.
  - rewrite aget_aset_ne by lia. by apply Hget.
Qed.

(** The free list of a new table is [i + 1, ..., n - 1]. *)
Lemma init_chain t n i :
  (forall k, 0 <= k < n ->
     aget t k = Some (mk_entry IE_BITS_GEN_MASK IO_NULL (if k =? n - 1 then 0 else k + 1) 0)) ->
  0 <= i < n -> free_chain t i (seqZ (i + 1) (n - 1 - i)).
Proof.
  intros Hget. remember (Z.to_nat (n - 1 - i)) as d eqn:Hd. revert i Hd.
  induction d as [|d IH]; intros i Hd Hi.
  - replace (n - 1 - i) with 0 by lia. econstructor; [by apply Hget|]. cbn. zcase; lia.
  - rewrite seqZ_cons by lia. pose proof (Hget i Hi) as He.
    rewrite (proj2 (Z.eqb_neq i (n - 1))) in He by lia.
    change (i + 1) with (ie_next (mk_entry IE_BITS_GEN_MASK IO_NULL (i + 1) 0)) at 1.
    constructor; [done|cbn; lia|]. cbn.
    replace (Z.pred (n - 1 - i)) with (n - 1 - (i + 1)) by lia. apply IH; lia.
Qed.

Lemma init_free_wf t n :
  1 <= n -> alen t = n ->
  (forall k, 0 <= k < n ->
     aget t k = Some (mk_entry IE_BITS_GEN_MASK IO_NULL (if k =? n - 1 then 0 else k + 1) 0)) ->
  free_wf None t.
Proof.
  intros Hn Hl Hget. exists (seqZ 1 (n - 1)). split_and!.
  - pose proof (init_chain t n 0 Hget ltac:(lia)) as H. by replace (n - 1 - 0) with (n - 1) in H by lia.
  - apply NoDup_seqZ.
  - intros i. rewrite elem_of_seqZ. unfold is_free. split.
    + intros Hi. split_and!; [lia|done|]. eexists. split; [apply Hget; lia|]. cbn.
      apply type_of_gen, gen_mask_is_gen.
    + intros (? & _ & e & He & _). apply aget_Some_range in He. lia.
Qed.

(** ** A new space satisfies the invariant and is empty *)

Lemma space_init_correct its mem initial g :
  entries_sizes_ok its -> 0 <= initial -> is_Some (aget its (initial + 1)) ->
  ghash_wf g -> (forall e, ghashed g e -> gh_space e <> is_self mem) ->
  exists sp, space_init its mem initial = Some sp /\ space_wf its None (mk_kstate sp g) /\
    (forall n, space_caps sp n = None) /\ is_references sp = 2 /\ is_growing sp = false /\
    is_self sp = is_self mem.
Proof.
  intros Hits Hi Hnext Hg Hgs. unfold space_init.
  destruct (aget_is_Some its initial) as [n Hn].
  { destruct Hnext as [x Hx]. apply aget_Some_range in Hx. lia. }
  rewrite Hn. pose proof (entries_sizes_range _ _ _ Hits Hn) as Hr.
  destruct (init_table_correct n) as (t & -> & Hl & Hget); [lia|].
  assert (forall k e, aget t k = Some e -> ie_bits e = IE_BITS_GEN_MASK /\ ie_object e = IO_NULL /\ ie_index e = 0) as Hent.
  { intros k e He. pose proof (aget_Some_range _ _ _ He) as Hk. rewrite Hget in He by lia. by injection He as <-. }
  pose proof gen_mask_is_gen as Hgm. pose proof (type_of_gen _ Hgm) as Htm.
  assert (splay_elems (ipc_splay_tree_init (is_tree mem)) = []) as Hel by by apply splay_elems_null.
  assert (forall m0 ref obj, m0 = ∅ -> ~ live_send None t m0 ref obj) as Hnl.
  { intros m0 [k|k] obj -> (_ & b & Hb & Ht); cbn in Hb.
    - destruct (aget t k) as [e|] eqn:E; [|done]. destruct (Hent _ _ E) as (Hbe & _). cbn in Hb.
      injection Hb as <- _. rewrite Hbe, Htm in Ht. done.
    - by rewrite lookup_empty in Hb. }
  eexists. split; [done|].
  assert (splay_map (ipc_splay_tree_init (is_tree mem)) = ∅) as Hm by (unfold splay_map; by rewrite Hel).
  destruct (empty_slots_wf t) as [Hlw Hnh]; [lia| |].
  { intros p. unfold slot. destruct (aget t p) as [e|] eqn:E; [|done]. by apply (Hent _ _ E). }
  split; [|split; [|done]].
  - set (sp := mk_space _ _ _ _ _ _ _ _ _ _ _). assert (tree_map sp = ∅) as Hms by exact Hm.
    constructor; cbn; rewrite ?Hms; try done.
    + split_and!; [done| |done]. cbn. by replace (initial + 1 - 1) with initial by lia.
    + intros k e He. destruct (Hent _ _ He) as (Hb & Ho & _). unfold entry_wf. rewrite Hb, Ho.
      split_and!; [by apply is_gen_u32|done|done].
    + apply (init_free_wf t n); [lia|done|done].
    + intros k e He. destruct (Hent _ _ He) as (Hb & _). unfold collision_wf.
      rewrite Hb, collision_of_gen by done. unfold collides. split.
      * split; [done|]. intros (x & [y Hy] & _). by rewrite lookup_empty in Hy.
      * intros x [y Hy]. by rewrite lookup_empty in Hy.
    + intros k. split; [by intros ?%Hnh|]. intros [obj Ho]. by eapply Hnl in Ho.
    + intros k obj. split; [|by intros Ho; eapply Hnl in Ho]. intros He%Hgs. done.
    + unfold sends_wf. intros ref obj Ho. by eapply Hnl in Ho.
  - intros k. change (caps t (splay_map (ipc_splay_tree_init (is_tree mem))) k = None).
    rewrite Hm. unfold caps. rewrite lookup_empty. cbn.
    destruct (aget t _) as [e|] eqn:E; [|done]. destruct (Hent _ _ E) as (Hb & _).
    unfold entry_cap, cap_of. rewrite Hb, Htm. by destruct (_ =? _).
Qed.
End Space.
