(* ===== verification/IpcEntryThms.v ===== *)
(** * The theorems on capability entries and spaces

    What ipc_entry.c, ipc_space.c and the entry points of ipc_hash.c promise,
    stated on the map from names to capabilities that a space represents. *)

From S2P Require Import Prelude PortName IpcSplay IpcTable IpcTypes IpcHash IpcEntry.
From S2P Require Import IpcSpaceInv IpcEntrySpec IpcReverse IpcGrow IpcAlloc IpcSpace.

(** ** A concrete space *)

(** Port generations on, tables of 4 and then 8 entries. *)
Definition pc0 : PortConfig := {| PORT_GENERATIONS := true |}.
Definition its0 : list Z := [4; 8; 8].

(** Memory as the allocator returns it: any contents. *)
Definition raw_space : ipc_space :=
  mk_space 0x40 0 false true [] 0 0 (mk_splay 0 ITE_NULL [] []) 9 9 9.
Definition ghash0 : ghash := default (mk_ghtable 0 0 []) (ipc_hash_init 3 0).
Definition space0 : ipc_space := default raw_space (@space_init pc0 its0 raw_space 0).
Definition st0 : kstate := mk_kstate space0 ghash0.

Lemma its0_ok : @entries_sizes_ok pc0 its0.
Proof.
  exists [4], 8. split_and!; [done| |repeat constructor; lia|vm_compute; discriminate].
  repeat constructor; lia.
Qed.

Lemma ghash0_ok : ghash_wf ghash0 /\ forall e, ~ ghashed ghash0 e.
Proof.
  destruct (ipc_hash_init_correct 3 0) as (g & Hg & Hw & _ & _ & Hn); [vm_compute; split; discriminate|].
  unfold ghash0. by rewrite Hg.
Qed.

Lemma st0_wf : @space_wf pc0 its0 None st0.
Proof.
  destruct ghash0_ok as [Hw Hn].
  destruct (@space_init_correct pc0 its0 raw_space 0 ghash0) as (sp & Hc & Hwf & _);
    [apply its0_ok|done|by eexists|done|by intros e ?%Hn|].
  unfold st0, space0. by rewrite Hc.
Qed.

(** The same space with its first entry taken. *)
Definition got0 : kstate :=
  mk_kstate (default (space0, None) (@ipc_entry_get pc0 space0)).1 ghash0.

Lemma got0_wf : @space_wf pc0 its0 (Some (InTable 1)) got0.
Proof.
  destruct (@ipc_entry_get_correct pc0 its0 its0_ok space0 ghash0 st0_wf) as (sp' & res & Hg & Hres).
  unfold got0. rewrite Hg. assert (res = Some (0x100, 1)) as ->.
  { assert (res = (default (space0, None) (@ipc_entry_get pc0 space0)).2) as -> by by rewrite Hg.
    vm_compute. reflexivity. }
  apply Hres.
Qed.

Section Theorems.
Context `{PC : PortConfig}.

(** The entry at the head of the free list is the one taken. *)
Lemma ipc_entry_get_head sp sp' res h f :
  aget (is_table sp) 0 = Some h -> ie_next h <> 0 -> aget (is_table sp) (ie_next h) = Some f ->
  ipc_entry_get sp = Some (sp', res) ->
  res = Some (MACH_PORT_MAKE (ie_next h) (u32 (ie_bits f + IE_BITS_GEN_ONE)), ie_next h).
Proof.
  intros H0 Hn Hf. unfold ipc_entry_get. destruct (is_active sp); [|done].
  rewrite H0, (proj2 (Z.eqb_neq _ _) Hn), Hf, (table_upd_Some _ _ _ _ H0).
  repeat case_match; congruence.
Qed.

(** The successor of a generation number is another one. *)
Lemma gen_succ_ne g : PORT_GENERATIONS = true -> is_gen g -> u32 (g + IE_BITS_GEN_ONE) <> g.
Proof.
  unfold is_gen, IE_BITS_GEN_ONE, u32, wordsize. intros ->. intros (k & Hk & ->) Heq.
  destruct (decide (k = 255)) as [->|].
  - vm_compute in Heq. discriminate.
  - rewrite Z.mod_small in Heq by lia. lia.
Qed.
Implicit Types (its : list Z) (st : kstate).

(** ** Spaces *)

(** ipc_space_create builds an empty, well-formed space.  Whatever the memory
    it is given held, the table it builds has the requested size with every entry
    but entry 0 on the free list, no name has a capability, and the space starts
    with two references and is not growing. *)
Lemma space_init_empty its mem initial g
    (Hits : entries_sizes_ok its) (Hi : 0 <= initial) (Hnext : is_Some (aget its (initial + 1)))
    (Hg : ghash_wf g) (Hnone : forall e, ghashed g e -> gh_space e <> is_self mem) :
  exists sp, space_init its mem initial = Some sp /\ space_wf its None (mk_kstate sp g) /\
    (forall n, space_caps sp n = None) /\ is_references sp = 2 /\ is_growing sp = false /\
    is_self sp = is_self mem.
Proof. by apply space_init_correct. Qed.

(** ** Entries *)

(** C18: ipc_entry_lookup implements the capability map.  It never fails an
    assertion; it finds an entry exactly when the space has a capability for the
    name, the entry found is the one that holds the capability, and the lookup
    changes neither the map nor the invariant, although it splays the tree. *)
Theorem entry_lookup_refines_caps its st name
    (Hwf : space_wf its None st) (Hn : is_u32 name) :
  exists sp' res, ipc_entry_lookup (k_space st) name = Some (sp', res) /\
    space_wf its None (mk_kstate sp' (k_ghash st)) /\
    (forall n, space_caps sp' n = space_caps (k_space st) n) /\
    match res with
    | Some ref => ref_for sp' name ref /\ is_Some (space_caps (k_space st) name) /\
        space_caps (k_space st) name = (get_entry sp' ref ≫= entry_cap)
    | None => space_caps (k_space st) name = None
    end.
Proof.
  destruct st as [sp g]. cbn.
  destruct (ipc_entry_lookup_correct its None sp g name Hwf Hn) as (sp' & res & Heq & Hrs & Hres); [done|].
  exists sp', res. split; [done|]. pose proof (resplays_caps _ _ Hrs) as Hc.
  split; [by eapply resplays_wf|]. split; [intros n; by rewrite Hc|].
  destruct res as [ref|]; [|done]. destruct Hres as [Hr Hs].
  rewrite (get_entry_resplays _ _ _ Hrs), (ref_for_resplays _ _ _ _ Hrs).
  split_and!; [done|done|]. apply ref_for_caps; [apply (wf_collisions _ _ _ Hwf)|done].
Qed.

(** ipc_entry_get takes an entry from the free list, for a name that has no
    capability, and fails only when no entry is free.  The new entry has null
    object, request and user references; the capability map is unchanged. *)
Lemma entry_get_fresh its st
    (Hits : entries_sizes_ok its) (Hwf : space_wf its None st) :
  exists sp' res, ipc_entry_get (k_space st) = Some (sp', res) /\
    match res with
    | None => sp' = k_space st /\ forall i, ~ is_free None (is_table (k_space st)) i
    | Some (name, i) =>
        space_wf its (Some (InTable i)) (mk_kstate sp' (k_ghash st)) /\
        valid_name name /\ ref_for sp' name (InTable i) /\
        fresh_entry sp' (InTable i) (MACH_PORT_GEN name) /\
        space_caps (k_space st) name = None /\
        (forall n, space_caps sp' n = space_caps (k_space st) n)
    end.
Proof. destruct st as [sp g]. by apply ipc_entry_get_correct. Qed.

(** C20: ipc_entry_dealloc removes exactly one name.  For an entry whose right has
    been released, in the table or in the tree, it restores the invariant of the
    space, moving an entry that collided from the tree to the table and adjusting
    both hash tables; every other name keeps its capability and hash entries of
    other spaces are untouched. *)
Theorem entry_dealloc_removes its st name ref e
    (Hits : entries_sizes_ok its) (Hwf : space_wf its (Some ref) st)
    (Href : ref_for (k_space st) name ref) (He : get_entry (k_space st) ref = Some e)
    (Ho : ie_object e = IO_NULL) (Hr : ie_request e = 0) :
  exists st', ipc_entry_dealloc its st name ref = Some st' /\ space_wf its None st' /\
    ghash_frame (is_self (k_space st)) (k_ghash st) (k_ghash st') /\
    (forall n, space_caps (k_space st') n =
       if decide (n = name) then None else space_caps (k_space st) n).
Proof.
  destruct (ipc_entry_dealloc_correct its Hits st name ref e) as (st' & ? & ? & _ & ? & ?); try done.
  by exists st'.
Qed.

(** A deallocated name is not handed out at once.  With port generations, the
    allocation that follows the deallocation of a table entry reuses the entry
    under a name of the next generation, which differs from the old name. *)
Lemma dealloc_get_next_generation its st name i e
    (Hits : entries_sizes_ok its) (Hwf : space_wf its (Some (InTable i)) st)
    (Hname : is_u32 name) (Hi : MACH_PORT_INDEX name = i)
    (He : aget (is_table (k_space st)) i = Some e) (Hgen : IE_BITS_GEN (ie_bits e) = MACH_PORT_GEN name)
    (Ho : ie_object e = IO_NULL) (Hr : ie_request e = 0)
    (Hc : Z.land (ie_bits e) IE_BITS_COLLISION = 0) :
  exists st' sp' name', ipc_entry_dealloc its st name (InTable i) = Some st' /\
    ipc_entry_get (k_space st') = Some (sp', Some (name', i)) /\
    name' = MACH_PORT_MAKE i (u32 (MACH_PORT_GEN name + IE_BITS_GEN_ONE)) /\
    (PORT_GENERATIONS = true -> name' <> name).
Proof.
  assert (ref_for (k_space st) name (InTable i)) as Href by (left; subst i; eauto).
  destruct (ipc_entry_dealloc_correct its Hits st name (InTable i) e) as (st' & Hd & Hwf' & _); try done.
  destruct (dealloc_free_correct its Hits st i e Hwf He Ho Hc)
    as (t' & e' & Hfree & _ & He' & Hcore & _ & _ & _ & Hhead).
  assert (is_table (k_space st') = t') as Ht.
  { unfold ipc_entry_dealloc in Hd. cbn [get_entry] in Hd.
    rewrite (wf_active _ _ _ Hwf), He, Ho, Hr, Hc, Hgen, !Z.eqb_refl, Hi in Hd.
    rewrite (proj2 (ref_in_table_spec its Hits _ _ _ _ Hwf Href)), Hfree in Hd by by rewrite Hi.
    cbn in Hd. by injection Hd as <-. }
  pose proof (wf_open _ _ _ Hwf) as Hpos. cbn in Hpos. unfold core in Hcore. injection Hcore as Hb _ _.
  destruct (aget t' 0) as [h|] eqn:H0; [|done]. cbn in Hhead. injection Hhead as Hh.
  destruct st' as [sp1 g1]. cbn in Ht. subst t'.
  destruct (ipc_entry_get_correct its Hits sp1 g1 Hwf') as (sp' & res & Hget & Hres).
  assert (IE_BITS_GEN (ie_bits e) = ie_bits e') as Hbg.
  { rewrite Hb. unfold IE_BITS_GEN, IE_BITS_GEN_MASK. destruct PORT_GENERATIONS; [done|by rewrite Z.land_0_r]. }
  assert (res = Some (MACH_PORT_MAKE i (u32 (MACH_PORT_GEN name + IE_BITS_GEN_ONE)), i)) as ->.
  { rewrite <- Hgen, Hbg, <- Hh. eapply ipc_entry_get_head; [exact H0|lia|by rewrite Hh|done]. }
  do 3 eexists. split; [exact Hd|]. split; [exact Hget|]. split; [done|]. intros Hpg Heq.
  pose proof (is_gen_port name) as Hg. apply (gen_succ_ne _ Hpg Hg).
  rewrite <- Heq at 2. symmetry. apply gen_make; [rewrite <- Hi; by apply is_index_port|by apply gen_incr].
Qed.

(** ipc_hash_lookup is the inverse of the capability map on send rights.  It
    finds a name exactly when some entry of the space, in the table or the tree,
    is a send right for the object, and then the name and the entry are those of
    that right; it changes only the order within hash buckets. *)
Lemma reverse_lookup_finds_send its st obj
    (Hits : entries_sizes_ok its) (Hwf : space_wf its None st) (Hobj : obj <> IO_NULL) :
  exists g' res, ipc_hash_lookup st obj = Some (mk_kstate (k_space st) g', res) /\
    space_wf its None (mk_kstate (k_space st) g') /\
    match res with
    | Some (name, ref) => ref_for (k_space st) name ref /\
        exists e, get_entry (k_space st) ref = Some e /\ ie_object e = obj /\
          IE_BITS_TYPE (ie_bits e) = MACH_PORT_TYPE_SEND
    | None => forall ref e, get_entry (k_space st) ref = Some e -> ie_object e = obj ->
        IE_BITS_TYPE (ie_bits e) <> MACH_PORT_TYPE_SEND
    end.
Proof.
  destruct (ipc_hash_lookup_correct its Hits None st obj Hwf Hobj) as (g' & res & Heq & Hrb & Hres).
  exists g', res. split; [done|]. split; [by eapply rebuckets_wf|].
  destruct res as [[name ref]|].
  - destruct Hres as [Hr Hl]. split; [done|]. by eapply live_send_entry.
  - intros ref e He <- Ht. apply (Hres ref). split; [done|]. exists (ie_bits e). split; [|done].
    destruct ref as [i|n]; [cbn in *; by rewrite He|]. rewrite get_entry_tree in He. cbn.
    destruct (tree_map _ !! n); [|done]. by injection He as <-.
Qed.

(** ** Growing the table *)

(** C19: Growing the table loses no capability.  Copying the table, rebuilding the
    local hash table, moving the tree entries whose index now fits into the table
    (with their hash entries), recounting is_tree_small and extending the free list
    succeeds without a failed assertion, keeps the capability of every name, and
    leaves a well-formed space of the next size. *)
Theorem grow_install_keeps_caps its st size nsize
    (Hits : entries_sizes_ok its) (Hwf : space_wf its None st)
    (Hs : aget its (is_table_next (k_space st)) = Some size)
    (Hns : aget its (is_table_next (k_space st) + 1) = Some nsize)
    (Hlt : is_table_size (k_space st) < size <= nsize) :
  exists st', grow_install (is_table_size (k_space st)) size nsize (is_table_next (k_space st) + 1) st = Some st' /\
    space_wf its None st' /\
    (forall n, space_caps (k_space st') n = space_caps (k_space st) n) /\
    ghash_frame (is_self (k_space st)) (k_ghash st) (k_ghash st') /\
    is_table_size (k_space st') = size.
Proof.
  destruct (grow_install_correct its Hits st size nsize Hwf Hs Hns Hlt)
    as (st' & ? & ? & ? & ? & _ & _ & ? & _). by exists st'.
Qed.

(** C31: ipc_entry_grow_table terminates and keeps the space well formed, whatever
    other threads do while the lock is released, provided they respect the locking
    protocol ([rely]): nobody else grows the table while this thread does, but
    others may while it waits.  Success means that the table is larger than before, unless
    another thread was already growing it or the space died; the only errors are
    KERN_NO_SPACE, when the table has its largest size, and KERN_RESOURCE_SHORTAGE,
    when memory ran out.  One more round than there are sizes is enough fuel. *)
Theorem grow_table_terminates its window wait memory Inv k st
    (Hits : entries_sizes_ok its) (Hrely : rely its window wait)
    (Hext : Proper (pointwise_relation Z eq ==> iff) Inv)
    (Hinv : keeps_inv its Inv window) (Hinvw : keeps_inv its Inv wait)
    (Hwf : space_wf its None st) (HI : Inv (space_caps (k_space st))) :
  exists kr st' k', grow_table its window wait memory k st = Some (kr, st', k') /\
    (active st' -> space_wf its None st' /\ Inv (space_caps (k_space st'))) /\
    match kr with
    | KERN_SUCCESS => growing st = false -> active st' -> next_of st < next_of st'
    | KERN_NO_SPACE => st' = st /\ aget its (next_of st) = Some (is_table_size (k_space st))
    | KERN_RESOURCE_SHORTAGE => exists j, memory j = false
    | _ => False
    end.
Proof.
  destruct (grow_table_wrap its Hits window wait memory Inv Hext Hrely Hinv Hinvw k st Hwf)
    as (kr & st' & k' & Heq & [Hok Hi] & _ & _ & Hkr); [split; by intros _|].
  exists kr, st', k'. split; [done|]. split; [intros Ha; split; [by apply Hok|by apply Hi]|].
  destruct kr; try done. intros Hgr Ha. by apply (proj1 (Hkr Ha)).
Qed.

(** C30: ipc_entry_alloc terminates with a fresh entry or a justified error, also
    when other threads grow the table at the same time.  For every environment
    that respects the locking protocol ([rely]) and in which a thread that waited
    for somebody else's growth finds the table grown or nobody growing it
    ([waits_end]), the result is an entry for a valid name without capability, or
    KERN_INVALID_TASK when the space died, KERN_NO_SPACE when the table has its
    largest size and no free entry, KERN_RESOURCE_SHORTAGE when memory ran out.
    Two rounds for each size, one to wait and one to grow, are enough fuel. *)
Theorem entry_alloc_total its window wait memory Inv fuel k st
    (Hits : entries_sizes_ok its) (Hrely : rely its window wait) (Hends : waits_end wait)
    (Hext : Proper (pointwise_relation Z eq ==> iff) Inv)
    (Hinv : keeps_inv its Inv window) (Hinvw : keeps_inv its Inv wait)
    (Hgood : good its Inv st) (Hfuel : (2 * length its <= fuel)%nat) :
  exists res st' k', ipc_entry_alloc its window wait memory fuel k st = Some (res, st', k') /\
    alloc_post its memory Inv res st'.
Proof.
  assert (its <> []) as Hne by (destruct Hits as (l & last & -> & _); by destruct l).
  apply (ipc_entry_alloc_correct its Hits window wait); try done; [|destruct its; [done|cbn in *; lia]].
  intros Ha. pose proof (next_range its Hits st ltac:(by apply Hgood)). unfold rounds_left, alen in *. destruct (growing st); lia.
Qed.

(** ipc_entry_alloc_name terminates with an entry for the requested name.  The
    entry is the existing one when the name has a capability and a fresh one, in
    the table or the tree, otherwise, also when other threads grow the table; the only errors are a dead space and lack of
    memory, and the assertion that growing never fails for lack of space holds. *)
Lemma entry_alloc_name_total its window wait memory Inv fuel k name st
    (Hits : entries_sizes_ok its) (Hrely : rely its window wait) (Hends : waits_end wait)
    (Hext : Proper (pointwise_relation Z eq ==> iff) Inv)
    (Hinv : keeps_inv its Inv window) (Hinvw : keeps_inv its Inv wait)
    (Hname : valid_name name)
    (Hgood : good its Inv st) (Hfuel : (2 * length its + 2 <= fuel)%nat) :
  exists res st' k', ipc_entry_alloc_name its window wait memory fuel k name st = Some (res, st', k') /\
    alloc_name_post its memory Inv name res st'.
Proof.
  unfold ipc_entry_alloc_name. destruct Hname as (? & Hv & ?). rewrite Hv.
  apply (alloc_name_loop_correct its Hits window wait); try done; [|lia].
  intros Ha. pose proof (next_range its Hits st ltac:(by apply Hgood)). unfold rounds_left, alen in *. destruct (growing st); lia.
Qed.

(** At the largest size, ipc_entry_grow_table reads past the array of sizes.
    With the sizes of ipc_table_init, a space whose next size is the last one gets
    KERN_NO_SPACE and is unchanged, but the size after the last, which the code
    loads before it makes that check, is not an element of the array. *)
Lemma grow_full_reads_past_sizes its dn window wait memory k st
    (Hinit : ipc_table_init = Some (its, dn)) (Hwf : space_wf its None st)
    (Hgr : is_growing (k_space st) = false) (Hlast : is_table_next (k_space st) = 511) :
  grow_table its window wait memory k st = Some (KERN_NO_SPACE, st, k) /\
  aget its (is_table_next (k_space st) + 1) = None.
Proof.
  destruct ipc_table_init_entries as (e & d & Heq & (l & last & Hits & _) & Hl & _).
  assert (e = its) as -> by (rewrite Hinit in Heq; congruence). clear Heq.
  unfold ipc_table_entries_size in Hl. split; [|apply aget_None; lia].
  assert (aget its 511 = aget its 510) as Hsame.
  { subst its. rewrite alen_app in Hl. change (alen [last; last]) with 2 in Hl.
    rewrite !aget_app_r by lia. by replace (511 - alen l) with 1 by lia; replace (510 - alen l) with 0 by lia. }
  destruct (wf_sizes _ _ _ Hwf) as (_ & Hs & [x Hx]). rewrite Hlast in *. change (511 - 1) with 510 in Hs.
  unfold grow_table. cbn [ipc_entry_grow_table].
  rewrite (wf_active _ _ _ Hwf), Hgr, Hlast. change (511 - 1) with 510. rewrite Hsame, Hs, Z.eqb_refl. done.
Qed.
End Theorems.

(** ** Concrete instances *)

#[local] Existing Instance pc0.

Lemma space_init_empty_witness :
  exists sp, space_init its0 raw_space 0 = Some sp /\ space_wf its0 None (mk_kstate sp ghash0) /\
    (forall n, space_caps sp n = None) /\ is_references sp = 2 /\ is_growing sp = false /\
    is_self sp = 0x40.
Proof.
  destruct ghash0_ok as [Hw Hn].
  apply (space_init_empty its0 raw_space 0 ghash0 its0_ok); [done|by eexists|done|by intros e ?%Hn].
Defined.

Lemma entry_lookup_refines_caps_witness :
  exists sp' res, ipc_entry_lookup space0 0x1ff = Some (sp', res) /\
    space_wf its0 None (mk_kstate sp' ghash0) /\
    (forall n, space_caps sp' n = space_caps space0 n) /\
    match res with
    | Some ref => ref_for sp' 0x1ff ref /\ is_Some (space_caps space0 0x1ff) /\
        space_caps space0 0x1ff = (get_entry sp' ref ≫= entry_cap)
    | None => space_caps space0 0x1ff = None
    end.
Proof. apply (entry_lookup_refines_caps its0 st0 0x1ff st0_wf). vm_compute. split; congruence. Defined.

Lemma entry_get_fresh_witness :
  exists sp' res, ipc_entry_get space0 = Some (sp', res) /\
    match res with
    | None => sp' = space0 /\ forall i, ~ is_free None (is_table space0) i
    | Some (name, i) =>
        space_wf its0 (Some (InTable i)) (mk_kstate sp' ghash0) /\
        valid_name name /\ ref_for sp' name (InTable i) /\
        fresh_entry sp' (InTable i) (MACH_PORT_GEN name) /\
        space_caps space0 name = None /\
        (forall n, space_caps sp' n = space_caps space0 n)
    end.
Proof. apply (entry_get_fresh its0 st0 its0_ok st0_wf). Defined.

(** The entry of [got0]: index 1, generation 0. *)
Lemma got0_entry : aget (is_table (k_space got0)) 1 = Some (mk_entry 0 IO_NULL 0 0).
Proof. vm_compute. reflexivity. Qed.

Lemma entry_dealloc_removes_witness :
  exists st', ipc_entry_dealloc its0 got0 0x100 (InTable 1) = Some st' /\ space_wf its0 None st' /\
    ghash_frame (is_self (k_space got0)) (k_ghash got0) (k_ghash st') /\
    (forall n, space_caps (k_space st') n =
       if decide (n = 0x100) then None else space_caps (k_space got0) n).
Proof.
  apply (entry_dealloc_removes its0 got0 0x100 (InTable 1) (mk_entry 0 IO_NULL 0 0) its0_ok got0_wf);
    [|exact got0_entry|reflexivity|reflexivity].
  left. split; [reflexivity|]. exists (mk_entry 0 IO_NULL 0 0). split; [exact got0_entry|reflexivity].
Defined.

Lemma dealloc_get_next_generation_witness :
  exists st' sp' name', ipc_entry_dealloc its0 got0 0x100 (InTable 1) = Some st' /\
    ipc_entry_get (k_space st') = Some (sp', Some (name', 1)) /\
    name' = MACH_PORT_MAKE 1 (u32 (MACH_PORT_GEN 0x100 + IE_BITS_GEN_ONE)) /\
    (PORT_GENERATIONS = true -> name' <> 0x100).
Proof.
  apply (dealloc_get_next_generation its0 got0 0x100 1 (mk_entry 0 IO_NULL 0 0) its0_ok got0_wf);
    [vm_compute; split; congruence|reflexivity|exact got0_entry|reflexivity..].
Defined.

Lemma reverse_lookup_finds_send_witness :
  exists g' res, ipc_hash_lookup st0 0x1000 = Some (mk_kstate space0 g', res) /\
    space_wf its0 None (mk_kstate space0 g') /\
    match res with
    | Some (name, ref) => ref_for space0 name ref /\
        exists e, get_entry space0 ref = Some e /\ ie_object e = 0x1000 /\
          IE_BITS_TYPE (ie_bits e) = MACH_PORT_TYPE_SEND
    | None => forall ref e, get_entry space0 ref = Some e -> ie_object e = 0x1000 ->
        IE_BITS_TYPE (ie_bits e) <> MACH_PORT_TYPE_SEND
    end.
Proof. apply (reverse_lookup_finds_send its0 st0 0x1000 its0_ok st0_wf). done. Defined.

Lemma grow_install_keeps_caps_witness :
  exists st', grow_install 4 8 8 2 st0 = Some st' /\ space_wf its0 None st' /\
    (forall n, space_caps (k_space st') n = space_caps space0 n) /\
    ghash_frame (is_self space0) ghash0 (k_ghash st') /\ is_table_size (k_space st') = 8.
Proof.
  apply (grow_install_keeps_caps its0 st0 8 8 its0_ok st0_wf); [reflexivity|reflexivity|].
  vm_compute. split; [reflexivity|discriminate].
Defined.

(** Another thread takes a reference each time the lock is released. *)
Definition window0 (k : nat) (st : kstate) : kstate :=
  on_space (fun sp => sp_set_references (is_references sp + 1) sp) st.

(** The other thread ends its growth before this one runs again. *)
Definition wait0 (k : nat) (st : kstate) : kstate := on_space (sp_set_growing false) (window0 k st).

Lemma window0_rely : rely its0 window0 wait0.
Proof. constructor; [constructor..|]; try done; intros k st Hok Ha; destruct (Hok Ha); by constructor. Qed.

Lemma wait0_ends : waits_end wait0.
Proof. done. Qed.

(** Another thread is growing the table. *)
Definition growing0 : kstate := on_space (sp_set_growing true) st0.

Definition no_caps (c : Z -> option capability) : Prop := forall n, c n = None.

Lemma no_caps_proper : Proper (pointwise_relation Z eq ==> iff) no_caps.
Proof. intros c c' H. unfold no_caps. split; intros Hn n; specialize (Hn n); specialize (H n); congruence. Qed.

Lemma st0_no_caps : no_caps (space_caps space0).
Proof.
  destruct ghash0_ok as [Hw Hn].
  destruct (@space_init_correct pc0 its0 raw_space 0 ghash0) as (sp & Hc & _ & Hnone & _);
    [apply its0_ok|done|by eexists|done|by intros e ?%Hn|].
  unfold space0. by rewrite Hc.
Qed.

Lemma growing0_good : good its0 no_caps growing0.
Proof. split; intros _; [by apply space_wf_growing, st0_wf|exact st0_no_caps]. Qed.

Lemma grow_table_terminates_witness :
  exists kr st' k', grow_table its0 window0 wait0 (fun _ => true) 0 st0 = Some (kr, st', k') /\
    (active st' -> space_wf its0 None st' /\ no_caps (space_caps (k_space st'))) /\
    match kr with
    | KERN_SUCCESS => growing st0 = false -> active st' -> next_of st0 < next_of st'
    | KERN_NO_SPACE => st' = st0 /\ aget its0 (next_of st0) = Some (is_table_size (k_space st0))
    | KERN_RESOURCE_SHORTAGE => exists j : nat, true = false
    | _ => False
    end.
Proof.
  apply (grow_table_terminates its0 window0 wait0 (fun _ => true) no_caps 0 st0 its0_ok window0_rely no_caps_proper);
    [by intros k st _ _ H|by intros k st _ _ H|exact st0_wf|exact st0_no_caps].
Defined.

Lemma entry_alloc_total_witness :
  exists res st' k', ipc_entry_alloc its0 window0 wait0 (fun _ => true) 6 0 growing0 = Some (res, st', k') /\
    alloc_post its0 (fun _ => true) no_caps res st'.
Proof.
  apply (entry_alloc_total its0 window0 wait0 (fun _ => true) no_caps 6 0 growing0 its0_ok window0_rely);
    [exact wait0_ends|exact no_caps_proper|by intros k st _ _ H|by intros k st _ _ H|exact growing0_good|cbn; lia].
Defined.

Lemma entry_alloc_name_total_witness :
  exists res st' k', ipc_entry_alloc_name its0 window0 wait0 (fun _ => true) 8 0 0x7705 growing0 = Some (res, st', k') /\
    alloc_name_post its0 (fun _ => true) no_caps 0x7705 res st'.
Proof.
  apply (entry_alloc_name_total its0 window0 wait0 (fun _ => true) no_caps 8 0 0x7705 growing0 its0_ok window0_rely);
    [exact wait0_ends|exact no_caps_proper|by intros k st _ _ H|by intros k st _ _ H| |exact growing0_good|cbn; lia].
  split; [vm_compute; split; congruence|]. split; [reflexivity|]. vm_compute. reflexivity.
Defined.

(** A space created with the largest table. *)
Lemma full_space its :
  entries_sizes_ok its -> alen its = 512 ->
  exists sp, space_wf its None (mk_kstate sp ghash0) /\ is_growing sp = false /\ is_table_next sp = 511.
Proof.
  intros Hok Hl. destruct ghash0_ok as [Hw Hn].
  destruct (space_init_correct its raw_space 510 ghash0) as (sp & Hc & Hwf & _ & _ & Hgr & _);
    [exact Hok|lia|apply aget_is_Some; lia|done|by intros e ?%Hn|].
  exists sp. split_and!; [done|done|]. unfold space_init in Hc. destruct (aget its 510); [|done].
  destruct (init_table _); [|done]. by injection Hc as <-.
Qed.

Lemma grow_full_reads_past_sizes_witness :
  exists its dn st, ipc_table_init = Some (its, dn) /\
    grow_table its window0 wait0 (fun _ => true) 0 st = Some (KERN_NO_SPACE, st, 0%nat) /\
    aget its (is_table_next (k_space st) + 1) = None.
Proof.
  destruct ipc_table_init_entries as (its & dn & Hinit & Hok & Hl & _).
  destruct (full_space its Hok Hl) as (sp & Hwf & Hgr & Hlast).
  exists its, dn, (mk_kstate sp ghash0). split; [exact Hinit|].
  exact (grow_full_reads_past_sizes its dn window0 wait0 (fun _ => true) 0 (mk_kstate sp ghash0) Hinit Hwf Hgr Hlast).
Defined.
