(* ===== verification/IpcCap.v ===== *)
(** * The interface between rights and capability spaces

    ipc_right.c works on entries through pointers: it reads and writes their
    bits, object and request, enters them in the reverse hash table, takes them
    out of it and deallocates them.  [CapSpace] are the operations it uses and
    [CapSpaceLaws] what it relies on, stated on the finite map from names to
    capabilities.  Between the removal of a right from the hash table and the
    deallocation or the rewriting of its entry the space is not closed: one
    entry is open, in or out of the hash table. *)

From S2P Require Import Prelude PortName IpcTypes IpcSpaceInv.

(** The fields of an entry that the rights code reads and writes. *)
Record eview := mk_view { ev_bits : Z; ev_object : Z; ev_request : Z }.

#[export] Instance eview_eq_dec : EqDecision eview.
Proof. solve_decision. Defined.

Definition v_set_bits (b : Z) (v : eview) : eview := mk_view b (ev_object v) (ev_request v).
Definition v_set_object (o : Z) (v : eview) : eview := mk_view (ev_bits v) o (ev_request v).
Definition v_set_request (r : Z) (v : eview) : eview := mk_view (ev_bits v) (ev_object v) r.

Definition ev_type (v : eview) : Z := IE_BITS_TYPE (ev_bits v).

Definition view_cap (v : eview) : option capability := cap_of (ev_bits v) (ev_object v) (ev_request v).

(** The capability of an entry with a right. *)
Definition the_cap (v : eview) : capability := mk_cap (IE_BITS_RIGHT (ev_bits v)) (ev_object v) (ev_request v).

Definition cap_type (cap : capability) : Z := IE_BITS_TYPE (cap_right cap).

(** Writes that the code makes leave the generation and the collision bit. *)
Definition same_place (b b' : Z) : Prop :=
  is_u32 b' /\ Z.ldiff b' IE_BITS_RIGHT_MASK = Z.ldiff b IE_BITS_RIGHT_MASK.

(** No capability of [c] is a send right for [obj]. *)
Definition no_send (c : gmap Z capability) (obj : Z) : Prop :=
  forall n cap, c !! n = Some cap -> cap_type cap = MACH_PORT_TYPE_SEND -> cap_object cap <> obj.

Class CapSpace (S : Type) := {
  cs_self : S -> Z;
  cs_active : S -> bool;
  cs_lookup : S -> Z -> option (S * option entry_ref);
  cs_entry : S -> entry_ref -> option eview;
  cs_store : S -> entry_ref -> eview -> option S;
  cs_hash_lookup : S -> Z -> option (S * option (Z * entry_ref));
  cs_hash_insert : S -> Z -> Z -> entry_ref -> option S;
  cs_hash_delete : S -> Z -> Z -> entry_ref -> option S;
  cs_dealloc : S -> Z -> entry_ref -> option S
}.

Class CapSpaceLaws (S : Type) `{CapSpace S} := {
  (** The space is closed and holds the capabilities [c]. *)
  cs_repr : S -> gmap Z capability -> Prop;
  (** [entry] is the entry of [name] and its fields are [v]. *)
  cs_holds : S -> Z -> entry_ref -> eview -> Prop;
  (** The entry of [name] is open; the other capabilities are [c].  In
      [cs_hopen] the entry is in the hash table, under its object. *)
  cs_open : S -> gmap Z capability -> Z -> entry_ref -> eview -> Prop;
  cs_hopen : S -> gmap Z capability -> Z -> entry_ref -> eview -> Prop;

  repr_active s c : cs_repr s c -> cs_active s = true;
  open_active s c n r v : cs_open s c n r v -> cs_active s = true;
  hopen_active s c n r v : cs_hopen s c n r v -> cs_active s = true;

  holds_entry s n r v : cs_holds s n r v -> cs_entry s r = Some v;
  open_entry s c n r v : cs_open s c n r v -> cs_entry s r = Some v /\ is_u32 (ev_bits v);
  hopen_entry s c n r v : cs_hopen s c n r v -> cs_entry s r = Some v /\ is_u32 (ev_bits v);

  repr_holds s c n r v : cs_repr s c -> cs_holds s n r v ->
    c !! n = view_cap v /\ is_Some (c !! n) /\ is_u32 (ev_bits v);
  open_rest s c n r v : cs_open s c n r v -> c !! n = None /\ n <> MACH_PORT_NULL;
  hopen_rest s c n r v : cs_hopen s c n r v -> c !! n = None /\ n <> MACH_PORT_NULL;

  lookup_law s c name : cs_repr s c -> is_u32 name ->
    exists s' res, cs_lookup s name = Some (s', res) /\ cs_repr s' c /\ cs_self s' = cs_self s /\
      match res with
      | Some ref => exists v, cs_holds s' name ref v
      | None => c !! name = None
      end;

  (** Entries stay where they are when another name is looked up. *)
  lookup_keeps s c name s' res n r v : cs_repr s c -> is_u32 name -> cs_lookup s name = Some (s', res) ->
    cs_holds s n r v -> cs_holds s' n r v;

  hash_lookup_law s c obj : cs_repr s c -> obj <> IO_NULL ->
    exists s' res, cs_hash_lookup s obj = Some (s', res) /\ cs_repr s' c /\ cs_self s' = cs_self s /\
      match res with
      | Some (name, ref) => exists v, cs_holds s' name ref v /\ ev_object v = obj /\
          ev_type v = MACH_PORT_TYPE_SEND
      | None => no_send c obj
      end;

  (** Opening and closing an entry is not an operation but for the hash table. *)
  open_law s c n r v : cs_repr s c -> cs_holds s n r v -> ev_type v <> MACH_PORT_TYPE_SEND ->
    cs_open s (delete n c) n r v;
  hopen_law s c n r v : cs_repr s c -> cs_holds s n r v -> ev_type v = MACH_PORT_TYPE_SEND ->
    cs_hopen s (delete n c) n r v;
  close_law s c n r v : cs_open s c n r v -> ev_type v <> 0 -> ev_type v <> MACH_PORT_TYPE_SEND ->
    cs_repr s (<[n := the_cap v]> c) /\ cs_holds s n r v;
  hclose_law s c n r v : cs_hopen s c n r v -> ev_type v = MACH_PORT_TYPE_SEND ->
    cs_repr s (<[n := the_cap v]> c) /\ cs_holds s n r v;

  store_law s c n r v v' : cs_open s c n r v -> same_place (ev_bits v) (ev_bits v') ->
    exists s', cs_store s r v' = Some s' /\ cs_open s' c n r v' /\ cs_self s' = cs_self s;
  hstore_law s c n r v v' : cs_hopen s c n r v -> same_place (ev_bits v) (ev_bits v') ->
    ev_object v' = ev_object v ->
    exists s', cs_store s r v' = Some s' /\ cs_hopen s' c n r v' /\ cs_self s' = cs_self s;

  hash_insert_law s c n r v : cs_open s c n r v -> ev_object v <> IO_NULL -> no_send c (ev_object v) ->
    exists s', cs_hash_insert s (ev_object v) n r = Some s' /\ cs_hopen s' c n r v /\
      cs_self s' = cs_self s;
  hash_delete_law s c n r v : cs_hopen s c n r v ->
    exists s', cs_hash_delete s (ev_object v) n r = Some s' /\ cs_open s' c n r v /\
      cs_self s' = cs_self s;

  dealloc_law s c n r v : cs_open s c n r v -> ev_object v = IO_NULL -> ev_request v = 0 ->
    exists s', cs_dealloc s n r = Some s' /\ cs_repr s' c /\ cs_self s' = cs_self s
}.
