(* ===== verification/IpcCapSpace.v ===== *)
(** * Capability spaces implement the interface of the rights code

    The state of ipc_entry.c with the operations of ipc_entry.c and ipc_hash.c,
    and writes through entry pointers, satisfies [CapSpaceLaws]. *)

From S2P Require Import Prelude PortName IpcSplay IpcTable IpcTypes IpcHash IpcEntry.
From S2P Require Import IpcSpaceInv IpcEntrySpec IpcReverse IpcCap.

Section CapSpaceOps.
Context `{PC : PortConfig}.

Definition view_of (e : ipc_entry) : eview := mk_view (ie_bits e) (ie_object e) (ie_request e).

(** The fields written through a pointer into the table or to a tree node. *)
Definition write_entry (v : eview) (e : ipc_entry) : ipc_entry :=
  mk_entry (ev_bits v) (ev_object v) (ev_request v) (ie_index e).
Definition write_tentry (v : eview) (te : ipc_tree_entry) : ipc_tree_entry :=
  mk_ite (ev_bits v) (ev_object v) (ev_request v) (ite_space te).

Definition store_entry (st : kstate) (ref : entry_ref) (v : eview) : option kstate :=
  let sp := k_space st in
  match ref with
  | InTable i =>
      LET t' <- table_upd (is_table sp) i (write_entry v) ;;
      Some (on_space (sp_set_table t') st)
  | InTree n =>
      LET _ <- splay_map (is_tree sp) !! n ;;
      Some (on_space (sp_set_tree (splay_upd n (write_tentry v) (is_tree sp))) st)
  end.

#[export] Instance kstate_space (its : list Z) : CapSpace kstate := {
  cs_self st := is_self (k_space st);
  cs_active st := is_active (k_space st);
  cs_lookup st name :=
    LET (sp', res) <- ipc_entry_lookup (k_space st) name ;; Some (mk_kstate sp' (k_ghash st), res);
  cs_entry st ref := view_of <$> get_entry (k_space st) ref;
  cs_store := store_entry;
  cs_hash_lookup := ipc_hash_lookup;
  cs_hash_insert := ipc_hash_insert;
  cs_hash_delete := ipc_hash_delete;
  cs_dealloc := ipc_entry_dealloc its
}.
End CapSpaceOps.

Section Laws.
Context `{PC : PortConfig}.
Variable its : list Z.
Hypothesis Hits : entries_sizes_ok its.
Implicit Types (st : kstate) (ref : entry_ref) (open : option entry_ref).

(** ** The invariant without and with the hash tables *)

Record rest_wf open st : Prop := {
  rw_active : is_active (k_space st) = true;
  rw_sizes : sizes_wf its (k_space st);
  rw_open : open_wf open (is_table (k_space st)) (tree_map (k_space st));
  rw_table : table_wf open (is_table (k_space st));
  rw_free : free_wf open (is_table (k_space st));
  rw_splay : splay_wf (is_tree (k_space st));
  rw_tree : tree_wf (is_self (k_space st)) open (tree_map (k_space st));
  rw_collisions : collisions_wf (is_table (k_space st)) (tree_map (k_space st));
  rw_total : is_tree_total (k_space st) = Z.of_nat (size (tree_map (k_space st)));
  rw_small : is_tree_small (k_space st) =
    small_count (is_table_size (k_space st)) (next_size its (k_space st)) (tree_map (k_space st))
}.

Definition entry_at st ref : option (Z * Z) := entry_of (is_table (k_space st)) (tree_map (k_space st)) ref.

(** The hash tables hold the entries of the relation [L]. *)
Record hash_rel (L : entry_ref -> Z -> Prop) st : Prop := {
  hr_local : local_wf (is_table (k_space st));
  hr_hashed : forall i, hashed (is_table (k_space st)) i <-> exists obj, L (InTable i) obj;
  hr_ghash : ghash_wf (k_ghash st);
  hr_ghashed : forall n obj, ghashed (k_ghash st) (mk_ghash (is_self (k_space st)) n obj) <-> L (InTree n) obj;
  hr_count : exists X : gset Z, (forall n, n ∈ X <-> exists obj, L (InTree n) obj) /\
    is_tree_hash (k_space st) = Z.of_nat (size X);
  hr_object : forall ref obj, L ref obj -> exists bits, entry_at st ref = Some (bits, obj);
  hr_unique : forall ref obj, L ref obj -> obj <> IO_NULL /\ forall ref', L ref' obj -> ref' = ref
}.

Definition sends open st : entry_ref -> Z -> Prop :=
  live_send open (is_table (k_space st)) (tree_map (k_space st)).

Lemma space_wf_split open st : space_wf its open st <-> rest_wf open st /\ hash_rel (sends open st) st.
Proof.
  split.
  - intros []. split; constructor; try done.
    + exists (tree_sends open (tree_map (k_space st))). split; [|done].
      intros n. apply (elem_tree_sends open (is_table (k_space st))).
    + intros ref obj (_ & b & Hb & _). by exists b.
  - intros [[] [Hl Hh Hg Hgh (X & HX & Hc) Ho Hu]]. constructor; try done.
    rewrite Hc. f_equal. f_equal. apply set_eq. intros n.
    rewrite HX, (elem_tree_sends open (is_table (k_space st))). done.
Qed.

Lemma hash_rel_iff L L' st : (forall r o, L' r o <-> L r o) -> hash_rel L st -> hash_rel L' st.
Proof.
  intros Hiff [Hl Hh Hg Hgh (X & HX & Hc) Ho Hu]. constructor; try done.
  - intros i. rewrite Hh. by setoid_rewrite Hiff.
  - intros n obj. by rewrite Hgh, Hiff.
  - exists X. split; [|done]. intros n. rewrite HX. by setoid_rewrite Hiff.
  - intros r o ?%Hiff. by apply Ho.
  - intros r o Hr%Hiff. destruct (Hu r o Hr) as [? Hu']. split; [done|]. intros r' ?%Hiff. by apply Hu'.
Qed.

(** Changes that leave the slots, and the objects of hashed entries. *)
Lemma hash_rel_frame L st st' :
  same_slots (is_table (k_space st)) (is_table (k_space st')) ->
  k_ghash st' = k_ghash st -> is_tree_hash (k_space st') = is_tree_hash (k_space st) ->
  is_self (k_space st') = is_self (k_space st) ->
  (forall ref obj, L ref obj -> exists bits, entry_at st' ref = Some (bits, obj)) ->
  hash_rel L st -> hash_rel L st'.
Proof.
  intros Hs Hg Hh Hse Hobj [Hl Hha Hgw Hgh Hc Ho Hu]. constructor; rewrite ?Hg, ?Hh, ?Hse; try done.
  - eapply same_slots_wf; [exact Hs| |done]. intros i Hi. apply Hha in Hi as [obj Hi].
    destruct (Hobj _ _ Hi) as [b Hb]. destruct (Ho _ _ Hi) as [b' Hb']. unfold entry_at in *. cbn in *.
    unfold object_of. destruct (aget (is_table (k_space st')) i), (aget (is_table (k_space st)) i); cbn in *; congruence.
  - intros i. by rewrite (same_slots_hashed _ _ i Hs).
Qed.

(** ** Opening and closing an entry *)

Lemma rest_wf_reopen open open' st :
  (forall ref, open = Some ref \/ open' = Some ref ->
     exists b o, entry_at st ref = Some (b, o) /\ IE_BITS_TYPE b <> 0) ->
  rest_wf open st -> rest_wf open' st.
Proof.
  intros Hlive [Ha Hs Ho Ht Hf Hsp Htr Hc Hto Hsm].
  assert (forall i e, aget (is_table (k_space st)) i = Some e -> IE_BITS_TYPE (ie_bits e) = 0 ->
    open <> Some (InTable i) /\ open' <> Some (InTable i)) as Hti.
  { intros i e He H0. split; intros E; [destruct (Hlive (InTable i) (or_introl E)) as (b & o & Hb & Hne)
      |destruct (Hlive (InTable i) (or_intror E)) as (b & o & Hb & Hne)]; unfold entry_at in Hb; cbn in Hb;
      rewrite He in Hb; cbn in Hb; congruence. }
  constructor; try done.
  - destruct open' as [[i|n]|]; [| |done]; destruct (Hlive _ (or_intror eq_refl)) as (b & o & Hb & Hne);
      unfold entry_at in Hb; cbn in *.
    + destruct (aget _ i) as [e|] eqn:He; [|done]. cbn in Hb. injection Hb as <- <-.
      pose proof (aget_Some_range _ _ _ He). destruct (Ht _ _ He) as (_ & H0 & _).
      destruct (decide (i = 0)) as [->|]; [by destruct Hne; apply H0|lia].
    + by destruct (tree_map _ !! n).
  - intros i e He. destruct (Ht _ _ He) as (? & ? & H0). split_and!; try done. intros Hty Hne.
    apply H0; [done|]. by apply (Hti i e).
  - destruct Hf as (l & Hch & Hnd & Hin). exists l. split_and!; try done. intros i. rewrite Hin.
    unfold is_free. split; intros (Hi & _ & e & He & Hty); (split_and!; [done|by apply (Hti i e)|by exists e]).
  - intros n te Hte. destruct (Htr n te Hte) as (? & ? & ? & H0). split_and!; try done. intros Hty.
    apply H0 in Hty as E. destruct (Hlive _ (or_introl E)) as (b & o & Hb & Hne). unfold entry_at in Hb. cbn in Hb.
    rewrite Hte in Hb. cbn in Hb. congruence.
Qed.

(** ** Writing through the pointer to the open entry *)

Lemma view_entry_at st ref e :
  get_entry (k_space st) ref = Some e -> entry_at st ref = Some (ie_bits e, ie_object e).
Proof.
  destruct ref as [i|n]; unfold entry_at.
  - cbn. by intros ->.
  - rewrite get_entry_tree. cbn. destruct (tree_map _ !! n); [|done]. by intros [= <-].
Qed.

Lemma same_place_bits b b' :
  same_place b b' -> IE_BITS_GEN b' = IE_BITS_GEN b /\ Z.land b' IE_BITS_COLLISION = Z.land b IE_BITS_COLLISION.
Proof.
  intros [_ H]. rewrite !IE_BITS_GEN_land. split; bits_solve.
Qed.

Lemma same_place_right b b' : same_place b b' -> IE_BITS_RIGHT b = b -> IE_BITS_RIGHT b' = b'.
Proof. intros [_ H] Hb. unfold IE_BITS_RIGHT in *. bits_solve. Qed.

(** What a write through the pointer [ref] changes. *)
Record stored (st : kstate) (ref : entry_ref) (v : eview) (st' : kstate) : Prop := {
  sd_header : same_header (k_space st) (k_space st');
  sd_ghash : k_ghash st' = k_ghash st;
  sd_hash : is_tree_hash (k_space st') = is_tree_hash (k_space st);
  sd_slots : same_slots (is_table (k_space st)) (is_table (k_space st'));
  sd_view : view_of <$> get_entry (k_space st') ref = Some v;
  sd_other : forall r, r <> ref -> entry_at st' r = entry_at st r;
  sd_rest : rest_wf (Some ref) st';
  sd_caps : forall name n, ref_for (k_space st) name ref -> n <> name ->
    space_caps (k_space st') n = space_caps (k_space st) n;
  sd_ref : forall name, ref_for (k_space st) name ref -> ref_for (k_space st') name ref
}.

Lemma store_table st i e v :
  rest_wf (Some (InTable i)) st -> aget (is_table (k_space st)) i = Some e ->
  same_place (ie_bits e) (ev_bits v) ->
  exists st', store_entry st (InTable i) v = Some st' /\ stored st (InTable i) v st'.
Proof.
  intros [Ha Hs Ho Ht Hf Hsp Htr Hc Hto Hsm] He Hp. unfold store_entry. rewrite (table_upd_Some _ _ _ _ He).
  eexists. split; [done|]. destruct (same_place_bits _ _ Hp) as [Hgen Hcol].
  pose proof (aget_Some_range _ _ _ He) as Hr. cbn in Ho.
  set (t := is_table (k_space st)) in *. set (e' := write_entry v e).
  assert (forall k, aget (aset t i e') k = if decide (k = i) then Some e' else aget t k) as Hget.
  { intros k. case_decide as Hk; [subst; by apply aget_aset_eq|by apply aget_aset_ne]. }
  constructor; cbn; try done.
  - by eapply same_slots_aset.
  - rewrite Hget, decide_True by done. cbn. by destruct v.
  - intros [k|n] Hne; unfold entry_at; cbn; [|done]. by rewrite Hget, decide_False by congruence.
  - constructor; cbn; try done.
    + destruct Hs as (Hl & Hs). split; [|done]. cbn. by rewrite alen_aset.
    + by rewrite alen_aset.
    + intros k x. rewrite Hget. case_decide as Hk; [subst k; intros [= <-]|].
      * split_and!; [apply Hp|lia|done].
      * intros Hx. apply (Ht _ _ Hx).
    + destruct Hf as (l & Hch & Hnd & Hin).
      assert (i ∉ l) as Hil by (intros (_ & Hx & _)%Hin; done). exists l. split_and!; [|done|].
      * eapply free_chain_frame; [exact Hch|]. intros j Hj. rewrite Hget, decide_False; [done|].
        intros ->. destruct Hj as [->|]; [lia|done].
      * intros k. rewrite Hin. unfold is_free. rewrite Hget. case_decide as Hk; [subst k|done].
        split; intros (_ & Hx & _); done.
    + intros k x. rewrite Hget. case_decide as Hk; [subst k; intros [= <-]|by apply Hc].
      destruct (Hc _ _ He) as [H1 H2]. split; cbn; [by rewrite Hcol|by rewrite Hgen].
  - intros name n [[Hi (e0 & He0 & Hg0)]|[? _]] Hne; [|done]. injection Hi as Hi. unfold space_caps, caps.
    cbn. fold t. rewrite Hget. case_decide as Hk; [|done]. rewrite Hk, He. cbn.
    assert (e0 = e) as -> by (rewrite <- Hi in He0; unfold t in He; congruence). rewrite Hgen, Hg0.
    rewrite (proj2 (Z.eqb_neq _ _)); [done|]. intros Hx. apply Hne. apply index_gen_inj; [|done]. lia.
  - intros name [[Hi (e0 & He0 & Hg0)]|[? _]]; [|done]. injection Hi as Hi. left. split; [by rewrite <- Hi|].
    cbn. fold t. rewrite <- Hi in He0 |- *. rewrite Hget, decide_True by done. exists e'. split; [done|]. cbn.
    assert (e0 = e) as -> by (unfold t in He; congruence). by rewrite Hgen.
Qed.

Lemma alter_some_iff (m : gmap Z ipc_tree_entry) f n k : is_Some (alter f n m !! k) <-> is_Some (m !! k).
Proof.
  destruct (decide (k = n)) as [->|]; [rewrite lookup_alter_eq, fmap_is_Some|rewrite lookup_alter_ne by done]; done.
Qed.

Lemma alter_collides m f n i : collides (alter f n m) i <-> collides m i.
Proof. unfold collides. by setoid_rewrite alter_some_iff. Qed.

Lemma store_tree st n te v :
  rest_wf (Some (InTree n)) st -> tree_map (k_space st) !! n = Some te ->
  same_place (ite_bits te) (ev_bits v) ->
  exists st', store_entry st (InTree n) v = Some st' /\ stored st (InTree n) v st'.
Proof.
  intros [Ha Hs Ho Ht Hf Hsp Htr Hc Hto Hsm] Hte Hp. unfold store_entry. fold (tree_map (k_space st)). rewrite Hte.
  eexists. split; [done|]. set (tr := splay_upd n (write_tentry v) (is_tree (k_space st))).
  destruct (splay_upd_correct n (write_tentry v) _ Hsp) as [Hsp' Hm']. fold tr in Hsp', Hm'.
  set (m := tree_map (k_space st)) in *. fold (tree_map (k_space st)) in Hm'. fold m in Hm'.
  set (sp' := sp_set_tree tr (k_space st)). assert (tree_map sp' = alter (write_tentry v) n m) as Hmap by exact Hm'.
  constructor; cbn [on_space k_space k_ghash]; fold sp'; try done.
  - rewrite get_entry_tree, Hmap, lookup_alter_eq, Hte. cbn. by destruct v.
  - intros [k|k] Hne; unfold entry_at; cbn [on_space k_space]; fold sp'; [done|]. cbn [entry_of].
    rewrite Hmap, lookup_alter_ne by congruence. done.
  - constructor; cbn [on_space k_space]; fold sp'; try done.
    + cbn [open_wf]. rewrite Hmap. by apply alter_some_iff.
    + rewrite Hmap. intros k x Hx. destruct (decide (k = n)) as [->|].
      * rewrite lookup_alter_eq, Hte in Hx. injection Hx as <-. destruct (Htr _ _ Hte) as (? & ? & ? & _).
        split_and!; try done. by eapply same_place_right.
      * rewrite lookup_alter_ne in Hx by done. by apply (Htr _ _ Hx).
    + rewrite Hmap. intros i e He. destruct (Hc _ _ He) as [H1 H2]. split.
      * by rewrite alter_collides.
      * intros k Hk. apply H2. by apply alter_some_iff in Hk.
    + rewrite Hmap. change (is_tree_total sp') with (is_tree_total (k_space st)). rewrite Hto.
      f_equal. rewrite <- !(size_dom (D := gset Z)). by rewrite dom_alter_L.
    + rewrite Hmap. change (is_tree_small sp') with (is_tree_small (k_space st)). rewrite Hsm.
      unfold small_count, small_indices. by rewrite dom_alter_L.
  - intros name k [[? _]|[[= <-] _]] Hne; [done|]. unfold space_caps, caps. rewrite Hmap.
    by rewrite lookup_alter_ne.
  - intros name [[? _]|[[= <-] _]]; [done|]. right. split; [done|]. rewrite Hmap. apply alter_some_iff. by rewrite Hte.
Qed.

Lemma store_entry_correct st ref e v :
  rest_wf (Some ref) st -> get_entry (k_space st) ref = Some e -> same_place (ie_bits e) (ev_bits v) ->
  exists st', store_entry st ref v = Some st' /\ stored st ref v st'.
Proof.
  intros Hw He Hp. destruct ref as [i|n]; [by eapply store_table|].
  rewrite get_entry_tree in He. destruct (tree_map _ !! n) as [te|] eqn:E; [|done]. injection He as <-.
  by eapply store_tree.
Qed.

(** ** Entering the open entry in the hash table and taking it out *)

(** States that differ in the hash tables only. *)
Record rehashed st st' : Prop := {
  rh_entries : same_entries (is_table (k_space st)) (is_table (k_space st'));
  rh_header : same_header (k_space st) (k_space st');
  rh_tree : is_tree (k_space st') = is_tree (k_space st);
  rh_total : is_tree_total (k_space st') = is_tree_total (k_space st);
  rh_small : is_tree_small (k_space st') = is_tree_small (k_space st)
}.

Lemma same_entries_get t t' i :
  same_entries t t' ->
  (aget t i = None /\ aget t' i = None) \/
  exists e e', aget t i = Some e /\ aget t' i = Some e' /\ view_of e' = view_of e.
Proof.
  intros [_ H]. specialize (H i). destruct (aget t' i) as [e'|], (aget t i) as [e|]; try done; [right|by left].
  exists e, e'. split_and!; try done. unfold view_of. cbn in H. injection H as -> -> ->. done.
Qed.

Section Rehashed.
Variables (st st' : kstate).
Hypothesis Hre : rehashed st st'.

Lemma rehashed_map : tree_map (k_space st') = tree_map (k_space st).
Proof using Hre. unfold tree_map. by rewrite (rh_tree _ _ Hre). Qed.

Lemma rehashed_view ref : view_of <$> get_entry (k_space st') ref = view_of <$> get_entry (k_space st) ref.
Proof using Hre.
  destruct ref as [i|n]; [|by rewrite !get_entry_tree, rehashed_map]. cbn.
  destruct (same_entries_get _ _ i (rh_entries _ _ Hre)) as [[-> ->]|(e & e' & -> & -> & H)]; [done|].
  cbn. by rewrite H.
Qed.

Lemma rehashed_entry_at ref : entry_at st' ref = entry_at st ref.
Proof using Hre.
  unfold entry_at. destruct ref as [i|n]; cbn; [|by rewrite rehashed_map].
  destruct (same_entries_get _ _ i (rh_entries _ _ Hre)) as [[-> ->]|(e & e' & -> & -> & H)]; [done|].
  unfold view_of in H. cbn. congruence.
Qed.

Lemma rehashed_caps n : space_caps (k_space st') n = space_caps (k_space st) n.
Proof using Hre.
  unfold space_caps, caps. rewrite rehashed_map.
  destruct (same_entries_get _ _ (MACH_PORT_INDEX n) (rh_entries _ _ Hre)) as [[-> ->]|(e & e' & -> & -> & H)];
    [done|]. unfold view_of in H. injection H as Hb Ho Hr. unfold entry_cap. by rewrite Hb, Ho, Hr.
Qed.

Lemma rehashed_ref name ref : ref_for (k_space st) name ref -> ref_for (k_space st') name ref.
Proof using Hre.
  unfold ref_for. rewrite rehashed_map. intros [[-> (e0 & He0 & Hg)]|?]; [left|by right]. split; [done|].
  destruct (same_entries_get _ _ (MACH_PORT_INDEX name) (rh_entries _ _ Hre)) as [[? ?]|(e & e' & He & He' & H)];
    [congruence|]. exists e'. split; [done|]. unfold view_of in H. congruence.
Qed.

Lemma rehashed_rest open : rest_wf open st -> rest_wf open st'.
Proof using Hre.
  pose proof (fun i => same_entries_get _ _ i (rh_entries _ _ Hre)) as Hget.
  destruct (rh_header _ _ Hre) as (Hse & Hac & _ & _ & Hsz & Hnx).
  intros [Ha Hs Ho Ht Hf Hsp Htr Hc Hto Hsm]. destruct (rh_entries _ _ Hre) as [Hlen _].
  constructor; rewrite ?rehashed_map, ?Hse, ?Hac, ?(rh_tree _ _ Hre), ?(rh_total _ _ Hre), ?(rh_small _ _ Hre); try done.
  - destruct Hs as (Hl & H1 & H2). unfold sizes_wf. rewrite Hsz, Hnx, Hlen. done.
  - destruct open as [[i|n]|]; cbn in *; [by rewrite Hlen|done|done].
  - intros i x Hx. destruct (Hget i) as [[_ ?]|(e & e' & He & He' & H)]; [congruence|].
    assert (x = e') as -> by congruence. unfold view_of in H. injection H as Hb Hob _.
    destruct (Ht _ _ He) as (? & ? & ?). unfold entry_wf. by rewrite Hb, Hob.
  - destruct Hf as (l & Hch & Hnd & Hin). exists l. split_and!; [|done|].
    + eapply free_chain_frame; [exact Hch|]. intros j _. destruct (Hget j) as [[-> ->]|(e & e' & -> & -> & H)]; [done|].
      unfold view_of in H. cbn. unfold ie_next. congruence.
    + intros i. rewrite Hin. unfold is_free. destruct (Hget i) as [[-> ->]|(e & e' & -> & -> & H)]; [done|].
      unfold view_of in H. injection H as Hb _ _. split; intros (? & ? & x & [= <-] & Hx); (split_and!; [done|done|]);
        eexists; (split; [done|congruence]).
  - intros i x Hx. destruct (Hget i) as [[_ ?]|(e & e' & He & He' & H)]; [congruence|].
    assert (x = e') as -> by congruence. unfold view_of in H. injection H as Hb _ _. unfold collision_wf.
    rewrite Hb. by apply (Hc _ _ He).
  - rewrite Hsz. unfold next_size. by rewrite Hnx.
Qed.
End Rehashed.

Lemma rest_ref_in_table open st name ref :
  rest_wf open st -> ref_for (k_space st) name ref ->
  if ref_in_table (k_space st) name ref then ref = InTable (MACH_PORT_INDEX name) else ref = InTree name.
Proof.
  intros Hw Hr. unfold ref_in_table. destruct Hr as [[-> (e & He & _)]|[-> _]].
  - rewrite bool_decide_eq_true_2, andb_true_r by done. destruct (rw_sizes _ _ Hw) as [Hl _].
    apply aget_Some_range in He. by rewrite (proj2 (Z.ltb_lt _ _)) by lia.
  - by rewrite bool_decide_eq_false_2, andb_false_r by done.
Qed.

Section HashOps.
Variables (L : entry_ref -> Z -> Prop) (st : kstate) (name : Z) (ref : entry_ref) (e : ipc_entry).
Hypothesis Hrest : rest_wf (Some ref) st.
Hypothesis Href : ref_for (k_space st) name ref.
Hypothesis Hent : get_entry (k_space st) ref = Some e.
Hypothesis Hobj : ie_object e <> IO_NULL.
Let obj := ie_object e.
Let sp := k_space st.

Lemma ref_entry :
  (ref = InTable (MACH_PORT_INDEX name) /\ aget (is_table sp) (MACH_PORT_INDEX name) = Some e /\
     0 < MACH_PORT_INDEX name < alen (is_table sp)) \/
  (ref = InTree name /\ exists te, tree_map sp !! name = Some te /\ ite_object te = obj /\
     ite_space te = is_self sp).
Proof using Hrest Href Hent.
  destruct Href as [[-> (e0 & He0 & _)]|[-> [te Hte]]].
  - left. cbn in Hent. split_and!; [done|done| |]; pose proof (rw_open _ _ Hrest) as Ho; cbn in Ho; apply Ho.
  - right. split; [done|]. exists te. rewrite get_entry_tree in Hent. fold sp in Hent, Hte. rewrite Hte in Hent.
    injection Hent as He. unfold obj. rewrite <- He. split_and!; [done|done|].
    by apply (rw_tree _ _ Hrest _ _ Hte).
Qed.

(** The hashed tree entries are nodes of the tree. *)
Lemma hashed_in_tree X :
  hash_rel L st -> (forall n, n ∈ X <-> exists o, L (InTree n) o) -> X ⊆ dom (tree_map sp).
Proof using Type.
  intros Hh HX n (o & Ho)%HX. destruct (hr_object _ _ Hh _ _ Ho) as [b Hb]. unfold entry_at in Hb. cbn in Hb.
  fold sp in Hb. apply elem_of_dom. by destruct (tree_map sp !! n).
Qed.

Lemma ipc_hash_insert_rel :
  hash_rel L st -> (forall o, ~ L ref o) -> (forall r, ~ L r obj) ->
  exists st', ipc_hash_insert st obj name ref = Some st' /\ rehashed st st' /\
    hash_rel (fun r o => L r o \/ (r = ref /\ o = obj)) st'.
Proof using Hrest Href Hent Hobj.
  intros Hh Hnew Hfree. pose proof Hh as [Hl Hha Hg Hgh (X & HX & Hc) Ho Hu].
  fold sp in Hl, Hha, Hgh, Hc.
  unfold ipc_hash_insert. pose proof (rest_ref_in_table _ _ _ _ Hrest Href) as Hrt. fold sp in Hrt.
  destruct (rw_sizes _ _ Hrest) as [Hlen _]. fold sp in Hlen.
  assert (forall st', rehashed st st' -> forall r o, L r o \/ (r = ref /\ o = obj) ->
    exists b, entry_at st' r = Some (b, o)) as Hobj'.
  { intros st' Hre r o Hor. rewrite (rehashed_entry_at _ _ Hre). destruct Hor as [Hor|[-> ->]]; [by apply Ho|].
    eexists. by apply view_entry_at. }
  assert (forall r o, L r o \/ (r = ref /\ o = obj) -> o <> IO_NULL /\
    forall r', L r' o \/ (r' = ref /\ o = obj) -> r' = r) as Hu'.
  { intros r o [Hr|[-> ->]].
    - destruct (Hu _ _ Hr) as [? Hx]. split; [done|]. intros r' [?|[-> ->]]; [by apply Hx|]. by apply Hfree in Hr.
    - split; [done|]. intros r' [?%Hfree|[-> _]]; done. }
  destruct ref_entry as [(Er & He & Hi)|(Er & te & Hte & Hto & Hts)].
  - fold sp. destruct (ref_in_table sp name ref); [|by rewrite Er in Hrt]. unfold hash_local_insert. fold sp. rewrite <- Hlen.
    destruct (ipc_hash_local_insert_correct (is_table sp) (MACH_PORT_INDEX name) e) as (t' & Hins & Hw & Hse & Hha');
      try done. { intros [o Hy]%Hha. rewrite Er in Hnew. by eapply Hnew. }
    fold obj in Hins. rewrite Hins. eexists. split; [done|].
    assert (rehashed st (mk_kstate (sp_set_table t' sp) (k_ghash st))) as Hre by by constructor.
    split; [done|]. constructor; cbn; try done.
    + intros i. rewrite Hha', (Hha i). split.
      * intros [[o Hy]| ->]; [exists o; by left|exists obj; right; by rewrite Er].
      * intros [o [Hy|[Hx _]]]; [left; by exists o|right; rewrite Er in Hx; congruence].
    + intros n o. rewrite Hgh. split; [by left|]. intros [?|[Hx _]]; [done|]. by rewrite Er in Hx.
    + exists X. split; [|done]. intros n. rewrite HX. split; intros [o Hx]; exists o; [by left|].
      destruct Hx as [?|[Hx _]]; [done|]. by rewrite Er in Hx.
    + by apply Hobj'.
  - fold sp. destruct (ref_in_table sp name ref); [by rewrite Er in Hrt|]. fold (tree_map sp). rewrite Hte. unfold hash_global_insert. fold sp.
    rewrite Hts, Hto, !Z.eqb_refl, (proj2 (Z.eqb_neq obj IO_NULL) Hobj). cbn [negb].
    assert (name ∉ X) as HnX by (rewrite HX; intros [o Hx]; rewrite Er in Hnew; by eapply Hnew).
    assert (size ({[name]} ∪ X) <= size (dom (tree_map sp)))%nat as Hle.
    { apply subseteq_size. pose proof (hashed_in_tree X Hh HX) as HXs.
      assert (name ∈ dom (tree_map sp)) as Hnd by (apply elem_of_dom; by rewrite Hte).
      clear -HXs Hnd. set_solver. }
    rewrite size_union, size_singleton, size_dom in Hle by by apply disjoint_singleton_l.
    pose proof (rw_total _ _ Hrest) as Htot. fold sp in Htot.
    rewrite (proj2 (Z.leb_le _ _)) by lia.
    destruct (ipc_hash_global_insert_correct (k_ghash st) (mk_ghash (is_self sp) name obj) Hg) as (g' & Hins & Hgw & Hgi).
    { intros [s n o] Hx Hk. unfold gh_key in Hk. cbn in Hk. injection Hk as -> ->. apply Hgh in Hx.
      rewrite Er in Hnew. by eapply Hnew. }
    rewrite Hins. eexists. split; [done|].
    assert (rehashed st (mk_kstate (sp_set_hash (is_tree_hash sp + 1) sp) g')) as Hre by by constructor.
    split; [done|]. constructor; cbn; try done.
    + intros i. rewrite (Hha i). split; intros [o Hx]; exists o; [by left|].
      destruct Hx as [?|[Hx _]]; [done|]. by rewrite Er in Hx.
    + intros n o. rewrite Hgi, Hgh, Er. split.
      * intros [?|[= -> ->]]; [by left|by right].
      * intros [?|[[= ->] ->]]; [by left|by right].
    + exists ({[name]} ∪ X). split.
      * intros n. rewrite elem_of_union, elem_of_singleton, HX, Er. split.
        -- intros [->|[o Hx]]; [exists obj; by right|exists o; by left].
        -- intros [o [Hx|[[= ->] _]]]; [right; by exists o|by left].
      * rewrite size_union, size_singleton by by apply disjoint_singleton_l. lia.
    + by apply Hobj'.
Qed.

(** [L'] is the relation after the deletion. *)
Lemma ipc_hash_delete_rel L' :
  hash_rel L st -> L ref obj -> (forall r o, L' r o <-> L r o /\ r <> ref) ->
  exists st', ipc_hash_delete st obj name ref = Some st' /\ rehashed st st' /\ hash_rel L' st'.
Proof using Hrest Href Hent Hobj.
  intros Hh Hin Hiff. pose proof Hh as [Hl Hha Hg Hgh (X & HX & Hc) Ho Hu].
  fold sp in Hl, Hha, Hgh, Hc.
  unfold ipc_hash_delete. pose proof (rest_ref_in_table _ _ _ _ Hrest Href) as Hrt. fold sp in Hrt.
  destruct (rw_sizes _ _ Hrest) as [Hlen _]. fold sp in Hlen.
  assert (forall o, L ref o -> o = obj) as Hone.
  { intros o Hx%Ho. destruct Hx as [b Hb]. rewrite (view_entry_at st ref e Hent) in Hb. unfold obj. congruence. }
  assert (forall st', rehashed st st' -> forall r o, L' r o -> exists b, entry_at st' r = Some (b, o)) as Hobj'.
  { intros st' Hre r o [Hor _]%Hiff. rewrite (rehashed_entry_at _ _ Hre). by apply Ho. }
  assert (forall r o, L' r o -> o <> IO_NULL /\ forall r', L' r' o -> r' = r) as Hu'.
  { intros r o [Hr _]%Hiff. destruct (Hu _ _ Hr) as [? Hx]. split; [done|]. intros r' [? _]%Hiff. by apply Hx. }
  destruct ref_entry as [(Er & He & Hi)|(Er & te & Hte & Hto & Hts)].
  - fold sp. destruct (ref_in_table sp name ref); [|by rewrite Er in Hrt].
    unfold hash_local_delete. fold sp. rewrite <- Hlen.
    assert (forall i, hashed (is_table sp) i -> exists o, L (InTable i) o /\ object_of (is_table sp) i = o) as Hho.
    { intros i [o Hx]%Hha. exists o. split; [done|]. destruct (Ho _ _ Hx) as [b Hb]. unfold entry_at in Hb.
      cbn in Hb. fold sp in Hb. unfold object_of. destruct (aget (is_table sp) i); [|done]. cbn in Hb. congruence. }
    destruct (ipc_hash_local_delete_correct (is_table sp) (MACH_PORT_INDEX name) e) as (t' & Hins & Hw & Hse & Hha');
      try done.
    { split.
      - intros i (o & Hx & Hox)%Hho. rewrite Hox. by apply (Hu _ _ Hx).
      - intros i j (o & Hx & Hox)%Hho (o' & Hx' & Hox')%Hho Heq. rewrite Hox, Hox' in Heq.
        rewrite <- Heq in Hx'. pose proof (proj2 (Hu _ _ Hx) _ Hx'). congruence. }
    fold obj in Hins. rewrite Hins. eexists. split; [done|].
    assert (rehashed st (mk_kstate (sp_set_table t' sp) (k_ghash st))) as Hre by by constructor.
    split; [done|]. constructor; cbn; try done.
    + intros i. rewrite Hha', (Hha i). setoid_rewrite Hiff. rewrite Er. split.
      * intros [[o Hx] Hne]. exists o. split; [done|congruence].
      * intros (o & Hx & Hne). split; [by exists o|congruence].
    + intros n o. rewrite Hgh, Hiff, Er. naive_solver.
    + exists X. split; [|done]. intros n. rewrite HX. setoid_rewrite Hiff. rewrite Er. naive_solver.
    + by apply Hobj'.
  - fold sp. destruct (ref_in_table sp name ref); [by rewrite Er in Hrt|].
    fold (tree_map sp). rewrite Hte. unfold hash_global_delete. fold sp.
    rewrite Hts, Hto, !Z.eqb_refl, (proj2 (Z.eqb_neq obj IO_NULL) Hobj). cbn [negb].
    assert (name ∈ X) as HnX by (apply HX; exists obj; by rewrite <- Er).
    assert (size X <> 0%nat) as HX0 by (intros H0%size_empty_inv; by apply H0 in HnX).
    rewrite (proj2 (Z.ltb_lt _ _)) by lia.
    destruct (ipc_hash_global_delete_correct (k_ghash st) (mk_ghash (is_self sp) name obj) Hg) as (g' & Hins & Hgw & Hgi).
    { apply Hgh. by rewrite <- Er. }
    rewrite Hins. eexists. split; [done|].
    assert (rehashed st (mk_kstate (sp_set_hash (is_tree_hash sp - 1) sp) g')) as Hre by by constructor.
    split; [done|]. constructor; cbn; try done.
    + intros i. rewrite (Hha i). setoid_rewrite Hiff. rewrite Er. naive_solver.
    + intros n o. rewrite Hgi, Hgh, Hiff. split; (intros [Hx Hne]; split; [done|]).
      * intros E. apply Hne. rewrite Er in E. injection E as ->. f_equal. apply Hone. by rewrite Er.
      * intros E. apply Hne. rewrite Er. congruence.
    + exists (X ∖ {[name]}). split.
      * intros n. rewrite elem_of_difference, elem_of_singleton, HX. setoid_rewrite Hiff. rewrite Er. naive_solver.
      * rewrite size_difference, size_singleton; [lia|]. by apply singleton_subseteq_l.
    + by apply Hobj'.
Qed.
End HashOps.

(** ** Names and entries *)

Lemma ref_for_unique st n r r' :
  collisions_wf (is_table (k_space st)) (tree_map (k_space st)) ->
  ref_for (k_space st) n r -> ref_for (k_space st) n r' -> r' = r.
Proof.
  intros Hc [[-> (e & He & Hg)]|[-> Hs]] [[-> (e' & He' & Hg')]|[-> Hs']]; try done; exfalso.
  - by apply (proj2 (Hc _ _ He) n Hs').
  - by apply (proj2 (Hc _ _ He') n Hs).
Qed.

Lemma caps_entry st n cap :
  space_caps (k_space st) n = Some cap ->
  exists ref e, ref_for (k_space st) n ref /\ get_entry (k_space st) ref = Some e /\ entry_cap e = Some cap.
Proof.
  unfold space_caps, caps. intros H.
  assert (tree_map (k_space st) !! n ≫= tentry_cap = Some cap ->
    exists ref e, ref_for (k_space st) n ref /\ get_entry (k_space st) ref = Some e /\ entry_cap e = Some cap) as Htree.
  { intros Hc. destruct (tree_map (k_space st) !! n) as [te|] eqn:E; [|done]. exists (InTree n). eexists.
    rewrite get_entry_tree. split; [right; by rewrite E|]. rewrite E. split; [done|]. done. }
  destruct (aget _ _) as [e|] eqn:He; [|by apply Htree].
  destruct (Z.eqb_spec (IE_BITS_GEN (ie_bits e)) (MACH_PORT_GEN n)); [|by apply Htree].
  exists (InTable (MACH_PORT_INDEX n)), e. split; [left; eauto|]. done.
Qed.

Lemma entry_name open st ref b o :
  rest_wf open st -> entry_at st ref = Some (b, o) -> (forall i, ref = InTable i -> 0 < i) ->
  exists n, ref_for (k_space st) n ref.
Proof using Hits.
  intros Hw Hb Hpos. destruct ref as [i|n]; unfold entry_at in Hb; cbn in Hb.
  - destruct (aget _ i) as [e|] eqn:He; [|done]. exists (MACH_PORT_MAKE i (IE_BITS_GEN (ie_bits e))).
    assert (is_index i) as Hi.
    { pose proof (aget_Some_range _ _ _ He). destruct (rw_sizes _ _ Hw) as (Hl & Hs & _).
      pose proof (entries_sizes_range _ _ _ Hits Hs). unfold is_index. lia. }
    assert (is_gen (IE_BITS_GEN (ie_bits e))) as Hg by (apply is_gen_bits, (rw_table _ _ Hw _ _ He)).
    left. rewrite index_make, gen_make by done. eauto.
  - exists n. right. split; [done|]. by destruct (tree_map _ !! n).
Qed.

Lemma entry_bits_u32 open st ref e :
  rest_wf open st -> get_entry (k_space st) ref = Some e -> is_u32 (ie_bits e).
Proof.
  intros Hw He. destruct ref as [i|n]; [apply (rw_table _ _ Hw _ _ He)|].
  rewrite get_entry_tree in He. destruct (tree_map _ !! n) as [te|] eqn:E; [|done]. injection He as <-. cbn.
  destruct (rw_tree _ _ Hw _ _ E) as (_ & <- & _). unfold IE_BITS_RIGHT. rewrite Z.land_comm.
  by apply is_u32_land.
Qed.

(** ** The predicates of the interface *)

Definition caps_are st (c : gmap Z capability) : Prop := forall n, c !! n = space_caps (k_space st) n.

Definition kview st ref : option eview := view_of <$> get_entry (k_space st) ref.

Definition krepr st c : Prop := space_wf its None st /\ caps_are st c.

Definition kholds st n ref v : Prop :=
  ref_for (k_space st) n ref /\ kview st ref = Some v /\ ev_type v <> 0.

Record kopen (L : eview -> entry_ref -> Z -> Prop) st (c : gmap Z capability) n ref v : Prop := {
  ko_rest : rest_wf (Some ref) st;
  ko_hash : hash_rel (fun r o => sends (Some ref) st r o \/ L v r o) st;
  ko_ref : ref_for (k_space st) n ref;
  ko_view : kview st ref = Some v;
  ko_none : c !! n = None;
  ko_caps : forall k, k <> n -> c !! k = space_caps (k_space st) k
}.

(** The hash table holds the open entry itself, or not. *)
Definition in_hash ref (v : eview) (r : entry_ref) (o : Z) : Prop := r = ref /\ o = ev_object v.
Definition not_in_hash (v : eview) (r : entry_ref) (o : Z) : Prop := False.

Lemma kview_Some st ref v : kview st ref = Some v -> exists e, get_entry (k_space st) ref = Some e /\ view_of e = v.
Proof. unfold kview. intros (e & -> & ?)%fmap_Some. eauto. Qed.

Lemma kopen_facts L st c n ref v :
  kopen L st c n ref v -> is_u32 (ev_bits v) /\ n <> MACH_PORT_NULL /\ is_active (k_space st) = true.
Proof.
  intros []. destruct (kview_Some _ _ _ ko_view0) as (e & He & <-). split_and!.
  - by eapply entry_bits_u32.
  - intros ->. destruct ko_ref0 as [[-> _]|[-> [te Hte]]].
    + pose proof (rw_open _ _ ko_rest0) as Ho. cbn in Ho. revert Ho. rewrite index_arith.
      unfold MACH_PORT_NULL. destruct PORT_GENERATIONS; [change (0 / 2 ^ 8) with 0|]; lia.
    + destruct (rw_tree _ _ ko_rest0 _ _ Hte) as ((_ & Hv & _) & _). done.
  - apply (rw_active _ _ ko_rest0).
Qed.

(** An entry that was just taken is open. *)
Lemma kopen_fresh st c n ref gen :
  space_wf its (Some ref) st -> ref_for (k_space st) n ref -> fresh_entry (k_space st) ref gen ->
  c !! n = None -> (forall k, k <> n -> c !! k = space_caps (k_space st) k) ->
  kopen not_in_hash st c n ref (mk_view gen IO_NULL 0).
Proof.
  intros Hwf Hr (e & He & Hb & Ho & Hq) Hn Hc. apply space_wf_split in Hwf as [Hw Hh].
  constructor; [done| |done| |done|done].
  - eapply hash_rel_iff; [|exact Hh]. intros r o. unfold not_in_hash. tauto.
  - unfold kview, view_of. rewrite He. cbn. by rewrite Hb, Ho, Hq.
Qed.

(** A send of the space, read from its entry. *)
Lemma sends_entry open st ref o :
  sends open st ref o <-> open <> Some ref /\ exists v, kview st ref = Some v /\ ev_object v = o /\
    ev_type v = MACH_PORT_TYPE_SEND.
Proof.
  unfold sends, live_send. split; intros [Hne H]; (split; [done|]).
  - destruct H as (b & Hb & Ht). unfold kview. destruct ref as [i|k].
    + cbn in *. destruct (aget _ i) as [e|]; [|done]. eexists. split; [done|]. cbn in Hb. injection Hb as <- <-. done.
    + rewrite get_entry_tree. cbn in Hb. destruct (tree_map _ !! k); [|done]. eexists. split; [done|].
      cbn in Hb. injection Hb as <- <-. done.
  - destruct H as (v & Hv & <- & Ht). destruct (kview_Some _ _ _ Hv) as (e & He & <-).
    exists (ie_bits e). split; [|done]. by apply view_entry_at.
Qed.

(** Opening an entry of a closed space. *)
Lemma kopen_intro L st c n ref v :
  krepr st c -> kholds st n ref v ->
  (forall r o, sends None st r o <-> sends (Some ref) st r o \/ L v r o) ->
  kopen L st (delete n c) n ref v.
Proof.
  intros [Hwf Hc] (Hr & Hv & Ht) HL. apply space_wf_split in Hwf as [Hw Hh].
  destruct (kview_Some _ _ _ Hv) as (e & He & <-). constructor; try done.
  - apply (rest_wf_reopen None); [|done]. intros ref' [?|[= <-]]; [done|]. do 2 eexists.
    split; [by apply view_entry_at|]. done.
  - by eapply hash_rel_iff; [|exact Hh]; intros r o; rewrite HL.
  - by rewrite lookup_delete_eq.
  - intros k Hk. by rewrite lookup_delete_ne.
Qed.

(** Closing it. *)
Lemma kopen_elim L st c n ref v :
  kopen L st c n ref v -> ev_type v <> 0 ->
  (forall r o, sends None st r o <-> sends (Some ref) st r o \/ L v r o) ->
  krepr st (<[n := the_cap v]> c) /\ kholds st n ref v.
Proof.
  intros [Hw Hh Hr Hv Hn Hc] Ht HL. destruct (kview_Some _ _ _ Hv) as (e & He & Hve). split; [|done]. split.
  - apply space_wf_split. split.
    + apply (rest_wf_reopen (Some ref)); [|done]. intros ref' [[= <-]|?]; [|done]. do 2 eexists.
      split; [by apply view_entry_at|]. by rewrite <- Hve in Ht.
    + by eapply hash_rel_iff; [|exact Hh].
  - intros k. destruct (decide (k = n)) as [->|Hk].
    + rewrite lookup_insert_eq, (ref_for_caps _ _ _ (rw_collisions _ _ Hw) Hr), He. cbn.
      unfold entry_cap, cap_of. rewrite <- Hve in Ht |- *. unfold ev_type in Ht. cbn in Ht.
      by rewrite (proj2 (Z.eqb_neq (IE_BITS_TYPE (ie_bits e)) MACH_PORT_TYPE_NONE) Ht).
    + rewrite lookup_insert_ne by done. by apply Hc.
Qed.

Lemma sends_reopen st ref v :
  kview st ref = Some v ->
  forall r o, sends None st r o <-> sends (Some ref) st r o \/
    (ev_type v = MACH_PORT_TYPE_SEND /\ in_hash ref v r o).
Proof.
  intros Hv r o. rewrite !sends_entry. unfold in_hash. split.
  - intros [_ (w & Hw & <- & Ht)]. destruct (decide (r = ref)) as [->|Hne].
    + right. assert (w = v) as -> by congruence. done.
    + left. split; [congruence|]. by exists w.
  - intros [[_ H]|(Ht & -> & ->)]; (split; [done|]); [done|]. by exists v.
Qed.

(** Storing into the open entry. *)
Lemma kopen_store L st c n ref v v' :
  kopen L st c n ref v -> same_place (ev_bits v) (ev_bits v') ->
  (forall r o, L v' r o <-> L v r o) -> (forall o, L v ref o -> o = ev_object v') ->
  (forall r o, L v r o -> r = ref) ->
  exists st', store_entry st ref v' = Some st' /\ kopen L st' c n ref v' /\
    is_self (k_space st') = is_self (k_space st).
Proof.
  intros [Hw Hh Hr Hv Hn Hc] Hp HL HLo HLr. destruct (kview_Some _ _ _ Hv) as (e & He & <-).
  destruct (store_entry_correct st ref e v' Hw He Hp) as (st' & Heq & Hst). exists st'. split; [done|].
  assert (forall r o, sends (Some ref) st' r o <-> sends (Some ref) st r o) as Hsends.
  { intros r o. unfold sends, live_send. fold (entry_at st' r) (entry_at st r).
    destruct (decide (r = ref)) as [->|Hne]; [naive_solver|]. by rewrite (sd_other _ _ _ _ Hst _ Hne). }
  destruct (sd_header _ _ _ _ Hst) as (Hse & _). split; [|done].
  constructor; [apply (sd_rest _ _ _ _ Hst)| |by apply (sd_ref _ _ _ _ Hst)|apply (sd_view _ _ _ _ Hst)|done|].
  - eapply (hash_rel_frame _ st); [apply (sd_slots _ _ _ _ Hst)|apply (sd_ghash _ _ _ _ Hst)|
      apply (sd_hash _ _ _ _ Hst)|done| |].
    + intros r o Hx. destruct (decide (r = ref)) as [->|Hne].
      * destruct Hx as [[? _]|Hx]; [done|]. apply HL in Hx. rewrite (HLo _ Hx).
        destruct (kview_Some st' ref v' (sd_view _ _ _ _ Hst)) as (e' & He' & <-).
        eexists. by apply view_entry_at.
      * rewrite (sd_other _ _ _ _ Hst _ Hne). apply (hr_object _ _ Hh).
        destruct Hx as [Hx|Hx]; [left; by apply Hsends|right; by apply HL].
    + eapply hash_rel_iff; [|exact Hh]. intros r o. by rewrite Hsends, HL.
  - intros k Hk. rewrite (sd_caps _ _ _ _ Hst n k Hr Hk). by apply Hc.
Qed.

(** The hash operations on the open entry. *)
Lemma rehashed_kopen L L' st st' c n ref v :
  kopen L st c n ref v -> rehashed st st' ->
  hash_rel (fun r o => sends (Some ref) st r o \/ L' v r o) st' -> kopen L' st' c n ref v.
Proof.
  intros [Hw Hh Hr Hv Hn Hc] Hre Hh'. constructor; try done.
  - by eapply rehashed_rest.
  - eapply hash_rel_iff; [|exact Hh']. intros r o. unfold sends, live_send.
    fold (entry_at st' r) (entry_at st r). by rewrite (rehashed_entry_at _ _ Hre).
  - by apply (rehashed_ref _ _ Hre).
  - unfold kview. by rewrite (rehashed_view _ _ Hre).
  - intros k Hk. rewrite (rehashed_caps _ _ Hre). by apply Hc.
Qed.

Lemma kopen_insert st c n ref v :
  kopen not_in_hash st c n ref v -> ev_object v <> IO_NULL -> no_send c (ev_object v) ->
  exists st', ipc_hash_insert st (ev_object v) n ref = Some st' /\ kopen (in_hash ref) st' c n ref v /\
    is_self (k_space st') = is_self (k_space st).
Proof using Hits.
  intros Hk Hno Hns. pose proof Hk as [Hw Hh Hr Hv Hn Hc].
  destruct (kview_Some _ _ _ Hv) as (e & He & Hve). rewrite <- Hve in Hno, Hns. cbn in Hno, Hns.
  destruct (ipc_hash_insert_rel (sends (Some ref) st) st n ref e Hw Hr He Hno) as (st' & Heq & Hre & Hh').
  - eapply hash_rel_iff; [|exact Hh]. intros r o. unfold not_in_hash. tauto.
  - by intros o [? _].
  - intros r Hs. apply sends_entry in Hs as [Hne (w & Hwv & Hwo & Hwt)].
    destruct (kview_Some _ _ _ Hwv) as (e2 & He2 & <-).
    destruct (entry_name _ st r (ie_bits e2) (ie_object e2) Hw) as [k Hkr].
    + by apply view_entry_at.
    + intros i ->. cbn in He2. pose proof (aget_Some_range _ _ _ He2).
      destruct (rw_table _ _ Hw _ _ He2) as (_ & H0 & _). destruct (decide (i = 0)) as [->|]; [|lia].
      unfold ev_type in Hwt. cbn in Hwt. rewrite H0 in Hwt; done.
    + assert (k <> n) as Hkn.
      { intros ->. apply Hne. f_equal. symmetry. by eapply ref_for_unique; [apply (rw_collisions _ _ Hw)| |]. }
      pose proof (ref_for_caps _ _ _ (rw_collisions _ _ Hw) Hkr) as Hcap. rewrite He2 in Hcap. cbn in Hcap.
      unfold entry_cap, cap_of in Hcap. unfold ev_type in Hwt. cbn in Hwt. rewrite Hwt in Hcap. cbn in Hcap.
      rewrite <- (Hc k Hkn) in Hcap. eapply (Hns k); [exact Hcap| |done]. unfold cap_type. cbn.
      by rewrite type_right.
  - rewrite <- Hve. exists st'. split; [done|]. destruct (rh_header _ _ Hre) as (Hse & _). split; [|done].
    eapply rehashed_kopen; [rewrite Hve; exact Hk|exact Hre|]. by rewrite Hve; rewrite <- Hve.
Qed.

Lemma kopen_delete st c n ref v :
  kopen (in_hash ref) st c n ref v ->
  exists st', ipc_hash_delete st (ev_object v) n ref = Some st' /\ kopen not_in_hash st' c n ref v /\
    is_self (k_space st') = is_self (k_space st).
Proof.
  intros Hk. pose proof Hk as [Hw Hh Hr Hv Hn Hc]. destruct (kview_Some _ _ _ Hv) as (e & He & Hve).
  assert (ie_object e <> IO_NULL) as Hno.
  { change (ie_object e) with (ev_object (view_of e)). rewrite Hve. apply (hr_unique _ _ Hh ref). right. done. }
  destruct (ipc_hash_delete_rel (fun r o => sends (Some ref) st r o \/ in_hash ref v r o) st n ref e Hw Hr He Hno
    (fun r o => sends (Some ref) st r o \/ not_in_hash v r o)) as (st' & Heq & Hre & Hh').
  - done.
  - right. split; [done|]. by rewrite <- Hve.
  - intros r o. unfold not_in_hash, in_hash. split.
    + intros [Hs|[]]. split; [by left|]. intros ->. by destruct Hs.
    + intros [[Hs|[-> _]] Hne]; [by left|done].
  - exists st'. rewrite <- Hve. split; [done|]. destruct (rh_header _ _ Hre) as (Hse & _). split; [|done].
    rewrite Hve. by eapply rehashed_kopen.
Qed.

#[export] Instance kstate_laws : @CapSpaceLaws kstate (kstate_space its).
Proof using Hits.
  refine {| cs_repr := krepr; cs_holds := kholds;
            cs_open := kopen not_in_hash;
            cs_hopen := fun st c n ref v => kopen (in_hash ref) st c n ref v |}.
  - intros s c [Hwf _]. apply (wf_active _ _ _ Hwf).
  - intros s c n r v H. by apply (kopen_facts _ _ _ _ _ _ H).
  - intros s c n r v H. by apply (kopen_facts _ _ _ _ _ _ H).
  - by intros s n r v (_ & H & _).
  - intros s c n r v H. split; [apply (ko_view _ _ _ _ _ _ H)|by apply (kopen_facts _ _ _ _ _ _ H)].
  - intros s c n r v H. split; [apply (ko_view _ _ _ _ _ _ H)|by apply (kopen_facts _ _ _ _ _ _ H)].
  - intros s c n r v [Hwf Hc] (Hr & Hv & Ht). destruct (kview_Some _ _ _ Hv) as (e & He & <-).
    pose proof (proj1 (space_wf_split _ _) Hwf) as [Hw _].
    assert (c !! n = view_cap (view_of e)) as Hcn.
    { rewrite Hc, (ref_for_caps _ _ _ (wf_collisions _ _ _ Hwf) Hr), He. done. }
    split_and!; [done| |by eapply entry_bits_u32]. rewrite Hcn. unfold view_cap, cap_of.
    unfold ev_type in Ht. by rewrite (proj2 (Z.eqb_neq _ MACH_PORT_TYPE_NONE) Ht).
  - intros s c n r v H. split; [apply (ko_none _ _ _ _ _ _ H)|by apply (kopen_facts _ _ _ _ _ _ H)].
  - intros s c n r v H. split; [apply (ko_none _ _ _ _ _ _ H)|by apply (kopen_facts _ _ _ _ _ _ H)].
  - intros [sp g] c name [Hwf Hc] Hn. cbn.
    destruct (ipc_entry_lookup_correct its None sp g name Hwf Hn) as (sp' & res & -> & Hrs & Hres); [done|].
    pose proof (resplays_wf _ _ _ _ _ Hrs Hwf) as Hwf'. pose proof (resplays_caps _ _ Hrs) as Hcs.
    do 2 eexists. split; [done|]. split; [split; [done|intros n; cbn; rewrite Hcs; apply Hc]|].
    split; [by destruct Hrs as (tr & -> & _)|]. destruct res as [ref|]; [|by rewrite Hc].
    destruct Hres as [Hr [cap Hcap]]. apply (ref_for_resplays _ _ _ _ Hrs) in Hr.
    pose proof (ref_for_caps _ _ _ (wf_collisions _ _ _ Hwf') Hr) as Hce. cbn in Hce. rewrite Hcs, Hcap in Hce.
    destruct (get_entry sp' ref) as [e|] eqn:He; [|done]. exists (view_of e). split; [done|].
    unfold kview. cbn. rewrite He. split; [done|]. intros Ht. unfold ev_type in Ht. cbn in Hce, Ht.
    unfold entry_cap, cap_of in Hce. by rewrite Ht in Hce.
  - intros [sp g] c name s' res n r v [Hwf Hc] Hn. cbn.
    destruct (ipc_entry_lookup_correct its None sp g name Hwf Hn) as (sp' & res' & -> & Hrs & _); [done|].
    intros [= <- <-] (Hr & Hv & Ht). split_and!; [|unfold kview in *; cbn; by rewrite (get_entry_resplays _ _ _ Hrs)|done].
    by apply (ref_for_resplays _ _ _ _ Hrs).
  - intros s c obj [Hwf Hc] Ho. cbn.
    destruct (ipc_hash_lookup_correct its Hits None s obj Hwf Ho) as (g' & res & -> & Hrb & Hres).
    do 2 eexists. split; [done|]. pose proof (rebuckets_wf its None s g' Hwf Hrb) as Hwf'.
    split; [by split|]. split; [done|]. destruct res as [[name ref]|].
    + destruct Hres as [Hr Hl]. apply sends_entry in Hl as [_ (v & Hv & Ho' & Ht)]. exists v.
      split; [|done]. split; [done|]. split; [done|]. by rewrite Ht.
    + intros n cap Hcn Ht <-. rewrite Hc in Hcn. destruct (caps_entry _ _ _ Hcn) as (ref & e & Hr & He & Hce).
      unfold entry_cap, cap_of in Hce. destruct (_ =? _); [done|]. injection Hce as <-.
      apply (Hres ref). apply sends_entry. split; [done|]. exists (view_of e). unfold kview. rewrite He.
      split; [done|]. split; [done|]. unfold cap_type in Ht. cbn in Ht. by rewrite type_right in Ht.
  - intros s c n r v Hr Hh Ht. apply kopen_intro; [done|done|]. intros r' o.
    rewrite (sends_reopen s r v) by apply Hh. unfold not_in_hash. naive_solver.
  - intros s c n r v Hr Hh Ht. apply kopen_intro; [done|done|]. intros r' o.
    rewrite (sends_reopen s r v) by apply Hh. naive_solver.
  - intros s c n r v H H0 Ht. eapply kopen_elim; [exact H|done|]. intros r' o.
    rewrite (sends_reopen s r v) by apply (ko_view _ _ _ _ _ _ H). unfold not_in_hash. naive_solver.
  - intros s c n r v H Ht. eapply kopen_elim; [exact H|by rewrite Ht|]. intros r' o.
    rewrite (sends_reopen s r v) by apply (ko_view _ _ _ _ _ _ H). naive_solver.
  - intros s c n r v v' H Hp. eapply kopen_store; [exact H|done|done|by intros o []|by intros r' o []].
  - intros s c n r v v' H Hp Ho. eapply kopen_store; [exact H|done| | |].
    + intros r' o. unfold in_hash. by rewrite Ho.
    + intros o [_ ->]. done.
    + by intros r' o [? _].
  - intros s c n r v H Hno Hns. by apply kopen_insert.
  - intros s c n r v H. by apply kopen_delete.
  - intros s c n r v H Ho Hq. pose proof H as [Hw Hh Hr Hv Hn Hc].
    destruct (kview_Some _ _ _ Hv) as (e & He & <-).
    destruct (ipc_entry_dealloc_correct its Hits s n r e) as (s' & Heq & Hwf' & Hhd & _ & Hcaps); try done.
    { apply space_wf_split. split; [done|]. eapply hash_rel_iff; [|exact Hh]. intros r' o.
      unfold not_in_hash. tauto. }
    exists s'. split; [done|]. destruct Hhd as (Hse & _). split; [|done]. split; [done|].
    intros k. rewrite Hcaps. case_decide as Hk; [by subst k|by apply Hc].
Defined.
End Laws.
