(* ===== verification/IpcMqueue.v ===== *)
(** * Message queues (ipc/ipc_mqueue.c, ipc/ipc_mqueue.h)

    A queue holds the messages nobody has received and the threads that wait
    for one.  The circular lists of the code are Rocq lists, head first.  What
    the code does to threads and what it hands to the message layer is recorded
    as a list of events, in order. *)

From S2P Require Import Prelude PortName IpcTypes.

(** The fields of a message that the queues look at. *)
Record kmsg := mk_kmsg {
  ikm_addr : Z;
  msgh_remote_port : Z;
  msgh_size : Z;
  msgh_bits : Z;
  ikm_marequest : Z
}.

Definition kmsg_set_remote (port : Z) (m : kmsg) : kmsg :=
  mk_kmsg (ikm_addr m) port (msgh_size m) (msgh_bits m) (ikm_marequest m).

#[export] Instance kmsg_eq_dec : EqDecision kmsg.
Proof. solve_decision. Defined.

(** A waiting receiver and the largest message it can take. *)
Record receiver := mk_receiver { ith_thread : Z; ith_msize : Z }.

#[export] Instance receiver_eq_dec : EqDecision receiver.
Proof. solve_decision. Defined.

Record ipc_mqueue := mk_mqueue { imq_messages : list kmsg; imq_threads : list receiver }.

#[export] Instance ipc_mqueue_eq_dec : EqDecision ipc_mqueue.
Proof. solve_decision. Defined.

Inductive mach_msg_return :=
| MACH_MSG_SUCCESS
| MACH_SEND_TIMED_OUT | MACH_SEND_INTERRUPTED
| MACH_SEND_INVALID_NOTIFY | MACH_SEND_NOTIFY_IN_PROGRESS | MACH_SEND_NO_NOTIFY
| MACH_SEND_INVALID_HEADER | MACH_SEND_INVALID_DEST | MACH_SEND_INVALID_REPLY
| MACH_RCV_TOO_LARGE | MACH_RCV_TIMED_OUT | MACH_RCV_INTERRUPTED
| MACH_RCV_PORT_DIED | MACH_RCV_PORT_CHANGED | MACH_RCV_INVALID_NAME | MACH_RCV_IN_SET
| MACH_RCV_INVALID_NOTIFY | MACH_RCV_HEADER_ERROR (flags : Z).

#[export] Instance mach_msg_return_eq_dec : EqDecision mach_msg_return.
Proof. solve_decision. Defined.

(** Calls out of the components modelled here. *)
Inductive event :=
| Thread_go (th : Z) (mr : mach_msg_return)          (* ith_state = mr; thread_go *)
| Thread_receive (th : Z) (m : kmsg) (seqno : Z)     (* woken with a message *)
| Thread_too_large (th size : Z)                     (* woken with MACH_RCV_TOO_LARGE *)
| Kmsg_destroy (m : kmsg)
| Kobject_server (m : kmsg)
| Kobject_destroy (port : Z)
| Notify_port_deleted (port name : Z)
| Notify_no_senders (port mscount : Z)
| Notify_send_once (port : Z)
| Notify_dead_name (port name : Z)
| Notify_port_destroyed (port right : Z)
| Notify_port_destroyed_compat (port right : Z)
| Notify_port_deleted_compat (port name : Z)
| Delete_compat (port space name : Z)                (* ipc_port_delete_compat *)
| Space_reference (space : Z)                        (* is_reference *)
| Space_release (space : Z)                          (* is_release *)
| Marequest_cancel (space name : Z)
| Marequest_rename (space oname nname : Z)
| Marequest_destroy (marequest : Z)
| Notify_msg_accepted (port name : Z)
| Notify_msg_accepted_compat (port name : Z).

#[export] Instance event_eq_dec : EqDecision event.
Proof. solve_decision. Defined.

Definition ipc_mqueue_init : ipc_mqueue := mk_mqueue [] [].

(** The inner loop of [ipc_mqueue_move]: wake waiting receivers until one can
    take the message.  Returns whether one did, the receivers left and the new
    sequence number. *)
Fixpoint move_deliver (m : kmsg) (newq : list kmsg) (blockedq : list receiver) (seqno : Z)
    : option (bool * list receiver * Z * list event) :=
  match blockedq with
  | [] => Some (false, [], seqno, [])
  | th :: rest =>
      ASSERT bool_decide (newq = []) ;;
      if msgh_size m <=? ith_msize th then
        Some (true, rest, u32 (seqno + 1), [Thread_receive (ith_thread th) m seqno])
      else
        LET (got, rest', seqno', evs) <- move_deliver m newq rest seqno ;;
        Some (got, rest', seqno', Thread_too_large (ith_thread th) (msgh_size m) :: evs)
  end.

(** Returns the messages left in the source, the destination and the port's
    sequence number. *)
Fixpoint move_loop (oldq : list kmsg) (dest : ipc_mqueue) (port seqno : Z)
    : option (list kmsg * ipc_mqueue * Z * list event) :=
  match oldq with
  | [] => Some ([], dest, seqno, [])
  | m :: next =>
      if negb (msgh_remote_port m =? port) then
        LET (kept, dest', seqno', evs) <- move_loop next dest port seqno ;;
        Some (m :: kept, dest', seqno', evs)
      else
        LET (got, blocked, seqno1, evs1) <- move_deliver m (imq_messages dest) (imq_threads dest) seqno ;;
        let newq := if got : bool then imq_messages dest else imq_messages dest ++ [m] in
        LET (kept, dest', seqno', evs) <- move_loop next (mk_mqueue newq blocked) port seqno1 ;;
        Some (kept, dest', seqno', evs1 ++ evs)
  end.

(** Returns the destination and the source. *)
Definition ipc_mqueue_move (dest source : ipc_mqueue) (port seqno : Z)
    : option (ipc_mqueue * ipc_mqueue * Z * list event) :=
  LET (kept, dest', seqno', evs) <- move_loop (imq_messages source) dest port seqno ;;
  Some (dest', mk_mqueue kept (imq_threads source), seqno', evs).

Definition ipc_mqueue_changed (mqueue : ipc_mqueue) (mr : mach_msg_return) : ipc_mqueue * list event :=
  (mk_mqueue (imq_messages mqueue) [],
   (fun th => Thread_go (ith_thread th) mr) <$> imq_threads mqueue).

(** ** What moving messages does *)

(** No receiver waits while there is a message. *)
Definition mq_ok (q : ipc_mqueue) : Prop := imq_threads q <> [] -> imq_messages q = [].

(** The messages given to receivers, with their sequence numbers. *)
Definition received (evs : list event) : list (kmsg * Z) :=
  omap (fun e => match e with Thread_receive _ m seqno => Some (m, seqno) | _ => None end) evs.

(** Sequence numbers from [seqno] on. *)
Definition seqno_run (seqno : Z) (ms : list kmsg) : list (kmsg * Z) :=
  imap (fun i m => (m, u32 (seqno + Z.of_nat i))) ms.

Lemma received_app evs1 evs2 : received (evs1 ++ evs2) = received evs1 ++ received evs2.
Proof. apply omap_app. Qed.

Lemma u32_add x y : u32 (u32 x + y) = u32 (x + y).
Proof. unfold u32. by rewrite Zplus_mod_idemp_l. Qed.

Lemma seqno_run_cons seqno m ms : is_u32 seqno ->
  seqno_run seqno (m :: ms) = (m, seqno) :: seqno_run (u32 (seqno + 1)) ms.
Proof.
  intros. unfold seqno_run. rewrite imap_cons. f_equal.
  - by rewrite Z.add_0_r, u32_small.
  - apply imap_ext. intros i x _. cbn. rewrite u32_add. do 2 f_equal. lia.
Qed.

(** Without a receiver the message is not taken. *)
Lemma move_deliver_spec m newq blocked seqno :
  (blocked <> [] -> newq = []) -> is_u32 seqno ->
  exists got blocked' seqno' evs,
    move_deliver m newq blocked seqno = Some (got, blocked', seqno', evs) /\
    is_u32 seqno' /\ (exists woken, blocked = woken ++ blocked') /\
    if got : bool then received evs = [(m, seqno)] /\ seqno' = u32 (seqno + 1) /\ blocked <> []
    else received evs = [] /\ seqno' = seqno /\ blocked' = [].
Proof.
  intros Hq Hs. induction blocked as [|th rest IH]; cbn [move_deliver].
  - exists false, [], seqno, []. split_and!; try done. by exists [].
  - rewrite (Hq ltac:(done)). rewrite bool_decide_true by done.
    destruct (msgh_size m <=? ith_msize th).
    + do 4 eexists. split_and!; [done|apply u32_range|by exists [th]|done..].
    + rewrite (Hq ltac:(done)) in IH. destruct IH as (got & b' & s' & evs & -> & ? & (woken & ->) & Hr); [done|].
      do 4 eexists. split_and!; [done|done|by exists (th :: woken)|]. destruct got; cbn; naive_solver.
Qed.

(** The messages for [port] leave the source in order: some of them go to
    waiting receivers, the later ones to the end of the destination. *)
Lemma move_loop_spec oldq dest port seqno :
  mq_ok dest -> is_u32 seqno ->
  exists kept dest' seqno' evs gone queued,
    move_loop oldq dest port seqno = Some (kept, dest', seqno', evs) /\
    kept = filter (fun m => msgh_remote_port m <> port) oldq /\
    filter (fun m => msgh_remote_port m = port) oldq = gone ++ queued /\
    imq_messages dest' = imq_messages dest ++ queued /\
    received evs = seqno_run seqno gone /\ seqno' = u32 (seqno + Z.of_nat (length gone)) /\
    mq_ok dest' /\ (queued <> [] -> imq_threads dest' = []) /\ (imq_threads dest = [] -> gone = []).
Proof.
  revert dest seqno. induction oldq as [|m next IH]; intros dest seqno Hok Hs; cbn [move_loop].
  - exists [], dest, seqno, [], [], []. cbn. rewrite Z.add_0_r, u32_small, app_nil_r by done. done.
  - rewrite !filter_cons. destruct (Z.eqb_spec (msgh_remote_port m) port) as [He|He]; cbn.
    + destruct (move_deliver_spec m (imq_messages dest) (imq_threads dest) seqno Hok Hs)
        as (got & blocked & seqno1 & evs1 & -> & Hs1 & (woken & Hw) & Hg).
      rewrite (decide_False (P := msgh_remote_port m <> port)) by tauto. rewrite decide_True by done.
      destruct got.
      * destruct Hg as (Hr & -> & Hne). destruct (IH (mk_mqueue (imq_messages dest) blocked) (u32 (seqno + 1)))
          as (k & d & s & evs & gone & queued & -> & Hk & Hf & Hm & Hrv & Hsn & Hd & Hth & Hno); [|done|].
        { intros Hb. apply Hok. rewrite Hw. by destruct woken, blocked. }
        exists k, d, s, (evs1 ++ evs), (m :: gone), queued.
        rewrite received_app, Hr, Hrv, seqno_run_cons, Hf by done. split_and!; try done.
        { rewrite Hsn, u32_add. f_equal. cbn [length]. lia. }
      * destruct Hg as (Hr & -> & ->). destruct (IH (mk_mqueue (imq_messages dest ++ [m]) []) seqno)
          as (k & d & s & evs & gone & queued & -> & Hk & Hf & Hm & Hrv & Hsn & Hd & Hth & Hno); [by intros []|done|].
        cbn in Hno. rewrite (Hno eq_refl) in *.
        exists k, d, s, (evs1 ++ evs), [], (m :: queued).
        rewrite received_app, Hr, Hrv, Hf. cbn in Hm. rewrite Hm. app_norm. split_and!; try done.
        intros _. apply dec_stable. intros Ht. specialize (Hd Ht). rewrite Hm in Hd.
        by destruct (imq_messages dest).
    + destruct (IH dest seqno Hok Hs)
        as (k & d & s & evs & gone & queued & -> & Hk & Hf & Hm & Hrv & Hsn & Hd & Hth & Hno).
      rewrite decide_True by done. rewrite (decide_False (P := msgh_remote_port m = port)) by done.
      exists (m :: k), d, s, evs, gone, queued. subst k. done.
Qed.

(** ** Moving the messages of a port *)

(** [ipc_mqueue_move] neither loses, duplicates nor reorders messages:
    when no receiver waits on a non-empty destination it fails no assertion,
    exactly the messages for [port] leave the source, a first part of them is
    given to waiting receivers with consecutive sequence numbers and the rest
    is appended to the destination, where again no receiver waits on a
    non-empty queue. *)
Lemma mqueue_move_in_order dest source port seqno :
  mq_ok dest -> is_u32 seqno ->
  exists dest' source' seqno' evs gone queued,
    ipc_mqueue_move dest source port seqno = Some (dest', source', seqno', evs) /\
    imq_messages source' = filter (fun m => msgh_remote_port m <> port) (imq_messages source) /\
    filter (fun m => msgh_remote_port m = port) (imq_messages source) = gone ++ queued /\
    received evs = seqno_run seqno gone /\ seqno' = u32 (seqno + Z.of_nat (length gone)) /\
    imq_messages dest' = imq_messages dest ++ queued /\ mq_ok dest'.
Proof.
  intros Hok Hs. destruct (move_loop_spec (imq_messages source) dest port seqno Hok Hs)
    as (k & d & s & evs & gone & queued & Hl & Hk & Hf & Hm & Hrv & Hsn & Hd & _).
  unfold ipc_mqueue_move. rewrite Hl. do 6 eexists. split; [done|]. cbn. done.
Qed.

Lemma mqueue_move_in_order_witness :
  let dest := mk_mqueue [] [mk_receiver 7 10; mk_receiver 8 100] in
  let source := mk_mqueue [mk_kmsg 1 5 50 0 0; mk_kmsg 2 6 1 0 0; mk_kmsg 3 5 1 0 0] [] in
  mq_ok dest /\
  exists dest' source' seqno' evs gone queued,
    ipc_mqueue_move dest source 5 (wordsize - 1) = Some (dest', source', seqno', evs) /\
    imq_messages source' = filter (fun m => msgh_remote_port m <> 5) (imq_messages source) /\
    filter (fun m => msgh_remote_port m = 5) (imq_messages source) = gone ++ queued /\
    received evs = seqno_run (wordsize - 1) gone /\
    seqno' = u32 (wordsize - 1 + Z.of_nat (length gone)) /\
    imq_messages dest' = imq_messages dest ++ queued /\ mq_ok dest'.
Proof.
  cbn zeta. split; [done|]. apply mqueue_move_in_order; [done|]. split; vm_compute; congruence.
Defined.
