(* ===== verification/IpcPort.v ===== *)
(** * Ports and their dead-name requests (ipc/ipc_port.c, ipc/ipc_port.h)

    A port keeps the counts of its send and send-once rights and a table of
    dead-name requests.  Slot 0 of the table holds the head of its free list
    and its size; the other slots hold a name and a send-once right, or a link
    of the free list when the name is null. *)

From S2P Require Import Prelude PortName IpcTable IpcTypes IpcMqueue.

Definition IP_NULL : Z := IO_NULL.
Definition IP_DEAD : Z := IO_DEAD.
Definition IP_VALID (port : Z) : bool := negb (port =? IP_NULL) && negb (port =? IP_DEAD).

(** [notify] is a union of the send-once right and the free-list link, [name]
    of the name and, in slot 0, the element of [ipc_table_dnrequests]. *)
Record ipc_port_request := mk_ipr { ipr_notify : Z; ipr_name : Z }.
Definition ipr_next : ipc_port_request -> Z := ipr_notify.
Definition ipr_soright : ipc_port_request -> Z := ipr_notify.
Definition ipr_size : ipc_port_request -> Z := ipr_name.

#[export] Instance ipc_port_request_eq_dec : EqDecision ipc_port_request.
Proof. solve_decision. Defined.

(** A request table: its address and its elements. *)
Record dntable := mk_dntable { dnt_addr : Z; dnt_slots : list ipc_port_request }.

#[export] Instance dntable_eq_dec : EqDecision dntable.
Proof. solve_decision. Defined.

(** [ip_active] and [ip_kotype] are fields of [io_bits]; [ip_data] is the union
    of the receiver, the destination and the timestamp.  [ip_cur_target], a
    pointer to the port's or its set's queue, follows [ip_pset] and is left out. *)
Record ipc_port := mk_port {
  ip_references : Z;
  ip_active : bool;
  ip_kotype : Z;
  ip_receiver_name : Z;
  ip_messages : ipc_mqueue;
  ip_data : Z;
  ip_mscount : Z;
  ip_srights : Z;
  ip_sorights : Z;
  ip_nsrequest : Z;
  ip_pdrequest : Z;
  ip_dnrequests : option dntable;
  ip_pset : Z;
  ip_seqno : Z;
  ip_msgcount : Z;
  ip_qlimit : Z;
  ip_blocked : list Z
}.
Definition ip_receiver : ipc_port -> Z := ip_data.
Definition ip_destination : ipc_port -> Z := ip_data.
Definition ip_timestamp : ipc_port -> Z := ip_data.

(** ** Field updates *)

Definition ip_set_references (x : Z) (p : ipc_port) : ipc_port :=
  mk_port x (ip_active p) (ip_kotype p) (ip_receiver_name p) (ip_messages p) (ip_data p)
    (ip_mscount p) (ip_srights p) (ip_sorights p) (ip_nsrequest p) (ip_pdrequest p) (ip_dnrequests p)
    (ip_pset p) (ip_seqno p) (ip_msgcount p) (ip_qlimit p) (ip_blocked p).
Definition ip_set_active (x : bool) (p : ipc_port) : ipc_port :=
  mk_port (ip_references p) x (ip_kotype p) (ip_receiver_name p) (ip_messages p) (ip_data p)
    (ip_mscount p) (ip_srights p) (ip_sorights p) (ip_nsrequest p) (ip_pdrequest p) (ip_dnrequests p)
    (ip_pset p) (ip_seqno p) (ip_msgcount p) (ip_qlimit p) (ip_blocked p).
Definition ip_set_receiver_name (x : Z) (p : ipc_port) : ipc_port :=
  mk_port (ip_references p) (ip_active p) (ip_kotype p) x (ip_messages p) (ip_data p)
    (ip_mscount p) (ip_srights p) (ip_sorights p) (ip_nsrequest p) (ip_pdrequest p) (ip_dnrequests p)
    (ip_pset p) (ip_seqno p) (ip_msgcount p) (ip_qlimit p) (ip_blocked p).
Definition ip_set_messages (x : ipc_mqueue) (p : ipc_port) : ipc_port :=
  mk_port (ip_references p) (ip_active p) (ip_kotype p) (ip_receiver_name p) x (ip_data p)
    (ip_mscount p) (ip_srights p) (ip_sorights p) (ip_nsrequest p) (ip_pdrequest p) (ip_dnrequests p)
    (ip_pset p) (ip_seqno p) (ip_msgcount p) (ip_qlimit p) (ip_blocked p).
Definition ip_set_data (x : Z) (p : ipc_port) : ipc_port :=
  mk_port (ip_references p) (ip_active p) (ip_kotype p) (ip_receiver_name p) (ip_messages p) x
    (ip_mscount p) (ip_srights p) (ip_sorights p) (ip_nsrequest p) (ip_pdrequest p) (ip_dnrequests p)
    (ip_pset p) (ip_seqno p) (ip_msgcount p) (ip_qlimit p) (ip_blocked p).
Definition ip_set_mscount (x : Z) (p : ipc_port) : ipc_port :=
  mk_port (ip_references p) (ip_active p) (ip_kotype p) (ip_receiver_name p) (ip_messages p) (ip_data p)
    x (ip_srights p) (ip_sorights p) (ip_nsrequest p) (ip_pdrequest p) (ip_dnrequests p)
    (ip_pset p) (ip_seqno p) (ip_msgcount p) (ip_qlimit p) (ip_blocked p).
Definition ip_set_srights (x : Z) (p : ipc_port) : ipc_port :=
  mk_port (ip_references p) (ip_active p) (ip_kotype p) (ip_receiver_name p) (ip_messages p) (ip_data p)
    (ip_mscount p) x (ip_sorights p) (ip_nsrequest p) (ip_pdrequest p) (ip_dnrequests p)
    (ip_pset p) (ip_seqno p) (ip_msgcount p) (ip_qlimit p) (ip_blocked p).
Definition ip_set_sorights (x : Z) (p : ipc_port) : ipc_port :=
  mk_port (ip_references p) (ip_active p) (ip_kotype p) (ip_receiver_name p) (ip_messages p) (ip_data p)
    (ip_mscount p) (ip_srights p) x (ip_nsrequest p) (ip_pdrequest p) (ip_dnrequests p)
    (ip_pset p) (ip_seqno p) (ip_msgcount p) (ip_qlimit p) (ip_blocked p).
Definition ip_set_nsrequest (x : Z) (p : ipc_port) : ipc_port :=
  mk_port (ip_references p) (ip_active p) (ip_kotype p) (ip_receiver_name p) (ip_messages p) (ip_data p)
    (ip_mscount p) (ip_srights p) (ip_sorights p) x (ip_pdrequest p) (ip_dnrequests p)
    (ip_pset p) (ip_seqno p) (ip_msgcount p) (ip_qlimit p) (ip_blocked p).
Definition ip_set_pdrequest (x : Z) (p : ipc_port) : ipc_port :=
  mk_port (ip_references p) (ip_active p) (ip_kotype p) (ip_receiver_name p) (ip_messages p) (ip_data p)
    (ip_mscount p) (ip_srights p) (ip_sorights p) (ip_nsrequest p) x (ip_dnrequests p)
    (ip_pset p) (ip_seqno p) (ip_msgcount p) (ip_qlimit p) (ip_blocked p).
Definition ip_set_dnrequests (x : option dntable) (p : ipc_port) : ipc_port :=
  mk_port (ip_references p) (ip_active p) (ip_kotype p) (ip_receiver_name p) (ip_messages p) (ip_data p)
    (ip_mscount p) (ip_srights p) (ip_sorights p) (ip_nsrequest p) (ip_pdrequest p) x
    (ip_pset p) (ip_seqno p) (ip_msgcount p) (ip_qlimit p) (ip_blocked p).
Definition ip_set_pset (x : Z) (p : ipc_port) : ipc_port :=
  mk_port (ip_references p) (ip_active p) (ip_kotype p) (ip_receiver_name p) (ip_messages p) (ip_data p)
    (ip_mscount p) (ip_srights p) (ip_sorights p) (ip_nsrequest p) (ip_pdrequest p) (ip_dnrequests p)
    x (ip_seqno p) (ip_msgcount p) (ip_qlimit p) (ip_blocked p).
Definition ip_set_seqno (x : Z) (p : ipc_port) : ipc_port :=
  mk_port (ip_references p) (ip_active p) (ip_kotype p) (ip_receiver_name p) (ip_messages p) (ip_data p)
    (ip_mscount p) (ip_srights p) (ip_sorights p) (ip_nsrequest p) (ip_pdrequest p) (ip_dnrequests p)
    (ip_pset p) x (ip_msgcount p) (ip_qlimit p) (ip_blocked p).
Definition ip_set_qlimit (x : Z) (p : ipc_port) : ipc_port :=
  mk_port (ip_references p) (ip_active p) (ip_kotype p) (ip_receiver_name p) (ip_messages p) (ip_data p)
    (ip_mscount p) (ip_srights p) (ip_sorights p) (ip_nsrequest p) (ip_pdrequest p) (ip_dnrequests p)
    (ip_pset p) (ip_seqno p) (ip_msgcount p) x (ip_blocked p).
Definition ip_set_msgcount (x : Z) (p : ipc_port) : ipc_port :=
  mk_port (ip_references p) (ip_active p) (ip_kotype p) (ip_receiver_name p) (ip_messages p) (ip_data p)
    (ip_mscount p) (ip_srights p) (ip_sorights p) (ip_nsrequest p) (ip_pdrequest p) (ip_dnrequests p)
    (ip_pset p) (ip_seqno p) x (ip_qlimit p) (ip_blocked p).
Definition ip_set_blocked (x : list Z) (p : ipc_port) : ipc_port :=
  mk_port (ip_references p) (ip_active p) (ip_kotype p) (ip_receiver_name p) (ip_messages p) (ip_data p)
    (ip_mscount p) (ip_srights p) (ip_sorights p) (ip_nsrequest p) (ip_pdrequest p) (ip_dnrequests p)
    (ip_pset p) (ip_seqno p) (ip_msgcount p) (ip_qlimit p) x.

(** [ip_reference] and [ip_release]; the counts are unsigned. *)
Definition ip_reference (p : ipc_port) : ipc_port := ip_set_references (u32 (ip_references p + 1)) p.
Definition ip_release (p : ipc_port) : ipc_port := ip_set_references (u32 (ip_references p - 1)) p.

(** ** Dead-name requests *)

Definition slot_upd (tb : dntable) (i : Z) (f : ipc_port_request -> ipc_port_request) : option dntable :=
  LET ipr <- aget (dnt_slots tb) i ;; Some (mk_dntable (dnt_addr tb) (aset (dnt_slots tb) i (f ipr))).

Definition set_ipr_notify (x : Z) (r : ipc_port_request) : ipc_port_request := mk_ipr x (ipr_name r).
Definition set_ipr_name (x : Z) (r : ipc_port_request) : ipc_port_request := mk_ipr (ipr_notify r) x.

(** [None] inside is KERN_NO_SPACE. *)
Definition ipc_port_dnrequest (port : ipc_port) (name soright : Z) : option (ipc_port * option Z) :=
  ASSERT ip_active port ;;
  ASSERT negb (name =? MACH_PORT_NULL) ;;
  ASSERT negb (soright =? IP_NULL) ;;
  match ip_dnrequests port with
  | None => Some (port, None)
  | Some table =>
      LET head <- aget (dnt_slots table) 0 ;;
      let index := ipr_next head in
      if index =? 0 then Some (port, None)
      else
        LET ipr <- aget (dnt_slots table) index ;;
        ASSERT ipr_name ipr =? MACH_PORT_NULL ;;
        LET t1 <- slot_upd table 0 (set_ipr_notify (ipr_next ipr)) ;;
        LET t2 <- slot_upd t1 index (fun _ => mk_ipr soright name) ;;
        Some (ip_set_dnrequests (Some t2) port, Some index)
  end.

(** Returns the send-once right. *)
Definition ipc_port_dncancel (port : ipc_port) (name index : Z) : option (ipc_port * Z) :=
  ASSERT ip_active port ;;
  ASSERT negb (name =? MACH_PORT_NULL) ;;
  ASSERT negb (index =? 0) ;;
  LET table <- ip_dnrequests port ;;
  LET ipr <- aget (dnt_slots table) index ;;
  let dnrequest := ipr_soright ipr in
  ASSERT ipr_name ipr =? name ;;
  (* return ipr to the free list inside the table *)
  LET head <- aget (dnt_slots table) 0 ;;
  LET t1 <- slot_upd table index (fun _ => mk_ipr (ipr_next head) MACH_PORT_NULL) ;;
  LET t2 <- slot_upd t1 0 (set_ipr_notify index) ;;
  Some (ip_set_dnrequests (Some t2) port, dnrequest).

Definition ipc_port_dnrename (port : ipc_port) (index oname nname : Z) : option ipc_port :=
  ASSERT ip_active port ;;
  LET table <- ip_dnrequests port ;;
  LET ipr <- aget (dnt_slots table) index ;;
  ASSERT ipr_name ipr =? oname ;;
  LET t1 <- slot_upd table index (set_ipr_name nname) ;;
  Some (ip_set_dnrequests (Some t1) port).

(** Elements of a new table: a link of the free list. *)
Definition dn_free_body (i : Z) (s : list ipc_port_request * Z) : option (list ipc_port_request * Z) :=
  let '(table, free) := s in
  LET _ <- aget table i ;;
  Some (aset table i (mk_ipr free MACH_PORT_NULL), i).

(** Copy the old table to the new one and add the new elements to its free
    list.  [fresh] is the memory of the new table. *)
Definition dn_fill (dits : list Z) (otable : option dntable) (its nsize : Z)
    (fresh : dntable) : option dntable :=
  LET (osize, free, base) <-
    match otable with
    | Some tb =>
        LET head <- aget (dnt_slots tb) 0 ;;
        LET osize <- aget dits (ipr_size head) ;;
        (* bcopy of the elements after the first *)
        Some (osize, ipr_next head,
              firstn 1 (dnt_slots fresh) ++
              firstn (Z.to_nat (osize - 1)) (skipn 1 (dnt_slots tb)) ++
              skipn (Z.to_nat osize) (dnt_slots fresh))
    | None => Some (1, 0, dnt_slots fresh)
    end ;;
  ASSERT osize <? nsize ;;
  LET (slots, free') <- for_up (Z.to_nat (nsize - osize)) osize dn_free_body (base, free) ;;
  slot_upd (mk_dntable (dnt_addr fresh) slots) 0 (fun _ => mk_ipr free' its).

(** [dits] is [ipc_table_dnrequests]; [window] what others do to the port while
    it is unlocked; [mem] the memory [it_dnrequests_alloc] returns.  A port with
    no references left is freed, which the boolean says. *)
Definition ipc_port_dngrow (dits : list Z) (window : ipc_port -> ipc_port) (mem : option dntable)
    (port : ipc_port) : option (kern_return * ipc_port * bool) :=
  ASSERT ip_active port ;;
  LET its <-
    match ip_dnrequests port with
    | None => Some 0
    | Some tb => LET head <- aget (dnt_slots tb) 0 ;; Some (ipr_size head + 1)
    end ;;
  let otable := ip_dnrequests port in
  let port1 := window (ip_reference port) in
  LET nsize <- aget dits its ;;
  match (if nsize =? 0 then None else mem) with
  | None =>
      let port2 := ip_release port1 in
      Some (KERN_RESOURCE_SHORTAGE, port2, ip_references port2 =? 0)
  | Some fresh =>
      let port2 := ip_release port1 in
      LET grows <-
        (if ip_active port2 && bool_decide (dnt_addr <$> ip_dnrequests port2 = dnt_addr <$> otable) then
           match ip_dnrequests port2 with
           | None => Some true
           | Some tb => LET head <- aget (dnt_slots tb) 0 ;; Some (ipr_size head + 1 =? its)
           end
         else Some false) ;;
      if grows : bool then
        LET ntable <- dn_fill dits (ip_dnrequests port2) its nsize fresh ;;
        Some (KERN_SUCCESS, ip_set_dnrequests (Some ntable) port2, false)
      else Some (KERN_SUCCESS, port2, ip_references port2 =? 0)
  end.
