(* ===== verification/IpcRequests.v ===== *)
(** * Dead-name request tables refine finite maps

    The table of a port is a finite map from request indices to names and
    send-once rights, with a free list threaded through the unused slots. *)

From S2P Require Import Prelude PortName IpcTable IpcTypes IpcMqueue IpcPort.

Section Requests.
Implicit Types (slots : list ipc_port_request) (port : ipc_port).

(** The free list from slot [i] is [l]. *)
Inductive dn_chain slots : Z -> list Z -> Prop :=
| dn_chain_nil : dn_chain slots 0 []
| dn_chain_cons i r l : i <> 0 -> aget slots i = Some r -> ipr_name r = MACH_PORT_NULL ->
    dn_chain slots (ipr_next r) l -> dn_chain slots i (i :: l).

Definition dn_slots_wf slots (l : list Z) : Prop :=
  (exists head, aget slots 0 = Some head /\ dn_chain slots (ipr_next head) l) /\ NoDup l /\
  forall i r, aget slots i = Some r -> i <> 0 -> (ipr_name r = MACH_PORT_NULL <-> i ∈ l) /\
    (ipr_name r <> MACH_PORT_NULL -> ipr_soright r <> IP_NULL).

(** The requests of a table. *)
Definition dn_lookup slots (i : Z) : option (Z * Z) :=
  if i =? 0 then None
  else LET r <- aget slots i ;;
       if ipr_name r =? MACH_PORT_NULL then None else Some (ipr_name r, ipr_soright r).

Arguments dn_lookup : simpl never.

Definition port_requests port (i : Z) : option (Z * Z) :=
  LET tb <- ip_dnrequests port ;; dn_lookup (dnt_slots tb) i.

(** The port's table is well formed and has the free slots [l]. *)
Definition requests_wf port (l : list Z) : Prop :=
  match ip_dnrequests port with Some tb => dn_slots_wf (dnt_slots tb) l | None => l = [] end.

Lemma dn_chain_frame slots slots' i l :
  (forall j, j ∈ l -> aget slots' j = aget slots j) -> dn_chain slots i l -> dn_chain slots' i l.
Proof.
  intros Hj Hc. induction Hc as [|i r l Hi Hr Hn Hc IH]; [constructor|].
  econstructor; [done| |done|].
  - rewrite Hj; [done|]. apply list_elem_of_here.
  - apply IH. intros j ?. apply Hj. by apply list_elem_of_further.
Qed.

Lemma dn_chain_nonzero slots i l j : dn_chain slots i l -> j ∈ l -> j <> 0 /\ is_Some (aget slots j).
Proof.
  intros Hc. induction Hc as [|i r l Hi Hr Hn Hc IH]; [by intros ?%elem_of_nil|].
  intros [->|?]%elem_of_cons; [by eauto|by apply IH].
Qed.

Lemma dn_chain_inv slots h i l : dn_chain slots h (i :: l) ->
  h = i /\ i <> 0 /\ exists r, aget slots i = Some r /\ ipr_name r = MACH_PORT_NULL /\ dn_chain slots (ipr_next r) l.
Proof. inversion 1; subst; by eauto 10. Qed.

Lemma dn_chain_head slots i l : dn_chain slots i l -> i = 0 <-> l = [].
Proof. intros Hc. destruct Hc; [done|]. split; done. Qed.

Lemma slot_upd_Some tb i f r :
  aget (dnt_slots tb) i = Some r -> slot_upd tb i f = Some (mk_dntable (dnt_addr tb) (aset (dnt_slots tb) i (f r))).
Proof. unfold slot_upd. by intros ->. Qed.

(** Requests of two tables that agree but on one slot. *)
Lemma dn_lookup_upd slots i r j : 0 < i < alen slots -> ipr_name r <> MACH_PORT_NULL ->
  dn_lookup (aset slots i r) j = if decide (j = i) then Some (ipr_name r, ipr_soright r) else dn_lookup slots j.
Proof.
  intros Hi Hn. unfold dn_lookup. destruct (Z.eqb_spec j 0) as [->|]; [by rewrite decide_False by lia|].
  case_decide as E.
  - subst j. rewrite aget_aset_eq by lia. destruct (Z.eqb_spec (ipr_name r) MACH_PORT_NULL); done.
  - by rewrite aget_aset_ne by lia.
Qed.

Lemma dn_lookup_free slots i r j : ipr_name r = MACH_PORT_NULL ->
  dn_lookup (aset slots i r) j = if decide (j = i) then None else dn_lookup slots j.
Proof.
  intros Hn. unfold dn_lookup. destruct (Z.eqb_spec j 0) as [->|]; [by case_decide|].
  case_decide as E; [|by rewrite aget_aset_ne by lia].
  subst j. rewrite aget_aset. case_decide as Hd; [by rewrite Hn|].
  destruct (aget slots i) eqn:He; [|done]. apply aget_Some_range in He. by destruct Hd.
Qed.

Lemma dn_lookup_head slots r j : dn_lookup (aset slots 0 r) j = dn_lookup slots j.
Proof.
  unfold dn_lookup. destruct (Z.eqb_spec j 0); [done|]. by rewrite aget_aset_ne by lia.
Qed.

Lemma dn_lookup_free_none slots l i : dn_slots_wf slots l -> i ∈ l -> dn_lookup slots i = None.
Proof.
  intros (_ & _ & Hn) Hi. unfold dn_lookup. destruct (Z.eqb_spec i 0); [done|].
  destruct (aget slots i) as [r|] eqn:Hr; [|done]. destruct (Hn i r Hr ltac:(done)) as [Hw _].
  by rewrite (proj2 Hw Hi).
Qed.

(** ** Making a request *)

Lemma dn_take_wf slots i l head r name soright :
  dn_slots_wf slots (i :: l) -> aget slots 0 = Some head -> aget slots i = Some r ->
  name <> MACH_PORT_NULL -> soright <> IP_NULL ->
  dn_slots_wf (aset (aset slots 0 (set_ipr_notify (ipr_next r) head)) i (mk_ipr soright name)) l.
Proof.
  intros ((h & Hh & Hc) & Hnd & Hn) Hhead Hr Hname Hso. rewrite Hhead in Hh. injection Hh as <-.
  apply dn_chain_inv in Hc as (_ & Hi & r' & Hr' & Hn' & Hc'). rewrite Hr in Hr'. injection Hr' as <-.
  apply NoDup_cons in Hnd as [Hnotin Hnd].
  pose proof (aget_Some_range _ _ _ Hhead). pose proof (aget_Some_range _ _ _ Hr).
  split_and!; [|done|].
  - eexists. split; [rewrite aget_aset_ne by lia; by apply aget_aset_eq|]. cbn.
    eapply dn_chain_frame; [|exact Hc']. intros j Hj. destruct (dn_chain_nonzero _ _ _ _ Hc' Hj).
    rewrite !aget_aset_ne; [done|lia|]. by intros ->.
  - intros j q Hj Hj0. destruct (decide (j = i)) as [->|].
    + rewrite aget_aset_eq in Hj by (by rewrite alen_aset). injection Hj as <-. cbn. split; [|done].
      split; [done|]. intros. done.
    + rewrite !aget_aset_ne in Hj by lia. destruct (Hn j q Hj Hj0) as [Hw ?]. split; [|done].
      rewrite Hw, elem_of_cons. naive_solver.
Qed.

Lemma ipc_port_dnrequest_spec port l name soright :
  requests_wf port l -> ip_active port = true -> name <> MACH_PORT_NULL -> soright <> IP_NULL ->
  match l with
  | [] => ipc_port_dnrequest port name soright = Some (port, None)
  | i :: l' => i <> 0 /\ port_requests port i = None /\
      exists tb', let port' := ip_set_dnrequests (Some tb') port in
        ipc_port_dnrequest port name soright = Some (port', Some i) /\ requests_wf port' l' /\
        forall j, port_requests port' j = if decide (j = i) then Some (name, soright) else port_requests port j
  end.
Proof.
  unfold requests_wf, port_requests, ipc_port_dnrequest. intros Hwf -> Hn Hs.
  rewrite (proj2 (Z.eqb_neq name _) Hn), (proj2 (Z.eqb_neq soright _) Hs). cbn.
  destruct (ip_dnrequests port) as [tb|]; [|by subst l].
  pose proof Hwf as ((head & Hh & Hc) & _ & _). rewrite Hh.
  destruct l as [|i l].
  { rewrite (proj2 (dn_chain_head _ _ _ Hc) eq_refl). done. }
  apply dn_chain_inv in Hc as (Hnext & Hi & r & Hr & Hnr & Hc').
  rewrite Hnext, (proj2 (Z.eqb_neq _ _) Hi), Hr, Hnr.
  pose proof (aget_Some_range _ _ _ Hh). pose proof (aget_Some_range _ _ _ Hr).
  split_and!; [done| |].
  { eapply dn_lookup_free_none; [exact Hwf|apply list_elem_of_here]. }
  rewrite (slot_upd_Some _ _ _ _ Hh). cbn.
  rewrite (slot_upd_Some (mk_dntable _ _) _ _ r); [|cbn; rewrite aget_aset_ne by lia; done].
  eexists. cbn. split; [done|]. cbn. split.
  - eapply dn_take_wf; done.
  - intros j. rewrite dn_lookup_upd by (rewrite ?alen_aset; done || lia). by rewrite dn_lookup_head.
Qed.

(** ** Cancelling a request *)

Lemma dn_cancel_wf slots i l head r :
  dn_slots_wf slots l -> aget slots 0 = Some head -> aget slots i = Some r ->
  i <> 0 -> ipr_name r <> MACH_PORT_NULL ->
  dn_slots_wf (aset (aset slots i (mk_ipr (ipr_next head) MACH_PORT_NULL)) 0 (set_ipr_notify i head)) (i :: l).
Proof.
  intros ((h & Hh & Hc) & Hnd & Hn) Hhead Hr Hi Hname. rewrite Hhead in Hh. injection Hh as <-.
  pose proof (aget_Some_range _ _ _ Hhead). pose proof (aget_Some_range _ _ _ Hr).
  assert (i ∉ l) as Hni. { intros Hin. destruct (Hn i r Hr Hi) as [Hw _]. by apply Hw in Hin. }
  split_and!.
  - eexists. split; [apply aget_aset_eq; by rewrite alen_aset|]. cbn. apply (dn_chain_cons _ i (mk_ipr (ipr_next head) MACH_PORT_NULL)); [done| |done|].
    + rewrite aget_aset_ne by lia. by apply aget_aset_eq.
    + cbn. eapply dn_chain_frame; [|exact Hc]. intros j Hj.
      destruct (dn_chain_nonzero _ _ _ _ Hc Hj). rewrite !aget_aset_ne; [done| |lia]. by intros ->.
  - by constructor.
  - intros j q Hj Hj0. rewrite aget_aset_ne in Hj by lia. destruct (decide (j = i)) as [->|].
    + rewrite aget_aset_eq in Hj by done. injection Hj as <-. cbn. split; [|done].
      split; [intros _; apply list_elem_of_here|done].
    + rewrite aget_aset_ne in Hj by lia. destruct (Hn j q Hj Hj0) as [Hw ?]. split; [|done].
      rewrite Hw, elem_of_cons. naive_solver.
Qed.

Lemma dn_lookup_Some slots i name so : dn_lookup slots i = Some (name, so) ->
  i <> 0 /\ name <> MACH_PORT_NULL /\ exists r, aget slots i = Some r /\ ipr_name r = name /\ ipr_soright r = so.
Proof.
  unfold dn_lookup. destruct (Z.eqb_spec i 0); [done|]. destruct (aget slots i) as [r|]; [|done].
  destruct (Z.eqb_spec (ipr_name r) MACH_PORT_NULL); [done|]. intros [= <- <-]. split_and!; eauto.
Qed.

Lemma ipc_port_dncancel_spec port l name so i :
  requests_wf port l -> ip_active port = true -> port_requests port i = Some (name, so) ->
  exists tb', let port' := ip_set_dnrequests (Some tb') port in
    ipc_port_dncancel port name i = Some (port', so) /\ requests_wf port' (i :: l) /\
    forall j, port_requests port' j = if decide (j = i) then None else port_requests port j.
Proof.
  unfold requests_wf, port_requests, ipc_port_dncancel. intros Hwf -> Hl.
  destruct (ip_dnrequests port) as [tb|]; [|done].
  apply dn_lookup_Some in Hl as (Hi & Hn & r & Hr & <- & <-).
  rewrite (proj2 (Z.eqb_neq _ _) Hn), (proj2 (Z.eqb_neq _ _) Hi), Hr, Z.eqb_refl. cbn.
  pose proof Hwf as ((head & Hh & Hc) & _ & _). rewrite Hh, (slot_upd_Some _ _ _ _ Hr). cbn.
  rewrite (slot_upd_Some (mk_dntable _ _) _ _ head); [|cbn; rewrite aget_aset_ne by done; done].
  eexists. cbn. split; [done|]. cbn. split; [by eapply dn_cancel_wf|].
  intros j. rewrite dn_lookup_head, dn_lookup_free by done. done.
Qed.

Lemma ipc_port_dnrename_spec port l i oname nname so :
  requests_wf port l -> ip_active port = true -> port_requests port i = Some (oname, so) ->
  nname <> MACH_PORT_NULL ->
  exists tb', let port' := ip_set_dnrequests (Some tb') port in
    ipc_port_dnrename port i oname nname = Some port' /\ requests_wf port' l /\
    forall j, port_requests port' j = if decide (j = i) then Some (nname, so) else port_requests port j.
Proof.
  unfold requests_wf, port_requests, ipc_port_dnrename. intros Hwf -> Hl Hnn.
  destruct (ip_dnrequests port) as [tb|]; [|done].
  apply dn_lookup_Some in Hl as (Hi & Hn & r & Hr & <- & <-).
  pose proof (aget_Some_range _ _ _ Hr).
  rewrite Hr, Z.eqb_refl, (slot_upd_Some _ _ _ _ Hr). eexists. cbn. split; [done|]. cbn. split.
  - destruct Hwf as ((head & Hh & Hc) & Hnd & Hw).
    assert (i ∉ l) as Hni. { intros Hin. destruct (Hw i r Hr Hi) as [Hx _]. by apply Hx in Hin. }
    split_and!; [|done|].
    + exists head. rewrite aget_aset_ne by done. split; [done|].
      eapply dn_chain_frame; [|exact Hc]. intros j Hj. rewrite aget_aset_ne; [done|]. by intros ->.
    + intros j q Hj Hj0. destruct (decide (j = i)) as [->|].
      * rewrite aget_aset_eq in Hj by lia. injection Hj as <-. cbn. destruct (Hw i r Hr Hi). split; [done|tauto].
      * rewrite aget_aset_ne in Hj by done. by apply Hw.
  - intros j. by rewrite dn_lookup_upd by (done || lia).
Qed.

(** ** Growing the table *)

Definition dnrequests_sizes_ok (dits : list Z) : Prop :=
  exists l, dits = l ++ [0] /\ increasing l /\ Forall (fun x => 2 <= x) l.

(** The table of a port is as long as the element of [dits] it points to. *)
Definition dn_sized (dits : list Z) tb : Prop :=
  exists head n, aget (dnt_slots tb) 0 = Some head /\ aget dits (ipr_size head) = Some n /\
    alen (dnt_slots tb) = n /\ 2 <= n.

Definition port_sized (dits : list Z) port : Prop :=
  forall tb, ip_dnrequests port = Some tb -> dn_sized dits tb.

Lemma dits_next dits k n nsize : dnrequests_sizes_ok dits -> aget dits k = Some n -> 2 <= n ->
  aget dits (k + 1) = Some nsize -> nsize <> 0 -> n < nsize.
Proof.
  intros (l & -> & Hi & Hf) Hk Hn Hk1 H0.
  pose proof (aget_Some_range _ _ _ Hk). pose proof (aget_Some_range _ _ _ Hk1) as Hr.
  rewrite alen_app in *. change (alen [0]) with 1 in *.
  assert (forall j x, aget (l ++ [0]) j = Some x -> x <> 0 -> aget l j = Some x) as Hin.
  { intros j x Hj Hx. pose proof (aget_Some_range _ _ _ Hj) as Hrj. rewrite alen_app in Hrj.
    change (alen [0]) with 1 in Hrj. destruct (decide (j < alen l)); [by rewrite aget_app_l in Hj|].
    rewrite aget_app_r in Hj by lia. replace (j - alen l) with 0 in Hj by lia. by injection Hj as <-. }
  eapply (increasing_aget l k (k + 1)); [done|by apply Hin; [|lia]|by apply Hin|lia].
Qed.

(** The state of the loop of [dn_fill]: [fr] is the free list so far, and slots
    below [i] are in it exactly when they are unused. *)
Definition dn_filling (base : list ipc_port_request) (osize i : Z) (s : list ipc_port_request * Z) (fr : list Z) : Prop :=
  let '(slots, free) := s in
  alen slots = alen base /\ dn_chain slots free fr /\ NoDup fr /\ (forall j, j ∈ fr -> 0 < j < i) /\
  (forall j r, 0 < j < i -> aget slots j = Some r -> (ipr_name r = MACH_PORT_NULL <-> j ∈ fr) /\
     (ipr_name r <> MACH_PORT_NULL -> ipr_soright r <> IP_NULL)) /\
  (forall j, j < osize -> aget slots j = aget base j) /\
  (forall j r, osize <= j < i -> aget slots j = Some r -> ipr_name r = MACH_PORT_NULL) /\
  (osize < i -> fr <> []).

Lemma dn_free_body_step base osize i s fr :
  0 < osize <= i -> i < alen base -> dn_filling base osize i s fr ->
  exists s', dn_free_body i s = Some s' /\ dn_filling base osize (i + 1) s' (i :: fr).
Proof.
  destruct s as [slots free]. intros Hi Hlen (Hl & Hc & Hnd & Hfr & Hw & Hold & Hnew & Hne).
  unfold dn_free_body. destruct (aget_is_Some slots i ltac:(lia)) as [r Hr]. rewrite Hr.
  eexists. split; [done|]. split_and!.
  - by rewrite alen_aset.
  - apply (dn_chain_cons _ i (mk_ipr free MACH_PORT_NULL)); [lia|apply aget_aset_eq; lia|done|].
    eapply dn_chain_frame; [|exact Hc]. intros j Hj. specialize (Hfr j Hj). rewrite aget_aset_ne by lia. done.
  - constructor; [|done]. intros Hin. specialize (Hfr i Hin). lia.
  - intros j [->|Hj]%elem_of_cons; [lia|]. specialize (Hfr j Hj). lia.
  - intros j q Hj Hq. destruct (decide (j = i)) as [->|].
    + rewrite aget_aset_eq in Hq by lia. injection Hq as <-. cbn. split; [|done].
      split; [intros _; apply list_elem_of_here|done].
    + rewrite aget_aset_ne in Hq by lia. destruct (Hw j q ltac:(lia) Hq) as [Hiff ?]. split; [|done].
      rewrite Hiff, elem_of_cons. naive_solver.
  - intros j Hj. rewrite aget_aset_ne by lia. by apply Hold.
  - intros j q Hj Hq. destruct (decide (j = i)) as [->|].
    + rewrite aget_aset_eq in Hq by lia. by injection Hq as <-.
    + rewrite aget_aset_ne in Hq by lia. apply (Hnew j q); [lia|done].
  - done.
Qed.

(** A table filled from slots [base] whose first [osize] hold old requests. *)
Lemma dn_fill_loop base osize nsize free fr addr its :
  0 < osize < nsize -> alen base = nsize -> dn_filling base osize osize (base, free) fr ->
  exists slots free', for_up (Z.to_nat (nsize - osize)) osize dn_free_body (base, free) = Some (slots, free') /\
    exists tb', slot_upd (mk_dntable addr slots) 0 (fun _ => mk_ipr free' its) = Some tb' /\
      dnt_addr tb' = addr /\ alen (dnt_slots tb') = nsize /\
      (exists l', dn_slots_wf (dnt_slots tb') l' /\ l' <> []) /\
      (exists head, aget (dnt_slots tb') 0 = Some head /\ ipr_size head = its) /\
      forall j, dn_lookup (dnt_slots tb') j = if decide (j < osize) then dn_lookup base j else None.
Proof.
  intros Ho Hb Hf.
  destruct (for_up_rule (fun i s => exists fr, dn_filling base osize i s fr) dn_free_body
    (Z.to_nat (nsize - osize)) osize (base, free)) as ([slots free'] & Hrun & (fr' & HI)); [by exists fr| |].
  { intros i s Hi (fr1 & H1). destruct (dn_free_body_step base osize i s fr1) as (s' & ? & ?); [lia|lia|done|].
    eauto. }
  rewrite Hrun. do 2 eexists. split; [done|].
  replace (osize + Z.of_nat (Z.to_nat (nsize - osize))) with nsize in HI by lia.
  destruct HI as (Hl & Hc & Hnd & Hfr & Hw & Hold & Hnew & Hne).
  destruct (aget_is_Some slots 0 ltac:(lia)) as [r0 Hr0]. rewrite (slot_upd_Some (mk_dntable _ _) _ _ r0) by done.
  eexists. split; [done|]. cbn. split_and!; [done|rewrite alen_aset; lia| | |].
  - exists fr'. split; [|apply Hne; lia]. split_and!; [|done|].
    + eexists. split; [apply aget_aset_eq; lia|]. cbn. eapply dn_chain_frame; [|exact Hc].
      intros j Hj. specialize (Hfr j Hj). rewrite aget_aset_ne by lia. done.
    + intros j q Hq Hj. rewrite aget_aset_ne in Hq by lia. pose proof (aget_Some_range _ _ _ Hq).
      apply Hw; [lia|done].
  - eexists. split; [apply aget_aset_eq; lia|done].
  - intros j. rewrite dn_lookup_head. unfold dn_lookup. destruct (Z.eqb_spec j 0); [by case_decide|].
    case_decide; [by rewrite Hold by lia|]. destruct (aget slots j) as [q|] eqn:Hq; [|done].
    pose proof (aget_Some_range _ _ _ Hq). rewrite (Hnew j q) by (done || lia). done.
Qed.

(** The slots of the new table after the copy of the old one. *)
Lemma dn_copied_get (old fresh : list ipc_port_request) osize :
  0 < osize -> alen old = osize -> osize < alen fresh ->
  let base := firstn 1 fresh ++ firstn (Z.to_nat (osize - 1)) (skipn 1 old) ++ skipn (Z.to_nat osize) fresh in
  alen base = alen fresh /\ forall j, 0 < j < osize -> aget base j = aget old j.
Proof.
  intros H1 H2 H3. cbn zeta. unfold alen in *. split.
  - rewrite !length_app, !length_take, !length_drop. lia.
  - intros j Hj. unfold aget. case_decide; [|lia].
    rewrite lookup_app_r by (rewrite length_take; lia). rewrite length_take.
    rewrite lookup_app_l by (rewrite length_take, length_drop; lia).
    rewrite lookup_take_lt by lia. rewrite lookup_drop. f_equal. lia.
Qed.

Lemma dn_fill_spec dits port l its nsize fresh :
  dnrequests_sizes_ok dits -> requests_wf port l -> port_sized dits port ->
  match ip_dnrequests port with
  | Some tb => exists head, aget (dnt_slots tb) 0 = Some head /\ its = ipr_size head + 1
  | None => its = 0
  end ->
  aget dits its = Some nsize -> nsize <> 0 -> alen (dnt_slots fresh) = nsize ->
  exists tb', dn_fill dits (ip_dnrequests port) its nsize fresh = Some tb' /\
    dn_sized dits tb' /\ (exists l', dn_slots_wf (dnt_slots tb') l' /\ l' <> []) /\
    forall j, dn_lookup (dnt_slots tb') j = port_requests port j.
Proof.
  unfold requests_wf, port_sized, port_requests, dn_fill. intros Hd Hwf Hs Hits Hn H0 Hfr.
  assert (2 <= nsize) as Hn2.
  { destruct Hd as (ds & -> & _ & Hge). rewrite Forall_forall in Hge.
    destruct (decide (its < alen ds)).
    - rewrite aget_app_l in Hn by done. apply Hge. unfold aget in Hn. case_decide; [|done].
      by eapply list_elem_of_lookup_2.
    - pose proof (aget_Some_range _ _ _ Hn) as Hr. rewrite alen_app in Hr. change (alen [0]) with 1 in Hr.
      rewrite aget_app_r in Hn by lia. replace (its - alen ds) with 0 in Hn by lia. by injection Hn as <-. }
  destruct (ip_dnrequests port) as [tb|].
  - destruct Hits as (head & Hh & ->). destruct (Hs tb eq_refl) as (head' & osize & Hh' & Ho & Hlen & Ho2).
    rewrite Hh in Hh'. injection Hh' as <-. rewrite Hh, Ho.
    pose proof (dits_next _ _ _ _ Hd Ho Ho2 Hn H0) as Hlt. rewrite (proj2 (Z.ltb_lt _ _) Hlt).
    destruct (dn_copied_get (dnt_slots tb) (dnt_slots fresh) osize) as [Hbl Hbg]; [lia|done|lia|].
    set (base := firstn 1 _ ++ _) in *.
    destruct (dn_fill_loop base osize nsize (ipr_next head) l (dnt_addr fresh) (ipr_size head + 1))
      as (slots & free' & -> & tb' & -> & Ha & Hal & Hwf' & (h' & Hh' & Hhs) & Hlook); [lia|lia| |].
    { destruct Hwf as ((h1 & Hh1 & Hc) & Hnd & Hw). rewrite Hh in Hh1. injection Hh1 as <-.
      assert (forall j, j ∈ l -> 0 < j < osize) as Hlr.
      { intros j Hj. destruct (dn_chain_nonzero _ _ _ _ Hc Hj) as [? [q Hq]].
        apply aget_Some_range in Hq. lia. }
      split_and!; [done| |done|done| |done|lia|lia].
      - eapply dn_chain_frame; [|exact Hc]. intros j Hj. apply Hbg. by apply Hlr.
      - intros j q Hj Hq. rewrite Hbg in Hq by lia. apply Hw; [done|lia]. }
    exists tb'. split; [done|]. split; [|split; [done|]].
    + exists h', nsize. rewrite Hhs. split_and!; (done || lia).
    + intros j. rewrite Hlook. case_decide as Hj.
      * unfold dn_lookup. destruct (Z.eqb_spec j 0); [done|]. destruct (decide (0 < j)).
        { by rewrite Hbg by lia. }
        rewrite !(proj2 (aget_None _ j)) by lia. done.
      * unfold dn_lookup. destruct (Z.eqb_spec j 0); [done|]. by rewrite (proj2 (aget_None _ j)) by lia.
  - subst its. assert (1 < nsize) by lia. rewrite (proj2 (Z.ltb_lt 1 nsize)) by done.
    destruct (dn_fill_loop (dnt_slots fresh) 1 nsize 0 [] (dnt_addr fresh) 0)
      as (slots & free' & -> & tb' & -> & Ha & Hal & Hwf' & (h' & Hh' & Hhs) & Hlook); [lia|done| |].
    { split_and!; try done; try lia; [constructor|constructor|intros j Hj; by apply elem_of_nil in Hj]. }
    exists tb'. split; [done|]. split; [|split; [done|]].
    + exists h', nsize. rewrite Hhs. split_and!; (done || lia).
    + intros j. rewrite Hlook. case_decide; [|done]. unfold dn_lookup.
      destruct (Z.eqb_spec j 0); [done|]. by rewrite (proj2 (aget_None _ j)) by lia.
Qed.
End Requests.

(** ** A sample port: one request, for name 260, and one free slot *)

Definition req_table : dntable := mk_dntable 64 [mk_ipr 2 1; mk_ipr 96 260; mk_ipr 0 0].
Definition req_port : ipc_port :=
  mk_port 1 true 0 256 ipc_mqueue_init 48 0 1 0 0 0 (Some req_table) 0 0 0 5 [].

Lemma req_port_wf : requests_wf req_port [2].
Proof.
  split_and!.
  - exists (mk_ipr 2 1). split; [done|]. apply (dn_chain_cons _ 2 (mk_ipr 0 0)); [done..|constructor].
  - apply NoDup_singleton.
  - intros i r Hr Hi. rewrite list_elem_of_singleton. pose proof (aget_Some_range _ _ _ Hr) as H. cbn in H.
    assert (i = 1 \/ i = 2) as [-> | ->] by (change (alen _) with 3 in H; lia);
      injection Hr as <-; split; done.
Qed.

(** ** Theorems *)

Section RequestTheorems.

(** Making a dead-name request and cancelling it is a round trip: with a
    free slot [ipc_port_dnrequest] succeeds and registers exactly the name and
    the send-once right under a fresh non-zero index, and [ipc_port_dncancel]
    of that index returns the right and leaves the requests there were. *)
Lemma dnrequest_cancel_roundtrip port l name soright :
  requests_wf port l -> l <> [] -> ip_active port = true ->
  name <> MACH_PORT_NULL -> soright <> IP_NULL ->
  exists port1 port2 i, i <> 0 /\ port_requests port i = None /\
    ipc_port_dnrequest port name soright = Some (port1, Some i) /\
    (forall j, port_requests port1 j = if decide (j = i) then Some (name, soright) else port_requests port j) /\
    ipc_port_dncancel port1 name i = Some (port2, soright) /\ requests_wf port2 l /\
    forall j, port_requests port2 j = port_requests port j.
Proof.
  intros Hwf Hl Ha Hn Hs. pose proof (ipc_port_dnrequest_spec port l name soright Hwf Ha Hn Hs) as H.
  destruct l as [|i l]; [done|]. destruct H as (Hi & Hfree & tb1 & Hreq & Hwf1 & Hl1).
  destruct (ipc_port_dncancel_spec (ip_set_dnrequests (Some tb1) port) l name soright i Hwf1 Ha)
    as (tb2 & Hc & Hwf2 & Hl2). { rewrite Hl1. by rewrite decide_True. }
  do 3 eexists. split_and!; [exact Hi|done|exact Hreq|done|exact Hc|done|].
  intros j. rewrite Hl2, Hl1. case_decide; [by subst|done].
Qed.

Lemma dnrequest_cancel_roundtrip_witness :
  exists port1 port2 i, i <> 0 /\ port_requests req_port i = None /\
    ipc_port_dnrequest req_port 516 80 = Some (port1, Some i) /\
    (forall j, port_requests port1 j = if decide (j = i) then Some (516, 80) else port_requests req_port j) /\
    ipc_port_dncancel port1 516 i = Some (port2, 80) /\ requests_wf port2 [2] /\
    forall j, port_requests port2 j = port_requests req_port j.
Proof. apply dnrequest_cancel_roundtrip; [exact req_port_wf|done..]. Defined.

(** A registered request is switched atomically: after [ipc_port_dncancel]
    returned a right, [ipc_port_dnrequest] for any right succeeds and reuses
    the slot, so that [ipc_right_dnrequest] never drops a request to retry. *)
Lemma dncancel_then_dnrequest_reuses port l name so so' i :
  requests_wf port l -> ip_active port = true -> port_requests port i = Some (name, so) -> so' <> IP_NULL ->
  exists port1 port2,
    ipc_port_dncancel port name i = Some (port1, so) /\
    ipc_port_dnrequest port1 name so' = Some (port2, Some i) /\ requests_wf port2 l /\
    forall j, port_requests port2 j = if decide (j = i) then Some (name, so') else port_requests port j.
Proof.
  intros Hwf Ha Hl Hs. destruct (ipc_port_dncancel_spec port l name so i Hwf Ha Hl) as (tb1 & Hc & Hwf1 & Hl1).
  assert (name <> MACH_PORT_NULL) as Hn.
  { unfold port_requests in Hl. destruct (ip_dnrequests port); [|done]. by apply dn_lookup_Some in Hl as (_ & ? & _). }
  destruct (ipc_port_dnrequest_spec _ (i :: l) name so' Hwf1 Ha Hn Hs) as (_ & _ & tb2 & Hr & Hwf2 & Hl2).
  do 2 eexists. split_and!; [exact Hc|exact Hr|done|]. intros j. rewrite Hl2, Hl1. by case_decide.
Qed.

Lemma dncancel_then_dnrequest_reuses_witness :
  exists port1 port2,
    ipc_port_dncancel req_port 260 1 = Some (port1, 96) /\
    ipc_port_dnrequest port1 260 80 = Some (port2, Some 1) /\ requests_wf port2 [2] /\
    forall j, port_requests port2 j = if decide (j = 1) then Some (260, 80) else port_requests req_port j.
Proof. apply (dncancel_then_dnrequest_reuses req_port [2] 260 96 80 1); [exact req_port_wf|done..]. Defined.

(** Growing the request table: when the memory is there and the port still
    has the table that was to grow, [ipc_port_dngrow] installs a longer table
    with exactly the requests registered by then and room for another one;
    when somebody else grew it or the port died, it only gives back its
    reference; without memory it fails, and also only gives it back. *)
Lemma dngrow_keeps_requests dits window mem port l its nsize :
  dnrequests_sizes_ok dits -> port_sized dits (window (ip_reference port)) ->
  requests_wf (window (ip_reference port)) l -> ip_active port = true -> port_sized dits port ->
  its = match ip_dnrequests port with
        | Some tb => from_option (fun head => ipr_size head + 1) 0 (aget (dnt_slots tb) 0)
        | None => 0
        end ->
  aget dits its = Some nsize -> (forall fresh, mem = Some fresh -> alen (dnt_slots fresh) = nsize) ->
  exists kr port' freed, ipc_port_dngrow dits window mem port = Some (kr, port', freed) /\
    let port2 := ip_release (window (ip_reference port)) in
    match kr with
    | KERN_SUCCESS => port' = port2 \/
        exists tb l', port' = ip_set_dnrequests (Some tb) port2 /\ requests_wf port' l' /\ l' <> [] /\
          port_sized dits port' /\ forall j, port_requests port' j = port_requests port2 j
    | _ => kr = KERN_RESOURCE_SHORTAGE /\ port' = port2 /\ (nsize = 0 \/ mem = None)
    end.
Proof.
  intros Hd Hs1 Hwf Ha Hs Hits Hn Hmem. unfold ipc_port_dngrow. rewrite Ha.
  assert (match ip_dnrequests port with
          | None => Some 0
          | Some tb => LET head <- aget (dnt_slots tb) 0 ;; Some (ipr_size head + 1)
          end = Some its) as ->.
  { destruct (ip_dnrequests port) as [tb|] eqn:E; [|by subst].
    destruct (Hs tb E) as (head & n & Hh & _). rewrite Hh in *. by subst its. }
  rewrite Hn. destruct (Z.eqb_spec nsize 0) as [H0|H0]; [do 3 eexists; split; [done|]; split_and!; [done|done|tauto]|].
  destruct mem as [fresh|]; [|do 3 eexists; split; [done|]; split_and!; [done|done|tauto]].
  set (port2 := ip_release _).
  assert (requests_wf port2 l /\ port_sized dits port2) as [Hwf2 Hs2] by done.
  destruct (ip_active port2 && _) eqn:Hsame; [|do 3 eexists; split; [done|]; by left].
  apply andb_true_iff in Hsame as [_ Hsame%bool_decide_eq_true].
  assert (forall tb', ip_dnrequests port2 = Some tb' -> exists head, aget (dnt_slots tb') 0 = Some head) as Hhead.
  { intros tb' E. destruct (Hs2 tb' E) as (h & _ & ? & _). eauto. }
  destruct (ip_dnrequests port2) as [tb'|] eqn:E2.
  - destruct (Hhead tb' eq_refl) as [head Hh]. rewrite Hh.
    destruct (Z.eqb_spec (ipr_size head + 1) its) as [He|]; [|do 3 eexists; split; [done|]; by left].
    destruct (dn_fill_spec dits port2 l its nsize fresh) as (tb2 & Hf & Hsz & (l' & Hl' & Hne) & Hlook); try done.
    { rewrite E2. by exists head. }
    { by apply Hmem. }
    rewrite E2 in Hf. rewrite Hf. do 3 eexists. split; [done|]. right. exists tb2, l'.
    split_and!; [done|done|done| |done]. intros tb3 [= <-]. done.
  - destruct (ip_dnrequests port) as [tb|]; [done|].
    destruct (dn_fill_spec dits port2 l its nsize fresh) as (tb2 & Hf & Hsz & (l' & Hl' & Hne) & Hlook); try done.
    { by rewrite E2. }
    { by apply Hmem. }
    rewrite E2 in Hf. rewrite Hf. do 3 eexists. split; [done|]. right. exists tb2, l'.
    split_and!; [done|done|done| |done]. intros tb3 [= <-]. done.
Qed.

Lemma dngrow_keeps_requests_witness :
  let dits := [2; 3; 5; 0] in
  let mem := Some (mk_dntable 128 (replicate 5 (mk_ipr 7 7))) in
  exists kr port' freed, ipc_port_dngrow dits id mem req_port = Some (kr, port', freed) /\
    let port2 := ip_release (ip_reference req_port) in
    match kr with
    | KERN_SUCCESS => port' = port2 \/
        exists tb l', port' = ip_set_dnrequests (Some tb) port2 /\ requests_wf port' l' /\ l' <> [] /\
          port_sized dits port' /\ forall j, port_requests port' j = port_requests port2 j
    | _ => kr = KERN_RESOURCE_SHORTAGE /\ port' = port2 /\ (5 = 0 \/ mem = None)
    end.
Proof.
  assert (port_sized [2; 3; 5; 0] req_port) as Hs.
  { intros tb [= <-]. exists (mk_ipr 2 1), 3. done. }
  apply (dngrow_keeps_requests [2; 3; 5; 0] id _ req_port [2] 2 5);
    [|exact Hs|exact req_port_wf|done|exact Hs|done|done|].
  - exists [2; 3; 5]. split_and!; [done|by repeat constructor|by repeat constructor].
  - by intros fresh [= <-].
Defined.
End RequestTheorems.
