(* ===== verification/IpcWorld.v ===== *)
(** * Ports and port sets in memory (ipc/ipc_object.h, ipc/ipc_object.c, ipc/ipc_pset.c)

    The ports and port sets that exist, by address, the port timestamp and the
    events so far.  Locks are not modelled: the functions run between the locks
    they take.  [ip_check_unlock] and [ips_check_unlock] free an object without
    references, which removes it from the map. *)

From S2P Require Import Prelude PortName IpcTypes IpcMqueue IpcPort.

Definition IPS_NULL : Z := IO_NULL.

Record ipc_pset := mk_pset {
  ips_references : Z;
  ips_active : bool;
  ips_local_name : Z;
  ips_messages : ipc_mqueue
}.

#[export] Instance ipc_pset_eq_dec : EqDecision ipc_pset.
Proof. solve_decision. Defined.

Definition ips_set_references (x : Z) (s : ipc_pset) : ipc_pset :=
  mk_pset x (ips_active s) (ips_local_name s) (ips_messages s).
Definition ips_set_active (x : bool) (s : ipc_pset) : ipc_pset :=
  mk_pset (ips_references s) x (ips_local_name s) (ips_messages s).
Definition ips_set_local_name (x : Z) (s : ipc_pset) : ipc_pset :=
  mk_pset (ips_references s) (ips_active s) x (ips_messages s).
Definition ips_set_messages (x : ipc_mqueue) (s : ipc_pset) : ipc_pset :=
  mk_pset (ips_references s) (ips_active s) (ips_local_name s) x.

Definition ips_reference (s : ipc_pset) : ipc_pset := ips_set_references (u32 (ips_references s + 1)) s.
Definition ips_release (s : ipc_pset) : ipc_pset := ips_set_references (u32 (ips_references s - 1)) s.

Record world := mk_world {
  w_ports : gmap Z ipc_port;
  w_psets : gmap Z ipc_pset;
  w_stamp : Z;             (* ipc_port_timestamp_data *)
  w_log : list event       (* oldest first *)
}.

Definition put_port (p : Z) (q : ipc_port) (w : world) : world :=
  mk_world (<[p := q]> (w_ports w)) (w_psets w) (w_stamp w) (w_log w).
Definition free_port (p : Z) (w : world) : world :=
  mk_world (delete p (w_ports w)) (w_psets w) (w_stamp w) (w_log w).
Definition put_pset (p : Z) (s : ipc_pset) (w : world) : world :=
  mk_world (w_ports w) (<[p := s]> (w_psets w)) (w_stamp w) (w_log w).
Definition free_pset (p : Z) (w : world) : world :=
  mk_world (w_ports w) (delete p (w_psets w)) (w_stamp w) (w_log w).
Definition emit (evs : list event) (w : world) : world :=
  mk_world (w_ports w) (w_psets w) (w_stamp w) (w_log w ++ evs).

(** [port->field = ...]. *)
Definition port_upd (p : Z) (f : ipc_port -> ipc_port) (w : world) : option world :=
  LET q <- w_ports w !! p ;; Some (put_port p (f q) w).

(** [ip_check_unlock] and [ips_check_unlock]. *)
Definition ip_check_unlock (p : Z) (w : world) : option world :=
  LET q <- w_ports w !! p ;; Some (if ip_references q =? 0 then free_port p w else w).
Definition ips_check_unlock (p : Z) (w : world) : option world :=
  LET s <- w_psets w !! p ;; Some (if ips_references s =? 0 then free_pset p w else w).

(** [ipc_object_reference] and [ipc_object_release] of a port. *)
Definition ipc_port_reference (p : Z) (w : world) : option world :=
  LET q <- w_ports w !! p ;;
  ASSERT 0 <? ip_references q ;;
  Some (put_port p (ip_reference q) w).

Definition ipc_port_release (p : Z) (w : world) : option world :=
  LET q <- w_ports w !! p ;;
  ASSERT 0 <? ip_references q ;;
  ip_check_unlock p (put_port p (ip_release q) w).

(** ** Port sets *)

(** [ipc_mqueue_move] between the queue of a port and the queue of a set. *)
Definition ipc_pset_add (pset port : Z) (w : world) : option world :=
  LET s <- w_psets w !! pset ;;
  LET q <- w_ports w !! port ;;
  ASSERT ips_active s ;;
  ASSERT ip_active q ;;
  ASSERT ip_pset q =? IPS_NULL ;;
  let q1 := ip_set_pset pset q in
  let s1 := ips_reference s in
  (* move messages from port's queue to the port set's queue *)
  LET (mset, mport, seqno, evs) <- ipc_mqueue_move (ips_messages s1) (ip_messages q1) port (ip_seqno q1) ;;
  ASSERT bool_decide (imq_messages mport = []) ;;
  (* wake up threads waiting to receive from the port *)
  let '(mport', evs') := ipc_mqueue_changed mport MACH_RCV_PORT_CHANGED in
  ASSERT bool_decide (imq_threads mport' = []) ;;
  Some (emit (evs ++ evs')
    (put_pset pset (ips_set_messages mset s1)
      (put_port port (ip_set_seqno seqno (ip_set_messages mport' q1)) w))).

Definition ipc_pset_remove (pset port : Z) (w : world) : option world :=
  LET q <- w_ports w !! port ;;
  ASSERT ip_active q ;;
  ASSERT ip_pset q =? pset ;;
  LET s <- w_psets w !! pset ;;
  let q1 := ip_set_pset IPS_NULL q in
  let s1 := ips_release s in
  (* move messages from port set's queue to the port's queue *)
  LET (mport, mset, seqno, evs) <- ipc_mqueue_move (ip_messages q1) (ips_messages s1) port (ip_seqno q1) ;;
  Some (emit evs
    (put_pset pset (ips_set_messages mset s1)
      (put_port port (ip_set_seqno seqno (ip_set_messages mport q1)) w))).

(** [None] inside is KERN_NOT_IN_SET. *)
Definition ipc_pset_move (port nset : Z) (w : world) : option (world * option unit) :=
  LET q <- w_ports w !! port ;;
  ASSERT ip_active q ;;
  let oset := ip_pset q in
  if oset =? nset then
    (* the port is already in the new set:  a noop *)
    Some (w, if (nset =? IPS_NULL) && (oset =? IPS_NULL) then None else Some tt)
  else if oset =? IPS_NULL then
    (* just add port to the new set *)
    LET s <- w_psets w !! nset ;;
    ASSERT ips_active s ;;
    LET w1 <- ipc_pset_add nset port w ;;
    Some (w1, Some tt)
  else if nset =? IPS_NULL then
    (* just remove port from the old set *)
    LET w1 <- ipc_pset_remove oset port w ;;
    LET s <- w_psets w1 !! oset ;;
    if ips_active s then Some (w1, Some tt)
    else LET w2 <- ips_check_unlock oset w1 ;; Some (w2, None)
  else
    (* atomically move port from oset to nset *)
    LET s <- w_psets w !! nset ;;
    ASSERT ips_active s ;;
    LET w1 <- ipc_pset_remove oset port w ;;
    LET w2 <- ipc_pset_add nset port w1 ;;
    LET w3 <- ips_check_unlock oset w2 ;;
    Some (w3, Some tt).

Definition ipc_pset_destroy (pset : Z) (w : world) : option world :=
  LET s <- w_psets w !! pset ;;
  ASSERT ips_active s ;;
  let '(mset, evs) := ipc_mqueue_changed (ips_messages s) MACH_RCV_PORT_DIED in
  (* consume the ref our caller gave us *)
  ips_check_unlock pset
    (emit evs (put_pset pset (ips_release (ips_set_messages mset (ips_set_active false s))) w)).
