(* ===== verification/IpcPortOps.v ===== *)
(** * Operations on ports (ipc/ipc_port.c, ipc/ipc_port.h)

    Notifications, the destruction of messages and of kernel objects, and calls
    back into spaces are events of the world, in the order of the code. *)

From S2P Require Import Prelude PortName IpcTable IpcTypes IpcMqueue IpcPort IpcWorld.

Definition MACH_PORT_QLIMIT_DEFAULT : Z := 5.
Definition IKOT_NONE : Z := 0.
Definition IS_NULL : Z := 0.

(** ** Tagged pointers

    The low bit of [ip_pdrequest] tells a send right from a send-once right,
    the low bit of [ipr_soright] a space from a port. *)

Definition ip_pdsendp (soright : Z) : bool := negb (Z.land soright 1 =? 0).
Definition ip_pdsend (soright : Z) : Z := Z.ldiff soright 1.
Definition ip_pdsendm (sright : Z) : Z := Z.lor sright 1.
Definition ipr_spacep (soright : Z) : bool := negb (Z.land soright 1 =? 0).
Definition ipr_space (soright : Z) : Z := Z.ldiff soright 1.
Definition ipr_spacem (space : Z) : Z := Z.lor space 1.

(** ** Timestamps *)

Definition ipc_port_timestamp (w : world) : world * Z :=
  (mk_world (w_ports w) (w_psets w) (u32 (w_stamp w + 1)) (w_log w), w_stamp w).

(** [(int) (one - two) < 0] *)
Definition IP_TIMESTAMP_ORDER (one two : Z) : bool := 2 ^ 31 <=? u32 (one - two).

(** ** Requests, limits and queues *)

(** Returns the previously registered right. *)
Definition ipc_port_pdrequest (port notify : Z) (w : world) : option (world * Z) :=
  LET q <- w_ports w !! port ;;
  ASSERT ip_active q ;;
  Some (put_port port (ip_set_pdrequest notify q) w, ip_pdrequest q).

Definition ipc_port_nsrequest (port sync notify : Z) (w : world) : option (world * Z) :=
  LET q <- w_ports w !! port ;;
  ASSERT ip_active q ;;
  let previous := ip_nsrequest q in
  let mscount := ip_mscount q in
  if (ip_srights q =? 0) && (sync <=? mscount) && negb (notify =? IP_NULL) then
    Some (emit [Notify_no_senders notify mscount] (put_port port (ip_set_nsrequest IP_NULL q) w), previous)
  else Some (put_port port (ip_set_nsrequest notify q) w, previous).

(** Wakes at most [qlimit - ip_qlimit] blocked senders. *)
Definition ipc_port_set_qlimit (port qlimit : Z) (w : world) : option world :=
  LET q <- w_ports w !! port ;;
  ASSERT ip_active q ;;
  let wakeup := if ip_qlimit q <? qlimit then Z.to_nat (u32 (qlimit - ip_qlimit q)) else O in
  Some (emit ((fun th => Thread_go th MACH_MSG_SUCCESS) <$> firstn wakeup (ip_blocked q))
    (put_port port (ip_set_qlimit qlimit (ip_set_blocked (skipn wakeup (ip_blocked q)) q)) w)).

(** The queue a port uses: its own ([None]) or the one of its set. *)
Definition ipc_port_lock_mqueue (port : Z) (w : world) : option (world * option Z) :=
  LET q <- w_ports w !! port ;;
  let pset := ip_pset q in
  if negb (pset =? IPS_NULL) then
    LET s <- w_psets w !! pset ;;
    if ips_active s then Some (w, Some pset)
    else
      LET w1 <- ipc_pset_remove pset port w ;;
      LET w2 <- ips_check_unlock pset w1 ;;
      Some (w2, None)
  else Some (w, None).

Definition ipc_port_set_seqno (port seqno : Z) (w : world) : option world :=
  LET (w1, _) <- ipc_port_lock_mqueue port w ;;
  port_upd port (ip_set_seqno seqno) w1.

Definition ipc_port_set_mscount (port mscount : Z) (w : world) : option world :=
  LET q <- w_ports w !! port ;;
  ASSERT ip_active q ;;
  Some (put_port port (ip_set_mscount mscount q) w).

Definition ipc_port_clear_receiver (port : Z) (w : world) : option world :=
  LET q <- w_ports w !! port ;;
  ASSERT ip_active q ;;
  let pset := ip_pset q in
  LET w1 <-
    (if negb (pset =? IPS_NULL) then
       (* No threads receiving from port, but must remove from set. *)
       LET w' <- ipc_pset_remove pset port w ;;
       ips_check_unlock pset w'
     else
       (* Else, wake up all receivers, indicating why. *)
       let '(mq, evs) := ipc_mqueue_changed (ip_messages q) MACH_RCV_PORT_DIED in
       Some (emit evs (put_port port (ip_set_messages mq q) w))) ;;
  LET w2 <- ipc_port_set_mscount port 0 w1 ;;
  port_upd port (ip_set_seqno 0) w2.

(** ** Allocation *)

(** Leaves the fields of the object, here the references, the activity and the
    kernel type. *)
Definition ipc_port_init (q : ipc_port) (space name : Z) : ipc_port :=
  mk_port (ip_references q) (ip_active q) (ip_kotype q) name ipc_mqueue_init space
    0 0 0 IP_NULL IP_NULL None
    IPS_NULL 0 0 MACH_PORT_QLIMIT_DEFAULT [].

(** [mem] is the address [io_alloc] returns, with what the memory holds. *)
Definition ipc_port_alloc_special (space : Z) (mem : option (Z * ipc_port)) (w : world) : world * Z :=
  match mem with
  | None => (w, IP_NULL)
  | Some (port, q) =>
      let q1 := mk_port 1 true 0 (ip_receiver_name q) (ip_messages q) (ip_data q)
        (ip_mscount q) (ip_srights q) (ip_sorights q) (ip_nsrequest q) (ip_pdrequest q) (ip_dnrequests q)
        (ip_pset q) (ip_seqno q) (ip_msgcount q) (ip_qlimit q) (ip_blocked q) in
      (put_port port (ipc_port_init q1 space port) w, port)
  end.

(** ** Naked rights *)

Definition ipc_port_make_send (port : Z) (w : world) : option (world * Z) :=
  ASSERT IP_VALID port ;;
  LET q <- w_ports w !! port ;;
  ASSERT ip_active q ;;
  let q1 := ip_set_mscount (u32 (ip_mscount q + 1)) q in
  let q2 := ip_set_srights (u32 (ip_srights q1 + 1)) q1 in
  Some (put_port port (ip_reference q2) w, port).

Definition ipc_port_copy_send (port : Z) (w : world) : option (world * Z) :=
  if negb (IP_VALID port) then Some (w, port)
  else
    LET q <- w_ports w !! port ;;
    if ip_active q then
      ASSERT 0 <? ip_srights q ;;
      let q1 := ip_reference q in
      Some (put_port port (ip_set_srights (u32 (ip_srights q1 + 1)) q1) w, port)
    else Some (w, IP_DEAD).

Definition ipc_port_release_send (port : Z) (w : world) : option world :=
  ASSERT IP_VALID port ;;
  LET q0 <- w_ports w !! port ;;
  let q := ip_release q0 in
  if negb (ip_active q) then ip_check_unlock port (put_port port q w)
  else
    ASSERT 0 <? ip_srights q ;;
    let q1 := ip_set_srights (u32 (ip_srights q - 1)) q in
    let nsrequest := if ip_srights q1 =? 0 then ip_nsrequest q1 else IP_NULL in
    let q2 := if negb (nsrequest =? IP_NULL) then ip_set_nsrequest IP_NULL q1 else q1 in
    let w1 := put_port port q2 w in
    Some (if negb (nsrequest =? IP_NULL) then emit [Notify_no_senders nsrequest (ip_mscount q1)] w1 else w1).

Definition ipc_port_make_sonce (port : Z) (w : world) : option (world * Z) :=
  ASSERT IP_VALID port ;;
  LET q <- w_ports w !! port ;;
  ASSERT ip_active q ;;
  Some (put_port port (ip_reference (ip_set_sorights (u32 (ip_sorights q + 1)) q)) w, port).

Definition ipc_port_release_sonce (port : Z) (w : world) : option world :=
  ASSERT IP_VALID port ;;
  LET q <- w_ports w !! port ;;
  ASSERT 0 <? ip_sorights q ;;
  let q1 := ip_release (ip_set_sorights (u32 (ip_sorights q - 1)) q) in
  let w1 := put_port port q1 w in
  if negb (ip_active q1) then ip_check_unlock port w1 else Some w1.

(** Returns the caller's name for the port, if he is the receiver. *)
Definition ipc_port_copyout_receiver (port space : Z) (w : world) : option (world * Z) :=
  if negb (IP_VALID port) then Some (w, MACH_PORT_NULL)
  else
    LET q <- w_ports w !! port ;;
    LET name <-
      (if ip_receiver q =? space then
         ASSERT MACH_PORT_VALID (ip_receiver_name q) ;; Some (ip_receiver_name q)
       else Some MACH_PORT_NULL) ;;
    LET w1 <- ip_check_unlock port (put_port port (ip_release q) w) ;;
    Some (w1, name).

(** ** Ports in transit *)

Definition in_transit (q : ipc_port) : bool :=
  ip_active q && (ip_receiver_name q =? MACH_PORT_NULL) && negb (ip_destination q =? IP_NULL).

(** The end of the chain of destinations from [base]. *)
Fixpoint chain_end (fuel : nat) (w : world) (base : Z) : option Z :=
  match fuel with
  | O => None
  | S fuel' =>
      LET q <- w_ports w !! base ;;
      if in_transit q then chain_end fuel' w (ip_destination q) else Some base
  end.

(** The loops that unlock a chain assert that its ports are in transit. *)
Fixpoint unlock_circular (fuel : nat) (w : world) (dest : Z) : option unit :=
  if dest =? IP_NULL then Some tt
  else
    match fuel with
    | O => None
    | S fuel' =>
        LET q <- w_ports w !! dest ;;
        ASSERT ip_active q ;;
        ASSERT ip_receiver_name q =? MACH_PORT_NULL ;;
        unlock_circular fuel' w (ip_destination q)
    end.

Fixpoint unlock_chain (fuel : nat) (w : world) (port base : Z) : option unit :=
  if port =? base then Some tt
  else
    match fuel with
    | O => None
    | S fuel' =>
        LET q <- w_ports w !! port ;;
        ASSERT ip_active q ;;
        ASSERT ip_receiver_name q =? MACH_PORT_NULL ;;
        ASSERT negb (ip_destination q =? IP_NULL) ;;
        unlock_chain fuel' w (ip_destination q) base
    end.

(** The part after the label [not_circular]. *)
Definition link_transit (fuel : nat) (w : world) (port dest base : Z) : option (world * bool) :=
  LET q <- w_ports w !! port ;;
  (* port is in limbo *)
  ASSERT ip_active q ;;
  ASSERT ip_receiver_name q =? MACH_PORT_NULL ;;
  ASSERT ip_destination q =? IP_NULL ;;
  LET w1 <- port_upd dest ip_reference w ;;
  LET w2 <- port_upd port (ip_set_data dest) w1 ;;
  (* now unlock chain *)
  LET _ <- unlock_chain fuel w2 port base ;;
  (* base is not in transit *)
  LET b <- w_ports w2 !! base ;;
  ASSERT negb (in_transit b) ;;
  Some (w2, false).

(** [try] is whether [ip_lock_try] gets the lock of [dest].  A chain has no
    more ports than there are. *)
Definition ipc_port_check_circularity (try : bool) (port dest : Z) (w : world) : option (world * bool) :=
  let fuel := S (size (w_ports w)) in
  ASSERT negb (port =? IP_NULL) ;;
  ASSERT negb (dest =? IP_NULL) ;;
  if port =? dest then Some (w, true)
  else
    LET d <- w_ports w !! dest ;;
    if try && negb (in_transit d) then link_transit fuel w port dest dest
    else
      LET base <- chain_end fuel w dest ;;
      if port =? base then
        (* circularity detected! *)
        LET q <- w_ports w !! port ;;
        ASSERT ip_active q ;;
        ASSERT ip_receiver_name q =? MACH_PORT_NULL ;;
        ASSERT ip_destination q =? IP_NULL ;;
        LET _ <- unlock_circular fuel w dest ;;
        Some (w, true)
      else link_transit fuel w port dest base.

(** ** Destruction *)

(** The messages left in the queue of a dead port. *)
Fixpoint destroy_messages (port : Z) (ms : list kmsg) (w : world) : option world :=
  match ms with
  | [] => Some w
  | m :: rest =>
      ASSERT msgh_remote_port m =? port ;;
      LET w1 <- ipc_port_release port w ;;
      destroy_messages port rest
        (emit [Kmsg_destroy (kmsg_set_remote MACH_PORT_NULL m)] w1)
  end.

(** The notifications for the elements of the request table from [index] on. *)
Definition dead_name_event (port index : Z) (slots : list ipc_port_request) : option (list event) :=
  LET ipr <- aget slots index ;;
  let name := ipr_name ipr in
  if name =? MACH_PORT_NULL then Some []
  else
    let soright := ipr_soright ipr in
    ASSERT negb (soright =? IP_NULL) ;;
    if ipr_spacep soright then Some [Delete_compat port (ipr_space soright) name]
    else Some [Notify_dead_name soright name].

Definition dead_name_events (dits : list Z) (port : Z) (dnrequests : option dntable) : option (list event) :=
  match dnrequests with
  | None => Some []
  | Some tb =>
      LET head <- aget (dnt_slots tb) 0 ;;
      LET size <- aget dits (ipr_size head) ;;
      for_up (Z.to_nat (size - 1)) 1
        (fun index evs => LET e <- dead_name_event port index (dnt_slots tb) ;; Some (evs ++ e)) []
  end.

(** What is left to do when there is no backup port. *)
Definition destroy_port (dits : list Z) (port : Z) (w : world) : option world :=
  LET q <- w_ports w !! port ;;
  (* rouse all blocked senders *)
  let w1 := emit ((fun th => Thread_go th MACH_MSG_SUCCESS) <$> ip_blocked q) w in
  (* once port is dead, we don't need to keep it locked *)
  let '(w2, timestamp) := ipc_port_timestamp w1 in
  let w3 := put_port port (ip_set_data timestamp (ip_set_active false (ip_set_blocked [] q))) w2 in
  (* throw away no-senders request *)
  let nsrequest := ip_nsrequest q in
  let w4 := if negb (nsrequest =? IP_NULL) then emit [Notify_send_once nsrequest] w3 else w3 in
  (* destroy any queued messages *)
  ASSERT bool_decide (imq_threads (ip_messages q) = []) ;;
  LET w5 <- port_upd port (ip_set_messages (mk_mqueue [] (imq_threads (ip_messages q)))) w4 ;;
  LET w6 <- destroy_messages port (imq_messages (ip_messages q)) w5 ;;
  (* generate dead-name notifications *)
  LET evs <- dead_name_events dits port (ip_dnrequests q) ;;
  let w7 := emit evs w6 in
  let w8 := if negb (ip_kotype q =? IKOT_NONE) then emit [Kobject_destroy port] w7 else w7 in
  ipc_port_release port w8. (* consume caller's ref *)

(** [try] is for [ipc_port_check_circularity]. *)
Definition ipc_port_destroy (dits : list Z) (try : bool) (port : Z) (w : world) : option world :=
  LET q <- w_ports w !! port ;;
  ASSERT ip_active q ;;
  ASSERT ip_pset q =? IPS_NULL ;;
  ASSERT ip_mscount q =? 0 ;;
  ASSERT ip_seqno q =? 0 ;;
  (* first check for a backup port *)
  let pdrequest := ip_pdrequest q in
  if negb (pdrequest =? IP_NULL) then
    (* make port be in limbo *)
    let w1 := put_port port (ip_set_data IP_NULL (ip_set_receiver_name MACH_PORT_NULL
      (ip_set_pdrequest IP_NULL q))) w in
    LET (w2, sent) <-
      (if ip_pdsendp pdrequest then
         let sright := ip_pdsend pdrequest in
         LET (w', circular) <- ipc_port_check_circularity try port sright w1 ;;
         if negb circular then Some (emit [Notify_port_destroyed_compat sright port] w', true)
         else LET w'' <- ipc_port_release_send sright w' ;; Some (w'', false)
       else
         LET (w', circular) <- ipc_port_check_circularity try port pdrequest w1 ;;
         if negb circular then Some (emit [Notify_port_destroyed pdrequest port] w', true)
         else LET w'' <- ipc_port_release_sonce pdrequest w' ;; Some (w'', false)) ;;
    if sent : bool then Some w2
    else
      LET q2 <- w_ports w2 !! port ;;
      ASSERT ip_active q2 ;;
      ASSERT ip_pset q2 =? IPS_NULL ;;
      ASSERT ip_mscount q2 =? 0 ;;
      ASSERT ip_seqno q2 =? 0 ;;
      ASSERT ip_pdrequest q2 =? IP_NULL ;;
      ASSERT ip_receiver_name q2 =? MACH_PORT_NULL ;;
      ASSERT ip_destination q2 =? IP_NULL ;;
      destroy_port dits port w2
  else destroy_port dits port w.

Definition ipc_port_release_receive (dits : list Z) (try : bool) (port : Z) (w : world) : option world :=
  ASSERT IP_VALID port ;;
  LET q <- w_ports w !! port ;;
  ASSERT ip_active q ;;
  ASSERT ip_receiver_name q =? MACH_PORT_NULL ;;
  let dest := ip_destination q in
  LET w1 <- ipc_port_destroy dits try port w ;;
  if negb (dest =? IP_NULL) then ipc_port_release dest w1 else Some w1.

Definition ipc_port_dealloc_special (dits : list Z) (try : bool) (port space : Z) (w : world) : option world :=
  LET q <- w_ports w !! port ;;
  ASSERT ip_active q ;;
  ASSERT negb (ip_receiver_name q =? MACH_PORT_NULL) ;;
  ASSERT ip_receiver q =? space ;;
  let w1 := put_port port (ip_set_data IS_NULL (ip_set_receiver_name MACH_PORT_NULL q)) w in
  LET w2 <- ipc_port_clear_receiver port w1 ;;
  ipc_port_destroy dits try port w2.
