(* ===== verification/IpcCircular.v ===== *)
(** * Ports in transit never form a circle

    The receive right of a port in transit is in a message queued at its
    destination.  [ipc_port_check_circularity] keeps the graph of destinations
    acyclic, without which queued ports would keep each other alive. *)

From S2P Require Import Prelude PortName IpcTable IpcTypes IpcMqueue IpcPort IpcWorld.
From S2P Require Import IpcPortOps.

Section Circular.
Implicit Types (w : world) (p q base dest port : Z).

(** [q] is the destination of the port [p] in transit. *)
Definition transit w p q : Prop :=
  exists x, w_ports w !! p = Some x /\ in_transit x = true /\ ip_destination x = q.

Definition transit_ok w : Prop :=
  (forall p, ~ tc (transit w) p p) /\ (forall p q, transit w p q -> is_Some (w_ports w !! q)) /\
  w_ports w !! IP_NULL = None.

(** Active, but neither in a space nor in transit. *)
Definition in_limbo (x : ipc_port) : Prop :=
  ip_active x = true /\ ip_receiver_name x = MACH_PORT_NULL /\ ip_destination x = IP_NULL.

Lemma in_limbo_not_transit x : in_limbo x -> in_transit x = false.
Proof. intros (Ha & Hn & Hd). unfold in_transit. by rewrite Ha, Hn, Hd. Qed.

Lemma transit_fun w p q q' : transit w p q -> transit w p q' -> q = q'.
Proof. intros (x & Hx & _ & <-) (x' & Hx' & _ & <-). congruence. Qed.

Lemma in_transit_fields x : in_transit x = true ->
  ip_active x = true /\ ip_receiver_name x = MACH_PORT_NULL /\ ip_destination x <> IP_NULL.
Proof.
  unfold in_transit. intros H. apply andb_true_iff in H as [[Ha Hr]%andb_true_iff Hd].
  apply Z.eqb_eq in Hr. apply negb_true_iff, Z.eqb_neq in Hd. done.
Qed.

(** ** Walking a chain

    [visited] are the ports before [base]; there are no more than ports. *)

Lemma visited_bound w (visited : list Z) :
  NoDup visited -> (forall p, p ∈ visited -> is_Some (w_ports w !! p)) ->
  (length visited <= size (w_ports w))%nat.
Proof.
  intros Hnd Hin. rewrite <- size_dom, <- (size_list_to_set (C := gset Z)) by done. apply subseteq_size.
  intros p Hp%elem_of_list_to_set. apply elem_of_dom. by apply Hin.
Qed.

Section Walk.
Context (w : world) (Hok : transit_ok w).

(** The invariant of the walks from [dest]. *)
Definition walked (visited : list Z) base : Prop :=
  NoDup visited /\ forall p, p ∈ visited -> is_Some (w_ports w !! p) /\ tc (transit w) p base.

Lemma walked_step visited base q :
  walked visited base -> transit w base q -> walked (base :: visited) q.
Proof using Hok.
  intros (Hnd & Hv) Hbq. destruct Hok as (Hac & Hcl & _). split.
  - constructor; [|done]. intros Hin. by destruct (Hv base Hin) as [_ ?%Hac].
  - intros p [->|Hp]%elem_of_cons.
    + split; [by destruct Hbq as (x & ? & _)|by apply tc_once].
    + destruct (Hv p Hp). split; [done|]. by eapply tc_r.
Qed.

Lemma chain_end_spec fuel visited base :
  walked visited base -> is_Some (w_ports w !! base) ->
  (S (size (w_ports w)) <= fuel + length visited)%nat ->
  exists b x, chain_end fuel w base = Some b /\ rtc (transit w) base b /\
    w_ports w !! b = Some x /\ in_transit x = false.
Proof using Hok.
  revert visited base. induction fuel as [|fuel IH]; intros visited base Hw [x Hx] Hf.
  - pose proof (visited_bound w visited (proj1 Hw) (fun p Hp => proj1 (proj2 Hw p Hp))). lia.
  - cbn [chain_end]. rewrite Hx. destruct (in_transit x) eqn:Ht; [|exists base, x; by split_and!; [|apply rtc_refl|..]].
    assert (transit w base (ip_destination x)) as Hbq by (by exists x).
    destruct (IH (base :: visited) (ip_destination x)) as (b & y & ? & ? & ? & ?).
    + by apply walked_step.
    + destruct Hok as (_ & Hcl & _). by eapply Hcl.
    + cbn. lia.
    + exists b, y. split_and!; try done. by eapply rtc_l.
Qed.

Lemma unlock_chain_spec fuel visited port base :
  walked visited port -> rtc (transit w) port base ->
  (S (size (w_ports w)) <= fuel + length visited)%nat ->
  unlock_chain fuel w port base = Some tt.
Proof using Hok.
  revert visited port. induction fuel as [|fuel IH]; intros visited port Hw Hr Hf.
  - pose proof (visited_bound w visited (proj1 Hw) (fun p Hp => proj1 (proj2 Hw p Hp))). lia.
  - cbn [unlock_chain]. destruct (Z.eqb_spec port base); [done|].
    destruct Hr as [|p q b Hpq Hr]; [done|]. pose proof Hpq as (x & Hx & Ht & Hd).
    destruct (in_transit_fields x Ht) as (Ha & Hn & Hne). rewrite Hx, Ha, Hn.
    rewrite (proj2 (Z.eqb_neq _ _) Hne). cbn. rewrite Hd.
    apply (IH (p :: visited)); [by apply walked_step|done|cbn; lia].
Qed.

Lemma unlock_circular_spec fuel visited dest b y :
  walked visited dest -> rtc (transit w) dest b -> w_ports w !! b = Some y -> in_limbo y ->
  (S (size (w_ports w)) <= fuel + length visited)%nat ->
  unlock_circular fuel w dest = Some tt.
Proof using Hok.
  intros Hw Hr Hy Hl. revert visited dest Hw Hr.
  induction fuel as [|fuel IH]; intros visited dest Hw Hr Hf.
  - pose proof (visited_bound w visited (proj1 Hw) (fun p Hp => proj1 (proj2 Hw p Hp))). lia.
  - cbn [unlock_circular]. destruct (Z.eqb_spec dest IP_NULL); [done|].
    destruct Hr as [|p q b Hpq Hr].
    + rewrite Hy. destruct Hl as (-> & -> & ->). cbn. by destruct fuel.
    + pose proof Hpq as (x & Hx & Ht & Hd). destruct (in_transit_fields x Ht) as (Ha & Hn & Hne).
      rewrite Hx, Ha, Hn, Hd. cbn. apply (IH (p :: visited)); [by apply walked_step|done|cbn; lia].
Qed.

Lemma walked_nil base : walked [] base.
Proof using. split; [constructor|]. by intros p ?%elem_of_nil. Qed.
End Walk.

(** Two ports at the end of chains from the same port are the same. *)
Lemma chain_end_unique w p b b' x x' :
  rtc (transit w) p b -> rtc (transit w) p b' ->
  w_ports w !! b = Some x -> in_transit x = false ->
  w_ports w !! b' = Some x' -> in_transit x' = false -> b = b'.
Proof.
  intros Hb Hb' Hx Ht Hx' Ht'. induction Hb as [p|p q b Hpq Hb IH].
  - destruct Hb' as [|p q b' (y & Hy & Hty & _) _]; [done|]. congruence.
  - destruct Hb' as [p|p q' b' Hpq' Hb'].
    + destruct Hpq as (y & Hy & Hty & _). congruence.
    + apply IH; [|done..]. by rewrite (transit_fun _ _ _ _ Hpq Hpq').
Qed.

(** ** Adding a port to a chain *)

Section Link.
Context (w : world) (port dest : Z) (x d : ipc_port).
Context (Hok : transit_ok w) (Hx : w_ports w !! port = Some x) (Hd : w_ports w !! dest = Some d).
Context (Hl : in_limbo x) (Hne : port <> dest) (Hfree : ~ rtc (transit w) dest port).

Definition linked : world :=
  put_port port (ip_set_data dest x) (put_port dest (ip_reference d) w).

Lemma linked_port : w_ports linked !! port = Some (ip_set_data dest x).
Proof using. apply lookup_insert_eq. Qed.

Lemma linked_dest : w_ports linked !! dest = Some (ip_reference d).
Proof using Hne. unfold linked. cbn. rewrite lookup_insert_ne by done. apply lookup_insert_eq. Qed.

Lemma linked_other p : p <> port -> p <> dest -> w_ports linked !! p = w_ports w !! p.
Proof using. intros. unfold linked. cbn. by rewrite !lookup_insert_ne. Qed.

Lemma dest_not_null : dest <> IP_NULL.
Proof using Hok Hd. intros E. destruct Hok as (_ & _ & Hn). rewrite <- E, Hd in Hn. discriminate Hn. Qed.

Lemma linked_transit p q : transit linked p q <-> transit w p q \/ (p = port /\ q = dest).
Proof using All.
  pose proof (in_limbo_not_transit x Hl) as Hnt.
  destruct (decide (p = port)) as [->|Hp].
  - split.
    + intros (y & Hy & _ & <-). rewrite linked_port in Hy. injection Hy as <-. by right.
    + intros [(y & Hy & Ht & _)|[_ ->]]; [congruence|].
      eexists. split_and!; [apply linked_port| |done]. destruct Hl as (Ha & Hn & _).
      unfold in_transit. cbn. rewrite Ha, Hn. by rewrite (proj2 (Z.eqb_neq _ _) dest_not_null).
  - transitivity (transit w p q); [|naive_solver]. unfold transit.
    destruct (decide (p = dest)) as [->|].
    + rewrite linked_dest, Hd. split; intros (y & [= <-] & ?); eauto.
    + by rewrite linked_other.
Qed.

(** A path of the new graph avoids the new edge or ends behind it. *)
Lemma linked_path p q : tc (transit linked) p q -> tc (transit w) p q \/
  (rtc (transit w) p port /\ rtc (transit w) dest q).
Proof using All.
  induction 1 as [p q Hpq|p q r Hpq Hqr IH].
  - apply linked_transit in Hpq as [?|[-> ->]]; [left; by apply tc_once|right; split; apply rtc_refl].
  - apply linked_transit in Hpq as [Hpq|[-> ->]].
    + destruct IH as [?|[??]]; [left; by eapply tc_l|right; split; [by eapply rtc_l|done]].
    + destruct IH as [?|[? _]]; [|by destruct Hfree]. right. split; [apply rtc_refl|by apply tc_rtc].
Qed.

Lemma linked_ok : transit_ok linked.
Proof using All.
  pose proof Hok as (Hac & Hcl & Hn). split_and!.
  - intros p [?%Hac|[Hp Hq]]%linked_path; [done|]. apply Hfree. by etrans.
  - assert (forall q, is_Some (w_ports w !! q) -> is_Some (w_ports linked !! q)) as Hmono.
    { intros q ?. destruct (decide (q = port)) as [->|]; [by rewrite linked_port|].
      destruct (decide (q = dest)) as [->|]; [by rewrite linked_dest|by rewrite linked_other]. }
    intros p q [?|[-> ->]]%linked_transit; apply Hmono; [by eapply Hcl|done].
  - rewrite linked_other; [done| |]; intros <-; congruence.
Qed.

Lemma linked_size : size (w_ports linked) = size (w_ports w).
Proof using Hx Hd Hne.
  unfold linked. cbn. rewrite !map_size_insert_Some; [done|by rewrite Hd|].
  rewrite lookup_insert_ne by done. by rewrite Hx.
Qed.

(** From the end of the chain of [dest] no assertion of the unlocking fails. *)
Lemma link_transit_spec base b : rtc (transit w) dest base -> w_ports w !! base = Some b ->
  in_transit b = false -> link_transit (S (size (w_ports w))) w port dest base = Some (linked, false).
Proof using All.
  intros Hr Hb Ht. pose proof Hl as (Ha & Hn & Hdn). unfold link_transit, port_upd. rewrite Hx, Ha, Hn, Hdn, !Z.eqb_refl, Hd.
  change (w_ports (put_port dest _ w)) with (<[dest := ip_reference d]> (w_ports w)).
  rewrite lookup_insert_ne, Hx by done. fold linked.
  assert (base <> port) as Hbp by (intros ->; done).
  rewrite (unlock_chain_spec linked linked_ok _ [] port base (walked_nil _ _)).
  - assert (exists b', w_ports linked !! base = Some b' /\ in_transit b' = false) as (b' & Hb' & Ht').
    { destruct (decide (base = dest)) as [->|]; [|rewrite linked_other by done; eauto].
      rewrite linked_dest. eexists. split; [done|]. by simplify_map_eq. }
    by rewrite Hb', Ht'.
  - eapply rtc_l; [apply linked_transit; by right|]. eapply rtc_subrel; [|exact Hr].
    intros p q ?. apply linked_transit. by left.
  - rewrite linked_size. cbn. lia.
Qed.
End Link.

Lemma check_circularity_spec try w port dest x d :
  transit_ok w -> w_ports w !! port = Some x -> in_limbo x -> w_ports w !! dest = Some d ->
  (port = dest \/ rtc (transit w) dest port) /\ ipc_port_check_circularity try port dest w = Some (w, true) \/
  port <> dest /\ ~ rtc (transit w) dest port /\
    ipc_port_check_circularity try port dest w = Some (linked w port dest x d, false).
Proof.
  intros Hok Hx Hl Hd. pose proof Hok as (_ & _ & Hnull). unfold ipc_port_check_circularity.
  destruct (Z.eqb_spec port IP_NULL); [congruence|]. destruct (Z.eqb_spec dest IP_NULL); [congruence|]. cbn [negb].
  destruct (Z.eqb_spec port dest) as [->|Hne]; [by left; eauto|]. rewrite Hd.
  pose proof (in_limbo_not_transit x Hl) as Hnt.
  destruct (chain_end_spec w Hok (S (size (w_ports w))) [] dest (walked_nil _ _)) as (b & y & Hce & Hr & Hy & Hty);
    [done|cbn; lia|].
  assert (rtc (transit w) dest port <-> b = port) as Hiff.
  { split; [|by intros <-]. intros Hp. by eapply chain_end_unique. }
  destruct (try && negb (in_transit d)) eqn:Hq.
  - apply andb_true_iff in Hq as [_ Hq%negb_true_iff].
    assert (b = dest) as ->. { eapply chain_end_unique; [exact Hr|apply rtc_refl|done..]. }
    right. rewrite Hiff. split_and!; [done|congruence|]. eapply link_transit_spec; try done.
    rewrite Hiff. congruence.
  - rewrite Hce. destruct (Z.eqb_spec port b) as [<-|Hb].
    + left. split; [by right|]. rewrite Hx. pose proof Hl as (-> & -> & ->). cbn [Z.eqb].
      by rewrite (unlock_circular_spec w Hok _ [] dest port x (walked_nil _ _)) by (done || cbn; lia).
    + right. rewrite Hiff. split_and!; [done|congruence|]. eapply link_transit_spec; try done.
      rewrite Hiff. congruence.
Qed.
End Circular.

(** ** Theorem *)

(** C40: [ipc_port_check_circularity] for a port in limbo terminates, whether or
    not the quick check gets its lock, and keeps the ports in transit free of
    circles: it answers TRUE exactly when the port is the destination or at the
    end of the destination's chain, changing nothing, and otherwise puts the
    port in transit to the destination, which gains one reference. *)
Theorem check_circularity_acyclic w port dest x d :
  transit_ok w -> w_ports w !! port = Some x -> in_limbo x -> w_ports w !! dest = Some d ->
  exists w' circular,
    (forall try, ipc_port_check_circularity try port dest w = Some (w', circular)) /\ transit_ok w' /\
    (circular = true <-> port = dest \/ rtc (transit w) dest port) /\
    (circular = true -> w' = w) /\
    (circular = false -> transit w' port dest /\
       w_ports w' !! dest = Some (ip_reference d) /\
       forall p, p <> port -> p <> dest -> w_ports w' !! p = w_ports w !! p).
Proof.
  intros Hok Hx Hl Hd.
  destruct (check_circularity_spec true w port dest x d Hok Hx Hl Hd) as [[Hc H1]|(Hne & Hc & H1)];
    destruct (check_circularity_spec false w port dest x d Hok Hx Hl Hd) as [[Hc' H2]|(Hne' & Hc' & H2)];
    try tauto.
  - exists w, true. split_and!; try done. by intros [].
  - exists (linked w port dest x d), false. split_and!; try done; [by intros []|by apply linked_ok|naive_solver|].
    intros _. split_and!; [|by apply linked_dest|by apply linked_other].
    apply (linked_transit w port dest x d); try done. by right.
Qed.

(** Port 16 is in limbo; port 32 is in transit to port 48. *)
Definition limbo_port : ipc_port := mk_port 1 true 0 0 ipc_mqueue_init 0 0 0 0 0 0 None 0 0 0 5 [].
Definition transit_world : world :=
  mk_world (<[16 := limbo_port]> (<[32 := ip_set_data 48 limbo_port]> {[48 := ip_set_receiver_name 5 limbo_port]}))
    ∅ 0 [].

Lemma transit_world_edge p q : transit transit_world p q <-> p = 32 /\ q = 48.
Proof.
  split.
  - intros (y & Hy & Ht & <-). unfold transit_world in Hy. cbn in Hy.
    apply lookup_insert_Some in Hy as [[<- <-]|[_ Hy]]; [done|].
    apply lookup_insert_Some in Hy as [[<- <-]|[_ Hy]]; [done|].
    apply lookup_singleton_Some in Hy as [<- <-]. done.
  - intros [-> ->]. by exists (ip_set_data 48 limbo_port).
Qed.

Lemma transit_world_ok : transit_ok transit_world.
Proof.
  split_and!; [|intros p q [-> ->]%transit_world_edge; by eexists|done].
  assert (forall p q, tc (transit transit_world) p q -> p = 32 /\ q = 48) as Htc.
  { induction 1 as [p q ?%transit_world_edge|p q r [_ ->]%transit_world_edge _ [? _]]; done. }
  by intros p [-> E]%Htc.
Qed.

Lemma check_circularity_acyclic_witness :
  exists w' circular,
    (forall try, ipc_port_check_circularity try 16 32 transit_world = Some (w', circular)) /\ transit_ok w' /\
    (circular = true <-> 16 = 32 \/ rtc (transit transit_world) 32 16) /\
    (circular = true -> w' = transit_world) /\
    (circular = false -> transit w' 16 32 /\
       w_ports w' !! 32 = Some (ip_reference (ip_set_data 48 limbo_port)) /\
       forall p, p <> 16 -> p <> 32 -> w_ports w' !! p = w_ports transit_world !! p).
Proof.
  apply (check_circularity_acyclic transit_world 16 32 limbo_port); [exact transit_world_ok|done..].
Defined.
