(* ===== verification/IpcRight.v ===== *)
(** * Rights (ipc/ipc_right.c, ipc/ipc_right.h)

    The functions that act on the right an entry denotes: they work on a
    capability space through the interface of [IpcCap] and on the ports and
    port sets of [IpcWorld].  Locks are not modelled; what other threads may do
    while [ipc_right_dnrequest] has none is an argument of it. *)

From S2P Require Import Prelude PortName IpcTable IpcTypes IpcMqueue IpcPort IpcWorld.
From S2P Require Import IpcPortOps IpcSpaceInv IpcCap.

Record rstate (S : Type) := mk_rstate { r_space : S; r_world : world }.
Arguments mk_rstate {S}.
Arguments r_space {S}.
Arguments r_world {S}.

(** [bits & mask] as a condition. *)
Definition bit (bits mask : Z) : bool := negb (Z.land bits mask =? 0).

Section Rights.
Context {S : Type} {CS : CapSpace S}.

(** ** Memory accesses *)

Definition with_space (s : S) (st : rstate S) : rstate S := mk_rstate s (r_world st).
Definition with_world (w : world) (st : rstate S) : rstate S := mk_rstate (r_space st) w.

Definition self (st : rstate S) : Z := cs_self (r_space st).
Definition log (evs : list event) (st : rstate S) : rstate S := with_world (emit evs (r_world st)) st.

(** [entry->field = x] *)
Definition entry_upd (ref : entry_ref) (f : eview -> eview) (st : rstate S) : option (rstate S) :=
  LET v <- cs_entry (r_space st) ref ;;
  LET s <- cs_store (r_space st) ref (f v) ;;
  Some (with_space s st).

Definition on_world (f : world -> option world) (st : rstate S) : option (rstate S) :=
  LET w <- f (r_world st) ;; Some (with_world w st).

Definition hash_insert (obj name : Z) (ref : entry_ref) (st : rstate S) : option (rstate S) :=
  LET s <- cs_hash_insert (r_space st) obj name ref ;; Some (with_space s st).
Definition hash_delete (obj name : Z) (ref : entry_ref) (st : rstate S) : option (rstate S) :=
  LET s <- cs_hash_delete (r_space st) obj name ref ;; Some (with_space s st).
Definition entry_dealloc (name : Z) (ref : entry_ref) (st : rstate S) : option (rstate S) :=
  LET s <- cs_dealloc (r_space st) name ref ;; Some (with_space s st).

(** [entry->ie_object = IO_NULL; ipc_entry_dealloc(space, name, entry)] *)
Definition drop_entry (name : Z) (ref : entry_ref) (st : rstate S) : option (rstate S) :=
  LET st1 <- entry_upd ref (v_set_object IO_NULL) st ;; entry_dealloc name ref st1.

(** [if (bits & IE_BITS_MAREQUEST) ipc_marequest_cancel(space, name)] *)
Definition cancel_marequest (bits name : Z) (st : rstate S) : rstate S :=
  if bit bits IE_BITS_MAREQUEST then log [Marequest_cancel (self st) name] st else st.

(** [if (nsrequest != IP_NULL) ipc_notify_no_senders(nsrequest, mscount)] *)
Definition notify_no_senders (ns : Z * Z) (st : rstate S) : rstate S :=
  if negb (ns.1 =? IP_NULL) then log [Notify_no_senders ns.1 ns.2] st else st.

(** [if (dnrequest != IP_NULL) ipc_notify_port_deleted(dnrequest, name)] *)
Definition notify_port_deleted (dnrequest name : Z) (st : rstate S) : rstate S :=
  if negb (dnrequest =? IP_NULL) then log [Notify_port_deleted dnrequest name] st else st.

(** [if (--port->ip_srights == 0) { ... }]: the request and make-send count of a
    no-senders notification to send. *)
Definition dec_srights (q : ipc_port) : ipc_port * (Z * Z) :=
  let q1 := ip_set_srights (u32 (ip_srights q - 1)) q in
  if ip_srights q1 =? 0 then
    let nsrequest := ip_nsrequest q1 in
    if negb (nsrequest =? IP_NULL) then (ip_set_nsrequest IP_NULL q1, (nsrequest, ip_mscount q1))
    else (q1, (IP_NULL, 0))
  else (q1, (IP_NULL, 0)).

Definition drop_srights (port : Z) (st : rstate S) : option (rstate S * (Z * Z)) :=
  LET q <- w_ports (r_world st) !! port ;;
  ASSERT 0 <? ip_srights q ;;
  let '(q', ns) := dec_srights q in
  Some (with_world (put_port port q' (r_world st)) st, ns).

(** ** Looking up *)

Definition ipc_right_lookup_write (st : rstate S) (name : Z) : option (rstate S * (kern_return + entry_ref)) :=
  if negb (cs_active (r_space st)) then Some (st, inl KERN_INVALID_TASK)
  else
    LET (s, res) <- cs_lookup (r_space st) name ;;
    Some (with_space s st, match res with Some ref => inr ref | None => inl KERN_INVALID_NAME end).

(** Returns the name and the entry, for TRUE. *)
Definition ipc_right_reverse (st : rstate S) (object : Z) : option (rstate S * option (Z * entry_ref)) :=
  ASSERT cs_active (r_space st) ;;
  LET q <- w_ports (r_world st) !! object ;;
  if negb (ip_active q) then Some (st, None)
  else if ip_receiver q =? self st then
    let name := ip_receiver_name q in
    ASSERT negb (name =? MACH_PORT_NULL) ;;
    LET (s, res) <- cs_lookup (r_space st) name ;;
    LET ref <- res ;;
    LET v <- cs_entry s ref ;;
    ASSERT bit (ev_bits v) MACH_PORT_TYPE_RECEIVE ;;
    ASSERT object =? ev_object v ;;
    Some (with_space s st, Some (name, ref))
  else
    LET (s, res) <- cs_hash_lookup (r_space st) object ;;
    match res with
    | Some (name, ref) =>
        LET v <- cs_entry s ref ;;
        ASSERT ev_type v =? MACH_PORT_TYPE_SEND ;;
        ASSERT object =? ev_object v ;;
        Some (with_space s st, Some (name, ref))
    | None => Some (with_space s st, None)
    end.

(** ** Dead-name requests of an entry *)

Definition ipc_right_dncancel (st : rstate S) (port name : Z) (ref : entry_ref) : option (rstate S * Z) :=
  LET q <- w_ports (r_world st) !! port ;;
  LET v <- cs_entry (r_space st) ref ;;
  ASSERT ip_active q ;;
  ASSERT port =? ev_object v ;;
  LET (q', dnrequest) <- ipc_port_dncancel q name (ev_request v) ;;
  LET st1 <- entry_upd ref (v_set_request 0) (with_world (put_port port q' (r_world st)) st) ;;
  let compat := bit (ev_bits v) IE_BITS_COMPAT in
  ASSERT Bool.eqb (ipr_spacep dnrequest) compat ;;
  (* if this is actually a space ptr, just release the ref *)
  if compat then
    ASSERT self st =? ipr_space dnrequest ;;
    Some (log [Space_release (self st)] st1, IP_NULL)
  else Some (st1, dnrequest).

Definition ipc_right_dncancel_macro (st : rstate S) (port name : Z) (ref : entry_ref) : option (rstate S * Z) :=
  LET v <- cs_entry (r_space st) ref ;;
  if ev_request v =? 0 then Some (st, IP_NULL) else ipc_right_dncancel st port name ref.

(** ** Dead ports *)

(** The compat part of [ipc_right_inuse] for an entry with a dead port. *)
Definition inuse_clean (st : rstate S) (name bits : Z) (ref : entry_ref) : option (rstate S) :=
  LET v <- cs_entry (r_space st) ref ;;
  let port := ev_object v in
  LET st1 <-
    (if IE_BITS_TYPE bits =? MACH_PORT_TYPE_SEND then
       hash_delete port name ref (cancel_marequest bits name st)
     else
       ASSERT IE_BITS_UREFS bits =? 1 ;;
       ASSERT negb (bit bits IE_BITS_MAREQUEST) ;;
       Some st) ;;
  LET st2 <- on_world (ipc_port_release port) st1 ;;
  entry_upd ref (fun v => mk_view (Z.ldiff (ev_bits v) IE_BITS_RIGHT_MASK) IO_NULL 0) st2.

Definition ipc_right_inuse (st : rstate S) (name : Z) (ref : entry_ref) : option (rstate S * bool) :=
  LET v <- cs_entry (r_space st) ref ;;
  let bits := ev_bits v in
  let type := IE_BITS_TYPE bits in
  if type =? MACH_PORT_TYPE_NONE then Some (st, false)
  else if bit bits IE_BITS_COMPAT && ((type =? MACH_PORT_TYPE_SEND) || (type =? MACH_PORT_TYPE_SEND_ONCE)) then
    ASSERT 0 <? IE_BITS_UREFS bits ;;
    ASSERT negb (ev_request v =? 0) ;;
    ASSERT negb (ev_object v =? IP_NULL) ;;
    LET q <- w_ports (r_world st) !! ev_object v ;;
    if negb (ip_active q) then
      LET st1 <- inuse_clean st name bits ref ;; Some (st1, false)
    else Some (st, true)
  else Some (st, true).

(** TRUE when the port was dead and the entry was cleaned up. *)
Definition ipc_right_check (st : rstate S) (port name : Z) (ref : entry_ref) : option (rstate S * bool) :=
  ASSERT cs_active (r_space st) ;;
  LET v <- cs_entry (r_space st) ref ;;
  ASSERT port =? ev_object v ;;
  LET q <- w_ports (r_world st) !! port ;;
  if ip_active q then Some (st, false)
  else
    (* this was either a pure send right or a send-once right *)
    let bits := ev_bits v in
    ASSERT negb (bit bits MACH_PORT_TYPE_RECEIVE) ;;
    ASSERT 0 <? IE_BITS_UREFS bits ;;
    LET (st1, bits1) <-
      (if bit bits MACH_PORT_TYPE_SEND then
         ASSERT IE_BITS_TYPE bits =? MACH_PORT_TYPE_SEND ;;
         LET st' <- hash_delete port name ref (cancel_marequest bits name st) ;;
         Some (st', Z.ldiff bits IE_BITS_MAREQUEST)
       else
         ASSERT IE_BITS_TYPE bits =? MACH_PORT_TYPE_SEND_ONCE ;;
         ASSERT IE_BITS_UREFS bits =? 1 ;;
         ASSERT negb (bit bits IE_BITS_MAREQUEST) ;;
         Some (st, bits)) ;;
    LET st2 <- on_world (ipc_port_release port) st1 ;;
    if bit bits1 IE_BITS_COMPAT then
      ASSERT negb (ev_request v =? 0) ;;
      LET st3 <- entry_upd ref (v_set_request 0) st2 ;;
      LET st4 <- drop_entry name ref st3 ;;
      Some (st4, true)
    else
      (* convert entry to dead name *)
      let bits2 := Z.lor (Z.ldiff bits1 IE_BITS_TYPE_MASK) MACH_PORT_TYPE_DEAD_NAME in
      LET bits3 <-
        (if negb (ev_request v =? 0) then
           ASSERT IE_BITS_UREFS bits2 <? MACH_PORT_UREFS_MAX ;; Some (u32 (bits2 + 1))
         else Some bits2) ;;
      LET st3 <- entry_upd ref (fun _ => mk_view bits3 IO_NULL 0) st2 ;;
      Some (st3, true).

(** ** Destruction *)

Section Destruction.
(** [ipc_table_dnrequests], and whether the lock tries of
    [ipc_port_check_circularity] succeed. *)
Variables (dits : list Z) (try : bool).

(** [ipc_port_clear_receiver(port); ipc_port_destroy(port);] *)
Definition destroy_receive (port : Z) (w : world) : option world :=
  LET w1 <- ipc_port_clear_receiver port w ;; ipc_port_destroy dits try port w1.

(** What [ipc_right_clean] and [ipc_right_destroy] do to a live port, whose
    entry has type [type], once the entry is done with. *)
Definition destroy_rights (st : rstate S) (port name type : Z) (check_name : bool) : option (rstate S * (Z * Z)) :=
  LET (st1, ns) <-
    (if bit type MACH_PORT_TYPE_SEND then drop_srights port st else Some (st, (IP_NULL, 0))) ;;
  LET q <- w_ports (r_world st1) !! port ;;
  if bit type MACH_PORT_TYPE_RECEIVE then
    ASSERT (if check_name then ip_receiver_name q =? name else ip_active q) ;;
    ASSERT ip_receiver q =? self st1 ;;
    LET st2 <- on_world (destroy_receive port) st1 ;;
    Some (st2, ns)
  else if bit type MACH_PORT_TYPE_SEND_ONCE then
    ASSERT 0 <? ip_sorights q ;;
    Some (log [Notify_send_once port] st1, ns)
  else
    ASSERT negb (ip_receiver q =? self st1) ;;
    LET st2 <- on_world (port_upd port ip_release) st1 ;;
    Some (st2, ns).

(** The types of rights to ports. *)
Definition is_port_type (type : Z) : bool :=
  (type =? MACH_PORT_TYPE_SEND) || (type =? MACH_PORT_TYPE_RECEIVE) ||
  (type =? MACH_PORT_TYPE_SEND_RECEIVE) || (type =? MACH_PORT_TYPE_SEND_ONCE).

Definition ipc_right_clean (st : rstate S) (name : Z) (ref : entry_ref) : option (rstate S) :=
  LET v <- cs_entry (r_space st) ref ;;
  let bits := ev_bits v in
  let type := IE_BITS_TYPE bits in
  ASSERT negb (cs_active (r_space st)) ;;
  if type =? MACH_PORT_TYPE_DEAD_NAME then
    ASSERT ev_request v =? 0 ;;
    ASSERT ev_object v =? IO_NULL ;;
    ASSERT negb (bit bits IE_BITS_MAREQUEST) ;;
    Some st
  else if type =? MACH_PORT_TYPE_PORT_SET then
    ASSERT ev_request v =? 0 ;;
    ASSERT negb (bit bits IE_BITS_MAREQUEST) ;;
    ASSERT negb (ev_object v =? IPS_NULL) ;;
    on_world (ipc_pset_destroy (ev_object v)) st
  else if is_port_type type then
    let port := ev_object v in
    ASSERT negb (port =? IP_NULL) ;;
    LET q <- w_ports (r_world st) !! port ;;
    if negb (ip_active q) then
      on_world (fun w => ip_check_unlock port (put_port port (ip_release q) w)) st
    else
      LET (st1, dnrequest) <- ipc_right_dncancel_macro st port name ref ;;
      LET (st2, ns) <- destroy_rights st1 port name type true ;;
      Some (notify_port_deleted dnrequest name (notify_no_senders ns st2))
  else None.

Definition ipc_right_destroy (st : rstate S) (name : Z) (ref : entry_ref) : option (rstate S * kern_return) :=
  LET v <- cs_entry (r_space st) ref ;;
  let bits := ev_bits v in
  let type := IE_BITS_TYPE bits in
  ASSERT cs_active (r_space st) ;;
  if type =? MACH_PORT_TYPE_DEAD_NAME then
    ASSERT ev_request v =? 0 ;;
    ASSERT ev_object v =? IO_NULL ;;
    ASSERT negb (bit bits IE_BITS_MAREQUEST) ;;
    LET st1 <- entry_dealloc name ref st ;; Some (st1, KERN_SUCCESS)
  else if type =? MACH_PORT_TYPE_PORT_SET then
    ASSERT ev_request v =? 0 ;;
    ASSERT negb (ev_object v =? IPS_NULL) ;;
    LET st1 <- drop_entry name ref st ;;
    LET st2 <- on_world (ipc_pset_destroy (ev_object v)) st1 ;;
    Some (st2, KERN_SUCCESS)
  else if is_port_type type then
    let port := ev_object v in
    ASSERT negb (port =? IP_NULL) ;;
    ASSERT negb (bit bits IE_BITS_MAREQUEST) || bit type MACH_PORT_TYPE_SEND_RECEIVE ;;
    let st0 := cancel_marequest bits name st in
    LET st1 <- (if type =? MACH_PORT_TYPE_SEND then hash_delete port name ref st0 else Some st0) ;;
    LET q <- w_ports (r_world st1) !! port ;;
    if negb (ip_active q) then
      ASSERT negb (bit type MACH_PORT_TYPE_RECEIVE) ;;
      LET st2 <- on_world (fun w => ip_check_unlock port (put_port port (ip_release q) w)) st1 ;;
      LET st3 <- entry_upd ref (v_set_request 0) st2 ;;
      LET st4 <- drop_entry name ref st3 ;;
      Some (st4, if bit bits IE_BITS_COMPAT then KERN_INVALID_NAME else KERN_SUCCESS)
    else
      LET (st2, dnrequest) <- ipc_right_dncancel_macro st1 port name ref ;;
      LET st3 <- drop_entry name ref st2 ;;
      LET (st4, ns) <- destroy_rights st3 port name type false ;;
      Some (notify_port_deleted dnrequest name (notify_no_senders ns st4), KERN_SUCCESS)
  else None.

(** ** User references *)

(** [dead_name:] of [ipc_right_dealloc]; the entry is read again. *)
Definition dealloc_dead_name (st : rstate S) (name : Z) (ref : entry_ref) : option (rstate S * kern_return) :=
  LET v <- cs_entry (r_space st) ref ;;
  let bits := ev_bits v in
  ASSERT 0 <? IE_BITS_UREFS bits ;;
  ASSERT ev_request v =? 0 ;;
  ASSERT ev_object v =? IO_NULL ;;
  ASSERT negb (bit bits IE_BITS_MAREQUEST) ;;
  LET st1 <-
    (if IE_BITS_UREFS bits =? 1 then entry_dealloc name ref st
     else entry_upd ref (v_set_bits (u32 (bits - 1))) st) ;;
  Some (st1, KERN_SUCCESS).

(** After [ipc_right_check] found the port dead. *)
Definition dealloc_died (st : rstate S) (name bits : Z) (ref : entry_ref) : option (rstate S * kern_return) :=
  if bit bits IE_BITS_COMPAT then Some (st, KERN_INVALID_NAME)
  else
    LET v <- cs_entry (r_space st) ref ;;
    ASSERT ev_type v =? MACH_PORT_TYPE_DEAD_NAME ;;
    dealloc_dead_name st name ref.

(** Consumes the send-once right of a live port. *)
Definition drop_send_once (st : rstate S) (port name : Z) (ref : entry_ref) : option (rstate S) :=
  LET (st1, dnrequest) <- ipc_right_dncancel_macro st port name ref ;;
  LET st2 <- drop_entry name ref st1 ;;
  Some (notify_port_deleted dnrequest name (log [Notify_send_once port] st2)).

(** Removes the last user reference of a pure send right: cancels the requests,
    leaves the hash table and drops the port reference and the entry. *)
Definition drop_last_send (st : rstate S) (port name bits : Z) (ref : entry_ref) : option (rstate S * Z) :=
  LET (st1, dnrequest) <- ipc_right_dncancel_macro st port name ref ;;
  LET st2 <- hash_delete port name ref st1 ;;
  let st3 := cancel_marequest bits name st2 in
  LET st4 <- on_world (port_upd port ip_release) st3 ;;
  LET st5 <- drop_entry name ref st4 ;;
  Some (st5, dnrequest).

Definition dealloc_send_once (st : rstate S) (name : Z) (v : eview) (ref : entry_ref) : option (rstate S * kern_return) :=
  let bits := ev_bits v in
  let port := ev_object v in
  ASSERT IE_BITS_UREFS bits =? 1 ;;
  ASSERT negb (bit bits IE_BITS_MAREQUEST) ;;
  ASSERT negb (port =? IP_NULL) ;;
  LET (st1, died) <- ipc_right_check st port name ref ;;
  if died : bool then dealloc_died st1 name bits ref
  else
    LET q <- w_ports (r_world st1) !! port ;;
    ASSERT 0 <? ip_sorights q ;;
    LET st2 <- drop_send_once st1 port name ref ;;
    Some (st2, KERN_SUCCESS).

Definition dealloc_send (st : rstate S) (name : Z) (v : eview) (ref : entry_ref) : option (rstate S * kern_return) :=
  let bits := ev_bits v in
  let port := ev_object v in
  ASSERT 0 <? IE_BITS_UREFS bits ;;
  ASSERT negb (port =? IP_NULL) ;;
  LET (st1, died) <- ipc_right_check st port name ref ;;
  if died : bool then dealloc_died st1 name bits ref
  else
    LET q <- w_ports (r_world st1) !! port ;;
    ASSERT 0 <? ip_srights q ;;
    if IE_BITS_UREFS bits =? 1 then
      LET (st2, ns) <- drop_srights port st1 ;;
      LET (st3, dnrequest) <- drop_last_send st2 port name bits ref ;;
      Some (notify_port_deleted dnrequest name (notify_no_senders ns st3), KERN_SUCCESS)
    else
      LET st2 <- entry_upd ref (v_set_bits (u32 (bits - 1))) st1 ;;
      Some (st2, KERN_SUCCESS).

Definition dealloc_send_receive (st : rstate S) (name : Z) (v : eview) (ref : entry_ref) : option (rstate S * kern_return) :=
  let bits := ev_bits v in
  let port := ev_object v in
  ASSERT 0 <? IE_BITS_UREFS bits ;;
  ASSERT negb (port =? IP_NULL) ;;
  LET q <- w_ports (r_world st) !! port ;;
  ASSERT ip_active q ;;
  ASSERT ip_receiver_name q =? name ;;
  ASSERT ip_receiver q =? self st ;;
  ASSERT 0 <? ip_srights q ;;
  if IE_BITS_UREFS bits =? 1 then
    LET (st1, ns) <- drop_srights port st ;;
    LET st2 <- entry_upd ref (v_set_bits (Z.ldiff bits (Z.lor IE_BITS_UREFS_MASK MACH_PORT_TYPE_SEND))) st1 ;;
    Some (notify_no_senders ns st2, KERN_SUCCESS)
  else
    LET st1 <- entry_upd ref (v_set_bits (u32 (bits - 1))) st ;;
    Some (st1, KERN_SUCCESS).

Definition ipc_right_dealloc (st : rstate S) (name : Z) (ref : entry_ref) : option (rstate S * kern_return) :=
  LET v <- cs_entry (r_space st) ref ;;
  let type := ev_type v in
  ASSERT cs_active (r_space st) ;;
  if type =? MACH_PORT_TYPE_DEAD_NAME then dealloc_dead_name st name ref
  else if type =? MACH_PORT_TYPE_SEND_ONCE then dealloc_send_once st name v ref
  else if type =? MACH_PORT_TYPE_SEND then dealloc_send st name v ref
  else if type =? MACH_PORT_TYPE_SEND_RECEIVE then dealloc_send_receive st name v ref
  else Some (st, KERN_INVALID_RIGHT).

Definition delta_port_set (st : rstate S) (name delta : Z) (v : eview) (ref : entry_ref) : option (rstate S * kern_return) :=
  let bits := ev_bits v in
  if negb (bit bits MACH_PORT_TYPE_PORT_SET) then Some (st, KERN_INVALID_RIGHT)
  else
    ASSERT IE_BITS_TYPE bits =? MACH_PORT_TYPE_PORT_SET ;;
    ASSERT IE_BITS_UREFS bits =? 0 ;;
    ASSERT negb (bit bits IE_BITS_MAREQUEST) ;;
    ASSERT ev_request v =? 0 ;;
    if delta =? 0 then Some (st, KERN_SUCCESS)
    else if negb (delta =? -1) then Some (st, KERN_INVALID_VALUE)
    else
      ASSERT negb (ev_object v =? IPS_NULL) ;;
      LET st1 <- drop_entry name ref st ;;
      LET st2 <- on_world (ipc_pset_destroy (ev_object v)) st1 ;;
      Some (st2, KERN_SUCCESS).

(** The entry of a receive right that is destroyed: a remaining send right
    turns into a dead name, otherwise the entry goes. *)
Definition delta_receive_entry (st : rstate S) (port name bits : Z) (ref : entry_ref) (srights : Z) : option (rstate S * Z) :=
  LET v <- cs_entry (r_space st) ref ;;
  if bit bits IE_BITS_COMPAT then
    ASSERT negb (ev_request v =? 0) ;;
    LET (st1, dnrequest) <- ipc_right_dncancel st port name ref ;;
    ASSERT dnrequest =? IP_NULL ;;
    LET st2 <- drop_entry name ref st1 ;;
    Some (st2, dnrequest)
  else if bit bits MACH_PORT_TYPE_SEND then
    ASSERT IE_BITS_TYPE bits =? MACH_PORT_TYPE_SEND_RECEIVE ;;
    ASSERT 0 <? IE_BITS_UREFS bits ;;
    ASSERT IE_BITS_UREFS bits <? MACH_PORT_UREFS_MAX ;;
    ASSERT 0 <? srights ;;
    let bits1 := Z.lor (Z.ldiff bits IE_BITS_TYPE_MASK) MACH_PORT_TYPE_DEAD_NAME in
    let bits2 := if negb (ev_request v =? 0) then u32 (bits1 + 1) else bits1 in
    LET st1 <- entry_upd ref (fun _ => mk_view bits2 IO_NULL 0) st ;;
    Some (st1, IP_NULL)
  else
    ASSERT IE_BITS_TYPE bits =? MACH_PORT_TYPE_RECEIVE ;;
    ASSERT IE_BITS_UREFS bits =? 0 ;;
    LET (st1, dnrequest) <- ipc_right_dncancel_macro st port name ref ;;
    LET st2 <- drop_entry name ref st1 ;;
    Some (st2, dnrequest).

Definition delta_receive (st : rstate S) (name delta : Z) (v : eview) (ref : entry_ref) : option (rstate S * kern_return) :=
  let bits := ev_bits v in
  let port := ev_object v in
  if negb (bit bits MACH_PORT_TYPE_RECEIVE) then Some (st, KERN_INVALID_RIGHT)
  else if delta =? 0 then Some (st, KERN_SUCCESS)
  else if negb (delta =? -1) then Some (st, KERN_INVALID_VALUE)
  else
    let st1 := cancel_marequest bits name st in
    let bits1 := Z.ldiff bits IE_BITS_MAREQUEST in
    ASSERT negb (port =? IP_NULL) ;;
    LET q <- w_ports (r_world st1) !! port ;;
    ASSERT ip_active q ;;
    ASSERT ip_receiver_name q =? name ;;
    ASSERT ip_receiver q =? self st1 ;;
    LET (st2, dnrequest) <- delta_receive_entry st1 port name bits1 ref (ip_srights q) ;;
    LET st3 <- on_world (destroy_receive port) st2 ;;
    Some (notify_port_deleted dnrequest name st3, KERN_SUCCESS).

Definition delta_send_once (st : rstate S) (name delta : Z) (v : eview) (ref : entry_ref) : option (rstate S * kern_return) :=
  let bits := ev_bits v in
  let port := ev_object v in
  if negb (bit bits MACH_PORT_TYPE_SEND_ONCE) then Some (st, KERN_INVALID_RIGHT)
  else
    ASSERT IE_BITS_TYPE bits =? MACH_PORT_TYPE_SEND_ONCE ;;
    ASSERT IE_BITS_UREFS bits =? 1 ;;
    ASSERT negb (bit bits IE_BITS_MAREQUEST) ;;
    if (0 <? delta) || (delta <? -1) then Some (st, KERN_INVALID_VALUE)
    else
      ASSERT negb (port =? IP_NULL) ;;
      LET (st1, died) <- ipc_right_check st port name ref ;;
      if died : bool then
        if bit bits IE_BITS_COMPAT then Some (st1, KERN_INVALID_NAME)
        else
          LET v1 <- cs_entry (r_space st1) ref ;;
          ASSERT negb (bit (ev_bits v1) MACH_PORT_TYPE_SEND_ONCE) ;;
          Some (st1, KERN_INVALID_RIGHT)
      else
        LET q <- w_ports (r_world st1) !! port ;;
        ASSERT 0 <? ip_sorights q ;;
        if delta =? 0 then Some (st1, KERN_SUCCESS)
        else
          LET st2 <- drop_send_once st1 port name ref ;;
          Some (st2, KERN_SUCCESS).

(** From [assert(IE_BITS_TYPE(bits) == MACH_PORT_TYPE_DEAD_NAME)] on. *)
Definition delta_dead (st : rstate S) (name delta : Z) (ref : entry_ref) : option (rstate S * kern_return) :=
  LET v <- cs_entry (r_space st) ref ;;
  let bits := ev_bits v in
  ASSERT IE_BITS_TYPE bits =? MACH_PORT_TYPE_DEAD_NAME ;;
  ASSERT 0 <? IE_BITS_UREFS bits ;;
  ASSERT negb (bit bits IE_BITS_MAREQUEST) ;;
  ASSERT ev_object v =? IO_NULL ;;
  ASSERT ev_request v =? 0 ;;
  let urefs := IE_BITS_UREFS bits in
  if MACH_PORT_UREFS_UNDERFLOW urefs delta then Some (st, KERN_INVALID_VALUE)
  else if MACH_PORT_UREFS_OVERFLOW urefs delta then Some (st, KERN_UREFS_OVERFLOW)
  else
    LET st1 <-
      (if u32 (urefs + delta) =? 0 then entry_dealloc name ref st
       else entry_upd ref (v_set_bits (u32 (bits + delta))) st) ;;
    Some (st1, KERN_SUCCESS).

Definition delta_dead_name (st : rstate S) (name delta : Z) (v : eview) (ref : entry_ref) : option (rstate S * kern_return) :=
  let bits := ev_bits v in
  let port := ev_object v in
  if bit bits MACH_PORT_TYPE_SEND_RIGHTS then
    ASSERT negb (port =? IP_NULL) ;;
    LET (st1, died) <- ipc_right_check st port name ref ;;
    if negb died then Some (st1, KERN_INVALID_RIGHT)
    else if bit bits IE_BITS_COMPAT then Some (st1, KERN_INVALID_NAME)
    else delta_dead st1 name delta ref
  else if negb (bit bits MACH_PORT_TYPE_DEAD_NAME) then Some (st, KERN_INVALID_RIGHT)
  else delta_dead st name delta ref.

Definition delta_send (st : rstate S) (name delta : Z) (v : eview) (ref : entry_ref) : option (rstate S * kern_return) :=
  let bits := ev_bits v in
  let port := ev_object v in
  if negb (bit bits MACH_PORT_TYPE_SEND) then Some (st, KERN_INVALID_RIGHT)
  else
    (* maximum urefs for send is MACH_PORT_UREFS_MAX-1 *)
    let urefs := IE_BITS_UREFS bits in
    if MACH_PORT_UREFS_UNDERFLOW urefs delta then Some (st, KERN_INVALID_VALUE)
    else if MACH_PORT_UREFS_OVERFLOW (urefs + 1) delta then Some (st, KERN_UREFS_OVERFLOW)
    else
      ASSERT negb (port =? IP_NULL) ;;
      LET (st1, died) <- ipc_right_check st port name ref ;;
      if died : bool then
        if bit bits IE_BITS_COMPAT then Some (st1, KERN_INVALID_NAME)
        else
          LET v1 <- cs_entry (r_space st1) ref ;;
          ASSERT negb (bit (ev_bits v1) MACH_PORT_TYPE_SEND) ;;
          Some (st1, KERN_INVALID_RIGHT)
      else
        LET q <- w_ports (r_world st1) !! port ;;
        ASSERT 0 <? ip_srights q ;;
        if u32 (urefs + delta) =? 0 then
          LET (st2, ns) <- drop_srights port st1 ;;
          if bit bits MACH_PORT_TYPE_RECEIVE then
            ASSERT ip_receiver_name q =? name ;;
            ASSERT ip_receiver q =? self st2 ;;
            ASSERT IE_BITS_TYPE bits =? MACH_PORT_TYPE_SEND_RECEIVE ;;
            LET st3 <- entry_upd ref (v_set_bits (Z.ldiff bits (Z.lor IE_BITS_UREFS_MASK MACH_PORT_TYPE_SEND))) st2 ;;
            Some (notify_no_senders ns st3, KERN_SUCCESS)
          else
            ASSERT IE_BITS_TYPE bits =? MACH_PORT_TYPE_SEND ;;
            LET (st3, dnrequest) <- drop_last_send st2 port name bits ref ;;
            Some (notify_port_deleted dnrequest name (notify_no_senders ns st3), KERN_SUCCESS)
        else
          LET st2 <- entry_upd ref (v_set_bits (u32 (bits + delta))) st1 ;;
          Some (st2, KERN_SUCCESS).

Definition ipc_right_delta (st : rstate S) (name : Z) (ref : entry_ref) (right delta : Z) : option (rstate S * kern_return) :=
  LET v <- cs_entry (r_space st) ref ;;
  ASSERT cs_active (r_space st) ;;
  ASSERT right <? MACH_PORT_RIGHT_NUMBER ;;
  if right =? MACH_PORT_RIGHT_PORT_SET then delta_port_set st name delta v ref
  else if right =? MACH_PORT_RIGHT_RECEIVE then delta_receive st name delta v ref
  else if right =? MACH_PORT_RIGHT_SEND_ONCE then delta_send_once st name delta v ref
  else if right =? MACH_PORT_RIGHT_DEAD_NAME then delta_dead_name st name delta v ref
  else if right =? MACH_PORT_RIGHT_SEND then delta_send st name delta v ref
  else None.

(** [ipc_port_delete_compat], which [ipc_port_destroy] calls for the compat
    entries of a dead port; the space is active.  [notify] is [space->is_notify]. *)
Definition ipc_port_delete_compat (st : rstate S) (port notify name : Z) : option (rstate S) :=
  LET q <- w_ports (r_world st) !! port ;;
  ASSERT negb (ip_active q) ;;
  LET (st1, res) <- ipc_right_lookup_write st name ;;
  LET st2 <-
    match res with
    | inl _ => Some st1
    | inr ref =>
        LET v <- cs_entry (r_space st1) ref ;;
        if ev_object v =? port then
          ASSERT bit (ev_bits v) IE_BITS_COMPAT ;;
          LET (w1, sright) <- ipc_port_copy_send notify (r_world st1) ;;
          LET (st', kr) <- ipc_right_destroy (with_world w1 st1) name ref ;;
          ASSERT bool_decide (kr = KERN_INVALID_NAME) ;;
          Some (if IP_VALID sright then log [Notify_port_deleted_compat sright name] st' else st')
        else Some st1
    end ;;
  Some (log [Space_release (self st2)] st2).
End Destruction.
End Rights.
