(* ===== verification/IpcRightCopy.v ===== *)
(** * Transferring rights (ipc/ipc_right.c, second half)

    Copying rights in from a space and out to a space, dead-name requests,
    renaming, and what user tasks can ask about a right. *)

From S2P Require Import Prelude PortName IpcTable IpcTypes IpcMqueue IpcPort IpcWorld.
From S2P Require Import IpcPortOps IpcSpaceInv IpcCap IpcRight.

(** The types of port rights in messages; the types of the rights that a message
    carries, [MACH_MSG_TYPE_PORT_*], are those of the moves. *)
Inductive mach_msg_type_name :=
| MACH_MSG_TYPE_MOVE_RECEIVE | MACH_MSG_TYPE_MOVE_SEND | MACH_MSG_TYPE_MOVE_SEND_ONCE
| MACH_MSG_TYPE_COPY_SEND | MACH_MSG_TYPE_MAKE_SEND | MACH_MSG_TYPE_MAKE_SEND_ONCE.

#[export] Instance mach_msg_type_name_eq_dec : EqDecision mach_msg_type_name.
Proof. solve_decision. Defined.

Definition MACH_MSG_TYPE_PORT_RECEIVE := MACH_MSG_TYPE_MOVE_RECEIVE.
Definition MACH_MSG_TYPE_PORT_SEND := MACH_MSG_TYPE_MOVE_SEND.
Definition MACH_MSG_TYPE_PORT_SEND_ONCE := MACH_MSG_TYPE_MOVE_SEND_ONCE.

Definition MACH_PORT_TYPE_DNREQUEST : Z := 0x80000000.
Definition MACH_PORT_TYPE_MAREQUEST : Z := 0x40000000.
Definition MACH_PORT_TYPE_COMPAT : Z := 0x20000000.

Section Copy.
Context {S : Type} {CS : CapSpace S}.

(** ** Making a dead-name request *)

(** What others do while nothing is locked: to the port inside [ipc_port_dngrow],
    with the memory it gets, and to everything before the next lookup. *)
Record retry_env := mk_env {
  env_window : ipc_port -> ipc_port;
  env_mem : option dntable;
  env_others : rstate S -> rstate S
}.

Definition right_dngrow (dits : list Z) (env : retry_env) (port : Z) (st : rstate S)
    : option (rstate S * kern_return) :=
  LET q <- w_ports (r_world st) !! port ;;
  LET (kr, q', freed) <- ipc_port_dngrow dits (env_window env) (env_mem env) q ;;
  let w := if freed : bool then free_port port (r_world st) else put_port port q' (r_world st) in
  Some (env_others env (with_world w st), kr).

(** The request of an entry whose port is alive: [None] means there is no slot
    and the table has to grow. *)
Definition dnrequest_live (st : rstate S) (port name notify bits : Z) (ref : entry_ref)
    : option (rstate S * option Z) :=
  LET v <- cs_entry (r_space st) ref ;;
  if notify =? IP_NULL then
    if bit bits IE_BITS_COMPAT then
      ASSERT negb (ev_request v =? 0) ;; Some (st, Some IP_NULL)
    else
      LET (st1, previous) <- ipc_right_dncancel_macro st port name ref ;; Some (st1, Some previous)
  else
    (* If a registered soright exists, want to atomically switch with it. *)
    LET (st1, previous) <- ipc_right_dncancel_macro st port name ref ;;
    LET q <- w_ports (r_world st1) !! port ;;
    LET (q', res) <- ipc_port_dnrequest q name notify ;;
    match res with
    | None => ASSERT previous =? IP_NULL ;; Some (st1, None)
    | Some request =>
        ASSERT negb (request =? 0) ;;
        LET st2 <- entry_upd ref (fun v => v_set_bits (Z.ldiff bits IE_BITS_COMPAT) (v_set_request request v))
          (with_world (put_port port q' (r_world st1)) st1) ;;
        Some (st2, Some previous)
    end.

(** The rest of the loop body, for an entry without a live port. *)
Definition dnrequest_dead (st : rstate S) (name notify bits : Z) (immediate : bool) (ref : entry_ref)
    : option (rstate S * (kern_return + Z)) :=
  if bit bits MACH_PORT_TYPE_DEAD_NAME && immediate && negb (notify =? IP_NULL) then
    let urefs := IE_BITS_UREFS bits in
    ASSERT IE_BITS_TYPE bits =? MACH_PORT_TYPE_DEAD_NAME ;;
    ASSERT 0 <? urefs ;;
    if MACH_PORT_UREFS_OVERFLOW urefs 1 then Some (st, inl KERN_UREFS_OVERFLOW)
    else
      LET st1 <- entry_upd ref (v_set_bits (u32 (bits + 1))) st ;;
      Some (log [Notify_dead_name notify name] st1, inr IP_NULL)
  else
    Some (st, inl (if bit bits MACH_PORT_TYPE_PORT_OR_DEAD then KERN_INVALID_ARGUMENT else KERN_INVALID_RIGHT)).

(** One turn of the loop; [inr None] is [continue] after growing the table. *)
Definition dnrequest_turn (dits : list Z) (env : retry_env) (st0 : rstate S) (name : Z) (immediate : bool)
    (notify : Z) : option (rstate S * (kern_return + option Z)) :=
  LET (st, res) <- ipc_right_lookup_write st0 name ;;
  match res with
  | inl kr => Some (st, inl kr)
  | inr ref =>
      LET v <- cs_entry (r_space st) ref ;;
      let bits := ev_bits v in
      if bit bits MACH_PORT_TYPE_PORT_RIGHTS then
        let port := ev_object v in
        ASSERT negb (port =? IP_NULL) ;;
        LET (st1, died) <- ipc_right_check st port name ref ;;
        if negb died then
          LET (st2, done) <- dnrequest_live st1 port name notify bits ref ;;
          match done with
          | Some previous => Some (st2, inr (Some previous))
          | None =>
              LET (st3, kr) <- right_dngrow dits env port st2 ;;
              Some (st3, if bool_decide (kr = KERN_SUCCESS) then inr None else inl kr)
          end
        else if bit bits IE_BITS_COMPAT then Some (st1, inl KERN_INVALID_NAME)
        else
          LET v1 <- cs_entry (r_space st1) ref ;;
          ASSERT bit (ev_bits v1) MACH_PORT_TYPE_DEAD_NAME ;;
          LET (st2, res2) <- dnrequest_dead st1 name notify (ev_bits v1) immediate ref ;;
          Some (st2, match res2 with inl kr => inl kr | inr previous => inr (Some previous) end)
      else
        LET (st2, res2) <- dnrequest_dead st name notify bits immediate ref ;;
        Some (st2, match res2 with inl kr => inl kr | inr previous => inr (Some previous) end)
  end.

(** [envs] are the environments of the turns; [None] when they do not suffice. *)
Fixpoint ipc_right_dnrequest (dits : list Z) (envs : list retry_env) (st : rstate S) (name : Z)
    (immediate : bool) (notify : Z) : option (rstate S * (kern_return + Z)) :=
  match envs with
  | [] => None
  | env :: envs' =>
      LET (st1, res) <- dnrequest_turn dits env st name immediate notify ;;
      match res with
      | inl kr => Some (st1, inl kr)
      | inr (Some previous) => Some (st1, inr previous)
      | inr None => ipc_right_dnrequest dits envs' st1 name immediate notify
      end
  end.

(** ** What a name denotes *)

(** The type and the number of user references. *)
Definition ipc_right_info (st : rstate S) (name : Z) (ref : entry_ref)
    : option (rstate S * (kern_return + (Z * Z))) :=
  LET v0 <- cs_entry (r_space st) ref ;;
  LET (st1, gone) <-
    (if bit (ev_bits v0) MACH_PORT_TYPE_SEND_RIGHTS then
       LET (st', died) <- ipc_right_check st (ev_object v0) name ref ;;
       if died : bool then
         if bit (ev_bits v0) IE_BITS_COMPAT then Some (st', true)
         else
           LET v1 <- cs_entry (r_space st') ref ;;
           ASSERT ev_type v1 =? MACH_PORT_TYPE_DEAD_NAME ;;
           Some (st', false)
       else Some (st', false)
     else Some (st, false)) ;;
  if gone : bool then Some (st1, inl KERN_INVALID_NAME)
  else
    LET v <- cs_entry (r_space st1) ref ;;
    let bits := ev_bits v in
    let type := IE_BITS_TYPE bits in
    let type1 :=
      if bit bits IE_BITS_COMPAT then Z.lor type MACH_PORT_TYPE_COMPAT
      else if negb (ev_request v =? 0) then Z.lor type MACH_PORT_TYPE_DNREQUEST else type in
    let type2 := if bit bits IE_BITS_MAREQUEST then Z.lor type1 MACH_PORT_TYPE_MAREQUEST else type1 in
    Some (st1, inr (type2, IE_BITS_UREFS bits)).

(** [ipc_port_lookup_notify]: a send-once right from a receive right. *)
Definition ipc_port_lookup_notify (st : rstate S) (name : Z) : option (rstate S * Z) :=
  ASSERT cs_active (r_space st) ;;
  LET (s, res) <- cs_lookup (r_space st) name ;;
  let st1 := with_space s st in
  match res with
  | None => Some (st1, IP_NULL)
  | Some ref =>
      LET v <- cs_entry s ref ;;
      if negb (bit (ev_bits v) MACH_PORT_TYPE_RECEIVE) then Some (st1, IP_NULL)
      else
        let port := ev_object v in
        ASSERT negb (port =? IP_NULL) ;;
        LET q <- w_ports (r_world st1) !! port ;;
        ASSERT ip_active q ;;
        ASSERT ip_receiver_name q =? name ;;
        ASSERT ip_receiver q =? self st1 ;;
        let q1 := ip_reference q in
        Some (with_world (put_port port (ip_set_sorights (u32 (ip_sorights q1 + 1)) q1) (r_world st1)) st1, port)
  end.

(** ** Copying in *)

Definition ipc_right_copyin_check (st : rstate S) (ref : entry_ref) (msgt_name : mach_msg_type_name)
    : option bool :=
  LET v <- cs_entry (r_space st) ref ;;
  let bits := ev_bits v in
  ASSERT cs_active (r_space st) ;;
  match msgt_name with
  | MACH_MSG_TYPE_MAKE_SEND | MACH_MSG_TYPE_MAKE_SEND_ONCE | MACH_MSG_TYPE_MOVE_RECEIVE =>
      Some (bit bits MACH_PORT_TYPE_RECEIVE)
  | MACH_MSG_TYPE_COPY_SEND | MACH_MSG_TYPE_MOVE_SEND | MACH_MSG_TYPE_MOVE_SEND_ONCE =>
      if bit bits MACH_PORT_TYPE_DEAD_NAME then Some true
      else if negb (bit bits MACH_PORT_TYPE_SEND_RIGHTS) then Some false
      else
        ASSERT negb (ev_object v =? IP_NULL) ;;
        LET q <- w_ports (r_world st) !! ev_object v ;;
        if negb (ip_active q) then Some (negb (bit bits IE_BITS_COMPAT))
        else
          Some (match msgt_name with
                | MACH_MSG_TYPE_MOVE_SEND_ONCE => bit bits MACH_PORT_TYPE_SEND_ONCE
                | _ => bit bits MACH_PORT_TYPE_SEND
                end)
  end.

(** The result of a copyin: an error, or the object and a send-once right. *)
Definition copied : Type := rstate S * (kern_return + Z * Z).

Definition copyin_make (st : rstate S) (name : Z) (v : eview) (once : bool) : option copied :=
  let port := ev_object v in
  if negb (bit (ev_bits v) MACH_PORT_TYPE_RECEIVE) then Some (st, inl KERN_INVALID_RIGHT)
  else
    ASSERT negb (port =? IP_NULL) ;;
    LET q <- w_ports (r_world st) !! port ;;
    ASSERT ip_active q ;;
    ASSERT ip_receiver_name q =? name ;;
    ASSERT ip_receiver q =? self st ;;
    let q1 :=
      if once then ip_set_sorights (u32 (ip_sorights q + 1)) q
      else ip_set_srights (u32 (ip_srights q + 1)) (ip_set_mscount (u32 (ip_mscount q + 1)) q) in
    Some (with_world (put_port port (ip_reference q1) (r_world st)) st, inr (port, IP_NULL)).

(** [ipc_port_clear_receiver(port)] and into limbo. *)
Definition limbo (port : Z) (w : world) : option world :=
  LET w1 <- ipc_port_clear_receiver port w ;;
  port_upd port (fun q => ip_set_data IP_NULL (ip_set_receiver_name MACH_PORT_NULL q)) w1.

Definition copyin_move_receive (st : rstate S) (name : Z) (v : eview) (ref : entry_ref) : option copied :=
  let bits := ev_bits v in
  let port := ev_object v in
  if negb (bit bits MACH_PORT_TYPE_RECEIVE) then Some (st, inl KERN_INVALID_RIGHT)
  else
    ASSERT negb (port =? IP_NULL) ;;
    LET q <- w_ports (r_world st) !! port ;;
    ASSERT ip_active q ;;
    ASSERT ip_receiver_name q =? name ;;
    ASSERT ip_receiver q =? self st ;;
    LET (st1, dnrequest) <-
      (if bit bits MACH_PORT_TYPE_SEND then
         ASSERT IE_BITS_TYPE bits =? MACH_PORT_TYPE_SEND_RECEIVE ;;
         ASSERT 0 <? IE_BITS_UREFS bits ;;
         ASSERT 0 <? ip_srights q ;;
         LET st' <- hash_insert port name ref st ;;
         LET st'' <- on_world (port_upd port ip_reference) st' ;;
         Some (st'', IP_NULL)
       else
         ASSERT IE_BITS_TYPE bits =? MACH_PORT_TYPE_RECEIVE ;;
         ASSERT IE_BITS_UREFS bits =? 0 ;;
         LET (st', dnrequest) <- ipc_right_dncancel_macro st port name ref ;;
         LET st'' <- entry_upd ref (v_set_object IO_NULL) (cancel_marequest bits name st') ;;
         Some (st'', dnrequest)) ;;
    LET st2 <- entry_upd ref (v_set_bits (Z.ldiff bits MACH_PORT_TYPE_RECEIVE)) st1 ;;
    LET st3 <- on_world (limbo port) st2 ;;
    Some (st3, inr (port, dnrequest)).

(** The labels [copy_dead] and [move_dead]. *)
Definition copy_dead (st : rstate S) (deadok move : bool) (ref : entry_ref) : option copied :=
  LET v <- cs_entry (r_space st) ref ;;
  let bits := ev_bits v in
  ASSERT IE_BITS_TYPE bits =? MACH_PORT_TYPE_DEAD_NAME ;;
  ASSERT 0 <? IE_BITS_UREFS bits ;;
  ASSERT negb (bit bits IE_BITS_MAREQUEST) ;;
  ASSERT ev_request v =? 0 ;;
  ASSERT ev_object v =? IO_NULL ;;
  if negb deadok then Some (st, inl KERN_INVALID_RIGHT)
  else
    LET st1 <-
      (if move then
         if IE_BITS_UREFS bits =? 1 then entry_upd ref (v_set_bits (Z.ldiff bits MACH_PORT_TYPE_DEAD_NAME)) st
         else entry_upd ref (v_set_bits (u32 (bits - 1))) st
       else Some st) ;;
    Some (st1, inr (IO_DEAD, IP_NULL)).

(** What the copies of send and send-once rights have in common: [live] is what
    they do when the port is alive. *)
Definition copyin_send_rights (st : rstate S) (name : Z) (v : eview) (deadok move : bool) (ref : entry_ref)
    (live : rstate S -> option copied) : option copied :=
  let bits := ev_bits v in
  let port := ev_object v in
  if bit bits MACH_PORT_TYPE_DEAD_NAME then copy_dead st deadok move ref
  else if negb (bit bits MACH_PORT_TYPE_SEND_RIGHTS) then Some (st, inl KERN_INVALID_RIGHT)
  else
    ASSERT 0 <? IE_BITS_UREFS bits ;;
    ASSERT negb (port =? IP_NULL) ;;
    LET (st1, died) <- ipc_right_check st port name ref ;;
    if died : bool then
      if bit bits IE_BITS_COMPAT then Some (st1, inl KERN_INVALID_NAME)
      else copy_dead st1 deadok move ref
    else live st1.

(** Fails on a live send-once right. *)
Definition with_send (st : rstate S) (v : eview) (k : ipc_port -> option copied) : option copied :=
  let bits := ev_bits v in
  LET q <- w_ports (r_world st) !! ev_object v ;;
  if negb (bit bits MACH_PORT_TYPE_SEND) then
    ASSERT IE_BITS_TYPE bits =? MACH_PORT_TYPE_SEND_ONCE ;;
    ASSERT 0 <? ip_sorights q ;;
    Some (st, inl KERN_INVALID_RIGHT)
  else ASSERT 0 <? ip_srights q ;; k q.

Definition incr_srights (q : ipc_port) : ipc_port := ip_set_srights (u32 (ip_srights q + 1)) q.

Definition copyin_copy_send (v : eview) (st : rstate S) : option copied :=
  let port := ev_object v in
  with_send st v (fun q =>
    Some (with_world (put_port port (ip_reference (incr_srights q)) (r_world st)) st, inr (port, IP_NULL))).

(** Takes the only user reference out of an entry. *)
Definition move_last_send (st : rstate S) (name : Z) (v : eview) (ref : entry_ref) (receiver : rstate S -> option (rstate S))
    (sender : rstate S -> option (rstate S)) : option (rstate S * Z) :=
  let bits := ev_bits v in
  let port := ev_object v in
  LET q <- w_ports (r_world st) !! port ;;
  LET (st1, dnrequest) <-
    (if bit bits MACH_PORT_TYPE_RECEIVE then
       ASSERT ip_receiver_name q =? name ;;
       ASSERT ip_receiver q =? self st ;;
       ASSERT IE_BITS_TYPE bits =? MACH_PORT_TYPE_SEND_RECEIVE ;;
       LET st' <- receiver st ;;
       Some (st', IP_NULL)
     else
       ASSERT IE_BITS_TYPE bits =? MACH_PORT_TYPE_SEND ;;
       LET (st', dnrequest) <- ipc_right_dncancel_macro st port name ref ;;
       LET st'' <- hash_delete port name ref st' ;;
       LET st3 <- sender (cancel_marequest bits name st'') ;;
       LET st4 <- entry_upd ref (v_set_object IO_NULL) st3 ;;
       Some (st4, dnrequest)) ;;
  LET st2 <- entry_upd ref (v_set_bits (Z.ldiff bits (Z.lor IE_BITS_UREFS_MASK MACH_PORT_TYPE_SEND))) st1 ;;
  Some (st2, dnrequest).

Definition copyin_move_send (name : Z) (v : eview) (ref : entry_ref) (st : rstate S) : option copied :=
  let bits := ev_bits v in
  let port := ev_object v in
  with_send st v (fun q =>
    if IE_BITS_UREFS bits =? 1 then
      LET (st1, dnrequest) <-
        move_last_send st name v ref (on_world (port_upd port ip_reference)) Some ;;
      Some (st1, inr (port, dnrequest))
    else
      LET st1 <- entry_upd ref (v_set_bits (u32 (bits - 1)))
        (with_world (put_port port (ip_reference (incr_srights q)) (r_world st)) st) ;;
      Some (st1, inr (port, IP_NULL))).

Definition copyin_move_send_once (name : Z) (v : eview) (ref : entry_ref) (st : rstate S) : option copied :=
  let bits := ev_bits v in
  let port := ev_object v in
  LET q <- w_ports (r_world st) !! port ;;
  if negb (bit bits MACH_PORT_TYPE_SEND_ONCE) then
    ASSERT bit bits MACH_PORT_TYPE_SEND ;;
    ASSERT 0 <? ip_srights q ;;
    Some (st, inl KERN_INVALID_RIGHT)
  else
    ASSERT IE_BITS_TYPE bits =? MACH_PORT_TYPE_SEND_ONCE ;;
    ASSERT IE_BITS_UREFS bits =? 1 ;;
    ASSERT negb (bit bits IE_BITS_MAREQUEST) ;;
    ASSERT 0 <? ip_sorights q ;;
    LET (st1, dnrequest) <- ipc_right_dncancel_macro st port name ref ;;
    LET st2 <- entry_upd ref (fun v => v_set_bits (Z.ldiff bits MACH_PORT_TYPE_SEND_ONCE) (v_set_object IO_NULL v)) st1 ;;
    Some (st2, inr (port, dnrequest)).

Definition ipc_right_copyin (st : rstate S) (name : Z) (ref : entry_ref) (msgt_name : mach_msg_type_name)
    (deadok : bool) : option copied :=
  LET v <- cs_entry (r_space st) ref ;;
  ASSERT cs_active (r_space st) ;;
  match msgt_name with
  | MACH_MSG_TYPE_MAKE_SEND => copyin_make st name v false
  | MACH_MSG_TYPE_MAKE_SEND_ONCE => copyin_make st name v true
  | MACH_MSG_TYPE_MOVE_RECEIVE => copyin_move_receive st name v ref
  | MACH_MSG_TYPE_COPY_SEND => copyin_send_rights st name v deadok false ref (copyin_copy_send v)
  | MACH_MSG_TYPE_MOVE_SEND => copyin_send_rights st name v deadok true ref (copyin_move_send name v ref)
  | MACH_MSG_TYPE_MOVE_SEND_ONCE => copyin_send_rights st name v deadok true ref (copyin_move_send_once name v ref)
  end.

(** [ipc_object_release(object)] of a port. *)
Definition ipc_right_copyin_undo (st : rstate S) (name : Z) (ref : entry_ref) (msgt_name : mach_msg_type_name)
    (object soright : Z) : option (rstate S) :=
  LET v <- cs_entry (r_space st) ref ;;
  let bits := ev_bits v in
  let mt t := bool_decide (msgt_name = t) in
  ASSERT cs_active (r_space st) ;;
  ASSERT mt MACH_MSG_TYPE_MOVE_SEND || mt MACH_MSG_TYPE_COPY_SEND || mt MACH_MSG_TYPE_MOVE_SEND_ONCE ;;
  LET st1 <-
    (if negb (soright =? IP_NULL) then
       ASSERT mt MACH_MSG_TYPE_MOVE_SEND || mt MACH_MSG_TYPE_MOVE_SEND_ONCE ;;
       ASSERT IE_BITS_TYPE bits =? MACH_PORT_TYPE_NONE ;;
       ASSERT ev_object v =? IO_NULL ;;
       ASSERT negb (object =? IO_DEAD) ;;
       entry_upd ref (v_set_bits (Z.lor (Z.lor (Z.ldiff bits IE_BITS_RIGHT_MASK) MACH_PORT_TYPE_DEAD_NAME) 2)) st
     else if IE_BITS_TYPE bits =? MACH_PORT_TYPE_NONE then
       ASSERT mt MACH_MSG_TYPE_MOVE_SEND || mt MACH_MSG_TYPE_MOVE_SEND_ONCE ;;
       ASSERT ev_object v =? IO_NULL ;;
       entry_upd ref (v_set_bits (Z.lor (Z.lor (Z.ldiff bits IE_BITS_RIGHT_MASK) MACH_PORT_TYPE_DEAD_NAME) 1)) st
     else if IE_BITS_TYPE bits =? MACH_PORT_TYPE_DEAD_NAME then
       ASSERT ev_object v =? IO_NULL ;;
       ASSERT object =? IO_DEAD ;;
       ASSERT 0 <? IE_BITS_UREFS bits ;;
       if negb (mt MACH_MSG_TYPE_COPY_SEND) then
         ASSERT IE_BITS_UREFS bits <? MACH_PORT_UREFS_MAX ;;
         entry_upd ref (v_set_bits (u32 (bits + 1))) st
       else Some st
     else
       ASSERT mt MACH_MSG_TYPE_MOVE_SEND || mt MACH_MSG_TYPE_COPY_SEND ;;
       ASSERT IE_BITS_TYPE bits =? MACH_PORT_TYPE_SEND ;;
       ASSERT negb (object =? IO_DEAD) ;;
       ASSERT ev_object v =? object ;;
       ASSERT 0 <? IE_BITS_UREFS bits ;;
       LET st' <-
         (if negb (mt MACH_MSG_TYPE_COPY_SEND) then
            ASSERT IE_BITS_UREFS bits <? MACH_PORT_UREFS_MAX - 1 ;;
            entry_upd ref (v_set_bits (u32 (bits + 1))) st
          else Some st) ;;
       LET (st'', _) <- ipc_right_check st' object name ref ;;
       Some st'') ;;
  (* release the reference acquired by copyin *)
  if negb (object =? IO_DEAD) then on_world (ipc_port_release object) st1 else Some st1.

Definition ipc_right_copyin_two (st : rstate S) (name : Z) (ref : entry_ref) : option copied :=
  LET v <- cs_entry (r_space st) ref ;;
  let bits := ev_bits v in
  let port := ev_object v in
  ASSERT cs_active (r_space st) ;;
  let urefs := IE_BITS_UREFS bits in
  if negb (bit bits MACH_PORT_TYPE_SEND) || (urefs <? 2) then Some (st, inl KERN_INVALID_RIGHT)
  else
    ASSERT negb (port =? IP_NULL) ;;
    LET (st1, died) <- ipc_right_check st port name ref ;;
    if died : bool then
      Some (st1, inl (if bit bits IE_BITS_COMPAT then KERN_INVALID_NAME else KERN_INVALID_RIGHT))
    else
      LET q <- w_ports (r_world st1) !! port ;;
      ASSERT 0 <? ip_srights q ;;
      if urefs =? 2 then
        LET (st2, dnrequest) <-
          move_last_send st1 name v ref
            (on_world (port_upd port (fun q => ip_reference (ip_reference (incr_srights q)))))
            (on_world (port_upd port (fun q => ip_reference (incr_srights q)))) ;;
        Some (st2, inr (port, dnrequest))
      else
        let q1 := ip_set_srights (u32 (ip_srights q + 2)) q in
        LET st2 <- entry_upd ref (v_set_bits (u32 (bits - 2)))
          (with_world (put_port port (ip_reference (ip_reference q1)) (r_world st1)) st1) ;;
        Some (st2, inr (port, IP_NULL)).

(** ** Copying out *)

Definition copyout_send (st : rstate S) (name object : Z) (v : eview) (ref : entry_ref) (overflow : bool) (q : ipc_port)
    : option (rstate S * kern_return) :=
  let bits := ev_bits v in
  let drop := ip_release (ip_set_srights (u32 (ip_srights q - 1)) q) in
  let urefs := IE_BITS_UREFS bits in
  ASSERT 0 <? ip_srights q ;;
  if bit bits MACH_PORT_TYPE_SEND && (urefs + 1 =? MACH_PORT_UREFS_MAX) then
    ASSERT 1 <? ip_srights q ;;
    ASSERT 0 <? urefs ;;
    (* leave urefs pegged to maximum *)
    if overflow then Some (with_world (put_port object drop (r_world st)) st, KERN_SUCCESS)
    else Some (st, KERN_UREFS_OVERFLOW)
  else
    LET st1 <-
      (if bit bits MACH_PORT_TYPE_SEND then
         ASSERT 1 <? ip_srights q ;;
         ASSERT 0 <? urefs ;;
         ASSERT urefs <? MACH_PORT_UREFS_MAX ;;
         Some (with_world (put_port object drop (r_world st)) st)
       else if bit bits MACH_PORT_TYPE_RECEIVE then
         ASSERT IE_BITS_TYPE bits =? MACH_PORT_TYPE_RECEIVE ;;
         ASSERT urefs =? 0 ;;
         (* transfer send right to entry *)
         Some (with_world (put_port object (ip_release q) (r_world st)) st)
       else
         ASSERT IE_BITS_TYPE bits =? MACH_PORT_TYPE_NONE ;;
         ASSERT urefs =? 0 ;;
         (* transfer send right and ref to entry *)
         hash_insert object name ref st) ;;
    LET st2 <- entry_upd ref (v_set_bits (u32 (Z.lor bits MACH_PORT_TYPE_SEND + 1))) st1 ;;
    Some (st2, KERN_SUCCESS).

Definition copyout_receive (st : rstate S) (name object : Z) (v : eview) (ref : entry_ref) (q : ipc_port)
    : option (rstate S * kern_return) :=
  let bits := ev_bits v in
  ASSERT ip_mscount q =? 0 ;;
  ASSERT ip_receiver_name q =? MACH_PORT_NULL ;;
  let dest := ip_destination q in
  let q1 := ip_set_data (self st) (ip_set_receiver_name name q) in
  ASSERT negb (bit bits MACH_PORT_TYPE_RECEIVE) ;;
  LET st1 <-
    (if bit bits MACH_PORT_TYPE_SEND then
       ASSERT IE_BITS_TYPE bits =? MACH_PORT_TYPE_SEND ;;
       ASSERT 0 <? IE_BITS_UREFS bits ;;
       ASSERT 0 <? ip_srights q1 ;;
       hash_delete object name ref (with_world (put_port object (ip_release q1) (r_world st)) st)
     else
       ASSERT IE_BITS_TYPE bits =? MACH_PORT_TYPE_NONE ;;
       ASSERT IE_BITS_UREFS bits =? 0 ;;
       (* transfer ref to entry *)
       Some (with_world (put_port object q1 (r_world st)) st)) ;;
  LET st2 <- entry_upd ref (v_set_bits (Z.lor bits MACH_PORT_TYPE_RECEIVE)) st1 ;;
  LET st3 <- (if negb (dest =? IP_NULL) then on_world (ipc_port_release dest) st2 else Some st2) ;;
  Some (st3, KERN_SUCCESS).

Definition ipc_right_copyout (st : rstate S) (name : Z) (ref : entry_ref) (msgt_name : mach_msg_type_name)
    (overflow : bool) (object : Z) : option (rstate S * kern_return) :=
  LET v <- cs_entry (r_space st) ref ;;
  let bits := ev_bits v in
  ASSERT IP_VALID object ;;
  LET q <- w_ports (r_world st) !! object ;;
  ASSERT ip_active q ;;
  ASSERT ev_object v =? object ;;
  match msgt_name with
  | MACH_MSG_TYPE_MOVE_SEND_ONCE =>
      ASSERT IE_BITS_TYPE bits =? MACH_PORT_TYPE_NONE ;;
      ASSERT 0 <? ip_sorights q ;;
      (* transfer send-once right and ref to entry *)
      LET st1 <- entry_upd ref (v_set_bits (Z.lor bits (Z.lor MACH_PORT_TYPE_SEND_ONCE 1))) st ;;
      Some (st1, KERN_SUCCESS)
  | MACH_MSG_TYPE_MOVE_SEND => copyout_send st name object v ref overflow q
  | MACH_MSG_TYPE_MOVE_RECEIVE => copyout_receive st name object v ref q
  | _ => None
  end.

(** ** Renaming *)

(** The object's record of its name. *)
Definition rename_object (st : rstate S) (type object oname nname : Z) (oref nref : entry_ref) : option (rstate S) :=
  if type =? MACH_PORT_TYPE_SEND then
    ASSERT negb (object =? IP_NULL) ;;
    LET st1 <- hash_delete object oname oref st ;;
    hash_insert object nname nref st1
  else if (type =? MACH_PORT_TYPE_RECEIVE) || (type =? MACH_PORT_TYPE_SEND_RECEIVE) then
    ASSERT negb (object =? IP_NULL) ;;
    LET q <- w_ports (r_world st) !! object ;;
    ASSERT ip_active q ;;
    ASSERT ip_receiver_name q =? oname ;;
    ASSERT ip_receiver q =? self st ;;
    Some (with_world (put_port object (ip_set_receiver_name nname q) (r_world st)) st)
  else if type =? MACH_PORT_TYPE_PORT_SET then
    ASSERT negb (object =? IPS_NULL) ;;
    LET s <- w_psets (r_world st) !! object ;;
    ASSERT ips_active s ;;
    ASSERT ips_local_name s =? oname ;;
    Some (with_world (put_pset object (ips_set_local_name nname s) (r_world st)) st)
  else if (type =? MACH_PORT_TYPE_SEND_ONCE) || (type =? MACH_PORT_TYPE_DEAD_NAME) then Some st
  else None.

Definition ipc_right_rename (st : rstate S) (oname : Z) (oref : entry_ref) (nname : Z) (nref : entry_ref)
    : option (rstate S * kern_return) :=
  LET v <- cs_entry (r_space st) oref ;;
  let bits := ev_bits v in
  let request := ev_request v in
  let object := ev_object v in
  ASSERT cs_active (r_space st) ;;
  ASSERT negb (oname =? nname) ;;
  LET (st1, died) <-
    (if negb (request =? 0) then
       ASSERT bit bits MACH_PORT_TYPE_PORT_RIGHTS ;;
       ASSERT negb (object =? IP_NULL) ;;
       LET (st', died) <- ipc_right_check st object oname oref ;;
       if died : bool then Some (st', true)
       else
         LET q <- w_ports (r_world st') !! object ;;
         LET q' <- ipc_port_dnrename q request oname nname ;;
         LET st'' <- entry_upd oref (v_set_request 0) (with_world (put_port object q' (r_world st')) st') ;;
         Some (st'', false)
     else Some (st, false)) ;;
  if died && bit bits IE_BITS_COMPAT then
    LET st2 <- entry_dealloc nname nref st1 ;; Some (st2, KERN_INVALID_NAME)
  else
    LET (bits, request, object) <-
      (if died : bool then
         LET v1 <- cs_entry (r_space st1) oref ;;
         ASSERT ev_type v1 =? MACH_PORT_TYPE_DEAD_NAME ;;
         ASSERT ev_request v1 =? 0 ;;
         ASSERT ev_object v1 =? IO_NULL ;;
         Some (ev_bits v1, 0, IO_NULL)
       else Some (bits, request, object)) ;;
    ASSERT negb (bit bits IE_BITS_MAREQUEST) || bit bits MACH_PORT_TYPE_SEND_RECEIVE ;;
    let st2 := if bit bits IE_BITS_MAREQUEST then log [Marequest_rename (self st1) oname nname] st1 else st1 in
    (* initialize nentry before letting ipc_hash_insert see it *)
    LET nv <- cs_entry (r_space st2) nref ;;
    ASSERT negb (bit (ev_bits nv) IE_BITS_RIGHT_MASK) ;;
    LET st3 <- entry_upd nref
      (fun nv => mk_view (Z.lor (ev_bits nv) (Z.land bits IE_BITS_RIGHT_MASK)) object request) st2 ;;
    LET st4 <- rename_object st3 (IE_BITS_TYPE bits) object oname nname oref nref ;;
    LET ov <- cs_entry (r_space st4) oref ;;
    ASSERT ev_request ov =? 0 ;;
    LET st5 <- drop_entry oname oref st4 ;;
    Some (st5, KERN_SUCCESS).

(** ** Old-style copying in *)

(** [MSG_TYPE_PORT] with deallocation: the send right is pulled out. *)
Definition compat_port_dealloc (st : rstate S) (name : Z) (v : eview) (ref : entry_ref)
    : option (rstate S * (kern_return + Z)) :=
  let bits := ev_bits v in
  let port := ev_object v in
  if negb (IE_BITS_TYPE bits =? MACH_PORT_TYPE_SEND) then Some (st, inl KERN_INVALID_RIGHT)
  else
    ASSERT negb (port =? IP_NULL) ;;
    LET (st1, died) <- ipc_right_check st port name ref ;;
    if died : bool then
      Some (st1, inl (if bit bits IE_BITS_COMPAT then KERN_INVALID_NAME else KERN_INVALID_RIGHT))
    else
      LET (st2, dnrequest) <- ipc_right_dncancel_macro st1 port name ref ;;
      LET q <- w_ports (r_world st2) !! port ;;
      ASSERT 0 <? ip_srights q ;;
      LET st3 <- drop_entry name ref (cancel_marequest bits name st2) ;;
      Some (notify_port_deleted dnrequest name st3, inr port).

(** [MSG_TYPE_PORT] without: a send right is copied or made. *)
Definition compat_port_copy (st : rstate S) (name : Z) (v : eview) (ref : entry_ref)
    : option (rstate S * (kern_return + Z)) :=
  let bits := ev_bits v in
  let port := ev_object v in
  if negb (bit bits MACH_PORT_TYPE_SEND_RECEIVE) then Some (st, inl KERN_INVALID_RIGHT)
  else
    ASSERT negb (port =? IP_NULL) ;;
    LET (st1, died) <- ipc_right_check st port name ref ;;
    if died : bool then
      Some (st1, inl (if bit bits IE_BITS_COMPAT then KERN_INVALID_NAME else KERN_INVALID_RIGHT))
    else
      LET q <- w_ports (r_world st1) !! port ;;
      LET q1 <-
        (if negb (bit bits MACH_PORT_TYPE_SEND) then
           ASSERT IE_BITS_TYPE bits =? MACH_PORT_TYPE_RECEIVE ;;
           ASSERT IE_BITS_UREFS bits =? 0 ;;
           Some (ip_set_mscount (u32 (ip_mscount q + 1)) q)
         else Some q) ;;
      Some (with_world (put_port port (ip_reference (incr_srights q1)) (r_world st1)) st1, inr port).

(** [MSG_TYPE_PORT_ALL] with deallocation. *)
Definition compat_all_dealloc (st : rstate S) (name : Z) (v : eview) (ref : entry_ref)
    : option (rstate S * (kern_return + Z)) :=
  let bits := ev_bits v in
  let port := ev_object v in
  if negb (bit bits MACH_PORT_TYPE_RECEIVE) then Some (st, inl KERN_INVALID_RIGHT)
  else
    ASSERT negb (port =? IP_NULL) ;;
    LET q <- w_ports (r_world st) !! port ;;
    ASSERT ip_active q ;;
    ASSERT ip_receiver_name q =? name ;;
    ASSERT ip_receiver q =? self st ;;
    LET (st1, dnrequest) <- ipc_right_dncancel_macro st port name ref ;;
    LET st2 <- drop_entry name ref (cancel_marequest bits name st1) ;;
    LET (st3, ns) <-
      (if bit bits MACH_PORT_TYPE_SEND then
         ASSERT IE_BITS_TYPE bits =? MACH_PORT_TYPE_SEND_RECEIVE ;;
         ASSERT 0 <? IE_BITS_UREFS bits ;;
         drop_srights port st2
       else Some (st2, (IP_NULL, 0))) ;;
    LET st4 <- on_world (limbo port) st3 ;;
    Some (notify_port_deleted dnrequest name (notify_no_senders ns st4), inr port).

(** [MSG_TYPE_PORT_ALL] without: the space is left with a send right. *)
Definition compat_all_keep (st : rstate S) (name : Z) (v : eview) (ref : entry_ref)
    : option (rstate S * (kern_return + Z)) :=
  let bits := ev_bits v in
  let port := ev_object v in
  if negb (bit bits MACH_PORT_TYPE_RECEIVE) then Some (st, inl KERN_INVALID_RIGHT)
  else
    ASSERT negb (port =? IP_NULL) ;;
    LET q <- w_ports (r_world st) !! port ;;
    ASSERT ip_active q ;;
    ASSERT ip_receiver_name q =? name ;;
    ASSERT ip_receiver q =? self st ;;
    LET (st1, bits1) <-
      (if negb (bit bits MACH_PORT_TYPE_SEND) then
         ASSERT IE_BITS_TYPE bits =? MACH_PORT_TYPE_RECEIVE ;;
         ASSERT IE_BITS_UREFS bits =? 0 ;;
         Some (with_world (put_port port (incr_srights q) (r_world st)) st,
               Z.lor bits (Z.lor MACH_PORT_TYPE_SEND 1))
       else Some (st, bits)) ;;
    LET st2 <- hash_insert port name ref st1 ;;
    LET st3 <- entry_upd ref (v_set_bits (Z.ldiff bits1 MACH_PORT_TYPE_RECEIVE)) st2 ;;
    LET st4 <- on_world (limbo port) st3 ;;
    LET st5 <- on_world (port_upd port ip_reference) st4 ;;
    Some (st5, inr port).

(** [all] is [MSG_TYPE_PORT_ALL], otherwise [MSG_TYPE_PORT]. *)
Definition ipc_right_copyin_compat (st : rstate S) (name : Z) (ref : entry_ref) (all dealloc : bool)
    : option (rstate S * (kern_return + Z)) :=
  LET v <- cs_entry (r_space st) ref ;;
  ASSERT cs_active (r_space st) ;;
  match all, dealloc with
  | false, true => compat_port_dealloc st name v ref
  | false, false => compat_port_copy st name v ref
  | true, true => compat_all_dealloc st name v ref
  | true, false => compat_all_keep st name v ref
  end.

(** The send-once case of [ipc_right_copyin_header]. *)
Definition header_send_once (st : rstate S) (name is_notify : Z) (v : eview) (ref : entry_ref)
    : option (rstate S * (kern_return + Z * mach_msg_type_name)) :=
  let bits := ev_bits v in
  let port := ev_object v in
  ASSERT IE_BITS_UREFS bits =? 1 ;;
  ASSERT negb (bit bits IE_BITS_MAREQUEST) ;;
  ASSERT negb (port =? IP_NULL) ;;
  LET (st1, died) <- ipc_right_check st port name ref ;;
  if died : bool then
    Some (st1, inl (if bit bits IE_BITS_COMPAT then KERN_INVALID_NAME else KERN_INVALID_RIGHT))
  else
    LET q <- w_ports (r_world st1) !! port ;;
    ASSERT 0 <? ip_sorights q ;;
    LET (st2, dnrequest) <- ipc_right_dncancel_macro st1 port name ref ;;
    LET st3 <- drop_entry name ref st2 ;;
    LET (w4, notify) <- ipc_port_copy_send is_notify (r_world st3) ;;
    let st5 := notify_port_deleted dnrequest name (with_world w4 st3) in
    Some (if IP_VALID notify then log [Notify_port_deleted_compat notify name] st5 else st5,
          inr (port, MACH_MSG_TYPE_PORT_SEND_ONCE)).

(** [is_notify] is the field of the space. *)
Definition ipc_right_copyin_header (st : rstate S) (name : Z) (ref : entry_ref) (is_notify : Z)
    : option (rstate S * (kern_return + Z * mach_msg_type_name)) :=
  LET v <- cs_entry (r_space st) ref ;;
  let bits := ev_bits v in
  let type := IE_BITS_TYPE bits in
  let port := ev_object v in
  ASSERT cs_active (r_space st) ;;
  if (type =? MACH_PORT_TYPE_PORT_SET) || (type =? MACH_PORT_TYPE_DEAD_NAME) then
    Some (st, inl KERN_INVALID_RIGHT)
  else if type =? MACH_PORT_TYPE_RECEIVE then
    ASSERT negb (port =? IP_NULL) ;;
    LET q <- w_ports (r_world st) !! port ;;
    ASSERT ip_active q ;;
    ASSERT ip_receiver_name q =? name ;;
    ASSERT ip_receiver q =? self st ;;
    let q1 := incr_srights (ip_set_mscount (u32 (ip_mscount q + 1)) q) in
    Some (with_world (put_port port (ip_reference q1) (r_world st)) st, inr (port, MACH_MSG_TYPE_PORT_SEND))
  else if (type =? MACH_PORT_TYPE_SEND) || (type =? MACH_PORT_TYPE_SEND_RECEIVE) then
    ASSERT 0 <? IE_BITS_UREFS bits ;;
    ASSERT negb (port =? IP_NULL) ;;
    LET (st1, died) <- ipc_right_check st port name ref ;;
    if died : bool then
      Some (st1, inl (if bit bits IE_BITS_COMPAT then KERN_INVALID_NAME else KERN_INVALID_RIGHT))
    else
      LET q <- w_ports (r_world st1) !! port ;;
      ASSERT 0 <? ip_srights q ;;
      Some (with_world (put_port port (ip_reference (incr_srights q)) (r_world st1)) st1,
            inr (port, MACH_MSG_TYPE_PORT_SEND))
  else if type =? MACH_PORT_TYPE_SEND_ONCE then header_send_once st name is_notify v ref
  else None.
End Copy.
