(* ===== verification/IpcRightBits.v ===== *)
(** * The bits of rights

    How the expressions of ipc_right.c on [ie_bits] change the type, the user
    references and the flags of an entry. *)

From S2P Require Import Prelude PortName IpcTypes IpcMqueue IpcPort IpcWorld IpcPortOps.
From S2P Require Import IpcSpaceInv IpcCap IpcRight.

(** ** Fields of combined words *)

Lemma land_ldiff_swap x y m : Z.land (Z.ldiff x y) m = Z.land x (Z.ldiff m y).
Proof.
  apply Z.bits_inj'. intros n Hn. rewrite !Z.land_spec, !Z.ldiff_spec.
  by destruct (Z.testbit x n), (Z.testbit y n), (Z.testbit m n).
Qed.

Lemma ldiff_ldiff_lor x y m : Z.ldiff (Z.ldiff x y) m = Z.ldiff x (Z.lor y m).
Proof. apply Z.ldiff_ldiff_l. Qed.

Lemma ldiff_lor_distr x y m : Z.ldiff (Z.lor x y) m = Z.lor (Z.ldiff x m) (Z.ldiff y m).
Proof.
  apply Z.bits_inj'. intros n Hn. rewrite !Z.ldiff_spec, !Z.lor_spec, !Z.ldiff_spec.
  by destruct (Z.testbit x n), (Z.testbit y n), (Z.testbit m n).
Qed.

(** Evaluates operations on masks. *)
Ltac ground z :=
  lazymatch z with
  | Z0 => idtac | Zpos _ => idtac | Zneg _ => idtac
  | Z.land ?a ?b => ground a; ground b
  | Z.lor ?a ?b => ground a; ground b
  | Z.ldiff ?a ?b => ground a; ground b
  | _ => is_const z
  end.

Ltac mask_eval :=
  repeat match goal with
  | |- context [?f ?a ?b] =>
      match f with Z.land => idtac | Z.lor => idtac | Z.ldiff => idtac end;
      ground a; ground b;
      let v := eval vm_compute in (f a b) in
      match v with Z0 => idtac | Zpos _ => idtac | Zneg _ => idtac end;
      change (f a b) with v
  end.

(** Proves that a field of a combined word is what it says. *)
Ltac fields :=
  unfold IE_BITS_TYPE, IE_BITS_UREFS, IE_BITS_RIGHT in *;
  rewrite ?Z.land_lor_distr_l, ?land_ldiff_swap, <- ?Z.land_assoc, ?ldiff_lor_distr, ?ldiff_ldiff_lor;
  rewrite ?land_ldiff_swap;
  mask_eval; rewrite ?Z.land_0_r, ?Z.lor_0_r, ?Z.lor_0_l; try reflexivity.

Section Bits.
Implicit Types (b m : Z).

Lemma type_ldiff b m : IE_BITS_TYPE (Z.ldiff b m) = Z.ldiff (IE_BITS_TYPE b) m.
Proof.
  unfold IE_BITS_TYPE. apply Z.bits_inj'. intros n Hn. rewrite !Z.ldiff_spec, !Z.land_spec, Z.ldiff_spec.
  by destruct (Z.testbit b n), (Z.testbit m n), (Z.testbit IE_BITS_TYPE_MASK n).
Qed.

Lemma bit_type b m : Z.land m IE_BITS_TYPE_MASK = m -> bit b m = bit (IE_BITS_TYPE b) m.
Proof.
  intros H. unfold bit, IE_BITS_TYPE. rewrite <- Z.land_assoc, (Z.land_comm IE_BITS_TYPE_MASK), H. done.
Qed.

Lemma bit_right b m : Z.land m IE_BITS_RIGHT_MASK = m -> bit (IE_BITS_RIGHT b) m = bit b m.
Proof.
  intros H. unfold bit, IE_BITS_RIGHT. rewrite <- Z.land_assoc, (Z.land_comm IE_BITS_RIGHT_MASK), H. done.
Qed.

Lemma urefs_right b : IE_BITS_UREFS (IE_BITS_RIGHT b) = IE_BITS_UREFS b.
Proof. fields. Qed.

Lemma right_type b : IE_BITS_TYPE (IE_BITS_RIGHT b) = IE_BITS_TYPE b.
Proof. fields. Qed.

Lemma urefs_mod b : IE_BITS_UREFS b = b mod 2 ^ 16.
Proof. unfold IE_BITS_UREFS. change IE_BITS_UREFS_MASK with (Z.ones 16). by rewrite Z.land_ones. Qed.

Lemma urefs_range b : 0 <= IE_BITS_UREFS b <= MACH_PORT_UREFS_MAX.
Proof.
  rewrite urefs_mod. change MACH_PORT_UREFS_MAX with 65535.
  pose proof (Z.mod_pos_bound b (2 ^ 16)). lia.
Qed.

(** ** Adding to the user references *)

Section Add.
Variables (b d : Z).
Hypothesis Hb : is_u32 b.
Hypothesis Hd : 0 <= IE_BITS_UREFS b + d <= MACH_PORT_UREFS_MAX.

Lemma add_urefs_parts : u32 (b + d) = b + d /\ (b + d) mod 2 ^ 16 = IE_BITS_UREFS b + d /\ (b + d) / 2 ^ 16 = b / 2 ^ 16.
Proof using All.
  rewrite urefs_mod in *. change MACH_PORT_UREFS_MAX with 65535 in Hd.
  pose proof (Z.div_mod b (2 ^ 16)) as Hdm. pose proof (Z.mod_pos_bound b (2 ^ 16)).
  assert (b / 2 ^ 16 < 2 ^ 16). { apply Z.div_lt_upper_bound; [lia|]. unfold is_u32, wordsize in Hb. lia. }
  assert (0 <= b / 2 ^ 16). { apply Z.div_pos; [apply Hb|lia]. }
  assert (b + d = (b / 2 ^ 16) * 2 ^ 16 + (b mod 2 ^ 16 + d)) as E by lia.
  split_and!.
  - apply u32_small. unfold is_u32, wordsize. lia.
  - rewrite E, Z.add_comm, Z.mod_add, Z.mod_small by lia. done.
  - rewrite E at 1. rewrite Z.div_add_l, (Z.div_small (b mod 2 ^ 16 + d)) by lia. lia.
Qed.

Lemma add_urefs_u32 : is_u32 (u32 (b + d)).
Proof using. apply u32_range. Qed.

Lemma add_urefs : IE_BITS_UREFS (u32 (b + d)) = IE_BITS_UREFS b + d.
Proof using All. destruct add_urefs_parts as (-> & H & _). by rewrite urefs_mod at 1. Qed.

Lemma add_urefs_testbit n : 16 <= n -> Z.testbit (u32 (b + d)) n = Z.testbit b n.
Proof using All.
  intros Hn. destruct add_urefs_parts as (-> & _ & H). replace n with ((n - 16) + 16) by lia.
  rewrite <- !Z.shiftr_spec by lia. by rewrite !Z.shiftr_div_pow2, H by lia.
Qed.

Lemma add_urefs_land m : Z.land m IE_BITS_UREFS_MASK = 0 -> Z.land (u32 (b + d)) m = Z.land b m.
Proof using All.
  intros Hm. apply Z.bits_inj'. intros n Hn. rewrite !Z.land_spec. destruct (decide (16 <= n)).
  - by rewrite add_urefs_testbit.
  - assert (Z.testbit m n = false) as ->; [|by rewrite !andb_false_r].
    apply (f_equal (fun z => Z.testbit z n)) in Hm. rewrite Z.land_spec, Z.bits_0 in Hm.
    rewrite urefs_mask_testbit in Hm by done. destruct (Z.leb_spec 0 n), (Z.ltb_spec n (0 + 16)); try lia.
    by rewrite andb_true_r in Hm.
Qed.

Lemma add_urefs_type : IE_BITS_TYPE (u32 (b + d)) = IE_BITS_TYPE b.
Proof using All. by apply add_urefs_land. Qed.

Lemma add_urefs_bit m : Z.land m IE_BITS_UREFS_MASK = 0 -> bit (u32 (b + d)) m = bit b m.
Proof using All. intros. unfold bit. by rewrite add_urefs_land. Qed.

Lemma add_urefs_place : same_place b (u32 (b + d)).
Proof using All.
  split; [apply u32_range|]. apply Z.bits_inj'. intros n Hn. rewrite !Z.ldiff_spec.
  destruct (decide (16 <= n)); [by rewrite add_urefs_testbit|].
  rewrite right_mask_testbit by done. destruct (Z.leb_spec 0 n), (Z.ltb_spec n (0 + 23)); cbn; rewrite ?andb_false_r; lia || done.

Qed.
End Add.

Lemma is_u32_pow n : 0 <= n < 32 -> is_u32 (2 ^ n).
Proof.
  intros Hn. split; [apply Z.pow_nonneg; lia|]. apply Z.pow_lt_mono_r; lia.
Qed.

(** ** Writes keep the place of an entry *)

Lemma same_place_refl b : is_u32 b -> same_place b b.
Proof. done. Qed.

Lemma same_place_trans b b' b'' : same_place b b' -> same_place b' b'' -> same_place b b''.
Proof. intros [? ?] [? ?]. split; congruence. Qed.

Lemma same_place_ldiff b m : is_u32 b -> Z.land m IE_BITS_RIGHT_MASK = m -> same_place b (Z.ldiff b m).
Proof.
  intros Hb Hm. split; [by apply is_u32_ldiff|].
  apply Z.bits_inj'. intros n Hn. apply (f_equal (fun z => Z.testbit z n)) in Hm.
  rewrite Z.land_spec in Hm. rewrite !Z.ldiff_spec.
  by destruct (Z.testbit b n), (Z.testbit m n), (Z.testbit IE_BITS_RIGHT_MASK n).
Qed.

Lemma same_place_lor b m : is_u32 b -> Z.land m IE_BITS_RIGHT_MASK = m -> same_place b (Z.lor b m).
Proof.
  intros Hb Hm. split.
  - apply is_u32_lor; [done|]. rewrite <- Hm, Z.land_comm. by apply is_u32_land.
  - apply Z.bits_inj'. intros n Hn. apply (f_equal (fun z => Z.testbit z n)) in Hm.
    rewrite Z.land_spec in Hm. rewrite !Z.ldiff_spec, Z.lor_spec.
    by destruct (Z.testbit b n), (Z.testbit m n), (Z.testbit IE_BITS_RIGHT_MASK n).
Qed.

(** ** The conversion to a dead name *)

Definition dead_bits b : Z := Z.lor (Z.ldiff b IE_BITS_TYPE_MASK) MACH_PORT_TYPE_DEAD_NAME.

Lemma dead_bits_type b : IE_BITS_TYPE (dead_bits b) = MACH_PORT_TYPE_DEAD_NAME.
Proof. unfold dead_bits. fields. Qed.
Lemma dead_bits_urefs b : IE_BITS_UREFS (dead_bits b) = IE_BITS_UREFS b.
Proof. unfold dead_bits. fields. Qed.
Lemma dead_bits_bit b m : Z.land m IE_BITS_TYPE_MASK = 0 -> bit (dead_bits b) m = bit b m.
Proof.
  intros Hm. unfold bit, dead_bits. do 2 f_equal. apply Z.bits_inj'. intros n Hn.
  apply (f_equal (fun z => Z.testbit z n)) in Hm. revert Hm.
  rewrite !Z.land_spec, Z.lor_spec, Z.ldiff_spec, Z.bits_0.
  assert (Z.testbit MACH_PORT_TYPE_DEAD_NAME n = (n =? 20)) as -> by (by apply bit_testbit).
  rewrite type_mask_testbit by done.
  destruct (Z.testbit b n), (Z.testbit m n), (Z.eqb_spec n 20), (Z.leb_spec 16 n), (Z.ltb_spec n (16 + 5)); cbn; lia || done.
Qed.
Lemma dead_bits_place b : is_u32 b -> same_place b (dead_bits b).
Proof.
  intros Hb. eapply same_place_trans; [by apply (same_place_ldiff b IE_BITS_TYPE_MASK)|].
  apply same_place_lor; [by apply is_u32_ldiff|done].
Qed.

(** ** Taking away the send right *)

Definition no_send_bits b : Z := Z.ldiff b (Z.lor IE_BITS_UREFS_MASK MACH_PORT_TYPE_SEND).

Lemma no_send_bits_type b : IE_BITS_TYPE (no_send_bits b) = Z.ldiff (IE_BITS_TYPE b) MACH_PORT_TYPE_SEND.
Proof.
  unfold no_send_bits, IE_BITS_TYPE. rewrite land_ldiff_swap. apply Z.bits_inj'. intros n Hn.
  rewrite Z.land_spec, !Z.ldiff_spec, Z.lor_spec, Z.land_spec, type_mask_testbit, urefs_mask_testbit by done.
  destruct (Z.testbit b n), (Z.testbit MACH_PORT_TYPE_SEND n), (Z.leb_spec 0 n), (Z.leb_spec 16 n), (Z.ltb_spec n (16 + 5)),
    (Z.ltb_spec n (0 + 16)); cbn; lia || done.
Qed.
Lemma no_send_bits_urefs b : IE_BITS_UREFS (no_send_bits b) = 0.
Proof. unfold no_send_bits. fields. Qed.
Lemma no_send_bits_place b : is_u32 b -> same_place b (no_send_bits b).
Proof. intros. by apply same_place_ldiff. Qed.
Lemma no_send_bits_bit b m :
  Z.land m (Z.lor IE_BITS_UREFS_MASK MACH_PORT_TYPE_SEND) = 0 -> bit (no_send_bits b) m = bit b m.
Proof.
  intros Hm. unfold bit, no_send_bits. rewrite land_ldiff_swap. do 3 f_equal.
  apply Z.bits_inj'. intros n Hn. apply (f_equal (fun z => Z.testbit z n)) in Hm. revert Hm.
  rewrite Z.land_spec, Z.ldiff_spec, Z.bits_0. by destruct (Z.testbit m n), (Z.testbit (Z.lor _ _) n).
Qed.
End Bits.

(** Decides the tests on the type of an entry, given the type. *)
Ltac type_bits H :=
  repeat match type of H with
  | IE_BITS_TYPE ?b = ?t =>
      match goal with
      | |- context [bit b ?m] =>
          rewrite (bit_type b m) by reflexivity; rewrite H;
          let v := eval vm_compute in (bit t m) in change (bit t m) with v
      end
  end.
