(* ===== verification/IpcDelta.v ===== *)
(** * Releasing a user reference, two ways

    [ipc_right_dealloc] "looks at the entry to determine the right"; otherwise
    it is [ipc_right_delta] with a delta of -1, which the comment above it
    says and the theorem here proves. *)

From S2P Require Import Prelude PortName IpcTable IpcTypes IpcMqueue IpcPort IpcWorld.
From S2P Require Import IpcPortOps IpcSpaceInv IpcCap IpcRight IpcRightBits.

Section Delta.
Context {S : Type} {CS : CapSpace S}.
Implicit Types (v : eview) (ref : entry_ref).

Lemma underflow_one urefs : 0 < urefs -> MACH_PORT_UREFS_UNDERFLOW urefs (-1) = false.
Proof.
  intros. unfold MACH_PORT_UREFS_UNDERFLOW. change (-1 <? 0) with true. change (u32 (- -1)) with 1. cbn [andb].
  apply Z.ltb_ge. lia.
Qed.

Lemma last_uref urefs : 0 < urefs <= MACH_PORT_UREFS_MAX -> (u32 (urefs + -1) =? 0) = (urefs =? 1).
Proof.
  change MACH_PORT_UREFS_MAX with 65535. intros. rewrite u32_small by (unfold is_u32, wordsize; lia).
  destruct (Z.eqb_spec (urefs + -1) 0), (Z.eqb_spec urefs 1); lia || done.
Qed.

(** The right a user reference of which [ipc_right_dealloc] releases. *)
Definition dealloc_right (type : Z) : option Z :=
  if type =? MACH_PORT_TYPE_DEAD_NAME then Some MACH_PORT_RIGHT_DEAD_NAME
  else if type =? MACH_PORT_TYPE_SEND_ONCE then Some MACH_PORT_RIGHT_SEND_ONCE
  else if (type =? MACH_PORT_TYPE_SEND) || (type =? MACH_PORT_TYPE_SEND_RECEIVE) then Some MACH_PORT_RIGHT_SEND
  else None.

(** The port of the entry, if it has one, is alive and knows its receiver. *)
Definition live_entry (st : rstate S) (name : Z) v : Prop :=
  ev_type v <> MACH_PORT_TYPE_DEAD_NAME ->
  exists q, w_ports (r_world st) !! ev_object v = Some q /\ ip_active q = true /\
    (ev_type v = MACH_PORT_TYPE_SEND_RECEIVE -> ip_receiver_name q = name /\ ip_receiver q = self st).

Lemma check_live (st : rstate S) name ref v q :
  cs_active (r_space st) = true -> cs_entry (r_space st) ref = Some v ->
  w_ports (r_world st) !! ev_object v = Some q -> ip_active q = true ->
  ipc_right_check st (ev_object v) name ref = Some (st, false).
Proof. intros Ha Hv Hq Hact. unfold ipc_right_check. by rewrite Ha, Hv, Z.eqb_refl, Hq, Hact. Qed.

Lemma dealloc_dead_is_delta (st : rstate S) name ref v :
  cs_entry (r_space st) ref = Some v -> ev_type v = MACH_PORT_TYPE_DEAD_NAME -> 0 < IE_BITS_UREFS (ev_bits v) ->
  dealloc_dead_name st name ref = delta_dead st name (-1) ref.
Proof.
  intros Hv Ht Hu. unfold dealloc_dead_name, delta_dead, ev_type in *. rewrite Hv, Ht.
  pose proof (urefs_range (ev_bits v)).
  rewrite underflow_one, last_uref by lia.
  rewrite (proj2 (Z.ltb_lt 0 _)) by done. change (MACH_PORT_UREFS_OVERFLOW _ (-1)) with false.
  rewrite !Z.eqb_refl. cbn match.
  by destruct (ev_request v =? 0), (ev_object v =? IO_NULL), (bit (ev_bits v) IE_BITS_MAREQUEST).
Qed.

Lemma dealloc_once_is_delta (st : rstate S) name ref v q :
  cs_active (r_space st) = true -> cs_entry (r_space st) ref = Some v ->
  ev_type v = MACH_PORT_TYPE_SEND_ONCE ->
  w_ports (r_world st) !! ev_object v = Some q -> ip_active q = true ->
  dealloc_send_once st name v ref = delta_send_once st name (-1) v ref.
Proof.
  intros Ha Hv Ht Hq Hact. unfold dealloc_send_once, delta_send_once, ev_type in *.
  type_bits Ht. rewrite ?Ht, Z.eqb_refl, (check_live st name ref v q) by done. done.
Qed.

Lemma dealloc_send_is_delta (st : rstate S) name ref v q :
  cs_active (r_space st) = true -> cs_entry (r_space st) ref = Some v ->
  ev_type v = MACH_PORT_TYPE_SEND -> 0 < IE_BITS_UREFS (ev_bits v) ->
  w_ports (r_world st) !! ev_object v = Some q -> ip_active q = true ->
  dealloc_send st name v ref = delta_send st name (-1) v ref.
Proof.
  intros Ha Hv Ht Hu Hq Hact. unfold dealloc_send, delta_send, ev_type in *. pose proof (urefs_range (ev_bits v)).
  type_bits Ht. rewrite ?Ht, (check_live st name ref v q), underflow_one, last_uref, Hq by (done || lia).
  rewrite (proj2 (Z.ltb_lt 0 (IE_BITS_UREFS _))) by done. change (MACH_PORT_UREFS_OVERFLOW _ (-1)) with false.
  cbn match. by rewrite !Z.eqb_refl.
Qed.

Lemma dealloc_both_is_delta (st : rstate S) name ref v q :
  cs_active (r_space st) = true -> cs_entry (r_space st) ref = Some v ->
  ev_type v = MACH_PORT_TYPE_SEND_RECEIVE -> 0 < IE_BITS_UREFS (ev_bits v) ->
  w_ports (r_world st) !! ev_object v = Some q -> ip_active q = true ->
  ip_receiver_name q = name -> ip_receiver q = self st ->
  dealloc_send_receive st name v ref = delta_send st name (-1) v ref.
Proof.
  intros Ha Hv Ht Hu Hq Hact Hn Hr. unfold dealloc_send_receive, delta_send, ev_type in *.
  pose proof (urefs_range (ev_bits v)).
  type_bits Ht. rewrite ?Ht, (check_live st name ref v q), underflow_one, last_uref, Hq, Hact, Hn, Hr by (done || lia).
  rewrite (proj2 (Z.ltb_lt 0 (IE_BITS_UREFS _))) by done. change (MACH_PORT_UREFS_OVERFLOW _ (-1)) with false.
  rewrite !Z.eqb_refl. cbn match. unfold drop_srights. rewrite Hq.
  destruct (0 <? ip_srights q); [|by destruct (negb _)]. destruct (dec_srights q) as [q' ns].
  destruct (IE_BITS_UREFS (ev_bits v) =? 1); [|done]. change (self (with_world _ st)) with (self st).
  by rewrite Z.eqb_refl.
Qed.

(** For an entry whose port is alive, or that is a dead name, releasing a
    user reference with [ipc_right_dealloc] is exactly [ipc_right_delta] by -1
    of the right the entry denotes: the same final state, the same events and
    the same result, assertion failures included; for every other entry it
    fails with KERN_INVALID_RIGHT and changes nothing. *)
Lemma dealloc_is_delta dits try (st : rstate S) name ref v :
  cs_active (r_space st) = true -> cs_entry (r_space st) ref = Some v ->
  match dealloc_right (ev_type v) with
  | Some rt => 0 < IE_BITS_UREFS (ev_bits v) -> live_entry st name v ->
      ipc_right_dealloc st name ref = ipc_right_delta dits try st name ref rt (-1)
  | None => ipc_right_dealloc st name ref = Some (st, KERN_INVALID_RIGHT)
  end.
Proof.
  intros Ha Hv. unfold dealloc_right, ipc_right_dealloc, ipc_right_delta. rewrite Ha, Hv.
  destruct (Z.eqb_spec (ev_type v) MACH_PORT_TYPE_DEAD_NAME) as [Ht|Ht].
  { intros Hu _. rewrite (dealloc_dead_is_delta st name ref v) by done. cbn match.
    unfold delta_dead_name, ev_type in *. by type_bits Ht. }
  destruct (Z.eqb_spec (ev_type v) MACH_PORT_TYPE_SEND_ONCE) as [Ho|Ho].
  { intros Hu (q & Hq & Hact & _); [done|]. by eapply dealloc_once_is_delta. }
  destruct (Z.eqb_spec (ev_type v) MACH_PORT_TYPE_SEND) as [Hs|Hs]; cbn [orb].
  { intros Hu (q & Hq & Hact & _); [done|]. by eapply dealloc_send_is_delta. }
  destruct (Z.eqb_spec (ev_type v) MACH_PORT_TYPE_SEND_RECEIVE) as [Hb|Hb]; [|done].
  intros Hu (q & Hq & Hact & Hr); [done|]. destruct (Hr Hb). by eapply dealloc_both_is_delta.
Qed.
End Delta.
