(* ===== verification/IpcRightInv.v ===== *)
(** * The invariant of the rights of a space

    What the assertions of ipc_right.c rely on: the entry of each right agrees
    with its port, at most one entry of a space is a send right for a port, and
    a port has a reference for each entry that names it. *)

From S2P Require Import Prelude PortName IpcTable IpcTypes IpcMqueue IpcPort IpcWorld.
From S2P Require Import IpcPortOps IpcRequests IpcSpaceInv IpcCap IpcRight IpcRightBits.

Section RightInv.
Implicit Types (w : world) (c : gmap Z capability) (n p : Z) (v : eview) (cap : capability) (q : ipc_port).

(** ** Entries and their ports *)

Definition compat v : bool := bit (ev_bits v) IE_BITS_COMPAT.
Definition marequest v : bool := bit (ev_bits v) IE_BITS_MAREQUEST.
Definition urefs v : Z := IE_BITS_UREFS (ev_bits v).

Lemma bit_ev_type v m : Z.land m IE_BITS_TYPE_MASK = m -> bit (ev_bits v) m = bit (ev_type v) m.
Proof. apply bit_type. Qed.

(** A request of an entry is registered with the port, under its name; for a
    compat entry it is the space itself. *)
Definition request_ok (self n : Z) v q : Prop :=
  (compat v = true -> ev_request v <> 0) /\
  (ip_active q = true -> ev_request v <> 0 ->
   exists so, port_requests q (ev_request v) = Some (n, so) /\ ipr_spacep so = compat v /\
     (compat v = true -> ipr_space so = self)).

Definition receives (self n : Z) q : Prop :=
  ip_active q = true /\ ip_receiver_name q = n /\ ip_receiver q = self.

Inductive right_ok (self n : Z) v q : Prop :=
| send_ok : ev_type v = MACH_PORT_TYPE_SEND -> 0 < urefs v < MACH_PORT_UREFS_MAX ->
    (ip_active q = true -> 0 < ip_srights q /\ ip_receiver q <> self) -> right_ok self n v q
| send_once_ok : ev_type v = MACH_PORT_TYPE_SEND_ONCE -> urefs v = 1 -> marequest v = false ->
    (ip_active q = true -> 0 < ip_sorights q) -> right_ok self n v q
| receive_ok : ev_type v = MACH_PORT_TYPE_RECEIVE -> urefs v = 0 -> receives self n q -> right_ok self n v q
| send_receive_ok : ev_type v = MACH_PORT_TYPE_SEND_RECEIVE -> 0 < urefs v < MACH_PORT_UREFS_MAX ->
    receives self n q -> 0 < ip_srights q -> right_ok self n v q.

Inductive entry_ok (self : Z) w n v : Prop :=
| dead_name_ok : ev_type v = MACH_PORT_TYPE_DEAD_NAME -> 0 < urefs v -> marequest v = false ->
    compat v = false -> ev_object v = IO_NULL -> ev_request v = 0 -> entry_ok self w n v
| port_set_ok s : ev_type v = MACH_PORT_TYPE_PORT_SET -> urefs v = 0 -> marequest v = false ->
    ev_object v <> IPS_NULL -> ev_request v = 0 ->
    w_psets w !! ev_object v = Some s -> ips_active s = true -> entry_ok self w n v
| port_ok q : ev_object v <> IP_NULL -> w_ports w !! ev_object v = Some q ->
    request_ok self n v q -> right_ok self n v q -> entry_ok self w n v.

(** The fields of a port: counts are words, the request table is well formed. *)
Definition port_wf q : Prop :=
  is_u32 (ip_references q) /\ is_u32 (ip_srights q) /\ is_u32 (ip_sorights q) /\ exists l, requests_wf q l.

(** ** Counting references *)

Definition refs w p : Z := from_option ip_references 0 (w_ports w !! p).

Definition for_port p cap : bool := is_port_type (cap_type cap) && (cap_object cap =? p).

Definition holds c p : Z := Z.of_nat (size (filter (fun kv => for_port p kv.2 = true) c)).

(** References given away in send-once notifications. *)
Definition passed (evs : list event) p : Z :=
  Z.of_nat (length (filter (fun e => e = Notify_send_once p) evs)).

(** References of a port not accounted for by the entries of the space. *)
Definition outside w c p : Z := refs w p - holds c p - passed (w_log w) p.

Definition cap_view cap : eview := mk_view (cap_right cap) (cap_object cap) (cap_request cap).

Record rights_ok (self : Z) w c : Prop := {
  ro_caps : forall n cap, c !! n = Some cap -> entry_ok self w n (cap_view cap);
  ro_sends : forall n n' cap cap', c !! n = Some cap -> c !! n' = Some cap' ->
    cap_type cap = MACH_PORT_TYPE_SEND -> cap_type cap' = MACH_PORT_TYPE_SEND ->
    cap_object cap = cap_object cap' -> n = n';
  ro_refs : forall p, holds c p <= refs w p;
  ro_ports : forall p q, w_ports w !! p = Some q -> port_wf q
}.

(** ** Lemmas on counts *)

Lemma holds_insert c n cap p : c !! n = None ->
  holds (<[n := cap]> c) p = holds c p + (if for_port p cap then 1 else 0).
Proof.
  intros Hn. unfold holds. destruct (for_port p cap) eqn:E.
  - rewrite map_filter_insert_True by done. rewrite map_size_insert_None; [lia|].
    apply map_lookup_filter_None. by left.
  - rewrite map_filter_insert_False by (cbn; congruence). rewrite delete_id by done. lia.
Qed.

Lemma holds_delete c n cap p : c !! n = Some cap ->
  holds c p = holds (delete n c) p + (if for_port p cap then 1 else 0).
Proof.
  intros Hn. rewrite <- (insert_delete_id c n cap Hn) at 1. by rewrite holds_insert by apply lookup_delete_eq.
Qed.

Lemma holds_nonneg c p : 0 <= holds c p.
Proof. unfold holds. lia. Qed.

(** No entry names a port without references. *)
Lemma holds_none c p n cap : holds c p <= 0 -> c !! n = Some cap -> for_port p cap = false.
Proof.
  intros H Hn. destruct (for_port p cap) eqn:E; [|done]. rewrite (holds_delete c n cap) in H by done.
  rewrite E in H. pose proof (holds_nonneg (delete n c) p). lia.
Qed.

Lemma passed_app l1 l2 p : passed (l1 ++ l2) p = passed l1 p + passed l2 p.
Proof. unfold passed. rewrite filter_app, length_app. lia. Qed.

Lemma passed_one e p : passed [e] p = if decide (e = Notify_send_once p) then 1 else 0.
Proof. unfold passed. rewrite filter_cons. by case_decide. Qed.

Lemma is_port_type_right b : is_port_type (IE_BITS_TYPE (IE_BITS_RIGHT b)) = is_port_type (IE_BITS_TYPE b).
Proof. by rewrite right_type. Qed.

Lemma for_port_view v p : for_port p (the_cap v) = is_port_type (ev_type v) && (ev_object v =? p).
Proof. unfold for_port, cap_type. cbn. by rewrite right_type. Qed.

(** ** An entry and its capability *)

Lemma entry_ok_cap self w n v : entry_ok self w n (cap_view (the_cap v)) <-> entry_ok self w n v.
Proof.
  assert (forall x y, ev_type x = ev_type y -> urefs x = urefs y -> marequest x = marequest y ->
    compat x = compat y -> ev_object x = ev_object y -> ev_request x = ev_request y ->
    entry_ok self w n x -> entry_ok self w n y) as Hsame.
  { intros x y Ht Hu Hm Hc Ho Hr H. destruct H as [| |q Hobj Hq Hreq Hok].
    - eapply dead_name_ok; congruence.
    - eapply (port_set_ok _ _ _ _ s); congruence.
    - apply (port_ok _ _ _ _ q); [congruence|congruence| |].
      + unfold request_ok in *. by rewrite <- Hc, <- Hr.
      + destruct Hok; [apply send_ok|apply send_once_ok|apply receive_ok|apply send_receive_ok];
          congruence || (rewrite <- ?Hu; done). }
  split; apply Hsame; unfold ev_type, urefs, marequest, compat; cbn;
    rewrite ?right_type, ?urefs_right, ?bit_right by reflexivity; done.
Qed.

Lemma right_ok_port self n v q : right_ok self n v q -> is_port_type (ev_type v) = true.
Proof. intros []; unfold is_port_type; by rewrite H. Qed.

Lemma entry_ok_type self w n v : entry_ok self w n v -> ev_type v <> 0.
Proof. intros [H|? H|q _ _ _ []]; by rewrite H. Qed.

(** Whether the entry of a port right counts is a matter of its object. *)
Lemma entry_ok_counts self w n v p : entry_ok self w n v -> p <> IP_NULL ->
  is_port_type (ev_type v) = true -> exists q, w_ports w !! ev_object v = Some q /\ ev_object v <> IP_NULL /\
    request_ok self n v q /\ right_ok self n v q.
Proof. intros [H|? H|q] Hp Ht; [by rewrite H in Ht|by rewrite H in Ht|by eauto]. Qed.

(** ** Changing a port *)

(** What a change of a port does not touch for the entries other than that of
    [n]; [lose] says that its send rights may be gone. *)
Record port_keeps (n : Z) (lose : bool) q q' : Prop := {
  pk_active : ip_active q' = ip_active q;
  pk_name : ip_receiver_name q' = ip_receiver_name q;
  pk_data : ip_data q' = ip_data q;
  pk_sonce : 0 < ip_sorights q -> 0 < ip_sorights q';
  pk_send : lose = false -> 0 < ip_srights q -> 0 < ip_srights q';
  pk_requests : forall j m so, m <> n -> port_requests q j = Some (m, so) -> port_requests q' j = Some (m, so)
}.

Lemma port_keeps_refl n lose q : port_keeps n lose q q.
Proof. by constructor. Qed.

Lemma port_keeps_trans n l1 l2 q q' q'' :
  port_keeps n l1 q q' -> port_keeps n l2 q' q'' -> port_keeps n (l1 || l2) q q''.
Proof.
  intros [] []. constructor; try congruence; auto.
  intros [??]%orb_false_iff. auto.
Qed.

Lemma right_ok_keeps self n m lose v q q' :
  port_keeps n lose q q' -> m <> n -> (lose = true -> bit (ev_type v) MACH_PORT_TYPE_SEND = false) ->
  request_ok self m v q -> right_ok self m v q -> request_ok self m v q' /\ right_ok self m v q'.
Proof.
  intros [Ha Hn Hd Hso Hse Hreq] Hmn Hl [Hc Hr] Hok. split.
  - split; [done|]. rewrite Ha. intros Hact Hne. destruct (Hr Hact Hne) as (so & Hso' & ?). eauto.
  - assert (ev_type v = MACH_PORT_TYPE_SEND \/ ev_type v = MACH_PORT_TYPE_SEND_RECEIVE -> lose = false) as Hnl.
    { intros Ht. destruct lose; [|done]. specialize (Hl eq_refl). destruct Ht as [Ht|Ht]; by rewrite Ht in Hl. }
    unfold receives, ip_receiver in *. destruct Hok as [Ht Hu Hs|Ht Hu Hm Hs|Ht Hu Hs|Ht Hu Hs Hp].
    + apply send_ok; [done..|]. rewrite Ha. unfold ip_receiver. rewrite Hd. intros Hact. destruct (Hs Hact). auto.
    + apply send_once_ok; [done..|]. rewrite Ha. auto.
    + apply receive_ok; [done..|]. unfold receives, ip_receiver. by rewrite Ha, Hn, Hd.
    + apply send_receive_ok; [done..| |by auto]. unfold receives, ip_receiver. by rewrite Ha, Hn, Hd.
Qed.

(** ** Worlds *)

(** The rights of [c] stay right when the port [p] changes and its references
    still cover them.  [log] are new events. *)
Lemma rights_ok_port self w c n lose p q q' evs :
  rights_ok self w c -> c !! n = None -> w_ports w !! p = Some q -> port_keeps n lose q q' -> port_wf q' ->
  (lose = true -> forall m cap, c !! m = Some cap -> for_port p cap = true -> bit (cap_type cap) MACH_PORT_TYPE_SEND = false) ->
  holds c p <= ip_references q' ->
  rights_ok self (emit evs (put_port p q' w)) c.
Proof.
  intros [Hcap Hs Hr Hp] Hn Hq Hk Hwf Hl Hrefs. constructor; [|done| |].
  - intros m cap Hm. specialize (Hcap m cap Hm). inversion Hcap as [?|s ? ? ? ? ? Hs' ?|q0 Hobj Hq0 Hreq Hok].
    + by apply dead_name_ok.
    + by eapply port_set_ok.
    + assert (m <> n) by congruence. destruct (decide (p = ev_object (cap_view cap))) as [->|Hne].
      * assert (q0 = q) as -> by congruence. destruct (right_ok_keeps self n m lose (cap_view cap) q q') as [? ?]; try done.
        { intros E. apply (Hl E m cap Hm). apply right_ok_port in Hok. unfold for_port, cap_type.
          unfold ev_type in Hok. cbn in Hok |- *. by rewrite Hok, Z.eqb_refl. }
        apply (port_ok _ _ _ _ q'); [done| |done..]. cbn. apply lookup_insert_eq.
      * apply (port_ok _ _ _ _ q0); [done| |done..]. cbn. by rewrite lookup_insert_ne.
  - intros p'. unfold refs. cbn. destruct (decide (p = p')) as [->|].
    + by rewrite lookup_insert_eq.
    + rewrite lookup_insert_ne by done. apply Hr.
  - intros p' q0. cbn. intros [[<- <-]|[_ ?]]%lookup_insert_Some; [done|by eapply Hp].
Qed.

(** A port without references is freed; no entry names it. *)
Lemma rights_ok_free self w c p :
  rights_ok self w c -> refs w p = 0 -> rights_ok self (free_port p w) c.
Proof.
  intros [Hcap Hs Hr Hp] H0. constructor; [|done| |].
  - intros m cap Hm. specialize (Hcap m cap Hm). inversion Hcap as [?|s ? ? ? ? ? Hs' ?|q0 Hobj Hq0 Hreq Hok].
    + by apply dead_name_ok.
    + by eapply port_set_ok.
    + apply (port_ok _ _ _ _ q0); [done| |done..]. cbn. rewrite lookup_delete_ne; [done|]. intros ->.
      specialize (Hr (cap_object cap)). cbn in H0. rewrite H0 in Hr. apply (holds_none _ _ _ _ Hr) in Hm.
      unfold for_port, cap_type in Hm. apply right_ok_port in Hok. unfold ev_type in Hok. cbn in Hok.
      by rewrite Hok, Z.eqb_refl in Hm.
  - intros p'. unfold refs. cbn. destruct (decide (p = p')) as [->|].
    + rewrite lookup_delete_eq. cbn. specialize (Hr p'). lia.
    + rewrite lookup_delete_ne by done. apply Hr.
  - intros p' q0. cbn. intros [_ ?]%lookup_delete_Some. by eapply Hp.
Qed.

Lemma rights_ok_delete self w c n : rights_ok self w c -> rights_ok self w (delete n c).
Proof.
  intros [Hcap Hs Hr Hp]. constructor; [| | |done].
  - intros m cap [_ ?]%lookup_delete_Some. by apply Hcap.
  - intros m m' cap cap' [_ ?]%lookup_delete_Some [_ ?]%lookup_delete_Some. by apply Hs.
  - intros p. specialize (Hr p). destruct (c !! n) as [cap|] eqn:E; [|by rewrite delete_id].
    rewrite (holds_delete c n cap p E) in Hr. destruct (for_port p cap); lia.
Qed.

(** Adding the capability of an entry that is all right. *)
Lemma rights_ok_insert self w c n v :
  rights_ok self w c -> c !! n = None -> entry_ok self w n v ->
  (ev_type v = MACH_PORT_TYPE_SEND -> no_send c (ev_object v)) ->
  (is_port_type (ev_type v) = true -> holds c (ev_object v) + 1 <= refs w (ev_object v)) ->
  rights_ok self w (<[n := the_cap v]> c).
Proof.
  intros [Hcap Hs Hr Hp] Hn Hok Hnos Href. constructor; [| | |done].
  - intros m cap [[<- <-]|[_ ?]]%lookup_insert_Some; [by apply entry_ok_cap|by apply Hcap].
  - unfold cap_type, ev_type in *. unfold no_send, cap_type in *.
    intros m m' cap cap' [[<- <-]|[? Hm]]%lookup_insert_Some [[<- <-]|[? Hm']]%lookup_insert_Some; cbn;
      rewrite ?right_type; intros Ht Ht' Ho; [done| | |by eapply Hs].
    + by destruct (Hnos Ht m' cap' Hm' Ht').
    + by destruct (Hnos Ht' m cap Hm Ht).
  - intros p. rewrite holds_insert by done. rewrite for_port_view. specialize (Hr p).
    destruct (is_port_type (ev_type v)) eqn:E; cbn; [|lia]. destruct (Z.eqb_spec (ev_object v) p) as [<-|]; [|lia].
    by apply Href.
Qed.

Lemma outside_insert w c n v p : c !! n = None ->
  outside w (<[n := the_cap v]> c) p =
  outside w c p - (if is_port_type (ev_type v) && (ev_object v =? p) then 1 else 0).
Proof. intros. unfold outside. rewrite holds_insert, for_port_view by done. lia. Qed.
End RightInv.
