(* ===== verification/IpcRightSteps.v ===== *)
(** * Steps of the rights code

    Lemmas for the sequences that the functions of ipc_right.c share: writing to
    an entry, cancelling its request, dropping it, and the death of its port.
    An entry is followed through them while it is open. *)

From S2P Require Import Prelude PortName IpcTable IpcTypes IpcMqueue IpcPort IpcWorld.
From S2P Require Import IpcPortOps IpcRequests IpcSpaceInv IpcCap IpcRight IpcRightBits IpcRightInv.

Section Steps.
Context {S : Type} {CS : CapSpace S} {CL : CapSpaceLaws S}.
Implicit Types (s : S) (w : world) (c : gmap Z capability) (n p : Z) (r : entry_ref) (v : eview) (q : ipc_port) (h : bool).

(** ** Open entries, in the hash table or not *)

Definition opened h s c n r v : Prop := if h then cs_hopen s c n r v else cs_open s c n r v.

Lemma opened_entry h s c n r v : opened h s c n r v -> cs_entry s r = Some v /\ is_u32 (ev_bits v).
Proof. destruct h; [apply hopen_entry|apply open_entry]. Qed.

Lemma opened_active h s c n r v : opened h s c n r v -> cs_active s = true.
Proof. destruct h; [apply hopen_active|apply open_active]. Qed.

Lemma opened_rest h s c n r v : opened h s c n r v -> c !! n = None /\ n <> MACH_PORT_NULL.
Proof. destruct h; [apply hopen_rest|apply open_rest]. Qed.

Definition is_send v : bool := ev_type v =? MACH_PORT_TYPE_SEND.

Lemma open_any s c n r v : cs_repr s c -> cs_holds s n r v -> opened (is_send v) s (delete n c) n r v.
Proof.
  intros Hr Hh. unfold opened, is_send. destruct (Z.eqb_spec (ev_type v) MACH_PORT_TYPE_SEND);
    [by apply hopen_law|by apply open_law].
Qed.

Lemma close_any h s c n r v : opened h s c n r v -> h = is_send v -> ev_type v <> 0 ->
  cs_repr s (<[n := the_cap v]> c) /\ cs_holds s n r v.
Proof.
  intros Ho -> Ht. unfold opened, is_send in *. destruct (Z.eqb_spec (ev_type v) MACH_PORT_TYPE_SEND);
    [by apply hclose_law|by apply close_law].
Qed.

(** The capability of a name, by its entry. *)
Lemma holds_cap s c n r v : cs_repr s c -> cs_holds s n r v ->
  c !! n = Some (the_cap v) /\ is_u32 (ev_bits v) /\ cs_entry s r = Some v.
Proof.
  intros Hr Hh. destruct (repr_holds s c n r v Hr Hh) as (Hc & [x Hx] & Hb).
  split_and!; [|done|by eapply holds_entry]. revert Hc. unfold view_cap, cap_of. rewrite Hx.
  by destruct (_ =? _).
Qed.

Lemma upd_step h s w c n r v f :
  opened h s c n r v -> same_place (ev_bits v) (ev_bits (f v)) -> (h = true -> ev_object (f v) = ev_object v) ->
  exists s', entry_upd r f (mk_rstate s w) = Some (mk_rstate s' w) /\ opened h s' c n r (f v) /\
    cs_self s' = cs_self s.
Proof.
  intros Ho Hp Hobj. unfold entry_upd. cbn. destruct (opened_entry _ _ _ _ _ _ Ho) as [-> _].
  destruct h; cbn in *.
  - destruct (hstore_law s c n r v (f v)) as (s' & -> & ? & ?); eauto.
  - destruct (store_law s c n r v (f v)) as (s' & -> & ? & ?); eauto.
Qed.

Lemma hash_delete_step s w c n r v :
  opened true s c n r v ->
  exists s', hash_delete (ev_object v) n r (mk_rstate s w) = Some (mk_rstate s' w) /\ opened false s' c n r v /\
    cs_self s' = cs_self s.
Proof.
  intros Ho. unfold hash_delete. destruct (hash_delete_law s c n r v Ho) as (s' & Hd & ? & ?). cbn. rewrite Hd. eauto.
Qed.

Lemma drop_step s w c n r v :
  opened false s c n r v -> ev_request v = 0 ->
  exists s', drop_entry n r (mk_rstate s w) = Some (mk_rstate s' w) /\ cs_repr s' c /\ cs_self s' = cs_self s.
Proof.
  intros Ho Hr. unfold drop_entry. destruct (opened_entry _ _ _ _ _ _ Ho) as [_ Hb].
  destruct (upd_step false s w c n r v (v_set_object IO_NULL) Ho) as (s1 & -> & Ho1 & Hs1); [done|done|].
  unfold entry_dealloc. cbn. destruct (dealloc_law s1 c n r _ Ho1) as (s2 & -> & ? & ?); [done|done|].
  exists s2. split_and!; [done|done|congruence].
Qed.

(** ** Requests *)

(** What cancelling the request of an entry returns, and does besides. *)
Definition dn_right v q : Z :=
  if (ev_request v =? 0) || compat v then IP_NULL
  else from_option snd IP_NULL (port_requests q (ev_request v)).

Definition dn_events (self : Z) v : list event :=
  if negb (ev_request v =? 0) && compat v then [Space_release self] else [].

Lemma emit_put_id p q w : w_ports w !! p = Some q -> emit [] (put_port p q w) = w.
Proof. intros H. destruct w. unfold emit, put_port. cbn in *. by rewrite insert_id, app_nil_r. Qed.

Lemma passed_dn_events self v p : passed (dn_events self v) p = 0.
Proof. unfold dn_events. by destruct (_ && _). Qed.

Lemma dncancel_step h s w c n r v q :
  opened h s c n r v -> w_ports w !! ev_object v = Some q -> ip_active q = true ->
  request_ok (cs_self s) n v q -> port_wf q ->
  exists s' q' tb, ipc_right_dncancel_macro (mk_rstate s w) (ev_object v) n r =
      Some (mk_rstate s' (emit (dn_events (cs_self s) v) (put_port (ev_object v) q' w)), dn_right v q) /\
    opened h s' c n r (v_set_request 0 v) /\ cs_self s' = cs_self s /\
    q' = ip_set_dnrequests tb q /\ port_keeps n false q q' /\ port_wf q'.
Proof.
  intros Ho Hq Ha [Hcreq Hreq] (Hw1 & Hw2 & Hw3 & l & Hl). destruct (opened_entry _ _ _ _ _ _ Ho) as [Hv Hb].
  unfold ipc_right_dncancel_macro, dn_right, dn_events. cbn. rewrite Hv.
  destruct (Z.eqb_spec (ev_request v) 0) as [H0|H0]; cbn [orb negb andb].
  - exists s, q, (ip_dnrequests q). rewrite emit_put_id by done. split; [done|]. split; [by destruct v; cbn in *; subst|].
    split; [done|]. split; [by destruct q|]. split; [apply port_keeps_refl|]. by split_and!; [..|exists l].
  - destruct (Hreq Ha H0) as (so & Hso & Hsp & Hself).
    destruct (ipc_port_dncancel_spec q l n so (ev_request v) Hl Ha Hso) as (tb & Hc & Hwf & Hlook).
    unfold ipc_right_dncancel. cbn. rewrite Hq, Hv, Ha, Z.eqb_refl, Hc.
    destruct (upd_step h s (put_port (ev_object v) (ip_set_dnrequests (Some tb) q) w) c n r v (v_set_request 0) Ho)
      as (s' & Hu & Ho' & Hs'); [done|done|].
    change (with_world _ (mk_rstate s w)) with (mk_rstate s (put_port (ev_object v) (ip_set_dnrequests (Some tb) q) w)).
    rewrite Hu, Hsp. change (bit (ev_bits v) IE_BITS_COMPAT) with (compat v). rewrite Bool.eqb_reflx, Hso.
    exists s', (ip_set_dnrequests (Some tb) q), (Some tb).
    assert (port_keeps n false q (ip_set_dnrequests (Some tb) q)) as Hk.
    { constructor; try done. intros j m so' Hm Hj. rewrite Hlook. rewrite decide_False; [done|]. intros ->. congruence. }
    assert (port_wf (ip_set_dnrequests (Some tb) q)) as Hwf'. { split_and!; [done..|by exists (ev_request v :: l)]. }
    destruct (compat v) eqn:Hcv.
    + unfold self. cbn. rewrite (Hself eq_refl), Z.eqb_refl. split; [done|]. split_and!; done.
    + split; [|done]. do 2 f_equal. unfold emit. cbn. by rewrite app_nil_r.
Qed.

(** ** Dead ports *)

(** A port after the release of a reference by [ip_check_unlock]. *)
Definition released p q w : world :=
  let w1 := put_port p (ip_release q) w in
  if ip_references (ip_release q) =? 0 then free_port p w1 else w1.

Lemma check_unlock_released p q w : ip_check_unlock p (put_port p (ip_release q) w) = Some (released p q w).
Proof. unfold ip_check_unlock, released. cbn. by rewrite lookup_insert_eq. Qed.

Lemma port_release_step p q w : w_ports w !! p = Some q -> 0 < ip_references q ->
  ipc_port_release p w = Some (released p q w).
Proof.
  intros Hq Hr. unfold ipc_port_release. rewrite Hq, (proj2 (Z.ltb_lt _ _) Hr). apply check_unlock_released.
Qed.

Lemma release_refs q : port_wf q -> 0 < ip_references q -> ip_references (ip_release q) = ip_references q - 1.
Proof. intros ([? ?] & _) ?. cbn. apply u32_small. unfold is_u32. lia. Qed.

Lemma port_wf_release q : port_wf q -> port_wf (ip_release q).
Proof. intros (? & ? & ? & l & ?). split_and!; [apply u32_range|done|done|]. by exists l. Qed.

Lemma port_keeps_release n q : port_keeps n false q (ip_release q).
Proof. by constructor. Qed.

Lemma refs_put p q w evs p' : refs (emit evs (put_port p q w)) p' = if decide (p = p') then ip_references q else refs w p'.
Proof.
  unfold refs. cbn. case_decide; [subst; by rewrite lookup_insert_eq|by rewrite lookup_insert_ne].
Qed.

Lemma emit_nil w : emit [] w = w.
Proof. destruct w. unfold emit. cbn. by rewrite app_nil_r. Qed.

Lemma refs_released p q w p' : w_ports w !! p = Some q -> port_wf q -> 0 < ip_references q ->
  refs (released p q w) p' = refs w p' - (if decide (p = p') then 1 else 0).
Proof.
  intros Hq Hwf Hr. unfold released. rewrite (release_refs q) by done.
  destruct (Z.eqb_spec (ip_references q - 1) 0) as [E|E].
  - unfold refs. cbn. case_decide as D; [subst p'|].
    + rewrite lookup_delete_eq, Hq. cbn. lia.
    + rewrite lookup_delete_ne, lookup_insert_ne by done. lia.
  - rewrite <- (emit_nil (put_port _ _ _)), refs_put. case_decide as D; [subst p'|lia].
    rewrite release_refs by done. unfold refs. rewrite Hq. done.
Qed.

Lemma released_log p q w : w_log (released p q w) = w_log w.
Proof. unfold released. by destruct (_ =? _). Qed.

Lemma rights_ok_released self w c n p q :
  rights_ok self w c -> c !! n = None -> w_ports w !! p = Some q -> holds c p + 1 <= ip_references q ->
  rights_ok self (released p q w) c.
Proof.
  intros Hok Hn Hq Hh. pose proof (ro_ports _ _ _ Hok p q Hq) as Hwf. pose proof (holds_nonneg c p).
  assert (rights_ok self (put_port p (ip_release q) w) c) as H1.
  { rewrite <- (emit_nil (put_port _ _ _)). apply (rights_ok_port self w c n false p q);
      [done..|apply port_keeps_release|by apply port_wf_release|done|].
    rewrite release_refs by (done || lia). lia. }
  unfold released. destruct (Z.eqb_spec (ip_references (ip_release q)) 0) as [E|E]; [|done].
  apply rights_ok_free; [done|]. rewrite <- (emit_nil (put_port _ _ _)), refs_put. by rewrite decide_True.
Qed.

Lemma rights_ok_emit self w c evs : rights_ok self w c -> rights_ok self (emit evs w) c.
Proof.
  intros [H1 H2 H3 H4]. constructor; try done. intros m cap Hm. destruct (H1 m cap Hm) as [|s|q].
  - by apply dead_name_ok.
  - by apply (port_set_ok _ _ _ _ s).
  - by apply (port_ok _ _ _ _ q).
Qed.

Lemma entry_ok_emit self w n v evs : entry_ok self w n v -> entry_ok self (emit evs w) n v.
Proof.
  intros [|s|q]; [by apply dead_name_ok|by apply (port_set_ok _ _ _ _ s)|by apply (port_ok _ _ _ _ q)].
Qed.

(** The view of an entry whose port died. *)
Definition died_view v : eview :=
  let b := dead_bits (Z.ldiff (ev_bits v) IE_BITS_MAREQUEST) in
  mk_view (if ev_request v =? 0 then b else u32 (b + 1)) IO_NULL 0.

Definition marequest_events (self n : Z) v : list event :=
  if marequest v then [Marequest_cancel self n] else [].

Lemma passed_marequest self n v p : passed (marequest_events self n v) p = 0.
Proof. unfold marequest_events. by destruct (marequest v). Qed.

Lemma cancel_marequest_step s w v n :
  cancel_marequest (ev_bits v) n (mk_rstate s w) = mk_rstate s (emit (marequest_events (cs_self s) n v) w).
Proof.
  unfold cancel_marequest, marequest_events, marequest. destruct (bit _ _); [done|]. by rewrite emit_nil.
Qed.

(** The types of rights whose port may be dead. *)
Lemma right_ok_dead self n v q : right_ok self n v q -> ip_active q = false ->
  (ev_type v = MACH_PORT_TYPE_SEND \/ ev_type v = MACH_PORT_TYPE_SEND_ONCE /\ urefs v = 1 /\ marequest v = false) /\
  0 < urefs v < MACH_PORT_UREFS_MAX.
Proof.
  intros Hok Ha. destruct Hok as [Ht Hu Hs|Ht Hu Hm Hs|Ht Hu [Hr _]|Ht Hu [Hr _] Hp]; [by auto| |congruence..].
  split; [by auto|]. rewrite Hu. done.
Qed.

Lemma ldiff_marequest b : bit b IE_BITS_MAREQUEST = false -> Z.ldiff b IE_BITS_MAREQUEST = b.
Proof.
  unfold bit. intros H%negb_false_iff%Z.eqb_eq. apply Z.bits_inj'. intros k Hk.
  apply (f_equal (fun z => Z.testbit z k)) in H. rewrite Z.land_spec, Z.bits_0 in H. rewrite Z.ldiff_spec.
  by destruct (Z.testbit b k), (Z.testbit IE_BITS_MAREQUEST k).
Qed.

Lemma bit_ldiff_marequest b m : Z.land m IE_BITS_MAREQUEST = 0 -> bit (Z.ldiff b IE_BITS_MAREQUEST) m = bit b m.
Proof.
  intros Hm. unfold bit. rewrite land_ldiff_swap. do 3 f_equal. apply Z.bits_inj'. intros k Hk.
  apply (f_equal (fun z => Z.testbit z k)) in Hm. rewrite Z.land_spec, Z.bits_0 in Hm. rewrite Z.ldiff_spec.
  by destruct (Z.testbit m k), (Z.testbit IE_BITS_MAREQUEST k).
Qed.

Lemma died_bits_urefs v : IE_BITS_UREFS (dead_bits (Z.ldiff (ev_bits v) IE_BITS_MAREQUEST)) = urefs v.
Proof. rewrite dead_bits_urefs. unfold urefs. fields. Qed.

Lemma died_bits_place v : is_u32 (ev_bits v) ->
  same_place (ev_bits v) (dead_bits (Z.ldiff (ev_bits v) IE_BITS_MAREQUEST)).
Proof.
  intros Hb. eapply same_place_trans; [by apply (same_place_ldiff _ IE_BITS_MAREQUEST)|].
  apply dead_bits_place. by apply is_u32_ldiff.
Qed.

(** The fields of the dead name an entry turns into. *)
Lemma died_view_fields v : is_u32 (ev_bits v) -> urefs v < MACH_PORT_UREFS_MAX ->
  same_place (ev_bits v) (ev_bits (died_view v)) /\ ev_type (died_view v) = MACH_PORT_TYPE_DEAD_NAME /\
  urefs (died_view v) = urefs v + (if ev_request v =? 0 then 0 else 1) /\
  marequest (died_view v) = false /\ compat (died_view v) = compat v.
Proof.
  intros Hb Hu. pose proof (died_bits_place v Hb) as Hp. pose proof (died_bits_urefs v) as Hur.
  pose proof (urefs_range (ev_bits v)) as Hrange. fold (urefs v) in Hrange.
  set (b := dead_bits _) in *.
  assert (IE_BITS_TYPE b = MACH_PORT_TYPE_DEAD_NAME) as Ht by apply dead_bits_type.
  assert (bit b IE_BITS_MAREQUEST = false) as Hm.
  { subst b. rewrite dead_bits_bit by done. unfold bit. rewrite land_ldiff_swap.
    change (Z.ldiff IE_BITS_MAREQUEST IE_BITS_MAREQUEST) with 0. by rewrite Z.land_0_r. }
  assert (bit b IE_BITS_COMPAT = compat v) as Hc.
  { subst b. rewrite dead_bits_bit, bit_ldiff_marequest by done. done. }
  unfold ev_type, urefs, marequest, compat, died_view in *. cbn. fold b.
  destruct (ev_request v =? 0); [split_and!; lia || done|].
  assert (is_u32 b) by apply Hp.
  rewrite add_urefs_type, add_urefs, !add_urefs_bit by (done || lia). split_and!; try (lia || done).
  eapply same_place_trans; [exact Hp|]. apply add_urefs_place; lia || done.
Qed.

Lemma check_dead s w c n r v q :
  opened (is_send v) s c n r v -> ev_object v <> IP_NULL ->
  w_ports w !! ev_object v = Some q -> ip_active q = false ->
  request_ok (cs_self s) n v q -> right_ok (cs_self s) n v q -> 0 < ip_references q ->
  exists s', ipc_right_check (mk_rstate s w) (ev_object v) n r =
      Some (mk_rstate s' (released (ev_object v) q (emit (marequest_events (cs_self s) n v) w)), true) /\
    cs_self s' = cs_self s /\
    if compat v then cs_repr s' c else opened false s' c n r (died_view v).
Proof.
  intros Ho Hobj Hq Ha [Hcreq _] Hok Href. destruct (opened_entry _ _ _ _ _ _ Ho) as [Hv Hb].
  destruct (right_ok_dead _ _ _ _ Hok Ha) as [Ht Hu].
  unfold ipc_right_check. cbn. rewrite (opened_active _ _ _ _ _ _ Ho), Hv, Z.eqb_refl, Hq, Ha.
  assert (exists s1, opened false s1 c n r v /\ cs_self s1 = cs_self s /\
    (if bit (ev_bits v) MACH_PORT_TYPE_SEND then
       ASSERT IE_BITS_TYPE (ev_bits v) =? MACH_PORT_TYPE_SEND ;;
       LET st' <- hash_delete (ev_object v) n r (cancel_marequest (ev_bits v) n (mk_rstate s w)) ;;
       Some (st', Z.ldiff (ev_bits v) IE_BITS_MAREQUEST)
     else
       ASSERT IE_BITS_TYPE (ev_bits v) =? MACH_PORT_TYPE_SEND_ONCE ;;
       ASSERT IE_BITS_UREFS (ev_bits v) =? 1 ;;
       ASSERT negb (bit (ev_bits v) IE_BITS_MAREQUEST) ;;
       Some (mk_rstate s w, ev_bits v)) =
    Some (mk_rstate s1 (emit (marequest_events (cs_self s) n v) w), Z.ldiff (ev_bits v) IE_BITS_MAREQUEST))
    as (s1 & Ho1 & Hs1 & ->).
  { unfold is_send, ev_type in *. destruct Ht as [Ht|(Ht & Hu1 & Hm)]; type_bits Ht; rewrite Ht in Ho; rewrite ?Ht.
    - rewrite cancel_marequest_step.
      destruct (hash_delete_step s (emit (marequest_events (cs_self s) n v) w) c n r v Ho) as (s1 & -> & ? & ?). eauto.
    - unfold urefs, marequest in Hu1, Hm. exists s. rewrite Hu1, Hm. split_and!; [done..|]. cbn.
      unfold marequest_events, marequest. rewrite Hm, emit_nil. by rewrite ldiff_marequest. }
  assert (bit (ev_bits v) MACH_PORT_TYPE_RECEIVE = false) as ->.
  { unfold ev_type in Ht. destruct Ht as [Ht|(Ht & _)]; by type_bits Ht. }
  fold (urefs v). rewrite (proj2 (Z.ltb_lt 0 (urefs v))) by lia. cbn.
  unfold on_world. cbn. rewrite (port_release_step _ q) by done.
  rewrite bit_ldiff_marequest by done. change (bit (ev_bits v) IE_BITS_COMPAT) with (compat v).
  destruct (died_view_fields v Hb) as (Hp & _); [lia|]. destruct (compat v).
  - rewrite (proj2 (Z.eqb_neq _ _) (Hcreq eq_refl)). cbn.
    change (with_world ?w' (mk_rstate s1 _)) with (mk_rstate s1 w').
    edestruct (upd_step false s1) as (s2 & -> & Ho2 & Hs2); [exact Ho1|apply same_place_refl; done|done|].
    edestruct (drop_step s2) as (s3 & -> & ? & ?); [exact Ho2|done|].
    exists s3. split_and!; [done|congruence|done].
  - fold (dead_bits (Z.ldiff (ev_bits v) IE_BITS_MAREQUEST)). rewrite died_bits_urefs. rewrite (proj2 (Z.ltb_lt (urefs v) _)) by lia.
    change (with_world ?w' (mk_rstate s1 _)) with (mk_rstate s1 w').
    set (w1 := released _ _ _).
    destruct (upd_step false s1 w1 c n r v (fun _ => died_view v) Ho1) as (s2 & Hu2 & Ho2 & Hs2); [done|done|].
    exists s2. unfold died_view in *. destruct (ev_request v =? 0); cbn [negb]; rewrite Hu2; split_and!; try done; congruence.
Qed.
End Steps.
