(* ===== verification/IpcDealloc.v ===== *)
(** * Releasing a user reference keeps the rights of a space

    [ipc_right_dealloc] fails no assertion on a space whose rights agree with
    the ports, gives the capability that the abstract function [dealloc_view]
    says, keeps the invariant and loses no port reference. *)

From S2P Require Import Prelude PortName IpcTable IpcTypes IpcMqueue IpcPort IpcWorld.
From S2P Require Import IpcPortOps IpcRequests IpcSpaceInv IpcCap IpcRight IpcRightBits IpcRightInv.
From S2P Require Import IpcRightSteps.

Section Spec.
Implicit Types (w : world) (v : eview).

(** ** The abstract effect *)

(** The port of a right is dead. *)
Definition port_died w v : bool :=
  is_port_type (ev_type v) && negb (from_option ip_active true (w_ports w !! ev_object v)).

(** [d] user references more. *)
Definition add_view v (d : Z) : eview := v_set_bits (u32 (ev_bits v + d)) v.
Definition less_one v : eview := add_view v (-1).

(** What is left of a right that lost a user reference. *)
Definition release_view v : option eview :=
  if ev_type v =? MACH_PORT_TYPE_SEND_RECEIVE then
    Some (if urefs v =? 1 then v_set_bits (no_send_bits (ev_bits v)) v else less_one v)
  else if (ev_type v =? MACH_PORT_TYPE_RECEIVE) || (ev_type v =? MACH_PORT_TYPE_PORT_SET) then Some v
  else if urefs v =? 1 then None else Some (less_one v).

(** The entry after [ipc_right_dealloc]; [None] when it is gone. *)
Definition dealloc_view w v : option eview :=
  if port_died w v then if compat v then None else release_view (died_view v) else release_view v.

Definition dealloc_return w v : kern_return :=
  if (ev_type v =? MACH_PORT_TYPE_RECEIVE) || (ev_type v =? MACH_PORT_TYPE_PORT_SET) then KERN_INVALID_RIGHT
  else if port_died w v && compat v then KERN_INVALID_NAME else KERN_SUCCESS.

Lemma release_view_urefs v :
  ev_type v = MACH_PORT_TYPE_DEAD_NAME \/ ev_type v = MACH_PORT_TYPE_SEND \/ ev_type v = MACH_PORT_TYPE_SEND_ONCE ->
  release_view v = if urefs v =? 1 then None else Some (less_one v).
Proof. unfold release_view. by intros [-> | [-> | ->]]. Qed.

Lemma port_died_false w v q :
  w_ports w !! ev_object v = Some q -> ip_active q = true -> port_died w v = false.
Proof. intros Hq Ha. unfold port_died. rewrite Hq. cbn. rewrite Ha. apply andb_false_r. Qed.

Lemma port_died_true w v q : is_port_type (ev_type v) = true ->
  w_ports w !! ev_object v = Some q -> ip_active q = false -> port_died w v = true.
Proof. intros Ht Hq Ha. unfold port_died. rewrite Hq, Ht. cbn. by rewrite Ha. Qed.

Lemma add_view_fields v d : is_u32 (ev_bits v) -> 0 <= urefs v + d <= MACH_PORT_UREFS_MAX ->
  same_place (ev_bits v) (ev_bits (add_view v d)) /\ ev_type (add_view v d) = ev_type v /\
  urefs (add_view v d) = urefs v + d /\ marequest (add_view v d) = marequest v /\ compat (add_view v d) = compat v.
Proof.
  intros Hb Hu. unfold urefs, ev_type, marequest, compat, add_view in *. cbn.
  rewrite add_urefs_type, add_urefs, !add_urefs_bit by done. split_and!; [by apply add_urefs_place|done..].
Qed.

(** An entry whose user references change within the bounds of its type. *)
Lemma entry_ok_add self w n v d : entry_ok self w n v -> is_u32 (ev_bits v) ->
  ev_type v <> MACH_PORT_TYPE_PORT_SET -> ev_type v <> MACH_PORT_TYPE_RECEIVE -> ev_type v <> MACH_PORT_TYPE_SEND_ONCE ->
  0 < urefs v + d ->
  (if ev_type v =? MACH_PORT_TYPE_DEAD_NAME then urefs v + d <= MACH_PORT_UREFS_MAX
   else urefs v + d < MACH_PORT_UREFS_MAX) ->
  entry_ok self w n (add_view v d).
Proof.
  intros He Hb Hps Hrc Hso Hd Hmax.
  assert (0 <= urefs v + d <= MACH_PORT_UREFS_MAX) as Hr by (destruct (_ =? _); lia).
  destruct (add_view_fields v d Hb Hr) as (_ & Hty & Hur & Hmr & Hco).
  destruct He as [Ht Hu Hm Hc Hobj Hreq|? Ht|q Hobj Hq Hreq Hok]; [|done|].
  - apply dead_name_ok; rewrite ?Hty, ?Hur, ?Hmr, ?Hco; done.
  - apply (port_ok _ _ _ _ q); [done|done| |].
    + unfold request_ok in *. by rewrite Hco.
    + destruct Hok as [Ht Hu Hx|Ht|Ht|Ht Hu Hx Hy]; [|done|done|]; rewrite Ht in Hmax;
        [apply send_ok|apply send_receive_ok]; rewrite ?Hty, ?Hur; try done; split; (done || apply Hmax).
Qed.
End Spec.

Section Dealloc.
Context {S : Type} {CS : CapSpace S} {CL : CapSpaceLaws S}.
Implicit Types (s : S) (w : world) (c : gmap Z capability) (n p : Z) (r : entry_ref) (v : eview) (q : ipc_port) (h : bool).

(** The capability of [n] is set or removed. *)
Definition put_cap n (ov : option eview) c : gmap Z capability :=
  match ov with Some v => <[n := the_cap v]> c | None => c end.

(** ** Before and after *)

(** The space is represented, its rights are in order, and the references of the
    ports that the entries do not account for are [out]. *)
Record settled (self : Z) s w c (out : Z -> Z) : Prop := {
  se_repr : cs_repr s c;
  se_self : cs_self s = self;
  se_ok : rights_ok self w c;
  se_out : forall p, outside w c p = out p
}.

(** The same with the entry of [n] open; it holds [held] references. *)
Record unsettled (self : Z) h s w c n r v (out : Z -> Z) : Prop := {
  un_open : opened h s c n r v;
  un_self : cs_self s = self;
  un_ok : rights_ok self w c;
  un_entry : entry_ok self w n v;
  un_send : ev_type v = MACH_PORT_TYPE_SEND -> no_send c (ev_object v);
  un_held : is_port_type (ev_type v) = true -> holds c (ev_object v) + 1 <= refs w (ev_object v);
  un_out : forall p, outside w c p - (if is_port_type (ev_type v) && (ev_object v =? p) then 1 else 0) = out p
}.

Lemma unsettle self s w c n r v out :
  settled self s w c out -> cs_holds s n r v ->
  unsettled self (is_send v) s w (delete n c) n r v out /\ c !! n = Some (the_cap v).
Proof.
  intros [Hr Hs Hok Hout] Hh. destruct (holds_cap s c n r v Hr Hh) as (Hc & Hb & _). split; [|done].
  pose proof (proj1 (entry_ok_cap _ _ _ _) (ro_caps _ _ _ Hok n _ Hc)) as He. constructor.
  - by apply open_any.
  - done.
  - by apply rights_ok_delete.
  - done.
  - intros Ht m cap [Hne Hm]%lookup_delete_Some Hcap Hobj. destruct Hne.
    eapply (ro_sends _ _ _ Hok); [exact Hc|exact Hm| |done|done]. unfold cap_type. cbn. by rewrite right_type.
  - intros Ht. pose proof (ro_refs _ _ _ Hok (ev_object v)) as Hrf.
    rewrite (holds_delete c n _ _ Hc), for_port_view, Ht, Z.eqb_refl in Hrf. done.
  - intros p. rewrite <- Hout. unfold outside. rewrite (holds_delete c n _ p Hc), for_port_view.
    destruct (is_port_type (ev_type v) && (ev_object v =? p)); lia.
Qed.

(** Closing an entry. *)
Lemma resettle self h s w c n r v out :
  unsettled self h s w c n r v out -> h = is_send v -> settled self s w (<[n := the_cap v]> c) out.
Proof.
  intros [Ho Hs Hok He Hsend Hheld Hout] Hh. destruct (opened_rest _ _ _ _ _ _ Ho) as [Hn _].
  constructor; [|done| |].
  - apply (close_any h s c n r v Ho Hh). by eapply entry_ok_type.
  - by apply rights_ok_insert.
  - intros p. rewrite outside_insert by done. apply Hout.
Qed.

(** An entry without a port right goes. *)
Lemma settle_dropped self s w c out :
  cs_repr s c -> cs_self s = self -> rights_ok self w c -> (forall p, outside w c p = out p) -> settled self s w c out.
Proof. by constructor. Qed.

(** ** Changing a port under an open entry *)

Lemma outside_port w c p q q' evs p' k : w_ports w !! p = Some q ->
  ip_references q' = ip_references q + k ->
  outside (emit evs (put_port p q' w)) c p' = outside w c p' + (if p =? p' then k else 0) - passed evs p'.
Proof.
  intros Hq Hr. unfold outside. rewrite refs_put. cbn. rewrite passed_app.
  destruct (Z.eqb_spec p p') as [<-|Hne].
  - rewrite decide_True by done. unfold refs. rewrite Hq. cbn. lia.
  - rewrite decide_False by done. lia.
Qed.


(** ** Normal forms of worlds *)

Lemma put_put p q q' w : put_port p q (put_port p q' w) = put_port p q w.
Proof. unfold put_port. cbn. by rewrite insert_insert_eq. Qed.
Lemma put_emit p q evs w : put_port p q (emit evs w) = emit evs (put_port p q w).
Proof. done. Qed.
Lemma emit_emit evs evs' w : emit evs' (emit evs w) = emit (evs ++ evs') w.
Proof. unfold emit. cbn. by rewrite app_assoc. Qed.
Lemma emit_ports evs w : w_ports (emit evs w) = w_ports w.
Proof. done. Qed.
Lemma put_ports p q w : w_ports (put_port p q w) !! p = Some q.
Proof. apply lookup_insert_eq. Qed.

Definition ns_events (ns : Z * Z) : list event :=
  if ns.1 =? IP_NULL then [] else [Notify_no_senders ns.1 ns.2].
Definition pd_events (dnrequest n : Z) : list event :=
  if dnrequest =? IP_NULL then [] else [Notify_port_deleted dnrequest n].

Lemma notify_no_senders_step s w ns : notify_no_senders ns (mk_rstate s w) = mk_rstate s (emit (ns_events ns) w).
Proof. unfold notify_no_senders, ns_events. destruct (ns.1 =? IP_NULL); [by rewrite emit_nil|done]. Qed.
Lemma notify_port_deleted_step s w dn n :
  notify_port_deleted dn n (mk_rstate s w) = mk_rstate s (emit (pd_events dn n) w).
Proof. unfold notify_port_deleted, pd_events. destruct (dn =? IP_NULL); [by rewrite emit_nil|done]. Qed.

Lemma passed_ns ns p : passed (ns_events ns) p = 0.
Proof. unfold ns_events. by destruct (_ =? _). Qed.
Lemma passed_pd dn n p : passed (pd_events dn n) p = 0.
Proof. unfold pd_events. by destruct (_ =? _). Qed.
Lemma passed_send_once port p : passed [Notify_send_once port] p = if port =? p then 1 else 0.
Proof.
  rewrite passed_one. destruct (Z.eqb_spec port p) as [<-|]; [by rewrite decide_True|].
  rewrite decide_False; congruence.
Qed.

(** ** Losing a send right *)

Lemma dec_srights_facts n q : port_wf q -> 0 < ip_srights q ->
  port_keeps n true q (dec_srights q).1 /\ port_wf (dec_srights q).1 /\
  ip_references (dec_srights q).1 = ip_references q /\
  (forall j, port_requests (dec_srights q).1 j = port_requests q j) /\
  ip_srights (dec_srights q).1 = ip_srights q - 1.
Proof.
  intros (Hr & [Hs1 Hs2] & Hso & l & Hl) Hs. unfold dec_srights. cbn.
  assert (u32 (ip_srights q - 1) = ip_srights q - 1) as E by (apply u32_small; unfold is_u32; lia).
  destruct (u32 (ip_srights q - 1) =? 0); [destruct (negb (ip_nsrequest q =? IP_NULL))|]; cbn;
    (split; [by constructor|]); (split; [split_and!; [done|apply u32_range|done|by exists l]|done]).
Qed.

Lemma drop_srights_step s w p q : w_ports w !! p = Some q -> 0 < ip_srights q ->
  drop_srights p (mk_rstate s w) = Some (mk_rstate s (put_port p (dec_srights q).1 w), (dec_srights q).2).
Proof.
  intros Hq Hs. unfold drop_srights. cbn. rewrite Hq, (proj2 (Z.ltb_lt _ _) Hs). by destruct (dec_srights q).
Qed.

(** No other entry of the space has a send right for the port of an entry that
    has one. *)
Lemma others_no_send self h s w c n r v q out :
  unsettled self h s w c n r v out -> w_ports w !! ev_object v = Some q -> ip_active q = true ->
  bit (ev_type v) MACH_PORT_TYPE_SEND = true ->
  forall m cap, c !! m = Some cap -> for_port (ev_object v) cap = true -> bit (cap_type cap) MACH_PORT_TYPE_SEND = false.
Proof.
  intros [Ho Hs Hok He Hsend _ _] Hq Ha Hbit m cap Hm Hfor. destruct (opened_rest _ _ _ _ _ _ Ho) as [Hn _].
  apply andb_true_iff in Hfor as [Hty Hobj%Z.eqb_eq].
  assert (ev_type v = MACH_PORT_TYPE_SEND /\ ip_receiver q <> self \/ ip_receiver q = self /\ ip_receiver_name q = n) as Hv.
  { destruct He as [Ht|? Ht|q0 _ Hq0 _ Hr]; [by rewrite Ht in Hbit|by rewrite Ht in Hbit|].
    assert (q0 = q) as -> by congruence. destruct Hr as [Ht Hu Hx|Ht|Ht|Ht Hu (_ & Hrn & Hrr) Hx];
      [left; naive_solver|by rewrite Ht in Hbit|by rewrite Ht in Hbit|by right]. }
  pose proof (ro_caps _ _ _ Hok m cap Hm) as Hc. destruct Hc as [Ht|? Ht|q0 _ Hq0 _ Hr].
  1,2: unfold ev_type in Ht; cbn in Ht; unfold cap_type; by rewrite Ht.
  cbn in Hq0. rewrite Hobj in Hq0. assert (q0 = q) as -> by congruence.
  destruct Hr as [Ht Hu Hx|Ht|Ht|Ht Hu (_ & Hrn & Hrr) Hx]; unfold ev_type in Ht; cbn in Ht; unfold cap_type.
  - destruct (Hx Ha) as [_ Hne]. destruct Hv as [[Hvs _]|[? _]]; [|done].
    by destruct (Hsend Hvs m cap Hm Ht).
  - by rewrite Ht.
  - by rewrite Ht.
  - destruct Hv as [[_ ?]|[_ Hnm]]; [done|]. congruence.
Qed.

(** ** Steps of an open entry *)

Lemma unsettled_upd self h s w c n r v out f :
  unsettled self h s w c n r v out -> same_place (ev_bits v) (ev_bits (f v)) -> ev_object (f v) = ev_object v ->
  is_port_type (ev_type (f v)) = is_port_type (ev_type v) ->
  (ev_type (f v) = MACH_PORT_TYPE_SEND -> ev_type v = MACH_PORT_TYPE_SEND) -> entry_ok self w n (f v) ->
  exists s', entry_upd r f (mk_rstate s w) = Some (mk_rstate s' w) /\ unsettled self h s' w c n r (f v) out.
Proof.
  intros [Ho Hs Hok He Hsend Hheld Hout] Hp Hobj Hty Hts He'.
  destruct (upd_step h s w c n r v f Ho Hp) as (s' & Hu & Ho' & Hs'); [done|].
  exists s'. split; [done|]. constructor; try done; rewrite ?Hobj, ?Hty; [congruence|auto..].
Qed.

(** User references change. *)
Lemma unsettled_add_open self h s w c n r v out d :
  unsettled self h s w c n r v out ->
  ev_type v <> MACH_PORT_TYPE_PORT_SET -> ev_type v <> MACH_PORT_TYPE_RECEIVE -> ev_type v <> MACH_PORT_TYPE_SEND_ONCE ->
  0 < urefs v + d ->
  (if ev_type v =? MACH_PORT_TYPE_DEAD_NAME then urefs v + d <= MACH_PORT_UREFS_MAX
   else urefs v + d < MACH_PORT_UREFS_MAX) ->
  exists s', entry_upd r (v_set_bits (u32 (ev_bits v + d))) (mk_rstate s w) = Some (mk_rstate s' w) /\
    unsettled self h s' w c n r (add_view v d) out /\ is_send (add_view v d) = is_send v.
Proof.
  intros Hun Hps Hrc Hso Hd Hmax. destruct (opened_entry _ _ _ _ _ _ (un_open _ _ _ _ _ _ _ _ _ Hun)) as [Hv Hb].
  assert (0 <= urefs v + d <= MACH_PORT_UREFS_MAX) as Hr by (destruct (_ =? _); lia).
  destruct (add_view_fields v d Hb Hr) as (Hp & Hty & Hur & Hmr & Hco).
  destruct (unsettled_upd self h s w c n r v out (v_set_bits (u32 (ev_bits v + d)))) as (s' & Hupd & Hun'); try done.
  - by rewrite <- Hty.
  - by rewrite <- Hty.
  - by apply (entry_ok_add self w n v d); [apply (un_entry _ _ _ _ _ _ _ _ _ Hun)|..].
  - exists s'. split_and!; [done|done|]. unfold is_send in *. by rewrite <- Hty.
Qed.

(** The same, and the entry is closed. *)
Lemma unsettled_add self h s w c n r v out d :
  unsettled self h s w c n r v out ->
  ev_type v <> MACH_PORT_TYPE_PORT_SET -> ev_type v <> MACH_PORT_TYPE_RECEIVE -> ev_type v <> MACH_PORT_TYPE_SEND_ONCE ->
  0 < urefs v + d ->
  (if ev_type v =? MACH_PORT_TYPE_DEAD_NAME then urefs v + d <= MACH_PORT_UREFS_MAX
   else urefs v + d < MACH_PORT_UREFS_MAX) -> h = is_send v ->
  exists s', entry_upd r (v_set_bits (u32 (ev_bits v + d))) (mk_rstate s w) = Some (mk_rstate s' w) /\
    settled self s' w (<[n := the_cap (add_view v d)]> c) out.
Proof.
  intros Hun Hps Hrc Hso Hd Hmax Hh.
  destruct (unsettled_add_open self h s w c n r v out d Hun) as (s' & Hupd & Hun' & Hs); [done..|].
  exists s'. split; [done|]. eapply resettle; [exact Hun'|congruence].
Qed.

(** The last references: an open entry whose port right is gone from the ports
    or was passed on. *)
Lemma settle_port self h s s' w c n r v q q' evs lose out k :
  unsettled self h s w c n r v out -> is_port_type (ev_type v) = true ->
  w_ports w !! ev_object v = Some q -> port_keeps n lose q q' -> port_wf q' ->
  (lose = true -> ip_active q = true /\ bit (ev_type v) MACH_PORT_TYPE_SEND = true) ->
  ip_references q' = ip_references q - k -> 0 <= k <= 1 ->
  (forall p, passed evs p = if ev_object v =? p then 1 - k else 0) ->
  cs_repr s' c -> cs_self s' = self ->
  settled self s' (emit evs (put_port (ev_object v) q' w)) c out.
Proof.
  intros Hun Hty Hq Hk Hwf Hlose Hrefs Hk01 Hpass Hrepr Hs'. pose proof Hun as [Ho Hs Hok He Hsend Hheld Hout].
  destruct (opened_rest _ _ _ _ _ _ Ho) as [Hn _].
  assert (refs w (ev_object v) = ip_references q) as Hrq by (unfold refs; by rewrite Hq).
  constructor; [done|done| |].
  - eapply rights_ok_port; [done|done|done|done|done| |].
    + intros E. destruct (Hlose E). by eapply others_no_send.
    + specialize (Hheld Hty). lia.
  - intros p. rewrite (outside_port w c (ev_object v) q q' evs p (- k)) by (done || lia). rewrite Hpass, <- Hout, Hty. cbn.
    destruct (ev_object v =? p); lia.
Qed.

(** ** The cases of [ipc_right_dealloc] *)

Definition dealloc_post self s w c n v out (kr : kern_return) (ov : option eview) (res : option (rstate S * kern_return)) : Prop :=
  exists s' w', res = Some (mk_rstate s' w', kr) /\ settled self s' w' (put_cap n ov c) out.

(** A dead name. *)
Lemma dealloc_dead_post self s w c n r v out :
  unsettled self false s w c n r v out -> ev_type v = MACH_PORT_TYPE_DEAD_NAME ->
  dealloc_post self s w c n v out KERN_SUCCESS (release_view v) (dealloc_dead_name (mk_rstate s w) n r).
Proof.
  intros Hun Ht. pose proof Hun as [Ho Hs Hok He Hsend Hheld Hout]. destruct (opened_entry _ _ _ _ _ _ Ho) as [Hv Hb].
  destruct He as [_ Hu Hm Hc Hobj Hreq|? Ht'|q _ _ _ Hr]; [|by rewrite Ht' in Ht|].
  2:{ apply right_ok_port in Hr. by rewrite Ht in Hr. }
  unfold dealloc_dead_name. cbn. rewrite Hv, Hreq, Hobj. fold (urefs v). fold (marequest v).
  rewrite (proj2 (Z.ltb_lt _ _) Hu), Hm. cbn. rewrite release_view_urefs by auto.
  destruct (Z.eqb_spec (urefs v) 1) as [H1|H1].
  - unfold entry_dealloc. cbn. destruct (dealloc_law s c n r v Ho Hobj Hreq) as (s' & -> & Hr' & Hs').
    exists s', w. split; [done|]. apply settle_dropped; [done|congruence|done|].
    intros p. rewrite <- Hout, Ht. change (is_port_type MACH_PORT_TYPE_DEAD_NAME) with false. cbn. lia.
  - destruct (unsettled_add self false s w c n r v out (-1) Hun) as (s' & Hupd & Hset);
      [by rewrite Ht..|lia|rewrite Ht, Z.eqb_refl; pose proof (urefs_range (ev_bits v)) as Hrg; fold (urefs v) in Hrg; lia|unfold is_send; by rewrite Ht|].
    change (u32 (ev_bits v - 1)) with (u32 (ev_bits v + -1)). rewrite Hupd. by exists s', w.
Qed.

(** The port died. *)
Lemma unsettled_died self s w c n r v q out :
  unsettled self (is_send v) s w c n r v out -> is_port_type (ev_type v) = true ->
  w_ports w !! ev_object v = Some q -> ip_active q = false ->
  exists s' w', ipc_right_check (mk_rstate s w) (ev_object v) n r = Some (mk_rstate s' w', true) /\
    if compat v then settled self s' w' c out
    else unsettled self false s' w' c n r (died_view v) out /\ ev_type (died_view v) = MACH_PORT_TYPE_DEAD_NAME.
Proof.
  intros Hun Hty Hq Ha. pose proof Hun as [Ho Hs Hok He Hsend Hheld Hout]. destruct (opened_entry _ _ _ _ _ _ Ho) as [Hv Hb].
  destruct (opened_rest _ _ _ _ _ _ Ho) as [Hn _].
  destruct (entry_ok_counts self w n v 1 He) as (q0 & Hq0 & Hobj & Hreq & Hr); [done|done|].
  assert (q0 = q) as -> by congruence. specialize (Hheld Hty).
  assert (refs w (ev_object v) = ip_references q) as Hrq by (unfold refs; by rewrite Hq).
  pose proof (holds_nonneg c (ev_object v)).
  destruct (check_dead s w c n r v q) as (s' & Hchk & Hs' & Hpost); try done; [by rewrite Hs..|lia|].
  do 2 eexists. split; [exact Hchk|]. set (w1 := emit _ w) in *.
  assert (rights_ok self w1 c) as Hok1 by (by apply rights_ok_emit).
  assert (rights_ok self (released (ev_object v) q w1) c) as Hok2 by (eapply rights_ok_released; done || lia).
  assert (forall p, outside (released (ev_object v) q w1) c p = out p) as Hout2.
  { intros p. rewrite <- Hout, Hty. cbn. unfold outside. rewrite released_log.
    rewrite refs_released; [|done|by eapply (ro_ports _ _ _ Hok)|lia].
    subst w1. cbn. rewrite passed_app, passed_marequest.
    change (refs (emit _ w) p) with (refs w p).
    destruct (Z.eqb_spec (ev_object v) p); [rewrite decide_True by done|rewrite decide_False by done]; lia. }
  destruct (right_ok_dead _ _ _ _ Hr Ha) as [_ Hu].
  destruct (died_view_fields v Hb) as (Hp & Hdt & Hdu & Hdm & Hdc); [lia|].
  destruct (compat v) eqn:Hcv; [apply settle_dropped; congruence|]. split; [|done]. constructor; try done.
  - congruence.
  - apply dead_name_ok; try done. destruct (ev_request v =? 0); lia.
  - rewrite Hdt. done.
  - rewrite Hdt. done.
  - intros p. rewrite Hdt, <- Hout2. change (is_port_type MACH_PORT_TYPE_DEAD_NAME) with false. cbn. lia.
Qed.

(** A live send-once right is passed on in a notification. *)
Lemma drop_send_once_post self s w c n r v q out :
  unsettled self false s w c n r v out -> ev_type v = MACH_PORT_TYPE_SEND_ONCE ->
  w_ports w !! ev_object v = Some q -> ip_active q = true ->
  exists s' w', drop_send_once (mk_rstate s w) (ev_object v) n r = Some (mk_rstate s' w') /\ settled self s' w' c out.
Proof.
  intros Hun Ht Hq Ha. pose proof Hun as [Ho Hs Hok He Hsend Hheld Hout].
  destruct (entry_ok_counts self w n v 1 He) as (q0 & Hq0 & Hobj & Hreq & Hr); [done|by rewrite Ht|].
  assert (q0 = q) as -> by congruence. pose proof (ro_ports _ _ _ Hok _ _ Hq) as Hwf.
  destruct (dncancel_step false s w c n r v q Ho Hq Ha) as (s1 & q' & tb & Hc & Ho1 & Hs1 & -> & Hk & Hwf'); [by rewrite Hs|done|].
  unfold drop_send_once. rewrite Hc.
  edestruct (drop_step s1) as (s2 & -> & Hrep & Hs2); [exact Ho1|done|].
  change (log ?e (mk_rstate s2 ?x)) with (mk_rstate s2 (emit e x)). rewrite notify_port_deleted_step, !emit_emit.
  do 2 eexists. split; [done|].
  apply (settle_port self false s s2 w c n r v q _ _ false out 0); try done; [by rewrite Ht|cbn; lia| |congruence].
  intros p. rewrite !passed_app, passed_dn_events, passed_send_once, passed_pd. destruct (_ =? _); lia.
Qed.

Lemma request_ok_same self n v q q' :
  ip_active q' = ip_active q -> (forall j, port_requests q' j = port_requests q j) ->
  request_ok self n v q -> request_ok self n v q'.
Proof. intros Ha Hj [H1 H2]. split; [done|]. by rewrite Ha, Hj. Qed.

(** The last user reference of a live pure send right. *)
Lemma drop_last_send_post self s w c n r v q out :
  unsettled self true s w c n r v out -> ev_type v = MACH_PORT_TYPE_SEND ->
  w_ports w !! ev_object v = Some q -> ip_active q = true -> 0 < ip_srights q ->
  exists s' w' dn, drop_last_send (mk_rstate s (put_port (ev_object v) (dec_srights q).1 w)) (ev_object v) n (ev_bits v) r =
      Some (mk_rstate s' w', dn) /\
    forall ns, settled self s' (emit (pd_events dn n) (emit (ns_events ns) w')) c out.
Proof.
  intros Hun Ht Hq Ha Hsr. pose proof Hun as [Ho Hs Hok He Hsend Hheld Hout].
  destruct (entry_ok_counts self w n v 1 He) as (q0 & Hq0 & Hobj & Hreq & Hr); [done|by rewrite Ht|].
  assert (q0 = q) as -> by congruence. pose proof (ro_ports _ _ _ Hok _ _ Hq) as Hwf.
  destruct (dec_srights_facts n q Hwf Hsr) as (Hk1 & Hwf1 & Hrf1 & Hreq1 & _). set (q1 := (dec_srights q).1) in *.
  destruct (dncancel_step true s (put_port (ev_object v) q1 w) c n r v q1 Ho) as (s1 & q2 & tb & Hc & Ho1 & Hs1 & Hq2 & Hk2 & Hwf2).
  { apply put_ports. }
  { by rewrite (pk_active _ _ _ _ Hk1). }
  { rewrite Hs. eapply request_ok_same; [apply (pk_active _ _ _ _ Hk1)|done|done]. }
  { done. }
  assert (ip_references q2 = ip_references q1) as Hrf2 by (by rewrite Hq2). clear Hq2.
  unfold drop_last_send. rewrite Hc, put_put.
  destruct (hash_delete_step s1 (emit (dn_events (cs_self s) v) (put_port (ev_object v) q2 w)) c n r (v_set_request 0 v) Ho1)
    as (s2 & Hd & Ho2 & Hs2). cbn in Hd. rewrite Hd.
  rewrite cancel_marequest_step, emit_emit. unfold on_world, port_upd. cbn [r_world]. rewrite emit_ports, put_ports.
  change (with_world ?x (mk_rstate s2 _)) with (mk_rstate s2 x). rewrite put_emit, put_put.
  edestruct (drop_step s2) as (s3 & -> & Hrep & Hs3); [exact Ho2|done|].
  do 3 eexists. split; [done|]. intros ns. rewrite !emit_emit.
  pose proof (port_keeps_trans n _ _ _ _ _ (port_keeps_trans n _ _ _ _ _ Hk1 Hk2) (port_keeps_release n q2)) as Hk.
  apply (settle_port self true s s3 w c n r v q (ip_release q2) _ true out 1); try done.
  - by rewrite Ht.
  - by apply port_wf_release.
  - intros _. split; [done|]. by rewrite Ht.
  - rewrite release_refs by (done || (specialize (Hheld ltac:(by rewrite Ht)); unfold refs in Hheld; rewrite Hq in Hheld;
      cbn in Hheld; pose proof (holds_nonneg c (ev_object v)); lia)). lia.
  - intros p. rewrite !passed_app, passed_dn_events, passed_marequest, passed_ns, passed_pd. by destruct (_ =? _).
  - congruence.
Qed.

(** The last user reference of the send right of a receiver. *)
Lemma drop_both_send_post self s w c n r v q out ns :
  unsettled self false s w c n r v out -> ev_type v = MACH_PORT_TYPE_SEND_RECEIVE ->
  w_ports w !! ev_object v = Some q -> 0 < ip_srights q ->
  exists s', entry_upd r (v_set_bits (no_send_bits (ev_bits v)))
      (mk_rstate s (put_port (ev_object v) (dec_srights q).1 w)) =
      Some (mk_rstate s' (put_port (ev_object v) (dec_srights q).1 w)) /\
    settled self s' (emit (ns_events ns) (put_port (ev_object v) (dec_srights q).1 w))
      (<[n := the_cap (v_set_bits (no_send_bits (ev_bits v)) v)]> c) out.
Proof.
  intros Hun Ht Hq Hsr. pose proof Hun as [Ho Hs Hok He Hsend Hheld Hout]. destruct (opened_entry _ _ _ _ _ _ Ho) as [Hv Hb].
  destruct (opened_rest _ _ _ _ _ _ Ho) as [Hn _].
  destruct (entry_ok_counts self w n v 1 He) as (q0 & Hq0 & Hobj & Hreq & Hr); [done|by rewrite Ht|].
  assert (q0 = q) as -> by congruence. pose proof (ro_ports _ _ _ Hok _ _ Hq) as Hwf.
  destruct (dec_srights_facts n q Hwf Hsr) as (Hk1 & Hwf1 & Hrf1 & Hreq1 & _). set (q1 := (dec_srights q).1) in *.
  assert (receives self n q) as (Ha & Hrn & Hrr).
  { destruct Hr as [H|H|H|H]; (congruence || rewrite Ht in H; done). }
  set (v' := v_set_bits (no_send_bits (ev_bits v)) v).
  assert (ev_type v' = MACH_PORT_TYPE_RECEIVE) as Ht'.
  { unfold ev_type in *. cbn. by rewrite no_send_bits_type, Ht. }
  destruct (upd_step false s (put_port (ev_object v) q1 w) c n r v (v_set_bits (no_send_bits (ev_bits v))) Ho)
    as (s' & Hu & Ho' & Hs'); [by apply no_send_bits_place|done|]. exists s'. split; [done|].
  specialize (Hheld ltac:(by rewrite Ht)).
  assert (refs w (ev_object v) = ip_references q) as Hrq by (unfold refs; by rewrite Hq).
  apply (resettle self false s' _ c n r v' out); [|unfold is_send; by rewrite Ht'].
  constructor; try done; rewrite ?Ht'; try done.
  - congruence.
  - eapply rights_ok_port; [done|done|exact Hq|exact Hk1|done| |lia].
    intros _. eapply others_no_send; [exact Hun|exact Hq|done|by rewrite Ht].
  - apply (port_ok _ _ _ _ q1); [done|apply put_ports| |].
    + eapply (request_ok_same _ _ _ q); [apply (pk_active _ _ _ _ Hk1)|done|].
      unfold request_ok, compat in *. cbn. by rewrite no_send_bits_bit.
    + apply receive_ok; [done|apply no_send_bits_urefs|]. unfold receives, ip_receiver in *.
      by rewrite (pk_active _ _ _ _ Hk1), (pk_name _ _ _ _ Hk1), (pk_data _ _ _ _ Hk1).
  - intros _. rewrite refs_put. cbn. rewrite decide_True by done. lia.
  - intros p. rewrite (outside_port w c (ev_object v) q q1 _ p 0) by (done || lia). rewrite passed_ns, <- Hout, Ht.
    change (is_port_type MACH_PORT_TYPE_RECEIVE) with true. change (is_port_type MACH_PORT_TYPE_SEND_RECEIVE) with true.
    cbn. destruct (_ =? _); lia.
Qed.

(** The check of a right with a port, live or dead. *)
Lemma dealloc_died_post self s w c n r v q out :
  unsettled self (is_send v) s w c n r v out -> is_port_type (ev_type v) = true ->
  w_ports w !! ev_object v = Some q -> ip_active q = false ->
  exists s1 w1, ipc_right_check (mk_rstate s w) (ev_object v) n r = Some (mk_rstate s1 w1, true) /\
    exists s' w', dealloc_died (mk_rstate s1 w1) n (ev_bits v) r =
        Some (mk_rstate s' w', if compat v then KERN_INVALID_NAME else KERN_SUCCESS) /\
      settled self s' w' (put_cap n (if compat v then None else release_view (died_view v)) c) out.
Proof.
  intros Hun Hty Hq Ha. destruct (unsettled_died self s w c n r v q out Hun Hty Hq Ha) as (s1 & w1 & Hchk & Hpost).
  exists s1, w1. split; [done|]. unfold dealloc_died. change (bit (ev_bits v) IE_BITS_COMPAT) with (compat v).
  destruct (compat v); [by exists s1, w1|]. destruct Hpost as [Hun1 Ht1].
  destruct (opened_entry _ _ _ _ _ _ (un_open _ _ _ _ _ _ _ _ _ Hun1)) as [Hv1 _]. cbn. rewrite Hv1, Ht1.
  rewrite Z.eqb_refl. apply (dealloc_dead_post self s1 w1 c n r _ out Hun1 Ht1).
Qed.

Lemma dealloc_send_once_post self s w c n r v out :
  unsettled self false s w c n r v out -> ev_type v = MACH_PORT_TYPE_SEND_ONCE ->
  dealloc_post self s w c n v out (dealloc_return w v) (dealloc_view w v) (dealloc_send_once (mk_rstate s w) n v r).
Proof.
  intros Hun Ht. assert (is_send v = false) as Hns by (unfold is_send; by rewrite Ht).
  pose proof (un_entry _ _ _ _ _ _ _ _ _ Hun) as He.
  destruct (entry_ok_counts self w n v 1 He) as (q & Hq & Hobj & Hreq & Hr); [done|by rewrite Ht|].
  assert (urefs v = 1 /\ marequest v = false /\ (ip_active q = true -> 0 < ip_sorights q)) as (Hu & Hm & Hso).
  { destruct Hr as [H|H|H|H]; (congruence || rewrite Ht in H; done || idtac). }
  unfold dealloc_send_once, dealloc_post, dealloc_return, dealloc_view. fold (urefs v). fold (marequest v).
  rewrite Hu, Hm, (proj2 (Z.eqb_neq _ _) Hobj), Ht. cbn [negb Z.eqb Pos.eqb].
  destruct (ip_active q) eqn:Ha.
  - rewrite (port_died_false w v q) by done. destruct (opened_entry _ _ _ _ _ _ (un_open _ _ _ _ _ _ _ _ _ Hun)) as [Hv _].
    unfold ipc_right_check. cbn [r_space r_world].
    rewrite (opened_active _ _ _ _ _ _ (un_open _ _ _ _ _ _ _ _ _ Hun)), Hv, Z.eqb_refl, Hq, Ha. cbn [r_world].
    rewrite Hq, (proj2 (Z.ltb_lt _ _) (Hso eq_refl)).
    destruct (drop_send_once_post self s w c n r v q out Hun Ht Hq Ha) as (s' & w' & -> & Hset).
    exists s', w'. rewrite release_view_urefs, Hu by auto. done.
  - rewrite (port_died_true w v q) by (done || by rewrite Ht).
    rewrite <- Hns in Hun. destruct (dealloc_died_post self s w c n r v q out Hun) as (s1 & w1 & -> & s' & w' & -> & Hset);
      [by rewrite Ht|done|done|]. exists s', w'. by destruct (compat v).
Qed.

Lemma dealloc_send_post self s w c n r v out :
  unsettled self true s w c n r v out -> ev_type v = MACH_PORT_TYPE_SEND ->
  dealloc_post self s w c n v out (dealloc_return w v) (dealloc_view w v) (dealloc_send (mk_rstate s w) n v r).
Proof.
  intros Hun Ht. assert (is_send v = true) as Hns by (unfold is_send; by rewrite Ht).
  pose proof (un_entry _ _ _ _ _ _ _ _ _ Hun) as He.
  destruct (entry_ok_counts self w n v 1 He) as (q & Hq & Hobj & Hreq & Hr); [done|by rewrite Ht|].
  assert (0 < urefs v < MACH_PORT_UREFS_MAX /\ (ip_active q = true -> 0 < ip_srights q)) as (Hu & Hsr).
  { destruct Hr as [H|H|H|H]; (naive_solver || rewrite Ht in H; done). }
  unfold dealloc_send, dealloc_post, dealloc_return, dealloc_view. fold (urefs v).
  rewrite (proj2 (Z.ltb_lt 0 (urefs v))), (proj2 (Z.eqb_neq _ _) Hobj), Ht by lia. cbn [negb].
  destruct (ip_active q) eqn:Ha.
  - rewrite (port_died_false w v q) by done. destruct (opened_entry _ _ _ _ _ _ (un_open _ _ _ _ _ _ _ _ _ Hun)) as [Hv _].
    unfold ipc_right_check. cbn [r_space r_world].
    rewrite (opened_active _ _ _ _ _ _ (un_open _ _ _ _ _ _ _ _ _ Hun)), Hv, Z.eqb_refl, Hq, Ha. cbn [r_world].
    rewrite Hq, (proj2 (Z.ltb_lt _ _) (Hsr eq_refl)), release_view_urefs by auto.
    destruct (Z.eqb_spec (urefs v) 1) as [H1|H1].
    + rewrite (drop_srights_step s w _ q) by auto.
      destruct (drop_last_send_post self s w c n r v q out Hun Ht Hq Ha) as (s' & w' & dn & -> & Hset); [auto|].
      rewrite notify_no_senders_step, notify_port_deleted_step. do 2 eexists. split; [done|apply Hset].
    + destruct (unsettled_add self true s w c n r v out (-1) Hun) as (s' & Hupd & Hset);
        [by rewrite Ht..|lia|rewrite Ht; change (_ =? _) with false; cbn match; lia|done|].
      change (u32 (ev_bits v - 1)) with (u32 (ev_bits v + -1)). rewrite Hupd. by exists s', w.
  - rewrite (port_died_true w v q) by (done || by rewrite Ht).
    rewrite <- Hns in Hun. destruct (dealloc_died_post self s w c n r v q out Hun) as (s1 & w1 & -> & s' & w' & -> & Hset);
      [by rewrite Ht|done|done|]. exists s', w'. by destruct (compat v).
Qed.

Lemma dealloc_both_post self s w c n r v out :
  unsettled self false s w c n r v out -> ev_type v = MACH_PORT_TYPE_SEND_RECEIVE ->
  dealloc_post self s w c n v out (dealloc_return w v) (dealloc_view w v) (dealloc_send_receive (mk_rstate s w) n v r).
Proof.
  intros Hun Ht. pose proof (un_entry _ _ _ _ _ _ _ _ _ Hun) as He.
  destruct (entry_ok_counts self w n v 1 He) as (q & Hq & Hobj & Hreq & Hr); [done|by rewrite Ht|].
  assert (0 < urefs v < MACH_PORT_UREFS_MAX /\ receives self n q /\ 0 < ip_srights q) as (Hu & (Ha & Hrn & Hrr) & Hsr).
  { destruct Hr as [H|H|H|H]; (by auto || rewrite Ht in H; done). }
  unfold dealloc_send_receive, dealloc_post, dealloc_return, dealloc_view. fold (urefs v).
  rewrite (port_died_false w v q), (proj2 (Z.ltb_lt 0 (urefs v))), (proj2 (Z.eqb_neq _ _) Hobj) by (done || lia).
  cbn [negb r_world r_space]. unfold IpcRight.self. cbn [r_space].
  rewrite Hq, Ha, Hrn, Hrr, (un_self _ _ _ _ _ _ _ _ _ Hun), !Z.eqb_refl, (proj2 (Z.ltb_lt _ _) Hsr).
  unfold release_view. rewrite Ht, Z.eqb_refl. cbn [andb].
  destruct (Z.eqb_spec (urefs v) 1) as [H1|H1].
  - rewrite (drop_srights_step s w _ q) by auto. fold (no_send_bits (ev_bits v)).
    destruct (drop_both_send_post self s w c n r v q out (dec_srights q).2 Hun Ht Hq Hsr) as (s' & -> & Hset).
    rewrite notify_no_senders_step. do 2 eexists. split; [done|exact Hset].
  - destruct (unsettled_add self false s w c n r v out (-1) Hun) as (s' & Hupd & Hset);
      [by rewrite Ht..|lia|rewrite Ht; change (_ =? _) with false; cbn match; lia|unfold is_send; by rewrite Ht|].
    change (u32 (ev_bits v - 1)) with (u32 (ev_bits v + -1)). rewrite Hupd. by exists s', w.
Qed.

(** C28: [ipc_right_dealloc] on a space whose rights agree with the ports fails no
    assertion.  The name ends with the capability [dealloc_view] says (gone with
    the last user reference, a dead name when the port had died, the receive
    right alone when a receiver drops its last send right), every other name
    keeps its capability, the rights still agree with the ports, and for every
    port the references that entries and send-once notifications do not account
    for are the same as before. *)
Theorem right_dealloc_keeps_rights self s w c n r v out :
  settled self s w c out -> cs_holds s n r v ->
  exists s' w', ipc_right_dealloc (mk_rstate s w) n r = Some (mk_rstate s' w', dealloc_return w v) /\
    settled self s' w' (put_cap n (dealloc_view w v) (delete n c)) out.
Proof.
  intros Hset Hh. destruct (unsettle self s w c n r v out Hset Hh) as [Hun Hcap].
  destruct (holds_cap s c n r v (se_repr _ _ _ _ _ Hset) Hh) as (_ & Hb & Hv).
  unfold ipc_right_dealloc. cbn [r_space]. rewrite Hv, (repr_active s c (se_repr _ _ _ _ _ Hset)).
  unfold is_send in Hun.
  destruct (Z.eqb_spec (ev_type v) MACH_PORT_TYPE_DEAD_NAME) as [Ht|Hnd].
  { rewrite Ht in Hun. unfold dealloc_view, dealloc_return, port_died. rewrite Ht. by apply dealloc_dead_post. }
  destruct (Z.eqb_spec (ev_type v) MACH_PORT_TYPE_SEND_ONCE) as [Ht|Hno].
  { rewrite Ht in Hun. by apply dealloc_send_once_post. }
  destruct (Z.eqb_spec (ev_type v) MACH_PORT_TYPE_SEND) as [Ht|Hns]; [by apply dealloc_send_post|].
  destruct (Z.eqb_spec (ev_type v) MACH_PORT_TYPE_SEND_RECEIVE) as [Ht|Hnb]; [by apply dealloc_both_post|].
  exists s, w.
  assert (ev_type v = MACH_PORT_TYPE_RECEIVE /\ port_died w v = false \/ ev_type v = MACH_PORT_TYPE_PORT_SET) as Ht.
  { destruct (un_entry _ _ _ _ _ _ _ _ _ Hun) as [|? Ht|q _ Hq _ []]; [done|by right|done..| |done].
    left. split; [done|]. eapply port_died_false; [done|]. by destruct H1. }
  assert (dealloc_view w v = Some v /\ dealloc_return w v = KERN_INVALID_RIGHT) as [-> ->].
  { unfold dealloc_view, dealloc_return, release_view. destruct Ht as [[Ht ->]|Ht]; [by rewrite Ht|].
    unfold port_died. by rewrite Ht. }
  split; [done|]. cbn [put_cap]. by rewrite insert_delete_id.
Qed.
End Dealloc.
