(* ===== verification/IpcDeltaSpec.v ===== *)
(** * Changing user references keeps the rights of a space

    [ipc_right_delta] for the rights that have user references.  Its result is
    stated in integers: the sums that the code makes in unsigned words never
    wrap in a way that shows. *)

From S2P Require Import Prelude PortName IpcTable IpcTypes IpcMqueue IpcPort IpcWorld.
From S2P Require Import IpcPortOps IpcRequests IpcSpaceInv IpcCap IpcRight IpcRightBits IpcRightInv.
From S2P Require Import IpcRightSteps IpcDealloc.

Section DeltaSpec.
Implicit Types (w : world) (v : eview) (d : Z).

(** The result and the entry, [None] when it is gone. *)
Definition outcome : Type := kern_return * option eview.

(** A right whose port is found dead; [k] is what follows for a dead name. *)
Definition when_died w v (k : eview -> outcome) (live : outcome) : outcome :=
  if port_died w v then if compat v then (KERN_INVALID_NAME, None) else k (died_view v) else live.

Definition delta_send_spec w v d : outcome :=
  if negb (bit (ev_type v) MACH_PORT_TYPE_SEND) then (KERN_INVALID_RIGHT, Some v)
  else if urefs v + d <? 0 then (KERN_INVALID_VALUE, Some v)
  else if (0 <? d) && (MACH_PORT_UREFS_MAX <? urefs v + 1 + d) then (KERN_UREFS_OVERFLOW, Some v)
  else when_died w v (fun v' => (KERN_INVALID_RIGHT, Some v'))
    (KERN_SUCCESS,
     if urefs v + d =? 0 then
       if ev_type v =? MACH_PORT_TYPE_SEND_RECEIVE then Some (v_set_bits (no_send_bits (ev_bits v)) v) else None
     else Some (add_view v d)).

Definition delta_send_once_spec w v d : outcome :=
  if negb (bit (ev_type v) MACH_PORT_TYPE_SEND_ONCE) then (KERN_INVALID_RIGHT, Some v)
  else if (0 <? d) || (d <? -1) then (KERN_INVALID_VALUE, Some v)
  else when_died w v (fun v' => (KERN_INVALID_RIGHT, Some v')) (KERN_SUCCESS, if d =? 0 then Some v else None).

Definition delta_dead_spec v d : outcome :=
  if urefs v + d <? 0 then (KERN_INVALID_VALUE, Some v)
  else if MACH_PORT_UREFS_MAX <? urefs v + d then (KERN_UREFS_OVERFLOW, Some v)
  else (KERN_SUCCESS, if urefs v + d =? 0 then None else Some (add_view v d)).

Definition delta_dead_name_spec w v d : outcome :=
  if bit (ev_type v) MACH_PORT_TYPE_SEND_RIGHTS then
    when_died w v (fun v' => delta_dead_spec v' d) (KERN_INVALID_RIGHT, Some v)
  else if negb (bit (ev_type v) MACH_PORT_TYPE_DEAD_NAME) then (KERN_INVALID_RIGHT, Some v)
  else delta_dead_spec v d.

Definition delta_spec w v (rt d : Z) : outcome :=
  if rt =? MACH_PORT_RIGHT_SEND_ONCE then delta_send_once_spec w v d
  else if rt =? MACH_PORT_RIGHT_DEAD_NAME then delta_dead_name_spec w v d
  else delta_send_spec w v d.

(** Signed 32-bit values. *)
Definition is_int (x : Z) : Prop := - 2 ^ 31 <= x < 2 ^ 31.

(** The tests of the code, in integers. *)
Lemma delta_tests u d : 0 <= u <= MACH_PORT_UREFS_MAX -> is_int d ->
  MACH_PORT_UREFS_UNDERFLOW u d = (u + d <? 0) /\
  MACH_PORT_UREFS_OVERFLOW u d = (MACH_PORT_UREFS_MAX <? u + d) /\
  (0 <= u + d -> u32 (u + d) = u + d).
Proof.
  intros Hu Hd. destruct (urefs_macros_bounds u d Hu Hd) as (Ho & Hun & _). split_and!.
  - apply eq_true_iff_eq. by rewrite Hun, Z.ltb_lt.
  - apply eq_true_iff_eq. by rewrite Ho, Z.ltb_lt.
  - intros. apply u32_small. change MACH_PORT_UREFS_MAX with 65535 in Hu. unfold is_u32, is_int, wordsize in *. lia.
Qed.
End DeltaSpec.

Section DeltaThm.
Context {S : Type} {CS : CapSpace S} {CL : CapSpaceLaws S}.
Implicit Types (s : S) (w : world) (c : gmap Z capability) (n p d : Z) (r : entry_ref) (v : eview).

(** The operation on the open entry of [n] has the outcome [o]. *)
Definition delta_post self c n out (o : outcome) (res : option (rstate S * kern_return)) : Prop :=
  exists s' w', res = Some (mk_rstate s' w', o.1) /\ settled self s' w' (put_cap n o.2 c) out.

Lemma delta_unchanged self h s w c n r v out kr :
  unsettled self h s w c n r v out -> h = is_send v -> delta_post self c n out (kr, Some v) (Some (mk_rstate s w, kr)).
Proof. intros Hun Hh. exists s, w. split; [done|]. by eapply resettle. Qed.

(** The check of the port. *)
Lemma check_post self s w c n r v q out (k : eview -> outcome) live (rest_died rest_live : rstate S -> option (rstate S * kern_return)) :
  unsettled self (is_send v) s w c n r v out -> w_ports w !! ev_object v = Some q -> is_port_type (ev_type v) = true ->
  (forall s1 w1, unsettled self false s1 w1 c n r (died_view v) out -> ev_type (died_view v) = MACH_PORT_TYPE_DEAD_NAME ->
     delta_post self c n out (k (died_view v)) (rest_died (mk_rstate s1 w1))) ->
  (ip_active q = true -> delta_post self c n out live (rest_live (mk_rstate s w))) ->
  delta_post self c n out (when_died w v k live)
    (LET (st1, died) <- ipc_right_check (mk_rstate s w) (ev_object v) n r ;;
     if died : bool then if compat v then Some (st1, KERN_INVALID_NAME) else rest_died st1 else rest_live st1).
Proof.
  intros Hun Hq Hty Hdead Hlive. unfold when_died. destruct (ip_active q) eqn:Ha.
  - rewrite (port_died_false w v q) by done. pose proof (un_open _ _ _ _ _ _ _ _ _ Hun) as Ho.
    unfold ipc_right_check. cbn [r_space r_world]. destruct (opened_entry _ _ _ _ _ _ Ho) as [Hv _].
    rewrite (opened_active _ _ _ _ _ _ Ho), Hv, Z.eqb_refl, Hq, Ha. by apply Hlive.
  - rewrite (port_died_true w v q) by done.
    destruct (unsettled_died self s w c n r v q out Hun Hty Hq Ha) as (s1 & w1 & -> & Hpost).
    destruct (compat v); [by exists s1, w1|]. destruct Hpost. by apply Hdead.
Qed.

Lemma delta_dead_post self s w c n r v out d :
  unsettled self false s w c n r v out -> ev_type v = MACH_PORT_TYPE_DEAD_NAME -> is_int d ->
  delta_post self c n out (delta_dead_spec v d) (delta_dead (mk_rstate s w) n d r).
Proof.
  intros Hun Ht Hd. pose proof Hun as [Ho Hs Hok He Hsend Hheld Hout]. destruct (opened_entry _ _ _ _ _ _ Ho) as [Hv Hb].
  destruct He as [_ Hu Hm Hc Hobj Hreq|? Ht'|q _ _ _ Hr]; [|by rewrite Ht' in Ht|].
  2:{ apply right_ok_port in Hr. by rewrite Ht in Hr. }
  pose proof (urefs_range (ev_bits v)) as Hrg. fold (urefs v) in Hrg.
  destruct (delta_tests (urefs v) d Hrg Hd) as (Hun1 & Hov & Hsum).
  unfold delta_dead, delta_dead_spec. cbn [r_space]. rewrite Hv. fold (urefs v). fold (marequest v). fold (ev_type v).
  rewrite Ht, Z.eqb_refl, (proj2 (Z.ltb_lt _ _) Hu), Hm, Hobj, Hreq, Hun1, Hov. cbn [negb Z.eqb].
  assert (false = is_send v) as Hns by (unfold is_send; by rewrite Ht).
  change (IO_NULL =? IO_NULL) with true. cbn match.
  destruct (Z.ltb_spec (urefs v + d) 0); [by eapply delta_unchanged|].
  destruct (Z.ltb_spec MACH_PORT_UREFS_MAX (urefs v + d)); [by eapply delta_unchanged|].
  rewrite Hsum by lia. destruct (Z.eqb_spec (urefs v + d) 0).
  - unfold entry_dealloc. cbn [r_space]. destruct (dealloc_law s c n r v Ho Hobj Hreq) as (s' & -> & Hr' & Hs').
    exists s', w. split; [done|]. apply settle_dropped; [done|congruence|done|].
    intros p. rewrite <- Hout, Ht. change (is_port_type MACH_PORT_TYPE_DEAD_NAME) with false. cbn. lia.
  - destruct (unsettled_add self false s w c n r v out d Hun) as (s' & -> & Hset);
      [by rewrite Ht..|lia|rewrite Ht, Z.eqb_refl; lia|done|]. by exists s', w.
Qed.

Lemma delta_send_once_post self s w c n r v out d :
  unsettled self (is_send v) s w c n r v out ->
  delta_post self c n out (delta_send_once_spec w v d) (delta_send_once (mk_rstate s w) n d v r).
Proof.
  intros Hun. pose proof (un_entry _ _ _ _ _ _ _ _ _ Hun) as He.
  unfold delta_send_once, delta_send_once_spec. rewrite !bit_ev_type by done.
  destruct (bit (ev_type v) MACH_PORT_TYPE_SEND_ONCE) eqn:Hbit; cbn [negb]; [|by eapply delta_unchanged].
  destruct He as [Ht|? Ht|q Hobj Hq Hreq Hr]; [by rewrite Ht in Hbit..|].
  destruct Hr as [Ht|Ht Hu Hm Hso|Ht|Ht]; [by rewrite Ht in Hbit| |by rewrite Ht in Hbit..].
  assert (false = is_send v) as Hns by (unfold is_send; by rewrite Ht).
  fold (urefs v). fold (marequest v). fold (ev_type v).
  rewrite Ht, Z.eqb_refl, Hu, Hm. cbn [Z.eqb Pos.eqb negb].
  destruct ((0 <? d) || (d <? -1)); [by eapply delta_unchanged|].
  rewrite (proj2 (Z.eqb_neq _ _) Hobj). cbn [negb].
  eapply check_post; [done|exact Hq|by rewrite Ht| |].
  - intros s1 w1 Hun1 Ht1. destruct (opened_entry _ _ _ _ _ _ (un_open _ _ _ _ _ _ _ _ _ Hun1)) as [Hv1 _].
    cbn [r_space]. rewrite Hv1, bit_ev_type, Ht1 by done. eapply delta_unchanged; [done|]. unfold is_send. by rewrite Ht1.
  - intros Ha. cbn [r_world]. rewrite Hq, (proj2 (Z.ltb_lt _ _) (Hso Ha)).
    destruct (d =? 0); [by eapply delta_unchanged|]. rewrite <- Hns in Hun.
    destruct (drop_send_once_post self s w c n r v q out Hun Ht Hq Ha) as (s' & w' & -> & Hset). by exists s', w'.
Qed.

Lemma delta_dead_name_post self s w c n r v out d :
  unsettled self (is_send v) s w c n r v out -> is_int d ->
  delta_post self c n out (delta_dead_name_spec w v d) (delta_dead_name (mk_rstate s w) n d v r).
Proof.
  intros Hun Hd. pose proof (un_entry _ _ _ _ _ _ _ _ _ Hun) as He.
  unfold delta_dead_name, delta_dead_name_spec.
  rewrite (bit_ev_type v MACH_PORT_TYPE_SEND_RIGHTS), (bit_ev_type v MACH_PORT_TYPE_DEAD_NAME) by done.
  destruct (bit (ev_type v) MACH_PORT_TYPE_SEND_RIGHTS) eqn:Hbit; cbn [negb].
  - destruct He as [Ht|? Ht|q Hobj Hq Hreq Hr]; [by rewrite Ht in Hbit..|].
    rewrite (proj2 (Z.eqb_neq _ _) Hobj). cbn [negb].
    pose proof (check_post self s w c n r v q out (fun v' => delta_dead_spec v' d) (KERN_INVALID_RIGHT, Some v)
      (fun st1 => delta_dead st1 n d r) (fun st1 => Some (st1, KERN_INVALID_RIGHT)) Hun Hq (right_ok_port _ _ _ _ Hr)) as Hc.
    destruct Hc as (s' & w' & Hres & Hset).
    { intros s1 w1 Hun1 Ht1. by apply delta_dead_post. }
    { intros _. by eapply delta_unchanged. }
    exists s', w'. split; [|done]. destruct (ipc_right_check _ _ _ _) as [[st1 died]|]; [|done]. by destruct died.
  - destruct (bit (ev_type v) MACH_PORT_TYPE_DEAD_NAME) eqn:Hdn; cbn [negb]; [|by eapply delta_unchanged].
    assert (ev_type v = MACH_PORT_TYPE_DEAD_NAME) as Ht.
    { destruct He as [Ht|? Ht|q _ _ _ []]; [done|by rewrite Ht in Hdn|by rewrite H in Hdn..]. }
    apply delta_dead_post; [|done|done]. unfold is_send in Hun. by rewrite Ht in Hun.
Qed.

Lemma delta_send_live self s w c n r v q out d :
  unsettled self (is_send v) s w c n r v out -> bit (ev_type v) MACH_PORT_TYPE_SEND = true ->
  w_ports w !! ev_object v = Some q -> right_ok self n v q -> ip_active q = true ->
  0 <= urefs v + d < MACH_PORT_UREFS_MAX -> u32 (urefs v + d) = urefs v + d ->
  delta_post self c n out
    (KERN_SUCCESS,
     if urefs v + d =? 0 then
       if ev_type v =? MACH_PORT_TYPE_SEND_RECEIVE then Some (v_set_bits (no_send_bits (ev_bits v)) v) else None
     else Some (add_view v d))
    (LET q <- w_ports w !! ev_object v ;;
     ASSERT 0 <? ip_srights q ;;
     if u32 (urefs v + d) =? 0 then
       LET (st2, ns) <- drop_srights (ev_object v) (mk_rstate s w) ;;
       if bit (ev_bits v) MACH_PORT_TYPE_RECEIVE then
         ASSERT ip_receiver_name q =? n ;;
         ASSERT ip_receiver q =? IpcRight.self st2 ;;
         ASSERT ev_type v =? MACH_PORT_TYPE_SEND_RECEIVE ;;
         LET st3 <- entry_upd r (v_set_bits (no_send_bits (ev_bits v))) st2 ;;
         Some (notify_no_senders ns st3, KERN_SUCCESS)
       else
         ASSERT ev_type v =? MACH_PORT_TYPE_SEND ;;
         LET (st3, dnrequest) <- drop_last_send st2 (ev_object v) n (ev_bits v) r ;;
         Some (notify_port_deleted dnrequest n (notify_no_senders ns st3), KERN_SUCCESS)
     else
       LET st2 <- entry_upd r (v_set_bits (u32 (ev_bits v + d))) (mk_rstate s w) ;;
       Some (st2, KERN_SUCCESS)).
Proof.
  intros Hun Hbit Hq Hr Ha Hd Hsum. rewrite Hq, Hsum, (bit_ev_type v MACH_PORT_TYPE_RECEIVE) by done.
  assert (0 < ip_srights q /\ (ev_type v = MACH_PORT_TYPE_SEND \/ ev_type v = MACH_PORT_TYPE_SEND_RECEIVE /\ receives self n q))
    as [Hsr Ht].
  { destruct Hr as [Ht Hu Hx|Ht|Ht|Ht Hu Hx Hy]; [by destruct (Hx Ha); auto|by rewrite Ht in Hbit..|by auto]. }
  rewrite (proj2 (Z.ltb_lt _ _) Hsr). destruct (Z.eqb_spec (urefs v + d) 0) as [H0|H0].
  - rewrite (drop_srights_step s w _ q) by done. unfold is_send in Hun. destruct Ht as [Ht|[Ht (_ & Hrn & Hrr)]]; rewrite Ht in Hun |- *.
    + change (bit MACH_PORT_TYPE_SEND MACH_PORT_TYPE_RECEIVE) with false. cbn [Z.eqb Pos.eqb].
      destruct (drop_last_send_post self s w c n r v q out Hun Ht Hq Ha Hsr) as (s' & w' & dn & Hdl & Hset).
      rewrite Z.eqb_refl, Hdl. rewrite notify_no_senders_step, notify_port_deleted_step.
      do 2 eexists. split; [done|apply Hset].
    + change (bit MACH_PORT_TYPE_SEND_RECEIVE MACH_PORT_TYPE_RECEIVE) with true. unfold IpcRight.self. cbn [r_space].
      rewrite Hrn, Hrr, (un_self _ _ _ _ _ _ _ _ _ Hun), !Z.eqb_refl.
      destruct (drop_both_send_post self s w c n r v q out (dec_srights q).2 Hun Ht Hq Hsr) as (s' & -> & Hset).
      rewrite notify_no_senders_step. do 2 eexists. split; [done|exact Hset].
  - destruct (unsettled_add self (is_send v) s w c n r v out d Hun) as (s' & -> & Hset); [..|by exists s', w].
    1-3: by destruct Ht as [Ht|[Ht _]]; rewrite Ht.
    + lia.
    + destruct Ht as [Ht|[Ht _]]; rewrite Ht; change (_ =? _) with false; cbn match; lia.
    + done.
Qed.

Lemma delta_send_post self s w c n r v out d :
  unsettled self (is_send v) s w c n r v out -> is_int d ->
  delta_post self c n out (delta_send_spec w v d) (delta_send (mk_rstate s w) n d v r).
Proof.
  intros Hun Hd. pose proof (un_entry _ _ _ _ _ _ _ _ _ Hun) as He.
  unfold delta_send, delta_send_spec. rewrite (bit_ev_type v MACH_PORT_TYPE_SEND) by done.
  destruct (bit (ev_type v) MACH_PORT_TYPE_SEND) eqn:Hbit; cbn [negb]; [|by eapply delta_unchanged].
  destruct He as [Ht|? Ht|q Hobj Hq Hreq Hr]; [by rewrite Ht in Hbit..|].
  assert (0 < urefs v < MACH_PORT_UREFS_MAX) as Hu by (destruct Hr as [Ht|Ht|Ht|Ht]; (done || by rewrite Ht in Hbit)).
  fold (urefs v). fold (ev_type v). fold (no_send_bits (ev_bits v)).
  destruct (delta_tests (urefs v) d ltac:(lia) Hd) as (-> & _ & Hsum).
  destruct (delta_tests (urefs v + 1) d ltac:(lia) Hd) as (_ & Hov & _). rewrite Hov.
  destruct (Z.ltb_spec (urefs v + d) 0); [by eapply delta_unchanged|].
  assert (((0 <? d) && (MACH_PORT_UREFS_MAX <? urefs v + 1 + d)) = (MACH_PORT_UREFS_MAX <? urefs v + 1 + d)) as ->.
  { destruct (Z.ltb_spec 0 d), (Z.ltb_spec MACH_PORT_UREFS_MAX (urefs v + 1 + d)); cbn; lia || done. }
  destruct (Z.ltb_spec MACH_PORT_UREFS_MAX (urefs v + 1 + d)); [by eapply delta_unchanged|].
  rewrite (proj2 (Z.eqb_neq _ _) Hobj). cbn [negb].
  eapply check_post; [done|exact Hq|by eapply right_ok_port| |].
  - intros s1 w1 Hun1 Ht1. destruct (opened_entry _ _ _ _ _ _ (un_open _ _ _ _ _ _ _ _ _ Hun1)) as [Hv1 _].
    cbn [r_space]. rewrite Hv1, bit_ev_type, Ht1 by done. eapply delta_unchanged; [done|]. unfold is_send. by rewrite Ht1.
  - intros Ha. cbn [r_world]. eapply delta_send_live; eauto; lia.
Qed.

(** C29: [ipc_right_delta] for send, send-once and dead-name rights fails no
    assertion and does exactly what [delta_spec] says in integers: which error
    it returns for which delta, when the entry goes or turns into a dead name or
    a plain receive right, and how many user references it has otherwise.  The
    rights of the space still agree with the ports and no port reference is
    lost, for every signed 32-bit delta. *)
Theorem right_delta_keeps_rights dits try self s w c n r v out rt d :
  settled self s w c out -> cs_holds s n r v -> is_int d ->
  rt = MACH_PORT_RIGHT_SEND \/ rt = MACH_PORT_RIGHT_SEND_ONCE \/ rt = MACH_PORT_RIGHT_DEAD_NAME ->
  exists s' w', ipc_right_delta dits try (mk_rstate s w) n r rt d =
      Some (mk_rstate s' w', (delta_spec w v rt d).1) /\
    settled self s' w' (put_cap n (delta_spec w v rt d).2 (delete n c)) out.
Proof.
  intros Hset Hh Hd Hrt. destruct (unsettle self s w c n r v out Hset Hh) as [Hun Hcap].
  destruct (holds_cap s c n r v (se_repr _ _ _ _ _ Hset) Hh) as (_ & Hb & Hv).
  unfold ipc_right_delta. cbn [r_space]. rewrite Hv, (repr_active s c (se_repr _ _ _ _ _ Hset)).
  destruct Hrt as [-> | [-> | ->]]; cbn.
  - by apply delta_send_post.
  - by apply delta_send_once_post.
  - by apply delta_dead_name_post.
Qed.
End DeltaThm.
