(* ===== verification/IpcRightThms.v ===== *)
(** * Rights of a concrete space

    A space whose first name is a send right with two user references for a port
    received elsewhere, the laws of ipc_right.c at that space, and the theorems
    applied to it. *)

From S2P Require Import Prelude PortName IpcSplay IpcTable IpcTypes IpcHash IpcEntry.
From S2P Require Import IpcSpaceInv IpcEntrySpec IpcSpace IpcEntryThms IpcCap IpcCapSpace.
From S2P Require Import IpcMqueue IpcPort IpcRequests IpcWorld IpcPortOps IpcRight IpcRightBits.
From S2P Require Import IpcRightCopy IpcRightInv IpcRightSteps IpcDelta IpcDealloc IpcDeltaSpec.

#[local] Existing Instance pc0.
#[local] Instance space0_ops : CapSpace kstate := kstate_space its0.
#[local] Instance space0_laws : CapSpaceLaws kstate := kstate_laws its0 its0_ok.

(** The entry that [ipc_entry_get] took. *)
Lemma got0_open : cs_open got0 ∅ 0x100 (InTable 1) (mk_view 0 IO_NULL 0).
Proof.
  destruct (@ipc_entry_get_correct pc0 its0 its0_ok space0 ghash0 st0_wf) as (sp' & res & Hg & Hres).
  assert (got0 = mk_kstate sp' ghash0) as -> by (unfold got0; by rewrite Hg).
  assert (res = Some (0x100, 1)) as ->.
  { assert (res = (default (space0, None) (@ipc_entry_get pc0 space0)).2) as -> by by rewrite Hg.
    vm_compute. reflexivity. }
  destruct Hres as (Hwf & _ & Hr & Hf & _ & Hc). destruct ghash0_ok as [Hgw Hgn].
  destruct (@space_init_correct pc0 its0 raw_space 0 ghash0) as (sp & Hsp & _ & Hnone & _);
    [apply its0_ok|done|by eexists|done|by intros e ?%Hgn|].
  eapply kopen_fresh; [done|done|exact Hf|done|]. intros k _. cbn. rewrite lookup_empty, Hc. unfold space0. by rewrite Hsp.
Qed.

(** ** The sample *)

(** The entry of [got0] with fields [v], in the hash table. *)
Definition holding (v : eview) : kstate :=
  let stored := default got0 (cs_store got0 (InTable 1) v) in
  default stored (cs_hash_insert stored (ev_object v) 0x100 (InTable 1)).

Lemma holding_repr v : is_u32 (ev_bits v) -> Z.ldiff (ev_bits v) IE_BITS_RIGHT_MASK = 0 ->
  ev_type v = MACH_PORT_TYPE_SEND -> ev_object v <> IO_NULL ->
  cs_repr (holding v) {[ 0x100 := the_cap v ]} /\ cs_holds (holding v) 0x100 (InTable 1) v /\ cs_self (holding v) = 0x40.
Proof.
  intros Hb Hp Ht Ho. destruct (store_law got0 ∅ 0x100 (InTable 1) _ v got0_open) as (s1 & H1 & Ho1 & Hs1); [by split|].
  destruct (hash_insert_law s1 ∅ 0x100 (InTable 1) v Ho1) as (s2 & H2 & Ho2 & Hs2); [done|by intros ? ? ?|].
  assert (holding v = s2) as ->.
  { unfold holding. rewrite H1. change (default got0 (Some s1)) with s1. by rewrite H2. }
  destruct (hclose_law s2 ∅ 0x100 (InTable 1) v Ho2 Ht) as [Hr Hh].
  split_and!; [exact Hr|exact Hh|]. rewrite Hs2, Hs1. vm_compute. reflexivity.
Qed.

(** The world with one port, [q]. *)
Definition world_of (q : ipc_port) : world := mk_world {[ 0x1000 := q ]} ∅ 0 [].

Lemma holding_settled v q : is_u32 (ev_bits v) -> Z.ldiff (ev_bits v) IE_BITS_RIGHT_MASK = 0 ->
  ev_type v = MACH_PORT_TYPE_SEND -> ev_object v = 0x1000 -> port_wf q -> 1 <= ip_references q ->
  request_ok 0x40 0x100 v q -> right_ok 0x40 0x100 v q ->
  settled 0x40 (holding v) (world_of q) {[ 0x100 := the_cap v ]} (outside (world_of q) {[ 0x100 := the_cap v ]}).
Proof.
  intros Hb Hp Ht Ho Hwf Href Hreq Hr. destruct (holding_repr v Hb Hp Ht) as (Hrep & _ & Hs); [by rewrite Ho|].
  constructor; [done|done| |done]. apply (rights_ok_insert 0x40 (world_of q) ∅ 0x100 v); [|done| |by intros _ ? ? ?|].
  - constructor; [done|done| |].
    + intros p. unfold holds, refs. rewrite map_filter_empty, map_size_empty. cbn.
      destruct (decide (p = 0x1000)) as [->|]; [rewrite lookup_singleton_eq; cbn; lia|by rewrite lookup_singleton_ne].
    + intros p q' Hq. unfold world_of in Hq. cbn in Hq. by apply lookup_singleton_Some in Hq as [_ <-].
  - apply (port_ok _ _ _ _ q); [by rewrite Ho|by rewrite Ho|done|done].
  - intros _. unfold holds, refs. rewrite map_filter_empty, map_size_empty, Ho. cbn. rewrite lookup_singleton_eq. cbn. lia.
Qed.

Definition send0 : eview := mk_view (Z.lor MACH_PORT_TYPE_SEND 2) 0x1000 0.
Definition sent0 : kstate := holding send0.
Definition world0 : world := world_of req_port.
Definition caps0 : gmap Z capability := {[ 0x100 := the_cap send0 ]}.

Lemma sent0_repr : cs_repr sent0 caps0 /\ cs_holds sent0 0x100 (InTable 1) send0 /\ cs_self sent0 = 0x40.
Proof. by apply holding_repr. Qed.

Lemma req_port_ok : port_wf req_port.
Proof. split_and!; [done..|]. exists [2]. apply req_port_wf. Qed.

Lemma sent0_settled : settled 0x40 sent0 world0 caps0 (outside world0 caps0).
Proof.
  apply holding_settled; [done..|apply req_port_ok|done| |].
  - split; [done|]. by intros _ [].
  - apply send_ok; [done|by vm_compute|]. intros _. by vm_compute.
Qed.

(** ** The theorems at the sample *)

(** The first dealloc leaves the send right one user reference. *)
Lemma right_dealloc_keeps_rights_witness :
  exists s' w', ipc_right_dealloc (mk_rstate sent0 world0) 0x100 (InTable 1) = Some (mk_rstate s' w', KERN_SUCCESS) /\
    settled 0x40 s' w' {[ 0x100 := the_cap (mk_view (Z.lor MACH_PORT_TYPE_SEND 1) 0x1000 0) ]} (outside world0 caps0).
Proof.
  destruct (right_dealloc_keeps_rights 0x40 sent0 world0 caps0 0x100 (InTable 1) send0 (outside world0 caps0)
    sent0_settled (proj1 (proj2 sent0_repr))) as (s' & w' & Heq & Hset).
  exists s', w'. split; [exact Heq|]. exact Hset.
Defined.

(** A delta of -2 removes the name. *)
Lemma right_delta_keeps_rights_witness :
  exists s' w', ipc_right_delta [] true (mk_rstate sent0 world0) 0x100 (InTable 1) MACH_PORT_RIGHT_SEND (-2) =
      Some (mk_rstate s' w', KERN_SUCCESS) /\
    settled 0x40 s' w' ∅ (outside world0 caps0).
Proof.
  destruct (right_delta_keeps_rights [] true 0x40 sent0 world0 caps0 0x100 (InTable 1) send0
    (outside world0 caps0) MACH_PORT_RIGHT_SEND (-2) sent0_settled (proj1 (proj2 sent0_repr))) as (s' & w' & Heq & Hset).
  - split; vm_compute; congruence.
  - by left.
  - exists s', w'. split; [exact Heq|exact Hset].
Defined.

Lemma dealloc_is_delta_witness :
  ipc_right_dealloc (mk_rstate sent0 world0) 0x100 (InTable 1) =
  ipc_right_delta [] true (mk_rstate sent0 world0) 0x100 (InTable 1) MACH_PORT_RIGHT_SEND (-1).
Proof.
  apply (dealloc_is_delta [] true (mk_rstate sent0 world0) 0x100 (InTable 1) send0).
  - vm_compute. reflexivity.
  - apply (proj1 (proj2 sent0_repr)).
  - vm_compute. reflexivity.
  - intros _. exists req_port. split_and!; [done|done|]. intros H. discriminate H.
Defined.

(** ** A send right that is moved out the old way *)

Definition moved0 : rstate kstate :=
  from_option fst (mk_rstate sent0 world0) (ipc_right_copyin_compat (mk_rstate sent0 world0) 0x100 (InTable 1) false true).

(** C38: [ipc_right_copyin_compat] that moves a send right out of a space
    (MSG_TYPE_PORT with deallocation) forgets the reverse hash table: at the
    sample, a well-formed space, it succeeds, returns the port and frees the
    name, but the table still has a slot for the freed entry, so the space is no
    longer well formed. *)
Theorem compat_move_leaves_hash_slot :
  space_wf its0 None sent0 /\
  ipc_right_copyin_compat (mk_rstate sent0 world0) 0x100 (InTable 1) false true = Some (moved0, inr 0x1000) /\
  space_caps (k_space (r_space moved0)) 0x100 = None /\
  hashed (is_table (k_space (r_space moved0))) 1 /\
  ~ space_wf its0 None (r_space moved0).
Proof.
  assert (hashed (is_table (k_space (r_space moved0))) 1) as Hh.
  { split; [done|]. exists (IH_LOCAL_HASH 0x1000 4). split; vm_compute; [split|]; congruence. }
  split_and!; [apply sent0_repr|by vm_compute|by vm_compute|done|].
  intros Hwf. apply (wf_hashed _ _ _ Hwf) in Hh as (obj & _ & b & Hb & Ht). vm_compute in Hb. injection Hb as <- <-. by vm_compute in Ht.
Qed.
