(* ===== verification/IpcObject.v ===== *)
(** * Objects and capabilities (ipc/ipc_object.c, and its clients in ipc_port.c and ipc_pset.c)

    Operations on a whole space by name: allocating objects and names, copying
    capabilities in and out, and renaming.  They find or allocate the entry and
    leave the rest to ipc_right.c.  The operations that allocate entries release
    the space lock while the table grows; an environment [obj_env] says what
    memory there is and what others do to the space and to the ports then. *)

From S2P Require Import Prelude PortName IpcTable IpcTypes IpcMqueue IpcPort IpcWorld.
From S2P Require Import IpcPortOps IpcEntry IpcSpaceInv IpcCap IpcRight IpcRightCopy.

(** The allocation of entries, beside [CapSpace]. *)
Class SpaceAlloc (S : Type) := {
  sp_env : Type;
  sp_get : S -> option (S * option (Z * entry_ref));
  sp_grow : sp_env -> S -> option (S * kern_return);
  sp_alloc : sp_env -> S -> option (S * (kern_return + Z * entry_ref));
  sp_alloc_name : sp_env -> Z -> S -> option (S * (kern_return + entry_ref))
}.

Section Object.
Context {S : Type} {CS : CapSpace S} {SA : SpaceAlloc S}.

Record obj_env := mk_obj_env { oe_space : sp_env; oe_world : world -> world }.

Definition entry_get (st : rstate S) : option (rstate S * option (Z * entry_ref)) :=
  LET (s, res) <- sp_get (r_space st) ;; Some (with_space s st, res).

Definition entry_grow_table (env : obj_env) (st : rstate S) : option (rstate S * kern_return) :=
  LET (s, kr) <- sp_grow (oe_space env) (r_space st) ;; Some (mk_rstate s (oe_world env (r_world st)), kr).

Definition entry_alloc (env : obj_env) (st : rstate S) : option (rstate S * (kern_return + Z * entry_ref)) :=
  LET (s, res) <- sp_alloc (oe_space env) (r_space st) ;; Some (mk_rstate s (oe_world env (r_world st)), res).

Definition entry_alloc_name (env : obj_env) (name : Z) (st : rstate S) : option (rstate S * (kern_return + entry_ref)) :=
  LET (s, res) <- sp_alloc_name (oe_space env) name (r_space st) ;;
  Some (mk_rstate s (oe_world env (r_world st)), res).

(** ** Translation *)

(** The object that [name] denotes, if it has the right. *)
Definition ipc_object_translate (st : rstate S) (name right : Z) : option (rstate S * (kern_return + Z)) :=
  LET (st1, res) <- ipc_right_lookup_write st name ;;
  match res with
  | inl kr => Some (st1, inl kr)
  | inr ref =>
      LET v <- cs_entry (r_space st1) ref ;;
      if negb (bit (ev_bits v) (MACH_PORT_TYPE right)) then Some (st1, inl KERN_INVALID_RIGHT)
      else
        ASSERT negb (ev_object v =? IO_NULL) ;;
        Some (st1, inr (ev_object v))
  end.

(** ** Allocation *)

(** [entry->ie_bits |= MACH_PORT_TYPE_DEAD_NAME | 1]. *)
Definition make_dead_name (ref : entry_ref) (st : rstate S) : option (rstate S) :=
  LET v <- cs_entry (r_space st) ref ;;
  ASSERT ev_object v =? IO_NULL ;;
  entry_upd ref (fun v => v_set_bits (Z.lor (ev_bits v) (Z.lor MACH_PORT_TYPE_DEAD_NAME 1)) v) st.

Definition ipc_object_alloc_dead (env : obj_env) (st : rstate S) : option (rstate S * (kern_return + Z)) :=
  LET (st1, res) <- entry_alloc env st ;;
  match res with
  | inl kr => Some (st1, inl kr)
  | inr (name, ref) => LET st2 <- make_dead_name ref st1 ;; Some (st2, inr name)
  end.

Definition ipc_object_alloc_dead_name (env : obj_env) (st : rstate S) (name : Z) : option (rstate S * kern_return) :=
  LET (st1, res) <- entry_alloc_name env name st ;;
  match res with
  | inl kr => Some (st1, kr)
  | inr ref =>
      LET (st2, inuse) <- ipc_right_inuse st1 name ref ;;
      if inuse : bool then Some (st2, KERN_NAME_EXISTS)
      else LET st3 <- make_dead_name ref st2 ;; Some (st3, KERN_SUCCESS)
  end.

Inductive ipc_object_type := IOT_PORT | IOT_PORT_SET.

(** The object after [bzero], with the reference of the entry and [io_bits] set. *)
Definition new_object (otype : ipc_object_type) (object : Z) (w : world) : world :=
  match otype with
  | IOT_PORT => put_port object (mk_port 1 true 0 0 ipc_mqueue_init 0 0 0 0 0 0 None 0 0 0 0 []) w
  | IOT_PORT_SET => put_pset object (mk_pset 1 true 0 ipc_mqueue_init) w
  end.

(** [entry->ie_bits |= type | urefs; entry->ie_object = object;] and the object. *)
Definition install_object (otype : ipc_object_type) (type urefs object : Z) (ref : entry_ref) (st : rstate S)
    : option (rstate S) :=
  LET st1 <- entry_upd ref
    (fun v => v_set_object object (v_set_bits (Z.lor (ev_bits v) (Z.lor type urefs)) v)) st ;;
  Some (with_world (new_object otype object (r_world st1)) st1).

Definition alloc_args_ok (type urefs : Z) : bool :=
  (Z.land type MACH_PORT_TYPE_ALL_RIGHTS =? type) && negb (type =? MACH_PORT_TYPE_NONE) &&
  (urefs <=? MACH_PORT_UREFS_MAX).

(** [mem] is what [io_alloc] returns; the new object is not in the world until
    it is installed, and [io_free] leaves nothing. *)
Definition ipc_object_alloc (env : obj_env) (mem : option Z) (st : rstate S) (otype : ipc_object_type) (type urefs : Z)
    : option (rstate S * (kern_return + Z * Z)) :=
  ASSERT alloc_args_ok type urefs ;;
  match mem with
  | None => Some (st, inl KERN_RESOURCE_SHORTAGE)
  | Some object =>
      LET (st1, res) <- entry_alloc env st ;;
      match res with
      | inl kr => Some (st1, inl kr)
      | inr (name, ref) =>
          LET st2 <- install_object otype type urefs object ref st1 ;; Some (st2, inr (name, object))
      end
  end.

Definition ipc_object_alloc_name (env : obj_env) (mem : option Z) (st : rstate S) (otype : ipc_object_type)
    (type urefs name : Z) : option (rstate S * (kern_return + Z)) :=
  ASSERT alloc_args_ok type urefs ;;
  match mem with
  | None => Some (st, inl KERN_RESOURCE_SHORTAGE)
  | Some object =>
      LET (st1, res) <- entry_alloc_name env name st ;;
      match res with
      | inl kr => Some (st1, inl kr)
      | inr ref =>
          LET (st2, inuse) <- ipc_right_inuse st1 name ref ;;
          if inuse : bool then Some (st2, inl KERN_NAME_EXISTS)
          else LET st3 <- install_object otype type urefs object ref st2 ;; Some (st3, inr object)
      end
  end.

(** *** Ports and port sets *)

Definition init_port (name port : Z) (st : rstate S) : option (rstate S) :=
  on_world (port_upd port (fun q => ipc_port_init q (self st) name)) st.

Definition ipc_port_alloc (env : obj_env) (mem : option Z) (st : rstate S) : option (rstate S * (kern_return + Z * Z)) :=
  LET (st1, res) <- ipc_object_alloc env mem st IOT_PORT MACH_PORT_TYPE_RECEIVE 0 ;;
  match res with
  | inl kr => Some (st1, inl kr)
  | inr (name, port) => LET st2 <- init_port name port st1 ;; Some (st2, inr (name, port))
  end.

Definition ipc_port_alloc_name (env : obj_env) (mem : option Z) (st : rstate S) (name : Z)
    : option (rstate S * (kern_return + Z)) :=
  LET (st1, res) <- ipc_object_alloc_name env mem st IOT_PORT MACH_PORT_TYPE_RECEIVE 0 name ;;
  match res with
  | inl kr => Some (st1, inl kr)
  | inr port => LET st2 <- init_port name port st1 ;; Some (st2, inr port)
  end.

(** [ipc_target_init(&pset->ips_target, name)]. *)
Definition init_pset (name pset : Z) (st : rstate S) : option (rstate S) :=
  LET s <- w_psets (r_world st) !! pset ;;
  Some (with_world (put_pset pset (ips_set_messages ipc_mqueue_init (ips_set_local_name name s)) (r_world st)) st).

Definition ipc_pset_alloc (env : obj_env) (mem : option Z) (st : rstate S) : option (rstate S * (kern_return + Z * Z)) :=
  LET (st1, res) <- ipc_object_alloc env mem st IOT_PORT_SET MACH_PORT_TYPE_PORT_SET 0 ;;
  match res with
  | inl kr => Some (st1, inl kr)
  | inr (name, pset) => LET st2 <- init_pset name pset st1 ;; Some (st2, inr (name, pset))
  end.

Definition ipc_pset_alloc_name (env : obj_env) (mem : option Z) (st : rstate S) (name : Z)
    : option (rstate S * (kern_return + Z)) :=
  LET (st1, res) <- ipc_object_alloc_name env mem st IOT_PORT_SET MACH_PORT_TYPE_PORT_SET 0 name ;;
  match res with
  | inl kr => Some (st1, inl kr)
  | inr pset => LET st2 <- init_pset name pset st1 ;; Some (st2, inr pset)
  end.

(** The loop of [ipc_port_alloc_compat] over the elements of the new table. *)
Definition compat_table (slots : list ipc_port_request) (size space name : Z) : option (list ipc_port_request) :=
  ASSERT 1 <? size ;;
  LET (slots1, free) <- for_up (Z.to_nat (size - 2)) 2 dn_free_body (slots, 0) ;;
  LET _ <- aget slots1 0 ;;
  LET _ <- aget slots1 1 ;;
  Some (aset (aset slots1 0 (mk_ipr free 0)) 1 (mk_ipr (ipr_spacem space) name)).

(** [mem] is the port and [table] the request table that could be allocated; the
    fields of the port before [ipc_port_init] do not matter. *)
Definition ipc_port_alloc_compat (dits : list Z) (env : obj_env) (mem : option Z) (table : option dntable) (st : rstate S)
    : option (rstate S * (kern_return + Z * Z)) :=
  match mem, table with
  | Some port, Some tb =>
      LET (st1, res) <- entry_alloc env st ;;
      match res with
      | inl kr => Some (st1, inl kr)
      | inr (name, ref) =>
          LET st2 <- entry_upd ref (fun v =>
            mk_view (Z.lor (ev_bits v) (Z.lor IE_BITS_COMPAT MACH_PORT_TYPE_RECEIVE)) port 1) st1 ;;
          LET size <- aget dits 0 ;;
          LET slots <- compat_table (dnt_slots tb) size (self st2) name ;;
          let q := ipc_port_init (mk_port 1 true 0 0 ipc_mqueue_init 0 0 0 0 0 0 None 0 0 0 0 []) (self st2) name in
          let q1 := ip_set_dnrequests (Some (mk_dntable (dnt_addr tb) slots)) q in
          Some (log [Space_reference (self st2)] (with_world (put_port port q1 (r_world st2)) st2), inr (name, port))
      end
  | _, _ => Some (st, inl KERN_RESOURCE_SHORTAGE)
  end.

(** ** Copying in *)

(** 0 and the strange types are left out. *)
Definition ipc_object_copyin_type (msgt_name : mach_msg_type_name) : mach_msg_type_name :=
  match msgt_name with
  | MACH_MSG_TYPE_MOVE_RECEIVE => MACH_MSG_TYPE_PORT_RECEIVE
  | MACH_MSG_TYPE_MOVE_SEND_ONCE | MACH_MSG_TYPE_MAKE_SEND_ONCE => MACH_MSG_TYPE_PORT_SEND_ONCE
  | MACH_MSG_TYPE_MOVE_SEND | MACH_MSG_TYPE_MAKE_SEND | MACH_MSG_TYPE_COPY_SEND => MACH_MSG_TYPE_PORT_SEND
  end.

Definition ipc_object_copyin (st : rstate S) (name : Z) (msgt_name : mach_msg_type_name)
    : option (rstate S * (kern_return + Z)) :=
  LET (st1, res) <- ipc_right_lookup_write st name ;;
  match res with
  | inl kr => Some (st1, inl kr)
  | inr ref =>
      LET (st2, res2) <- ipc_right_copyin st1 name ref msgt_name true ;;
      LET v <- cs_entry (r_space st2) ref ;;
      LET st3 <- (if ev_type v =? MACH_PORT_TYPE_NONE then entry_dealloc name ref st2 else Some st2) ;;
      match res2 with
      | inl kr => Some (st3, inl kr)
      | inr (object, soright) => Some (notify_port_deleted soright name st3, inr object)
      end
  end.

(** [kernel] is [ipc_space_kernel]. *)
Definition ipc_object_copyin_from_kernel (kernel object : Z) (msgt_name : mach_msg_type_name) (w : world)
    : option world :=
  ASSERT IP_VALID object ;;
  match msgt_name with
  | MACH_MSG_TYPE_MOVE_SEND | MACH_MSG_TYPE_MOVE_SEND_ONCE => Some w
  | MACH_MSG_TYPE_COPY_SEND =>
      LET q <- w_ports w !! object ;;
      if ip_active q then
        ASSERT 0 <? ip_srights q ;;
        Some (put_port object (ip_reference (ip_set_srights (u32 (ip_srights q + 1)) q)) w)
      else Some (put_port object (ip_reference q) w)
  | _ =>
      LET q <- w_ports w !! object ;;
      ASSERT ip_active q ;;
      ASSERT negb (ip_receiver_name q =? MACH_PORT_NULL) ;;
      ASSERT ip_receiver q =? kernel ;;
      match msgt_name with
      | MACH_MSG_TYPE_MOVE_RECEIVE =>
          (* relevant part of ipc_port_clear_receiver *)
          LET w1 <- ipc_port_set_mscount object 0 w ;;
          port_upd object (fun q => ip_set_data IP_NULL (ip_set_receiver_name MACH_PORT_NULL q)) w1
      | MACH_MSG_TYPE_MAKE_SEND =>
          let q1 := ip_reference q in
          let q2 := ip_set_mscount (u32 (ip_mscount q1 + 1)) q1 in
          Some (put_port object (ip_set_srights (u32 (ip_srights q2 + 1)) q2) w)
      | _ =>
          let q1 := ip_reference q in
          Some (put_port object (ip_set_sorights (u32 (ip_sorights q1 + 1)) q1) w)
      end
  end.

(** Of the rights that a message carries. *)
Definition ipc_object_destroy (dits : list Z) (try : bool) (object : Z) (msgt_name : mach_msg_type_name) (w : world)
    : option world :=
  ASSERT IP_VALID object ;;
  LET _ <- w_ports w !! object ;;
  match msgt_name with
  | MACH_MSG_TYPE_MOVE_SEND => ipc_port_release_send object w
  | MACH_MSG_TYPE_MOVE_SEND_ONCE => Some (emit [Notify_send_once object] w)
  | MACH_MSG_TYPE_MOVE_RECEIVE => ipc_port_release_receive dits try object w
  | _ => None
  end.

(** ** Copying out *)

(** [msgt_name != MACH_MSG_TYPE_PORT_SEND_ONCE && ipc_right_reverse(...)]. *)
Definition find_reverse (st : rstate S) (object : Z) (msgt_name : mach_msg_type_name)
    : option (rstate S * option (Z * entry_ref)) :=
  if bool_decide (msgt_name = MACH_MSG_TYPE_PORT_SEND_ONCE) then Some (st, None) else ipc_right_reverse st object.

(** A new entry has no right and no object. *)
Definition assert_fresh (ref : entry_ref) (st : rstate S) : option unit :=
  LET v <- cs_entry (r_space st) ref ;;
  ASSERT ev_type v =? MACH_PORT_TYPE_NONE ;;
  ASSERT ev_object v =? IO_NULL ;;
  Some tt.

(** The rest of the loop once there is a new entry: a dead object is refused. *)
Definition claim_entry (st : rstate S) (object name : Z) (ref : entry_ref)
    : option (rstate S * (kern_return + Z * entry_ref)) :=
  LET _ <- assert_fresh ref st ;;
  LET q <- w_ports (r_world st) !! object ;;
  if negb (ip_active q) then
    LET st1 <- entry_dealloc name ref st ;; Some (st1, inl KERN_INVALID_CAPABILITY)
  else
    LET st1 <- entry_upd ref (v_set_object object) st ;; Some (st1, inr (name, ref)).

(** The loop of [ipc_object_copyout]; an environment for each growth. *)
Fixpoint copyout_entry (envs : list obj_env) (st : rstate S) (object : Z) (msgt_name : mach_msg_type_name)
    : option (rstate S * (kern_return + Z * entry_ref)) :=
  if negb (cs_active (r_space st)) then Some (st, inl KERN_INVALID_TASK)
  else
    LET (st1, found) <- find_reverse st object msgt_name ;;
    match found with
    | Some (name, ref) =>
        LET v <- cs_entry (r_space st1) ref ;;
        ASSERT bit (ev_bits v) MACH_PORT_TYPE_SEND_RECEIVE ;;
        Some (st1, inr (name, ref))
    | None =>
        LET (st2, res) <- entry_get st1 ;;
        match res with
        | Some (name, ref) => claim_entry st2 object name ref
        | None =>
            match envs with
            | [] => None
            | env :: envs' =>
                LET (st3, kr) <- entry_grow_table env st2 ;;
                if bool_decide (kr = KERN_SUCCESS) then copyout_entry envs' st3 object msgt_name
                else Some (st3, inl kr)
            end
        end
    end.

Definition ipc_object_copyout (envs : list obj_env) (st : rstate S) (object : Z) (msgt_name : mach_msg_type_name)
    (overflow : bool) : option (rstate S * (kern_return + Z)) :=
  ASSERT IP_VALID object ;;
  LET _ <- w_ports (r_world st) !! object ;;
  LET (st1, res) <- copyout_entry envs st object msgt_name ;;
  match res with
  | inl kr => Some (st1, inl kr)
  | inr (name, ref) =>
      LET (st2, kr) <- ipc_right_copyout st1 name ref msgt_name overflow object ;;
      Some (st2, if bool_decide (kr = KERN_SUCCESS) then inr name else inl kr)
  end.

Definition ipc_object_copyout_name (env : obj_env) (st : rstate S) (object : Z) (msgt_name : mach_msg_type_name)
    (overflow : bool) (name : Z) : option (rstate S * kern_return) :=
  ASSERT IP_VALID object ;;
  LET _ <- w_ports (r_world st) !! object ;;
  LET (st1, res) <- entry_alloc_name env name st ;;
  match res with
  | inl kr => Some (st1, kr)
  | inr ref =>
      LET (st2, found) <- find_reverse st1 object msgt_name ;;
      match found with
      | Some (oname, oref) =>
          LET v <- cs_entry (r_space st2) ref ;;
          if negb (name =? oname) then
            LET st3 <- (if ev_type v =? MACH_PORT_TYPE_NONE then entry_dealloc name ref st2 else Some st2) ;;
            Some (st3, KERN_RIGHT_EXISTS)
          else
            ASSERT bool_decide (ref = oref) ;;
            ASSERT bit (ev_bits v) MACH_PORT_TYPE_SEND_RECEIVE ;;
            ipc_right_copyout st2 name ref msgt_name overflow object
      | None =>
          LET (st3, inuse) <- ipc_right_inuse st2 name ref ;;
          if inuse : bool then Some (st3, KERN_NAME_EXISTS)
          else
            LET (st4, res4) <- claim_entry st3 object name ref ;;
            match res4 with
            | inl kr => Some (st4, kr)
            | inr _ => ipc_right_copyout st4 name ref msgt_name overflow object
            end
      end
  end.

(** Returns the receiver's name for the port. *)
Definition ipc_object_copyout_dest (st : rstate S) (object : Z) (msgt_name : mach_msg_type_name)
    : option (rstate S * Z) :=
  ASSERT IP_VALID object ;;
  LET q0 <- w_ports (r_world st) !! object ;;
  ASSERT ip_active q0 ;;
  let q := ip_release q0 in
  match msgt_name with
  | MACH_MSG_TYPE_MOVE_SEND =>
      LET (st1, ns) <- drop_srights object (with_world (put_port object q (r_world st)) st) ;;
      let name := if ip_receiver q =? self st then ip_receiver_name q else MACH_PORT_NULL in
      Some (notify_no_senders ns st1, name)
  | MACH_MSG_TYPE_MOVE_SEND_ONCE =>
      ASSERT 0 <? ip_sorights q ;;
      if ip_receiver q =? self st then
        (* quietly consume the send-once right *)
        Some (with_world (put_port object (ip_set_sorights (u32 (ip_sorights q - 1)) q) (r_world st)) st,
              ip_receiver_name q)
      else
        (* restore ref *)
        Some (log [Notify_send_once object] (with_world (put_port object (ip_reference q) (r_world st)) st),
              MACH_PORT_NULL)
  | _ => None
  end.

(** ** Renaming *)

Definition ipc_object_rename (env : obj_env) (st : rstate S) (oname nname : Z) : option (rstate S * kern_return) :=
  LET (st1, res) <- entry_alloc_name env nname st ;;
  match res with
  | inl kr => Some (st1, kr)
  | inr nref =>
      LET (st2, inuse) <- ipc_right_inuse st1 nname nref ;;
      if inuse : bool then Some (st2, KERN_NAME_EXISTS)
      else
        (* don't let ipc_entry_lookup see the uninitialized new entry *)
        LET (st3, oentry) <-
          (if oname =? nname then Some (st2, None)
           else LET (s, res3) <- cs_lookup (r_space st2) oname ;; Some (with_space s st2, res3)) ;;
        match oentry with
        | None => LET st4 <- entry_dealloc nname nref st3 ;; Some (st4, KERN_INVALID_NAME)
        | Some oref => ipc_right_rename st3 oname oref nname nref
        end
  end.
End Object.
