(* ===== verification/IpcObjectCompat.v ===== *)
(** * Objects for old-style tasks (ipc/ipc_object.c and ipc/ipc_port.c, MACH_IPC_COMPAT)

    Copying capabilities for the interfaces of Mach 2.5.  New entries have the
    compat bit and a dead-name request that is the space itself, so that they
    disappear with the port. *)

From S2P Require Import Prelude PortName IpcTable IpcTypes IpcMqueue IpcPort IpcWorld.
From S2P Require Import IpcPortOps IpcSpaceInv IpcCap IpcRight IpcRightCopy IpcObject.

Section Compat.
Context {S : Type} {CS : CapSpace S} {SA : SpaceAlloc S}.

(** [MSG_TYPE_PORT_ALL], or else [MSG_TYPE_PORT]. *)
Definition ipc_object_copyout_type_compat (msgt_name : mach_msg_type_name) : option bool :=
  match msgt_name with
  | MACH_MSG_TYPE_MOVE_SEND | MACH_MSG_TYPE_MOVE_SEND_ONCE => Some false
  | MACH_MSG_TYPE_MOVE_RECEIVE => Some true
  | _ => None
  end.

Definition ipc_object_copyin_compat (st : rstate S) (name : Z) (all dealloc : bool)
    : option (rstate S * (kern_return + Z)) :=
  LET (st1, res) <- ipc_right_lookup_write st name ;;
  match res with
  | inl kr => Some (st1, inl kr)
  | inr ref => ipc_right_copyin_compat st1 name ref all dealloc
  end.

(** [notify] is [space->is_notify]. *)
Definition ipc_object_copyin_header (notify : Z) (st : rstate S) (name : Z)
    : option (rstate S * (kern_return + Z * mach_msg_type_name)) :=
  LET (st1, res) <- ipc_right_lookup_write st name ;;
  match res with
  | inl kr => Some (st1, inl kr)
  | inr ref => ipc_right_copyin_header st1 name ref notify
  end.

(** What is not locked while a table grows. *)
Record compat_env := mk_compat_env {
  ce_entry : @obj_env S SA;
  ce_retry : @retry_env S
}.

(** A new entry claims a live port with a request for the space itself.  [inr
    None] means that the requests of the port are full and the entry is gone. *)
Definition claim_compat (st : rstate S) (port name : Z) (ref : entry_ref) : option (rstate S * (kern_return + option unit)) :=
  LET q <- w_ports (r_world st) !! port ;;
  if negb (ip_active q) then
    LET st1 <- entry_dealloc name ref st ;; Some (st1, inl KERN_INVALID_CAPABILITY)
  else
    LET (q', res) <- ipc_port_dnrequest q name (ipr_spacem (self st)) ;;
    match res with
    | None => LET st1 <- entry_dealloc name ref st ;; Some (st1, inr None)
    | Some request =>
        (* for dnrequest *)
        let st1 := log [Space_reference (self st)] (with_world (put_port port q' (r_world st)) st) in
        LET st2 <- entry_upd ref (fun v => mk_view (Z.lor (ev_bits v) IE_BITS_COMPAT) port request) st1 ;;
        Some (st2, inr (Some tt))
    end.

(** The loop of [ipc_object_copyout_compat]. *)
Fixpoint compat_entry (dits : list Z) (envs : list compat_env) (st : rstate S) (port : Z) (msgt_name : mach_msg_type_name)
    : option (rstate S * (kern_return + Z * entry_ref)) :=
  if negb (cs_active (r_space st)) then Some (st, inl KERN_INVALID_TASK)
  else
    LET (st1, found) <- find_reverse st port msgt_name ;;
    match found with
    | Some (name, ref) =>
        LET v <- cs_entry (r_space st1) ref ;;
        ASSERT bit (ev_bits v) MACH_PORT_TYPE_SEND_RECEIVE ;;
        Some (st1, inr (name, ref))
    | None =>
        LET (st2, res) <- entry_get st1 ;;
        match res with
        | None =>
            match envs with
            | [] => None
            | env :: envs' =>
                LET (st3, kr) <- entry_grow_table (ce_entry env) st2 ;;
                if bool_decide (kr = KERN_SUCCESS) then compat_entry dits envs' st3 port msgt_name
                else Some (st3, inl kr)
            end
        | Some (name, ref) =>
            LET _ <- assert_fresh ref st2 ;;
            LET (st3, res3) <- claim_compat st2 port name ref ;;
            match res3, envs with
            | inl kr, _ => Some (st3, inl kr)
            | inr (Some _), _ => Some (st3, inr (name, ref))
            | inr None, [] => None
            | inr None, env :: envs' =>
                LET (st4, kr) <- right_dngrow dits (ce_retry env) port st3 ;;
                if bool_decide (kr = KERN_SUCCESS) then compat_entry dits envs' st4 port msgt_name
                else Some (st4, inl kr)
            end
        end
    end.

Definition ipc_object_copyout_compat (dits : list Z) (envs : list compat_env) (st : rstate S) (object : Z)
    (msgt_name : mach_msg_type_name) : option (rstate S * (kern_return + Z)) :=
  ASSERT IP_VALID object ;;
  LET _ <- w_ports (r_world st) !! object ;;
  LET (st1, res) <- compat_entry dits envs st object msgt_name ;;
  match res with
  | inl kr => Some (st1, inl kr)
  | inr (name, ref) =>
      LET (st2, kr) <- ipc_right_copyout st1 name ref msgt_name true object ;;
      Some (st2, if bool_decide (kr = KERN_SUCCESS) then inr name else inl kr)
  end.

(** The loop of [ipc_object_copyout_name_compat]. *)
Fixpoint compat_name_entry (dits : list Z) (envs : list compat_env) (st : rstate S) (port : Z)
    (msgt_name : mach_msg_type_name) (name : Z) : option (rstate S * (kern_return + entry_ref)) :=
  match envs with
  | [] => None
  | env :: envs' =>
      LET (st1, res) <- entry_alloc_name (ce_entry env) name st ;;
      match res with
      | inl kr => Some (st1, inl kr)
      | inr ref =>
          LET (st2, inuse) <- ipc_right_inuse st1 name ref ;;
          if inuse : bool then Some (st2, inl KERN_NAME_EXISTS)
          else
            LET _ <- assert_fresh ref st2 ;;
            LET (st3, found) <- find_reverse st2 port msgt_name ;;
            match found with
            | Some _ => LET st4 <- entry_dealloc name ref st3 ;; Some (st4, inl KERN_RIGHT_EXISTS)
            | None =>
                LET (st4, res4) <- claim_compat st3 port name ref ;;
                match res4 with
                | inl kr => Some (st4, inl kr)
                | inr (Some _) => Some (st4, inr ref)
                | inr None =>
                    LET (st5, kr) <- right_dngrow dits (ce_retry env) port st4 ;;
                    if bool_decide (kr = KERN_SUCCESS) then compat_name_entry dits envs' st5 port msgt_name name
                    else Some (st5, inl kr)
                end
            end
      end
  end.

Definition ipc_object_copyout_name_compat (dits : list Z) (envs : list compat_env) (st : rstate S) (object : Z)
    (msgt_name : mach_msg_type_name) (name : Z) : option (rstate S * kern_return) :=
  ASSERT IP_VALID object ;;
  LET _ <- w_ports (r_world st) !! object ;;
  LET (st1, res) <- compat_name_entry dits envs st object msgt_name name ;;
  match res with
  | inl kr => Some (st1, kr)
  | inr ref =>
      LET (st2, kr) <- ipc_right_copyout st1 name ref msgt_name true object ;;
      ASSERT bool_decide (kr = KERN_SUCCESS) ;;
      Some (st2, kr)
  end.

(** ** Copying out naked send rights *)

(** The right is destroyed when the copyout fails. *)

Definition ipc_port_copyout_send (envs : list obj_env) (st : rstate S) (sright : Z) : option (rstate S * Z) :=
  if IP_VALID sright then
    LET (st1, res) <- ipc_object_copyout envs st sright MACH_MSG_TYPE_PORT_SEND true ;;
    match res with
    | inr name => Some (st1, name)
    | inl kr =>
        LET st2 <- on_world (ipc_port_release_send sright) st1 ;;
        Some (st2, if bool_decide (kr = KERN_INVALID_CAPABILITY) then MACH_PORT_DEAD else MACH_PORT_NULL)
    end
  else Some (st, sright).

Definition ipc_port_copyout_send_compat (dits : list Z) (envs : list compat_env) (st : rstate S) (sright : Z)
    : option (rstate S * Z) :=
  if IP_VALID sright then
    LET (st1, res) <- ipc_object_copyout_compat dits envs st sright MACH_MSG_TYPE_PORT_SEND ;;
    match res with
    | inr name => Some (st1, name)
    | inl _ => LET st2 <- on_world (ipc_port_release_send sright) st1 ;; Some (st2, MACH_PORT_NULL)
    end
  else Some (st, sright).
End Compat.
