(* ===== verification/IpcCopyin.v ===== *)
(** * Copying capabilities in keeps the rights of a space

    [ipc_object_copyin] for the types that leave the receive right where it is.
    The reference and the right that the caller gets are accounted for. *)

From S2P Require Import Prelude PortName IpcTable IpcTypes IpcMqueue IpcPort IpcWorld.
From S2P Require Import IpcPortOps IpcRequests IpcSpaceInv IpcCap IpcRight IpcRightCopy IpcObject.
From S2P Require Import IpcRightBits IpcRightInv IpcRightSteps IpcDealloc.

Section Spec.
Implicit Types (w : world) (c : gmap Z capability) (v : eview) (p : Z) (mt : mach_msg_type_name).

(** ** The abstract effect *)

Definition moves mt : bool :=
  match mt with MACH_MSG_TYPE_MOVE_SEND | MACH_MSG_TYPE_MOVE_SEND_ONCE => true | _ => false end.

(** The entry once the death of its port has been noticed. *)
Definition noticed w v : eview := if port_died w v then died_view v else v.

(** The kind of right that a copy or move needs. *)
Definition wanted mt : Z :=
  match mt with MACH_MSG_TYPE_MOVE_SEND_ONCE => MACH_PORT_TYPE_SEND_ONCE | _ => MACH_PORT_TYPE_SEND end.

(** An error or the object ([None] is [IO_DEAD]), and the entry, [None] when it
    is gone.  A dead name is an error unless [deadok]. *)
Definition copyin_effect (deadok : bool) w v mt : (kern_return + option Z) * option eview :=
  match mt with
  | MACH_MSG_TYPE_MAKE_SEND | MACH_MSG_TYPE_MAKE_SEND_ONCE | MACH_MSG_TYPE_MOVE_RECEIVE =>
      (if bit (ev_type v) MACH_PORT_TYPE_RECEIVE then inr (Some (ev_object v)) else inl KERN_INVALID_RIGHT, Some v)
  | _ =>
      let v1 := noticed w v in
      if ev_type v1 =? MACH_PORT_TYPE_DEAD_NAME then
        if deadok then (inr None, if moves mt then release_view v1 else Some v1) else (inl KERN_INVALID_RIGHT, Some v1)
      else if bit (ev_type v) (wanted mt) then (inr (Some (ev_object v)), if moves mt then release_view v else Some v)
      else (inl KERN_INVALID_RIGHT, Some v)
  end.

Definition copyin_spec := copyin_effect true.

(** The reference of the caller. *)
Definition gain (res : kern_return + option Z) (out : Z -> Z) p : Z :=
  out p + match res with inr (Some o) => if o =? p then 1 else 0 | _ => 0 end.

(** A right for [p] outside of the space. *)
Definition has_send c p : Prop :=
  exists m cap, c !! m = Some cap /\ for_port p cap = true /\ bit (cap_type cap) MACH_PORT_TYPE_SEND = true.

Definition naked w c mt p : Prop :=
  exists q, w_ports w !! p = Some q /\ ip_active q = true /\
  match ipc_object_copyin_type mt with
  | MACH_MSG_TYPE_MOVE_SEND_ONCE => 0 < ip_sorights q
  | _ => 0 < ip_srights q /\ (has_send c p -> 1 < ip_srights q)
  end.

Definition got_right w c mt (res : kern_return + option Z) : Prop :=
  match res with inr (Some p) => naked w c mt p | _ => True end.

(** The counts of the port do not wrap around. *)
Definition port_room (q : ipc_port) : Prop :=
  ip_references q + 1 < wordsize /\ ip_srights q + 1 < wordsize /\ ip_sorights q + 1 < wordsize.
End Spec.

Section Copyin.
Context {S : Type} {CS : CapSpace S} {CL : CapSpaceLaws S}.
Implicit Types (s : S) (w : world) (c : gmap Z capability) (n p : Z) (r : entry_ref) (v : eview).

(** An entry without a right, its port reference given away. *)
Record emptied (self : Z) s w c n r (out : Z -> Z) : Prop := {
  em_view : exists v, opened false s c n r v /\ ev_type v = MACH_PORT_TYPE_NONE /\ ev_object v = IO_NULL /\ ev_request v = 0;
  em_self : cs_self s = self;
  em_ok : rights_ok self w c;
  em_out : forall p, outside w c p = out p
}.

Definition same_result (res : kern_return + option Z) (res' : kern_return + Z * Z) : Prop :=
  match res, res' with
  | inl kr, inl kr' => kr = kr'
  | inr o, inr (o', _) => default IO_DEAD o = o'
  | _, _ => False
  end.

Definition copyin_post self c n r mt out (spec : (kern_return + option Z) * option eview) (x : option (@copied S)) : Prop :=
  exists s' w' res, x = Some (mk_rstate s' w', res) /\ same_result spec.1 res /\
    got_right w' (put_cap n spec.2 c) mt spec.1 /\
    match spec.2 with
    | Some v => unsettled self (is_send v) s' w' c n r v (gain spec.1 out)
    | None => emptied self s' w' c n r (gain spec.1 out)
    end.

(** ** A port that gains a right and a reference *)

(** The port changes by [k] references and keeps what every entry relies on. *)
Definition changes (k : Z) (q q' : ipc_port) : Prop :=
  (forall m, port_keeps m false q q') /\ port_wf q' /\ ip_references q' = ip_references q + k.

Lemma unsettled_change self h s w c n r v q q' out k :
  unsettled self h s w c n r v out -> is_port_type (ev_type v) = true ->
  w_ports w !! ev_object v = Some q -> changes k q q' -> holds c (ev_object v) + 1 <= ip_references q' ->
  unsettled self h s (put_port (ev_object v) q' w) c n r v (fun p => out p + (if ev_object v =? p then k else 0)).
Proof.
  intros [Ho Hs Hok He Hsend Hheld Hout] Hty Hq (Hk & Hwf & Hrf) Hholds.
  destruct (opened_rest _ _ _ _ _ _ Ho) as [Hn _].
  rewrite <- (emit_nil (put_port _ _ _)). constructor; try done.
  - eapply rights_ok_port; [done|done|done|apply (Hk n)|done|done|lia].
  - destruct (entry_ok_counts self w n v 1 He) as (q0 & Hq0 & Hobj & Hreq0 & Hr); [done|done|].
    assert (q0 = q) as -> by congruence.
    destruct (right_ok_keeps self (n + 1) n false v q q') as [? ?]; try done; [lia|].
    apply (port_ok _ _ _ _ q'); [done|apply put_ports|done|done].
  - intros _. rewrite refs_put, decide_True by done. lia.
  - intros p. rewrite (outside_port w c (ev_object v) q q' [] p k) by (done || lia).
    rewrite <- (Hout p), Hty. cbn. destruct (ev_object v =? p); change (passed [] p) with 0; lia.
Qed.

Definition gains : ipc_port -> ipc_port -> Prop := changes 1.

Lemma unsettled_gain self h s w c n r v q q' out :
  unsettled self h s w c n r v out -> is_port_type (ev_type v) = true ->
  w_ports w !! ev_object v = Some q -> gains q q' ->
  unsettled self h s (put_port (ev_object v) q' w) c n r v (gain (inr (Some (ev_object v))) out).
Proof.
  intros Hun Hty Hq Hg. eapply (unsettled_change _ _ _ _ _ _ _ _ _ _ _ 1); [done|done|done|done|].
  pose proof (un_held _ _ _ _ _ _ _ _ _ Hun Hty) as Hheld. unfold refs in Hheld. rewrite Hq in Hheld. cbn in Hheld.
  destruct Hg as (_ & _ & ->). lia.
Qed.

Lemma gains_send q : port_wf q -> port_room q -> gains q (ip_reference (incr_srights q)).
Proof.
  intros ([? ?] & [? ?] & ? & l & Hl) (Hr & Hs & _). unfold gains, changes. cbn.
  assert (u32 (ip_srights q + 1) = ip_srights q + 1) as E by (apply u32_small; unfold is_u32; lia).
  split_and!; [|split_and!; [apply u32_range..|done|by exists l]|apply u32_small; unfold is_u32; lia].
  intros m. constructor; cbn; rewrite ?E; auto; lia.
Qed.

(** Rights that the space itself holds for a live port. *)
Lemma has_send_counted self w c p q :
  rights_ok self w c -> has_send c p -> w_ports w !! p = Some q -> ip_active q = true -> 0 < ip_srights q.
Proof.
  intros Hok (m & cap & Hm & Hf & Hb) Hq Ha. apply andb_true_iff in Hf as [_ Hobj%Z.eqb_eq].
  destruct (ro_caps _ _ _ Hok m cap Hm) as [Ht|? Ht|q0 _ Hq0 _ Hr]; unfold ev_type in *; cbn in *.
  1,2: unfold cap_type in Hb; by rewrite Ht in Hb.
  assert (q0 = q) as -> by congruence. unfold cap_type in Hb.
  destruct Hr as [Ht Hu Hx|Ht|Ht|Ht]; unfold ev_type in Ht; cbn in Ht; [by apply Hx|by rewrite Ht in Hb..|done].
Qed.

(** The naked right that a copy makes. *)
Lemma naked_copied self h s w c n r v q q' out mt :
  unsettled self h s w c n r v out -> h = is_send v -> w_ports w !! ev_object v = Some q -> ip_active q = true ->
  ipc_object_copyin_type mt = MACH_MSG_TYPE_PORT_SEND -> ip_active q' = true -> 0 <= ip_srights q ->
  ip_srights q' = ip_srights q + 1 ->
  naked (put_port (ev_object v) q' w) (<[n := the_cap v]> c) mt (ev_object v).
Proof.
  intros Hun Hh Hq Ha Hmt Ha' H0 Hs. exists q'. split; [apply put_ports|]. split; [done|]. rewrite Hmt.
  split; [lia|]. intros Hhas. pose proof (se_ok _ _ _ _ _ (resettle _ _ _ _ _ _ _ _ _ Hun Hh)) as Hok.
  pose proof (has_send_counted _ _ _ _ q Hok Hhas Hq Ha). lia.
Qed.

(** ** Rights for live ports *)

Lemma copy_send_post self s w c n r v q out :
  unsettled self (is_send v) s w c n r v out -> bit (ev_type v) MACH_PORT_TYPE_SEND = true ->
  is_port_type (ev_type v) = true -> w_ports w !! ev_object v = Some q -> ip_active q = true -> 0 < ip_srights q ->
  port_room q ->
  copyin_post self c n r MACH_MSG_TYPE_COPY_SEND out (inr (Some (ev_object v)), Some v) (copyin_copy_send v (mk_rstate s w)).
Proof.
  intros Hun Hbit Hty Hq Ha Hsr Hroom. pose proof (ro_ports _ _ _ (un_ok _ _ _ _ _ _ _ _ _ Hun) _ _ Hq) as Hwf.
  unfold copyin_copy_send, with_send. cbn [r_world]. rewrite Hq, bit_ev_type, Hbit, (proj2 (Z.ltb_lt _ _) Hsr) by done.
  cbn [negb]. do 3 eexists. split; [done|]. split; [done|]. split.
  - eapply naked_copied; [done|done|exact Hq|done|done|done|lia|]. cbn. apply u32_small.
    destruct Hroom as (_ & ? & _). unfold is_u32. lia.
  - eapply unsettled_gain; [done|done|exact Hq|by apply gains_send].
Qed.

(** The entry is empty and its reference is the caller's. *)
Lemma emptied_intro self h s s' w c n r v v' q q' evs out :
  unsettled self h s w c n r v out -> is_port_type (ev_type v) = true ->
  w_ports w !! ev_object v = Some q -> port_keeps n false q q' -> port_wf q' -> ip_references q' = ip_references q ->
  (forall p, passed evs p = 0) -> opened false s' c n r v' -> cs_self s' = self ->
  ev_type v' = MACH_PORT_TYPE_NONE -> ev_object v' = IO_NULL -> ev_request v' = 0 ->
  emptied self s' (emit evs (put_port (ev_object v) q' w)) c n r (gain (inr (Some (ev_object v))) out).
Proof.
  intros [Ho Hs Hok He Hsend Hheld Hout] Hty Hq Hk Hwf Hrf Hev Ho' Hs' Ht' Hobj' Hreq'.
  destruct (opened_rest _ _ _ _ _ _ Ho) as [Hn _]. specialize (Hheld Hty).
  assert (refs w (ev_object v) = ip_references q) as Hrq by (unfold refs; by rewrite Hq).
  constructor; [by exists v'|done| |].
  - eapply rights_ok_port; [done|done|done|exact Hk|done|done|lia].
  - intros p. rewrite (outside_port w c (ev_object v) q q' evs p 0) by (done || lia).
    unfold gain. rewrite <- (Hout p), Hty, Hev. cbn. destruct (ev_object v =? p); lia.
Qed.

Lemma no_send_type v : ev_type v = MACH_PORT_TYPE_SEND -> IE_BITS_TYPE (no_send_bits (ev_bits v)) = MACH_PORT_TYPE_NONE.
Proof. unfold ev_type. intros Ht. rewrite no_send_bits_type, Ht. done. Qed.

Lemma naked_last self h s w c n r v q tb evs out mt :
  unsettled self h s w c n r v out -> w_ports w !! ev_object v = Some q -> ip_active q = true ->
  bit (ev_type v) MACH_PORT_TYPE_SEND = true -> 0 < ip_srights q ->
  ipc_object_copyin_type mt = MACH_MSG_TYPE_PORT_SEND ->
  naked (emit evs (put_port (ev_object v) (ip_set_dnrequests tb q) w)) c mt (ev_object v).
Proof.
  intros Hun Hq Ha Hbit Hsr Hmt. exists (ip_set_dnrequests tb q). split; [apply put_ports|]. split; [done|]. rewrite Hmt.
  split; [done|]. intros (m & cap & Hm & Hf & Hb). by rewrite (others_no_send _ _ _ _ _ _ _ _ _ _ Hun Hq Ha Hbit m cap Hm Hf) in Hb.
Qed.

(** The last user reference of a pure send right. *)
Lemma move_last_send_post self s w c n r v q out recv :
  unsettled self true s w c n r v out -> ev_type v = MACH_PORT_TYPE_SEND ->
  w_ports w !! ev_object v = Some q -> ip_active q = true -> 0 < ip_srights q ->
  exists s' w' dn, move_last_send (mk_rstate s w) n v r recv Some = Some (mk_rstate s' w', dn) /\
    naked w' c MACH_MSG_TYPE_MOVE_SEND (ev_object v) /\ emptied self s' w' c n r (gain (inr (Some (ev_object v))) out).
Proof.
  intros Hun Ht Hq Ha Hsr. pose proof Hun as [Ho Hs Hok He Hsend Hheld Hout]. destruct (opened_entry _ _ _ _ _ _ Ho) as [Hv Hb].
  destruct (entry_ok_counts self w n v 1 He) as (q0 & Hq0 & Hobj & Hreq & Hr); [done|by rewrite Ht|].
  assert (q0 = q) as -> by congruence. pose proof (ro_ports _ _ _ Hok _ _ Hq) as Hwf.
  destruct (dncancel_step true s w c n r v q Ho Hq Ha) as (s1 & q' & tb & Hc & Ho1 & Hs1 & -> & Hk & Hwf'); [by rewrite Hs|done|].
  unfold move_last_send. cbn [r_world]. rewrite Hq, (bit_ev_type v MACH_PORT_TYPE_RECEIVE) by done.
  fold (ev_type v). rewrite Ht. change (bit MACH_PORT_TYPE_SEND MACH_PORT_TYPE_RECEIVE) with false. rewrite Z.eqb_refl, Hc.
  set (w1 := emit _ _). destruct (hash_delete_step s1 w1 c n r (v_set_request 0 v) Ho1) as (s2 & Hd & Ho2 & Hs2).
  cbn in Hd. rewrite Hd, cancel_marequest_step.
  edestruct (upd_step false s2) as (s3 & -> & Ho3 & Hs3); [exact Ho2|by apply (same_place_refl (ev_bits v))|done|].
  edestruct (upd_step false s3) as (s4 & -> & Ho4 & Hs4); [exact Ho3|by apply (no_send_bits_place (ev_bits v))|done|].
  do 3 eexists. split; [done|]. subst w1. rewrite emit_emit. split.
  - eapply naked_last; [exact Hun|done|done|by rewrite Ht|done|done].
  - eapply (emptied_intro self true s s4 w c n r v _ q); [exact Hun|by rewrite Ht|exact Hq|exact Hk|exact Hwf'|done| |exact Ho4| | |done|done].
    + intros p. by rewrite passed_app, passed_dn_events, passed_marequest.
    + congruence.
    + unfold ev_type. cbn. by apply no_send_type.
Qed.

Lemma gains_ref q : port_wf q -> port_room q -> gains q (ip_reference q).
Proof.
  intros ([? ?] & ? & ? & l & Hl) (Hr & _). unfold gains, changes. cbn.
  split_and!; [by intros m|split_and!; [apply u32_range|done|done|by exists l]|apply u32_small; unfold is_u32; lia].
Qed.

(** The last user reference of the send right of a receiver. *)
Lemma move_last_both_post self s w c n r v q out :
  unsettled self false s w c n r v out -> ev_type v = MACH_PORT_TYPE_SEND_RECEIVE ->
  w_ports w !! ev_object v = Some q -> ip_active q = true -> 0 < ip_srights q -> port_room q ->
  let v' := v_set_bits (no_send_bits (ev_bits v)) v in
  exists s' w', move_last_send (mk_rstate s w) n v r (on_world (port_upd (ev_object v) ip_reference)) Some =
      Some (mk_rstate s' w', IP_NULL) /\
    naked w' (<[n := the_cap v']> c) MACH_MSG_TYPE_MOVE_SEND (ev_object v) /\
    unsettled self (is_send v') s' w' c n r v' (gain (inr (Some (ev_object v))) out).
Proof.
  intros Hun Ht Hq Ha Hsr Hroom v'. pose proof Hun as [Ho Hs Hok He Hsend Hheld Hout].
  destruct (opened_entry _ _ _ _ _ _ Ho) as [Hv Hb]. destruct (opened_rest _ _ _ _ _ _ Ho) as [Hn _].
  destruct (entry_ok_counts self w n v 1 He) as (q0 & Hq0 & Hobj & Hreq & Hr); [done|by rewrite Ht|].
  assert (q0 = q) as -> by congruence. pose proof (ro_ports _ _ _ Hok _ _ Hq) as Hwf.
  assert (receives self n q) as (_ & Hrn & Hrr) by (destruct Hr as [H|H|H|H]; (done || rewrite Ht in H; done)).
  assert (ev_type v' = MACH_PORT_TYPE_RECEIVE) as Ht'.
  { unfold ev_type in *. cbn. by rewrite no_send_bits_type, Ht. }
  unfold move_last_send, on_world, port_upd, IpcRight.self. cbn [r_world r_space].
  rewrite Hq, (bit_ev_type v MACH_PORT_TYPE_RECEIVE), Hrn, Hrr, Hs, !Z.eqb_refl by done.
  fold (ev_type v). rewrite Ht. change (bit MACH_PORT_TYPE_SEND_RECEIVE MACH_PORT_TYPE_RECEIVE) with true. rewrite Z.eqb_refl.
  change (with_world ?x (mk_rstate s w)) with (mk_rstate s x).
  pose proof (unsettled_gain self false s w c n r v q (ip_reference q) out Hun ltac:(by rewrite Ht) Hq (gains_ref q Hwf Hroom)) as Hun1.
  destruct (unsettled_upd self false s _ c n r v _ (v_set_bits (no_send_bits (ev_bits v))) Hun1) as (s' & Hupd & Hun').
  { by apply no_send_bits_place. }
  { done. }
  { fold v'. by rewrite Ht, Ht'. }
  { fold v'. by rewrite Ht'. }
  { apply (port_ok _ _ _ _ (ip_reference q)); [done|apply put_ports| |].
    - unfold request_ok, compat in *. cbn. by rewrite no_send_bits_bit.
    - apply receive_ok; [exact Ht'|apply no_send_bits_urefs|done]. }
  fold (no_send_bits (ev_bits v)). rewrite Hupd. do 2 eexists. split; [done|]. split.
  - exists (ip_reference q). split; [apply put_ports|]. split; [done|]. split; [done|].
    intros (m & cap & Hm & Hf & Hbs). apply lookup_insert_Some in Hm as [[<- <-]|[_ Hm]].
    + unfold cap_type in Hbs. cbn in Hbs. rewrite right_type in Hbs. fold (ev_type v') in Hbs.
      change (IE_BITS_TYPE (no_send_bits (ev_bits v))) with (ev_type v') in Hbs. by rewrite Ht' in Hbs.
    + by rewrite (others_no_send _ _ _ _ _ _ _ _ _ _ Hun Hq Ha ltac:(by rewrite Ht) m cap Hm Hf) in Hbs.
  - assert (is_send v' = false) as -> by (unfold is_send; by rewrite Ht'). exact Hun'.
Qed.

(** The send rights of an entry: the port has one for it. *)
Lemma send_types self n v q : right_ok self n v q -> ip_active q = true -> bit (ev_type v) MACH_PORT_TYPE_SEND = true ->
  (ev_type v = MACH_PORT_TYPE_SEND \/ ev_type v = MACH_PORT_TYPE_SEND_RECEIVE) /\ 0 < urefs v < MACH_PORT_UREFS_MAX /\
  0 < ip_srights q.
Proof.
  intros [Ht Hu Hx|Ht|Ht|Ht Hu Hx Hy] Ha Hb; [|by rewrite Ht in Hb..|by auto]. destruct (Hx Ha). auto.
Qed.

Lemma move_send_post self s w c n r v q out :
  unsettled self (is_send v) s w c n r v out -> bit (ev_type v) MACH_PORT_TYPE_SEND = true ->
  w_ports w !! ev_object v = Some q -> right_ok self n v q -> ip_active q = true -> port_room q ->
  copyin_post self c n r MACH_MSG_TYPE_MOVE_SEND out (inr (Some (ev_object v)), release_view v)
    (copyin_move_send n v r (mk_rstate s w)).
Proof.
  intros Hun Hbit Hq Hr Ha Hroom. destruct (send_types _ _ _ _ Hr Ha Hbit) as (Ht & Hu & Hsr).
  pose proof (ro_ports _ _ _ (un_ok _ _ _ _ _ _ _ _ _ Hun) _ _ Hq) as Hwf.
  unfold copyin_move_send, with_send. cbn [r_world]. rewrite Hq, (bit_ev_type v MACH_PORT_TYPE_SEND), Hbit, (proj2 (Z.ltb_lt _ _) Hsr) by done.
  cbn [negb]. fold (urefs v). unfold release_view. destruct (Z.eqb_spec (urefs v) 1) as [H1|H1].
  - destruct Ht as [Ht|Ht]; rewrite Ht; cbn match; unfold is_send in Hun; rewrite Ht in Hun.
    + destruct (move_last_send_post self s w c n r v q out (on_world (port_upd (ev_object v) ip_reference)) Hun Ht Hq Ha Hsr)
        as (s' & w' & dn & -> & Hnk & Hem). do 3 eexists. split; [done|]. by split.
    + destruct (move_last_both_post self s w c n r v q out Hun Ht Hq Ha Hsr Hroom) as (s' & w' & -> & Hnk & Hem).
      do 3 eexists. split; [done|]. by split.
  - assert (is_port_type (ev_type v) = true) as Hty by (by destruct Ht as [Ht|Ht]; rewrite Ht).
    pose proof (unsettled_gain _ _ _ _ _ _ _ v q _ out Hun Hty Hq (gains_send q Hwf Hroom)) as Hun1.
    assert ((if ev_type v =? MACH_PORT_TYPE_SEND_RECEIVE then Some (less_one v)
      else if (ev_type v =? MACH_PORT_TYPE_RECEIVE) || (ev_type v =? MACH_PORT_TYPE_PORT_SET) then Some v
      else Some (less_one v)) = Some (less_one v)) as -> by (by destruct Ht as [Ht|Ht]; rewrite Ht).
    change (with_world ?x (mk_rstate s w)) with (mk_rstate s x). change (u32 (ev_bits v - 1)) with (u32 (ev_bits v + -1)).
    destruct (unsettled_add_open self _ s _ c n r v _ (-1) Hun1) as (s' & -> & Hun2 & Hse).
    1-3: by destruct Ht as [Ht|Ht]; rewrite Ht.
    { lia. }
    { destruct Ht as [Ht|Ht]; rewrite Ht; change (_ =? _) with false; cbn match; lia. }
    do 3 eexists. split; [done|]. split; [done|]. cbn [put_cap]. fold (less_one v) in Hse, Hun2. split.
    + destruct Hroom as (_ & Hrs & _). eexists. split; [apply put_ports|]. split; [done|]. cbn.
      rewrite u32_small by (unfold is_u32; lia). split; intros; lia.
    + cbn [fst snd]. rewrite Hse. exact Hun2.
Qed.

(** A send-once right goes to the caller. *)
Lemma move_send_once_post self s w c n r v q out :
  unsettled self false s w c n r v out -> ev_type v = MACH_PORT_TYPE_SEND_ONCE ->
  w_ports w !! ev_object v = Some q -> right_ok self n v q -> ip_active q = true ->
  copyin_post self c n r MACH_MSG_TYPE_MOVE_SEND_ONCE out (inr (Some (ev_object v)), None)
    (copyin_move_send_once n v r (mk_rstate s w)).
Proof.
  intros Hun Ht Hq Hr Ha. pose proof Hun as [Ho Hs Hok He Hsend Hheld Hout]. destruct (opened_entry _ _ _ _ _ _ Ho) as [Hv Hb].
  pose proof (ro_ports _ _ _ Hok _ _ Hq) as Hwf.
  destruct (entry_ok_counts self w n v 1 He) as (q0 & Hq0 & Hobj & Hreq & _); [done|by rewrite Ht|].
  assert (q0 = q) as -> by congruence.
  assert (urefs v = 1 /\ marequest v = false /\ 0 < ip_sorights q) as (Hu & Hm & Hso).
  { destruct Hr as [H|H|H|H]; (by auto || rewrite Ht in H; done). }
  destruct (dncancel_step false s w c n r v q Ho Hq Ha) as (s1 & q' & tb & Hc & Ho1 & Hs1 & -> & Hk & Hwf'); [by rewrite Hs|done|].
  unfold copyin_move_send_once. cbn [r_world]. rewrite Hq, (bit_ev_type v MACH_PORT_TYPE_SEND_ONCE) by done.
  fold (ev_type v) (urefs v) (marequest v). rewrite Ht, Hu, Hm, (proj2 (Z.ltb_lt _ _) Hso).
  change (bit MACH_PORT_TYPE_SEND_ONCE MACH_PORT_TYPE_SEND_ONCE) with true. rewrite Z.eqb_refl. cbn [negb Z.eqb Pos.eqb]. rewrite Hc.
  edestruct (upd_step false s1) as (s2 & -> & Ho2 & Hs2);
    [exact Ho1|by apply (same_place_ldiff (ev_bits v) MACH_PORT_TYPE_SEND_ONCE)|done|].
  do 3 eexists. split; [done|]. split; [done|]. split.
  - eexists. split; [apply put_ports|]. by split.
  - eapply (emptied_intro self false s s2 w c n r v _ q);
      [exact Hun|by rewrite Ht|exact Hq|exact Hk|exact Hwf'|done|apply passed_dn_events|exact Ho2|congruence| |done|done].
    unfold ev_type in *. cbn. by rewrite type_ldiff, Ht.
Qed.

(** A right of the other kind is refused. *)
Lemma refused_post self s w c n r v out mt :
  unsettled self (is_send v) s w c n r v out ->
  copyin_post self c n r mt out (inl KERN_INVALID_RIGHT, Some v) (Some (mk_rstate s w, inl KERN_INVALID_RIGHT)).
Proof.
  intros [Ho Hs Hok He Hsend Hheld Hout]. do 3 eexists. split; [done|]. split; [done|]. split; [done|].
  constructor; try done. intros p. unfold gain. cbn [fst]. rewrite Hout. lia.
Qed.

(** A dead name. *)
Lemma copy_dead_post self s w c n r v out mt (deadok : bool) :
  unsettled self false s w c n r v out -> ev_type v = MACH_PORT_TYPE_DEAD_NAME ->
  copyin_post self c n r mt out
    (if deadok then (inr None, if moves mt then release_view v else Some v) else (inl KERN_INVALID_RIGHT, Some v))
    (copy_dead (mk_rstate s w) deadok (moves mt) r).
Proof.
  intros Hun Ht. pose proof Hun as [Ho Hs Hok He Hsend Hheld Hout]. destruct (opened_entry _ _ _ _ _ _ Ho) as [Hv Hb].
  destruct He as [_ Hu Hm Hc Hobj Hreq|? Ht'|q _ _ _ Hr]; [|by rewrite Ht' in Ht|].
  2:{ apply right_ok_port in Hr. by rewrite Ht in Hr. }
  assert (forall p, gain (inr None) out p = out p) as Hg by (intros p; unfold gain; lia).
  assert (forall p, outside w c p = out p) as Hout'.
  { intros p. rewrite <- Hout, Ht. change (is_port_type MACH_PORT_TYPE_DEAD_NAME) with false. cbn. lia. }
  unfold copy_dead. cbn [r_space]. rewrite Hv. fold (ev_type v) (urefs v) (marequest v).
  rewrite Ht, Hm, Hreq, Hobj, (proj2 (Z.ltb_lt _ _) Hu), !Z.eqb_refl. cbn [negb].
  destruct deadok; cbn [negb]; [|apply refused_post; unfold is_send; by rewrite Ht].
  destruct (moves mt) eqn:Hmv; [rewrite release_view_urefs by auto; destruct (Z.eqb_spec (urefs v) 1) as [H1|H1]|].
  - edestruct (upd_step false s w) as (s1 & -> & Ho1 & Hs1);
      [exact Ho|by apply (same_place_ldiff (ev_bits v) MACH_PORT_TYPE_DEAD_NAME)|done|].
    do 3 eexists. split; [done|]. split; [done|]. split; [done|]. constructor; [|congruence|done|].
    + eexists. split; [exact Ho1|]. split_and!; [|done|done]. unfold ev_type in *. cbn. by rewrite type_ldiff, Ht.
    + intros p. cbn. by rewrite Hg.
  - change (u32 (ev_bits v - 1)) with (u32 (ev_bits v + -1)).
    destruct (unsettled_add_open self false s w c n r v out (-1) Hun) as (s' & -> & Hun' & Hse);
      [by rewrite Ht..|lia|rewrite Ht, Z.eqb_refl; pose proof (urefs_range (ev_bits v)) as Hrg; fold (urefs v) in Hrg; lia|].
    do 3 eexists. split; [done|]. split; [done|]. split; [done|]. cbn [fst snd]. fold (less_one v) in Hse, Hun'. rewrite Hse.
    assert (is_send v = false) as -> by (unfold is_send; by rewrite Ht). destruct Hun'. constructor; try done.
    intros p. by rewrite Hg.
  - do 3 eexists. split; [done|]. split; [done|]. split; [done|]. cbn [fst snd].
    assert (is_send v = false) as -> by (unfold is_send; by rewrite Ht). constructor; try done.
    + by eapply un_entry.
    + intros p. by rewrite Hg.
Qed.

(** ** Making rights from the receive right *)

Definition made (once : bool) (q : ipc_port) : ipc_port :=
  ip_reference (if once then ip_set_sorights (u32 (ip_sorights q + 1)) q
    else ip_set_srights (u32 (ip_srights q + 1)) (ip_set_mscount (u32 (ip_mscount q + 1)) q)).

Lemma gains_made once q : port_wf q -> port_room q -> gains q (made once q).
Proof.
  intros ([? ?] & [? ?] & [? ?] & l & Hl) (Hr & Hs & Hso). unfold gains, changes, made.
  assert (u32 (ip_srights q + 1) = ip_srights q + 1) as E by (apply u32_small; unfold is_u32; lia).
  assert (u32 (ip_sorights q + 1) = ip_sorights q + 1) as E' by (apply u32_small; unfold is_u32; lia).
  destruct once; cbn; (split_and!; [|split_and!; [apply u32_range|..|by exists l]|apply u32_small; unfold is_u32; lia]);
    (done || apply u32_range || idtac); intros m; constructor; cbn; rewrite ?E, ?E'; auto; lia.
Qed.

Lemma copyin_make_post self s w c n r v out (deadok once : bool) :
  let mt := if once then MACH_MSG_TYPE_MAKE_SEND_ONCE else MACH_MSG_TYPE_MAKE_SEND in
  unsettled self (is_send v) s w c n r v out -> (forall q, w_ports w !! ev_object v = Some q -> port_room q) ->
  copyin_post self c n r mt out (copyin_effect deadok w v mt) (copyin_make (mk_rstate s w) n v once).
Proof.
  intros mt Hun Hroom. pose proof Hun as [Ho Hs Hok He Hsend Hheld Hout].
  replace (copyin_effect deadok w v mt) with
    (if bit (ev_type v) MACH_PORT_TYPE_RECEIVE then inr (Some (ev_object v)) : kern_return + option Z
     else inl KERN_INVALID_RIGHT, Some v) by (by subst mt; destruct once).
  unfold copyin_make. rewrite bit_ev_type by done. destruct (bit (ev_type v) MACH_PORT_TYPE_RECEIVE) eqn:Hbit; cbn [negb].
  2:{ do 3 eexists. split; [done|]. split; [done|]. split; [done|]. cbn [fst snd]. constructor; try done.
      intros p. unfold gain. rewrite Hout. lia. }
  destruct He as [Ht|? Ht|q Hobj Hq Hreq Hr]; [by rewrite Ht in Hbit..|].
  assert (receives self n q) as (Ha & Hrn & Hrr).
  { destruct Hr as [Ht|Ht|Ht|Ht]; (by rewrite Ht in Hbit) || done. }
  unfold IpcRight.self. cbn [r_world r_space]. rewrite (proj2 (Z.eqb_neq _ _) Hobj), Hq, Ha, Hrn, Hrr, Hs, !Z.eqb_refl. cbn [negb].
  pose proof (ro_ports _ _ _ Hok _ _ Hq) as Hwf. pose proof (gains_made once q Hwf (Hroom q Hq)) as Hg.
  destruct (Hroom q Hq) as (_ & Hrs & Hrso). destruct Hwf as (_ & [? ?] & [? ?] & _).
  do 3 eexists. split; [done|]. split; [done|]. split.
  - cbn [fst snd put_cap got_right]. subst mt. destruct once.
    + exists (made true q). split; [apply put_ports|]. split; [done|]. cbn. rewrite u32_small by (unfold is_u32; lia). lia.
    + eapply (naked_copied self _ s w c n r v q (made false q)); [exact Hun|done|done|done|done|done|lia|].
      cbn. rewrite u32_small by (unfold is_u32; lia). lia.
  - eapply unsettled_gain; [exact Hun|by eapply right_ok_port|exact Hq|exact Hg].
Qed.

(** ** All types *)

Lemma noticed_live w v q : w_ports w !! ev_object v = Some q -> ip_active q = true -> noticed w v = v.
Proof. intros Hq Ha. unfold noticed. by rewrite (port_died_false w v q). Qed.

(** What copies and moves of send and send-once rights have in common. *)
Lemma copyin_send_rights_post self s w c n r v out mt (deadok : bool) live :
  unsettled self (is_send v) s w c n r v out -> port_died w v && compat v = false ->
  (forall q, w_ports w !! ev_object v = Some q -> right_ok self n v q -> ip_active q = true ->
     bit (ev_type v) MACH_PORT_TYPE_SEND_RIGHTS = true -> is_port_type (ev_type v) = true ->
     copyin_post self c n r mt out
       (if bit (ev_type v) (wanted mt) then (inr (Some (ev_object v)), if moves mt then release_view v else Some v)
        else (inl KERN_INVALID_RIGHT, Some v)) (live (mk_rstate s w))) ->
  copyin_post self c n r mt out
    (let v1 := noticed w v in
     if ev_type v1 =? MACH_PORT_TYPE_DEAD_NAME then
       if deadok then (inr None, if moves mt then release_view v1 else Some v1) else (inl KERN_INVALID_RIGHT, Some v1)
     else if bit (ev_type v) (wanted mt) then (inr (Some (ev_object v)), if moves mt then release_view v else Some v)
     else (inl KERN_INVALID_RIGHT, Some v))
    (copyin_send_rights (mk_rstate s w) n v deadok (moves mt) r live).
Proof.
  intros Hun Hcd Hlive. pose proof Hun as [Ho Hs Hok He Hsend Hheld Hout].
  unfold copyin_send_rights. rewrite (bit_ev_type v MACH_PORT_TYPE_DEAD_NAME), (bit_ev_type v MACH_PORT_TYPE_SEND_RIGHTS) by done.
  destruct He as [Ht|? Ht|q Hobj Hq Hreq Hr].
  - unfold is_send in Hun. rewrite Ht in Hun |- *.
    assert (noticed w v = v) as -> by (unfold noticed, port_died; by rewrite Ht). cbn zeta. rewrite Ht, Z.eqb_refl.
    by apply copy_dead_post.
  - assert (noticed w v = v) as -> by (unfold noticed, port_died; by rewrite Ht). cbn zeta. rewrite Ht.
    change (MACH_PORT_TYPE_PORT_SET =? MACH_PORT_TYPE_DEAD_NAME) with false. cbn [negb].
    assert (bit MACH_PORT_TYPE_PORT_SET (wanted mt) = false) as -> by (by destruct mt). cbn match.
    do 3 eexists. split; [done|]. split; [done|]. split; [done|]. cbn [fst snd]. constructor; try done.
    + by eapply un_entry.
    + intros p. unfold gain. rewrite Hout. lia.
  - pose proof (right_ok_port _ _ _ _ Hr) as Hty.
    assert (bit (ev_type v) MACH_PORT_TYPE_DEAD_NAME = false /\ (ev_type v =? MACH_PORT_TYPE_DEAD_NAME) = false) as [-> Hnd].
    { destruct Hr as [Ht|Ht|Ht|Ht]; rewrite Ht; done. }
    destruct (bit (ev_type v) MACH_PORT_TYPE_SEND_RIGHTS) eqn:Hbit; cbn [negb].
    2:{ assert (ev_type v = MACH_PORT_TYPE_RECEIVE /\ ip_active q = true) as [Ht Ha].
        { destruct Hr as [Ht|Ht|Ht ? []|Ht]; [by rewrite Ht in Hbit..|done|by rewrite Ht in Hbit]. }
        rewrite (noticed_live w v q) by done. cbn zeta. rewrite Hnd, Ht.
        assert (bit MACH_PORT_TYPE_RECEIVE (wanted mt) = false) as -> by (by destruct mt).
        do 3 eexists. split; [done|]. split; [done|]. split; [done|]. cbn [fst snd]. constructor; try done.
        + by eapply un_entry.
        + intros p. unfold gain. rewrite Hout. lia. }
    assert (0 < urefs v) as Hu.
    { destruct Hr as [Ht|Ht|Ht|Ht]; [lia|lia|by rewrite Ht in Hbit|lia]. }
    fold (urefs v). rewrite (proj2 (Z.ltb_lt _ _) Hu), (proj2 (Z.eqb_neq _ _) Hobj). cbn [negb].
    destruct (ip_active q) eqn:Ha.
    + rewrite (noticed_live w v q) by done. cbn zeta. rewrite Hnd. destruct (opened_entry _ _ _ _ _ _ Ho) as [Hv _].
      unfold ipc_right_check. cbn [r_space r_world]. rewrite (opened_active _ _ _ _ _ _ Ho), Hv, Z.eqb_refl, Hq, Ha. by apply (Hlive q).
    + pose proof (port_died_true w v q Hty Hq Ha) as Hdied. rewrite Hdied in Hcd. cbn in Hcd.
      destruct (unsettled_died self s w c n r v q out Hun Hty Hq Ha) as (s1 & w1 & -> & Hpost).
      fold (compat v). rewrite Hcd in Hpost |- *. destruct Hpost as [Hun1 Ht1].
      unfold noticed. rewrite Hdied, Ht1, Z.eqb_refl. by apply copy_dead_post.
Qed.

(** The rights that [with_send] sees. *)
Lemma with_send_once self n v q st k :
  w_ports (r_world st) !! ev_object v = Some q -> right_ok self n v q -> ip_active q = true ->
  bit (ev_type v) MACH_PORT_TYPE_SEND_RIGHTS = true -> bit (ev_type v) MACH_PORT_TYPE_SEND = false ->
  @with_send S st v k = Some (st, inl KERN_INVALID_RIGHT).
Proof.
  intros Hq Hr Ha Hb Hs. unfold with_send. rewrite Hq, (bit_ev_type v MACH_PORT_TYPE_SEND), Hs by done. cbn [negb].
  fold (ev_type v). destruct Hr as [Ht|Ht Hu Hm Hso|Ht|Ht]; [by rewrite Ht in Hs| |by rewrite Ht in Hb|by rewrite Ht in Hs].
  by rewrite Ht, Z.eqb_refl, (proj2 (Z.ltb_lt _ _) (Hso Ha)).
Qed.

Lemma right_copyin_post self s w c n r v out mt (deadok : bool) :
  unsettled self (is_send v) s w c n r v out -> mt <> MACH_MSG_TYPE_MOVE_RECEIVE ->
  (forall q, w_ports w !! ev_object v = Some q -> port_room q) -> port_died w v && compat v = false ->
  copyin_post self c n r mt out (copyin_effect deadok w v mt) (ipc_right_copyin (mk_rstate s w) n r mt deadok).
Proof.
  intros Hun Hmt Hroom Hcd. pose proof (un_open _ _ _ _ _ _ _ _ _ Hun) as Ho.
  destruct (opened_entry _ _ _ _ _ _ Ho) as [Hv _]. unfold ipc_right_copyin. cbn [r_space].
  rewrite Hv, (opened_active _ _ _ _ _ _ Ho). destruct mt; [done|..].
  - apply (copyin_send_rights_post self s w c n r v out MACH_MSG_TYPE_MOVE_SEND deadok); [done|done|].
    intros q Hq Hr Ha Hb Hty. cbn [wanted moves]. destruct (bit (ev_type v) MACH_PORT_TYPE_SEND) eqn:Hs.
    + eapply move_send_post; eauto.
    + unfold copyin_move_send. rewrite (with_send_once self n v q) by done. by apply refused_post.
  - apply (copyin_send_rights_post self s w c n r v out MACH_MSG_TYPE_MOVE_SEND_ONCE deadok); [done|done|].
    intros q Hq Hr Ha Hb Hty. cbn [wanted moves]. destruct (bit (ev_type v) MACH_PORT_TYPE_SEND_ONCE) eqn:Hs.
    + assert (ev_type v = MACH_PORT_TYPE_SEND_ONCE /\ urefs v = 1) as [Ht Hu].
      { destruct Hr as [Ht|Ht|Ht|Ht]; [by rewrite Ht in Hs|done|by rewrite Ht in Hs..]. }
      rewrite release_view_urefs, Hu by auto. unfold is_send in Hun. rewrite Ht in Hun. by eapply move_send_once_post.
    + assert (bit (ev_type v) MACH_PORT_TYPE_SEND = true) as Hsend.
      { destruct Hr as [Ht|Ht|Ht|Ht]; rewrite Ht in Hs, Hb |- *; done. }
      destruct (send_types _ _ _ _ Hr Ha Hsend) as (_ & _ & Hsr). unfold copyin_move_send_once. cbn [r_world].
      rewrite Hq, (bit_ev_type v MACH_PORT_TYPE_SEND_ONCE), Hs, (bit_ev_type v MACH_PORT_TYPE_SEND), Hsend,
        (proj2 (Z.ltb_lt _ _) Hsr) by done. by apply refused_post.
  - apply (copyin_send_rights_post self s w c n r v out MACH_MSG_TYPE_COPY_SEND deadok); [done|done|].
    intros q Hq Hr Ha Hb Hty. cbn [wanted moves]. destruct (bit (ev_type v) MACH_PORT_TYPE_SEND) eqn:Hs.
    + destruct (send_types _ _ _ _ Hr Ha Hs) as (_ & _ & Hsr). eapply copy_send_post; eauto.
    + unfold copyin_copy_send. rewrite (with_send_once self n v q) by done. by apply refused_post.
  - by apply (copyin_make_post self s w c n r v out deadok false).
  - by apply (copyin_make_post self s w c n r v out deadok true).
Qed.

(** ** The capability of a name *)

Definition result_of (res : kern_return + option Z) : kern_return + Z :=
  match res with inl kr => inl kr | inr o => inr (default IO_DEAD o) end.

(** The port of the name is dead and the entry, made by an old-style call, goes
    with it. *)
Definition compat_dead w cap : bool := port_died w (cap_view cap) && compat (cap_view cap).

Lemma compat_dead_view w v : compat_dead w (the_cap v) = port_died w v && compat v.
Proof.
  unfold compat_dead, port_died, compat, ev_type. cbn. by rewrite right_type, bit_right.
Qed.

(** [ipc_right_copyin] and the deallocation of an entry that gave its last right
    away, which is what its callers do next. *)
Lemma copyin_dealloc_post self s w c out name r v mt (deadok : bool) :
  settled self s w c out -> cs_holds s name r v -> mt <> MACH_MSG_TYPE_MOVE_RECEIVE ->
  (forall q, w_ports w !! ev_object v = Some q -> port_room q) -> port_died w v && compat v = false ->
  let spec := copyin_effect deadok w v mt in
  let c' := put_cap name spec.2 (delete name c) in
  exists s2 s3 w2 res, ipc_right_copyin (mk_rstate s w) name r mt deadok = Some (mk_rstate s2 w2, res) /\ same_result spec.1 res /\
    (LET ent <- cs_entry s2 r ;;
     if ev_type ent =? MACH_PORT_TYPE_NONE then entry_dealloc name r (mk_rstate s2 w2) else Some (mk_rstate s2 w2)) = Some (mk_rstate s3 w2) /\
    settled self s3 w2 c' (gain spec.1 out) /\ got_right w2 c' mt spec.1 /\ (spec.2 <> None -> s3 = s2).
Proof.
  intros Hset Hh Hmt Hroom Hcd spec. destruct (unsettle self s w c name r v out Hset Hh) as [Hun _].
  destruct (right_copyin_post self s w _ name r v out mt deadok Hun Hmt Hroom Hcd) as (s2 & w2 & res & Hcopy & Hsame & Hgot & Hpost).
  fold spec in Hsame, Hgot, Hpost. destruct spec as [sres [u|]]; cbn [fst snd] in *.
  - exists s2, s2, w2, res. split; [done|]. split; [done|]. split.
    { destruct (opened_entry _ _ _ _ _ _ (un_open _ _ _ _ _ _ _ _ _ Hpost)) as [-> _].
      by rewrite (proj2 (Z.eqb_neq (ev_type u) MACH_PORT_TYPE_NONE)) by (eapply entry_ok_type, un_entry, Hpost). }
    by apply resettle in Hpost.
  - destruct Hpost as [(v' & Ho & Ht & Hobj & Hreq) Hs2 Hok2 Hout2]. destruct (dealloc_law s2 _ name r v' Ho Hobj Hreq) as (s3 & Hd & Hr3 & Hs3).
    exists s2, s3, w2, res. split; [done|]. split; [done|]. split.
    { destruct (opened_entry _ _ _ _ _ _ Ho) as [-> _]. rewrite Ht, Z.eqb_refl. unfold entry_dealloc. cbn [r_space]. by rewrite Hd. }
    split_and!; [constructor; congruence || done|done|done].
Qed.

(** Notifications that carry no right of the space. *)
Lemma settled_notify self s w c out dn name : settled self s w c out -> settled self s (emit (pd_events dn name) w) c out.
Proof.
  intros [H1 H2 H3 H4]. constructor; [done|done|by apply rights_ok_emit|].
  intros p. rewrite <- H4. unfold outside. cbn. rewrite passed_app, passed_pd. change (refs (emit _ w) p) with (refs w p). lia.
Qed.

(** C21: [ipc_object_copyin] of a send or send-once right (moved, copied or made
    from the receive right) fails no assertion on a space whose rights agree with
    the ports, when the counts of the ports have room for one more right, with one
    exception: an old-style name (IE_BITS_COMPAT) whose port has died
    ([compat_dead]), for which it deallocates the entry twice.  Its result and the capability left under the name are exactly
    [copyin_spec]; a port that died is noticed and its right becomes a dead name;
    an entry that gave its last right away is deallocated; the other names keep
    their capabilities; the caller gets one reference and one right that no entry
    accounts for. *)
Theorem object_copyin_keeps_rights self s w c out name mt :
  settled self s w c out -> is_u32 name -> mt <> MACH_MSG_TYPE_MOVE_RECEIVE ->
  (forall p q, w_ports w !! p = Some q -> port_room q) ->
  match c !! name with
  | None => exists s', ipc_object_copyin (mk_rstate s w) name mt = Some (mk_rstate s' w, inl KERN_INVALID_NAME) /\
      settled self s' w c out
  | Some cap => compat_dead w cap = false ->
      exists v s' w', the_cap v = cap /\ let spec := copyin_spec w v mt in let c' := put_cap name spec.2 (delete name c) in
        ipc_object_copyin (mk_rstate s w) name mt = Some (mk_rstate s' w', result_of spec.1) /\
        settled self s' w' c' (gain spec.1 out) /\ got_right w' c' mt spec.1
  end.
Proof.
  intros [Hr Hs Hok Hout] Hname Hmt Hroom. destruct (lookup_law s c name Hr Hname) as (s1 & res & Hl & Hr1 & Hs1 & Hres).
  unfold ipc_object_copyin, ipc_right_lookup_write. cbn [r_space]. rewrite (repr_active s c Hr), Hl. cbn [negb].
  destruct res as [r|]; [|rewrite Hres; exists s1; split; [done|]; constructor; congruence || done].
  destruct Hres as [v Hh]. destruct (holds_cap s1 c name r v Hr1 Hh) as (Hcap & _ & _). rewrite Hcap, compat_dead_view.
  intros Hcd. exists v. assert (settled self s1 w c out) as Hset by (constructor; congruence || done).
  destruct (copyin_dealloc_post self s1 w c out name r v mt true Hset Hh Hmt (Hroom _) Hcd)
    as (s2 & s3 & w2 & res & Hcopy & Hsame & Hd & Hset3 & Hgot & _).
  change (with_space s1 (mk_rstate s w)) with (mk_rstate s1 w). rewrite Hcopy. cbn [r_space]. cbn zeta. unfold copyin_spec.
  destruct (cs_entry s2 r) as [v'|]; [|done]. cbn beta iota in Hd. rewrite Hd.
  destruct (copyin_effect true w v mt) as [[kr|o] ov], res as [kr'|[o' so]]; cbn in Hsame; try done; subst; [by do 2 eexists|].
  rewrite notify_port_deleted_step. do 2 eexists. split; [done|]. split; [done|]. split; [by apply settled_notify|exact Hgot].
Qed.
End Copyin.
