(* ===== verification/IpcCopyout.v ===== *)
(** * Copying send rights out keeps the rights of a space

    [ipc_object_copyout] of a send right that the caller holds: the space ends
    with one name for the port, or with what it had and an error that is
    justified.  What it needs of the allocation of entries is the interface
    [SpaceAllocLaws]. *)
From S2P Require Import Prelude PortName IpcTable IpcTypes IpcMqueue IpcPort IpcWorld.
From S2P Require Import IpcPortOps IpcRequests IpcSpaceInv IpcCap IpcRight IpcRightCopy IpcObject.
From S2P Require Import IpcRightBits IpcRightInv IpcRightSteps IpcDealloc IpcCopyin IpcSplay IpcHash.
From S2P Require Import IpcEntry IpcEntrySpec IpcReverse IpcCapSpace IpcAlloc.

Class SpaceAllocLaws (S : Type) `{CapSpaceLaws S} `{SpaceAlloc S} := {
  (** There is an entry that [ipc_entry_get] can take. *)
  sp_room : S -> Prop;
  (** The table has its largest size. *)
  sp_largest : S -> Prop;
  (** How often the table can still be grown or its growth be awaited. *)
  sp_left : S -> nat;
  (** Other threads may grow the table, but leave the space its capabilities. *)
  sp_quiet : sp_env -> Prop;
  (** Some allocation of memory fails. *)
  sp_fails : sp_env -> Prop;
  get_law s c : cs_repr s c -> sp_room s ->
    exists s' n r v, sp_get s = Some (s', Some (n, r)) /\ cs_self s' = cs_self s /\
      cs_open s' c n r v /\ IE_BITS_RIGHT (ev_bits v) = 0 /\ ev_object v = IO_NULL /\ ev_request v = 0;
  get_full_law s c : cs_repr s c -> sp_room s \/ ~ sp_room s /\ sp_get s = Some (s, None);
  grow_law env s c : cs_repr s c -> sp_quiet env ->
    exists s' kr, sp_grow env s = Some (s', kr) /\ cs_repr s' c /\ cs_self s' = cs_self s /\
      match kr with
      | KERN_SUCCESS => (sp_left s' < sp_left s)%nat
      | KERN_NO_SPACE => s' = s /\ sp_largest s
      | KERN_RESOURCE_SHORTAGE => sp_fails env
      | _ => False
      end;
  hash_lookup_keeps s c obj s' res : cs_repr s c -> obj <> IO_NULL -> cs_hash_lookup s obj = Some (s', res) ->
    (sp_room s <-> sp_room s') /\ sp_left s' = sp_left s
}.

Section Spec.
Implicit Types (w : world) (c : gmap Z capability) (n p : Z) (cap : capability).

(** The caller's reference is gone. *)
Definition lose p (out : Z -> Z) p' : Z := out p' + (if p =? p' then -1 else 0).

(** The user references of the send right that a name has. *)
Definition send_urefs c n : Z :=
  match c !! n with
  | Some cap => if bit (cap_type cap) MACH_PORT_TYPE_SEND then urefs (cap_view cap) else 0
  | None => 0
  end.

(** The entry of a send or receive right for [p]. *)
Definition names_port p cap : Prop :=
  for_port p cap = true /\ bit (cap_type cap) MACH_PORT_TYPE_SEND_RECEIVE = true.

(** A port whose receiver is the space has a receive right under its name. *)
Definition received_here (self : Z) w c p : Prop :=
  forall q, w_ports w !! p = Some q -> ip_active q = true -> ip_receiver q = self ->
    is_u32 (ip_receiver_name q) /\ exists cap, c !! ip_receiver_name q = Some cap /\ cap_object cap = p /\
      bit (cap_type cap) MACH_PORT_TYPE_RECEIVE = true.
End Spec.

(** ** Giving a send right to an entry *)

Section Sent.
Implicit Types (w : world) (v : eview).

Definition sent v : eview := v_set_bits (u32 (Z.lor (ev_bits v) MACH_PORT_TYPE_SEND + 1)) v.

Lemma sent_fields v : is_u32 (ev_bits v) -> urefs v < MACH_PORT_UREFS_MAX ->
  same_place (ev_bits v) (ev_bits (sent v)) /\ ev_type (sent v) = Z.lor (ev_type v) MACH_PORT_TYPE_SEND /\
  urefs (sent v) = urefs v + 1 /\ marequest (sent v) = marequest v /\ compat (sent v) = compat v.
Proof.
  intros Hb Hu. set (b := Z.lor (ev_bits v) MACH_PORT_TYPE_SEND).
  assert (same_place (ev_bits v) b) as Hp by (by apply same_place_lor).
  assert (IE_BITS_UREFS b = urefs v) as Hub by (unfold b, urefs; fields).
  pose proof (urefs_range (ev_bits v)) as Hrg. fold (urefs v) in Hrg.
  assert (0 <= IE_BITS_UREFS b + 1 <= MACH_PORT_UREFS_MAX) as Hr by lia.
  unfold sent, ev_type, urefs, marequest, compat. cbn. fold b.
  rewrite add_urefs_type, add_urefs, !add_urefs_bit by (done || apply Hp). split_and!.
  - eapply same_place_trans; [exact Hp|]. apply add_urefs_place; [apply Hp|done].
  - unfold b, IE_BITS_TYPE. rewrite Z.land_lor_distr_l. done.
  - by rewrite Hub.
  - unfold bit, b. rewrite Z.land_lor_distr_l. change (Z.land MACH_PORT_TYPE_SEND _) with 0. by rewrite Z.lor_0_r.
  - unfold bit, b. rewrite Z.land_lor_distr_l. change (Z.land MACH_PORT_TYPE_SEND _) with 0. by rewrite Z.lor_0_r.
Qed.

Lemma entry_ok_sent self w n v q :
  is_u32 (ev_bits v) -> entry_ok self w n v -> bit (ev_type v) MACH_PORT_TYPE_SEND_RECEIVE = true ->
  w_ports w !! ev_object v = Some q -> 0 < ip_srights q -> urefs v + 1 < MACH_PORT_UREFS_MAX ->
  entry_ok self w n (sent v) /\ (ev_type (sent v) = MACH_PORT_TYPE_SEND -> ev_type v = MACH_PORT_TYPE_SEND) /\
  is_send (sent v) = is_send v /\ is_port_type (ev_type (sent v)) = true /\ bit (ev_type (sent v)) MACH_PORT_TYPE_SEND = true.
Proof.
  intros Hb He Hbit Hq Hsr Hu. destruct (sent_fields v Hb) as (_ & Hty & Hur & Hma & Hco); [lia|].
  destruct He as [Ht|? Ht|q0 Hobj Hq0 Hreq Hr]; [by rewrite Ht in Hbit..|]. assert (q0 = q) as -> by congruence.
  unfold is_send. rewrite Hty. split.
  - apply (port_ok _ _ _ _ q); [done|done|unfold request_ok in *; by rewrite Hco|].
    destruct Hr as [Ht Hu' Hx|Ht|Ht Hu' Hx|Ht Hu' Hx Hy]; [|by rewrite Ht in Hbit|..]; rewrite Ht in Hty.
    + apply send_ok; [done|lia|done].
    + apply send_receive_ok; [done|lia|done..].
    + apply send_receive_ok; [done|lia|done..].
  - destruct Hr as [Ht|Ht|Ht|Ht]; rewrite Ht in Hbit |- *; done.
Qed.
End Sent.

Section Copyout.
Context {S : Type} {CS : CapSpace S} {CL : CapSpaceLaws S} {SA : SpaceAlloc S} {AL : SpaceAllocLaws S}.
Implicit Types (s : S) (w : world) (c : gmap Z capability) (n p : Z) (r : entry_ref) (v : eview).

(** ** Finding the entry *)

Lemma right_receives self w c p m cap q :
  rights_ok self w c -> c !! m = Some cap -> for_port p cap = true -> bit (cap_type cap) MACH_PORT_TYPE_RECEIVE = true ->
  w_ports w !! p = Some q -> receives self m q.
Proof.
  intros Hok Hm Hf Hb Hq. apply andb_true_iff in Hf as [_ Hobj%Z.eqb_eq]. unfold cap_type in Hb.
  destruct (ro_caps _ _ _ Hok m cap Hm) as [Ht|? Ht|q0 _ Hq0 _ Hr]; unfold ev_type in *; cbn in *.
  1,2: by rewrite Ht in Hb.
  assert (q0 = q) as -> by congruence.
  destruct Hr as [Ht|Ht|Ht|Ht]; unfold ev_type in Ht; cbn in Ht; (by rewrite Ht in Hb) || done.
Qed.

Lemma names_port_view p v : names_port p (the_cap v) ->
  is_port_type (ev_type v) = true /\ ev_object v = p /\ bit (ev_type v) MACH_PORT_TYPE_SEND_RECEIVE = true.
Proof.
  intros [Hf Hb]. rewrite for_port_view in Hf. apply andb_true_iff in Hf as [? ?%Z.eqb_eq].
  unfold cap_type in Hb. cbn in Hb. rewrite right_type in Hb. done.
Qed.

(** [ipc_right_reverse] finds the one entry that names a live port. *)
Lemma right_reverse_post self s w c out p q :
  settled self s w c out -> p <> IO_NULL -> w_ports w !! p = Some q -> ip_active q = true -> received_here self w c p ->
  exists s' found, ipc_right_reverse (mk_rstate s w) p = Some (mk_rstate s' w, found) /\ settled self s' w c out /\
    match found with
    | Some (n, r) => exists v, cs_holds s' n r v /\ names_port p (the_cap v) /\
        (forall m cap, c !! m = Some cap -> names_port p cap -> m = n)
    | None => ((sp_room s <-> sp_room s') /\ sp_left s' = sp_left s) /\ ip_receiver q <> self /\ (forall m cap, c !! m = Some cap -> ~ names_port p cap)
    end.
Proof.
  intros [Hr Hs Hok Hout] Hp Hq Ha Hhere. unfold ipc_right_reverse, IpcRight.self. cbn [r_space r_world].
  rewrite (repr_active s c Hr), Hq, Ha, Hs. cbn [negb].
  assert (forall m cap, c !! m = Some cap -> names_port p cap ->
    cap_type cap = MACH_PORT_TYPE_SEND /\ ip_receiver q <> self \/ receives self m q) as Hcase.
  { intros m cap Hm [Hf Hb]. destruct (bit (cap_type cap) MACH_PORT_TYPE_RECEIVE) eqn:Hrb.
    - right. by eapply right_receives.
    - left. apply andb_true_iff in Hf as [_ Hobj%Z.eqb_eq]. destruct (ro_caps _ _ _ Hok m cap Hm) as [Ht|? Ht|q0 _ Hq0 _ Hr0].
      1,2: change (ev_type (cap_view cap)) with (cap_type cap) in Ht; by rewrite Ht in Hb.
      cbn in Hq0. rewrite Hobj in Hq0. assert (q0 = q) as -> by congruence.
      destruct Hr0 as [Ht Hu Hx|Ht|Ht|Ht]; change (ev_type (cap_view cap)) with (cap_type cap) in Ht;
        [|by rewrite Ht in Hb|by rewrite Ht in Hrb..]. destruct (Hx Ha). done. }
  destruct (Z.eqb_spec (ip_receiver q) self) as [Hrr|Hrr].
  - destruct (Hhere q Hq Ha Hrr) as (Hu32 & cap & Hcap & Hobj & Hbr).
    destruct (lookup_law s c _ Hr Hu32) as (s1 & res & -> & Hr1 & Hs1 & Hres).
    destruct res as [r|]; [|congruence]. destruct Hres as [v Hh].
    destruct (holds_cap s1 c _ r v Hr1 Hh) as (Hcv & _ & Hv). assert (cap = the_cap v) as -> by congruence.
    destruct (opened_rest _ _ _ _ _ _ (open_any s1 c _ r v Hr1 Hh)) as [_ Hne].
    rewrite (proj2 (Z.eqb_neq _ MACH_PORT_NULL) Hne), Hv, (bit_ev_type v MACH_PORT_TYPE_RECEIVE) by done.
    unfold cap_type in Hbr. cbn in Hbr, Hobj. rewrite right_type in Hbr. fold (ev_type v) in Hbr. rewrite Hbr, Hobj, Z.eqb_refl.
    do 2 eexists. split; [done|]. split; [constructor; congruence || done|]. exists v. split; [done|]. split.
    + pose proof (proj1 (entry_ok_cap _ _ _ _) (ro_caps _ _ _ Hok _ _ Hcv)) as [Ht|? Ht|q0 _ _ _ Hr0]; [by rewrite Ht in Hbr..|].
      split; [rewrite for_port_view, Hobj, Z.eqb_refl, (right_ok_port _ _ _ _ Hr0); done|].
      unfold cap_type. cbn. rewrite right_type. fold (ev_type v).
      destruct Hr0 as [Ht|Ht|Ht|Ht]; rewrite Ht in Hbr |- *; done.
    + intros m cap Hm Hn. destruct (Hcase m cap Hm Hn) as [[_ ?]|(_ & ? & _)]; [done|congruence].
  - destruct (hash_lookup_law s c p Hr Hp) as (s1 & res & Hl & Hr1 & Hs1 & Hres). rewrite Hl. destruct res as [[n r]|].
    + destruct Hres as (v & Hh & Hobj & Ht). destruct (holds_cap s1 c _ r v Hr1 Hh) as (Hcv & _ & Hv).
      rewrite Hv, Ht, Hobj, !Z.eqb_refl. do 2 eexists. split; [done|]. split; [constructor; congruence || done|].
      exists v. split; [done|]. assert (cap_type (the_cap v) = MACH_PORT_TYPE_SEND) as Hct by (unfold cap_type; cbn; by rewrite right_type).
      split; [split; [rewrite for_port_view, Hobj, Z.eqb_refl, Ht; done|by rewrite Hct]|].
      intros m cap Hm Hn. destruct (Hcase m cap Hm Hn) as [[Ht' _]|(_ & _ & ?)]; [|done].
      destruct Hn as [Hf _]. apply andb_true_iff in Hf as [_ Ho%Z.eqb_eq].
      apply (ro_sends _ _ _ Hok m n cap (the_cap v)); [done..|]. cbn. congruence.
    + do 2 eexists. split; [done|]. split; [constructor; congruence || done|]. split; [|split; [done|]].
      * exact (hash_lookup_keeps s c p s1 None Hr Hp Hl).
      * intros m cap Hm Hn. destruct (Hcase m cap Hm Hn) as [[Ht' _]|(_ & _ & ?)]; [|done].
        destruct Hn as [Hf _]. apply andb_true_iff in Hf as [_ Ho%Z.eqb_eq]. by destruct (Hres m cap Hm Ht').
Qed.

(** ** An entry that names the port *)

Lemma changes_release q : port_wf q -> 0 < ip_references q -> changes (-1) q (ip_release q).
Proof.
  intros Hwf Hr. split_and!; [intros m; apply port_keeps_release|by apply port_wf_release|]. rewrite release_refs by done. lia.
Qed.

Lemma changes_drop q : port_wf q -> 0 < ip_references q -> 1 < ip_srights q ->
  changes (-1) q (ip_release (ip_set_srights (u32 (ip_srights q - 1)) q)).
Proof.
  intros ([? ?] & [? ?] & ? & l & Hl) Hr Hs. unfold changes. cbn.
  assert (u32 (ip_srights q - 1) = ip_srights q - 1) as E by (apply u32_small; unfold is_u32; lia).
  split_and!; [|split_and!; [apply u32_range..|done|by exists l]|rewrite u32_small by (unfold is_u32; lia); lia].
  intros m. constructor; cbn; rewrite ?E; auto; lia.
Qed.

Definition copyout_post self c n p out (x : option (rstate S * kern_return)) : Prop :=
  exists v' s' w', x = Some (mk_rstate s' w', KERN_SUCCESS) /\ settled self s' w' (<[n := the_cap v']> c) (lose p out) /\
    ev_object v' = p /\ bit (ev_type v') MACH_PORT_TYPE_SEND = true /\
    urefs v' = Z.min (MACH_PORT_UREFS_MAX - 1) (send_urefs c n + 1).

(** The entry gets the right and is closed. *)
Lemma unsettled_sent self s w c n r v q out :
  unsettled self (is_send v) s w (delete n c) n r v out -> bit (ev_type v) MACH_PORT_TYPE_SEND_RECEIVE = true ->
  w_ports w !! ev_object v = Some q -> 0 < ip_srights q -> urefs v + 1 < MACH_PORT_UREFS_MAX ->
  exists s', entry_upd r (v_set_bits (u32 (Z.lor (ev_bits v) MACH_PORT_TYPE_SEND + 1))) (mk_rstate s w) = Some (mk_rstate s' w) /\
    settled self s' w (<[n := the_cap (sent v)]> c) out /\ bit (ev_type (sent v)) MACH_PORT_TYPE_SEND = true /\
    urefs (sent v) = urefs v + 1.
Proof.
  intros Hun Hbit Hq Hsr Hu. destruct (opened_entry _ _ _ _ _ _ (un_open _ _ _ _ _ _ _ _ _ Hun)) as [_ Hb].
  pose proof (un_entry _ _ _ _ _ _ _ _ _ Hun) as He.
  destruct (entry_ok_sent self w n v q Hb He Hbit Hq Hsr Hu) as (He2 & Hts & Hse & Hpt & Hbs).
  destruct (sent_fields v Hb) as (Hp & _ & Hur & _); [lia|].
  destruct (unsettled_upd _ _ _ _ _ _ _ v _ (v_set_bits (u32 (Z.lor (ev_bits v) MACH_PORT_TYPE_SEND + 1))) Hun) as (s' & -> & Hun2);
    [exact Hp|done| |exact Hts|exact He2|].
  { fold (sent v). rewrite Hpt. destruct He as [Ht|? Ht|q0 _ _ _ Hr]; [by rewrite Ht in Hbit..|]. by rewrite (right_ok_port _ _ _ _ Hr). }
  exists s'. split; [done|]. split; [|done]. rewrite <- (insert_delete_eq c n). by apply (resettle _ _ _ _ _ _ _ _ _ Hun2).
Qed.

Lemma copyout_existing self s w c out p q n r v :
  settled self s w c out -> cs_holds s n r v -> names_port p (the_cap v) -> IP_VALID p = true ->
  w_ports w !! p = Some q -> ip_active q = true -> 0 < ip_srights q -> (has_send c p -> 1 < ip_srights q) -> 1 <= out p ->
  copyout_post self c n p out (ipc_right_copyout (mk_rstate s w) n r MACH_MSG_TYPE_PORT_SEND true p).
Proof.
  intros Hset Hh Hnames Hvalid Hq Ha Hsr Hnaked Hout1. destruct (unsettle self s w c n r v out Hset Hh) as [Hun Hc].
  destruct (names_port_view p v Hnames) as (Hty & Hobj & Hbit). subst p.
  pose proof Hun as [Ho Hs Hok He Hsend Hheld Hout]. destruct (opened_entry _ _ _ _ _ _ Ho) as [Hv Hb].
  pose proof (ro_ports _ _ _ Hok _ _ Hq) as Hwf. destruct (entry_ok_counts self w n v 1 He) as (q0 & Hq0 & Hnull & Hreq & Hr); [done|done|].
  assert (q0 = q) as -> by congruence.
  assert (holds (delete n c) (ev_object v) + 2 <= ip_references q) as Hrefs.
  { specialize (Hout (ev_object v)). rewrite Hty, Z.eqb_refl in Hout. unfold outside, refs in Hout. rewrite Hq in Hout.
    cbn in Hout. unfold passed in Hout. lia. }
  pose proof (holds_nonneg (delete n c) (ev_object v)).
  assert (bit (ev_type v) MACH_PORT_TYPE_SEND = true -> 1 < ip_srights q /\ 0 < urefs v < MACH_PORT_UREFS_MAX) as Hhas.
  { intros Hb1. split; [|by apply (send_types _ _ _ _ Hr Ha Hb1)]. apply Hnaked. exists n, (the_cap v). split; [done|].
    split; [apply Hnames|]. unfold cap_type. cbn. by rewrite right_type. }
  unfold copyout_post. assert (send_urefs c n = if bit (ev_type v) MACH_PORT_TYPE_SEND then urefs v else 0) as ->.
  { unfold send_urefs. rewrite Hc. unfold cap_type, urefs. cbn. by rewrite right_type, urefs_right. }
  unfold ipc_right_copyout, copyout_send. cbn [r_space r_world]. rewrite Hv, Hvalid, Hq, Ha, Z.eqb_refl, (proj2 (Z.ltb_lt _ _) Hsr).
  change (with_world ?x (mk_rstate s w)) with (mk_rstate s x).
  fold (urefs v) (ev_type v). rewrite (bit_ev_type v MACH_PORT_TYPE_SEND), (bit_ev_type v MACH_PORT_TYPE_RECEIVE) by done.
  destruct (bit (ev_type v) MACH_PORT_TYPE_SEND) eqn:Hb1; cbn [andb].
  - destruct (Hhas eq_refl) as [Hs1 Hu]. rewrite (proj2 (Z.ltb_lt _ _) Hs1), (proj2 (Z.ltb_lt 0 _)) by lia.
    pose proof (unsettled_change _ _ _ _ _ _ _ _ _ _ _ (-1) Hun Hty Hq (changes_drop q Hwf ltac:(lia) Hs1)
      ltac:(cbn; destruct Hwf as ([? ?] & _); rewrite u32_small by (unfold is_u32; lia); lia)) as Hun1.
    destruct (Z.eqb_spec (urefs v + 1) MACH_PORT_UREFS_MAX) as [Hmax|Hmax].
    + exists v. do 2 eexists. split; [done|]. split; [|split; [done|split; [done|lia]]].
      rewrite <- (insert_delete_eq c n). by apply (resettle _ _ _ _ _ _ _ _ _ Hun1).
    + rewrite (proj2 (Z.ltb_lt (urefs v) _)) by lia.
      destruct (unsettled_sent _ _ _ _ _ _ v _ _ Hun1 Hbit (put_ports _ _ _)) as (s' & -> & Hset' & Hbs & Hur).
      { cbn. destruct Hwf as (_ & [? ?] & _). rewrite u32_small by (unfold is_u32; lia). lia. }
      { lia. }
      exists (sent v). do 2 eexists. split; [done|]. split; [exact Hset'|split; [done|split; [done|lia]]].
  - assert (ev_type v = MACH_PORT_TYPE_RECEIVE /\ urefs v = 0) as [Ht Hu].
    { destruct Hr as [Ht|Ht|Ht|Ht]; [by rewrite Ht in Hb1|by rewrite Ht in Hbit|done|by rewrite Ht in Hb1]. }
    rewrite Ht, Hu. change (bit MACH_PORT_TYPE_RECEIVE MACH_PORT_TYPE_RECEIVE) with true. rewrite Z.eqb_refl. cbn [Z.eqb].
    pose proof (unsettled_change _ _ _ _ _ _ _ _ _ _ _ (-1) Hun Hty Hq (changes_release q Hwf ltac:(lia))
      ltac:(rewrite release_refs by (done || lia); lia)) as Hun1.
    destruct (unsettled_sent _ _ _ _ _ _ v _ _ Hun1 Hbit (put_ports _ _ _)) as (s' & -> & Hset' & Hbs & Hur);
      [done|by rewrite Hu|].
    exists (sent v). do 2 eexists. split; [done|]. split; [exact Hset'|split; [done|split; [done|rewrite Hur, Hu; done]]].
Qed.

(** ** A new entry *)

Lemma right_zero v : IE_BITS_RIGHT (ev_bits v) = 0 ->
  ev_type v = MACH_PORT_TYPE_NONE /\ urefs v = 0 /\ marequest v = false /\ compat v = false.
Proof.
  intros H0. unfold ev_type, urefs, marequest, compat.
  rewrite <- right_type, <- urefs_right, <- !(bit_right (ev_bits v)), H0 by done. done.
Qed.

Lemma copyout_fresh self s w c out p q n r v :
  cs_open s c n r v -> IE_BITS_RIGHT (ev_bits v) = 0 -> ev_request v = 0 -> ev_object v = p ->
  cs_self s = self -> rights_ok self w c -> (forall p', outside w c p' = out p') -> 1 <= out p -> IP_VALID p = true ->
  w_ports w !! p = Some q -> ip_active q = true -> 0 < ip_srights q -> ip_receiver q <> self -> no_send c p ->
  copyout_post self c n p out (ipc_right_copyout (mk_rstate s w) n r MACH_MSG_TYPE_PORT_SEND true p).
Proof.
  intros Ho H0 Hreq <- Hs Hok Hout Hout1 Hvalid Hq Ha Hsr Hrr Hns.
  destruct (open_entry s c n r v Ho) as [Hv Hb]. destruct (open_rest s c n r v Ho) as [Hn _].
  destruct (right_zero v H0) as (Ht & Hu & Hm & Hco). assert (ev_object v <> IP_NULL) as Hnull.
  { intros E. rewrite E in Hvalid. done. }
  unfold ipc_right_copyout, copyout_send, copyout_post. cbn [r_space r_world]. rewrite Hv, Hvalid, Hq, Ha, Z.eqb_refl, (proj2 (Z.ltb_lt _ _) Hsr).
  fold (urefs v) (ev_type v). rewrite (bit_ev_type v MACH_PORT_TYPE_SEND), (bit_ev_type v MACH_PORT_TYPE_RECEIVE), Ht, Hu by done.
  change (bit MACH_PORT_TYPE_NONE _) with false. cbn [andb]. rewrite Z.eqb_refl. cbn [Z.eqb].
  unfold hash_insert. cbn [r_space]. destruct (hash_insert_law s c n r v Ho Hnull Hns) as (s1 & -> & Ho1 & Hs1).
  change (with_space s1 (mk_rstate s w)) with (mk_rstate s1 w).
  destruct (sent_fields v Hb) as (Hp & Hty & Hur & Hma & Hco'); [by rewrite Hu|].
  destruct (upd_step true s1 w c n r v (v_set_bits (u32 (Z.lor (ev_bits v) MACH_PORT_TYPE_SEND + 1))) Ho1 Hp) as (s2 & -> & Ho2 & Hs2); [done|].
  change (v_set_bits _ v) with (sent v) in Ho2. rewrite Ht in Hty. change (Z.lor _ _) with MACH_PORT_TYPE_SEND in Hty.
  assert (holds c (ev_object v) + 1 <= refs w (ev_object v)) as Hrefs.
  { specialize (Hout (ev_object v)). unfold outside, passed in Hout. lia. }
  destruct (hclose_law s2 c n r (sent v) Ho2 Hty) as [Hrepr _]. exists (sent v), s2, w. split; [done|]. split.
  - constructor; [done|congruence| |].
    + apply rights_ok_insert; [done|done| |done|done]. apply (port_ok _ _ _ _ q); [done|done| |].
      * split; [by rewrite Hco', Hco|]. intros _ Hne. by destruct Hne.
      * apply send_ok; [done|by rewrite Hur, Hu|done].
    + intros p'. rewrite outside_insert, Hty by done. unfold lose. rewrite Hout. change (is_port_type MACH_PORT_TYPE_SEND) with true. cbn [andb]. change (ev_object (sent v)) with (ev_object v). destruct (_ =? _); lia.
  - split; [done|]. rewrite Hty, Hur, Hu. unfold send_urefs. by rewrite Hn.
Qed.

(** ** The loop *)

Lemma copyout_entry_found envs st st1 p mt n r v :
  cs_active (r_space st) = true -> find_reverse st p mt = Some (st1, Some (n, r)) -> cs_entry (r_space st1) r = Some v ->
  bit (ev_type v) MACH_PORT_TYPE_SEND_RECEIVE = true -> copyout_entry envs st p mt = Some (st1, inr (n, r)).
Proof. intros Ha Hf Hv Hb. destruct envs; cbn; by rewrite Ha, Hf, Hv, bit_ev_type, Hb. Qed.

Lemma copyout_entry_new envs st st1 st2 p mt n r :
  cs_active (r_space st) = true -> find_reverse st p mt = Some (st1, None) -> entry_get st1 = Some (st2, Some (n, r)) ->
  copyout_entry envs st p mt = claim_entry st2 p n r.
Proof. intros Ha Hf Hg. destruct envs; cbn; by rewrite Ha, Hf, Hg. Qed.

Lemma copyout_entry_full env envs st st1 p mt st3 kr :
  cs_active (r_space st) = true -> find_reverse st p mt = Some (st1, None) -> entry_get st1 = Some (st1, None) ->
  entry_grow_table env st1 = Some (st3, kr) ->
  copyout_entry (env :: envs) st p mt =
    if bool_decide (kr = KERN_SUCCESS) then copyout_entry envs st3 p mt else Some (st3, inl kr).
Proof. intros Ha Hf Hg Hgr. cbn. by rewrite Ha, Hf, Hg, Hgr. Qed.

(** ** The result *)

(** The space has a send or receive right for the port. *)
Definition named c p : Prop := exists m cap, c !! m = Some cap /\ names_port p cap.

(** While the lock is free, others leave the rights of the space and the ports. *)
Definition quiet (env : obj_env) : Prop := sp_quiet (oe_space env) /\ forall w, oe_world env w = w.

(** The space has one name for the port. *)
Definition one_name self c out p n (st' : rstate S) : Prop :=
  exists v', settled self (r_space st') (r_world st') (<[n := the_cap v']> c) (lose p out) /\
    ev_object v' = p /\ bit (ev_type v') MACH_PORT_TYPE_SEND = true /\
    urefs v' = Z.min (MACH_PORT_UREFS_MAX - 1) (send_urefs c n + 1) /\
    (forall m cap, c !! m = Some cap -> names_port p cap -> m = n) /\
    (forall cap, c !! n = Some cap -> names_port p cap).

(** The rights are as before, and the table could not be grown. *)
Definition no_entry (envs : list obj_env) self w c out (kr : kern_return) (st' : rstate S) : Prop :=
  settled self (r_space st') w c out /\ r_world st' = w /\
  match kr with
  | KERN_NO_SPACE => sp_largest (r_space st') /\ ~ sp_room (r_space st')
  | KERN_RESOURCE_SHORTAGE => Exists (fun env => sp_fails (oe_space env)) envs
  | _ => False
  end.

Section Held.
Variables (self p : Z) (w : world) (c : gmap Z capability) (out : Z -> Z) (q : ipc_port).
Hypothesis Hvalid : IP_VALID p = true.
Hypothesis Hq : w_ports w !! p = Some q.
Hypothesis Ha : ip_active q = true.
Hypothesis Hsr : 0 < ip_srights q.
Hypothesis Hnaked : has_send c p -> 1 < ip_srights q.
Hypothesis Hout1 : 1 <= out p.
Hypothesis Hhere : received_here self w c p.
Notation copied envs s := (ipc_object_copyout envs (mk_rstate s w) p MACH_MSG_TYPE_PORT_SEND true).

Lemma copyout_unfold envs s : copied envs s =
  (LET (st1, res) <- copyout_entry envs (mk_rstate s w) p MACH_MSG_TYPE_PORT_SEND ;;
     match res with
     | inl kr => Some (st1, inl kr)
     | inr (name, ref) =>
         LET (st2, kr) <- ipc_right_copyout st1 name ref MACH_MSG_TYPE_PORT_SEND true p ;;
         Some (st2, if bool_decide (kr = KERN_SUCCESS) then inr name else inl kr)
     end).
Proof using Hvalid Hq. unfold ipc_object_copyout. cbn [r_world]. by rewrite Hvalid, Hq. Qed.

Lemma reverse_found envs s s1 n r v :
  settled self s w c out -> find_reverse (mk_rstate s w) p MACH_MSG_TYPE_PORT_SEND = Some (mk_rstate s1 w, Some (n, r)) ->
  settled self s1 w c out -> cs_holds s1 n r v -> names_port p (the_cap v) ->
  (forall m cap, c !! m = Some cap -> names_port p cap -> m = n) ->
  exists st', copied envs s = Some (st', inr n) /\ one_name self c out p n st'.
Proof using All.
  intros Hset Hfind Hset1 Hh Hnames Huniq. pose proof (repr_active s c (se_repr _ _ _ _ _ Hset)) as Hact.
  destruct (names_port_view p v Hnames) as (_ & _ & Hbit).
  rewrite copyout_unfold, (copyout_entry_found envs _ (mk_rstate s1 w) p _ n r v) by (done || by apply (holds_entry s1 n r v)).
  destruct (copyout_existing self s1 w c out p q n r v Hset1 Hh Hnames Hvalid Hq Ha Hsr Hnaked Hout1)
    as (v' & s' & w' & -> & Hset' & Hobj & Hb & Hu). cbn.
  eexists. split; [done|]. exists v'. split_and!; [done..|]. intros cap Hcap.
  destruct (holds_cap s1 c n r v (se_repr _ _ _ _ _ Hset1) Hh) as (Hc & _). congruence.
Qed.

Lemma room_found envs s s1 :
  settled self s w c out -> find_reverse (mk_rstate s w) p MACH_MSG_TYPE_PORT_SEND = Some (mk_rstate s1 w, None) ->
  settled self s1 w c out -> sp_room s1 -> ip_receiver q <> self -> ~ named c p ->
  exists n st', copied envs s = Some (st', inr n) /\ one_name self c out p n st'.
Proof using All.
  intros Hset Hfind [Hr1 Hs1 Hok1 Hout'] Hroom Hrr Hnone. pose proof (repr_active s c (se_repr _ _ _ _ _ Hset)) as Hact.
  destruct (get_law s1 c Hr1 Hroom) as (s2 & n & r & v & Hget & Hs2 & Ho & H0 & Hobj & Hreq). rewrite copyout_unfold.
  rewrite (copyout_entry_new envs _ (mk_rstate s1 w) (mk_rstate s2 w) p _ n r) by (done || unfold entry_get; cbn; by rewrite Hget).
  destruct (right_zero v H0) as (Ht & _). destruct (open_entry s2 c n r v Ho) as [Hv Hb].
  unfold claim_entry, assert_fresh. cbn [r_space r_world]. rewrite Hv, Ht, Hobj, !Z.eqb_refl, Hq, Ha. cbn [negb].
  destruct (upd_step false s2 w c n r v (v_set_object p) Ho) as (s3 & -> & Ho3 & Hs3); [by apply same_place_refl|done|].
  assert (no_send c p) as Hns.
  { intros m cap Hm Hct Hco. apply Hnone. exists m, cap. split; [done|].
    split; [unfold for_port; by rewrite Hct, Hco, Z.eqb_refl|by rewrite Hct]. }
  destruct (copyout_fresh self s3 w c out p q n r (v_set_object p v)) as (v' & s' & w' & -> & Hset' & Hobj' & Hb' & Hu);
    try done; [congruence|]. cbn. do 2 eexists. split; [done|]. exists v'. split_and!; [done..| |].
  - intros m cap Hm Hn. destruct Hnone. by exists m, cap.
  - intros cap Hcap. destruct (open_rest s2 c n r v Ho) as [Hcn _]. congruence.
Qed.

(** Either the loop ends here, or the table must grow. *)
Lemma copyout_round envs s : settled self s w c out ->
  (exists n st', copied envs s = Some (st', inr n) /\ one_name self c out p n st') \/
  (~ sp_room s /\ ~ named c p /\ exists s1, sp_left s1 = sp_left s /\ settled self s1 w c out /\ ~ sp_room s1 /\
    find_reverse (mk_rstate s w) p MACH_MSG_TYPE_PORT_SEND = Some (mk_rstate s1 w, None) /\ sp_get s1 = Some (s1, None)).
Proof using All.
  assert (p <> IO_NULL) as Hnull. { intros E. by rewrite E in Hvalid. } intros Hset.
  destruct (right_reverse_post self s w c out p q Hset Hnull Hq Ha Hhere) as (s1 & found & Hrev & Hset1 & Hfound).
  assert (find_reverse (mk_rstate s w) p MACH_MSG_TYPE_PORT_SEND = Some (mk_rstate s1 w, found)) as Hfind.
  { unfold find_reverse. by rewrite bool_decide_false, Hrev by done. }
  destruct found as [[n r]|].
  - left. destruct Hfound as (v & Hh & Hnames & Huniq). exists n. by apply (reverse_found envs s s1 n r v).
  - destruct Hfound as ((Hroom & Hleft) & Hrr & Hnone).
    assert (~ named c p) as Hnn by (intros (m & cap & Hm & Hn); by apply (Hnone m cap)).
    destruct (get_full_law s1 c (se_repr _ _ _ _ _ Hset1)) as [Hr|[Hr Hget]].
    + left. by apply (room_found envs s s1).
    + right. split; [by rewrite Hroom|]. split; [done|]. by exists s1.
Qed.

Lemma copyout_loop envs : forall s,
  settled self s w c out -> sp_room s \/ named c p \/ Forall quiet envs /\ (sp_left s < length envs)%nat ->
  exists st' res, copied envs s = Some (st', res) /\
    match res with
    | inr n => one_name self c out p n st'
    | inl kr => ~ sp_room s /\ ~ named c p /\ no_entry envs self w c out kr st'
    end.
Proof using All.
  induction envs as [|env envs IH]; intros s Hset Hhow.
  - destruct (copyout_round [] s Hset) as [(n & st' & Heq & Hone)|(Hroom & Hnone & _)]; [by exists st', (inr n)|].
    destruct Hhow as [?|[?|[_ Hlen]]]; [done..|]. cbn in Hlen. lia.
  - destruct (copyout_round (env :: envs) s Hset) as [(n & st' & Heq & Hone)|Hfull]; [by exists st', (inr n)|].
    destruct Hfull as (Hroom & Hnone & s1 & Hleft & Hset1 & Hroom1 & Hfind & Hget).
    destruct Hhow as [?|[?|[Hquiet Hlen]]]; [done..|].
    apply Forall_cons in Hquiet as [[Hqs Hqw] Hquiet]. cbn in Hlen.
    destruct (grow_law (oe_space env) s1 c (se_repr _ _ _ _ _ Hset1) Hqs) as (s2 & kr & Hgrow & Hr2 & Hs2 & Hkr).
    assert (settled self s2 w c out) as Hset2 by (destruct Hset1; constructor; congruence || done).
    assert (copied (env :: envs) s = if bool_decide (kr = KERN_SUCCESS) then copied envs s2 else Some (mk_rstate s2 w, inl kr)) as Heq.
    { rewrite copyout_unfold, (copyout_entry_full env envs _ (mk_rstate s1 w) p _ (mk_rstate s2 w) kr).
      - destruct (bool_decide _); [by rewrite copyout_unfold|done].
      - apply (repr_active s c (se_repr _ _ _ _ _ Hset)).
      - done.
      - unfold entry_get. cbn. by rewrite Hget.
      - unfold entry_grow_table. cbn. by rewrite Hgrow, Hqw. }
    rewrite Heq. case_bool_decide as Hs.
    + subst kr. destruct (IH s2 Hset2) as (st' & res & -> & Hres); [right; right; split; [done|lia]|].
      exists st', res. split; [done|]. destruct res as [kr|n]; [|done]. destruct Hres as (_ & _ & Hset' & Hw & Hkr').
      split; [done|]. split; [done|]. split; [done|]. split; [done|]. destruct kr; try done. by apply Exists_cons_tl.
    + exists (mk_rstate s2 w), (inl kr). split; [done|]. split; [done|]. split; [done|]. split; [done|]. split; [done|].
      destruct kr; try done; [by destruct Hkr as [-> ?]|by apply Exists_cons_hd].
Qed.
End Held.

(** C22: [ipc_object_copyout] of a send right for a live port that the caller
    holds gives the space, which has a receive right for the port if it is its
    receiver, one name for the port: if the space has a send or a receive right for
    it, the name of that right, which gains a user reference (pegged at the
    maximum), and otherwise a name that denoted nothing.  It fails no assertion,
    consumes the caller's reference and keeps the rights in agreement with the
    ports; no other name changes.  If there is neither a name for the port nor a
    free entry, the table is grown until it has a free entry; when that fails, with
    KERN_NO_SPACE at the largest size or KERN_RESOURCE_SHORTAGE when memory ran
    out, the rights of the space, the ports and the caller's reference are as
    before.  While the table grows, other threads may grow it too, but are assumed
    to leave the capabilities of the space and the ports alone ([quiet]). *)
Theorem object_copyout_send_one_name envs self s w c out p :
  settled self s w c out -> IP_VALID p = true -> naked w c MACH_MSG_TYPE_PORT_SEND p -> 1 <= out p ->
  received_here self w c p -> sp_room s \/ named c p \/ Forall quiet envs /\ (sp_left s < length envs)%nat ->
  exists st' res, ipc_object_copyout envs (mk_rstate s w) p MACH_MSG_TYPE_PORT_SEND true = Some (st', res) /\
    match res with
    | inr n => one_name self c out p n st'
    | inl kr => ~ sp_room s /\ ~ named c p /\ no_entry envs self w c out kr st'
    end.
Proof. intros Hset Hvalid (q & Hq & Ha & Hsr & Hnaked) Hout1 Hhere. by apply (copyout_loop self p w c out q). Qed.
End Copyout.

(** ** The entries of ipc_entry.c as the allocator of ipc_object.c

    The instance of [SpaceAlloc] and the proof of its laws. *)

(** What others do while the lock is free and while this thread waits for the end
    of another growth, which allocations succeed, and how often an allocation may
    start again. *)
Record kenv := mk_kenv {
  ke_window : nat -> kstate -> kstate; ke_wait : nat -> kstate -> kstate; ke_memory : nat -> bool; ke_fuel : nat }.

Section AllocSpace.
Context `{PC : PortConfig}.
Variable its : list Z.

#[export] Instance kstate_alloc : SpaceAlloc kstate := {
  sp_env := kenv;
  sp_get st :=
    LET (sp', res) <- ipc_entry_get (k_space st) ;;
    Some (mk_kstate sp' (k_ghash st), match res with Some (name, i) => Some (name, InTable i) | None => None end);
  sp_grow env st :=
    LET (kr, st', _) <- grow_table its (ke_window env) (ke_wait env) (ke_memory env) 0 st ;; Some (st', kr);
  sp_alloc env st :=
    LET (res, st', _) <- ipc_entry_alloc its (ke_window env) (ke_wait env) (ke_memory env) (ke_fuel env) 0 st ;;
    Some (st', match res with inl (name, i) => inr (name, InTable i) | inr kr => inl kr end);
  sp_alloc_name env name st :=
    LET (res, st', _) <- ipc_entry_alloc_name its (ke_window env) (ke_wait env) (ke_memory env) (ke_fuel env) 0 name st ;;
    Some (st', match res with inl ref => inr ref | inr kr => inl kr end)
}.

Lemma gen_right name : IE_BITS_RIGHT (MACH_PORT_GEN name) = 0.
Proof.
  unfold IE_BITS_RIGHT. change IE_BITS_RIGHT_MASK with (Z.ones 23). rewrite Z.land_ones, gen_arith by lia.
  destruct PORT_GENERATIONS; [|by rewrite Zmod_0_l]. change (2 ^ 24) with (2 * 2 ^ 23). rewrite Z.mul_assoc. by apply Z.mod_mul.
Qed.

Lemma entry_get_self sp sp' res : ipc_entry_get sp = Some (sp', res) -> is_self sp' = is_self sp.
Proof. unfold ipc_entry_get. intros H. repeat case_match; by simplify_eq. Qed.

Hypothesis Hits : entries_sizes_ok its.

#[local] Existing Instance kstate_space.
#[local] Existing Instance kstate_laws.

(** Others follow the locking protocol and leave the capabilities of the space. *)
Record leaves_caps (others : nat -> kstate -> kstate) : Prop := {
  lc_self : forall k st, active st -> same_self st (others k st);
  lc_caps : forall k st n, space_caps (k_space (others k st)) n = space_caps (k_space st) n
}.

Definition kquiet (env : kenv) : Prop :=
  rely its (ke_window env) (ke_wait env) /\ waits_end (ke_wait env) /\ leaves_caps (ke_window env) /\ leaves_caps (ke_wait env).

Lemma grow_quiet env st c : krepr its st c -> kquiet env ->
  exists st' kr, sp_grow env st = Some (st', kr) /\ krepr its st' c /\ is_self (k_space st') = is_self (k_space st) /\
    match kr with
    | KERN_SUCCESS => (Z.to_nat (rounds_left its st') < Z.to_nat (rounds_left its st))%nat
    | KERN_NO_SPACE => st' = st /\ aget its (next_of st) = Some (is_table_size (k_space st))
    | KERN_RESOURCE_SHORTAGE => exists j, ke_memory env j = false
    | _ => False
    end.
Proof using Hits.
  intros [Hwf Hc] (Hrely & Hends & Hw & Hwt).
  set (Inv := fun caps : Z -> option capability => forall n, c !! n = caps n).
  assert (forall others, leaves_caps others -> keeps_inv its Inv others) as Hkeep.
  { intros others Ho k st1 _ _ HI n. by rewrite (lc_caps _ Ho). }
  destruct (grow_table_wrap its Hits (ke_window env) (ke_wait env) (ke_memory env) Inv) with (k := 0%nat) (st := st)
    as (kr & st' & k' & Heq & Hpost); [|done|by apply Hkeep..|done|by split; intros _|].
  { intros x y Hxy. unfold Inv. by setoid_rewrite Hxy. }
  pose proof Hpost as ((Hok & HI) & _ & Hcalm & Hkr).
  destruct Hcalm as [Ha Hs]; [intros k st1 Hst1; split; by apply lc_self|].
  exists st', kr. cbn [sp_grow kstate_alloc]. rewrite Heq. split; [done|]. split; [split; [by apply Hok|exact (HI Ha)]|]. split; [done|].
  destruct kr; try done. pose proof (rounds_decrease _ _ _ _ _ _ _ Hends Hpost Ha).
  pose proof (next_range its Hits st' (Hok Ha)). assert (0 <= rounds_left its st') by (unfold rounds_left; destruct (growing st'); lia). lia.
Qed.

#[export] Instance kstate_alloc_laws :
  @SpaceAllocLaws kstate (kstate_space its) (kstate_laws its Hits) kstate_alloc.
Proof using Hits.
  refine {| sp_room := fun st : kstate => exists i, is_free None (is_table (k_space st)) i;
            sp_largest := fun st => aget its (next_of st) = Some (is_table_size (k_space st));
            sp_left := fun st => Z.to_nat (rounds_left its st);
            sp_quiet := kquiet;
            sp_fails := fun env => exists j, ke_memory env j = false |}.
  - intros [sp g] c [Hwf Hc] [i Hi]. cbn in Hi |- *.
    destruct (ipc_entry_get_correct its Hits sp g Hwf) as (sp' & res & Hget & Hres).
    rewrite Hget. destruct res as [[name j]|]; [|by destruct (proj2 Hres i)]. destruct Hres as (Hwf' & _ & Hr & Hf & Hn & Hcs).
    eexists _, name, (InTable j), (mk_view (MACH_PORT_GEN name) IO_NULL 0). split; [done|].
    split; [|split; [|split; [apply (gen_right name)|done]]].
    + by eapply entry_get_self.
    + apply kopen_fresh; [done|done|done|by rewrite Hc|]. intros k _. by rewrite Hc, <- Hcs.
  - intros [sp g] c [Hwf Hc]. cbn. destruct (wf_free _ _ _ Hwf) as (l & Hch & _ & Hfr). cbn in Hfr.
    destruct l as [|i l]; [right|left; exists i; apply Hfr; set_solver].
    destruct (ipc_entry_get_correct its Hits sp g Hwf) as (sp' & res & Hget & Hres). rewrite Hget.
    assert (forall i, ~ is_free None (is_table sp) i) as Hno by (intros i Hi%Hfr; set_solver).
    split; [intros [i Hi]; by apply (Hno i)|].
    destruct res as [[name j]|]; [|by destruct Hres as [-> _]].
    unfold ipc_entry_get in Hget. destruct (free_chain_head _ _ _ Hch) as (e0 & He0 & Hn0). cbn in He0, Hn0.
    rewrite (wf_active _ _ _ Hwf : is_active sp = true), He0, Hn0 in Hget. done.
  - intros env st c Hr Hq. by apply grow_quiet.
  - intros st c obj st' res [Hwf _] Ho. cbn.
    destruct (ipc_hash_lookup_correct its Hits None st obj Hwf Ho) as (g' & res' & -> & _). by intros [= <- _].
Defined.
End AllocSpace.
