(* ===== verification/IpcObjectThms.v ===== *)
(** * Capabilities of a concrete space

    The theorems on copying capabilities in and out at the sample space, and
    what goes wrong for an old-style entry whose port is dead. *)
From S2P Require Import Prelude PortName IpcSplay IpcTable IpcTypes IpcHash IpcEntry.
From S2P Require Import IpcSpaceInv IpcEntrySpec IpcEntryThms IpcCap IpcCapSpace IpcObject IpcMqueue.
From S2P Require Import IpcPort IpcRequests IpcWorld IpcPortOps IpcRight IpcRightCopy IpcRightBits.
From S2P Require Import IpcRightInv IpcRightSteps IpcDealloc IpcCopyin IpcCopyout IpcRightThms.

#[local] Existing Instance pc0.
#[local] Instance object0_ops : CapSpace kstate := kstate_space its0.
#[local] Instance object0_laws : CapSpaceLaws kstate := kstate_laws its0 its0_ok.
#[local] Instance object0_alloc : SpaceAlloc kstate := kstate_alloc its0.
#[local] Instance object0_alloc_laws : SpaceAllocLaws kstate := kstate_alloc_laws its0 its0_ok.

(** ** The theorems at the sample *)

(** A move of the send right, which has two user references. *)
Lemma object_copyin_keeps_rights_witness :
  exists v s' w', the_cap v = the_cap send0 /\ let spec := copyin_spec world0 v MACH_MSG_TYPE_MOVE_SEND in
    let c' := put_cap 0x100 spec.2 (delete 0x100 caps0) in
    ipc_object_copyin (mk_rstate sent0 world0) 0x100 MACH_MSG_TYPE_MOVE_SEND = Some (mk_rstate s' w', result_of spec.1) /\
    settled 0x40 s' w' c' (gain spec.1 (outside world0 caps0)) /\ got_right w' c' MACH_MSG_TYPE_MOVE_SEND spec.1.
Proof.
  pose proof (object_copyin_keeps_rights 0x40 sent0 world0 caps0 (outside world0 caps0) 0x100 MACH_MSG_TYPE_MOVE_SEND
    sent0_settled) as H.
  assert (caps0 !! 0x100 = Some (the_cap send0)) as E by apply lookup_singleton_eq. rewrite E in H. apply H.
  - split; vm_compute; congruence.
  - congruence.
  - intros p q Hq. unfold world0, world_of in Hq. cbn in Hq. apply lookup_singleton_Some in Hq as [_ <-].
    split_and!; vm_compute; congruence.
  - vm_compute. reflexivity.
Defined.

(** The same port with another reference and another send right, the caller's. *)
Definition two_port : ipc_port := ip_set_references 2 (ip_set_srights 2 req_port).

Lemma two_port_settled : settled 0x40 sent0 (world_of two_port) caps0 (outside (world_of two_port) caps0).
Proof.
  apply holding_settled; [done..| |done| |].
  - split_and!; [done..|]. exists [2]. apply req_port_wf.
  - split; [done|]. by intros _ [].
  - apply send_ok; [done|by vm_compute|]. intros _. by vm_compute.
Qed.

(** A new space, of whose table three entries are free, gets rights for four
    ports: for the fourth the table must grow.  Other threads take references of
    the space meanwhile. *)
Definition world4 : world :=
  mk_world {[ 0x1000 := two_port; 0x2000 := two_port; 0x3000 := two_port; 0x4000 := two_port ]} ∅ 0 [].
Definition fill_envs : list obj_env :=
  replicate 5 (mk_obj_env (mk_kenv window0 wait0 (fun _ => true) 0) (fun w => w)).
Definition filled (st : rstate kstate) (p : Z) : rstate kstate :=
  from_option fst st (ipc_object_copyout fill_envs st p MACH_MSG_TYPE_PORT_SEND true).
Definition full0 : rstate kstate := filled (filled (filled (mk_rstate st0 world4) 0x1000) 0x2000) 0x3000.

Lemma fill_envs_quiet : Forall quiet fill_envs.
Proof. apply Forall_replicate. split; [|done]. split; [exact window0_rely|]. split; [exact wait0_ends|]. by split; constructor. Qed.

Lemma world4_port p q : w_ports world4 !! p = Some q -> q = two_port.
Proof. unfold world4. cbn. rewrite !lookup_insert_Some, lookup_singleton_Some. intuition congruence. Qed.

Lemma st0_settled : settled 0x40 st0 world4 ∅ (outside world4 ∅).
Proof.
  constructor; [|done| |done].
  - split; [exact st0_wf|]. intros n. rewrite lookup_empty. symmetry. apply st0_no_caps.
  - constructor; try done.
    + intros p. unfold refs. destruct (w_ports world4 !! p) as [q|] eqn:Hq; [|done]. by rewrite (world4_port p q Hq).
    + intros p q ->%world4_port. split_and!; [done..|]. exists [2]. apply req_port_wf.
Qed.

Lemma world4_side c p : w_ports world4 !! p = Some two_port ->
  naked world4 c MACH_MSG_TYPE_PORT_SEND p /\ received_here 0x40 world4 c p.
Proof.
  intros Hp. split; [by exists two_port|]. by intros q ->%world4_port.
Qed.

Lemma fill_step s s' c out p n : settled 0x40 s world4 c out -> w_ports world4 !! p = Some two_port ->
  IP_VALID p = true -> 1 <= out p -> (sp_left s < 5)%nat ->
  ipc_object_copyout fill_envs (mk_rstate s world4) p MACH_MSG_TYPE_PORT_SEND true = Some (mk_rstate s' world4, inr n) ->
  exists c', settled 0x40 s' world4 c' (lose p out).
Proof.
  intros Hset Hp Hv Hout Hl Heq. destruct (world4_side c p Hp) as [_ Hhere].
  destruct (copyout_loop 0x40 p world4 c out two_port Hv Hp eq_refl eq_refl (fun _ => eq_refl) Hout Hhere fill_envs s Hset)
    as (st' & res & Heq' & Hres); [right; right; split; [exact fill_envs_quiet|done]|].
  rewrite Heq in Heq'. injection Heq' as <- <-. destruct Hres as (v' & Hset' & _). by eexists.
Qed.

Lemma full0_settled : exists c out, settled 0x40 (r_space full0) world4 c out /\ 1 <= out 0x4000.
Proof.
  set (st1 := filled (mk_rstate st0 world4) 0x1000). set (st2 := filled st1 0x2000).
  destruct (fill_step st0 (r_space st1) ∅ (outside world4 ∅) 0x1000 0x100 st0_settled) as [c1 H1];
    [done|done|by vm_compute|apply Nat.ltb_lt; by vm_compute|by vm_compute|].
  destruct (fill_step _ (r_space st2) c1 _ 0x2000 0x200 H1) as [c2 H2];
    [done|done|by vm_compute|apply Nat.ltb_lt; by vm_compute|by vm_compute|].
  destruct (fill_step _ (r_space full0) c2 _ 0x3000 0x300 H2) as [c3 H3];
    [done|done|by vm_compute|apply Nat.ltb_lt; by vm_compute|by vm_compute|].
  exists c3. eexists. split; [exact H3|]. by vm_compute.
Qed.

(** The right for the fourth port gets the name of a new entry. *)
Lemma object_copyout_send_one_name_witness :
  sp_get (r_space full0) = Some (r_space full0, None) /\
  exists c out st', settled 0x40 (r_space full0) world4 c out /\
    ipc_object_copyout fill_envs full0 0x4000 MACH_MSG_TYPE_PORT_SEND true = Some (st', inr 0x400) /\
    one_name 0x40 c out 0x4000 0x400 st'.
Proof.
  split; [vm_compute; reflexivity|]. destruct full0_settled as (c & out & Hset & Hout).
  assert (w_ports world4 !! 0x4000 = Some two_port) as Hp by (vm_compute; reflexivity).
  destruct (world4_side c 0x4000 Hp) as [Hnaked Hhere].
  destruct (object_copyout_send_one_name fill_envs 0x40 (r_space full0) world4 c out 0x4000 Hset) as (st' & res & Heq & Hres);
    [reflexivity|exact Hnaked|exact Hout|exact Hhere|
     right; right; split; [exact fill_envs_quiet|apply Nat.ltb_lt; vm_compute; reflexivity]|].
  assert (mk_rstate (r_space full0) world4 = full0) as E by (vm_compute; reflexivity). rewrite E in Heq.
  assert (snd <$> ipc_object_copyout fill_envs full0 0x4000 MACH_MSG_TYPE_PORT_SEND true = Some (inr 0x400)) as Hn
    by (vm_compute; reflexivity).
  rewrite Heq in Hn. injection Hn as ->. exists c, out, st'. split; [exact Hset|]. split; [exact Heq|exact Hres].
Defined.

(** ** Old-style entries of dead ports *)

Definition compat0 : eview := mk_view (Z.lor (Z.lor MACH_PORT_TYPE_SEND IE_BITS_COMPAT) 1) 0x1000 1.
Definition dead_world : world := world_of (ip_set_active false req_port).
Definition checked0 : rstate kstate :=
  from_option fst (mk_rstate (holding compat0) dead_world)
    (ipc_right_copyin (mk_rstate (holding compat0) dead_world) 0x100 (InTable 1) MACH_MSG_TYPE_MOVE_SEND true).

(** C39: [ipc_object_copyin] deallocates an old-style entry of a dead port twice.
    In a space that is all right, [ipc_right_copyin] notices that the port is
    dead, and for a compat entry [ipc_right_check] deallocates the entry and
    KERN_INVALID_NAME is returned; [ipc_object_copyin] then sees an entry of type
    MACH_PORT_TYPE_NONE and calls [ipc_entry_dealloc] again, which fails its
    assertion that the entry has no request: the field now links the free list. *)
Theorem compat_dead_copyin_deallocates_twice :
  settled 0x40 (holding compat0) dead_world {[ 0x100 := the_cap compat0 ]}
    (outside dead_world {[ 0x100 := the_cap compat0 ]}) /\
  ipc_right_copyin (mk_rstate (holding compat0) dead_world) 0x100 (InTable 1) MACH_MSG_TYPE_MOVE_SEND true =
    Some (checked0, inl KERN_INVALID_NAME) /\
  space_caps (k_space (r_space checked0)) 0x100 = None /\
  (ev_type <$> cs_entry (r_space checked0) (InTable 1)) = Some MACH_PORT_TYPE_NONE /\
  ipc_entry_dealloc its0 (r_space checked0) 0x100 (InTable 1) = None /\
  ipc_object_copyin (mk_rstate (holding compat0) dead_world) 0x100 MACH_MSG_TYPE_MOVE_SEND = None.
Proof.
  split; [|split_and!; vm_compute; reflexivity].
  apply holding_settled; [done..| |done| |].
  - split_and!; [done..|]. exists [2]. apply req_port_wf.
  - split; done.
  - apply send_ok; [done|by vm_compute|done].
Qed.
