(* ===== verification/MachPort.v ===== *)
(** * Port system calls (ipc/mach_port.c)

    The calls through which a task works on its own names.  Each looks a name up
    in the space and leaves the work to ipc_right.c, ipc_object.c, ipc_port.c or
    ipc_pset.c.  [null] says that the space argument is [IS_NULL].  The calls
    under MIGRATING_THREADS are left out. *)

From S2P Require Import Prelude PortName IpcTable IpcTypes IpcMqueue IpcPort IpcWorld.
From S2P Require Import IpcPortOps IpcSpaceInv IpcCap IpcRight IpcRightCopy IpcObject.

Definition MACH_PORT_QLIMIT_MAX : Z := 16.

Definition MACH_NOTIFY_FIRST : Z := 64.
Definition MACH_NOTIFY_PORT_DESTROYED : Z := MACH_NOTIFY_FIRST + 5.
Definition MACH_NOTIFY_NO_SENDERS : Z := MACH_NOTIFY_FIRST + 6.
Definition MACH_NOTIFY_DEAD_NAME : Z := MACH_NOTIFY_FIRST + 8.

(** The types of port rights in messages as numbers. *)
Definition msg_type_of (x : Z) : option mach_msg_type_name :=
  if x =? 16 then Some MACH_MSG_TYPE_MOVE_RECEIVE
  else if x =? 17 then Some MACH_MSG_TYPE_MOVE_SEND
  else if x =? 18 then Some MACH_MSG_TYPE_MOVE_SEND_ONCE
  else if x =? 19 then Some MACH_MSG_TYPE_COPY_SEND
  else if x =? 20 then Some MACH_MSG_TYPE_MAKE_SEND
  else if x =? 21 then Some MACH_MSG_TYPE_MAKE_SEND_ONCE
  else None.

Definition MACH_MSG_TYPE_PORT_ANY (x : Z) : bool := (16 <=? x) && (x <=? 21).
Definition MACH_MSG_TYPE_PORT_ANY_RIGHT (x : Z) : bool := (16 <=? x) && (x <=? 18).

Record mach_port_status := mk_status {
  mps_pset : Z; mps_seqno : Z; mps_mscount : Z; mps_qlimit : Z; mps_msgcount : Z;
  mps_sorights : Z; mps_srights : bool; mps_pdrequest : bool; mps_nsrequest : bool
}.

(** Without the sequence number. *)
Record old_mach_port_status := mk_old_status {
  old_mps_pset : Z; old_mps_mscount : Z; old_mps_qlimit : Z; old_mps_msgcount : Z;
  old_mps_sorights : Z; old_mps_srights : bool; old_mps_pdrequest : bool; old_mps_nsrequest : bool
}.

Section MachPort.
Context {S : Type} {CS : CapSpace S} {SA : SpaceAlloc S}.
(** [ipc_table_dnrequests], and whether lock tries succeed. *)
Variables (dits : list Z) (try : bool).

(** The result of a call that looks up a name first. *)
Definition on_name {A : Type} (st : rstate S) (name : Z)
    (k : rstate S -> entry_ref -> option (rstate S * (kern_return + A))) : option (rstate S * (kern_return + A)) :=
  LET (st1, res) <- ipc_right_lookup_write st name ;;
  match res with inl kr => Some (st1, inl kr) | inr ref => k st1 ref end.

(** A call that returns no value. *)
Definition no_value (r : option (rstate S * kern_return)) : option (rstate S * (kern_return + unit)) :=
  LET (st, kr) <- r ;; Some (st, if bool_decide (kr = KERN_SUCCESS) then inr tt else inl kr).

(** ** Types and references *)

Definition mach_port_type (null : bool) (st : rstate S) (name : Z) : option (rstate S * (kern_return + Z)) :=
  if null then Some (st, inl KERN_INVALID_TASK)
  else on_name st name (fun st1 ref =>
    LET (st2, res) <- ipc_right_info st1 name ref ;;
    Some (st2, match res with inl kr => inl kr | inr (type, _) => inr type end)).

Definition mach_port_get_refs (null : bool) (st : rstate S) (name right : Z) : option (rstate S * (kern_return + Z)) :=
  if null then Some (st, inl KERN_INVALID_TASK)
  else if MACH_PORT_RIGHT_NUMBER <=? right then Some (st, inl KERN_INVALID_VALUE)
  else on_name st name (fun st1 ref =>
    LET (st2, res) <- ipc_right_info st1 name ref ;;
    match res with
    | inl kr => Some (st2, inl kr)
    | inr (type, urefs) =>
        if bit type (MACH_PORT_TYPE right) then
          if right =? MACH_PORT_RIGHT_SEND_ONCE then ASSERT urefs =? 1 ;; Some (st2, inr 1)
          else if (right =? MACH_PORT_RIGHT_PORT_SET) || (right =? MACH_PORT_RIGHT_RECEIVE) then Some (st2, inr 1)
          else if (right =? MACH_PORT_RIGHT_DEAD_NAME) || (right =? MACH_PORT_RIGHT_SEND) then
            ASSERT 0 <? urefs ;; Some (st2, inr urefs)
          else None
        else Some (st2, inr 0)
    end).

Definition mach_port_mod_refs (null : bool) (st : rstate S) (name right delta : Z) : option (rstate S * (kern_return + unit)) :=
  if null then Some (st, inl KERN_INVALID_TASK)
  else if MACH_PORT_RIGHT_NUMBER <=? right then Some (st, inl KERN_INVALID_VALUE)
  else on_name st name (fun st1 ref => no_value (ipc_right_delta dits try st1 name ref right delta)).

Definition mach_port_destroy (null : bool) (st : rstate S) (name : Z) : option (rstate S * (kern_return + unit)) :=
  if null then Some (st, inl KERN_INVALID_TASK)
  else on_name st name (fun st1 ref => no_value (ipc_right_destroy dits try st1 name ref)).

Definition mach_port_deallocate (null : bool) (st : rstate S) (name : Z) : option (rstate S * (kern_return + unit)) :=
  if null then Some (st, inl KERN_INVALID_TASK)
  else on_name st name (fun st1 ref => no_value (ipc_right_dealloc st1 name ref)).

(** ** Names *)

Definition mach_port_rename (null : bool) (env : obj_env) (st : rstate S) (oname nname : Z)
    : option (rstate S * (kern_return + unit)) :=
  if null then Some (st, inl KERN_INVALID_TASK)
  else if negb (MACH_PORT_VALID nname) then Some (st, inl KERN_INVALID_VALUE)
  else no_value (ipc_object_rename env st oname nname).

(** [mem] is the memory for the object. *)
Definition mach_port_allocate_name (null : bool) (env : obj_env) (mem : option Z) (st : rstate S) (right name : Z)
    : option (rstate S * (kern_return + unit)) :=
  let done (r : option (rstate S * (kern_return + Z))) :=
    LET (st1, res) <- r ;; Some (st1, match res with inl kr => inl kr | inr _ => inr tt end) in
  if null then Some (st, inl KERN_INVALID_TASK)
  else if negb (MACH_PORT_VALID name) then Some (st, inl KERN_INVALID_VALUE)
  else if right =? MACH_PORT_RIGHT_RECEIVE then done (ipc_port_alloc_name env mem st name)
  else if right =? MACH_PORT_RIGHT_PORT_SET then done (ipc_pset_alloc_name env mem st name)
  else if right =? MACH_PORT_RIGHT_DEAD_NAME then no_value (ipc_object_alloc_dead_name env st name)
  else Some (st, inl KERN_INVALID_VALUE).

Definition mach_port_allocate (null : bool) (env : obj_env) (mem : option Z) (st : rstate S) (right : Z)
    : option (rstate S * (kern_return + Z)) :=
  let done (r : option (rstate S * (kern_return + Z * Z))) :=
    LET (st1, res) <- r ;; Some (st1, match res with inl kr => inl kr | inr (name, _) => inr name end) in
  if null then Some (st, inl KERN_INVALID_TASK)
  else if right =? MACH_PORT_RIGHT_RECEIVE then done (ipc_port_alloc env mem st)
  else if right =? MACH_PORT_RIGHT_PORT_SET then done (ipc_pset_alloc env mem st)
  else if right =? MACH_PORT_RIGHT_DEAD_NAME then ipc_object_alloc_dead env st
  else Some (st, inl KERN_INVALID_VALUE).

(** ** Receive rights *)

Definition ipc_port_translate_receive (st : rstate S) (name : Z) : option (rstate S * (kern_return + Z)) :=
  ipc_object_translate st name MACH_PORT_RIGHT_RECEIVE.

(** A call on the port of a receive right. *)
Definition on_receive {A : Type} (st : rstate S) (name : Z)
    (k : rstate S -> Z -> option (rstate S * (kern_return + A))) : option (rstate S * (kern_return + A)) :=
  LET (st1, res) <- ipc_port_translate_receive st name ;;
  match res with inl kr => Some (st1, inl kr) | inr port => k st1 port end.

Definition mach_port_set_qlimit (null : bool) (st : rstate S) (name qlimit : Z) : option (rstate S * (kern_return + unit)) :=
  if null then Some (st, inl KERN_INVALID_TASK)
  else if MACH_PORT_QLIMIT_MAX <? qlimit then Some (st, inl KERN_INVALID_VALUE)
  else on_receive st name (fun st1 port =>
    LET st2 <- on_world (ipc_port_set_qlimit port qlimit) st1 ;; Some (st2, inr tt)).

Definition mach_port_set_mscount (null : bool) (st : rstate S) (name mscount : Z) : option (rstate S * (kern_return + unit)) :=
  if null then Some (st, inl KERN_INVALID_TASK)
  else on_receive st name (fun st1 port =>
    LET st2 <- on_world (ipc_port_set_mscount port mscount) st1 ;; Some (st2, inr tt)).

Definition mach_port_set_seqno (null : bool) (st : rstate S) (name seqno : Z) : option (rstate S * (kern_return + unit)) :=
  if null then Some (st, inl KERN_INVALID_TASK)
  else on_receive st name (fun st1 port =>
    LET st2 <- on_world (ipc_port_set_seqno port seqno) st1 ;; Some (st2, inr tt)).

(** The name of the set of a port; a dead set is left, and freed by its last
    member. *)
Definition port_set_name (port : Z) (w : world) : option (world * Z) :=
  LET q <- w_ports w !! port ;;
  let pset := ip_pset q in
  if negb (pset =? IPS_NULL) then
    LET s <- w_psets w !! pset ;;
    if negb (ips_active s) then
      LET w1 <- ipc_pset_remove pset port w ;;
      LET w2 <- ips_check_unlock pset w1 ;;
      Some (w2, MACH_PORT_NULL)
    else
      ASSERT MACH_PORT_VALID (ips_local_name s) ;;
      Some (w, ips_local_name s)
  else Some (w, MACH_PORT_NULL).

Definition mach_port_get_receive_status (null : bool) (st : rstate S) (name : Z)
    : option (rstate S * (kern_return + mach_port_status)) :=
  if null then Some (st, inl KERN_INVALID_TASK)
  else on_receive st name (fun st1 port =>
    LET (w2, set_name) <- port_set_name port (r_world st1) ;;
    LET q <- w_ports w2 !! port ;;
    Some (with_world w2 st1,
      inr (mk_status set_name (ip_seqno q) (ip_mscount q) (ip_qlimit q) (ip_msgcount q) (ip_sorights q)
        (0 <? ip_srights q) (negb (ip_pdrequest q =? IP_NULL)) (negb (ip_nsrequest q =? IP_NULL))))).

Definition old_mach_port_get_receive_status (null : bool) (st : rstate S) (name : Z)
    : option (rstate S * (kern_return + old_mach_port_status)) :=
  LET (st1, res) <- mach_port_get_receive_status null st name ;;
  Some (st1, match res with
    | inl kr => inl kr
    | inr s => inr (mk_old_status (mps_pset s) (mps_mscount s) (mps_qlimit s) (mps_msgcount s) (mps_sorights s)
        (mps_srights s) (mps_pdrequest s) (mps_nsrequest s))
    end).

Definition pset_move (st : rstate S) (port nset : Z) : option (rstate S * (kern_return + unit)) :=
  LET (w1, moved) <- ipc_pset_move port nset (r_world st) ;;
  Some (with_world w1 st, match moved with Some _ => inr tt | None => inl KERN_NOT_IN_SET end).

Definition mach_port_move_member (null : bool) (st : rstate S) (member after : Z) : option (rstate S * (kern_return + unit)) :=
  if null then Some (st, inl KERN_INVALID_TASK)
  else on_name st member (fun st1 ref =>
    LET v <- cs_entry (r_space st1) ref ;;
    if negb (bit (ev_bits v) MACH_PORT_TYPE_RECEIVE) then Some (st1, inl KERN_INVALID_RIGHT)
    else
      let port := ev_object v in
      ASSERT negb (port =? IP_NULL) ;;
      if after =? MACH_PORT_NULL then pset_move st1 port IPS_NULL
      else
        LET (s2, found) <- cs_lookup (r_space st1) after ;;
        let st2 := with_space s2 st1 in
        match found with
        | None => Some (st2, inl KERN_INVALID_NAME)
        | Some ref2 =>
            LET v2 <- cs_entry s2 ref2 ;;
            if negb (bit (ev_bits v2) MACH_PORT_TYPE_PORT_SET) then Some (st2, inl KERN_INVALID_RIGHT)
            else
              ASSERT negb (ev_object v2 =? IPS_NULL) ;;
              pset_move st2 port (ev_object v2)
        end).

(** ** Notifications *)

(** Returns the send-once right that was registered. *)
Definition mach_port_request_notification (null : bool) (envs : list (@retry_env S)) (st : rstate S)
    (name id sync notify : Z) : option (rstate S * (kern_return + Z)) :=
  if null then Some (st, inl KERN_INVALID_TASK)
  else if notify =? IP_DEAD then Some (st, inl KERN_INVALID_CAPABILITY)
  else if id =? MACH_NOTIFY_PORT_DESTROYED then
    if negb (sync =? 0) then Some (st, inl KERN_INVALID_VALUE)
    else on_receive st name (fun st1 port =>
      LET (w2, previous) <- ipc_port_pdrequest port notify (r_world st1) ;;
      (* a send right can't be returned in the reply message *)
      if negb (previous =? IP_NULL) && ip_pdsendp previous then
        LET w3 <- ipc_port_release_send (ip_pdsend previous) w2 ;;
        Some (with_world w3 st1, inr IP_NULL)
      else Some (with_world w2 st1, inr previous))
  else if id =? MACH_NOTIFY_NO_SENDERS then
    on_receive st name (fun st1 port =>
      LET (w2, previous) <- ipc_port_nsrequest port sync notify (r_world st1) ;;
      Some (with_world w2 st1, inr previous))
  else if id =? MACH_NOTIFY_DEAD_NAME then
    ipc_right_dnrequest dits envs st name (negb (sync =? 0)) notify
  else Some (st, inl KERN_INVALID_VALUE).

(** ** Rights of other tasks *)

Definition mach_port_insert_right (null : bool) (env : obj_env) (st : rstate S) (name poly polyPoly : Z)
    : option (rstate S * (kern_return + unit)) :=
  if null then Some (st, inl KERN_INVALID_TASK)
  else if negb (MACH_PORT_VALID name) || negb (MACH_MSG_TYPE_PORT_ANY_RIGHT polyPoly) then
    Some (st, inl KERN_INVALID_VALUE)
  else if negb (IP_VALID poly) then Some (st, inl KERN_INVALID_CAPABILITY)
  else
    LET msgt_name <- msg_type_of polyPoly ;;
    no_value (ipc_object_copyout_name env st poly msgt_name false name).

(** The object and the type of the right. *)
Definition mach_port_extract_right (null : bool) (st : rstate S) (name msgt_name : Z)
    : option (rstate S * (kern_return + Z * mach_msg_type_name)) :=
  if null then Some (st, inl KERN_INVALID_TASK)
  else if negb (MACH_MSG_TYPE_PORT_ANY msgt_name) then Some (st, inl KERN_INVALID_VALUE)
  else
    LET mt <- msg_type_of msgt_name ;;
    LET (st1, res) <- ipc_object_copyin st name mt ;;
    Some (st1, match res with inl kr => inl kr | inr object => inr (object, ipc_object_copyin_type mt) end).
End MachPort.
