(* ===== verification/MachPortNames.v ===== *)
(** * Listing names and members of sets (ipc/mach_port.c)

    [mach_port_names] and [mach_port_get_set_status] walk over the table and the
    splay tree of a space and write into kernel memory that they allocate
    without the lock, before they know how much they need.  The memory is an
    array of words, so that a write past its end has no result; what the call
    holds of the kernel map is a [region], so that memory freed twice has none.
    [vm_map_pageable], which succeeds on memory just allocated, is left out. *)

From S2P Require Import Prelude PortName IpcSplay IpcTable IpcTypes IpcHash IpcEntry.
From S2P Require Import IpcMqueue IpcPort IpcWorld IpcPortOps IpcSpaceInv IpcCap IpcCapSpace.
From S2P Require Import IpcRight IpcRightCopy.

(** ** Kernel memory *)

(** The bytes of an allocation that the call still holds, from its address. *)
Record region := mk_region { rg_lo : Z; rg_hi : Z }.

Definition no_region : region := mk_region 0 0.

(** [kmem_free(map, addr + off, len)]; also what [vm_map_copyin] with
    [src_destroy] does to the source. *)
Definition kmem_free (off len : Z) (r : region) : option region :=
  ASSERT (0 <? len) && (rg_lo r <=? off) && (off + len <=? rg_hi r) ;;
  if off =? rg_lo r then Some (mk_region (off + len) (rg_hi r))
  else
    ASSERT off + len =? rg_hi r ;;
    Some (mk_region (rg_lo r) off).

(** Zero-filled words. *)
Definition new_words (size : Z) : list Z := replicate (Z.to_nat (size / 4)) 0.

Definition store_word (t : list Z) (i x : Z) : option (list Z) :=
  LET _ <- aget t i ;; Some (aset t i x).

Section Names.
Context `{PC : PortConfig}.
(** [ipc_table_entries], and [PAGE_MASK]. *)
Variables (its : list Z) (PAGE_MASK : Z).

#[local] Instance names_space : CapSpace kstate := kstate_space its.

Definition PAGE_SIZE : Z := PAGE_MASK + 1.

Definition round_page (x : Z) : Z := Z.ldiff (u32 (x + PAGE_MASK)) PAGE_MASK.

(** The memory of a result: what is used is handed over, the rest is freed. *)
Definition hand_over (actual size : Z) (r : region) : option region :=
  if actual =? 0 then
    if negb (size =? 0) then kmem_free 0 size r else Some r
  else
    let size_used := round_page (u32 (actual * 4)) in
    LET r1 <- kmem_free 0 size_used r ;;
    if negb (size_used =? size) then kmem_free size_used (size - size_used) r1 else Some r1.

(** ** Walking over a space *)

Definition tree_view (te : ipc_tree_entry) : eview := mk_view (ite_bits te) (ite_object te) (ite_request te).

(** The loop over the table. *)
Definition walk_table {B : Type} (table : list ipc_entry) (tsize : Z) (f : Z -> eview -> B -> option B)
    (b : B) : option B :=
  for_up (Z.to_nat tsize) 0
    (fun index b => LET entry <- aget table index ;;
                    f (MACH_PORT_MAKEB index (ie_bits entry)) (view_of entry) b) b.

(** The loop over the tree. *)
Definition walk_tree {B : Type} (tree : ipc_splay_tree ipc_tree_entry) (f : Z -> eview -> B -> option B)
    (b : B) : option (B * ipc_splay_tree ipc_tree_entry) :=
  LET (res, tree') <- splay_for_each (fun acc name te =>
      (LET b <- acc ;;
       ASSERT negb (IE_BITS_TYPE (ite_bits te) =? MACH_PORT_TYPE_NONE) ;;
       f name (tree_view te) b, false)) (Some b) tree ;;
  LET b' <- res ;;
  Some (b', tree').

Definition walk_space {B : Type} (sp : ipc_space) (f g : Z -> eview -> B -> option B) (b : B)
    : option (B * ipc_space) :=
  LET b1 <- walk_table (is_table sp) (is_table_size sp) f b ;;
  LET (b2, tree) <- walk_tree (is_tree sp) g b1 ;;
  Some (b2, sp_set_tree tree sp).

(** ** Names and types *)

Record names_buf := mk_buf { nb_names : list Z; nb_types : list Z; nb_actual : Z }.

Definition mach_port_names_helper (w : world) (timestamp : Z) (name : Z) (entry : eview) (buf : names_buf)
    : option names_buf :=
  let put (bits request : Z) :=
    let type := IE_BITS_TYPE bits in
    let type1 :=
      if bit bits IE_BITS_COMPAT then Z.lor type MACH_PORT_TYPE_COMPAT
      else if negb (request =? 0) then Z.lor type MACH_PORT_TYPE_DNREQUEST else type in
    let type2 := if bit bits IE_BITS_MAREQUEST then Z.lor type1 MACH_PORT_TYPE_MAREQUEST else type1 in
    let actual := nb_actual buf in
    LET names <- store_word (nb_names buf) actual name ;;
    LET types <- store_word (nb_types buf) actual type2 ;;
    Some (mk_buf names types (u32 (actual + 1))) in
  let bits := ev_bits entry in
  let request := ev_request entry in
  if bit bits MACH_PORT_TYPE_SEND_RIGHTS then
    let port := ev_object entry in
    ASSERT negb (port =? IP_NULL) ;;
    LET q <- w_ports w !! port ;;
    (* if the port died after mach_port_names started, pretend that it isn't dead *)
    let died := negb (ip_active q) && IP_TIMESTAMP_ORDER (ip_timestamp q) timestamp in
    if died then
      if bit bits IE_BITS_COMPAT then Some buf
      else
        (* pretend this is a dead-name entry *)
        let bits1 := Z.lor (Z.ldiff bits (Z.lor IE_BITS_TYPE_MASK IE_BITS_MAREQUEST)) MACH_PORT_TYPE_DEAD_NAME in
        put (if negb (request =? 0) then u32 (bits1 + 1) else bits1) 0
    else put bits request
  else put bits request.

(** What happens while the space is unlocked, and whether the two allocations
    succeed. *)
Record names_env := mk_names_env {
  ne_window : rstate kstate -> rstate kstate;
  ne_memory1 : bool;
  ne_memory2 : bool
}.

Record names_mem := mk_mem { nm_names : region; nm_types : region }.

Definition free_both (size : Z) (m : names_mem) : option names_mem :=
  if negb (size =? 0) then
    LET r1 <- kmem_free 0 size (nm_names m) ;;
    LET r2 <- kmem_free 0 size (nm_types m) ;;
    Some (mk_mem r1 r2)
  else Some m.

(** The first loop: memory for as many names as there can be.  Returns with the
    space locked and the size of the memory. *)
Fixpoint names_memory (envs : list names_env) (st : rstate kstate) (size : Z) (m : names_mem)
    : option (rstate kstate * names_mem * (kern_return + Z)) :=
  let sp := k_space (r_space st) in
  if negb (is_active sp) then
    LET m1 <- free_both size m ;;
    Some (st, m1, inl KERN_INVALID_TASK)
  else
    (* upper bound on number of names in the space *)
    let bound := u32 (is_table_size sp + is_tree_total sp) in
    let size_needed := round_page (u32 (bound * 4)) in
    if size_needed <=? size then Some (st, m, inr size)
    else
      match envs with
      | [] => None
      | e :: envs' =>
          LET m1 <- free_both size m ;;
          let st1 := ne_window e st in
          if negb (ne_memory1 e) then Some (st1, m1, inl KERN_RESOURCE_SHORTAGE)
          else
            let r1 := mk_region 0 size_needed in
            if negb (ne_memory2 e) then
              LET r1' <- kmem_free 0 size_needed r1 ;;
              Some (st1, mk_mem r1' (nm_types m1), inl KERN_RESOURCE_SHORTAGE)
            else names_memory envs' st1 size_needed (mk_mem r1 (mk_region 0 size_needed))
      end.

(** The walk: a free entry of the table has no name. *)
Definition names_walk (w : world) (timestamp size : Z) (sp : ipc_space) : option (names_buf * ipc_space) :=
  walk_space sp
    (fun name entry buf =>
       if negb (ev_type entry =? MACH_PORT_TYPE_NONE)
       then mach_port_names_helper w timestamp name entry buf else Some buf)
    (mach_port_names_helper w timestamp)
    (mk_buf (new_words size) (new_words size) 0).

(** The names and the types. *)
Definition mach_port_names (null : bool) (envs : list names_env) (st : rstate kstate)
    : option (rstate kstate * names_mem * (kern_return + (list Z * list Z))) :=
  let m0 := mk_mem no_region no_region in
  if null then Some (st, m0, inl KERN_INVALID_TASK)
  else
    LET (st1, m1, res) <- names_memory envs st 0 m0 ;;
    match res with
    | inl kr => Some (st1, m1, inl kr)
    | inr size =>
        let '(w2, timestamp) := ipc_port_timestamp (r_world st1) in
        LET (buf, sp2) <- names_walk w2 timestamp size (k_space (r_space st1)) ;;
        let actual := nb_actual buf in
        LET r1 <- hand_over actual size (nm_names m1) ;;
        LET r2 <- hand_over actual size (nm_types m1) ;;
        Some (mk_rstate (mk_kstate sp2 (k_ghash (r_space st1))) w2, mk_mem r1 r2,
              inr (take (Z.to_nat actual) (nb_names buf), take (Z.to_nat actual) (nb_types buf)))
    end.

(** ** Members of a port set *)

(** Counts the members that do not fit. *)
Definition mach_port_gst_helper (w : world) (pset maxnames : Z) (port : Z) (b : list Z * Z) : option (list Z * Z) :=
  let '(names, actual) := b in
  ASSERT negb (port =? IP_NULL) ;;
  LET q <- w_ports w !! port ;;
  ASSERT ip_active q ;;
  let name := ip_receiver_name q in
  ASSERT negb (name =? MACH_PORT_NULL) ;;
  if pset =? ip_pset q then
    LET names1 <- (if actual <? maxnames then store_word names actual name else Some names) ;;
    Some (names1, u32 (actual + 1))
  else Some b.

Definition gst_walk (w : world) (pset maxnames : Z) (names : list Z) (sp : ipc_space)
    : option (list Z * Z * ipc_space) :=
  let body (_ : Z) (entry : eview) (b : list Z * Z) :=
    if bit (ev_bits entry) MACH_PORT_TYPE_RECEIVE
    then mach_port_gst_helper w pset maxnames (ev_object entry) b else Some b in
  walk_space sp body body (names, 0).

(** What happens before the space is locked, and whether there is memory. *)
Record gst_env := mk_gst_env { ge_window : rstate kstate -> rstate kstate; ge_memory : bool }.

Fixpoint gst_loop (envs : list gst_env) (st : rstate kstate) (name size : Z)
    : option (rstate kstate * region * (kern_return + list Z)) :=
  match envs with
  | [] => None
  | e :: envs' =>
      let st1 := ge_window e st in
      if negb (ge_memory e) then Some (st1, no_region, inl KERN_RESOURCE_SHORTAGE)
      else
        let r := mk_region 0 size in
        LET (st2, res) <- ipc_right_lookup_write st1 name ;;
        match res with
        | inl kr => LET r1 <- kmem_free 0 size r ;; Some (st2, r1, inl kr)
        | inr ref =>
            LET entry <- cs_entry (r_space st2) ref ;;
            if negb (ev_type entry =? MACH_PORT_TYPE_PORT_SET) then
              LET r1 <- kmem_free 0 size r ;; Some (st2, r1, inl KERN_INVALID_RIGHT)
            else
              let pset := ev_object entry in
              ASSERT negb (pset =? IPS_NULL) ;;
              let maxnames := size / 4 in
              LET (names, actual, sp3) <-
                gst_walk (r_world st2) pset maxnames (new_words size) (k_space (r_space st2)) ;;
              let st3 := mk_rstate (mk_kstate sp3 (k_ghash (r_space st2))) (r_world st2) in
              if actual <=? maxnames then
                LET r1 <- hand_over actual size r ;;
                Some (st3, r1, inr (take (Z.to_nat actual) names))
              else
                (* didn't have enough memory; allocate more *)
                LET _ <- kmem_free 0 size r ;;
                gst_loop envs' st3 name (u32 (round_page (u32 (actual * 4)) + PAGE_SIZE))
        end
  end.

Definition mach_port_get_set_status (null : bool) (envs : list gst_env) (st : rstate kstate) (name : Z)
    : option (rstate kstate * region * (kern_return + list Z)) :=
  if null then Some (st, no_region, inl KERN_INVALID_TASK)
  else gst_loop envs st name PAGE_SIZE.
End Names.
