(* ===== verification/IpcItems.v ===== *)
(** * The entries of a space in the order of a walk

    Routines that list a space go over its table and then over its tree.  The
    entries they meet, [items], are the capabilities of the space, each once, and
    a walk that stops at no entry is a fold over them. *)

From S2P Require Import Prelude PortName IpcSplay IpcTable IpcTypes IpcHash IpcEntry.
From S2P Require Import IpcSpaceInv IpcCap IpcCapSpace MachPortNames.

(** ** Lists *)

Lemma NoDup_omap_keys {A B} (f : A -> option (Z * B)) l : NoDup l ->
  (forall x y p q, x ∈ l -> y ∈ l -> f x = Some p -> f y = Some q -> p.1 = q.1 -> x = y) ->
  NoDup (omap f l).*1.
Proof.
  induction 1 as [|x l Hx Hl IH]; intros Hinj; [constructor|].
  assert (NoDup (omap f l).*1) as Hl' by (apply IH; intros; eapply Hinj; eauto using list_elem_of_further).
  cbn. destruct (f x) as [p|] eqn:E; [|done]. cbn. constructor; [|done].
  intros (q & Hq & Hin)%list_elem_of_fmap. apply list_elem_of_omap in Hin as (y & Hy & Hf).
  assert (x = y) as <-; [|done]. apply (Hinj x y p q); [apply list_elem_of_here|by apply list_elem_of_further|done..].
Qed.

Lemma length_omap_le {A B} (f : A -> option B) l : (length (omap f l) <= length l)%nat.
Proof. induction l as [|x l IH]; cbn; [done|]. destruct (f x); cbn; lia. Qed.

(** A fold that may fail. *)
Fixpoint fold_opt {A B : Type} (f : A -> B -> option B) (l : list A) (b : B) : option B :=
  match l with
  | [] => Some b
  | x :: l' => LET b' <- f x b ;; fold_opt f l' b'
  end.

Lemma fold_opt_app {A B} (f : A -> B -> option B) l1 l2 b :
  fold_opt f (l1 ++ l2) b = (LET b' <- fold_opt f l1 b ;; fold_opt f l2 b').
Proof. revert b. induction l1 as [|x l1 IH]; intros b; cbn; [done|]. destruct (f x b); [apply IH|done]. Qed.

Section Items.
Context `{PC : PortConfig}.

Definition table_item (t : list ipc_entry) (i : Z) : option (Z * eview) :=
  LET e <- aget t i ;;
  if IE_BITS_TYPE (ie_bits e) =? MACH_PORT_TYPE_NONE then None
  else Some (MACH_PORT_MAKEB i (ie_bits e), view_of e).

Definition tree_item (p : Z * ipc_tree_entry) : Z * eview := (p.1, tree_view p.2).

Definition table_items (t : list ipc_entry) (n : Z) : list (Z * eview) := omap (table_item t) (seqZ 0 n).

Definition items (sp : ipc_space) : list (Z * eview) :=
  table_items (is_table sp) (is_table_size sp) ++ (tree_item <$> splay_elems (is_tree sp)).

(** ** Walks *)

Section Walk.
Context {B : Type} (f g : Z -> eview -> B -> option B).
Hypothesis Hfree : forall n v b, ev_type v = MACH_PORT_TYPE_NONE -> f n v b = Some b.
Hypothesis Hsame : forall n v b, ev_type v <> MACH_PORT_TYPE_NONE -> f n v b = g n v b.

Let step (p : Z * eview) (b : B) : option B := g p.1 p.2 b.

Lemma for_table_items t count lo b : 0 <= lo -> lo + Z.of_nat count <= alen t ->
  for_up count lo (fun i b => LET e <- aget t i ;; f (MACH_PORT_MAKEB i (ie_bits e)) (view_of e) b) b =
  fold_opt step (omap (table_item t) (seqZ lo (Z.of_nat count))) b.
Proof using Hfree Hsame.
  revert lo b. induction count as [|count IH]; intros lo b Hlo Hn; [done|].
  rewrite Nat2Z.inj_succ, seqZ_cons by lia. cbn [for_up omap list_omap]. unfold table_item at 1.
  destruct (aget_is_Some t lo) as [e He]; [lia|]. rewrite He.
  rewrite Z.add_1_r, Z.pred_succ. rewrite <- Z.add_1_r. zcase.
  - rewrite Hfree by done. apply IH; lia.
  - cbn [fold_opt]. unfold step at 1. cbn [fst snd]. rewrite Hsame by done.
    destruct (g _ _ b); [|done]. apply IH; lia.
Qed.

Lemma visit_items l acc : Forall (fun p => IE_BITS_TYPE (ite_bits p.2) <> MACH_PORT_TYPE_NONE) l ->
  visit (fun acc n te =>
    (LET b <- acc ;;
     ASSERT negb (IE_BITS_TYPE (ite_bits te) =? MACH_PORT_TYPE_NONE) ;;
     g n (tree_view te) b, false)) acc l =
  (LET b <- acc ;; fold_opt step (tree_item <$> l) b, l).
Proof using.
  intros Hl. revert acc. induction Hl as [|[n te] l Ht Hl IH]; intros acc; cbn; [by destruct acc|].
  rewrite IH. cbn in Ht. rewrite (proj2 (Z.eqb_neq _ _) Ht). by destruct acc.
Qed.

Lemma walk_space_items sp b : splay_wf (is_tree sp) -> alen (is_table sp) = is_table_size sp ->
  (forall n te, (n, te) ∈ splay_elems (is_tree sp) -> IE_BITS_TYPE (ite_bits te) <> MACH_PORT_TYPE_NONE) ->
  exists sp', resplays sp sp' /\
    walk_space sp f g b = (LET b' <- fold_opt step (items sp) b ;; Some (b', sp')).
Proof using Hfree Hsame.
  intros Hwf Hl Ht. unfold walk_space, walk_table, walk_tree.
  rewrite for_table_items by (rewrite ?Z2Nat.id; pose proof (alen_nonneg (is_table sp)); lia).
  rewrite Z2Nat.id by (pose proof (alen_nonneg (is_table sp)); lia).
  unfold items. rewrite fold_opt_app. fold (table_items (is_table sp) (is_table_size sp)).
  destruct (splay_for_each_correct (fun acc n te =>
    (LET b <- acc ;; ASSERT negb (IE_BITS_TYPE (ite_bits te) =? MACH_PORT_TYPE_NONE) ;; g n (tree_view te) b, false))
    None (is_tree sp) Hwf) as (tr0 & _).
  destruct (fold_opt step (table_items _ _) b) as [b1|].
  2:{ exists sp. split; [by apply resplays_refl|done]. }
  destruct (splay_for_each_correct (fun acc n te =>
    (LET b <- acc ;; ASSERT negb (IE_BITS_TYPE (ite_bits te) =? MACH_PORT_TYPE_NONE) ;; g n (tree_view te) b, false))
    (Some b1) (is_tree sp) Hwf) as (tr & -> & Hw & He).
  rewrite visit_items in He |- * by (apply Forall_forall; intros [n te]; apply Ht). cbn [fst snd] in *.
  exists (sp_set_tree tr sp). split; [by exists tr|]. by destruct (fold_opt step (tree_item <$> _) b1).
Qed.
End Walk.

(** ** Items and capabilities *)

Variable its : list Z.
Hypothesis Hits : entries_sizes_ok its.
Variable st : kstate.
Hypothesis Hwf : space_wf its None st.
Let sp := k_space st.

Lemma table_index i e : aget (is_table sp) i = Some e -> is_index i /\ is_u32 (ie_bits e).
Proof using Hits Hwf.
  intros He. split; [|by apply (wf_table _ _ _ Hwf i e He)].
  destruct (wf_sizes _ _ _ Hwf) as (Hl & Ha & _). apply aget_Some_range in He.
  apply entries_sizes_range in Ha; [|done]. unfold sp in He. unfold is_index. lia.
Qed.

Lemma makeb_parts i e : aget (is_table sp) i = Some e ->
  MACH_PORT_INDEX (MACH_PORT_MAKEB i (ie_bits e)) = i /\
  MACH_PORT_GEN (MACH_PORT_MAKEB i (ie_bits e)) = IE_BITS_GEN (ie_bits e).
Proof using Hits Hwf.
  intros [Hi Hu]%table_index. unfold MACH_PORT_MAKEB.
  split; [apply index_make|apply gen_make]; auto using is_gen_bits.
Qed.

Lemma tree_elem_lookup n te : (n, te) ∈ splay_elems (is_tree sp) <-> tree_map sp !! n = Some te.
Proof using Hwf.
  unfold tree_map, splay_map. symmetry. rewrite <- elem_of_list_to_map; [done|].
  apply keys_sorted_NoDup, splay_wf_sorted, (wf_splay _ _ _ Hwf).
Qed.

Lemma tree_elem_type n te : (n, te) ∈ splay_elems (is_tree sp) -> IE_BITS_TYPE (ite_bits te) <> MACH_PORT_TYPE_NONE.
Proof using Hwf.
  intros Hte%tree_elem_lookup Ht. destruct (wf_tree _ _ _ Hwf _ _ Hte) as (_ & _ & _ & Ho). by discriminate (Ho Ht).
Qed.

Lemma elem_table_item n v : (n, v) ∈ table_items (is_table sp) (is_table_size sp) <->
  exists e, aget (is_table sp) (MACH_PORT_INDEX n) = Some e /\ IE_BITS_TYPE (ie_bits e) <> MACH_PORT_TYPE_NONE /\
    IE_BITS_GEN (ie_bits e) = MACH_PORT_GEN n /\ v = view_of e.
Proof using Hits Hwf.
  unfold table_items. rewrite list_elem_of_omap. setoid_rewrite elem_of_seqZ. unfold table_item. split.
  - intros (i & Hi & H). destruct (aget (is_table sp) i) as [e|] eqn:E; [|done].
    destruct (makeb_parts i e E) as [Hx Hg]. revert H. zcase; [done|]. intros [= <- <-].
    exists e. by rewrite Hx, Hg.
  - intros (e & He & Ht & Hg & ->). exists (MACH_PORT_INDEX n).
    split; [apply aget_Some_range in He; destruct (wf_sizes _ _ _ Hwf) as [Hl _]; fold sp in Hl; lia|].
    rewrite He, (proj2 (Z.eqb_neq _ _) Ht). destruct (makeb_parts _ _ He) as [Hx Hg'].
    do 2 f_equal. apply index_gen_inj; congruence.
Qed.

Lemma elem_tree_item n v : (n, v) ∈ tree_item <$> splay_elems (is_tree sp) <->
  exists te, tree_map sp !! n = Some te /\ v = tree_view te.
Proof using Hwf.
  rewrite list_elem_of_fmap. split.
  - intros ([n' te] & [= -> ->] & H%tree_elem_lookup). by exists te.
  - intros (te & H & ->). exists (n, te). split; [done|]. by apply tree_elem_lookup.
Qed.

(** An item is the entry of its name. *)
Lemma item_ref n v : (n, v) ∈ items sp ->
  exists ref, ref_for sp n ref /\ view_of <$> get_entry sp ref = Some v /\ ev_type v <> MACH_PORT_TYPE_NONE.
Proof using Hits Hwf.
  unfold items. rewrite elem_of_app, elem_table_item, elem_tree_item. intros [(e & He & Ht & Hg & ->)|(te & Hte & ->)].
  - exists (InTable (MACH_PORT_INDEX n)). split_and!; [left; eauto|cbn; by rewrite He|done].
  - exists (InTree n). split_and!; [right; by rewrite Hte|by rewrite get_entry_tree, Hte|].
    by eapply tree_elem_type, tree_elem_lookup.
Qed.

Lemma item_cap n v : (n, v) ∈ items sp -> space_caps sp n = Some (the_cap v).
Proof using Hits Hwf.
  intros (ref & Hr & Hv & Ht)%item_ref. rewrite (ref_for_caps sp _ _ (wf_collisions _ _ _ Hwf) Hr).
  destruct (get_entry sp ref) as [e|]; [|done]. injection Hv as <-. cbn. unfold entry_cap, cap_of.
  by rewrite (proj2 (Z.eqb_neq (IE_BITS_TYPE (ie_bits e)) _) Ht).
Qed.

Lemma cap_item n cap : space_caps sp n = Some cap -> exists v, (n, v) ∈ items sp /\ cap = the_cap v.
Proof using Hits Hwf.
  intros H. unfold items. setoid_rewrite elem_of_app. setoid_rewrite elem_table_item. setoid_rewrite elem_tree_item.
  assert ((tree_map sp !! n ≫= tentry_cap) = Some cap ->
    exists te, tree_map sp !! n = Some te /\ cap = the_cap (tree_view te)) as Htr.
  { destruct (tree_map sp !! n) as [te|]; [|done]. cbn. unfold tentry_cap, cap_of. zcase; [done|].
    intros [= <-]. by exists te. }
  unfold space_caps, caps in H. destruct (aget _ _) as [e|] eqn:E; [|naive_solver].
  destruct (Z.eqb_spec (IE_BITS_GEN (ie_bits e)) (MACH_PORT_GEN n)) as [Hg|Hg]; [|naive_solver].
  unfold entry_cap, cap_of in H. revert H. zcase; [done|]. intros [= <-]. exists (view_of e).
  split; [|done]. left. by exists e.
Qed.

Lemma items_NoDup : NoDup (items sp).*1.
Proof using Hits Hwf.
  unfold items. rewrite fmap_app. apply NoDup_app. split_and!.
  - apply NoDup_omap_keys; [apply NoDup_seqZ|]. intros i j p q _ _ Hp Hq Heq. revert Hp Hq. unfold table_item.
    destruct (aget _ i) as [ei|] eqn:Ei, (aget _ j) as [ej|] eqn:Ej; [|done..].
    do 2 zcase; try done. intros [= <-] [= <-]. cbn in Heq.
    rewrite <- (proj1 (makeb_parts i ei Ei)), <- (proj1 (makeb_parts j ej Ej)). by rewrite Heq.
  - intros n ([n1 v1] & -> & H1)%list_elem_of_fmap ([n2 v2] & Heq & H2)%list_elem_of_fmap. cbn in Heq. subst n2.
    apply elem_table_item in H1 as (e & He & _ & Hg & _). apply elem_tree_item in H2 as (te & Hte & _).
    destruct (wf_collisions _ _ _ Hwf _ _ He) as [_ Hc]. fold sp in Hc. by apply (Hc n1); rewrite ?Hte.
  - rewrite <- list_fmap_compose. apply keys_sorted_NoDup, splay_wf_sorted, (wf_splay _ _ _ Hwf).
Qed.

Lemma items_length : Z.of_nat (length (items sp)) <= is_table_size sp + is_tree_total sp.
Proof using Hwf.
  unfold items, table_items. rewrite length_app, length_fmap, (wf_total _ _ _ Hwf : is_tree_total sp = _). fold sp.
  pose proof (length_omap_le (table_item (is_table sp)) (seqZ 0 (is_table_size sp))) as Hl. rewrite length_seqZ in Hl.
  destruct (wf_sizes _ _ _ Hwf) as [Hs _]. fold sp in Hs. pose proof (alen_nonneg (is_table sp)).
  assert (length (splay_elems (is_tree sp)) = size (tree_map sp)) as Htot; [|lia].
  unfold tree_map, splay_map. rewrite map_size_list_to_map; [done|].
  apply keys_sorted_NoDup, splay_wf_sorted, (wf_splay _ _ _ Hwf).
Qed.
End Items.
