(* ===== verification/MachPortNamesSpec.v ===== *)
(** * Listing names: correctness

    The list that [mach_port_names] returns is the capability map of the space
    at one moment, each name once with its type; the buffers are never overrun,
    and no kernel memory is lost or freed twice on any path. *)
From S2P Require Import Prelude PortName IpcSplay IpcTable IpcTypes IpcHash IpcEntry.
From S2P Require Import IpcMqueue IpcPort IpcWorld IpcPortOps IpcSpaceInv IpcCap IpcCapSpace.
From S2P Require Import IpcRight IpcRightCopy IpcRightBits IpcRightInv MachPortNames IpcItems IpcRightSteps.
From S2P Require Import IpcDealloc IpcObject MachPort.

(** ** Pages *)

Definition page_mask (mask : Z) : Prop := exists k, 2 <= k < 32 /\ mask = Z.ones k.

Section Pages.
Context (mask : Z) (Hmask : page_mask mask).

Lemma page_size_pow : exists k, 2 <= k < 32 /\ PAGE_SIZE mask = 2 ^ k.
Proof using Hmask. destruct Hmask as (k & Hk & ->). exists k. split; [done|]. unfold PAGE_SIZE. rewrite Z.ones_equiv. lia. Qed.

Lemma page_size_bounds : 4 <= PAGE_SIZE mask < wordsize /\ (4 | PAGE_SIZE mask) /\ (PAGE_SIZE mask | wordsize).
Proof using Hmask.
  destruct page_size_pow as (k & Hk & ->).
  assert (forall a b, 0 <= a <= b -> (2 ^ a | 2 ^ b)) as Hd.
  { intros a b Hab. exists (2 ^ (b - a)). rewrite <- Z.pow_add_r by lia. f_equal. lia. }
  pose proof (Z.pow_le_mono_r 2 2 k). pose proof (Z.pow_lt_mono_r 2 k 32). unfold wordsize.
  split_and!; [lia|lia|apply (Hd 2 k); lia|apply Hd; lia].
Qed.

Lemma round_page_spec x : 0 <= x -> x + mask < wordsize ->
  x <= round_page mask x < x + PAGE_SIZE mask /\ (PAGE_SIZE mask | round_page mask x).
Proof using Hmask.
  intros Hx Hm. pose proof page_size_bounds as [Hb _]. unfold round_page.
  assert (0 <= mask) by (unfold PAGE_SIZE in Hb; lia). rewrite u32_small by (split; lia).
  destruct Hmask as (k & Hk & ->). unfold PAGE_SIZE in *. rewrite Z.ones_equiv in *.
  replace (Z.pred (2 ^ k) + 1) with (2 ^ k) in * by lia.
  rewrite <- Z.ones_equiv, Z.ldiff_ones_r, Z.shiftl_mul_pow2, Z.shiftr_div_pow2, Z.ones_equiv by lia.
  pose proof (Z.div_mod (x + Z.pred (2 ^ k)) (2 ^ k)). pose proof (Z.mod_pos_bound (x + Z.pred (2 ^ k)) (2 ^ k)).
  split; [lia|]. apply Z.divide_factor_r.
Qed.

(** The rounded size is the least multiple of the page size. *)
Lemma round_page_least x y : 0 <= x -> x + mask < wordsize -> (PAGE_SIZE mask | y) -> x <= y -> round_page mask x <= y.
Proof using Hmask.
  intros Hx Hm Hd Hy. destruct (round_page_spec x Hx Hm) as [[_ Hlt] Hd'].
  pose proof page_size_bounds as [Hb _]. destruct Hd as [a ->], Hd' as [b Hr].
  rewrite Hr in Hlt |- *. assert (b < a + 1) by (apply (Z.mul_lt_mono_pos_r (PAGE_SIZE mask)); lia). nia.
Qed.

(** ** Regions *)

Definition region_empty (r : region) : Prop := rg_lo r = rg_hi r.

Lemma free_all size : 0 < size -> exists r, kmem_free 0 size (mk_region 0 size) = Some r /\ region_empty r.
Proof using.
  intros H. unfold kmem_free. cbn. rewrite (proj2 (Z.ltb_lt 0 size) H), Z.leb_refl. cbn. by eexists.
Qed.

Lemma hand_over_spec actual size : 0 <= actual -> 4 * actual <= size -> size < wordsize ->
  (PAGE_SIZE mask | size) -> exists r, hand_over mask actual size (mk_region 0 size) = Some r /\ region_empty r.
Proof using Hmask.
  intros Ha Hs Hw Hd. pose proof page_size_bounds as (Hb & _ & Hdw). unfold hand_over. zcase.
  { zcase; cbn [negb]; [by subst; eexists|]. apply free_all. lia. }
  assert (size <= wordsize - PAGE_SIZE mask) as Hle.
  { destruct Hd as [x ->], Hdw as [y Hy]. assert (x < y) by (apply (Z.mul_lt_mono_pos_r (PAGE_SIZE mask)); lia). nia. }
  rewrite (u32_small (actual * 4)) by (split; lia).
  assert (actual * 4 + mask < wordsize) as Hm by (unfold PAGE_SIZE in *; lia).
  destruct (round_page_spec (actual * 4)) as [[Hlo Hhi] _]; [lia|done|].
  assert (round_page mask (actual * 4) <= size) as Hle' by (apply round_page_least; [lia|done|done|lia]).
  set (used := round_page mask (actual * 4)) in *. unfold kmem_free at 1. cbn [rg_lo rg_hi].
  rewrite (proj2 (Z.ltb_lt 0 used)), Z.leb_refl, (proj2 (Z.leb_le (0 + used) size)) by lia. cbn [andb].
  rewrite Z.eqb_refl, Z.add_0_l. zcase; cbn [negb]; [by eexists|].
  unfold kmem_free. cbn [rg_lo rg_hi]. rewrite (proj2 (Z.ltb_lt 0 (size - used))), Z.leb_refl by lia.
  replace (used + (size - used)) with size by lia. rewrite Z.leb_refl, Z.eqb_refl. cbn. by eexists.
Qed.

Lemma alen_new_words size : 0 <= size -> alen (new_words size) = size / 4.
Proof using. intros. unfold alen, new_words. rewrite length_replicate. pose proof (Z.div_pos size 4). lia. Qed.
End Pages.

(** ** Arrays that are filled *)

(** The first words are [l]. *)
Definition filled (t l : list Z) : Prop := (length l <= length t)%nat /\ take (length l) t = l.

Lemma filled_nil t : filled t [].
Proof. split; [cbn; lia|done]. Qed.

Lemma store_filled t l x : filled t l -> (length l < length t)%nat ->
  exists t', store_word t (Z.of_nat (length l)) x = Some t' /\ length t' = length t /\ filled t' (l ++ [x]).
Proof.
  intros [_ Ht] Hlt. unfold store_word. destruct (aget_is_Some t (Z.of_nat (length l))) as [y ->]; [unfold alen; lia|].
  eexists. split; [done|]. unfold aset. case_decide; [|lia]. rewrite Nat2Z.id, length_insert. split; [done|].
  split; rewrite length_app, ?length_insert; [cbn; lia|]. cbn. rewrite Nat.add_1_r.
  rewrite (take_S_r _ _ x) by by apply list_lookup_insert_eq. by rewrite take_insert_ge, Ht by lia.
Qed.

(** ** The listing of a capability *)

(** The type shown for a capability; an old-style name whose port died is not
    shown, and other names of dead ports are dead names. *)
Definition listed_type (w : world) (timestamp : Z) (cap : capability) : option Z :=
  let died := from_option (fun q => negb (ip_active q) && IP_TIMESTAMP_ORDER (ip_timestamp q) timestamp) false
                (w_ports w !! cap_object cap) in
  let compat := bit (cap_right cap) IE_BITS_COMPAT in
  if bit (cap_type cap) MACH_PORT_TYPE_SEND_RIGHTS && died then
    if compat then None else Some MACH_PORT_TYPE_DEAD_NAME
  else
    let extra := if compat then MACH_PORT_TYPE_COMPAT
                 else if cap_request cap =? 0 then 0 else MACH_PORT_TYPE_DNREQUEST in
    let accepted := if bit (cap_right cap) IE_BITS_MAREQUEST then MACH_PORT_TYPE_MAREQUEST else 0 in
    Some (Z.lor (Z.lor (cap_type cap) extra) accepted).

Definition listed (w : world) (timestamp : Z) (p : Z * eview) : option (Z * Z) :=
  pair p.1 <$> listed_type w timestamp (the_cap p.2).

(** The buffers hold the names and types of [l], and have room for [room]. *)
Definition buf_holds (room : nat) (buf : names_buf) (l : list (Z * Z)) : Prop :=
  nb_actual buf = Z.of_nat (length l) /\
  length (nb_names buf) = room /\ length (nb_types buf) = room /\
  filled (nb_names buf) l.*1 /\ filled (nb_types buf) l.*2.

Section Names.
Context `{PC : PortConfig}.

Lemma put_holds room buf l name type : buf_holds room buf l -> (length l < room)%nat -> Z.of_nat room < wordsize ->
  exists buf', (LET names <- store_word (nb_names buf) (nb_actual buf) name ;;
                LET types <- store_word (nb_types buf) (nb_actual buf) type ;;
                Some (mk_buf names types (u32 (nb_actual buf + 1)))) = Some buf' /\
    buf_holds room buf' (l ++ [(name, type)]).
Proof using.
  intros (Ha & Hn & Ht & Hfn & Hft) Hl Hr.
  destruct (store_filled (nb_names buf) l.*1 name Hfn) as (t1 & H1 & L1 & F1); [rewrite length_fmap; lia|].
  destruct (store_filled (nb_types buf) l.*2 type Hft) as (t2 & H2 & L2 & F2); [rewrite length_fmap; lia|].
  rewrite length_fmap in H1, H2. rewrite Ha, H1, H2. eexists. split; [done|].
  unfold buf_holds. cbn [nb_actual nb_names nb_types]. rewrite length_app, !fmap_app. cbn [length fmap list_fmap fst snd].
  rewrite u32_small by (split; lia). split_and!; [lia|congruence|congruence|done|done].
Qed.

(** The expression of the code for the type, as a sum of flags. *)
Lemma type_expr bits request :
  (let type := IE_BITS_TYPE bits in
   let type1 := if bit bits IE_BITS_COMPAT then Z.lor type MACH_PORT_TYPE_COMPAT
                else if negb (request =? 0) then Z.lor type MACH_PORT_TYPE_DNREQUEST else type in
   if bit bits IE_BITS_MAREQUEST then Z.lor type1 MACH_PORT_TYPE_MAREQUEST else type1) =
  Z.lor (Z.lor (IE_BITS_TYPE bits)
           (if bit bits IE_BITS_COMPAT then MACH_PORT_TYPE_COMPAT
            else if request =? 0 then 0 else MACH_PORT_TYPE_DNREQUEST))
    (if bit bits IE_BITS_MAREQUEST then MACH_PORT_TYPE_MAREQUEST else 0).
Proof using.
  cbv zeta. destruct (bit bits IE_BITS_COMPAT), (request =? 0), (bit bits IE_BITS_MAREQUEST); cbn [negb];
    by rewrite ?Z.lor_0_r.
Qed.

(** The bits of a name of a dead port, with the user reference of a request. *)
Lemma died_bits bits request : is_u32 bits -> IE_BITS_UREFS bits < MACH_PORT_UREFS_MAX -> bit bits IE_BITS_COMPAT = false ->
  let bits1 := Z.lor (Z.ldiff bits (Z.lor IE_BITS_TYPE_MASK IE_BITS_MAREQUEST)) MACH_PORT_TYPE_DEAD_NAME in
  let bits2 := if negb (request =? 0) then u32 (bits1 + 1) else bits1 in
  IE_BITS_TYPE bits2 = MACH_PORT_TYPE_DEAD_NAME /\ bit bits2 IE_BITS_COMPAT = false /\ bit bits2 IE_BITS_MAREQUEST = false.
Proof using.
  intros Hu Hm Hc bits1.
  assert (is_u32 bits1) as Hu1 by (apply is_u32_lor; [by apply is_u32_ldiff|done]).
  assert (IE_BITS_TYPE bits1 = MACH_PORT_TYPE_DEAD_NAME) as Ht by (unfold bits1; fields).
  assert (IE_BITS_UREFS bits1 = IE_BITS_UREFS bits) as Hr by (unfold bits1; fields).
  assert (bit bits1 IE_BITS_COMPAT = false) as Hc1.
  { rewrite <- Hc. unfold bit, bits1. do 2 f_equal. fields. }
  assert (bit bits1 IE_BITS_MAREQUEST = false) as Hq1.
  { unfold bit, bits1. replace (Z.land _ _) with 0; [done|]. symmetry. fields. }
  assert (0 <= IE_BITS_UREFS bits1 + 1 <= MACH_PORT_UREFS_MAX) as Hd by (pose proof (urefs_range bits); lia).
  destruct (request =? 0); cbn [negb]; [done|].
  split_and!; [by rewrite add_urefs_type|by rewrite add_urefs_bit|by rewrite add_urefs_bit].
Qed.

(** A port right has room for one more user reference. *)
Lemma entry_ok_port self w n v : entry_ok self w n v -> bit (ev_type v) MACH_PORT_TYPE_SEND_RIGHTS = true ->
  ev_object v <> IP_NULL /\ is_Some (w_ports w !! ev_object v) /\ urefs v < MACH_PORT_UREFS_MAX.
Proof using.
  intros [Ht _ _ _ _ _|s Ht _ _ _ _ _ _|q Ho Hq _ Hr] Hb; [by rewrite Ht in Hb|by rewrite Ht in Hb|].
  split_and!; [done|by eexists|]. destruct Hr as [_ Hu _|_ Hu _ _|_ Hu _|_ Hu _ _]; [lia|rewrite Hu|rewrite Hu|lia]; done.
Qed.

Lemma helper_holds self w ts room n v buf l : entry_ok self w n v -> is_u32 (ev_bits v) ->
  buf_holds room buf l -> (length l < room)%nat -> Z.of_nat room < wordsize ->
  exists buf', mach_port_names_helper w ts n v buf = Some buf' /\
    buf_holds room buf' (l ++ option_list (listed w ts (n, v))).
Proof using.
  intros Hok Hu Hb Hl Hr. unfold mach_port_names_helper, listed, listed_type, cap_type. cbn [the_cap cap_right cap_object cap_request fst snd].
  rewrite right_type, !bit_right by done. fold (ev_type v). rewrite (bit_ev_type v MACH_PORT_TYPE_SEND_RIGHTS) by done.
  assert (forall b r t, Z.lor (Z.lor (IE_BITS_TYPE b)
             (if bit b IE_BITS_COMPAT then MACH_PORT_TYPE_COMPAT else if r =? 0 then 0 else MACH_PORT_TYPE_DNREQUEST))
           (if bit b IE_BITS_MAREQUEST then MACH_PORT_TYPE_MAREQUEST else 0) = t ->
    exists buf', (LET names <- store_word (nb_names buf) (nb_actual buf) n ;;
                  LET types <- store_word (nb_types buf) (nb_actual buf)
                    (let type := IE_BITS_TYPE b in
                     let type1 := if bit b IE_BITS_COMPAT then Z.lor type MACH_PORT_TYPE_COMPAT
                       else if negb (r =? 0) then Z.lor type MACH_PORT_TYPE_DNREQUEST else type in
                     if bit b IE_BITS_MAREQUEST then Z.lor type1 MACH_PORT_TYPE_MAREQUEST else type1) ;;
                  Some (mk_buf names types (u32 (nb_actual buf + 1)))) = Some buf' /\
      buf_holds room buf' (l ++ [(n, t)])) as Hput.
  { intros b r t <-. rewrite type_expr. by apply put_holds. }
  destruct (bit (ev_type v) MACH_PORT_TYPE_SEND_RIGHTS) eqn:Hs; cbn [andb]; [|by apply Hput].
  destruct (entry_ok_port _ _ _ _ Hok Hs) as (Ho & [q Hq] & Hm). rewrite (proj2 (Z.eqb_neq _ _) Ho), Hq. cbn [negb from_option].
  destruct (negb (ip_active q) && _); [|by apply Hput].
  destruct (bit (ev_bits v) IE_BITS_COMPAT) eqn:Hc; cbn [option_list fmap option_fmap option_map].
  { exists buf. by rewrite app_nil_r. }
  destruct (died_bits (ev_bits v) (ev_request v) Hu Hm Hc) as (Ht & Hc' & Hq').
  apply Hput. by rewrite Ht, Hc', Hq'.
Qed.

Lemma names_fold self w ts room l : Forall (fun p => entry_ok self w p.1 p.2 /\ is_u32 (ev_bits p.2)) l ->
  Z.of_nat room < wordsize -> forall buf done, buf_holds room buf done -> (length done + length l <= room)%nat ->
  exists buf', fold_opt (fun p b => mach_port_names_helper w ts p.1 p.2 b) l buf = Some buf' /\
    buf_holds room buf' (done ++ omap (listed w ts) l).
Proof using.
  intros Hl Hr. induction Hl as [|[n v] l [Hok Hu] Hl IH]; intros buf done Hb Hlen; cbn [fold_opt omap list_omap].
  { exists buf. by rewrite app_nil_r. }
  destruct (helper_holds self w ts room n v buf done Hok Hu Hb) as (buf1 & H1 & Hb1); [cbn in Hlen; lia|done|].
  cbn [fst snd]. rewrite H1.
  destruct (IH buf1 _ Hb1) as (buf2 & H2 & Hb2).
  { rewrite length_app. cbn in Hlen. destruct (listed w ts (n, v)); cbn; lia. }
  exists buf2. split; [done|]. rewrite <- app_assoc in Hb2. by destruct (listed w ts (n, v)).
Qed.

(** ** The walk *)

Variable its : list Z.
Hypothesis Hits : entries_sizes_ok its.

(** The names and types a listing shows are those of the capabilities. *)
Definition lists (w : world) (ts : Z) (sp : ipc_space) (names types : list Z) : Prop :=
  length types = length names /\ NoDup names /\
  forall n t, (n, t) ∈ zip names types <->
    exists cap, space_caps sp n = Some cap /\ listed_type w ts cap = Some t.

Lemma walk_lists st w ts size c : space_wf its None st -> caps_are st c ->
  rights_ok (is_self (k_space st)) w c -> 0 <= size < wordsize ->
  4 * (is_table_size (k_space st) + is_tree_total (k_space st)) <= size ->
  exists buf sp', names_walk w ts size (k_space st) = Some (buf, sp') /\ resplays (k_space st) sp' /\
    0 <= nb_actual buf /\ 4 * nb_actual buf <= size /\
    lists w ts (k_space st) (take (Z.to_nat (nb_actual buf)) (nb_names buf))
      (take (Z.to_nat (nb_actual buf)) (nb_types buf)).
Proof using Hits.
  intros Hwf Hc Hr Hsz Hb. set (sp := k_space st) in *.
  assert (Forall (fun p => entry_ok (is_self sp) w p.1 p.2 /\ is_u32 (ev_bits p.2)) (items sp)) as Hall.
  { apply Forall_forall. intros [n v] Hin. pose proof (item_cap its Hits st Hwf n v Hin) as Hcap.
    destruct (item_ref its Hits st Hwf n v Hin) as (ref & Href & Hv & Ht).
    rewrite <- Hc in Hcap. split; [by apply entry_ok_cap, (ro_caps _ _ _ Hr)|].
    assert (kholds st n ref v) as Hh by done.
    apply (@repr_holds _ _ (kstate_laws its Hits) st c n ref v); [by split|done]. }
  set (room := Z.to_nat (size / 4)). pose proof (items_length its st Hwf) as Hlen. fold sp in Hlen.
  pose proof (Z.div_le_mono (4 * (is_table_size sp + is_tree_total sp)) size 4) as Hdiv.
  rewrite Z.mul_comm, Z.div_mul in Hdiv by lia. pose proof (Z.mul_div_le size 4).
  destruct (names_fold (is_self sp) w ts room (items sp) Hall) with (buf := mk_buf (new_words size) (new_words size) 0) (done := @nil (Z * Z))
    as (buf & Hfold & Ha & Hn & Ht & Hfn & Hft).
  { unfold room. lia. }
  { unfold buf_holds, new_words. cbn. rewrite length_replicate. auto using filled_nil. }
  { unfold room. cbn. lia. }
  cbn [app] in *. set (l := omap (listed w ts) (items sp)) in *.
  destruct (walk_space_items
    (fun name entry buf => if negb (ev_type entry =? MACH_PORT_TYPE_NONE)
       then mach_port_names_helper w ts name entry buf else Some buf)
    (mach_port_names_helper w ts)) with (sp := sp) (b := mk_buf (new_words size) (new_words size) 0) as (sp' & Hres & Hwalk).
  { intros n v b ->. done. }
  { intros n v b Hne. by rewrite (proj2 (Z.eqb_neq _ _) Hne). }
  { apply (wf_splay _ _ _ Hwf). }
  { apply (wf_sizes _ _ _ Hwf). }
  { apply (tree_elem_type its st Hwf). }
  exists buf, sp'. unfold names_walk. rewrite Hwalk. cbv beta in Hfold. rewrite Hfold.
  destruct Hfn as [Hl1 Hfn], Hft as [Hl2 Hft]. rewrite length_fmap in *. rewrite Ha, Nat2Z.id, Hfn, Hft.
  split_and!; [done|done|lia|unfold room in *; lia|].
  unfold lists. rewrite !length_fmap, zip_fst_snd. split_and!; [done| |].
  - apply (sublist_NoDup _ (items sp).*1); [apply (items_NoDup its Hits st Hwf)|].
    unfold l. clear. induction (items sp) as [|[n v] k IH]; [done|]. cbn. unfold listed at 1. cbn.
    destruct (listed_type w ts (the_cap v)); cbn; [by apply sublist_skip|by apply sublist_cons].
  - intros n t. unfold l. rewrite list_elem_of_omap. split.
    + intros ([n' v] & Hin & Heq). unfold listed in Heq. cbn in Heq. apply fmap_Some in Heq as (t' & Ht' & [= -> ->]).
      exists (the_cap v). split; [by apply (item_cap its Hits st Hwf)|done].
    + intros (cap & Hcap & Hty). destruct (cap_item its Hits st Hwf n cap Hcap) as (v & Hin & ->).
      exists (n, v). split; [done|]. unfold listed. cbn. by rewrite Hty.
Qed.

(** ** Memory *)

Variable mask : Z.
Hypothesis Hmask : page_mask mask.

(** A space that is alive is well formed, agrees with the ports, and has fewer
    names than fit in the address space. *)
Definition names_ok (st : rstate kstate) : Prop :=
  let sp := k_space (r_space st) in
  is_active sp = true ->
  exists c, krepr its (r_space st) c /\ rights_ok (is_self sp) (r_world st) c /\
    4 * (is_table_size sp + is_tree_total sp) + 2 * PAGE_SIZE mask <= wordsize.

(** What others do while the space is unlocked keeps it so. *)
Definition names_rely (envs : list names_env) : Prop :=
  forall e st, e ∈ envs -> names_ok st -> names_ok (ne_window e st).

(** The state after the first windows of [envs]. *)
Definition after (envs : list names_env) (st st' : rstate kstate) : Prop :=
  exists k, st' = foldl (fun st e => ne_window e st) st (take k envs).

Definition mem_empty (m : names_mem) : Prop := region_empty (nm_names m) /\ region_empty (nm_types m).

Lemma free_both_spec size : 0 <= size ->
  exists m, free_both size (mk_mem (mk_region 0 size) (mk_region 0 size)) = Some m /\ mem_empty m.
Proof using.
  intros Hs. unfold free_both. zcase; cbn [negb]; [by subst; eexists|].
  destruct (free_all size) as (r & Hr & He); [lia|]. cbn [nm_names nm_types]. rewrite Hr. by eexists.
Qed.

(** The sizes needed are multiples of the page size, so each allocation is larger
    than the last by a page at least. *)
Lemma size_needed st c : krepr its (r_space st) c ->
  let sp := k_space (r_space st) in
  let bound := u32 (is_table_size sp + is_tree_total sp) in
  4 * (is_table_size sp + is_tree_total sp) + PAGE_SIZE mask <= wordsize ->
  4 * (is_table_size sp + is_tree_total sp) <= round_page mask (u32 (bound * 4)) < wordsize /\
  (PAGE_SIZE mask | round_page mask (u32 (bound * 4))).
Proof using Hmask.
  intros [Hwf _] sp bound Hb. pose proof (page_size_bounds mask Hmask) as [Hp _].
  destruct (wf_sizes _ _ _ Hwf) as [Hl _]. fold sp in Hl. pose proof (alen_nonneg (is_table sp)).
  pose proof (wf_total _ _ _ Hwf) as Ht. fold sp in Ht.
  unfold bound. rewrite (u32_small (_ + _)) by (split; lia). rewrite (u32_small (_ * 4)) by (split; lia).
  destruct (round_page_spec mask Hmask ((is_table_size sp + is_tree_total sp) * 4)) as [H1 H2];
    [lia|unfold PAGE_SIZE in *; lia|]. split; [lia|done].
Qed.

(** At most [wordsize / PAGE_SIZE] turns. *)
Lemma names_memory_spec envs : names_rely envs -> forall st size, names_ok st ->
  0 <= size < wordsize -> (PAGE_SIZE mask | size) -> wordsize <= size + PAGE_SIZE mask * Z.of_nat (length envs) ->
  exists st' m' res,
    names_memory mask envs st size (mk_mem (mk_region 0 size) (mk_region 0 size)) = Some (st', m', res) /\
    names_ok st' /\ after envs st st' /\
    match res with
    | inl kr => mem_empty m' /\
        ((kr = KERN_INVALID_TASK /\ is_active (k_space (r_space st')) = false) \/
         (kr = KERN_RESOURCE_SHORTAGE /\ exists e, e ∈ envs /\ ne_memory1 e && ne_memory2 e = false))
    | inr size' => m' = mk_mem (mk_region 0 size') (mk_region 0 size') /\
        is_active (k_space (r_space st')) = true /\ (PAGE_SIZE mask | size') /\ 0 <= size' < wordsize /\
        4 * (is_table_size (k_space (r_space st')) + is_tree_total (k_space (r_space st'))) <= size'
    end.
Proof using Hmask.
  pose proof (page_size_bounds mask Hmask) as (Hp & _ & Hpw).
  induction envs as [|e envs IH]; intros Hrely st size Hok Hsz Hd Hfuel; cbn [names_memory];
    (destruct (is_active (k_space (r_space st))) eqn:Ha; cbn [negb];
     [|destruct (free_both_spec size) as (m & -> & Hm); [lia|]; do 3 eexists; split; [done|];
       split; [done|]; split; [by exists 0%nat|]; split; [done|by left]]);
    destruct (Hok Ha) as (c & Hc & Hr & Hb); destruct (size_needed st c Hc ltac:(lia)) as [Hneed Hdiv];
    destruct (Z.leb_spec (round_page mask (u32 (u32 (is_table_size (k_space (r_space st)) +
      is_tree_total (k_space (r_space st))) * 4))) size) as [Hle|Hgt];
    [do 3 eexists; split; [done|]; split; [done|]; split; [by exists 0%nat|]; split_and!; lia || done | cbn in Hfuel; lia |
     do 3 eexists; split; [done|]; split; [done|]; split; [by exists 0%nat|]; split_and!; lia || done |].
  destruct (free_both_spec size) as (m & -> & Hm); [lia|].
  set (need := round_page mask _) in *.
  assert (names_ok (ne_window e st)) as Hok1 by (apply Hrely; [apply list_elem_of_here|done]).
  assert (forall st', after envs (ne_window e st) st' -> after (e :: envs) st st') as Hafter.
  { intros st' [k ->]. by exists (Datatypes.S k). }
  assert (after (e :: envs) st (ne_window e st)) as Hone by (apply Hafter; by exists 0%nat).
  destruct (ne_memory1 e) eqn:E1; cbn [negb].
  2:{ do 3 eexists. split; [done|]. split_and!; [done|done|done|]. right. split; [done|].
      exists e. split; [apply list_elem_of_here|by rewrite E1]. }
  destruct (ne_memory2 e) eqn:E2; cbn [negb].
  2:{ destruct (free_all need) as (r & -> & He); [lia|]. do 3 eexists. split; [done|]. split_and!; [done|done| |].
      - split; [done|apply Hm].
      - right. split; [done|]. exists e. split; [apply list_elem_of_here|by rewrite E1, E2]. }
  assert (wordsize <= need + PAGE_SIZE mask * Z.of_nat (length envs)) as Hfuel'.
  { cbn [length] in Hfuel. rewrite Nat2Z.inj_succ in Hfuel. destruct Hd as [a ->], Hdiv as [b Hb']. rewrite Hb' in *.
    assert (a < b) by (apply (Z.mul_lt_mono_pos_r (PAGE_SIZE mask)); lia). nia. }
  destruct (IH ltac:(intros e' st' He'; apply Hrely; by apply list_elem_of_further) (ne_window e st) need) as (st' & m' & res & -> & Hok' & Haf & Hres);
    [done|lia|done|done|].
  do 3 eexists. split; [done|]. split; [done|]. split; [by apply Hafter|].
  destruct res as [kr|size']; [|done]. destruct Hres as [Hme [Hin|(-> & e' & He' & Hf)]]; (split; [done|]); [by left|].
  right. split; [done|]. exists e'. split; [by apply list_elem_of_further|done].
Qed.

Lemma rights_ok_stamp self w c : rights_ok self w c -> rights_ok self (ipc_port_timestamp w).1 c.
Proof using.
  intros [Hc Hs Hr Hp]. constructor; [|done|exact Hr|exact Hp].
  intros n cap Hcap. destruct (Hc n cap Hcap) as [|s|q].
  - by apply dead_name_ok.
  - by apply (port_set_ok _ _ _ _ s).
  - by apply (port_ok _ _ _ _ q).
Qed.

(** C23: [mach_port_names] of a space that is well formed and agrees with the ports
    whenever it is unlocked returns after at most [wordsize / PAGE_SIZE]
    allocations, never writes past its buffers, and leaves no kernel memory
    behind on any path.  It fails only because the space died or memory ran out.
    Otherwise the result is a snapshot of the space at the moment the lock was
    last taken: each capability once, with the type of its right and its flags,
    except that rights for ports that died before are dead names, or left out if
    they are old-style names; the space is only splayed. *)
Theorem mach_port_names_snapshot envs st :
  names_ok st -> names_rely envs -> wordsize <= PAGE_SIZE mask * Z.of_nat (length envs) ->
  exists st' m res, mach_port_names mask false envs st = Some (st', m, res) /\ mem_empty m /\
    match res with
    | inl kr =>
        (kr = KERN_INVALID_TASK /\ is_active (k_space (r_space st')) = false) \/
        (kr = KERN_RESOURCE_SHORTAGE /\ exists e, e ∈ envs /\ ne_memory1 e && ne_memory2 e = false)
    | inr (names, types) =>
        exists snap, after envs st snap /\ is_active (k_space (r_space snap)) = true /\
          resplays (k_space (r_space snap)) (k_space (r_space st')) /\
          k_ghash (r_space st') = k_ghash (r_space snap) /\
          r_world st' = (ipc_port_timestamp (r_world snap)).1 /\
          lists (r_world st') (w_stamp (r_world snap)) (k_space (r_space snap)) names types
    end.
Proof using Hits Hmask.
  intros Hok Hrely Hfuel. unfold mach_port_names, no_region.
  destruct (names_memory_spec envs Hrely st 0 Hok) as (st1 & m1 & res & -> & Hok1 & Haf & Hres);
    [done|apply Z.divide_0_r|lia|].
  destruct res as [kr|size]; [by eexists _, _, _|]. destruct Hres as (-> & Ha & Hd & Hsz & Hb).
  destruct (Hok1 Ha) as (c & [Hwf Hc] & Hr & _).
  destruct (walk_lists (r_space st1) (ipc_port_timestamp (r_world st1)).1 (w_stamp (r_world st1)) size c Hwf Hc)
    as (buf & sp' & Hw & Hre & Hn & Hle & Hli); [by apply rights_ok_stamp|done|done|].
  cbn [ipc_port_timestamp fst] in *. rewrite Hw. cbn [nm_names nm_types].
  destruct (hand_over_spec mask Hmask (nb_actual buf) size) as (r & -> & He); [done|done|lia|done|].
  eexists _, _, _. split; [done|]. split; [done|]. exists st1. by split_and!.
Qed.
End Names.

(** ** Types of names: correctness of [mach_port_type]

    [ipc_right_info] converts a right whose port died into a dead name first, and
    the type it returns is the one that [mach_port_names] lists. *)

Section Info.
Context {S : Type} {CS : CapSpace S} {CL : CapSpaceLaws S}.
Implicit Types (s : S) (w : world) (c : gmap Z capability) (n p : Z) (r : entry_ref).

(** The entry after the check of its port. *)
Definition checked w (v : eview) : option eview :=
  if port_died w v then if compat v then None else Some (died_view v) else Some v.

(** The type and flags of an entry, and its user references. *)
Definition info_of (v : eview) : Z * Z :=
  (Z.lor (Z.lor (ev_type v) (if compat v then MACH_PORT_TYPE_COMPAT
                             else if ev_request v =? 0 then 0 else MACH_PORT_TYPE_DNREQUEST))
     (if marequest v then MACH_PORT_TYPE_MAREQUEST else 0), urefs v).

Definition info_result w (v : eview) : kern_return + Z * Z :=
  match checked w v with Some v' => inr (info_of v') | None => inl KERN_INVALID_NAME end.

(** A right without a send or send-once right is for a live port. *)
Lemma not_send_rights_live self w n v : entry_ok self w n v ->
  bit (ev_type v) MACH_PORT_TYPE_SEND_RIGHTS = false -> port_died w v = false.
Proof using.
  intros He Hs. unfold port_died. destruct He as [Ht|? Ht|q _ Hq _ Hr]; [by rewrite Ht..|].
  rewrite Hq. cbn. destruct Hr as [Ht|Ht|_ _ [Ha _]|_ _ [Ha _] _]; [by rewrite Ht in Hs..|by rewrite Ha, andb_false_r|by rewrite Ha, andb_false_r].
Qed.

Lemma right_info_post self s w c n r v out : settled self s w c out -> cs_holds s n r v ->
  exists s' w', ipc_right_info (mk_rstate s w) n r = Some (mk_rstate s' w', info_result w v) /\
    settled self s' w' (put_cap n (checked w v) (delete n c)) out.
Proof using.
  intros Hset Hh. destruct (unsettle self s w c n r v out Hset Hh) as [Hun Hc].
  pose proof (un_open _ _ _ _ _ _ _ _ _ Hun) as Ho. destruct (opened_entry _ _ _ _ _ _ Ho) as [Hv Hb].
  assert (forall h s1 w1 v1, unsettled self h s1 w1 (delete n c) n r v1 out -> h = is_send v1 ->
    exists s' w', (LET v2 <- cs_entry (r_space (mk_rstate s1 w1)) r ;;
      Some (mk_rstate s1 w1, @inr kern_return _
        (if bit (ev_bits v2) IE_BITS_MAREQUEST
         then Z.lor (if bit (ev_bits v2) IE_BITS_COMPAT then Z.lor (IE_BITS_TYPE (ev_bits v2)) MACH_PORT_TYPE_COMPAT
                else if negb (ev_request v2 =? 0) then Z.lor (IE_BITS_TYPE (ev_bits v2)) MACH_PORT_TYPE_DNREQUEST
                     else IE_BITS_TYPE (ev_bits v2)) MACH_PORT_TYPE_MAREQUEST
         else if bit (ev_bits v2) IE_BITS_COMPAT then Z.lor (IE_BITS_TYPE (ev_bits v2)) MACH_PORT_TYPE_COMPAT
              else if negb (ev_request v2 =? 0) then Z.lor (IE_BITS_TYPE (ev_bits v2)) MACH_PORT_TYPE_DNREQUEST
                   else IE_BITS_TYPE (ev_bits v2), IE_BITS_UREFS (ev_bits v2)))) =
      Some (mk_rstate s' w', inr (info_of v1)) /\ settled self s' w' (put_cap n (Some v1) (delete n c)) out) as Hinfo.
  { intros h s1 w1 v1 Hun1 Hh1. exists s1, w1. split; [|by eapply resettle].
    destruct (opened_entry _ _ _ _ _ _ (un_open _ _ _ _ _ _ _ _ _ Hun1)) as [Hv1 _]. cbn [r_space]. rewrite Hv1.
    do 3 f_equal. unfold info_of. f_equal. apply (type_expr (ev_bits v1) (ev_request v1)). }
  unfold ipc_right_info, info_result, checked. cbn [r_space]. rewrite Hv. rewrite (bit_ev_type v MACH_PORT_TYPE_SEND_RIGHTS) by done.
  pose proof (un_entry _ _ _ _ _ _ _ _ _ Hun) as He.
  destruct (bit (ev_type v) MACH_PORT_TYPE_SEND_RIGHTS) eqn:Hs.
  2:{ rewrite (not_send_rights_live self w n v He Hs). by apply (Hinfo (is_send v)). }
  destruct (entry_ok_port _ _ _ _ He Hs) as (Hobj & [q Hq] & _).
  assert (is_port_type (ev_type v) = true) as Hty.
  { destruct He as [Ht|? Ht|? _ _ _ Hr]; [by rewrite Ht in Hs..|by apply right_ok_port in Hr]. }
  destruct (ip_active q) eqn:Ha.
  - rewrite (port_died_false w v q) by done. unfold ipc_right_check. cbn [r_space r_world].
    rewrite (opened_active _ _ _ _ _ _ Ho), Hv, Z.eqb_refl, Hq, Ha. by apply (Hinfo (is_send v)).
  - rewrite (port_died_true w v q) by done. fold (compat v).
    destruct (unsettled_died self s w (delete n c) n r v q out Hun Hty Hq Ha) as (s1 & w1 & -> & Hpost).
    destruct (compat v); [by exists s1, w1|]. destruct Hpost as [Hun1 Ht1].
    destruct (opened_entry _ _ _ _ _ _ (un_open _ _ _ _ _ _ _ _ _ Hun1)) as [Hv1 _]. cbn [r_space]. rewrite Hv1, Ht1, Z.eqb_refl.
    assert (false = is_send (died_view v)) as Hns by (unfold is_send; by rewrite Ht1).
    exact (Hinfo false s1 w1 (died_view v) Hun1 Hns).
Qed.

(** The type listed for a capability is the type of the checked entry. *)
Lemma listed_info self w c n v ts : rights_ok self w c -> c !! n = Some (the_cap v) -> is_u32 (ev_bits v) ->
  (forall p q, w_ports w !! p = Some q -> ip_active q = false -> IP_TIMESTAMP_ORDER (ip_timestamp q) ts = true) ->
  listed_type w ts (the_cap v) = fst ∘ info_of <$> checked w v.
Proof using.
  intros Hok Hc Hb Hts. pose proof (proj1 (entry_ok_cap _ _ _ _) (ro_caps _ _ _ Hok n _ Hc)) as He.
  unfold listed_type, checked, cap_type. cbn [the_cap cap_right cap_object cap_request].
  rewrite right_type, !bit_right by done. fold (ev_type v). fold (compat v). fold (marequest v).
  destruct (bit (ev_type v) MACH_PORT_TYPE_SEND_RIGHTS) eqn:Hs; cbn [andb].
  2:{ by rewrite (not_send_rights_live self w n v He Hs). }
  destruct (entry_ok_port _ _ _ _ He Hs) as (_ & [q Hq] & Hu).
  assert (is_port_type (ev_type v) = true) as Hty.
  { destruct He as [Ht|? Ht|? _ _ _ Hr]; [by rewrite Ht in Hs..|by apply right_ok_port in Hr]. }
  rewrite Hq. cbn [from_option]. destruct (ip_active q) eqn:Ha; cbn [negb andb].
  { by rewrite (port_died_false w v q). }
  rewrite (Hts _ q Hq Ha), (port_died_true w v q) by done. destruct (compat v) eqn:Hcv; [done|].
  destruct (died_view_fields v Hb) as (_ & Hdt & _ & Hdm & Hdc); [lia|]. cbn. unfold info_of. cbn.
  by rewrite Hdt, Hdm, Hdc, Hcv.
Qed.

(** The lookup that all the calls start with. *)
Lemma lookup_settled self s w c out name : settled self s w c out -> is_u32 name ->
  exists s' res, ipc_right_lookup_write (mk_rstate s w) name = Some (mk_rstate s' w, res) /\ settled self s' w c out /\
    match res with
    | inl kr => kr = KERN_INVALID_NAME /\ c !! name = None
    | inr ref => exists v, cs_holds s' name ref v /\ c !! name = Some (the_cap v)
    end.
Proof using.
  intros Hset Hn. unfold ipc_right_lookup_write. cbn [r_space].
  rewrite (repr_active _ _ (se_repr _ _ _ _ _ Hset)). cbn [negb].
  destruct (lookup_law s c name (se_repr _ _ _ _ _ Hset) Hn) as (s1 & res & -> & Hr1 & Hs1 & Hres).
  assert (settled self s1 w c out) as Hset1 by (destruct Hset; constructor; [done|congruence|done|done]).
  destruct res as [ref|]; [|by exists s1, (inl KERN_INVALID_NAME)].
  destruct Hres as [v Hh]. exists s1, (inr ref). split_and!; [done|done|]. exists v. split; [done|].
  by apply (holds_cap s1 c name ref v).
Qed.

(** [mach_port_type] returns the type that [mach_port_names] lists: when no
    port dies while the names are listed, the type of a listed name is the one
    listed, and a name that is not listed is not the name of a right.  A right
    whose port died has become a dead name, or has gone if it is an old-style
    one, and the space still agrees with the ports. *)
Lemma port_type_as_listed self s w c out name ts : settled self s w c out -> is_u32 name ->
  (forall p q, w_ports w !! p = Some q -> ip_active q = false -> IP_TIMESTAMP_ORDER (ip_timestamp q) ts = true) ->
  exists s' w' c', mach_port_type false (mk_rstate s w) name =
      Some (mk_rstate s' w', from_option inr (inl KERN_INVALID_NAME) (c !! name ≫= listed_type w ts)) /\
    settled self s' w' c' out /\ (forall n, n <> name -> c' !! n = c !! n) /\
    (is_Some (c' !! name) <-> is_Some (c !! name ≫= listed_type w ts)).
Proof using.
  intros Hset Hn Hts. unfold mach_port_type, on_name.
  destruct (lookup_settled self s w c out name Hset Hn) as (s1 & res & -> & Hset1 & Hres).
  destruct res as [kr|ref].
  { destruct Hres as [-> Hnone]. exists s1, w, c. rewrite Hnone. split; [done|split; [done|split; [done|cbn; by split]]]. }
  destruct Hres as (v & Hh & Hcap). destruct (right_info_post self s1 w c name ref v out Hset1 Hh) as (s2 & w2 & -> & Hset2).
  destruct (holds_cap s1 c name ref v (se_repr _ _ _ _ _ Hset1) Hh) as (_ & Hb & _).
  exists s2, w2, (put_cap name (checked w v) (delete name c)). rewrite Hcap. cbn [mbind option_bind].
  rewrite (listed_info self w c name v ts (se_ok _ _ _ _ _ Hset) Hcap Hb Hts). unfold info_result.
  destruct (checked w v) as [v'|]; cbn.
  - split_and!; [by destruct (info_of v')|done| |].
    + intros n Hne. by rewrite lookup_insert_ne, lookup_delete_ne.
    + rewrite lookup_insert_eq. done.
  - split_and!; [done|done| |by rewrite lookup_delete_eq]. intros n Hne. by rewrite lookup_delete_ne.
Qed.
End Info.
