(* ===== verification/MachPortMembers.v ===== *)
(** * Members of port sets: correctness of [mach_port_get_set_status]

    The list is the receive rights of the space whose ports are in the set, each
    once.  The buffer starts with a page and the call starts again with a larger
    one until all members fit. *)

From S2P Require Import Prelude PortName IpcSplay IpcTable IpcTypes IpcHash IpcEntry.
From S2P Require Import IpcMqueue IpcPort IpcWorld IpcPortOps IpcSpaceInv IpcCap IpcCapSpace.
From S2P Require Import IpcRight IpcRightCopy IpcRightBits IpcRightInv IpcRightSteps.
From S2P Require Import IpcDealloc MachPortNames IpcItems MachPortNamesSpec.

Section Members.
Context `{PC : PortConfig}.

Definition in_set (w : world) (pset : Z) (v : eview) : bool :=
  bit (ev_type v) MACH_PORT_TYPE_RECEIVE && from_option (fun q => pset =? ip_pset q) false (w_ports w !! ev_object v).

Definition member (w : world) (pset : Z) (p : Z * eview) : option Z :=
  if in_set w pset p.2 then Some p.1 else None.

(** The body of both loops. *)
Definition gst_body (w : world) (pset maxnames : Z) (p : Z * eview) (b : list Z * Z) : option (list Z * Z) :=
  if bit (ev_bits p.2) MACH_PORT_TYPE_RECEIVE
  then mach_port_gst_helper w pset maxnames (ev_object p.2) b else Some b.

Lemma receive_port self w n v : entry_ok self w n v -> bit (ev_type v) MACH_PORT_TYPE_RECEIVE = true ->
  ev_object v <> IP_NULL /\ exists q, w_ports w !! ev_object v = Some q /\ ip_active q = true /\ ip_receiver_name q = n.
Proof using.
  intros [Ht _ _ _ _ _|s Ht _ _ _ _ _ _|q Ho Hq _ Hr] Hb; [by rewrite Ht in Hb|by rewrite Ht in Hb|].
  split; [done|]. exists q. split; [done|].
  destruct Hr as [Ht|Ht|_ _ (Ha & Hn & _)|_ _ (Ha & Hn & _) _]; [by rewrite Ht in Hb..|done|done].
Qed.

(** One entry: a member is stored while there is room, and always counted. *)
Lemma gst_step self w pset room n v names done : entry_ok self w n v -> n <> MACH_PORT_NULL ->
  length names = room -> filled names (take room done) -> Z.of_nat (length done) + 1 < wordsize ->
  exists names', gst_body w pset (Z.of_nat room) (n, v) (names, Z.of_nat (length done)) =
      Some (names', Z.of_nat (length (done ++ option_list (member w pset (n, v))))) /\
    length names' = room /\ filled names' (take room (done ++ option_list (member w pset (n, v)))).
Proof using.
  intros Hok Hn Hl Hf Hw. unfold gst_body, member, in_set. cbn [fst snd].
  rewrite (bit_ev_type v MACH_PORT_TYPE_RECEIVE) by done.
  destruct (bit (ev_type v) MACH_PORT_TYPE_RECEIVE) eqn:Hb; cbn [andb option_list]; [|exists names; by rewrite app_nil_r].
  destruct (receive_port _ _ _ _ Hok Hb) as (Ho & q & Hq & Ha & Hname). unfold mach_port_gst_helper.
  rewrite (proj2 (Z.eqb_neq _ _) Ho), Hq, Ha, Hname, (proj2 (Z.eqb_neq _ _) Hn). cbn [negb from_option].
  destruct (pset =? ip_pset q); cbn [option_list]; [|exists names; by rewrite app_nil_r].
  rewrite length_app. cbn [length]. rewrite u32_small by (split; lia).
  replace (Z.of_nat (length done) + 1) with (Z.of_nat (length done + 1)) by lia.
  destruct (Z.ltb_spec (Z.of_nat (length done)) (Z.of_nat room)) as [Hlt|Hge].
  - rewrite take_ge in Hf by lia. destruct (store_filled names done n Hf) as (t' & -> & Ht' & Hf'); [lia|].
    exists t'. split_and!; [done|lia|]. by rewrite take_ge by (rewrite length_app; cbn; lia).
  - exists names. split_and!; [done|done|]. by rewrite take_app_le by lia.
Qed.

Lemma gst_fold self w pset room l : Forall (fun p => entry_ok self w p.1 p.2 /\ p.1 <> MACH_PORT_NULL) l ->
  forall names done, length names = room -> filled names (take room done) ->
  Z.of_nat (length done + length l) < wordsize ->
  exists names', fold_opt (gst_body w pset (Z.of_nat room)) l (names, Z.of_nat (length done)) =
      Some (names', Z.of_nat (length (done ++ omap (member w pset) l))) /\
    length names' = room /\ filled names' (take room (done ++ omap (member w pset) l)).
Proof using.
  induction 1 as [|[n v] l [Hok Hn] Hl IH]; intros names done Hlen Hf Hw; cbn [fold_opt omap list_omap].
  { exists names. by rewrite app_nil_r. }
  cbn [length] in Hw.
  destruct (gst_step self w pset room n v names done Hok Hn Hlen Hf) as (t1 & -> & Hl1 & Hf1); [lia|].
  destruct (IH t1 _ Hl1 Hf1) as (t2 & -> & Hl2 & Hf2).
  { rewrite length_app. destruct (member w pset (n, v)); cbn; lia. }
  exists t2. rewrite <- app_assoc in *. by destruct (member w pset (n, v)).
Qed.

Variable its : list Z.
Hypothesis Hits : entries_sizes_ok its.

(** [l] are the members of [pset]: the receive rights of the space for its ports. *)
Definition members_of (w : world) (sp : ipc_space) (pset : Z) (l : list Z) : Prop :=
  NoDup l /\
  forall n, n ∈ l <-> exists cap q, space_caps sp n = Some cap /\ bit (cap_type cap) MACH_PORT_TYPE_RECEIVE = true /\
    w_ports w !! cap_object cap = Some q /\ ip_pset q = pset.

Lemma items_members st w pset : space_wf its None st ->
  members_of w (k_space st) pset (omap (member w pset) (items (k_space st))).
Proof using Hits.
  intros Hwf. split.
  - apply (sublist_NoDup _ (items (k_space st)).*1); [apply (items_NoDup its Hits st Hwf)|].
    induction (items (k_space st)) as [|[n v] k IH]; [done|]. cbn. unfold member at 1. cbn.
    destruct (in_set w pset v); cbn; [by apply sublist_skip|by apply sublist_cons].
  - intros n. rewrite list_elem_of_omap. unfold member, in_set. split.
    + intros ([n' v] & Hin & Heq). cbn in Heq. destruct (bit (ev_type v) _) eqn:Hb; [|done].
      destruct (w_ports w !! ev_object v) as [q|] eqn:Hq; [|done]. cbn in Heq.
      destruct (Z.eqb_spec pset (ip_pset q)) as [->|]; [|done]. injection Heq as ->.
      exists (the_cap v), q. split_and!; [by apply (item_cap its Hits st Hwf)|unfold cap_type; cbn; by rewrite right_type|done|done].
    + intros (cap & q & Hcap & Hb & Hq & Hp). destruct (cap_item its Hits st Hwf n cap Hcap) as (v & Hin & ->).
      exists (n, v). split; [done|]. cbn [fst snd]. unfold cap_type in Hb. cbn in Hb, Hq. rewrite right_type in Hb.
      fold (ev_type v) in Hb. rewrite Hb, Hq. cbn. by rewrite Hp, Z.eqb_refl.
Qed.

Lemma gst_walk_members st w pset room c : krepr its st c -> rights_ok (is_self (k_space st)) w c ->
  is_table_size (k_space st) + is_tree_total (k_space st) < wordsize ->
  exists names sp' l, gst_walk w pset (Z.of_nat room) (replicate room 0) (k_space st) = Some (names, Z.of_nat (length l), sp') /\
    resplays (k_space st) sp' /\ members_of w (k_space st) pset l /\ filled names (take room l) /\
    Z.of_nat (length l) <= is_table_size (k_space st) + is_tree_total (k_space st).
Proof using Hits.
  intros [Hwf Hc] Hr Hb. set (sp := k_space st) in *.
  assert (Forall (fun p => entry_ok (is_self sp) w p.1 p.2 /\ p.1 <> MACH_PORT_NULL) (items sp)) as Hall.
  { apply Forall_forall. intros [n v] Hin. pose proof (item_cap its Hits st Hwf n v Hin) as Hcap.
    destruct (item_ref its Hits st Hwf n v Hin) as (ref & Href & Hv & Ht).
    rewrite <- Hc in Hcap. split; [by apply entry_ok_cap, (ro_caps _ _ _ Hr)|].
    pose proof (@open_any _ _ (kstate_laws its Hits) st c n ref v) as Ho.
    apply (@opened_rest _ _ (kstate_laws its Hits) _ _ _ _ _ _ (Ho ltac:(by split) ltac:(done))). }
  pose proof (items_length its st Hwf) as Hlen. fold sp in Hlen.
  destruct (gst_fold (is_self sp) w pset room (items sp) Hall (replicate room 0) []) as (names & Hfold & Hn & Hf);
    [apply length_replicate|rewrite take_nil; apply filled_nil|cbn; lia|]. cbn [app length] in *.
  set (body := fun (_ : Z) (entry : eview) (b : list Z * Z) =>
    if bit (ev_bits entry) MACH_PORT_TYPE_RECEIVE
    then mach_port_gst_helper w pset (Z.of_nat room) (ev_object entry) b else Some b).
  destruct (walk_space_items body body) with (sp := sp) (b := (replicate room 0, 0)) as (sp' & Hres & Hwalk).
  { intros n v b Ht. unfold body. by rewrite (bit_ev_type v MACH_PORT_TYPE_RECEIVE), Ht. }
  { done. }
  { apply (wf_splay _ _ _ Hwf). }
  { apply (wf_sizes _ _ _ Hwf). }
  { apply (tree_elem_type its st Hwf). }
  exists names, sp', (omap (member w pset) (items sp)). unfold gst_walk. fold body. rewrite Hwalk.
  change (fold_opt _ (items sp) _) with (fold_opt (gst_body w pset (Z.of_nat room)) (items sp) (replicate room 0, Z.of_nat 0)).
  change (Z.of_nat 0) with 0 in *. rewrite Hfold.
  split_and!; [done|done|by apply items_members|done|].
  pose proof (length_omap_le (member w pset) (items sp)). lia.
Qed.

(** ** The loop *)

Variable mask : Z.
Hypothesis Hmask : page_mask mask.

Definition gst_rely (envs : list gst_env) : Prop :=
  forall e st, e ∈ envs -> names_ok its mask st -> names_ok its mask (ge_window e st).

Lemma names_ok_resplays sp sp' g w : resplays sp sp' ->
  names_ok its mask (mk_rstate (mk_kstate sp g) w) -> names_ok its mask (mk_rstate (mk_kstate sp' g) w).
Proof using.
  intros Hre Hok Ha. pose proof (resplays_caps _ _ Hre) as Hcaps. pose proof Hre as (tr & -> & _ & _).
  destruct (Hok Ha) as (c & [Hwf Hc] & Hr & Hb). exists c. split_and!; [|done|done].
  split; [by eapply resplays_wf|]. intros n. rewrite Hc. cbn. by rewrite Hcaps.
Qed.

(** What the call returns in the state in which it last held the lock. *)
Definition gst_result (envs : list gst_env) (st : rstate kstate) (name : Z) (res : kern_return + list Z) : Prop :=
  let sp := k_space (r_space st) in
  match res with
  | inl kr =>
      (kr = KERN_INVALID_TASK /\ is_active sp = false) \/
      (kr = KERN_INVALID_NAME /\ space_caps sp name = None) \/
      (kr = KERN_INVALID_RIGHT /\ exists cap, space_caps sp name = Some cap /\ cap_type cap <> MACH_PORT_TYPE_PORT_SET) \/
      (kr = KERN_RESOURCE_SHORTAGE /\ exists e, e ∈ envs /\ ge_memory e = false)
  | inr members =>
      exists cap, space_caps sp name = Some cap /\ cap_type cap = MACH_PORT_TYPE_PORT_SET /\
        members_of (r_world st) sp (cap_object cap) members
  end.

Lemma gst_result_cons e envs st name res : gst_result envs st name res -> gst_result (e :: envs) st name res.
Proof using.
  destruct res as [kr|l]; [|done]. intros [H|[H|[H|(-> & e' & He & Hm)]]]; [by left|by right; left|by do 2 right; left|].
  do 3 right. split; [done|]. exists e'. split; [by apply list_elem_of_further|done].
Qed.

(** The next size is larger by a page at least and still a word. *)
Lemma next_size_spec actual size : (PAGE_SIZE mask | size) -> size / 4 < actual -> 0 <= size ->
  4 * actual + 2 * PAGE_SIZE mask <= wordsize ->
  let size' := u32 (round_page mask (u32 (actual * 4)) + PAGE_SIZE mask) in
  size + PAGE_SIZE mask <= size' < wordsize /\ (PAGE_SIZE mask | size').
Proof using Hmask.
  intros Hd Hlt Hs Hb. pose proof (page_size_bounds mask Hmask) as (Hp & Hp4 & Hpw).
  assert (size < actual * 4) as Hlt4.
  { assert (4 | size) as [x ->] by (by eapply Z.divide_trans). rewrite Z.div_mul in Hlt by lia. lia. }
  rewrite (u32_small (actual * 4)) by (split; lia).
  assert (actual * 4 + mask < wordsize) as Hm by (unfold PAGE_SIZE in *; lia).
  destruct (round_page_spec mask Hmask (actual * 4)) as [[Hlo Hhi] Hdiv]; [lia|done|].
  assert (round_page mask (actual * 4) <= wordsize - 2 * PAGE_SIZE mask) as Hup.
  { apply round_page_least; [done|lia|done| |lia]. apply Z.divide_sub_r; [done|]. apply Z.divide_factor_r. }
  cbv zeta. rewrite u32_small by (split; lia).
  split; [lia|]. apply Z.divide_add_r; [done|apply Z.divide_refl].
Qed.

(** The lookup of the set. *)
Lemma set_lookup sp g w name : names_ok its mask (mk_rstate (mk_kstate sp g) w) -> is_active sp = true -> is_u32 name ->
  exists sp1 res, ipc_entry_lookup sp name = Some (sp1, res) /\ is_active sp1 = true /\
    names_ok its mask (mk_rstate (mk_kstate sp1 g) w) /\
    match res with
    | None => space_caps sp1 name = None
    | Some ref => exists ent, get_entry sp1 ref = Some ent /\ space_caps sp1 name = Some (the_cap (view_of ent)) /\
        (ev_type (view_of ent) = MACH_PORT_TYPE_PORT_SET -> ie_object ent <> IPS_NULL)
    end.
Proof using.
  intros Hok Ha Hname. destruct (Hok Ha) as (c & [Hwf _] & _). cbn [r_space] in Hwf.
  destruct (ipc_entry_lookup_correct its None sp g name Hwf Hname) as (sp1 & res & Hlk & Hre & Hres); [done|].
  assert (is_active sp1 = true) as Ha1 by (destruct Hre as (tr & -> & _); exact Ha).
  pose proof (names_ok_resplays sp sp1 g w Hre Hok) as Hok1. exists sp1, res. split_and!; [done|done|done|].
  rewrite (resplays_caps _ _ Hre). destruct res as [ref|]; [|done]. destruct Hres as [Href [cap Hcap]].
  rewrite (get_entry_resplays _ _ ref Hre). pose proof Hcap as Hcap0.
  rewrite (ref_for_caps sp name ref (wf_collisions _ _ _ Hwf) Href) in Hcap.
  destruct (get_entry sp ref) as [ent|]; [|done]. exists ent. cbn in Hcap. unfold entry_cap, cap_of in Hcap.
  destruct (IE_BITS_TYPE (ie_bits ent) =? MACH_PORT_TYPE_NONE); [done|]. injection Hcap as <-. split_and!; [done|done|].
  intros Ht. destruct (Hok1 Ha1) as (c1 & [_ Hc1] & Hr1 & _). cbn [r_space r_world k_space] in *.
  assert (entry_ok (is_self sp1) w name (view_of ent)) as Hent.
  { apply entry_ok_cap, (ro_caps _ _ _ Hr1). rewrite Hc1. cbn. rewrite (resplays_caps _ _ Hre). exact Hcap0. }
  destruct Hent as [Ht' _ _ _ _ _|? _ _ _ Ho _ _ _|? _ _ _ Hr']; [by rewrite Ht in Ht'|done|].
  apply right_ok_port in Hr'. by rewrite Ht in Hr'.
Qed.

Lemma gst_loop_spec envs name : gst_rely envs -> is_u32 name -> forall st size, names_ok its mask st ->
  PAGE_SIZE mask <= size < wordsize -> (PAGE_SIZE mask | size) ->
  wordsize <= size + PAGE_SIZE mask * Z.of_nat (length envs) ->
  exists st' r res, gst_loop its mask envs st name size = Some (st', r, res) /\ region_empty r /\
    names_ok its mask st' /\ gst_result envs st' name res.
Proof using Hits Hmask.
  intros Hrely Hname. pose proof (page_size_bounds mask Hmask) as (Hp & Hp4 & Hpw).
  induction envs as [|e envs IH]; intros st size Hok Hsz Hd Hfuel; [cbn in Hfuel; lia|]. cbn [gst_loop].
  assert (names_ok its mask (ge_window e st)) as Hok1 by (apply Hrely; [apply list_elem_of_here|done]).
  destruct (ge_window e st) as [[sp g] w] eqn:Ew.
  destruct (ge_memory e) eqn:Em; cbn [negb].
  2:{ eexists _, _, _. split_and!; [done|done|done|]. do 3 right. split; [done|]. exists e. by split; [apply list_elem_of_here|]. }
  unfold ipc_right_lookup_write. cbn [r_space]. change (@cs_active kstate (names_space its) (mk_kstate sp g)) with (is_active sp).
  destruct (free_all size) as (r & Hfree & He); [lia|].
  destruct (is_active sp) eqn:Ha; cbn [negb].
  2:{ rewrite Hfree. eexists _, _, _. split_and!; [done|done|done|]. by left. }
  change (@cs_lookup kstate (names_space its) (mk_kstate sp g) name)
    with (LET (sp', res) <- ipc_entry_lookup sp name ;; Some (mk_kstate sp' g, res)).
  destruct (set_lookup sp g w name Hok1 Ha Hname) as (sp1 & lres & -> & Ha1 & Hok2 & Hlres). unfold with_space. cbn [r_world].
  destruct lres as [ref|].
  2:{ rewrite Hfree. eexists _, _, _. split_and!; [done|done|done|]. by right; left. }
  destruct Hlres as (ent & Hent & Hcap & Hobj). cbn [r_space].
  change (@cs_entry kstate (names_space its) (mk_kstate sp1 g) ref) with (view_of <$> get_entry sp1 ref).
  rewrite Hent. cbn [fmap option_fmap option_map].
  assert (ev_type (view_of ent) = cap_type (the_cap (view_of ent))) as Hct by (unfold cap_type; cbn; by rewrite right_type).
  destruct (Z.eqb_spec (ev_type (view_of ent)) MACH_PORT_TYPE_PORT_SET) as [Ht|Ht]; cbn [negb].
  2:{ rewrite Hfree. eexists _, _, _. split_and!; [done|done|done|]. do 2 right. left. split; [done|].
      eexists. split; [exact Hcap|congruence]. }
  destruct (Hok2 Ha1) as (c2 & Hc2 & Hr2 & Hb2). cbn [r_space r_world k_space] in *.
  change (ev_object (view_of ent)) with (ie_object ent). rewrite (proj2 (Z.eqb_neq _ _) (Hobj Ht)). cbn [negb].
  destruct (gst_walk_members (mk_kstate sp1 g) w (ie_object ent) (Z.to_nat (size / 4)) c2 Hc2 Hr2)
    as (names & sp2 & l & Hwalk & Hre2 & Hmem & Hfill & Hlen); [cbn; pose proof (page_size_bounds mask Hmask); lia|].
  rewrite Z2Nat.id in Hwalk by (apply Z.div_pos; lia). fold (new_words size) in Hwalk. cbn [k_space k_ghash] in *. rewrite Hwalk.
  pose proof (names_ok_resplays sp1 sp2 g w Hre2 Hok2) as Hok3. pose proof (resplays_caps _ _ Hre2) as Hcaps2.
  pose proof (Z.mul_div_le size 4). destruct (Z.leb_spec (Z.of_nat (length l)) (size / 4)) as [Hle|Hgt].
  - destruct (hand_over_spec mask Hmask (Z.of_nat (length l)) size) as (r' & -> & He'); [lia|lia|lia|done|].
    eexists _, _, _. split_and!; [done|done|done|]. unfold gst_result. cbn [r_space r_world k_space].
    rewrite Nat2Z.id. destruct Hfill as [_ Hfill]. rewrite (take_ge l) in Hfill by lia. rewrite Hfill.
    eexists. rewrite Hcaps2. split; [exact Hcap|]. split; [congruence|]. unfold members_of. rewrite Hcaps2. exact Hmem.
  - rewrite Hfree. destruct (next_size_spec (Z.of_nat (length l)) size Hd) as [Hs' Hd']; [lia|lia|lia|].
    set (size' := u32 (round_page mask _ + _)) in *.
    assert (gst_rely envs) as Hrely' by (intros e' st' He'; apply Hrely; by apply list_elem_of_further).
    destruct (IH Hrely' (mk_rstate (mk_kstate sp2 g) w) size' Hok3) as (st' & r' & res & -> & Her & Hok' & Hres);
      [lia|done|cbn [length] in Hfuel; lia|].
    eexists _, _, _. split_and!; [done|done|done|]. by apply gst_result_cons.
Qed.

(** C24: [mach_port_get_set_status] of a space that is well formed and agrees with
    the ports whenever it is unlocked returns after at most [wordsize /
    PAGE_SIZE] turns, writes only within its buffer and leaves no kernel memory
    behind.  It fails exactly for the documented reasons; otherwise the result
    lists, each once, the receive rights of the space whose ports are in the
    named set. *)
Theorem get_set_status_members envs st name : names_ok its mask st -> gst_rely envs -> is_u32 name ->
  wordsize <= PAGE_SIZE mask * Z.of_nat (length envs) ->
  exists st' r res, mach_port_get_set_status its mask false envs st name = Some (st', r, res) /\
    region_empty r /\ names_ok its mask st' /\ gst_result envs st' name res.
Proof using Hits Hmask.
  intros Hok Hrely Hname Hfuel. pose proof (page_size_bounds mask Hmask) as (Hp & _).
  apply gst_loop_spec; [done|done|done|lia|apply Z.divide_refl|lia].
Qed.
End Members.
