(* ===== verification/MachPortCompat.v ===== *)
(** * Old-style port calls (ipc/mach_port.c, MACH_IPC_COMPAT)

    The calls of Mach 2.5 on top of the new ones.  Most of them return one of
    three errors where the new calls return more. *)
From S2P Require Import Prelude PortName IpcTable IpcTypes IpcHash IpcEntry IpcMqueue.
From S2P Require Import IpcPort IpcWorld IpcPortOps IpcSpaceInv IpcCap IpcCapSpace IpcRight.
From S2P Require Import IpcRightCopy IpcObject IpcObjectCompat MachPort MachPortNames IpcRightBits IpcRightInv.
From S2P Require Import IpcRightSteps IpcDealloc MachPortNamesSpec.

Definition PORT_TYPE_SEND : Z := 1.
Definition PORT_TYPE_RECEIVE_OWN : Z := 7.
Definition PORT_TYPE_SET : Z := 9.
Definition PORT_BACKLOG_MAX : Z := 16.

(** Send-once rights and dead names are represented as send rights. *)
Definition convert_port_type (type : Z) : option Z :=
  let t := Z.land type MACH_PORT_TYPE_ALL_RIGHTS in
  if (t =? MACH_PORT_TYPE_SEND) || (t =? MACH_PORT_TYPE_SEND_ONCE) || (t =? MACH_PORT_TYPE_DEAD_NAME) then
    Some PORT_TYPE_SEND
  else if (t =? MACH_PORT_TYPE_RECEIVE) || (t =? MACH_PORT_TYPE_SEND_RECEIVE) then Some PORT_TYPE_RECEIVE_OWN
  else if t =? MACH_PORT_TYPE_PORT_SET then Some PORT_TYPE_SET
  else None.

(** An error that is not one of [keep] becomes KERN_INVALID_ARGUMENT. *)
Definition old_error {A : Type} (keep : list kern_return) (res : kern_return + A) : kern_return + A :=
  match res with
  | inl kr => inl (if bool_decide (kr ∈ keep) then kr else KERN_INVALID_ARGUMENT)
  | inr x => inr x
  end.

Definition old_call {St A : Type} (keep : list kern_return) (r : option (St * (kern_return + A)))
    : option (St * (kern_return + A)) :=
  LET (st, res) <- r ;; Some (st, old_error keep res).

Section Compat.
Context {S : Type} {CS : CapSpace S} {SA : SpaceAlloc S}.
(** [ipc_table_dnrequests], and whether lock tries succeed. *)
Variables (dits : list Z) (try : bool).

(** ** Names *)

(** Looks up a name and the type of its right. *)
Definition on_info {A : Type} (st : rstate S) (name : Z)
    (k : rstate S -> entry_ref -> Z -> option (rstate S * (kern_return + A))) : option (rstate S * (kern_return + A)) :=
  LET (st1, res) <- ipc_right_lookup_write st name ;;
  match res with
  | inl _ => Some (st1, inl KERN_INVALID_ARGUMENT)
  | inr ref =>
      LET (st2, info) <- ipc_right_info st1 name ref ;;
      match info with
      | inl _ => Some (st2, inl KERN_INVALID_ARGUMENT)
      | inr (type, _) => k st2 ref type
      end
  end.

(** The name of a receive right; other port rights are KERN_NOT_RECEIVER. *)
Definition on_receiver {A : Type} (st : rstate S) (name : Z)
    (k : rstate S -> Z -> option (rstate S * (kern_return + A))) : option (rstate S * (kern_return + A)) :=
  on_info st name (fun st1 ref type =>
    if Z.land type MACH_PORT_TYPE_RECEIVE =? 0 then
      Some (st1, inl (if bit type MACH_PORT_TYPE_PORT_OR_DEAD then KERN_NOT_RECEIVER else KERN_INVALID_ARGUMENT))
    else
      LET entry <- cs_entry (r_space st1) ref ;;
      let port := ev_object entry in
      ASSERT negb (port =? IP_NULL) ;;
      k st1 port).

Definition port_translate_compat (st : rstate S) (name : Z) : option (rstate S * (kern_return + Z)) :=
  on_receiver st name (fun st1 port =>
    LET q <- w_ports (r_world st1) !! port ;;
    ASSERT ip_active q ;;
    Some (st1, inr port)).

Definition port_type (null : bool) (st : rstate S) (name : Z) : option (rstate S * (kern_return + Z)) :=
  LET (st1, res) <- mach_port_type null st name ;;
  match res with
  | inl _ => Some (st1, inl KERN_INVALID_ARGUMENT)
  | inr type => LET t <- convert_port_type type ;; Some (st1, inr t)
  end.

Definition port_rename (null : bool) (env : obj_env) (st : rstate S) (old_name new_name : Z)
    : option (rstate S * (kern_return + unit)) :=
  old_call [KERN_NAME_EXISTS] (mach_port_rename null env st old_name new_name).

(** [mem] is the memory for the port and [table] for its requests. *)
Definition port_allocate (null : bool) (env : obj_env) (mem : option Z) (table : option dntable) (st : rstate S)
    : option (rstate S * (kern_return + Z)) :=
  if null then Some (st, inl KERN_INVALID_ARGUMENT)
  else
    LET (st1, res) <- old_call [KERN_RESOURCE_SHORTAGE] (ipc_port_alloc_compat dits env mem table st) ;;
    Some (st1, match res with inl kr => inl kr | inr (name, _) => inr name end).

Definition port_deallocate (null : bool) (st : rstate S) (name : Z) : option (rstate S * (kern_return + unit)) :=
  if null then Some (st, inl KERN_INVALID_ARGUMENT)
  else on_info st name (fun st1 ref type =>
    if Z.land type MACH_PORT_TYPE_PORT_OR_DEAD =? 0 then Some (st1, inl KERN_INVALID_ARGUMENT)
    else
      LET (st2, _) <- ipc_right_destroy dits try st1 name ref ;;
      Some (st2, inr tt)).

(** ** Receive rights *)

Definition port_set_backlog (null : bool) (st : rstate S) (name backlog : Z) : option (rstate S * (kern_return + unit)) :=
  if null || (backlog <=? 0) || (PORT_BACKLOG_MAX <? backlog) then Some (st, inl KERN_INVALID_ARGUMENT)
  else
    LET (st1, res) <- port_translate_compat st name ;;
    match res with
    | inl kr => Some (st1, inl kr)
    | inr port => LET st2 <- on_world (ipc_port_set_qlimit port backlog) st1 ;; Some (st2, inr tt)
    end.

(** Returns the previous backup port. *)
Definition port_set_backup (null : bool) (st : rstate S) (name backup : Z) : option (rstate S * (kern_return + Z)) :=
  if null then Some (st, inl KERN_INVALID_ARGUMENT)
  else
    let backup1 := if backup =? IP_DEAD then IP_NULL
                   else if negb (backup =? IP_NULL) then ip_pdsendm backup else backup in
    LET (st1, res) <- port_translate_compat st name ;;
    match res with
    | inl kr => Some (st1, inl kr)
    | inr port =>
        LET (w2, previous) <- ipc_port_pdrequest port backup1 (r_world st1) ;;
        let st2 := with_world w2 st1 in
        if negb (previous =? IP_NULL) then
          if ip_pdsendp previous then Some (st2, inr (ip_pdsend previous))
          (* a send-once right can't be returned in the reply message *)
          else Some (log [Notify_send_once previous] st2, inr IP_NULL)
        else Some (st2, inr previous)
    end.

Record port_statistics := mk_statistics {
  ps_enabled : Z; ps_num_msgs : Z; ps_backlog : Z; ps_ownership : bool; ps_receive_rights : bool
}.

(** Only the receiver sees true message counts. *)
Definition port_status (null : bool) (st : rstate S) (name : Z) : option (rstate S * (kern_return + port_statistics)) :=
  if null then Some (st, inl KERN_INVALID_ARGUMENT)
  else on_info st name (fun st1 ref type =>
    if Z.land type MACH_PORT_TYPE_PORT_OR_DEAD =? 0 then Some (st1, inl KERN_INVALID_ARGUMENT)
    else if bit type MACH_PORT_TYPE_RECEIVE then
      LET entry <- cs_entry (r_space st1) ref ;;
      let port := ev_object entry in
      ASSERT negb (port =? IP_NULL) ;;
      LET q0 <- w_ports (r_world st1) !! port ;;
      ASSERT ip_active q0 ;;
      LET (w2, enabled) <- port_set_name port (r_world st1) ;;
      LET q <- w_ports w2 !! port ;;
      Some (with_world w2 st1, inr (mk_statistics enabled (ip_msgcount q) (ip_qlimit q) true true))
    else Some (st1, inr (mk_statistics MACH_PORT_NULL (-1) 0 false false))).

(** ** Port sets *)

Definition port_set_allocate (null : bool) (env : obj_env) (mem : option Z) (st : rstate S) : option (rstate S * (kern_return + Z)) :=
  if null then Some (st, inl KERN_INVALID_ARGUMENT)
  else
    LET (st1, res) <- old_call [KERN_RESOURCE_SHORTAGE] (ipc_pset_alloc env mem st) ;;
    Some (st1, match res with inl kr => inl kr | inr (name, _) => inr name end).

Definition port_set_deallocate (null : bool) (st : rstate S) (name : Z) : option (rstate S * (kern_return + unit)) :=
  if null then Some (st, inl KERN_INVALID_ARGUMENT)
  else
    LET (st1, res) <- ipc_right_lookup_write st name ;;
    match res with
    | inl kr => Some (st1, inl kr)
    | inr ref =>
        LET entry <- cs_entry (r_space st1) ref ;;
        if Z.land (ev_bits entry) MACH_PORT_TYPE_PORT_SET =? 0 then Some (st1, inl KERN_INVALID_ARGUMENT)
        else
          LET (st2, kr) <- ipc_right_destroy dits try st1 name ref ;;
          ASSERT bool_decide (kr = KERN_SUCCESS) ;;
          Some (st2, inr tt)
    end.

Definition port_set_add (null : bool) (st : rstate S) (set_name port_name : Z) : option (rstate S * (kern_return + unit)) :=
  if null then Some (st, inl KERN_INVALID_ARGUMENT)
  else on_receiver st port_name (fun st1 port =>
    LET (s2, found) <- cs_lookup (r_space st1) set_name ;;
    let st2 := with_space s2 st1 in
    match found with
    | None => Some (st2, inl KERN_INVALID_ARGUMENT)
    | Some ref =>
        LET entry <- cs_entry s2 ref ;;
        if Z.land (ev_bits entry) MACH_PORT_TYPE_PORT_SET =? 0 then Some (st2, inl KERN_INVALID_ARGUMENT)
        else
          let pset := ev_object entry in
          ASSERT negb (pset =? IPS_NULL) ;;
          LET (st3, res) <- pset_move st2 port pset ;;
          match res with inl _ => None | inr _ => Some (st3, inr tt) end
    end).

Definition port_set_remove (null : bool) (st : rstate S) (name : Z) : option (rstate S * (kern_return + unit)) :=
  if null then Some (st, inl KERN_INVALID_ARGUMENT)
  else on_receiver st name (fun st1 port => pset_move st1 port IPS_NULL).

(** ** Rights of other tasks *)

Definition insert_error (kr : kern_return) : kern_return + unit :=
  match kr with
  | KERN_SUCCESS => inr tt
  | KERN_NAME_EXISTS | KERN_RESOURCE_SHORTAGE => inl kr
  | KERN_RIGHT_EXISTS => inl KERN_FAILURE
  | _ => inl KERN_INVALID_ARGUMENT
  end.

Definition port_insert_send (null : bool) (envs : list compat_env) (st : rstate S) (port name : Z)
    : option (rstate S * (kern_return + unit)) :=
  if null || negb (MACH_PORT_VALID name) || negb (IP_VALID port) then Some (st, inl KERN_INVALID_ARGUMENT)
  else
    LET (st1, kr) <- ipc_object_copyout_name_compat dits envs st port MACH_MSG_TYPE_PORT_SEND name ;;
    Some (st1, insert_error kr).

Definition port_insert_receive (null : bool) (envs : list compat_env) (st : rstate S) (port name : Z)
    : option (rstate S * (kern_return + unit)) :=
  if null || negb (MACH_PORT_VALID name) || negb (IP_VALID port) then Some (st, inl KERN_INVALID_ARGUMENT)
  else
    LET (st1, kr) <- ipc_object_copyout_name_compat dits envs st port MACH_MSG_TYPE_PORT_RECEIVE name ;;
    Some (st1, insert_error kr).

Definition port_extract_send (null : bool) (st : rstate S) (name : Z) : option (rstate S * (kern_return + Z)) :=
  if null then Some (st, inl KERN_INVALID_ARGUMENT)
  else old_call [] (ipc_object_copyin_compat st name false true).

Definition port_extract_receive (null : bool) (st : rstate S) (name : Z) : option (rstate S * (kern_return + Z)) :=
  if null then Some (st, inl KERN_INVALID_ARGUMENT)
  else old_call [] (ipc_object_copyin_compat st name true true).
End Compat.

(** ** Listing *)

Section CompatNames.
Context `{PC : PortConfig}.
Variables (its : list Z) (PAGE_MASK : Z).

(** The types are copied out into kernel memory, if there is room, and back. *)
Definition port_names (null room : bool) (envs : list names_env) (st : rstate kstate)
    : option (rstate kstate * (kern_return + list Z * list Z)) :=
  LET (st1, _, res) <- mach_port_names PAGE_MASK null envs st ;;
  match res with
  | inl kr => Some (st1, old_error [KERN_RESOURCE_SHORTAGE] (inl kr))
  | inr (names, types) =>
      if negb room then Some (st1, inl KERN_RESOURCE_SHORTAGE)
      else
        LET old <- mapM convert_port_type types ;;
        Some (st1, inr (names, old))
  end.

Definition port_set_status (null : bool) (envs : list gst_env) (st : rstate kstate) (name : Z)
    : option (rstate kstate * (kern_return + list Z)) :=
  LET (st1, _, res) <- mach_port_get_set_status its PAGE_MASK null envs st name ;;
  Some (st1, old_error [KERN_RESOURCE_SHORTAGE] res).
End CompatNames.

(** ** Old-style port calls: correctness

    The conversion of types is total on the types of rights, and the errors of
    [port_deallocate] and [port_set_deallocate] for names without a right. *)

Section CompatSpec.
Context {S : Type} {CS : CapSpace S} {CL : CapSpaceLaws S}.
Implicit Types (s : S) (w : world) (c : gmap Z capability) (n p : Z) (r : entry_ref).

Definition old_type (type : Z) : Z :=
  if bit type MACH_PORT_TYPE_RECEIVE then PORT_TYPE_RECEIVE_OWN
  else if bit type MACH_PORT_TYPE_PORT_SET then PORT_TYPE_SET
  else PORT_TYPE_SEND.

Lemma entry_ok_types self w n (v : eview) : entry_ok self w n v ->
  ev_type v ∈ [MACH_PORT_TYPE_SEND; MACH_PORT_TYPE_RECEIVE; MACH_PORT_TYPE_SEND_ONCE; MACH_PORT_TYPE_SEND_RECEIVE;
               MACH_PORT_TYPE_PORT_SET; MACH_PORT_TYPE_DEAD_NAME].
Proof using.
  intros [Ht|? Ht|? _ _ _ [Ht|Ht|Ht|Ht]]; rewrite Ht; set_solver.
Qed.

Lemma convert_info self w n (v : eview) : entry_ok self w n v ->
  convert_port_type (info_of v).1 = Some (old_type (ev_type v)).
Proof using.
  intros Ht%entry_ok_types. unfold info_of. cbn [fst]. revert Ht. generalize (ev_type v). intros t Ht.
  rewrite !elem_of_cons, elem_of_nil in Ht.
  destruct (compat v), (ev_request v =? 0), (marequest v), Ht as [->|[->|[->|[->|[->|[->|[]]]]]]]; vm_compute; reflexivity.
Qed.

(** C25: [port_type] never panics on the type of a right: it converts the type of
    every capability of a space that agrees with the ports, and reports a name
    without a right, or an old-style name whose port died, as
    KERN_INVALID_ARGUMENT.  The death of a port does not change the type that a
    new-style name shows. *)
Theorem port_type_converts self s w c out name : settled self s w c out -> is_u32 name ->
  exists s' w' c', port_type false (mk_rstate s w) name = Some (mk_rstate s' w',
      match c !! name with
      | None => inl KERN_INVALID_ARGUMENT
      | Some cap =>
          if port_died w (cap_view cap) && compat (cap_view cap) then inl KERN_INVALID_ARGUMENT
          else inr (old_type (cap_type cap))
      end) /\ settled self s' w' c' out.
Proof using.
  intros Hset Hn. unfold port_type, mach_port_type, on_name.
  destruct (lookup_settled self s w c out name Hset Hn) as (s1 & res & -> & Hset1 & Hres).
  destruct res as [kr|ref]; [destruct Hres as [-> ->]; by exists s1, w, c|]. destruct Hres as (v & Hh & Hcap).
  destruct (right_info_post self s1 w c name ref v out Hset1 Hh) as (s2 & w2 & -> & Hset2).
  exists s2, w2, (put_cap name (checked w v) (delete name c)). split; [|done]. rewrite Hcap.
  pose proof (proj1 (entry_ok_cap _ _ _ _) (ro_caps _ _ _ (se_ok _ _ _ _ _ Hset) name _ Hcap)) as He.
  assert (port_died w (cap_view (the_cap v)) = port_died w v) as ->.
  { unfold port_died, ev_type. cbn. by rewrite right_type. }
  assert (compat (cap_view (the_cap v)) = compat v) as -> by (unfold compat; cbn; by rewrite bit_right).
  unfold cap_type. cbn [the_cap cap_right]. rewrite right_type. fold (ev_type v).
  unfold info_result, checked. destruct (port_died w v) eqn:Hd; cbn [andb].
  2:{ destruct (info_of v) as [t u] eqn:E. cbn. assert (t = (info_of v).1) as -> by by rewrite E.
      by rewrite (convert_info self w name v He). }
  destruct (compat v) eqn:Hcv; [done|].
  unfold port_died in Hd. apply andb_prop in Hd as [Hp Ha].
  destruct He as [Ht|? Ht|q _ Hq _ Hr]; [by rewrite Ht in Hp|by rewrite Ht in Hp|]. rewrite Hq in Ha. cbn in Ha.
  destruct (right_ok_dead self name v q Hr) as [Ht Hu]; [by destruct (ip_active q)|].
  destruct (holds_cap s1 c name ref v (se_repr _ _ _ _ _ Hset1) Hh) as (_ & Hb & _).
  destruct (died_view_fields v Hb) as (_ & Hdt & _ & Hdm & Hdc); [lia|]. unfold info_of. rewrite Hdt, Hdm, Hdc, Hcv.
  by destruct Ht as [->|(-> & _)].
Qed.

(** For a name without a right [port_deallocate] returns
    KERN_INVALID_ARGUMENT, as documented, but [port_set_deallocate], whose
    documentation says the same, returns the error of the lookup,
    KERN_INVALID_NAME; neither changes the capabilities. *)
Lemma set_deallocate_leaks_lookup_error dits try self s w c out name : settled self s w c out -> is_u32 name ->
  c !! name = None ->
  (exists s', port_deallocate dits try false (mk_rstate s w) name = Some (mk_rstate s' w, inl KERN_INVALID_ARGUMENT) /\
     settled self s' w c out) /\
  (exists s', port_set_deallocate dits try false (mk_rstate s w) name = Some (mk_rstate s' w, inl KERN_INVALID_NAME) /\
     settled self s' w c out).
Proof using.
  intros Hset Hn Hnone. unfold port_deallocate, port_set_deallocate, on_info.
  destruct (lookup_settled self s w c out name Hset Hn) as (s1 & res & -> & Hset1 & Hres).
  destruct res as [kr|ref]; [|destruct Hres as (v & _ & Hcap); congruence]. destruct Hres as [-> _].
  split; by exists s1.
Qed.
End CompatSpec.
