(* ===== verification/MachPortThms.v ===== *)
(** * System calls on a concrete space

    The theorems on the system calls applied to the sample space, which has one
    send right, with pages of 4096 bytes and memory available. *)
From S2P Require Import Prelude PortName IpcSplay IpcTable IpcTypes IpcHash IpcEntry.
From S2P Require Import IpcSpaceInv IpcEntrySpec IpcEntryThms IpcCap IpcCapSpace IpcMqueue IpcPort.
From S2P Require Import IpcRequests IpcWorld IpcPortOps IpcRight IpcRightCopy IpcRightBits IpcRightInv.
From S2P Require Import IpcRightSteps IpcDealloc IpcRightThms IpcObject MachPort MachPortNames IpcItems.
From S2P Require Import MachPortNamesSpec MachPortMembers MachPortCompat.

#[local] Existing Instance pc0.
#[local] Instance calls0_ops : CapSpace kstate := kstate_space its0.
#[local] Instance calls0_laws : CapSpaceLaws kstate := kstate_laws its0 its0_ok.

Definition page0 : Z := Z.ones 12.

Lemma page0_ok : page_mask page0.
Proof. by exists 12. Qed.

Definition turns0 : nat := Z.to_nat (2 ^ 20).

Lemma turns0_enough : wordsize <= PAGE_SIZE page0 * Z.of_nat turns0.
Proof. unfold turns0. rewrite Z2Nat.id by lia. vm_compute. congruence. Qed.

#[global] Opaque turns0.

Definition state0 : rstate kstate := mk_rstate sent0 world0.

Lemma state0_ok : names_ok its0 page0 state0.
Proof.
  intros _. exists caps0. split_and!.
  - apply (proj1 sent0_repr).
  - pose proof (se_ok _ _ _ _ _ sent0_settled) as Hok. exact Hok.
  - vm_compute. congruence.
Qed.

Definition names_envs0 : list names_env := replicate turns0 (mk_names_env id true true).

Lemma names_envs0_rely : names_rely its0 page0 names_envs0.
Proof. intros e st He Hok. unfold names_envs0 in He. apply elem_of_replicate in He as [-> _]. exact Hok. Qed.

Lemma after_envs0 st st' : after names_envs0 st st' -> st' = st.
Proof.
  intros [k ->]. unfold names_envs0. rewrite take_replicate. by induction (k `min` turns0)%nat.
Qed.

(** The send right is listed, with its type, and nothing else. *)
Lemma mach_port_names_snapshot_witness :
  exists st' m names types, mach_port_names page0 false names_envs0 state0 = Some (st', m, inr (names, types)) /\
    mem_empty m /\
    lists (r_world st') (w_stamp world0) (k_space sent0) names types.
Proof.
  destruct (mach_port_names_snapshot its0 its0_ok page0 page0_ok names_envs0 state0 state0_ok names_envs0_rely)
    as (st' & m & res & Heq & Hm & Hres).
  - unfold names_envs0. rewrite length_replicate. apply turns0_enough.
  - destruct res as [kr|[names types]].
    + exfalso. destruct Hres as [[-> Ha]|(_ & e & Hin & He)].
      2:{ unfold names_envs0 in Hin. apply elem_of_replicate in Hin as [-> _]. discriminate He. }
      (* the space stays alive *)
      revert Heq Ha. unfold mach_port_names.
      destruct (names_memory_spec its0 page0 page0_ok names_envs0 names_envs0_rely state0 0 state0_ok)
        as (st1 & m1 & res1 & E & _ & Haf & _); [done|apply Z.divide_0_r|unfold names_envs0; rewrite length_replicate; apply turns0_enough|].
      unfold no_region. rewrite E. apply after_envs0 in Haf as ->. destruct res1 as [kr1|size].
      * intros [= <- _ _]. by vm_compute.
      * cbn [ipc_port_timestamp]. repeat case_match; congruence.
    + destruct Hres as (snap & Haf & _ & _ & _ & _ & Hl). apply after_envs0 in Haf as ->.
      exists st', m, names, types. split; [exact Heq|]. split; [exact Hm|exact Hl].
Defined.

Lemma port_type_as_listed_witness :
  exists s' w' c', mach_port_type false state0 0x100 = Some (mk_rstate s' w', inr MACH_PORT_TYPE_SEND) /\
    settled 0x40 s' w' c' (outside world0 caps0).
Proof.
  destruct (port_type_as_listed 0x40 sent0 world0 caps0 (outside world0 caps0) 0x100 0 sent0_settled) as (s' & w' & c' & H & Hs & _).
  - split; vm_compute; congruence.
  - intros p q Hq Ha. unfold world0, world_of in Hq. cbn in Hq. apply lookup_singleton_Some in Hq as [_ <-]. by vm_compute in Ha.
  - exists s', w', c'. split; [|exact Hs]. unfold caps0 in H. rewrite lookup_singleton_eq in H. exact H.
Defined.

Definition gst_envs0 : list gst_env := replicate turns0 (mk_gst_env id true).

(** The name is a send right. *)
Lemma get_set_status_members_witness :
  exists st' r res, mach_port_get_set_status its0 page0 false gst_envs0 state0 0x100 = Some (st', r, res) /\
    region_empty r /\ gst_result gst_envs0 st' 0x100 res.
Proof.
  destruct (get_set_status_members its0 its0_ok page0 page0_ok gst_envs0 state0 0x100 state0_ok)
    as (st' & r & res & Heq & Hr & _ & Hres).
  - intros e st He Hok. unfold gst_envs0 in He. apply elem_of_replicate in He as [-> _]. exact Hok.
  - split; vm_compute; congruence.
  - unfold gst_envs0. rewrite length_replicate. apply turns0_enough.
  - exists st', r, res. split; [exact Heq|]. split; [exact Hr|exact Hres].
Defined.

Lemma port_type_converts_witness :
  exists s' w' c', port_type false state0 0x100 = Some (mk_rstate s' w', inr PORT_TYPE_SEND) /\
    settled 0x40 s' w' c' (outside world0 caps0).
Proof.
  destruct (port_type_converts 0x40 sent0 world0 caps0 (outside world0 caps0) 0x100 sent0_settled) as (s' & w' & c' & H & Hs).
  - split; vm_compute; congruence.
  - exists s', w', c'. split; [|exact Hs]. unfold caps0 in H. rewrite lookup_singleton_eq in H. exact H.
Defined.

Lemma set_deallocate_leaks_lookup_error_witness :
  exists s', port_set_deallocate [] true false state0 0x200 = Some (mk_rstate s' world0, inl KERN_INVALID_NAME).
Proof.
  destruct (set_deallocate_leaks_lookup_error [] true 0x40 sent0 world0 caps0 (outside world0 caps0) 0x200 sent0_settled)
    as [_ (s' & H & _)].
  - split; vm_compute; congruence.
  - vm_compute. reflexivity.
  - exists s'. exact H.
Defined.
