(* ===== verification/IpcSend.v ===== *)
(** * Sending and receiving messages (ipc/ipc_mqueue.c)

    A thread that must wait leaves the processor in the middle of
    [ipc_mqueue_send] or [ipc_mqueue_receive], so each is a start, what runs up
    to the next [thread_block], and a resumption, what runs after it; [Wait]
    says that the thread is queued and blocks.  The [ith_state] of a waiting
    thread is set by whoever wakes it, recorded in the events; the resumption
    gets it, and the result of the wait, as arguments. *)
From S2P Require Import Prelude PortName IpcTypes IpcMqueue IpcPort IpcWorld IpcPortOps.
From S2P Require Import IpcSpaceInv IpcCap IpcRight.

Definition MACH_SEND_TIMEOUT : Z := 0x00000010.
Definition MACH_RCV_TIMEOUT : Z := 0x00000100.
Definition MACH_SEND_ALWAYS : Z := 0x00010000.
Definition MACH_MSG_TIMEOUT_NONE : Z := 0.

Definition MACH_MSGH_BITS_CIRCULAR : Z := 0x40000000.
Definition MACH_MSGH_BITS_REMOTE (bits : Z) : Z := Z.land bits 0xff.
(** MACH_MSG_TYPE_PORT_SEND_ONCE as a number. *)
Definition PORT_SEND_ONCE : Z := 18.

Inductive wait_result := THREAD_AWAKENED | THREAD_TIMED_OUT | THREAD_INTERRUPTED | THREAD_RESTART.

(** ** Queues in memory *)

Inductive mq_ref := MQ_port (port : Z) | MQ_set (pset : Z).

#[export] Instance mq_ref_eq_dec : EqDecision mq_ref.
Proof. solve_decision. Defined.

Definition get_mq (w : world) (r : mq_ref) : option ipc_mqueue :=
  match r with
  | MQ_port p => LET q <- w_ports w !! p ;; Some (ip_messages q)
  | MQ_set p => LET s <- w_psets w !! p ;; Some (ips_messages s)
  end.

Definition put_mq (r : mq_ref) (mq : ipc_mqueue) (w : world) : option world :=
  match r with
  | MQ_port p => port_upd p (ip_set_messages mq) w
  | MQ_set p => LET s <- w_psets w !! p ;; Some (put_pset p (ips_set_messages mq s) w)
  end.

(** [pset == IPS_NULL ? &port->ip_messages : &pset->ips_messages] *)
Definition port_mq (port : Z) (q : ipc_port) : mq_ref :=
  if ip_pset q =? IPS_NULL then MQ_port port else MQ_set (ip_pset q).

(** [ipc_thread_rmqueue]; the thread must be in the queue. *)
Definition thread_rmqueue (th : Z) (l : list Z) : option (list Z) :=
  ASSERT bool_decide (th ∈ l) ;; Some (filter (fun x => x <> th) l).

(** ** Sending *)

Inductive send_result := Sent (mr : mach_msg_return) | Send_wait.

(** The last block: queue the message or give it to a receiver. *)
Definition send_deliver (m : kmsg) (port : Z) (w : world) : option world :=
  LET q <- w_ports w !! port ;;
  let q1 := ip_set_msgcount (u32 (ip_msgcount q + 1)) q in
  ASSERT 0 <? ip_msgcount q1 ;;
  let r := port_mq port q1 in
  LET mq <- get_mq w r ;;
  (* check for a receiver for the message *)
  LET (got, receivers, seqno, evs) <- move_deliver m (imq_messages mq) (imq_threads mq) (ip_seqno q1) ;;
  let messages := if got : bool then imq_messages mq else imq_messages mq ++ [m] in
  LET w1 <- put_mq r (mk_mqueue messages receivers) (put_port port (ip_set_seqno seqno q1) w) ;;
  Some (emit evs w1).

(** Don't block if we're under the queue limit, the caller used the
    MACH_SEND_ALWAYS internal option, or the message is sent to a send-once
    right. *)
Definition send_now (m : kmsg) (opt : Z) (q : ipc_port) : bool :=
  (ip_msgcount q <? ip_qlimit q) || bit opt MACH_SEND_ALWAYS ||
  (MACH_MSGH_BITS_REMOTE (msgh_bits m) =? PORT_SEND_ONCE).

(** The loop from its head to [thread_block] or to the end. *)
Definition send_turn (self : Z) (m : kmsg) (opt : Z) (time_out : Z) (w : world) : option (world * send_result) :=
  let port := msgh_remote_port m in
  LET q <- w_ports w !! port ;;
  if negb (ip_active q) then
    (* pretend it got sent and was then immediately destroyed *)
    LET w1 <- ip_check_unlock port (put_port port (ip_release q) w) ;;
    Some (emit [Kmsg_destroy (kmsg_set_remote MACH_PORT_NULL m)] w1, Sent MACH_MSG_SUCCESS)
  else if send_now m opt q then
    if bit (msgh_bits m) MACH_MSGH_BITS_CIRCULAR then
      (* don't allow the creation of a circular loop *)
      Some (emit [Kmsg_destroy m] w, Sent MACH_MSG_SUCCESS)
    else
      LET w1 <- send_deliver m port w ;;
      Some (w1, Sent MACH_MSG_SUCCESS)
  (* must block waiting for queue to clear *)
  else if bit opt MACH_SEND_TIMEOUT && (time_out =? 0) then Some (w, Sent MACH_SEND_TIMED_OUT)
  else Some (put_port port (ip_set_blocked (ip_blocked q ++ [self]) q) w, Send_wait).

(** A message to a kernel port is handled at once; [server] is
    [ipc_kobject_server], whose reply is sent with MACH_SEND_ALWAYS.  [fuel]
    bounds the replies that are themselves for kernel ports. *)
Fixpoint ipc_mqueue_send (ipc_space_kernel : Z) (server : kmsg -> option kmsg) (fuel : nat)
    (self : Z) (m : kmsg) (opt : Z) (time_out : Z) (w : world) : option (world * send_result) :=
  let port := msgh_remote_port m in
  ASSERT IP_VALID port ;;
  LET q <- w_ports w !! port ;;
  if ip_receiver q =? ipc_space_kernel then
    ASSERT ip_active q ;;
    let w1 := emit [Kobject_server m] w in
    match server m, fuel with
    | None, _ => Some (w1, Sent MACH_MSG_SUCCESS)
    | Some reply, Datatypes.S fuel' =>
        LET (w2, res) <- ipc_mqueue_send ipc_space_kernel server fuel' self reply MACH_SEND_ALWAYS MACH_MSG_TIMEOUT_NONE w1 ;;
        match res with
        | Sent MACH_MSG_SUCCESS => Some (w2, Sent MACH_MSG_SUCCESS)
        | _ => None
        end
    | Some _, O => None
    end
  else send_turn self m opt time_out w.

(** After [thread_block]; [state] is MACH_MSG_SUCCESS or, for [None],
    MACH_SEND_IN_PROGRESS. *)
Definition send_resume (self : Z) (m : kmsg) (opt : Z) (time_out : Z) (state : option mach_msg_return)
    (why : wait_result) (w : world) : option (world * send_result) :=
  match state with
  | Some mr =>
      ASSERT bool_decide (mr = MACH_MSG_SUCCESS) ;;
      send_turn self m opt time_out w
  | None =>
      (* take ourselves off blocked queue *)
      let port := msgh_remote_port m in
      LET q <- w_ports w !! port ;;
      LET blocked <- thread_rmqueue self (ip_blocked q) ;;
      let w1 := put_port port (ip_set_blocked blocked q) w in
      match why with
      | THREAD_INTERRUPTED => Some (w1, Sent MACH_SEND_INTERRUPTED)
      | THREAD_TIMED_OUT =>
          ASSERT bit opt MACH_SEND_TIMEOUT ;;
          send_turn self m opt 0 w1
      | _ => None
      end
  end.

(** ** Receiving *)

(** A message is taken off its queue; [Too_large] has the size of the message. *)
Inductive recv_result :=
| Received (m : kmsg) (seqno : Z)
| Too_large (size : Z)
| Recv_failed (mr : mach_msg_return)
| Recv_wait.

Definition recv_turn (self : Z) (r : mq_ref) (opt max_size time_out : Z) (w : world)
    : option (world * recv_result) :=
  LET mq <- get_mq w r ;;
  match imq_messages mq with
  | m :: rest =>
      (* check space requirements *)
      if max_size <? msgh_size m then Some (w, Too_large (msgh_size m))
      else
        LET w1 <- put_mq r (mk_mqueue rest (imq_threads mq)) w ;;
        let port := msgh_remote_port m in
        LET q <- w_ports w1 !! port ;;
        Some (put_port port (ip_set_seqno (u32 (ip_seqno q + 1)) q) w1, Received m (ip_seqno q))
  | [] =>
      (* must block waiting for a message *)
      if bit opt MACH_RCV_TIMEOUT && (time_out =? 0) then Some (w, Recv_failed MACH_RCV_TIMED_OUT)
      else
        LET w1 <- put_mq r (mk_mqueue [] (imq_threads mq ++ [mk_receiver self max_size])) w ;;
        Some (w1, Recv_wait)
  end.

(** What a waiting receiver was woken with. *)
Inductive recv_state :=
| Got_message (m : kmsg) (seqno : Z)
| Got_too_large (size : Z)
| Got_changed (mr : mach_msg_return)
| In_progress.

Definition recv_resume (self : Z) (r : mq_ref) (opt max_size time_out : Z) (state : recv_state)
    (why : wait_result) (w : world) : option (world * recv_result) :=
  match state with
  | Got_message m seqno => Some (w, Received m seqno)
  | Got_too_large size => Some (w, Too_large size)
  | Got_changed mr =>
      ASSERT bool_decide (mr = MACH_RCV_PORT_DIED \/ mr = MACH_RCV_PORT_CHANGED) ;;
      Some (w, Recv_failed mr)
  | In_progress =>
      (* Awakened for other than IPC completion. *)
      LET mq <- get_mq w r ;;
      ASSERT bool_decide (self ∈ ith_thread <$> imq_threads mq) ;;
      LET w1 <- put_mq r (mk_mqueue (imq_messages mq) (filter (fun th => ith_thread th <> self) (imq_threads mq))) w ;;
      match why with
      | THREAD_INTERRUPTED => Some (w1, Recv_failed MACH_RCV_INTERRUPTED)
      | THREAD_TIMED_OUT =>
          ASSERT bit opt MACH_RCV_TIMEOUT ;;
          recv_turn self r opt max_size 0 w1
      | _ => None
      end
  end.

(** The end, with the queue unlocked: one message less, and perhaps a sender
    that can go on. *)
Definition recv_finish (m : kmsg) (max_size : Z) (w : world) : option world :=
  ASSERT msgh_size m <=? max_size ;;
  let w0 := if negb (ikm_marequest m =? 0) then emit [Marequest_destroy (ikm_marequest m)] w else w in
  ASSERT negb (bit (msgh_bits m) MACH_MSGH_BITS_CIRCULAR) ;;
  let port := msgh_remote_port m in
  LET q <- w_ports w0 !! port ;;
  if ip_active q then
    ASSERT 0 <? ip_msgcount q ;;
    let q1 := ip_set_msgcount (u32 (ip_msgcount q - 1)) q in
    match ip_blocked q1 with
    | sender :: rest =>
        if ip_msgcount q1 <? ip_qlimit q1 then
          Some (emit [Thread_go sender MACH_MSG_SUCCESS] (put_port port (ip_set_blocked rest q1) w0))
        else Some (put_port port q1 w0)
    | [] => Some (put_port port q1 w0)
    end
  else Some w0.

(** ** Finding the queue of a name *)

Section Copyin.
Context {S : Type} {CS : CapSpace S}.

(** The queue and the object, of which the caller gets a reference. *)
Definition ipc_mqueue_copyin (st : rstate S) (name : Z) : option (rstate S * (mach_msg_return + mq_ref)) :=
  if negb (cs_active (r_space st)) then Some (st, inl MACH_RCV_INVALID_NAME)
  else
    LET (s, found) <- cs_lookup (r_space st) name ;;
    let st1 := with_space s st in
    match found with
    | None => Some (st1, inl MACH_RCV_INVALID_NAME)
    | Some ref =>
        LET entry <- cs_entry s ref ;;
        let bits := ev_bits entry in
        let object := ev_object entry in
        if bit bits MACH_PORT_TYPE_RECEIVE then
          ASSERT negb (object =? IP_NULL) ;;
          LET q <- w_ports (r_world st1) !! object ;;
          ASSERT ip_active q ;;
          ASSERT ip_receiver_name q =? name ;;
          ASSERT ip_receiver q =? self st1 ;;
          let pset := ip_pset q in
          if negb (pset =? IPS_NULL) then
            LET p <- w_psets (r_world st1) !! pset ;;
            if ips_active p then Some (st1, inl MACH_RCV_IN_SET)
            else
              LET w1 <- ipc_pset_remove pset object (r_world st1) ;;
              LET w2 <- ips_check_unlock pset w1 ;;
              LET w3 <- port_upd object ip_reference w2 ;;
              Some (with_world w3 st1, inr (MQ_port object))
          else
            LET w1 <- port_upd object ip_reference (r_world st1) ;;
            Some (with_world w1 st1, inr (MQ_port object))
        else if bit bits MACH_PORT_TYPE_PORT_SET then
          ASSERT negb (object =? IPS_NULL) ;;
          LET p <- w_psets (r_world st1) !! object ;;
          ASSERT ips_active p ;;
          ASSERT ips_local_name p =? name ;;
          Some (with_world (put_pset object (ips_reference p) (r_world st1)) st1, inr (MQ_set object))
        else Some (st1, inl MACH_RCV_INVALID_NAME)
    end.
End Copyin.

(** ** Threads that send and receive

    The step relation of threads that send and receive messages through the
    ports and port sets of a world, interleaved at the points where the locks
    of ipc_mqueue.c are released; the ports are not those of the kernel.  A thread is at a [thread_block] or between
    the two blocks of [ipc_mqueue_receive]; the others are idle.  Whoever wakes
    a thread sets its [ith_state], which [deliver_event] does from the events.

    Circular messages are left out: a message that would close a circle holds
    the last right to its destination, so that its destruction, which the send
    causes, destroys the destination.  So are the death of ports and changes of
    sets, for which all waiting threads are woken. *)

Inductive thread_pc :=
| At_send (m : kmsg) (opt time_out : Z) (woken : bool)
| At_receive (r : mq_ref) (opt max_size time_out : Z) (state : recv_state)
| At_finish (m : kmsg) (max_size : Z).

(** [sent] and [received] are the messages accepted for ports and taken from
    them so far, in order. *)
Record machine := mk_machine {
  mc_world : world;
  mc_threads : gmap Z thread_pc;
  mc_sent : list kmsg;
  mc_received : list kmsg
}.

(** What a waking sets in the thread that waits. *)
Definition wake_pc (e : event) (pc : thread_pc) : thread_pc :=
  match e, pc with
  | Thread_go _ MACH_MSG_SUCCESS, At_send m opt t _ => At_send m opt t true
  | Thread_go _ mr, At_receive r opt max t _ => At_receive r opt max t (Got_changed mr)
  | Thread_receive _ m seqno, At_receive r opt max t _ => At_receive r opt max t (Got_message m seqno)
  | Thread_too_large _ size, At_receive r opt max t _ => At_receive r opt max t (Got_too_large size)
  | _, _ => pc
  end.

Definition event_thread (e : event) : option Z :=
  match e with
  | Thread_go th _ | Thread_receive th _ _ | Thread_too_large th _ => Some th
  | _ => None
  end.

Definition deliver_event (ts : gmap Z thread_pc) (e : event) : gmap Z thread_pc :=
  match event_thread e with Some th => alter (wake_pc e) th ts | None => ts end.

Definition clear_log (w : world) : world := mk_world (w_ports w) (w_psets w) (w_stamp w) [].

(** The machine after a call that left the world [w]: its events are delivered. *)
Definition settle (w : world) (ts : gmap Z thread_pc) (sent got : list kmsg) : machine :=
  mk_machine (clear_log w) (foldl deliver_event ts (w_log w)) sent (got ++ (received (w_log w)).*1).

Definition after_send (th : Z) (m : kmsg) (opt time_out : Z) (res : send_result) (ts : gmap Z thread_pc) : gmap Z thread_pc :=
  match res with
  | Sent _ => delete th ts
  | Send_wait => <[th := At_send m opt time_out false]> ts
  end.

(** A live port accepted the message. *)
Definition accepted (m : kmsg) (res : send_result) (w : world) : list kmsg :=
  match res, w_ports w !! msgh_remote_port m with
  | Sent MACH_MSG_SUCCESS, Some q => if ip_active q then [m] else []
  | _, _ => []
  end.

Definition after_recv (th : Z) (r : mq_ref) (opt max_size time_out : Z) (res : recv_result) (ts : gmap Z thread_pc)
    : gmap Z thread_pc :=
  match res with
  | Received m _ => <[th := At_finish m max_size]> ts
  | Recv_wait => <[th := At_receive r opt max_size time_out In_progress]> ts
  | _ => delete th ts
  end.

Definition taken (res : recv_result) : list kmsg :=
  match res with Received m _ => [m] | _ => [] end.

Inductive step : machine -> machine -> Prop :=
| step_send w ts sent got ipc_space_kernel server fuel th m opt t q w' res :
    ts !! th = None -> bit (msgh_bits m) MACH_MSGH_BITS_CIRCULAR = false ->
    w_ports w !! msgh_remote_port m = Some q -> ip_receiver q <> ipc_space_kernel ->
    ipc_mqueue_send ipc_space_kernel server fuel th m opt t w = Some (w', res) ->
    step (mk_machine w ts sent got)
      (settle w' (after_send th m opt t res ts) (sent ++ accepted m res w) got)
| step_send_resume w ts sent got th m opt t woken why w' res :
    ts !! th = Some (At_send m opt t woken) -> bit (msgh_bits m) MACH_MSGH_BITS_CIRCULAR = false ->
    send_resume th m opt t (if woken : bool then Some MACH_MSG_SUCCESS else None) why w = Some (w', res) ->
    step (mk_machine w ts sent got)
      (settle w' (after_send th m opt t res ts) (sent ++ accepted m res w) got)
| step_receive w ts sent got th r opt max t w' res :
    ts !! th = None ->
    recv_turn th r opt max t w = Some (w', res) ->
    step (mk_machine w ts sent got) (settle w' (after_recv th r opt max t res ts) sent (got ++ taken res))
| step_receive_resume w ts sent got th r opt max t state why w' res :
    ts !! th = Some (At_receive r opt max t state) ->
    recv_resume th r opt max t state why w = Some (w', res) ->
    step (mk_machine w ts sent got)
      (settle w' (after_recv th r opt max t res ts) sent
         (got ++ match state with In_progress => taken res | _ => [] end))
| step_finish w ts sent got th m max w' :
    ts !! th = Some (At_finish m max) ->
    recv_finish m max w = Some w' ->
    step (mk_machine w ts sent got) (settle w' (delete th ts) sent got)
| step_qlimit w ts sent got port qlimit w' :
    is_u32 qlimit ->
    ipc_port_set_qlimit port qlimit w = Some w' ->
    step (mk_machine w ts sent got) (settle w' ts sent got).

(** Ports that are alive have empty queues and no messages, and no thread waits. *)
Definition initial (mc : machine) : Prop :=
  mc_threads mc = ∅ /\ mc_sent mc = [] /\ mc_received mc = [] /\ w_log (mc_world mc) = [] /\
  (forall p q, w_ports (mc_world mc) !! p = Some q ->
     ip_messages q = ipc_mqueue_init /\ ip_msgcount q = 0 /\ ip_blocked q = [] /\ is_u32 (ip_qlimit q) /\
     (ip_pset q = IPS_NULL \/ is_Some (w_psets (mc_world mc) !! ip_pset q))) /\
  (forall p s, w_psets (mc_world mc) !! p = Some s -> ips_messages s = ipc_mqueue_init).

Definition reachable (mc : machine) : Prop := exists mc0, initial mc0 /\ rtc step mc0 mc.
