(* ===== verification/Counting.v ===== *)
(** * Counting the threads of a map

    The number of threads in a map from threads to their states that satisfy a
    boolean, under the updates of step relations. *)

From S2P Require Import Prelude.

Definition b2z (b : bool) : Z := if b then 1 else 0.

Section Count.
Context {A : Type} (f : A -> bool).
Implicit Types (ts : gmap Z A).

Definition count_pc ts : Z := Z.of_nat (size (filter (fun kv => f kv.2 = true) ts)).

Lemma count_empty : count_pc ∅ = 0.
Proof using. unfold count_pc. by rewrite map_filter_empty, map_size_empty. Qed.

Lemma count_fresh ts th pc : ts !! th = None -> count_pc (<[th := pc]> ts) = count_pc ts + b2z (f pc).
Proof using.
  intros Hn. unfold count_pc. destruct (f pc) eqn:E; cbn.
  - rewrite map_filter_insert_True by done. rewrite map_size_insert_None; [lia|].
    apply map_lookup_filter_None. by left.
  - rewrite map_filter_insert_False by (cbn; congruence). rewrite delete_id by done. lia.
Qed.

Lemma count_delete ts th pc : ts !! th = Some pc -> count_pc (delete th ts) = count_pc ts - b2z (f pc).
Proof using.
  intros Hs. rewrite <- (insert_delete_id ts th pc Hs) at 2. rewrite count_fresh by apply lookup_delete_eq. lia.
Qed.

Lemma count_insert ts th old pc : ts !! th = Some old -> count_pc (<[th := pc]> ts) = count_pc ts - b2z (f old) + b2z (f pc).
Proof using.
  intros Hs. rewrite <- insert_delete_eq. rewrite count_fresh by apply lookup_delete_eq. by rewrite (count_delete ts th old).
Qed.

Lemma count_nonneg ts : 0 <= count_pc ts.
Proof using. unfold count_pc. lia. Qed.

(** A thread that is counted. *)
Lemma count_le ts th pc : ts !! th = Some pc -> b2z (f pc) <= count_pc ts.
Proof using. intros Hs. pose proof (count_delete ts th pc Hs). pose proof (count_nonneg (delete th ts)). lia. Qed.

Lemma count_two ts t1 t2 a b : t1 <> t2 -> ts !! t1 = Some a -> ts !! t2 = Some b -> b2z (f a) + b2z (f b) <= count_pc ts.
Proof using.
  intros Hne H1 H2. pose proof (count_delete ts t1 a H1). pose proof (count_le (delete t1 ts) t2 b).
  rewrite lookup_delete_ne in *; [|done]. intuition lia.
Qed.

Lemma count_exists ts : 0 < count_pc ts -> exists th pc, ts !! th = Some pc /\ f pc = true.
Proof using.
  unfold count_pc. intros H. destruct (map_choose (filter (fun kv => f kv.2 = true) ts)) as (th & pc & Hth).
  { intros E. rewrite E, map_size_empty in H. lia. }
  apply map_lookup_filter_Some in Hth as [? ?]. by exists th, pc.
Qed.

Lemma count_size ts : count_pc ts <= Z.of_nat (size ts).
Proof using. unfold count_pc. apply Nat2Z.inj_le, map_subseteq_size, map_filter_subseteq. Qed.

(** Changes that keep every thread's class. *)
Lemma count_fmap (g : A -> A) ts : (forall a, f (g a) = f a) -> count_pc (g <$> ts) = count_pc ts.
Proof using.
  intros Hg. induction ts as [|k a ts Hk IH] using map_ind; [by rewrite fmap_empty|].
  rewrite fmap_insert, !count_fresh, IH, Hg; [done|done|]. by rewrite lookup_fmap, Hk.
Qed.
End Count.

(** One class in another. *)
Lemma count_mono {A} (f g : A -> bool) ts : (forall a, f a = true -> g a = true) -> count_pc f ts <= count_pc g ts.
Proof.
  intros H. unfold count_pc. apply Nat2Z.inj_le, map_subseteq_size. apply map_filter_subseteq_ext. naive_solver.
Qed.
