(* ===== verification/IpcSendInv.v ===== *)
(** * The invariant of sending and receiving

    What the counters of a port mean: [ip_msgcount] is the number of its
    messages that are queued or on the way to a receiver, and while a sender
    waits the port is full or a sender that was woken has not run yet. *)
From S2P Require Import Prelude PortName IpcTypes IpcMqueue IpcPort IpcWorld IpcPortOps.
From S2P Require Import Counting IpcSpaceInv IpcCap IpcRight IpcSend.

(** A thread has a message for [p] that [ip_msgcount] still counts. *)
Definition carries (p : Z) (pc : thread_pc) : bool :=
  match pc with
  | At_receive _ _ _ _ (Got_message m _) | At_finish m _ => msgh_remote_port m =? p
  | _ => false
  end.

(** A sender to [p] that was woken. *)
Definition sender_woken (p : Z) (pc : thread_pc) : bool :=
  match pc with At_send m _ _ woken => woken && (msgh_remote_port m =? p) | _ => false end.

Definition is_for (p : Z) (m : kmsg) : Prop := msgh_remote_port m = p.
#[export] Instance is_for_dec p m : Decision (is_for p m).
Proof. unfold is_for. apply _. Defined.

(** ** Worlds up to what matters *)

(** The fields of a port that sending looks at, without its queue. *)
Record pview := mk_pview { pv_active : bool; pv_count : Z; pv_limit : Z; pv_blocked : list Z; pv_set : Z }.

Definition view (q : ipc_port) : pview := mk_pview (ip_active q) (ip_msgcount q) (ip_qlimit q) (ip_blocked q) (ip_pset q).
Definition port_view (w : world) (p : Z) : option pview := view <$> w_ports w !! p.

Definition view_mq (p : Z) (v : pview) : mq_ref := if pv_set v =? IPS_NULL then MQ_port p else MQ_set (pv_set v).

Lemma port_mq_view p q : port_mq p q = view_mq p (view q).
Proof. done. Qed.

(** [w'] is [w] with another view of [p]. *)
Record view_changed (w w' : world) (p : Z) (v : pview) : Prop := {
  vc_view : port_view w' p = Some v;
  vc_views : forall p', p' <> p -> port_view w' p' = port_view w p';
  vc_mq : forall r, get_mq w' r = get_mq w r
}.

Record mq_changed (w w' : world) (r : mq_ref) (mq : ipc_mqueue) : Prop := {
  mc_view : forall p, port_view w' p = port_view w p;
  mc_mq : get_mq w' r = Some mq;
  mc_mqs : forall r', r' <> r -> get_mq w' r' = get_mq w r'
}.

Lemma put_port_changed w p q q' : w_ports w !! p = Some q -> ip_messages q' = ip_messages q ->
  view_changed w (put_port p q' w) p (view q').
Proof.
  intros Hq Hm. constructor.
  - unfold port_view. cbn. by rewrite lookup_insert_eq.
  - intros p' Hp. unfold port_view. cbn. by rewrite lookup_insert_ne.
  - intros [p'|s]; [|done]. cbn. destruct (decide (p' = p)) as [->|].
    + by rewrite lookup_insert_eq, Hq, Hm.
    + by rewrite lookup_insert_ne.
Qed.

Lemma put_mq_changed w r mq mq' : get_mq w r = Some mq ->
  exists w', put_mq r mq' w = Some w' /\ mq_changed w w' r mq' /\ w_log w' = w_log w.
Proof.
  intros Hr. destruct r as [p|s]; cbn in Hr |- *.
  - unfold port_upd. destruct (w_ports w !! p) as [q|] eqn:Hq; [|done]. eexists. split; [done|]. split; [|done]. constructor.
    + intros p'. unfold port_view. cbn. destruct (decide (p' = p)) as [->|]; [by rewrite lookup_insert_eq, Hq|by rewrite lookup_insert_ne].
    + cbn. by rewrite lookup_insert_eq.
    + intros [p'|s] Hne; [|done]. cbn. rewrite lookup_insert_ne; [done|]. congruence.
  - destruct (w_psets w !! s) as [ps|] eqn:Hs; [|done]. eexists. split; [done|]. split; [|done]. constructor.
    + done.
    + cbn. by rewrite lookup_insert_eq.
    + intros [p'|s'] Hne; [done|]. cbn. rewrite lookup_insert_ne; [done|]. congruence.
Qed.

Lemma emit_view evs w p : port_view (emit evs w) p = port_view w p.
Proof. done. Qed.
Lemma emit_mq evs w r : get_mq (emit evs w) r = get_mq w r.
Proof. by destruct r. Qed.
Lemma clear_view w p : port_view (clear_log w) p = port_view w p.
Proof. done. Qed.
Lemma clear_mq w r : get_mq (clear_log w) r = get_mq w r.
Proof. by destruct r. Qed.

(** ** The invariant *)

(** [slack p] senders to [p] were woken and are about to use their turn. *)
Section Inv.
Context (slack : Z -> Z) (views : Z -> option pview) (mqs : mq_ref -> option ipc_mqueue) (ts : gmap Z thread_pc).
Context (sent got : list kmsg).

Record port_inv (p : Z) (v : pview) (mq : ipc_mqueue) : Prop := {
  pi_u32 : is_u32 (pv_count v);
  pi_limit : is_u32 (pv_limit v);
  pi_count : pv_count v = Z.of_nat (length (filter (is_for p) (imq_messages mq))) + count_pc (carries p) ts;
  pi_blocked : pv_blocked v <> [] -> pv_limit v <= pv_count v + count_pc (sender_woken p) ts + slack p;
  pi_nodup : NoDup (pv_blocked v);
  pi_waiting : forall th, th ∈ pv_blocked v ->
    exists m opt t, ts !! th = Some (At_send m opt t false) /\ msgh_remote_port m = p;
  pi_order : filter (is_for p) sent = filter (is_for p) got ++ filter (is_for p) (imq_messages mq)
}.

Record queue_inv (r : mq_ref) (mq : ipc_mqueue) : Prop := {
  qi_ok : mq_ok mq;
  qi_nodup : NoDup (ith_thread <$> imq_threads mq);
  qi_waiting : forall x, x ∈ imq_threads mq ->
    exists opt t, ts !! ith_thread x = Some (At_receive r opt (ith_msize x) t In_progress);
  qi_messages : forall m, m ∈ imq_messages mq ->
    exists v, views (msgh_remote_port m) = Some v /\ pv_active v = true /\ view_mq (msgh_remote_port m) v = r
}.

Record net_inv : Prop := {
  ni_ports : forall p v, views p = Some v -> pv_active v = true ->
    exists mq, mqs (view_mq p v) = Some mq /\ port_inv p v mq;
  ni_queues : forall r mq, mqs r = Some mq -> queue_inv r mq
}.
End Inv.

Definition no_slack : Z -> Z := fun _ => 0.
Definition slack_at (p : Z) : Z -> Z := fun p' => if decide (p' = p) then 1 else 0.

Definition machine_inv (mc : machine) : Prop :=
  w_log (mc_world mc) = [] /\
  net_inv no_slack (port_view (mc_world mc)) (get_mq (mc_world mc)) (mc_threads mc) (mc_sent mc) (mc_received mc).

(** ** Frames *)

Lemma port_frame slack slack' ts ts' sent sent' got got' p v mq :
  port_inv slack ts sent got p v mq -> slack p <= slack' p ->
  count_pc (carries p) ts' = count_pc (carries p) ts ->
  count_pc (sender_woken p) ts <= count_pc (sender_woken p) ts' ->
  (forall th, th ∈ pv_blocked v -> ts' !! th = ts !! th) ->
  filter (is_for p) sent' = filter (is_for p) sent -> filter (is_for p) got' = filter (is_for p) got ->
  port_inv slack' ts' sent' got' p v mq.
Proof.
  intros [Hu Hl Hc Hb Hn Hw Ho] Hs Hcar Hwok Hth Hse Hgo. constructor; [done|done|by rewrite Hcar|..].
  - intros H. specialize (Hb H). lia.
  - done.
  - intros th Hin. rewrite Hth by done. by apply Hw.
  - by rewrite Hse, Hgo.
Qed.

Lemma queue_frame views views' ts ts' r mq : queue_inv views ts r mq ->
  (forall x, x ∈ imq_threads mq -> ts' !! ith_thread x = ts !! ith_thread x) ->
  (forall p v, views p = Some v -> pv_active v = true ->
     exists v', views' p = Some v' /\ pv_active v' = true /\ pv_set v' = pv_set v) ->
  queue_inv views' ts' r mq.
Proof.
  intros [Hok Hn Hw Hm] Hth Hv. constructor; [done|done| |].
  - intros x Hx. rewrite Hth by done. by apply Hw.
  - intros m Hin. destruct (Hm m Hin) as (v & Hv1 & Ha & Hr). destruct (Hv _ v Hv1 Ha) as (v' & Hv' & Ha' & Hs).
    exists v'. split_and!; [done|done|]. unfold view_mq in *. by rewrite Hs.
Qed.

(** The events that reach nobody. *)
Lemma deliver_other ts e : event_thread e = None -> deliver_event ts e = ts.
Proof. unfold deliver_event. by intros ->. Qed.

Lemma deliver_alter ts e th pc : event_thread e = Some th -> ts !! th = Some pc ->
  deliver_event ts e = <[th := wake_pc e pc]> ts.
Proof.
  intros He Hth. unfold deliver_event. rewrite He. apply map_eq. intros i.
  destruct (decide (i = th)) as [->|Hne]; [by rewrite lookup_alter_eq, lookup_insert_eq, Hth|].
  by rewrite lookup_alter_ne, lookup_insert_ne.
Qed.

(** A thread that no queue knows changes what it does, and carries and wakes
    nothing. *)
Lemma net_thread slack views mqs ts sent got th pc :
  net_inv slack views mqs ts sent got -> ts !! th = None ->
  (forall p, carries p pc = false) -> (forall p, sender_woken p pc = false) ->
  net_inv slack views mqs (<[th := pc]> ts) sent got.
Proof.
  intros [Hp Hq] Hth Hc Hw. constructor.
  - intros p v Hv Ha. destruct (Hp p v Hv Ha) as (mq & Hmq & Hi). exists mq. split; [done|].
    eapply port_frame; [exact Hi|lia|by rewrite count_fresh, Hc by done; cbn; lia|rewrite count_fresh, Hw by done; cbn; lia| |done|done].
    intros th' Hin. destruct (pi_waiting _ _ _ _ _ _ _ Hi th' Hin) as (m & o & t & Hs & _).
    rewrite lookup_insert_ne; [done|]. congruence.
  - intros r mq Hr. eapply queue_frame; [by apply Hq| |eauto].
    intros x Hx. destruct (qi_waiting _ _ _ _ (Hq r mq Hr) x Hx) as (o & t & Hs). rewrite lookup_insert_ne; [done|]. congruence.
Qed.

(** A thread that waits in no queue. *)
Definition waiting (pc : thread_pc) : bool :=
  match pc with
  | At_send _ _ _ false | At_receive _ _ _ _ In_progress => true
  | _ => false
  end.

Lemma net_replace slack slack' views mqs ts sent got th pc pc' :
  net_inv slack views mqs ts sent got -> ts !! th = Some pc -> waiting pc = false ->
  (forall p, carries p pc' = carries p pc) ->
  (forall p, slack p + b2z (sender_woken p pc) <= slack' p + b2z (sender_woken p pc')) ->
  net_inv slack' views mqs (<[th := pc']> ts) sent got.
Proof.
  intros [Hp Hq] Hth Hwt Hc Hw. constructor.
  - intros p v Hv Ha. destruct (Hp p v Hv Ha) as (mq & Hmq & Hi). exists mq. split; [done|].
    specialize (Hw p). destruct Hi as [Hu Hl Hco Hb Hn Hwa Ho]. constructor; [done|done| | |done| |done].
    + rewrite (count_insert _ ts th pc) by done. rewrite Hc. lia.
    + intros H. rewrite (count_insert _ ts th pc) by done. specialize (Hb H). lia.
    + intros th' Hin. destruct (Hwa th' Hin) as (m & o & t & Hs & Hr). exists m, o, t. split; [|done].
      rewrite lookup_insert_ne; [done|]. intros ->. rewrite Hth in Hs. injection Hs as ->. done.
  - intros r mq Hr. eapply queue_frame; [by apply Hq| |eauto].
    intros x Hx. destruct (qi_waiting _ _ _ _ (Hq r mq Hr) x Hx) as (o & t & Hs).
    rewrite lookup_insert_ne; [done|]. intros E. rewrite <- E, Hth in Hs. injection Hs as ->. done.
Qed.

(** The thread is in no queue of a live port, and in no message queue. *)
Definition unqueued (views : Z -> option pview) (mqs : mq_ref -> option ipc_mqueue) (th : Z) : Prop :=
  (forall p v, views p = Some v -> pv_active v = true -> th ∉ pv_blocked v) /\
  (forall r mq, mqs r = Some mq -> th ∉ ith_thread <$> imq_threads mq).

Lemma not_waiting_unqueued slack views mqs ts sent got th pc :
  net_inv slack views mqs ts sent got -> ts !! th = Some pc -> waiting pc = false -> unqueued views mqs th.
Proof.
  intros [Hp Hq] Hth Hw. split.
  - intros p v Hv Ha Hin. destruct (Hp p v Hv Ha) as (mq & _ & Hi).
    destruct (pi_waiting _ _ _ _ _ _ _ Hi th Hin) as (m & o & t & Hs & _). rewrite Hth in Hs. by injection Hs as ->.
  - intros r mq Hr (x & -> & Hx)%list_elem_of_fmap. destruct (qi_waiting _ _ _ _ (Hq r mq Hr) x Hx) as (o & t & Hs).
    rewrite Hth in Hs. by injection Hs as ->.
Qed.

Lemma net_delete slack slack' views mqs ts sent got th pc :
  net_inv slack views mqs ts sent got -> ts !! th = Some pc -> unqueued views mqs th ->
  (forall p v, views p = Some v -> pv_active v = true -> carries p pc = false) ->
  (forall p, slack p + b2z (sender_woken p pc) <= slack' p) ->
  net_inv slack' views mqs (delete th ts) sent got.
Proof.
  intros [Hp Hq] Hth [Hub Huq] Hc Hw. constructor.
  - intros p v Hv Ha. destruct (Hp p v Hv Ha) as (mq & Hmq & Hi). exists mq. split; [done|].
    specialize (Hw p). destruct Hi as [Hu Hl Hco Hb Hn Hwa Ho]. constructor; [done|done| | |done| |done].
    + rewrite (count_delete _ ts th pc), (Hc p v) by done. cbn. lia.
    + intros H. rewrite (count_delete _ ts th pc) by done. specialize (Hb H). lia.
    + intros th' Hin. rewrite lookup_delete_ne; [by apply Hwa|]. intros ->. by apply (Hub p v Hv Ha).
  - intros r mq Hr. eapply queue_frame; [by apply Hq| |eauto].
    intros x Hx. rewrite lookup_delete_ne; [done|]. intros ->. apply (Huq r mq Hr). by apply list_elem_of_fmap_2.
Qed.

(** ** Giving a message to the receivers of a queue *)

Record delivered (m : kmsg) (blocked rest : list receiver) (got : bool) (ts ts' : gmap Z thread_pc) : Prop := {
  dl_other : forall th, th ∉ ith_thread <$> blocked -> ts' !! th = ts !! th;
  dl_rest : forall x, x ∈ rest -> x ∈ blocked /\ ts' !! ith_thread x = ts !! ith_thread x;
  dl_nodup : NoDup (ith_thread <$> rest);
  dl_carries : forall p, count_pc (carries p) ts' = count_pc (carries p) ts + b2z (got && (msgh_remote_port m =? p));
  dl_woken : forall p, count_pc (sender_woken p) ts' = count_pc (sender_woken p) ts;
  dl_all : got = false -> rest = []
}.

Lemma move_deliver_delivered m newq r blocked seqno got rest seqno' evs ts :
  move_deliver m newq blocked seqno = Some (got, rest, seqno', evs) ->
  NoDup (ith_thread <$> blocked) ->
  (forall x, x ∈ blocked -> exists opt t, ts !! ith_thread x = Some (At_receive r opt (ith_msize x) t In_progress)) ->
  delivered m blocked rest got ts (foldl deliver_event ts evs) /\
  (received evs).*1 = (if got then [m] else []) /\ (got = true -> newq = []).
Proof.
  revert got rest seqno' evs ts. induction blocked as [|x blocked IH]; intros got rest seqno' evs ts Hmd Hnd Hw; cbn [move_deliver] in Hmd.
  { injection Hmd as <- <- <- <-. split_and!; [|done|done]. constructor; cbn; [done|by intros x ?%elem_of_nil|constructor|intros; lia|done|done]. }
  case_bool_decide; [|done]. destruct (Hw x ltac:(apply list_elem_of_here)) as (opt & t & Hx).
  rewrite fmap_cons in Hnd. apply NoDup_cons in Hnd as [Hnx Hnd].
  assert (forall y, y ∈ blocked -> ith_thread y <> ith_thread x) as Hney.
  { intros y Hy Heq. apply Hnx. rewrite <- Heq. by apply list_elem_of_fmap_2. }
  destruct (msgh_size m <=? ith_msize x).
  - injection Hmd as <- <- <- <-. cbn [foldl]. erewrite deliver_alter by done. split_and!; [|done|done]. constructor.
    + intros th Hth. rewrite lookup_insert_ne; [done|]. rewrite fmap_cons in Hth. set_solver.
    + intros y Hy. split; [by apply list_elem_of_further|]. rewrite lookup_insert_ne; [done|]. intros E. by apply (Hney y Hy).
    + done.
    + intros p. rewrite (count_insert _ _ _ _ _ Hx). cbn. lia.
    + intros p. rewrite (count_insert _ _ _ _ _ Hx). cbn. lia.
    + done.
  - destruct (move_deliver m newq blocked seqno) as [[[[got1 rest1] s1] evs1]|] eqn:E; [|done]. injection Hmd as <- <- <- <-.
    cbn [foldl]. erewrite deliver_alter by done. set (ts1 := <[ith_thread x := _]> ts).
    destruct (IH got1 rest1 s1 evs1 ts1 eq_refl Hnd) as ([Ho Hr Hn Hc Hs Ha] & Hrec & Hq).
    { intros y Hy. unfold ts1. rewrite lookup_insert_ne by (intros E'; by apply (Hney y Hy)). apply Hw. by apply list_elem_of_further. }
    split_and!; [|done|done]. constructor.
    + intros th Hth. rewrite fmap_cons in Hth. rewrite Ho by set_solver. unfold ts1. rewrite lookup_insert_ne; [done|]. set_solver.
    + intros y Hy. destruct (Hr y Hy) as [Hin Heq]. split; [by apply list_elem_of_further|]. rewrite Heq. unfold ts1.
      rewrite lookup_insert_ne; [done|]. intros E'. by apply (Hney y Hin).
    + done.
    + intros p. rewrite Hc. unfold ts1. rewrite (count_insert _ _ _ _ _ Hx). cbn. lia.
    + intros p. rewrite Hs. unfold ts1. rewrite (count_insert _ _ _ _ _ Hx). cbn. lia.
    + done.
Qed.
