(* ===== verification/IpcSendSteps.v ===== *)
(** * The steps of sending and receiving keep the invariant *)
From S2P Require Import Prelude PortName IpcTypes IpcMqueue IpcPort IpcWorld IpcPortOps.
From S2P Require Import Counting IpcSpaceInv IpcCap IpcRight IpcSend IpcSendInv.

(** The net of a world and threads. *)
Definition net (slack : Z -> Z) (w : world) (ts : gmap Z thread_pc) (sent got : list kmsg) : Prop :=
  net_inv slack (port_view w) (get_mq w) ts sent got.

(** What a step changes: the view of one port, which keeps its set and its being
    alive, and its queue. *)
Record changes (w w' : world) (p : Z) (v v' : pview) (mq mq' : ipc_mqueue) : Prop := {
  ch_old : port_view w p = Some v;
  ch_old_mq : get_mq w (view_mq p v) = Some mq;
  ch_view : port_view w' p = Some v';
  ch_views : forall p1, p1 <> p -> port_view w' p1 = port_view w p1;
  ch_mq : get_mq w' (view_mq p v) = Some mq';
  ch_mqs : forall r, r <> view_mq p v -> get_mq w' r = get_mq w r;
  ch_active : pv_active v' = pv_active v;
  ch_set : pv_set v' = pv_set v
}.

Section Update.
Context (slack slack' : Z -> Z) (w w' : world) (ts ts' : gmap Z thread_pc) (sent sent' got got' : list kmsg).
Context (p : Z) (v v' : pview) (mq mq' : ipc_mqueue).
Hypothesis Hnet : net slack w ts sent got.
Hypothesis Hch : changes w w' p v v' mq mq'.
Let r := view_mq p v.

(** The port itself. *)
Hypothesis Hport : pv_active v = true -> port_inv slack ts sent got p v mq -> port_inv slack' ts' sent' got' p v' mq'.
(** Another port, which may share the queue. *)
Hypothesis Hother : forall p1 v1 mq1 mq1', p1 <> p -> mq1' = mq1 \/ (mq1 = mq /\ mq1' = mq') ->
  port_inv slack ts sent got p1 v1 mq1 -> port_inv slack' ts' sent' got' p1 v1 mq1'.
(** The receivers of other queues, and of this one. *)
Hypothesis Hthreads : forall r1 mq1 x, r1 <> r -> get_mq w r1 = Some mq1 -> x ∈ imq_threads mq1 -> ts' !! ith_thread x = ts !! ith_thread x.
Hypothesis Hok : mq_ok mq'.
Hypothesis Hnodup : NoDup (ith_thread <$> imq_threads mq').
Hypothesis Hwait : forall x, x ∈ imq_threads mq' ->
  exists opt t, ts' !! ith_thread x = Some (At_receive r opt (ith_msize x) t In_progress).
Hypothesis Hmsgs : forall m, m ∈ imq_messages mq' -> m ∈ imq_messages mq \/ (msgh_remote_port m = p /\ pv_active v = true).

Lemma views_kept p1 v1 : port_view w p1 = Some v1 ->
  exists v2, port_view w' p1 = Some v2 /\ pv_active v2 = pv_active v1 /\ pv_set v2 = pv_set v1.
Proof using Hch.
  intros Hv1. destruct Hch as [Hv Hmq Hv' Hvs Hmq' Hmqs Ha Hs]. destruct (decide (p1 = p)) as [->|Hne].
  - exists v'. split_and!; congruence.
  - exists v1. rewrite Hvs by done. done.
Qed.

Lemma queue_messages m r1 : (exists v1, port_view w (msgh_remote_port m) = Some v1 /\ pv_active v1 = true /\
    view_mq (msgh_remote_port m) v1 = r1) ->
  exists v1, port_view w' (msgh_remote_port m) = Some v1 /\ pv_active v1 = true /\ view_mq (msgh_remote_port m) v1 = r1.
Proof using Hch.
  intros (v1 & Hv1 & Ha1 & Hr1). destruct (views_kept _ _ Hv1) as (v2 & Hv2 & Ha2 & Hs2).
  exists v2. split_and!; [done|congruence|]. unfold view_mq in *. by rewrite Hs2.
Qed.

Lemma net_update : net slack' w' ts' sent' got'.
Proof using All.
  destruct Hnet as [Hports Hqueues]. pose proof Hch as [Hv Hmq Hv' Hvs Hmq' Hmqs Ha Hs]. fold r in Hmq, Hmq', Hmqs. constructor.
  - intros p1 v1 Hv1 Ha1. destruct (decide (p1 = p)) as [->|Hne].
    + rewrite Hv' in Hv1. injection Hv1 as <-. rewrite Ha in Ha1. destruct (Hports p v Hv Ha1) as (mq0 & Hm & Hi).
      fold r in Hm. rewrite Hmq in Hm. injection Hm as <-. exists mq'. unfold view_mq. rewrite Hs. split; [exact Hmq'|]. by apply Hport.
    + rewrite Hvs in Hv1 by done. destruct (Hports p1 v1 Hv1 Ha1) as (mq1 & Hm & Hi). destruct (decide (view_mq p1 v1 = r)) as [Er|Er].
      * rewrite Er in *. exists mq'. split; [done|]. rewrite Hmq in Hm. injection Hm as <-. eapply Hother; [done|by right|done].
      * exists mq1. rewrite Hmqs by done. split; [done|]. eapply Hother; [done|by left|done].
  - intros r1 mq1 Hr1. destruct (decide (r1 = r)) as [->|Hne].
    + rewrite Hmq' in Hr1. injection Hr1 as <-. pose proof (Hqueues r mq Hmq) as Hqi. constructor; [done|done|done|].
      intros m Hm. apply queue_messages. destruct (Hmsgs m Hm) as [Hold|[Hrem Hact]]; [by apply (qi_messages _ _ _ _ Hqi)|].
      exists v. rewrite Hrem. done.
    + rewrite Hmqs in Hr1 by done. pose proof (Hqueues r1 mq1 Hr1) as [Hqo Hqn Hqw Hqm]. constructor; [done|done| |].
      * intros x Hx. rewrite (Hthreads r1 mq1 x Hne Hr1 Hx). by apply Hqw.
      * intros m Hm. by apply queue_messages, Hqm.
Qed.
End Update.

(** A blocked thread is found where it waits. *)
Lemma blocked_ne slack ts sent got p v mq th th' pc : port_inv slack ts sent got p v mq -> th' ∈ pv_blocked v ->
  ts !! th = pc -> (forall m o t, pc <> Some (At_send m o t false)) -> th' <> th.
Proof. intros Hi Hin Hth Hpc ->. destruct (pi_waiting _ _ _ _ _ _ _ Hi th Hin) as (m & o & t & Hs & _). by apply (Hpc m o t); rewrite <- Hth. Qed.

(** Receivers of different queues are different threads. *)
Lemma receivers_ne views ts r r1 mq mq1 x y : queue_inv views ts r mq -> queue_inv views ts r1 mq1 -> r1 <> r ->
  x ∈ imq_threads mq -> y ∈ imq_threads mq1 -> ith_thread y <> ith_thread x.
Proof.
  intros Hq Hq1 Hne Hx Hy E. destruct (qi_waiting _ _ _ _ Hq x Hx) as (o & t & Hs).
  destruct (qi_waiting _ _ _ _ Hq1 y Hy) as (o' & t' & Hs'). rewrite E, Hs in Hs'. congruence.
Qed.

Lemma is_for_other p1 p (m : kmsg) : msgh_remote_port m = p -> p1 <> p -> filter (is_for p1) [m] = [].
Proof. intros Hm Hne. rewrite filter_cons_False; [done|]. unfold is_for. congruence. Qed.

Lemma is_for_self (m : kmsg) : filter (is_for (msgh_remote_port m)) [m] = [m].
Proof. by rewrite filter_cons_True. Qed.

Lemma u32_succ_pos x : is_u32 x -> 0 < u32 (x + 1) -> u32 (x + 1) = x + 1.
Proof.
  intros Hx Hpos. destruct (decide (x + 1 = wordsize)) as [E|]; [rewrite E in Hpos; by vm_compute in Hpos|].
  apply u32_small. unfold is_u32 in *. lia.
Qed.

Section Deliver.
Context (w : world) (ts : gmap Z thread_pc) (sent got : list kmsg) (m : kmsg).
Let p := msgh_remote_port m.

(** The effect on the world. *)
Lemma send_deliver_changes w' q : send_deliver m p w = Some w' -> w_ports w !! p = Some q ->
  exists mq g rest seqno' evs,
    move_deliver m (imq_messages mq) (imq_threads mq) (ip_seqno q) = Some (g, rest, seqno', evs) /\
    w_log w' = w_log w ++ evs /\ 0 < u32 (ip_msgcount q + 1) /\
    changes w w' p (view q) (mk_pview (ip_active q) (u32 (ip_msgcount q + 1)) (ip_qlimit q) (ip_blocked q) (ip_pset q))
      mq (mk_mqueue (if g then imq_messages mq else imq_messages mq ++ [m]) rest).
Proof using.
  intros Hd Hq. unfold send_deliver in Hd. rewrite Hq in Hd. cbn [ip_msgcount ip_set_msgcount] in Hd.
  destruct (Z.ltb_spec 0 (u32 (ip_msgcount q + 1))) as [Hpos|]; [|done].
  set (q1 := ip_set_msgcount (u32 (ip_msgcount q + 1)) q) in *.
  destruct (get_mq w (port_mq p q1)) as [mq|] eqn:Hmq; [|done].
  destruct (move_deliver m _ _ _) as [[[[g rest] seqno] evs]|] eqn:Hmd; [|done].
  pose proof (put_port_changed w p q (ip_set_seqno seqno q1) Hq eq_refl) as Hvc.
  set (w1 := put_port p (ip_set_seqno seqno q1) w) in *.
  assert (get_mq w1 (port_mq p q1) = Some mq) as Hmq1 by (by rewrite (vc_mq _ _ _ _ Hvc)).
  destruct (put_mq_changed w1 (port_mq p q1) mq (mk_mqueue (if g then imq_messages mq else imq_messages mq ++ [m]) rest) Hmq1)
    as (w2 & Hput & Hmc & Hlog2).
  rewrite Hput in Hd. injection Hd as <-. exists mq, g, rest, seqno, evs. split_and!; [done|cbn; by rewrite Hlog2|done|].
  constructor; [unfold port_view; by rewrite Hq|done| | | | |done|done].
  - rewrite emit_view, (mc_view _ _ _ _ Hmc). apply (vc_view _ _ _ _ Hvc).
  - intros p1 Hne. rewrite emit_view, (mc_view _ _ _ _ Hmc). by apply (vc_views _ _ _ _ Hvc).
  - rewrite emit_mq. apply (mc_mq _ _ _ _ Hmc).
  - intros r Hne. rewrite emit_mq, (mc_mqs _ _ _ _ Hmc) by done. apply (vc_mq _ _ _ _ Hvc).
Qed.

(** The message is counted, queued or given away. *)
Lemma deliver_net w' q : net (slack_at p) w ts sent got -> send_deliver m p w = Some w' -> w_log w = [] ->
  w_ports w !! p = Some q -> ip_active q = true ->
  net no_slack w' (foldl deliver_event ts (w_log w')) (sent ++ [m]) (got ++ (received (w_log w')).*1).
Proof using.
  intros Hnet Hd Hlog Hq Ha. destruct (send_deliver_changes w' q Hd Hq) as (mq & g & rest & seqno & evs & Hmd & Hlog' & Hpos & Hch).
  rewrite Hlog', Hlog. cbn [app]. pose proof (ni_queues _ _ _ _ _ _ Hnet _ mq (ch_old_mq _ _ _ _ _ _ _ Hch)) as Hqi.
  destruct (move_deliver_delivered m _ (view_mq p (view q)) _ _ g rest seqno evs ts Hmd (qi_nodup _ _ _ _ Hqi) (qi_waiting _ _ _ _ Hqi))
    as ([Hdo Hdr Hdn Hdc Hdw Hda] & -> & Hempty).
  set (ts' := foldl deliver_event ts evs) in *.
  assert (forall p1 v1 mq1 th, port_inv (slack_at p) ts sent got p1 v1 mq1 -> th ∈ pv_blocked v1 -> ts' !! th = ts !! th) as Hbl.
  { intros p1 v1 mq1 th Hi1 Hin. apply Hdo. intros (x & -> & Hx)%list_elem_of_fmap.
    destruct (qi_waiting _ _ _ _ Hqi x Hx) as (o & t & Hs). by eapply (blocked_ne _ _ _ _ _ _ _ _ _ _ Hi1 Hin Hs). }
  eapply net_update; [exact Hnet|exact Hch|..]; cbn [imq_messages imq_threads].
  - intros _ Hi. pose proof (fun th => Hbl p (view q) mq th Hi) as Hblp. destruct Hi as [Hu Hl Hc Hb Hn Hw Ho].
    unfold slack_at in Hb. rewrite decide_True in Hb by done.
    constructor; cbn [pv_count pv_blocked pv_limit imq_messages view] in *; rewrite ?u32_succ_pos by done.
    + rewrite <- u32_succ_pos by done. apply u32_range.
    + done.
    + rewrite Hdc, Hc. unfold p. rewrite Z.eqb_refl. destruct g; cbn; [lia|]. rewrite filter_app, length_app, is_for_self. cbn. lia.
    + intros H. specialize (Hb H). rewrite Hdw. unfold no_slack. lia.
    + done.
    + intros th Hin. rewrite Hblp by done. by apply Hw.
    + unfold p in *. rewrite !filter_app, is_for_self, Ho. destruct g; cbn [app]; [|by rewrite filter_app, is_for_self, app_nil_r, app_assoc].
      rewrite (Hempty eq_refl), is_for_self. cbn. by rewrite !app_nil_r.
  - intros p1 v1 mq1 mq1' Hne Hmq1 Hi1. pose proof (fun th => Hbl p1 v1 mq1 th Hi1) as Hbl1.
    assert (filter (is_for p1) (imq_messages mq1') = filter (is_for p1) (imq_messages mq1)) as Hfil.
    { destruct Hmq1 as [-> |[-> ->]]; [done|]. cbn. destruct g; [done|]. by rewrite filter_app, (is_for_other p1 p), app_nil_r. }
    destruct Hi1 as [Hu Hl Hc Hb Hn Hw Ho]. unfold slack_at in Hb. rewrite decide_False in Hb by done. constructor; [done|done| | |done| |].
    + rewrite Hfil, Hdc, Hc. unfold p in Hne. rewrite (proj2 (Z.eqb_neq (msgh_remote_port m) p1)), andb_false_r by done. cbn. lia.
    + intros H. specialize (Hb H). rewrite Hdw. unfold no_slack. lia.
    + intros th Hin. rewrite Hbl1 by done. by apply Hw.
    + rewrite Hfil, !filter_app, (is_for_other p1 p m), app_nil_r, Ho by done.
      destruct g; [rewrite (is_for_other p1 p m) by done|cbn]; by rewrite app_nil_r.
  - intros r1 mq1 x Hne Hr1 Hx. apply Hdo. intros (y & Hy & Hyin)%list_elem_of_fmap.
    by eapply (receivers_ne _ _ _ r1 mq mq1 y x Hqi (ni_queues _ _ _ _ _ _ Hnet r1 mq1 Hr1)).
  - intros Hne. cbn in *. destruct g; [by apply Hempty|]. by rewrite (Hda eq_refl) in Hne.
  - done.
  - intros x Hx. destruct (Hdr x Hx) as [Hin ->]. by apply (qi_waiting _ _ _ _ Hqi).
  - intros m1 Hm1. destruct g; [by left|]. apply elem_of_app in Hm1 as [?| ->%list_elem_of_singleton]; [by left|by right].
Qed.
End Deliver.

(** ** Simpler changes *)

Lemma view_changes w w' p v v' mq : port_view w p = Some v -> get_mq w (view_mq p v) = Some mq ->
  view_changed w w' p v' -> pv_active v' = pv_active v -> pv_set v' = pv_set v -> changes w w' p v v' mq mq.
Proof.
  intros Hv Hmq [Hv' Hvs Hmqs] Ha Hs. constructor; [done|done|done|done|by rewrite Hmqs| |done|done]. intros r _. apply Hmqs.
Qed.

(** A queue keeps its messages. *)
Lemma net_mq slack w w' ts sent got r mq mq' : net slack w ts sent got -> get_mq w r = Some mq ->
  mq_changed w w' r mq' -> imq_messages mq' = imq_messages mq -> mq_ok mq' -> NoDup (ith_thread <$> imq_threads mq') ->
  (forall x, x ∈ imq_threads mq' -> exists opt t, ts !! ith_thread x = Some (At_receive r opt (ith_msize x) t In_progress)) ->
  net slack w' ts sent got.
Proof.
  intros [Hp Hq] Hr [Hv Hmq Hmqs] Hm Hok Hnd Hw. constructor.
  - intros p v Hpv Ha. rewrite Hv in Hpv. destruct (Hp p v Hpv Ha) as (mq0 & Hm0 & Hi). destruct (decide (view_mq p v = r)) as [E|E].
    + rewrite E in *. exists mq'. split; [done|]. rewrite Hr in Hm0. injection Hm0 as <-. destruct Hi. constructor; by rewrite ?Hm.
    + exists mq0. by rewrite Hmqs.
  - intros r1 mq1 Hr1. destruct (decide (r1 = r)) as [->|E].
    + rewrite Hmq in Hr1. injection Hr1 as <-. constructor; [done|done|done|]. intros m Hin. rewrite Hm in Hin. setoid_rewrite Hv.
      by apply (qi_messages _ _ _ _ (Hq r mq Hr)).
    + rewrite Hmqs in Hr1 by done. destruct (Hq r1 mq1 Hr1) as [Ho Hn Hwa Hms]. constructor; [done|done|done|]. by setoid_rewrite Hv.
Qed.

(** What becomes of a dead port does not matter. *)
Lemma net_dead slack slack' w w' ts sent got p v : net slack w ts sent got -> port_view w p = Some v -> pv_active v = false ->
  (forall p1, p1 <> p -> port_view w' p1 = port_view w p1 /\ slack p1 <= slack' p1) ->
  (forall v', port_view w' p = Some v' -> pv_active v' = false) ->
  (forall r, r <> MQ_port p -> get_mq w' r = get_mq w r) ->
  (forall mq, get_mq w' (MQ_port p) = Some mq -> get_mq w (MQ_port p) = Some mq) ->
  net slack' w' ts sent got.
Proof.
  intros [Hp Hq] Hv Ha Hvs Hd Hmqs Hmq. constructor.
  - intros p1 v1 Hv1 Ha1. destruct (decide (p1 = p)) as [->|Hne]; [rewrite (Hd v1 Hv1) in Ha1; done|].
    destruct (Hvs p1 Hne) as [Hsame Hsl]. rewrite Hsame in Hv1. destruct (Hp p1 v1 Hv1 Ha1) as (mq & Hm & Hi). exists mq.
    rewrite Hmqs; [|unfold view_mq; destruct (_ =? _); congruence]. split; [done|]. by eapply port_frame.
  - intros r mq Hr. assert (get_mq w r = Some mq) as Hr0.
    { destruct (decide (r = MQ_port p)) as [->|E]; [by apply Hmq|by rewrite <- Hmqs]. }
    destruct (Hq r mq Hr0) as [Ho Hn Hwa Hms]. constructor; [done|done|done|].
    intros m Hin. destruct (Hms m Hin) as (v1 & Hv1 & Ha1 & Er). exists v1. split_and!; [|done|done].
    rewrite <- Hv1. apply Hvs. intros E. rewrite E, Hv in Hv1. congruence.
Qed.

(** A full port needs no slack. *)
Lemma net_full w ts sent got p v : net (slack_at p) w ts sent got -> port_view w p = Some v -> pv_limit v <= pv_count v ->
  net no_slack w ts sent got.
Proof.
  intros [Hp Hq] Hv Hf. constructor; [|done]. intros p1 v1 Hv1 Ha1. destruct (Hp p1 v1 Hv1 Ha1) as (mq & Hm & Hi). exists mq.
  split; [done|]. destruct (decide (p1 = p)) as [->|Hne].
  - rewrite Hv in Hv1. injection Hv1 as <-. destruct Hi. constructor; [done..| |done|done|done]. intros _.
    pose proof (count_nonneg (sender_woken p) ts). unfold no_slack. lia.
  - eapply port_frame; [exact Hi| |done|done|done|done|done]. unfold slack_at, no_slack. by rewrite decide_False.
Qed.

Lemma net_more slack slack' w ts sent got : net slack w ts sent got -> (forall p, slack p <= slack' p) -> net slack' w ts sent got.
Proof.
  intros [Hp Hq] Hs. constructor; [|done]. intros p v Hv Ha. destruct (Hp p v Hv Ha) as (mq & Hm & Hi). exists mq.
  split; [done|]. by eapply port_frame.
Qed.

Lemma slack_at_le p p' : no_slack p' <= slack_at p p'.
Proof. unfold no_slack, slack_at. by case_decide. Qed.

(** ** Sending *)

Section Send.
Context (w : world) (ts : gmap Z thread_pc) (sent got : list kmsg) (m : kmsg) (th : Z).
Let p := msgh_remote_port m.
Hypothesis Hlog : w_log w = [].
Hypothesis Hth : ts !! th = None.

Lemma send_dead_net q w1 : net (slack_at p) w ts sent got -> w_ports w !! p = Some q -> ip_active q = false ->
  ip_check_unlock p (put_port p (ip_release q) w) = Some w1 -> net no_slack w1 ts sent got /\ w_log w1 = [].
Proof using Hlog.
  intros Hnet Hq Ha Hc. assert (port_view w p = Some (view q)) as Hv by (unfold port_view; by rewrite Hq).
  unfold ip_check_unlock in Hc. cbn in Hc. rewrite lookup_insert_eq in Hc.
  assert (forall p1, p1 <> p -> slack_at p p1 <= no_slack p1) as Hsl.
  { intros p1 Hne. unfold slack_at, no_slack. by rewrite decide_False. }
  destruct (_ =? 0); injection Hc as <-; (split; [|done]).
  - eapply (net_dead _ _ w _ ts sent got p (view q) Hnet Hv Ha).
    + intros p1 Hne. split; [|by apply Hsl]. unfold port_view. cbn. by rewrite lookup_delete_ne, lookup_insert_ne.
    + intros v'. unfold port_view. cbn. by rewrite lookup_delete_eq.
    + intros [p1|s] Hne; [|done]. cbn. rewrite lookup_delete_ne, lookup_insert_ne by congruence. done.
    + intros mq. cbn. by rewrite lookup_delete_eq.
  - pose proof (put_port_changed w p q (ip_release q) Hq eq_refl) as [Hv' Hvs Hmq].
    eapply (net_dead _ _ w _ ts sent got p (view q) Hnet Hv Ha).
    + intros p1 Hne. split; [by apply Hvs|by apply Hsl].
    + intros v'. rewrite Hv'. intros [= <-]. done.
    + intros r _. apply Hmq.
    + intros mq. by rewrite Hmq.
Qed.

Lemma send_wait_net q opt t : net (slack_at p) w ts sent got -> w_ports w !! p = Some q -> ip_active q = true ->
  ip_qlimit q <= ip_msgcount q ->
  net no_slack (put_port p (ip_set_blocked (ip_blocked q ++ [th]) q) w) (<[th := At_send m opt t false]> ts) sent got.
Proof using Hth.
  intros Hnet Hq Ha Hfull. assert (port_view w p = Some (view q)) as Hv by (unfold port_view; by rewrite Hq).
  apply (net_full _ _ _ _ p (view q)) in Hnet; [|done|done].
  destruct (ni_ports _ _ _ _ _ _ Hnet p (view q) Hv Ha) as (mq & Hmq & _).
  pose proof (put_port_changed w p q (ip_set_blocked (ip_blocked q ++ [th]) q) Hq eq_refl) as Hvc.
  pose proof (ni_queues _ _ _ _ _ _ Hnet _ mq Hmq) as Hqi.
  assert (forall r1 mq1 x, get_mq w r1 = Some mq1 -> x ∈ imq_threads mq1 ->
    (<[th := At_send m opt t false]> ts) !! ith_thread x = ts !! ith_thread x) as Hrecv.
  { intros r1 mq1 x Hr1 Hx. destruct (qi_waiting _ _ _ _ (ni_queues _ _ _ _ _ _ Hnet r1 mq1 Hr1) x Hx) as (o & t' & Hs).
    rewrite lookup_insert_ne; [done|]. congruence. }
  eapply net_update; [exact Hnet|by eapply (view_changes w _ p (view q) _ mq)|..].
  - intros _ Hi. pose proof (fun th' => blocked_ne _ _ _ _ _ _ _ th th' None Hi) as Hbne. destruct Hi as [Hu Hl Hc Hb Hn Hw Ho].
    constructor; cbn [view pv_count pv_blocked pv_limit ip_set_blocked ip_msgcount ip_qlimit ip_blocked] in *.
    + done.
    + done.
    + rewrite count_fresh by done. cbn. lia.
    + intros _. pose proof (count_nonneg (sender_woken p) (<[th := At_send m opt t false]> ts)). unfold no_slack. lia.
    + apply NoDup_app. split_and!; [done| |by apply NoDup_singleton]. intros x Hx ->%list_elem_of_singleton. by apply (Hbne th Hx Hth).
    + intros th' [Hin| ->%list_elem_of_singleton]%elem_of_app; [|exists m, opt, t; by rewrite lookup_insert_eq].
      rewrite lookup_insert_ne; [by apply Hw|]. intros E. by apply (Hbne th' Hin Hth).
    + done.
  - intros p1 v1 mq1 mq1' Hne Hmq1 Hi1. assert (mq1' = mq1) as -> by (by destruct Hmq1 as [?|[-> ->]]).
    pose proof (fun th' => blocked_ne _ _ _ _ _ _ _ th th' None Hi1) as Hbne.
    eapply port_frame; [exact Hi1|done|by rewrite count_fresh by done; cbn; lia|rewrite count_fresh by done; cbn; lia| |done|done].
    intros th' Hin. rewrite lookup_insert_ne; [done|]. intros E. by apply (Hbne th' Hin Hth).
  - intros r1 mq1 x _. apply Hrecv.
  - apply (qi_ok _ _ _ _ Hqi).
  - apply (qi_nodup _ _ _ _ Hqi).
  - intros x Hx. rewrite (Hrecv _ mq x Hmq Hx). by apply (qi_waiting _ _ _ _ Hqi).
  - by left.
Qed.

Lemma send_turn_net opt t opt' t' w' res : net (slack_at p) w ts sent got -> bit (msgh_bits m) MACH_MSGH_BITS_CIRCULAR = false ->
  send_turn th m opt t w = Some (w', res) ->
  net no_slack w' (foldl deliver_event (after_send th m opt' t' res ts) (w_log w')) (sent ++ accepted m res w)
    (got ++ (received (w_log w')).*1).
Proof using Hlog Hth.
  intros Hnet Hcirc Hs. unfold send_turn in Hs. fold p in Hs. unfold accepted. fold p.
  destruct (w_ports w !! p) as [q|] eqn:Hq; [|done].
  destruct (ip_active q) eqn:Ha; cbn [negb] in Hs.
  2:{ destruct (ip_check_unlock p _) as [w1|] eqn:Hc; [|done]. injection Hs as <- <-.
      destruct (send_dead_net q w1 Hnet Hq Ha Hc) as [Hn Hl]. cbn. rewrite Hl. cbn. rewrite !app_nil_r.
      rewrite delete_id by done. exact Hn. }
  destruct (send_now m opt q) eqn:Hnow.
  - rewrite Hcirc in Hs. destruct (send_deliver m p w) as [w1|] eqn:Hd; [|done]. injection Hs as <- <-.
    cbn [after_send]. rewrite delete_id by done. by eapply deliver_net.
  - unfold send_now in Hnow. apply orb_false_iff in Hnow as [Hnow _]. apply orb_false_iff in Hnow as [Hnow _]. apply Z.ltb_ge in Hnow.
    destruct (bit opt MACH_SEND_TIMEOUT && (t =? 0)); injection Hs as <- <-; cbn; rewrite ?Hlog; cbn; rewrite !app_nil_r.
    + rewrite delete_id by done. eapply net_full; [exact Hnet|unfold port_view; by rewrite Hq|done].
    + by apply send_wait_net.
Qed.
End Send.
