(* ===== verification/IpcRecvSteps.v ===== *)
(** * Waking senders, and the steps of receivers *)
From S2P Require Import Prelude PortName IpcTypes IpcMqueue IpcPort IpcWorld IpcPortOps.
From S2P Require Import Counting IpcSpaceInv IpcCap IpcRight IpcSend IpcSendInv IpcSendSteps.

(** ** A change of one port that leaves the queues alone *)

Section View.
Context (slack slack' : Z -> Z) (w : world) (ts ts' : gmap Z thread_pc) (sent got : list kmsg).
Context (p : Z) (q q' : ipc_port).
Hypothesis Hnet : net slack w ts sent got.
Hypothesis Hq : w_ports w !! p = Some q.
Hypothesis Hmsgs : ip_messages q' = ip_messages q.
Hypothesis Hact : ip_active q' = ip_active q.
Hypothesis Hset : ip_pset q' = ip_pset q.
Hypothesis Hport : forall mq, ip_active q = true -> port_inv slack ts sent got p (view q) mq -> port_inv slack' ts' sent got p (view q') mq.
Hypothesis Hother : forall p1 v1 mq1, p1 <> p -> port_inv slack ts sent got p1 v1 mq1 -> port_inv slack' ts' sent got p1 v1 mq1.
Hypothesis Hthreads : forall r1 mq1 x, get_mq w r1 = Some mq1 -> x ∈ imq_threads mq1 -> ts' !! ith_thread x = ts !! ith_thread x.

Lemma net_view : net slack' (put_port p q' w) ts' sent got.
Proof using All.
  destruct Hnet as [Hp Hqs]. pose proof (put_port_changed w p q q' Hq Hmsgs) as [Hv Hvs Hmqs].
  assert (port_view w p = Some (view q)) as Hv0 by (unfold port_view; by rewrite Hq).
  constructor.
  - intros p1 v1 Hv1 Ha1. destruct (decide (p1 = p)) as [->|Hne].
    + rewrite Hv in Hv1. injection Hv1 as <-. cbn in Ha1. rewrite Hact in Ha1. destruct (Hp p (view q) Hv0 Ha1) as (mq & Hm & Hi).
      exists mq. rewrite Hmqs. split; [|by apply Hport]. unfold view_mq in *. cbn in *. by rewrite Hset.
    + rewrite Hvs in Hv1 by done. destruct (Hp p1 v1 Hv1 Ha1) as (mq & Hm & Hi). exists mq. rewrite Hmqs. split; [done|]. by apply Hother.
  - intros r mq Hr. rewrite Hmqs in Hr. eapply queue_frame; [by apply Hqs|intros x; by apply (Hthreads r mq)|].
    intros p1 v1 Hv1 Ha1. destruct (decide (p1 = p)) as [->|Hne]; [|exists v1; by rewrite Hvs].
    rewrite Hv0 in Hv1. injection Hv1 as <-. exists (view q'). split_and!; [done|cbn in *; congruence|done].
Qed.
End View.

(** A sender leaves the queue of senders. *)
Lemma net_unblock slack w ts sent got p q th : net slack w ts sent got -> w_ports w !! p = Some q ->
  net slack (put_port p (ip_set_blocked (filter (fun x => x <> th) (ip_blocked q)) q) w) ts sent got.
Proof.
  intros Hnet Hq. eapply net_view; [exact Hnet|done|done|done|done| |done|done].
  intros mq _ [Hu Hl Hc Hb Hn Hw Ho]. constructor; cbn in *; [done|done|done| | | |done].
  - intros Hne. apply Hb. intros E. by rewrite E in Hne.
  - by apply NoDup_filter.
  - intros th' [_ Hin]%list_elem_of_filter. by apply Hw.
Qed.

(** The first sender is woken, which uses one of the slack. *)
Lemma net_wake slack slack' w ts sent got p q sender rest : net slack w ts sent got -> w_ports w !! p = Some q ->
  ip_active q = true -> ip_blocked q = sender :: rest ->
  slack p <= slack' p + 1 -> (forall p1, p1 <> p -> slack p1 <= slack' p1) ->
  net slack' (put_port p (ip_set_blocked rest q) w) (deliver_event ts (Thread_go sender MACH_MSG_SUCCESS)) sent got.
Proof.
  intros Hnet Hq Ha Hbl Hs Hs1. assert (port_view w p = Some (view q)) as Hv0 by (unfold port_view; by rewrite Hq).
  destruct (ni_ports _ _ _ _ _ _ Hnet p (view q) Hv0 Ha) as (mq0 & _ & Hi0).
  destruct (pi_waiting _ _ _ _ _ _ _ Hi0 sender) as (m & opt & t & Hsender & Hm); [cbn; rewrite Hbl; apply list_elem_of_here|].
  rewrite (deliver_alter ts (Thread_go sender MACH_MSG_SUCCESS) sender _ eq_refl Hsender). cbn [wake_pc].
  eapply net_view; [exact Hnet|done|done|done|done|..].
  - intros mq _ [Hu Hl Hc Hb Hn Hw Ho]. cbn [view pv_count pv_blocked pv_limit] in *. rewrite Hbl in *. apply NoDup_cons in Hn as [Hni Hn].
    constructor; cbn [view pv_count pv_blocked pv_limit ip_blocked ip_set_blocked]; [done|done| | |done| |done].
    + rewrite (count_insert _ _ _ _ _ Hsender). cbn. cbn in Hc. lia.
    + intros _. specialize (Hb ltac:(done)). rewrite (count_insert _ _ _ _ _ Hsender). cbn. rewrite Hm, Z.eqb_refl. cbn in *. lia.
    + intros th Hin. rewrite lookup_insert_ne by (intros ->; done). apply Hw. by apply list_elem_of_further.
  - intros p1 v1 mq1 Hne Hi1. eapply port_frame; [exact Hi1|by apply Hs1| | | |done|done].
    + rewrite (count_insert _ _ _ _ _ Hsender). cbn. lia.
    + rewrite (count_insert _ _ _ _ _ Hsender). cbn. destruct (_ =? _); cbn; lia.
    + intros th Hin. rewrite lookup_insert_ne; [done|]. intros ->. destruct (pi_waiting _ _ _ _ _ _ _ Hi1 th Hin) as (m1 & o1 & t1 & Hs2 & Hm1).
      rewrite Hsender in Hs2. congruence.
  - intros r mq x Hr Hx. destruct (qi_waiting _ _ _ _ (ni_queues _ _ _ _ _ _ Hnet r mq Hr) x Hx) as (o & t' & Hs2).
    rewrite lookup_insert_ne; [done|]. intros ->. rewrite Hsender in Hs2. done.
Qed.

(** Several senders are woken. *)
Lemma net_wake_many n slack slack' w ts sent got p q : net slack w ts sent got -> w_ports w !! p = Some q ->
  ip_active q = true -> slack p <= slack' p + Z.of_nat n \/ (length (ip_blocked q) <= n)%nat ->
  (forall p1, p1 <> p -> slack p1 <= slack' p1) ->
  net slack' (put_port p (ip_set_blocked (skipn n (ip_blocked q)) q) w)
    (foldl deliver_event ts ((fun th => Thread_go th MACH_MSG_SUCCESS) <$> firstn n (ip_blocked q))) sent got.
Proof.
  revert slack w ts q. induction n as [|n IH]; intros slack w ts q Hnet Hq Ha Hs Hs1.
  - rewrite take_0, drop_0. cbn [fmap list_fmap foldl]. eapply net_view; [exact Hnet|done|done|done|done| | |done].
    + intros mq _ [Hu Hl Hc Hb Hn Hw Ho]. constructor; cbn in *; [done..| |done|done|done]. intros Hne. specialize (Hb Hne).
      destruct Hs as [Hs|Hs]; [lia|]. by destruct (ip_blocked q); [|cbn in Hs; lia].
    + intros p1 v1 mq1 Hne Hi1. by eapply port_frame; [exact Hi1|apply Hs1|..].
  - destruct (ip_blocked q) as [|sender rest] eqn:Hbl; rewrite ?take_nil, ?drop_nil, ?firstn_cons, ?skipn_cons; cbn [fmap list_fmap foldl].
    + eapply net_view; [exact Hnet|done|done|done|done| | |done].
      * intros mq _ [Hu Hl Hc Hb Hn Hw Ho]. constructor; cbn in *; [done..| |constructor| |done]; [done|]. intros th Hin. by apply elem_of_nil in Hin.
      * intros p1 v1 mq1 Hne Hi1. by eapply port_frame; [exact Hi1|apply Hs1|..].
    + set (slack1 := fun p1 => if decide (p1 = p) then slack p - 1 else slack p1).
      pose proof (net_wake slack slack1 w ts sent got p q sender rest Hnet Hq Ha Hbl) as Hnw.
      specialize (IH slack1 _ _ (ip_set_blocked rest q) (Hnw ltac:(unfold slack1; rewrite decide_True by done; lia)
        ltac:(intros p1 Hne; unfold slack1; by rewrite decide_False by done)) (lookup_insert_eq _ _ _) Ha).
      cbn in IH. unfold put_port in IH. cbn in IH. rewrite insert_insert_eq in IH. apply IH.
      * unfold slack1. rewrite decide_True by done. destruct Hs as [Hs|Hs]; [left; lia|right; cbn in Hs; lia].
      * intros p1 Hne. unfold slack1. rewrite decide_False by done. by apply Hs1.
Qed.

Lemma received_go (ths : list Z) : received ((fun th => Thread_go th MACH_MSG_SUCCESS) <$> ths) = [].
Proof. by induction ths. Qed.

(** ** Changing the queue limit *)

Lemma set_qlimit_net w ts sent got port qlimit w' : net no_slack w ts sent got -> w_log w = [] -> is_u32 qlimit ->
  ipc_port_set_qlimit port qlimit w = Some w' ->
  net no_slack w' (foldl deliver_event ts (w_log w')) sent (got ++ (received (w_log w')).*1).
Proof.
  intros Hnet Hlog Hu Hs. unfold ipc_port_set_qlimit in Hs. destruct (w_ports w !! port) as [q|] eqn:Hq; [|done].
  destruct (ip_active q) eqn:Ha; [|done]. remember (if ip_qlimit q <? qlimit then Z.to_nat (u32 (qlimit - ip_qlimit q)) else O) as n eqn:Hn0. injection Hs as <-. cbn. rewrite Hlog. cbn [app].
  rewrite received_go, app_nil_r.
  assert (port_view w port = Some (view q)) as Hv by (unfold port_view; by rewrite Hq).
  destruct (ni_ports _ _ _ _ _ _ Hnet port (view q) Hv Ha) as (mq0 & _ & Hi0). pose proof (pi_limit _ _ _ _ _ _ _ Hi0) as Hl0. cbn in Hl0.
  set (slack1 := fun p1 => if decide (p1 = port) then Z.of_nat n else 0).
  assert (net slack1 (put_port port (ip_set_qlimit qlimit q) w) ts sent got) as Hnet1.
  { eapply net_view; [exact Hnet|done|done|done|done| | |done].
    - intros mq _ [Hu1 Hl Hc Hb Hn Hw Ho]. constructor; cbn in *; [done..| |done|done|done]. intros Hne. specialize (Hb Hne).
      unfold slack1, no_slack in *. rewrite decide_True by done. destruct (Z.ltb_spec (ip_qlimit q) qlimit); [|lia].
      rewrite u32_small in Hn0 by (unfold is_u32 in *; lia). lia.
    - intros p1 v1 mq1 Hne Hi1. eapply port_frame; [exact Hi1| |done..]. unfold slack1, no_slack. by rewrite decide_False. }
  pose proof (net_wake_many n slack1 no_slack _ ts sent got port (ip_set_qlimit qlimit q) Hnet1 (lookup_insert_eq _ _ _) Ha) as Hw.
  unfold put_port in Hw. cbn in Hw. rewrite insert_insert_eq in Hw. apply Hw.
  - left. unfold slack1, no_slack. rewrite decide_True by done. lia.
  - intros p1 Hne. unfold slack1, no_slack. by rewrite decide_False.
Qed.

(** ** The end of a receive *)

Lemma net_no_blocked w ts sent got p v : net (slack_at p) w ts sent got -> port_view w p = Some v -> pv_blocked v = [] ->
  net no_slack w ts sent got.
Proof.
  intros [Hp Hq] Hv Hb. constructor; [|done]. intros p1 v1 Hv1 Ha1. destruct (Hp p1 v1 Hv1 Ha1) as (mq & Hm & Hi). exists mq.
  split; [done|]. destruct (decide (p1 = p)) as [->|Hne].
  - rewrite Hv in Hv1. injection Hv1 as <-. destruct Hi. by constructor.
  - eapply port_frame; [exact Hi| |done..]. unfold slack_at, no_slack. by rewrite decide_False.
Qed.

Section Finish.
Context (w : world) (ts : gmap Z thread_pc) (sent got : list kmsg) (m : kmsg) (th max : Z) (q : ipc_port).
Let p := msgh_remote_port m.
Hypothesis Hnet : net no_slack w ts sent got.
Hypothesis Hth : ts !! th = Some (At_finish m max).
Hypothesis Hq : w_ports w !! p = Some q.

Lemma finish_count_net : ip_active q = true -> 0 < ip_msgcount q ->
  net (slack_at p) (put_port p (ip_set_msgcount (u32 (ip_msgcount q - 1)) q) w) (delete th ts) sent got.
Proof using All.
  intros Ha Hpos. destruct (not_waiting_unqueued _ _ _ _ _ _ _ _ Hnet Hth eq_refl) as [Hub Huq].
  assert (forall p1 v1 mq1 th', port_inv no_slack ts sent got p1 v1 mq1 -> th' ∈ pv_blocked v1 -> delete th ts !! th' = ts !! th') as Hkeep.
  { intros p1 v1 mq1 th' Hi1 Hin. rewrite lookup_delete_ne; [done|]. apply not_eq_sym.
    by eapply (blocked_ne _ _ _ _ _ _ _ _ _ _ Hi1 Hin Hth). }
  eapply net_view; [exact Hnet|exact Hq|done|done|done|..].
  - intros mq _ Hi. pose proof (fun th' => Hkeep p _ mq th' Hi) as Hk. destruct Hi as [Hu Hl Hc Hb Hn Hw Ho].
    cbn [view pv_count pv_blocked pv_limit] in *. assert (u32 (ip_msgcount q - 1) = ip_msgcount q - 1) as Hm1.
    { apply u32_small. unfold is_u32 in *. lia. }
    constructor; cbn [view pv_count pv_blocked pv_limit ip_msgcount ip_set_msgcount ip_qlimit ip_blocked] in *; rewrite ?Hm1; [|done|..].
    + unfold is_u32 in *. lia.
    + rewrite (count_delete _ ts th _ Hth). cbn. unfold p. rewrite Z.eqb_refl. cbn. fold p. lia.
    + intros Hne. specialize (Hb Hne). rewrite (count_delete _ ts th _ Hth). unfold slack_at, no_slack in *.
      rewrite decide_True by done. cbn. lia.
    + done.
    + intros th' Hin. rewrite Hk by done. by apply Hw.
    + done.
  - intros p1 v1 mq1 Hne Hi1. eapply port_frame; [exact Hi1|apply slack_at_le| | |intros th'; by eapply Hkeep|done|done].
    + rewrite (count_delete _ ts th _ Hth). cbn. rewrite (proj2 (Z.eqb_neq (msgh_remote_port m) p1)) by done. cbn. lia.
    + rewrite (count_delete _ ts th _ Hth). cbn. lia.
  - intros r mq x Hr Hx. rewrite lookup_delete_ne; [done|]. intros ->. apply (Huq r mq Hr). by apply list_elem_of_fmap_2.
Qed.
End Finish.

Lemma recv_finish_net w ts sent got th m max w' : net no_slack w ts sent got -> w_log w = [] ->
  ts !! th = Some (At_finish m max) -> recv_finish m max w = Some w' ->
  net no_slack w' (foldl deliver_event (delete th ts) (w_log w')) sent (got ++ (received (w_log w')).*1).
Proof.
  intros Hnet Hlog Hth Hf. unfold recv_finish in Hf. destruct (_ <=? _); [|done].
  set (w0 := if negb (ikm_marequest m =? 0) then emit _ w else w) in Hf. destruct (negb (bit _ _)); [|done].
  assert (exists evs, w0 = emit evs w /\ received evs = [] /\ forall ts1, foldl deliver_event ts1 evs = ts1) as (evs & -> & Hr & Hd).
  { unfold w0. destruct (negb _); [by exists [Marequest_destroy (ikm_marequest m)]|]. exists []. split_and!; [|done|done].
    unfold emit. rewrite app_nil_r. by destruct w. }
  cbn [w_ports emit] in Hf. destruct (w_ports w !! msgh_remote_port m) as [q|] eqn:Hq; [|done].
  destruct (ip_active q) eqn:Ha.
  2:{ injection Hf as <-. cbn [w_log emit]. rewrite Hlog. cbn [app]. rewrite Hd, Hr, app_nil_r.
      eapply (net_delete no_slack); [exact Hnet|done|by eapply not_waiting_unqueued| |intros; cbn; lia].
      intros p v Hv Hav. cbn. apply Z.eqb_neq. intros E. rewrite <- E in Hv. unfold port_view in Hv. cbn [w_ports emit] in Hv. rewrite Hq in Hv. injection Hv as <-. cbn in Hav. congruence. }
  destruct (Z.ltb_spec 0 (ip_msgcount q)) as [Hpos|]; [|done].
  pose proof (finish_count_net w ts sent got m th max q Hnet Hth Hq Ha Hpos) as Hn1.
  set (q1 := ip_set_msgcount (u32 (ip_msgcount q - 1)) q) in *. set (p := msgh_remote_port m) in *.
  assert (port_view (put_port p q1 w) p = Some (view q1)) as Hv1 by (unfold port_view; cbn; by rewrite lookup_insert_eq).
  destruct (ip_blocked q1) as [|sender rest] eqn:Hbl; [|destruct (Z.ltb_spec (ip_msgcount q1) (ip_qlimit q1))];
    injection Hf as <-; cbn [w_log emit put_port]; rewrite Hlog; cbn [app]; rewrite ?foldl_app, Hd, ?received_app, Hr, app_nil_r.
  - by eapply net_no_blocked.
  - cbn [foldl]. pose proof (net_wake _ no_slack _ _ _ _ p q1 sender rest Hn1 (lookup_insert_eq _ _ _) Ha Hbl) as Hw.
    unfold put_port in Hw. cbn in Hw. rewrite insert_insert_eq in Hw. apply Hw.
    + unfold slack_at, no_slack. rewrite decide_True by done. lia.
    + intros p1 Hne. unfold slack_at, no_slack. by rewrite decide_False.
  - by eapply net_full.
Qed.

(** ** Taking a message *)

Section Receive.
Context (w : world) (ts : gmap Z thread_pc) (sent got : list kmsg) (th : Z) (r : mq_ref).
Hypothesis Hnet : net no_slack w ts sent got.
Hypothesis Hth : ts !! th = None.

Lemma fresh_receiver pc r1 mq1 x : get_mq w r1 = Some mq1 -> x ∈ imq_threads mq1 -> (<[th := pc]> ts) !! ith_thread x = ts !! ith_thread x.
Proof using Hnet Hth.
  intros Hr1 Hx. destruct (qi_waiting _ _ _ _ (ni_queues _ _ _ _ _ _ Hnet r1 mq1 Hr1) x Hx) as (o & t' & Hs).
  rewrite lookup_insert_ne; [done|]. congruence.
Qed.

Lemma fresh_blocked pc p v mq th' : port_inv no_slack ts sent got p v mq -> th' ∈ pv_blocked v -> (<[th := pc]> ts) !! th' = ts !! th'.
Proof using Hth.
  intros Hi Hin. rewrite lookup_insert_ne; [done|]. apply not_eq_sym. by eapply (blocked_ne _ _ _ _ _ _ _ _ _ _ Hi Hin Hth).
Qed.

Lemma take_net mq m rest max w1 q seqno : get_mq w r = Some mq -> imq_messages mq = m :: rest ->
  put_mq r (mk_mqueue rest (imq_threads mq)) w = Some w1 -> w_ports w1 !! msgh_remote_port m = Some q ->
  net no_slack (put_port (msgh_remote_port m) (ip_set_seqno seqno q) w1) (<[th := At_finish m max]> ts) sent (got ++ [m]).
Proof using Hnet Hth.
  intros Hr Hmsgs Hput Hq. set (p := msgh_remote_port m) in *.
  pose proof (ni_queues _ _ _ _ _ _ Hnet r mq Hr) as Hqi.
  destruct (qi_messages _ _ _ _ Hqi m) as (v & Hv & Hav & Hvr); [rewrite Hmsgs; apply list_elem_of_here|]. fold p in Hv, Hvr.
  destruct (put_mq_changed w r mq (mk_mqueue rest (imq_threads mq)) Hr) as (w1' & Hput' & Hmc & _).
  rewrite Hput in Hput'. injection Hput' as <-. destruct Hmc as [Hmv Hmm Hms].
  pose proof (put_port_changed w1 p q (ip_set_seqno seqno q) Hq eq_refl) as [Hcv Hcvs Hcm].
  assert (view q = v) as Hview. { pose proof (Hmv p) as E. unfold port_view in E at 1. rewrite Hq, Hv in E. by injection E. }
  assert (changes w (put_port p (ip_set_seqno seqno q) w1) p v v mq (mk_mqueue rest (imq_threads mq))) as Hch.
  { constructor; [done|by rewrite Hvr|by rewrite Hcv; f_equal| | | |done|done].
    - intros p1 Hne. by rewrite Hcvs.
    - by rewrite Hcm, Hvr.
    - intros r1 Hne. rewrite Hcm. apply Hms. by rewrite <- Hvr. }
  eapply net_update; [exact Hnet|exact Hch|..]; rewrite ?Hvr; cbn [imq_threads imq_messages].
  - intros _ Hi. pose proof (fun pc th' => fresh_blocked pc p v mq th' Hi) as Hk. destruct Hi as [Hu Hl Hc Hb Hn Hw Ho]. rewrite Hmsgs in *.
    rewrite filter_cons_True in Hc, Ho by done. constructor; cbn [imq_messages]; [done|done| | |done| |].
    + rewrite count_fresh by done. cbn. fold p. rewrite Z.eqb_refl. cbn in *. lia.
    + intros Hne. specialize (Hb Hne). rewrite count_fresh by done. cbn. lia.
    + intros th' Hin. rewrite Hk by done. by apply Hw.
    + rewrite filter_app. unfold p in *. rewrite is_for_self, Ho, <- app_assoc. done.
  - intros p1 v1 mq1 mq1' Hne Hmq1 Hi1.
    assert (port_inv no_slack (<[th := At_finish m max]> ts) sent (got ++ [m]) p1 v1 mq1) as Hi2.
    { eapply port_frame; [exact Hi1|done| | |intros th'; by eapply fresh_blocked|done|].
      - rewrite count_fresh by done. cbn. fold p. rewrite (proj2 (Z.eqb_neq p p1)) by done. cbn. lia.
      - rewrite count_fresh by done. cbn. lia.
      - by rewrite filter_app, (is_for_other p1 p m), app_nil_r. }
    destruct Hmq1 as [-> |[-> ->]]; [done|]. destruct Hi2 as [Hu Hl Hc Hb Hn Hw Ho]. rewrite Hmsgs in *.
    rewrite filter_cons_False in Hc, Ho by (unfold is_for; fold p; congruence). by constructor.
  - intros r1 mq1 x _. apply fresh_receiver.
  - intros Hne. cbn in *. pose proof (qi_ok _ _ _ _ Hqi Hne) as E. by rewrite Hmsgs in E.
  - apply (qi_nodup _ _ _ _ Hqi).
  - intros x Hx. rewrite (fresh_receiver _ r mq) by done. by apply (qi_waiting _ _ _ _ Hqi).
  - intros m1 Hin. left. rewrite Hmsgs. by apply list_elem_of_further.
Qed.

Lemma wait_net mq opt max t w1 : get_mq w r = Some mq -> imq_messages mq = [] ->
  put_mq r (mk_mqueue [] (imq_threads mq ++ [mk_receiver th max])) w = Some w1 ->
  net no_slack w1 (<[th := At_receive r opt max t In_progress]> ts) sent got.
Proof using Hnet Hth.
  intros Hr Hmsgs Hput. pose proof (ni_queues _ _ _ _ _ _ Hnet r mq Hr) as Hqi.
  destruct (put_mq_changed w r mq (mk_mqueue [] (imq_threads mq ++ [mk_receiver th max])) Hr) as (w1' & Hput' & Hmc & _).
  rewrite Hput in Hput'. injection Hput' as <-.
  eapply net_mq; [by apply (net_thread _ _ _ _ _ _ th)|exact Hr|exact Hmc|by rewrite Hmsgs|done|..]; cbn [imq_threads].
  - rewrite fmap_app. cbn. apply NoDup_app. split_and!; [apply (qi_nodup _ _ _ _ Hqi)| |by apply NoDup_singleton].
    intros x (y & -> & Hy)%list_elem_of_fmap Hx%list_elem_of_singleton. destruct (qi_waiting _ _ _ _ Hqi y Hy) as (o & t' & Hs). congruence.
  - intros x [Hx| ->%list_elem_of_singleton]%elem_of_app; [|exists opt, t; cbn; by rewrite lookup_insert_eq].
    rewrite (fresh_receiver _ r mq) by done. by apply (qi_waiting _ _ _ _ Hqi).
Qed.

Lemma recv_turn_net opt max t opt' t' w' res : w_log w = [] -> recv_turn th r opt max t w = Some (w', res) ->
  net no_slack w' (foldl deliver_event (after_recv th r opt' max t' res ts) (w_log w')) sent
    ((got ++ taken res) ++ (received (w_log w')).*1).
Proof using Hnet Hth.
  intros Hlog Ht. unfold recv_turn in Ht. destruct (get_mq w r) as [mq|] eqn:Hr; [|done].
  destruct (imq_messages mq) as [|m rest] eqn:Hmsgs.
  - destruct (_ && _).
    + injection Ht as <- <-. rewrite Hlog. cbn. rewrite !app_nil_r, delete_id by done. exact Hnet.
    + destruct (put_mq _ _ _) as [w1|] eqn:Hput; [|done]. injection Ht as <- <-.
      destruct (put_mq_changed w r mq (mk_mqueue [] (imq_threads mq ++ [mk_receiver th max])) Hr) as (w2 & E & _ & Hl).
      rewrite Hput in E. injection E as <-. rewrite Hl, Hlog. cbn. rewrite !app_nil_r. by eapply wait_net.
  - destruct (_ <? _); [injection Ht as <- <-; rewrite Hlog; cbn; rewrite !app_nil_r, delete_id by done; exact Hnet|].
    destruct (put_mq _ _ _) as [w1|] eqn:Hput; [|done]. destruct (w_ports w1 !! _) as [q|] eqn:Hq; [|done]. injection Ht as <- <-.
    destruct (put_mq_changed w r mq (mk_mqueue rest (imq_threads mq)) Hr) as (w2 & E & _ & Hl).
    rewrite Hput in E. injection E as <-. cbn [w_log put_port]. rewrite Hl, Hlog. cbn. rewrite !app_nil_r. by eapply take_net.
Qed.
End Receive.

(** ** After a wait *)

Lemma after_recv_delete th r opt max t res ts : after_recv th r opt max t res (delete th ts) = after_recv th r opt max t res ts.
Proof. destruct res; cbn; [apply insert_delete_eq|apply delete_delete_eq|apply delete_delete_eq|apply insert_delete_eq]. Qed.

Lemma after_send_delete th m opt t res ts : after_send th m opt t res (delete th ts) = after_send th m opt t res ts.
Proof. destruct res; cbn; [apply delete_delete_eq|apply insert_delete_eq]. Qed.

(** A receiver that waits leaves its queue. *)
Lemma net_unreceive w ts sent got th r opt max t mq w1 : net no_slack w ts sent got ->
  ts !! th = Some (At_receive r opt max t In_progress) -> get_mq w r = Some mq ->
  put_mq r (mk_mqueue (imq_messages mq) (filter (fun x => ith_thread x <> th) (imq_threads mq))) w = Some w1 ->
  net no_slack w1 (delete th ts) sent got /\ w_log w1 = w_log w.
Proof.
  intros Hnet Hth Hr Hput. pose proof (ni_queues _ _ _ _ _ _ Hnet r mq Hr) as [Hok Hnd Hw Hm].
  destruct (put_mq_changed w r mq (mk_mqueue (imq_messages mq) (filter (fun x => ith_thread x <> th) (imq_threads mq))) Hr) as (w2 & E & Hmc & Hl).
  rewrite Hput in E. injection E as <-. split; [|done].
  assert (net no_slack w1 ts sent got) as Hn1.
  { eapply net_mq; [exact Hnet|exact Hr|exact Hmc|done|..]; cbn [imq_threads].
    - intros Hne. cbn in *. apply Hok. intros E. by rewrite E in Hne.
    - eapply sublist_NoDup; [exact Hnd|]. apply fmap_sublist, sublist_filter.
    - intros x [_ Hx]%list_elem_of_filter. by apply Hw. }
  eapply (net_delete no_slack); [exact Hn1|exact Hth| |done|intros; cbn; lia]. split.
  - intros p v Hv Ha Hin. destruct (ni_ports _ _ _ _ _ _ Hn1 p v Hv Ha) as (mq1 & _ & Hi).
    by eapply (blocked_ne _ _ _ _ _ _ _ th th _ Hi Hin Hth).
  - intros r1 mq1 Hr1 (x & Ex & Hx)%list_elem_of_fmap. destruct (decide (r1 = r)) as [->|Hne].
    + rewrite (mc_mq _ _ _ _ Hmc) in Hr1. injection Hr1 as <-. cbn in Hx. apply list_elem_of_filter in Hx as [Hx _]. congruence.
    + destruct (qi_waiting _ _ _ _ (ni_queues _ _ _ _ _ _ Hn1 r1 mq1 Hr1) x Hx) as (o & t1 & Hs). rewrite <- Ex, Hth in Hs. congruence.
Qed.

Lemma recv_resume_net w ts sent got th r opt max t state why w' res : net no_slack w ts sent got -> w_log w = [] ->
  ts !! th = Some (At_receive r opt max t state) -> recv_resume th r opt max t state why w = Some (w', res) ->
  net no_slack w' (foldl deliver_event (after_recv th r opt max t res ts) (w_log w')) sent
    ((got ++ match state with In_progress => taken res | _ => [] end) ++ (received (w_log w')).*1).
Proof.
  intros Hnet Hlog Hth Hs. destruct state as [m seqno|size|mr|]; cbn [recv_resume] in Hs.
  - injection Hs as <- <-. rewrite Hlog. cbn. rewrite !app_nil_r. eapply (net_replace no_slack); [exact Hnet|exact Hth|done|done|done].
  - injection Hs as <- <-. rewrite Hlog. cbn. rewrite !app_nil_r.
    eapply (net_delete no_slack); [exact Hnet|exact Hth|by eapply not_waiting_unqueued|done|done].
  - case_bool_decide; [|done]. injection Hs as <- <-. rewrite Hlog. cbn. rewrite !app_nil_r.
    eapply (net_delete no_slack); [exact Hnet|exact Hth|by eapply not_waiting_unqueued|done|done].
  - destruct (get_mq w r) as [mq|] eqn:Hr; [|done]. case_bool_decide; [|done]. destruct (put_mq _ _ _) as [w1|] eqn:Hput; [|done].
    destruct (net_unreceive _ _ _ _ _ _ _ _ _ _ _ Hnet Hth Hr Hput) as [Hn1 Hl1]. rewrite Hlog in Hl1. destruct why; [done| | |done].
    + destruct (bit opt _); [|done]. rewrite <- after_recv_delete. by eapply recv_turn_net; [exact Hn1|apply lookup_delete_eq|..].
    + injection Hs as <- <-. rewrite Hl1. cbn. rewrite !app_nil_r. exact Hn1.
Qed.

(** A sender that waits leaves its queue. *)
Lemma net_unsend w ts sent got th m opt t q blocked : net no_slack w ts sent got ->
  ts !! th = Some (At_send m opt t false) -> w_ports w !! msgh_remote_port m = Some q ->
  thread_rmqueue th (ip_blocked q) = Some blocked ->
  net no_slack (put_port (msgh_remote_port m) (ip_set_blocked blocked q) w) (delete th ts) sent got.
Proof.
  intros Hnet Hth Hq Hrm. unfold thread_rmqueue in Hrm. case_bool_decide; [|done]. injection Hrm as <-.
  set (p := msgh_remote_port m) in *. pose proof (net_unblock no_slack w ts sent got p q th Hnet Hq) as Hn1.
  eapply (net_delete no_slack); [exact Hn1|exact Hth| |done|intros; cbn; lia]. split.
  - intros p1 v1 Hv1 Ha1 Hin. destruct (ni_ports _ _ _ _ _ _ Hn1 p1 v1 Hv1 Ha1) as (mq & _ & Hi).
    destruct (pi_waiting _ _ _ _ _ _ _ Hi th Hin) as (m1 & o1 & t1 & Hs1 & Hm1). rewrite Hth in Hs1. injection Hs1 as <- <- <-.
    fold p in Hm1. subst p1. unfold port_view in Hv1. cbn in Hv1. rewrite lookup_insert_eq in Hv1. injection Hv1 as <-.
    cbn in Hin. apply list_elem_of_filter in Hin as [Hin _]. done.
  - intros r mq Hr (x & Ex & Hx)%list_elem_of_fmap.
    destruct (qi_waiting _ _ _ _ (ni_queues _ _ _ _ _ _ Hn1 r mq Hr) x Hx) as (o & t1 & Hs). rewrite <- Ex, Hth in Hs. congruence.
Qed.

Lemma accepted_active m res w w1 :
  ip_active <$> w_ports w1 !! msgh_remote_port m = ip_active <$> w_ports w !! msgh_remote_port m -> accepted m res w1 = accepted m res w.
Proof.
  unfold accepted. intros E. destruct (w_ports w1 !! _) as [q1|], (w_ports w !! _) as [q|]; try done. cbn in E. injection E as ->. done.
Qed.

Lemma send_resume_net w ts sent got th m opt t woken why w' res : net no_slack w ts sent got -> w_log w = [] ->
  ts !! th = Some (At_send m opt t woken) -> bit (msgh_bits m) MACH_MSGH_BITS_CIRCULAR = false ->
  send_resume th m opt t (if woken : bool then Some MACH_MSG_SUCCESS else None) why w = Some (w', res) ->
  net no_slack w' (foldl deliver_event (after_send th m opt t res ts) (w_log w')) (sent ++ accepted m res w)
    (got ++ (received (w_log w')).*1).
Proof.
  intros Hnet Hlog Hth Hcirc Hs. rewrite <- after_send_delete. destruct woken; cbn [send_resume] in Hs.
  - case_bool_decide; [|done]. eapply send_turn_net; [exact Hlog|apply lookup_delete_eq| |done|done].
    eapply (net_delete no_slack); [exact Hnet|exact Hth|by eapply not_waiting_unqueued|done|].
    intros p. unfold no_slack, slack_at. cbn. case_decide; [destruct (_ =? _); cbn; lia|].
    rewrite (proj2 (Z.eqb_neq (msgh_remote_port m) p)) by congruence. cbn. lia.
  - destruct (w_ports w !! msgh_remote_port m) as [q|] eqn:Hq; [|done]. destruct (thread_rmqueue _ _) as [blocked|] eqn:Hrm; [|done].
    pose proof (net_unsend _ _ _ _ _ _ _ _ _ _ Hnet Hth Hq Hrm) as Hn1. destruct why; [done| | |done].
    + destruct (bit opt _); [|done].
      rewrite <- (accepted_active m res w (put_port (msgh_remote_port m) (ip_set_blocked blocked q) w)) by (cbn; by rewrite lookup_insert_eq, Hq).
      eapply send_turn_net; [exact Hlog|apply lookup_delete_eq| |done|exact Hs]. eapply net_more; [exact Hn1|]. intros p. apply slack_at_le.
    + injection Hs as <- <-. cbn. rewrite Hlog. cbn. rewrite !app_nil_r, delete_delete_eq. exact Hn1.
Qed.

(** ** All steps *)

Lemma mqueue_send_user ipc_space_kernel server fuel th m opt t w q res : w_ports w !! msgh_remote_port m = Some q ->
  ip_receiver q <> ipc_space_kernel -> ipc_mqueue_send ipc_space_kernel server fuel th m opt t w = Some res ->
  send_turn th m opt t w = Some res.
Proof.
  intros Hq Hr. destruct fuel; cbn [ipc_mqueue_send]; destruct (IP_VALID _); try done; rewrite Hq, (proj2 (Z.eqb_neq _ _) Hr); done.
Qed.

Lemma settle_inv w ts sent got :
  net no_slack w (foldl deliver_event ts (w_log w)) sent (got ++ (received (w_log w)).*1) -> machine_inv (settle w ts sent got).
Proof. intros Hn. split; [done|exact Hn]. Qed.

Lemma step_inv mc mc' : step mc mc' -> machine_inv mc -> machine_inv mc'.
Proof.
  intros Hst [Hlog Hnet]. destruct Hst; cbn in Hlog, Hnet; apply settle_inv.
  - eapply send_turn_net; [done|done| |done|by eapply mqueue_send_user]. eapply net_more; [exact Hnet|]. intros p. apply slack_at_le.
  - by eapply send_resume_net.
  - by eapply recv_turn_net.
  - by eapply recv_resume_net.
  - by eapply recv_finish_net.
  - by eapply set_qlimit_net.
Qed.

Lemma initial_inv mc : initial mc -> machine_inv mc.
Proof.
  intros (Hts & Hse & Hgo & Hlog & Hp & Hs). split; [done|]. rewrite Hts, Hse, Hgo.
  assert (forall r mq, get_mq (mc_world mc) r = Some mq -> mq = ipc_mqueue_init) as Hmq.
  { intros [p|p] mq; cbn; [destruct (w_ports _ !! p) as [q|] eqn:E|destruct (w_psets _ !! p) as [q|] eqn:E]; intros [= <-].
    - by apply (Hp p q E).
    - by apply (Hs p q E). }
  constructor.
  - intros p v Hv Ha. unfold port_view in Hv. destruct (w_ports (mc_world mc) !! p) as [q|] eqn:Hq; [|done]. injection Hv as <-.
    destruct (Hp p q Hq) as (Hm & Hc & Hb & Hl & Hset). assert (is_Some (get_mq (mc_world mc) (view_mq p (view q)))) as [mq Hmq1].
    { unfold view_mq. cbn. destruct (Z.eqb_spec (ip_pset q) IPS_NULL) as [|Hne]; cbn; [by rewrite Hq|].
      destruct Hset as [?|[s ->]]; [done|done]. }
    exists mq. split; [done|]. rewrite (Hmq _ _ Hmq1). constructor; cbn; rewrite ?Hc, ?Hb; try done.
    + by constructor.
    + intros th Hin. by apply elem_of_nil in Hin.
  - intros r mq Hr. rewrite (Hmq _ _ Hr). constructor; cbn; [done|by constructor| |]; intros x Hx; by apply elem_of_nil in Hx.
Qed.

Lemma reachable_inv mc : reachable mc -> machine_inv mc.
Proof. intros (mc0 & H0 & Hst). apply initial_inv in H0. induction Hst as [|x y z Hxy _ IH]; [done|]. apply IH. by eapply step_inv. Qed.
