(* ===== verification/IpcSendThms.v ===== *)
(** * What threads that send and receive can rely on

    Every message a live port accepts is received once and in order, the counter
    of the port is exact, and a sender that waits is woken when its turn comes:
    receivers can always drain the queue up to the point where it goes on. *)
From S2P Require Import Prelude PortName IpcTypes IpcMqueue IpcPort IpcWorld IpcPortOps.
From S2P Require Import Counting IpcSpaceInv IpcCap IpcRight IpcSend IpcSendInv IpcSendSteps.
From S2P Require Import IpcRecvSteps.

Implicit Types (w : world) (ts : gmap Z thread_pc) (v : pview).

(** ** Messages of a machine are not circular *)

Definition plain (m : kmsg) : Prop := bit (msgh_bits m) MACH_MSGH_BITS_CIRCULAR = false.

Lemma accepted_plain m res w : plain m -> Forall plain (accepted m res w).
Proof.
  intros Hm. unfold accepted. destruct res as [[]|]; try constructor. destruct (w_ports w !! _) as [q|]; [|constructor].
  destruct (ip_active q); repeat constructor. done.
Qed.

Lemma reachable_plain mc : reachable mc -> Forall plain (mc_sent mc).
Proof.
  intros (mc0 & (_ & Hs & _) & Hst). assert (Forall plain (mc_sent mc0)) as H0 by (rewrite Hs; constructor). clear Hs.
  induction Hst as [|x y z Hxy _ IH]; [done|]. apply IH. clear IH.
  destruct Hxy; cbn in *; try done; apply Forall_app; (split; [done|by apply accepted_plain]).
Qed.

Lemma queued_plain mc r mq m : machine_inv mc -> Forall plain (mc_sent mc) -> get_mq (mc_world mc) r = Some mq ->
  m ∈ imq_messages mq -> plain m.
Proof.
  intros [_ Hnet] Hp Hr Hm. destruct (qi_messages _ _ _ _ (ni_queues _ _ _ _ _ _ Hnet r mq Hr) m Hm) as (v & Hv & Ha & Hvr).
  destruct (ni_ports _ _ _ _ _ _ Hnet _ v Hv Ha) as (mq1 & Hr1 & Hi). rewrite Hvr, Hr in Hr1. injection Hr1 as <-.
  pose proof (pi_order _ _ _ _ _ _ _ Hi) as Ho. rewrite Forall_forall in Hp. apply Hp.
  assert (m ∈ filter (is_for (msgh_remote_port m)) (mc_sent mc)) as [_ ?]%list_elem_of_filter; [|done].
  rewrite Ho. apply elem_of_app. right. by apply list_elem_of_filter.
Qed.

(** ** One receive, from start to end *)

Lemma take_world th w r mq m rest v : get_mq w r = Some mq -> imq_messages mq = m :: rest ->
  port_view w (msgh_remote_port m) = Some v ->
  exists w1 seqno, recv_turn th r 0 (msgh_size m) 0 w = Some (w1, Received m seqno) /\
    (forall p, port_view w1 p = port_view w p) /\ get_mq w1 r = Some (mk_mqueue rest (imq_threads mq)) /\ w_log w1 = w_log w.
Proof.
  intros Hr Hmsgs Hv. unfold recv_turn. rewrite Hr, Hmsgs, Z.ltb_irrefl.
  destruct (put_mq_changed w r mq (mk_mqueue rest (imq_threads mq)) Hr) as (w1 & -> & [Hmv Hmm Hms] & Hl).
  pose proof (Hmv (msgh_remote_port m)) as E. rewrite Hv in E. unfold port_view in E.
  destruct (w_ports w1 !! msgh_remote_port m) as [q|] eqn:Hq; [|done]. eexists _, _. split; [done|].
  pose proof (put_port_changed w1 _ q (ip_set_seqno (u32 (ip_seqno q + 1)) q) Hq eq_refl) as [Hcv Hcvs Hcm].
  split_and!; [|by rewrite Hcm|done]. intros p. destruct (decide (p = msgh_remote_port m)) as [->|Hne].
  - rewrite Hcv, Hv. exact E.
  - by rewrite Hcvs.
Qed.

(** The view after the end of a receive, and the sender that is woken. *)
Definition finish_view (v : pview) : pview * option Z :=
  let count := u32 (pv_count v - 1) in
  match pv_blocked v with
  | sender :: rest =>
      if count <? pv_limit v then (mk_pview (pv_active v) count (pv_limit v) rest (pv_set v), Some sender)
      else (mk_pview (pv_active v) count (pv_limit v) (pv_blocked v) (pv_set v), None)
  | [] => (mk_pview (pv_active v) count (pv_limit v) [] (pv_set v), None)
  end.

Definition wake_one ts (sender : option Z) : gmap Z thread_pc :=
  match sender with Some th => deliver_event ts (Thread_go th MACH_MSG_SUCCESS) | None => ts end.

Lemma finish_world w m v ts : w_log w = [] -> plain m -> port_view w (msgh_remote_port m) = Some v -> pv_active v = true ->
  0 < pv_count v ->
  exists w2, recv_finish m (msgh_size m) w = Some w2 /\ (forall r, get_mq w2 r = get_mq w r) /\
    (forall p, p <> msgh_remote_port m -> port_view w2 p = port_view w p) /\
    port_view w2 (msgh_remote_port m) = Some (finish_view v).1 /\
    foldl deliver_event ts (w_log w2) = wake_one ts (finish_view v).2.
Proof.
  intros Hlog Hp Hv Ha Hc. unfold recv_finish, plain in *. rewrite Z.leb_refl, Hp. cbn [negb].
  unfold port_view in Hv. destruct (w_ports w !! msgh_remote_port m) as [q|] eqn:Hq; [|done]. injection Hv as <-.
  set (evs := if negb (ikm_marequest m =? 0) then [Marequest_destroy (ikm_marequest m)] else []).
  assert ((if negb (ikm_marequest m =? 0) then emit [Marequest_destroy (ikm_marequest m)] w else w) = emit evs w) as ->.
  { unfold evs. destruct (negb _); [done|]. unfold emit. rewrite app_nil_r. by destruct w. }
  assert (forall ts1, foldl deliver_event ts1 evs = ts1) as Hd by (unfold evs; by destruct (negb _)).
  cbn [w_ports emit]. rewrite Hq. cbn in Ha, Hc. rewrite Ha, (proj2 (Z.ltb_lt _ _) Hc).
  unfold finish_view. cbn [view pv_blocked pv_count pv_limit ip_msgcount ip_qlimit ip_blocked ip_set_msgcount].
  assert (forall q2, ip_messages q2 = ip_messages q -> view_changed (emit evs w) (put_port (msgh_remote_port m) q2 (emit evs w)) (msgh_remote_port m) (view q2)) as Hpc.
  { intros q2 Hm. by apply (put_port_changed (emit evs w) _ q). }
  destruct (ip_blocked q) as [|sender rest] eqn:Hbl; [|destruct (_ <? _)]; eexists; (split; [done|]).
  - destruct (Hpc (ip_set_msgcount (u32 (ip_msgcount q - 1)) q) eq_refl) as [Hcv Hcvs Hcm]. split_and!; [|done| |].
    + intros r. by rewrite Hcm, emit_mq.
    + rewrite Hcv. unfold view. cbn. by rewrite Ha, Hbl.
    + cbn [w_log put_port emit]. rewrite Hlog. cbn [app]. by rewrite Hd.
  - destruct (Hpc (ip_set_blocked rest (ip_set_msgcount (u32 (ip_msgcount q - 1)) q)) eq_refl) as [Hcv Hcvs Hcm]. split_and!; [|done| |].
    + intros r. by rewrite emit_mq, Hcm, emit_mq.
    + rewrite emit_view, Hcv. unfold view. cbn. by rewrite Ha.
    + cbn [w_log put_port emit]. rewrite Hlog, foldl_app. cbn [app]. by rewrite Hd.
  - destruct (Hpc (ip_set_msgcount (u32 (ip_msgcount q - 1)) q) eq_refl) as [Hcv Hcvs Hcm]. split_and!; [|done| |].
    + intros r. by rewrite Hcm, emit_mq.
    + rewrite Hcv. unfold view. cbn. by rewrite Ha, Hbl.
    + cbn [w_log put_port emit]. rewrite Hlog. cbn [app]. by rewrite Hd.
Qed.

(** The steps of threads that receive without waiting. *)
Inductive recv_step : machine -> machine -> Prop :=
| recv_step_turn w ts sent got th r opt max t w' res :
    ts !! th = None -> recv_turn th r opt max t w = Some (w', res) ->
    recv_step (mk_machine w ts sent got) (settle w' (after_recv th r opt max t res ts) sent (got ++ taken res))
| recv_step_finish w ts sent got th m max w' :
    ts !! th = Some (At_finish m max) -> recv_finish m max w = Some w' ->
    recv_step (mk_machine w ts sent got) (settle w' (delete th ts) sent got).

Lemma recv_steps_steps mc mc' : rtc recv_step mc mc' -> rtc step mc mc'.
Proof. apply rtc_subrel. destruct 1; [by eapply step_receive|by eapply step_finish]. Qed.

Lemma receive_round mc r mq m rest : machine_inv mc -> Forall plain (mc_sent mc) ->
  get_mq (mc_world mc) r = Some mq -> imq_messages mq = m :: rest ->
  exists mc' v, rtc recv_step mc mc' /\ mc_sent mc' = mc_sent mc /\
    port_view (mc_world mc) (msgh_remote_port m) = Some v /\ pv_active v = true /\ 0 < pv_count v /\ is_u32 (pv_count v) /\
    get_mq (mc_world mc') r = Some (mk_mqueue rest (imq_threads mq)) /\
    (forall p, p <> msgh_remote_port m -> port_view (mc_world mc') p = port_view (mc_world mc) p) /\
    port_view (mc_world mc') (msgh_remote_port m) = Some (finish_view v).1 /\
    mc_threads mc' = wake_one (mc_threads mc) (finish_view v).2.
Proof.
  destruct mc as [w ts sent got]. intros Hinv Hpl Hr Hmsgs. pose proof Hinv as [Hlog Hnet]. cbn in *.
  pose proof (queued_plain _ r mq m Hinv Hpl Hr ltac:(rewrite Hmsgs; apply list_elem_of_here)) as Hm.
  destruct (qi_messages _ _ _ _ (ni_queues _ _ _ _ _ _ Hnet r mq Hr) m) as (v & Hv & Ha & Hvr); [rewrite Hmsgs; apply list_elem_of_here|].
  destruct (ni_ports _ _ _ _ _ _ Hnet _ v Hv Ha) as (mq1 & Hr1 & Hi). rewrite Hvr, Hr in Hr1. injection Hr1 as <-.
  assert (0 < pv_count v) as Hc.
  { rewrite (pi_count _ _ _ _ _ _ _ Hi), Hmsgs, filter_cons_True by done. pose proof (count_nonneg (carries (msgh_remote_port m)) ts). cbn. lia. }
  set (th := fresh (dom ts)). assert (ts !! th = None) as Hth by (apply not_elem_of_dom, is_fresh).
  destruct (take_world th w r mq m rest v Hr Hmsgs Hv) as (w1 & seqno & Hrt & Hv1 & Hr1 & Hl1). rewrite Hlog in Hl1.
  pose proof (recv_step_turn w ts sent got th r 0 (msgh_size m) 0 w1 _ Hth Hrt) as Hs1.
  unfold settle in Hs1. rewrite Hl1 in Hs1. cbn in Hs1.
  destruct (finish_world (clear_log w1) m v ts eq_refl Hm ltac:(rewrite clear_view, Hv1; exact Hv) Ha Hc) as (w2 & Hf & Hq2 & Hvs2 & Hv2 & Ht2).
  pose proof (recv_step_finish (clear_log w1) (<[th := At_finish m (msgh_size m)]> ts) sent ((got ++ [m]) ++ []) th m (msgh_size m) w2
    (lookup_insert_eq _ _ _) Hf) as Hs2.
  rewrite delete_insert_id in Hs2 by done. eexists _, v. split.
  { eapply rtc_l; [exact Hs1|]. eapply rtc_l; [exact Hs2|]. apply rtc_refl. }
  unfold settle. cbn [mc_world mc_threads mc_sent]. split_and!; [done|done|done|done|apply (pi_u32 _ _ _ _ _ _ _ Hi)|..].
  - by rewrite clear_mq, Hq2, clear_mq.
  - intros p Hne. by rewrite clear_view, Hvs2, clear_view.
  - by rewrite clear_view.
  - done.
Qed.

(** ** Draining a queue *)

Lemma reachable_rtc mc mc' : rtc step mc mc' -> machine_inv mc -> machine_inv mc'.
Proof. induction 1 as [|x y z Hxy _ IH]; [done|]. intros Hi. apply IH. by eapply step_inv. Qed.

(** Waking a sender of another port. *)
Lemma wake_other ts p s sender pc m opt t : ts !! sender = Some (At_send m opt t false) -> msgh_remote_port m <> p ->
  ts !! s = Some pc -> s <> sender ->
  deliver_event ts (Thread_go sender MACH_MSG_SUCCESS) !! s = Some pc /\
  count_pc (carries p) (deliver_event ts (Thread_go sender MACH_MSG_SUCCESS)) = count_pc (carries p) ts /\
  count_pc (sender_woken p) (deliver_event ts (Thread_go sender MACH_MSG_SUCCESS)) = count_pc (sender_woken p) ts.
Proof.
  intros Hs Hm Hpc Hne. rewrite (deliver_alter ts (Thread_go sender MACH_MSG_SUCCESS) sender _ eq_refl Hs). cbn [wake_pc].
  rewrite lookup_insert_ne, !(count_insert _ _ _ _ _ Hs) by done. cbn. rewrite (proj2 (Z.eqb_neq _ _) Hm). cbn. split_and!; [done|lia|lia].
Qed.

Section Drain.
Context (p s : Z) (m0 : kmsg) (opt0 t0 : Z).

(** The port is alive, [s] is its first sender, and no thread is about to change that. *)
Record stuck (mc : machine) (v : pview) (n : nat) : Prop := {
  st_inv : machine_inv mc;
  st_plain : Forall plain (mc_sent mc);
  st_view : port_view (mc_world mc) p = Some v;
  st_active : pv_active v = true;
  st_first : exists rest, pv_blocked v = s :: rest;
  st_thread : mc_threads mc !! s = Some (At_send m0 opt0 t0 false);
  st_limit : 0 < pv_limit v;
  st_carries : count_pc (carries p) (mc_threads mc) = 0;
  st_woken : count_pc (sender_woken p) (mc_threads mc) = 0;
  st_queue : exists mq, get_mq (mc_world mc) (view_mq p v) = Some mq /\ length (imq_messages mq) = n
}.

(** A stuck port is full: its queue has all the messages the counter counts. *)
Lemma stuck_full mc v n : stuck mc v n ->
  exists mq, get_mq (mc_world mc) (view_mq p v) = Some mq /\ length (imq_messages mq) = n /\
    pv_count v = Z.of_nat (length (filter (is_for p) (imq_messages mq))) /\ pv_limit v <= pv_count v.
Proof using.
  intros [[_ Hnet] _ Hv Ha (rest & Hf) _ _ Hc Hw (mq & Hq & Hn)]. exists mq. split_and!; [done|done|..];
    destruct (ni_ports _ _ _ _ _ _ Hnet p v Hv Ha) as (mq1 & Hq1 & Hi); rewrite Hq in Hq1; injection Hq1 as <-.
  - rewrite (pi_count _ _ _ _ _ _ _ Hi), Hc. lia.
  - pose proof (pi_blocked _ _ _ _ _ _ _ Hi ltac:(by rewrite Hf)) as Hb. unfold no_slack in Hb. lia.
Qed.

Lemma drain_wakes n : forall mc v, stuck mc v n -> exists mc', rtc recv_step mc mc' /\ mc_threads mc' !! s = Some (At_send m0 opt0 t0 true).
Proof using.
  induction n as [|n IH]; intros mc v Hst; destruct (stuck_full mc v _ Hst) as (mq & Hq & Hn & Hcount & Hfull);
    destruct Hst as [Hinv Hpl Hv Ha (rest & Hf) Hth Hl Hc Hw _].
  { apply nil_length_inv in Hn. rewrite Hn in Hcount. cbn in Hcount. lia. }
  destruct (imq_messages mq) as [|m ms] eqn:Hmsgs; [done|]. cbn in Hn. injection Hn as Hn.
  destruct (receive_round mc _ mq m ms Hinv Hpl Hq Hmsgs) as (mc1 & v1 & Hst1 & Hsent & Hv1 & Ha1 & Hc1 & Hu1 & Hq1 & Hvs & Hv1' & Hts).
  assert (machine_inv mc1) as Hinv1 by (eapply reachable_rtc; [by apply recv_steps_steps|done]).
  assert (u32 (pv_count v1 - 1) = pv_count v1 - 1) as Hdec by (apply u32_small; unfold is_u32 in *; lia).
  destruct (decide (msgh_remote_port m = p)) as [Hm|Hm].
  - rewrite Hm in *. rewrite Hv in Hv1. injection Hv1 as <-. unfold finish_view in Hv1', Hts. rewrite Hf, Hdec in Hv1', Hts.
    destruct (Z.ltb_spec (pv_count v - 1) (pv_limit v)); cbn [fst snd wake_one] in Hv1', Hts.
    + exists mc1. split; [done|]. rewrite Hts.
      rewrite (deliver_alter _ (Thread_go s MACH_MSG_SUCCESS) s _ eq_refl Hth). by rewrite lookup_insert_eq.
    + destruct (IH mc1 (mk_pview (pv_active v) (pv_count v - 1) (pv_limit v) (s :: rest) (pv_set v))) as (mc2 & Hst2 & Hend).
      { constructor; try (by rewrite ?Hsent, ?Hts); [by eexists|]. cbn in *. by eexists. }
      exists mc2. split; [by etrans|done].
  - assert (mc_threads mc1 !! s = Some (At_send m0 opt0 t0 false) /\ count_pc (carries p) (mc_threads mc1) = 0 /\
      count_pc (sender_woken p) (mc_threads mc1) = 0) as (Hth1 & Hcar1 & Hwok1).
    { rewrite Hts. destruct (finish_view v1).2 as [sender|] eqn:Hfv; [|done]. cbn [wake_one]. unfold finish_view in Hfv.
      destruct (pv_blocked v1) as [|sender' rest'] eqn:Hbl; [done|]. destruct (_ <? _); [|done]. cbn in Hfv. injection Hfv as <-.
      destruct Hinv as [_ Hnet]. destruct (ni_ports _ _ _ _ _ _ Hnet _ v1 Hv1 Ha1) as (mq1 & _ & Hi).
      destruct (pi_waiting _ _ _ _ _ _ _ Hi sender') as (m1 & o1 & t1 & Hs1 & Hm1); [rewrite Hbl; apply list_elem_of_here|].
      destruct (ni_ports _ _ _ _ _ _ Hnet p v Hv Ha) as (mq2 & _ & Hi2).
      destruct (pi_waiting _ _ _ _ _ _ _ Hi2 s) as (m2 & o2 & t2 & Hs2 & Hm2); [rewrite Hf; apply list_elem_of_here|].
      rewrite Hth in Hs2. injection Hs2 as <- <- <-.
      destruct (wake_other (mc_threads mc) p s sender' _ m1 o1 t1 Hs1 ltac:(congruence) Hth) as (? & -> & ->); [|done].
      intros ->. rewrite Hth in Hs1. congruence. }
    destruct (IH mc1 v) as (mc2 & Hst2 & Hend).
    { constructor; try done; [by rewrite Hsent|by rewrite Hvs by congruence|by eexists|by eexists]. }
    exists mc2. split; [by etrans|done].
Qed.
End Drain.

(** ** The theorems *)

(** C1: whatever threads send and receive, in whatever order they run, every
    message a live port accepted was received or is in its queue, each once and
    in the order of the sends, and [ip_msgcount] is the number of its messages
    that are queued or whose receive has not ended. *)
Theorem messages_in_order mc p q : reachable mc -> w_ports (mc_world mc) !! p = Some q -> ip_active q = true ->
  exists mq, get_mq (mc_world mc) (port_mq p q) = Some mq /\
    filter (is_for p) (mc_sent mc) = filter (is_for p) (mc_received mc) ++ filter (is_for p) (imq_messages mq) /\
    ip_msgcount q = Z.of_nat (length (filter (is_for p) (imq_messages mq))) + count_pc (carries p) (mc_threads mc).
Proof.
  intros [_ Hnet]%reachable_inv Hq Ha.
  destruct (ni_ports _ _ _ _ _ _ Hnet p (view q)) as (mq & Hm & Hi); [unfold port_view; by rewrite Hq|done|].
  exists mq. split_and!; [exact Hm|apply (pi_order _ _ _ _ _ _ _ Hi)|apply (pi_count _ _ _ _ _ _ _ Hi)].
Qed.

(** A thread that is woken stays so while others are. *)
Lemma deliver_keeps s m opt t l : forall ts, ts !! s = Some (At_send m opt t true) ->
  foldl deliver_event ts ((fun th => Thread_go th MACH_MSG_SUCCESS) <$> l) !! s = Some (At_send m opt t true).
Proof.
  induction l as [|th l IH]; intros ts Hs; [done|]. apply IH. cbn. destruct (decide (th = s)) as [->|Hne]; [by rewrite lookup_alter_eq, Hs|by rewrite lookup_alter_ne].
Qed.

(** Raising the limit of a port wakes the first sender. *)
Lemma raise_wakes mc p q s rest m opt t qlimit : w_log (mc_world mc) = [] -> w_ports (mc_world mc) !! p = Some q -> ip_active q = true -> ip_blocked q = s :: rest ->
  mc_threads mc !! s = Some (At_send m opt t false) -> is_u32 (ip_qlimit q) -> is_u32 qlimit -> ip_qlimit q < qlimit ->
  exists w', ipc_port_set_qlimit p qlimit (mc_world mc) = Some w' /\
    let mc' := settle w' (mc_threads mc) (mc_sent mc) (mc_received mc) in step mc mc' /\ mc_threads mc' !! s = Some (At_send m opt t true).
Proof.
  destruct mc as [w ts sent got]. cbn. intros Hlog Hq Ha Hb Hs Hu1 Hu2 Hlt.
  assert (exists n, ipc_port_set_qlimit p qlimit w = Some (emit ((fun th => Thread_go th MACH_MSG_SUCCESS) <$> firstn (S n) (ip_blocked q)) (put_port p (ip_set_qlimit qlimit (ip_set_blocked (skipn (S n) (ip_blocked q)) q)) w))) as [n Hset].
  { exists (Z.to_nat (qlimit - ip_qlimit q - 1)). unfold ipc_port_set_qlimit. rewrite Hq, Ha, (proj2 (Z.ltb_lt _ _)) by done. unfold is_u32 in *. rewrite u32_small by (unfold is_u32; lia).
    replace (Z.to_nat (qlimit - ip_qlimit q)) with (S (Z.to_nat (qlimit - ip_qlimit q - 1))) by lia. done. }
  eexists. split; [exact Hset|]. split; [by eapply step_qlimit|]. unfold settle. cbn [mc_threads w_log emit put_port]. rewrite Hlog, Hb. cbn [app firstn fmap list_fmap foldl].
  apply deliver_keeps. rewrite (deliver_alter _ (Thread_go s MACH_MSG_SUCCESS) s _ eq_refl Hs). by rewrite lookup_insert_eq.
Qed.

(** C2: no wake-up is lost.  When a sender waits for a live port, no receive of a
    message of the port is going on and no sender to it has been woken, then its
    queue limit is reached by the messages in the queue.  If the limit is not 0, no
    receiver waits on that queue, and receives alone can be run after which the
    sender that waited longest is woken.  Whatever the limit is, 0 too, setting a
    higher one wakes that sender at once. *)
Theorem blocked_sender_goes mc p q s rest : reachable mc -> w_ports (mc_world mc) !! p = Some q -> ip_active q = true -> ip_blocked q = s :: rest ->
  count_pc (carries p) (mc_threads mc) = 0 -> count_pc (sender_woken p) (mc_threads mc) = 0 ->
  exists mq m opt t, get_mq (mc_world mc) (port_mq p q) = Some mq /\
    ip_qlimit q <= Z.of_nat (length (filter (is_for p) (imq_messages mq))) /\
    (0 < ip_qlimit q -> imq_threads mq = [] /\ exists mc', rtc recv_step mc mc' /\ mc_threads mc' !! s = Some (At_send m opt t true)) /\
    forall qlimit, is_u32 qlimit -> ip_qlimit q < qlimit -> exists w', ipc_port_set_qlimit p qlimit (mc_world mc) = Some w' /\
      let mc' := settle w' (mc_threads mc) (mc_sent mc) (mc_received mc) in step mc mc' /\ mc_threads mc' !! s = Some (At_send m opt t true).
Proof.
  intros Hr Hq Ha Hb Hc Hw. pose proof (reachable_inv mc Hr) as Hinv. pose proof Hinv as [Hlog Hnet].
  assert (port_view (mc_world mc) p = Some (view q)) as Hv by (unfold port_view; by rewrite Hq).
  destruct (ni_ports _ _ _ _ _ _ Hnet p (view q) Hv Ha) as (mq & Hm & Hi).
  destruct (pi_waiting _ _ _ _ _ _ _ Hi s) as (m & opt & t & Hs & _); [cbn; rewrite Hb; apply list_elem_of_here|].
  exists mq, m, opt, t. pose proof (pi_count _ _ _ _ _ _ _ Hi) as Hcount. rewrite Hc in Hcount. cbn in Hcount.
  pose proof (pi_blocked _ _ _ _ _ _ _ Hi ltac:(cbn; by rewrite Hb)) as Hfull. unfold no_slack in Hfull. rewrite Hw in Hfull. cbn in Hfull.
  split; [done|]. split; [lia|]. split; [intros Hl; split|].
  - destruct (imq_threads mq) eqn:E; [done|]. pose proof (qi_ok _ _ _ _ (ni_queues _ _ _ _ _ _ Hnet _ _ Hm)) as Hok. unfold mq_ok in Hok.
    rewrite Hok in Hcount by (by rewrite E). cbn in Hcount. lia.
  - apply (drain_wakes p s m opt t (length (imq_messages mq)) mc (view q)). constructor; try done; [by apply reachable_plain|by exists rest|by exists mq].
  - intros qlimit Hu Hlt. eapply raise_wakes; try done. apply (pi_limit _ _ _ _ _ _ _ Hi).
Qed.

(** ** A port with a limit of one message, and two senders *)

Definition chan : Z := 0x1000.
Definition chan_world : world :=
  mk_world {[ chan := mk_port 3 true 0 chan ipc_mqueue_init 1 0 2 0 IP_NULL IP_NULL None IPS_NULL 0 0 1 [] ]} ∅ 0 [].
Definition hello (n : Z) : kmsg := mk_kmsg n chan 24 17 0.

Definition chan0 : machine := mk_machine chan_world ∅ [] [].
Definition run_send (th : Z) (m : kmsg) (mc : machine) : machine :=
  match send_turn th m 0 0 (mc_world mc) with
  | Some (w, res) => settle w (after_send th m 0 0 res (mc_threads mc)) (mc_sent mc ++ accepted m res (mc_world mc)) (mc_received mc)
  | None => mc
  end.
Definition chan2 : machine := run_send 8 (hello 2) (run_send 7 (hello 1) chan0).

Lemma chan0_initial : initial chan0.
Proof.
  split_and!; try done. intros p q Hq. cbn in Hq. apply lookup_singleton_Some in Hq as [_ <-]. cbn. split_and!; try done. by left.
Qed.

Lemma run_send_step th m mc q : mc_threads mc !! th = None -> bit (msgh_bits m) MACH_MSGH_BITS_CIRCULAR = false ->
  IP_VALID (msgh_remote_port m) = true -> w_ports (mc_world mc) !! msgh_remote_port m = Some q -> ip_receiver q = 1 ->
  is_Some (send_turn th m 0 0 (mc_world mc)) -> step mc (run_send th m mc).
Proof.
  destruct mc as [w ts sent got]. cbn. intros Hth Hm Hv Hq Hr [[w' res] Hs]. unfold run_send. cbn. rewrite Hs.
  eapply (step_send w ts sent got 2 (fun _ => None) O th m 0 0 q); [done|done|done|by rewrite Hr|].
  cbn [ipc_mqueue_send]. by rewrite Hv, Hq, Hr.
Qed.

Lemma chan2_reachable : reachable chan2.
Proof.
  exists chan0. split; [apply chan0_initial|]. eapply rtc_l; [|eapply rtc_l; [|apply rtc_refl]].
  - eapply (run_send_step 7 (hello 1)); [done|done|done|done|done|]. vm_compute. eauto.
  - eapply (run_send_step 8 (hello 2)); [done|done|done|vm_compute; reflexivity|done|]. vm_compute. eauto.
Qed.

Lemma messages_in_order_witness : exists q mq, w_ports (mc_world chan2) !! chan = Some q /\
  get_mq (mc_world chan2) (port_mq chan q) = Some mq /\ filter (is_for chan) (mc_sent chan2) = filter (is_for chan) (imq_messages mq) /\
  mc_sent chan2 = [hello 1].
Proof.
  destruct (w_ports (mc_world chan2) !! chan) as [q|] eqn:Hq; [|vm_compute in Hq; discriminate].
  assert (ip_active q = true) as Ha by (vm_compute in Hq; injection Hq as <-; reflexivity).
  destruct (messages_in_order chan2 chan q chan2_reachable Hq Ha) as (mq & Hm & Ho & _). exists q, mq.
  split_and!; [done|done| |vm_compute; reflexivity]. rewrite Ho. reflexivity.
Defined.

Lemma blocked_sender_goes_witness : exists mc' m opt t, rtc recv_step chan2 mc' /\ mc_threads mc' !! 8 = Some (At_send m opt t true).
Proof.
  destruct (w_ports (mc_world chan2) !! chan) as [q|] eqn:Hq; [|vm_compute in Hq; discriminate].
  assert (ip_active q = true /\ ip_qlimit q = 1 /\ ip_blocked q = [8]) as (Ha & Hl & Hb).
  { vm_compute in Hq. injection Hq as <-. split_and!; reflexivity. }
  destruct (blocked_sender_goes chan2 chan q 8 [] chan2_reachable Hq Ha) as (mq & m & opt & t & _ & _ & H & _); [exact Hb|vm_compute; reflexivity..|].
  destruct H as [_ [mc' H]]; [lia|]. by exists mc', m, opt, t.
Defined.
