(* ===== verification/IpcQueue.v ===== *)
(** * Queues of threads and of messages (ipc_thread.h, ipc_thread.c, ipc_kmsg.h)

    Both kinds of queue are circular doubly linked lists through the elements,
    with the address of the first element as the queue.  The model keeps the links
    of all elements in one memory, which all queues share; the other components
    use lists, and the theorems of this file say that they may. *)

From S2P Require Import Prelude PortName IpcTypes.

Record links := mk_links { l_next : Z; l_prev : Z }.
Abbreviation link_mem := (gmap Z links).

Definition ITH_NULL : Z := 0.
Definition IKM_NULL : Z := 0.
Definition IKM_BOGUS : Z := 0xffffff10.

(** Stores through a pointer. *)
Definition set_next (x y : Z) (m : link_mem) : option link_mem :=
  LET k <- m !! x ;; Some (<[x := mk_links y (l_prev k)]> m).
Definition set_prev (x y : Z) (m : link_mem) : option link_mem :=
  LET k <- m !! x ;; Some (<[x := mk_links (l_next k) y]> m).

(** ** Queues of threads *)

Definition ipc_thread_links_init (th : Z) (m : link_mem) : option link_mem :=
  LET m1 <- set_next th th m ;; set_prev th th m1.

Definition ipc_thread_enqueue (base th : Z) (m : link_mem) : option (link_mem * Z) :=
  let first := base in
  if first =? ITH_NULL then
    LET k <- m !! th ;;
    ASSERT l_next k =? th ;;
    ASSERT l_prev k =? th ;;
    Some (m, th)
  else
    LET kf <- m !! first ;;
    let last := l_prev kf in
    LET m1 <- set_next th first m ;;
    LET m2 <- set_prev th last m1 ;;
    LET m3 <- set_prev first th m2 ;;
    LET m4 <- set_next last th m3 ;;
    Some (m4, base).

(** [ipc_thread_rmqueue_first_macro]: the new base. *)
Definition ipc_thread_rmqueue_first (base th : Z) (m : link_mem) : option (link_mem * Z) :=
  ASSERT base =? th ;;
  LET k <- m !! th ;;
  let next := l_next k in
  if next =? th then
    ASSERT l_prev k =? th ;;
    Some (m, ITH_NULL)
  else
    let prev := l_prev k in
    LET m1 <- set_prev next prev m ;;
    LET m2 <- set_next prev next m1 ;;
    LET m3 <- ipc_thread_links_init th m2 ;;
    Some (m3, next).

Definition ipc_thread_dequeue (base : Z) (m : link_mem) : option (link_mem * Z * Z) :=
  let first := base in
  if first =? ITH_NULL then Some (m, base, first)
  else
    LET (m1, base1) <- ipc_thread_rmqueue_first base first m ;;
    Some (m1, base1, first).

Definition ipc_thread_rmqueue (base th : Z) (m : link_mem) : option (link_mem * Z) :=
  ASSERT negb (base =? ITH_NULL) ;;
  LET k <- m !! th ;;
  let next := l_next k in
  let prev := l_prev k in
  if next =? th then
    ASSERT prev =? th ;;
    ASSERT base =? th ;;
    Some (m, ITH_NULL)
  else
    let base1 := if base =? th then next else base in
    LET m1 <- set_prev next prev m ;;
    LET m2 <- set_next prev next m1 ;;
    LET m3 <- ipc_thread_links_init th m2 ;;
    Some (m3, base1).

(** ** Queues of messages *)

Definition ikm_forget (kmsg : Z) (m : link_mem) : option link_mem :=
  LET m1 <- set_next kmsg IKM_BOGUS m ;; set_prev kmsg IKM_BOGUS m1.

Definition ipc_kmsg_enqueue (base kmsg : Z) (m : link_mem) : option (link_mem * Z) :=
  let first := base in
  if first =? IKM_NULL then
    LET m1 <- set_next kmsg kmsg m ;;
    LET m2 <- set_prev kmsg kmsg m1 ;;
    Some (m2, kmsg)
  else
    LET kf <- m !! first ;;
    let last := l_prev kf in
    LET m1 <- set_next kmsg first m ;;
    LET m2 <- set_prev kmsg last m1 ;;
    LET m3 <- set_prev first kmsg m2 ;;
    LET m4 <- set_next last kmsg m3 ;;
    Some (m4, base).

(** [ipc_kmsg_rmqueue_first_macro] *)
Definition ipc_kmsg_rmqueue_first (base kmsg : Z) (m : link_mem) : option (link_mem * Z) :=
  ASSERT base =? kmsg ;;
  LET k <- m !! kmsg ;;
  let next := l_next k in
  LET (m1, base1) <- (if next =? kmsg then
      ASSERT l_prev k =? kmsg ;;
      Some (m, IKM_NULL)
    else
      let prev := l_prev k in
      LET m1 <- set_prev next prev m ;;
      LET m2 <- set_next prev next m1 ;;
      Some (m2, next)) ;;
  (* debug paranoia *)
  LET m2 <- ikm_forget kmsg m1 ;;
  Some (m2, base1).

Definition ipc_kmsg_dequeue (base : Z) (m : link_mem) : option (link_mem * Z * Z) :=
  let first := base in
  if first =? IKM_NULL then Some (m, base, first)
  else
    LET (m1, base1) <- ipc_kmsg_rmqueue_first base first m ;;
    Some (m1, base1, first).

Definition ipc_kmsg_rmqueue (base kmsg : Z) (m : link_mem) : option (link_mem * Z) :=
  ASSERT negb (base =? IKM_NULL) ;;
  LET k <- m !! kmsg ;;
  let next := l_next k in
  let prev := l_prev k in
  LET (m1, base1) <- (if next =? kmsg then
      ASSERT prev =? kmsg ;;
      ASSERT base =? kmsg ;;
      Some (m, IKM_NULL)
    else
      LET m1 <- set_prev next prev m ;;
      LET m2 <- set_next prev next m1 ;;
      Some (m2, if base =? kmsg then next else base)) ;;
  LET m2 <- ikm_forget kmsg m1 ;;
  Some (m2, base1).

Definition ipc_kmsg_queue_next (base kmsg : Z) (m : link_mem) : option Z :=
  ASSERT negb (base =? IKM_NULL) ;;
  LET k <- m !! kmsg ;;
  let next := l_next k in
  Some (if base =? next then IKM_NULL else next).

(** ** Rings *)

Implicit Types (m : link_mem) (l t : list Z).

(** The elements of [l] are linked in order between [p] and [n]. *)
Fixpoint dseg m (p : Z) l (n : Z) : Prop :=
  match l with
  | [] => True
  | x :: t => m !! x = Some (mk_links (hd n t) p) /\ dseg m x t n
  end.

Definition ring m l : Prop := dseg m (List.last l 0) l (hd 0 l).

Lemma last_app l t d : t <> [] -> List.last (l ++ t) d = List.last t d.
Proof. intros Ht. induction l as [|x l IH]; [done|]. cbn. rewrite IH. destruct l, t; done. Qed.

Lemma last_indep l d d' : l <> [] -> List.last l d = List.last l d'.
Proof. induction l as [|x [|y l] IH]; [done|done|]. intros _. cbn in *. by apply IH. Qed.

Lemma dseg_app m p l t n : dseg m p (l ++ t) n <-> dseg m p l (hd n t) /\ dseg m (List.last l p) t n.
Proof.
  revert p. induction l as [|x l IH]; intros p; [cbn; tauto|]. cbn [app dseg]. rewrite IH.
  replace (hd n (l ++ t)) with (hd (hd n t) l) by (by destruct l).
  replace (List.last (x :: l) p) with (List.last l x) by (destruct l as [|z l]; [done|]; apply (last_indep (z :: l)); done). tauto.
Qed.

Lemma ring_app m l t : l <> [] -> t <> [] ->
  ring m (l ++ t) <-> dseg m (List.last t 0) l (hd 0 t) /\ dseg m (List.last l 0) t (hd 0 l).
Proof.
  intros Hl Ht. unfold ring. rewrite last_app by done. replace (hd 0 (l ++ t)) with (hd 0 l) by (by destruct l).
  rewrite dseg_app. replace (hd (hd 0 l) t) with (hd 0 t) by (by destruct t). by rewrite (last_indep l (List.last t 0) 0).
Qed.

Lemma ring_rotate m l t : ring m (l ++ t) -> ring m (t ++ l).
Proof.
  destruct l as [|x l]; [by rewrite app_nil_r|]. destruct t as [|y t]; [by rewrite app_nil_r|]. rewrite !ring_app by done. tauto.
Qed.

Lemma dseg_frame m y k p l n : dseg m p l n -> y ∉ l -> dseg (<[y := k]> m) p l n.
Proof.
  revert p. induction l as [|x l IH]; intros p; [done|]. cbn [dseg]. intros [Hx Ht] Hy. apply not_elem_of_cons in Hy as [Hne Hy].
  rewrite lookup_insert_ne by done. split; [done|]. by apply IH.
Qed.

Lemma dseg_set_prev m p p' x l n : dseg m p (x :: l) n -> x ∉ l ->
  set_prev x p' m = Some (<[x := mk_links (hd n l) p']> m) /\ dseg (<[x := mk_links (hd n l) p']> m) p' (x :: l) n.
Proof.
  cbn [dseg]. unfold set_prev. intros [-> Ht] Hx. split; [done|]. rewrite lookup_insert_eq. split; [done|]. by apply dseg_frame.
Qed.

Lemma dseg_set_next m p n n' l x : dseg m p (l ++ [x]) n -> x ∉ l ->
  set_next x n' m = Some (<[x := mk_links n' (List.last l p)]> m) /\ dseg (<[x := mk_links n' (List.last l p)]> m) p (l ++ [x]) n'.
Proof.
  rewrite !dseg_app. cbn [dseg hd]. unfold set_next. intros (Hl & Hx & _) Hn. rewrite Hx. split_and!; [done| |by rewrite lookup_insert_eq|done].
  by apply dseg_frame.
Qed.

(** The last element and the others. *)
Lemma split_last l : l <> [] -> exists t z, l = t ++ [z] /\ List.last l 0 = z.
Proof. intros Hl. destruct (exists_last Hl) as (t & z & ->). exists t, z. by rewrite last_app. Qed.

(** Both ends of a segment get a new neighbour. *)
Lemma dseg_ends m p n l p' n' : dseg m p l n -> NoDup l -> l <> [] ->
  exists m1 m2, set_prev (hd 0 l) p' m = Some m1 /\ set_next (List.last l 0) n' m1 = Some m2 /\ dseg m2 p' l n' /\
    (forall y, y ∉ l -> m2 !! y = m !! y).
Proof.
  intros Hd Hnd Hl. destruct l as [|x l]; [done|]. pose proof Hnd as [Hx _]%NoDup_cons.
  destruct (dseg_set_prev m p p' x l n Hd Hx) as [Hs Hd1]. set (m1 := <[x := _]> m) in *.
  destruct (split_last (x :: l) Hl) as (t & z & E & Hz). rewrite E in Hd1.
  assert (z ∉ t) as Hzt. { rewrite E in Hnd. apply NoDup_app in Hnd as (_ & Hnd & _). intros Hin. apply (Hnd z Hin). set_solver. }
  destruct (dseg_set_next m1 p' n n' t z Hd1 Hzt) as [Hs2 Hd2]. eexists m1, _. split_and!; [done|rewrite Hz; exact Hs2|by rewrite E|].
  intros y Hy. rewrite lookup_insert_ne; [|intros ->; apply Hy; rewrite E; set_solver].
  unfold m1. rewrite lookup_insert_ne; [done|]. intros ->. apply Hy. set_solver.
Qed.

Lemma ring_first m x l : ring m (x :: l) -> exists k, m !! x = Some k /\ l_prev k = List.last (x :: l) 0 /\ l_next k = hd x l.
Proof. intros [Hx _]. by eexists. Qed.

Lemma set_links m x y z k : m !! x = Some k ->
  exists m1, set_next x y m = Some m1 /\ set_prev x z m1 = Some (<[x := mk_links y z]> m).
Proof.
  intros Hx. unfold set_next, set_prev. rewrite Hx. eexists. split; [done|]. rewrite lookup_insert_eq, insert_insert_eq. done.
Qed.

(** Linking an element in at the end. *)
Lemma ring_enqueue m l x : ring m l -> NoDup l -> l <> [] -> x ∉ l -> is_Some (m !! x) ->
  exists m1 m2 m3 m4, set_next x (hd 0 l) m = Some m1 /\ set_prev x (List.last l 0) m1 = Some m2 /\
    set_prev (hd 0 l) x m2 = Some m3 /\ set_next (List.last l 0) x m3 = Some m4 /\ ring m4 (l ++ [x]) /\
    (forall y, y ∉ l -> y <> x -> m4 !! y = m !! y).
Proof.
  intros Hr Hnd Hl Hx [k Hk]. destruct (set_links m x (hd 0 l) (List.last l 0) k Hk) as (m1 & H1 & H2).
  set (m2 := <[x := _]> m) in *. assert (dseg m2 (List.last l 0) l (hd 0 l)) as Hr2 by (by apply dseg_frame).
  destruct (dseg_ends m2 _ _ l x x Hr2 Hnd Hl) as (m3 & m4 & H3 & H4 & Hd & Hf). exists m1, m2, m3, m4. split_and!; try done.
  - apply ring_app; [done|done|]. cbn [dseg hd List.last]. split_and!; [done| |done]. rewrite Hf by done. unfold m2. by rewrite lookup_insert_eq.
  - intros y Hy Hyx. rewrite Hf by done. unfold m2. by rewrite lookup_insert_ne.
Qed.

(** Linking the first element out. *)
Lemma ring_unlink m l x : ring m (x :: l) -> NoDup (x :: l) -> l <> [] ->
  exists m1 m2, m !! x = Some (mk_links (hd 0 l) (List.last l 0)) /\ set_prev (hd 0 l) (List.last l 0) m = Some m1 /\
    set_next (List.last l 0) (hd 0 l) m1 = Some m2 /\ ring m2 l /\ (forall y, y ∉ l -> m2 !! y = m !! y).
Proof.
  intros Hr [Hx Hnd]%NoDup_cons Hl. apply (ring_app m [x] l) in Hr as [[Hk _] Hd]; [|done|done].
  destruct (dseg_ends m _ _ l (List.last l 0) (hd 0 l) Hd Hnd Hl) as (m1 & m2 & H1 & H2 & Hd2 & Hf).
  exists m1, m2. split_and!; done.
Qed.

Lemma ring_frame m m' l : ring m l -> (forall y, y ∈ l -> m' !! y = m !! y) -> ring m' l.
Proof.
  unfold ring. generalize (List.last l 0) (hd 0 l). induction l as [|x l IH]; [done|]. intros p n [Hx Ht] Hf. cbn [dseg].
  rewrite Hf by apply list_elem_of_here. split; [done|]. apply IH; [done|]. intros y Hy. apply Hf. by apply list_elem_of_further.
Qed.

(** Out of the middle: the ring is turned until the element is first. *)
Lemma ring_remove m l1 x l2 : ring m (l1 ++ x :: l2) -> NoDup (l1 ++ x :: l2) -> l1 ++ l2 <> [] ->
  exists k m1 m2, m !! x = Some k /\ l_next k <> x /\ l_next k = hd (hd 0 l1) l2 /\ set_prev (l_next k) (l_prev k) m = Some m1 /\
    set_next (l_prev k) (l_next k) m1 = Some m2 /\ ring m2 (l1 ++ l2) /\ (forall y, y ∉ l1 ++ l2 -> m2 !! y = m !! y).
Proof.
  intros Hr Hnd Hl. apply ring_rotate in Hr. cbn in Hr.
  assert (NoDup (x :: l2 ++ l1)) as Hnd' by (eapply NoDup_Permutation_proper; [|exact Hnd]; solve_Permutation).
  destruct (ring_unlink m (l2 ++ l1) x Hr Hnd') as (m1 & m2 & Hk & H1 & H2 & Hr2 & Hf); [by destruct l1, l2|].
  eexists _, m1, m2. split_and!; [exact Hk| |by destruct l2|exact H1|exact H2|by apply ring_rotate|].
  - cbn. apply NoDup_cons in Hnd' as [Hx _]. intros E. apply Hx. rewrite <- E. destruct (l2 ++ l1) eqn:E2; [by destruct l1, l2|]. set_solver.
  - intros y Hy. apply Hf. set_solver.
Qed.

Lemma set_next_dom x y m m' : set_next x y m = Some m' -> dom m' = dom m.
Proof. unfold set_next. destruct (m !! x) as [k|] eqn:E; [|done]. intros [= <-]. apply dom_insert_lookup_L. by eexists. Qed.
Lemma set_prev_dom x y m m' : set_prev x y m = Some m' -> dom m' = dom m.
Proof. unfold set_prev. destruct (m !! x) as [k|] eqn:E; [|done]. intros [= <-]. apply dom_insert_lookup_L. by eexists. Qed.

(** ** The interface of a kind of queue *)

(** [q_free] is what the links of an element outside queues satisfy. *)
Class QueueOps := {
  q_enqueue : Z -> Z -> link_mem -> option (link_mem * Z);
  q_dequeue : Z -> link_mem -> option (link_mem * Z * Z);
  q_rmqueue : Z -> Z -> link_mem -> option (link_mem * Z);
  q_free : Z -> links -> Prop
}.

Class QueueLaws `{QueueOps} := {
  q_enqueue_law m l x k : ring m l -> NoDup l -> 0 ∉ l -> x ∉ l -> x <> 0 -> m !! x = Some k -> q_free x k ->
    exists m', q_enqueue (hd 0 l) x m = Some (m', hd 0 (l ++ [x])) /\ ring m' (l ++ [x]) /\ dom m' = dom m /\
      forall y, y ∉ l -> y <> x -> m' !! y = m !! y;
  q_dequeue_empty m : q_dequeue 0 m = Some (m, 0, 0);
  q_dequeue_first x m : x <> 0 -> q_dequeue x m = (LET (m1, base) <- q_rmqueue x x m ;; Some (m1, base, x));
  q_rmqueue_law m l1 x l2 : ring m (l1 ++ x :: l2) -> NoDup (l1 ++ x :: l2) -> 0 ∉ l1 ++ x :: l2 ->
    exists m' k, q_rmqueue (hd 0 (l1 ++ x :: l2)) x m = Some (m', hd 0 (l1 ++ l2)) /\ ring m' (l1 ++ l2) /\ dom m' = dom m /\
      m' !! x = Some k /\ q_free x k /\ forall y, y ∉ l1 ++ x :: l2 -> m' !! y = m !! y
}.

#[export] Instance thread_queue : QueueOps :=
  {| q_enqueue := ipc_thread_enqueue; q_dequeue := ipc_thread_dequeue; q_rmqueue := ipc_thread_rmqueue;
     q_free x k := k = mk_links x x |}.

#[export] Instance kmsg_queue : QueueOps :=
  {| q_enqueue := ipc_kmsg_enqueue; q_dequeue := ipc_kmsg_dequeue; q_rmqueue := ipc_kmsg_rmqueue;
     q_free _ _ := True |}.

Lemma base_new l1 x l2 : NoDup (l1 ++ x :: l2) -> l1 ++ l2 <> [] ->
  (if hd 0 (l1 ++ x :: l2) =? x then hd (hd 0 l1) l2 else hd 0 (l1 ++ x :: l2)) = hd 0 (l1 ++ l2).
Proof.
  intros Hnd Hne. destruct l1 as [|y l1]; cbn in *.
  - rewrite Z.eqb_refl. by destruct l2.
  - apply NoDup_cons in Hnd as [Hy _]. rewrite (proj2 (Z.eqb_neq y x)); [done|]. intros ->. apply Hy. set_solver.
Qed.

Lemma hd_nonzero l : 0 ∉ l -> l <> [] -> (hd 0 l =? 0) = false.
Proof. intros H0 Hl. apply Z.eqb_neq. destruct l as [|x l]; [done|]. cbn. intros ->. apply H0. set_solver. Qed.

Lemma ring_one m x : ring m [x] -> m !! x = Some (mk_links x x).
Proof. by intros [Hx _]. Qed.

Lemma one_element l1 (x : Z) l2 : l1 ++ l2 = [] -> l1 ++ x :: l2 = [x].
Proof. by intros [-> ->]%app_eq_nil. Qed.

#[export] Instance thread_queue_laws : QueueLaws (H := thread_queue).
Proof.
  constructor; cbn [q_enqueue q_dequeue q_rmqueue q_free thread_queue].
  - intros m l x k Hr Hnd H0 Hx Hx0 Hk ->. unfold ipc_thread_enqueue, ITH_NULL. destruct (decide (l = [])) as [->|Hl].
    + cbn [hd app]. rewrite Hk. cbn. rewrite Z.eqb_refl. exists m. by split_and!.
    + rewrite hd_nonzero by done. destruct l as [|f l]; [done|]. destruct (ring_first m f l Hr) as (kf & Hkf & Hlast & _).
      cbn [hd] in *. rewrite Hkf, Hlast.
      destruct (ring_enqueue m (f :: l) x Hr Hnd Hl Hx) as (m1 & m2 & m3 & m4 & H1 & H2 & H3 & H4 & Hr4 & Hf); [by eexists|].
      cbn [hd] in *. rewrite H1, H2, H3, H4. exists m4. split_and!; [done|done| |done].
      by rewrite (set_next_dom _ _ _ _ H4), (set_prev_dom _ _ _ _ H3), (set_prev_dom _ _ _ _ H2), (set_next_dom _ _ _ _ H1).
  - done.
  - intros x m Hx. unfold ipc_thread_dequeue, ipc_thread_rmqueue, ipc_thread_rmqueue_first, ITH_NULL.
    rewrite (proj2 (Z.eqb_neq x 0)) by done. cbn [negb]. rewrite Z.eqb_refl. done.
  - intros m l1 x l2 Hr Hnd H0. unfold ipc_thread_rmqueue, ITH_NULL. rewrite hd_nonzero by (done || by destruct l1). cbn [negb].
    destruct (decide (l1 ++ l2 = [])) as [E|E].
    + rewrite (one_element l1 x l2 E), E in *. rewrite (ring_one m x Hr). cbn [hd l_next l_prev]. rewrite Z.eqb_refl.
      exists m, (mk_links x x). split_and!; try done. by apply ring_one.
    + destruct (ring_remove m l1 x l2 Hr Hnd E) as (k & m1 & m2 & Hk & Hne & Hnext & H1 & H2 & Hr2 & Hf).
      rewrite Hk, (proj2 (Z.eqb_neq _ _) Hne), H1, H2. pose proof (NoDup_middle l1 x l2 Hnd) as Hx.
      destruct (set_links m2 x x x k ltac:(by rewrite Hf)) as (m3 & H3 & H4). unfold ipc_thread_links_init. rewrite H3, H4.
      eexists _, (mk_links x x). split_and!; [by rewrite Hnext, base_new| | |by rewrite lookup_insert_eq|done|].
      * eapply ring_frame; [exact Hr2|]. intros y Hy. apply lookup_insert_ne. intros ->. done.
      * by rewrite (set_prev_dom _ _ _ _ H4), (set_next_dom _ _ _ _ H3), (set_next_dom _ _ _ _ H2), (set_prev_dom _ _ _ _ H1).
      * intros y Hy. rewrite lookup_insert_ne, Hf by set_solver. done.
Qed.

#[export] Instance kmsg_queue_laws : QueueLaws (H := kmsg_queue).
Proof.
  constructor; cbn [q_enqueue q_dequeue q_rmqueue q_free kmsg_queue].
  - intros m l x k Hr Hnd H0 Hx Hx0 Hk _. unfold ipc_kmsg_enqueue, IKM_NULL. destruct (decide (l = [])) as [->|Hl].
    + cbn [hd app]. destruct (set_links m x x x k Hk) as (m1 & H1 & H2). rewrite Z.eqb_refl, H1, H2. eexists. split; [done|]. split; [split; [by rewrite lookup_insert_eq|done]|]. split.
      * by rewrite (set_prev_dom _ _ _ _ H2), (set_next_dom _ _ _ _ H1).
      * intros y _ Hy. by rewrite lookup_insert_ne.
    + rewrite hd_nonzero by done. destruct l as [|f l]; [done|]. destruct (ring_first m f l Hr) as (kf & Hkf & Hlast & _).
      cbn [hd] in *. rewrite Hkf, Hlast.
      destruct (ring_enqueue m (f :: l) x Hr Hnd Hl Hx) as (m1 & m2 & m3 & m4 & H1 & H2 & H3 & H4 & Hr4 & Hf); [by eexists|].
      cbn [hd] in *. rewrite H1, H2, H3, H4. exists m4. split_and!; [done|done| |done].
      by rewrite (set_next_dom _ _ _ _ H4), (set_prev_dom _ _ _ _ H3), (set_prev_dom _ _ _ _ H2), (set_next_dom _ _ _ _ H1).
  - done.
  - intros x m Hx. unfold ipc_kmsg_dequeue, ipc_kmsg_rmqueue, ipc_kmsg_rmqueue_first, IKM_NULL.
    rewrite (proj2 (Z.eqb_neq x 0)) by done. cbn [negb]. rewrite Z.eqb_refl. done.
  - intros m l1 x l2 Hr Hnd H0. unfold ipc_kmsg_rmqueue, IKM_NULL. rewrite hd_nonzero by (done || by destruct l1). cbn [negb].
    destruct (decide (l1 ++ l2 = [])) as [E|E].
    + rewrite (one_element l1 x l2 E), E in *. pose proof (ring_one m x Hr) as Hk. rewrite Hk. cbn [hd l_next l_prev]. rewrite Z.eqb_refl.
      destruct (set_links m x IKM_BOGUS IKM_BOGUS _ Hk) as (m3 & H3 & H4). unfold ikm_forget. rewrite H3, H4.
      eexists _, _. split_and!; [done|done| |by rewrite lookup_insert_eq|done|].
      * by rewrite (set_prev_dom _ _ _ _ H4), (set_next_dom _ _ _ _ H3).
      * intros y Hy. apply lookup_insert_ne. set_solver.
    + destruct (ring_remove m l1 x l2 Hr Hnd E) as (k & m1 & m2 & Hk & Hne & Hnext & H1 & H2 & Hr2 & Hf).
      rewrite Hk, (proj2 (Z.eqb_neq _ _) Hne), H1, H2. pose proof (NoDup_middle l1 x l2 Hnd) as Hx.
      destruct (set_links m2 x IKM_BOGUS IKM_BOGUS k ltac:(by rewrite Hf)) as (m3 & H3 & H4). unfold ikm_forget. rewrite H3, H4.
      eexists _, _. split_and!; [by rewrite Hnext, base_new| | |by rewrite lookup_insert_eq|done|].
      * eapply ring_frame; [exact Hr2|]. intros y Hy. apply lookup_insert_ne. intros ->. done.
      * by rewrite (set_prev_dom _ _ _ _ H4), (set_next_dom _ _ _ _ H3), (set_next_dom _ _ _ _ H2), (set_prev_dom _ _ _ _ H1).
      * intros y Hy. rewrite lookup_insert_ne, Hf by set_solver. done.
Qed.
