(* ===== verification/IpcQueueSpec.v ===== *)
(** * Linked queues are lists

    Several queues over one memory of links, under any sequence of calls, are
    the lists of their elements. *)

From S2P Require Import Prelude PortName IpcTypes IpcQueue.

Inductive qop := Enqueue (q x : Z) | Dequeue (q : Z) | Rmqueue (q x : Z).

(** The links, and the first element of every queue. *)
Record qstate := mk_qstate { qs_links : link_mem; qs_base : gmap Z Z }.

(** A call and what it returns, 0 for nothing. *)
Definition run_op `{QueueOps} (op : qop) (s : qstate) : option (qstate * Z) :=
  match op with
  | Enqueue q x =>
      LET base <- qs_base s !! q ;;
      LET (m, base1) <- q_enqueue base x (qs_links s) ;;
      Some (mk_qstate m (<[q := base1]> (qs_base s)), 0)
  | Dequeue q =>
      LET base <- qs_base s !! q ;;
      LET (m, base1, x) <- q_dequeue base (qs_links s) ;;
      Some (mk_qstate m (<[q := base1]> (qs_base s)), x)
  | Rmqueue q x =>
      LET base <- qs_base s !! q ;;
      LET (m, base1) <- q_rmqueue base x (qs_links s) ;;
      Some (mk_qstate m (<[q := base1]> (qs_base s)), 0)
  end.

Fixpoint run_ops `{QueueOps} (ops : list qop) (s : qstate) : option (qstate * list Z) :=
  match ops with
  | [] => Some (s, [])
  | op :: ops' =>
      LET (s1, x) <- run_op op s ;;
      LET (s2, xs) <- run_ops ops' s1 ;;
      Some (s2, x :: xs)
  end.

(** The same on lists; [None] for a call that is not allowed: to enqueue an
    element that is in a queue, to remove one that is not in that queue. *)
Abbreviation lists := (gmap Z (list Z)).

Definition queued (A : lists) (x : Z) : Prop := map_Exists (fun _ l => x ∈ l) A.
#[export] Instance queued_dec A x : Decision (queued A x).
Proof. unfold queued. apply _. Defined.

Definition list_op (elements : gset Z) (op : qop) (A : lists) : option (lists * Z) :=
  match op with
  | Enqueue q x =>
      LET l <- A !! q ;;
      ASSERT bool_decide (x ∈ elements /\ ~ queued A x) ;;
      Some (<[q := l ++ [x]]> A, 0)
  | Dequeue q =>
      LET l <- A !! q ;;
      match l with
      | [] => Some (A, 0)
      | x :: t => Some (<[q := t]> A, x)
      end
  | Rmqueue q x =>
      LET l <- A !! q ;;
      ASSERT bool_decide (x ∈ l) ;;
      Some (<[q := filter (fun y => y <> x) l]> A, 0)
  end.

Fixpoint list_ops (elements : gset Z) (ops : list qop) (A : lists) : option (lists * list Z) :=
  match ops with
  | [] => Some (A, [])
  | op :: ops' =>
      LET (A1, x) <- list_op elements op A ;;
      LET (A2, xs) <- list_ops elements ops' A1 ;;
      Some (A2, x :: xs)
  end.

Section Refine.
Context `{HO : QueueOps} {HL : QueueLaws} (elements : gset Z).
Implicit Types (s : qstate) (A : lists).

Record queues_are s A : Prop := {
  qa_elements : dom (qs_links s) = elements;
  qa_null : 0 ∉ elements;
  qa_base : forall q, qs_base s !! q = hd 0 <$> A !! q;
  qa_ring : forall q l, A !! q = Some l -> ring (qs_links s) l;
  qa_nodup : forall q l, A !! q = Some l -> NoDup l;
  qa_known : forall q l x, A !! q = Some l -> x ∈ l -> x ∈ elements;
  qa_one : forall q1 q2 l1 l2 x, A !! q1 = Some l1 -> A !! q2 = Some l2 -> x ∈ l1 -> x ∈ l2 -> q1 = q2;
  qa_free : forall x k, qs_links s !! x = Some k -> ~ queued A x -> q_free x k
}.

Lemma queued_intro A q l x : A !! q = Some l -> x ∈ l -> queued A x.
Proof using. intros Hq Hx. by exists q, l. Qed.

(** One queue changes, and elements it has or gets. *)
Lemma queue_changed s A q l l' m' : queues_are s A -> A !! q = Some l ->
  ring m' l' -> NoDup l' -> dom m' = dom (qs_links s) ->
  (forall y, y ∈ l' -> y ∈ l \/ (y ∈ elements /\ ~ queued A y)) ->
  (forall y, y ∉ l -> y ∉ l' -> m' !! y = qs_links s !! y) ->
  (forall y k, y ∈ l -> y ∉ l' -> m' !! y = Some k -> q_free y k) ->
  queues_are (mk_qstate m' (<[q := hd 0 l']> (qs_base s))) (<[q := l']> A).
Proof using.
  intros [Hd H0 Hb Hr Hn Hk H1 Hf] Hq Hr' Hn' Hdom Hnew Hframe Hout. constructor; cbn [qs_links qs_base].
  - by rewrite Hdom.
  - done.
  - intros q1. destruct (decide (q1 = q)) as [->|Hne]; [by rewrite !lookup_insert_eq|by rewrite !lookup_insert_ne].
  - intros q1 l1. destruct (decide (q1 = q)) as [->|Hne]; [rewrite lookup_insert_eq; by intros [= <-]|]. rewrite lookup_insert_ne by done. intros Hl1.
    eapply ring_frame; [by eapply Hr|]. intros y Hy. apply Hframe.
    + intros Hyl. apply Hne. by eapply (H1 q1 q l1 l y).
    + intros Hyl'. destruct (Hnew y Hyl') as [Hyl|[_ Hnq]]; [apply Hne; by eapply (H1 q1 q l1 l y)|]. apply Hnq. by eapply queued_intro.
  - intros q1 l1. destruct (decide (q1 = q)) as [->|Hne]; [rewrite lookup_insert_eq; by intros [= <-]|]. rewrite lookup_insert_ne by done. apply Hn.
  - intros q1 l1 x. destruct (decide (q1 = q)) as [->|Hne]; [|rewrite lookup_insert_ne by done; apply Hk].
    rewrite lookup_insert_eq. intros [= <-] Hx. destruct (Hnew x Hx) as [Hxl|[? _]]; [by eapply Hk|done].
  - assert (forall q1 l1 x, q1 <> q -> A !! q1 = Some l1 -> x ∈ l1 -> x ∉ l') as Hsep.
    { intros q1 l1 x Hne Hl1 Hx Hx'. destruct (Hnew x Hx') as [Hxl|[_ Hnq]]; [apply Hne; by eapply (H1 q1 q l1 l x)|]. apply Hnq. by eapply queued_intro. }
    intros q1 q2 l1 l2 x Hl1 Hl2 Hx1 Hx2. destruct (decide (q1 = q)) as [->|Hne1], (decide (q2 = q)) as [->|Hne2]; [done|..].
    + rewrite lookup_insert_eq in Hl1. injection Hl1 as <-. rewrite lookup_insert_ne in Hl2 by done. by destruct (Hsep q2 l2 x).
    + rewrite lookup_insert_eq in Hl2. injection Hl2 as <-. rewrite lookup_insert_ne in Hl1 by done. by destruct (Hsep q1 l1 x).
    + rewrite lookup_insert_ne in Hl1, Hl2 by done. by eapply H1.
  - intros x k Hx Hnq. assert (x ∉ l') as Hxl'. { intros Hin. apply Hnq. eapply queued_intro; [apply lookup_insert_eq|done]. }
    destruct (decide (x ∈ l)) as [Hxl|Hxl]; [by eapply Hout|]. rewrite Hframe in Hx by done. apply Hf; [done|].
    intros (q1 & l1 & Hl1 & Hin). apply Hnq. destruct (decide (q1 = q)) as [->|Hne]; [congruence|].
    eapply queued_intro; [by rewrite lookup_insert_ne|done].
Qed.

Lemma filter_absent (l : list Z) x : x ∉ l -> filter (fun y => y <> x) l = l.
Proof using.
  induction l as [|y l IH]; [done|]. intros [Hne Hx]%not_elem_of_cons. rewrite filter_cons_True by congruence. by rewrite IH.
Qed.

Lemma remove_eq (l1 : list Z) x l2 : NoDup (l1 ++ x :: l2) -> filter (fun y => y <> x) (l1 ++ x :: l2) = l1 ++ l2.
Proof using.
  intros Hnd. pose proof (NoDup_middle l1 x l2 Hnd) as Hx. apply not_elem_of_app in Hx as [Hx1 Hx2].
  rewrite filter_app, filter_cons_False by (intros H; by apply H). by rewrite !filter_absent.
Qed.

(** Removing one element. *)
Lemma rmqueue_refines s A q l1 x l2 : queues_are s A -> A !! q = Some (l1 ++ x :: l2) ->
  exists m', q_rmqueue (hd 0 (l1 ++ x :: l2)) x (qs_links s) = Some (m', hd 0 (l1 ++ l2)) /\
    queues_are (mk_qstate m' (<[q := hd 0 (l1 ++ l2)]> (qs_base s))) (<[q := l1 ++ l2]> A).
Proof using HL.
  intros Hq Hl. pose proof (qa_nodup _ _ Hq q _ Hl) as Hnd. assert (0 ∉ l1 ++ x :: l2) as H0.
  { intros Hin. apply (qa_null _ _ Hq). by eapply (qa_known _ _ Hq). }
  destruct (q_rmqueue_law (qs_links s) l1 x l2 (qa_ring _ _ Hq q _ Hl) Hnd H0) as (m' & k & Hrm & Hr & Hd & Hx & Hfree & Hf).
  exists m'. split; [done|]. eapply queue_changed; [exact Hq|exact Hl|done| |done|..].
  - eapply sublist_NoDup; [exact Hnd|]. apply sublist_app; [done|]. by apply sublist_cons.
  - intros y Hy. left. set_solver.
  - intros y Hy _. by apply Hf.
  - intros y k' Hy Hy' Hk'. assert (y = x) as -> by set_solver. congruence.
Qed.

Lemma op_refines op s A A' x : queues_are s A -> list_op elements op A = Some (A', x) ->
  exists s', run_op op s = Some (s', x) /\ queues_are s' A'.
Proof using HL.
  intros Hq Hop. destruct op as [q y|q|q y]; cbn in Hop |- *; rewrite (qa_base _ _ Hq);
    destruct (A !! q) as [l|] eqn:Hl; try done; cbn [fmap option_fmap option_map].
  - case_bool_decide as Hy; [|done]. destruct Hy as [Hy Hnq]. injection Hop as <- <-.
    assert (y ∉ l) as Hyl by (intros Hin; apply Hnq; by eapply queued_intro).
    assert (is_Some (qs_links s !! y)) as [k Hk] by (apply elem_of_dom; by rewrite (qa_elements _ _ Hq)).
    assert (0 ∉ l) as H0 by (intros Hin; apply (qa_null _ _ Hq); by eapply (qa_known _ _ Hq)).
    assert (y <> 0) as Hy0 by (intros ->; by apply (qa_null _ _ Hq)).
    destruct (q_enqueue_law (qs_links s) l y k (qa_ring _ _ Hq q l Hl) (qa_nodup _ _ Hq q l Hl) H0 Hyl Hy0 Hk (qa_free _ _ Hq y k Hk Hnq))
      as (m' & -> & Hr & Hd & Hf).
    eexists. split; [done|]. eapply queue_changed; [exact Hq|exact Hl|done| |done|..].
    + apply NoDup_app. split_and!; [by eapply (qa_nodup _ _ Hq)|intros z Hz ->%list_elem_of_singleton; done|apply NoDup_singleton].
    + intros z [Hz| ->%list_elem_of_singleton]%elem_of_app; [by left|by right].
    + intros z Hz Hz'. apply Hf; set_solver.
    + set_solver.
  - destruct l as [|y t]; cbn [hd].
    + injection Hop as <- <-. rewrite q_dequeue_empty. eexists. split; [done|]. rewrite insert_id; [by destruct s|]. by rewrite (qa_base _ _ Hq), Hl.
    + injection Hop as <- <-. assert (y <> 0) as Hy0. { intros ->. apply (qa_null _ _ Hq). eapply (qa_known _ _ Hq); [exact Hl|set_solver]. }
      rewrite q_dequeue_first by done. destruct (rmqueue_refines s A q [] y t Hq Hl) as (m' & Hrm & Hq'). cbn in Hrm. rewrite Hrm.
      by eexists.
  - case_bool_decide as Hy; [|done]. injection Hop as <- <-. apply list_elem_of_split in Hy as (l1 & l2 & ->).
    destruct (rmqueue_refines s A q l1 y l2 Hq Hl) as (m' & -> & Hq'). rewrite remove_eq by (by eapply (qa_nodup _ _ Hq)). by eexists.
Qed.

Lemma ops_refine ops : forall s A A' xs, queues_are s A -> list_ops elements ops A = Some (A', xs) ->
  exists s', run_ops ops s = Some (s', xs) /\ queues_are s' A'.
Proof using HL.
  induction ops as [|op ops IH]; intros s A A' xs Hq Hops; cbn in Hops |- *.
  - injection Hops as <- <-. by exists s.
  - destruct (list_op elements op A) as [[A1 x]|] eqn:Hop; [|done]. destruct (list_ops elements ops A1) as [[A2 xs']|] eqn:Hops'; [|done].
    injection Hops as <- <-. destruct (op_refines op s A A1 x Hq Hop) as (s1 & -> & Hq1). destruct (IH s1 A1 A2 xs' Hq1 Hops') as (s2 & -> & Hq2).
    by exists s2.
Qed.
End Refine.

(** The message after another one, to walk a queue from its first message. *)
Lemma queue_next_walks (m : link_mem) l1 x l2 : ring m (l1 ++ x :: l2) -> NoDup (l1 ++ x :: l2) -> 0 ∉ l1 ++ x :: l2 ->
  ipc_kmsg_queue_next (hd 0 (l1 ++ x :: l2)) x m = Some (hd IKM_NULL l2).
Proof.
  intros Hr Hnd H0. unfold ipc_kmsg_queue_next, IKM_NULL. rewrite hd_nonzero by (done || by destruct l1). cbn [negb].
  unfold ring in Hr. apply dseg_app in Hr as [_ [Hx _]]. rewrite Hx. cbn [l_next]. f_equal.
  destruct l2 as [|y l2]; cbn [hd]; [by rewrite Z.eqb_refl|]. rewrite (proj2 (Z.eqb_neq _ _)); [done|]. intros E.
  destruct l1 as [|z l1]; cbn in E, Hnd; apply NoDup_cons in Hnd as [Hz _]; apply Hz; rewrite E; set_solver.
Qed.

(** ** The theorems *)

(** C35: the queues of threads, circular lists linked through the threads, behave
    as lists under any sequence of allowed calls: a thread is enqueued at the end,
    dequeued from the front or pulled out of the middle, no assertion fails, and a
    thread that leaves its queue is linked to itself again, as the next enqueue
    requires. *)
Theorem thread_queues_refine_lists elements ops s A A' xs : queues_are (HO := thread_queue) elements s A ->
  list_ops elements ops A = Some (A', xs) ->
  exists s', run_ops (H := thread_queue) ops s = Some (s', xs) /\ queues_are (HO := thread_queue) elements s' A'.
Proof. apply ops_refine. Qed.

(** the same for the queues of messages, whose links are marked when a message
    leaves its queue and which any message can be put on again. *)
Lemma kmsg_queues_refine_lists elements ops s A A' xs : queues_are (HO := kmsg_queue) elements s A ->
  list_ops elements ops A = Some (A', xs) ->
  exists s', run_ops (H := kmsg_queue) ops s = Some (s', xs) /\ queues_are (HO := kmsg_queue) elements s' A'.
Proof. apply ops_refine. Qed.

(** ** Three elements and two queues *)

Definition links3 : link_mem := {[ 11 := mk_links 11 11; 12 := mk_links 12 12; 13 := mk_links 13 13 ]}.
Definition queues2 : qstate := mk_qstate links3 {[ 1 := 0; 2 := 0 ]}.
Definition lists2 : lists := {[ 1 := []; 2 := [] ]}.
Definition ops2 : list qop :=
  [Enqueue 1 11; Enqueue 1 12; Enqueue 1 13; Rmqueue 1 12; Enqueue 2 12; Dequeue 1; Enqueue 1 11; Dequeue 1; Dequeue 1; Dequeue 1].

Lemma queues2_are (HO : QueueOps) : (forall x, q_free x (mk_links x x)) -> queues_are {[ 11; 12; 13 ]} queues2 lists2.
Proof.
  intros Hfree. assert (forall q l, lists2 !! q = Some l -> l = []) as Hnil.
  { intros q l. unfold lists2. rewrite !lookup_insert_Some, lookup_singleton_Some. naive_solver. }
  constructor; cbn [queues2 qs_links qs_base].
  - by vm_compute.
  - set_solver.
  - intros q. unfold lists2. destruct (decide (q = 1)) as [->|]; [done|]. destruct (decide (q = 2)) as [->|]; [done|].
    by rewrite !lookup_insert_ne, !lookup_singleton_ne.
  - intros q l Hl. by rewrite (Hnil q l Hl).
  - intros q l Hl. rewrite (Hnil q l Hl). constructor.
  - intros q l x Hl. rewrite (Hnil q l Hl). by intros ?%elem_of_nil.
  - intros q1 q2 l1 l2 x Hl. rewrite (Hnil q1 l1 Hl). by intros _ ?%elem_of_nil.
  - intros x k. unfold links3. rewrite !lookup_insert_Some, lookup_singleton_Some. naive_solver.
Qed.

Lemma thread_queues_refine_lists_witness : exists s' A',
  run_ops (H := thread_queue) ops2 queues2 = Some (s', [0; 0; 0; 0; 0; 11; 0; 13; 11; 0]) /\ queues_are (HO := thread_queue) {[ 11; 12; 13 ]} s' A'.
Proof.
  destruct (list_ops {[ 11; 12; 13 ]} ops2 lists2) as [[A' xs]|] eqn:E; [|by vm_compute in E].
  destruct (thread_queues_refine_lists _ _ _ _ _ _ (queues2_are thread_queue (fun x => eq_refl)) E) as (s' & Hrun & Hq).
  exists s', A'. split; [|done]. vm_compute in E. injection E as _ <-. exact Hrun.
Defined.

Lemma kmsg_queues_refine_lists_witness : exists s' A',
  run_ops (H := kmsg_queue) ops2 queues2 = Some (s', [0; 0; 0; 0; 0; 11; 0; 13; 11; 0]) /\ queues_are (HO := kmsg_queue) {[ 11; 12; 13 ]} s' A'.
Proof.
  destruct (list_ops {[ 11; 12; 13 ]} ops2 lists2) as [[A' xs]|] eqn:E; [|by vm_compute in E].
  destruct (kmsg_queues_refine_lists _ _ _ _ _ _ (queues2_are kmsg_queue (fun x => I)) E) as (s' & Hrun & Hq).
  exists s', A'. split; [|done]. vm_compute in E. injection E as _ <-. exact Hrun.
Defined.
