(* ===== verification/IpcMarequest.v ===== *)
(** * Message-accepted requests (ipc/ipc_marequest.c)

    A sender that forces a message makes a request, to be notified when the
    message is received.  The bit IE_BITS_MAREQUEST of the entry of the send
    right says that it has one; the request is found through a hash table, by
    space and name, when the entry goes away or is renamed. *)

From S2P Require Import Prelude PortName IpcTable IpcTypes IpcHash IpcMqueue IpcPort.
From S2P Require Import IpcWorld IpcPortOps IpcSpaceInv IpcCap IpcRight IpcRightCopy.

(** ** The table *)

Record ipc_marequest := mk_imar { imar_space : Z; imar_name : Z; imar_soright : Z }.

(** The requests in memory, and the chains of the buckets, of their addresses. *)
Record imar_table := mk_imar_table {
  ipc_marequest_size : Z;
  ipc_marequest_mask : Z;
  ipc_marequest_table : list (list Z);
  imar_mem : gmap Z ipc_marequest
}.

Definition imar_set_name (name : Z) (r : ipc_marequest) : ipc_marequest := mk_imar (imar_space r) name (imar_soright r).

(** [configured] is the initial value of [ipc_marequest_size]. *)
Definition ipc_marequest_init (configured ipc_marequest_max : Z) : option imar_table :=
  let size :=
    if configured =? 0
    then (let size := Z.shiftr ipc_marequest_max 8 in if size <? 16 then 16 else size)
    else configured in
  let mask := u32 (size - 1) in
  LET mask' <- (if negb (Z.land size mask =? 0) then round_loop 32 mask 1 else Some mask) ;;
  let size' := u32 (mask' + 1) in
  Some (mk_imar_table size' mask' (replicate (Z.to_nat size') []) ∅).

Section Table.
Context `{PC : PortConfig}.

Definition MACH_PORT_NGEN (name : Z) : Z := MACH_PORT_MAKE 0 (MACH_PORT_GEN name).

Definition IMAR_HASH (mask space name : Z) : Z :=
  Z.land (u32 (Z.shiftr space 4 + MACH_PORT_INDEX name + MACH_PORT_NGEN name)) mask.

(** The loop along a chain: the request of [space] and [name], and the chain
    without it.  [None] when there is none, which the callers assert. *)
Fixpoint imar_unlink (mem : gmap Z ipc_marequest) (space name : Z) (chain : list Z) : option (Z * list Z) :=
  match chain with
  | [] => None
  | a :: chain' =>
      LET r <- mem !! a ;;
      if (imar_space r =? space) && (imar_name r =? name) then Some (a, chain')
      else
        LET (b, rest) <- imar_unlink mem space name chain' ;;
        Some (b, a :: rest)
  end.

Definition imar_set_bucket (t : imar_table) (h : Z) (chain : list Z) : imar_table :=
  mk_imar_table (ipc_marequest_size t) (ipc_marequest_mask t) (aset (ipc_marequest_table t) h chain) (imar_mem t).

Definition imar_store (t : imar_table) (a : Z) (r : ipc_marequest) : imar_table :=
  mk_imar_table (ipc_marequest_size t) (ipc_marequest_mask t) (ipc_marequest_table t) (<[a := r]> (imar_mem t)).

Definition imar_free (t : imar_table) (a : Z) : imar_table :=
  mk_imar_table (ipc_marequest_size t) (ipc_marequest_mask t) (ipc_marequest_table t) (delete a (imar_mem t)).

(** Unlinks the request of a name from its bucket. *)
Definition imar_remove (t : imar_table) (space name : Z) : option (imar_table * Z) :=
  let h := IMAR_HASH (ipc_marequest_mask t) space name in
  LET chain <- aget (ipc_marequest_table t) h ;;
  LET (a, rest) <- imar_unlink (imar_mem t) space name chain ;;
  Some (imar_set_bucket t h rest, a).

(** Links a request in at the front of its bucket. *)
Definition imar_insert (t : imar_table) (a space name : Z) : option imar_table :=
  let h := IMAR_HASH (ipc_marequest_mask t) space name in
  LET chain <- aget (ipc_marequest_table t) h ;;
  Some (imar_set_bucket t h (a :: chain)).

(** [active] is [space->is_active]. *)
Definition ipc_marequest_cancel (t : imar_table) (active : bool) (space name : Z) : option imar_table :=
  ASSERT active ;;
  LET (t1, a) <- imar_remove t space name ;;
  LET r <- imar_mem t1 !! a ;;
  Some (imar_store t1 a (imar_set_name MACH_PORT_NULL r)).

Definition ipc_marequest_rename (t : imar_table) (active : bool) (space old new : Z) : option imar_table :=
  ASSERT active ;;
  LET (t1, a) <- imar_remove t space old ;;
  LET r <- imar_mem t1 !! a ;;
  imar_insert (imar_store t1 a (imar_set_name new r)) a space new.

(** ** Making and destroying requests *)

Section Requests.
Context {S : Type} {CS : CapSpace S}.

(** A space, the ports and the table. *)
Record mstate := mk_mstate { ms_rights : rstate S; ms_table : imar_table }.

(** The send-once right for the notification; the null name is an old-style
    request, without one. *)
Definition imar_soright_of (st : rstate S) (notify : Z) : option (rstate S * option Z) :=
  if notify =? MACH_PORT_NULL then Some (st, Some IP_NULL)
  else
    LET (st1, soright) <- ipc_port_lookup_notify st notify ;;
    Some (st1, if soright =? IP_NULL then None else Some soright).

(** [mem] is what [imar_alloc] returns. *)
Definition ipc_marequest_create (st : mstate) (port notify : Z) (mem : option Z)
    : option (mstate * (mach_msg_return + Z)) :=
  match mem with
  | None => Some (st, inl MACH_SEND_NO_NOTIFY)
  | Some a =>
      let rs := ms_rights st in
      let t := ms_table st in
      if negb (cs_active (r_space rs)) then Some (st, inl MACH_SEND_INVALID_NOTIFY)
      else
        LET (rs1, found) <- ipc_right_reverse rs port ;;
        match found with
        | Some (name, ref) =>
            LET v <- cs_entry (r_space rs1) ref ;;
            let bits := ev_bits v in
            ASSERT port =? ev_object v ;;
            ASSERT bit bits MACH_PORT_TYPE_SEND_RECEIVE ;;
            if bit bits IE_BITS_MAREQUEST then Some (mk_mstate rs1 t, inl MACH_SEND_NOTIFY_IN_PROGRESS)
            else
              LET (rs2, found) <- imar_soright_of rs1 notify ;;
              match found with
              | None => Some (mk_mstate rs2 t, inl MACH_SEND_INVALID_NOTIFY)
              | Some soright =>
                  LET rs3 <- entry_upd ref (v_set_bits (Z.lor bits IE_BITS_MAREQUEST)) rs2 ;;
                  let rs4 := log [Space_reference (self rs3)] rs3 in
                  let t1 := imar_store t a (mk_imar (self rs4) name soright) in
                  LET t2 <- imar_insert t1 a (self rs4) name ;;
                  Some (mk_mstate rs4 t2, inr a)
              end
        | None =>
            LET (rs2, found) <- imar_soright_of rs1 notify ;;
            match found with
            | None => Some (mk_mstate rs2 t, inl MACH_SEND_INVALID_NOTIFY)
            | Some soright =>
                let rs3 := log [Space_reference (self rs2)] rs2 in
                Some (mk_mstate rs3 (imar_store t a (mk_imar (self rs3) MACH_PORT_NULL soright)), inr a)
            end
        end
  end.

(** The table and the entry of a request that has a name; returns the name to
    notify with and the send right of an old-style notification. *)
Definition imar_unmark (is_notify : Z) (st : mstate) (a name soright : Z) : option (mstate * (Z * Z)) :=
  let rs := ms_rights st in
  LET (t1, this) <- imar_remove (ms_table st) (self rs) name ;;
  ASSERT this =? a ;;
  if cs_active (r_space rs) then
    LET (s, found) <- cs_lookup (r_space rs) name ;;
    LET ref <- found ;;
    LET v <- cs_entry s ref ;;
    ASSERT bit (ev_bits v) IE_BITS_MAREQUEST ;;
    ASSERT bit (ev_bits v) MACH_PORT_TYPE_SEND_RECEIVE ;;
    LET rs1 <- entry_upd ref (v_set_bits (Z.ldiff (ev_bits v) IE_BITS_MAREQUEST)) (with_space s rs) ;;
    if soright =? IP_NULL then
      LET (w, sright) <- ipc_port_copy_send is_notify (r_world rs1) ;;
      Some (mk_mstate (with_world w rs1) t1, (name, sright))
    else Some (mk_mstate rs1 t1, (name, IP_NULL))
  else Some (mk_mstate rs t1, (MACH_PORT_NULL, IP_NULL)).

(** The request must be of the space of the state; [is_notify] is the notify
    port of that space. *)
Definition ipc_marequest_destroy (is_notify : Z) (st : mstate) (a : Z) : option mstate :=
  LET r <- imar_mem (ms_table st) !! a ;;
  ASSERT imar_space r =? self (ms_rights st) ;;
  let name := imar_name r in
  let soright := imar_soright r in
  LET (st1, ns) <- (if negb (name =? MACH_PORT_NULL) then imar_unmark is_notify st a name soright
                    else Some (st, (name, IP_NULL))) ;;
  let '(name1, sright) := ns in
  let rs2 := log [Space_release (self (ms_rights st1))] (ms_rights st1) in
  let t2 := imar_free (ms_table st1) a in
  if soright =? IP_NULL then
    if IP_VALID sright then
      ASSERT negb (name1 =? MACH_PORT_NULL) ;;
      Some (mk_mstate (log [Notify_msg_accepted_compat sright name1] rs2) t2)
    else Some (mk_mstate rs2 t2)
  else
    ASSERT sright =? IP_NULL ;;
    Some (mk_mstate (log [Notify_msg_accepted soright name1] rs2) t2).
End Requests.
End Table.

Arguments mstate S : clear implicits.
Arguments mk_mstate {S}.
Arguments ms_rights {S}.
Arguments ms_table {S}.
