(* ===== verification/IpcMarequestSpec.v ===== *)
(** * Message-accepted requests: the table, its agreement with the entries, and
    what senders are promised *)
From S2P Require Import Prelude PortName IpcTable IpcTypes IpcHash IpcMqueue IpcPort.
From S2P Require Import IpcWorld IpcPortOps IpcSpaceInv IpcCap IpcRight IpcRightCopy IpcRightBits.
From S2P Require Import IpcRequests IpcRightInv IpcRightSteps IpcMarequest IpcSplay IpcEntry IpcEntrySpec.
From S2P Require Import IpcSpace IpcEntryThms IpcCapSpace IpcRightThms.

Section Table.
Context `{PC : PortConfig}.
Implicit Types (t : imar_table) (a b : Z) (r : ipc_marequest) (chain : list Z).

(** The request is in a bucket. *)
Definition linked t a : Prop := exists h chain, aget (ipc_marequest_table t) h = Some chain /\ a ∈ chain.

Definition same_key r r' : Prop := imar_space r = imar_space r' /\ imar_name r = imar_name r'.

Record imar_wf t : Prop := {
  iw_size : exists k, 0 <= k <= 32 /\ ipc_marequest_size t = 2 ^ k /\ ipc_marequest_mask t = 2 ^ k - 1 /\
    alen (ipc_marequest_table t) = 2 ^ k;
  iw_bucket : forall h chain a, aget (ipc_marequest_table t) h = Some chain -> a ∈ chain ->
    exists r, imar_mem t !! a = Some r /\ IMAR_HASH (ipc_marequest_mask t) (imar_space r) (imar_name r) = h /\
      imar_name r <> MACH_PORT_NULL;
  iw_nodup : forall h chain, aget (ipc_marequest_table t) h = Some chain -> NoDup chain;
  iw_keys : forall a a' r r', linked t a -> linked t a' -> imar_mem t !! a = Some r -> imar_mem t !! a' = Some r' ->
    same_key r r' -> a = a'
}.

Lemma imar_hash_range t space name : imar_wf t ->
  0 <= IMAR_HASH (ipc_marequest_mask t) space name < alen (ipc_marequest_table t).
Proof.
  intros [(k & Hk & _ & Hm & ->) _ _ _]. unfold IMAR_HASH. rewrite Hm.
  replace (2 ^ k - 1) with (Z.ones k) by (rewrite Z.ones_equiv; lia).
  rewrite Z.land_ones by lia. apply Z.mod_pos_bound. apply Z.pow_pos_nonneg; lia.
Qed.

Lemma imar_linked t a : imar_wf t -> linked t a ->
  exists r chain, imar_mem t !! a = Some r /\ imar_name r <> MACH_PORT_NULL /\
    aget (ipc_marequest_table t) (IMAR_HASH (ipc_marequest_mask t) (imar_space r) (imar_name r)) = Some chain /\ a ∈ chain.
Proof.
  intros Hwf (h & chain & Hc & Ha). destruct (iw_bucket _ Hwf h chain a Hc Ha) as (r & Hr & <- & Hn). by exists r, chain.
Qed.

(** The loop along a chain finds the request of a key. *)
Lemma imar_unlink_found mem chain a r : imar_mem mem !! a = Some r -> a ∈ chain ->
  (forall x, x ∈ chain -> exists rx, imar_mem mem !! x = Some rx /\ (same_key rx r -> x = a)) ->
  exists l1 l2, chain = l1 ++ a :: l2 /\ imar_unlink (imar_mem mem) (imar_space r) (imar_name r) chain = Some (a, l1 ++ l2).
Proof.
  intros Hr. induction chain as [|x chain IH]; intros Ha Hk; [by apply elem_of_nil in Ha|].
  destruct (Hk x ltac:(apply list_elem_of_here)) as (rx & Hx & Hxa). cbn. rewrite Hx.
  destruct (decide (x = a)) as [->|Hne].
  - assert (rx = r) as -> by congruence. rewrite !Z.eqb_refl. by exists [], chain.
  - apply elem_of_cons in Ha as [->|Ha]; [done|].
    destruct (Z.eqb_spec (imar_space rx) (imar_space r)), (Z.eqb_spec (imar_name rx) (imar_name r)); cbn [andb];
      [by destruct Hne; apply Hxa|..];
      (destruct (IH Ha) as (l1 & l2 & -> & ->); [intros y Hy; apply Hk; by apply list_elem_of_further|by exists (x :: l1), l2]).
Qed.

(** A bucket is replaced. *)
Lemma linked_set_bucket t h chain a : 0 <= h < alen (ipc_marequest_table t) ->
  linked (imar_set_bucket t h chain) a <->
  a ∈ chain \/ exists h' chain', h' <> h /\ aget (ipc_marequest_table t) h' = Some chain' /\ a ∈ chain'.
Proof.
  intros Hh. unfold linked. cbn. split.
  - intros (h' & chain' & Hc & Ha). destruct (decide (h' = h)) as [->|Hne].
    + rewrite aget_aset_eq in Hc by done. injection Hc as <-. by left.
    + rewrite aget_aset_ne in Hc by done. right. by exists h', chain'.
  - intros [Ha|(h' & chain' & Hne & Hc & Ha)]; [exists h, chain; by rewrite aget_aset_eq|].
    exists h', chain'. by rewrite aget_aset_ne.
Qed.

(** Removing a request that is linked. *)
Lemma imar_remove_ok t a r : imar_wf t -> linked t a -> imar_mem t !! a = Some r ->
  exists t', imar_remove t (imar_space r) (imar_name r) = Some (t', a) /\ imar_wf t' /\ imar_mem t' = imar_mem t /\
    forall b, linked t' b <-> linked t b /\ b <> a.
Proof.
  intros Hwf Hl Hr. destruct (imar_linked t a Hwf Hl) as (r' & chain & Hr' & Hn & Hc & Ha). rewrite Hr in Hr'. injection Hr' as <-.
  unfold imar_remove. rewrite Hc. set (h := IMAR_HASH _ _ _) in *. pose proof (imar_hash_range t (imar_space r) (imar_name r) Hwf) as Hh. fold h in Hh.
  destruct (imar_unlink_found t chain a r Hr Ha) as (l1 & l2 & -> & ->).
  { intros x Hx. destruct (iw_bucket _ Hwf h _ x Hc Hx) as (rx & Hrx & _). exists rx. split; [done|]. intros Hk.
    eapply (iw_keys _ Hwf x a rx r); [by exists h, chain|done|done|done|done]. }
  pose proof (iw_nodup _ Hwf h _ Hc) as Hnd.
  pose proof (NoDup_middle l1 a l2 Hnd) as Hna.
  assert (forall b, linked (imar_set_bucket t h (l1 ++ l2)) b <-> linked t b /\ b <> a) as Hlink.
  { intros b. rewrite linked_set_bucket by done. split.
    - intros [Hb|(h' & c' & Hne & Hc' & Hb)].
      + split; [exists h, (l1 ++ a :: l2); split; [done|set_solver]|]. intros ->. done.
      + split; [by exists h', c'|]. intros ->. destruct (iw_bucket _ Hwf h' c' a Hc' Hb) as (ra & Hra & Hh' & _).
        rewrite Hr in Hra. injection Hra as <-. by destruct Hne.
    - intros [(h' & c' & Hc' & Hb) Hne]. destruct (decide (h' = h)) as [->|Hne']; [|right; by exists h', c'].
      left. rewrite Hc in Hc'. injection Hc' as <-. set_solver. }
  eexists. split; [done|]. split_and!; [|done|done]. constructor.
  - destruct (iw_size _ Hwf) as (k & ?). exists k. cbn. by rewrite alen_aset.
  - intros h' c' b. cbn. rewrite aget_aset. case_decide as Hd; [|by apply (iw_bucket _ Hwf)]. destruct Hd as [<- _]. intros [= <-] Hb.
    apply (iw_bucket _ Hwf h _ b Hc). set_solver.
  - intros h' c'. cbn. rewrite aget_aset. case_decide; [|by apply (iw_nodup _ Hwf)]. intros [= <-].
    eapply sublist_NoDup; [exact Hnd|]. apply sublist_app; [done|]. by apply sublist_cons.
  - intros x y rx ry [Hx _]%Hlink [Hy _]%Hlink. by apply (iw_keys _ Hwf).
Qed.

(** Linking one in whose key is new. *)
Lemma imar_insert_ok t a r : imar_wf t -> ~ linked t a -> imar_mem t !! a = Some r -> imar_name r <> MACH_PORT_NULL ->
  (forall b rb, linked t b -> imar_mem t !! b = Some rb -> ~ same_key rb r) ->
  exists t', imar_insert t a (imar_space r) (imar_name r) = Some t' /\ imar_wf t' /\ imar_mem t' = imar_mem t /\
    forall b, linked t' b <-> linked t b \/ b = a.
Proof.
  intros Hwf Hnl Hr Hn Hkey. unfold imar_insert. set (h := IMAR_HASH _ _ _).
  pose proof (imar_hash_range t (imar_space r) (imar_name r) Hwf) as Hh. fold h in Hh.
  destruct (aget_is_Some _ h Hh) as [chain Hc]. rewrite Hc.
  assert (forall b, linked (imar_set_bucket t h (a :: chain)) b <-> linked t b \/ b = a) as Hlink.
  { intros b. rewrite linked_set_bucket by done. split.
    - intros [[->|Hb]%elem_of_cons|(h' & c' & Hne & Hc' & Hb)]; [by right|left; by exists h, chain|left; by exists h', c'].
    - intros [(h' & c' & Hc' & Hb)| ->]; [|left; apply list_elem_of_here]. destruct (decide (h' = h)) as [->|Hne]; [|right; by exists h', c'].
      left. rewrite Hc in Hc'. injection Hc' as <-. by apply list_elem_of_further. }
  eexists. split; [done|]. split_and!; [|done|done]. constructor.
  - destruct (iw_size _ Hwf) as (k & ?). exists k. cbn. by rewrite alen_aset.
  - intros h' c' b. cbn. rewrite aget_aset. case_decide as Hd; [|by apply (iw_bucket _ Hwf)]. destruct Hd as [<- _]. intros [= <-] Hb.
    apply elem_of_cons in Hb as [->|Hb]; [by exists r|]. by apply (iw_bucket _ Hwf h chain).
  - intros h' c'. cbn. rewrite aget_aset. case_decide as Hd; [|by apply (iw_nodup _ Hwf)]. intros [= <-].
    apply NoDup_cons. split; [|by apply (iw_nodup _ Hwf h)]. intros Ha. apply Hnl. by exists h, chain.
  - intros x y rx ry [Hx| ->]%Hlink [Hy| ->]%Hlink; cbn; intros Hrx Hry Hk.
    + by apply (iw_keys _ Hwf x y rx ry).
    + destruct (Hkey x rx Hx Hrx). by replace r with ry by congruence.
    + destruct (Hkey y ry Hy Hry). destruct Hk as [H1 H2]. replace r with rx by congruence. by split.
    + done.
Qed.

(** What is stored at an address that is not linked does not matter. *)
Lemma imar_store_wf t a r : imar_wf t -> ~ linked t a -> imar_wf (imar_store t a r) /\ forall b, linked (imar_store t a r) b <-> linked t b.
Proof.
  intros Hwf Hnl. split; [|done]. assert (forall b, linked t b -> (<[a := r]> (imar_mem t)) !! b = imar_mem t !! b) as Hkeep.
  { intros b Hb. rewrite lookup_insert_ne; [done|]. intros ->. done. }
  constructor; cbn.
  - apply (iw_size _ Hwf).
  - intros h c b Hc Hb. rewrite Hkeep by (by exists h, c). by apply (iw_bucket _ Hwf h c).
  - apply (iw_nodup _ Hwf).
  - intros x y rx ry Hx Hy. rewrite !Hkeep by done. by apply (iw_keys _ Hwf).
Qed.

Lemma imar_free_wf t a : imar_wf t -> ~ linked t a -> imar_wf (imar_free t a) /\ forall b, linked (imar_free t a) b <-> linked t b.
Proof.
  intros Hwf Hnl. split; [|done]. assert (forall b, linked t b -> delete a (imar_mem t) !! b = imar_mem t !! b) as Hkeep.
  { intros b Hb. rewrite lookup_delete_ne; [done|]. intros ->. done. }
  constructor; cbn.
  - apply (iw_size _ Hwf).
  - intros h c b Hc Hb. rewrite Hkeep by (by exists h, c). by apply (iw_bucket _ Hwf h c).
  - apply (iw_nodup _ Hwf).
  - intros x y rx ry Hx Hy. rewrite !Hkeep by done. by apply (iw_keys _ Hwf).
Qed.
End Table.

(** ** Requests and entries *)

Section Requests.
Context `{PC : PortConfig} {S : Type} {CS : CapSpace S} {CL : CapSpaceLaws S}.
Implicit Types (s : S) (w : world) (c : gmap Z capability) (n p a : Z) (r : entry_ref) (v : eview) (q : ipc_port) (t : imar_table).

Definition marked (cap : capability) : bool := bit (cap_right cap) IE_BITS_MAREQUEST.

(** The request [a] is the one of the name [n] of the space [self]. *)
Definition request_of t (self n a : Z) : Prop :=
  linked t a /\ exists x, imar_mem t !! a = Some x /\ imar_space x = self /\ imar_name x = n.

(** Every entry with the bit has a request in the table, and the other way round. *)
Record requests_ok s c t : Prop := {
  rq_repr : cs_repr s c;
  rq_wf : imar_wf t;
  rq_marked : forall n cap, c !! n = Some cap -> marked cap = true ->
    bit (cap_right cap) MACH_PORT_TYPE_SEND_RECEIVE = true /\ exists a, request_of t (cs_self s) n a;
  rq_linked : forall n a, request_of t (cs_self s) n a -> exists cap, c !! n = Some cap /\ marked cap = true;
  rq_named : forall a x, imar_mem t !! a = Some x -> imar_space x = cs_self s -> imar_name x <> MACH_PORT_NULL -> linked t a
}.

(** ** Writing the bits of an entry *)

Lemma rebit s w c n r v b : cs_repr s c -> cs_holds s n r v -> same_place (ev_bits v) b -> IE_BITS_TYPE b = ev_type v ->
  exists s', entry_upd r (v_set_bits b) (mk_rstate s w) = Some (mk_rstate s' w) /\
    cs_repr s' (<[n := the_cap (v_set_bits b v)]> c) /\ cs_holds s' n r (v_set_bits b v) /\ cs_self s' = cs_self s.
Proof.
  intros Hr Hh Hp Ht. destruct (repr_holds s c n r v Hr Hh) as (Hc & [cap Hcap] & Hb).
  destruct (upd_step (is_send v) s w (delete n c) n r v (v_set_bits b) (open_any s c n r v Hr Hh) Hp ltac:(done)) as (s' & Hu & Ho & Hs).
  exists s'. split; [done|].
  destruct (close_any (is_send v) s' (delete n c) n r (v_set_bits b v) Ho) as [Hr' Hh'].
  - unfold is_send, ev_type at 2. cbn. by rewrite Ht.
  - unfold ev_type. cbn. rewrite Ht. rewrite Hcap in Hc. unfold view_cap, cap_of in Hc. unfold ev_type. by destruct (Z.eqb_spec (IE_BITS_TYPE (ev_bits v)) MACH_PORT_TYPE_NONE).
  - by rewrite insert_delete_eq in Hr'.
Qed.

(** Setting and clearing the bit leave everything else. *)
Lemma mark_bits b : is_u32 b ->
  same_place b (Z.lor b IE_BITS_MAREQUEST) /\ IE_BITS_TYPE (Z.lor b IE_BITS_MAREQUEST) = IE_BITS_TYPE b /\
  bit (Z.lor b IE_BITS_MAREQUEST) IE_BITS_MAREQUEST = true.
Proof.
  intros Hb. split_and!.
  - by apply same_place_lor.
  - unfold IE_BITS_TYPE. rewrite Z.land_lor_distr_l. change (Z.land IE_BITS_MAREQUEST IE_BITS_TYPE_MASK) with 0. apply Z.lor_0_r.
  - unfold bit. rewrite Z.land_lor_distr_l, Z.land_diag. apply negb_true_iff, Z.eqb_neq. intros E. by apply Z.lor_eq_0_iff in E as [_ ?].
Qed.

Lemma unmark_bits b : is_u32 b ->
  same_place b (Z.ldiff b IE_BITS_MAREQUEST) /\ IE_BITS_TYPE (Z.ldiff b IE_BITS_MAREQUEST) = IE_BITS_TYPE b /\
  bit (Z.ldiff b IE_BITS_MAREQUEST) IE_BITS_MAREQUEST = false.
Proof.
  intros Hb. split_and!.
  - by apply same_place_ldiff.
  - unfold IE_BITS_TYPE. by rewrite land_ldiff_swap.
  - unfold bit. rewrite land_ldiff_swap, Z.ldiff_diag. by rewrite Z.land_0_r.
Qed.

Definition set_mark (cap : capability) : capability :=
  mk_cap (Z.lor (cap_right cap) IE_BITS_MAREQUEST) (cap_object cap) (cap_request cap).
Definition clear_mark (cap : capability) : capability :=
  mk_cap (Z.ldiff (cap_right cap) IE_BITS_MAREQUEST) (cap_object cap) (cap_request cap).

Lemma the_cap_mark v : the_cap (v_set_bits (Z.lor (ev_bits v) IE_BITS_MAREQUEST) v) = set_mark (the_cap v).
Proof. unfold the_cap, set_mark. cbn. f_equal. unfold IE_BITS_RIGHT. by rewrite Z.land_lor_distr_l. Qed.

Lemma the_cap_unmark v : the_cap (v_set_bits (Z.ldiff (ev_bits v) IE_BITS_MAREQUEST) v) = clear_mark (the_cap v).
Proof.
  unfold the_cap, clear_mark. cbn. f_equal. unfold IE_BITS_RIGHT. apply Z.bits_inj'. intros k Hk.
  rewrite !Z.ldiff_spec, !Z.land_spec, Z.ldiff_spec. by destruct (Z.testbit (ev_bits v) k), (Z.testbit IE_BITS_MAREQUEST k), (Z.testbit _ k).
Qed.

Lemma marked_view v : marked (the_cap v) = bit (ev_bits v) IE_BITS_MAREQUEST.
Proof. unfold marked. cbn. by apply bit_right. Qed.

Lemma clear_set_mark cap : marked cap = false -> clear_mark (set_mark cap) = cap.
Proof.
  unfold marked, bit. intros H%negb_false_iff%Z.eqb_eq. destruct cap as [b o rq]. unfold clear_mark, set_mark. cbn in *. f_equal.
  rewrite ldiff_lor_distr, Z.ldiff_diag, Z.lor_0_r. apply Z.bits_inj'. intros k Hk. rewrite Z.ldiff_spec.
  apply (f_equal (fun z => Z.testbit z k)) in H. rewrite Z.land_spec, Z.bits_0 in H.
  by destruct (Z.testbit b k), (Z.testbit IE_BITS_MAREQUEST k).
Qed.

Lemma marked_set cap : marked (set_mark cap) = true.
Proof.
  unfold marked, bit, set_mark. cbn. rewrite Z.land_lor_distr_l, Z.land_diag. apply negb_true_iff, Z.eqb_neq.
  intros E. by apply Z.lor_eq_0_iff in E as [_ ?].
Qed.

Lemma marked_clear cap : marked (clear_mark cap) = false.
Proof. unfold marked, bit, clear_mark. cbn. by rewrite land_ldiff_swap, Z.ldiff_diag, Z.land_0_r. Qed.

Lemma send_receive_set cap : bit (cap_right cap) MACH_PORT_TYPE_SEND_RECEIVE = true ->
  bit (cap_right (set_mark cap)) MACH_PORT_TYPE_SEND_RECEIVE = true.
Proof. unfold bit, set_mark. cbn. rewrite Z.land_lor_distr_l. change (Z.land IE_BITS_MAREQUEST MACH_PORT_TYPE_SEND_RECEIVE) with 0. by rewrite Z.lor_0_r. Qed.

(** ** Finding the right of a port, and the notify port *)

Lemma reverse_ok s w c port q : cs_repr s c -> rights_ok (cs_self s) w c -> port <> IO_NULL -> w_ports w !! port = Some q ->
  (ip_active q = true -> ip_receiver q = cs_self s -> is_u32 (ip_receiver_name q) /\ ip_receiver_name q <> MACH_PORT_NULL /\
     exists cap, c !! ip_receiver_name q = Some cap /\ cap_object cap = port /\ bit (cap_right cap) MACH_PORT_TYPE_RECEIVE = true) ->
  exists s' found, ipc_right_reverse (mk_rstate s w) port = Some (mk_rstate s' w, found) /\ cs_repr s' c /\ cs_self s' = cs_self s /\
    match found with
    | Some (n, r) => exists v, cs_holds s' n r v /\ ev_object v = port /\ bit (ev_bits v) MACH_PORT_TYPE_SEND_RECEIVE = true
    | None => ip_active q = true -> ip_receiver q <> cs_self s /\ no_send c port
    end.
Proof.
  intros Hr Hok Hp Hq Hrecv. unfold ipc_right_reverse. cbn. rewrite (repr_active s c Hr), Hq.
  destruct (ip_active q) eqn:Ha; cbn [negb]; [|by eexists _, None].
  unfold self. cbn [r_space]. destruct (Z.eqb_spec (ip_receiver q) (cs_self s)) as [Hs|Hs].
  - destruct (Hrecv eq_refl Hs) as (Hu & Hn & cap & Hcap & Hobj & Hbit). rewrite (proj2 (Z.eqb_neq _ _) Hn). cbn [negb].
    destruct (lookup_law s c (ip_receiver_name q) Hr Hu) as (s' & res & -> & Hr' & Hs' & Hres).
    destruct res as [ref|]; [|congruence]. destruct Hres as [v Hh]. destruct (holds_cap s' c _ ref v Hr' Hh) as (Hcv & Hb & ->).
    rewrite Hcap in Hcv. injection Hcv as ->. cbn in Hobj, Hbit. rewrite bit_right in Hbit by done. rewrite Hbit, Hobj, Z.eqb_refl.
    eexists _, (Some (_, ref)). split; [done|]. split_and!; [done|done|]. exists v. split_and!; [done|done|].
    unfold bit in *. apply negb_true_iff, Z.eqb_neq in Hbit. apply negb_true_iff, Z.eqb_neq. unfold MACH_PORT_TYPE_SEND_RECEIVE.
    rewrite Z.land_lor_distr_r. intros [_ ?]%Z.lor_eq_0_iff. done.
  - destruct (hash_lookup_law s c port Hr Hp) as (s' & res & -> & Hr' & Hs' & Hres). destruct res as [[n ref]|].
    + destruct Hres as (v & Hh & Hobj & Ht). rewrite (holds_entry s' n ref v Hh), Hobj, Ht, !Z.eqb_refl.
      eexists _, (Some (n, ref)). split; [done|]. split_and!; [done|done|]. exists v. split_and!; [done|done|].
      rewrite bit_ev_type by done. by rewrite Ht.
    + by eexists _, None.
Qed.

(** The receive right [notify] of the space. *)
Definition receive_right c (notify port : Z) : Prop :=
  exists cap, c !! notify = Some cap /\ cap_object cap = port /\ bit (cap_right cap) MACH_PORT_TYPE_RECEIVE = true.

Lemma receive_right_port s w c n v : rights_ok (cs_self s) w c -> c !! n = Some (the_cap v) ->
  bit (ev_bits v) MACH_PORT_TYPE_RECEIVE = true ->
  exists q, w_ports w !! ev_object v = Some q /\ ev_object v <> IP_NULL /\ receives (cs_self s) n q.
Proof.
  intros Hok Hc Hb. pose proof (proj1 (entry_ok_cap _ _ _ _) (ro_caps _ _ _ Hok n _ Hc)) as He. rewrite bit_ev_type in Hb by done.
  destruct He as [Ht|? Ht|q Ho Hq _ Hr]; [by rewrite Ht in Hb|by rewrite Ht in Hb|].
  exists q. split_and!; [done|done|]. destruct Hr as [Ht|Ht|Ht|Ht]; try done; by rewrite Ht in Hb.
Qed.

Lemma soright_ok s w c notify : cs_repr s c -> rights_ok (cs_self s) w c -> is_u32 notify -> notify <> MACH_PORT_NULL ->
  exists s' w' found, imar_soright_of (mk_rstate s w) notify = Some (mk_rstate s' w', found) /\ cs_repr s' c /\
    cs_self s' = cs_self s /\ (forall n r v, cs_holds s n r v -> cs_holds s' n r v) /\ w_log w' = w_log w /\
    match found with
    | Some so => so <> IP_NULL /\ receive_right c notify so
    | None => forall so, ~ receive_right c notify so
    end.
Proof.
  intros Hr Hok Hu Hn. unfold imar_soright_of. rewrite (proj2 (Z.eqb_neq _ _) Hn).
  unfold ipc_port_lookup_notify. cbn [r_space]. rewrite (repr_active s c Hr).
  destruct (lookup_law s c notify Hr Hu) as (s' & res & Hl & Hr' & Hs' & Hres). rewrite Hl.
  assert (forall n r v, cs_holds s n r v -> cs_holds s' n r v) as Hkeep by (intros n r v; by eapply lookup_keeps).
  destruct res as [ref|]; [|eexists s', w, None; split_and!; try done; intros so (cap & Hcap & _); congruence].
  destruct Hres as [v Hh]. destruct (holds_cap s' c _ ref v Hr' Hh) as (Hcv & Hb & Hent). cbn [with_space r_space r_world]. rewrite Hent.
  destruct (bit (ev_bits v) MACH_PORT_TYPE_RECEIVE) eqn:Hbit; cbn [negb].
  - destruct (receive_right_port s w c notify v Hok Hcv Hbit) as (q & Hq & Hne & Hact & Hname & Hrecv).
    rewrite (proj2 (Z.eqb_neq _ _) Hne). cbn [negb]. rewrite Hq, Hact, Hname, Z.eqb_refl. unfold self. cbn [with_space r_space]. rewrite Hs', Hrecv, Z.eqb_refl, (proj2 (Z.eqb_neq _ _) Hne).
    eexists s', _, (Some (ev_object v)). split_and!; try done. exists (the_cap v). cbn. split_and!; [done|done|]. by rewrite bit_right.
  - eexists s', w, None. split_and!; try done. intros so (cap & Hcap & _ & Hbit'). rewrite Hcv in Hcap. injection Hcap as <-.
    cbn in Hbit'. rewrite bit_right in Hbit' by done. congruence.
Qed.

(** ** Making a request *)

(** A request without a name. *)
Lemma requests_store_null s c t a so : requests_ok s c t -> imar_mem t !! a = None ->
  requests_ok s c (imar_store t a (mk_imar (cs_self s) MACH_PORT_NULL so)).
Proof.
  intros [Hr Hwf Hm Hl Hn] Ha. assert (~ linked t a) as Hna.
  { intros Hla. destruct (imar_linked t a Hwf Hla) as (x & _ & Hx & _). congruence. }
  destruct (imar_store_wf t a (mk_imar (cs_self s) MACH_PORT_NULL so) Hwf Hna) as [Hwf' Hlink].
  assert (forall n b, request_of (imar_store t a (mk_imar (cs_self s) MACH_PORT_NULL so)) (cs_self s) n b <-> request_of t (cs_self s) n b) as Hof.
  { intros n b. unfold request_of. rewrite Hlink. cbn. split; intros [Hb Hx]; (split; [done|]);
      (destruct (decide (b = a)) as [->|]; [done|]); by rewrite ?lookup_insert_ne in * by done. }
  constructor; [done|done| | |].
  - intros n cap Hc Hmk. destruct (Hm n cap Hc Hmk) as (? & b & Hb). split; [done|]. exists b. by apply Hof.
  - intros n b Hb%Hof. by eapply Hl.
  - intros b x. cbn. intros [[<- <-]|[_ Hx]]%lookup_insert_Some Hsp Hnm; [done|]. apply Hlink. by eapply Hn.
Qed.

(** The entry of [n] gets the bit, and the table its request. *)
Lemma requests_mark s s' c t n v a so : requests_ok s c t -> imar_mem t !! a = None -> cs_self s' = cs_self s ->
  c !! n = Some (the_cap v) -> n <> MACH_PORT_NULL -> marked (the_cap v) = false ->
  bit (ev_bits v) MACH_PORT_TYPE_SEND_RECEIVE = true -> cs_repr s' (<[n := set_mark (the_cap v)]> c) ->
  exists t', imar_insert (imar_store t a (mk_imar (cs_self s) n so)) a (cs_self s) n = Some t' /\
    imar_mem t' = <[a := mk_imar (cs_self s) n so]> (imar_mem t) /\ requests_ok s' (<[n := set_mark (the_cap v)]> c) t'.
Proof.
  intros [Hr Hwf Hm Hl Hn] Ha Hs Hc Hn0 Hmk Hty Hr'. assert (~ linked t a) as Hna.
  { intros Hla. destruct (imar_linked t a Hwf Hla) as (x & _ & Hx & _). congruence. }
  set (x := mk_imar (cs_self s) n so). destruct (imar_store_wf t a x Hwf Hna) as [Hwf1 Hlink1].
  assert (forall b, linked t b -> imar_mem (imar_store t a x) !! b = imar_mem t !! b) as Hkeep.
  { intros b Hb. cbn. rewrite lookup_insert_ne; [done|]. intros ->. done. }
  destruct (imar_insert_ok (imar_store t a x) a x Hwf1) as (t' & Hins & Hwf' & Hmem & Hlink).
  { by rewrite Hlink1. } { cbn. apply lookup_insert_eq. } { done. }
  { intros b xb Hb%Hlink1 Hxb [Hsp Hnm]. rewrite Hkeep in Hxb by done. cbn in Hsp, Hnm.
    destruct (Hl n b) as (cap & Hcap & Hmcap); [split; [done|by exists xb]|]. congruence. }
  exists t'. split; [done|]. split; [by rewrite Hmem|].
  assert (forall m b, request_of t' (cs_self s) m b <-> request_of t (cs_self s) m b \/ (m = n /\ b = a)) as Hof.
  { intros m b. unfold request_of. rewrite Hlink, Hlink1, Hmem. split.
    - intros [[Hb| ->] Hx]; [left; split; [done|]; by rewrite Hkeep in Hx|]. right. destruct Hx as (y & Hy & _ & <-). cbn in Hy.
      rewrite lookup_insert_eq in Hy. by injection Hy as <-.
    - intros [[Hb Hx]|[-> ->]]; [split; [by left|by rewrite Hkeep]|]. split; [by right|]. exists x. cbn. by rewrite lookup_insert_eq. }
  constructor; [done|done| | |]; rewrite ?Hs.
  - intros m cap [[<- <-]|[Hne Hcm]]%lookup_insert_Some Hmc.
    + split; [apply send_receive_set; cbn; by rewrite bit_right|]. exists a. apply Hof. by right.
    + destruct (Hm m cap Hcm Hmc) as (? & b & Hb). split; [done|]. exists b. apply Hof. by left.
  - intros m b [Hb|[-> ->]]%Hof; [|exists (set_mark (the_cap v)); split; [apply lookup_insert_eq|apply marked_set]].
    destruct (Hl m b Hb) as (cap & Hcm & Hmc). exists cap. split; [|done]. rewrite lookup_insert_ne; [done|]. congruence.
  - intros b y. rewrite Hmem. cbn. intros [[<- <-]|[Hne Hy]]%lookup_insert_Some Hsp Hnm; apply Hlink; [by right|left; apply Hlink1; by eapply Hn].
Qed.

(** What [ipc_marequest_create] does for a request with a notify port. *)
Definition create_post s c t port q notify a s' t' (res : mach_msg_return + Z) : Prop :=
  match res with
  | inl MACH_SEND_NOTIFY_IN_PROGRESS => t' = t /\ requests_ok s' c t /\
      exists n cap, c !! n = Some cap /\ cap_object cap = port /\ marked cap = true
  | inl MACH_SEND_INVALID_NOTIFY => t' = t /\ requests_ok s' c t /\ forall so, ~ receive_right c notify so
  | inl _ => False
  | inr a' => a' = a /\ exists n so, imar_mem t' = <[a := mk_imar (cs_self s) n so]> (imar_mem t) /\
      so <> IP_NULL /\ receive_right c notify so /\
      ((n = MACH_PORT_NULL /\ (ip_active q = true -> ip_receiver q <> cs_self s /\ no_send c port) /\ requests_ok s' c t') \/
       (n <> MACH_PORT_NULL /\ exists cap, c !! n = Some cap /\ cap_object cap = port /\ marked cap = false /\
          requests_ok s' (<[n := set_mark cap]> c) t'))
  end.

Lemma requests_self s s' c t : requests_ok s c t -> cs_repr s' c -> cs_self s' = cs_self s -> requests_ok s' c t.
Proof. intros [Hr Hwf Hm Hl Hn] Hr' Hs. constructor; rewrite ?Hs; done. Qed.

Lemma create_ok s w c t port q notify a : requests_ok s c t -> rights_ok (cs_self s) w c -> is_u32 notify -> notify <> MACH_PORT_NULL ->
  port <> IO_NULL -> w_ports w !! port = Some q -> imar_mem t !! a = None ->
  (ip_active q = true -> ip_receiver q = cs_self s -> is_u32 (ip_receiver_name q) /\ ip_receiver_name q <> MACH_PORT_NULL /\
     receive_right c (ip_receiver_name q) port) ->
  exists s' w' t' res, ipc_marequest_create (mk_mstate (mk_rstate s w) t) port notify (Some a) =
      Some (mk_mstate (mk_rstate s' w') t', res) /\ cs_self s' = cs_self s /\ create_post s c t port q notify a s' t' res.
Proof.
  intros Hrq Hok Hu Hn0 Hp Hq Ha Hrecv. pose proof (rq_repr _ _ _ Hrq) as Hr.
  unfold ipc_marequest_create. cbn [ms_rights ms_table r_space]. rewrite (repr_active s c Hr). cbn [negb].
  destruct (reverse_ok s w c port q Hr Hok Hp Hq Hrecv) as (s1 & found & -> & Hr1 & Hs1 & Hfound). cbn [r_space].
  pose proof (requests_self s s1 c t Hrq Hr1 Hs1) as Hrq1. rewrite <- Hs1 in Hok.
  destruct (soright_ok s1 w c notify Hr1 Hok Hu Hn0) as (s2 & w2 & so & Hso & Hr2 & Hs2 & Hkeep & Hlog & Hsores).
  pose proof (requests_self s1 s2 c t Hrq1 Hr2 Hs2) as Hrq2.
  destruct found as [[n ref]|].
  - destruct Hfound as (v & Hh & Hobj & Hty). destruct (holds_cap s1 c n ref v Hr1 Hh) as (Hcv & Hb & ->).
    rewrite Hobj, Z.eqb_refl, Hty. destruct (bit (ev_bits v) IE_BITS_MAREQUEST) eqn:Hmk.
    + eexists s1, w, t, (inl MACH_SEND_NOTIFY_IN_PROGRESS). split; [done|]. split; [done|]. split_and!; [done|done|].
      exists n, (the_cap v). split_and!; [done|done|by rewrite marked_view].
    + rewrite Hso. destruct so as [so|]; [|eexists s2, w2, t, (inl MACH_SEND_INVALID_NOTIFY); split; [done|]; split; [congruence|done]].
      pose proof (Hkeep n ref v Hh) as Hh2. destruct (mark_bits (ev_bits v) Hb) as (Hpl & Htb & _).
      destruct (rebit s2 w2 c n ref v _ Hr2 Hh2 Hpl Htb) as (s3 & -> & Hr3 & _ & Hs3). rewrite the_cap_mark in Hr3.
      assert (n <> MACH_PORT_NULL) as Hn by (by eapply (opened_rest _ _ _ _ _ _ (open_any s2 c n ref v Hr2 Hh2))).
      destruct (requests_mark s2 s3 c t n v a so Hrq2 Ha Hs3 Hcv Hn ltac:(by rewrite marked_view) Hty Hr3) as (t' & Hins & Hmem & Hrq3).
      unfold self. cbn [log with_world r_space]. rewrite Hs3, Hins. eexists s3, _, t', (inr a). split; [done|]. split; [congruence|].
      split; [done|]. exists n, so. split_and!; [congruence|apply Hsores|apply Hsores|]. right. split; [done|].
      exists (the_cap v). split_and!; [done|done|by rewrite marked_view|done].
  - rewrite Hso. destruct so as [so|]; [|eexists s2, w2, t, (inl MACH_SEND_INVALID_NOTIFY); split; [done|]; split; [congruence|done]].
    eexists s2, _, _, (inr a). split; [done|]. split; [congruence|]. split; [done|]. exists MACH_PORT_NULL, so. unfold self. cbn [log with_world r_space].
    split_and!; [by rewrite Hs2, Hs1|apply Hsores|apply Hsores|]. left. split_and!; [done|done|]. by apply requests_store_null.
Qed.

(** ** Taking a request out of the table *)

(** [c'] is [c] but for [n], which has no bit. *)
Definition unmarked_at n c c' : Prop :=
  (forall m, m <> n -> c' !! m = c !! m) /\ forall cap, c' !! n = Some cap -> marked cap = false.

Lemma request_unique s c t n a b : requests_ok s c t -> request_of t (cs_self s) n a -> request_of t (cs_self s) n b -> a = b.
Proof.
  intros Hrq (Ha & x & Hx & Hsx & Hnx) (Hb & y & Hy & Hsy & Hny). eapply (iw_keys _ (rq_wf _ _ _ Hrq) a b x y); try done. split; congruence.
Qed.

(** The table without the request of [n], whose name is then [None] or null. *)
Lemma requests_remove s s' c c' t t1 t2 n a x : requests_ok s c t -> request_of t (cs_self s) n a -> imar_mem t !! a = Some x ->
  imar_mem t1 = imar_mem t -> (forall b, linked t1 b <-> linked t b /\ b <> a) ->
  imar_wf t2 -> (forall b, linked t2 b <-> linked t1 b) -> (forall b, b <> a -> imar_mem t2 !! b = imar_mem t !! b) ->
  (forall y, imar_mem t2 !! a = Some y -> imar_name y = MACH_PORT_NULL) ->
  cs_repr s' c' -> cs_self s' = cs_self s -> unmarked_at n c c' -> requests_ok s' c' t2.
Proof.
  intros Hrq Hreq Hx Hm1 Hl1 Hwf2 Hl2 Hm2 Ha2 Hr' Hs [Hsame Hun].
  assert (forall m b, request_of t2 (cs_self s) m b <-> request_of t (cs_self s) m b /\ b <> a) as Hof.
  { intros m b. unfold request_of. rewrite Hl2, Hl1. split.
    - intros [[Hb Hne] Hy]. rewrite Hm2 in Hy by done. done.
    - intros [[Hb Hy] Hne]. rewrite Hm2 by done. done. }
  constructor; [done|done| | |]; rewrite ?Hs.
  - intros m cap Hc Hmk. destruct (decide (m = n)) as [->|Hne]; [by rewrite (Hun cap Hc) in Hmk|]. rewrite Hsame in Hc by done.
    destruct (rq_marked _ _ _ Hrq m cap Hc Hmk) as (? & b & Hb). split; [done|]. exists b. apply Hof. split; [done|].
    intros ->. destruct Hb as (_ & y & Hy & _ & <-), Hreq as (_ & z & Hz & _ & <-). congruence.
  - intros m b [Hb Hne]%Hof. assert (m <> n) as Hmn by (intros ->; apply Hne; by eapply request_unique).
    rewrite Hsame by done. by eapply (rq_linked _ _ _ Hrq).
  - intros b y Hy Hsp Hnm. destruct (decide (b = a)) as [->|Hne]; [by destruct Hnm; apply Ha2|]. rewrite Hm2 in Hy by done.
    apply Hl2, Hl1. split; [by eapply (rq_named _ _ _ Hrq)|done].
Qed.

Lemma requests_request s c t a x : requests_ok s c t -> imar_mem t !! a = Some x -> imar_space x = cs_self s ->
  imar_name x <> MACH_PORT_NULL -> request_of t (cs_self s) (imar_name x) a.
Proof. intros Hrq Hx Hs Hn. split; [by eapply (rq_named _ _ _ Hrq)|by exists x]. Qed.

(** [ipc_marequest_cancel], when the entry goes away or loses the bit. *)
Lemma cancel_ok s c t n cap : requests_ok s c t -> c !! n = Some cap -> marked cap = true ->
  exists t' a x, ipc_marequest_cancel t true (cs_self s) n = Some t' /\ imar_mem t !! a = Some x /\ imar_name x = n /\
    imar_space x = cs_self s /\ imar_mem t' = <[a := imar_set_name MACH_PORT_NULL x]> (imar_mem t) /\
    forall s' c', cs_repr s' c' -> cs_self s' = cs_self s -> unmarked_at n c c' -> requests_ok s' c' t'.
Proof.
  intros Hrq Hc Hm. destruct (rq_marked _ _ _ Hrq n cap Hc Hm) as (_ & a & Hreq). pose proof Hreq as (Hla & x & Hx & Hsx & Hnx).
  destruct (imar_remove_ok t a x (rq_wf _ _ _ Hrq) Hla Hx) as (t1 & Hrm & Hwf1 & Hm1 & Hl1). rewrite Hsx, Hnx in Hrm.
  unfold ipc_marequest_cancel. rewrite Hrm, Hm1, Hx. assert (~ linked t1 a) as Hna by (rewrite Hl1; tauto).
  destruct (imar_store_wf t1 a (imar_set_name MACH_PORT_NULL x) Hwf1 Hna) as [Hwf2 Hl2].
  eexists _, a, x. split; [done|]. split_and!; [done|done|done|cbn; by rewrite Hm1|]. intros s' c' Hr' Hs Hun.
  eapply requests_remove; [exact Hrq|exact Hreq|exact Hx|exact Hm1|exact Hl1|exact Hwf2|exact Hl2| | |done|done|done].
  - intros b Hb. cbn. by rewrite Hm1, lookup_insert_ne.
  - intros y. cbn. rewrite lookup_insert_eq. by intros [= <-].
Qed.

(** ** Destroying a request *)

Definition cleared n c : gmap Z capability := if n =? MACH_PORT_NULL then c else alter clear_mark n c.

Lemma unmarked_clear n c cap : c !! n = Some cap -> unmarked_at n c (<[n := clear_mark cap]> c).
Proof.
  intros Hc. split; [intros m Hm; by rewrite lookup_insert_ne|]. intros x. rewrite lookup_insert_eq. intros [= <-]. apply marked_clear.
Qed.

Lemma destroy_ok is_notify s w c t a x : requests_ok s c t -> imar_mem t !! a = Some x -> imar_space x = cs_self s ->
  is_u32 (imar_name x) -> imar_soright x <> IP_NULL ->
  exists s' t', ipc_marequest_destroy is_notify (mk_mstate (mk_rstate s w) t) a =
      Some (mk_mstate (mk_rstate s' (emit [Space_release (cs_self s); Notify_msg_accepted (imar_soright x) (imar_name x)] w)) t') /\
    imar_mem t' = delete a (imar_mem t) /\ cs_self s' = cs_self s /\ requests_ok s' (cleared (imar_name x) c) t'.
Proof.
  intros Hrq Hx Hsx Hu Hso. unfold ipc_marequest_destroy. cbn [ms_table ms_rights]. rewrite Hx. unfold self. cbn [r_space].
  rewrite Hsx, Z.eqb_refl. unfold cleared. destruct (Z.eqb_spec (imar_name x) MACH_PORT_NULL) as [E|Hn]; cbn [negb].
  - cbn [ms_rights r_space ms_table]. rewrite (proj2 (Z.eqb_neq _ _) Hso). eexists s, _. split; [unfold log; cbn; unfold emit; cbn; by rewrite <- app_assoc|].
    split_and!; [done|done|]. assert (~ linked t a) as Hna.
    { intros Hla. destruct (imar_linked t a (rq_wf _ _ _ Hrq) Hla) as (y & _ & Hy & Hny & _). congruence. }
    destruct (imar_free_wf t a (rq_wf _ _ _ Hrq) Hna) as [Hwf Hlink]. destruct Hrq as [Hr Hwf0 Hm Hl Hnm].
    assert (forall m b, request_of (imar_free t a) (cs_self s) m b <-> request_of t (cs_self s) m b) as Hof.
    { intros m b. unfold request_of. rewrite Hlink. cbn. split; intros [Hb Hy]; (split; [done|]);
        (destruct (decide (b = a)) as [->|]; [done|]); by rewrite ?lookup_delete_ne in * by done. }
    constructor; [done|done| | |].
    + intros m cap Hc Hmk. destruct (Hm m cap Hc Hmk) as (? & b & Hb). split; [done|]. exists b. by apply Hof.
    + intros m b Hb%Hof. by eapply Hl.
    + intros b y. cbn. intros [_ Hy]%lookup_delete_Some Hsp Hny. apply Hlink. by eapply Hnm.
  - pose proof (requests_request s c t a x Hrq Hx Hsx Hn) as Hreq. destruct (rq_linked _ _ _ Hrq _ _ Hreq) as (cap & Hc & Hmk).
    destruct (rq_marked _ _ _ Hrq _ cap Hc Hmk) as [Hty _]. pose proof (rq_repr _ _ _ Hrq) as Hr.
    destruct (imar_remove_ok t a x (rq_wf _ _ _ Hrq) (proj1 Hreq) Hx) as (t1 & Hrm & Hwf1 & Hm1 & Hl1). rewrite Hsx in Hrm.
    unfold imar_unmark. cbn [ms_table ms_rights r_space]. unfold self. cbn [r_space]. rewrite Hrm, Z.eqb_refl, (repr_active s c Hr).
    destruct (lookup_law s c (imar_name x) Hr Hu) as (s1 & res & -> & Hr1 & Hs1 & Hres). destruct res as [ref|]; [|congruence].
    destruct Hres as [v Hh]. destruct (holds_cap s1 c _ ref v Hr1 Hh) as (Hcv & Hb & ->). rewrite Hc in Hcv. injection Hcv as ->.
    rewrite marked_view in Hmk. cbn in Hty. rewrite bit_right in Hty by done. rewrite Hmk, Hty.
    destruct (unmark_bits (ev_bits v) Hb) as (Hpl & Htb & _).
    unfold with_space. cbn [r_world]. destruct (rebit s1 w c _ ref v _ Hr1 Hh Hpl Htb) as (s2 & -> & Hr2 & _ & Hs2).
    rewrite (proj2 (Z.eqb_neq _ _) Hso). cbn [ms_rights ms_table r_space]. rewrite the_cap_unmark in Hr2.
    eexists s2, _. split; [unfold log; cbn; unfold emit; cbn; by rewrite <- app_assoc, Hs2, Hs1|]. cbn. split_and!; [by rewrite Hm1|congruence|].
    assert (~ linked t1 a) as Hna by (rewrite Hl1; tauto). destruct (imar_free_wf t1 a Hwf1 Hna) as [Hwf2 Hl2].
    assert (alter clear_mark (imar_name x) c = <[imar_name x := clear_mark (the_cap v)]> c) as ->.
    { apply map_eq. intros i. destruct (decide (i = imar_name x)) as [->|Hne]; [by rewrite lookup_alter_eq, lookup_insert_eq, Hc|].
      by rewrite lookup_alter_ne, lookup_insert_ne. }
    eapply requests_remove; [exact Hrq|exact Hreq|exact Hx|exact Hm1|exact Hl1|exact Hwf2|exact Hl2| | |done|congruence|by apply unmarked_clear].
    + intros b Hb'. cbn. by rewrite Hm1, lookup_delete_ne.
    + intros y. cbn. by rewrite lookup_delete_eq.
Qed.
End Requests.

(** ** What senders are promised *)

Section Theorems.
Context `{PC : PortConfig} {S : Type} {CS : CapSpace S} {CL : CapSpaceLaws S}.
Implicit Types (s : S) (w : world) (c : gmap Z capability) (t : imar_table).

(** C34: a message-accepted request with a notify port is refused when the sender's
    right for the port already has one or when the notify name is no receive
    right; otherwise it is made, and when the message is received its destruction
    finds it, sends the notification with the name of the right (the null name
    when the space has no right for the port) to the notify port, and leaves the capabilities of the space and the requests as they were
    before.  No assertion fails. *)
Theorem marequest_roundtrip is_notify s w c t port q notify a :
  requests_ok s c t -> rights_ok (cs_self s) w c -> (forall n cap, c !! n = Some cap -> is_u32 n) ->
  is_u32 notify -> notify <> MACH_PORT_NULL -> port <> IO_NULL -> w_ports w !! port = Some q -> imar_mem t !! a = None ->
  (ip_active q = true -> ip_receiver q = cs_self s -> receive_right c (ip_receiver_name q) port /\ ip_receiver_name q <> MACH_PORT_NULL) ->
  exists s1 w1 t1 res, ipc_marequest_create (mk_mstate (mk_rstate s w) t) port notify (Some a) =
      Some (mk_mstate (mk_rstate s1 w1) t1, res) /\
    match res with
    | inl MACH_SEND_NOTIFY_IN_PROGRESS => exists n cap, c !! n = Some cap /\ cap_object cap = port /\ marked cap = true
    | inl MACH_SEND_INVALID_NOTIFY => forall so, ~ receive_right c notify so
    | inl _ => False
    | inr a' => a' = a /\ exists n so, receive_right c notify so /\
        (n = MACH_PORT_NULL /\ (ip_active q = true -> ip_receiver q <> cs_self s /\ no_send c port) \/ exists cap, c !! n = Some cap /\ cap_object cap = port /\ marked cap = false) /\
        forall w2, exists s3 t3,
          ipc_marequest_destroy is_notify (mk_mstate (mk_rstate s1 w2) t1) a =
            Some (mk_mstate (mk_rstate s3 (emit [Space_release (cs_self s); Notify_msg_accepted so n] w2)) t3) /\
          requests_ok s3 c t3 /\ imar_mem t3 = imar_mem t
    end.
Proof.
  intros Hrq Hok Hwords Hu Hn0 Hp Hq Ha Hrecv.
  destruct (create_ok s w c t port q notify a Hrq Hok Hu Hn0 Hp Hq Ha) as (s1 & w1 & t1 & res & Hc & Hs1 & Hpost).
  { intros Hact Hself. destruct (Hrecv Hact Hself) as [Hr Hn]. split_and!; [|done|done]. destruct Hr as (cap & Hcap & _). by eapply Hwords. }
  exists s1, w1, t1, res. split; [done|]. destruct res as [[]|a']; try done; [by destruct Hpost as (_ & _ & ?)..|].
  destruct Hpost as (-> & n & so & Hmem & Hso & Hrr & Hcase). split; [done|]. exists n, so. split; [done|].
  assert (imar_mem t1 !! a = Some (mk_imar (cs_self s) n so)) as Hx by (rewrite Hmem; apply lookup_insert_eq).
  assert (delete a (imar_mem t1) = imar_mem t) as Hback by (rewrite Hmem; by apply delete_insert_id).
  destruct Hcase as [(-> & Hnone & Hrq1)|(Hn & cap & Hcap & Hobj & Hmk & Hrq1)].
  - split; [by left|]. intros w2. destruct (destroy_ok is_notify s1 w2 c t1 a _ Hrq1 Hx) as (s3 & t3 & Hd & Hm3 & _ & Hrq3); [done|done|done|].
    exists s3, t3. rewrite Hd, Hs1. split_and!; [done|exact Hrq3|congruence].
  - split; [right; by exists cap|]. intros w2.
    destruct (destroy_ok is_notify s1 w2 _ t1 a _ Hrq1 Hx) as (s3 & t3 & Hd & Hm3 & _ & Hrq3); [done|by eapply Hwords|done|].
    exists s3, t3. rewrite Hd, Hs1. split_and!; [done| |congruence]. unfold cleared in Hrq3. cbn [imar_name] in Hrq3.
    rewrite (proj2 (Z.eqb_neq _ _) Hn) in Hrq3.
    replace c with (alter clear_mark n (<[n := set_mark cap]> c)); [done|]. apply map_eq. intros i. destruct (decide (i = n)) as [->|Hne].
    + by rewrite lookup_alter_eq, lookup_insert_eq, Hcap; cbn; rewrite clear_set_mark.
    + by rewrite lookup_alter_ne, lookup_insert_ne.
Qed.

(** when the right of a request goes away first, [ipc_marequest_cancel] finds
    the request of its name, and takes it out of the table; whatever the space
    then holds at that name, the requests still agree with the entries, and the
    notification that the request is destroyed with has the null name. *)
Lemma marequest_cancelled is_notify s c t n cap :
  requests_ok s c t -> c !! n = Some cap -> marked cap = true ->
  exists t1 a so, ipc_marequest_cancel t true (cs_self s) n = Some t1 /\
    forall s2 c2 w2, cs_repr s2 c2 -> cs_self s2 = cs_self s -> unmarked_at n c c2 ->
      requests_ok s2 c2 t1 /\
      (so <> IP_NULL -> exists s3 t3,
         ipc_marequest_destroy is_notify (mk_mstate (mk_rstate s2 w2) t1) a =
           Some (mk_mstate (mk_rstate s3 (emit [Space_release (cs_self s); Notify_msg_accepted so MACH_PORT_NULL] w2)) t3) /\
         requests_ok s3 c2 t3).
Proof.
  intros Hrq Hc Hm. destruct (cancel_ok s c t n cap Hrq Hc Hm) as (t1 & a & x & Hcn & Hx & _ & Hsx & Hmem & Hpost).
  exists t1, a, (imar_soright x). split; [done|]. intros s2 c2 w2 Hr2 Hs2 Hun. pose proof (Hpost s2 c2 Hr2 Hs2 Hun) as Hrq2.
  split; [done|]. intros Hso.
  assert (imar_mem t1 !! a = Some (imar_set_name MACH_PORT_NULL x)) as Hx1 by (rewrite Hmem; apply lookup_insert_eq).
  destruct (destroy_ok is_notify s2 w2 c2 t1 a _ Hrq2 Hx1) as (s3 & t3 & Hd & _ & _ & Hrq3); [cbn; congruence|done|done|].
  exists s3, t3. rewrite Hd, Hs2. done.
Qed.
End Theorems.

(** ** A space with a receive right *)

#[local] Existing Instance pc0.
#[local] Instance requests0_ops : CapSpace kstate := kstate_space its0.
#[local] Instance requests0_laws : CapSpaceLaws kstate := kstate_laws its0 its0_ok.

Definition recv_view : eview := mk_view MACH_PORT_TYPE_RECEIVE 0x1000 0.
Definition recv0 : kstate := default got0 (cs_store got0 (InTable 1) recv_view).
Definition recv_caps : gmap Z capability := {[ 0x100 := the_cap recv_view ]}.
Definition recv_port : ipc_port :=
  mk_port 1 true 0 0x100 ipc_mqueue_init 0x40 0 0 0 IP_NULL IP_NULL None IPS_NULL 0 0 MACH_PORT_QLIMIT_DEFAULT [].
Definition table0 : imar_table := default (mk_imar_table 0 0 [] ∅) (ipc_marequest_init 0 0).

Lemma recv0_repr : cs_repr recv0 recv_caps /\ cs_self recv0 = 0x40.
Proof.
  destruct (store_law got0 ∅ 0x100 (InTable 1) _ recv_view got0_open) as (s1 & H1 & Ho1 & Hs1); [by split|].
  assert (recv0 = s1) as ->. { unfold recv0. change (default got0 (cs_store got0 (InTable 1) recv_view) = default got0 (Some s1)). f_equal. exact H1. }
  destruct (close_law s1 ∅ 0x100 (InTable 1) recv_view Ho1) as [Hr _]; [done|done|]. split; [exact Hr|]. etrans; [exact Hs1|]. vm_compute. reflexivity.
Qed.

Lemma recv0_ok : rights_ok 0x40 (world_of recv_port) recv_caps.
Proof.
  apply (rights_ok_insert 0x40 (world_of recv_port) ∅ 0x100 recv_view); [|done| |done|].
  - constructor; [done|done| |].
    + intros p. unfold holds, refs. rewrite map_filter_empty, map_size_empty. cbn.
      destruct (decide (p = 0x1000)) as [->|]; [rewrite lookup_singleton_eq; cbn; lia|by rewrite lookup_singleton_ne].
    + intros p q' Hq. cbn in Hq. apply lookup_singleton_Some in Hq as [_ <-]. split_and!; [done..|]. by exists [].
  - apply (port_ok _ _ _ _ recv_port); [done|done| |by apply receive_ok]. split; [done|]. by intros _ [].
  - intros _. unfold holds, refs. rewrite map_filter_empty, map_size_empty. cbn. rewrite lookup_singleton_eq. cbn. lia.
Qed.

Lemma table0_wf : imar_wf table0 /\ (forall a, ~ linked table0 a) /\ imar_mem table0 = ∅.
Proof.
  assert (table0 = mk_imar_table 16 15 (replicate 16 []) ∅) as -> by (vm_compute; reflexivity).
  assert (forall h chain, aget (replicate 16 ([] : list Z)) h = Some chain -> chain = []) as Hnil.
  { intros h chain. unfold aget. case_decide; [|done]. by intros [-> _]%lookup_replicate. }
  assert (forall a, ~ linked (mk_imar_table 16 15 (replicate 16 []) ∅) a) as Hno.
  { intros a (h & chain & Hc & Ha). cbn in Hc. rewrite (Hnil h chain Hc) in Ha. by apply elem_of_nil in Ha. }
  split_and!; [|done|done]. constructor; cbn.
  - by exists 4.
  - intros h chain a Hc Ha. rewrite (Hnil h chain Hc) in Ha. by apply elem_of_nil in Ha.
  - intros h chain Hc. rewrite (Hnil h chain Hc). constructor.
  - intros a a' r r' Ha. by destruct (Hno a).
Qed.

Lemma recv0_names n cap : recv_caps !! n = Some cap -> n = 0x100 /\ cap = the_cap recv_view.
Proof. unfold recv_caps. by intros [<- <-]%lookup_singleton_Some. Qed.

Lemma recv0_requests : requests_ok recv0 recv_caps table0.
Proof.
  destruct table0_wf as (Hwf & Hno & Hmem). constructor; [apply recv0_repr|done| | |].
  - intros n cap Hc. apply recv0_names in Hc as [-> ->]. vm_compute. discriminate.
  - intros n a [Ha _]. by destruct (Hno a).
  - intros a x. by rewrite Hmem.
Qed.

Lemma recv0_receives n so : receive_right recv_caps n so -> n = 0x100 /\ so = 0x1000.
Proof. intros (cap & Hc & <- & _). by apply recv0_names in Hc as [-> ->]. Qed.

(** The right of the space itself is the notify port. *)
Lemma marequest_roundtrip_witness : exists s1 w1 t1,
  ipc_marequest_create (mk_mstate (mk_rstate recv0 (world_of recv_port)) table0) 0x1000 0x100 (Some 0x7000) =
    Some (mk_mstate (mk_rstate s1 w1) t1, inr 0x7000) /\ exists s3 t3,
  ipc_marequest_destroy IP_NULL (mk_mstate (mk_rstate s1 w1) t1) 0x7000 =
    Some (mk_mstate (mk_rstate s3 (emit [Space_release 0x40; Notify_msg_accepted 0x1000 0x100] w1)) t3) /\
  requests_ok s3 recv_caps t3.
Proof.
  destruct recv0_repr as [_ Hs]. destruct table0_wf as (_ & _ & Hmem).
  destruct (marequest_roundtrip IP_NULL recv0 (world_of recv_port) recv_caps table0 0x1000 recv_port 0x100 0x7000) as (s1 & w1 & t1 & res & Hc & Hpost).
  - apply recv0_requests.
  - rewrite Hs. apply recv0_ok.
  - by intros n cap [-> _]%recv0_names.
  - done.
  - done.
  - done.
  - done.
  - by rewrite Hmem.
  - intros _ _. split; [|done]. exists (the_cap recv_view). split_and!; reflexivity.
  - assert (exists a', res = inr a') as [a' ->].
    { assert (res = (default (mk_mstate (mk_rstate recv0 (world_of recv_port)) table0, inl MACH_MSG_SUCCESS)
        (ipc_marequest_create (mk_mstate (mk_rstate recv0 (world_of recv_port)) table0) 0x1000 0x100 (Some 0x7000))).2) as -> by by rewrite Hc.
      eexists. vm_compute. reflexivity. }
    destruct Hpost as (-> & n & so & Hrr & Hn & Hd). exists s1, w1, t1. split; [done|]. destruct (Hd w1) as (s3 & t3 & Heq & Hrq & _).
    destruct (recv0_receives _ _ Hrr) as [_ ->]. rewrite Hs in Heq.
    assert (n = 0x100) as ->; [|by exists s3, t3].
    destruct Hn as [[_ Hn]|(cap & Hcap & _)]; [|by apply recv0_names in Hcap as [-> _]].
    destruct (proj1 (Hn eq_refl)). by rewrite Hs.
Defined.

(** The space after the request was made. *)
Lemma recv0_marked : exists s1 cap t1, requests_ok s1 (<[0x100 := set_mark cap]> recv_caps) t1 /\ cs_self s1 = 0x40.
Proof.
  destruct recv0_repr as [_ Hs]. destruct table0_wf as (_ & _ & Hmem). pose proof recv0_ok as Hok. rewrite <- Hs in Hok.
  destruct (create_ok recv0 (world_of recv_port) recv_caps table0 0x1000 recv_port 0x100 0x7000 recv0_requests Hok)
    as (s1 & w1 & t1 & res & Hc & Hs1 & Hpost); [done|done|done|done|by rewrite Hmem| |].
  { intros _ _. split; [done|]. split; [done|]. exists (the_cap recv_view). split_and!; reflexivity. }
  assert (exists a', res = inr a') as [a' ->].
  { assert (res = (default (mk_mstate (mk_rstate recv0 (world_of recv_port)) table0, inl MACH_MSG_SUCCESS)
      (ipc_marequest_create (mk_mstate (mk_rstate recv0 (world_of recv_port)) table0) 0x1000 0x100 (Some 0x7000))).2) as -> by by rewrite Hc.
    eexists. vm_compute. reflexivity. }
  destruct Hpost as (_ & n & so & _ & _ & _ & [(_ & Hnone & _)|(_ & cap & Hcap & _ & _ & Hrq)]).
  - destruct (proj1 (Hnone eq_refl)). by rewrite Hs.
  - apply recv0_names in Hcap as [-> ->]. exists s1, (the_cap recv_view), t1. split; [done|congruence].
Qed.

Lemma marequest_cancelled_witness : exists (s1 : kstate) t0 t1, ipc_marequest_cancel t0 true (cs_self s1) 0x100 = Some t1.
Proof.
  destruct recv0_marked as (s1 & cap & t1 & Hrq & Hs).
  destruct (marequest_cancelled IP_NULL s1 _ t1 0x100 (set_mark cap) Hrq (lookup_insert_eq _ _ _) (marked_set cap)) as (t2 & a & so & Hc & _).
  exists s1, t1, t2. exact Hc.
Defined.
