(* ===== verification/IpcKmsg.v ===== *)
(** * Message headers (ipc/ipc_kmsg.c): copying in

    [ipc_kmsg_copyin_header] turns the names in the header of a message that is
    sent into ports.  It has three fast paths for common combinations of rights,
    which work on the table of the space directly, and a general path through the
    rights code.  What other threads do to ports while the general path works is
    an argument of it: the space is locked, the ports are not. *)

From S2P Require Import Prelude PortName IpcTable IpcTypes IpcEntry IpcMqueue IpcPort.
From S2P Require Import IpcWorld IpcPortOps IpcSpaceInv IpcCap IpcCapSpace IpcRight IpcRightCopy.
From S2P Require Import IpcObject IpcSend.

(** ** Headers *)

(** The fields of [mach_msg_header_t] that name ports. *)
Record mach_msg_header := mk_header { hdr_bits : Z; hdr_remote_port : Z; hdr_local_port : Z }.

Definition MACH_MSGH_BITS_REMOTE_MASK : Z := 0x000000ff.
Definition MACH_MSGH_BITS_LOCAL_MASK : Z := 0x0000ff00.
Definition MACH_MSGH_BITS_PORTS_MASK : Z := Z.lor MACH_MSGH_BITS_REMOTE_MASK MACH_MSGH_BITS_LOCAL_MASK.
Definition MACH_MSGH_BITS (remote local : Z) : Z := Z.lor remote (Z.shiftl local 8).
Definition MACH_MSGH_BITS_LOCAL (bits : Z) : Z := Z.shiftr (Z.land bits MACH_MSGH_BITS_LOCAL_MASK) 8.
Definition MACH_MSGH_BITS_PORTS (bits : Z) : Z := Z.land bits MACH_MSGH_BITS_PORTS_MASK.
Definition MACH_MSGH_BITS_OTHER (bits : Z) : Z := Z.ldiff bits MACH_MSGH_BITS_PORTS_MASK.

(** The numbers of the types. *)
Definition type_number (t : mach_msg_type_name) : Z :=
  match t with
  | MACH_MSG_TYPE_MOVE_RECEIVE => 16
  | MACH_MSG_TYPE_MOVE_SEND => 17
  | MACH_MSG_TYPE_MOVE_SEND_ONCE => 18
  | MACH_MSG_TYPE_COPY_SEND => 19
  | MACH_MSG_TYPE_MAKE_SEND => 20
  | MACH_MSG_TYPE_MAKE_SEND_ONCE => 21
  end.

(** The type of a number for which MACH_MSG_TYPE_PORT_ANY_SEND holds. *)
Definition any_send (x : Z) : option mach_msg_type_name :=
  if x =? 17 then Some MACH_MSG_TYPE_MOVE_SEND
  else if x =? 18 then Some MACH_MSG_TYPE_MOVE_SEND_ONCE
  else if x =? 19 then Some MACH_MSG_TYPE_COPY_SEND
  else if x =? 20 then Some MACH_MSG_TYPE_MAKE_SEND
  else if x =? 21 then Some MACH_MSG_TYPE_MAKE_SEND_ONCE
  else None.

(** ** The general path *)

Section General.
Context {S : Type} {CS : CapSpace S}.

(** What others do to ports: after the check of the reply right, after the
    copyin of the destination, and after the copyin of the reply port. *)
Record header_env := mk_header_env {
  he_check : world -> world;
  he_dest : world -> world;
  he_reply : world -> world
}.

Definition others (f : world -> world) (st : rstate S) : rstate S := with_world (f (r_world st)) st.

(** The destination and reply ports, and their send-once rights for
    port-deleted notifications. *)
Definition copied_header : Type := Z * Z * Z * Z.

(** [if (IE_BITS_TYPE(entry->ie_bits) == MACH_PORT_TYPE_NONE)
      ipc_entry_dealloc(space, name, entry)] *)
Definition dealloc_defunct (name : Z) (ref : entry_ref) (st : rstate S) : option (rstate S) :=
  LET v <- cs_entry (r_space st) ref ;;
  if IE_BITS_TYPE (ev_bits v) =? MACH_PORT_TYPE_NONE then entry_dealloc name ref st else Some st.

(** [assert(entry->ie_bits & mask)] *)
Definition has_bit (ref : entry_ref) (mask : Z) (st : rstate S) : bool :=
  match cs_entry (r_space st) ref with Some v => bit (ev_bits v) mask | None => false end.

Definition is_make (t : mach_msg_type_name) : bool :=
  match t with MACH_MSG_TYPE_MAKE_SEND | MACH_MSG_TYPE_MAKE_SEND_ONCE => true | _ => false end.

(** Destination and reply port have the same name. *)
Definition header_same (env : header_env) (st : rstate S) (name : Z) (dest_type : mach_msg_type_name)
    (reply_type : option mach_msg_type_name) : option (rstate S * (mach_msg_return + copied_header)) :=
  LET (s, found) <- cs_lookup (r_space st) name ;;
  let st1 := with_space s st in
  match found with
  | None => Some (st1, inl MACH_SEND_INVALID_DEST)
  | Some ref =>
      LET reply_type <- reply_type ;;
      LET ok <- ipc_right_copyin_check st1 ref reply_type ;;
      if negb ok then Some (st1, inl MACH_SEND_INVALID_REPLY)
      else if bool_decide (dest_type = MACH_MSG_TYPE_MOVE_SEND_ONCE \/ reply_type = MACH_MSG_TYPE_MOVE_SEND_ONCE) then
        Some (st1, inl MACH_SEND_INVALID_DEST)
      else
        let st2 := others (he_check env) st1 in
        if is_make dest_type || is_make reply_type then
          LET (st3, res) <- ipc_right_copyin st2 name ref dest_type false ;;
          match res with
          | inl _ => Some (st3, inl MACH_SEND_INVALID_DEST)
          | inr (dest_port, dest_soright) =>
              ASSERT IP_VALID dest_port ;;
              ASSERT has_bit ref MACH_PORT_TYPE_RECEIVE st3 ;;
              ASSERT dest_soright =? IP_NULL ;;
              LET (st4, res) <- ipc_right_copyin st3 name ref reply_type true ;;
              match res with
              | inl _ => None
              | inr (reply_port, reply_soright) =>
                  ASSERT reply_port =? dest_port ;;
                  ASSERT has_bit ref MACH_PORT_TYPE_RECEIVE st4 ;;
                  ASSERT reply_soright =? IP_NULL ;;
                  Some (st4, inr (dest_port, reply_port, dest_soright, reply_soright))
              end
          end
        else if bool_decide (dest_type = MACH_MSG_TYPE_COPY_SEND /\ reply_type = MACH_MSG_TYPE_COPY_SEND) then
          (* just do one copy-send, and dup the send right we get out *)
          LET (st3, res) <- ipc_right_copyin st2 name ref dest_type false ;;
          match res with
          | inl _ => Some (st3, inl MACH_SEND_INVALID_DEST)
          | inr (dest_port, dest_soright) =>
              ASSERT has_bit ref MACH_PORT_TYPE_SEND st3 ;;
              ASSERT dest_soright =? IP_NULL ;;
              LET (w, reply_port) <- ipc_port_copy_send dest_port (he_dest env (r_world st3)) ;;
              Some (with_world w st3, inr (dest_port, reply_port, dest_soright, IP_NULL))
          end
        else if bool_decide (dest_type = MACH_MSG_TYPE_MOVE_SEND /\ reply_type = MACH_MSG_TYPE_MOVE_SEND) then
          (* two send rights for the price of one *)
          LET (st3, res) <- ipc_right_copyin_two st2 name ref ;;
          match res with
          | inl _ => Some (st3, inl MACH_SEND_INVALID_DEST)
          | inr (dest_port, dest_soright) =>
              LET st4 <- dealloc_defunct name ref st3 ;;
              Some (st4, inr (dest_port, dest_port, dest_soright, IP_NULL))
          end
        else
          (* just do a move-send, and dup the send right we get out *)
          LET (st3, res) <- ipc_right_copyin st2 name ref MACH_MSG_TYPE_MOVE_SEND false ;;
          match res with
          | inl _ => Some (st3, inl MACH_SEND_INVALID_DEST)
          | inr (dest_port, soright) =>
              LET st4 <- dealloc_defunct name ref st3 ;;
              LET (w, reply_port) <- ipc_port_copy_send dest_port (he_dest env (r_world st4)) ;;
              Some (with_world w st4,
                inr (if bool_decide (dest_type = MACH_MSG_TYPE_MOVE_SEND) then (dest_port, reply_port, soright, IP_NULL)
                     else (dest_port, reply_port, IP_NULL, soright)))
          end
  end.

(** No reply port. *)
Definition header_no_reply (st : rstate S) (dest_name reply_name : Z) (dest_type : mach_msg_type_name)
    : option (rstate S * (mach_msg_return + copied_header)) :=
  LET (s, found) <- cs_lookup (r_space st) dest_name ;;
  let st1 := with_space s st in
  match found with
  | None => Some (st1, inl MACH_SEND_INVALID_DEST)
  | Some ref =>
      LET (st2, res) <- ipc_right_copyin st1 dest_name ref dest_type false ;;
      match res with
      | inl _ => Some (st2, inl MACH_SEND_INVALID_DEST)
      | inr (dest_port, dest_soright) =>
          LET st3 <- dealloc_defunct dest_name ref st2 ;;
          Some (st3, inr (dest_port, reply_name, dest_soright, IP_NULL))
      end
  end.

(** Whether the destination died before the reply port, which was dead at its
    copyin. *)
Definition died_first (dest saved_reply : Z) (w : world) : option bool :=
  LET r <- w_ports w !! saved_reply ;;
  ASSERT negb (ip_active r) ;;
  LET d <- w_ports w !! dest ;;
  Some (negb (ip_active d) && IP_TIMESTAMP_ORDER (ip_timestamp d) (ip_timestamp r)).

Definition release_saved (saved_reply : Z) (st : rstate S) : option (rstate S) :=
  if negb (saved_reply =? IP_NULL) then on_world (ipc_port_release saved_reply) st else Some st.

(** After both copyins. *)
Definition header_both_end (st : rstate S) (dest_name reply_name : Z) (dest_ref reply_ref : entry_ref)
    (dest_type reply_type : mach_msg_type_name) (saved_reply : Z) (ports : copied_header)
    : option (rstate S * (mach_msg_return + copied_header)) :=
  let '(dest_port, reply_port, dest_soright, reply_soright) := ports in
  LET must_undo <- (if negb (saved_reply =? IP_NULL) && (reply_port =? IO_DEAD)
                    then died_first dest_port saved_reply (r_world st) else Some false) ;;
  if must_undo : bool then
    (* our worst nightmares are realized *)
    LET st1 <- ipc_right_copyin_undo st dest_name dest_ref dest_type dest_port dest_soright ;;
    LET st2 <- ipc_right_copyin_undo st1 reply_name reply_ref reply_type reply_port reply_soright ;;
    let st3 := if negb (dest_soright =? IP_NULL) then log [Notify_dead_name dest_soright dest_name] st2 else st2 in
    ASSERT reply_soright =? IP_NULL ;;
    LET st4 <- on_world (ipc_port_release saved_reply) st3 ;;
    Some (st4, inl MACH_SEND_INVALID_DEST)
  else
    (* the entries might need to be deallocated *)
    LET st1 <- dealloc_defunct reply_name reply_ref st ;;
    LET st2 <- dealloc_defunct dest_name dest_ref st1 ;;
    LET st3 <- release_saved saved_reply st2 ;;
    Some (st3, inr ports).

(** Two different names. *)
Definition header_both (env : header_env) (st : rstate S) (dest_name reply_name : Z) (dest_type : mach_msg_type_name)
    (reply_type : option mach_msg_type_name) : option (rstate S * (mach_msg_return + copied_header)) :=
  LET (s, found) <- cs_lookup (r_space st) dest_name ;;
  let st1 := with_space s st in
  match found with
  | None => Some (st1, inl MACH_SEND_INVALID_DEST)
  | Some dest_ref =>
      LET (s, found) <- cs_lookup (r_space st1) reply_name ;;
      let st2 := with_space s st1 in
      match found with
      | None => Some (st2, inl MACH_SEND_INVALID_REPLY)
      | Some reply_ref =>
          LET reply_type <- reply_type ;;
          LET ok <- ipc_right_copyin_check st2 reply_ref reply_type ;;
          if negb ok then Some (st2, inl MACH_SEND_INVALID_REPLY)
          else
            LET (st3, res) <- ipc_right_copyin (others (he_check env) st2) dest_name dest_ref dest_type false ;;
            match res with
            | inl _ => Some (st3, inl MACH_SEND_INVALID_DEST)
            | inr (dest_port, dest_soright) =>
                ASSERT IP_VALID dest_port ;;
                LET v <- cs_entry (r_space st3) reply_ref ;;
                let saved_reply := ev_object v in
                LET st4 <- (if negb (saved_reply =? IP_NULL) then on_world (port_upd saved_reply ip_reference) st3 else Some st3) ;;
                LET (st5, res) <- ipc_right_copyin (others (he_dest env) st4) reply_name reply_ref reply_type true ;;
                match res with
                | inl kr =>
                    (* a compat entry, and the port died after the check: pretend we got IO_DEAD *)
                    ASSERT bool_decide (kr = KERN_INVALID_NAME) ;;
                    LET st6 <- dealloc_defunct dest_name dest_ref st5 ;;
                    LET st7 <- release_saved saved_reply st6 ;;
                    Some (st7, inr (dest_port, IO_DEAD, dest_soright, IP_NULL))
                | inr (reply_port, reply_soright) =>
                    header_both_end (others (he_reply env) st5) dest_name reply_name dest_ref reply_ref dest_type reply_type
                      saved_reply (dest_port, reply_port, dest_soright, reply_soright)
                end
            end
      end
  end.

(** The port of the receive right [notify], which must be one. *)
Definition header_notify (st : rstate S) (notify : Z) : option (rstate S * (mach_msg_return + Z)) :=
  if notify =? MACH_PORT_NULL then Some (st, inr IP_NULL)
  else
    LET (s, found) <- cs_lookup (r_space st) notify ;;
    let st1 := with_space s st in
    match found with
    | None => Some (st1, inl MACH_SEND_INVALID_NOTIFY)
    | Some ref =>
        LET v <- cs_entry s ref ;;
        Some (st1, if bit (ev_bits v) MACH_PORT_TYPE_RECEIVE then inr (ev_object v) else inl MACH_SEND_INVALID_NOTIFY)
    end.

(** The MACH_SEND_CANCEL check, the notifications and the new header. *)
Definition header_end (st : rstate S) (mbits dest_name reply_name notify notify_port : Z)
    (dest_type : mach_msg_type_name) (reply_type : option mach_msg_type_name) (ports : copied_header)
    : option (rstate S * (mach_msg_return + mach_msg_header)) :=
  let '(dest_port, reply_port, dest_soright, reply_soright) := ports in
  LET (st1, dest_soright) <-
    (if negb (notify =? MACH_PORT_NULL) && (dest_soright =? notify_port) then
       LET st' <- on_world (ipc_port_release_sonce dest_soright) st ;; Some (st', IP_NULL)
     else Some (st, dest_soright)) ;;
  let st2 := notify_port_deleted reply_soright reply_name (notify_port_deleted dest_soright dest_name st1) in
  let bits := Z.lor (MACH_MSGH_BITS_OTHER mbits)
    (MACH_MSGH_BITS (type_number (ipc_object_copyin_type dest_type))
       match reply_type with Some t => type_number (ipc_object_copyin_type t) | None => 0 end) in
  Some (st2, inr (mk_header bits dest_port reply_port)).

Definition copyin_header_general (env : header_env) (st : rstate S) (msg : mach_msg_header) (notify : Z)
    : option (rstate S * (mach_msg_return + mach_msg_header)) :=
  let mbits := Z.ldiff (hdr_bits msg) MACH_MSGH_BITS_CIRCULAR in
  let dest_name := hdr_remote_port msg in
  let reply_name := hdr_local_port msg in
  let reply_number := MACH_MSGH_BITS_LOCAL mbits in
  match any_send (MACH_MSGH_BITS_REMOTE mbits) with
  | None => Some (st, inl MACH_SEND_INVALID_HEADER)
  | Some dest_type =>
      let reply_type := any_send reply_number in
      if (if reply_number =? 0 then negb (reply_name =? MACH_PORT_NULL) else negb (bool_decide (is_Some reply_type))) then
        Some (st, inl MACH_SEND_INVALID_HEADER)
      else if negb (cs_active (r_space st)) then Some (st, inl MACH_SEND_INVALID_DEST)
      else
        LET (st1, res) <- header_notify st notify ;;
        match res with
        | inl mr => Some (st1, inl mr)
        | inr notify_port =>
            LET (st2, res) <-
              (if dest_name =? reply_name then header_same env st1 dest_name dest_type reply_type
               else if negb (MACH_PORT_VALID reply_name) then header_no_reply st1 dest_name reply_name dest_type
               else header_both env st1 dest_name reply_name dest_type reply_type) ;;
            match res with
            | inl mr => Some (st2, inl mr)
            | inr ports => header_end st2 mbits dest_name reply_name notify notify_port dest_type reply_type ports
            end
        end
  end.
End General.

(** ** The fast paths *)

Section Fast.
Context `{PC : PortConfig}.
(** [ipc_table_entries]. *)
Variable its : list Z.
#[local] Instance kmsg_space : CapSpace kstate := kstate_space its.

(** The optimized lookup: the table entry of a name whose bits in [mask] are
    those of the name with [type], or [Some None] to abort. *)
Definition fast_lookup (sp : ipc_space) (name mask type : Z) : option (option (Z * ipc_entry)) :=
  let index := MACH_PORT_INDEX name in
  let gen := MACH_PORT_GEN name in
  if is_table_size sp <=? index then Some None
  else
    LET entry <- aget (is_table sp) index ;;
    if Z.land (ie_bits entry) (Z.lor (Z.lor IE_BITS_GEN_MASK mask) type) =? Z.lor gen type then Some (Some (index, entry))
    else Some None.

(** A fast path ends with the new state and header, or aborts with [Some None]. *)
Definition fast_result : Type := option (option (rstate kstate * mach_msg_header)).

(** Sending an asynchronous message. *)
Definition fast_async (st : rstate kstate) (mbits dest_name reply_name : Z) : fast_result :=
  let sp := k_space (r_space st) in
  if negb (reply_name =? MACH_PORT_NULL) || negb (is_active sp) then Some None
  else
    LET found <- fast_lookup sp dest_name 0 MACH_PORT_TYPE_SEND ;;
    match found with
    | None => Some None
    | Some (_, entry) =>
        ASSERT 0 <? IE_BITS_UREFS (ie_bits entry) ;;
        let dest_port := ie_object entry in
        ASSERT negb (dest_port =? IP_NULL) ;;
        LET q <- w_ports (r_world st) !! dest_port ;;
        if negb (ip_active q) then Some None
        else
          ASSERT 0 <? ip_srights q ;;
          let q1 := ip_reference (incr_srights q) in
          Some (Some (with_world (put_port dest_port q1 (r_world st)) st,
            mk_header (Z.lor (MACH_MSGH_BITS_OTHER mbits) (MACH_MSGH_BITS (type_number MACH_MSG_TYPE_PORT_SEND) 0))
              dest_port reply_name))
    end.

(** Sending a request message; [lock_try] is what [ip_lock_try] returns. *)
Definition fast_request (lock_try : bool) (st : rstate kstate) (mbits dest_name reply_name : Z) : fast_result :=
  let sp := k_space (r_space st) in
  if negb (is_active sp) then Some None
  else
    LET found <- fast_lookup sp dest_name 0 MACH_PORT_TYPE_SEND ;;
    match found with
    | None => Some None
    | Some (_, entry) =>
        ASSERT 0 <? IE_BITS_UREFS (ie_bits entry) ;;
        let dest_port := ie_object entry in
        ASSERT negb (dest_port =? IP_NULL) ;;
        LET found <- fast_lookup sp reply_name 0 MACH_PORT_TYPE_RECEIVE ;;
        match found with
        | None => Some None
        | Some (_, entry) =>
            let reply_port := ie_object entry in
            ASSERT negb (reply_port =? IP_NULL) ;;
            LET q <- w_ports (r_world st) !! dest_port ;;
            if negb (ip_active q) || negb lock_try then Some None
            else
              ASSERT 0 <? ip_srights q ;;
              let w1 := put_port dest_port (ip_reference (incr_srights q)) (r_world st) in
              LET r <- w_ports w1 !! reply_port ;;
              ASSERT ip_active r ;;
              ASSERT ip_receiver_name r =? reply_name ;;
              ASSERT ip_receiver r =? self st ;;
              let w2 := put_port reply_port (ip_reference (ip_set_sorights (u32 (ip_sorights r + 1)) r)) w1 in
              Some (Some (with_world w2 st,
                mk_header (Z.lor (MACH_MSGH_BITS_OTHER mbits)
                    (MACH_MSGH_BITS (type_number MACH_MSG_TYPE_PORT_SEND) (type_number MACH_MSG_TYPE_PORT_SEND_ONCE)))
                  dest_port reply_port))
        end
    end.

(** Sending a reply message; the entry goes back on the free list. *)
Definition fast_reply (st : rstate kstate) (mbits dest_name reply_name : Z) : fast_result :=
  let sp := k_space (r_space st) in
  if negb (reply_name =? MACH_PORT_NULL) || negb (is_active sp) then Some None
  else
    LET found <- fast_lookup sp dest_name IE_BITS_COLLISION MACH_PORT_TYPE_SEND_ONCE ;;
    match found with
    | None => Some None
    | Some (index, entry) =>
        let bits := ie_bits entry in
        ASSERT IE_BITS_TYPE bits =? MACH_PORT_TYPE_SEND_ONCE ;;
        ASSERT IE_BITS_UREFS bits =? 1 ;;
        ASSERT negb (bit bits IE_BITS_MAREQUEST) ;;
        if negb (ie_request entry =? 0) then Some None
        else
          let dest_port := ie_object entry in
          ASSERT negb (dest_port =? IP_NULL) ;;
          LET q <- w_ports (r_world st) !! dest_port ;;
          if negb (ip_active q) then Some None
          else
            ASSERT 0 <? ip_sorights q ;;
            (* optimized ipc_entry_dealloc *)
            LET head <- aget (is_table sp) 0 ;;
            LET t1 <- table_upd (is_table sp) index (set_next (ie_next head)) ;;
            LET t2 <- table_upd t1 0 (set_next index) ;;
            LET t3 <- table_upd t2 index (fun e => set_object IO_NULL (set_bits (MACH_PORT_GEN dest_name) e)) ;;
            Some (Some (with_space (mk_kstate (sp_set_table t3 sp) (k_ghash (r_space st))) st,
              mk_header (Z.lor (MACH_MSGH_BITS_OTHER mbits) (MACH_MSGH_BITS (type_number MACH_MSG_TYPE_PORT_SEND_ONCE) 0))
                dest_port reply_name))
    end.

(** [between] is what others do when a fast path was tried in vain and the locks
    are released. *)
Definition ipc_kmsg_copyin_header (env : header_env) (lock_try : bool) (between : rstate kstate -> rstate kstate)
    (st : rstate kstate) (msg : mach_msg_header) (notify : Z) : option (rstate kstate * (mach_msg_return + mach_msg_header)) :=
  let mbits := Z.ldiff (hdr_bits msg) MACH_MSGH_BITS_CIRCULAR in
  let dest_name := hdr_remote_port msg in
  let reply_name := hdr_local_port msg in
  let ports := MACH_MSGH_BITS_PORTS mbits in
  LET fast <-
    (if negb (notify =? MACH_PORT_NULL) then Some None
     else if ports =? MACH_MSGH_BITS (type_number MACH_MSG_TYPE_COPY_SEND) 0 then fast_async st mbits dest_name reply_name
     else if ports =? MACH_MSGH_BITS (type_number MACH_MSG_TYPE_COPY_SEND) (type_number MACH_MSG_TYPE_MAKE_SEND_ONCE)
     then fast_request lock_try st mbits dest_name reply_name
     else if ports =? MACH_MSGH_BITS (type_number MACH_MSG_TYPE_MOVE_SEND_ONCE) 0 then fast_reply st mbits dest_name reply_name
     else Some None) ;;
  match fast with
  | Some (st1, msg1) => Some (st1, inr msg1)
  | None => copyin_header_general env (between st) msg notify
  end.
End Fast.
