(* ===== verification/IpcKmsgSpec.v ===== *)
(** * The fast paths of [ipc_kmsg_copyin_header] are the general path *)
From S2P Require Import Prelude PortName IpcTable IpcTypes IpcEntry IpcMqueue IpcPort.
From S2P Require Import IpcWorld IpcPortOps IpcSpaceInv IpcEntrySpec IpcCap IpcCapSpace IpcRight.
From S2P Require Import IpcRightCopy IpcRightBits IpcRightInv IpcRightSteps IpcDealloc IpcObject IpcSend.
From S2P Require Import IpcKmsg IpcCopyin.

(** ** Bits *)

Lemma land_split b g m t gen : Z.land g m = 0 -> Z.land g t = 0 -> Z.land m t = 0 -> Z.land gen g = gen ->
  Z.land b (Z.lor (Z.lor g m) t) = Z.lor gen t -> Z.land b g = gen /\ Z.land b m = 0 /\ Z.land b t = t.
Proof.
  intros H1 H2 H3 H4 H. assert (forall k, 0 <= k ->
    Z.testbit b k && Z.testbit g k = Z.testbit gen k /\ Z.testbit b k && Z.testbit m k = false /\
    Z.testbit b k && Z.testbit t k = Z.testbit t k) as Hk.
  { intros k Hk. apply (f_equal (fun z => Z.testbit z k)) in H, H1, H2, H3, H4.
    rewrite ?Z.land_spec, ?Z.lor_spec, ?Z.bits_0 in *.
    destruct (Z.testbit b k), (Z.testbit g k), (Z.testbit m k), (Z.testbit t k), (Z.testbit gen k); cbn in *; by split_and!. }
  split_and!; apply Z.bits_inj'; intros k Hk0; rewrite ?Z.land_spec, ?Z.bits_0; apply (Hk k Hk0).
Qed.

Lemma land_bit b t : Z.land b t = t -> t <> 0 -> bit b t = true.
Proof. intros H Ht. unfold bit. rewrite H. by apply negb_true_iff, Z.eqb_neq. Qed.

Lemma remote_bits m r l : MACH_MSGH_BITS_PORTS m = MACH_MSGH_BITS r l -> Z.land r 0xff = r -> Z.land l 0xff = l ->
  MACH_MSGH_BITS_REMOTE m = r /\ MACH_MSGH_BITS_LOCAL m = l.
Proof.
  unfold MACH_MSGH_BITS_PORTS, MACH_MSGH_BITS, MACH_MSGH_BITS_REMOTE, MACH_MSGH_BITS_LOCAL. intros H Hr Hl. split.
  - replace (Z.land m 255) with (Z.land (Z.land m MACH_MSGH_BITS_PORTS_MASK) 255) by (by rewrite <- Z.land_assoc).
    rewrite H, Z.land_lor_distr_l, Hr. replace (Z.land (Z.shiftl l 8) 255) with 0; [apply Z.lor_0_r|].
    symmetry. apply Z.bits_inj'. intros k Hk. rewrite Z.land_spec, Z.bits_0. change 255 with (Z.ones 8).
    destruct (Z.ltb_spec k 8); [by rewrite Z.shiftl_spec_low|]. by rewrite Z.ones_spec_high, andb_false_r by lia.
  - replace (Z.land m MACH_MSGH_BITS_LOCAL_MASK) with (Z.land (Z.land m MACH_MSGH_BITS_PORTS_MASK) MACH_MSGH_BITS_LOCAL_MASK)
      by (by rewrite <- Z.land_assoc).
    rewrite H, Z.land_lor_distr_l. change MACH_MSGH_BITS_LOCAL_MASK with (Z.shiftl 0xff 8).
    rewrite <- Z.shiftl_land, Hl. replace (Z.land r (Z.shiftl 255 8)) with 0.
    + rewrite Z.lor_0_l, Z.shiftr_shiftl_l by lia. cbn. by rewrite Z.shiftl_0_r.
    + rewrite <- Hr, <- Z.land_assoc. by rewrite Z.land_0_r.
Qed.

(** ** Live rights through the general path *)

Section Live.
Context {S : Type} {CS : CapSpace S}.
Implicit Types (s : S) (w : world) (v : eview) (q : ipc_port) (ref : entry_ref).

(** A send right for a live port. *)
Definition live_send_right v q : Prop :=
  (ev_type v = MACH_PORT_TYPE_SEND \/ ev_type v = MACH_PORT_TYPE_SEND_RECEIVE) /\ 0 < urefs v /\ ev_object v <> IP_NULL /\
  ip_active q = true /\ 0 < ip_srights q.

Lemma copyin_copy_live s w name ref v q deadok : cs_active s = true -> cs_entry s ref = Some v ->
  w_ports w !! ev_object v = Some q -> live_send_right v q ->
  ipc_right_copyin (mk_rstate s w) name ref MACH_MSG_TYPE_COPY_SEND deadok =
    Some (mk_rstate s (put_port (ev_object v) (ip_reference (incr_srights q)) w), inr (ev_object v, IP_NULL)).
Proof.
  intros Ha Hv Hq (Ht & Hu & Ho & Hact & Hs). unfold ipc_right_copyin. cbn. rewrite Hv, Ha. unfold copyin_send_rights.
  rewrite !bit_ev_type by done. assert (bit (ev_type v) MACH_PORT_TYPE_DEAD_NAME = false /\ bit (ev_type v) MACH_PORT_TYPE_SEND_RIGHTS = true /\
    bit (ev_type v) MACH_PORT_TYPE_SEND = true) as (-> & -> & Hbs) by (by destruct Ht as [-> | ->]). cbn [negb].
  unfold urefs in Hu. rewrite (proj2 (Z.ltb_lt _ _) Hu), (proj2 (Z.eqb_neq _ _) Ho). cbn [negb].
  unfold ipc_right_check. cbn [r_space r_world]. rewrite Ha, Hv, Z.eqb_refl, Hq, Hact.
  unfold copyin_copy_send, with_send. cbn [r_world]. rewrite Hq, bit_ev_type, Hbs by done. cbn [negb].
  by rewrite (proj2 (Z.ltb_lt _ _) Hs).
Qed.

Lemma copyin_make_once_live s w name ref v q deadok : cs_active s = true -> cs_entry s ref = Some v ->
  w_ports w !! ev_object v = Some q -> bit (ev_bits v) MACH_PORT_TYPE_RECEIVE = true -> ev_object v <> IP_NULL ->
  receives (cs_self s) name q ->
  ipc_right_copyin (mk_rstate s w) name ref MACH_MSG_TYPE_MAKE_SEND_ONCE deadok =
    Some (mk_rstate s (put_port (ev_object v) (ip_reference (ip_set_sorights (u32 (ip_sorights q + 1)) q)) w), inr (ev_object v, IP_NULL)).
Proof.
  intros Ha Hv Hq Hb Ho (Hact & Hn & Hr). unfold ipc_right_copyin. cbn. rewrite Hv, Ha. unfold copyin_make. cbn [r_world].
  rewrite Hb, (proj2 (Z.eqb_neq _ _) Ho), Hq, Hact, Hn, Z.eqb_refl. cbn [negb]. unfold self. cbn [r_space]. by rewrite Hr, Z.eqb_refl.
Qed.

(** An entry with a right is not deallocated. *)
Lemma dealloc_defunct_id name ref s w v : cs_entry s ref = Some v -> ev_type v <> 0 ->
  dealloc_defunct name ref (mk_rstate s w) = Some (mk_rstate s w).
Proof. intros Hv Ht. unfold dealloc_defunct. cbn. rewrite Hv. unfold ev_type in Ht. by rewrite (proj2 (Z.eqb_neq _ MACH_PORT_TYPE_NONE) Ht). Qed.
End Live.

(** ** What the optimized lookup finds *)

Section Fast.
Context `{PC : PortConfig}.
Variable its : list Z.
Hypothesis Hits : entries_sizes_ok its.
#[local] Instance spec_space : CapSpace kstate := kstate_space its.
#[local] Instance spec_laws : CapSpaceLaws kstate := kstate_laws its Hits.
Implicit Types (s : kstate) (w : world) (c : gmap Z capability) (q : ipc_port) (e : ipc_entry).

(** Masks below the generation. *)
Definition low_mask (m : Z) : Prop := Z.land 0xff000000 m = 0.

Lemma gen_mask_low m : low_mask m -> Z.land IE_BITS_GEN_MASK m = 0.
Proof using. unfold low_mask, IE_BITS_GEN_MASK. by destruct PORT_GENERATIONS. Qed.

Lemma fast_lookup_found sp name mask type i e : low_mask mask -> low_mask type -> Z.land mask type = 0 ->
  fast_lookup sp name mask type = Some (Some (i, e)) ->
  i = MACH_PORT_INDEX name /\ i < is_table_size sp /\ aget (is_table sp) i = Some e /\ IE_BITS_GEN (ie_bits e) = MACH_PORT_GEN name /\
  Z.land (ie_bits e) mask = 0 /\ Z.land (ie_bits e) type = type.
Proof using.
  intros Hm Ht Hmt. unfold fast_lookup. destruct (Z.leb_spec (is_table_size sp) (MACH_PORT_INDEX name)); [done|].
  destruct (aget (is_table sp) (MACH_PORT_INDEX name)) as [e0|] eqn:He; [|done].
  destruct (Z.eqb_spec (Z.land (ie_bits e0) (Z.lor (Z.lor IE_BITS_GEN_MASK mask) type)) (Z.lor (MACH_PORT_GEN name) type)) as [Hb|]; [|done].
  intros [= <- <-].
  destruct (land_split _ _ _ _ _ (gen_mask_low mask Hm) (gen_mask_low type Ht) Hmt (gen_land_self _ (is_gen_port name)) Hb) as (Hg & Hmm & Htt).
  split_and!; [done|done|done|by rewrite IE_BITS_GEN_land|done|done].
Qed.

(** The lookup never faults. *)
Lemma fast_lookup_total s c name mask type : cs_repr s c -> is_u32 name -> exists res, fast_lookup (k_space s) name mask type = Some res.
Proof using.
  intros [Hwf _] Hn. unfold fast_lookup. destruct (Z.leb_spec (is_table_size (k_space s)) (MACH_PORT_INDEX name)); [by eexists|].
  destruct (wf_sizes _ _ _ Hwf) as (Hlen & _). destruct (aget_is_Some (is_table (k_space s)) (MACH_PORT_INDEX name)) as [e ->].
  - rewrite Hlen. split; [|done]. unfold MACH_PORT_INDEX. destruct PORT_GENERATIONS; [apply Z.shiftr_nonneg|]; apply Hn.
  - destruct (_ =? _); by eexists.
Qed.

Record found s c name type (i : Z) e : Prop := {
  fo_index : i = MACH_PORT_INDEX name /\ 0 < i < is_table_size (k_space s);
  fo_entry : aget (is_table (k_space s)) i = Some e;
  fo_gen : IE_BITS_GEN (ie_bits e) = MACH_PORT_GEN name;
  fo_type : bit (ie_bits e) type = true;
  fo_lookup : cs_lookup s name = Some (s, Some (InTable i));
  fo_view : cs_entry s (InTable i) = Some (view_of e);
  fo_cap : c !! name = Some (the_cap (view_of e));
  fo_null : name <> MACH_PORT_NULL
}.

Lemma fast_found s c name mask type i e : cs_repr s c -> is_u32 name -> low_mask mask -> low_mask type -> Z.land mask type = 0 ->
  type <> 0 -> Z.land type IE_BITS_TYPE_MASK = type -> fast_lookup (k_space s) name mask type = Some (Some (i, e)) -> found s c name type i e.
Proof using.
  intros Hr Hn Hm Ht Hmt Ht0 Htm Hf. destruct (fast_lookup_found _ _ _ _ _ _ Hm Ht Hmt Hf) as (-> & Hi & He & Hg & _ & Hb).
  pose proof (land_bit _ _ Hb Ht0) as Hbit.
  assert (IE_BITS_TYPE (ie_bits e) <> 0) as Hty.
  { intros E. rewrite bit_type, E in Hbit by done. unfold bit in Hbit. by rewrite Z.land_0_l in Hbit. }
  assert (cs_lookup s name = Some (s, Some (InTable (MACH_PORT_INDEX name)))) as Hl.
  { cbn. unfold ipc_entry_lookup. rewrite (repr_active s c Hr : is_active (k_space s) = true), (proj2 (Z.ltb_lt _ _) Hi), He, Hg, Z.eqb_refl. cbn [negb].
    rewrite (proj2 (Z.eqb_neq _ MACH_PORT_TYPE_NONE) Hty). by destruct s. }
  destruct (lookup_law s c name Hr Hn) as (s' & res & Hl' & _ & _ & Hres). rewrite Hl in Hl'. injection Hl' as <- <-.
  destruct Hres as [v Hh]. destruct (holds_cap s c name _ v Hr Hh) as (Hc & _ & Hv).
  assert (v = view_of e) as -> by (cbn in Hv; rewrite He in Hv; by injection Hv).
  constructor; try done.
  - split; [done|]. split; [|done]. destruct Hr as [Hwf _]. pose proof (wf_table _ _ _ Hwf _ _ He) as (_ & H0 & _).
    destruct (aget_Some_range _ _ _ He) as [H1 _]. destruct (Z.eq_dec (MACH_PORT_INDEX name) 0); [by destruct Hty; apply H0|lia].
  - by eapply (opened_rest _ _ _ _ _ _ (open_any s c name _ _ Hr Hh)).
Qed.

(** The port of a send right that was found. *)
Lemma found_send s w c name i e : cs_repr s c -> rights_ok (cs_self s) w c -> found s c name MACH_PORT_TYPE_SEND i e ->
  exists q, w_ports w !! ie_object e = Some q /\ 0 < IE_BITS_UREFS (ie_bits e) /\ ie_object e <> IP_NULL /\
    (ip_active q = true -> live_send_right (view_of e) q) /\
    (ev_type (view_of e) = MACH_PORT_TYPE_SEND -> ip_active q = true -> ip_receiver q <> cs_self s) /\
    (ev_type (view_of e) = MACH_PORT_TYPE_SEND_RECEIVE -> receives (cs_self s) name q).
Proof using.
  intros Hr Hok Hf. pose proof (proj1 (entry_ok_cap _ _ _ _) (ro_caps _ _ _ Hok name _ (fo_cap _ _ _ _ _ _ Hf))) as He.
  pose proof (fo_type _ _ _ _ _ _ Hf) as Hb. rewrite (bit_ev_type (view_of e)) in Hb by done. unfold live_send_right.
  destruct He as [Ht|? Ht|q Ho Hq _ Hrok]; [by rewrite Ht in Hb|by rewrite Ht in Hb|]. exists q. cbn in Ho, Hq.
  destruct Hrok as [Ht Hu Hx|Ht|Ht|Ht Hu Hx Hs]; [|by rewrite Ht in Hb|by rewrite Ht in Hb|]; rewrite Ht.
  - split_and!; [done|apply Hu|done|intros Ha; destruct (Hx Ha); split_and!; [by left|apply Hu|done|done|done]|intros _ Ha; by apply Hx|done].
  - destruct Hx as (Ha & Hx). split_and!; [done|apply Hu|done|intros _; split_and!; [by right|apply Hu|done|done|done]|done|done].
Qed.

(** ** Asynchronous messages *)

Definition no_others : header_env := mk_header_env id id id.

(** The general path up to the choice of the case. *)
Lemma general_start env s w c msg r l dest_type : cs_repr s c -> MACH_MSGH_BITS_PORTS (Z.ldiff (hdr_bits msg) MACH_MSGH_BITS_CIRCULAR) = MACH_MSGH_BITS r l ->
  Z.land r 0xff = r -> Z.land l 0xff = l -> any_send r = Some dest_type ->
  (if l =? 0 then negb (hdr_local_port msg =? MACH_PORT_NULL) else negb (bool_decide (is_Some (any_send l)))) = false ->
  copyin_header_general env (mk_rstate s w) msg MACH_PORT_NULL =
    (LET (st2, res) <-
      (if hdr_remote_port msg =? hdr_local_port msg then header_same env (mk_rstate s w) (hdr_remote_port msg) dest_type (any_send l)
       else if negb (MACH_PORT_VALID (hdr_local_port msg)) then header_no_reply (mk_rstate s w) (hdr_remote_port msg) (hdr_local_port msg) dest_type
       else header_both env (mk_rstate s w) (hdr_remote_port msg) (hdr_local_port msg) dest_type (any_send l)) ;;
     match res with
     | inl mr => Some (st2, inl mr)
     | inr ports => header_end st2 (Z.ldiff (hdr_bits msg) MACH_MSGH_BITS_CIRCULAR) (hdr_remote_port msg) (hdr_local_port msg)
         MACH_PORT_NULL IP_NULL dest_type (any_send l) ports
     end).
Proof using.
  intros Hr Hp Hr0 Hl0 Hd Hcheck. destruct (remote_bits _ r l Hp Hr0 Hl0) as [Hrem Hloc].
  unfold copyin_header_general. rewrite Hrem, Hloc, Hd, Hcheck. cbn [r_space]. rewrite (repr_active s c Hr). cbn [negb].
  unfold header_notify. cbn. done.
Qed.

Lemma header_end_quiet s w mbits dest_name reply_name dest_type reply_type dest_port reply_port :
  header_end (mk_rstate s w) mbits dest_name reply_name MACH_PORT_NULL IP_NULL dest_type reply_type (dest_port, reply_port, IP_NULL, IP_NULL) =
  Some (mk_rstate s w, inr (mk_header (Z.lor (MACH_MSGH_BITS_OTHER mbits)
    (MACH_MSGH_BITS (type_number (ipc_object_copyin_type dest_type))
       match reply_type with Some t => type_number (ipc_object_copyin_type t) | None => 0 end)) dest_port reply_port)).
Proof using. done. Qed.

Lemma fast_async_general env s w c msg : cs_repr s c -> rights_ok (cs_self s) w c -> is_u32 (hdr_remote_port msg) ->
  let mbits := Z.ldiff (hdr_bits msg) MACH_MSGH_BITS_CIRCULAR in
  MACH_MSGH_BITS_PORTS mbits = MACH_MSGH_BITS 19 0 ->
  exists res, fast_async (mk_rstate s w) mbits (hdr_remote_port msg) (hdr_local_port msg) = Some res /\
    match res with
    | Some (st1, msg1) => copyin_header_general env (mk_rstate s w) msg MACH_PORT_NULL = Some (st1, inr msg1)
    | None => True
    end.
Proof using.
  intros Hr Hok Hn mbits Hp. unfold fast_async. cbn [r_space].
  destruct (Z.eqb_spec (hdr_local_port msg) MACH_PORT_NULL) as [Hl|]; cbn [negb orb]; [|by exists None].
  rewrite (repr_active s c Hr : is_active (k_space s) = true). cbn [negb].
  destruct (fast_lookup_total s c (hdr_remote_port msg) 0 MACH_PORT_TYPE_SEND Hr Hn) as [[[i e]|] Hf]; rewrite Hf; [|by exists None].
  pose proof (fast_found s c _ 0 MACH_PORT_TYPE_SEND i e Hr Hn eq_refl eq_refl eq_refl ltac:(done) eq_refl Hf) as Hfo.
  destruct (found_send s w c _ i e Hr Hok Hfo) as (q & Hq & Hu & Ho & Hlive & _).
  rewrite (proj2 (Z.ltb_lt _ _) Hu), (proj2 (Z.eqb_neq _ _) Ho). cbn [negb r_world]. rewrite Hq.
  destruct (ip_active q) eqn:Ha; cbn [negb]; [|by exists None]. pose proof (Hlive eq_refl) as Hls.
  rewrite (proj2 (Z.ltb_lt _ _) (proj2 (proj2 (proj2 (proj2 Hls))))). eexists. split; [done|]. cbn beta iota.
  rewrite (general_start env s w c msg 19 0 MACH_MSG_TYPE_COPY_SEND Hr Hp eq_refl eq_refl eq_refl) by (by rewrite Hl).
  rewrite Hl, (proj2 (Z.eqb_neq _ _) (fo_null _ _ _ _ _ _ Hfo)). change (MACH_PORT_VALID MACH_PORT_NULL) with false. cbn [negb].
  unfold header_no_reply. cbn [r_space].
  rewrite (fo_lookup _ _ _ _ _ _ Hfo). unfold with_space. cbn [r_world].
  rewrite (copyin_copy_live s w _ _ (view_of e) q false (repr_active s c Hr) (fo_view _ _ _ _ _ _ Hfo) Hq Hls).
  rewrite (dealloc_defunct_id _ _ s _ (view_of e) (fo_view _ _ _ _ _ _ Hfo)) by (destruct Hls as [[-> | ->] _]; done).
  by rewrite header_end_quiet.
Qed.

(** ** Requests *)

Lemma found_receive s w c name i e : cs_repr s c -> rights_ok (cs_self s) w c -> found s c name MACH_PORT_TYPE_RECEIVE i e ->
  exists q, w_ports w !! ie_object e = Some q /\ ie_object e <> IP_NULL /\ receives (cs_self s) name q /\ ev_type (view_of e) <> 0.
Proof using.
  intros Hr Hok Hf. pose proof (proj1 (entry_ok_cap _ _ _ _) (ro_caps _ _ _ Hok name _ (fo_cap _ _ _ _ _ _ Hf))) as He.
  pose proof (fo_type _ _ _ _ _ _ Hf) as Hb. rewrite (bit_ev_type (view_of e)) in Hb by done.
  destruct He as [Ht|? Ht|q Ho Hq _ Hrok]; [by rewrite Ht in Hb|by rewrite Ht in Hb|]. exists q. cbn in Ho, Hq.
  destruct Hrok as [Ht|Ht|Ht Hu Hx|Ht Hu Hx Hs]; [by rewrite Ht in Hb|by rewrite Ht in Hb|..]; rewrite Ht; done.
Qed.

(** The extra reference that the general path holds meanwhile. *)
Lemma saved_reference r x : is_u32 (ip_references r) -> ip_references r + 2 < wordsize ->
  ip_release (ip_reference (ip_set_sorights x (ip_reference r))) = ip_reference (ip_set_sorights x r) /\
  0 < ip_references (ip_reference (ip_set_sorights x (ip_reference r))) /\
  ip_references (ip_release (ip_reference (ip_set_sorights x (ip_reference r)))) <> 0.
Proof using.
  intros Hu Hb. unfold ip_release, ip_reference, ip_set_sorights, ip_set_references. cbn.
  rewrite !(u32_small (ip_references r + 1)), !(u32_small (ip_references r + 1 + 1)), u32_small by (unfold is_u32 in *; lia).
  unfold is_u32 in *. split_and!; [f_equal; lia|lia|lia].
Qed.

Section Request.
Context (s : kstate) (w : world) (c : gmap Z capability) (dest_name reply_name i j : Z) (e f : ipc_entry).
Hypothesis Hr : cs_repr s c.
Hypothesis Hok : rights_ok (cs_self s) w c.
Hypothesis Hdead : w_ports w !! IP_DEAD = None.
Hypothesis Hrefs : forall p q, w_ports w !! p = Some q -> ip_references q + 2 < wordsize.
Hypothesis Hd : found s c dest_name MACH_PORT_TYPE_SEND i e.
Hypothesis Hf : found s c reply_name MACH_PORT_TYPE_RECEIVE j f.
Context (q r : ipc_port).
Hypothesis Hq : w_ports w !! ie_object e = Some q.
Hypothesis Ha : ip_active q = true.

Let w1 := put_port (ie_object e) (ip_reference (incr_srights q)) w.
Let once (r : ipc_port) := ip_reference (ip_set_sorights (u32 (ip_sorights r + 1)) r).

Lemma request_live : live_send_right (view_of e) q.
Proof using Hr Hok Hd Hq Ha.
  destruct (found_send s w c _ i e Hr Hok Hd) as (q' & Hq' & _ & _ & Hlive & _). rewrite Hq in Hq'. injection Hq' as <-. by apply Hlive.
Qed.

Lemma request_valid : IP_VALID (ie_object e) = true.
Proof using Hr Hok Hd Hq Ha Hdead.
  unfold IP_VALID. destruct request_live as (_ & _ & Ho & _). apply andb_true_iff. split; apply negb_true_iff, Z.eqb_neq; [exact Ho|congruence].
Qed.

(** With one name. *)
Lemma request_same : dest_name = reply_name ->
  exists r1, w_ports w1 !! ie_object f = Some r1 /\ receives (cs_self s) reply_name r1 /\
    header_same no_others (mk_rstate s w) dest_name MACH_MSG_TYPE_COPY_SEND (Some MACH_MSG_TYPE_MAKE_SEND_ONCE) =
      Some (mk_rstate s (put_port (ie_object f) (once r1) w1), inr (ie_object e, ie_object f, IP_NULL, IP_NULL)).
Proof using Hr Hok Hd Hf Hq Ha Hdead.
  intros E. destruct (fo_index _ _ _ _ _ _ Hd) as [Hi _], (fo_index _ _ _ _ _ _ Hf) as [Hj _].
  assert (f = e) as ->. { pose proof (fo_entry _ _ _ _ _ _ Hd) as He. pose proof (fo_entry _ _ _ _ _ _ Hf) as He'. rewrite Hj, <- E, <- Hi, He in He'. congruence. }
  assert (j = i) as -> by congruence. destruct (found_receive s w c _ i e Hr Hok Hf) as (q' & Hq' & Ho & Hrc & Ht0).
  rewrite Hq in Hq'. injection Hq' as <-. exists (ip_reference (incr_srights q)). unfold w1. cbn. rewrite lookup_insert_eq.
  split; [done|]. split; [exact Hrc|].
  unfold header_same. cbn [r_space]. rewrite (fo_lookup _ _ _ _ _ _ Hd). unfold with_space. cbn [r_world].
  unfold ipc_right_copyin_check. cbn [r_space]. rewrite (fo_view _ _ _ _ _ _ Hd), (repr_active s c Hr), (fo_type _ _ _ _ _ _ Hf : bit (ev_bits (view_of e)) _ = true).
  cbn [negb is_make orb]. rewrite bool_decide_eq_false_2 by (intros [?|?]; done). unfold others, no_others. cbn [he_check]. unfold with_world. cbn [r_space r_world id].
  rewrite (copyin_copy_live s w _ _ (view_of e) q false (repr_active s c Hr) (fo_view _ _ _ _ _ _ Hd) Hq request_live). cbn [ev_object view_of].
  rewrite request_valid. unfold has_bit. cbn [r_space]. rewrite (fo_view _ _ _ _ _ _ Hd), (fo_type _ _ _ _ _ _ Hf : bit (ev_bits (view_of e)) _ = true). cbn [Z.eqb].
  rewrite Z.eqb_refl.
  rewrite (copyin_make_once_live s _ _ _ (view_of e) (ip_reference (incr_srights q)) true (repr_active s c Hr) (fo_view _ _ _ _ _ _ Hd));
    [|cbn; by rewrite lookup_insert_eq|exact (fo_type _ _ _ _ _ _ Hf)|done|by rewrite E].
  cbn [ev_object view_of r_space]. rewrite Z.eqb_refl, (fo_view _ _ _ _ _ _ Hd), (fo_type _ _ _ _ _ _ Hf : bit (ev_bits (view_of e)) _ = true), Z.eqb_refl. done.
Qed.

(** With two names: the ports are different. *)
Lemma request_ports_ne : dest_name <> reply_name -> ie_object e <> ie_object f.
Proof using Hr Hok Hd Hf Hq Ha.
  intros Hne E. destruct (found_receive s w c _ j f Hr Hok Hf) as (r' & Hr' & _ & (_ & Hnm & Hrcv) & _). rewrite <- E, Hq in Hr'. injection Hr' as <-.
  destruct (found_send s w c _ i e Hr Hok Hd) as (q' & Hq' & _ & _ & Hlive & Hsend & Hboth). rewrite Hq in Hq'. injection Hq' as <-.
  destruct (Hlive Ha) as ([Ht|Ht] & _); [by apply (Hsend Ht Ha)|]. destruct (Hboth Ht) as (_ & Hn & _). congruence.
Qed.

Lemma request_both : dest_name <> reply_name ->
  exists r1, w_ports w1 !! ie_object f = Some r1 /\ receives (cs_self s) reply_name r1 /\
    header_both no_others (mk_rstate s w) dest_name reply_name MACH_MSG_TYPE_COPY_SEND (Some MACH_MSG_TYPE_MAKE_SEND_ONCE) =
      Some (mk_rstate s (put_port (ie_object f) (once r1) w1), inr (ie_object e, ie_object f, IP_NULL, IP_NULL)).
Proof using Hr Hok Hd Hf Hq Ha Hdead Hrefs.
  intros Hne. pose proof (request_ports_ne Hne) as Hports. pose proof (repr_active s c Hr) as Hact.
  destruct (found_receive s w c _ j f Hr Hok Hf) as (r1 & Hr1 & Ho & Hrc & Ht0). destruct request_live as (Htd & _).
  assert (w_ports w1 !! ie_object f = Some r1) as Hw1 by (unfold w1; cbn; by rewrite lookup_insert_ne). exists r1. split; [done|]. split; [done|].
  assert (IP_DEAD <> ie_object f) as Hnd by congruence.
  unfold header_both. cbn [r_space]. rewrite (fo_lookup _ _ _ _ _ _ Hd). unfold with_space. cbn [r_world r_space].
  rewrite (fo_lookup _ _ _ _ _ _ Hf). unfold ipc_right_copyin_check. cbn [r_space].
  rewrite (fo_view _ _ _ _ _ _ Hf), Hact, (fo_type _ _ _ _ _ _ Hf : bit (ev_bits (view_of f)) _ = true). cbn [negb].
  unfold others, no_others. cbn [he_check]. unfold with_world. cbn [r_space r_world id].
  rewrite (copyin_copy_live s w _ _ (view_of e) q false Hact (fo_view _ _ _ _ _ _ Hd) Hq request_live). cbn [ev_object view_of r_space].
  fold w1. rewrite request_valid, (fo_view _ _ _ _ _ _ Hf). cbn [ev_object view_of]. rewrite (proj2 (Z.eqb_neq _ _) Ho). cbn [negb].
  unfold on_world, port_upd. cbn [r_world]. rewrite Hw1. unfold with_world. cbn [r_space r_world he_dest id].
  rewrite (copyin_make_once_live s _ _ _ (view_of f) (ip_reference r1) true Hact (fo_view _ _ _ _ _ _ Hf));
    [|apply put_ports|exact (fo_type _ _ _ _ _ _ Hf)|done|exact Hrc].
  cbn [ev_object view_of he_reply id]. rewrite put_put. unfold header_both_end. rewrite (proj2 (Z.eqb_neq _ _) Ho). cbn [negb andb r_space r_world].
  rewrite (proj2 (Z.eqb_neq (ie_object f) IO_DEAD)) by (by apply not_eq_sym).
  rewrite (dealloc_defunct_id _ _ s _ (view_of f) (fo_view _ _ _ _ _ _ Hf)) by done.
  rewrite (dealloc_defunct_id _ _ s _ (view_of e) (fo_view _ _ _ _ _ _ Hd)) by (destruct Htd as [-> | ->]; done).
  unfold release_saved. rewrite (proj2 (Z.eqb_neq _ _) Ho). cbn [negb]. unfold on_world. cbn [r_world].
  assert (is_u32 (ip_references r1)) as Hu by (apply (ro_ports _ _ _ Hok _ _ Hr1)).
  destruct (saved_reference r1 (u32 (ip_sorights r1 + 1)) Hu (Hrefs _ _ Hr1)) as (Hrel & Hpos & Hnz).
  rewrite (port_release_step _ _ _ (put_ports _ _ _) Hpos). unfold released. cbn [ip_sorights ip_reference ip_set_references] in *.
  change (ip_sorights (ip_reference r1)) with (ip_sorights r1). rewrite (proj2 (Z.eqb_neq _ _) Hnz), put_put, Hrel. done.
Qed.
End Request.

Lemma fast_request_general lock_try s w c msg : cs_repr s c -> rights_ok (cs_self s) w c ->
  is_u32 (hdr_remote_port msg) -> is_u32 (hdr_local_port msg) -> w_ports w !! IP_DEAD = None ->
  (forall p q, w_ports w !! p = Some q -> ip_references q + 2 < wordsize) ->
  let mbits := Z.ldiff (hdr_bits msg) MACH_MSGH_BITS_CIRCULAR in
  MACH_MSGH_BITS_PORTS mbits = MACH_MSGH_BITS 19 21 ->
  exists res, fast_request its lock_try (mk_rstate s w) mbits (hdr_remote_port msg) (hdr_local_port msg) = Some res /\
    match res with
    | Some (st1, msg1) => copyin_header_general no_others (mk_rstate s w) msg MACH_PORT_NULL = Some (st1, inr msg1)
    | None => True
    end.
Proof using.
  intros Hr Hok Hn Hn' Hdead Hrefs mbits Hp. unfold fast_request. cbn [r_space].
  rewrite (repr_active s c Hr : is_active (k_space s) = true). cbn [negb].
  destruct (fast_lookup_total s c (hdr_remote_port msg) 0 MACH_PORT_TYPE_SEND Hr Hn) as [[[i e]|] Hf]; rewrite Hf; [|by exists None].
  pose proof (fast_found s c _ 0 MACH_PORT_TYPE_SEND i e Hr Hn eq_refl eq_refl eq_refl ltac:(done) eq_refl Hf) as Hfo.
  destruct (found_send s w c _ i e Hr Hok Hfo) as (q & Hq & Hu & Ho & Hlive & _).
  rewrite (proj2 (Z.ltb_lt _ _) Hu), (proj2 (Z.eqb_neq _ _) Ho). cbn [negb].
  destruct (fast_lookup_total s c (hdr_local_port msg) 0 MACH_PORT_TYPE_RECEIVE Hr Hn') as [[[j f]|] Hg]; rewrite Hg; [|by exists None].
  pose proof (fast_found s c _ 0 MACH_PORT_TYPE_RECEIVE j f Hr Hn' eq_refl eq_refl eq_refl ltac:(done) eq_refl Hg) as Hfr.
  destruct (found_receive s w c _ j f Hr Hok Hfr) as (r & Hrp & Hro & _ & _). rewrite (proj2 (Z.eqb_neq _ _) Hro). cbn [negb r_world]. rewrite Hq.
  destruct (ip_active q) eqn:Ha, lock_try; cbn [negb orb]; try (by exists None). pose proof (Hlive eq_refl) as Hls.
  rewrite (proj2 (Z.ltb_lt _ _) (proj2 (proj2 (proj2 (proj2 Hls))))).
  assert (exists r1, w_ports (put_port (ie_object e) (ip_reference (incr_srights q)) w) !! ie_object f = Some r1 /\
    receives (cs_self s) (hdr_local_port msg) r1 /\
    copyin_header_general no_others (mk_rstate s w) msg MACH_PORT_NULL =
      Some (mk_rstate s (put_port (ie_object f) (ip_reference (ip_set_sorights (u32 (ip_sorights r1 + 1)) r1))
              (put_port (ie_object e) (ip_reference (incr_srights q)) w)),
        inr (mk_header (Z.lor (MACH_MSGH_BITS_OTHER mbits) (MACH_MSGH_BITS 17 18)) (ie_object e) (ie_object f)))) as (r1 & -> & (Hra & Hrn & Hrr) & Hgen).
  { rewrite (general_start no_others s w c msg 19 21 MACH_MSG_TYPE_COPY_SEND Hr Hp eq_refl eq_refl eq_refl eq_refl).
    change (any_send 21) with (Some MACH_MSG_TYPE_MAKE_SEND_ONCE).
    destruct (Z.eqb_spec (hdr_remote_port msg) (hdr_local_port msg)) as [E|E].
    - destruct (request_same s w c _ _ i j e f Hr Hok Hdead Hfo Hfr q Hq Ha E) as (r1 & H1 & H2 & ->). exists r1. split_and!; done.
    - assert (MACH_PORT_VALID (hdr_local_port msg) = true) as ->.
      { unfold MACH_PORT_VALID. apply andb_true_iff. split; apply negb_true_iff, Z.eqb_neq; [apply (fo_null _ _ _ _ _ _ Hfr)|].
        intros Ed. destruct (fo_index _ _ _ _ _ _ Hfr) as [Hj [_ Hlt]]. rewrite Ed in Hj.
        destruct Hr as [Hwf _]. destruct (wf_sizes _ _ _ Hwf) as (_ & Hsz & _). pose proof (entries_sizes_range its _ _ Hits Hsz). lia. }
      destruct (request_both s w c _ _ i j e f Hr Hok Hdead Hrefs Hfo Hfr q Hq Ha E) as (r1 & H1 & H2 & ->). exists r1. split_and!; done. }
  unfold self. cbn [r_space]. rewrite Hra, Hrn, Hrr, !Z.eqb_refl. eexists. split; [done|]. exact Hgen.
Qed.

(** ** Replies *)

Lemma found_send_once s w c name i e : cs_repr s c -> rights_ok (cs_self s) w c -> found s c name MACH_PORT_TYPE_SEND_ONCE i e ->
  exists q, w_ports w !! ie_object e = Some q /\ ie_object e <> IP_NULL /\ IE_BITS_TYPE (ie_bits e) = MACH_PORT_TYPE_SEND_ONCE /\
    IE_BITS_UREFS (ie_bits e) = 1 /\ bit (ie_bits e) IE_BITS_MAREQUEST = false /\ (ip_active q = true -> 0 < ip_sorights q).
Proof using.
  intros Hr Hok Hf. pose proof (proj1 (entry_ok_cap _ _ _ _) (ro_caps _ _ _ Hok name _ (fo_cap _ _ _ _ _ _ Hf))) as He.
  pose proof (fo_type _ _ _ _ _ _ Hf) as Hb. rewrite (bit_ev_type (view_of e)) in Hb by done.
  destruct He as [Ht|? Ht|q Ho Hq _ Hrok]; [by rewrite Ht in Hb|by rewrite Ht in Hb|]. exists q. cbn in Ho, Hq.
  destruct Hrok as [Ht|Ht Hu Hm Hs|Ht|Ht]; [by rewrite Ht in Hb| |by rewrite Ht in Hb|by rewrite Ht in Hb]. done.
Qed.

(** The table after the entry [i] was freed. *)
Definition freed_table (t : list ipc_entry) (i gen : Z) (head e : ipc_entry) : list ipc_entry :=
  aset (aset t i (mk_entry gen IO_NULL (ie_next head) (ie_index e))) 0 (set_next i head).

Lemma aset_comm {A} (t : list A) i j x y : i <> j -> aset (aset t i x) j y = aset (aset t j y) i x.
Proof using.
  intros Hne. apply aget_ext; [by rewrite !alen_aset|]. intros k _. rewrite !aget_aset, !alen_aset. repeat case_decide; naive_solver.
Qed.

Lemma fast_free t i gen head e : i <> 0 -> aget t 0 = Some head -> aget t i = Some e ->
  (LET t1 <- table_upd t i (set_next (ie_next head)) ;;
   LET t2 <- table_upd t1 0 (set_next i) ;;
   table_upd t2 i (fun e => set_object IO_NULL (set_bits gen e))) = Some (freed_table t i gen head e).
Proof using.
  intros Hi H0 He. rewrite (table_upd_Some _ _ _ _ He). pose proof (aget_Some_range _ _ _ He) as Hri.
  rewrite (table_upd_Some _ 0 _ head) by (by rewrite aget_aset_ne).
  rewrite (table_upd_Some _ i _ (set_next (ie_next head) e)) by (rewrite aget_aset_ne by done; by rewrite aget_aset_eq).
  unfold freed_table. f_equal. rewrite (aset_comm _ 0 i) by done. by rewrite aset_aset_eq.
Qed.

(** [ipc_entry_dealloc] of an entry of the table that no tree entry collides with. *)
Lemma dealloc_free_step sp g name i e head : is_active sp = true -> i = MACH_PORT_INDEX name -> 0 < i < is_table_size sp ->
  aget (is_table sp) 0 = Some head -> aget (is_table sp) i = Some e -> ie_object e = IO_NULL -> ie_request e = 0 ->
  IE_BITS_GEN (ie_bits e) = MACH_PORT_GEN name -> Z.land (ie_bits e) IE_BITS_COLLISION = 0 ->
  ipc_entry_dealloc its (mk_kstate sp g) name (InTable i) =
    Some (mk_kstate (sp_set_table (freed_table (is_table sp) i (MACH_PORT_GEN name) head e) sp) g).
Proof using.
  intros Ha Hi Hr H0 He Ho Hreq Hg Hcol. unfold ipc_entry_dealloc. cbn. rewrite Ha, He. cbn. rewrite Ho, Hreq, !Z.eqb_refl.
  unfold ref_in_table. cbn. rewrite <- Hi, (proj2 (Z.ltb_lt _ _) (proj2 Hr)), bool_decide_eq_true_2 by done. cbn [andb].
  rewrite Hg, Z.eqb_refl, Hcol. cbn [Z.eqb negb]. change (0 =? 0) with true. cbn [negb]. unfold dealloc_free. rewrite H0.
  rewrite (table_upd_Some _ i _ e) by done. rewrite (table_upd_Some _ 0 _ head) by (rewrite aget_aset_ne by lia; done).
  unfold freed_table, set_next, set_request, set_bits. cbn. by rewrite <- IE_BITS_GEN_land, Hg, Ho.
Qed.

(** The same through the rights code and [ipc_entry_dealloc]. *)
Lemma slow_free s w c name i e head : found s c name MACH_PORT_TYPE_SEND_ONCE i e -> is_active (k_space s) = true ->
  aget (is_table (k_space s)) 0 = Some head -> IE_BITS_TYPE (ie_bits e) = MACH_PORT_TYPE_SEND_ONCE ->
  Z.land (ie_bits e) IE_BITS_COLLISION = 0 -> ie_request e = 0 ->
  exists s1, entry_upd (InTable i) (fun v => v_set_bits (Z.ldiff (ie_bits e) MACH_PORT_TYPE_SEND_ONCE) (v_set_object IO_NULL v)) (mk_rstate s w) =
      Some (mk_rstate s1 w) /\
    dealloc_defunct name (InTable i) (mk_rstate s1 w) =
      Some (mk_rstate (mk_kstate (sp_set_table (freed_table (is_table (k_space s)) i (MACH_PORT_GEN name) head e) (k_space s)) (k_ghash s)) w).
Proof using.
  intros Hf Ha H0 Ht Hcol Hreq. destruct s as [sp g]. cbn in Ha, H0. destruct (fo_index _ _ _ _ _ _ Hf) as [Hi Hr]. cbn in Hr.
  pose proof (fo_entry _ _ _ _ _ _ Hf) as He. cbn in He. pose proof (aget_Some_range _ _ _ He) as Hri.
  set (b := Z.ldiff (ie_bits e) MACH_PORT_TYPE_SEND_ONCE). set (e1 := mk_entry b IO_NULL 0 (ie_index e)).
  exists (mk_kstate (sp_set_table (aset (is_table sp) i e1) sp) g). split.
  { unfold entry_upd. cbn [r_space]. rewrite (fo_view _ _ _ _ _ _ Hf). cbn. unfold table_upd. rewrite He. cbn. unfold write_entry. cbn. by rewrite Hreq. }
  assert (IE_BITS_TYPE b = 0) as Hb0 by (unfold b; by rewrite type_ldiff, Ht).
  unfold dealloc_defunct. cbn. rewrite aget_aset_eq by done. cbn [fmap option_fmap option_map view_of ev_bits ie_bits e1].
  rewrite Hb0. cbn [Z.eqb]. change (0 =? MACH_PORT_TYPE_NONE) with true. cbn iota. unfold entry_dealloc. cbn [cs_dealloc spec_space kstate_space r_space].
  rewrite (dealloc_free_step _ g name i e1 head); cbn [is_active is_table is_table_size sp_set_table];
    [|done|done|done|rewrite aget_aset_ne by lia; done|by rewrite aget_aset_eq|done|done|..].
  - unfold freed_table. rewrite aset_aset_eq. done.
  - cbn. rewrite IE_BITS_GEN_land. unfold b. rewrite land_ldiff_swap, <- (fo_gen _ _ _ _ _ _ Hf), IE_BITS_GEN_land. f_equal.
    unfold IE_BITS_GEN_MASK. by destruct PORT_GENERATIONS.
  - cbn. unfold b. rewrite land_ldiff_swap. by change (Z.ldiff IE_BITS_COLLISION MACH_PORT_TYPE_SEND_ONCE) with IE_BITS_COLLISION.
Qed.

Lemma copyin_move_once_live s w name ref v q s1 : cs_active s = true -> cs_entry s ref = Some v -> w_ports w !! ev_object v = Some q ->
  IE_BITS_TYPE (ev_bits v) = MACH_PORT_TYPE_SEND_ONCE -> IE_BITS_UREFS (ev_bits v) = 1 -> bit (ev_bits v) IE_BITS_MAREQUEST = false ->
  ev_object v <> IP_NULL -> ip_active q = true -> 0 < ip_sorights q -> ev_request v = 0 ->
  entry_upd ref (fun v' => v_set_bits (Z.ldiff (ev_bits v) MACH_PORT_TYPE_SEND_ONCE) (v_set_object IO_NULL v')) (mk_rstate s w) = Some (mk_rstate s1 w) ->
  ipc_right_copyin (mk_rstate s w) name ref MACH_MSG_TYPE_MOVE_SEND_ONCE false = Some (mk_rstate s1 w, inr (ev_object v, IP_NULL)).
Proof using.
  intros Ha Hv Hq Ht Hu Hm Ho Hact Hs Hreq Hupd. unfold ipc_right_copyin. cbn [r_space]. rewrite Hv, Ha. unfold copyin_send_rights.
  rewrite !(bit_ev_type v) by done. unfold ev_type. rewrite Ht, Hu, (proj2 (Z.eqb_neq _ _) Ho). cbn [negb].
  change (bit MACH_PORT_TYPE_SEND_ONCE MACH_PORT_TYPE_DEAD_NAME) with false. change (bit MACH_PORT_TYPE_SEND_ONCE MACH_PORT_TYPE_SEND_RIGHTS) with true.
  change (0 <? 1) with true. cbn [negb]. unfold ipc_right_check. cbn [r_space r_world]. rewrite Ha, Hv, Z.eqb_refl, Hq, Hact.
  unfold copyin_move_send_once. cbn [r_world]. rewrite Hq, (bit_ev_type v) by done. unfold ev_type. rewrite Ht, Hu, Hm, (proj2 (Z.ltb_lt _ _) Hs). cbn [negb].
  change (bit MACH_PORT_TYPE_SEND_ONCE MACH_PORT_TYPE_SEND_ONCE) with true. rewrite Z.eqb_refl. change (1 =? 1) with true. cbn [negb].
  unfold ipc_right_dncancel_macro. cbn [r_space]. rewrite Hv, Hreq. change (0 =? 0) with true. cbn iota. by rewrite Hupd.
Qed.

Lemma fast_reply_general env s w c msg : cs_repr s c -> rights_ok (cs_self s) w c -> is_u32 (hdr_remote_port msg) ->
  let mbits := Z.ldiff (hdr_bits msg) MACH_MSGH_BITS_CIRCULAR in
  MACH_MSGH_BITS_PORTS mbits = MACH_MSGH_BITS 18 0 ->
  exists res, fast_reply (mk_rstate s w) mbits (hdr_remote_port msg) (hdr_local_port msg) = Some res /\
    match res with
    | Some (st1, msg1) => copyin_header_general env (mk_rstate s w) msg MACH_PORT_NULL = Some (st1, inr msg1)
    | None => True
    end.
Proof using.
  intros Hr Hok Hn mbits Hp. unfold fast_reply. cbn [r_space].
  destruct (Z.eqb_spec (hdr_local_port msg) MACH_PORT_NULL) as [Hl|]; cbn [negb orb]; [|by exists None].
  pose proof (repr_active s c Hr) as Hact. rewrite (Hact : is_active (k_space s) = true). cbn [negb].
  destruct (fast_lookup_total s c (hdr_remote_port msg) IE_BITS_COLLISION MACH_PORT_TYPE_SEND_ONCE Hr Hn) as [[[i e]|] Hf]; rewrite Hf; [|by exists None].
  pose proof (fast_found s c _ IE_BITS_COLLISION MACH_PORT_TYPE_SEND_ONCE i e Hr Hn eq_refl eq_refl eq_refl ltac:(done) eq_refl Hf) as Hfo.
  destruct (fast_lookup_found _ _ IE_BITS_COLLISION MACH_PORT_TYPE_SEND_ONCE _ _ eq_refl eq_refl eq_refl Hf) as (_ & _ & _ & _ & Hcol & _).
  destruct (found_send_once s w c _ i e Hr Hok Hfo) as (q & Hq & Ho & Ht & Hu & Hm & Hso).
  rewrite Ht, Hu, Hm. change (MACH_PORT_TYPE_SEND_ONCE =? MACH_PORT_TYPE_SEND_ONCE) with true. change (1 =? 1) with true. cbn [negb].
  destruct (Z.eqb_spec (ie_request e) 0) as [Hreq|]; cbn [negb]; [|by exists None].
  rewrite (proj2 (Z.eqb_neq _ _) Ho). cbn [negb r_world]. rewrite Hq.
  destruct (ip_active q) eqn:Ha; cbn [negb]; [|by exists None]. rewrite (proj2 (Z.ltb_lt _ _) (Hso eq_refl)).
  destruct (fo_index _ _ _ _ _ _ Hfo) as [_ Hi]. pose proof (fo_entry _ _ _ _ _ _ Hfo) as He.
  destruct (aget_is_Some (is_table (k_space s)) 0) as [head H0]; [destruct (aget_Some_range _ _ _ He); lia|]. rewrite H0.
  destruct (slow_free s w c _ i e head Hfo Hact H0 Ht Hcol Hreq) as (s1 & Hupd & Hdef).
  pose proof (fast_free _ i (MACH_PORT_GEN (hdr_remote_port msg)) head e ltac:(lia) H0 He) as Hfree.
  destruct (table_upd (is_table (k_space s)) i _) as [t1|]; [|done]. cbn beta iota in Hfree.
  destruct (table_upd t1 0 _) as [t2|]; [|done]. cbn beta iota in Hfree. rewrite Hfree. eexists. split; [done|]. cbn beta iota.
  rewrite (general_start env s w c msg 18 0 MACH_MSG_TYPE_MOVE_SEND_ONCE Hr Hp eq_refl eq_refl eq_refl) by (by rewrite Hl).
  rewrite Hl, (proj2 (Z.eqb_neq _ _) (fo_null _ _ _ _ _ _ Hfo)). change (MACH_PORT_VALID MACH_PORT_NULL) with false. cbn [negb].
  unfold header_no_reply. cbn [r_space]. rewrite (fo_lookup _ _ _ _ _ _ Hfo). unfold with_space. cbn [r_world].
  rewrite (copyin_move_once_live s w _ _ (view_of e) q s1 Hact (fo_view _ _ _ _ _ _ Hfo) Hq Ht Hu Hm Ho Ha (Hso eq_refl) Hreq Hupd).
  by rewrite Hdef, header_end_quiet.
Qed.
End Fast.

(** ** Headers without a reply port keep the rights of a space

    [ipc_kmsg_copyin_header] of a one-way message, through its fast paths and the
    general path, is one copyin of the destination. *)

(** ** The general path *)

Section General.
Context {S : Type} {CS : CapSpace S} {CL : CapSpaceLaws S}.
Implicit Types (s : S) (w : world) (c : gmap Z capability).

(** The new header of a one-way message. *)
Definition sent_header (mbits dest_port : Z) (dest_type : mach_msg_type_name) : mach_msg_header :=
  mk_header (Z.lor (MACH_MSGH_BITS_OTHER mbits) (MACH_MSGH_BITS (type_number (ipc_object_copyin_type dest_type)) 0))
    dest_port MACH_PORT_NULL.

Definition sent_result (mbits : Z) (dest_type : mach_msg_type_name) (res : kern_return + option Z) : mach_msg_return + mach_msg_header :=
  match res with
  | inl _ => inl MACH_SEND_INVALID_DEST
  | inr o => inr (sent_header mbits (default IO_DEAD o) dest_type)
  end.

(** The destination of a one-way message is copied in, and nothing else changes. *)
Definition one_way_post self s w c out mbits dest_name dest_type (run : option (rstate S * (mach_msg_return + mach_msg_header))) : Prop :=
  match c !! dest_name with
  | None => exists s', run = Some (mk_rstate s' w, inl MACH_SEND_INVALID_DEST) /\ settled self s' w c out
  | Some cap => compat_dead w cap = false ->
      exists v s' w', the_cap v = cap /\
        let spec := copyin_effect false w v dest_type in
        let c' := put_cap dest_name spec.2 (delete dest_name c) in
        run = Some (mk_rstate s' w', sent_result mbits dest_type spec.1) /\
        settled self s' w' c' (gain spec.1 out) /\ got_right w' c' dest_type spec.1
  end.

(** An entry that is left by a failed copyin has its right. *)
Lemma effect_error_keeps w v mt kr ov : copyin_effect false w v mt = (inl kr, ov) -> ov <> None.
Proof.
  destruct mt; cbn [copyin_effect]; cbv zeta; intros H; repeat (case_match; try done); injection H as _ <-; done.
Qed.

Lemma no_reply_post self s w c out mbits dest_name dest_type :
  settled self s w c out -> is_u32 dest_name -> dest_type <> MACH_MSG_TYPE_MOVE_RECEIVE ->
  (forall p q, w_ports w !! p = Some q -> port_room q) ->
  one_way_post self s w c out mbits dest_name dest_type
    (LET (st2, res) <- header_no_reply (mk_rstate s w) dest_name MACH_PORT_NULL dest_type ;;
     match res with
     | inl mr => Some (st2, inl mr)
     | inr ports => header_end st2 mbits dest_name MACH_PORT_NULL MACH_PORT_NULL IP_NULL dest_type None ports
     end).
Proof.
  intros Hset Hn Hmt Hroom. pose proof Hset as [Hr Hs Hok Hout]. unfold one_way_post, header_no_reply. cbn [r_space].
  destruct (lookup_law s c dest_name Hr Hn) as (s1 & res & Hl & Hr1 & Hs1 & Hres). rewrite Hl.
  assert (settled self s1 w c out) as Hset1 by (constructor; congruence || done).
  destruct res as [r|]; [|rewrite Hres; by exists s1].
  destruct Hres as [v Hh]. destruct (holds_cap s1 c dest_name r v Hr1 Hh) as (Hcap & _ & _). rewrite Hcap, compat_dead_view.
  intros Hcd. exists v. change (with_space s1 (mk_rstate s w)) with (mk_rstate s1 w).
  destruct (copyin_dealloc_post self s1 w c out dest_name r v dest_type false Hset1 Hh Hmt (Hroom _) Hcd)
    as (s2 & s3 & w2 & res & Hcopy & Hsame & Hd & Hset3 & Hgot & Hkeep).
  rewrite Hcopy. change (dealloc_defunct dest_name r (mk_rstate s2 w2)) with
    (LET ent <- cs_entry s2 r ;;
     if ev_type ent =? MACH_PORT_TYPE_NONE then entry_dealloc dest_name r (mk_rstate s2 w2) else Some (mk_rstate s2 w2)).
  rewrite Hd. cbv zeta. destruct (copyin_effect false w v dest_type) as [[kr|o] ov] eqn:Heff, res as [kr'|[o' so]]; cbn in Hsame; try done.
  - rewrite (Hkeep (effect_error_keeps _ _ _ _ _ Heff)) in *. by exists s2, w2.
  - subst o'. cbn [fst snd sent_result header_end]. change (negb (MACH_PORT_NULL =? MACH_PORT_NULL)) with false. cbn [andb].
    rewrite !notify_port_deleted_step. do 2 eexists. split; [done|]. split; [done|]. split; [by do 2 apply settled_notify|exact Hgot].
Qed.
End General.

(** ** The fast paths *)

Section Fast.
Context `{PC : PortConfig}.
Variable its : list Z.
Hypothesis Hits : entries_sizes_ok its.
#[local] Instance one_way_space : CapSpace kstate := kstate_space its.
#[local] Instance one_way_laws : CapSpaceLaws kstate := kstate_laws its Hits.
Implicit Types (s : kstate) (w : world) (c : gmap Z capability).

(** The fast paths for one-way messages give what the general path gives. *)
Lemma one_way_is_general lock_try s w c msg : cs_repr s c -> rights_ok (cs_self s) w c -> is_u32 (hdr_remote_port msg) ->
  MACH_MSGH_BITS_LOCAL (Z.ldiff (hdr_bits msg) MACH_MSGH_BITS_CIRCULAR) = 0 ->
  ipc_kmsg_copyin_header its no_others lock_try id (mk_rstate s w) msg MACH_PORT_NULL =
  copyin_header_general no_others (mk_rstate s w) msg MACH_PORT_NULL.
Proof.
  intros Hr Hok Hd Hl. unfold ipc_kmsg_copyin_header. cbv zeta. change (negb (MACH_PORT_NULL =? MACH_PORT_NULL)) with false. cbn iota.
  destruct (Z.eqb_spec (MACH_MSGH_BITS_PORTS (Z.ldiff (hdr_bits msg) MACH_MSGH_BITS_CIRCULAR))
    (MACH_MSGH_BITS (type_number MACH_MSG_TYPE_COPY_SEND) 0)) as [Hp|_].
  { by destruct (fast_async_general its Hits no_others s w c msg Hr Hok Hd Hp) as ([[st1 msg1]|] & -> & Hg). }
  destruct (Z.eqb_spec (MACH_MSGH_BITS_PORTS (Z.ldiff (hdr_bits msg) MACH_MSGH_BITS_CIRCULAR))
    (MACH_MSGH_BITS (type_number MACH_MSG_TYPE_COPY_SEND) (type_number MACH_MSG_TYPE_MAKE_SEND_ONCE))) as [Hp|_].
  { destruct (remote_bits _ 19 21 Hp) as [_ H21]; [done|done|]. by rewrite Hl in H21. }
  destruct (Z.eqb_spec (MACH_MSGH_BITS_PORTS (Z.ldiff (hdr_bits msg) MACH_MSGH_BITS_CIRCULAR))
    (MACH_MSGH_BITS (type_number MACH_MSG_TYPE_MOVE_SEND_ONCE) 0)) as [Hp|_]; [|done].
  by destruct (fast_reply_general its Hits no_others s w c msg Hr Hok Hd Hp) as ([[st1 msg1]|] & -> & Hg).
Qed.

Lemma any_send_type x t : any_send x = Some t -> t <> MACH_MSG_TYPE_MOVE_RECEIVE.
Proof. unfold any_send. repeat case_match; congruence. Qed.

Lemma one_way_keeps_rights lock_try self s w c out bits dest_name dest_type :
  let mbits := Z.ldiff bits MACH_MSGH_BITS_CIRCULAR in
  settled self s w c out -> is_u32 dest_name -> dest_name <> MACH_PORT_NULL -> (forall p q, w_ports w !! p = Some q -> port_room q) ->
  any_send (MACH_MSGH_BITS_REMOTE mbits) = Some dest_type -> MACH_MSGH_BITS_LOCAL mbits = 0 ->
  one_way_post self s w c out mbits dest_name dest_type
    (ipc_kmsg_copyin_header its no_others lock_try id (mk_rstate s w) (mk_header bits dest_name MACH_PORT_NULL) MACH_PORT_NULL).
Proof.
  intros mbits Hset Hn H0 Hroom Hd Hl. pose proof Hset as [Hr Hs Hok Hout].
  rewrite (one_way_is_general lock_try s w c (mk_header bits dest_name MACH_PORT_NULL)) by (done || by rewrite Hs).
  pose proof (no_reply_post self s w c out mbits dest_name dest_type Hset Hn (any_send_type _ _ Hd) Hroom) as Hpost.
  unfold copyin_header_general. cbn [hdr_bits hdr_remote_port hdr_local_port]. cbv zeta. fold mbits. rewrite Hd, Hl. cbn [r_space].
  rewrite (repr_active s c Hr). cbn [negb]. change (0 =? 0) with true. change (MACH_PORT_NULL =? MACH_PORT_NULL) with true. cbn [negb].
  unfold header_notify. change (MACH_PORT_NULL =? MACH_PORT_NULL) with true. cbn iota.
  rewrite (proj2 (Z.eqb_neq _ _) H0). change (MACH_PORT_VALID MACH_PORT_NULL) with false. cbn [negb]. exact Hpost.
Qed.
End Fast.
