(* ===== verification/IpcKmsgOut.v ===== *)
(** * Message headers (ipc/ipc_kmsg.c): copying out

    [ipc_kmsg_copyout_header] gives the receiver names for the destination and the
    reply port of a message, and [ipc_kmsg_copyout_object] for a right in its
    body.  Like the copyin they have fast paths that work on the table and the
    hash table of the space directly. *)
From S2P Require Import Prelude PortName IpcTable IpcTypes IpcHash IpcEntry IpcMqueue.
From S2P Require Import IpcPort IpcWorld IpcPortOps IpcSpaceInv IpcCap IpcCapSpace IpcRight.
From S2P Require Import IpcRightCopy IpcObject IpcCopyout IpcSend IpcKmsg.

Definition MACH_MSG_IPC_SPACE : Z := 0x00002000.
Definition MACH_MSG_IPC_KERNEL : Z := 0x00000800.

(** The type of a number for which MACH_MSG_TYPE_PORT_ANY_RIGHT holds. *)
Definition any_right (x : Z) : option mach_msg_type_name :=
  if x =? 16 then Some MACH_MSG_TYPE_PORT_RECEIVE
  else if x =? 17 then Some MACH_MSG_TYPE_PORT_SEND
  else if x =? 18 then Some MACH_MSG_TYPE_PORT_SEND_ONCE
  else None.

(** ** The general path *)

Section General.
Context {S : Type} {CS : CapSpace S} {SA : SpaceAlloc S}.
(** [ipc_table_dnrequests]. *)
Variable dits : list Z.

(** What others do in a turn of the loop: while the table of the space grows, after
    the space was unlocked because the port has no room for a request, and while
    the requests of the port grow. *)
Record turn_env := mk_turn_env { te_grow : obj_env; te_unlock : rstate S -> rstate S; te_retry : @retry_env S }.

(** What others do to ports: before the destination is locked, and before the reply
    port is locked again. *)
Record out_env := mk_out_env { oe_dest : world -> world; oe_reply : world -> world }.

(** A turn returns from the function, starts over, finds the reply port dead or has
    an entry for it, with a send-once right for the notify port to be released. *)
Inductive reply_turn :=
| Turn_return (mr : mach_msg_return)
| Turn_again
| Turn_dead
| Turn_entry (name : Z) (ref : entry_ref) (notify_port : Z).

(** [if (notify_port != IP_NULL) ipc_port_release_sonce(notify_port)] *)
Definition release_notify (notify_port : Z) (st : rstate S) : option (rstate S) :=
  if negb (notify_port =? IP_NULL) then on_world (ipc_port_release_sonce notify_port) st else Some st.

(** The port has no room for the request: the new entry is given back and the
    requests grow. *)
Definition reply_grow (env : turn_env) (st : rstate S) (reply name : Z) (ref : entry_ref) (notify_port : Z)
    : option (rstate S * reply_turn) :=
  LET st1 <- on_world (ipc_port_release_sonce notify_port) st ;;
  LET st2 <- entry_dealloc name ref st1 ;;
  let st3 := te_unlock env st2 in
  LET q <- w_ports (r_world st3) !! reply ;;
  if negb (ip_active q) then Some (env_others (te_retry env) st3, Turn_again)
  else
    LET (st4, kr) <- right_dngrow dits (te_retry env) reply st3 ;;
    Some (st4, if bool_decide (kr = KERN_SUCCESS) then Turn_again else Turn_return (MACH_RCV_HEADER_ERROR MACH_MSG_IPC_KERNEL)).

(** An entry for the reply port. *)
Definition reply_entry (env : turn_env) (st : rstate S) (reply : Z) (reply_type : mach_msg_type_name) (notify_port : Z)
    : option (rstate S * reply_turn) :=
  LET (st1, found) <- find_reverse st reply reply_type ;;
  match found with
  | Some (name, ref) =>
      ASSERT has_bit ref MACH_PORT_TYPE_SEND_RECEIVE st1 ;;
      Some (st1, Turn_entry name ref notify_port)
  | None =>
      LET q <- w_ports (r_world st1) !! reply ;;
      if negb (ip_active q) then
        LET st2 <- on_world (ipc_port_release reply) st1 ;;
        LET st3 <- release_notify notify_port st2 ;;
        Some (st3, Turn_dead)
      else
        LET (st2, got) <- entry_get st1 ;;
        match got with
        | None =>
            LET st3 <- release_notify notify_port st2 ;;
            LET (st4, kr) <- entry_grow_table (te_grow env) st3 ;;
            Some (st4,
              if bool_decide (kr = KERN_SUCCESS) then Turn_again
              else Turn_return (MACH_RCV_HEADER_ERROR
                (if bool_decide (kr = KERN_RESOURCE_SHORTAGE) then MACH_MSG_IPC_KERNEL else MACH_MSG_IPC_SPACE)))
        | Some (name, ref) =>
            LET _ <- assert_fresh ref st2 ;;
            if notify_port =? IP_NULL then
              (* not making a dead-name request *)
              LET st3 <- entry_upd ref (v_set_object reply) st2 ;;
              Some (st3, Turn_entry name ref IP_NULL)
            else
              LET (q', request) <- ipc_port_dnrequest q name notify_port ;;
              match request with
              | None => reply_grow env st2 reply name ref notify_port
              | Some request =>
                  LET st3 <- entry_upd ref (fun v => v_set_request request (v_set_object reply v))
                    (with_world (put_port reply q' (r_world st2)) st2) ;;
                  (* don't release the right below *)
                  Some (st3, Turn_entry name ref IP_NULL)
              end
        end
  end.

Definition header_reply_turn (env : turn_env) (st : rstate S) (reply : Z) (reply_type : mach_msg_type_name) (notify : Z)
    : option (rstate S * reply_turn) :=
  if negb (cs_active (r_space st)) then Some (st, Turn_return (MACH_RCV_HEADER_ERROR MACH_MSG_IPC_SPACE))
  else if notify =? MACH_PORT_NULL then reply_entry env st reply reply_type IP_NULL
  else
    LET (st1, notify_port) <- ipc_port_lookup_notify st notify ;;
    if notify_port =? IP_NULL then Some (st1, Turn_return MACH_RCV_INVALID_NOTIFY)
    else reply_entry env st1 reply reply_type notify_port.

(** The loop, with an environment for each turn; [None] when they do not suffice. *)
Fixpoint header_reply_loop (envs : list turn_env) (st : rstate S) (reply : Z) (reply_type : mach_msg_type_name) (notify : Z)
    : option (rstate S * reply_turn) :=
  match envs with
  | [] => None
  | env :: envs' =>
      LET (st1, turn) <- header_reply_turn env st reply reply_type notify ;;
      match turn with
      | Turn_again => header_reply_loop envs' st1 reply reply_type notify
      | _ => Some (st1, turn)
      end
  end.

(** The copyout of a valid reply port: what is left of it, and its name.  A reply
    port that is alive is held by a reference. *)
Definition copyout_reply (envs : list turn_env) (st : rstate S) (reply : Z) (reply_type : mach_msg_type_name) (notify : Z)
    : option (rstate S * (mach_msg_return + Z * Z)) :=
  LET (st1, turn) <- header_reply_loop envs st reply reply_type notify ;;
  match turn with
  | Turn_again => None
  | Turn_return mr => Some (st1, inl mr)
  | Turn_dead => Some (st1, inr (IP_DEAD, MACH_PORT_DEAD))
  | Turn_entry name ref notify_port =>
      LET st2 <- on_world (port_upd reply ip_reference) st1 ;;
      LET (st3, kr) <- ipc_right_copyout st2 name ref reply_type true reply ;;
      ASSERT bool_decide (kr = KERN_SUCCESS) ;;
      LET st4 <- release_notify notify_port st3 ;;
      Some (st4, inr (reply, name))
  end.

(** No reply port. *)
Definition copyout_no_reply (st : rstate S) (reply notify : Z) : option (rstate S * (mach_msg_return + Z * Z)) :=
  if negb (cs_active (r_space st)) then Some (st, inl (MACH_RCV_HEADER_ERROR MACH_MSG_IPC_SPACE))
  else
    LET (st1, res) <- header_notify st notify ;;
    Some (st1, match res with inl _ => inl MACH_RCV_INVALID_NOTIFY | inr _ => inr (reply, reply) end).

(** The receiver's name for the destination. *)
Definition header_dest (env : out_env) (st : rstate S) (dest dest_number reply : Z) : option (rstate S * Z) :=
  LET q <- w_ports (r_world st) !! dest ;;
  if ip_active q then
    LET dest_type <- any_right dest_number ;;
    ipc_object_copyout_dest st dest dest_type
  else
    let timestamp := ip_timestamp q in
    LET st1 <- on_world (ipc_port_release dest) st ;;
    if IP_VALID reply then
      let st2 := others (oe_reply env) st1 in
      LET r <- w_ports (r_world st2) !! reply ;;
      Some (st2, if ip_active r || IP_TIMESTAMP_ORDER timestamp (ip_timestamp r) then MACH_PORT_DEAD else MACH_PORT_NULL)
    else Some (st1, MACH_PORT_DEAD).

Definition copyout_header_general (env : out_env) (envs : list turn_env) (st : rstate S) (msg : mach_msg_header) (notify : Z)
    : option (rstate S * (mach_msg_return + mach_msg_header)) :=
  let mbits := hdr_bits msg in
  let dest := hdr_remote_port msg in
  let reply := hdr_local_port msg in
  let dest_number := MACH_MSGH_BITS_REMOTE mbits in
  let reply_number := MACH_MSGH_BITS_LOCAL mbits in
  LET (st1, res) <-
    (if IP_VALID reply then
       LET reply_type <- any_right reply_number ;;
       copyout_reply envs st reply reply_type notify
     else copyout_no_reply st reply notify) ;;
  match res with
  | inl mr => Some (st1, inl mr)
  | inr (reply, reply_name) =>
      LET (st2, dest_name) <- header_dest env (others (oe_dest env) st1) dest dest_number reply ;;
      LET st3 <- (if IP_VALID reply then on_world (ipc_port_release reply) st2 else Some st2) ;;
      Some (st3, inr (mk_header (Z.lor (MACH_MSGH_BITS_OTHER mbits) (MACH_MSGH_BITS reply_number dest_number)) reply_name dest_name))
  end.

(** [ipc_kmsg_copyout_object] when its fast path does not apply: the flags of the
    error and the name.  An object that is not copied out is destroyed. *)
Definition copyout_object_general (try : bool) (envs : list obj_env) (st : rstate S) (object : Z) (msgt_name : mach_msg_type_name)
    : option (rstate S * (Z * Z)) :=
  LET (st1, res) <- ipc_object_copyout envs st object msgt_name true ;;
  match res with
  | inr name => Some (st1, (0, name))
  | inl kr =>
      LET w <- ipc_object_destroy dits try object msgt_name (r_world st1) ;;
      Some (with_world w st1,
        if bool_decide (kr = KERN_INVALID_CAPABILITY) then (0, MACH_PORT_DEAD)
        else (if bool_decide (kr = KERN_RESOURCE_SHORTAGE) then MACH_MSG_IPC_KERNEL else MACH_MSG_IPC_SPACE, MACH_PORT_NULL))
  end.
End General.

(** ** The fast paths *)

Section Fast.
Context `{PC : PortConfig}.
(** [ipc_table_entries] and [ipc_table_dnrequests]. *)
Variables its dits : list Z.
#[local] Instance out_space : CapSpace kstate := kstate_space its.
#[local] Instance out_alloc : SpaceAlloc kstate := kstate_alloc its.

(** The optimized [ipc_object_copyout_dest] of a send right; [q] is the live port. *)
Definition fast_dest (st : rstate kstate) (dest : Z) (q : ipc_port) : option (rstate kstate * Z) :=
  ASSERT 0 <? ip_srights q ;;
  let q1 := ip_release q in
  let dest_name := if ip_receiver q1 =? self st then ip_receiver_name q1 else MACH_PORT_NULL in
  let '(q2, ns) := dec_srights q1 in
  Some (notify_no_senders ns (with_world (put_port dest q2 (r_world st)) st), dest_name).

(** Receiving an asynchronous message. *)
Definition fast_out_async (st : rstate kstate) (mbits dest : Z) : fast_result :=
  LET q <- w_ports (r_world st) !! dest ;;
  if negb (ip_active q) then Some None
  else
    LET (st1, dest_name) <- fast_dest st dest q ;;
    Some (Some (st1, mk_header (Z.lor (MACH_MSGH_BITS_OTHER mbits) (MACH_MSGH_BITS 0 (type_number MACH_MSG_TYPE_PORT_SEND)))
      MACH_PORT_NULL dest_name)).

(** The optimized [ipc_entry_get] and [ipc_right_copyout] of a send-once right. *)
Definition fast_new_entry (sp : ipc_space) (index reply : Z) : option (ipc_space * Z) :=
  LET entry <- aget (is_table sp) index ;;
  LET t1 <- table_upd (is_table sp) 0 (set_next (ie_next entry)) ;;
  LET t2 <- table_upd t1 index (set_request 0) ;;
  ASSERT Z.ldiff (ie_bits entry) IE_BITS_GEN_MASK =? 0 ;;
  let gen := u32 (ie_bits entry + IE_BITS_GEN_ONE) in
  let reply_name := MACH_PORT_MAKE index gen in
  LET t3 <- table_upd t2 index (set_bits (Z.lor gen (Z.lor MACH_PORT_TYPE_SEND_ONCE 1))) ;;
  ASSERT MACH_PORT_VALID reply_name ;;
  LET t4 <- table_upd t3 index (set_object reply) ;;
  Some (sp_set_table t4 sp, reply_name).

(** Receiving a request message; [lock_try] is what [ip_lock_try] returns. *)
Definition fast_out_request (lock_try : bool) (st : rstate kstate) (mbits dest reply : Z) : fast_result :=
  let sp := k_space (r_space st) in
  if negb (IP_VALID reply) || negb (is_active sp) then Some None
  else
    LET head <- aget (is_table sp) 0 ;;
    let index := ie_next head in
    if index =? 0 then Some None
    else
      LET q <- w_ports (r_world st) !! dest ;;
      if negb (ip_active q) || negb lock_try then Some None
      else
        LET r <- w_ports (r_world st) !! reply ;;
        if negb (ip_active r) then Some None
        else
          ASSERT 0 <? ip_sorights r ;;
          LET (sp', reply_name) <- fast_new_entry sp index reply ;;
          LET (st1, dest_name) <- fast_dest (with_space (mk_kstate sp' (k_ghash (r_space st))) st) dest q ;;
          Some (Some (st1, mk_header (Z.lor (MACH_MSGH_BITS_OTHER mbits)
              (MACH_MSGH_BITS (type_number MACH_MSG_TYPE_PORT_SEND_ONCE) (type_number MACH_MSG_TYPE_PORT_SEND)))
            reply_name dest_name)).

(** Receiving a reply message. *)
Definition fast_out_reply (st : rstate kstate) (mbits dest : Z) : fast_result :=
  LET q <- w_ports (r_world st) !! dest ;;
  if negb (ip_active q) then Some None
  else
    ASSERT 0 <? ip_sorights q ;;
    let '(st1, dest_name) :=
      if ip_receiver q =? self st then
        let q1 := ip_release q in
        (with_world (put_port dest (ip_set_sorights (u32 (ip_sorights q1 - 1)) q1) (r_world st)) st, ip_receiver_name q)
      else (log [Notify_send_once dest] st, MACH_PORT_NULL) in
    Some (Some (st1, mk_header (Z.lor (MACH_MSGH_BITS_OTHER mbits) (MACH_MSGH_BITS 0 (type_number MACH_MSG_TYPE_PORT_SEND_ONCE)))
      MACH_PORT_NULL dest_name)).

Definition ipc_kmsg_copyout_header (env : out_env) (lock_try : bool) (between : rstate kstate -> rstate kstate)
    (envs : list turn_env) (st : rstate kstate) (msg : mach_msg_header) (notify : Z)
    : option (rstate kstate * (mach_msg_return + mach_msg_header)) :=
  let mbits := hdr_bits msg in
  let dest := hdr_remote_port msg in
  let ports := MACH_MSGH_BITS_PORTS mbits in
  ASSERT IP_VALID dest ;;
  LET fast <-
    (if negb (notify =? MACH_PORT_NULL) then Some None
     else if ports =? MACH_MSGH_BITS (type_number MACH_MSG_TYPE_PORT_SEND) 0 then fast_out_async st mbits dest
     else if ports =? MACH_MSGH_BITS (type_number MACH_MSG_TYPE_PORT_SEND) (type_number MACH_MSG_TYPE_PORT_SEND_ONCE)
     then fast_out_request lock_try st mbits dest (hdr_local_port msg)
     else if ports =? MACH_MSGH_BITS (type_number MACH_MSG_TYPE_PORT_SEND_ONCE) 0 then fast_out_reply st mbits dest
     else Some None) ;;
  match fast with
  | Some (st1, msg1) => Some (st1, inr msg1)
  | None => copyout_header_general dits env envs (between st) msg notify
  end.

(** The quick copyout of a send right for a live port that the receiver has a send
    right for in its table. *)
Definition fast_object (st : rstate kstate) (object : Z) : option (option (rstate kstate * Z)) :=
  let sp := k_space (r_space st) in
  if negb (is_active sp) then Some None
  else
    LET q <- w_ports (r_world st) !! object ;;
    if negb (ip_active q) then Some None
    else
      LET found <- ipc_hash_local_lookup (is_table sp) (is_table_size sp) object ;;
      match found with
      | None => Some None
      | Some (name, index) =>
          ASSERT 1 <? ip_srights q ;;
          let q1 := ip_release (ip_set_srights (u32 (ip_srights q - 1)) q) in
          LET entry <- aget (is_table sp) index ;;
          ASSERT bit (ie_bits entry) MACH_PORT_TYPE_SEND ;;
          ASSERT 0 <? IE_BITS_UREFS (ie_bits entry) ;;
          ASSERT IE_BITS_UREFS (ie_bits entry) <? MACH_PORT_UREFS_MAX ;;
          let bits := u32 (ie_bits entry + 1) in
          LET t1 <- (if IE_BITS_UREFS bits <? MACH_PORT_UREFS_MAX then table_upd (is_table sp) index (set_bits bits)
                     else Some (is_table sp)) ;;
          Some (Some (mk_rstate (mk_kstate (sp_set_table t1 sp) (k_ghash (r_space st))) (put_port object q1 (r_world st)), name))
      end.

(** The flags of the error, 0 for none, and the name. *)
Definition ipc_kmsg_copyout_object (between : rstate kstate -> rstate kstate) (try : bool) (envs : list obj_env)
    (st : rstate kstate) (object : Z) (msgt_name : mach_msg_type_name) : option (rstate kstate * (Z * Z)) :=
  if negb (IP_VALID object) then Some (st, (0, object))
  else
    LET fast <- (if bool_decide (msgt_name = MACH_MSG_TYPE_PORT_SEND) then fast_object st object else Some None) ;;
    match fast with
    | Some (st1, name) => Some (st1, (0, name))
    | None => copyout_object_general dits try envs (between st) object msgt_name
    end.
End Fast.
