(* ===== verification/IpcKmsgOutSpec.v ===== *)
(** * The fast paths of the copyout are the general path *)
From S2P Require Import Prelude PortName IpcTable IpcTypes IpcEntry IpcMqueue IpcPort.
From S2P Require Import IpcWorld IpcPortOps IpcSpaceInv IpcEntrySpec IpcCap IpcCapSpace IpcRight.
From S2P Require Import IpcRightCopy IpcRightBits IpcRightInv IpcRightSteps IpcDealloc IpcObject IpcCopyout.
From S2P Require Import IpcCopyin IpcSend IpcKmsg IpcKmsgSpec IpcKmsgOut IpcHash.

(** ** Ports *)

Lemma release_reference q : is_u32 (ip_references q) -> ip_references q + 1 < wordsize -> ip_release (ip_reference q) = q.
Proof.
  intros Hu Hb. unfold ip_release, ip_reference, ip_set_references. cbn. unfold is_u32 in Hu.
  rewrite (u32_small (ip_references q + 1)), u32_small by (unfold is_u32; lia). destruct q; cbn. f_equal; lia.
Qed.

Lemma reference_release q : is_u32 (ip_references q) -> 0 < ip_references q -> ip_reference (ip_release q) = q.
Proof.
  intros Hu Hb. unfold ip_release, ip_reference, ip_set_references. cbn. unfold is_u32 in Hu.
  rewrite (u32_small (ip_references q - 1)), u32_small by (unfold is_u32; lia). destruct q; cbn. f_equal; lia.
Qed.

Lemma put_same p q w : w_ports w !! p = Some q -> put_port p q w = w.
Proof. intros H. unfold put_port. rewrite insert_id by done. by destruct w. Qed.

(** A change of one port around the change of another is undone. *)
Lemma put_back p d r r' q w : p <> d -> w_ports w !! p = Some r -> put_port p r (put_port d q (put_port p r' w)) = put_port d q w.
Proof.
  intros Hne Hr. unfold put_port. cbn. f_equal. apply map_eq. intros k.
  destruct (decide (k = p)) as [->|Hk]; [by rewrite lookup_insert_eq, lookup_insert_ne|].
  rewrite lookup_insert_ne by done. destruct (decide (k = d)) as [->|]; [by rewrite !lookup_insert_eq|]. by rewrite !lookup_insert_ne.
Qed.

Lemma dec_srights_release q : dec_srights (ip_release q) = (ip_release (dec_srights q).1, (dec_srights q).2).
Proof. unfold dec_srights. cbn. destruct (_ =? 0); [|done]. by destruct (negb _). Qed.

Lemma dec_srights_refs q : ip_references (dec_srights q).1 = ip_references q.
Proof. unfold dec_srights. cbn. destruct (_ =? 0); [|done]. by destruct (negb _). Qed.

(** ** The destination *)

Definition undisturbed : out_env := mk_out_env id id.

(** The message carries a right of the type [number] for the port. *)
Definition carries w (number p : Z) : Prop :=
  exists q, w_ports w !! p = Some q /\ (ip_active q = true -> number = 17 /\ 0 < ip_srights q \/ number = 18 /\ 0 < ip_sorights q).

(** The rights and references that the kernel message [msg] has. *)
Record carried w msg : Prop := {
  ca_dest : IP_VALID (hdr_remote_port msg) = true /\ carries w (MACH_MSGH_BITS_REMOTE (hdr_bits msg)) (hdr_remote_port msg);
  ca_reply : IP_VALID (hdr_local_port msg) = true -> carries w (MACH_MSGH_BITS_LOCAL (hdr_bits msg)) (hdr_local_port msg);
  ca_none : MACH_MSGH_BITS_LOCAL (hdr_bits msg) = 0 -> hdr_local_port msg = IP_NULL;
  ca_refs : forall p q, w_ports w !! p = Some q ->
    (if hdr_remote_port msg =? p then 1 else 0) + (if hdr_local_port msg =? p then 1 else 0) <= ip_references q /\
    ip_references q + 1 < wordsize
}.

Section Fast.
Context `{PC : PortConfig}.
Variables its dits : list Z.
Hypothesis Hits : entries_sizes_ok its.
#[local] Instance outspec_space : CapSpace kstate := kstate_space its.
#[local] Instance outspec_laws : CapSpaceLaws kstate := kstate_laws its Hits.
#[local] Instance outspec_alloc : SpaceAlloc kstate := kstate_alloc its.
Implicit Types (s : kstate) (w : world) (c : gmap Z capability) (q : ipc_port) (e : ipc_entry).

(** The world after the copyout of a send right for the destination. *)
Definition dest_sent (dest : Z) q w : world := emit (ns_events (dec_srights (ip_release q)).2) (put_port dest (dec_srights (ip_release q)).1 w).

Definition dest_name (self : Z) q : Z := if ip_receiver q =? self then ip_receiver_name q else MACH_PORT_NULL.

Lemma fast_dest_step s w dest q : 0 < ip_srights q ->
  fast_dest its (mk_rstate s w) dest q = Some (mk_rstate s (dest_sent dest q w), dest_name (cs_self s) q).
Proof using.
  intros Hs. unfold fast_dest, dest_sent. rewrite (proj2 (Z.ltb_lt _ _) Hs). destruct (dec_srights (ip_release q)) as [q2 ns].
  unfold with_world. cbn [r_space r_world]. by rewrite notify_no_senders_step.
Qed.

Lemma copyout_dest_send s w dest q : IP_VALID dest = true -> w_ports w !! dest = Some q -> ip_active q = true -> 0 < ip_srights q ->
  ipc_object_copyout_dest (mk_rstate s w) dest MACH_MSG_TYPE_MOVE_SEND = Some (mk_rstate s (dest_sent dest q w), dest_name (cs_self s) q).
Proof using.
  intros Hv Hq Ha Hs. unfold ipc_object_copyout_dest, dest_sent. cbn [r_world]. rewrite Hv, Hq, Ha.
  unfold drop_srights, with_world. cbn [r_world r_space]. rewrite put_ports.
  change (ip_srights (ip_release q)) with (ip_srights q). rewrite (proj2 (Z.ltb_lt _ _) Hs).
  destruct (dec_srights (ip_release q)) as [q2 ns]. rewrite put_put, notify_no_senders_step. done.
Qed.

Lemma general_dest_send s w dest q reply : IP_VALID dest = true -> w_ports w !! dest = Some q -> ip_active q = true -> 0 < ip_srights q ->
  header_dest undisturbed (mk_rstate s w) dest 17 reply = Some (mk_rstate s (dest_sent dest q w), dest_name (cs_self s) q).
Proof using.
  intros Hv Hq Ha Hs. unfold header_dest. cbn [r_world]. rewrite Hq, Ha. change (any_right 17) with (Some MACH_MSG_TYPE_MOVE_SEND).
  cbn iota beta. by apply copyout_dest_send.
Qed.

(** ** Messages without reply port *)

Lemma no_reply_start env envs s w c msg : cs_repr s c -> hdr_local_port msg = IP_NULL ->
  copyout_header_general dits env envs (mk_rstate s w) msg MACH_PORT_NULL =
  (LET (st2, name) <- header_dest env (others (oe_dest env) (mk_rstate s w)) (hdr_remote_port msg) (MACH_MSGH_BITS_REMOTE (hdr_bits msg)) IP_NULL ;;
   Some (st2, inr (mk_header (Z.lor (MACH_MSGH_BITS_OTHER (hdr_bits msg))
     (MACH_MSGH_BITS (MACH_MSGH_BITS_LOCAL (hdr_bits msg)) (MACH_MSGH_BITS_REMOTE (hdr_bits msg)))) MACH_PORT_NULL name))).
Proof using.
  intros Hr Hn. unfold copyout_header_general. rewrite Hn. change (IP_VALID IP_NULL) with false. cbn iota.
  unfold copyout_no_reply. cbn [r_space]. rewrite (repr_active s c Hr). cbn [negb]. unfold header_notify.
  change (MACH_PORT_NULL =? MACH_PORT_NULL) with true. cbn iota beta. done.
Qed.

Lemma fast_out_async_general s w c msg : cs_repr s c -> carried w msg ->
  MACH_MSGH_BITS_PORTS (hdr_bits msg) = MACH_MSGH_BITS 17 0 ->
  exists res, fast_out_async its (mk_rstate s w) (hdr_bits msg) (hdr_remote_port msg) = Some res /\
    match res with
    | Some (st1, msg1) => forall envs, copyout_header_general dits undisturbed envs (mk_rstate s w) msg MACH_PORT_NULL = Some (st1, inr msg1)
    | None => True
    end.
Proof using.
  intros Hr Hm Hp. destruct (remote_bits _ 17 0 Hp) as [Hrem Hloc]; [done|done|].
  destruct (ca_dest _ _ Hm) as (Hv & q & Hq & Hcar). unfold fast_out_async. cbn [r_world]. rewrite Hq.
  destruct (ip_active q) eqn:Ha; cbn [negb]; [|by exists None].
  assert (0 < ip_srights q) as Hs by (destruct (Hcar eq_refl) as [[_ ?]|[E _]]; [done|by rewrite Hrem in E]).
  rewrite (fast_dest_step s w _ q Hs). eexists. split; [done|]. cbn beta iota. intros envs.
  rewrite (no_reply_start _ envs s w c msg Hr (ca_none _ _ Hm Hloc)), Hrem, Hloc. change (others (oe_dest undisturbed) (mk_rstate s w)) with (mk_rstate s w).
  by rewrite (general_dest_send s w _ q IP_NULL Hv Hq Ha Hs).
Qed.

Lemma fast_out_reply_general s w c msg : cs_repr s c -> carried w msg -> (forall p q, w_ports w !! p = Some q -> port_wf q) ->
  MACH_MSGH_BITS_PORTS (hdr_bits msg) = MACH_MSGH_BITS 18 0 ->
  exists res, fast_out_reply its (mk_rstate s w) (hdr_bits msg) (hdr_remote_port msg) = Some res /\
    match res with
    | Some (st1, msg1) => forall envs, copyout_header_general dits undisturbed envs (mk_rstate s w) msg MACH_PORT_NULL = Some (st1, inr msg1)
    | None => True
    end.
Proof using.
  intros Hr Hm Hwf Hp. destruct (remote_bits _ 18 0 Hp) as [Hrem Hloc]; [done|done|].
  destruct (ca_dest _ _ Hm) as (Hv & q & Hq & Hcar). unfold fast_out_reply. cbn [r_world]. rewrite Hq.
  destruct (ip_active q) eqn:Ha; cbn [negb]; [|by exists None].
  assert (0 < ip_sorights q) as Hs by (destruct (Hcar eq_refl) as [[E _]|[_ ?]]; [by rewrite Hrem in E|done]).
  rewrite (proj2 (Z.ltb_lt _ _) Hs). destruct (Hwf _ _ Hq) as (Hu & _). destruct (ca_refs _ _ Hm _ _ Hq) as [Hrefs _].
  rewrite Z.eqb_refl in Hrefs.
  assert (0 < ip_references q) as Hpos by (destruct (hdr_local_port msg =? hdr_remote_port msg); lia).
  eassert (forall envs, copyout_header_general dits undisturbed envs (mk_rstate s w) msg MACH_PORT_NULL = _) as Hgen
    by (intros envs; exact (no_reply_start _ envs s w c msg Hr (ca_none _ _ Hm Hloc))).
  rewrite Hrem, Hloc in Hgen. change (others (oe_dest undisturbed) (mk_rstate s w)) with (mk_rstate s w) in Hgen. revert Hgen.
  unfold header_dest, ipc_object_copyout_dest. cbn [r_world]. rewrite Hq, Ha. change (any_right 18) with (Some MACH_MSG_TYPE_MOVE_SEND_ONCE).
  cbn iota beta. rewrite Hv. cbn [ip_sorights ip_receiver ip_receiver_name ip_release ip_set_references].
  rewrite (proj2 (Z.ltb_lt _ _) Hs), (reference_release q Hu Hpos), (put_same _ q w Hq).
  change (ip_receiver (ip_release q)) with (ip_receiver q). destruct (ip_receiver q =? self (mk_rstate s w)); intros Hgen; by eexists.
Qed.

(** ** Requests *)

(** What [ipc_entry_get] did when it found an entry. *)
Record got sp sp' (name i : Z) e : Prop := {
  go_head : exists head, aget (is_table sp) 0 = Some head /\ i = ie_next head /\ i <> 0 /\
    sp' = sp_set_table (aset (aset (is_table sp) 0 (set_next (ie_next e) head)) i (mk_entry (u32 (ie_bits e + IE_BITS_GEN_ONE)) IO_NULL 0 (ie_index e))) sp;
  go_entry : aget (is_table sp) i = Some e;
  go_bits : Z.ldiff (ie_bits e) IE_BITS_GEN_MASK = 0;
  go_name : name = MACH_PORT_MAKE i (u32 (ie_bits e + IE_BITS_GEN_ONE)) /\ MACH_PORT_VALID name = true;
  go_object : ie_object e = IO_NULL
}.

Lemma entry_get_parts sp sp' name i : ipc_entry_get sp = Some (sp', Some (name, i)) -> exists e, got sp sp' name i e.
Proof using.
  unfold ipc_entry_get. destruct (is_active sp); [|done]. destruct (aget (is_table sp) 0) as [head|] eqn:H0; [|done].
  destruct (Z.eqb_spec (ie_next head) 0) as [|Hne]; [done|]. destruct (aget (is_table sp) (ie_next head)) as [e|] eqn:He; [|done].
  rewrite (table_upd_Some _ _ _ _ H0). destruct (Z.eqb_spec (Z.ldiff (ie_bits e) IE_BITS_GEN_MASK) 0); [|done].
  rewrite (table_upd_Some _ (ie_next head) _ e) by (by rewrite aget_aset_ne).
  destruct (MACH_PORT_VALID _) eqn:Hv; [|done]. destruct (Z.eqb_spec (ie_object e) IO_NULL) as [Ho|]; [|done].
  intros [= <- <- <-]. exists e. constructor; try done. exists head. split_and!; try done. f_equal. f_equal.
  unfold set_request, set_bits. cbn. by rewrite Ho.
Qed.

(** The table with the send-once right. *)
Definition reply_space sp (i : Z) e (reply : Z) (head : ipc_entry) : ipc_space :=
  sp_set_table (aset (aset (is_table sp) 0 (set_next (ie_next e) head)) i
    (mk_entry (Z.lor (u32 (ie_bits e + IE_BITS_GEN_ONE)) (Z.lor MACH_PORT_TYPE_SEND_ONCE 1)) reply 0 (ie_index e))) sp.

Lemma fast_new_entry_step sp sp' name i e head reply : got sp sp' name i e -> aget (is_table sp) 0 = Some head ->
  fast_new_entry sp i reply = Some (reply_space sp i e reply head, name).
Proof using.
  intros [(head' & H0' & Hi & Hne & _) He Hb [Hn Hv] Ho] H0. rewrite H0 in H0'. injection H0' as <-.
  pose proof (aget_Some_range _ _ _ He) as Hri. unfold fast_new_entry. rewrite He, (table_upd_Some _ _ _ _ H0).
  rewrite (table_upd_Some _ i _ e) by (by rewrite aget_aset_ne). rewrite Hb. cbn [Z.eqb].
  assert (forall x, aget (aset (aset (is_table sp) 0 (set_next (ie_next e) head)) i x) i = Some x) as Hget.
  { intros x. rewrite aget_aset_eq; [done|]. by rewrite alen_aset. }
  rewrite (table_upd_Some _ i _ _ (Hget _)), aset_aset_eq, <- Hn, Hv, (table_upd_Some _ i _ _ (Hget _)), aset_aset_eq. done.
Qed.

(** An entry is stored as it is read. *)
Lemma table_store sp g i e f w : aget (is_table sp) i = Some e ->
  entry_upd (InTable i) f (mk_rstate (mk_kstate sp g) w) =
    Some (mk_rstate (mk_kstate (sp_set_table (aset (is_table sp) i (write_entry (f (view_of e)) e)) sp) g) w).
Proof using.
  intros He. unfold entry_upd. cbn. rewrite He. cbn. by rewrite (table_upd_Some _ _ _ _ He).
Qed.

Lemma entry_get_found s c head : cs_repr s c -> aget (is_table (k_space s)) 0 = Some head -> ie_next head <> 0 ->
  exists sp' name e, ipc_entry_get (k_space s) = Some (sp', Some (name, ie_next head)) /\ got (k_space s) sp' name (ie_next head) e /\
    IE_BITS_TYPE (u32 (ie_bits e + IE_BITS_GEN_ONE)) = MACH_PORT_TYPE_NONE.
Proof using.
  intros [Hwf _] H0 Hne. destruct s as [sp g]. cbn [k_space] in *. destruct (ipc_entry_get_correct its Hits sp g Hwf) as (sp' & res & Hg & Hres).
  destruct res as [[name i]|].
  - destruct (entry_get_parts _ _ _ _ Hg) as [e He]. pose proof He as [(head' & H0' & Hi & _ & Hsp) Hge _ _ _]. rewrite H0 in H0'. injection H0' as <-.
    subst i. exists sp', name, e. split_and!; [done|done|]. destruct Hres as (_ & _ & _ & (e' & Hge' & Hbits & _) & _).
    rewrite Hsp in Hge'. cbn in Hge'. rewrite aget_aset_eq in Hge' by (rewrite alen_aset; by eapply aget_Some_range).
    injection Hge' as <-. cbn in Hbits. rewrite Hbits, <- type_right, gen_right. done.
  - exfalso. clear Hres. unfold ipc_entry_get in Hg. destruct (is_active sp); [|done]. rewrite H0, (proj2 (Z.eqb_neq _ _) Hne) in Hg.
    repeat (case_match; try done).
Qed.

Lemma copyout_reply_step s w c reply r head : cs_repr s c -> IP_VALID reply = true -> w_ports w !! reply = Some r ->
  ip_active r = true -> 0 < ip_sorights r -> aget (is_table (k_space s)) 0 = Some head -> ie_next head <> 0 ->
  exists sp' name e, got (k_space s) sp' name (ie_next head) e /\
    forall env envs, copyout_reply dits (env :: envs) (mk_rstate s w) reply MACH_MSG_TYPE_MOVE_SEND_ONCE MACH_PORT_NULL =
      Some (mk_rstate (mk_kstate (reply_space (k_space s) (ie_next head) e reply head) (k_ghash s)) (put_port reply (ip_reference r) w),
        inr (reply, name)).
Proof using.
  intros Hr Hv Hq Ha Hso H0 Hne. destruct (entry_get_found s c head Hr H0 Hne) as (sp' & name & e & Hg & He & Hty).
  exists sp', name, e. split; [done|]. intros env envs. pose proof He as [(head' & H0' & _ & _ & Hsp) Hge _ _ _]. rewrite H0 in H0'. injection H0' as <-.
  unfold copyout_reply, header_reply_loop, header_reply_turn. cbn [r_space]. rewrite (repr_active s c Hr). cbn [negb].
  change (MACH_PORT_NULL =? MACH_PORT_NULL) with true. cbn iota. unfold reply_entry, find_reverse.
  rewrite bool_decide_eq_true_2 by done. cbn iota beta. cbn [r_world]. rewrite Hq, Ha. cbn [negb].
  unfold entry_get. cbn [sp_get outspec_alloc kstate_alloc r_space]. rewrite Hg. cbn iota beta. unfold with_space. cbn [r_world].
  pose proof (aget_Some_range _ _ _ Hge) as Hri. set (g := k_ghash s). set (i := ie_next head) in *.
  set (t := aset (is_table (k_space s)) 0 (set_next (ie_next e) head)) in *. set (gen := u32 (ie_bits e + IE_BITS_GEN_ONE)) in *.
  assert (forall x, aget (aset t i x) i = Some x) as Hget by (intros x; rewrite aget_aset_eq; [done|unfold t; by rewrite alen_aset]).
  subst sp'. unfold assert_fresh. cbn. rewrite Hget. cbn. unfold ev_type. cbn. rewrite Hty.
  change (MACH_PORT_TYPE_NONE =? MACH_PORT_TYPE_NONE) with true. change (IO_NULL =? IO_NULL) with true. cbn iota beta.
  rewrite (table_store _ g i (mk_entry gen IO_NULL 0 (ie_index e))) by (cbn; apply Hget). cbn [is_table sp_set_table]. rewrite aset_aset_eq.
  cbn iota beta. unfold on_world, port_upd. cbn [r_world]. rewrite Hq. unfold with_world. cbn [r_space].
  unfold ipc_right_copyout. cbn [r_space r_world]. cbn -[put_port]. rewrite Hget. cbn -[put_port]. rewrite Hv, put_ports.
  change (ip_active (ip_reference r)) with (ip_active r). change (ip_sorights (ip_reference r)) with (ip_sorights r).
  rewrite Ha, Z.eqb_refl, Hty, (proj2 (Z.ltb_lt _ _) Hso). change (MACH_PORT_TYPE_NONE =? MACH_PORT_TYPE_NONE) with true. cbn iota beta.
  rewrite (table_store _ g i (mk_entry gen reply 0 (ie_index e))) by (cbn; apply Hget). cbn [is_table sp_set_table]. rewrite aset_aset_eq.
  rewrite bool_decide_eq_true_2 by done. done.
Qed.

(** The destination and the release of the reply port, which is held meanwhile. *)
Lemma dest_and_release s w dest q reply r : IP_VALID dest = true -> w_ports w !! dest = Some q -> ip_active q = true -> 0 < ip_srights q ->
  w_ports w !! reply = Some r -> is_u32 (ip_references r) -> ip_references r + 1 < wordsize ->
  (if dest =? reply then 2 else 1) <= ip_references r ->
  exists st1, header_dest undisturbed (mk_rstate s (put_port reply (ip_reference r) w)) dest 17 reply = Some (st1, dest_name (cs_self s) q) /\
    on_world (ipc_port_release reply) st1 = Some (mk_rstate s (dest_sent dest q w)).
Proof using.
  intros Hv Hq Ha Hs Hr Hu Hb Hrefs. pose proof (release_reference r Hu Hb) as Hrel. destruct (Z.eqb_spec dest reply) as [->|Hne].
  - rewrite Hq in Hr. injection Hr as <-.
    rewrite (general_dest_send s _ reply (ip_reference q) reply Hv (put_ports _ _ _)) by done. eexists. split; [done|].
    unfold on_world, dest_sent. cbn [r_world]. rewrite Hrel, put_put, dec_srights_release.
    rewrite (port_release_step reply (dec_srights q).1); [|rewrite emit_ports; apply put_ports|rewrite dec_srights_refs; lia].
    unfold released. assert (ip_references (ip_release (dec_srights q).1) <> 0) as Hnz.
    { cbn. rewrite dec_srights_refs, u32_small by (unfold is_u32 in *; lia). lia. }
    rewrite (proj2 (Z.eqb_neq _ _) Hnz), put_emit, put_put. done.
  - rewrite (general_dest_send s _ dest q reply Hv) by (done || by cbn; rewrite lookup_insert_ne). eexists. split; [done|].
    unfold on_world, dest_sent. cbn [r_world].
    rewrite (port_release_step reply (ip_reference r)).
    + unfold released. rewrite Hrel, (proj2 (Z.eqb_neq (ip_references r) 0)) by lia. rewrite put_emit, (put_back _ _ _ _ _ w) by done. done.
    + rewrite emit_ports. cbn. by rewrite lookup_insert_ne, lookup_insert_eq by done.
    + cbn. rewrite u32_small by (unfold is_u32 in *; lia). unfold is_u32 in Hu. lia.
Qed.

Lemma fast_out_request_general lock_try s w c msg : cs_repr s c -> carried w msg -> (forall p q, w_ports w !! p = Some q -> port_wf q) ->
  MACH_MSGH_BITS_PORTS (hdr_bits msg) = MACH_MSGH_BITS 17 18 ->
  exists res, fast_out_request its lock_try (mk_rstate s w) (hdr_bits msg) (hdr_remote_port msg) (hdr_local_port msg) = Some res /\
    match res with
    | Some (st1, msg1) => forall env envs, copyout_header_general dits undisturbed (env :: envs) (mk_rstate s w) msg MACH_PORT_NULL = Some (st1, inr msg1)
    | None => True
    end.
Proof using.
  intros Hr Hm Hwf Hp. destruct (remote_bits _ 17 18 Hp) as [Hrem Hloc]; [done|done|].
  destruct (ca_dest _ _ Hm) as (Hv & q & Hq & Hcar). unfold fast_out_request. cbn [r_space r_world].
  destruct (IP_VALID (hdr_local_port msg)) eqn:Hvr; cbn [negb orb]; [|by exists None].
  rewrite (repr_active s c Hr : is_active (k_space s) = true). cbn [negb].
  destruct (aget_is_Some (is_table (k_space s)) 0) as [head H0]; [destruct Hr as [H _]; destruct (size_range its Hits _ _ H); lia|]. rewrite H0.
  destruct (Z.eqb_spec (ie_next head) 0) as [|Hne]; [by exists None|]. rewrite Hq.
  destruct (ip_active q) eqn:Ha, lock_try; cbn [negb orb]; try (by exists None).
  destruct (ca_reply _ _ Hm Hvr) as (r & Hq' & Hcar'). rewrite Hq'. destruct (ip_active r) eqn:Ha'; cbn [negb]; [|by exists None].
  assert (0 < ip_srights q) as Hs by (destruct (Hcar eq_refl) as [[_ ?]|[E _]]; [done|by rewrite Hrem in E]).
  assert (0 < ip_sorights r) as Hso by (destruct (Hcar' eq_refl) as [[E _]|[_ ?]]; [by rewrite Hloc in E|done]).
  rewrite (proj2 (Z.ltb_lt _ _) Hso).
  destruct (copyout_reply_step s w c _ r head Hr Hvr Hq' Ha' Hso H0 Hne) as (sp' & name & e & Hgot & Hcr).
  rewrite (fast_new_entry_step _ _ _ _ _ head _ Hgot H0). unfold with_space. cbn [r_world]. rewrite fast_dest_step by done.
  eexists. split; [done|]. cbn beta iota. intros env envs. unfold copyout_header_general. rewrite Hvr, Hrem, Hloc. change (any_right 18) with (Some MACH_MSG_TYPE_MOVE_SEND_ONCE).
  cbn iota beta. rewrite Hcr. cbn iota beta. destruct (ca_refs _ _ Hm _ _ Hq') as [Hrefs Hb]. rewrite Z.eqb_refl in Hrefs.
  edestruct (dest_and_release (mk_kstate (reply_space (k_space s) (ie_next head) e (hdr_local_port msg) head) (k_ghash s)) w _ q _ r Hv Hq Ha Hs Hq')
    as (st1 & Hd & Hrel); [apply (Hwf _ _ Hq')|done|destruct (hdr_remote_port msg =? hdr_local_port msg); lia|].
  change (others (oe_dest undisturbed) ?st) with st. rewrite Hd. cbn iota beta. by rewrite Hvr, Hrel.
Qed.

(** ** Rights in the body *)

Lemma lor_send b : bit b MACH_PORT_TYPE_SEND = true -> Z.lor b MACH_PORT_TYPE_SEND = b.
Proof using.
  intros Hb. apply Z.bits_inj'. intros k Hk. rewrite Z.lor_spec. change MACH_PORT_TYPE_SEND with (2 ^ 16) in *. rewrite Z.pow2_bits_eqb by lia.
  destruct (Z.eqb_spec 16 k) as [<-|]; [|apply orb_false_r]. rewrite orb_true_r. symmetry. apply not_false_is_true. intros H16.
  unfold bit in Hb. replace (Z.land b (2 ^ 16)) with 0 in Hb; [done|]. symmetry. apply Z.bits_inj'. intros j Hj.
  rewrite Z.land_spec, Z.pow2_bits_eqb, Z.bits_0 by lia. destruct (Z.eqb_spec 16 j) as [<-|]; [by rewrite H16|apply andb_false_r].
Qed.

(** What the local hash table says of a live port. *)
Lemma local_found s w c object q name i : cs_repr s c -> rights_ok (cs_self s) w c -> object <> IO_NULL -> w_ports w !! object = Some q ->
  ip_active q = true -> ipc_hash_local_lookup (is_table (k_space s)) (is_table_size (k_space s)) object = Some (Some (name, i)) ->
  exists e, aget (is_table (k_space s)) i = Some e /\ is_u32 (ie_bits e) /\ ie_object e = object /\ c !! name = Some (the_cap (view_of e)) /\
    ev_type (view_of e) = MACH_PORT_TYPE_SEND /\ 0 < urefs (view_of e) < MACH_PORT_UREFS_MAX /\ ip_receiver q <> cs_self s /\ has_send c object.
Proof using.
  intros Hr Hok Ho Hq Ha Hl. destruct (hash_lookup_law s c object Hr Ho) as (s' & res & Hh & _ & _ & Hres).
  cbn in Hh. unfold ipc_hash_lookup in Hh. rewrite Hl in Hh. injection Hh as <- <-. destruct Hres as (v & Hv & Hobj & Hty).
  destruct (holds_cap s c name _ v Hr Hv) as (Hc & Hub & Hent). cbn in Hent.
  destruct (aget (is_table (k_space s)) i) as [e|] eqn:He; [|done]. cbn in Hent. injection Hent as <-. exists e.
  pose proof (proj1 (entry_ok_cap _ _ _ _) (ro_caps _ _ _ Hok name _ Hc)) as Hek.
  destruct Hek as [Ht|? Ht|q' _ Hq' _ Hrok]; [by rewrite Ht in Hty|by rewrite Ht in Hty|]. rewrite Hobj, Hq in Hq'. injection Hq' as <-.
  destruct Hrok as [_ Hu Hx|Ht|Ht|Ht]; [|by rewrite Ht in Hty|by rewrite Ht in Hty|by rewrite Ht in Hty]. destruct (Hx Ha) as [_ Hnr].
  split_and!; [done|done|done|done|done|apply Hu|apply Hu|done|]. exists name, (the_cap (view_of e)). split; [done|]. unfold for_port, cap_type. cbn.
  rewrite type_right. change (IE_BITS_TYPE (ie_bits e)) with (ev_type (view_of e)). rewrite Hty. cbn in Hobj. by rewrite Hobj, Z.eqb_refl.
Qed.

Lemma fast_object_general try s w c object q : cs_repr s c -> rights_ok (cs_self s) w c -> IP_VALID object = true ->
  w_ports w !! object = Some q -> (ip_active q = true -> naked w c MACH_MSG_TYPE_MOVE_SEND object) ->
  exists res, fast_object (mk_rstate s w) object = Some res /\
    match res with
    | Some (st1, name) => forall envs, copyout_object_general dits try envs (mk_rstate s w) object MACH_MSG_TYPE_MOVE_SEND = Some (st1, (0, name))
    | None => True
    end.
Proof using.
  intros Hr Hok Hv Hq Hnk. assert (object <> IO_NULL) as Ho by (intros ->; done).
  unfold fast_object. cbn [r_space r_world]. pose proof (repr_active s c Hr) as Hact. rewrite (Hact : is_active (k_space s) = true). cbn [negb]. rewrite Hq.
  destruct (ip_active q) eqn:Ha; cbn [negb]; [|by exists None].
  destruct (hash_lookup_law s c object Hr Ho) as (s' & res & Hh & _ & _ & _). cbn in Hh. unfold ipc_hash_lookup in Hh.
  destruct (ipc_hash_local_lookup (is_table (k_space s)) (is_table_size (k_space s)) object) as [[[name i]|]|] eqn:Hl; [|by exists None|done].
  clear Hh s' res.
  destruct (local_found s w c object q name i Hr Hok Ho Hq Ha Hl) as (e & He & Hub & Hobj & Hc & Hty & Hu & Hnr & Hsend).
  destruct (Hnk eq_refl) as (q' & Hq' & _ & Hpos & Hmore). rewrite Hq in Hq'. injection Hq' as <-. pose proof (Hmore Hsend) as H1.
  assert (bit (ie_bits e) MACH_PORT_TYPE_SEND = true) as Hb by (change (ie_bits e) with (ev_bits (view_of e)); by rewrite bit_ev_type, Hty).
  assert (Z.lor (ie_bits e) MACH_PORT_TYPE_SEND = ie_bits e) as Hlor by (by apply lor_send).
  unfold urefs in Hu. cbn [view_of ev_bits] in Hu.
  assert (IE_BITS_UREFS (u32 (ie_bits e + 1)) = IE_BITS_UREFS (ie_bits e) + 1) as Hu1 by (apply add_urefs; [done|lia]).
  rewrite (proj2 (Z.ltb_lt _ _) H1), He, Hb, !(proj2 (Z.ltb_lt _ _)), Hu1 by lia.
  assert (forall st1 kr, ipc_right_copyout (mk_rstate s w) name (InTable i) MACH_MSG_TYPE_MOVE_SEND true object = Some (st1, kr) -> kr = KERN_SUCCESS ->
    forall envs, copyout_object_general dits try envs (mk_rstate s w) object MACH_MSG_TYPE_MOVE_SEND = Some (st1, (0, name))) as Hgen.
  { intros st1 kr Hco -> envs. unfold copyout_object_general, ipc_object_copyout. rewrite Hv. cbn [r_world]. rewrite Hq.
    assert (copyout_entry envs (mk_rstate s w) object MACH_MSG_TYPE_MOVE_SEND = Some (mk_rstate s w, inr (name, InTable i))) as ->.
    { assert (find_reverse (mk_rstate s w) object MACH_MSG_TYPE_MOVE_SEND = Some (mk_rstate s w, Some (name, InTable i))) as Hf.
      { unfold find_reverse. rewrite bool_decide_eq_false_2 by done. unfold ipc_right_reverse. cbn [r_space r_world]. rewrite Hact, Hq, Ha. cbn [negb].
        unfold self. cbn [r_space]. rewrite (proj2 (Z.eqb_neq _ _) Hnr). cbn [cs_hash_lookup outspec_space kstate_space]. unfold ipc_hash_lookup. rewrite Hl.
        cbn. rewrite He. cbn. unfold ev_type in Hty |- *. cbn in Hty |- *. by rewrite Hty, Hobj, !Z.eqb_refl. }
      assert (bit (ie_bits e) MACH_PORT_TYPE_SEND_RECEIVE = true) as Hbsr by (change (ie_bits e) with (ev_bits (view_of e)); by rewrite bit_ev_type, Hty).
      destruct envs; cbn [copyout_entry r_space]; rewrite Hact; cbn [negb]; rewrite Hf; cbn; rewrite He; cbn; by rewrite Hbsr. }
    cbn iota beta. rewrite Hco. by rewrite bool_decide_eq_true_2. }
  unfold ipc_right_copyout, copyout_send in Hgen. cbn in Hgen. rewrite He in Hgen. cbn in Hgen. rewrite Hv, Hq, Ha, Hobj, Z.eqb_refl, Hb, Hlor in Hgen.
  rewrite (proj2 (Z.ltb_lt _ _) Hpos), (proj2 (Z.ltb_lt _ _) H1), !(proj2 (Z.ltb_lt _ _)) in Hgen by lia.
  destruct (Z.eqb_spec (IE_BITS_UREFS (ie_bits e) + 1) MACH_PORT_UREFS_MAX) as [E|E]; cbn [andb] in Hgen.
  - rewrite (proj2 (Z.ltb_ge (IE_BITS_UREFS (ie_bits e) + 1) _)) by lia. eexists. split; [done|]. cbn beta iota. intros envs. rewrite (Hgen _ _ eq_refl eq_refl).
    destruct s as [sp g]. by destruct sp.
  - rewrite (proj2 (Z.ltb_lt (IE_BITS_UREFS (ie_bits e) + 1) _)) by lia. rewrite (table_upd_Some _ _ _ _ He). eexists. split; [done|].
    cbn beta iota. destruct s as [sp g]. cbn [k_space k_ghash r_world r_space] in *. unfold with_world in Hgen. cbn [r_space] in Hgen.
    rewrite (table_store sp g i e) in Hgen by done. by apply (Hgen _ _ eq_refl).
Qed.
End Fast.
