(* ===== verification/IpcKmsgThms.v ===== *)
(** * Message headers: what [ipc_kmsg_copyin_header] promises *)
From S2P Require Import Prelude PortName IpcSplay IpcTable IpcTypes IpcHash IpcEntry.
From S2P Require Import IpcSpaceInv IpcEntrySpec IpcSpace IpcEntryThms IpcCap IpcCapSpace IpcMqueue.
From S2P Require Import IpcPort IpcWorld IpcPortOps IpcRight IpcRightBits IpcSend IpcRightCopy.
From S2P Require Import IpcRightInv IpcRightSteps IpcDealloc IpcRightThms IpcCopyin IpcKmsg IpcKmsgSpec.
From S2P Require Import IpcRequests IpcObject IpcCopyout IpcObjectThms IpcKmsgOut IpcKmsgOutSpec.

Section Theorems.
Context `{PC : PortConfig}.
Variable its : list Z.
Hypothesis Hits : entries_sizes_ok its.
#[local] Instance header_space : CapSpace kstate := kstate_space its.
#[local] Instance header_laws : CapSpaceLaws kstate := kstate_laws its Hits.

(** C26: the fast paths of [ipc_kmsg_copyin_header] are sound: in a space whose
    entries agree with the ports, a fast path fails no assertion, and when it
    succeeds, the table, the ports, the free list and the new header are exactly
    those of the general path, run without interference at that moment; when it
    does not apply, the general path runs on what others left meanwhile. *)
Theorem copyin_header_fast_is_general env lock_try between (s : kstate) w c msg notify :
  cs_repr s c -> rights_ok (cs_self s) w c -> is_u32 (hdr_remote_port msg) -> is_u32 (hdr_local_port msg) ->
  w_ports w !! IP_DEAD = None -> (forall p q, w_ports w !! p = Some q -> ip_references q + 2 < wordsize) ->
  let run := ipc_kmsg_copyin_header its env lock_try between (mk_rstate s w) msg notify in
  run = copyin_header_general env (between (mk_rstate s w)) msg notify \/
  exists st1 msg1, run = Some (st1, inr msg1) /\ copyin_header_general no_others (mk_rstate s w) msg notify = Some (st1, inr msg1).
Proof.
  intros Hr Hok Hd Hl Hdead Hrefs. cbv zeta. unfold ipc_kmsg_copyin_header. cbv zeta.
  destruct (Z.eqb_spec notify MACH_PORT_NULL) as [->|]; cbn [negb]; [|by left].
  destruct (Z.eqb_spec (MACH_MSGH_BITS_PORTS (Z.ldiff (hdr_bits msg) MACH_MSGH_BITS_CIRCULAR))
    (MACH_MSGH_BITS (type_number MACH_MSG_TYPE_COPY_SEND) 0)) as [Hp|_].
  { destruct (fast_async_general its Hits no_others s w c msg Hr Hok Hd Hp) as ([[st1 msg1]|] & -> & Hg); [right|by left]. by exists st1, msg1. }
  destruct (Z.eqb_spec (MACH_MSGH_BITS_PORTS (Z.ldiff (hdr_bits msg) MACH_MSGH_BITS_CIRCULAR))
    (MACH_MSGH_BITS (type_number MACH_MSG_TYPE_COPY_SEND) (type_number MACH_MSG_TYPE_MAKE_SEND_ONCE))) as [Hp|_].
  { destruct (fast_request_general its Hits lock_try s w c msg Hr Hok Hd Hl Hdead Hrefs Hp) as ([[st1 msg1]|] & -> & Hg); [right|by left].
    by exists st1, msg1. }
  destruct (Z.eqb_spec (MACH_MSGH_BITS_PORTS (Z.ldiff (hdr_bits msg) MACH_MSGH_BITS_CIRCULAR))
    (MACH_MSGH_BITS (type_number MACH_MSG_TYPE_MOVE_SEND_ONCE) 0)) as [Hp|_]; [|by left].
  destruct (fast_reply_general its Hits no_others s w c msg Hr Hok Hd Hp) as ([[st1 msg1]|] & -> & Hg); [right|by left]. by exists st1, msg1.
Qed.

(** [ipc_kmsg_copyin_header] of a message without reply port, through the fast
    paths or the general path, fails no assertion and is one copyin of the
    destination.  A name without a right, and a right that does not fit the type
    or is dead, give MACH_SEND_INVALID_DEST; a death that was noticed leaves a dead
    name.  Otherwise the header gets the port of the name and the received type,
    and the message holds one reference and one right that no entry accounts for,
    whether the right was moved, copied or made; an entry that gave its last right
    away is gone, the other names keep their capabilities, and the rights of the
    space still agree with the ports. *)
Lemma copyin_header_one_way lock_try self (s : kstate) w c out bits dest_name dest_type :
  let mbits := Z.ldiff bits MACH_MSGH_BITS_CIRCULAR in
  let run := ipc_kmsg_copyin_header its no_others lock_try id (mk_rstate s w) (mk_header bits dest_name MACH_PORT_NULL) MACH_PORT_NULL in
  settled self s w c out -> is_u32 dest_name -> dest_name <> MACH_PORT_NULL -> (forall p q, w_ports w !! p = Some q -> port_room q) ->
  any_send (MACH_MSGH_BITS_REMOTE mbits) = Some dest_type -> MACH_MSGH_BITS_LOCAL mbits = 0 ->
  match c !! dest_name with
  | None => exists s', run = Some (mk_rstate s' w, inl MACH_SEND_INVALID_DEST) /\ settled self s' w c out
  | Some cap => compat_dead w cap = false ->
      exists v s' w', the_cap v = cap /\
        let spec := copyin_effect false w v dest_type in
        let c' := put_cap dest_name spec.2 (delete dest_name c) in
        run = Some (mk_rstate s' w', sent_result mbits dest_type spec.1) /\
        settled self s' w' c' (gain spec.1 out) /\ got_right w' c' dest_type spec.1
  end.
Proof. intros mbits run. apply one_way_keeps_rights. Qed.
End Theorems.

(** ** A message to the sample port *)

#[local] Existing Instance pc0.
#[local] Instance sample_space : CapSpace kstate := kstate_space its0.
#[local] Instance sample_laws : CapSpaceLaws kstate := kstate_laws its0 its0_ok.

Lemma copyin_header_fast_is_general_witness :
  let msg := mk_header (MACH_MSGH_BITS 19 0) 0x100 MACH_PORT_NULL in
  let run := ipc_kmsg_copyin_header its0 no_others true id (mk_rstate sent0 world0) msg MACH_PORT_NULL in
  run = copyin_header_general no_others (mk_rstate sent0 world0) msg MACH_PORT_NULL \/
  exists st1 msg1, run = Some (st1, inr msg1) /\
    copyin_header_general no_others (mk_rstate sent0 world0) msg MACH_PORT_NULL = Some (st1, inr msg1).
Proof.
  apply (copyin_header_fast_is_general its0 its0_ok no_others true id sent0 world0 caps0 (mk_header (MACH_MSGH_BITS 19 0) 0x100 MACH_PORT_NULL)).
  - exact (proj1 sent0_repr).
  - exact (eq_ind_r (fun x => rights_ok x world0 caps0) (se_ok _ _ _ _ _ sent0_settled) (proj2 (proj2 sent0_repr))).
  - done.
  - done.
  - done.
  - intros p q H. cbn in H. apply lookup_singleton_Some in H as [_ <-]. done.
Defined.

(** The fast path is taken. *)
Example fast_async_taken :
  (snd <$> ipc_kmsg_copyin_header its0 no_others true id (mk_rstate sent0 world0)
     (mk_header (MACH_MSGH_BITS 19 0) 0x100 MACH_PORT_NULL) MACH_PORT_NULL) =
  Some (inr (mk_header (MACH_MSGH_BITS 17 0) 0x1000 MACH_PORT_NULL)).
Proof. vm_compute. reflexivity. Qed.

(** Its send right moved, the space has one user reference left. *)
Lemma copyin_header_one_way_witness :
  exists v s' w', the_cap v = the_cap send0 /\
    let spec := copyin_effect false world0 v MACH_MSG_TYPE_MOVE_SEND in
    let c' := put_cap 0x100 spec.2 (delete 0x100 caps0) in
    ipc_kmsg_copyin_header its0 no_others true id (mk_rstate sent0 world0) (mk_header 17 0x100 MACH_PORT_NULL) MACH_PORT_NULL =
      Some (mk_rstate s' w', sent_result 17 MACH_MSG_TYPE_MOVE_SEND spec.1) /\
    settled 0x40 s' w' c' (gain spec.1 (outside world0 caps0)) /\ got_right w' c' MACH_MSG_TYPE_MOVE_SEND spec.1.
Proof.
  pose proof (copyin_header_one_way its0 its0_ok true 0x40 sent0 world0 caps0 (outside world0 caps0) 17 0x100 MACH_MSG_TYPE_MOVE_SEND
    sent0_settled) as H.
  assert (caps0 !! 0x100 = Some (the_cap send0)) as E by apply lookup_singleton_eq. rewrite E in H. apply H.
  - split; vm_compute; congruence.
  - vm_compute. congruence.
  - intros p q Hq. unfold world0, world_of in Hq. cbn in Hq. apply lookup_singleton_Some in Hq as [_ <-].
    split_and!; vm_compute; congruence.
  - vm_compute. reflexivity.
  - vm_compute. reflexivity.
  - vm_compute. reflexivity.
Defined.

(** ** Message headers: what the copyout promises *)

Section Theorems.
Context `{PC : PortConfig}.
Variables its dits : list Z.
Hypothesis Hits : entries_sizes_ok its.
#[local] Instance copyout_space : CapSpace kstate := kstate_space its.
#[local] Instance copyout_laws : CapSpaceLaws kstate := kstate_laws its Hits.
#[local] Instance copyout_alloc : SpaceAlloc kstate := kstate_alloc its.

(** C27: the fast paths of [ipc_kmsg_copyout_header] are sound: for a message that
    carries its rights and references, to a space that is active and well formed
    ([cs_repr]), a fast path
    fails no assertion, and when it succeeds, the table, the free list, the ports,
    the notifications and the new header are exactly those of the general path,
    run without interference at that moment (the environments of its loop do not
    matter); when it does not apply, the general path runs on what others left.
    The space must be active: in a dead space the fast path for an asynchronous
    message succeeds where the general path returns MACH_MSG_IPC_SPACE
    ([dead_space_receives_async]). *)
Theorem copyout_header_fast_is_general env lock_try between envs (s : kstate) w c msg notify :
  cs_repr s c -> carried w msg -> (forall p q, w_ports w !! p = Some q -> port_wf q) ->
  let run := ipc_kmsg_copyout_header its dits env lock_try between envs (mk_rstate s w) msg notify in
  run = copyout_header_general dits env envs (between (mk_rstate s w)) msg notify \/
  exists st1 msg1, run = Some (st1, inr msg1) /\
    forall env1 envs1, copyout_header_general dits undisturbed (env1 :: envs1) (mk_rstate s w) msg notify = Some (st1, inr msg1).
Proof.
  intros Hr Hm Hwf. cbv zeta. unfold ipc_kmsg_copyout_header. cbv zeta. rewrite (proj1 (ca_dest _ _ Hm)).
  destruct (Z.eqb_spec notify MACH_PORT_NULL) as [->|]; cbn [negb]; [|by left].
  destruct (Z.eqb_spec (MACH_MSGH_BITS_PORTS (hdr_bits msg)) (MACH_MSGH_BITS (type_number MACH_MSG_TYPE_PORT_SEND) 0)) as [Hp|_].
  { destruct (fast_out_async_general its dits Hits s w c msg Hr Hm Hp) as ([[st1 msg1]|] & -> & Hg); [right|by left]. by exists st1, msg1. }
  destruct (Z.eqb_spec (MACH_MSGH_BITS_PORTS (hdr_bits msg))
    (MACH_MSGH_BITS (type_number MACH_MSG_TYPE_PORT_SEND) (type_number MACH_MSG_TYPE_PORT_SEND_ONCE))) as [Hp|_].
  { destruct (fast_out_request_general its dits Hits lock_try s w c msg Hr Hm Hwf Hp) as ([[st1 msg1]|] & -> & Hg); [right|by left]. by exists st1, msg1. }
  destruct (Z.eqb_spec (MACH_MSGH_BITS_PORTS (hdr_bits msg)) (MACH_MSGH_BITS (type_number MACH_MSG_TYPE_PORT_SEND_ONCE) 0)) as [Hp|_]; [|by left].
  destruct (fast_out_reply_general its dits Hits s w c msg Hr Hm Hwf Hp) as ([[st1 msg1]|] & -> & Hg); [right|by left]. by exists st1, msg1.
Qed.

(** the quick copyout of a send right in [ipc_kmsg_copyout_object] is sound: for
    a live port for which the message has a send right of its own, it fails no
    assertion, and when it finds the receiver's right in the local hash table, it
    gives the name, the user references (pegged below the maximum) and the counts
    of the port that [ipc_object_copyout] would give; otherwise the general path
    runs on what others left. *)
Lemma copyout_object_fast_is_general between try envs (s : kstate) w c object q mt :
  cs_repr s c -> rights_ok (cs_self s) w c -> w_ports w !! object = Some q -> IP_VALID object = true ->
  (ip_active q = true -> naked w c MACH_MSG_TYPE_MOVE_SEND object) ->
  let run := ipc_kmsg_copyout_object its dits between try envs (mk_rstate s w) object mt in
  run = copyout_object_general dits try envs (between (mk_rstate s w)) object mt \/
  exists st1 name, run = Some (st1, (0, name)) /\
    forall envs1, copyout_object_general dits try envs1 (mk_rstate s w) object mt = Some (st1, (0, name)).
Proof.
  intros Hr Hok Hq Hv Hnk. cbv zeta. unfold ipc_kmsg_copyout_object. rewrite Hv. cbn [negb].
  destruct (bool_decide_reflect (mt = MACH_MSG_TYPE_PORT_SEND)) as [->|_]; [|by left].
  destruct (fast_object_general its dits Hits try s w c object q Hr Hok Hv Hq Hnk) as ([[st1 name]|] & -> & Hg); [right|by left]. by exists st1, name.
Qed.

(** The fast path for asynchronous messages does not look at the space: a space
    that died meanwhile receives the header, where the general path refuses. *)
Lemma dead_space_receives_async env lock_try between envs (s : kstate) w dest q :
  cs_active s = false -> IP_VALID dest = true -> w_ports w !! dest = Some q -> ip_active q = true -> 0 < ip_srights q ->
  let msg := mk_header (MACH_MSGH_BITS 17 0) dest IP_NULL in
  (exists st1 msg1, ipc_kmsg_copyout_header its dits env lock_try between envs (mk_rstate s w) msg MACH_PORT_NULL = Some (st1, inr msg1)) /\
  copyout_header_general dits env envs (mk_rstate s w) msg MACH_PORT_NULL = Some (mk_rstate s w, inl (MACH_RCV_HEADER_ERROR MACH_MSG_IPC_SPACE)).
Proof.
  intros Hd Hv Hq Ha Hs msg. split.
  - unfold ipc_kmsg_copyout_header, msg. cbn [hdr_bits hdr_remote_port]. rewrite Hv. unfold fast_out_async. cbn [r_world]. rewrite Hq, Ha. cbn [negb].
    rewrite (fast_dest_step its s w dest q Hs). do 2 eexists. reflexivity.
  - unfold copyout_header_general, msg. cbn [hdr_local_port]. change (IP_VALID IP_NULL) with false. cbn iota. unfold copyout_no_reply. cbn [r_space].
    by rewrite Hd.
Qed.
End Theorems.

(** ** At the sample space *)

#[local] Existing Instance pc0.
#[local] Instance out0_space : CapSpace kstate := kstate_space its0.
#[local] Instance out0_laws : CapSpaceLaws kstate := kstate_laws its0 its0_ok.
#[local] Instance out0_alloc : SpaceAlloc kstate := kstate_alloc its0.

(** A message to the port of the sample. *)
Definition message0 : mach_msg_header := mk_header (MACH_MSGH_BITS 17 0) 0x1000 IP_NULL.

Lemma message0_carried : carried (world_of two_port) message0.
Proof.
  constructor; cbn -[MACH_MSGH_BITS_REMOTE MACH_MSGH_BITS_LOCAL MACH_MSGH_BITS].
  - split; [done|]. exists two_port. split; [apply lookup_singleton_eq|]. intros _. left. split; [reflexivity|by vm_compute].
  - done.
  - done.
  - intros p q [<- <-]%lookup_singleton_Some. by vm_compute.
Qed.

Lemma copyout_header_fast_is_general_witness :
  let run := ipc_kmsg_copyout_header its0 [] undisturbed true id [] (mk_rstate sent0 (world_of two_port)) message0 MACH_PORT_NULL in
  run = copyout_header_general [] undisturbed [] (mk_rstate sent0 (world_of two_port)) message0 MACH_PORT_NULL \/
  exists st1 msg1, run = Some (st1, inr msg1) /\
    forall env1 envs1, copyout_header_general [] undisturbed (env1 :: envs1) (mk_rstate sent0 (world_of two_port)) message0 MACH_PORT_NULL = Some (st1, inr msg1).
Proof.
  apply (copyout_header_fast_is_general its0 [] its0_ok undisturbed true id [] sent0 (world_of two_port) caps0 message0 MACH_PORT_NULL).
  - exact (proj1 sent0_repr).
  - exact message0_carried.
  - exact (ro_ports _ _ _ (se_ok _ _ _ _ _ two_port_settled)).
Defined.

Lemma copyout_object_fast_is_general_witness :
  let run := ipc_kmsg_copyout_object its0 [] id true [] (mk_rstate sent0 (world_of two_port)) 0x1000 MACH_MSG_TYPE_MOVE_SEND in
  run = copyout_object_general [] true [] (mk_rstate sent0 (world_of two_port)) 0x1000 MACH_MSG_TYPE_MOVE_SEND \/
  exists st1 name, run = Some (st1, (0, name)) /\
    forall envs1, copyout_object_general [] true envs1 (mk_rstate sent0 (world_of two_port)) 0x1000 MACH_MSG_TYPE_MOVE_SEND = Some (st1, (0, name)).
Proof.
  apply (copyout_object_fast_is_general its0 [] its0_ok id true [] sent0 (world_of two_port) caps0 0x1000 two_port MACH_MSG_TYPE_MOVE_SEND).
  - exact (proj1 sent0_repr).
  - exact (eq_ind_r (fun x => rights_ok x (world_of two_port) caps0) (se_ok _ _ _ _ _ two_port_settled) (proj2 (proj2 sent0_repr))).
  - apply lookup_singleton_eq.
  - reflexivity.
  - intros _. exists two_port. split; [apply lookup_singleton_eq|]. split; [reflexivity|]. split; [vm_compute; reflexivity|]. intros _. vm_compute. reflexivity.
Defined.

(** The quick copyout gives the name that the space has. *)
Example fast_object_taken :
  (snd <$> ipc_kmsg_copyout_object its0 [] id true [] (mk_rstate sent0 (world_of two_port)) 0x1000 MACH_MSG_TYPE_MOVE_SEND) = Some (0, 0x100).
Proof. vm_compute. reflexivity. Qed.
