(* ===== verification/IpcRpc.v ===== *)
(** * A remote procedure call

    The header of a request is copied in by the client and out by the server, the
    reply the other way.  The reply right lives in a new entry of the server's
    table meanwhile. *)
From S2P Require Import Prelude PortName IpcTable IpcTypes IpcEntry IpcMqueue IpcPort.
From S2P Require Import IpcWorld IpcPortOps IpcSpaceInv IpcEntrySpec IpcCap IpcCapSpace IpcRight.
From S2P Require Import IpcRightCopy IpcRightBits IpcRightInv IpcRightSteps IpcDealloc IpcObject IpcCopyout.
From S2P Require Import IpcCopyin IpcSend IpcKmsg IpcKmsgSpec IpcKmsgOut IpcKmsgOutSpec IpcSplay.
From S2P Require Import IpcHash IpcSpace IpcEntryThms IpcRequests IpcRightThms.

Section Rpc.
Context `{PC : PortConfig}.
Variables its dits : list Z.
Hypothesis Hits : entries_sizes_ok its.
#[local] Instance rpc_space : CapSpace kstate := kstate_space its.
#[local] Instance rpc_laws : CapSpaceLaws kstate := kstate_laws its Hits.
#[local] Instance rpc_alloc : SpaceAlloc kstate := kstate_alloc its.
Implicit Types (s : kstate) (w : world) (c : gmap Z capability) (q : ipc_port) (e : ipc_entry).

(** ** The entry of the reply right *)

(** A send-once right in the entry with the generation [gen]. *)
Definition once_bits (gen : Z) : Z := Z.lor gen (Z.lor MACH_PORT_TYPE_SEND_ONCE 1).
Definition once_view (gen reply : Z) : eview := mk_view (once_bits gen) reply 0.

Lemma gen_low gen x m : is_gen gen -> low_mask m -> Z.land (Z.lor gen x) m = Z.land x m.
Proof using.
  intros Hg Hm. rewrite Z.land_lor_distr_l. replace (Z.land gen m) with 0; [done|].
  by rewrite <- (gen_land_self gen Hg), <- Z.land_assoc, gen_mask_low, Z.land_0_r.
Qed.

Lemma once_fields gen : is_gen gen ->
  IE_BITS_TYPE (once_bits gen) = MACH_PORT_TYPE_SEND_ONCE /\ IE_BITS_UREFS (once_bits gen) = 1 /\
  bit (once_bits gen) IE_BITS_MAREQUEST = false /\ same_place gen (once_bits gen) /\
  Z.land (once_bits gen) (Z.lor (Z.lor IE_BITS_GEN_MASK IE_BITS_COLLISION) MACH_PORT_TYPE_SEND_ONCE) = Z.lor gen MACH_PORT_TYPE_SEND_ONCE.
Proof using.
  intros Hg. unfold IE_BITS_TYPE, IE_BITS_UREFS, bit, once_bits. rewrite (gen_low gen _ IE_BITS_TYPE_MASK), (gen_low gen _ IE_BITS_UREFS_MASK), (gen_low gen _ IE_BITS_MAREQUEST) by done. split; [done|]. split; [done|]. split; [done|]. split.
  - apply same_place_lor; [by apply is_gen_u32|done].
  - rewrite Z.land_lor_distr_l. f_equal.
    + rewrite !Z.land_lor_distr_r, gen_land_self by done.
      pose proof (gen_low gen 0 IE_BITS_COLLISION Hg eq_refl) as H1. pose proof (gen_low gen 0 MACH_PORT_TYPE_SEND_ONCE Hg eq_refl) as H2.
      rewrite Z.lor_0_r, Z.land_0_l in H1, H2. by rewrite H1, H2, !Z.lor_0_r.
    + unfold IE_BITS_GEN_MASK. by destruct PORT_GENERATIONS.
Qed.

(** What the server's space is before, while and after it has the reply right. *)
Record reply_right s c (name i : Z) e head (reply : Z) : Prop := {
  rr_got : exists sp', got (k_space s) sp' name i e /\ aget (is_table (k_space s)) 0 = Some head /\ i = ie_next head;
  rr_index : i = MACH_PORT_INDEX name /\ 0 < i < is_table_size (k_space s);
  rr_gen : u32 (ie_bits e + IE_BITS_GEN_ONE) = MACH_PORT_GEN name;
  rr_fresh : c !! name = None /\ name <> MACH_PORT_NULL;
  rr_held : cs_repr (mk_kstate (reply_space (k_space s) i e reply head) (k_ghash s)) (<[name := the_cap (once_view (MACH_PORT_GEN name) reply)]> c);
  rr_freed : forall e1 head1, aget (is_table (reply_space (k_space s) i e reply head)) i = Some e1 ->
    aget (is_table (reply_space (k_space s) i e reply head)) 0 = Some head1 ->
    cs_repr (mk_kstate (sp_set_table (freed_table (is_table (reply_space (k_space s) i e reply head)) i (MACH_PORT_GEN name) head1 e1)
      (reply_space (k_space s) i e reply head)) (k_ghash s)) c
}.

Lemma reply_right_intro s c head reply : cs_repr s c -> aget (is_table (k_space s)) 0 = Some head -> ie_next head <> 0 ->
  exists name e, reply_right s c name (ie_next head) e head reply.
Proof using.
  intros Hr H0 Hne. destruct (entry_get_found its Hits s c head Hr H0 Hne) as (sp' & name & e & Hg & He & _). exists name, e.
  pose proof Hr as [Hwf Hc]. destruct s as [sp g]. cbn [k_space k_ghash] in *.
  destruct (ipc_entry_get_correct its Hits sp g Hwf) as (sp'' & res & Hg' & Hres). rewrite Hg in Hg'. injection Hg' as <- <-.
  destruct Hres as (Hwf' & Hvn & Href & Hfr & Hn & Hcs).
  assert (cs_open (mk_kstate sp' g) c name (InTable (ie_next head)) (mk_view (MACH_PORT_GEN name) IO_NULL 0)) as Ho.
  { apply kopen_fresh; [done|done|done|by rewrite Hc|]. intros k _. by rewrite Hc, <- Hcs. }
  pose proof He as [(head' & H0' & _ & _ & Hsp) Hge _ _ _]. rewrite H0 in H0'. injection H0' as <-.
  destruct (size_range its Hits _ _ Hwf) as [Hsz Hlen]. cbn in Hsz, Hlen. pose proof (aget_Some_range _ _ _ Hge) as Hri.
  set (i := ie_next head) in *. set (t := aset (is_table sp) 0 (set_next (ie_next e) head)) in *.
  assert (forall x, aget (aset t i x) i = Some x) as Hget by (intros x; rewrite aget_aset_eq; [done|unfold t; by rewrite alen_aset]).
  assert (forall x, aget (aset t i x) 0 = Some (set_next (ie_next e) head)) as Hget0.
  { intros x. rewrite aget_aset_ne by done. unfold t. apply aget_aset_eq. lia. }
  assert (u32 (ie_bits e + IE_BITS_GEN_ONE) = MACH_PORT_GEN name) as Hgen.
  { destruct Hfr as (e' & Hge' & Hb & _). rewrite Hsp in Hge'. cbn in Hge'. rewrite Hget in Hge'. by injection Hge' as <-. }
  assert (i = MACH_PORT_INDEX name) as Hi. { destruct Href as [[E _]|[E _]]; [by injection E|done]. }
  destruct (once_fields _ (is_gen_port name)) as (Hty & _ & _ & Hplace & _).
  destruct (store_law _ c name (InTable i) _ (once_view (MACH_PORT_GEN name) reply) Ho Hplace) as (s3 & Hst & Ho3 & _).
  destruct (dealloc_law _ c name (InTable i) _ Ho eq_refl eq_refl) as (s4 & Hd & Hr4 & _).
  constructor; cbn [k_space k_ghash].
  - by exists sp'.
  - split; [done|]. lia.
  - done.
  - apply (open_rest _ _ _ _ _ Ho).
  - assert (s3 = mk_kstate (reply_space sp i e reply head) g) as <-.
    { cbn in Hst. rewrite Hsp in Hst. cbn in Hst. rewrite (table_upd_Some _ _ _ _ (Hget _)), aset_aset_eq in Hst. injection Hst as <-.
      unfold reply_space. fold t. by rewrite Hgen. }
    apply (close_law _ _ _ _ _ Ho3); unfold ev_type; cbn; by rewrite Hty.
  - intros e1 head1 He1 Hh1. cbn in He1, Hh1. fold t in He1, Hh1. rewrite Hget in He1. rewrite Hget0 in Hh1. injection He1 as <-. injection Hh1 as <-.
    assert (Some s4 = Some (mk_kstate (sp_set_table (freed_table (is_table sp') i (MACH_PORT_GEN name) (set_next (ie_next e) head)
      (mk_entry (MACH_PORT_GEN name) IO_NULL 0 (ie_index e))) sp') g)) as Hs4.
    { rewrite <- Hd. apply dealloc_free_step; rewrite ?Hsp; cbn; fold t;
        [apply (wf_active _ _ _ Hwf)|done|lia|apply Hget0|by rewrite Hget, Hgen|done|done|..].
      - rewrite IE_BITS_GEN_land. apply gen_land_self, is_gen_port.
      - pose proof (gen_low _ 0 IE_BITS_COLLISION (is_gen_port name) eq_refl) as H1. by rewrite Z.lor_0_r, Z.land_0_l in H1. }
    injection Hs4 as ->. revert Hr4. rewrite Hsp. unfold reply_space, freed_table. cbn. fold t. by rewrite !aset_aset_eq, Hgen.
Qed.

(** ** The four steps *)

(** A port with a send right, and one with a send-once right, of the message. *)
Definition with_sent q : ipc_port := ip_reference (incr_srights q).
Definition with_once q : ipc_port := ip_reference (ip_set_sorights (u32 (ip_sorights q + 1)) q).

Lemma request_in s w c dest_name reply_name i e j f q : cs_repr s c -> rights_ok (cs_self s) w c ->
  found its s c dest_name MACH_PORT_TYPE_SEND i e -> found its s c reply_name MACH_PORT_TYPE_RECEIVE j f ->
  fast_lookup (k_space s) dest_name 0 MACH_PORT_TYPE_SEND = Some (Some (i, e)) ->
  fast_lookup (k_space s) reply_name 0 MACH_PORT_TYPE_RECEIVE = Some (Some (j, f)) ->
  w_ports w !! ie_object e = Some q -> ip_active q = true -> ie_object e <> ie_object f ->
  exists r, w_ports w !! ie_object f = Some r /\ receives (cs_self s) reply_name r /\ ie_object f <> IP_NULL /\
    fast_request its true (mk_rstate s w) (MACH_MSGH_BITS 19 21) dest_name reply_name =
      Some (Some (mk_rstate s (put_port (ie_object f) (with_once r) (put_port (ie_object e) (with_sent q) w)),
        mk_header (MACH_MSGH_BITS 17 18) (ie_object e) (ie_object f))).
Proof using.
  intros Hr Hok Hd Hf Hld Hlf Hq Ha Hne. destruct (found_send its Hits s w c _ i e Hr Hok Hd) as (q' & Hq' & Hu & Ho & Hlive & _).
  rewrite Hq in Hq'. injection Hq' as <-. destruct (found_receive its Hits s w c _ j f Hr Hok Hf) as (r & Hrp & Hro & Hrc & _).
  exists r. do 3 (split; [done|]). destruct Hrc as (Hra & Hrn & Hrr).
  destruct (Hlive Ha) as (_ & _ & _ & _ & Hs). unfold fast_request. cbn [r_space].
  rewrite (repr_active s c Hr : is_active (k_space s) = true), Hld. cbn [negb].
  rewrite (proj2 (Z.ltb_lt _ _) Hu), (proj2 (Z.eqb_neq _ _) Ho), Hlf, (proj2 (Z.eqb_neq _ _) Hro). cbn [negb r_world].
  rewrite Hq, Ha. cbn [negb orb]. rewrite (proj2 (Z.ltb_lt _ _) Hs). cbn [w_ports put_port]. rewrite lookup_insert_ne, Hrp by done.
  unfold self. cbn [r_space]. by rewrite Hra, Hrn, Hrr, !Z.eqb_refl.
Qed.

(** The counts of the destination are back. *)
Lemma sent_back q : port_wf q -> port_room q -> 0 < ip_srights q -> dec_srights (ip_release (with_sent q)) = (q, (IP_NULL, 0)).
Proof using.
  intros ([? ?] & [? ?] & _) (Hr & Hs & _) Hpos. unfold dec_srights, with_sent, incr_srights, ip_release, ip_reference, ip_set_references, ip_set_srights. cbn.
  rewrite (u32_small (ip_srights q + 1)), (u32_small (ip_references q + 1)) by (unfold is_u32; lia).
  rewrite (u32_small (ip_srights q + 1 - 1)), (u32_small (ip_references q + 1 - 1)) by (unfold is_u32; lia).
  rewrite (proj2 (Z.eqb_neq (ip_srights q + 1 - 1) 0)) by lia. destruct q; cbn. do 2 f_equal; lia.
Qed.

Lemma once_back q : port_wf q -> port_room q ->
  ip_set_sorights (u32 (ip_sorights (ip_release (with_once q)) - 1)) (ip_release (with_once q)) = q.
Proof using.
  intros ([? ?] & _ & [? ?] & _) (Hr & _ & Hs). unfold with_once, ip_release, ip_reference, ip_set_references, ip_set_sorights. cbn.
  rewrite (u32_small (ip_sorights q + 1)), (u32_small (ip_references q + 1)) by (unfold is_u32; lia).
  rewrite (u32_small (ip_sorights q + 1 - 1)), (u32_small (ip_references q + 1 - 1)) by (unfold is_u32; lia).
  destruct q; cbn. f_equal; lia.
Qed.

Lemma request_out s w c dest reply q r head name e : cs_repr s c -> IP_VALID reply = true -> dest <> reply ->
  w_ports w !! dest = Some q -> ip_active q = true -> port_wf q -> port_room q -> 0 < ip_srights q -> ip_receiver q = cs_self s ->
  w_ports w !! reply = Some r -> ip_active r = true -> port_wf r -> port_room r ->
  aget (is_table (k_space s)) 0 = Some head -> ie_next head <> 0 -> reply_right s c name (ie_next head) e head reply ->
  fast_out_request its true (mk_rstate s (put_port reply (with_once r) (put_port dest (with_sent q) w))) (MACH_MSGH_BITS 17 18) dest reply =
    Some (Some (mk_rstate (mk_kstate (reply_space (k_space s) (ie_next head) e reply head) (k_ghash s)) (put_port reply (with_once r) w),
      mk_header (MACH_MSGH_BITS 18 17) name (ip_receiver_name q))).
Proof using.
  intros Hr Hv Hne Hq Ha Hwf Hroom Hs Hrcv Hrp Hra Hrwf Hrroom H0 Hnz Hrr. unfold fast_out_request. cbn [r_space r_world].
  rewrite Hv, (repr_active s c Hr : is_active (k_space s) = true), H0, (proj2 (Z.eqb_neq _ _) Hnz). cbn [negb orb w_ports put_port].
  rewrite lookup_insert_ne, !lookup_insert_eq by done.
  change (ip_active (with_sent q)) with (ip_active q). change (ip_active (with_once r)) with (ip_active r). rewrite Ha, Hra. cbn [negb orb].
  assert (0 < ip_sorights (with_once r)) as Hso.
  { cbn. destruct Hrwf as (_ & _ & [? ?] & _), Hrroom as (_ & _ & ?). rewrite u32_small by (unfold is_u32; lia). lia. }
  assert (0 < ip_srights (with_sent q)) as Hss.
  { cbn. destruct Hwf as (_ & [? ?] & _), Hroom as (_ & ? & _). rewrite u32_small by (unfold is_u32; lia). lia. }
  rewrite (proj2 (Z.ltb_lt _ _) Hso). destruct (rr_got _ _ _ _ _ _ _ Hrr) as (sp' & Hgot & _).
  rewrite (fast_new_entry_step _ _ _ _ _ head _ Hgot H0). unfold with_space. cbn [r_world]. rewrite fast_dest_step by done.
  unfold dest_sent, dest_name. rewrite (sent_back q Hwf Hroom Hs). cbn [fst snd ns_events]. change (negb (IP_NULL =? IP_NULL)) with false. cbn iota.
  change (ip_receiver (with_sent q)) with (ip_receiver q). change (ip_receiver_name (with_sent q)) with (ip_receiver_name q).
  rewrite Hrcv. change (cs_self (mk_kstate (reply_space (k_space s) (ie_next head) e reply head) (k_ghash s))) with (cs_self s). rewrite Z.eqb_refl.
  do 4 f_equal. unfold emit. cbn. rewrite app_nil_r. unfold put_port. cbn. f_equal. apply map_eq. intros k.
  destruct (decide (k = dest)) as [->|Hk]; [by rewrite lookup_insert_eq, lookup_insert_ne|]. rewrite lookup_insert_ne by done.
  destruct (decide (k = reply)) as [->|]; [by rewrite !lookup_insert_eq|]. by rewrite !lookup_insert_ne.
Qed.

Lemma reply_in s w c name i e head reply r : is_active (k_space s) = true -> alen (is_table (k_space s)) = is_table_size (k_space s) ->
  reply_right s c name i e head reply ->
  reply <> IP_NULL -> w_ports w !! reply = Some r -> ip_active r = true -> 0 < ip_sorights r ->
  exists s', fast_reply (mk_rstate (mk_kstate (reply_space (k_space s) i e reply head) (k_ghash s)) w) 18 name MACH_PORT_NULL =
      Some (Some (mk_rstate s' w, mk_header 18 reply MACH_PORT_NULL)) /\ cs_repr s' c.
Proof using.
  intros Hact Hlen Hrr Ho Hq Ha Hso. destruct (rr_got _ _ _ _ _ _ _ Hrr) as (sp' & [_ Hge _ _ _] & H0 & Hi0).
  destruct (rr_index _ _ _ _ _ _ _ Hrr) as [Hi Hr]. pose proof (rr_gen _ _ _ _ _ _ _ Hrr) as Hgen. pose proof (rr_freed _ _ _ _ _ _ _ Hrr) as Hfreed.
  pose proof (aget_Some_range _ _ _ Hge) as Hri. destruct s as [sp g]. cbn [k_space k_ghash] in *. set (sp1 := reply_space sp i e reply head) in *.
  set (e1 := mk_entry (once_bits (MACH_PORT_GEN name)) reply 0 (ie_index e)).
  assert (aget (is_table sp1) i = Some e1) as Hget.
  { unfold sp1, reply_space. cbn. rewrite aget_aset_eq by (by rewrite alen_aset). by rewrite Hgen. }
  assert (aget (is_table sp1) 0 = Some (set_next (ie_next e) head)) as Hget0.
  { unfold sp1, reply_space. cbn. rewrite aget_aset_ne by lia. apply aget_aset_eq. lia. }
  destruct (once_fields _ (is_gen_port name)) as (Hty & Hu & Hm & _ & Hmask).
  assert (fast_lookup sp1 name IE_BITS_COLLISION MACH_PORT_TYPE_SEND_ONCE = Some (Some (i, e1))) as Hl.
  { unfold fast_lookup. change (is_table_size sp1) with (is_table_size sp). rewrite <- Hi, (proj2 (Z.leb_gt _ _)) by lia.
    rewrite Hget. cbn [ie_bits e1]. by rewrite Hmask, Z.eqb_refl. }
  unfold fast_reply. cbn [r_space r_world k_space k_ghash]. change (is_active sp1) with (is_active sp). rewrite Hact. cbn [negb orb].
  change (MACH_PORT_NULL =? MACH_PORT_NULL) with true. cbn [negb orb]. rewrite Hl. cbn [ie_bits ie_request ie_object e1]. rewrite Hty, Hu, Hm.
  change (MACH_PORT_TYPE_SEND_ONCE =? MACH_PORT_TYPE_SEND_ONCE) with true. change (1 =? 1) with true. change (0 =? 0) with true. cbn [negb].
  rewrite (proj2 (Z.eqb_neq _ _) Ho), Hq, Ha, (proj2 (Z.ltb_lt _ _) Hso), Hget0. cbn [negb].
  pose proof (fast_free (is_table sp1) i (MACH_PORT_GEN name) _ e1 ltac:(lia) Hget0 Hget) as Hfree.
  destruct (table_upd (is_table sp1) i _) as [t1|]; [|done]. cbn beta iota in Hfree.
  destruct (table_upd t1 0 _) as [t2|]; [|done]. cbn beta iota in Hfree. rewrite Hfree. unfold with_space. cbn [r_world].
  eexists. split; [done|]. by apply Hfreed.
Qed.

Lemma reply_out s w c reply r reply_name : cs_repr s c -> w_ports w !! reply = Some r -> port_wf r -> port_room r -> receives (cs_self s) reply_name r ->
  fast_out_reply its (mk_rstate s (put_port reply (with_once r) w)) 18 reply = Some (Some (mk_rstate s w, mk_header (MACH_MSGH_BITS 0 18) MACH_PORT_NULL reply_name)).
Proof using.
  intros Hr Hq Hwf Hroom (Ha & Hn & Hrcv). unfold fast_out_reply. cbn [r_world]. rewrite put_ports.
  change (ip_active (with_once r)) with (ip_active r). rewrite Ha. cbn [negb].
  assert (0 < ip_sorights (with_once r)) as Hso.
  { cbn. destruct Hwf as (_ & _ & [? ?] & _), Hroom as (_ & _ & ?). rewrite u32_small by (unfold is_u32; lia). lia. }
  rewrite (proj2 (Z.ltb_lt _ _) Hso). unfold self. cbn [r_space]. change (ip_receiver (with_once r)) with (ip_receiver r). rewrite Hrcv, Z.eqb_refl.
  cbv zeta. rewrite (once_back r Hwf Hroom), put_put, (put_same _ r w Hq). change (ip_receiver_name (with_once r)) with (ip_receiver_name r). by rewrite Hn.
Qed.

(** ** The call *)

(** The headers of a request and of a reply, as they are sent. *)
Definition request_header (dest_name reply_name : Z) : mach_msg_header :=
  mk_header (MACH_MSGH_BITS (type_number MACH_MSG_TYPE_COPY_SEND) (type_number MACH_MSG_TYPE_MAKE_SEND_ONCE)) dest_name reply_name.
Definition reply_header (dest_name : Z) : mach_msg_header :=
  mk_header (MACH_MSGH_BITS (type_number MACH_MSG_TYPE_MOVE_SEND_ONCE) 0) dest_name MACH_PORT_NULL.

(** C3: the headers of a remote procedure call.  The client sends a request with a
    copied send right for a port that the server receives from and a send-once
    right made from its reply port, and the server, which has a free entry,
    answers by moving the send-once right.  All four header operations succeed on
    their fast paths.  The server gets its own name for the destination and, under
    a name that was free, one more capability, the send-once right for the reply
    port; the client gets its own name for the reply port.  When the reply is
    received, the reference and right counts of every port, the requests and the
    log, the client's space and the server's capabilities are what they were
    before the call. *)
Theorem rpc_header_roundtrip henv oenv between envs (client server : kstate) w c1 c2 dest_name reply_name i e j f q head :
  cs_repr client c1 -> rights_ok (cs_self client) w c1 -> cs_repr server c2 -> cs_self client <> cs_self server ->
  is_u32 dest_name -> is_u32 reply_name -> w_ports w !! IP_DEAD = None -> (forall p q, w_ports w !! p = Some q -> port_room q) ->
  fast_lookup (k_space client) dest_name 0 MACH_PORT_TYPE_SEND = Some (Some (i, e)) ->
  fast_lookup (k_space client) reply_name 0 MACH_PORT_TYPE_RECEIVE = Some (Some (j, f)) ->
  w_ports w !! ie_object e = Some q -> ip_active q = true -> ip_receiver q = cs_self server ->
  aget (is_table (k_space server)) 0 = Some head -> ie_next head <> 0 ->
  exists name w1 w2 server1 server2 msg1 msg3,
    ipc_kmsg_copyin_header its henv true between (mk_rstate client w) (request_header dest_name reply_name) MACH_PORT_NULL =
      Some (mk_rstate client w1, inr msg1) /\
    ipc_kmsg_copyout_header its dits oenv true between envs (mk_rstate server w1) msg1 MACH_PORT_NULL =
      Some (mk_rstate server1 w2, inr (mk_header (MACH_MSGH_BITS 18 17) name (ip_receiver_name q))) /\
    c2 !! name = None /\ cs_repr server1 (<[name := the_cap (once_view (MACH_PORT_GEN name) (ie_object f))]> c2) /\
    ipc_kmsg_copyin_header its henv true between (mk_rstate server1 w2) (reply_header name) MACH_PORT_NULL =
      Some (mk_rstate server2 w2, inr msg3) /\ cs_repr server2 c2 /\
    ipc_kmsg_copyout_header its dits oenv true between envs (mk_rstate client w2) msg3 MACH_PORT_NULL =
      Some (mk_rstate client w, inr (mk_header (MACH_MSGH_BITS 0 18) MACH_PORT_NULL reply_name)).
Proof using.
  intros Hr1 Hok Hr2 Hne Hd Hf Hdead Hroom Hld Hlf Hq Ha Hrcv H0 Hnz.
  pose proof (fast_found its Hits client c1 _ 0 MACH_PORT_TYPE_SEND i e Hr1 Hd eq_refl eq_refl eq_refl ltac:(done) eq_refl Hld) as Hfd.
  pose proof (fast_found its Hits client c1 _ 0 MACH_PORT_TYPE_RECEIVE j f Hr1 Hf eq_refl eq_refl eq_refl ltac:(done) eq_refl Hlf) as Hff.
  destruct (found_receive its Hits client w c1 _ j f Hr1 Hok Hff) as (r0 & Hr0 & _ & (_ & _ & Hrr0) & _).
  assert (ie_object e <> ie_object f) as Hports.
  { intros E. rewrite <- E, Hq in Hr0. injection Hr0 as <-. apply Hne. transitivity (ip_receiver q); [symmetry; exact Hrr0|exact Hrcv]. }
  clear r0 Hr0 Hrr0.
  destruct (request_in client w c1 _ _ i e j f q Hr1 Hok Hfd Hff Hld Hlf Hq Ha Hports) as (r & Hr & Hrecv & Hfo & Hin).
  pose proof (ro_ports _ _ _ Hok _ _ Hq) as Hqwf. pose proof (ro_ports _ _ _ Hok _ _ Hr) as Hrwf.
  destruct (found_send its Hits client w c1 _ i e Hr1 Hok Hfd) as (q' & Hq' & _ & Heo & Hlive & _). rewrite Hq in Hq'. injection Hq' as <-.
  destruct (Hlive Ha) as (_ & _ & _ & _ & Hs).
  assert (forall p x, w_ports w !! p = Some x -> p <> IP_NULL -> IP_VALID p = true) as Hvalid.
  { intros p x Hp Hn. unfold IP_VALID. apply andb_true_iff. split; apply negb_true_iff, Z.eqb_neq; [done|congruence]. }
  pose proof (Hvalid _ _ Hq Heo) as Hve. pose proof (Hvalid _ _ Hr Hfo) as Hvf.
  destruct (reply_right_intro server c2 head (ie_object f) Hr2 H0 Hnz) as (name & ent & Hrr).
  pose proof (request_out server w c2 _ _ q r head name ent Hr2 Hvf Hports Hq Ha Hqwf (Hroom _ _ Hq) Hs Hrcv Hr (proj1 Hrecv) Hrwf (Hroom _ _ Hr) H0 Hnz Hrr) as Hout.
  destruct (reply_in server (put_port (ie_object f) (with_once r) w) c2 name (ie_next head) ent head (ie_object f) (with_once r)) as (server2 & Hrin & Hr2');
    [exact (repr_active server c2 Hr2)|destruct Hr2 as [Hwf2 _]; apply (size_range its Hits _ _ Hwf2)|done|done|apply put_ports|exact (proj1 Hrecv)| |].
  { cbn. destruct Hrwf as (_ & _ & [? ?] & _), (Hroom _ _ Hr) as (_ & _ & ?). rewrite u32_small by (unfold is_u32; lia). lia. }
  pose proof (reply_out client w c1 _ r reply_name Hr1 Hr Hrwf (Hroom _ _ Hr) Hrecv) as Hrout.
  exists name. do 4 eexists. exists (mk_header (MACH_MSGH_BITS 17 18) (ie_object e) (ie_object f)), (mk_header 18 (ie_object f) MACH_PORT_NULL).
  split; [|split; [|split; [|split; [|split; [|split]]]]].
  - unfold ipc_kmsg_copyin_header. change (fast_request its true (mk_rstate client w) _ _ _) with
      (fast_request its true (mk_rstate client w) (MACH_MSGH_BITS 19 21) dest_name reply_name). rewrite Hin. reflexivity.
  - unfold ipc_kmsg_copyout_header. cbn [hdr_bits hdr_remote_port hdr_local_port]. rewrite Hve, Hout. reflexivity.
  - apply (rr_fresh _ _ _ _ _ _ _ Hrr).
  - apply (rr_held _ _ _ _ _ _ _ Hrr).
  - unfold ipc_kmsg_copyin_header. change (fast_reply _ _ _ _) with
      (fast_reply (mk_rstate (mk_kstate (reply_space (k_space server) (ie_next head) ent (ie_object f) head) (k_ghash server))
        (put_port (ie_object f) (with_once r) w)) 18 name MACH_PORT_NULL). rewrite Hrin. reflexivity.
  - exact Hr2'.
  - unfold ipc_kmsg_copyout_header. cbn [hdr_bits hdr_remote_port hdr_local_port]. rewrite Hvf, Hrout. reflexivity.
Qed.
End Rpc.

(** ** A remote procedure call between two concrete spaces *)

#[local] Existing Instance pc0.
#[local] Instance rpc0_space : CapSpace kstate := kstate_space its0.
#[local] Instance rpc0_laws : CapSpaceLaws kstate := kstate_laws its0 its0_ok.
#[local] Instance rpc0_alloc : SpaceAlloc kstate := kstate_alloc its0.

(** ** The client: the sample space with a receive right for a reply port *)

Definition client_got : kstate := (default (sent0, None) (sp_get sent0)).1.
Definition receive0 : eview := mk_view MACH_PORT_TYPE_RECEIVE 0x2000 0.
Definition client0 : kstate := default client_got (cs_store client_got (InTable 2) receive0).
Definition client_caps : gmap Z capability := <[0x200 := the_cap receive0]> caps0.

Lemma client_got_open : cs_open client_got caps0 0x200 (InTable 2) (mk_view 0 IO_NULL 0).
Proof.
  destruct sent0_repr as ([Hwf Hc] & _).
  destruct (ipc_entry_get_correct its0 its0_ok (k_space sent0) (k_ghash sent0) Hwf) as (sp' & res & Hg & Hres).
  assert (client_got = mk_kstate sp' (k_ghash sent0)) as -> by (unfold client_got; cbn [sp_get rpc0_alloc kstate_alloc]; by rewrite Hg).
  assert (res = Some (0x200, 2)) as ->.
  { assert (res = (default (k_space sent0, None) (ipc_entry_get (k_space sent0))).2) as -> by by rewrite Hg. vm_compute. reflexivity. }
  destruct Hres as (Hwf' & _ & Hr & Hf & Hn & Hcs). eapply kopen_fresh; [done|done|exact Hf|by rewrite Hc|]. intros k _. by rewrite Hc, <- Hcs.
Qed.

Lemma client0_repr : cs_repr client0 client_caps.
Proof.
  destruct (store_law _ _ _ _ _ receive0 client_got_open) as (s1 & H1 & Ho1 & _); [by split|].
  unfold client0. rewrite H1. by apply (close_law _ _ _ _ _ Ho1).
Qed.

(** ** The server: an empty space *)

Definition server0 : kstate :=
  mk_kstate (default raw_space (space_init its0 (mk_space 0x30 0 false true [] 0 0 (mk_splay 0 ITE_NULL [] []) 9 9 9) 0)) ghash0.

Lemma server0_repr : cs_repr server0 ∅.
Proof.
  destruct ghash0_ok as [Hw Hn].
  destruct (space_init_correct its0 (mk_space 0x30 0 false true [] 0 0 (mk_splay 0 ITE_NULL [] []) 9 9 9) 0 ghash0) as (sp & Hc & Hwf & Hnone & _);
    [apply its0_ok|done|by eexists|done|by intros e ?%Hn|].
  unfold server0. rewrite Hc. split; [done|]. intros k. by rewrite lookup_empty, Hnone.
Qed.

(** ** The ports *)

Definition reply_port0 : ipc_port := mk_port 1 true 0 0x200 ipc_mqueue_init 0x40 0 0 0 0 0 None 0 0 0 5 [].
Definition rpc_world : world := mk_world (<[0x2000 := reply_port0]> {[ 0x1000 := req_port ]}) ∅ 0 [].

Lemma rpc_ports p q : w_ports rpc_world !! p = Some q -> q = reply_port0 \/ q = req_port.
Proof. cbn. intros [[_ <-]|[_ [_ <-]%lookup_singleton_Some]]%lookup_insert_Some; auto. Qed.

Lemma rpc_rights : rights_ok 0x40 rpc_world client_caps.
Proof.
  apply (rights_ok_insert 0x40 rpc_world caps0 0x200 receive0); [|done| |done|].
  - apply (rights_ok_insert 0x40 rpc_world ∅ 0x100 send0); [|done| |by intros _ ? ? ?|done].
    + constructor; [done|done| |].
      * intros p. unfold holds, refs. rewrite map_filter_empty, map_size_empty. destruct (w_ports rpc_world !! p) as [q|] eqn:Hq; [|done].
        apply rpc_ports in Hq as [-> | ->]; done.
      * intros p q [-> | ->]%rpc_ports; [|apply req_port_ok]. split_and!; [done..|]. by exists [].
    + apply (port_ok _ _ _ _ req_port); [done|done|by split|]. apply send_ok; [done|by vm_compute|]. intros _. by vm_compute.
  - apply (port_ok _ _ _ _ reply_port0); [done|done|by split|]. apply receive_ok; [done|done|]. done.
  - done.
Qed.

(** ** The call *)

Definition entry_at (s : kstate) (i : Z) : ipc_entry := default (mk_entry 0 IO_NULL 0 0) (aget (is_table (k_space s)) i).

Lemma rpc_header_roundtrip_witness :
  exists name w1 w2 server1 server2 msg1 msg3,
    ipc_kmsg_copyin_header its0 no_others true id (mk_rstate client0 rpc_world) (request_header 0x100 0x200) MACH_PORT_NULL =
      Some (mk_rstate client0 w1, inr msg1) /\
    ipc_kmsg_copyout_header its0 [] undisturbed true id [] (mk_rstate server0 w1) msg1 MACH_PORT_NULL =
      Some (mk_rstate server1 w2, inr (mk_header (MACH_MSGH_BITS 18 17) name 0x100)) /\
    (∅ : gmap Z capability) !! name = None /\ cs_repr server1 (<[name := the_cap (once_view (MACH_PORT_GEN name) 0x2000)]> ∅) /\
    ipc_kmsg_copyin_header its0 no_others true id (mk_rstate server1 w2) (reply_header name) MACH_PORT_NULL =
      Some (mk_rstate server2 w2, inr msg3) /\ cs_repr server2 ∅ /\
    ipc_kmsg_copyout_header its0 [] undisturbed true id [] (mk_rstate client0 w2) msg3 MACH_PORT_NULL =
      Some (mk_rstate client0 rpc_world, inr (mk_header (MACH_MSGH_BITS 0 18) MACH_PORT_NULL 0x200)).
Proof.
  assert (ie_object (entry_at client0 2) = 0x2000) as E by (vm_compute; reflexivity). rewrite <- E.
  apply (rpc_header_roundtrip its0 [] its0_ok no_others undisturbed id [] client0 server0 rpc_world client_caps ∅ 0x100 0x200
    1 (entry_at client0 1) 2 (entry_at client0 2) req_port (entry_at server0 0)).
  - exact client0_repr.
  - assert (cs_self client0 = 0x40) as E' by (vm_compute; reflexivity).
    exact (eq_ind_r (fun x => rights_ok x rpc_world client_caps) rpc_rights E').
  - exact server0_repr.
  - vm_compute. congruence.
  - split; vm_compute; congruence.
  - split; vm_compute; congruence.
  - vm_compute. reflexivity.
  - intros p q [-> | ->]%rpc_ports; split_and!; vm_compute; reflexivity.
  - vm_compute. reflexivity.
  - vm_compute. reflexivity.
  - vm_compute. reflexivity.
  - reflexivity.
  - vm_compute. reflexivity.
  - vm_compute. reflexivity.
  - vm_compute. congruence.
Defined.
