(* ===== verification/KernLock.v ===== *)
(** * Read-write locks (kern/lock.c)

    The locks with many readers or one writer, upgrades and recursion.  What a
    thread does between taking and releasing the interlock is one piece.  A loop
    that waits is left with the interlock released, spinning or asleep, and
    [lock_resume] runs from where the interlock is taken again. *)

From S2P Require Import Prelude.

(** ** The structure *)

(** [struct lock]; the interlock is not a field. *)
Record lock := mk_lock {
  l_thread : Z;
  l_read_count : Z;         (* 16 bits *)
  l_want_upgrade : bool;
  l_want_write : bool;
  l_waiting : bool;
  l_can_sleep : bool;
  l_recursion_depth : Z     (* 12 bits *)
}.

Definition u16 (x : Z) : Z := x mod 2 ^ 16.
Definition u12 (x : Z) : Z := x mod 2 ^ 12.

(** The thread pointer -1. *)
Definition NO_THREAD : Z := -1.

Definition set_thread x l := mk_lock x (l_read_count l) (l_want_upgrade l) (l_want_write l) (l_waiting l) (l_can_sleep l) (l_recursion_depth l).
Definition set_read_count x l := mk_lock (l_thread l) (u16 x) (l_want_upgrade l) (l_want_write l) (l_waiting l) (l_can_sleep l) (l_recursion_depth l).
Definition set_want_upgrade x l := mk_lock (l_thread l) (l_read_count l) x (l_want_write l) (l_waiting l) (l_can_sleep l) (l_recursion_depth l).
Definition set_want_write x l := mk_lock (l_thread l) (l_read_count l) (l_want_upgrade l) x (l_waiting l) (l_can_sleep l) (l_recursion_depth l).
Definition set_waiting x l := mk_lock (l_thread l) (l_read_count l) (l_want_upgrade l) (l_want_write l) x (l_can_sleep l) (l_recursion_depth l).
Definition set_can_sleep x l := mk_lock (l_thread l) (l_read_count l) (l_want_upgrade l) (l_want_write l) (l_waiting l) x (l_recursion_depth l).
Definition set_recursion_depth x l := mk_lock (l_thread l) (l_read_count l) (l_want_upgrade l) (l_want_write l) (l_waiting l) (l_can_sleep l) (u12 x).

Definition lock_init (can_sleep : bool) : lock := mk_lock NO_THREAD 0 false false false can_sleep 0.
Definition lock_sleepable (can_sleep : bool) (l : lock) : lock := set_can_sleep can_sleep l.

(** ** Waiting *)

(** The loops of the functions that wait: for [want_write], for readers and
    upgrades to finish, in [lock_read], in [lock_read_to_write] and in
    [lock_try_read_to_write]. *)
Inductive wait := Wait_write | Wait_readers | Wait_read | Wait_upgrade | Wait_try_upgrade.

Definition blocked (w : wait) (l : lock) : bool :=
  match w with
  | Wait_write => l_want_write l
  | Wait_readers => negb (l_read_count l =? 0) || l_want_upgrade l
  | Wait_read => l_want_write l || l_want_upgrade l
  | Wait_upgrade | Wait_try_upgrade => negb (l_read_count l =? 0)
  end.

(** How a thread waits: it spins, it sleeps on the lock, or it was woken and has
    not taken the interlock yet. *)
Inductive how := Spinning | Sleeping | Woken.

(** The function returns, with its result and whether it wakes the sleepers of
    the lock; or it waits; or it loops forever with the interlock held. *)
Inductive outcome :=
| Returns (l : lock) (result wakeup : bool)
| Waits (l : lock) (w : wait) (h : how)
| Hangs.

Section Wait.
(** 100, or 0 on a uniprocessor. *)
Variable lock_wait_time : Z.

(** The second half of the body of a loop, and the head of a loop; [k] is what
    follows the loop. *)
Definition wait_sleep (w : wait) (l : lock) : outcome := Waits (set_waiting true l) w Sleeping.

Definition wait_head (w : wait) (l : lock) (k : lock -> outcome) : outcome :=
  if negb (blocked w l) then k l
  else match w with
    | Wait_try_upgrade => wait_sleep w l
    | _ =>
        if 0 <? lock_wait_time then Waits l w Spinning
        else if l_can_sleep l then wait_sleep w l
        else Hangs
    end.

Definition write_readers (l : lock) : outcome := wait_head Wait_readers l (fun l => Returns l true false).
Definition write_want (l : lock) : outcome := wait_head Wait_write l (fun l => write_readers (set_want_write true l)).

(** What follows a loop. *)
Definition after_wait (w : wait) (l : lock) : outcome :=
  match w with
  | Wait_write => write_readers (set_want_write true l)
  | Wait_readers => Returns l true false
  | Wait_read => Returns (set_read_count (l_read_count l + 1) l) true false
  | Wait_upgrade => Returns l false false
  | Wait_try_upgrade => Returns l true false
  end.

(** The interlock is taken again. *)
Definition lock_resume (w : wait) (h : how) (l : lock) : option outcome :=
  match h with
  | Sleeping => None
  | Woken => Some (wait_head w l (after_wait w))
  | Spinning =>
      Some (if l_can_sleep l && blocked w l then wait_sleep w l else wait_head w l (after_wait w))
  end.

(** ** The operations of the thread [me] *)

Definition lock_write (me : Z) (l : lock) : outcome :=
  if l_thread l =? me then Returns (set_recursion_depth (l_recursion_depth l + 1) l) true false
  else write_want l.

Definition lock_read (me : Z) (l : lock) : outcome :=
  if l_thread l =? me then Returns (set_read_count (l_read_count l + 1) l) true false
  else wait_head Wait_read l (after_wait Wait_read).

(** [TRUE] is failure. *)
Definition lock_read_to_write (me : Z) (l : lock) : outcome :=
  let l := set_read_count (l_read_count l - 1) l in
  if l_thread l =? me then Returns (set_recursion_depth (l_recursion_depth l + 1) l) false false
  else if l_want_upgrade l then
    (* we have released a read lock: wake the one who upgrades *)
    if l_waiting l && (l_read_count l =? 0) then Returns (set_waiting false l) true true
    else Returns l true false
  else wait_head Wait_upgrade (set_want_upgrade true l) (after_wait Wait_upgrade).

Definition lock_try_read_to_write (me : Z) (l : lock) : outcome :=
  if l_thread l =? me then
    Returns (set_recursion_depth (l_recursion_depth l + 1) (set_read_count (l_read_count l - 1) l)) true false
  else if l_want_upgrade l then Returns l false false
  else
    let l := set_want_upgrade true l in
    wait_head Wait_try_upgrade (set_read_count (l_read_count l - 1) l) (after_wait Wait_try_upgrade).
End Wait.

Definition lock_done (l : lock) : outcome :=
  let l :=
    if negb (l_read_count l =? 0) then set_read_count (l_read_count l - 1) l
    else if negb (l_recursion_depth l =? 0) then set_recursion_depth (l_recursion_depth l - 1) l
    else if l_want_upgrade l then set_want_upgrade false l
    else set_want_write false l in
  if l_waiting l && (l_read_count l =? 0) then Returns (set_waiting false l) true true
  else Returns l true false.

Definition lock_write_to_read (l : lock) : outcome :=
  let l := set_read_count (l_read_count l + 1) l in
  let l :=
    if negb (l_recursion_depth l =? 0) then set_recursion_depth (l_recursion_depth l - 1) l
    else if l_want_upgrade l then set_want_upgrade false l
    else set_want_write false l in
  if l_waiting l then Returns (set_waiting false l) true true else Returns l true false.

Definition lock_try_write (me : Z) (l : lock) : outcome :=
  if l_thread l =? me then Returns (set_recursion_depth (l_recursion_depth l + 1) l) true false
  else if l_want_write l || l_want_upgrade l || negb (l_read_count l =? 0) then Returns l false false
  else Returns (set_want_write true l) true false.

Definition lock_try_read (me : Z) (l : lock) : outcome :=
  if l_thread l =? me then Returns (set_read_count (l_read_count l + 1) l) true false
  else if l_want_write l || l_want_upgrade l then Returns l false false
  else Returns (set_read_count (l_read_count l + 1) l) true false.

(** [None] is the panic. *)
Definition lock_set_recursive (me : Z) (l : lock) : option lock :=
  if negb (l_want_write l) then None else Some (set_thread me l).

Definition lock_clear_recursive (me : Z) (l : lock) : option lock :=
  if negb (l_thread l =? me) then None
  else if l_recursion_depth l =? 0 then Some (set_thread NO_THREAD l) else Some l.
