(* ===== verification/KernLockSpec.v ===== *)
(** * Threads that share a lock

    The step relation of threads that use one lock without recursion, and its
    invariant: the fields of the lock count the threads that hold or claim it,
    and whoever sleeps has a reason to; with it the theorems on exclusion and
    progress, and the accounting of recursive locks. *)
From S2P Require Import Prelude Counting KernLock.

(** ** The machine *)

(** What a thread has of the lock: nothing, a read lock, a write lock from
    [lock_write] or from an upgrade; or it waits. *)
Inductive lstate := Free | Reading | Writing | Upgraded | Waiting (w : wait) (h : how).

#[export] Instance wait_eq_dec : EqDecision wait.
Proof. solve_decision. Defined.
#[export] Instance how_eq_dec : EqDecision how.
Proof. solve_decision. Defined.
#[export] Instance lstate_eq_dec : EqDecision lstate.
Proof. solve_decision. Defined.

Inductive lock_op :=
| Op_write | Op_read | Op_done | Op_upgrade | Op_try_upgrade | Op_downgrade | Op_try_write | Op_try_read | Op_resume.

(** [thread_wakeup]: every thread that sleeps on the lock becomes runnable. *)
Definition wake (a : lstate) : lstate := match a with Waiting w Sleeping => Waiting w Woken | _ => a end.

Definition wakes (wakeup : bool) (ts : gmap Z lstate) : gmap Z lstate := if wakeup then wake <$> ts else ts.

(** The state of a thread after the outcome of a call; [fin] is what it has when
    the call returns. *)
Definition settle (t : Z) (ts : gmap Z lstate) (fin : bool -> lstate) (out : outcome) : option (lock * gmap Z lstate) :=
  match out with
  | Returns l result wakeup => Some (l, wakes wakeup (<[t := fin result]> ts))
  | Waits l w h => Some (l, <[t := Waiting w h]> ts)
  | Hangs => None
  end.

(** What a thread has when its loop has been left and the call returns. *)
Definition acquired (w : wait) : lstate :=
  match w with Wait_write | Wait_readers => Writing | Wait_read => Reading | Wait_upgrade | Wait_try_upgrade => Upgraded end.

Section Machine.
Variable lock_wait_time : Z.

Definition lock_exec (t : Z) (op : lock_op) (st : lock * gmap Z lstate) : option (lock * gmap Z lstate) :=
  let '(l, ts) := st in
  LET a <- ts !! t ;;
  match a, op with
  | Free, Op_write => settle t ts (fun _ => Writing) (lock_write lock_wait_time t l)
  | Free, Op_read => settle t ts (fun _ => Reading) (lock_read lock_wait_time t l)
  | Free, Op_try_write => settle t ts (fun ok => if ok then Writing else Free) (lock_try_write t l)
  | Free, Op_try_read => settle t ts (fun ok => if ok then Reading else Free) (lock_try_read t l)
  | Reading, Op_upgrade => settle t ts (fun failed => if failed then Free else Upgraded) (lock_read_to_write lock_wait_time t l)
  | Reading, Op_try_upgrade => settle t ts (fun ok => if ok then Upgraded else Reading) (lock_try_read_to_write lock_wait_time t l)
  | (Reading | Writing | Upgraded), Op_done => settle t ts (fun _ => Free) (lock_done l)
  | (Writing | Upgraded), Op_downgrade => settle t ts (fun _ => Reading) (lock_write_to_read l)
  | Waiting w h, Op_resume => LET out <- lock_resume lock_wait_time w h l ;; settle t ts (fun _ => acquired w) out
  | _, _ => None
  end.

Definition lock_step (st st' : lock * gmap Z lstate) : Prop := exists t op, lock_exec t op st = Some st'.

(** A new lock and threads that do not have it; less than 2^16 of them, and none
    has the address -1. *)
Inductive lock_start : lock * gmap Z lstate -> Prop :=
| lock_start_intro can_sleep ts : (forall t a, ts !! t = Some a -> a = Free /\ t <> NO_THREAD) -> Z.of_nat (size ts) < 2 ^ 16 ->
    lock_start (lock_init can_sleep, ts).

(** ** The invariant *)

Definition is_reading a := match a with Reading => true | _ => false end.
Definition is_writing a := match a with Writing => true | _ => false end.
Definition is_upgraded a := match a with Upgraded => true | _ => false end.
Definition claims_write a := match a with Writing | Waiting Wait_readers _ => true | _ => false end.
Definition claims_upgrade a := match a with Upgraded | Waiting (Wait_upgrade | Wait_try_upgrade) _ => true | _ => false end.

Record lock_inv (l : lock) (ts : gmap Z lstate) : Prop := {
  li_thread : l_thread l = NO_THREAD /\ forall t a, ts !! t = Some a -> t <> NO_THREAD;
  li_depth : l_recursion_depth l = 0;
  li_reads : l_read_count l = count_pc is_reading ts;
  li_write : b2z (l_want_write l) = count_pc claims_write ts;
  li_upgrade : b2z (l_want_upgrade l) = count_pc claims_upgrade ts;
  li_writing : 0 < count_pc is_writing ts -> count_pc is_reading ts = 0 /\ count_pc claims_upgrade ts = 0;
  li_upgraded : 0 < count_pc is_upgraded ts -> count_pc is_reading ts = 0 /\ count_pc is_writing ts = 0;
  li_sleep : forall t w, ts !! t = Some (Waiting w Sleeping) -> l_waiting l = true /\ blocked w l = true;
  li_size : Z.of_nat (size ts) < 2 ^ 16
}.

Lemma lock_start_inv st : lock_start st -> lock_inv st.1 st.2.
Proof using.
  intros [cs ts Hts Hsz]. cbn. assert (forall f, f Free = false -> count_pc f ts = 0) as Hc.
  { intros f Hf. pose proof (count_nonneg f ts). destruct (decide (0 < count_pc f ts)) as [H0|]; [|lia].
    destruct (count_exists f ts H0) as (t & a & Ht & Hfa). destruct (Hts t a Ht) as [-> _]. congruence. }
  constructor; cbn; rewrite ?Hc by done; try done; try lia.
  - split; [done|]. intros t a Ht. apply (Hts t a Ht).
  - intros t w Ht. by destruct (Hts _ _ Ht) as [? _].
Qed.

(** ** One thread moves *)

Lemma wake_class (f : lstate -> bool) a : (forall w, f (Waiting w Sleeping) = f (Waiting w Woken)) -> f (wake a) = f a.
Proof using. intros Hf. by destruct a as [| | | |w []]; cbn. Qed.

Lemma wakes_count f wakeup ts : (forall w, f (Waiting w Sleeping) = f (Waiting w Woken)) -> count_pc f (wakes wakeup ts) = count_pc f ts.
Proof using. intros Hf. destruct wakeup; [|done]. apply count_fmap. intros a. by apply wake_class. Qed.

Lemma wakes_size wakeup ts : size (wakes wakeup ts) = size ts.
Proof using. destruct wakeup; [apply map_size_fmap|done]. Qed.

(** The thread goes from [a] to [b] and the lock from [l] to [l']. *)
Record lock_move l ts t a b l' (wakeup : bool) : Prop := {
  mv_thread : l_thread l' = l_thread l /\ l_recursion_depth l' = l_recursion_depth l;
  mv_reads : l_read_count l' = l_read_count l - b2z (is_reading a) + b2z (is_reading b);
  mv_write : b2z (l_want_write l') = b2z (l_want_write l) - b2z (claims_write a) + b2z (claims_write b);
  mv_upgrade : b2z (l_want_upgrade l') = b2z (l_want_upgrade l) - b2z (claims_upgrade a) + b2z (claims_upgrade b);
  mv_reading : b = Reading -> a <> Reading -> count_pc is_writing ts = b2z (is_writing a) /\ count_pc is_upgraded ts = b2z (is_upgraded a);
  mv_writing : b = Writing -> l_read_count l' = 0 /\ l_want_upgrade l' = false;
  mv_upgraded : b = Upgraded -> l_read_count l' = 0 /\ count_pc is_writing ts = 0;
  mv_claim : claims_upgrade b = true -> count_pc is_writing ts = 0;
  mv_sleeps : forall w, b = Waiting w Sleeping -> l_waiting l' = true /\ blocked w l' = true /\ wakeup = false;
  mv_others : wakeup = false -> forall t' w, t' <> t -> ts !! t' = Some (Waiting w Sleeping) ->
    l_waiting l = true -> blocked w l = true -> l_waiting l' = true /\ blocked w l' = true
}.

Lemma lock_move_inv l ts t a b l' wakeup : lock_inv l ts -> ts !! t = Some a -> lock_move l ts t a b l' wakeup ->
  lock_inv l' (wakes wakeup (<[t := b]> ts)).
Proof using.
  intros [[Ht Htn] Hd Hr Hw Hu Hwr Hup Hs Hsz] Ha [[Mt Md] Mr Mw Mu Mrd Mwr Mup Mcl Msl Mo].
  assert (forall f, (forall w, f (Waiting w Sleeping) = f (Waiting w Woken)) ->
    count_pc f (wakes wakeup (<[t := b]> ts)) = count_pc f ts - b2z (f a) + b2z (f b)) as Hc.
  { intros f Hf. by rewrite wakes_count, (count_insert f ts t a b Ha). }
  pose proof (count_le is_writing ts t a Ha) as Lw. pose proof (count_le is_upgraded ts t a Ha) as Lu. pose proof (count_le is_reading ts t a Ha) as Lr.
  pose proof (count_le claims_upgrade ts t a Ha) as Lc. pose proof (count_nonneg is_reading ts). pose proof (count_nonneg claims_upgrade ts).
  assert (count_pc is_writing ts <= count_pc claims_write ts) as Mw' by (apply count_mono; by intros []).
  assert (count_pc is_upgraded ts <= count_pc claims_upgrade ts) as Mu' by (apply count_mono; by intros []).
  assert (count_pc is_upgraded (wakes wakeup (<[t := b]> ts)) <= count_pc claims_upgrade (wakes wakeup (<[t := b]> ts))) as Mn by (apply count_mono; by intros []).
  rewrite !Hc in Mn by done.
  constructor.
  - split; [congruence|]. intros t' x Hx. assert (is_Some (<[t := b]> ts !! t')) as [y Hy].
    { destruct wakeup; [|by eexists]. cbn in Hx. rewrite lookup_fmap in Hx. destruct (<[t := b]> ts !! t'); [by eexists|done]. }
    apply lookup_insert_Some in Hy as [[<- _]|[_ Hy]]; [by eapply Htn|by eapply Htn].
  - congruence.
  - rewrite Hc by done. lia.
  - rewrite Hc by done. lia.
  - rewrite Hc by done. lia.
  - rewrite !Hc by done. intros Hpos. assert (b2z (is_writing b) = 1 \/ 0 < count_pc is_writing ts) as [Hb|Hold] by (destruct a, b; cbn in *; lia).
    { destruct b; try done. destruct (Mwr eq_refl) as [E1 E2]. rewrite E2 in Mu. cbn in *. lia. }
    destruct (Hwr Hold). split; [|destruct (claims_upgrade b) eqn:Eb; [specialize (Mcl eq_refl); lia|destruct (claims_upgrade a); cbn in *; lia]].
    destruct (decide (b = Reading)) as [->|]; [|destruct b; try done; destruct (is_reading a); cbn in *; lia].
    destruct (decide (a = Reading)) as [->|Hne]; [cbn in *; lia|]. destruct (Mrd eq_refl Hne). destruct a; cbn in *; lia.
  - rewrite !Hc by done. intros Hpos. assert (b2z (is_upgraded b) = 1 \/ 0 < count_pc is_upgraded ts) as [Hb|Hold] by (destruct a, b; cbn in *; lia).
    { destruct b; try done. destruct (Mup eq_refl) as [E1 E2]. cbn in *. destruct a; cbn in *; lia. }
    destruct (Hup Hold) as [Hr0 Hw0]. split.
    + destruct (decide (b = Reading)) as [->|]; [|destruct b; try done; destruct (is_reading a); cbn in *; lia].
      destruct (decide (a = Reading)) as [->|Hne]; [cbn in *; lia|]. destruct (Mrd eq_refl Hne). destruct a; cbn in *; lia.
    + destruct (decide (b = Writing)) as [->|]; [|destruct b; try done; destruct (is_writing a); cbn in *; lia].
      destruct (Mwr eq_refl) as [E1 E2]. rewrite E2 in Mu. cbn in Mu, Mn, Hpos |- *. lia.
  - intros t' w Hx. destruct wakeup.
    + exfalso. cbn in Hx. rewrite lookup_fmap in Hx. destruct (<[t := b]> ts !! t') as [x|]; [|done]. cbn in Hx. injection Hx as Hx.
      by destruct x as [| | | |w' []].
    + cbn in Hx. apply lookup_insert_Some in Hx as [[<- ->]|[Hne Hx]]; [destruct (Msl w eq_refl) as (? & ? & _); done|].
      destruct (Hs _ _ Hx) as [? ?]. by eapply Mo.
  - rewrite wakes_size, map_size_insert_Some; [done|by eexists].
Qed.

(** ** What the invariant says of one thread *)

Lemma inv_reads l ts : lock_inv l ts -> 0 <= l_read_count l < 2 ^ 16.
Proof using. intros [_ _ Hr _ _ _ _ _ Hsz]. pose proof (count_nonneg is_reading ts). pose proof (count_size is_reading ts). lia. Qed.

(** There is room for one more reader. *)
Lemma inv_room l ts t a : lock_inv l ts -> ts !! t = Some a -> a <> Reading -> l_read_count l + 1 < 2 ^ 16.
Proof using.
  intros [_ _ Hr _ _ _ _ _ Hsz] Ha Hne. pose proof (count_size is_reading (<[t := Reading]> ts)) as H.
  rewrite (count_insert is_reading ts t a Reading Ha), map_size_insert_Some in H by (by eexists). destruct a; cbn in *; try done; lia.
Qed.

Lemma inv_reading l ts t : lock_inv l ts -> ts !! t = Some Reading -> 1 <= l_read_count l.
Proof using. intros [_ _ Hr _ _ _ _ _ _] Ha. pose proof (count_le is_reading ts t _ Ha). cbn in *. lia. Qed.

Lemma inv_no_owner l ts t a : lock_inv l ts -> ts !! t = Some a -> (l_thread l =? t) = false.
Proof using. intros Hi Ha. destruct (li_thread _ _ Hi) as [-> Hn]. apply Z.eqb_neq. symmetry. by eapply Hn. Qed.

Lemma inv_claims_write l ts t a : lock_inv l ts -> ts !! t = Some a -> claims_write a = true -> l_want_write l = true.
Proof using. intros Hi Ha Hc. pose proof (count_le claims_write ts t _ Ha). rewrite Hc in *. pose proof (li_write _ _ Hi). destruct (l_want_write l); cbn in *; [done|lia]. Qed.

Lemma inv_claims_upgrade l ts t a : lock_inv l ts -> ts !! t = Some a -> claims_upgrade a = true -> l_want_upgrade l = true.
Proof using. intros Hi Ha Hc. pose proof (count_le claims_upgrade ts t _ Ha). rewrite Hc in *. pose proof (li_upgrade _ _ Hi). destruct (l_want_upgrade l); cbn in *; [done|lia]. Qed.

Lemma inv_no_writer l ts : lock_inv l ts ->
  l_want_write l = false \/ l_want_upgrade l = true \/ l_read_count l <> 0 -> count_pc is_writing ts = 0.
Proof using.
  intros Hi Hor. pose proof (count_nonneg is_writing ts). assert (count_pc is_writing ts <= count_pc claims_write ts) by (apply count_mono; by intros []).
  destruct Hi as [_ _ Hr Hw Hu Hwr _ _ _]. destruct (decide (0 < count_pc is_writing ts)) as [Hp|]; [|lia]. destruct (Hwr Hp) as [E1 E2].
  destruct Hor as [E|[E|E]]; rewrite ?E in *; cbn in *; lia.
Qed.

Lemma inv_no_upgraded l ts : lock_inv l ts -> l_want_upgrade l = false \/ l_read_count l <> 0 -> count_pc is_upgraded ts = 0.
Proof using.
  intros Hi Hor. pose proof (count_nonneg is_upgraded ts). assert (count_pc is_upgraded ts <= count_pc claims_upgrade ts) by (apply count_mono; by intros []).
  destruct Hi as [_ _ Hr Hw Hu _ Hup _ _]. destruct (decide (0 < count_pc is_upgraded ts)) as [Hp|]; [|lia]. destruct (Hup Hp) as [E1 E2].
  destruct Hor as [E|E]; rewrite ?E in *; cbn in *; lia.
Qed.

(** A thread that has the lock for writing. *)
Lemma inv_is_writing l ts t : lock_inv l ts -> ts !! t = Some Writing ->
  l_read_count l = 0 /\ l_want_upgrade l = false /\ count_pc is_writing ts = 1 /\ count_pc is_upgraded ts = 0.
Proof using.
  intros Hi Ha. pose proof (count_le is_writing ts t _ Ha) as Hp. cbn in Hp. destruct (li_writing _ _ Hi ltac:(lia)) as [E1 E2].
  pose proof (li_upgrade _ _ Hi). pose proof (li_reads _ _ Hi). pose proof (li_write _ _ Hi).
  assert (count_pc is_writing ts <= count_pc claims_write ts) by (apply count_mono; by intros []).
  assert (l_want_upgrade l = false) as E by (destruct (l_want_upgrade l); cbn in *; [lia|done]).
  repeat split; [lia|done|destruct (l_want_write l); cbn in *; lia|]. apply (inv_no_upgraded l); auto.
Qed.

Lemma inv_is_upgraded l ts t : lock_inv l ts -> ts !! t = Some Upgraded ->
  l_read_count l = 0 /\ l_want_upgrade l = true /\ count_pc is_writing ts = 0 /\ count_pc is_upgraded ts = 1.
Proof using.
  intros Hi Ha. pose proof (count_le is_upgraded ts t _ Ha) as Hp. cbn in Hp. destruct (li_upgraded _ _ Hi ltac:(lia)) as [E1 E2].
  pose proof (li_reads _ _ Hi). pose proof (li_upgrade _ _ Hi). pose proof (inv_claims_upgrade l ts t _ Hi Ha eq_refl) as E.
  assert (count_pc is_upgraded ts <= count_pc claims_upgrade ts) by (apply count_mono; by intros []).
  rewrite E in *. cbn in *. repeat split; lia.
Qed.

(** ** The operations keep the invariant *)

(** What an outcome of a call of the thread [t] in the state [a] must be. *)
Definition lock_good l ts t a (fin : bool -> lstate) (out : outcome) : Prop :=
  match out with
  | Returns l' result wakeup => lock_move l ts t a (fin result) l' wakeup
  | Waits l' w h => lock_move l ts t a (Waiting w h) l' false
  | Hangs => True
  end.

Lemma outcome_inv l ts t a fin out st' : lock_inv l ts -> ts !! t = Some a -> lock_good l ts t a fin out ->
  settle t ts fin out = Some st' -> lock_inv st'.1 st'.2.
Proof using.
  intros Hi Ha Hg Hs. destruct out as [l' r wk|l' w h|]; cbn in Hs; [| |done]; injection Hs as <-; cbn.
  - by eapply lock_move_inv.
  - by eapply (lock_move_inv _ _ _ _ _ _ false).
Qed.

(** The head of a loop: the thread goes on, spins or sleeps. *)
Lemma wait_head_good l ts t a fin w l' k :
  (blocked w l' = false -> lock_good l ts t a fin (k l')) ->
  (blocked w l' = true -> lock_move l ts t a (Waiting w Spinning) l' false) ->
  (blocked w l' = true -> lock_move l ts t a (Waiting w Sleeping) (set_waiting true l') false) ->
  lock_good l ts t a fin (wait_head lock_wait_time w l' k).
Proof using.
  intros Hk Hsp Hsl. unfold wait_head. destruct (blocked w l') eqn:E; cbn [negb]; [|by apply Hk].
  destruct w; try (by apply Hsl); (destruct (0 <? lock_wait_time); [by apply Hsp|]); (destruct (l_can_sleep l'); [by apply Hsl|done]).
Qed.
End Machine.

(** ** Mutual exclusion and progress of the locks

    Every operation keeps the invariant of the threads that share a lock; with it
    the theorems on exclusion, sleeping and progress, and the accounting of
    recursive locks. *)

Lemma u16_small x : 0 <= x < 2 ^ 16 -> u16 x = x.
Proof. apply Z.mod_small. Qed.

Lemma u12_small x : 0 <= x < 2 ^ 12 -> u12 x = x.
Proof. apply Z.mod_small. Qed.

(** A move: the fields of the lock are computed, the sleepers' conditions are
    compared. *)
Ltac bool_cases :=
  repeat match goal with
  | |- context [?x =? ?y] => destruct (Z.eqb_spec x y)
  | H : context [?x =? ?y] |- _ => destruct (Z.eqb_spec x y)
  | |- context [b2z ?b] => is_var b; destruct b
  end.

Ltac lock_fields := cbn [l_thread l_read_count l_want_upgrade l_want_write l_waiting l_can_sleep l_recursion_depth
  set_thread set_read_count set_want_upgrade set_want_write set_waiting set_can_sleep set_recursion_depth blocked
  is_reading is_writing is_upgraded claims_write claims_upgrade b2z orb andb negb] in *.

Ltac solve_move :=
  constructor; lock_fields; rewrite ?u16_small by lia; intros;
  repeat match goal with H : _ || _ = false |- _ => apply orb_false_iff in H as [? ?] end;
  repeat match goal with w : wait |- _ => destruct w end; lock_fields; subst; simplify_eq;
  repeat match goal with H : ?b = true |- _ => rewrite H in * end;
  repeat match goal with H : ?b = false |- _ => rewrite H in * end; lock_fields;
  rewrite ?orb_true_r, ?orb_false_r, ?u16_small in * by lia; bool_cases; try done; try lia; try (split; done || lia); rewrite ?Z.add_0_r; try solve [intuition (done || lia)].

(** Nobody else upgrades. *)
Ltac no_upgrade Hi :=
  match goal with H : _ !! _ = Some (Waiting _ Sleeping), E : l_want_upgrade _ = false |- _ =>
    by rewrite (inv_claims_upgrade _ _ _ _ Hi H eq_refl) in E
  end.

Section Ops.
Variable lock_wait_time : Z.
Variables (l : lock) (ts : gmap Z lstate) (t : Z).
Hypothesis Hi : lock_inv l ts.

Lemma lock_write_good : ts !! t = Some Free -> lock_good l ts t Free (fun _ => Writing) (lock_write lock_wait_time t l).
Proof using Hi.
  intros Ha. unfold lock_write. rewrite (inv_no_owner l ts t Free Hi Ha). pose proof (inv_reads _ _ Hi).
  apply wait_head_good; [intros E1; apply wait_head_good; intros E2|intros E1|intros E1]; cbn [lock_good]; solve_move.
Qed.

Lemma lock_read_good : ts !! t = Some Free -> lock_good l ts t Free (fun _ => Reading) (lock_read lock_wait_time t l).
Proof using Hi.
  intros Ha. unfold lock_read. rewrite (inv_no_owner l ts t Free Hi Ha). pose proof (inv_reads _ _ Hi).
  pose proof (inv_room l ts t Free Hi Ha ltac:(done)). pose proof (inv_no_writer l ts Hi). pose proof (inv_no_upgraded l ts Hi).
  apply wait_head_good; intros E1; cbn [lock_good after_wait]; solve_move.
Qed.

Lemma lock_try_write_good : ts !! t = Some Free -> lock_good l ts t Free (fun ok => if ok then Writing else Free) (lock_try_write t l).
Proof using Hi.
  intros Ha. unfold lock_try_write. rewrite (inv_no_owner l ts t Free Hi Ha). pose proof (inv_reads _ _ Hi).
  destruct (l_want_write l) eqn:E1, (l_want_upgrade l) eqn:E2, (Z.eqb_spec (l_read_count l) 0); cbn [orb negb lock_good]; solve_move.
Qed.

Lemma lock_try_read_good : ts !! t = Some Free -> lock_good l ts t Free (fun ok => if ok then Reading else Free) (lock_try_read t l).
Proof using Hi.
  intros Ha. unfold lock_try_read. rewrite (inv_no_owner l ts t Free Hi Ha). pose proof (inv_reads _ _ Hi).
  pose proof (inv_room l ts t Free Hi Ha ltac:(done)). pose proof (inv_no_writer l ts Hi). pose proof (inv_no_upgraded l ts Hi).
  destruct (l_want_write l) eqn:E1, (l_want_upgrade l) eqn:E2; cbn [orb negb lock_good]; solve_move.
Qed.

Lemma lock_read_to_write_good : ts !! t = Some Reading ->
  lock_good l ts t Reading (fun failed => if failed then Free else Upgraded) (lock_read_to_write lock_wait_time t l).
Proof using Hi.
  intros Ha. unfold lock_read_to_write. cbn [l_thread set_read_count]. rewrite (inv_no_owner l ts t _ Hi Ha). pose proof (inv_reads _ _ Hi).
  pose proof (inv_reading l ts t Hi Ha). assert (count_pc is_writing ts = 0) by (apply (inv_no_writer l ts Hi); right; right; lia).
  lock_fields. destruct (l_want_upgrade l) eqn:E2.
  - rewrite u16_small by lia. destruct (l_waiting l) eqn:E3, (Z.eqb_spec (l_read_count l - 1) 0); cbn [andb lock_good]; solve_move.
  - apply wait_head_good; intros E1; cbn [lock_good after_wait]; lock_fields; rewrite u16_small in E1 by lia; solve_move; no_upgrade Hi.
Qed.

Lemma lock_try_read_to_write_good : ts !! t = Some Reading ->
  lock_good l ts t Reading (fun ok => if ok then Upgraded else Reading) (lock_try_read_to_write lock_wait_time t l).
Proof using Hi.
  intros Ha. unfold lock_try_read_to_write. rewrite (inv_no_owner l ts t _ Hi Ha). pose proof (inv_reads _ _ Hi).
  pose proof (inv_reading l ts t Hi Ha). assert (count_pc is_writing ts = 0) by (apply (inv_no_writer l ts Hi); right; right; lia).
  destruct (l_want_upgrade l) eqn:E2; [cbn [lock_good]; solve_move|].
  apply wait_head_good; intros E1; cbn [lock_good after_wait]; lock_fields; rewrite u16_small in E1 by lia; solve_move; no_upgrade Hi.
Qed.

Lemma lock_done_good a : ts !! t = Some a -> a = Reading \/ a = Writing \/ a = Upgraded -> lock_good l ts t a (fun _ => Free) (lock_done l).
Proof using Hi.
  intros Ha Hor. unfold lock_done. pose proof (inv_reads _ _ Hi). rewrite (li_depth _ _ Hi). destruct Hor as [->|[->| ->]].
  - pose proof (inv_reading l ts t Hi Ha). destruct (Z.eqb_spec (l_read_count l) 0); [lia|]. lock_fields. rewrite u16_small by lia.
    destruct (l_waiting l) eqn:E3, (Z.eqb_spec (l_read_count l - 1) 0); cbn [andb lock_good]; solve_move.
  - destruct (inv_is_writing l ts t Hi Ha) as (E1 & E2 & _ & _). pose proof (inv_claims_write l ts t _ Hi Ha eq_refl) as E4. rewrite E1, E2. cbn [Z.eqb negb].
    lock_fields. rewrite E1. destruct (l_waiting l) eqn:E3; cbn [andb Z.eqb lock_good]; solve_move.
  - destruct (inv_is_upgraded l ts t Hi Ha) as (E1 & E2 & _ & _). rewrite E1, E2. cbn [Z.eqb negb].
    lock_fields. rewrite E1. destruct (l_waiting l) eqn:E3; cbn [andb Z.eqb lock_good]; solve_move.
Qed.

Lemma lock_write_to_read_good a : ts !! t = Some a -> a = Writing \/ a = Upgraded -> lock_good l ts t a (fun _ => Reading) (lock_write_to_read l).
Proof using Hi.
  intros Ha Hor. unfold lock_write_to_read. pose proof (inv_reads _ _ Hi). lock_fields. rewrite (li_depth _ _ Hi). cbn [Z.eqb negb]. destruct Hor as [->| ->].
  - destruct (inv_is_writing l ts t Hi Ha) as (E1 & E2 & E5 & E6). pose proof (inv_claims_write l ts t _ Hi Ha eq_refl) as E4. rewrite E1, E2.
    lock_fields. destruct (l_waiting l) eqn:E3; cbn [andb Z.eqb lock_good]; solve_move.
  - destruct (inv_is_upgraded l ts t Hi Ha) as (E1 & E2 & E5 & E6). rewrite E1, E2.
    lock_fields. destruct (l_waiting l) eqn:E3; cbn [andb Z.eqb lock_good]; solve_move.
Qed.

Lemma lock_resume_good w h out : ts !! t = Some (Waiting w h) -> lock_resume lock_wait_time w h l = Some out ->
  lock_good l ts t (Waiting w h) (fun _ => acquired w) out.
Proof using Hi.
  intros Ha Hr. pose proof (inv_reads _ _ Hi). pose proof (inv_room l ts t _ Hi Ha ltac:(done)).
  pose proof (inv_no_writer l ts Hi) as Hnw. pose proof (inv_no_upgraded l ts Hi) as Hnu.
  pose proof (inv_claims_write l ts t _ Hi Ha) as Hcw. pose proof (inv_claims_upgrade l ts t _ Hi Ha) as Hcu.
  assert (lock_good l ts t (Waiting w h) (fun _ => acquired w) (wait_head lock_wait_time w l (after_wait lock_wait_time w))) as Hhead.
  { apply wait_head_good; intros E1; destruct w; cbn [lock_good after_wait acquired write_readers]; try solve_move.
    apply wait_head_good; intros E2; cbn [lock_good]; solve_move. }
  destruct h; cbn [lock_resume] in Hr; [|done|by injection Hr as <-]. injection Hr as <-.
  destruct (l_can_sleep l && blocked w l) eqn:E; [|done]. apply andb_true_iff in E as [_ E]. cbn [wait_sleep lock_good]. destruct w; solve_move.
Qed.
End Ops.

(** ** The reachable states *)

Section Machine.
Variable lock_wait_time : Z.

Lemma lock_step_inv st st' : lock_inv st.1 st.2 -> lock_step lock_wait_time st st' -> lock_inv st'.1 st'.2.
Proof using.
  destruct st as [l ts]. cbn [fst snd]. intros Hi (t & op & He). unfold lock_exec in He. cbn beta iota in He. unfold mbind, option_bind in He.
  destruct (ts !! t) as [a|] eqn:Ha; [|done].
  destruct a as [| | | |w h], op; try done; try (eapply outcome_inv; [exact Hi|exact Ha| |exact He]).
  - by apply lock_write_good.
  - by apply lock_read_good.
  - by apply lock_try_write_good.
  - by apply lock_try_read_good.
  - by apply lock_done_good; auto.
  - by apply lock_read_to_write_good.
  - by apply lock_try_read_to_write_good.
  - by apply lock_done_good; auto.
  - by apply lock_write_to_read_good; auto.
  - by apply lock_done_good; auto.
  - by apply lock_write_to_read_good; auto.
  - destruct (lock_resume lock_wait_time w h l) as [out|] eqn:E; [|done]. eapply outcome_inv; [exact Hi|exact Ha| |exact He].
    by eapply lock_resume_good.
Qed.

Lemma lock_reach_inv st st' : lock_start st -> rtc (lock_step lock_wait_time) st st' -> lock_inv st'.1 st'.2.
Proof using. intros Hs Hr. apply lock_start_inv in Hs. induction Hr; [done|]. eauto using lock_step_inv. Qed.

(** What a thread holds. *)
Definition holds (a : lstate) : bool := match a with Reading | Writing | Upgraded => true | _ => false end.
Definition exclusive (a : lstate) : bool := match a with Writing | Upgraded => true | _ => false end.

Lemma inv_excludes l ts t1 t2 a1 a2 : lock_inv l ts -> t1 <> t2 -> ts !! t1 = Some a1 -> ts !! t2 = Some a2 -> exclusive a1 = true -> holds a2 = false.
Proof using.
  intros Hi Hne H1 H2 Hx. pose proof (count_two is_writing ts t1 t2 _ _ Hne H1 H2). pose proof (count_two is_upgraded ts t1 t2 _ _ Hne H1 H2).
  pose proof (count_le is_reading ts t2 _ H2). pose proof (li_reads _ _ Hi).
  destruct a1; try done; [destruct (inv_is_writing l ts t1 Hi H1) as (? & ? & ? & ?)|destruct (inv_is_upgraded l ts t1 Hi H1) as (? & ? & ? & ?)];
    destruct a2; cbn in *; done || lia.
Qed.

(** C4: In every state the threads of a lock can reach, in any interleaving of
    their calls and waits, a thread that has the lock for writing, from
    [lock_write], [lock_try_write] or an upgrade, excludes every other holder;
    the 16-bit [read_count] is the exact number of the readers; and a thread
    sleeps only with the condition it waits for false and the [waiting] bit set
    for whoever changes it. *)
Theorem lock_excludes st l ts t1 t2 a1 a2 w : lock_start st -> rtc (lock_step lock_wait_time) st (l, ts) ->
  t1 <> t2 -> ts !! t1 = Some a1 -> ts !! t2 = Some a2 ->
  (exclusive a1 = true -> holds a2 = false) /\
  l_read_count l = count_pc is_reading ts /\
  (a2 = Waiting w Sleeping -> l_waiting l = true /\ blocked w l = true).
Proof using.
  intros Hs Hr Hne H1 H2. pose proof (lock_reach_inv _ _ Hs Hr) as Hi. cbn in Hi. split; [|split].
  - by eapply inv_excludes.
  - apply li_reads, Hi.
  - intros ->. by eapply li_sleep.
Qed.

(** ** Progress *)

(** A waiter whose condition holds and who does not sleep gets the lock with its
    next step. *)
Lemma resume_acquires l ts t w h : lock_inv l ts -> ts !! t = Some (Waiting w h) -> blocked w l = false ->
  (w = Wait_write -> blocked Wait_readers l = false) ->
  exists st', lock_exec lock_wait_time t Op_resume (l, ts) = Some st' /\ st'.2 !! t = Some (acquired w).
Proof using.
  intros Hi Ha Hb Hw. assert (h <> Sleeping) as Hns by (intros ->; destruct (li_sleep _ _ Hi _ _ Ha); congruence).
  unfold lock_exec. rewrite Ha. cbn [mbind option_bind].
  assert (lock_resume lock_wait_time w h l = Some (after_wait lock_wait_time w l)) as ->.
  { destruct h; [|done|]; cbn [lock_resume]; unfold wait_head; rewrite Hb, ?andb_false_r; done. }
  cbn [mbind option_bind]. destruct w; cbn [after_wait settle acquired wakes]; try (eexists; split; [done|apply lookup_insert_eq]).
  unfold write_readers, wait_head. replace (blocked Wait_readers (set_want_write true l)) with (blocked Wait_readers l) by done.
  rewrite Hw by done. cbn. eexists. split; [done|apply lookup_insert_eq].
Qed.

(** C5: Whenever nobody holds the lock and some thread waits for it, asleep or
    spinning, some waiter can run, and with its next step it has the lock: no
    wake-up is lost and the waiters never block each other. *)
Theorem lock_progress st l ts t w h : lock_start st -> rtc (lock_step lock_wait_time) st (l, ts) ->
  (forall t a, ts !! t = Some a -> holds a = false) -> ts !! t = Some (Waiting w h) ->
  exists t' w' h' st', ts !! t' = Some (Waiting w' h') /\ lock_exec lock_wait_time t' Op_resume (l, ts) = Some st' /\
    st'.2 !! t' = Some (acquired w').
Proof using.
  intros Hs Hr Hn Ht. pose proof (lock_reach_inv _ _ Hs Hr) as Hi. cbn in Hi.
  assert (l_read_count l = 0) as Hrc.
  { rewrite (li_reads _ _ Hi). pose proof (count_nonneg is_reading ts). destruct (decide (0 < count_pc is_reading ts)) as [Hp|]; [|lia].
    destruct (count_exists is_reading ts Hp) as (t' & a & Ha & Hf). specialize (Hn _ _ Ha). by destruct a. }
  destruct (l_want_upgrade l) eqn:Eu.
  { destruct (count_exists claims_upgrade ts) as (t' & a & Ha & Hf); [rewrite <- (li_upgrade _ _ Hi), Eu; done|].
    specialize (Hn _ _ Ha). destruct a as [| | | |w' h']; try done. exists t', w', h'.
    destruct (resume_acquires l ts t' w' h' Hi Ha) as (st' & ? & ?); [destruct w'; cbn in *; try done; by rewrite Hrc|by intros ->|by exists st']. }
  destruct (l_want_write l) eqn:Ew.
  { destruct (count_exists claims_write ts) as (t' & a & Ha & Hf); [rewrite <- (li_write _ _ Hi), Ew; done|].
    specialize (Hn _ _ Ha). destruct a as [| | | |w' h']; try done. exists t', w', h'.
    destruct (resume_acquires l ts t' w' h' Hi Ha) as (st' & ? & ?); [destruct w'; cbn in *; try done; by rewrite Hrc, Eu|by intros ->|by exists st']. }
  exists t, w, h. destruct (resume_acquires l ts t w h Hi Ht) as (st' & ? & ?); [| |by exists st'].
  - destruct w; cbn; by rewrite ?Ew, ?Eu, ?Hrc.
  - intros _. cbn. by rewrite Eu, Hrc.
Qed.
End Machine.

(** ** A run of three threads on a uniprocessor *)

Fixpoint lock_run (ops : list (Z * lock_op)) (st : lock * gmap Z lstate) : option (lock * gmap Z lstate) :=
  match ops with
  | [] => Some st
  | (t, op) :: ops => LET st <- lock_exec 0 t op st ;; lock_run ops st
  end.

Lemma lock_run_rtc ops st st' : lock_run ops st = Some st' -> rtc (lock_step 0) st st'.
Proof.
  revert st. induction ops as [|[t op] ops IH]; intros st; cbn [lock_run]; [by intros [= ->]|].
  destruct (lock_exec 0 t op st) as [st1|] eqn:E; cbn [mbind option_bind]; [|done]. intros H. eapply rtc_l; [by exists t, op|by apply IH].
Qed.

Definition three_threads : gmap Z lstate := <[1 := Free]> (<[2 := Free]> {[3 := Free]}).

Lemma three_threads_start : lock_start (lock_init true, three_threads).
Proof.
  constructor; [|reflexivity]. intros t a H. unfold three_threads, NO_THREAD in *.
  apply lookup_insert_Some in H as [[<- <-]|[_ H]]; [split; [done|lia]|].
  apply lookup_insert_Some in H as [[<- <-]|[_ H]]; [split; [done|lia]|].
  apply lookup_singleton_Some in H as [<- <-]. split; [done|lia].
Qed.

(** Two readers, a writer that sleeps, an upgrade that sleeps, and the last
    reader leaves. *)
Definition upgrade_ops : list (Z * lock_op) := [(1, Op_read); (2, Op_read); (3, Op_write); (1, Op_upgrade)].
Definition upgrade_lock : lock := mk_lock NO_THREAD 1 true true true true 0.
Definition upgrade_threads : gmap Z lstate :=
  <[1 := Waiting Wait_upgrade Sleeping]> (<[2 := Reading]> {[3 := Waiting Wait_readers Sleeping]}).

Lemma upgrade_run : lock_run upgrade_ops (lock_init true, three_threads) = Some (upgrade_lock, upgrade_threads).
Proof. vm_compute. reflexivity. Qed.

Definition woken_lock : lock := mk_lock NO_THREAD 0 true true false true 0.
Definition woken_threads : gmap Z lstate :=
  <[1 := Waiting Wait_upgrade Woken]> (<[2 := Free]> {[3 := Waiting Wait_readers Woken]}).

Lemma woken_run : lock_run (upgrade_ops ++ [(2, Op_done)]) (lock_init true, three_threads) = Some (woken_lock, woken_threads).
Proof. vm_compute. reflexivity. Qed.

Definition upgraded_lock : lock := mk_lock NO_THREAD 0 true true true true 0.
Definition upgraded_threads : gmap Z lstate :=
  <[1 := Upgraded]> (<[2 := Free]> {[3 := Waiting Wait_readers Sleeping]}).

Lemma upgraded_run : lock_run (upgrade_ops ++ [(2, Op_done); (1, Op_resume); (3, Op_resume)]) (lock_init true, three_threads) = Some (upgraded_lock, upgraded_threads).
Proof. vm_compute. reflexivity. Qed.

Lemma lock_excludes_witness :
  (exclusive Upgraded = true -> holds (Waiting Wait_readers Sleeping) = false) /\
  l_read_count upgraded_lock = count_pc is_reading upgraded_threads /\
  (Waiting Wait_readers Sleeping = Waiting Wait_readers Sleeping ->
     l_waiting upgraded_lock = true /\ blocked Wait_readers upgraded_lock = true).
Proof.
  apply (lock_excludes 0 (lock_init true, three_threads) upgraded_lock upgraded_threads 1 3 Upgraded (Waiting Wait_readers Sleeping) Wait_readers);
    [apply three_threads_start|apply (lock_run_rtc _ _ _ upgraded_run)|lia|vm_compute; reflexivity|vm_compute; reflexivity].
Defined.

Lemma lock_progress_witness : exists t' w' h' st', woken_threads !! t' = Some (Waiting w' h') /\
  lock_exec 0 t' Op_resume (woken_lock, woken_threads) = Some st' /\ st'.2 !! t' = Some (acquired w').
Proof.
  apply (lock_progress 0 (lock_init true, three_threads) woken_lock woken_threads 3 Wait_readers Woken);
    [apply three_threads_start|apply (lock_run_rtc _ _ _ woken_run)| |vm_compute; reflexivity].
  intros t a H. unfold woken_threads in H. apply lookup_insert_Some in H as [[_ <-]|[_ H]]; [reflexivity|].
  apply lookup_insert_Some in H as [[_ <-]|[_ H]]; [reflexivity|]. apply lookup_singleton_Some in H as [_ <-]. reflexivity.
Defined.

(** ** Recursive locks *)

(** What the owner of a recursive lock does: it takes the lock again, for
    reading or for writing, and releases it. *)
Inductive owner_op := Own_read | Own_write | Own_try_read | Own_try_write | Own_done.

#[export] Instance owner_op_eq_dec : EqDecision owner_op.
Proof. solve_decision. Defined.

Section Recursion.
Variables (lock_wait_time me : Z).

Definition owner_exec (op : owner_op) (l : lock) : outcome :=
  match op with
  | Own_read => lock_read lock_wait_time me l
  | Own_write => lock_write lock_wait_time me l
  | Own_try_read => lock_try_read me l
  | Own_try_write => lock_try_write me l
  | Own_done => lock_done l
  end.

Fixpoint owner_run (ops : list owner_op) (l : lock) : option lock :=
  match ops with
  | [] => Some l
  | op :: ops => match owner_exec op l with Returns l true _ => owner_run ops l | _ => None end
  end.

(** The sequences in which every release has its acquisition before it, [n]
    deep at the start, with less than 2^12 nested. *)
Fixpoint balanced (n : Z) (ops : list owner_op) : bool :=
  match ops with
  | [] => n =? 0
  | Own_done :: ops => (0 <? n) && balanced (n - 1) ops
  | _ :: ops => (n + 1 <? 2 ^ 12) && balanced (n + 1) ops
  end.

(** The lock of the owner, [r] times for reading and [d] times for writing
    deeper. *)
Definition owned (l : lock) (r d : Z) (waiting : bool) : lock := mk_lock me r (l_want_upgrade l) (l_want_write l) waiting (l_can_sleep l) d.

Lemma owner_done l r d b : 0 <= r < 2 ^ 12 -> 0 <= d < 2 ^ 12 -> 0 < r + d ->
  exists r' d' b' wk, lock_done (owned l r d b) = Returns (owned l r' d' b') true wk /\ r' + d' = r + d - 1 /\ 0 <= r' <= r /\ 0 <= d' <= d.
Proof using.
  intros Hr Hd Hp. unfold lock_done, owned. lock_fields. destruct (Z.eqb_spec r 0) as [->|Hn]; cbn [negb].
  - destruct (Z.eqb_spec d 0) as [->|]; cbn [negb]; [lia|]. unfold set_recursion_depth, set_waiting. lock_fields. rewrite u12_small by lia. cbn [Z.eqb].
    destruct b; cbn [andb]; eexists 0, (d - 1), _, _; split; try reflexivity; lia.
  - unfold set_read_count, set_waiting. lock_fields. rewrite u16_small by lia. destruct (b && (r - 1 =? 0)); eexists (r - 1), d, _, _; split; try reflexivity; lia.
Qed.

Lemma owner_takes l r d b op : 0 <= r -> 0 <= d -> r + d + 1 < 2 ^ 12 -> op <> Own_done ->
  exists r' d', owner_exec op (owned l r d b) = Returns (owned l r' d' b) true false /\ r' + d' = r + d + 1 /\ 0 <= r' /\ 0 <= d'.
Proof using.
  intros Hr Hd Hb Hop. unfold owned. destruct op; try done; cbn [owner_exec]; unfold lock_read, lock_write, lock_try_read, lock_try_write, set_read_count, set_recursion_depth; lock_fields; rewrite Z.eqb_refl;
    rewrite ?u16_small, ?u12_small by lia; first [exists (r + 1), d; split; [reflexivity|lia] | exists r, (d + 1); split; [reflexivity|lia]].
Qed.

Lemma owner_run_total l ops : forall r d b, 0 <= r -> 0 <= d -> r + d < 2 ^ 12 -> balanced (r + d) ops = true ->
  exists b', owner_run ops (owned l r d b) = Some (owned l 0 0 b').
Proof using.
  induction ops as [|op ops IH]; intros r d b Hr Hd Hb; cbn [balanced owner_run].
  { intros E%Z.eqb_eq. assert (r = 0) as -> by lia. assert (d = 0) as -> by lia. by eexists. }
  destruct (decide (op = Own_done)) as [->|Hop].
  - intros [Hp%Z.ltb_lt Hbal]%andb_true_iff. cbn [owner_exec].
    destruct (owner_done l r d b ltac:(lia) ltac:(lia) Hp) as (r' & d' & b' & wk & -> & Hs & Hr' & Hd').
    apply IH; [lia|lia|lia|]. by rewrite Hs.
  - intros Hbal. assert (r + d + 1 < 2 ^ 12 /\ balanced (r + d + 1) ops = true) as [Hlt Hbal'].
    { destruct op; try done; apply andb_true_iff in Hbal as [?%Z.ltb_lt ?]; done. }
    destruct (owner_takes l r d b op Hr Hd Hlt Hop) as (r' & d' & -> & Hs & Hr' & Hd'). apply IH; [lia|lia|lia|]. by rewrite Hs.
Qed.

(** The owner of a lock it made recursive takes it again for reading and
    writing and releases it in any balanced order, less than 2^12 deep: no call
    waits or fails, and afterwards [lock_clear_recursive] gives back the lock
    held for writing as it was, but for the [waiting] bit. *)
Lemma lock_recursion l ops : l_thread l = NO_THREAD -> l_read_count l = 0 -> l_recursion_depth l = 0 -> l_want_write l = true -> balanced 0 ops = true ->
  exists l1 l2 waiting, lock_set_recursive me l = Some l1 /\ owner_run ops l1 = Some l2 /\
    lock_clear_recursive me l2 = Some (set_waiting waiting l).
Proof using.
  intros Ht Hr Hd Hw Hb. unfold lock_set_recursive. rewrite Hw. cbn [negb].
  destruct (owner_run_total l ops 0 0 (l_waiting l) ltac:(lia) ltac:(lia) ltac:(lia) Hb) as [b' E].
  exists (owned l 0 0 (l_waiting l)), (owned l 0 0 b'), b'. split; [|split; [done|]].
  - unfold set_thread, owned. rewrite Hr, Hd, Hw. done.
  - unfold lock_clear_recursive, owned. lock_fields. rewrite Z.eqb_refl. cbn [negb Z.eqb]. unfold set_thread, set_waiting. lock_fields. by rewrite Ht, Hr, Hd.
Qed.
End Recursion.

Definition written_lock : lock := mk_lock NO_THREAD 0 false true true true 0.

Lemma lock_recursion_witness : exists l1 l2 waiting, lock_set_recursive 7 written_lock = Some l1 /\
  owner_run 100 7 [Own_write; Own_read; Own_done; Own_try_read; Own_done; Own_done] l1 = Some l2 /\
  lock_clear_recursive 7 l2 = Some (set_waiting waiting written_lock).
Proof. apply lock_recursion; reflexivity. Defined.
