(* ===== verification/VmMap.v ===== *)
(** * Address maps (vm/vm_map.c): data and lookup

    An address map is a doubly linked list of entries, sorted by address, with a
    header that holds the bounds.  The list is modelled by the pairs of an
    entry's address and its contents in the order of the links; [HEAD] is the
    address of the header.  What is called in the layers below, objects and
    physical maps, is recorded in a log. *)

From S2P Require Import Prelude.

(** ** Data *)

(** Constants of mach/vm_prot.h, mach/vm_inherit.h. *)
Definition VM_PROT_NONE : Z := 0x00.
Definition VM_PROT_READ : Z := 0x01.
Definition VM_PROT_WRITE : Z := 0x02.
Definition VM_PROT_EXECUTE : Z := 0x04.
Definition VM_PROT_DEFAULT : Z := Z.lor VM_PROT_READ VM_PROT_WRITE.
Definition VM_PROT_ALL : Z := Z.lor VM_PROT_DEFAULT VM_PROT_EXECUTE.
Definition VM_PROT_NOTIFY : Z := 0x10.
Definition VM_INHERIT_SHARE : Z := 0.
Definition VM_INHERIT_COPY : Z := 1.
Definition VM_INHERIT_NONE : Z := 2.
Definition VM_INHERIT_DEFAULT : Z := VM_INHERIT_COPY.
Definition VM_OBJECT_NULL : Z := 0.

(** The codes of mach/kern_return.h the calls return. *)
Inductive vm_return :=
| VM_SUCCESS | VM_INVALID_ADDRESS | VM_PROTECTION_FAILURE | VM_NO_SPACE | VM_INVALID_ARGUMENT | VM_FAILURE | VM_WRITE_PROTECTION_FAILURE.

#[export] Instance vm_return_eq_dec : EqDecision vm_return.
Proof. solve_decision. Defined.

Definition half (x : Z) : Z := x mod 2 ^ 16.

(** [struct vm_map_entry], without the links; the union of an object and a
    submap is one address. *)
Record vm_map_entry := mk_vme {
  vme_start : Z;
  vme_end : Z;
  vme_object : Z;
  vme_offset : Z;
  vme_is_shared : bool;
  vme_is_sub_map : bool;
  vme_in_transition : bool;
  vme_needs_wakeup : bool;
  vme_needs_copy : bool;
  vme_protection : Z;
  vme_max_protection : Z;
  vme_inheritance : Z;
  vme_wired_count : Z;        (* 16 bits *)
  vme_user_wired_count : Z;   (* 16 bits *)
  vme_projected_on : Z
}.

Definition vme_set_range s x e := mk_vme s x (vme_object e) (vme_offset e) (vme_is_shared e) (vme_is_sub_map e) (vme_in_transition e) (vme_needs_wakeup e) (vme_needs_copy e) (vme_protection e) (vme_max_protection e) (vme_inheritance e) (vme_wired_count e) (vme_user_wired_count e) (vme_projected_on e).
Definition vme_set_object o off e := mk_vme (vme_start e) (vme_end e) o off (vme_is_shared e) (vme_is_sub_map e) (vme_in_transition e) (vme_needs_wakeup e) (vme_needs_copy e) (vme_protection e) (vme_max_protection e) (vme_inheritance e) (vme_wired_count e) (vme_user_wired_count e) (vme_projected_on e).
Definition vme_set_sub_map b e := mk_vme (vme_start e) (vme_end e) (vme_object e) (vme_offset e) (vme_is_shared e) b (vme_in_transition e) (vme_needs_wakeup e) (vme_needs_copy e) (vme_protection e) (vme_max_protection e) (vme_inheritance e) (vme_wired_count e) (vme_user_wired_count e) (vme_projected_on e).
Definition vme_set_needs_wakeup b e := mk_vme (vme_start e) (vme_end e) (vme_object e) (vme_offset e) (vme_is_shared e) (vme_is_sub_map e) (vme_in_transition e) b (vme_needs_copy e) (vme_protection e) (vme_max_protection e) (vme_inheritance e) (vme_wired_count e) (vme_user_wired_count e) (vme_projected_on e).
Definition vme_set_needs_copy b e := mk_vme (vme_start e) (vme_end e) (vme_object e) (vme_offset e) (vme_is_shared e) (vme_is_sub_map e) (vme_in_transition e) (vme_needs_wakeup e) b (vme_protection e) (vme_max_protection e) (vme_inheritance e) (vme_wired_count e) (vme_user_wired_count e) (vme_projected_on e).
Definition vme_set_protection p mp e := mk_vme (vme_start e) (vme_end e) (vme_object e) (vme_offset e) (vme_is_shared e) (vme_is_sub_map e) (vme_in_transition e) (vme_needs_wakeup e) (vme_needs_copy e) p mp (vme_inheritance e) (vme_wired_count e) (vme_user_wired_count e) (vme_projected_on e).
Definition vme_set_inheritance i e := mk_vme (vme_start e) (vme_end e) (vme_object e) (vme_offset e) (vme_is_shared e) (vme_is_sub_map e) (vme_in_transition e) (vme_needs_wakeup e) (vme_needs_copy e) (vme_protection e) (vme_max_protection e) i (vme_wired_count e) (vme_user_wired_count e) (vme_projected_on e).
Definition vme_set_wired w u e := mk_vme (vme_start e) (vme_end e) (vme_object e) (vme_offset e) (vme_is_shared e) (vme_is_sub_map e) (vme_in_transition e) (vme_needs_wakeup e) (vme_needs_copy e) (vme_protection e) (vme_max_protection e) (vme_inheritance e) w u (vme_projected_on e).

(** The calls that leave the module. *)
Inductive vm_event :=
| Ev_pmap_protect (start end_ prot : Z)
| Ev_pmap_remove (start end_ : Z)
| Ev_pmap_enter (start end_ object offset prot : Z)
| Ev_object_page_remove (object start end_ : Z)
| Ev_object_pmap_remove (object start end_ : Z)
| Ev_object_reference (object : Z)
| Ev_object_deallocate (object : Z)
| Ev_object_allocate (object size_ : Z)
| Ev_object_shadow (source offset object length : Z)
| Ev_map_reference (sub_map : Z)
| Ev_map_deallocate (sub_map : Z)
| Ev_fault_wire (start end_ : Z)
| Ev_fault_unwire (start end_ : Z)
| Ev_wakeup.

(** How the map's lock is held by the thread that runs. *)
Inductive map_lock := Unlocked | Write_locked | Read_locked.

(** [struct vm_map]; [m_log] holds the calls in order, the last first. *)
Record vm_map := mk_map {
  m_min : Z;
  m_max : Z;
  m_entries : list (Z * vm_map_entry);
  m_nentries : Z;
  m_entries_pageable : bool;
  m_pmap : Z;
  m_size : Z;
  m_ref_count : Z;
  m_hint : Z;
  m_first_free : Z;
  m_wait_for_space : bool;
  m_wiring_required : bool;
  m_timestamp : Z;
  m_lock : map_lock;
  m_log : list vm_event
}.

Definition set_entries l n m := mk_map (m_min m) (m_max m) l n (m_entries_pageable m) (m_pmap m) (m_size m) (m_ref_count m) (m_hint m) (m_first_free m) (m_wait_for_space m) (m_wiring_required m) (m_timestamp m) (m_lock m) (m_log m).
Definition set_size n m := mk_map (m_min m) (m_max m) (m_entries m) (m_nentries m) (m_entries_pageable m) (m_pmap m) n (m_ref_count m) (m_hint m) (m_first_free m) (m_wait_for_space m) (m_wiring_required m) (m_timestamp m) (m_lock m) (m_log m).
Definition set_ref_count n m := mk_map (m_min m) (m_max m) (m_entries m) (m_nentries m) (m_entries_pageable m) (m_pmap m) (m_size m) n (m_hint m) (m_first_free m) (m_wait_for_space m) (m_wiring_required m) (m_timestamp m) (m_lock m) (m_log m).
Definition set_hint p m := mk_map (m_min m) (m_max m) (m_entries m) (m_nentries m) (m_entries_pageable m) (m_pmap m) (m_size m) (m_ref_count m) p (m_first_free m) (m_wait_for_space m) (m_wiring_required m) (m_timestamp m) (m_lock m) (m_log m).
Definition set_first_free p m := mk_map (m_min m) (m_max m) (m_entries m) (m_nentries m) (m_entries_pageable m) (m_pmap m) (m_size m) (m_ref_count m) (m_hint m) p (m_wait_for_space m) (m_wiring_required m) (m_timestamp m) (m_lock m) (m_log m).
Definition set_lock t k m := mk_map (m_min m) (m_max m) (m_entries m) (m_nentries m) (m_entries_pageable m) (m_pmap m) (m_size m) (m_ref_count m) (m_hint m) (m_first_free m) (m_wait_for_space m) (m_wiring_required m) t k (m_log m).
Definition emit ev m := mk_map (m_min m) (m_max m) (m_entries m) (m_nentries m) (m_entries_pageable m) (m_pmap m) (m_size m) (m_ref_count m) (m_hint m) (m_first_free m) (m_wait_for_space m) (m_wiring_required m) (m_timestamp m) (m_lock m) (ev :: m_log m).

(** [vm_map_lock], [vm_map_unlock] and the downgrade of vm_map.h. *)
Definition map_lock_write m := set_lock (u32 (m_timestamp m + 1)) Write_locked m.
Definition map_lock_read m := set_lock (m_timestamp m) Read_locked m.
Definition map_unlock m := set_lock (m_timestamp m) Unlocked m.
Definition map_write_to_read m := set_lock (m_timestamp m) Read_locked m.

(** ** The list *)

Definition HEAD : Z := 0.

Definition first_ptr (l : list (Z * vm_map_entry)) : Z := match l with [] => HEAD | (p, _) :: _ => p end.

Fixpoint last_ptr (d : Z) (l : list (Z * vm_map_entry)) : Z := match l with [] => d | (p, _) :: l' => last_ptr p l' end.

Fixpoint list_find_ptr (p : Z) (l : list (Z * vm_map_entry)) : option vm_map_entry :=
  match l with [] => None | (q, e) :: l' => if q =? p then Some e else list_find_ptr p l' end.

Fixpoint list_set_ptr (p : Z) (e : vm_map_entry) (l : list (Z * vm_map_entry)) : list (Z * vm_map_entry) :=
  match l with [] => [] | (q, x) :: l' => if q =? p then (q, e) :: l' else (q, x) :: list_set_ptr p e l' end.

Fixpoint list_next (p : Z) (l : list (Z * vm_map_entry)) : option Z :=
  match l with [] => None | (q, _) :: l' => if q =? p then Some (first_ptr l') else list_next p l' end.

Fixpoint list_prev (d p : Z) (l : list (Z * vm_map_entry)) : option Z :=
  match l with [] => None | (q, _) :: l' => if q =? p then Some d else list_prev q p l' end.

Fixpoint list_link (p : Z) (x : Z * vm_map_entry) (l : list (Z * vm_map_entry)) : list (Z * vm_map_entry) :=
  match l with [] => [] | (q, e) :: l' => if q =? p then (q, e) :: x :: l' else (q, e) :: list_link p x l' end.

Fixpoint list_unlink (p : Z) (l : list (Z * vm_map_entry)) : list (Z * vm_map_entry) :=
  match l with [] => [] | (q, e) :: l' => if q =? p then l' else (q, e) :: list_unlink p l' end.

(** Reading through a pointer; the header has a start and an end only. *)
Definition deref (m : vm_map) (p : Z) : option vm_map_entry := list_find_ptr p (m_entries m).

Definition vme_links (m : vm_map) (p : Z) : option (Z * Z) :=
  if p =? HEAD then Some (m_min m, m_max m) else LET e <- deref m p ;; Some (vme_start e, vme_end e).

Definition vme_next (m : vm_map) (p : Z) : option Z :=
  if p =? HEAD then Some (first_ptr (m_entries m)) else list_next p (m_entries m).

Definition vme_prev (m : vm_map) (p : Z) : option Z :=
  if p =? HEAD then Some (last_ptr HEAD (m_entries m)) else list_prev HEAD p (m_entries m).

(** Writing an entry's fields. *)
Definition put_entry (p : Z) (e : vm_map_entry) (m : vm_map) : vm_map := set_entries (list_set_ptr p e (m_entries m)) (m_nentries m) m.

(** [_vm_map_entry_link] and [_vm_map_entry_unlink]. *)
Definition vm_map_entry_link (after_where p : Z) (e : vm_map_entry) (m : vm_map) : vm_map :=
  set_entries (if after_where =? HEAD then (p, e) :: m_entries m else list_link after_where (p, e) (m_entries m)) (m_nentries m + 1) m.

Definition vm_map_entry_unlink (p : Z) (m : vm_map) : vm_map := set_entries (list_unlink p (m_entries m)) (m_nentries m - 1) m.

(** ** Maps *)

Definition vm_map_create (pmap min max : Z) (pageable : bool) : vm_map :=
  mk_map min max [] 0 pageable pmap 0 1 HEAD HEAD false false 0 Unlocked [].

Definition vm_map_reference (m : vm_map) : vm_map := set_ref_count (m_ref_count m + 1) m.

(** [SAVE_HINT]. *)
Definition SAVE_HINT (p : Z) (m : vm_map) : vm_map := set_hint p m.

(** [VM_MAP_RANGE_CHECK]. *)
Definition range_check (m : vm_map) (start end_ : Z) : Z * Z :=
  let start := if start <? m_min m then m_min m else start in
  let end_ := if m_max m <? end_ then m_max m else end_ in
  (if end_ <? start then end_ else start, end_).

(** ** Lookup *)

(** The linear search from [cur] to [last]; the result is the entry and whether
    it contains the address. *)
Fixpoint lookup_walk (fuel : nat) (m : vm_map) (cur last address : Z) : option (Z * bool) :=
  match fuel with
  | O => None
  | S fuel =>
      if cur =? last then LET prev <- vme_prev m cur ;; Some (prev, false)
      else
        LET (cstart, cend) <- vme_links m cur ;;
        if address <? cend then
          if cstart <=? address then Some (cur, true)
          else LET prev <- vme_prev m cur ;; Some (prev, false)
        else LET next <- vme_next m cur ;; lookup_walk fuel m next last address
  end.

Definition vm_map_lookup_entry (m : vm_map) (address : Z) : option (vm_map * Z * bool) :=
  let cur := m_hint m in
  LET cur <- (if cur =? HEAD then vme_next m cur else Some cur) ;;
  LET (cstart, cend) <- vme_links m cur ;;
  if cstart <=? address then
    (* go from hint to end of list *)
    if negb (cur =? HEAD) && (address <? cend) then Some (m, cur, true)
    else
      LET (entry, found) <- lookup_walk (S (length (m_entries m))) m cur HEAD address ;;
      Some (SAVE_HINT entry m, entry, found)
  else
    (* go from start to hint, inclusively *)
    LET last <- vme_next m cur ;;
    LET cur <- vme_next m HEAD ;;
    LET (entry, found) <- lookup_walk (S (length (m_entries m))) m cur last address ;;
    Some (SAVE_HINT entry m, entry, found).

Definition invalid_user_access (is_kernel_map : bool) (m : vm_map) (start end_ prot : Z) : option (vm_map * bool) :=
  if is_kernel_map then Some (m, true)
  else
    LET (m, entry, found) <- vm_map_lookup_entry m start ;;
    if negb found then Some (m, true)
    else LET e <- deref m entry ;; Some (m, (vme_end e <? end_) || negb (Z.ldiff prot (vme_protection e) =? 0)).

(** ** The layers below *)

(** What the map code gets from the zones, the objects and the configuration:
    the address of a new entry is not in use, and a new object is not null. *)
Class VmEnv := {
  zalloc_entry : list Z -> Z;
  new_object : list vm_event -> Z;
  (* whether an object that exists can be extended, after the calls so far *)
  object_extends : list vm_event -> Z -> bool;
  (* whether the entry of the kernel map that an entry projects is persistent *)
  projection_persists : Z -> bool;
  is_kernel_map : bool;
  is_kernel_pmap : bool;
  pmap_enter_enable : bool;
  kernel_object : Z;
  submap_object : Z;
  (* the object of submaps has no pages, copy, shadow or pager *)
  submap_object_clean : bool;
  zalloc_fresh : forall used, zalloc_entry used <> HEAD /\ ~ In (zalloc_entry used) used;
  new_object_valid : forall log, new_object log <> VM_OBJECT_NULL
}.

Section Env.
Context {E : VmEnv}.

Definition vm_map_entry_create (m : vm_map) : Z := zalloc_entry (map fst (m_entries m)).

Definition vm_object_reference (object : Z) (m : vm_map) : vm_map :=
  if object =? VM_OBJECT_NULL then m else emit (Ev_object_reference object) m.

Definition vm_object_deallocate (object : Z) (m : vm_map) : vm_map :=
  if object =? VM_OBJECT_NULL then m else emit (Ev_object_deallocate object) m.

Definition vm_object_allocate (size_ : Z) (m : vm_map) : vm_map * Z :=
  let object := new_object (m_log m) in (emit (Ev_object_allocate object size_) m, object).

(** The new object; the offset into it is 0. *)
Definition vm_object_shadow (source offset length : Z) (m : vm_map) : vm_map * Z :=
  let object := new_object (m_log m) in (emit (Ev_object_shadow source offset object length) m, object).

Definition vm_object_coalesce (prev_object next_object prev_offset prev_size next_size : Z) (m : vm_map) : vm_map * bool :=
  if negb (next_object =? VM_OBJECT_NULL) then (m, false)
  else if prev_object =? VM_OBJECT_NULL then (m, true)
  else if negb (object_extends (m_log m) prev_object) then (m, false)
  else (emit (Ev_object_page_remove prev_object (u32 (prev_offset + prev_size)) (u32 (prev_offset + prev_size + next_size))) m, true).

(** ** Clipping *)

Definition reference_entry (e : vm_map_entry) (m : vm_map) : vm_map :=
  if vme_is_sub_map e then emit (Ev_map_reference (vme_object e)) m else vm_object_reference (vme_object e) m.

Definition clip_start_split (p start : Z) (m : vm_map) : option vm_map :=
  LET e <- deref m p ;;
  let q := vm_map_entry_create m in
  let new := vme_set_range (vme_start e) start e in
  let e' := vme_set_range start (vme_end e) (vme_set_object (vme_object e) (u32 (vme_offset e + (start - vme_start e))) e) in
  let m := put_entry p e' m in
  LET prev <- vme_prev m p ;;
  Some (reference_entry new (vm_map_entry_link prev q new m)).

Definition clip_end_split (p end_ : Z) (m : vm_map) : option vm_map :=
  LET e <- deref m p ;;
  let q := vm_map_entry_create m in
  let new := vme_set_range end_ (vme_end e) (vme_set_object (vme_object e) (u32 (vme_offset e + (end_ - vme_start e))) e) in
  let m := put_entry p (vme_set_range (vme_start e) end_ e) m in
  Some (reference_entry new (vm_map_entry_link p q new m)).

(** [vm_map_clip_start] and [vm_map_clip_end]. *)
Definition vm_map_clip_start (p startaddr : Z) (m : vm_map) : option vm_map :=
  LET e <- deref m p ;;
  if vme_start e <? startaddr then clip_start_split p startaddr m else Some m.

Definition vm_map_clip_end (p endaddr : Z) (m : vm_map) : option vm_map :=
  LET e <- deref m p ;;
  if endaddr <? vme_end e then clip_end_split p endaddr m else Some m.
End Env.
