(* ===== verification/VmMapOps.v ===== *)
(** * Address maps (vm/vm_map.c): operations

    Allocation, protection, inheritance, wiring, deletion and the lookup of page
    faults.  A call that blocks ends with the map unlocked; the part after the
    wait is a definition of its own. *)

From S2P Require Import Prelude VmMap.

Section Ops.
Context {E : VmEnv}.

(** ** Allocation *)

(** The search for the first place after [entry] that fits, from [start] on:
    [entry] precedes the place found. *)
Inductive space := Fits (entry start end_ : Z) | Wraps | No_fit.

Fixpoint find_space (fuel : nat) (m : vm_map) (entry start size_ mask : Z) : option space :=
  match fuel with
  | O => None
  | S fuel =>
      let aligned := Z.ldiff (u32 (start + mask)) mask in
      if aligned <? start then Some Wraps
      else
        let start := aligned in
        let end_ := u32 (start + size_) in
        if (m_max m <? end_) || (end_ <? start) then Some No_fit
        else
          LET next <- vme_next m entry ;;
          if next =? HEAD then Some (Fits entry start end_)
          else
            LET n <- deref m next ;;
            if end_ <=? vme_start n then Some (Fits entry start end_)
            else find_space fuel m next (vme_end n) size_ mask
  end.

Definition space_fuel (m : vm_map) : nat := S (length (m_entries m)).

(** Whether [vm_map_find_entry] extends the entry below. *)
Definition find_extends (e : vm_map_entry) (start object : Z) : bool :=
  negb (object =? VM_OBJECT_NULL) && (vme_end e =? start) && negb (vme_is_shared e) && negb (vme_is_sub_map e) &&
  (vme_object e =? object) && negb (vme_needs_copy e) && (vme_inheritance e =? VM_INHERIT_DEFAULT) &&
  (vme_protection e =? VM_PROT_DEFAULT) && (vme_max_protection e =? VM_PROT_ALL) &&
  (vme_wired_count e =? 1) && (vme_user_wired_count e =? 0) && (vme_projected_on e =? 0).

(** The results are the code, the address and the entry. *)
Definition vm_map_find_entry (size_ mask object : Z) (m : vm_map) : option (vm_map * (vm_return * Z * Z)) :=
  let entry := m_first_free m in
  LET start <- (if entry =? HEAD then Some (m_min m) else LET e <- deref m entry ;; Some (vme_end e)) ;;
  LET found <- find_space (space_fuel m) m entry start size_ mask ;;
  match found with
  | Wraps | No_fit => Some (m, (VM_NO_SPACE, 0, 0))
  | Fits entry start end_ =>
      LET below <- (if entry =? HEAD then Some None else LET e <- deref m entry ;; Some (Some e)) ;;
      let '(m, new_entry) :=
        match below with
        | Some e =>
            if find_extends e start object then (put_entry entry (vme_set_range (vme_start e) end_ e) m, entry)
            else
              let p := vm_map_entry_create m in
              (vm_map_entry_link entry p (mk_vme start end_ VM_OBJECT_NULL 0 false false false false false VM_PROT_DEFAULT VM_PROT_ALL VM_INHERIT_DEFAULT 1 0 0) m, p)
        | None =>
            let p := vm_map_entry_create m in
            (vm_map_entry_link entry p (mk_vme start end_ VM_OBJECT_NULL 0 false false false false false VM_PROT_DEFAULT VM_PROT_ALL VM_INHERIT_DEFAULT 1 0 0) m, p)
        end in
      let m := set_size (u32 (m_size m + size_)) m in
      Some (SAVE_HINT new_entry (set_first_free new_entry m), (VM_SUCCESS, start, new_entry))
  end.

(** [vm_map_enter] looks for space, anywhere or at the given address. *)
Inductive search := Found (m : vm_map) (entry start end_ : Z) | Fails (m : vm_map) (kr : vm_return) | Must_wait (m : vm_map).

Definition enter_anywhere (address size_ mask : Z) (m : vm_map) : option search :=
  let m := map_lock_write m in
  let start := if address <? m_min m then m_min m else address in
  if m_max m <? start then Some (Fails (map_unlock m) VM_NO_SPACE)
  else
    LET (m, entry, start) <-
      (if start =? m_min m then
         let entry := m_first_free m in
         if entry =? HEAD then Some (m, entry, start) else LET e <- deref m entry ;; Some (m, entry, vme_end e)
       else
         LET (m, entry, found) <- vm_map_lookup_entry m start ;;
         if found then LET e <- deref m entry ;; Some (m, entry, vme_end e) else Some (m, entry, start)) ;;
    LET found <- find_space (space_fuel m) m entry start size_ mask ;;
    match found with
    | Wraps => Some (Fails m VM_NO_SPACE)   (* the map stays locked *)
    | No_fit =>
        if m_wait_for_space m && (size_ <=? u32 (m_max m - m_min m)) then Some (Must_wait (map_unlock m))
        else Some (Fails (map_unlock m) VM_NO_SPACE)
    | Fits entry start end_ => Some (Found m entry start end_)
    end.

Definition enter_at (address size_ mask : Z) (m : vm_map) : option search :=
  let start := address in
  if negb (Z.land start mask =? 0) then Some (Fails m VM_NO_SPACE)
  else
    let m := map_lock_write m in
    let end_ := u32 (start + size_) in
    if (start <? m_min m) || (m_max m <? end_) || (end_ <=? start) then Some (Fails (map_unlock m) VM_INVALID_ADDRESS)
    else
      LET (m, entry, found) <- vm_map_lookup_entry m start ;;
      if found then Some (Fails (map_unlock m) VM_NO_SPACE)
      else
        LET next <- vme_next m entry ;;
        if next =? HEAD then Some (Found m entry start end_)
        else
          LET n <- deref m next ;;
          if vme_start n <? end_ then Some (Fails (map_unlock m) VM_NO_SPACE) else Some (Found m entry start end_).

Definition enter_extends (e : vm_map_entry) (start object prot max_prot inheritance : Z) : bool :=
  (object =? VM_OBJECT_NULL) && (vme_end e =? start) && negb (vme_is_shared e) && negb (vme_is_sub_map e) &&
  (vme_inheritance e =? inheritance) && (vme_protection e =? prot) && (vme_max_protection e =? max_prot) &&
  (vme_wired_count e =? 0) && (vme_projected_on e =? 0).

(** The entry below is extended where its object can be. *)
Definition enter_coalesce (entry start end_ object prot max_prot inheritance : Z) (m : vm_map) : option (vm_map * bool) :=
  if entry =? HEAD then Some (m, false)
  else
    LET e <- deref m entry ;;
    if negb (enter_extends e start object prot max_prot inheritance) then Some (m, false)
    else
      let '(m, ok) := vm_object_coalesce (vme_object e) VM_OBJECT_NULL (vme_offset e) (u32 (vme_end e - vme_start e)) (u32 (end_ - vme_end e)) m in
      if ok then Some (put_entry entry (vme_set_range (vme_start e) end_ e) (set_size (u32 (m_size m + (end_ - vme_end e))) m), true)
      else Some (m, false).

(** A new entry after [entry]. *)
Definition enter_new (entry start end_ size_ object offset : Z) (needs_copy : bool) (prot max_prot inheritance : Z) (m : vm_map) : option vm_map :=
  let p := vm_map_entry_create m in
  let new := mk_vme start end_ object offset false false false false needs_copy prot max_prot inheritance 0 0 0 in
  LET below <- (if entry =? HEAD then Some (m_min m) else LET e <- deref m entry ;; Some (vme_end e)) ;;
  let m := set_size (u32 (m_size m + size_)) (vm_map_entry_link entry p new m) in
  let m := if (m_first_free m =? entry) && (start <=? below) then set_first_free p m else m in
  Some (SAVE_HINT p m).

Inductive entered := Entered (m : vm_map) (kr : vm_return) (address : Z) | Enter_blocks (m : vm_map).

Definition vm_map_enter (address size_ mask : Z) (anywhere : bool) (object offset : Z) (needs_copy : bool) (prot max_prot inheritance : Z) (m : vm_map) : option entered :=
  LET found <- (if anywhere then enter_anywhere address size_ mask m else enter_at address size_ mask m) ;;
  match found with
  | Must_wait m => Some (Enter_blocks m)
  | Fails m kr => Some (Entered m kr address)
  | Found m entry start end_ =>
      LET (m, extended) <- enter_coalesce entry start end_ object prot max_prot inheritance m ;;
      if extended then Some (Entered (map_unlock m) VM_SUCCESS start)
      else
        LET m <- enter_new entry start end_ size_ object offset needs_copy prot max_prot inheritance m ;;
        let m := map_unlock m in
        let m :=
          if negb (object =? VM_OBJECT_NULL) && pmap_enter_enable && negb anywhere && negb needs_copy && (size_ <? 128 * 1024)
          then emit (Ev_pmap_enter start end_ object offset prot) m else m in
        Some (Entered m VM_SUCCESS start)
  end.

(** ** Operations on a range *)

(** Where the loops over a range begin: the entry that contains [start], which is
    clipped, or the one after. *)
Definition range_first (start : Z) (m : vm_map) : option (vm_map * Z) :=
  LET (m, entry, found) <- vm_map_lookup_entry m start ;;
  if found then LET m <- vm_map_clip_start entry start m ;; Some (m, entry)
  else LET next <- vme_next m entry ;; Some (m, next).

(** [while ((entry != vm_map_to_entry(map)) && (entry->vme_start < end)) { body;
    entry = entry->vme_next; }]; the body may leave the function. *)
Inductive progress := Goes_on (m : vm_map) | Leaves (m : vm_map) (kr : vm_return).

Fixpoint while_range (fuel : nat) (end_ : Z) (body : Z -> vm_map -> option progress) (p : Z) (m : vm_map) : option progress :=
  match fuel with
  | O => None
  | S fuel =>
      if p =? HEAD then Some (Goes_on m)
      else
        LET e <- deref m p ;;
        if negb (vme_start e <? end_) then Some (Goes_on m)
        else
          LET r <- body p m ;;
          match r with
          | Leaves m kr => Some (Leaves m kr)
          | Goes_on m => LET next <- vme_next m p ;; while_range fuel end_ body next m
          end
  end.

(** A body that clips adds one entry. *)
Definition range_fuel (m : vm_map) : nat := S (S (length (m_entries m))).

Definition protect_check (new_prot p : Z) (m : vm_map) : option progress :=
  LET e <- deref m p ;;
  if vme_is_sub_map e then Some (Leaves m VM_INVALID_ARGUMENT)
  else if negb (Z.land new_prot (Z.lor VM_PROT_NOTIFY (vme_max_protection e)) =? new_prot) then Some (Leaves m VM_PROTECTION_FAILURE)
  else Some (Goes_on m).

Definition protect_entry (new_prot : Z) (set_max : bool) (e : vm_map_entry) : vm_map_entry :=
  if set_max then vme_set_protection (Z.land new_prot (vme_protection e)) new_prot e
  else vme_set_protection new_prot (vme_max_protection e) e.

Definition protect_fix (end_ new_prot : Z) (set_max : bool) (p : Z) (m : vm_map) : option progress :=
  LET m <- vm_map_clip_end p end_ m ;;
  LET e <- deref m p ;;
  let e' := protect_entry new_prot set_max e in
  let m := put_entry p e' m in
  Some (Goes_on (if vme_protection e' =? vme_protection e then m
                 else emit (Ev_pmap_protect (vme_start e') (vme_end e') (vme_protection e')) m)).

Definition vm_map_protect (start end_ new_prot : Z) (set_max : bool) (m : vm_map) : option (vm_map * vm_return) :=
  let m := map_lock_write m in
  let '(start, end_) := range_check m start end_ in
  LET (m, entry) <- range_first start m ;;
  LET r <- while_range (range_fuel m) end_ (protect_check new_prot) entry m ;;
  match r with
  | Leaves m kr => Some (map_unlock m, kr)
  | Goes_on m =>
      LET r <- while_range (range_fuel m) end_ (protect_fix end_ new_prot set_max) entry m ;;
      match r with Leaves m kr => Some (m, kr) | Goes_on m => Some (map_unlock m, VM_SUCCESS) end
  end.

Definition inherit_body (end_ new_inheritance p : Z) (m : vm_map) : option progress :=
  LET m <- vm_map_clip_end p end_ m ;;
  LET e <- deref m p ;;
  Some (Goes_on (put_entry p (vme_set_inheritance new_inheritance e) m)).

Definition vm_map_inherit (start end_ new_inheritance : Z) (m : vm_map) : option (vm_map * vm_return) :=
  let m := map_lock_write m in
  let '(start, end_) := range_check m start end_ in
  LET (m, entry) <- range_first start m ;;
  LET r <- while_range (range_fuel m) end_ (inherit_body end_ new_inheritance) entry m ;;
  match r with Leaves m kr => Some (m, kr) | Goes_on m => Some (map_unlock m, VM_SUCCESS) end.

(** ** Wiring *)

(** There is a hole after the entry [p], before the end of the range. *)
Definition hole_after (end_ p : Z) (e : vm_map_entry) (m : vm_map) : option bool :=
  if vme_end e <? end_ then
    LET next <- vme_next m p ;;
    if next =? HEAD then Some true else LET n <- deref m next ;; Some (vme_end e <? vme_start n)
  else Some false.

Definition wire_up (user_wire : bool) (e : vm_map_entry) : vm_map_entry :=
  if user_wire then
    vme_set_wired (if vme_user_wired_count e =? 0 then half (vme_wired_count e + 1) else vme_wired_count e) (half (vme_user_wired_count e + 1)) e
  else vme_set_wired (half (vme_wired_count e + 1)) (vme_user_wired_count e) e.

Definition wire_down (user_wire : bool) (e : vm_map_entry) : vm_map_entry :=
  if user_wire then
    let u := half (vme_user_wired_count e - 1) in
    vme_set_wired (if u =? 0 then half (vme_wired_count e - 1) else vme_wired_count e) u e
  else vme_set_wired (half (vme_wired_count e - 1)) (vme_user_wired_count e) e.

Definition unwire_check (end_ : Z) (user_wire : bool) (p : Z) (m : vm_map) : option progress :=
  LET e <- deref m p ;;
  LET hole <- hole_after end_ p e m ;;
  if (vme_wired_count e =? 0) || hole || (user_wire && (vme_user_wired_count e =? 0)) then Some (Leaves m VM_INVALID_ARGUMENT)
  else Some (Goes_on m).

Definition unwire_body (end_ : Z) (user_wire : bool) (p : Z) (m : vm_map) : option progress :=
  LET m <- vm_map_clip_end p end_ m ;;
  LET e <- deref m p ;;
  let e' := wire_down user_wire e in
  let m := put_entry p e' m in
  Some (Goes_on (if vme_wired_count e' =? 0 then emit (Ev_fault_unwire (vme_start e') (vme_end e')) m else m)).

(** The objects that wiring needs, as [vm_map_lookup] would make them. *)
Definition wire_objects (p : Z) (m : vm_map) : option vm_map :=
  LET e <- deref m p ;;
  if negb (vme_wired_count e =? 0) then Some m
  else
    let '(m, e) :=
      if vme_needs_copy e && negb (Z.land (vme_protection e) VM_PROT_WRITE =? 0) then
        let '(m, o) := vm_object_shadow (vme_object e) (vme_offset e) (u32 (vme_end e - vme_start e)) m in
        let e := vme_set_needs_copy false (vme_set_object o 0 e) in
        (put_entry p e m, e)
      else (m, e) in
    if vme_object e =? VM_OBJECT_NULL then
      let '(m, o) := vm_object_allocate (u32 (vme_end e - vme_start e)) m in
      Some (put_entry p (vme_set_object o 0 e) m)
    else Some m.

(** The counts are restored, backwards from [p] to the start of the range. *)
Fixpoint wire_undo (fuel : nat) (start : Z) (user_wire : bool) (p : Z) (m : vm_map) : option vm_map :=
  match fuel with
  | O => None
  | S fuel =>
      if p =? HEAD then Some m
      else
        LET e <- deref m p ;;
        if negb (start <? vme_end e) then Some m
        else
          let m := put_entry p (wire_down user_wire e) m in
          LET prev <- vme_prev m p ;; wire_undo fuel start user_wire prev m
  end.

Definition wire_body (start end_ access_type : Z) (user_wire : bool) (p : Z) (m : vm_map) : option progress :=
  LET m <- vm_map_clip_end p end_ m ;;
  LET m <- wire_objects p m ;;
  LET m <- vm_map_clip_start p start m ;;
  LET m <- vm_map_clip_end p end_ m ;;
  LET e <- deref m p ;;
  let m := put_entry p (wire_up user_wire e) m in
  LET e <- deref m p ;;
  LET hole <- hole_after end_ p e m ;;
  if hole || negb (Z.land (vme_protection e) access_type =? access_type) then
    LET m <- wire_undo (S (length (m_entries m))) start user_wire p m ;;
    Some (Leaves (map_unlock m) VM_FAILURE)
  else Some (Goes_on m).

Definition fault_body (p : Z) (m : vm_map) : option progress :=
  LET e <- deref m p ;;
  Some (Goes_on (if (vme_wired_count e =? 1) && (vme_user_wired_count e <=? 1) then emit (Ev_fault_wire (vme_start e) (vme_end e)) m else m)).

Definition vm_map_unwire (start end_ : Z) (user_wire : bool) (entry : Z) (m : vm_map) : option (vm_map * vm_return) :=
  LET m <- vm_map_clip_start entry start m ;;
  LET r <- while_range (range_fuel m) end_ (unwire_check end_ user_wire) entry m ;;
  match r with
  | Leaves m kr => Some (map_unlock m, kr)
  | Goes_on m =>
      LET r <- while_range (range_fuel m) end_ (unwire_body end_ user_wire) entry m ;;
      match r with Leaves m kr => Some (m, kr) | Goes_on m => Some (map_unlock m, VM_SUCCESS) end
  end.

Definition vm_map_wire (start end_ access_type : Z) (user_wire : bool) (entry : Z) (m : vm_map) : option (vm_map * vm_return) :=
  LET r <- while_range (S (range_fuel m)) end_ (wire_body start end_ access_type user_wire) entry m ;;
  match r with
  | Leaves m kr => Some (m, kr)
  | Goes_on m =>
      (* pass 2 *)
      let m := if is_kernel_pmap then map_unlock m else map_write_to_read m in
      LET r <- while_range (range_fuel m) end_ fault_body entry m ;;
      match r with
      | Leaves m kr => Some (m, kr)
      | Goes_on m => Some (map_unlock (if is_kernel_pmap then map_lock_write m else m), VM_SUCCESS)
      end
  end.

Definition vm_map_pageable_common (start end_ access_type : Z) (user_wire : bool) (m : vm_map) : option (vm_map * vm_return) :=
  let m := map_lock_write m in
  let '(start, end_) := range_check m start end_ in
  LET (m, start_entry, found) <- vm_map_lookup_entry m start ;;
  if negb found then Some (map_unlock m, VM_FAILURE)
  else if access_type =? VM_PROT_NONE then vm_map_unwire start end_ user_wire start_entry m
  else vm_map_wire start end_ access_type user_wire start_entry m.
End Ops.
