(* ===== verification/VmMapDelete.v ===== *)
(** * Address maps (vm/vm_map.c): deletion, faults and the user's calls

    Deletion of a range, with the wait for entries in transition; submaps and
    simplification; the lookup of a page fault; and the calls of vm/vm_user.c
    that check their arguments and round to pages. *)

From S2P Require Import Prelude VmMap VmMapOps.

Section Delete.
Context {E : VmEnv}.

(** ** Deletion *)

(** Removal of the pages of an entry from the physical maps. *)
Definition entry_unmap (e : vm_map_entry) (m : vm_map) : vm_map :=
  let s := vme_start e in
  let x := vme_end e in
  if vme_object e =? VM_OBJECT_NULL then m
  else
    let m := if negb (vme_wired_count e =? 0) then emit (Ev_fault_unwire s x) m else m in
    if vme_object e =? kernel_object then emit (Ev_object_page_remove (vme_object e) (vme_offset e) (u32 (vme_offset e + (x - s)))) m
    else if vme_is_shared e then emit (Ev_object_pmap_remove (vme_object e) (vme_offset e) (u32 (vme_offset e + (x - s)))) m
    else emit (Ev_pmap_remove s x) m.

(** A projected buffer whose kernel entry is not persistent is not touched. *)
Definition vm_map_entry_delete (p : Z) (m : vm_map) : option vm_map :=
  LET e <- deref m p ;;
  let projected := negb is_kernel_map && negb (vme_projected_on e =? 0) in
  if projected && negb (projection_persists (vme_projected_on e)) then Some m
  else
    (* avoid the unwire fault *)
    let e := if projected then vme_set_wired 0 (vme_user_wired_count e) e else e in
    let m := entry_unmap e m in
    let m := if vme_is_sub_map e then emit (Ev_map_deallocate (vme_object e)) m else vm_object_deallocate (vme_object e) m in
    let m := vm_map_entry_unlink p m in
    Some (set_size (u32 (m_size m - (vme_end e - vme_start e))) m).

(** The loop of [vm_map_delete]; it blocks with the map unlocked when an entry is
    in transition. *)
Inductive deletion := Deleted (m : vm_map) | Delete_blocks (m : vm_map).

Definition delete_end (m : vm_map) : vm_map := if m_wait_for_space m then emit Ev_wakeup m else m.

Fixpoint delete_loop (fuel : nat) (end_ p : Z) (m : vm_map) : option deletion :=
  match fuel with
  | O => None
  | S fuel =>
      if p =? HEAD then Some (Deleted (delete_end m))
      else
        LET e <- deref m p ;;
        if negb (vme_start e <? end_) then Some (Deleted (delete_end m))
        else
          LET m <- vm_map_clip_end p end_ m ;;
          LET e <- deref m p ;;
          if vme_in_transition e then Some (Delete_blocks (map_unlock (put_entry p (vme_set_needs_wakeup true e) m)))
          else
            LET next <- vme_next m p ;;
            LET m <- vm_map_entry_delete p m ;;
            delete_loop fuel end_ next m
  end.

Definition vm_map_delete (start end_ : Z) (m : vm_map) : option deletion :=
  LET (m, first_entry, found) <- vm_map_lookup_entry m start ;;
  LET (m, entry) <-
    (if negb found then LET next <- vme_next m first_entry ;; Some (m, next)
     else
       LET m <- vm_map_clip_start first_entry start m ;;
       LET prev <- vme_prev m first_entry ;;
       Some (SAVE_HINT prev m, first_entry)) ;;
  LET (fstart, fend) <- vme_links m (m_first_free m) ;;
  LET m <- (if start <=? fstart then LET prev <- vme_prev m entry ;; Some (set_first_free prev m) else Some m) ;;
  delete_loop (range_fuel m) end_ entry m.

(** After the wait: the map is locked again and the entry looked up again. *)
Definition delete_resume (start end_ : Z) (m : vm_map) : option deletion :=
  let m := map_lock_write m in
  LET (m, entry, found) <- vm_map_lookup_entry m start ;;
  LET entry <- (if negb found then vme_next m entry else Some entry) ;;
  delete_loop (range_fuel m) end_ entry m.

(** The end of [vm_map_copyout_page_list], when its continuation has released the
    lock: the bits of the entries are cleared. *)
Definition transition_clear (p : Z) (m : vm_map) : option progress :=
  LET e <- deref m p ;;
  ASSERT vme_in_transition e ;;
  Some (Goes_on (put_entry p (mk_vme (vme_start e) (vme_end e) (vme_object e) (vme_offset e) (vme_is_shared e) (vme_is_sub_map e) false false (vme_needs_copy e)
    (vme_protection e) (vme_max_protection e) (vme_inheritance e) (vme_wired_count e) (vme_user_wired_count e) (vme_projected_on e)) m)).

Definition transition_end (start end_ : Z) (m : vm_map) : option vm_map :=
  let m := map_lock_write m in
  LET (m, entry, found) <- vm_map_lookup_entry m start ;;
  ASSERT found ;;
  LET r <- while_range (range_fuel m) end_ transition_clear entry m ;;
  match r with Goes_on m => Some (map_unlock m) | Leaves m _ => Some m end.

Definition vm_map_remove (start end_ : Z) (m : vm_map) : option deletion :=
  let m := map_lock_write m in
  let '(start, end_) := range_check m start end_ in
  LET r <- vm_map_delete start end_ m ;;
  match r with Deleted m => Some (Deleted (map_unlock m)) | Delete_blocks m => Some (Delete_blocks m) end.

(** ** Submaps and simplification *)

Definition vm_map_submap (start end_ submap : Z) (m : vm_map) : option (vm_map * vm_return) :=
  let m := map_lock_write m in
  let '(start, end_) := range_check m start end_ in
  LET (m, entry) <- range_first start m ;;
  LET m <- vm_map_clip_end entry end_ m ;;
  LET e <- deref m entry ;;
  if (vme_start e =? start) && (vme_end e =? end_) && negb (vme_is_sub_map e) && (vme_object e =? submap_object) && submap_object_clean then
    let m := vm_object_deallocate (vme_object e) m in
    let m := put_entry entry (vme_set_sub_map true (vme_set_object submap (vme_offset e) e)) m in
    Some (map_unlock (emit (Ev_map_reference submap) m), VM_SUCCESS)
  else Some (map_unlock m, VM_INVALID_ARGUMENT).

Definition simplifies (start : Z) (prev this : vm_map_entry) : bool :=
  (vme_end prev =? start) && negb (vme_is_shared prev) && negb (vme_is_sub_map prev) &&
  negb (vme_is_shared this) && negb (vme_is_sub_map this) &&
  (vme_inheritance prev =? vme_inheritance this) && (vme_protection prev =? vme_protection this) &&
  (vme_max_protection prev =? vme_max_protection this) && (vme_wired_count prev =? vme_wired_count this) &&
  (vme_user_wired_count prev =? vme_user_wired_count this) && Bool.eqb (vme_needs_copy prev) (vme_needs_copy this) &&
  (vme_object prev =? vme_object this) && (u32 (vme_offset prev + (vme_end prev - vme_start prev)) =? vme_offset this) &&
  (vme_projected_on prev =? 0) && (vme_projected_on this =? 0).

Definition vm_map_simplify (start : Z) (m : vm_map) : option vm_map :=
  let m := map_lock_write m in
  LET (m, this_entry, found) <- vm_map_lookup_entry m start ;;
  if negb found then Some (map_unlock m)
  else
    LET prev_entry <- vme_prev m this_entry ;;
    if prev_entry =? HEAD then Some (map_unlock m)
    else
      LET this <- deref m this_entry ;;
      LET prev <- deref m prev_entry ;;
      if negb (simplifies start prev this) then Some (map_unlock m)
      else
        let m := if m_first_free m =? this_entry then set_first_free prev_entry m else m in
        let m := vm_map_entry_unlink this_entry (SAVE_HINT prev_entry m) in
        let m := put_entry prev_entry (vme_set_range (vme_start prev) (vme_end this) prev) m in
        Some (map_unlock (vm_object_deallocate (vme_object this) m)).

(** ** Page faults *)

(** [vm_map_lookup] in one map: it ends, it goes on in a submap, or the upgrade
    of the lock failed and it starts again; [upgrade] says of each upgrade
    whether it succeeds. *)
Inductive fault :=
| Fault_ends (m : vm_map) (kr : vm_return)
| Fault_finds (m : vm_map) (object offset prot : Z) (wired : bool) (version : Z)
| Fault_submap (m : vm_map) (sub_map : Z)
| Fault_retry (m : vm_map).

(** [vm_map_lock_read_to_write]. *)
Definition map_upgrade (upgrade : bool) (m : vm_map) : option vm_map :=
  if upgrade then Some (set_lock (u32 (m_timestamp m + 1)) Write_locked m) else None.

Definition fault_entry (vaddr : Z) (m : vm_map) : option (vm_map * option Z) :=
  let entry := m_hint m in
  LET hit <- (if entry =? HEAD then Some false else LET e <- deref m entry ;; Some ((vme_start e <=? vaddr) && (vaddr <? vme_end e))) ;;
  if (hit : bool) then Some (m, Some entry)
  else
    LET (m, entry, found) <- vm_map_lookup_entry m vaddr ;;
    Some (m, if (found : bool) then Some entry else None).

(** A copy-on-write entry gets a shadow for writing. *)
Definition fault_shadow (upgrade : bool) (entry fault_type prot : Z) (m : vm_map) : option (option vm_map * Z) :=
  LET e <- deref m entry ;;
  if vme_needs_copy e then
    if negb (Z.land fault_type VM_PROT_WRITE =? 0) then
      match map_upgrade upgrade m with
      | None => Some (None, prot)
      | Some m =>
          let m := set_lock (u32 (m_timestamp m + 1)) (m_lock m) m in
          let '(m, o) := vm_object_shadow (vme_object e) (vme_offset e) (u32 (vme_end e - vme_start e)) m in
          Some (Some (map_write_to_read (put_entry entry (vme_set_needs_copy false (vme_set_object o 0 e)) m)), prot)
      end
    else Some (Some m, Z.ldiff prot VM_PROT_WRITE)
  else Some (Some m, prot).

Definition fault_object (upgrade : bool) (entry : Z) (m : vm_map) : option (option vm_map) :=
  LET e <- deref m entry ;;
  if vme_object e =? VM_OBJECT_NULL then
    match map_upgrade upgrade m with
    | None => Some None
    | Some m =>
        let '(m, o) := vm_object_allocate (u32 (vme_end e - vme_start e)) m in
        Some (Some (map_write_to_read (put_entry entry (vme_set_object o 0 e) m)))
    end
  else Some (Some m).

Definition vm_map_lookup (upgrade1 upgrade2 : bool) (vaddr fault_type : Z) (m : vm_map) : option fault :=
  let m := map_lock_read m in
  LET (m, found) <- fault_entry vaddr m ;;
  match found with
  | None => Some (Fault_ends (map_unlock m) VM_INVALID_ADDRESS)
  | Some entry =>
      LET e <- deref m entry ;;
      if vme_is_sub_map e then Some (Fault_submap (map_unlock m) (vme_object e))
      else
        let prot := vme_protection e in
        if negb (Z.land fault_type prot =? fault_type) then
          Some (Fault_ends (map_unlock m)
            (if negb (Z.land prot VM_PROT_NOTIFY =? 0) && negb (Z.land fault_type VM_PROT_WRITE =? 0)
             then VM_WRITE_PROTECTION_FAILURE else VM_PROTECTION_FAILURE))
        else
          let wired := negb (vme_wired_count e =? 0) in
          let fault_type := if wired then vme_protection e else fault_type in
          LET (r, prot) <- fault_shadow upgrade1 entry fault_type prot m ;;
          match r with
          | None => Some (Fault_retry (map_unlock m))
          | Some m =>
              LET r <- fault_object upgrade2 entry m ;;
              match r with
              | None => Some (Fault_retry (map_unlock m))
              | Some m =>
                  LET e <- deref m entry ;;
                  Some (Fault_finds (map_unlock m) (vme_object e) (u32 (vaddr - vme_start e + vme_offset e)) prot wired (m_timestamp m))
              end
          end
  end.

Definition vm_map_verify (m : vm_map) (version : Z) : vm_map * bool :=
  let m := map_lock_read m in
  if m_timestamp m =? version then (m, true) else (map_unlock m, false).

(** The start, size, protections, inheritance, sharing and offset of the region
    at or after an address. *)
Record region := mk_region {
  r_address : Z; r_size : Z; r_protection : Z; r_max_protection : Z; r_inheritance : Z; r_is_shared : bool; r_object : Z; r_offset : Z
}.

Definition vm_region (address : Z) (m : vm_map) : option (vm_map * option region) :=
  let m := map_lock_read m in
  LET (m, tmp_entry, found) <- vm_map_lookup_entry m address ;;
  LET entry <- (if negb found then vme_next m tmp_entry else Some tmp_entry) ;;
  if entry =? HEAD then Some (map_unlock m, None)
  else
    LET e <- deref m entry ;;
    Some (map_unlock m, Some (mk_region (vme_start e) (u32 (vme_end e - vme_start e)) (vme_protection e) (vme_max_protection e) (vme_inheritance e)
      (if vme_is_sub_map e then false else vme_is_shared e) (if vme_is_sub_map e then 0 else vme_object e) (vme_offset e))).

(** ** The user's calls *)

Definition VM_PAGE_MASK : Z := 4095.
Definition trunc_page (x : Z) : Z := Z.ldiff x VM_PAGE_MASK.
Definition vm_round_page (x : Z) : Z := Z.ldiff (u32 (x + VM_PAGE_MASK)) VM_PAGE_MASK.

Definition vm_allocate (addr size_ : Z) (anywhere : bool) (m : vm_map) : option entered :=
  if size_ =? 0 then Some (Entered m VM_SUCCESS 0)
  else
    let addr := if anywhere then m_min m else trunc_page addr in
    vm_map_enter addr (vm_round_page size_) 0 anywhere VM_OBJECT_NULL 0 false VM_PROT_DEFAULT VM_PROT_ALL VM_INHERIT_DEFAULT m.

Definition vm_deallocate (start size_ : Z) (m : vm_map) : option deletion :=
  if size_ =? 0 then Some (Deleted m)
  else vm_map_remove (trunc_page start) (vm_round_page (u32 (start + size_))) m.

Fixpoint projected_walk (fuel : nat) (end_ p : Z) (m : vm_map) : option bool :=
  match fuel with
  | O => None
  | S fuel =>
      if p =? HEAD then Some false
      else
        LET e <- deref m p ;;
        if (vme_projected_on e =? 0) && (vme_start e <=? end_) then LET next <- vme_next m p ;; projected_walk fuel end_ next m
        else Some (vme_start e <=? end_)
  end.

Definition projected_buffer_in_range (start end_ : Z) (m : vm_map) : option (vm_map * bool) :=
  if is_kernel_map then Some (m, false)
  else
    LET (m, entry, found) <- vm_map_lookup_entry m start ;;
    LET entry <- (if negb found then vme_next m entry else Some entry) ;;
    LET r <- projected_walk (S (length (m_entries m))) end_ entry m ;; Some (m, r).

Definition vm_inherit (start size_ new_inheritance : Z) (m : vm_map) : option (vm_map * vm_return) :=
  if negb ((new_inheritance =? VM_INHERIT_NONE) || (new_inheritance =? VM_INHERIT_COPY) || (new_inheritance =? VM_INHERIT_SHARE)) then
    Some (m, VM_INVALID_ARGUMENT)
  else
    LET (m, projected) <- projected_buffer_in_range start (u32 (start + size_)) m ;;
    if projected : bool then Some (m, VM_INVALID_ARGUMENT)
    else vm_map_inherit (trunc_page start) (vm_round_page (u32 (start + size_))) new_inheritance m.

Definition vm_protect (start size_ : Z) (set_maximum : bool) (new_protection : Z) (m : vm_map) : option (vm_map * vm_return) :=
  if negb (Z.ldiff new_protection (Z.lor VM_PROT_ALL VM_PROT_NOTIFY) =? 0) then Some (m, VM_INVALID_ARGUMENT)
  else
    LET (m, projected) <- projected_buffer_in_range start (u32 (start + size_)) m ;;
    if projected : bool then Some (m, VM_INVALID_ARGUMENT)
    else vm_map_protect (trunc_page start) (vm_round_page (u32 (start + size_))) new_protection set_maximum m.

(** With a valid host and map. *)
Definition vm_wire (start size_ access : Z) (m : vm_map) : option (vm_map * vm_return) :=
  if negb (Z.ldiff access VM_PROT_ALL =? 0) then Some (m, VM_INVALID_ARGUMENT)
  else
    LET (m, projected) <- projected_buffer_in_range start (u32 (start + size_)) m ;;
    if projected : bool then Some (m, VM_INVALID_ARGUMENT)
    else vm_map_pageable_common (trunc_page start) (vm_round_page (u32 (start + size_))) access true m.
End Delete.
