(* ===== verification/VmMapInv.v ===== *)
(** * Address maps: the invariant

    Entries in order and disjoint, counts and size exact, hints valid; what an
    address is mapped to; and the references that entries hold on objects. *)

From S2P Require Import Prelude VmMap VmMapOps.

(** ** The list by its parts *)

Notation ids := (map (@fst Z vm_map_entry)).

(** From [lo] to [hi] in order and without overlap; an entry may be empty. *)
Fixpoint chain (lo hi : Z) (l : list (Z * vm_map_entry)) : Prop :=
  match l with
  | [] => lo <= hi
  | (_, e) :: l' => lo <= vme_start e /\ vme_start e <= vme_end e /\ chain (vme_end e) hi l'
  end.

Lemma chain_app lo hi A B : chain lo hi (A ++ B) <-> exists mid, chain lo mid A /\ chain mid hi B.
Proof.
  revert lo. induction A as [|[p e] A IH]; intros lo; cbn [app chain].
  - split; [intros H; exists lo; split; [lia|done]|]. intros (mid & H1 & H2).
    destruct B as [|[p e] B]; cbn in *; [lia|]. intuition lia.
  - rewrite IH. naive_solver.
Qed.

Lemma chain_le lo hi l : chain lo hi l -> lo <= hi.
Proof. revert lo. induction l as [|[p e] l IH]; intros lo; cbn; [done|]. intros (? & ? & ?%IH). lia. Qed.

Lemma chain_weaken lo lo' hi hi' l : chain lo hi l -> lo' <= lo -> hi <= hi' -> chain lo' hi' l.
Proof.
  revert lo lo'. induction l as [|[p e] l IH]; intros lo lo'; cbn; [lia|]. intros (? & ? & ?) ? ?. repeat split; [lia|lia|]. eapply IH; [done|lia|lia].
Qed.

Lemma chain_mid lo hi A p e B : chain lo hi (A ++ (p, e) :: B) <->
  chain lo (vme_start e) A /\ vme_start e <= vme_end e /\ chain (vme_end e) hi B.
Proof.
  rewrite chain_app. cbn [chain]. split.
  - intros (mid & H1 & H2 & H3 & H4). repeat split; try done. by eapply chain_weaken.
  - intros (H1 & H2 & H3). exists (vme_start e). repeat split; [done|lia|done|done].
Qed.

Lemma chain_Forall lo hi l : chain lo hi l -> Forall (fun x => lo <= vme_start x.2 /\ vme_start x.2 <= vme_end x.2 /\ vme_end x.2 <= hi) l.
Proof.
  revert lo. induction l as [|[p e] l IH]; intros lo; cbn [chain]; [constructor|]. intros (H1 & H2 & H3). constructor; cbn.
  - apply chain_le in H3. lia.
  - eapply Forall_impl; [by apply IH|]. cbn. intros ? ?. lia.
Qed.

Definition no_dup (l : list (Z * vm_map_entry)) : Prop := NoDup (HEAD :: ids l).

(** A well-formed list within bounds. *)
Definition list_ok (lo hi : Z) (l : list (Z * vm_map_entry)) : Prop := chain lo hi l /\ no_dup l.

Lemma ids_app A B : ids (A ++ B) = ids A ++ ids B.
Proof. apply map_app. Qed.

Lemma no_dup_mid A p e B : no_dup (A ++ (p, e) :: B) -> p <> HEAD /\ p ∉ ids A /\ p ∉ ids B.
Proof.
  unfold no_dup. rewrite ids_app. cbn [map fst]. intros H. apply NoDup_cons in H as [Hh Hn]. apply NoDup_app in Hn as (H1 & H2 & H3).
  apply NoDup_cons in H3 as [H3 _]. set_solver.
Qed.

Lemma no_dup_perm A B A' B' : ids A = ids A' -> ids B = ids B' -> no_dup (A ++ B) -> no_dup (A' ++ B').
Proof. unfold no_dup. rewrite !ids_app. by intros -> ->. Qed.

Section Find.
Implicit Types (A B l : list (Z * vm_map_entry)) (p q d : Z) (e : vm_map_entry).

Lemma find_ptr_mid A p e B : p ∉ ids A -> list_find_ptr p (A ++ (p, e) :: B) = Some e.
Proof using.
  induction A as [|[q x] A IH]; cbn [app list_find_ptr map fst]; intros H; [by rewrite Z.eqb_refl|].
  rewrite (proj2 (Z.eqb_neq q p)) by set_solver. apply IH. set_solver.
Qed.

Lemma set_ptr_mid A p e e' B : p ∉ ids A -> list_set_ptr p e' (A ++ (p, e) :: B) = A ++ (p, e') :: B.
Proof using.
  induction A as [|[q x] A IH]; cbn [app list_set_ptr map fst]; intros H; [by rewrite Z.eqb_refl|].
  rewrite (proj2 (Z.eqb_neq q p)) by set_solver. by rewrite IH by set_solver.
Qed.

Lemma next_mid A p e B : p ∉ ids A -> list_next p (A ++ (p, e) :: B) = Some (first_ptr B).
Proof using.
  induction A as [|[q x] A IH]; cbn [app list_next map fst]; intros H; [by rewrite Z.eqb_refl|].
  rewrite (proj2 (Z.eqb_neq q p)) by set_solver. apply IH. set_solver.
Qed.

Lemma prev_mid A d p e B : p ∉ ids A -> list_prev d p (A ++ (p, e) :: B) = Some (last_ptr d A).
Proof using.
  revert d. induction A as [|[q x] A IH]; intros d; cbn [app list_prev map fst last_ptr]; intros H; [by rewrite Z.eqb_refl|].
  rewrite (proj2 (Z.eqb_neq q p)) by set_solver. apply IH. set_solver.
Qed.

Lemma link_mid A p e x B : p ∉ ids A -> list_link p x (A ++ (p, e) :: B) = A ++ (p, e) :: x :: B.
Proof using.
  induction A as [|[q y] A IH]; cbn [app list_link map fst]; intros H; [by rewrite Z.eqb_refl|].
  rewrite (proj2 (Z.eqb_neq q p)) by set_solver. by rewrite IH by set_solver.
Qed.

Lemma unlink_mid A p e B : p ∉ ids A -> list_unlink p (A ++ (p, e) :: B) = A ++ B.
Proof using.
  induction A as [|[q y] A IH]; cbn [app list_unlink map fst]; intros H; [by rewrite Z.eqb_refl|].
  rewrite (proj2 (Z.eqb_neq q p)) by set_solver. by rewrite IH by set_solver.
Qed.

Lemma last_ptr_snoc d A p e : last_ptr d (A ++ [(p, e)]) = p.
Proof using. revert d. induction A as [|[q x] A IH]; intros d; cbn; [done|apply IH]. Qed.

Lemma last_ptr_app d A B : last_ptr d (A ++ B) = last_ptr (last_ptr d A) B.
Proof using. revert d. induction A as [|[q x] A IH]; intros d; cbn; [done|apply IH]. Qed.

(** The last entry, if any. *)
Lemma last_ptr_cases A : (A = [] /\ last_ptr HEAD A = HEAD) \/ exists A' p e, A = A' ++ [(p, e)] /\ last_ptr HEAD A = p.
Proof using.
  destruct A as [|x A] using rev_ind; [by left|]. right. destruct x as [p e]. exists A, p, e. by rewrite last_ptr_snoc.
Qed.

Lemma last_ptr_in A : last_ptr HEAD A ∈ HEAD :: ids A.
Proof using.
  destruct (last_ptr_cases A) as [[-> ->]|(A' & p & e & -> & ->)]; [set_solver|]. rewrite ids_app. set_solver.
Qed.

Lemma first_ptr_in A : first_ptr A ∈ HEAD :: ids A.
Proof using. destruct A as [|[p e] A]; cbn; set_solver. Qed.

Lemma in_split_ptr p l : p ∈ ids l -> exists A e B, l = A ++ (p, e) :: B.
Proof using.
  induction l as [|[q x] l IH]; cbn [map fst]; intros H; [set_solver|]. apply elem_of_cons in H as [<-|H]; [by exists [], x, l|].
  destruct (IH H) as (A & e & B & ->). by exists ((q, x) :: A), e, B.
Qed.
End Find.

(** ** Maps that differ in the list and the log *)

Definition with_list (l : list (Z * vm_map_entry)) (log : list vm_event) (m : vm_map) : vm_map :=
  mk_map (m_min m) (m_max m) l (Z.of_nat (length l)) (m_entries_pageable m) (m_pmap m) (m_size m) (m_ref_count m) (m_hint m) (m_first_free m) (m_wait_for_space m) (m_wiring_required m) (m_timestamp m) (m_lock m) log.

Lemma with_list_twice l log l' log' m : with_list l' log' (with_list l log m) = with_list l' log' m.
Proof. done. Qed.

Section At.
Variables (A : list (Z * vm_map_entry)) (p : Z) (e : vm_map_entry) (B : list (Z * vm_map_entry)) (log : list vm_event) (m : vm_map).
Hypothesis Hnd : no_dup (A ++ (p, e) :: B).

Lemma at_ptr : (p =? HEAD) = false.
Proof using Hnd. apply Z.eqb_neq. by destruct (no_dup_mid _ _ _ _ Hnd) as (? & _ & _). Qed.

Lemma at_deref : deref (with_list (A ++ (p, e) :: B) log m) p = Some e.
Proof using Hnd. apply find_ptr_mid. by destruct (no_dup_mid _ _ _ _ Hnd) as (_ & ? & _). Qed.

Lemma at_links : vme_links (with_list (A ++ (p, e) :: B) log m) p = Some (vme_start e, vme_end e).
Proof using Hnd. unfold vme_links. by rewrite at_ptr, at_deref. Qed.

Lemma at_next : vme_next (with_list (A ++ (p, e) :: B) log m) p = Some (first_ptr B).
Proof using Hnd. unfold vme_next. rewrite at_ptr. apply next_mid. by destruct (no_dup_mid _ _ _ _ Hnd) as (_ & ? & _). Qed.

Lemma at_prev : vme_prev (with_list (A ++ (p, e) :: B) log m) p = Some (last_ptr HEAD A).
Proof using Hnd. unfold vme_prev. rewrite at_ptr. apply prev_mid. by destruct (no_dup_mid _ _ _ _ Hnd) as (_ & ? & _). Qed.

Lemma at_put e' : put_entry p e' (with_list (A ++ (p, e) :: B) log m) = with_list (A ++ (p, e') :: B) log m.
Proof using Hnd.
  unfold put_entry. cbn [m_entries with_list]. rewrite set_ptr_mid by (by destruct (no_dup_mid _ _ _ _ Hnd) as (_ & ? & _)).
  unfold set_entries, with_list. cbn. by rewrite !length_app.
Qed.

Lemma at_unlink : vm_map_entry_unlink p (with_list (A ++ (p, e) :: B) log m) = with_list (A ++ B) log m.
Proof using Hnd.
  unfold vm_map_entry_unlink. cbn [m_entries with_list]. rewrite unlink_mid by (by destruct (no_dup_mid _ _ _ _ Hnd) as (_ & ? & _)).
  unfold set_entries, with_list. cbn. rewrite !length_app. cbn [length]. f_equal. lia.
Qed.
End At.

(** Linking after the end of [A]. *)
Lemma at_link A B q x log m : no_dup (A ++ B) -> vm_map_entry_link (last_ptr HEAD A) q x (with_list (A ++ B) log m) = with_list (A ++ (q, x) :: B) log m.
Proof.
  intros Hnd. unfold vm_map_entry_link. cbn [m_entries with_list].
  destruct (last_ptr_cases A) as [[-> ->]|(A' & p & e & -> & ->)].
  - cbn [app]. rewrite Z.eqb_refl. unfold set_entries, with_list. cbn. f_equal. lia.
  - rewrite <- app_assoc in Hnd. cbn [app] in Hnd. destruct (no_dup_mid _ _ _ _ Hnd) as (Hh & Ha & _).
    rewrite (proj2 (Z.eqb_neq p HEAD)) by done. rewrite <- !app_assoc. cbn [app]. rewrite link_mid by done.
    unfold set_entries, with_list. cbn. rewrite !length_app. cbn [length]. f_equal. lia.
Qed.

Lemma at_first l log m : vme_next (with_list l log m) HEAD = Some (first_ptr l).
Proof. done. Qed.

(** ** What an address is mapped to *)

(** The entry as one address of it sees it: its range becomes the address, and
    its offset that of the address; an entry without object has no offset.  The
    transition bits are left out. *)
Definition view_entry (a : Z) (e : vm_map_entry) : vm_map_entry :=
  mk_vme a a (vme_object e) (if vme_object e =? VM_OBJECT_NULL then 0 else u32 (vme_offset e + (a - vme_start e)))
    (vme_is_shared e) (vme_is_sub_map e) false false (vme_needs_copy e) (vme_protection e) (vme_max_protection e) (vme_inheritance e)
    (vme_wired_count e) (vme_user_wired_count e) (vme_projected_on e).

Definition covers (a : Z) (e : vm_map_entry) : bool := (vme_start e <=? a) && (a <? vme_end e).

Fixpoint viewl (l : list (Z * vm_map_entry)) (a : Z) : option vm_map_entry :=
  match l with
  | [] => None
  | (_, e) :: l' => if covers a e then Some (view_entry a e) else viewl l' a
  end.

Definition view (m : vm_map) (a : Z) : option vm_map_entry := viewl (m_entries m) a.

Lemma covers_spec a e : covers a e = true <-> vme_start e <= a < vme_end e.
Proof. unfold covers. rewrite andb_true_iff, Z.leb_le, Z.ltb_lt. done. Qed.

Lemma covers_false a e : covers a e = false <-> a < vme_start e \/ vme_end e <= a.
Proof. unfold covers. rewrite andb_false_iff, Z.leb_gt, Z.ltb_ge. done. Qed.

Lemma viewl_app A B a : viewl (A ++ B) a = match viewl A a with Some v => Some v | None => viewl B a end.
Proof. induction A as [|[p e] A IH]; cbn [app viewl]; [done|]. by destruct (covers a e). Qed.

Lemma viewl_below lo hi l a : chain lo hi l -> a < lo -> viewl l a = None.
Proof.
  revert lo. induction l as [|[p e] l IH]; intros lo; cbn [chain viewl]; [done|]. intros (H1 & H2 & H3) Ha.
  rewrite (proj2 (covers_false a e)) by lia. apply (IH _ H3). lia.
Qed.

Lemma viewl_above lo hi l a : chain lo hi l -> hi <= a -> viewl l a = None.
Proof.
  revert lo. induction l as [|[p e] l IH]; intros lo; cbn [chain viewl]; [done|]. intros (H1 & H2 & H3) Ha.
  pose proof (chain_le _ _ _ H3). rewrite (proj2 (covers_false a e)) by lia. apply (IH _ H3 Ha).
Qed.

(** ** References *)

(** The entries that refer to the object or the submap [o]. *)
Definition refers (sub : bool) (o : Z) (e : vm_map_entry) : Z := if Bool.eqb (vme_is_sub_map e) sub && (vme_object e =? o) then 1 else 0.

Fixpoint refs (sub : bool) (o : Z) (l : list (Z * vm_map_entry)) : Z :=
  match l with [] => 0 | (_, e) :: l' => refers sub o e + refs sub o l' end.

(** What a call gives: references taken and given back; a new object comes with
    one, and a shadow takes over the reference on its source. *)
Definition gives (sub : bool) (o : Z) (ev : vm_event) : Z :=
  match ev, sub with
  | Ev_object_reference x, false | Ev_object_allocate x _, false | Ev_map_reference x, true => if x =? o then 1 else 0
  | Ev_object_deallocate x, false | Ev_map_deallocate x, true => if x =? o then - 1 else 0
  | Ev_object_shadow src _ x _, false => (if x =? o then 1 else 0) - (if src =? o then 1 else 0)
  | _, _ => 0
  end.

Fixpoint balance (sub : bool) (o : Z) (log : list vm_event) : Z :=
  match log with [] => 0 | ev :: log' => gives sub o ev + balance sub o log' end.

(** The references of the entries that no call accounts for. *)
Definition net (sub : bool) (o : Z) (l : list (Z * vm_map_entry)) (log : list vm_event) : Z := refs sub o l - balance sub o log.

Definition same_net (l l' : list (Z * vm_map_entry)) (log log' : list vm_event) : Prop :=
  forall sub o, sub = true \/ o <> VM_OBJECT_NULL -> net sub o l log = net sub o l' log'.

Lemma refs_app sub o A B : refs sub o (A ++ B) = refs sub o A + refs sub o B.
Proof. induction A as [|[p e] A IH]; cbn [app refs]; lia. Qed.

(** ** The invariant *)

Fixpoint total (l : list (Z * vm_map_entry)) : Z := match l with [] => 0 | (_, e) :: l' => (vme_end e - vme_start e) + total l' end.

Lemma total_app A B : total (A ++ B) = total A + total B.
Proof. induction A as [|[p e] A IH]; cbn [app total]; lia. Qed.

Lemma total_bound lo hi l : chain lo hi l -> 0 <= total l <= hi - lo.
Proof. revert lo. induction l as [|[p e] l IH]; intros lo; cbn [chain total]; [lia|]. intros (? & ? & H%IH). lia. Qed.

Record map_ok (m : vm_map) : Prop := {
  ok_bounds : 0 <= m_min m /\ m_max m < wordsize;
  ok_list : list_ok (m_min m) (m_max m) (m_entries m);
  ok_nentries : m_nentries m = Z.of_nat (length (m_entries m));
  ok_size : m_size m = total (m_entries m);
  ok_hint : m_hint m ∈ HEAD :: ids (m_entries m);
  ok_first_free : m_first_free m ∈ HEAD :: ids (m_entries m)
}.

(** A well-formed map is its list and its log. *)
Lemma ok_with_list m : m_nentries m = Z.of_nat (length (m_entries m)) -> m = with_list (m_entries m) (m_log m) m.
Proof. intros H. unfold with_list. rewrite <- H. by destruct m. Qed.

(** The list changes, and with it the pages mapped do not. *)
Lemma ok_new_list m l log : map_ok m -> list_ok (m_min m) (m_max m) l -> total l = total (m_entries m) ->
  (forall x, x ∈ ids (m_entries m) -> x ∈ ids l) -> map_ok (with_list l log m).
Proof. intros [? ? ? ? ? ?] Hl Ht Hin. constructor; cbn; try done; [congruence|set_solver|set_solver]. Qed.
