(* ===== verification/VmMapFind.v ===== *)
(** * Address maps: lookup, clipping and operations on a range

    The lookup with its hint is a search of the whole list; clipping splits an
    entry and changes nothing else. *)
From S2P Require Import Prelude VmMap VmMapOps VmMapInv.

(** ** Lookup *)

(** The reference: a search from the first entry. *)
Fixpoint ref_lookup (d : Z) (l : list (Z * vm_map_entry)) (a : Z) : Z * bool :=
  match l with
  | [] => (d, false)
  | (p, e) :: l' => if a <? vme_end e then (if vme_start e <=? a then (p, true) else (d, false)) else ref_lookup p l' a
  end.

Lemma ref_lookup_skip d A B a : Forall (fun x => vme_end x.2 <= a) A -> ref_lookup d (A ++ B) a = ref_lookup (last_ptr d A) B a.
Proof.
  revert d. induction A as [|[p e] A IH]; intros d H; cbn [app ref_lookup last_ptr]; [done|].
  apply Forall_cons in H as [H1 H2]. cbn in H1. rewrite (proj2 (Z.ltb_ge a (vme_end e))) by done. by apply IH.
Qed.

(** The search ends at the first entry that ends after the address. *)
Lemma ref_lookup_stop d A p e B a : a < vme_end e -> ref_lookup d (A ++ (p, e) :: B) a = ref_lookup d (A ++ [(p, e)]) a.
Proof.
  intros Ha. revert d. induction A as [|[q x] A IH]; intros d; cbn [app ref_lookup]; [by rewrite (proj2 (Z.ltb_lt _ _) Ha)|].
  by rewrite IH.
Qed.

(** The list at the address: an entry contains it, or it lies in a gap. *)
Inductive located (l : list (Z * vm_map_entry)) (a : Z) : Z * bool -> Prop :=
| in_entry A p e B : l = A ++ (p, e) :: B -> vme_start e <= a < vme_end e -> located l a (p, true)
| in_gap A B : l = A ++ B -> Forall (fun x => vme_end x.2 <= a) A -> Forall (fun x => a < vme_start x.2) B -> located l a (last_ptr HEAD A, false).

Lemma ref_lookup_located l lo hi a : chain lo hi l -> located l a (ref_lookup HEAD l a).
Proof.
  intros Hc. cut (forall A B, l = A ++ B -> Forall (fun x => vme_end x.2 <= a) A -> located l a (ref_lookup (last_ptr HEAD A) B a)).
  { intros H. by apply (H [] l). }
  intros A B. revert A. induction B as [|[p e] B IH]; intros A Hl HA; cbn [ref_lookup]; [by apply (in_gap l a A [])|].
  rewrite Hl in Hc. apply chain_mid in Hc as (Hc1 & Hc2 & Hc3). destruct (Z.ltb_spec a (vme_end e)).
  - destruct (Z.leb_spec (vme_start e) a); [by apply (in_entry l a A p e B)|]. apply (in_gap l a A ((p, e) :: B)); [done|done|].
    constructor; [cbn; lia|]. eapply Forall_impl; [by apply (chain_Forall _ _ _ Hc3)|]. cbn. intros ? ?. lia.
  - rewrite <- (last_ptr_snoc (last_ptr HEAD A) [] p e). cbn [app]. rewrite <- last_ptr_app. apply IH.
    + by rewrite <- app_assoc.
    + apply Forall_app. split; [done|]. constructor; [done|constructor].
Qed.

(** The walk from the pointer to [B] to the pointer to [C]. *)
Lemma lookup_walk_ref m log a C : forall B A fuel, no_dup (A ++ B ++ C) -> (length B < fuel)%nat ->
  lookup_walk fuel (with_list (A ++ B ++ C) log m) (first_ptr (B ++ C)) (first_ptr C) a = Some (ref_lookup (last_ptr HEAD A) B a).
Proof.
  induction B as [|[p e] B IH]; intros A fuel Hnd Hf; (destruct fuel as [|fuel]; [cbn in Hf; lia|]); cbn [app first_ptr lookup_walk ref_lookup].
  - rewrite Z.eqb_refl. destruct C as [|[q x] C]; cbn [first_ptr].
    + unfold vme_prev. cbn. by rewrite app_nil_r.
    + cbn [app] in Hnd. rewrite at_prev by done. done.
  - cbn [app] in Hnd. assert (p <> first_ptr C) as Hne.
    { destruct (no_dup_mid _ _ _ _ Hnd) as (H1 & _ & H2). pose proof (first_ptr_in C). rewrite ids_app in H2. set_solver. }
    rewrite (proj2 (Z.eqb_neq _ _) Hne), at_links by done. destruct (a <? vme_end e).
    + destruct (vme_start e <=? a); [done|]. by rewrite at_prev by done.
    + rewrite at_next by done. specialize (IH (A ++ [(p, e)]) fuel). rewrite <- app_assoc in IH. cbn [app] in IH.
      rewrite IH; [by rewrite last_ptr_snoc|done|cbn in Hf; lia].
Qed.

Lemma lookup_hint_entry m l log a p e A B : chain (m_min m) (m_max m) l -> no_dup l -> l = A ++ (p, e) :: B ->
  m_hint m = p \/ m_hint m = HEAD /\ A = [] ->
  exists h, vm_map_lookup_entry (with_list l log m) a = Some (set_hint h (with_list l log m), (ref_lookup HEAD l a).1, (ref_lookup HEAD l a).2) /\ h ∈ HEAD :: ids l /\
    ((ref_lookup HEAD l a).2 = false -> h = (ref_lookup HEAD l a).1).
Proof.
  intros Hc Hnd Hl Hh. unfold vm_map_lookup_entry. cbn [m_hint with_list m_entries].
  assert ((if m_hint m =? HEAD then vme_next (with_list l log m) (m_hint m) else Some (m_hint m)) = Some p) as ->.
  { destruct Hh as [->|[-> ->]]; [|rewrite Z.eqb_refl; by rewrite Hl]. rewrite Hl in Hnd. by rewrite (at_ptr _ _ _ _ Hnd). }
  pose proof Hc as Hc'. rewrite Hl in Hc'. apply chain_mid in Hc' as (Hc1 & Hc2 & Hc3).
  assert (In (ref_lookup HEAD l a).1 (HEAD :: ids l)) as Hin.
  { apply list_elem_of_In. destruct (ref_lookup_located l _ _ a Hc) as [A' p' e' B' -> _|A' B' -> _ _]; cbn [fst]; rewrite ids_app; [set_solver|].
    pose proof (last_ptr_in A'). set_solver. }
  apply list_elem_of_In in Hin. rewrite Hl in *. rewrite at_links by done. destruct (Z.leb_spec (vme_start e) a).
  - rewrite (at_ptr _ _ _ _ Hnd). cbn [negb andb].
    assert (ref_lookup HEAD (A ++ (p, e) :: B) a = ref_lookup (last_ptr HEAD A) ((p, e) :: B) a) as Er.
    { apply ref_lookup_skip. eapply Forall_impl; [by apply (chain_Forall _ _ _ Hc1)|]. cbn. intros ? ?. lia. }
    destruct (Z.ltb_spec a (vme_end e)).
    + exists (m_hint m). rewrite Er. cbn [ref_lookup]. rewrite (proj2 (Z.ltb_lt _ _)), (proj2 (Z.leb_le _ _)) by done. cbn [fst snd]. split; [by unfold set_hint; cbn|].
      split; [|done]. destruct Hh as [->|[-> _]]; [rewrite ids_app; set_solver|set_solver].
    + pose proof (lookup_walk_ref m log a [] ((p, e) :: B) A (S (length (A ++ (p, e) :: B)))) as Hw. rewrite !app_nil_r in Hw.
      cbn [first_ptr] in Hw. rewrite Hw; [|done|rewrite length_app; lia]. rewrite <- Er. destruct (ref_lookup HEAD (A ++ (p, e) :: B) a) as [q f]. by exists q.
  - rewrite at_next by done. rewrite at_first.
    pose proof (lookup_walk_ref m log a B (A ++ [(p, e)]) [] (S (length (A ++ (p, e) :: B)))) as Hw.
    rewrite <- app_assoc in Hw. cbn [app] in Hw. cbn [last_ptr] in Hw. rewrite Hw; [|done|rewrite !length_app; cbn; lia].
    rewrite <- (ref_lookup_stop HEAD A p e B a) by lia. destruct (ref_lookup HEAD (A ++ (p, e) :: B) a) as [q f]. by exists q.
Qed.

Lemma lookup_entry_ref m a : map_ok m ->
  exists h, vm_map_lookup_entry m a = Some (set_hint h m, (ref_lookup HEAD (m_entries m) a).1, (ref_lookup HEAD (m_entries m) a).2) /\
    h ∈ HEAD :: ids (m_entries m) /\ ((ref_lookup HEAD (m_entries m) a).2 = false -> h = (ref_lookup HEAD (m_entries m) a).1).
Proof.
  intros Hok. pose proof (ok_with_list m (ok_nentries _ Hok)) as Hm. destruct (ok_list _ Hok) as [Hc Hnd].
  pose proof (ok_hint _ Hok) as Hh. apply elem_of_cons in Hh as [Hh|Hh].
  - destruct (m_entries m) as [|[p e] l] eqn:El.
    + exists HEAD. split; [|split; [set_solver|done]]. unfold vm_map_lookup_entry. rewrite Hh, El. cbn [ref_lookup fst snd].
      unfold vme_next, vme_links. rewrite Z.eqb_refl, El. cbn [first_ptr]. unfold vme_links. rewrite Z.eqb_refl. cbn [negb andb].
      destruct (m_min m <=? a); cbn [lookup_walk length]; unfold vme_next, vme_prev; rewrite !Z.eqb_refl, !El; cbn [first_ptr last_ptr];
        rewrite ?El; cbn [first_ptr]; rewrite ?Z.eqb_refl; done.
    + rewrite Hm. apply (lookup_hint_entry m ((p, e) :: l) (m_log m) a p e [] l); auto.
  - apply in_split_ptr in Hh as (A & e & B & Hl). rewrite Hm. rewrite Hl in *. by apply (lookup_hint_entry m _ (m_log m) a (m_hint m) e A B); auto.
Qed.

Lemma ok_set_hint m h : map_ok m -> h ∈ HEAD :: ids (m_entries m) -> map_ok (set_hint h m).
Proof. intros [? ? ? ? ? ?] Hh. by constructor. Qed.

Lemma ok_set_first_free m h : map_ok m -> h ∈ HEAD :: ids (m_entries m) -> map_ok (set_first_free h m).
Proof. intros [? ? ? ? ? ?] Hh. by constructor. Qed.

Lemma ok_set_lock m t k : map_ok m -> map_ok (set_lock t k m).
Proof. intros [? ? ? ? ? ?]. by constructor. Qed.

(** What a lookup gives: only the hint changes. *)
Lemma lookup_located m a : map_ok m -> exists h p found, vm_map_lookup_entry m a = Some (set_hint h m, p, found) /\
  map_ok (set_hint h m) /\ located (m_entries m) a (p, found).
Proof.
  intros Hok. destruct (lookup_entry_ref m a Hok) as (h & E & Hh & _). eexists h, _, _. split; [exact E|]. split; [by apply ok_set_hint|].
  rewrite <- surjective_pairing. destruct (ok_list _ Hok) as [Hc _]. by eapply ref_lookup_located.
Qed.

(** An address in a gap makes the entry before it the hint. *)
Lemma lookup_gap_hint m a h p : map_ok m -> vm_map_lookup_entry m a = Some (set_hint h m, p, false) -> h = p.
Proof.
  intros Hok E. destruct (lookup_entry_ref m a Hok) as (h' & E' & _ & Hh). rewrite E' in E. injection E as E1 E2 E3. rewrite <- E2, E3 in *. by rewrite <- Hh, E1.
Qed.

(** ** Clipping *)

Lemma view_split_front a e x : vme_start e <= x -> view_entry a (vme_set_range (vme_start e) x e) = view_entry a e.
Proof. done. Qed.

(** The back part has the offset of its start. *)
Definition back_part (x : Z) (e : vm_map_entry) : vm_map_entry :=
  vme_set_range x (vme_end e) (vme_set_object (vme_object e) (u32 (vme_offset e + (x - vme_start e))) e).

Definition front_part (x : Z) (e : vm_map_entry) : vm_map_entry := vme_set_range (vme_start e) x e.

Lemma view_back_part a x e : view_entry a (back_part x e) = view_entry a e.
Proof.
  unfold view_entry, back_part. cbn. f_equal. destruct (vme_object e =? VM_OBJECT_NULL); [done|].
  unfold u32. rewrite Zplus_mod_idemp_l. f_equal. lia.
Qed.

Lemma viewl_split x q p p' e l a : vme_start e <= x <= vme_end e -> viewl ((q, front_part x e) :: (p, back_part x e) :: l) a = viewl ((p', e) :: l) a.
Proof.
  intros Hx. cbn [viewl]. rewrite view_back_part. change (view_entry a (front_part x e)) with (view_entry a e).
  destruct (covers a e) eqn:Ec.
  - apply covers_spec in Ec. destruct (decide (a < x)).
    + by rewrite (proj2 (covers_spec a (front_part x e))) by (cbn; lia).
    + rewrite (proj2 (covers_false a (front_part x e))) by (cbn; lia). by rewrite (proj2 (covers_spec a (back_part x e))) by (cbn; lia).
  - apply covers_false in Ec. rewrite (proj2 (covers_false a (front_part x e))) by (cbn; lia). by rewrite (proj2 (covers_false a (back_part x e))) by (cbn; lia).
Qed.

Section Clip.
Context {E : VmEnv}.

(** The log after a reference for the entry. *)
Definition reference_log (e : vm_map_entry) (log : list vm_event) : list vm_event :=
  if vme_is_sub_map e then Ev_map_reference (vme_object e) :: log
  else if vme_object e =? VM_OBJECT_NULL then log else Ev_object_reference (vme_object e) :: log.

Lemma reference_entry_log e l log m : reference_entry e (with_list l log m) = with_list l (reference_log e log) m.
Proof. unfold reference_entry, reference_log, vm_object_reference. destruct (vme_is_sub_map e); [done|]. by destruct (vme_object e =? VM_OBJECT_NULL). Qed.

Lemma balance_reference sub o e log : sub = true \/ o <> VM_OBJECT_NULL -> balance sub o (reference_log e log) = refers sub o e + balance sub o log.
Proof.
  intros Ho. unfold reference_log, refers. destruct (vme_is_sub_map e), sub; cbn [Bool.eqb andb]; try done;
    destruct (Z.eqb_spec (vme_object e) VM_OBJECT_NULL) as [En|]; try done.
  rewrite En, (proj2 (Z.eqb_neq VM_OBJECT_NULL o)); [done|]. intros <-. naive_solver.
Qed.

Definition fresh (l : list (Z * vm_map_entry)) : Z := zalloc_entry (ids l).

Lemma fresh_no_dup A p e e1 e2 B : no_dup (A ++ (p, e) :: B) ->
  no_dup (A ++ (fresh (A ++ (p, e) :: B), e1) :: (p, e2) :: B) /\ no_dup (A ++ (p, e2) :: (fresh (A ++ (p, e) :: B), e1) :: B).
Proof using.
  intros Hnd. destruct (zalloc_fresh (ids (A ++ (p, e) :: B))) as [Hh Hn]. fold (fresh (A ++ (p, e) :: B)) in *.
  rewrite <- list_elem_of_In in Hn. unfold no_dup in *. rewrite !ids_app in *. cbn [map fst] in *.
  assert (forall q, q <> HEAD -> q ∉ ids A ++ p :: ids B -> NoDup (HEAD :: ids A ++ q :: p :: ids B)) as H1.
  { intros q Hq Hnq. apply NoDup_cons in Hnd as [H1 H2]. apply NoDup_app in H2 as (H2 & H3 & H4). apply NoDup_cons. split; [set_solver|].
    apply NoDup_app. split; [done|]. split; [set_solver|]. apply NoDup_cons. split; [set_solver|done]. }
  split; [by apply H1|]. eapply (NoDup_Permutation_proper (HEAD :: ids A ++ _ :: p :: ids B)); [|by apply (H1 (fresh (A ++ (p, e) :: B)))].
  constructor. apply Permutation_app_head. constructor.
Qed.

(** An entry may be replaced by one with the same range. *)
Lemma list_ok_change lo hi A p e e' B : list_ok lo hi (A ++ (p, e) :: B) -> vme_start e' = vme_start e -> vme_end e' = vme_end e ->
  list_ok lo hi (A ++ (p, e') :: B).
Proof using. intros [Hc Hnd] Es Ee. split; [apply chain_mid in Hc as (? & ? & ?); apply chain_mid; by rewrite Es, Ee|]. by eapply no_dup_perm; [| |exact Hnd]. Qed.

Lemma list_ok_split lo hi A p e B x : list_ok lo hi (A ++ (p, e) :: B) -> vme_start e <= x <= vme_end e ->
  list_ok lo hi (A ++ (fresh (A ++ (p, e) :: B), front_part x e) :: (p, back_part x e) :: B) /\
  list_ok lo hi (A ++ (p, front_part x e) :: (fresh (A ++ (p, e) :: B), back_part x e) :: B).
Proof using.
  intros [Hc Hnd] Hx. apply chain_mid in Hc as (H1 & H2 & H3).
  split; (split; [apply chain_mid; cbn [chain front_part back_part vme_set_range vme_set_object vme_start vme_end]; repeat split; try done; lia|by apply fresh_no_dup]).
Qed.

Lemma refs_split sub o x q e : refs sub o [(q, front_part x e)] = refers sub o e /\ refers sub o (back_part x e) = refers sub o e.
Proof using. split; [cbn; unfold refers, front_part; cbn; lia|done]. Qed.

(** The lists after a clip. *)
Lemma clip_start_spec A p e B x log m : no_dup (A ++ (p, e) :: B) -> vme_start e < x ->
  vm_map_clip_start p x (with_list (A ++ (p, e) :: B) log m) =
    Some (with_list (A ++ (fresh (A ++ (p, e) :: B), front_part x e) :: (p, back_part x e) :: B) (reference_log e log) m).
Proof using.
  intros Hnd Hx. unfold vm_map_clip_start. rewrite at_deref by done. rewrite (proj2 (Z.ltb_lt _ _) Hx). unfold clip_start_split.
  rewrite at_deref by done. rewrite at_put by done. rewrite at_prev by (by eapply no_dup_perm; [| |exact Hnd]).
  rewrite at_link by (by eapply no_dup_perm; [| |exact Hnd]). rewrite reference_entry_log. done.
Qed.

Lemma clip_start_none A p e B x log m : no_dup (A ++ (p, e) :: B) -> x <= vme_start e ->
  vm_map_clip_start p x (with_list (A ++ (p, e) :: B) log m) = Some (with_list (A ++ (p, e) :: B) log m).
Proof using. intros Hnd Hx. unfold vm_map_clip_start. rewrite at_deref by done. by rewrite (proj2 (Z.ltb_ge _ _) Hx). Qed.

Lemma clip_end_spec A p e B x log m : no_dup (A ++ (p, e) :: B) -> x < vme_end e ->
  vm_map_clip_end p x (with_list (A ++ (p, e) :: B) log m) =
    Some (with_list (A ++ (p, front_part x e) :: (fresh (A ++ (p, e) :: B), back_part x e) :: B) (reference_log e log) m).
Proof using.
  intros Hnd Hx. unfold vm_map_clip_end. rewrite at_deref by done. rewrite (proj2 (Z.ltb_lt _ _) Hx). unfold clip_end_split.
  rewrite at_deref by done. rewrite at_put by done.
  assert (no_dup ((A ++ [(p, front_part x e)]) ++ B)) as Hnd'.
  { rewrite <- app_assoc. cbn [app]. by eapply no_dup_perm; [| |exact Hnd]. }
  pose proof (at_link (A ++ [(p, front_part x e)]) B (fresh (A ++ (p, e) :: B)) (back_part x e) log m Hnd') as Hl.
  rewrite last_ptr_snoc, <- !app_assoc in Hl. cbn [app] in Hl. unfold vm_map_entry_create. cbn [m_entries with_list]. fold (fresh (A ++ (p, e) :: B)).
  fold (back_part x e). fold (front_part x e). rewrite Hl, reference_entry_log. done.
Qed.

Lemma clip_end_none A p e B x log m : no_dup (A ++ (p, e) :: B) -> vme_end e <= x ->
  vm_map_clip_end p x (with_list (A ++ (p, e) :: B) log m) = Some (with_list (A ++ (p, e) :: B) log m).
Proof using. intros Hnd Hx. unfold vm_map_clip_end. rewrite at_deref by done. by rewrite (proj2 (Z.ltb_ge _ _) Hx). Qed.
End Clip.

(** ** Operations on a range

    The loop that clips and changes every entry of a range, once for
    [vm_map_protect], [vm_map_inherit] and the unwiring: it changes what the
    addresses of the range are mapped to and nothing else. *)

(** ** A list cut at an address *)

Definition ends_by (x : Z) (l : list (Z * vm_map_entry)) : Prop := Forall (fun y => vme_end y.2 <= x) l.
Definition starts_from (x : Z) (l : list (Z * vm_map_entry)) : Prop := Forall (fun y => x <= vme_start y.2) l.

Lemma viewl_ends_by x l a : ends_by x l -> x <= a -> viewl l a = None.
Proof.
  intros H Ha. induction H as [|[p e] l He _ IH]; cbn [viewl]; [done|]. cbn in He. by rewrite (proj2 (covers_false a e)) by lia.
Qed.

Lemma viewl_starts_from x l a : starts_from x l -> a < x -> viewl l a = None.
Proof.
  intros H Ha. induction H as [|[p e] l He _ IH]; cbn [viewl]; [done|]. cbn in He. by rewrite (proj2 (covers_false a e)) by lia.
Qed.

Lemma chain_starts_from lo hi l : chain lo hi l -> starts_from lo l.
Proof. intros H%chain_Forall. eapply Forall_impl; [done|]. cbn. intros ? ?. lia. Qed.

Lemma chain_ends_by lo hi l : chain lo hi l -> ends_by hi l.
Proof. intros H%chain_Forall. eapply Forall_impl; [done|]. cbn. intros ? ?. lia. Qed.

(** ** Physical protections *)

(** What the calls do to the protection of the physical map at an address:
    [pmap_protect] only takes rights away. *)
Definition hw_event (ev : vm_event) (hw : Z -> Z) : Z -> Z :=
  match ev with
  | Ev_pmap_protect s x prot => fun a => if (s <=? a) && (a <? x) then Z.land (hw a) prot else hw a
  | Ev_pmap_remove s x => fun a => if (s <=? a) && (a <? x) then VM_PROT_NONE else hw a
  | _ => hw
  end.

Fixpoint hw_after (log : list vm_event) (hw : Z -> Z) : Z -> Z := match log with [] => hw | ev :: log' => hw_event ev (hw_after log' hw) end.

(** The physical map gives no right the map does not give. *)
Definition allowed (v : option vm_map_entry) (h : Z) : Prop :=
  match v with Some e => Z.land h (vme_protection e) = h | None => h = VM_PROT_NONE end.

Lemma allowed_land v h p : allowed v h -> allowed v (Z.land h p).
Proof.
  destruct v as [e|]; cbn; [|by intros ->]. intros H. rewrite <- Z.land_assoc, (Z.land_comm p), Z.land_assoc, H. done.
Qed.

(** ** The loop *)

Section Loop.
Context {E : VmEnv}.
Variables (m : vm_map) (end_ : Z) (body : Z -> vm_map -> option progress).
Variables (f g : vm_map_entry -> vm_map_entry) (evs : vm_map_entry -> list vm_event).

(** The body clips at the end of the range, changes the entry and makes calls. *)
Hypothesis body_eq : forall p m', body p m' =
  (LET m' <- vm_map_clip_end p end_ m' ;; LET e <- deref m' p ;; Some (Goes_on (fold_right emit (put_entry p (f e) m') (evs e)))).
Hypothesis f_range : forall e, vme_start (f e) = vme_start e /\ vme_end (f e) = vme_end e /\ vme_object (f e) = vme_object e /\ vme_is_sub_map (f e) = vme_is_sub_map e.
Hypothesis f_view : forall a e, view_entry a (f e) = g (view_entry a e).
Hypothesis evs_net : forall sub o e, balance sub o (evs e) = 0.
Hypothesis evs_less : forall e hw a, exists p, hw_after (evs e) hw a = Z.land (hw a) p.
Hypothesis evs_allowed : forall e hw a, covers a e = true -> allowed (Some e) (hw a) -> allowed (Some (f e)) (hw_after (evs e) hw a).

Lemma emit_all l log evs' : fold_right emit (with_list l log m) evs' = with_list l (evs' ++ log) m.
Proof using. induction evs' as [|ev evs' IH]; cbn; [done|]. by rewrite IH. Qed.

Lemma balance_app sub o l1 l2 : balance sub o (l1 ++ l2) = balance sub o l1 + balance sub o l2.
Proof using. induction l1; cbn; lia. Qed.

Lemma hw_app l1 l2 hw : hw_after (l1 ++ l2) hw = hw_after l1 (hw_after l2 hw).
Proof using. induction l1 as [|ev l1 IH]; cbn; [done|]. by rewrite IH. Qed.

Lemma refers_f sub o e : refers sub o (f e) = refers sub o e.
Proof using f_range. unfold refers. by destruct (f_range e) as (_ & _ & -> & ->). Qed.

Lemma covers_f a e : covers a (f e) = covers a e.
Proof using f_range. unfold covers. by destruct (f_range e) as (-> & -> & _ & _). Qed.

(** One entry of the range. *)
Lemma body_step A p e B log : list_ok (m_min m) (m_max m) (A ++ (p, e) :: B) -> vme_start e < end_ ->
  exists e1 R log1, body p (with_list (A ++ (p, e) :: B) log m) = Some (Goes_on (with_list (A ++ (p, f e1) :: R ++ B) (evs e1 ++ log1 ++ log) m)) /\
    list_ok (m_min m) (m_max m) (A ++ (p, f e1) :: R ++ B) /\
    (end_ < vme_end e /\ e1 = front_part end_ e /\ R = [(fresh (A ++ (p, e) :: B), back_part end_ e)] /\ log1 ++ log = reference_log e log \/
     vme_end e <= end_ /\ e1 = e /\ R = [] /\ log1 = []).
Proof using body_eq f_range.
  intros Hok Hs. rewrite body_eq. pose proof Hok as [Hc Hnd]. pose proof (f_range e) as (F1 & F2 & _).
  apply chain_mid in Hc as (Hc1 & Hc2 & Hc3). destruct (decide (end_ < vme_end e)) as [Hlt|Hge].
  - rewrite clip_end_spec by done. destruct (list_ok_split _ _ _ _ _ _ end_ Hok ltac:(lia)) as [_ Hok2].
    rewrite at_deref by apply Hok2. rewrite at_put by apply Hok2. rewrite emit_all.
    assert (exists log1, reference_log e log = log1 ++ log) as [log1 El].
    { unfold reference_log. destruct (vme_is_sub_map e); [by eexists [_]|]. destruct (vme_object e =? VM_OBJECT_NULL); [by exists []|by eexists [_]]. }
    exists (front_part end_ e), [(fresh (A ++ (p, e) :: B), back_part end_ e)], log1. split; [by rewrite El|]. split; [|left; done].
    cbn [app]. pose proof (f_range (front_part end_ e)) as (G1 & G2 & _). by eapply list_ok_change.
  - rewrite clip_end_none by (done || lia). rewrite at_deref, at_put, emit_all by done. exists e, [], []. split; [done|].
    split; [|right; repeat split; (done || lia)]. cbn [app]. by eapply list_ok_change.
Qed.

(** What the loop makes of the list [B] with the calls [new]. *)
Record updated (B C : list (Z * vm_map_entry)) (new : list vm_event) : Prop := {
  up_total : total C = total B;
  up_ids : forall x, x ∈ ids B -> x ∈ ids C;
  up_view : forall a, viewl C a = if a <? end_ then g <$> viewl B a else viewl B a;
  up_net : forall sub o, sub = true \/ o <> VM_OBJECT_NULL -> refs sub o C = refs sub o B + balance sub o new;
  up_less : forall hw a, exists p, hw_after new hw a = Z.land (hw a) p;
  up_allowed : forall hw a, allowed (viewl B a) (hw a) -> allowed (viewl C a) (hw_after new hw a)
}.

Lemma updated_stop B : starts_from end_ B -> updated B B [].
Proof using.
  intros Hs. constructor; cbn [hw_after balance]; try done; [|intros; lia|].
  - intros a. destruct (Z.ltb_spec a end_); [|done]. by rewrite (viewl_starts_from end_).
  - intros hw a. exists (hw a). by rewrite Z.land_diag.
Qed.

Lemma reference_log_new e log : exists new, reference_log e log = new ++ log /\ new = reference_log e [] /\ forall hw a, hw_after new hw a = hw a.
Proof using.
  exists (reference_log e []). unfold reference_log. destruct (vme_is_sub_map e); [done|]. by destruct (vme_object e =? VM_OBJECT_NULL).
Qed.

Lemma updated_clip p q e B log hi : chain (vme_end e) hi B -> vme_start e <= end_ < vme_end e -> log = reference_log e [] ->
  updated ((p, e) :: B) ((p, f (front_part end_ e)) :: (q, back_part end_ e) :: B) (evs (front_part end_ e) ++ log).
Proof using f_range f_view evs_net evs_less evs_allowed.
  clear body_eq body. intros Hc Hend ->. destruct (f_range (front_part end_ e)) as (F1 & F2 & F3 & F4).
  assert (forall hw a, hw_after (reference_log e []) hw a = hw a) as Hl1 by (destruct (reference_log_new e []) as (? & _ & -> & ?); done).
  pose proof (fun a => viewl_split end_ p q p e B a ltac:(lia)) as Hv. constructor.
  - cbn [total]. rewrite F1, F2. cbn. lia.
  - cbn [map fst]. set_solver.
  - intros a. specialize (Hv a). cbn [viewl] in Hv |- *. rewrite covers_f, f_view, <- Hv. destruct (Z.ltb_spec a end_) as [Ha|Ha].
    + destruct (covers a (front_part end_ e)); [done|]. rewrite (proj2 (covers_false a (back_part end_ e))) by (cbn; lia).
      rewrite (viewl_starts_from (vme_end e)); [done| |lia]. by eapply chain_starts_from.
    + by rewrite (proj2 (covers_false a (front_part end_ e))) by (cbn; lia).
  - intros sub o Ho. cbn [refs]. rewrite refers_f. destruct (refs_split sub o end_ p e) as [S1 ->].
    cbn [refs] in S1. rewrite balance_app, evs_net, balance_reference by done. cbn. lia.
  - intros hw a. rewrite hw_app. destruct (evs_less (front_part end_ e) (hw_after (reference_log e []) hw) a) as [x ->]. exists x. by rewrite Hl1.
  - intros hw a. rewrite hw_app, <- (Hv a). cbn [viewl]. rewrite covers_f.
    destruct (covers a (front_part end_ e)) eqn:Ec; [intros Ha; apply (evs_allowed (front_part end_ e) _ a Ec); by rewrite Hl1|].
    intros Ha. destruct (evs_less (front_part end_ e) (hw_after (reference_log e []) hw) a) as [x ->]. apply allowed_land. by rewrite Hl1.
Qed.

Lemma updated_cons p e B C new : vme_end e <= end_ -> updated B C new -> updated ((p, e) :: B) ((p, f e) :: C) (new ++ evs e).
Proof using f_range f_view evs_net evs_less evs_allowed.
  clear body_eq body. intros Hend [Ht Hids Hv Hn Hl Ha]. destruct (f_range e) as (F1 & F2 & F3 & F4). constructor.
  - cbn [total]. rewrite F1, F2. lia.
  - cbn [map fst]. set_solver.
  - intros a. cbn [viewl]. rewrite covers_f, f_view, Hv. destruct (covers a e) eqn:Ec; [|done]. apply covers_spec in Ec. by rewrite (proj2 (Z.ltb_lt a end_)) by lia.
  - intros sub o Ho. cbn [refs]. rewrite (Hn sub o Ho), refers_f, balance_app, evs_net. lia.
  - intros hw a. rewrite hw_app. destruct (Hl (hw_after (evs e) hw) a) as [x ->]. destruct (evs_less e hw a) as [y ->]. exists (Z.land y x). by rewrite Z.land_assoc.
  - intros hw a. rewrite hw_app. cbn [viewl]. rewrite covers_f. destruct (covers a e) eqn:Ec; intros H.
    + destruct (Hl (hw_after (evs e) hw) a) as [x ->]. by apply allowed_land, (evs_allowed e hw a Ec).
    + apply Ha. destruct (evs_less e hw a) as [y ->]. by apply allowed_land.
Qed.

(** The loop from the pointer to [B]. *)
Lemma update_loop : forall B A log fuel, list_ok (m_min m) (m_max m) (A ++ B) -> (length B + 1 < fuel)%nat ->
  exists C new, while_range fuel end_ body (first_ptr B) (with_list (A ++ B) log m) = Some (Goes_on (with_list (A ++ C) (new ++ log) m)) /\
    list_ok (m_min m) (m_max m) (A ++ C) /\ updated B C new.
Proof using body_eq f_range f_view evs_net evs_less evs_allowed.
  induction B as [|[p e] B IH]; intros A log fuel Hok Hf; (destruct fuel as [|fuel]; [lia|]); cbn [first_ptr while_range].
  { exists [], []. split; [done|]. split; [done|]. apply updated_stop. constructor. }
  pose proof Hok as [Hc Hnd]. apply chain_mid in Hc as (Hc1 & Hc2 & Hc3). rewrite (at_ptr _ _ _ _ Hnd), at_deref by done.
  destruct (Z.ltb_spec (vme_start e) end_) as [Hlt|Hge]; cbn [negb].
  2:{ exists ((p, e) :: B), []. split; [done|]. split; [done|]. apply updated_stop. constructor; [done|].
      eapply Forall_impl; [apply (chain_starts_from _ _ _ Hc3)|]. cbn. intros ? ?. lia. }
  destruct (body_step A p e B log Hok Hlt) as (e1 & R & log1 & -> & Hok1 & Hcase). rewrite at_next by apply Hok1.
  destruct Hcase as [(Hend & -> & -> & Hlog)|(Hend & -> & -> & ->)].
  - destruct fuel as [|fuel]; [cbn in Hf; lia|]. cbn [app first_ptr while_range]. set (q := fresh (A ++ (p, e) :: B)).
    assert (no_dup ((A ++ [(p, f (front_part end_ e))]) ++ (q, back_part end_ e) :: B)) as Hndq by (rewrite <- app_assoc; apply Hok1).
    pose proof (at_ptr _ _ _ _ Hndq) as Hq. pose proof (at_deref _ _ _ _ (evs (front_part end_ e) ++ log1 ++ log) m Hndq) as Hd.
    rewrite <- app_assoc in Hd. cbn [app] in Hd. rewrite Hq, Hd. cbn [back_part vme_set_range vme_start]. rewrite Z.ltb_irrefl. cbn [negb].
    exists ((p, f (front_part end_ e)) :: (q, back_part end_ e) :: B), (evs (front_part end_ e) ++ log1). rewrite <- app_assoc.
    split; [done|]. split; [apply Hok1|]. eapply updated_clip; [done|lia|]. destruct (reference_log_new e log) as (new & E1 & -> & _).
    rewrite E1 in Hlog. by apply app_inv_tail in Hlog.
  - cbn [app] in *. destruct (IH (A ++ [(p, f e)]) (evs e ++ log) fuel) as (C & new & Hw & HokC & Hup); [by rewrite <- app_assoc|cbn in Hf; lia|].
    rewrite <- !app_assoc in *. cbn [app] in *. exists ((p, f e) :: C), (new ++ evs e). rewrite <- app_assoc. split; [exact Hw|]. split; [done|]. by apply updated_cons.
Qed.
End Loop.
