(* ===== verification/VmMapSpec.v ===== *)
(** * Address maps: protection and inheritance

    [vm_map_protect] and [vm_map_inherit] against the functions from addresses to
    what they are mapped to. *)
From S2P Require Import Prelude VmMap VmMapOps VmMapInv VmMapFind.

(** ** Where a range begins *)

(** A map that was cut at an address: [A] is before, [B] from there on. *)
Record cut_at (m : vm_map) (x : Z) (A B : list (Z * vm_map_entry)) (new : list vm_event) (h : Z) : Prop := {
  cut_ok : map_ok (with_list (A ++ B) (new ++ m_log m) (set_hint h m));
  cut_before : ends_by x A;
  cut_after : starts_from x B;
  cut_view : forall a, viewl (A ++ B) a = view m a;
  cut_net : forall sub o, sub = true \/ o <> VM_OBJECT_NULL -> refs sub o (A ++ B) = refs sub o (m_entries m) + balance sub o new;
  cut_hw : forall hw a, hw_after new hw a = hw a
}.

Section Range.
Context {E : VmEnv}.

Lemma cut_same m x A B h : map_ok (set_hint h m) -> m_entries m = A ++ B -> ends_by x A -> starts_from x B -> cut_at m x A B [] h.
Proof using.
  intros Hok Hl HA HB. constructor; try done.
  - rewrite <- Hl. pose proof (ok_with_list (set_hint h m) (ok_nentries _ Hok)) as Hm. cbn [m_entries set_hint m_log] in Hm. cbn [app]. by rewrite <- Hm.
  - intros a. by rewrite <- Hl.
  - intros sub o _. rewrite Hl. cbn. lia.
Qed.

(** The lookup of the start and the clip there. *)
Lemma cut_split m x A p e B h : map_ok m -> map_ok (set_hint h m) -> m_entries m = A ++ (p, e) :: B -> vme_start e <= x < vme_end e ->
  exists A' B' new, vm_map_clip_start p x (set_hint h m) = Some (with_list (A' ++ (p, B') :: B) (new ++ m_log m) (set_hint h m)) /\
    vme_start B' = x /\ cut_at m x A' ((p, B') :: B) new h.
Proof using.
  intros Hok Hokh Hl Hx. pose proof (ok_with_list (set_hint h m) (ok_nentries _ Hokh)) as Hm. cbn [m_entries set_hint m_log] in Hm. rewrite Hl in Hm.
  destruct (ok_list _ Hok) as [Hc Hnd]. rewrite Hl in Hc, Hnd. pose proof Hc as Hc'. apply chain_mid in Hc' as (H1 & H2 & H3).
  destruct (decide (vme_start e = x)) as [Hs|Hs].
  - exists A, e, []. rewrite Hm. rewrite clip_start_none by (done || lia). split; [done|]. split; [done|]. apply cut_same; [done|done| |].
    + apply chain_ends_by in H1. by rewrite Hs in H1.
    + constructor; [cbn; lia|]. eapply Forall_impl; [apply (chain_starts_from _ _ _ H3)|]. cbn. intros ? ?. lia.
  - destruct (reference_log_new e (m_log m)) as (new & El & Enew & Ehw).
    set (q := fresh (A ++ (p, e) :: B)). exists (A ++ [(q, front_part x e)]), (back_part x e), new. rewrite <- app_assoc. cbn [app].
    split; [rewrite Hm, clip_start_spec by (done || lia); by rewrite El|]. split; [done|].
    destruct (list_ok_split (m_min m) (m_max m) A p e B x (conj Hc Hnd) ltac:(lia)) as [Hok2 _]. fold q in Hok2. constructor; try done.
    + rewrite <- app_assoc. apply ok_new_list; [done|done| |]; cbn [m_entries set_hint]; rewrite Hl.
      * rewrite !total_app. cbn. lia.
      * intros y. rewrite !ids_app. cbn. set_solver.
    + apply Forall_app. split; [eapply Forall_impl; [apply (chain_ends_by _ _ _ H1)|]; cbn; intros ? ?; lia|]. constructor; [cbn; lia|constructor].
    + constructor; [cbn; lia|]. eapply Forall_impl; [apply (chain_starts_from _ _ _ H3)|]. cbn. intros ? ?. lia.
    + intros a. rewrite <- app_assoc. cbn [app]. unfold view. rewrite Hl, !viewl_app. by rewrite (viewl_split x q p p e B a) by lia.
    + intros sub o Ho. rewrite Hl, <- app_assoc, !refs_app, Enew, balance_reference by done. destruct (refs_split sub o x q e) as [S1 S2].
      cbn [refs app balance] in *. lia.
Qed.

Lemma range_first_spec m x : map_ok m -> exists A B new h,
  range_first x m = Some (with_list (A ++ B) (new ++ m_log m) (set_hint h m), first_ptr B) /\ cut_at m x A B new h.
Proof using.
  intros Hok. unfold range_first. destruct (lookup_located m x Hok) as (h & p & found & -> & Hokh & Hloc).
  inversion Hloc as [A p' e B Hl Hx Hp|A B Hl HA HB Hp]; subst.
  - destruct (cut_split m x A p e B h Hok Hokh Hl Hx) as (A' & B' & new & -> & _ & Hcut). by exists A', ((p, B') :: B), new, h.
  - exists A, B, [], h. split.
    + pose proof (ok_with_list (set_hint h m) (ok_nentries _ Hokh)) as Hm. cbn [m_entries set_hint m_log] in Hm. rewrite Hl in Hm. rewrite Hm at 1.
      assert (vme_next (with_list (A ++ B) (m_log m) (set_hint h m)) (last_ptr HEAD A) = Some (first_ptr B)) as ->; [|by rewrite Hm at 1].
      destruct (ok_list _ Hok) as [_ Hnd]. rewrite Hl in Hnd. destruct (last_ptr_cases A) as [[-> ->]|(A' & q & e & -> & ->)]; [done|].
      rewrite <- app_assoc in *. by apply at_next.
    + apply cut_same; [done|done|done|]. eapply Forall_impl; [exact HB|]. cbn. intros ? ?. lia.
Qed.

(** ** Loops that check *)

Section Check.
Variables (m : vm_map) (end_ : Z) (body : Z -> vm_map -> option progress) (check : vm_map_entry -> list (Z * vm_map_entry) -> option vm_return).
Hypothesis check_body : forall A p e B log, no_dup (A ++ (p, e) :: B) -> body p (with_list (A ++ (p, e) :: B) log m) =
  Some (match check e B with None => Goes_on (with_list (A ++ (p, e) :: B) log m) | Some kr => Leaves (with_list (A ++ (p, e) :: B) log m) kr end).

Fixpoint first_fail (B : list (Z * vm_map_entry)) : option vm_return :=
  match B with
  | [] => None
  | (p, e) :: B' => if vme_start e <? end_ then (match check e B' with Some kr => Some kr | None => first_fail B' end) else None
  end.

Lemma check_loop : forall B A log fuel, no_dup (A ++ B) -> (length B < fuel)%nat ->
  while_range fuel end_ body (first_ptr B) (with_list (A ++ B) log m) =
    Some (match first_fail B with None => Goes_on (with_list (A ++ B) log m) | Some kr => Leaves (with_list (A ++ B) log m) kr end).
Proof using check_body.
  induction B as [|[p e] B IH]; intros A log fuel Hnd Hf; (destruct fuel as [|fuel]; [cbn in Hf; lia|]); cbn [first_ptr while_range first_fail]; [done|].
  rewrite (at_ptr _ _ _ _ Hnd), at_deref by done. destruct (vme_start e <? end_); cbn [negb]; [|done].
  rewrite check_body by done. destruct (check e B); [done|]. rewrite at_next by done.
  specialize (IH (A ++ [(p, e)]) log fuel). rewrite <- !app_assoc in IH. cbn [app] in IH. apply IH; [done|cbn in Hf; lia].
Qed.

Lemma first_fail_Some B kr : first_fail B = Some kr -> exists B1 p e B2, B = B1 ++ (p, e) :: B2 /\ vme_start e < end_ /\ check e B2 = Some kr.
Proof using.
  induction B as [|[p e] B IH]; cbn [first_fail]; [done|]. destruct (Z.ltb_spec (vme_start e) end_); [|done].
  destruct (check e B) eqn:Ec; [intros [= <-]; by exists [], p, e, B|]. intros (B1 & q & x & B2 & -> & ? & ?)%IH. by exists ((p, e) :: B1), q, x, B2.
Qed.
End Check.

(** ** Protection *)

(** What [vm_map_protect] refuses. *)
Definition protect_refuses (new_prot : Z) (e : vm_map_entry) : option vm_return :=
  if vme_is_sub_map e then Some VM_INVALID_ARGUMENT
  else if negb (Z.land new_prot (Z.lor VM_PROT_NOTIFY (vme_max_protection e)) =? new_prot) then Some VM_PROTECTION_FAILURE
  else None.

Definition protect_evs (new_prot : Z) (set_max : bool) (e : vm_map_entry) : list vm_event :=
  let e' := protect_entry new_prot set_max e in
  if vme_protection e' =? vme_protection e then [] else [Ev_pmap_protect (vme_start e') (vme_end e') (vme_protection e')].

Lemma protect_check_eq new_prot m A p e B log : no_dup (A ++ (p, e) :: B) ->
  protect_check new_prot p (with_list (A ++ (p, e) :: B) log m) =
    Some (match protect_refuses new_prot e with None => Goes_on (with_list (A ++ (p, e) :: B) log m) | Some kr => Leaves (with_list (A ++ (p, e) :: B) log m) kr end).
Proof using.
  intros Hnd. unfold protect_check, protect_refuses. rewrite at_deref by done. destruct (vme_is_sub_map e); [done|].
  by destruct (negb _).
Qed.

Lemma protect_fix_eq end_ new_prot set_max p m' : protect_fix end_ new_prot set_max p m' =
  (LET m' <- vm_map_clip_end p end_ m' ;; LET e <- deref m' p ;;
   Some (Goes_on (fold_right emit (put_entry p (protect_entry new_prot set_max e) m') (protect_evs new_prot set_max e)))).
Proof using.
  unfold protect_fix, protect_evs. destruct (vm_map_clip_end p end_ m') as [m1|]; [|done]. destruct (deref m1 p) as [e|]; [|done].
  by destruct (vme_protection (protect_entry new_prot set_max e) =? vme_protection e).
Qed.

Lemma protect_entry_range new_prot set_max e : let e' := protect_entry new_prot set_max e in
  vme_start e' = vme_start e /\ vme_end e' = vme_end e /\ vme_object e' = vme_object e /\ vme_is_sub_map e' = vme_is_sub_map e.
Proof using. by destruct set_max. Qed.

Lemma protect_entry_view new_prot set_max a e : view_entry a (protect_entry new_prot set_max e) = protect_entry new_prot set_max (view_entry a e).
Proof using. by destruct set_max. Qed.

Lemma protect_evs_less new_prot set_max e hw a : exists p, hw_after (protect_evs new_prot set_max e) hw a = Z.land (hw a) p.
Proof using.
  unfold protect_evs. destruct (_ =? _); cbn; [exists (hw a); by rewrite Z.land_diag|].
  destruct (_ && _); [by eexists|exists (hw a); by rewrite Z.land_diag].
Qed.

Lemma protect_evs_allowed new_prot set_max e hw a : covers a e = true -> allowed (Some e) (hw a) ->
  allowed (Some (protect_entry new_prot set_max e)) (hw_after (protect_evs new_prot set_max e) hw a).
Proof using.
  intros Hc Ha. unfold protect_evs. destruct (protect_entry_range new_prot set_max e) as (-> & -> & _). cbn [allowed].
  destruct (Z.eqb_spec (vme_protection (protect_entry new_prot set_max e)) (vme_protection e)) as [->|]; [done|]. cbn [hw_after hw_event].
  unfold covers in Hc. rewrite Hc. by rewrite <- Z.land_assoc, Z.land_diag.
Qed.

Lemma protect_loop m end_ new_prot set_max B A log fuel : list_ok (m_min m) (m_max m) (A ++ B) -> (length B + 1 < fuel)%nat ->
  exists C new, while_range fuel end_ (protect_fix end_ new_prot set_max) (first_ptr B) (with_list (A ++ B) log m) = Some (Goes_on (with_list (A ++ C) (new ++ log) m)) /\
    list_ok (m_min m) (m_max m) (A ++ C) /\ updated end_ (protect_entry new_prot set_max) B C new.
Proof using.
  apply (update_loop m end_ _ (protect_entry new_prot set_max) _ (protect_evs new_prot set_max)).
  - intros p m'. apply protect_fix_eq.
  - intros e. apply protect_entry_range.
  - intros a e. apply protect_entry_view.
  - intros sub o e. unfold protect_evs. destruct (_ =? _); by destruct sub.
  - intros e hw a. apply protect_evs_less.
  - intros e hw a. apply protect_evs_allowed.
Qed.
End Range.

(** ** The theorems on protection and inheritance *)

Definition in_range (lo hi a : Z) : bool := (lo <=? a) && (a <? hi).

(** What a change of protection does to what an address is mapped to. *)
Record protected_as (new_prot : Z) (set_max : bool) (v v' : vm_map_entry) : Prop := {
  pa_protection : vme_protection v' = if set_max then Z.land new_prot (vme_protection v) else new_prot;
  pa_max : vme_max_protection v' = if set_max then new_prot else vme_max_protection v;
  pa_place : vme_start v' = vme_start v /\ vme_end v' = vme_end v;
  pa_object : vme_object v' = vme_object v /\ vme_offset v' = vme_offset v /\ vme_is_sub_map v' = vme_is_sub_map v /\ vme_projected_on v' = vme_projected_on v;
  pa_flags : vme_is_shared v' = vme_is_shared v /\ vme_needs_copy v' = vme_needs_copy v /\ vme_inheritance v' = vme_inheritance v;
  pa_wired : vme_wired_count v' = vme_wired_count v /\ vme_user_wired_count v' = vme_user_wired_count v
}.

Definition reprotected (new_prot : Z) (set_max : bool) (v v' : option vm_map_entry) : Prop :=
  match v, v' with Some v, Some v' => protected_as new_prot set_max v v' | None, None => True | _, _ => False end.

Lemma protect_entry_reprotects new_prot set_max v : reprotected new_prot set_max v (protect_entry new_prot set_max <$> v).
Proof. destruct v as [v|]; [|done]. by destruct set_max. Qed.

(** The references the entries hold and the calls that took and gave back
    references agree as before. *)
Definition same_refs (m m' : vm_map) : Prop := same_net (m_entries m) (m_entries m') (m_log m) (m_log m').

(** The physical map gave no right the map does not give, and still does not. *)
Definition keeps_allowed (m m' : vm_map) (new : list vm_event) : Prop :=
  forall hw, (forall a, allowed (view m a) (hw a)) -> forall a, allowed (view m' a) (hw_after new hw a).

Lemma range_check_same m m' start end_ : m_min m' = m_min m -> m_max m' = m_max m -> range_check m' start end_ = range_check m start end_.
Proof. unfold range_check. by intros -> ->. Qed.

Section Thms.
Context {E : VmEnv}.

(** A cut list whose second part was changed by a range loop. *)
Lemma cut_updated m x end_ g A B C new new2 h : cut_at m x A B new h -> updated end_ g B C new2 -> list_ok (m_min m) (m_max m) (A ++ C) ->
  let m' := with_list (A ++ C) (new2 ++ new ++ m_log m) (set_hint h m) in
  map_ok m' /\ same_refs m m' /\ keeps_allowed m m' (new2 ++ new) /\
  forall a, view m' a = if in_range x end_ a then g <$> view m a else view m a.
Proof using.
  intros [Hok HA HB Hv Hn Hh] [Ut Ui Uv Un Ul Ua] Hlok. split; [|split; [|split]].
  - pose proof (ok_new_list _ (A ++ C) (new2 ++ new ++ m_log m) Hok) as H. rewrite with_list_twice in H. apply H; [done|cbn [m_entries with_list]; rewrite !total_app; lia|].
    cbn [m_entries with_list]. intros y. rewrite !ids_app. set_solver.
  - intros sub o Ho. unfold net. cbn [m_entries m_log with_list]. specialize (Hn sub o Ho). specialize (Un sub o Ho).
    rewrite !balance_app. rewrite refs_app in *. lia.
  - intros hw Hhw a. unfold view. cbn [m_entries with_list]. rewrite hw_app, viewl_app. pose proof (Hhw a) as Ha. rewrite <- Hv, viewl_app in Ha.
    rewrite <- (Hh hw a) in Ha. destruct (viewl A a) as [v|]; [|by apply Ua]. destruct (Ul (hw_after new hw) a) as [p ->]. by apply allowed_land.
  - intros a. unfold view at 1. cbn [m_entries with_list]. rewrite viewl_app, Uv, <- Hv, viewl_app. unfold in_range.
    destruct (Z.leb_spec x a); cbn [andb].
    + rewrite (viewl_ends_by x A a) by done. done.
    + rewrite (viewl_starts_from x B a) by done. destruct (viewl A a); [done|]. by destruct (a <? end_).
Qed.

Lemma cut_list_ok m x A B new h : cut_at m x A B new h -> list_ok (m_min m) (m_max m) (A ++ B).
Proof using. intros H. apply (ok_list _ (cut_ok _ _ _ _ _ _ H)). Qed.

(** Without the second loop. *)
Lemma cut_same_view m x A B new h : cut_at m x A B new h -> let m' := with_list (A ++ B) (new ++ m_log m) (set_hint h m) in
  same_refs m m' /\ forall a, view m' a = view m a.
Proof using.
  intros [Hok HA HB Hv Hn Hh]. split; [|done]. intros sub o Ho. unfold net. cbn [m_entries m_log with_list]. specialize (Hn sub o Ho). rewrite balance_app. lia.
Qed.

Lemma first_fail_none end_ check B lo hi a v : chain lo hi B -> first_fail end_ (fun e _ => check e) B = None -> (forall b e, check (view_entry b e) = check e) ->
  a < end_ -> viewl B a = Some v -> check v = None.
Proof using.
  intros Hc Hf Hch Ha. revert lo Hc Hf. induction B as [|[p e] B IH]; intros lo; cbn [first_fail viewl chain]; [done|].
  intros (H1 & H2 & H3) Hf Hv. destruct (covers a e) eqn:Ec.
  - injection Hv as <-. apply covers_spec in Ec. rewrite (proj2 (Z.ltb_lt _ _)) in Hf by lia. rewrite Hch. by destruct (check e).
  - destruct (Z.ltb_spec (vme_start e) end_); [destruct (check e); [done|]; by eapply IH|].
    rewrite (viewl_below _ _ _ _ H3) in Hv by lia. done.
Qed.

(** C9: [vm_map_protect] terminates and leaves the map unlocked and well formed,
    with the references on objects accounted for.  If every entry of the range
    permits the protection, each address of the range gets it: the new protection,
    or with [set_max] the new maximum and what it leaves of the old protection; all
    else about these addresses, and all other addresses, are as before, and the
    physical map gives no right that the map does not give.  Else an entry of the
    range is the reason and no address changes. *)
Theorem vm_map_protect_range m start end_ new_prot set_max : map_ok m ->
  exists m' kr new, vm_map_protect start end_ new_prot set_max m = Some (m', kr) /\ map_ok m' /\ m_lock m' = Unlocked /\
    same_refs m m' /\ m_log m' = new ++ m_log m /\
    let '(s, x) := range_check m start end_ in
    match kr with
    | VM_SUCCESS =>
        (forall a, if in_range s x a then reprotected new_prot set_max (view m a) (view m' a) else view m' a = view m a) /\
        keeps_allowed m m' new /\ forall a v, in_range s x a = true -> view m a = Some v -> protect_refuses new_prot v = None
    | kr =>
        (forall a, view m' a = view m a) /\
        exists p e, (p, e) ∈ m_entries m' /\ s <= vme_start e < x /\ protect_refuses new_prot e = Some kr
    end.
Proof using.
  intros Hok. unfold vm_map_protect. rewrite (range_check_same m) by done. destruct (range_check m start end_) as [s x].
  set (m1 := map_lock_write m). assert (map_ok m1) as Hok1 by (by apply ok_set_lock).
  destruct (range_first_spec m1 s Hok1) as (A & B & new & h & -> & Hcut). pose proof (cut_list_ok _ _ _ _ _ _ Hcut) as Hlok.
  assert ((length B + 1 < range_fuel (with_list (A ++ B) (new ++ m_log m1) (set_hint h m1)))%nat) as Hfuel by (unfold range_fuel; cbn; rewrite length_app; lia).
  rewrite (check_loop (set_hint h m1) x _ (fun e _ => protect_refuses new_prot e)); [|by intros; apply protect_check_eq|apply Hlok|lia].
  destruct (first_fail x (fun e _ => protect_refuses new_prot e) B) as [kr|] eqn:Ef.
  - destruct (cut_same_view _ _ _ _ _ _ Hcut) as [Hr Hv]. eexists _, kr, new. split; [done|]. split; [apply ok_set_lock, Hcut|]. split; [done|]. split; [exact Hr|]. split; [done|].
    apply first_fail_Some in Ef as (B1 & p & e & B2 & HB & Hs & Hk).
    assert (exists p e, (p, e) ∈ A ++ B /\ s <= vme_start e < x /\ protect_refuses new_prot e = Some kr) as Hex.
    { exists p, e. split; [rewrite HB; set_solver|]. split; [|done]. pose proof (cut_after _ _ _ _ _ _ Hcut) as Hst. rewrite HB in Hst.
      apply Forall_app in Hst as [_ Hst]. apply Forall_cons in Hst as [Hst _]. cbn in Hst. lia. }
    destruct kr; try (split; [exact Hv|exact Hex]). exfalso. revert Hk. unfold protect_refuses. destruct (vme_is_sub_map e); [done|]. by destruct (negb _).
  - destruct (protect_loop (set_hint h m1) x new_prot set_max B A (new ++ m_log m1) _ Hlok Hfuel) as (C & new2 & -> & HokC & Hup).
    destruct (cut_updated _ _ _ _ _ _ _ _ _ _ Hcut Hup HokC) as (Hok' & Hr & Hka & Hv).
    eexists _, VM_SUCCESS, (new2 ++ new). split; [done|]. split; [by apply ok_set_lock|]. split; [done|]. split; [exact Hr|].
    split; [cbn; by rewrite app_assoc|]. split; [|split; [exact Hka|]].
    { intros a. change (view m a) with (view m1 a). specialize (Hv a). change (view (map_unlock ?m2) a) with (view m2 a). destruct (in_range s x a); [rewrite Hv; apply protect_entry_reprotects|exact Hv]. }
    intros a v Ha Hva. change (view m a) with (view m1 a) in Hva. rewrite <- (cut_view _ _ _ _ _ _ Hcut), viewl_app in Hva. apply andb_true_iff in Ha as [Ha1%Z.leb_le Ha2%Z.ltb_lt].
    rewrite (viewl_ends_by s A) in Hva; [|apply (cut_before _ _ _ _ _ _ Hcut)|done].
    destruct Hlok as [Hch _]. apply chain_app in Hch as (mid & _ & Hch). by eapply (first_fail_none x (protect_refuses new_prot) B mid _ a v).
Qed.

(** ** Inheritance *)

Lemma inherit_loop m end_ new_inh B A log fuel : list_ok (m_min m) (m_max m) (A ++ B) -> (length B + 1 < fuel)%nat ->
  exists C new, while_range fuel end_ (inherit_body end_ new_inh) (first_ptr B) (with_list (A ++ B) log m) = Some (Goes_on (with_list (A ++ C) (new ++ log) m)) /\
    list_ok (m_min m) (m_max m) (A ++ C) /\ updated end_ (vme_set_inheritance new_inh) B C new.
Proof using.
  apply (update_loop m end_ _ (vme_set_inheritance new_inh) _ (fun _ => [])); try done.
  intros e hw a. exists (hw a). by rewrite Z.land_diag.
Qed.

(** [vm_map_inherit] always succeeds: each address of the range gets the
    inheritance, all others and the physical map keep what they have, and the map
    is unlocked and well formed with its references accounted for. *)
Lemma vm_map_inherit_range m start end_ new_inh : map_ok m ->
  exists m' new, vm_map_inherit start end_ new_inh m = Some (m', VM_SUCCESS) /\ map_ok m' /\ m_lock m' = Unlocked /\ same_refs m m' /\
    m_log m' = new ++ m_log m /\ keeps_allowed m m' new /\
    let '(s, x) := range_check m start end_ in
    forall a, view m' a = if in_range s x a then vme_set_inheritance new_inh <$> view m a else view m a.
Proof using.
  intros Hok. unfold vm_map_inherit. rewrite (range_check_same m) by done. destruct (range_check m start end_) as [s x].
  set (m1 := map_lock_write m). assert (map_ok m1) as Hok1 by (by apply ok_set_lock).
  destruct (range_first_spec m1 s Hok1) as (A & B & new & h & -> & Hcut). pose proof (cut_list_ok _ _ _ _ _ _ Hcut) as Hlok.
  destruct (inherit_loop (set_hint h m1) x new_inh B A (new ++ m_log m1) (range_fuel (with_list (A ++ B) (new ++ m_log m1) (set_hint h m1))) Hlok) as (C & new2 & -> & HokC & Hup).
  { unfold range_fuel. cbn. rewrite length_app. lia. }
  destruct (cut_updated _ _ _ _ _ _ _ _ _ _ Hcut Hup HokC) as (Hok' & Hr & Hka & Hv).
  eexists _, (new2 ++ new). split; [done|]. split; [by apply ok_set_lock|]. split; [done|]. split; [exact Hr|]. split; [cbn; by rewrite app_assoc|]. by split.
Qed.
End Thms.
