(* ===== verification/VmMapEnter.v ===== *)
(** * Address maps: allocation

    The search for space finds the first place that fits, and entering a mapping
    there changes nothing else. *)
From S2P Require Import Prelude VmMap VmMapOps VmMapInv VmMapFind VmMapSpec.

(** ** Alignment *)

Lemma align_aligned start mask : is_u32 mask -> Z.land (Z.ldiff (u32 (start + mask)) mask) mask = 0.
Proof. intros _. apply Z.land_ldiff. Qed.

Lemma align_range start mask : is_u32 (Z.ldiff (u32 (start + mask)) mask).
Proof. apply is_u32_ldiff, u32_range. Qed.

Lemma ldiff_ones x k : 0 <= k -> Z.ldiff x (2 ^ k - 1) = 2 ^ k * (x / 2 ^ k).
Proof.
  intros Hk. replace (2 ^ k - 1) with (Z.ones k) by (rewrite Z.ones_equiv; lia). rewrite Z.ldiff_ones_r by done.
  rewrite Z.shiftl_mul_pow2, Z.shiftr_div_pow2 by done. lia.
Qed.

Lemma land_ones_0 x k : 0 <= k -> Z.land x (2 ^ k - 1) = 0 -> exists c, x = 2 ^ k * c.
Proof.
  intros Hk. replace (2 ^ k - 1) with (Z.ones k) by (rewrite Z.ones_equiv; lia). rewrite Z.land_ones by done. intros H.
  exists (x / 2 ^ k). pose proof (Z.div_mod x (2 ^ k)). lia.
Qed.

(** Rounding up gives the least aligned address, or wraps. *)
Lemma align_least k start s : 0 <= k -> is_u32 (2 ^ k - 1) -> is_u32 start -> is_u32 s -> Z.land s (2 ^ k - 1) = 0 -> start <= s ->
  start <= Z.ldiff (u32 (start + (2 ^ k - 1))) (2 ^ k - 1) <= s.
Proof.
  intros Hk Hm Hst Hs Hl Hle. destruct (land_ones_0 s k Hk Hl) as [c ->]. rewrite ldiff_ones by done. unfold is_u32, wordsize in *.
  assert (0 < 2 ^ k) as Hp by lia. assert (start + (2 ^ k - 1) < 2 ^ 32) as Hlt.
  { assert (k <= 32) as Hk32. { destruct (Z.le_gt_cases k 32); [done|]. assert (2 ^ 33 <= 2 ^ k) by (apply Z.pow_le_mono_r; lia). lia. }
    assert (2 ^ 32 = 2 ^ k * 2 ^ (32 - k)) as Hw by (rewrite <- Z.pow_add_r by lia; f_equal; lia).
    assert (c + 1 <= 2 ^ (32 - k)) by nia. nia. }
  unfold u32, wordsize. rewrite Z.mod_small by lia.
  pose proof (Z.div_mod (start + (2 ^ k - 1)) (2 ^ k)) as Hd. pose proof (Z.mod_pos_bound (start + (2 ^ k - 1)) (2 ^ k) Hp). split; [lia|].
  assert ((start + (2 ^ k - 1)) / 2 ^ k < c + 1) by (apply Z.div_lt_upper_bound; lia). nia.
Qed.

(** ** Free places *)

Definition free_at (l : list (Z * vm_map_entry)) (s x : Z) : Prop := Forall (fun y => vme_end y.2 <= s \/ x <= vme_start y.2) l.

Lemma free_viewl l s x a : free_at l s x -> s <= a < x -> viewl l a = None.
Proof.
  intros H Ha. induction H as [|[p e] l He _ IH]; cbn [viewl]; [done|]. cbn in He. by rewrite (proj2 (covers_false a e)) by lia.
Qed.

Section Search.
Variables (m : vm_map) (log : list vm_event) (size_ mask : Z).
Hypothesis Hsize : is_u32 size_.
Hypothesis Hmask : is_u32 mask.
Hypothesis Hmax : m_max m < wordsize.

(** Nothing that is aligned fits between [start] and [stop]. *)
Definition none_fits (l : list (Z * vm_map_entry)) (start stop : Z) : Prop :=
  forall s, start <= s < stop -> is_u32 s -> Z.land s mask = 0 -> s + size_ <= m_max m -> ~ free_at l s (s + size_).

Definition low_bits : Prop := exists k, 0 <= k /\ mask = 2 ^ k - 1.

(** What the search from [start], between [A] and [B], returns. *)
Definition searched (l : list (Z * vm_map_entry)) (start : Z) (r : space) : Prop :=
  match r with
  | Fits entry s x => exists A B, l = A ++ B /\ entry = last_ptr HEAD A /\ start <= s /\ is_u32 s /\ Z.land s mask = 0 /\
      x = s + size_ /\ x <= m_max m /\ ends_by s A /\ starts_from x B /\ (low_bits -> none_fits l start s)
  | Wraps | No_fit => low_bits -> none_fits l start wordsize
  end.

Lemma aligned_none l start : is_u32 start -> low_bits ->
  let s := Z.ldiff (u32 (start + mask)) mask in (start <= s -> none_fits l start s) /\ (s < start -> none_fits l start wordsize).
Proof using Hmask.
  intros Hst (k & Hk & Hm). cbn. split.
  - intros _ s Hs Hu Hl _ _. rewrite Hm in *. pose proof (align_least k start s Hk Hmask Hst Hu Hl). lia.
  - intros Hlt s Hs Hu Hl _ _. rewrite Hm in *. pose proof (align_least k start s Hk Hmask Hst Hu Hl). lia.
Qed.

Lemma none_fits_split l start mid stop : none_fits l start mid -> none_fits l mid stop -> none_fits l start stop.
Proof using. intros H1 H2 s Hs. destruct (decide (s < mid)); [apply H1; lia|apply H2; lia]. Qed.

(** One turn of the loop: it fails for good, or there is an aligned place below
    the maximum. *)
Lemma find_space_step fuel m' entry start : is_u32 start -> m_max m' = m_max m ->
  let s := Z.ldiff (u32 (start + mask)) mask in
  (exists r, find_space (S fuel) m' entry start size_ mask = Some r /\ (r = Wraps \/ r = No_fit) /\ forall l, low_bits -> none_fits l start wordsize) \/
  (start <= s /\ is_u32 s /\ Z.land s mask = 0 /\ s + size_ <= m_max m /\ (forall l, low_bits -> none_fits l start s) /\
   find_space (S fuel) m' entry start size_ mask =
     (LET next <- vme_next m' entry ;;
      if next =? HEAD then Some (Fits entry s (s + size_))
      else LET n <- deref m' next ;; if s + size_ <=? vme_start n then Some (Fits entry s (s + size_)) else find_space fuel m' next (vme_end n) size_ mask)).
Proof using Hsize Hmask Hmax.
  intros Hst Em. cbn [find_space]. set (s := Z.ldiff (u32 (start + mask)) mask). pose proof (align_range start mask) as Hs. fold s in Hs.
  pose proof (fun l => aligned_none l start Hst) as Hal. fold s in Hal. cbn zeta in Hal. cbn zeta.
  destruct (Z.ltb_spec s start) as [Hw|Hw]; [left; eexists; split; [done|]; split; [by left|]; intros l Hk; by apply (Hal l Hk)|]. rewrite Em.
  unfold is_u32 in *. destruct (Z.lt_ge_cases (s + size_) wordsize) as [Hlt|Hge].
  - assert (u32 (s + size_) = s + size_) as -> by (apply u32_small; unfold is_u32; lia). rewrite (proj2 (Z.ltb_ge (s + size_) s)) by lia. rewrite orb_false_r.
    destruct (Z.ltb_spec (m_max m) (s + size_)).
    + left. exists No_fit. split; [done|]. split; [by right|]. intros l Hk. apply (none_fits_split _ _ s); [by apply (Hal l Hk)|]. intros s' Hs' _ _ Hle. lia.
    + right. repeat split; try done; try lia; [by apply align_aligned|]. intros l Hk. by apply (Hal l Hk).
  - assert (u32 (s + size_) = s + size_ - wordsize) as -> by (unfold u32; symmetry; apply (Z.mod_unique_pos _ _ 1); lia).
    rewrite (proj2 (Z.ltb_lt (s + size_ - wordsize) s)) by lia. rewrite orb_true_r. left. exists No_fit. split; [done|]. split; [by right|].
    intros l Hk. apply (none_fits_split _ _ s); [by apply (Hal l Hk)|]. intros s' Hs' _ _ Hle. lia.
Qed.

Lemma find_space_spec : forall B A start fuel, no_dup (A ++ B) -> chain (m_min m) (m_max m) (A ++ B) -> is_u32 start -> ends_by start A -> starts_from start B -> (length B < fuel)%nat ->
  0 <= m_min m -> exists r, find_space fuel (with_list (A ++ B) log m) (last_ptr HEAD A) start size_ mask = Some r /\ searched (A ++ B) start r.
Proof using Hsize Hmask Hmax.
  induction B as [|[p e] B IH]; intros A start fuel Hnd Hc Hst HA HB Hf Hmin; (destruct fuel as [|fuel]; [cbn in Hf; lia|]).
  all: match goal with |- context [find_space _ ?M] => destruct (find_space_step fuel M (last_ptr HEAD A) start Hst eq_refl) as [(r & -> & Hr & Hn)|(H1 & H2 & H3 & H4 & H5 & ->)] end;
    [exists r; split; [done|]; destruct Hr as [-> | ->]; intros Hk; by apply Hn|]; set (s := Z.ldiff (u32 (start + mask)) mask) in *;
    assert (ends_by s A) as HAs by (eapply Forall_impl; [exact HA|]; cbn; intros ? ?; lia).
  - assert (vme_next (with_list (A ++ []) log m) (last_ptr HEAD A) = Some HEAD) as ->.
    { destruct (last_ptr_cases A) as [[-> ->]|(A' & q & x & -> & ->)]; [done|]. rewrite <- app_assoc in *. by apply at_next. }
    rewrite Z.eqb_refl. eexists. split; [done|]. exists A, []. repeat split; try done; try apply H2; [constructor|]. apply H5.
  - assert (vme_next (with_list (A ++ (p, e) :: B) log m) (last_ptr HEAD A) = Some p) as ->.
    { destruct (last_ptr_cases A) as [[-> ->]|(A' & q & x & -> & ->)]; [done|]. rewrite <- app_assoc in *. by apply at_next. }
    rewrite (at_ptr _ _ _ _ Hnd), at_deref by done. pose proof Hc as Hc'. apply chain_mid in Hc' as (C1 & C2 & C3). destruct (Z.leb_spec (s + size_) (vme_start e)).
    + eexists. split; [done|]. exists A, ((p, e) :: B). repeat split; try done; try apply H2; [|apply H5]. constructor; [done|].
      eapply Forall_impl; [apply (chain_starts_from _ _ _ C3)|]. cbn. intros ? ?. lia.
    + specialize (IH (A ++ [(p, e)]) (vme_end e) fuel). rewrite <- !app_assoc, last_ptr_snoc in IH. cbn [app] in IH.
      apply Forall_cons in HB as [HB1 HB2]. cbn in HB1. pose proof (chain_le _ _ _ C3). unfold is_u32 in *.
      assert (low_bits -> none_fits (A ++ (p, e) :: B) start (vme_end e)) as Hnone.
      { intros Hk. apply (none_fits_split _ _ s); [by apply H5|]. intros s' Hs' _ _ Hle Hfree. apply Forall_app in Hfree as [_ Hfree]. apply Forall_cons in Hfree as [Hfree _]. cbn in Hfree. lia. }
      destruct IH as (r & -> & Hr); try done; [lia| | |cbn in Hf; lia|].
      * apply Forall_app. split; [eapply Forall_impl; [apply (chain_ends_by _ _ _ C1)|]; cbn; intros ? ?; lia|constructor; [cbn; lia|constructor]].
      * by eapply chain_starts_from.
      * exists r. split; [done|]. destruct r as [entry s' x| |]; cbn in Hr |- *.
        -- destruct Hr as (A' & B' & Hl & He & R1 & R2 & R3 & R4 & R5 & R6 & R7 & R8). exists A', B'. repeat split; try done; try lia.
           intros Hk. apply (none_fits_split _ _ (vme_end e)); [by apply Hnone|by apply R8].
        -- intros Hk. apply (none_fits_split _ _ (vme_end e)); [by apply Hnone|by apply Hr].
        -- intros Hk. apply (none_fits_split _ _ (vme_end e)); [by apply Hnone|by apply Hr].
Qed.
End Search.

(** ** The search of [vm_map_enter] *)

(** Where the search anywhere starts: at the free-space hint, or at the address
    given. *)
Definition search_from (m : vm_map) (address : Z) : Z :=
  if address <=? m_min m then
    if m_first_free m =? HEAD then m_min m else match deref m (m_first_free m) with Some e => vme_end e | None => m_min m end
  else address.

(** What the searches leave of the map: its lock, and the hint. *)
Definition searched_map (m m1 : vm_map) : Prop := exists h t k, m1 = set_lock t k (set_hint h m) /\ h ∈ HEAD :: ids (m_entries m).

Lemma searched_map_ok m m1 : map_ok m -> searched_map m m1 -> map_ok m1 /\ m_entries m1 = m_entries m /\ m_log m1 = m_log m.
Proof. intros Hok (h & t & k & -> & Hh). split; [by apply ok_set_lock, ok_set_hint|done]. Qed.

Lemma searched_map_lock m t k : map_ok m -> searched_map m (set_lock t k m).
Proof. intros Hok. exists (m_hint m), t, k. split; [by destruct m|apply Hok]. Qed.

Lemma searched_map_unlock m m1 t k : searched_map m m1 -> searched_map m (set_lock t k m1).
Proof. intros (h & t' & k' & -> & Hh). by exists h, t, k. Qed.

Section Enter.
Context {E : VmEnv}.
Variables (m : vm_map) (address size_ mask : Z).
Hypothesis Hok : map_ok m.
Hypothesis Hsize : is_u32 size_.
Hypothesis Hmask : is_u32 mask.
Hypothesis Haddr : is_u32 address.

(** A place was found in [m1] between the entries [A] and [B]. *)
Definition place (m1 : vm_map) (entry s x : Z) : Prop := exists A B,
  searched_map m m1 /\ m_lock m1 = Write_locked /\ m_entries m = A ++ B /\ entry = last_ptr HEAD A /\ x = s + size_ /\ m_min m <= s /\ x <= m_max m /\
  Z.land s mask = 0 /\ ends_by s A /\ starts_from x B.

(** The map with the lock taken and the hint [h], as a list. *)
Lemma locked_list h t k : set_lock t k (set_hint h m) = with_list (m_entries m) (m_log m) (set_lock t k (set_hint h m)).
Proof using Hok. unfold with_list. cbn. rewrite <- (ok_nentries _ Hok). by destruct m. Qed.

(** The search of the list from an address between two of its parts. *)
Lemma search_list h t A B start : m_entries m = A ++ B -> h ∈ HEAD :: ids (m_entries m) -> ends_by start A -> starts_from start B -> m_min m <= start -> start < wordsize ->
  let m1 := set_lock t Write_locked (set_hint h m) in
  exists r, find_space (space_fuel m1) m1 (last_ptr HEAD A) start size_ mask = Some r /\
    match r with
    | Fits entry s x => place m1 entry s x /\ (low_bits mask -> none_fits m size_ mask (m_entries m) start s)
    | _ => low_bits mask -> none_fits m size_ mask (m_entries m) start wordsize
    end.
Proof using Hok Hsize Hmask.
  intros Hl Hh HA HB Hmin Hmx. cbn zeta. set (m1 := set_lock t Write_locked (set_hint h m)).
  destruct (ok_list _ Hok) as [Hc Hnd]. destruct (ok_bounds _ Hok) as [B1 B2]. rewrite Hl in Hc, Hnd.
  destruct (find_space_spec m1 (m_log m) size_ mask Hsize Hmask B2 B A start (space_fuel m1)) as (r & Hr & Hs); try done; [unfold is_u32; lia|unfold space_fuel; cbn; rewrite Hl, length_app; lia|].
  rewrite <- Hl in Hr. unfold m1 in Hr at 2. rewrite <- locked_list in Hr. fold m1 in Hr. exists r. split; [done|]. rewrite Hl.
  destruct r as [entry s x| |]; [|exact Hs|exact Hs]. destruct Hs as (A' & B' & Hl' & He & R1 & R2 & R3 & R4 & R5 & R6 & R7 & R8). split; [|exact R8].
  exists A', B'. split; [by exists h, t, Write_locked|]. split; [done|]. split; [by rewrite Hl|]. repeat split; try done. lia.
Qed.

(** The parts of the list at the hint. *)
Lemma first_free_parts : m_first_free m <> HEAD -> exists A B, m_entries m = A ++ B /\ m_first_free m = last_ptr HEAD A /\
  exists e, deref m (m_first_free m) = Some e /\ ends_by (vme_end e) A /\ starts_from (vme_end e) B /\ m_min m <= vme_end e <= m_max m.
Proof using Hok.
  intros Hn. pose proof (ok_first_free _ Hok) as Hf. apply elem_of_cons in Hf as [|Hf]; [done|]. apply in_split_ptr in Hf as (A & e & B & Hl).
  destruct (ok_list _ Hok) as [Hc Hnd]. rewrite Hl in Hc, Hnd. exists (A ++ [(m_first_free m, e)]), B. rewrite <- app_assoc, last_ptr_snoc. split; [done|]. split; [done|].
  exists e. split; [unfold deref; rewrite Hl; apply find_ptr_mid; by destruct (no_dup_mid _ _ _ _ Hnd) as (_ & ? & _)|].
  apply chain_mid in Hc as (C1 & C2 & C3). pose proof (chain_le _ _ _ C1). pose proof (chain_le _ _ _ C3). split; [|split; [by eapply chain_starts_from|lia]].
  apply Forall_app. split; [eapply Forall_impl; [apply (chain_ends_by _ _ _ C1)|]; cbn; intros ? ?; lia|]. constructor; [cbn; lia|constructor].
Qed.

(** Anywhere; [start] is at least the address and the minimum. *)
Definition any_post (r : search) : Prop :=
  match r with
  | Found m1 entry s x => place m1 entry s x /\ (low_bits mask -> 0 < size_ -> none_fits m size_ mask (m_entries m) (search_from m address) s)
  | Fails m1 kr => kr = VM_NO_SPACE /\ searched_map m m1 /\ (low_bits mask -> 0 < size_ -> none_fits m size_ mask (m_entries m) (search_from m address) wordsize)
  | Must_wait m1 => m_wait_for_space m = true /\ m_lock m1 = Unlocked /\ searched_map m m1 /\
      (low_bits mask -> 0 < size_ -> none_fits m size_ mask (m_entries m) (search_from m address) wordsize)
  end.

(** The first part of the search: the entry before, and where to start. *)
Lemma any_start t : let m1 := set_lock t Write_locked m in let start := if address <? m_min m then m_min m else address in start <= m_max m ->
  exists h A B s, (if start =? m_min m1 then
         let entry := m_first_free m1 in
         if entry =? HEAD then Some (m1, entry, start) else LET e <- deref m1 entry ;; Some (m1, entry, vme_end e)
       else
         LET (m, entry, found) <- vm_map_lookup_entry m1 start ;;
         if found : bool then LET e <- deref m entry ;; Some (m, entry, vme_end e) else Some (m, entry, start))
     = Some (set_lock t Write_locked (set_hint h m), last_ptr HEAD A, s) /\
    m_entries m = A ++ B /\ h ∈ HEAD :: ids (m_entries m) /\ ends_by s A /\ starts_from s B /\ m_min m <= s <= m_max m /\
    (0 < size_ -> none_fits m size_ mask (m_entries m) (search_from m address) s).
Proof using Hok Hsize Haddr.
  intros m1 start Hst. assert (map_ok m1) as Hok1 by (by apply ok_set_lock). unfold search_from. cbn [m_min set_lock m1].
  assert (m1 = set_lock t Write_locked (set_hint (m_hint m) m)) as Em1 by (unfold m1; by destruct m).
  destruct (ok_list _ Hok) as [Hc Hnd]. pose proof (chain_le _ _ _ Hc) as Hmm. destruct (Z.eqb_spec start (m_min m)) as [Es|Es].
  - assert (address <= m_min m) as Hle by (unfold start in Es; destruct (Z.ltb_spec address (m_min m)); lia).
    rewrite (proj2 (Z.leb_le _ _) Hle). cbn [m_first_free set_lock m1]. destruct (Z.eqb_spec (m_first_free m) HEAD) as [Ef|Ef].
    + exists (m_hint m), [], (m_entries m), start. rewrite <- Em1, Ef. cbn [last_ptr]. repeat split; try done; try lia; [apply Hok|constructor| |intros _ ? ?; lia].
      rewrite Es. by eapply chain_starts_from.
    + destruct (first_free_parts Ef) as (A & B & Hl & Hp & e & Hd & HA & HB & Hb). change (deref m1) with (deref m). rewrite Hd.
      exists (m_hint m), A, B, (vme_end e). rewrite <- Em1, Hp. repeat split; try done; try lia; [apply Hok|intros _ ? ?; lia].
  - assert (m_min m < address /\ start = address) as [Hlt Ea] by (unfold start in *; destruct (Z.ltb_spec address (m_min m)); lia).
    rewrite (proj2 (Z.leb_gt _ _) Hlt). clearbody start. subst start. destruct (lookup_located m1 address Hok1) as (h & p & found & -> & Hokh & Hloc).
    pose proof (ok_hint _ Hokh) as Hh. cbn in Hh.
    inversion Hloc as [A p' e B Hl Hx Hp|A B Hl HA HB Hp]; subst; change (m_entries m1) with (m_entries m) in Hl.
    + rewrite Hl in Hnd, Hc. assert (deref (set_hint h m1) p = Some e) as -> by (unfold deref; cbn; rewrite Hl; apply find_ptr_mid; by destruct (no_dup_mid _ _ _ _ Hnd) as (_ & ? & _)).
      exists h, (A ++ [(p, e)]), B, (vme_end e). rewrite last_ptr_snoc, <- app_assoc. apply chain_mid in Hc as (C1 & C2 & C3). pose proof (chain_le _ _ _ C3). pose proof (chain_le _ _ _ C1).
      repeat split; try done; try lia.
      * apply Forall_app. split; [eapply Forall_impl; [apply (chain_ends_by _ _ _ C1)|]; cbn; intros ? ?; lia|]. constructor; [cbn; lia|constructor].
      * by eapply chain_starts_from.
      * intros Hsz s Hs _ _ _ Hfree. rewrite Hl in Hfree. apply Forall_app in Hfree as [_ Hfree]. apply Forall_cons in Hfree as [Hfree _]. cbn in Hfree. lia.
    + exists h, A, B, address. repeat split; try done; try lia; [|intros _ ? ?; lia]. eapply Forall_impl; [exact HB|]. cbn. intros ? ?. lia.
Qed.

Lemma enter_anywhere_spec : exists r, enter_anywhere address size_ mask m = Some r /\ any_post r.
Proof using Hok Hsize Hmask Haddr.
  unfold enter_anywhere. unfold map_lock_write. set (t := u32 (m_timestamp m + 1)). cbn [m_min m_max set_lock]. destruct (ok_bounds _ Hok) as [Hb1 Hb2].
  set (start := if address <? m_min m then m_min m else address). destruct (Z.ltb_spec (m_max m) start) as [Hgt|Hle].
  - eexists. split; [done|]. cbn [any_post]. split; [done|]. split; [by apply searched_map_unlock, searched_map_lock|]. intros _ Hsz s Hs Hu _ Hfit. exfalso.
    destruct (ok_list _ Hok) as [Hc _]. pose proof (chain_le _ _ _ Hc). unfold search_from in Hs. unfold start in Hgt. destruct (Z.ltb_spec address (m_min m)); [lia|].
    destruct (Z.leb_spec address (m_min m)); lia.
  - destruct (any_start t Hle) as (h & A & B & s0 & Hstart & Hl & Hh & HA & HB & Hb & Hn). cbn [m_min set_lock] in Hstart. fold start in Hstart. rewrite Hstart.
    destruct (search_list h t A B s0 Hl Hh HA HB ltac:(lia) ltac:(lia)) as (r & -> & Hr). destruct r as [entry s x| |].
    + eexists. split; [done|]. destruct Hr as [Hp Hr]. split; [done|]. intros Hk Hsz. apply (none_fits_split _ _ _ _ _ s0); [by apply Hn|by apply Hr].
    + eexists. split; [done|]. split; [done|]. split; [by exists h, t, Write_locked|]. intros Hk Hsz. apply (none_fits_split _ _ _ _ _ s0); [by apply Hn|by apply Hr].
    + cbn [m_wait_for_space m_max m_min set_lock set_hint]. destruct (m_wait_for_space m && (size_ <=? u32 (m_max m - m_min m))) eqn:Ew; eexists; (split; [done|]); cbn [any_post].
      * apply andb_true_iff in Ew as [Ew _]. split; [done|]. split; [done|]. split; [by eexists h, _, _|]. intros Hk Hsz. apply (none_fits_split _ _ _ _ _ s0); [by apply Hn|by apply Hr].
      * split; [done|]. split; [by eexists h, _, _|]. intros Hk Hsz. apply (none_fits_split _ _ _ _ _ s0); [by apply Hn|by apply Hr].
Qed.

(** At the address given. *)
Definition at_post (r : search) : Prop :=
  match r with
  | Found m1 entry s x => place m1 entry s x /\ s = address
  | Fails m1 kr => kr <> VM_SUCCESS /\ searched_map m m1
  | Must_wait m1 => False
  end.

Lemma enter_at_spec : exists r, enter_at address size_ mask m = Some r /\ at_post r.
Proof using Hok Hsize Haddr.
  unfold enter_at. destruct (Z.eqb_spec (Z.land address mask) 0) as [Hal|]; cbn [negb].
  2:{ eexists. split; [done|]. split; [done|]. exists (m_hint m), (m_timestamp m), (m_lock m). split; [by destruct m|apply Hok]. }
  unfold map_lock_write. set (t := u32 (m_timestamp m + 1)). cbn [m_min m_max set_lock]. set (m1 := set_lock t Write_locked m).
  destruct ((address <? m_min m) || (m_max m <? u32 (address + size_)) || (u32 (address + size_) <=? address)) eqn:Eb.
  { eexists. split; [done|]. split; [done|]. by apply searched_map_unlock, searched_map_lock. }
  apply orb_false_iff in Eb as [[Eb1%Z.ltb_ge Eb2%Z.ltb_ge]%orb_false_iff Eb3%Z.leb_gt].
  assert (u32 (address + size_) = address + size_) as Eu.
  { unfold u32, is_u32 in *. destruct (Z.lt_ge_cases (address + size_) wordsize); [apply Z.mod_small; lia|].
    rewrite <- (Z.mod_unique_pos (address + size_) wordsize 1 (address + size_ - wordsize)) in Eb3 by lia. lia. }
  assert (map_ok m1) as Hok1 by (by apply ok_set_lock). destruct (lookup_located m1 address Hok1) as (h & p & found & -> & Hokh & Hloc).
  pose proof (ok_hint _ Hokh) as Hh. cbn in Hh. destruct (ok_list _ Hok) as [Hc Hnd].
  assert (searched_map m (set_hint h m1)) as Hsm by (by exists h, t, Write_locked).
  inversion Hloc as [A p' e B Hl Hx Hp|A B Hl HA HB Hp]; subst; change (m_entries m1) with (m_entries m) in Hl.
  { eexists. split; [done|]. split; [done|]. by apply searched_map_unlock. }
  assert (vme_next (set_hint h m1) (last_ptr HEAD A) = Some (first_ptr B)) as ->.
  { rewrite Hl in Hnd. change (set_hint h m1) with (set_lock t Write_locked (set_hint h m)). rewrite locked_list, Hl.
    destruct (last_ptr_cases A) as [[-> ->]|(A' & q & e & -> & ->)]; [done|]. rewrite <- app_assoc in *. by apply at_next. }
  assert (forall B', B = B' -> starts_from (address + size_) B' -> at_post (Found (set_hint h m1) (last_ptr HEAD A) address (u32 (address + size_)))) as Hfound.
  { intros ? <- HB'. split; [|done]. exists A, B. split; [done|]. split; [done|]. rewrite Eu in *. repeat split; try done. }
  destruct B as [|[q n] B]; cbn [first_ptr]; [eexists; split; [done|]; eapply Hfound; [done|constructor]|].
  rewrite Hl in Hnd, Hc. rewrite (at_ptr _ _ _ _ Hnd). assert (deref (set_hint h m1) q = Some n) as ->.
  { unfold deref. cbn. rewrite Hl. apply find_ptr_mid. by destruct (no_dup_mid _ _ _ _ Hnd) as (_ & ? & _). }
  destruct (Z.ltb_spec (vme_start n) (u32 (address + size_))); [eexists; split; [done|]; split; [done|]; by apply searched_map_unlock|].
  eexists. split; [done|]. eapply Hfound; [done|]. apply chain_mid in Hc as (C1 & C2 & C3). rewrite Eu in *. constructor; [cbn; lia|].
  eapply Forall_impl; [apply (chain_starts_from _ _ _ C3)|]. cbn. intros ? ?. lia.
Qed.
End Enter.

(** ** The theorems on allocation *)

(** ** A list with something between its parts *)

Lemma viewl_between A B p e s x a : ends_by s A -> starts_from x B -> vme_start e = s -> vme_end e = x ->
  viewl (A ++ (p, e) :: B) a = if in_range s x a then Some (view_entry a e) else viewl (A ++ B) a.
Proof.
  intros HA HB Hs Hx. rewrite !viewl_app. cbn [viewl]. unfold in_range, covers. rewrite Hs, Hx.
  destruct (Z.leb_spec s a); cbn [andb]; [|done]. rewrite (viewl_ends_by s A) by done. by destruct (a <? x).
Qed.

Lemma chain_between lo hi A B p e s x : chain lo hi (A ++ B) -> ends_by s A -> starts_from x B -> vme_start e = s -> vme_end e = x -> lo <= s <= x -> x <= hi ->
  chain lo hi (A ++ (p, e) :: B).
Proof.
  intros Hc HA HB Hs Hx Hb Hh. apply chain_app in Hc as (mid & C1 & C2). apply chain_mid. rewrite Hs, Hx. split; [|split; [lia|]].
  - destruct (last_ptr_cases A) as [[-> _]|(A' & q & y & -> & _)]; [cbn; lia|]. apply chain_mid in C1 as (D1 & D2 & D3).
    apply Forall_app in HA as [_ HA]. apply Forall_cons in HA as [HA _]. cbn in HA. apply chain_mid. cbn. repeat split; done.
  - destruct B as [|[q y] B]; cbn in *; [lia|]. apply Forall_cons in HB as [HB _]. cbn in HB. intuition lia.
Qed.

Section Enter.
Context {E : VmEnv}.

Lemma fresh_between A B e : no_dup (A ++ B) -> no_dup (A ++ (fresh (A ++ B), e) :: B).
Proof using.
  intros Hnd. destruct (zalloc_fresh (ids (A ++ B))) as [Hh Hn]. fold (fresh (A ++ B)) in *. rewrite <- list_elem_of_In in Hn.
  unfold no_dup in *. rewrite !ids_app in *. cbn [map fst]. apply NoDup_cons in Hnd as [H1 H2]. apply NoDup_app in H2 as (H2 & H3 & H4).
  apply NoDup_cons. split; [set_solver|]. apply NoDup_app. split; [done|]. split; [set_solver|]. apply NoDup_cons. split; [set_solver|done].
Qed.

Variables (m : vm_map) (size_ mask : Z).
Hypothesis Hok : map_ok m.
Hypothesis Hsize : is_u32 size_.

(** What entering a mapping must do: the range gets [v], the rest stays. *)
Record entered_ok (m' : vm_map) (s : Z) (v : Z -> vm_map_entry) : Prop := {
  en_ok : map_ok m';
  en_bounds : m_min m <= s /\ s + size_ <= m_max m;
  en_frame : m_min m' = m_min m /\ m_max m' = m_max m;
  en_free : forall a, in_range s (s + size_) a = true -> view m a = None;
  en_view : forall a, view m' a = if in_range s (s + size_) a then Some (v a) else view m a
}.

Lemma place_free m1 entry s x a : place m size_ mask m1 entry s x -> in_range s (s + size_) a = true -> view m a = None.
Proof using Hok.
  intros (A & B & _ & _ & Hl & _ & Hx & _ & _ & _ & HA & HB) [H1%Z.leb_le H2%Z.ltb_lt]%andb_true_iff. unfold view. rewrite Hl, viewl_app.
  rewrite (viewl_ends_by s A) by done. apply (viewl_starts_from x B); [done|lia].
Qed.

Definition new_entry (s object offset : Z) (needs_copy : bool) (prot max_prot inheritance : Z) : vm_map_entry :=
  mk_vme s (s + size_) object offset false false false false needs_copy prot max_prot inheritance 0 0 0.

Lemma enter_new_spec m1 entry s x object offset needs_copy prot max_prot inheritance : place m size_ mask m1 entry s x ->
  exists m2, enter_new entry s x size_ object offset needs_copy prot max_prot inheritance m1 = Some m2 /\ m_log m2 = m_log m /\
    (forall sub o, refs sub o (m_entries m2) = refs sub o (m_entries m) + refers sub o (new_entry s object offset needs_copy prot max_prot inheritance)) /\
    entered_ok m2 s (fun a => view_entry a (new_entry s object offset needs_copy prot max_prot inheritance)).
Proof using Hok Hsize.
  intros Hpl. pose proof (fun a => place_free m1 entry s x a Hpl) as Hfree. destruct Hpl as (A & B & (h & t & k & -> & Hh) & _ & Hl & -> & -> & Hmin & Hmax & _ & HA & HB).
  destruct (ok_list _ Hok) as [Hc Hnd]. rewrite Hl in Hc, Hnd. pose proof (locked_list m Hok h t k) as Hm. rewrite Hl in Hm.
  set (new := new_entry s object offset needs_copy prot max_prot inheritance). unfold enter_new.
  assert (exists below, (if last_ptr HEAD A =? HEAD then Some (m_min (set_lock t k (set_hint h m)))
    else LET e <- deref (set_lock t k (set_hint h m)) (last_ptr HEAD A) ;; Some (vme_end e)) = Some below) as [below ->].
  { destruct (last_ptr_cases A) as [[-> ->]|(A' & q & e & -> & ->)]; [by eexists|]. rewrite <- app_assoc in Hm, Hnd. cbn [app] in Hm, Hnd. rewrite (at_ptr _ _ _ _ Hnd), Hm, at_deref by done. by eexists. }
  fold new. rewrite Hm. set (M := set_lock t k (set_hint h m)) in *. unfold vm_map_entry_create. cbn [m_entries with_list]. fold (fresh (A ++ B)).
  rewrite at_link by done. set (L := A ++ (fresh (A ++ B), new) :: B).
  assert (list_ok (m_min m) (m_max m) L) as HL.
  { split; [|by apply fresh_between]. eapply chain_between; [exact Hc|exact HA|exact HB| | | |]; cbn; unfold is_u32 in *; lia || done. }
  pose proof (total_bound _ _ _ (proj1 HL)) as Htb. destruct (ok_bounds _ Hok) as [Hb1 Hb2].
  assert (u32 (m_size (with_list (A ++ B) (m_log m) M) + size_) = total L) as Hsz.
  { cbn. rewrite (ok_size _ Hok), Hl. unfold L in *. rewrite !total_app in *. cbn [total] in *. replace (total A + total B + size_) with (total A + (vme_end new - vme_start new + total B)) by (cbn; lia).
    apply u32_small. unfold is_u32. lia. }
  rewrite Hsz. set (M2 := set_size (total L) (with_list L (m_log m) M)).
  assert (forall m3, (m3 = M2 \/ m3 = set_first_free (fresh (A ++ B)) M2) -> m_log (SAVE_HINT (fresh (A ++ B)) m3) = m_log m /\ m_entries (SAVE_HINT (fresh (A ++ B)) m3) = L /\ map_ok (SAVE_HINT (fresh (A ++ B)) m3) /\
    m_min m3 = m_min m /\ m_max m3 = m_max m) as H3.
  { assert (fresh (A ++ B) ∈ HEAD :: ids L) as Hin by (unfold L; rewrite ids_app; cbn; set_solver).
    assert (m_first_free m ∈ HEAD :: ids L) as Hff by (pose proof (ok_first_free _ Hok) as Hf; rewrite Hl, ids_app in Hf; unfold L; rewrite ids_app; cbn; set_solver).
    intros m3 [-> | ->]; (split; [done|]; split; [done|]; split; [constructor; cbn; done|done]). }
  eexists. split; [reflexivity|]. match goal with |- m_log (SAVE_HINT _ ?M3) = _ /\ _ => destruct (H3 M3) as (E1 & E2 & E3 & E4); [destruct (_ && _); [by right|by left]|] end.
  split; [exact E1|]. split.
  - intros sub o. rewrite E2, Hl. unfold L. rewrite !refs_app. cbn [refs]. lia.
  - constructor; [exact E3|lia|exact E4|exact Hfree|]. intros a. unfold view. rewrite E2, Hl. by apply viewl_between.
Qed.

(** The entry below, with its end moved. *)
Lemma enter_coalesce_spec m1 entry s x object prot max_prot inheritance : place m size_ mask m1 entry s x ->
  enter_coalesce entry s x object prot max_prot inheritance m1 = Some (m1, false) \/
  exists m2 e, enter_coalesce entry s x object prot max_prot inheritance m1 = Some (m2, true) /\ enter_extends e s object prot max_prot inheritance = true /\
    (forall sub o, refs sub o (m_entries m2) = refs sub o (m_entries m)) /\ (forall sub o, balance sub o (m_log m2) = balance sub o (m_log m)) /\
    entered_ok m2 s (fun a => view_entry a e).
Proof using Hok Hsize.
  intros Hpl. pose proof (fun a => place_free m1 entry s x a Hpl) as Hfree. destruct Hpl as (A & B & (h & t & k & -> & Hh) & _ & Hl & -> & -> & Hmin & Hmax & _ & HA & HB).
  destruct (ok_list _ Hok) as [Hc Hnd]. pose proof (locked_list m Hok h t k) as Hm. unfold enter_coalesce.
  destruct (last_ptr_cases A) as [[-> ->]|(A' & q & e & -> & ->)]; [by left|]. rewrite <- app_assoc in Hl. cbn [app] in Hl. rewrite Hl in Hm, Hc, Hnd.
  rewrite (at_ptr _ _ _ _ Hnd), Hm. set (M := set_lock t k (set_hint h m)) in *. rewrite at_deref by done.
  destruct (enter_extends e s object prot max_prot inheritance) eqn:Ex; cbn [negb]; [|by left].
  assert (vme_end e = s) as Hes by (unfold enter_extends in Ex; rewrite !andb_true_iff, !Z.eqb_eq in Ex; tauto).
  assert (forall log, let m3 := put_entry q (vme_set_range (vme_start e) (s + size_) e) (set_size (u32 (m_size (with_list (A' ++ (q, e) :: B) log M) + (s + size_ - vme_end e))) (with_list (A' ++ (q, e) :: B) log M)) in
    m_log m3 = log /\ (forall sub o, refs sub o (m_entries m3) = refs sub o (m_entries m)) /\ entered_ok m3 s (fun a => view_entry a e)) as H3.
  { intros log. set (e' := vme_set_range (vme_start e) (s + size_) e). set (L := A' ++ (q, e') :: B).
    pose proof (at_put A' q e B log (set_size (u32 (m_size M + (s + size_ - vme_end e))) M) Hnd e') as Hput. cbn zeta.
    change (set_size (u32 (m_size (with_list (A' ++ (q, e) :: B) log M) + (s + size_ - vme_end e))) (with_list (A' ++ (q, e) :: B) log M))
      with (with_list (A' ++ (q, e) :: B) log (set_size (u32 (m_size M + (s + size_ - vme_end e))) M)). rewrite Hput. fold L.
    pose proof Hc as Hc'. apply chain_mid in Hc' as (C1 & C2 & C3). destruct (ok_bounds _ Hok) as [Hb1 Hb2].
    assert (list_ok (m_min m) (m_max m) L) as HL.
    { split; [|by eapply no_dup_perm; [| |exact Hnd]]. unfold L. apply chain_mid. cbn. split; [done|]. unfold is_u32 in *. split; [lia|].
      destruct B as [|[q' y] B]; cbn in *; [lia|]. apply Forall_cons in HB as [HB _]. cbn in HB. intuition lia. }
    pose proof (total_bound _ _ _ (proj1 HL)) as Htb.
    assert (u32 (m_size M + (s + size_ - vme_end e)) = total L) as ->.
    { cbn. rewrite (ok_size _ Hok), Hl. unfold L in *. rewrite !total_app in *. cbn [total] in *. rewrite u32_small; [cbn; lia|]. cbn in *. unfold is_u32. lia. }
    assert (ids L = ids (m_entries m)) as Hids by (rewrite Hl; unfold L; by rewrite !ids_app).
    split; [done|]. split; [intros sub o; cbn; rewrite Hl; unfold L; by rewrite !refs_app|]. constructor; [|lia|done|exact Hfree|].
    - constructor; cbn; [done|done|done|done|by rewrite Hids|rewrite Hids; apply Hok].
    - intros a. unfold view. cbn. rewrite Hl. unfold L, in_range. rewrite !viewl_app. cbn [viewl]. unfold covers. cbn [vme_start vme_end e' vme_set_range].
      change (view_entry a e') with (view_entry a e). destruct (viewl A' a) as [v|] eqn:Ev.
      + assert (a < s) as Has. { destruct (Z.lt_ge_cases a s); [done|]. rewrite (viewl_above _ _ _ _ C1) in Ev by lia. done. } by rewrite (proj2 (Z.leb_gt s a)) by done.
      + rewrite Hes. unfold is_u32 in Hsize. destruct (Z.leb_spec (vme_start e) a), (Z.ltb_spec a (s + size_)), (Z.ltb_spec a s), (Z.leb_spec s a); cbn [andb]; try done; lia. }
  unfold vm_object_coalesce. rewrite Z.eqb_refl. cbn [negb]. destruct (vme_object e =? VM_OBJECT_NULL).
  - right. destruct (H3 (m_log m)) as (E1 & E2 & E3). eexists _, e. split; [reflexivity|]. split; [done|]. split; [exact E2|]. split; [by rewrite E1|exact E3].
  - destruct (object_extends _ _); cbn [negb]; [|by left]. right. match goal with |- context [emit ?ev ?M'] => destruct (H3 (ev :: m_log m)) as (E1 & E2 & E3) end.
    eexists _, e. split; [reflexivity|]. split; [done|]. split; [exact E2|]. split; [intros sub o; by destruct sub|exact E3].
Qed.
End Enter.

Section Thms.
Context {E : VmEnv}.

Lemma entered_ok_lock m size_ m' s v t k : entered_ok m size_ m' s v -> entered_ok m size_ (set_lock t k m') s v.
Proof using. intros [? ? ? ? ?]. constructor; try done. by apply ok_set_lock. Qed.

Lemma entered_ok_emit m size_ m' s v ev : entered_ok m size_ m' s v -> entered_ok m size_ (emit ev m') s v.
Proof using. intros [[? ? ? ? ? ?] ? ? ? ?]. by constructor; [constructor|..]. Qed.

(** What [vm_map_enter] must leave. *)
Definition enter_post (m : vm_map) (address size_ mask : Z) (anywhere : bool) (object offset : Z) (needs_copy : bool) (prot max_prot inheritance : Z) (r : entered) : Prop :=
  match r with
  | Entered m' VM_SUCCESS s =>
      m_lock m' = Unlocked /\ Z.land s mask = 0 /\ (anywhere = false -> s = address) /\
      (exists v, entered_ok m size_ m' s v /\
        ((forall a, v a = view_entry a (new_entry size_ s object offset needs_copy prot max_prot inheritance)) \/
         object = VM_OBJECT_NULL /\ exists e, enter_extends e s object prot max_prot inheritance = true /\ forall a, v a = view_entry a e)) /\
      (forall sub o, sub = true \/ o <> VM_OBJECT_NULL ->
        net sub o (m_entries m') (m_log m') = net sub o (m_entries m) (m_log m) + (if negb sub && (object =? o) then 1 else 0))
  | Entered m' _ s => s = address /\ searched_map m m'
  | Enter_blocks m' => m_wait_for_space m = true /\ m_lock m' = Unlocked /\ searched_map m m'
  end.

Lemma vm_map_enter_spec m address size_ mask anywhere object offset needs_copy prot max_prot inheritance :
  map_ok m -> is_u32 address -> is_u32 size_ -> is_u32 mask ->
  exists r, vm_map_enter address size_ mask anywhere object offset needs_copy prot max_prot inheritance m = Some r /\
    enter_post m address size_ mask anywhere object offset needs_copy prot max_prot inheritance r.
Proof using.
  intros Hok Ha Hs Hm. unfold vm_map_enter, enter_post.
  assert (exists r, (if anywhere then enter_anywhere address size_ mask m else enter_at address size_ mask m) = Some r /\
    match r with
    | Found m1 entry s x => place m size_ mask m1 entry s x /\ (anywhere = false -> s = address)
    | Fails m1 kr => kr <> VM_SUCCESS /\ searched_map m m1
    | Must_wait m1 => m_wait_for_space m = true /\ m_lock m1 = Unlocked /\ searched_map m m1
    end) as (r & -> & Hr).
  { destruct anywhere.
    - destruct (enter_anywhere_spec m address size_ mask Hok Hs Hm Ha) as (r & -> & Hr). exists r. split; [done|]. destruct r as [? ? ? ?|? ?|?]; cbn in Hr; [by destruct Hr|by destruct Hr as (-> & ? & _)|by destruct Hr as (? & ? & ? & _)].
    - destruct (enter_at_spec m address size_ mask Hok Hs Ha) as (r & -> & Hr). exists r. split; [done|]. destruct r as [? ? ? ?|? ?|?]; cbn in Hr; [by destruct Hr|done|done]. }
  destruct r as [m1 entry s x|m1 kr|m1]; [|eexists; split; [done|]; destruct Hr as [Hne Hsm]; by destruct kr|eexists; by split].
  destruct Hr as [Hpl Hat]. assert (Z.land s mask = 0) as Hal by (by destruct Hpl as (A & B & ? & ? & ? & ? & ? & ? & ? & ? & _)).
  destruct (enter_coalesce_spec m size_ mask Hok Hs m1 entry s x object prot max_prot inheritance Hpl) as [->|(m2 & e & -> & Hex & Hrefs & Hbal & Hen)].
  - destruct (enter_new_spec m size_ mask Hok Hs m1 entry s x object offset needs_copy prot max_prot inheritance Hpl) as (m2 & -> & Hlog & Hrefs & Hen).
    eexists. split; [done|]. set (ev := Ev_pmap_enter s x object offset prot).
    assert (forall m3, m3 = map_unlock m2 \/ m3 = emit ev (map_unlock m2) -> m_lock m3 = Unlocked /\ m_entries m3 = m_entries m2 /\ (forall sub o, balance sub o (m_log m3) = balance sub o (m_log m)) /\
      entered_ok m size_ m3 s (fun a => view_entry a (new_entry size_ s object offset needs_copy prot max_prot inheritance))) as H3.
    { rewrite <- Hlog. intros m3 [-> | ->]; (split; [done|]); (split; [done|]); (split; [by intros []|]); [by apply entered_ok_lock|by apply entered_ok_emit, entered_ok_lock]. }
    lazy beta iota zeta. match goal with |- m_lock ?M3 = _ /\ _ => destruct (H3 M3) as (L1 & L2 & L3 & L4); [destruct (_ && _); [by right|by left]|] end.
    split; [exact L1|]. split; [done|]. split; [done|]. split; [eexists; split; [exact L4|by left]|].
    intros sub o Ho. unfold net. rewrite L2, L3, Hrefs. unfold refers. cbn. destruct sub; cbn; lia.
  - eexists. split; [done|]. split; [done|]. split; [done|]. split; [done|].
    assert (object = VM_OBJECT_NULL) as -> by (unfold enter_extends in Hex; rewrite !andb_true_iff, !Z.eqb_eq in Hex; tauto).
    split; [eexists; split; [by apply entered_ok_lock|]; right; split; [done|]; by exists e|].
    intros sub o Ho. unfold net. cbn [m_entries m_log map_unlock set_lock]. rewrite Hrefs, Hbal.
    destruct sub; cbn [negb andb]; [lia|]. rewrite (proj2 (Z.eqb_neq VM_OBJECT_NULL o)) by (intros <-; naive_solver). lia.
Qed.



(** C36: With the mask 0xffffffff, which [vm_map] passes on unchecked, and an
    address to start from that is not 0, within the bounds of the map or below
    them (the lower bound of a user map is 0), the alignment wraps around: whatever
    is mapped, [vm_map_enter] returns KERN_NO_SPACE with the map still locked. *)
Theorem vm_map_enter_keeps_lock m address size_ object offset needs_copy prot max_prot inheritance : map_ok m -> 0 < Z.max address (m_min m) <= m_max m ->
  exists m', vm_map_enter address size_ (wordsize - 1) true object offset needs_copy prot max_prot inheritance m = Some (Entered m' VM_NO_SPACE address) /\ m_lock m' = Write_locked.
Proof using.
  intros Hok Hb. unfold vm_map_enter, enter_anywhere. cbn [m_min m_max set_lock map_lock_write].
  assert ((if address <? m_min m then m_min m else address) = Z.max address (m_min m)) as -> by (destruct (Z.ltb_spec address (m_min m)); lia). set (s := Z.max address (m_min m)) in *.
  rewrite (proj2 (Z.ltb_ge _ _)) by lia. destruct (ok_bounds _ Hok) as [_ Hmx]. set (m1 := map_lock_write m). assert (map_ok m1) as Hok1 by (by apply ok_set_lock).
  assert (forall m2 entry st, m_lock m2 = Write_locked -> 0 < st < wordsize -> find_space (space_fuel m2) m2 entry st size_ (wordsize - 1) = Some Wraps) as Hw.
  { intros m2 entry st _ Hs. cbn [space_fuel find_space]. assert (u32 (st + (wordsize - 1)) = st - 1) as -> by (unfold u32; symmetry; apply (Z.mod_unique_pos _ _ 1); lia).
    change (wordsize - 1) with (2 ^ 32 - 1). rewrite ldiff_ones by lia. rewrite Z.div_small by (unfold wordsize in Hs; lia). by rewrite (proj2 (Z.ltb_lt _ _)) by lia. }
  destruct (Z.eqb_spec s (m_min m)) as [Es|Es].
  - change (m_first_free m1) with (m_first_free m). destruct (Z.eqb_spec (m_first_free m) HEAD) as [Ef|Ef]; [rewrite Hw by (done || lia); by eexists|].
    destruct (first_free_parts m Hok Ef) as (A & B & Hl & Hp & e & Hd & _ & _ & He). change (deref m1) with (deref m). rewrite Hd. rewrite Hw by (done || lia). by eexists.
  - destruct (lookup_located m1 s Hok1) as (h & p & found & -> & Hokh & Hloc). inversion Hloc as [A p' e B Hl Hx Hp|A B Hl HA HB Hp]; subst p found; [|rewrite Hw by (done || lia); by eexists].
    destruct (ok_list _ Hok1) as [Hc Hnd]. rewrite Hl in Hc, Hnd. assert (deref (set_hint h m1) p' = Some e) as ->.
    { unfold deref. cbn [m_entries set_hint]. rewrite Hl. apply find_ptr_mid. by destruct (no_dup_mid _ _ _ _ Hnd) as (_ & ? & _). }
    apply chain_mid in Hc as (_ & _ & Hc). apply chain_le in Hc. rewrite Hw by (done || cbn in Hc; lia). by eexists.
Qed.
End Thms.
