(* ===== verification/VmMapRemove.v ===== *)
(** * Address maps: deletion of a range

    Deletion removes exactly the range, but for projected buffers that must stay,
    and gives back every reference. *)
From S2P Require Import Prelude VmMap VmMapOps VmMapDelete VmMapInv VmMapFind VmMapSpec.

Section Delete.
Context {E : VmEnv}.

(** ** One entry *)

(** A projected buffer that deletion does not touch. *)
Definition stays (e : vm_map_entry) : bool := negb is_kernel_map && negb (vme_projected_on e =? 0) && negb (projection_persists (vme_projected_on e)).

Definition unmap_evs (e : vm_map_entry) : list vm_event :=
  let s := vme_start e in
  let x := vme_end e in
  if vme_object e =? VM_OBJECT_NULL then []
  else
    (if vme_object e =? kernel_object then Ev_object_page_remove (vme_object e) (vme_offset e) (u32 (vme_offset e + (x - s)))
     else if vme_is_shared e then Ev_object_pmap_remove (vme_object e) (vme_offset e) (u32 (vme_offset e + (x - s)))
     else Ev_pmap_remove s x)
    :: (if negb (vme_wired_count e =? 0) then [Ev_fault_unwire s x] else []).

Definition dealloc_evs (e : vm_map_entry) : list vm_event :=
  if vme_is_sub_map e then [Ev_map_deallocate (vme_object e)]
  else if vme_object e =? VM_OBJECT_NULL then [] else [Ev_object_deallocate (vme_object e)].

(** The wiring of a projected buffer is not undone. *)
Definition unprojected (e : vm_map_entry) : vm_map_entry :=
  if negb is_kernel_map && negb (vme_projected_on e =? 0) then vme_set_wired 0 (vme_user_wired_count e) e else e.

Definition delete_evs (e : vm_map_entry) : list vm_event := dealloc_evs (unprojected e) ++ unmap_evs (unprojected e).

Lemma entry_unmap_evs e l log m : entry_unmap e (with_list l log m) = with_list l (unmap_evs e ++ log) m.
Proof using.
  unfold entry_unmap, unmap_evs. destruct (vme_object e =? VM_OBJECT_NULL); [done|].
  by destruct (vme_object e =? kernel_object), (vme_is_shared e), (negb (vme_wired_count e =? 0)).
Qed.

Lemma unprojected_same e : vme_start (unprojected e) = vme_start e /\ vme_end (unprojected e) = vme_end e /\
  vme_object (unprojected e) = vme_object e /\ vme_is_sub_map (unprojected e) = vme_is_sub_map e /\ vme_is_shared (unprojected e) = vme_is_shared e.
Proof using. unfold unprojected. by destruct (_ && _). Qed.

Definition sized (n : Z) (m : vm_map) : vm_map := set_size n m.

Lemma entry_delete_spec A p e B log n m : no_dup (A ++ (p, e) :: B) -> stays e = false ->
  vm_map_entry_delete p (with_list (A ++ (p, e) :: B) log (sized n m)) =
    Some (with_list (A ++ B) (delete_evs e ++ log) (sized (u32 (n - (vme_end e - vme_start e))) m)).
Proof using.
  intros Hnd Hst. unfold vm_map_entry_delete. rewrite at_deref by done. unfold stays in Hst. rewrite Hst. cbn zeta. fold (unprojected e).
  destruct (unprojected_same e) as (U1 & U2 & _). rewrite entry_unmap_evs. unfold delete_evs. rewrite <- app_assoc.
  assert ((if vme_is_sub_map (unprojected e) then emit (Ev_map_deallocate (vme_object (unprojected e))) (with_list (A ++ (p, e) :: B) (unmap_evs (unprojected e) ++ log) (sized n m))
    else vm_object_deallocate (vme_object (unprojected e)) (with_list (A ++ (p, e) :: B) (unmap_evs (unprojected e) ++ log) (sized n m)))
    = with_list (A ++ (p, e) :: B) (dealloc_evs (unprojected e) ++ unmap_evs (unprojected e) ++ log) (sized n m)) as ->.
  { unfold dealloc_evs, vm_object_deallocate. destruct (vme_is_sub_map (unprojected e)); [done|]. by destruct (vme_object (unprojected e) =? VM_OBJECT_NULL). }
  rewrite at_unlink by done. by rewrite U1, U2.
Qed.

Lemma entry_delete_stays A p e B log m : no_dup (A ++ (p, e) :: B) -> stays e = true ->
  vm_map_entry_delete p (with_list (A ++ (p, e) :: B) log m) = Some (with_list (A ++ (p, e) :: B) log m).
Proof using. intros Hnd Hst. unfold vm_map_entry_delete. rewrite at_deref by done. unfold stays in Hst. by rewrite Hst. Qed.

(** The reference of the entry is given back. *)
Lemma delete_evs_net sub o e : sub = true \/ o <> VM_OBJECT_NULL -> balance sub o (delete_evs e) = - refers sub o e.
Proof using.
  intros Ho. destruct (unprojected_same e) as (_ & _ & U3 & U4 & _). unfold delete_evs. rewrite balance_app. unfold refers. rewrite <- U3, <- U4. generalize (unprojected e). clear -Ho. intros e.
  assert (balance sub o (unmap_evs e) = 0) as ->.
  { unfold unmap_evs. destruct (vme_object e =? VM_OBJECT_NULL); [done|]. by destruct (vme_object e =? kernel_object), (vme_is_shared e), (negb (vme_wired_count e =? 0)), sub. }
  unfold dealloc_evs. destruct (vme_is_sub_map e), sub; cbn [Bool.eqb andb balance gives]; try lia.
  - destruct (vme_object e =? o); lia.
  - destruct (vme_object e =? VM_OBJECT_NULL); cbn; lia.
  - destruct (Z.eqb_spec (vme_object e) VM_OBJECT_NULL) as [En|]; cbn; [rewrite En, (proj2 (Z.eqb_neq VM_OBJECT_NULL o)) by (intros <-; naive_solver); lia|].
    destruct (vme_object e =? o); lia.
Qed.

(** The entry's pages are in the physical map of the map only. *)
Definition private (v : vm_map_entry) (h : Z) : Prop :=
  vme_is_shared v = false /\ vme_object v <> kernel_object /\ (vme_object v = VM_OBJECT_NULL -> h = VM_PROT_NONE).

Lemma delete_evs_hw e hw a : hw_after (delete_evs e) hw a = hw a \/ hw_after (delete_evs e) hw a = VM_PROT_NONE.
Proof using.
  unfold delete_evs. rewrite hw_app. generalize (unprojected e). clear e. intros e.
  assert (forall hw, hw_after (dealloc_evs e) hw = hw) as ->.
  { intros hw'. unfold dealloc_evs. destruct (vme_is_sub_map e); [done|]. by destruct (vme_object e =? VM_OBJECT_NULL). }
  unfold unmap_evs. destruct (vme_object e =? VM_OBJECT_NULL); [by left|].
  destruct (vme_object e =? kernel_object), (vme_is_shared e), (negb (vme_wired_count e =? 0)); cbn; try (by left); destruct (_ && _); auto.
Qed.

Lemma delete_evs_removes e hw a : covers a e = true -> private e (hw a) -> hw_after (delete_evs e) hw a = VM_PROT_NONE.
Proof using.
  intros Hc (H1 & H2 & H3). destruct (unprojected_same e) as (U1 & U2 & U3 & U4 & U5). unfold delete_evs. rewrite hw_app.
  unfold covers in Hc. rewrite <- U1, <- U2 in Hc. rewrite <- U3 in H2, H3. rewrite <- U5 in H1. revert Hc H1 H2 H3. generalize (unprojected e). clear. intros e Hc H1 H2 H3.
  assert (forall hw, hw_after (dealloc_evs e) hw = hw) as ->.
  { intros hw'. unfold dealloc_evs. destruct (vme_is_sub_map e); [done|]. by destruct (vme_object e =? VM_OBJECT_NULL). }
  unfold unmap_evs. destruct (Z.eqb_spec (vme_object e) VM_OBJECT_NULL); [by apply H3|]. rewrite (proj2 (Z.eqb_neq _ _) H2), H1. cbn. by rewrite Hc.
Qed.

(** The translations of a page that was mapped are taken away: by its address
    where the page is in this map only, and by its object, in every map, where the
    object is shared; pages of the kernel's object are removed from it. *)
Definition untranslated (new : list vm_event) (a : Z) (v : vm_map_entry) : Prop :=
  if vme_object v =? VM_OBJECT_NULL then True
  else if vme_object v =? kernel_object then exists lo n d, 0 <= d < n /\ vme_offset v = u32 (lo + d) /\ Ev_object_page_remove (vme_object v) lo (u32 (lo + n)) ∈ new
  else if vme_is_shared v then exists lo n d, 0 <= d < n /\ vme_offset v = u32 (lo + d) /\ Ev_object_pmap_remove (vme_object v) lo (u32 (lo + n)) ∈ new
  else exists s x, s <= a < x /\ Ev_pmap_remove s x ∈ new.

Lemma untranslated_app l1 l2 a v : untranslated l1 a v \/ untranslated l2 a v -> untranslated (l1 ++ l2) a v.
Proof using.
  unfold untranslated. destruct (vme_object v =? VM_OBJECT_NULL); [done|].
  destruct (vme_object v =? kernel_object); [|destruct (vme_is_shared v)].
  1-2: intros [(lo & n & d & ? & ? & ?)|(lo & n & d & ? & ? & ?)]; exists lo, n, d; (split; [done|]); (split; [done|]); apply elem_of_app; auto.
  intros [(s & x & ? & ?)|(s & x & ? & ?)]; exists s, x; (split; [done|]); apply elem_of_app; auto.
Qed.

Lemma delete_evs_untranslated e a : covers a e = true -> untranslated (delete_evs e) a (view_entry a e).
Proof using.
  intros Hc%covers_spec. apply untranslated_app. right. destruct (unprojected_same e) as (U1 & U2 & U3 & U4 & U5).
  unfold untranslated, unmap_evs. cbn [view_entry vme_object vme_is_shared vme_offset]. rewrite U1, U2, U3, U5.
  assert (vme_offset (unprojected e) = vme_offset e) as -> by (unfold unprojected; by destruct (_ && _)).
  destruct (vme_object e =? VM_OBJECT_NULL); [done|].
  destruct (vme_object e =? kernel_object); [|destruct (vme_is_shared e)].
  1-2: exists (vme_offset e), (vme_end e - vme_start e), (a - vme_start e); (split; [lia|]); (split; [done|]); left.
  exists (vme_start e), (vme_end e). split; [done|left].
Qed.

(** ** The loop *)

(** What deletion up to the address [y] makes of the list [B]. *)
Record removed (y : Z) (B C : list (Z * vm_map_entry)) (new : list vm_event) : Prop := {
  rm_view : forall a, viewl C a = if a <? y then (match viewl B a with Some v => if stays v then Some v else None | None => None end) else viewl B a;
  rm_net : forall sub o, sub = true \/ o <> VM_OBJECT_NULL -> refs sub o C = refs sub o B + balance sub o new;
  rm_less : forall hw a, hw_after new hw a = hw a \/ hw_after new hw a = VM_PROT_NONE;
  rm_allowed : forall hw a, allowed (viewl B a) (hw a) -> (a < y -> forall v, viewl B a = Some v -> private v (hw a)) -> allowed (viewl C a) (hw_after new hw a);
  rm_gone : forall a v, a < y -> viewl B a = Some v -> stays v = false -> untranslated new a v
}.

Lemma allowed_less v h h' : h' = h \/ h' = VM_PROT_NONE -> allowed v h -> allowed v h'.
Proof using. intros [-> | ->]; [done|]. by destruct v. Qed.

(** A list with the same view and references. *)
Lemma removed_none y B C new : starts_from y B -> (forall a, viewl C a = viewl B a) ->
  (forall sub o, sub = true \/ o <> VM_OBJECT_NULL -> refs sub o C = refs sub o B + balance sub o new) -> (forall hw a, hw_after new hw a = hw a) -> removed y B C new.
Proof using.
  intros Hs Hv Hn Hh. constructor.
  - intros a. rewrite Hv. destruct (Z.ltb_spec a y); [|done]. by rewrite (viewl_starts_from y).
  - done.
  - intros hw a. left. apply Hh.
  - intros hw a Ha _. by rewrite Hv, Hh.
  - intros a v Ha Hva. by rewrite (viewl_starts_from y) in Hva.
Qed.

Lemma removed_keep y p e B C new : vme_end e <= y -> stays e = true -> removed y B C new -> removed y ((p, e) :: B) ((p, e) :: C) new.
Proof using.
  intros Hy Hst [Rv Rn Rl Ra Rg]. constructor; [|intros sub o Ho; cbn [refs]; rewrite (Rn sub o Ho); lia|done| |].
  - intros a. cbn [viewl]. rewrite Rv. destruct (covers a e) eqn:Ec; [|done]. apply covers_spec in Ec. rewrite (proj2 (Z.ltb_lt a y)) by lia.
    change (stays (view_entry a e)) with (stays e). by rewrite Hst.
  - intros hw a. cbn [viewl]. destruct (covers a e); [intros Ha _|by apply Ra]. by eapply allowed_less; [apply Rl|].
  - intros a v Ha. cbn [viewl]. destruct (covers a e); [|by apply Rg]. intros [= <-] Hs. change (stays e = false) in Hs. congruence.
Qed.

Lemma removed_drop y p e B C new hi : chain (vme_end e) hi B -> vme_end e <= y -> stays e = false -> removed y B C new ->
  removed y ((p, e) :: B) C (new ++ delete_evs e).
Proof using.
  intros Hc Hy Hst [Rv Rn Rl Ra Rg]. constructor.
  - intros a. cbn [viewl]. rewrite Rv. destruct (covers a e) eqn:Ec; [|done]. apply covers_spec in Ec. rewrite (proj2 (Z.ltb_lt a y)) by lia.
    change (stays (view_entry a e)) with (stays e). rewrite Hst. by rewrite (viewl_below _ _ _ _ Hc) by lia.
  - intros sub o Ho. cbn [refs]. rewrite (Rn sub o Ho), balance_app, delete_evs_net by done. lia.
  - intros hw a. rewrite hw_app. destruct (Rl (hw_after (delete_evs e) hw) a) as [->|]; [apply delete_evs_hw|by right].
  - intros hw a. rewrite hw_app. cbn [viewl]. destruct (covers a e) eqn:Ec.
    + intros Ha Hp. apply Ra; rewrite (viewl_below _ _ _ _ Hc) by (apply covers_spec in Ec; lia); [|done]. cbn. apply delete_evs_removes; [done|]. apply (Hp ltac:(apply covers_spec in Ec; lia) (view_entry a e) eq_refl).
    + intros Ha Hp. apply Ra; [by eapply allowed_less; [apply delete_evs_hw|]|]. intros Hlt v Hv. destruct (Hp Hlt v Hv) as (P1 & P2 & P3). split; [done|]. split; [done|].
      intros H. destruct (delete_evs_hw e hw a) as [-> | ->]; [by apply P3|done].
  - intros a v Ha. cbn [viewl]. destruct (covers a e) eqn:Ec.
    + intros [= <-] _. apply untranslated_app. right. by apply delete_evs_untranslated.
    + intros Hv Hs. apply untranslated_app. left. by apply Rg.
Qed.

(** The last entry of the range, clipped. *)
Lemma removed_clip x p q e B hi new : chain (vme_end e) hi B -> vme_start e <= x < vme_end e -> new = reference_log e [] ->
  (stays e = false -> removed x ((p, e) :: B) ((q, back_part x e) :: B) (delete_evs (front_part x e) ++ new)) /\
  (stays e = true -> removed x ((p, e) :: B) ((p, front_part x e) :: (q, back_part x e) :: B) new).
Proof using.
  intros Hc Hx ->. destruct (reference_log_new e []) as (? & _ & -> & Hhw). pose proof (fun a => viewl_split x p q p e B a ltac:(lia)) as Hv.
  assert (removed x ((q, back_part x e) :: B) ((q, back_part x e) :: B) []) as Hback.
  { apply removed_none; try done; [|intros; cbn; lia]. constructor; [cbn; lia|]. eapply Forall_impl; [apply (chain_starts_from _ _ _ Hc)|]. cbn. intros ? ?. lia. }
  assert (chain (vme_end (front_part x e)) hi ((q, back_part x e) :: B)) as Hcb by (cbn; repeat split; [lia|lia|done]).
  assert (forall C new, removed x ((p, front_part x e) :: (q, back_part x e) :: B) C new -> removed x ((p, e) :: B) C (new ++ reference_log e [])) as Htr.
  { intros C new [Rv Rn Rl Ra Rg]. constructor.
    - intros a. rewrite Rv. by rewrite (Hv a).
    - intros sub o Ho. rewrite (Rn sub o Ho), balance_app, balance_reference by done. cbn [refs balance]. destruct (refs_split sub o x p e) as [S1 S2]. cbn [refs] in S1. lia.
    - intros hw a. rewrite hw_app. destruct (Rl (hw_after (reference_log e []) hw) a) as [->|]; [left; apply Hhw|by right].
    - intros hw a Ha Hp. rewrite hw_app. apply Ra; rewrite (Hv a), Hhw; done.
    - intros a v Ha Hva Hs. apply untranslated_app. left. apply Rg; [done|by rewrite (Hv a)|done]. }
  split; intros Hst.
  - apply Htr. eapply (removed_drop x p (front_part x e) _ _ [] hi); [done|cbn; lia|done|done].
  - apply (Htr _ []). apply removed_keep; [cbn; lia|done|done].
Qed.

Section Loop.
Variables (m : vm_map) (x : Z).
Hypothesis Hbounds : 0 <= m_min m /\ m_max m < wordsize.

(** The map with a list and its size. *)
Definition stated (l : list (Z * vm_map_entry)) (log : list vm_event) : vm_map := with_list l log (sized (total l) m).

Lemma stated_delete A p e B log : list_ok (m_min m) (m_max m) (A ++ (p, e) :: B) -> stays e = false ->
  vm_map_entry_delete p (stated (A ++ (p, e) :: B) log) = Some (stated (A ++ B) (delete_evs e ++ log)) /\ list_ok (m_min m) (m_max m) (A ++ B).
Proof using Hbounds.
  intros [Hc Hnd] Hst. unfold stated. rewrite entry_delete_spec by done. pose proof (total_bound _ _ _ Hc) as Ht. pose proof Hc as Hc'. apply chain_mid in Hc' as (C1 & C2 & C3).
  assert (u32 (total (A ++ (p, e) :: B) - (vme_end e - vme_start e)) = total (A ++ B)) as ->.
  { rewrite !total_app in *. cbn [total] in *. pose proof (total_bound _ _ _ C1). pose proof (total_bound _ _ _ C3). rewrite u32_small; [lia|]. unfold is_u32. lia. }
  split; [done|]. split.
  - apply chain_app. exists (vme_start e). split; [done|]. by eapply chain_weaken.
  - unfold no_dup in *. rewrite ids_app in *. cbn [map fst] in Hnd. apply NoDup_cons in Hnd as [H1 H2]. apply NoDup_app in H2 as (H2 & H3 & H4).
    apply NoDup_cons in H4 as [H4 H5]. apply NoDup_cons. split; [set_solver|]. apply NoDup_app. split; [done|]. split; [set_solver|done].
Qed.

Lemma stated_same l l' log : total l' = total l -> with_list l' log (sized (total l) m) = stated l' log.
Proof using. unfold stated. by intros ->. Qed.

Definition waits_for (C : list (Z * vm_map_entry)) (y : Z) : Prop :=
  exists p e, (p, e) ∈ C /\ vme_start e = y /\ vme_in_transition e = true /\ vme_needs_wakeup e = true.

Definition loop_post (lo : Z) (A B : list (Z * vm_map_entry)) (log : list vm_event) (r : deletion) : Prop :=
  exists y C new, lo <= y <= x /\ list_ok (m_min m) (m_max m) (A ++ C) /\ removed y B C new /\
    match r with
    | Deleted m' => y = x /\ m' = delete_end (stated (A ++ C) (new ++ log))
    | Delete_blocks m' => waits_for C y /\ m' = map_unlock (stated (A ++ C) (new ++ log))
    end.

(** The clip at the end of the range and what follows for one entry. *)
Lemma delete_turn fuel A p e B log : list_ok (m_min m) (m_max m) (A ++ (p, e) :: B) -> vme_start e < x -> exists e1 R new,
  (x < vme_end e /\ e1 = front_part x e /\ R = [(fresh (A ++ (p, e) :: B), back_part x e)] /\ new = reference_log e [] \/ vme_end e <= x /\ e1 = e /\ R = [] /\ new = []) /\
  list_ok (m_min m) (m_max m) (A ++ (p, e1) :: R ++ B) /\
  delete_loop (S fuel) x p (stated (A ++ (p, e) :: B) log) =
    if vme_in_transition e then Some (Delete_blocks (map_unlock (stated (A ++ (p, vme_set_needs_wakeup true e1) :: R ++ B) (new ++ log))))
    else if stays e then delete_loop fuel x (first_ptr (R ++ B)) (stated (A ++ (p, e1) :: R ++ B) (new ++ log))
    else delete_loop fuel x (first_ptr (R ++ B)) (stated (A ++ R ++ B) (delete_evs e1 ++ new ++ log)).
Proof using Hbounds.
  intros Hok Hlt. pose proof Hok as [Hc Hnd]. pose proof Hc as Hc'. apply chain_mid in Hc' as (C1 & C2 & C3). cbn [delete_loop]. unfold stated at 1 2.
  rewrite (at_ptr _ _ _ _ Hnd), at_deref by done. rewrite (proj2 (Z.ltb_lt _ _) Hlt). cbn [negb].
  assert (exists e1 R new, (x < vme_end e /\ e1 = front_part x e /\ R = [(fresh (A ++ (p, e) :: B), back_part x e)] /\ new = reference_log e [] \/ vme_end e <= x /\ e1 = e /\ R = [] /\ new = []) /\
    list_ok (m_min m) (m_max m) (A ++ (p, e1) :: R ++ B) /\ vm_map_clip_end p x (stated (A ++ (p, e) :: B) log) = Some (stated (A ++ (p, e1) :: R ++ B) (new ++ log))) as (e1 & R & new & Hcase & Hok1 & Hclip).
  { destruct (decide (x < vme_end e)) as [Hx|Hx].
    - destruct (reference_log_new e log) as (new & El & Enew & _). destruct (list_ok_split _ _ _ _ _ _ x Hok ltac:(lia)) as [_ Hok2].
      exists (front_part x e), [(fresh (A ++ (p, e) :: B), back_part x e)], new. split; [by left|]. split; [done|]. unfold stated. rewrite clip_end_spec by done. rewrite El. cbn [app].
      f_equal. apply stated_same. rewrite !total_app. cbn. lia.
    - exists e, [], []. split; [right; split; [lia|done]|]. split; [done|]. unfold stated. by rewrite clip_end_none by (done || lia). }
  exists e1, R, new. split; [done|]. split; [done|]. fold (stated (A ++ (p, e) :: B) log). rewrite Hclip. unfold stated at 1. rewrite at_deref by apply Hok1.
  assert (vme_in_transition e1 = vme_in_transition e /\ stays e1 = stays e) as [-> Hse] by (by destruct Hcase as [(_ & -> & _)|(_ & -> & _)]).
  destruct (vme_in_transition e).
  - unfold stated at 1. rewrite at_put by apply Hok1. do 3 f_equal. apply stated_same. rewrite !total_app. done.
  - unfold stated at 1. rewrite at_next by apply Hok1. destruct (stays e) eqn:Est.
    + unfold stated at 1. by rewrite entry_delete_stays by (done || apply Hok1).
    + by destruct (stated_delete _ _ _ _ (new ++ log) Hok1 Hse) as [-> _].
Qed.

(** Where the loop stops. *)
Lemma delete_stop fuel A B log : no_dup (A ++ B) -> starts_from x B -> delete_loop (S fuel) x (first_ptr B) (stated (A ++ B) log) = Some (Deleted (delete_end (stated (A ++ B) log))).
Proof using.
  intros Hnd HB. cbn [delete_loop]. destruct B as [|[p e] B]; cbn [first_ptr]; [done|]. apply Forall_cons in HB as [HB _]. cbn in HB. unfold stated.
  rewrite (at_ptr _ _ _ _ Hnd), at_deref by done. by rewrite (proj2 (Z.ltb_ge _ _)) by done.
Qed.

Lemma delete_loop_spec : forall B A log fuel lo, list_ok (m_min m) (m_max m) (A ++ B) -> starts_from lo B -> lo <= x -> (length B + 1 < fuel)%nat ->
  exists r, delete_loop fuel x (first_ptr B) (stated (A ++ B) log) = Some r /\ loop_post lo A B log r.
Proof using Hbounds.
  induction B as [|[p e] B IH]; intros A log fuel lo Hok Hlo Hx Hf; (destruct fuel as [|fuel]; [lia|]).
  { eexists. split; [apply (delete_stop fuel A []); [apply Hok|constructor]|]. exists x, [], []. split; [lia|]. split; [done|]. split; [|done]. apply removed_none; try done. constructor. }
  pose proof Hok as [Hc Hnd]. apply chain_mid in Hc as (C1 & C2 & C3). apply Forall_cons in Hlo as [Hlo1 Hlo2]. cbn in Hlo1.
  assert (starts_from (vme_start e) ((p, e) :: B)) as Hse by (constructor; [cbn; lia|]; eapply Forall_impl; [apply (chain_starts_from _ _ _ C3)|]; cbn; intros ? ?; lia).
  destruct (Z.lt_ge_cases (vme_start e) x) as [Hlt|Hge].
  2:{ assert (starts_from x ((p, e) :: B)) as Hs by (eapply Forall_impl; [exact Hse|]; cbn; intros ? ?; lia).
      eexists. split; [by apply delete_stop|]. exists x, ((p, e) :: B), []. split; [lia|]. split; [done|]. split; [|done]. apply removed_none; try done. intros; cbn; lia. }
  destruct (delete_turn fuel A p e B log Hok Hlt) as (e1 & R & new & Hcase & Hok1 & Hturn). cbn [first_ptr]. rewrite Hturn. destruct (vme_in_transition e) eqn:Et.
  { eexists. split; [done|]. exists (vme_start e), ((p, vme_set_needs_wakeup true e1) :: R ++ B), new. split; [lia|]. split; [by eapply list_ok_change|]. split.
    - apply removed_none; [done| | |].
      + intros a. destruct Hcase as [(Hcl & -> & -> & ->)|(Hcl & -> & -> & ->)]; [|done]. by rewrite <- (viewl_split x p (fresh (A ++ (p, e) :: B)) p e B a) by lia.
      + intros sub o Ho. destruct Hcase as [(Hcl & -> & -> & ->)|(Hcl & -> & -> & ->)]; [|cbn [refs balance app]; unfold refers; cbn; lia].
        rewrite balance_reference by done. unfold refs, refers. cbn. lia.
      + intros hw a. destruct Hcase as [(_ & _ & _ & ->)|(_ & _ & _ & ->)]; [|done]. destruct (reference_log_new e []) as (? & _ & -> & Hhw). apply Hhw.
    - split; [|done]. exists p, (vme_set_needs_wakeup true e1). split; [set_solver|]. by destruct Hcase as [(_ & -> & _)|(_ & -> & _)]. }
  destruct Hcase as [(Hcl & -> & -> & ->)|(Hcl & -> & -> & ->)]; cbn [app] in *.
  - destruct (removed_clip x p (fresh (A ++ (p, e) :: B)) e B _ (reference_log e []) C3 ltac:(lia) eq_refl) as [Rd Rk]. set (q := fresh (A ++ (p, e) :: B)) in *.
    assert (starts_from x ((q, back_part x e) :: B)) as Hsq by (constructor; [cbn; lia|]; eapply Forall_impl; [apply (chain_starts_from _ _ _ C3)|]; cbn; intros ? ?; lia).
    destruct fuel as [|fuel]; [cbn in Hf; lia|]. destruct (stays e) eqn:Est.
    + pose proof (delete_stop fuel (A ++ [(p, front_part x e)]) ((q, back_part x e) :: B) (reference_log e [] ++ log)) as Hst. rewrite <- app_assoc in Hst. cbn [app] in Hst.
      eexists. split; [apply Hst; [apply Hok1|done]|]. exists x, ((p, front_part x e) :: (q, back_part x e) :: B), (reference_log e []). split; [lia|]. split; [done|]. split; [by apply Rk|done].
    + destruct (stated_delete A p (front_part x e) ((q, back_part x e) :: B) log Hok1 Est) as [_ Hok2].
      eexists. split; [apply (delete_stop fuel A ((q, back_part x e) :: B)); [apply Hok2|done]|]. exists x, ((q, back_part x e) :: B), (delete_evs (front_part x e) ++ reference_log e []).
      split; [lia|]. split; [done|]. split; [by apply Rd|]. split; [done|]. by rewrite app_assoc.
  - destruct (stays e) eqn:Est.
    + destruct (IH (A ++ [(p, e)]) log fuel (vme_end e)) as (r & Hr & y & C & new & Hy & HokC & Hrm & Hpost); [by rewrite <- app_assoc|by eapply chain_starts_from|done|cbn in Hf; lia|].
      rewrite <- !app_assoc in *. cbn [app] in *. exists r. split; [done|]. exists y, ((p, e) :: C), new. split; [lia|]. split; [done|]. split; [apply removed_keep; [lia|done|done]|].
      destruct r; [done|]. destruct Hpost as [(p' & e' & Hin & Hw) Hpost]. split; [|done]. exists p', e'. split; [set_solver|done].
    + destruct (stated_delete A p e B log Hok Est) as [_ Hok2].
      destruct (IH A (delete_evs e ++ log) fuel (vme_end e)) as (r & Hr & y & C & new & Hy & HokC & Hrm & Hpost); [done|by eapply chain_starts_from|done|cbn in Hf; lia|].
      exists r. split; [done|]. exists y, C, (new ++ delete_evs e). rewrite <- app_assoc. split; [lia|]. split; [done|]. split; [|done]. eapply removed_drop; [exact C3|lia|done|done].
Qed.
End Loop.
End Delete.

(** ** The theorems on deletion *)

Section Remove.
Context {E : VmEnv}.

(** The lookup hint goes to the entry before the range. *)
Lemma cut_rehint m x A B new h h' : cut_at m x A B new h -> h' ∈ HEAD :: ids (A ++ B) -> cut_at m x A B new h'.
Proof using.
  intros [Hok HA HB Hv Hn Hh] Hin. constructor; try done. destruct Hok as [? ? ? ? ? ?]. by constructor.
Qed.

Lemma ptr_before A B log m : no_dup (A ++ B) -> vme_prev (with_list (A ++ B) log m) (first_ptr B) = Some (last_ptr HEAD A).
Proof using.
  intros Hnd. destruct B as [|[p e] B]; cbn [first_ptr]; [unfold vme_prev; cbn; by rewrite app_nil_r|by apply at_prev].
Qed.

Lemma ptr_after A B log m : no_dup (A ++ B) -> vme_next (with_list (A ++ B) log m) (last_ptr HEAD A) = Some (first_ptr B).
Proof using.
  intros Hnd. destruct (last_ptr_cases A) as [[-> ->]|(A' & q & e & -> & ->)]; [done|]. rewrite <- app_assoc in *. by apply at_next.
Qed.

(** The entry at which deletion starts, with the hint before it. *)
Lemma delete_start m start : map_ok m -> exists A B new,
  (LET (m, first_entry, found) <- vm_map_lookup_entry m start ;;
   if negb found then LET next <- vme_next m first_entry ;; Some (m, next)
   else
     LET m <- vm_map_clip_start first_entry start m ;;
     LET prev <- vme_prev m first_entry ;;
     Some (SAVE_HINT prev m, first_entry))
  = Some (with_list (A ++ B) (new ++ m_log m) (set_hint (last_ptr HEAD A) m), first_ptr B) /\ cut_at m start A B new (last_ptr HEAD A).
Proof using.
  intros Hok. destruct (lookup_located m start Hok) as (h & p & found & El & Hokh & Hloc). rewrite El.
  inversion Hloc as [A p' e B Hl Hx Hp|A B Hl HA HB Hp]; subst; cbn [negb].
  - destruct (cut_split m start A p e B h Hok Hokh Hl Hx) as (A' & e' & new & -> & _ & Hcut).
    destruct (ok_list _ (cut_ok _ _ _ _ _ _ Hcut)) as [_ Hnd]. cbn in Hnd. rewrite at_prev by done. exists A', ((p, e') :: B), new. split; [done|].
    eapply cut_rehint; [done|]. pose proof (last_ptr_in A'). rewrite ids_app. set_solver.
  - assert (h = last_ptr HEAD A) as -> by (exact (lookup_gap_hint m start h _ Hok El)).
    exists A, B, []. destruct (ok_list _ Hok) as [_ Hnd]. rewrite Hl in Hnd. pose proof (ok_with_list (set_hint (last_ptr HEAD A) m) (ok_nentries _ Hokh)) as Hm. cbn [m_entries set_hint m_log] in Hm. rewrite Hl in Hm.
    cbn [app]. rewrite Hm. rewrite ptr_after by done. split; [done|]. apply cut_same; [done|done|done|]. eapply Forall_impl; [exact HB|]. cbn. intros ? ?. lia.
Qed.

(** The free-space hint is moved before the range. *)
Lemma delete_first_free m start A B log : map_ok (with_list (A ++ B) log m) -> ends_by start A -> starts_from start B ->
  let m1 := with_list (A ++ B) log m in
  exists fs fe ff, vme_links m1 (m_first_free m1) = Some (fs, fe) /\
    (if start <=? fs then LET prev <- vme_prev m1 (first_ptr B) ;; Some (set_first_free prev m1) else Some m1)
    = Some (with_list (A ++ B) log (set_first_free ff m)) /\ ff ∈ HEAD :: ids A.
Proof using.
  intros Hok HA HB m1. destruct (ok_list _ Hok) as [Hc Hnd]. cbn in Hnd. pose proof (ok_first_free _ Hok) as Hf. cbn in Hf.
  assert (exists fs fe, vme_links m1 (m_first_free m) = Some (fs, fe) /\ (start <= fs \/ m_first_free m ∈ HEAD :: ids A)) as (fs & fe & Hlk & Hor).
  { apply elem_of_cons in Hf as [Hf|Hf]; [rewrite Hf; eexists _, _; split; [done|]; right; set_solver|].
    destruct (in_split_ptr _ _ Hf) as (A1 & e & B1 & Hl). unfold m1. rewrite Hl. rewrite at_links by (by rewrite <- Hl). eexists _, _. split; [done|].
    rewrite ids_app in Hf. apply elem_of_app in Hf as [Hf|Hf]; [right; set_solver|]. left.
    destruct (in_split_ptr _ _ Hf) as (A2 & e2 & B2 & Hl2). subst B. rewrite app_assoc in Hl.
    assert (e = e2) as ->.
    { rewrite app_assoc in Hnd. pose proof (find_ptr_mid (A ++ A2) (m_first_free m) e2 B2) as F1. destruct (no_dup_mid _ _ _ _ Hnd) as (_ & F2 & _). specialize (F1 F2).
      rewrite Hl in F1, Hnd. destruct (no_dup_mid _ _ _ _ Hnd) as (_ & F3 & _). rewrite find_ptr_mid in F1 by done. congruence. }
    apply Forall_app in HB as [_ HB]. apply Forall_cons in HB as [HB _]. done. }
  destruct (Z.leb_spec start fs).
  - exists fs, fe, (last_ptr HEAD A). split; [done|]. rewrite (proj2 (Z.leb_le _ _)) by done. unfold m1. rewrite ptr_before by done. split; [done|apply last_ptr_in].
  - exists fs, fe, (m_first_free m). split; [done|]. rewrite (proj2 (Z.leb_gt _ _)) by done. split; [unfold m1; by destruct m|]. destruct Hor; [lia|done].
Qed.

(** What deletion of the addresses from [s] to [y] makes of a map. *)
Definition deleted (s y : Z) (m m' : vm_map) : Prop :=
  map_ok m' /\ same_refs m m' /\
  (forall a, view m' a = if in_range s y a then (match view m a with Some v => if stays v then Some v else None | None => None end) else view m a) /\
  exists new, m_log m' = new ++ m_log m /\
    (forall a v, in_range s y a = true -> view m a = Some v -> stays v = false -> untranslated new a v) /\
    forall hw a, allowed (view m a) (hw a) -> (in_range s y a = true -> forall v, view m a = Some v -> private v (hw a)) -> allowed (view m' a) (hw_after new hw a).

Lemma deleted_ext s y m m1 m2 : deleted s y m m1 -> map_ok m2 -> m_entries m2 = m_entries m1 ->
  (m_log m2 = m_log m1 \/ m_log m2 = Ev_wakeup :: m_log m1) -> deleted s y m m2.
Proof using.
  intros (D1 & D2 & D3 & new & D4 & D5 & D6) Hok He Hl. split; [done|]. unfold same_refs, same_net, net, view in *. rewrite He. split; [|split; [done|]].
  - intros sub o Ho. rewrite (D2 sub o Ho). destruct Hl as [-> | ->]; [done|]. by destruct sub.
  - destruct Hl as [-> | ->]; [by exists new|]. exists (Ev_wakeup :: new). split; [by rewrite D4|]. split; [|intros hw a H1 H2; by apply D6].
    intros a v H1 H2 H3. apply (untranslated_app [Ev_wakeup]). right. by apply D5.
Qed.

(** The list after the loop is that of a well-formed map. *)
Lemma cut_removed m s y A B C new new2 ff : map_ok m -> cut_at m s A B new (last_ptr HEAD A) -> removed y B C new2 -> list_ok (m_min m) (m_max m) (A ++ C) -> ff ∈ HEAD :: ids A -> s <= y ->
  deleted s y m (stated (set_first_free ff (set_hint (last_ptr HEAD A) m)) (A ++ C) (new2 ++ new ++ m_log m)).
Proof using.
  intros Hok [Hokc HA HB Hv Hn Hh] [Rv Rn Rl Ra Rg] HokC Hff Hsy. pose proof (last_ptr_in A) as Hla. split; [|split; [|split]].
  - destruct Hok as [? ? ? ? ? ?]. constructor; cbn; try done; rewrite ids_app; set_solver.
  - intros sub o Ho. unfold net. cbn [m_entries m_log stated with_list]. specialize (Hn sub o Ho). specialize (Rn sub o Ho). rewrite !balance_app. rewrite refs_app in *. lia.
  - intros a. unfold view at 1. cbn [m_entries stated with_list]. rewrite viewl_app, Rv, <- Hv, viewl_app. unfold in_range. destruct (Z.leb_spec s a); cbn [andb].
    + rewrite (viewl_ends_by s A a) by done. done.
    + rewrite (viewl_starts_from s B a) by done. rewrite (proj2 (Z.ltb_lt a y)) by lia. by destruct (viewl A a).
  - exists (new2 ++ new). split; [by rewrite <- app_assoc|]. split.
    + intros a v [Ha1%Z.leb_le Ha2%Z.ltb_lt]%andb_true_iff Hva Hs. rewrite <- Hv, viewl_app, (viewl_ends_by s A a) in Hva by done. apply untranslated_app. left. by apply Rg.
    + intros hw a H1 H2. unfold view. cbn [m_entries stated with_list]. rewrite hw_app, viewl_app. rewrite <- Hv, viewl_app, <- (Hh hw a) in H1. rewrite <- Hv, viewl_app, <- (Hh hw a) in H2.
      destruct (viewl A a) as [v|]; [by eapply allowed_less; [apply Rl|]|]. apply Ra; [done|]. intros Hlt v Hva. apply H2; [|done]. unfold in_range.
      destruct (Z.leb_spec s a); [by apply Z.ltb_lt|]. by rewrite (viewl_starts_from s B a) in Hva.
Qed.

Lemma vm_map_delete_spec m s x : map_ok m -> s <= x -> exists r, vm_map_delete s x m = Some r /\
  match r with
  | Deleted m' => deleted s x m m' /\ m_lock m' = m_lock m
  | Delete_blocks m' => m_lock m' = Unlocked /\ exists y, s <= y <= x /\ deleted s y m m' /\ waits_for (m_entries m') y
  end.
Proof using.
  intros Hok Hsx. unfold vm_map_delete. destruct (delete_start m s Hok) as (A & B & new & Hst & Hcut). pose proof (cut_ok _ _ _ _ _ _ Hcut) as Hokc.
  destruct (delete_first_free (set_hint (last_ptr HEAD A) m) s A B (new ++ m_log m) Hokc (cut_before _ _ _ _ _ _ Hcut) (cut_after _ _ _ _ _ _ Hcut)) as (fs & fe & ff & Hlk & Hff & Hin).
  destruct (vm_map_lookup_entry m s) as [[[m1 p] found]|]; [|done]. rewrite Hst, Hlk, Hff. set (M := set_first_free ff (set_hint (last_ptr HEAD A) m)).
  pose proof (ok_size _ Hokc) as Hsz. cbn in Hsz.
  assert (with_list (A ++ B) (new ++ m_log m) M = stated M (A ++ B) (new ++ m_log m)) as -> by (unfold stated, sized; rewrite <- Hsz; by destruct m).
  destruct (delete_loop_spec M x (ok_bounds _ Hok) B A (new ++ m_log m) (range_fuel (stated M (A ++ B) (new ++ m_log m))) s) as (r & -> & y & C & new2 & Hy & HokC & Hrm & Hpost);
    [apply (ok_list _ Hokc)|apply (cut_after _ _ _ _ _ _ Hcut)|done|unfold range_fuel; cbn; rewrite length_app; lia|].
  pose proof (cut_removed m s y A B C new new2 ff Hok Hcut Hrm HokC Hin ltac:(lia)) as Hdel. fold M in Hdel. exists r. split; [done|]. destruct r as [m'|m'].
  - destruct Hpost as [-> ->]. split; [|unfold delete_end; by destruct (m_wait_for_space _)]. eapply deleted_ext; [exact Hdel| | |]; unfold delete_end; destruct (m_wait_for_space _); try done; auto.
    + destruct Hdel as [[? ? ? ? ? ?] _]. by constructor.
    + apply Hdel.
  - destruct Hpost as [Hw ->]. split; [done|]. exists y. split; [done|]. split; [eapply deleted_ext; [exact Hdel|apply ok_set_lock, Hdel|done|by left]|].
    destruct Hw as (p' & e & Hpe & Hw). exists p', e. split; [cbn; set_solver|done].
Qed.

Lemma vm_map_remove_spec m start end_ : map_ok m -> exists r, vm_map_remove start end_ m = Some r /\
  let '(s, x) := range_check m start end_ in
  match r with
  | Deleted m' => m_lock m' = Unlocked /\ deleted s x m m'
  | Delete_blocks m' => m_lock m' = Unlocked /\ exists y, s <= y <= x /\ deleted s y m m' /\ waits_for (m_entries m') y
  end.
Proof using.
  intros Hok. unfold vm_map_remove. rewrite (range_check_same m) by done.
  destruct (range_check m start end_) as [s x] eqn:Er. assert (s <= x) as Hsx.
  { unfold range_check in Er. injection Er as <- <-. destruct (Z.ltb_spec (if m_max m <? end_ then m_max m else end_) (if start <? m_min m then m_min m else start)); lia. }
  destruct (vm_map_delete_spec (map_lock_write m) s x (ok_set_lock _ _ _ Hok) Hsx) as (r & -> & Hr). destruct r as [m'|m'].
  - eexists. split; [done|]. split; [done|]. destruct Hr as [Hd _]. eapply deleted_ext; [exact Hd|apply ok_set_lock, Hd|done|by left].
  - eexists. split; [done|]. exact Hr.
Qed.

End Remove.
