(* ===== verification/VmMapWire.v ===== *)
(** * Address maps: wiring

    Unwiring and wiring of a range against the wired counts of its addresses; a
    wiring that fails restores every count. *)
From S2P Require Import Prelude VmMap VmMapOps VmMapInv VmMapFind VmMapSpec.

(** ** Counts *)

Definition counts_ok (e : vm_map_entry) : Prop := 0 <= vme_wired_count e < 2 ^ 16 /\ 0 <= vme_user_wired_count e < 2 ^ 16.

Lemma half_small x : 0 <= x < 2 ^ 16 -> half x = x.
Proof. apply Z.mod_small. Qed.

Lemma half_inv x : 0 <= x < 2 ^ 16 -> half (half (x + 1) - 1) = x.
Proof. intros Hx. unfold half. rewrite Zminus_mod_idemp_l. rewrite Z.mod_small by lia. lia. Qed.

(** Wiring and unwiring are inverse, also where a count wraps around. *)
Lemma wire_down_up user e : counts_ok e -> wire_down user (wire_up user e) = e.
Proof.
  intros [Hw Hu]. destruct user; unfold wire_down, wire_up, vme_set_wired; cbn [vme_wired_count vme_user_wired_count vme_start vme_end vme_object vme_offset
    vme_is_shared vme_is_sub_map vme_in_transition vme_needs_wakeup vme_needs_copy vme_protection vme_max_protection vme_inheritance vme_projected_on].
  - rewrite half_inv by done. destruct (Z.eqb_spec (vme_user_wired_count e) 0); [rewrite half_inv by done|]; by destruct e.
  - rewrite half_inv by done. by destruct e.
Qed.

Lemma wire_up_range user e : vme_start (wire_up user e) = vme_start e /\ vme_end (wire_up user e) = vme_end e /\ vme_object (wire_up user e) = vme_object e /\
  vme_is_sub_map (wire_up user e) = vme_is_sub_map e /\ vme_protection (wire_up user e) = vme_protection e.
Proof. by destruct user. Qed.

Lemma wire_up_view user a e : view_entry a (wire_up user e) = wire_up user (view_entry a e).
Proof. by destruct user. Qed.

Lemma wire_down_range user e : vme_start (wire_down user e) = vme_start e /\ vme_end (wire_down user e) = vme_end e /\ vme_object (wire_down user e) = vme_object e /\
  vme_is_sub_map (wire_down user e) = vme_is_sub_map e.
Proof. by destruct user. Qed.

Lemma wire_down_view user a e : view_entry a (wire_down user e) = wire_down user (view_entry a e).
Proof. by destruct user. Qed.

(** ** Holes *)

Definition hole (end_ : Z) (e : vm_map_entry) (B : list (Z * vm_map_entry)) : bool :=
  (vme_end e <? end_) && match B with [] => true | (_, n) :: _ => vme_end e <? vme_start n end.

Lemma hole_after_eq end_ A p e B log m : no_dup (A ++ (p, e) :: B) -> hole_after end_ p e (with_list (A ++ (p, e) :: B) log m) = Some (hole end_ e B).
Proof.
  intros Hnd. unfold hole_after, hole. destruct (vme_end e <? end_); [|done]. rewrite at_next by done. destruct B as [|[q n] B]; cbn [first_ptr]; [done|].
  pose proof Hnd as Hnd2. rewrite (cons_middle (p, e)), app_assoc in Hnd2. rewrite (at_ptr _ _ _ _ Hnd2).
  pose proof (at_deref _ _ _ _ log m Hnd2) as Hd. rewrite <- app_assoc in Hd. cbn [app] in Hd. by rewrite Hd.
Qed.

(** A range without holes is mapped. *)
Lemma no_holes end_ check B lo hi p e B' : chain lo hi B -> B = (p, e) :: B' ->
  first_fail end_ (fun e B => if hole end_ e B then Some VM_INVALID_ARGUMENT else check e) B = None -> (forall b e, check (view_entry b e) = check e) ->
  forall a, vme_start e <= a < end_ -> exists v, viewl B a = Some v /\ check v = None.
Proof.
  intros Hc HB Hf Hch a. revert lo p e B' Hc HB Hf. induction B as [|[q x] B IH]; intros lo p e B' Hc [= -> -> ->] Hf Ha. cbn [first_fail chain viewl] in *.
  destruct Hc as (C1 & C2 & C3). rewrite (proj2 (Z.ltb_lt _ _)) in Hf by lia. destruct (hole end_ e B') eqn:Eh; [done|]. destruct (check e) eqn:Ec; [done|].
  destruct (Z.lt_ge_cases a (vme_end e)) as [Hlt|Hge].
  - rewrite (proj2 (covers_spec a e)) by lia. exists (view_entry a e). by rewrite Hch.
  - rewrite (proj2 (covers_false a e)) by lia. unfold hole in Eh. rewrite (proj2 (Z.ltb_lt _ _)) in Eh by lia. cbn [andb] in Eh. destruct B' as [|[r n] B']; [done|].
    apply Z.ltb_ge in Eh. eapply (IH _ r n B'); [done|done|done|]. lia.
Qed.

(** ** Unwiring *)

Section Unwire.
Context {E : VmEnv}.

Definition unwire_refuses (user : bool) (e : vm_map_entry) : option vm_return :=
  if (vme_wired_count e =? 0) || (user && (vme_user_wired_count e =? 0)) then Some VM_INVALID_ARGUMENT else None.

Lemma unwire_check_eq end_ user m A p e B log : no_dup (A ++ (p, e) :: B) ->
  unwire_check end_ user p (with_list (A ++ (p, e) :: B) log m) =
    Some (match (if hole end_ e B then Some VM_INVALID_ARGUMENT else unwire_refuses user e) with
          | None => Goes_on (with_list (A ++ (p, e) :: B) log m) | Some kr => Leaves (with_list (A ++ (p, e) :: B) log m) kr end).
Proof using.
  intros Hnd. unfold unwire_check, unwire_refuses. rewrite at_deref, hole_after_eq by done.
  destruct (vme_wired_count e =? 0), (hole end_ e B), (user && (vme_user_wired_count e =? 0)); done.
Qed.

Definition unwire_evs (user : bool) (e : vm_map_entry) : list vm_event :=
  let e' := wire_down user e in if vme_wired_count e' =? 0 then [Ev_fault_unwire (vme_start e') (vme_end e')] else [].

Lemma unwire_loop m end_ user B A log fuel : list_ok (m_min m) (m_max m) (A ++ B) -> (length B + 1 < fuel)%nat ->
  exists C new, while_range fuel end_ (unwire_body end_ user) (first_ptr B) (with_list (A ++ B) log m) = Some (Goes_on (with_list (A ++ C) (new ++ log) m)) /\
    list_ok (m_min m) (m_max m) (A ++ C) /\ updated end_ (wire_down user) B C new.
Proof using.
  apply (update_loop m end_ _ (wire_down user) _ (unwire_evs user)).
  - intros p m'. unfold unwire_body, unwire_evs. destruct (vm_map_clip_end p end_ m') as [m1|]; [|done]. destruct (deref m1 p) as [e|]; [|done]. by destruct (_ =? 0).
  - intros e. apply wire_down_range.
  - intros a e. apply wire_down_view.
  - intros sub o e. unfold unwire_evs. destruct (_ =? 0); by destruct sub.
  - intros e hw a. exists (hw a). unfold unwire_evs. destruct (_ =? 0); cbn; by rewrite Z.land_diag.
  - intros e hw a Hc Ha. unfold unwire_evs. destruct (_ =? 0); cbn; by destruct user.
Qed.

Lemma vm_map_unwire_spec m s x user p e A B h : map_ok m -> map_ok (set_hint h m) -> m_entries m = A ++ (p, e) :: B -> vme_start e <= s < vme_end e ->
  exists m' kr, vm_map_unwire s x user p (set_hint h m) = Some (m', kr) /\ map_ok m' /\ m_lock m' = Unlocked /\ same_refs m m' /\
    match kr with
    | VM_SUCCESS => (forall a, view m' a = if in_range s x a then wire_down user <$> view m a else view m a) /\
        forall a, in_range s x a = true -> exists v, view m a = Some v /\ unwire_refuses user v = None
    | kr => kr = VM_INVALID_ARGUMENT /\ forall a, view m' a = view m a
    end.
Proof using.
  intros Hok Hokh Hl Hs. unfold vm_map_unwire. destruct (cut_split m s A p e B h Hok Hokh Hl Hs) as (A' & e' & new & -> & He' & Hcut).
  pose proof (cut_list_ok _ _ _ _ _ _ Hcut) as Hlok. set (B0 := (p, e') :: B) in *. change p with (first_ptr B0).
  assert ((length B0 + 1 < range_fuel (with_list (A' ++ B0) (new ++ m_log m) (set_hint h m)))%nat) as Hfuel by (unfold range_fuel; cbn; rewrite length_app; cbn; lia).
  rewrite (check_loop (set_hint h m) x _ (fun e B => if hole x e B then Some VM_INVALID_ARGUMENT else unwire_refuses user e)); [|by intros; apply unwire_check_eq|apply Hlok|lia].
  destruct (first_fail x _ B0) as [kr|] eqn:Ef.
  - destruct (cut_same_view _ _ _ _ _ _ Hcut) as [Hr Hv]. eexists _, kr. split; [done|]. split; [apply ok_set_lock, Hcut|]. split; [done|]. split; [exact Hr|].
    apply first_fail_Some in Ef as (B1 & q & y & B2 & _ & _ & Hk). assert (kr = VM_INVALID_ARGUMENT) as ->.
    { unfold unwire_refuses in Hk. destruct (hole x y B2); [congruence|]. destruct (_ || _); congruence. } by split.
  - destruct (unwire_loop (set_hint h m) x user B0 A' (new ++ m_log m) _ Hlok Hfuel) as (C & new2 & -> & HokC & Hup).
    destruct (cut_updated _ _ _ _ _ _ _ _ _ _ Hcut Hup HokC) as (Hok' & Hr & _ & Hv).
    eexists _, VM_SUCCESS. split; [done|]. split; [by apply ok_set_lock|]. split; [done|]. split; [exact Hr|]. split; [exact Hv|].
    intros a [Ha1%Z.leb_le Ha2%Z.ltb_lt]%andb_true_iff. destruct Hlok as [Hch _]. apply chain_app in Hch as (mid & _ & Hch).
    destruct (no_holes x (unwire_refuses user) B0 mid _ p e' B Hch eq_refl Ef ltac:(done) a ltac:(lia)) as (v & Hva & Hc). exists v. split; [|done].
    rewrite <- (cut_view _ _ _ _ _ _ Hcut), viewl_app, (viewl_ends_by s A'); [done|apply (cut_before _ _ _ _ _ _ Hcut)|done].
Qed.
End Unwire.

(** ** Wiring of a range

    The pass that makes objects, clips and counts, and the restoration of the
    counts where it fails. *)

(** What wiring may not change: everything but the object, its offset and the
    copy-on-write bit. *)
Definition attrs (v : vm_map_entry) : vm_map_entry := vme_set_needs_copy false (vme_set_object VM_OBJECT_NULL 0 v).

Definition viewa (l : list (Z * vm_map_entry)) (a : Z) : option vm_map_entry := attrs <$> viewl l a.

Lemma viewa_app A B a : viewa (A ++ B) a = match viewa A a with Some v => Some v | None => viewa B a end.
Proof. unfold viewa. rewrite viewl_app. by destruct (viewl A a). Qed.

Lemma viewa_cons p e l a : viewa ((p, e) :: l) a = if covers a e then Some (attrs (view_entry a e)) else viewa l a.
Proof. unfold viewa. cbn [viewl]. by destruct (covers a e). Qed.

Lemma viewa_none l a : viewa l a = None <-> viewl l a = None.
Proof. unfold viewa. by destruct (viewl l a). Qed.

(** The counts of a list of entries, up. *)
Definition wired (user : bool) (l : list (Z * vm_map_entry)) : list (Z * vm_map_entry) := map (fun x => (x.1, wire_up user x.2)) l.

Lemma wired_app user A B : wired user (A ++ B) = wired user A ++ wired user B.
Proof. apply map_app. Qed.

Lemma wired_ids user l : ids (wired user l) = ids l.
Proof. unfold wired. rewrite map_map. done. Qed.

Lemma wired_chain user lo hi l : chain lo hi (wired user l) <-> chain lo hi l.
Proof.
  revert lo. induction l as [|[p e] l IH]; intros lo; [done|]. destruct (wire_up_range user e) as (U1 & U2 & _). change (wired user ((p, e) :: l)) with ((p, wire_up user e) :: wired user l).
  cbn [chain]. by rewrite U1, U2, IH.
Qed.

Lemma wired_total user l : total (wired user l) = total l.
Proof.
  induction l as [|[p e] l IH]; [done|]. destruct (wire_up_range user e) as (U1 & U2 & _). change (wired user ((p, e) :: l)) with ((p, wire_up user e) :: wired user l).
  cbn [total]. by rewrite U1, U2, IH.
Qed.

Lemma wired_viewa user l a : viewa (wired user l) a = wire_up user <$> viewa l a.
Proof.
  induction l as [|[p e] l IH]; [done|]. change (wired user ((p, e) :: l)) with ((p, wire_up user e) :: wired user l). rewrite !viewa_cons, IH.
  destruct (wire_up_range user e) as (U1 & U2 & _). unfold covers. rewrite U1, U2. destruct (_ && _); [|done]. cbn. f_equal. by destruct user.
Qed.

(** Wiring does not change what is behind an address, nor its protection. *)
Definition behind (e : vm_map_entry) : Z * Z * bool * Z := (vme_object e, vme_offset e, vme_needs_copy e, vme_protection e).

Lemma wired_behind user l a : behind <$> viewl (wired user l) a = behind <$> viewl l a.
Proof.
  induction l as [|[p e] l IH]; [done|]. change (wired user ((p, e) :: l)) with ((p, wire_up user e) :: wired user l). cbn [viewl].
  destruct (wire_up_range user e) as (U1 & U2 & _). unfold covers. rewrite U1, U2. destruct (_ && _); [|done]. by destruct user.
Qed.

Lemma wired_list_ok user lo hi A V B : list_ok lo hi (A ++ wired user V ++ B) <-> list_ok lo hi (A ++ V ++ B).
Proof.
  unfold list_ok, no_dup. rewrite !ids_app, wired_ids. split; intros [Hc Hn]; (split; [|done]); apply chain_app in Hc as (m1 & C1 & C2); apply chain_app in C2 as (m2 & C2 & C3);
    apply chain_app; exists m1; (split; [done|]); apply chain_app; exists m2; (split; [|done]); by apply (wired_chain user).
Qed.

(** ** Undoing *)

Lemma wire_undo_spec s user m log : forall V A Z0 fuel, no_dup (A ++ wired user V ++ Z0) -> ends_by s A -> Forall (fun y => s < vme_end y.2 /\ counts_ok y.2) V -> (length V < fuel)%nat ->
  wire_undo fuel s user (last_ptr HEAD (A ++ wired user V)) (with_list (A ++ wired user V ++ Z0) log m) = Some (with_list (A ++ V ++ Z0) log m).
Proof.
  induction V as [|[p e] V IH] using rev_ind; intros A Z0 fuel Hnd HA HV Hf; (destruct fuel as [|fuel]; [lia|]); cbn [wire_undo].
  - cbn [wired map app]. rewrite app_nil_r. destruct (last_ptr_cases A) as [[-> ->]|(A' & q & y & -> & ->)]; [done|]. cbn [wired map app] in Hnd. rewrite <- app_assoc in *. cbn [app] in *.
    rewrite (at_ptr _ _ _ _ Hnd), at_deref by done. apply Forall_app in HA as [_ HA]. apply Forall_cons in HA as [HA _]. cbn in HA. by rewrite (proj2 (Z.ltb_ge _ _)) by done.
  - rewrite wired_app in *. cbn [wired map fst snd] in *. apply Forall_app in HV as [HV1 HV2]. apply Forall_cons in HV2 as [[HV2 HV3] _]. cbn [snd] in HV2, HV3.
    assert (A ++ (wired user V ++ [(p, wire_up user e)]) ++ Z0 = (A ++ wired user V) ++ (p, wire_up user e) :: Z0) as El by (by rewrite <- !app_assoc).
    change (map (fun x => (x.1, wire_up user x.2)) V) with (wired user V) in *. rewrite El in *. rewrite app_assoc, last_ptr_snoc. rewrite (at_ptr _ _ _ _ Hnd), at_deref by done.
    destruct (wire_up_range user e) as (_ & -> & _). rewrite (proj2 (Z.ltb_lt _ _)) by done. cbn [negb]. rewrite at_put, wire_down_up by done.
    assert (no_dup ((A ++ wired user V) ++ (p, e) :: Z0)) as Hnd2 by (by eapply no_dup_perm; [| |exact Hnd]). rewrite at_prev by done.
    rewrite <- (app_assoc A). rewrite IH; [by rewrite <- app_assoc|by rewrite app_assoc|done|done|rewrite length_app in Hf; cbn in Hf; lia].
Qed.

(** ** What is behind an address *)

(** The object and offset behind an address after calls that may make objects: the
    same; a new object, where there was none; or a shadow of the object, for a
    copy-on-write page that may be written, in which the page is a copy of the one
    there was. *)
Inductive backed (new : list vm_event) (v v' : vm_map_entry) : Prop :=
| Backed_same : vme_object v' = vme_object v -> vme_offset v' = vme_offset v -> vme_needs_copy v' = vme_needs_copy v -> backed new v v'
| Backed_new size : vme_object v = VM_OBJECT_NULL -> vme_object v' <> VM_OBJECT_NULL -> Ev_object_allocate (vme_object v') size ∈ new -> vme_needs_copy v' = vme_needs_copy v -> backed new v v'
| Backed_shadow offset length : vme_needs_copy v = true -> Z.land (vme_protection v) VM_PROT_WRITE <> 0 -> vme_needs_copy v' = false -> vme_object v' <> VM_OBJECT_NULL ->
    Ev_object_shadow (vme_object v) offset (vme_object v') length ∈ new -> (vme_object v <> VM_OBJECT_NULL -> vme_offset v = u32 (offset + vme_offset v')) -> backed new v v'.

Definition backed_opt (new : list vm_event) (v v' : option vm_map_entry) : Prop :=
  match v, v' with Some v, Some v' => backed new v v' | None, None => True | _, _ => False end.

Lemma backed_opt_refl new v : backed_opt new v v.
Proof. destruct v; [|done]. by apply Backed_same. Qed.

Lemma backed_mono new new' v v' : (forall ev, ev ∈ new -> ev ∈ new') -> backed new v v' -> backed new' v v'.
Proof. intros H. destruct 1; [by apply Backed_same|by eapply Backed_new; [| |apply H|]|by eapply Backed_shadow; [| | | |apply H|]]. Qed.

Lemma backed_opt_mono new new' v v' : (forall ev, ev ∈ new -> ev ∈ new') -> backed_opt new v v' -> backed_opt new' v v'.
Proof. intros H. destruct v, v'; try done. by apply backed_mono. Qed.

Lemma backed_opt_ext new v v1 v2 : behind <$> v2 = behind <$> v1 -> backed_opt new v v1 -> backed_opt new v v2.
Proof.
  destruct v1 as [v1|], v2 as [v2|]; try done. cbn. intros [= E1 E2 E3 _]. destruct v as [v|]; [|done]. cbn.
  destruct 1; [apply Backed_same|eapply Backed_new|eapply Backed_shadow]; rewrite ?E1, ?E2, ?E3; done.
Qed.

(** An entry that is wired has what a fault would make. *)
Definition made (e : vm_map_entry) : Prop := vme_object e <> VM_OBJECT_NULL /\ (vme_needs_copy e = true -> Z.land (vme_protection e) VM_PROT_WRITE = 0).

(** A count of 16 bits goes up: the wired count, or for users their count and with
    the first of them the wired count; all else but what is behind stays. *)
Record wired_once (user : bool) (v v' : vm_map_entry) : Prop := {
  wo_user : vme_user_wired_count v' = if user then (vme_user_wired_count v + 1) mod 2 ^ 16 else vme_user_wired_count v;
  wo_count : vme_wired_count v' = if user && negb (vme_user_wired_count v =? 0) then vme_wired_count v else (vme_wired_count v + 1) mod 2 ^ 16;
  wo_place : vme_start v' = vme_start v /\ vme_end v' = vme_end v /\ vme_is_sub_map v' = vme_is_sub_map v /\ vme_projected_on v' = vme_projected_on v;
  wo_protection : vme_protection v' = vme_protection v /\ vme_max_protection v' = vme_max_protection v;
  wo_flags : vme_is_shared v' = vme_is_shared v /\ vme_inheritance v' = vme_inheritance v
}.

Lemma wire_up_once user v v' : attrs v' = wire_up user (attrs v) -> wired_once user v v'.
Proof.
  intros H. pose proof (fun A (f : vm_map_entry -> A) => f_equal f H) as F. destruct user.
  - pose proof (F _ vme_wired_count) as Fw. cbn in Fw. constructor; [exact (F _ vme_user_wired_count)|rewrite Fw; cbn; by destruct (_ =? 0)| | |].
    + split; [exact (F _ vme_start)|]. split; [exact (F _ vme_end)|]. split; [exact (F _ vme_is_sub_map)|exact (F _ vme_projected_on)].
    + split; [exact (F _ vme_protection)|exact (F _ vme_max_protection)].
    + split; [exact (F _ vme_is_shared)|exact (F _ vme_inheritance)].
  - constructor; [exact (F _ vme_user_wired_count)|exact (F _ vme_wired_count)| | |].
    + split; [exact (F _ vme_start)|]. split; [exact (F _ vme_end)|]. split; [exact (F _ vme_is_sub_map)|exact (F _ vme_projected_on)].
    + split; [exact (F _ vme_protection)|exact (F _ vme_max_protection)].
    + split; [exact (F _ vme_is_shared)|exact (F _ vme_inheritance)].
Qed.

Section Wire.
Context {E : VmEnv}.

(** ** Objects *)

Definition make_shadow (e : vm_map_entry) (log : list vm_event) : vm_map_entry * list vm_event :=
  if vme_needs_copy e && negb (Z.land (vme_protection e) VM_PROT_WRITE =? 0) then
    (vme_set_needs_copy false (vme_set_object (new_object log) 0 e), Ev_object_shadow (vme_object e) (vme_offset e) (new_object log) (u32 (vme_end e - vme_start e)) :: log)
  else (e, log).

Definition make_object (e : vm_map_entry) (log : list vm_event) : vm_map_entry * list vm_event :=
  if vme_object e =? VM_OBJECT_NULL then (vme_set_object (new_object log) 0 e, Ev_object_allocate (new_object log) (u32 (vme_end e - vme_start e)) :: log) else (e, log).

Definition make (e : vm_map_entry) (log : list vm_event) : vm_map_entry * list vm_event :=
  if negb (vme_wired_count e =? 0) then (e, log) else make_object (make_shadow e log).1 (make_shadow e log).2.

Lemma wire_objects_eq A p e B log m : no_dup (A ++ (p, e) :: B) ->
  wire_objects p (with_list (A ++ (p, e) :: B) log m) = Some (with_list (A ++ (p, (make e log).1) :: B) (make e log).2 m).
Proof using.
  intros Hnd. unfold wire_objects, make, make_object, make_shadow. rewrite at_deref by done. destruct (negb (vme_wired_count e =? 0)); [done|].
  destruct (vme_needs_copy e && negb (Z.land (vme_protection e) VM_PROT_WRITE =? 0)); cbn [fst snd vm_object_shadow m_log with_list].
  - change (emit ?ev (with_list ?l ?g m)) with (with_list l (ev :: g) m). rewrite at_put by done. cbn [vme_object vme_set_needs_copy vme_set_object].
    rewrite (proj2 (Z.eqb_neq _ _) (new_object_valid log)). done.
  - destruct (vme_object e =? VM_OBJECT_NULL); [|done]. cbn [vm_object_allocate m_log with_list]. change (emit ?ev (with_list ?l ?g m)) with (with_list l (ev :: g) m). by rewrite at_put by done.
Qed.

Lemma make_same e log : let e' := (make e log).1 in vme_start e' = vme_start e /\ vme_end e' = vme_end e /\ (forall a, attrs (view_entry a e') = attrs (view_entry a e)) /\
  vme_protection e' = vme_protection e /\ (counts_ok e -> counts_ok e').
Proof using.
  unfold make, make_object, make_shadow. destruct (negb (vme_wired_count e =? 0)); [done|]. destruct (vme_needs_copy e && _); cbn [fst snd]; destruct (_ =? VM_OBJECT_NULL); done.
Qed.

Lemma make_backed e log : exists new, (make e log).2 = new ++ log /\ (forall a, backed new (view_entry a e) (view_entry a (make e log).1)) /\
  (vme_wired_count (make e log).1 = 0 -> made (make e log).1).
Proof using.
  unfold make. destruct (Z.eqb_spec (vme_wired_count e) 0) as [Ew|Ew]; cbn [negb]; [|exists []; split; [done|]; split; [intros a; by apply Backed_same|by intros ?]].
  unfold make_object, make_shadow, made. destruct (vme_needs_copy e) eqn:Ec; cbn [andb]; [destruct (Z.eqb_spec (Z.land (vme_protection e) VM_PROT_WRITE) 0) as [Ep|Ep]|]; cbn [negb fst snd].
  2:{ cbn [vme_object vme_set_needs_copy vme_set_object]. rewrite (proj2 (Z.eqb_neq _ _) (new_object_valid log)). cbn [fst snd]. eexists [_]. split; [done|]. split.
      - intros a. eapply Backed_shadow; [done|done|done|apply new_object_valid|left|]. cbn. intros Ho. rewrite (proj2 (Z.eqb_neq _ _) Ho), (proj2 (Z.eqb_neq _ _) (new_object_valid log)).
        unfold u32. by rewrite Zplus_mod_idemp_r.
      - intros _. split; [apply new_object_valid|done]. }
  all: destruct (Z.eqb_spec (vme_object e) VM_OBJECT_NULL) as [Eo|Eo]; cbn [fst snd]; [eexists [_]; split; [done|]; split|exists []; split; [done|]; split].
  all: try (intros a; by apply Backed_same).
  all: try (intros a; eapply Backed_new; [done|apply new_object_valid|left|done]).
  all: intros _; split; [apply new_object_valid || done|cbn; congruence || done].
Qed.

(** ** One entry *)

Variables (m : vm_map) (s x access : Z) (user : bool).
Hypothesis Hsx : s < x.

Definition passes (e : vm_map_entry) : bool := Z.land (vme_protection e) access =? access.

(** The entry [e] of the range becomes [F], before the range, [e3], and [R] after it. *)
Record wire_split (A : list (Z * vm_map_entry)) (p : Z) (e : vm_map_entry) (B F : list (Z * vm_map_entry)) (e3 : vm_map_entry) (R : list (Z * vm_map_entry)) (new : list vm_event) : Prop := {
  ws_ok : list_ok (m_min m) (m_max m) (A ++ F ++ (p, e3) :: R ++ B);
  ws_total : total (F ++ (p, e3) :: R) = vme_end e - vme_start e;
  ws_view : forall a, viewa (F ++ (p, e3) :: R ++ B) a = viewa ((p, e) :: B) a;
  ws_front : ends_by s F /\ (s <= vme_start e -> F = [] /\ vme_start e3 = vme_start e);
  ws_range : s <= vme_start e3 /\ s < vme_end e3 <= x /\ (vme_start e <= s -> vme_start e3 = s);
  ws_back : (R = [] /\ vme_end e3 = vme_end e) \/ (exists q y, R = [(q, y)] /\ vme_start y = x /\ vme_end e3 = x);
  ws_same : vme_protection e3 = vme_protection e /\ (counts_ok e -> counts_ok e3);
  ws_backed : forall a, backed_opt new (viewl ((p, e) :: B) a) (viewl (F ++ (p, e3) :: R ++ B) a);
  ws_rest : forall a, viewl F a = None -> covers a e3 = false -> viewl (R ++ B) a = viewl ((p, e) :: B) a;
  ws_made : vme_wired_count e3 = 0 -> made e3
}.

(** The clips and the objects. *)
Lemma wire_clips A p e B log : list_ok (m_min m) (m_max m) (A ++ (p, e) :: B) -> vme_start e < x -> s < vme_end e -> exists F e3 R new,
  (LET m' <- vm_map_clip_end p x (with_list (A ++ (p, e) :: B) log m) ;; LET m' <- wire_objects p m' ;; LET m' <- vm_map_clip_start p s m' ;; vm_map_clip_end p x m') =
    Some (with_list (A ++ F ++ (p, e3) :: R ++ B) (new ++ log) m) /\ wire_split A p e B F e3 R new.
Proof using Hsx.
  intros Hok Hlt Hse. pose proof Hok as [Hc Hnd]. pose proof Hc as Hc'. apply chain_mid in Hc' as (C1 & C2 & C3).
  assert (exists e1 R n1, vm_map_clip_end p x (with_list (A ++ (p, e) :: B) log m) = Some (with_list (A ++ (p, e1) :: R ++ B) (n1 ++ log) m) /\ list_ok (m_min m) (m_max m) (A ++ (p, e1) :: R ++ B) /\
    (forall a, viewl ((p, e1) :: R ++ B) a = viewl ((p, e) :: B) a) /\ vme_start e1 = vme_start e /\ vme_end e1 <= x /\ s < vme_end e1 /\ total ((p, e1) :: R) = vme_end e - vme_start e /\
    ((R = [] /\ vme_end e1 = vme_end e) \/ (exists q y, R = [(q, y)] /\ vme_start y = x /\ vme_end e1 = x)) /\ vme_protection e1 = vme_protection e /\ (counts_ok e -> counts_ok e1))
    as (e1 & R & n1 & Hclip & Hok1 & Hv1 & E1 & E2 & E3 & Ht1 & Hback & Hp1 & Hc1).
  { destruct (decide (x < vme_end e)) as [Hx|Hx].
    - destruct (list_ok_split _ _ _ _ _ _ x Hok ltac:(lia)) as [_ Hok2]. destruct (reference_log_new e log) as (n1 & En1 & _).
      eexists (front_part x e), [(_, back_part x e)], n1. split; [rewrite <- En1; by apply clip_end_spec|]. split; [exact Hok2|].
      split; [intros a; apply viewl_split; lia|]. cbn [front_part vme_set_range vme_start vme_end vme_protection total back_part]. split_and!; try done; try lia. right. by eexists _, _.
    - exists e, [], []. split; [apply clip_end_none; [done|lia]|]. cbn [app total]. split_and!; try done; try lia. by left. }
  rewrite Hclip, wire_objects_eq by apply Hok1. destruct (make_same e1 (n1 ++ log)) as (M1 & M2 & M3 & M4 & M5). destruct (make_backed e1 (n1 ++ log)) as (n2 & -> & Hback2 & Hmade).
  set (e2 := (make e1 (n1 ++ log)).1) in *.
  assert (forall a, covers a e2 = false -> viewl (R ++ B) a = viewl ((p, e) :: B) a) as Hrest.
  { intros a Ha. rewrite <- Hv1. cbn [viewl]. unfold covers in *. rewrite M1, M2 in Ha. by rewrite Ha. }
  assert (forall a, backed_opt n2 (viewl ((p, e) :: B) a) (viewl ((p, e2) :: R ++ B) a)) as Hbk.
  { intros a. rewrite <- Hv1. cbn [viewl]. unfold covers. rewrite M1, M2. destruct (_ && _); [apply Hback2|apply backed_opt_refl]. }
  assert (forall l ev, ev ∈ n2 -> ev ∈ (l ++ n2) ++ n1) as Hin2 by (intros l ev Hev; apply elem_of_app; left; apply elem_of_app; by right).
  assert (list_ok (m_min m) (m_max m) (A ++ (p, e2) :: R ++ B)) as Hok2 by (by eapply list_ok_change).
  assert (forall a, viewa ((p, e2) :: R ++ B) a = viewa ((p, e) :: B) a) as Hv2.
  { intros a. rewrite viewa_cons, M3. unfold covers. rewrite M1, M2. fold (covers a e1). rewrite <- (viewa_cons p). unfold viewa. by rewrite Hv1. }
  destruct (decide (vme_start e2 < s)) as [Hs|Hs].
  - destruct (list_ok_split _ _ _ _ _ _ s Hok2 ltac:(lia)) as [Hok3 _]. rewrite clip_start_spec by (apply Hok2 || done). set (q := fresh (A ++ (p, e2) :: R ++ B)) in *.
    assert (no_dup ((A ++ [(q, front_part s e2)]) ++ (p, back_part s e2) :: R ++ B)) as Hnd3 by (rewrite <- app_assoc; apply Hok3).
    destruct (reference_log_new e2 (n2 ++ n1 ++ log)) as (n3 & -> & _).
    pose proof (clip_end_none _ _ _ _ x (n3 ++ n2 ++ n1 ++ log) m Hnd3 ltac:(cbn; lia)) as Hce. rewrite <- app_assoc in Hce. cbn [app] in Hce. rewrite Hce.
    exists [(q, front_part s e2)], (back_part s e2), R, ((n3 ++ n2) ++ n1). split; [by rewrite <- !app_assoc|]. constructor; try done.
    + cbn [app total] in *. cbn. rewrite <- Ht1. cbn. lia.
    + intros a. rewrite <- Hv2. unfold viewa. f_equal. cbn [app]. apply viewl_split. lia.
    + split; [constructor; [cbn; lia|constructor]|]. lia.
    + cbn. lia.
    + cbn. rewrite M2. destruct Hback as [[-> ?]|(q' & y & -> & ? & ?)]; [by left|right; by eexists _, _].
    + split; [cbn; congruence|]. intros H. by apply M5, Hc1.
    + intros a. eapply backed_opt_mono; [apply Hin2|]. cbn [app]. rewrite (viewl_split s q p p e2 (R ++ B) a) by lia. apply Hbk.
    + intros a HF Hcov. apply Hrest. cbn [viewl] in HF. destruct (covers a (front_part s e2)) eqn:Ef; [done|]. apply covers_false in Ef, Hcov. cbn in Ef, Hcov. apply covers_false. lia.
  - rewrite clip_start_none by (apply Hok2 || lia). rewrite clip_end_none by (apply Hok2 || lia). exists [], e2, R, (([] ++ n2) ++ n1). split; [by rewrite <- !app_assoc|]. constructor; try done.
    + cbn [app total] in *. lia.
    + split; [constructor|]. intros _. split; [done|congruence].
    + lia.
    + rewrite M2. destruct Hback as [[-> ?]|(q' & y & -> & ? & ?)]; [by left|right; by eexists _, _].
    + split; [congruence|]. intros H. by apply M5, Hc1.
    + intros a. eapply backed_opt_mono; [apply Hin2|]. apply Hbk.
    + intros a _. apply Hrest.
Qed.

(** The body: the entries [V] of the range are wired already. *)
Lemma wire_body_step A V p e B log : list_ok (m_min m) (m_max m) (A ++ wired user V ++ (p, e) :: B) -> vme_start e < x -> s < vme_end e -> ends_by s A ->
  V = [] \/ s <= vme_start e -> Forall (fun y => s < vme_end y.2 /\ counts_ok y.2) V -> counts_ok e ->
  exists F e3 R new, wire_split (A ++ wired user V) p e B F e3 R new /\ (V = [] \/ F = []) /\
    wire_body s x access user p (with_list (A ++ wired user V ++ (p, e) :: B) log m) =
      Some (if hole x e3 (R ++ B) || negb (passes e3) then Leaves (map_unlock (with_list (A ++ F ++ V ++ (p, e3) :: R ++ B) (new ++ log) m)) VM_FAILURE
            else Goes_on (with_list (A ++ F ++ wired user (V ++ [(p, e3)]) ++ R ++ B) (new ++ log) m)).
Proof using Hsx.
  intros Hok Hlt Hse HA HVF HV Hce. rewrite app_assoc in Hok. destruct (wire_clips (A ++ wired user V) p e B log Hok Hlt Hse) as (F & e3 & R & new & Hclips & Hws).
  exists F, e3, R, new. split; [done|]. assert (V = [] \/ F = []) as HF by (destruct HVF as [->|Hge]; [by left|right; by apply (ws_front _ _ _ _ _ _ _ _ Hws)]). split; [done|].
  unfold wire_body. rewrite <- app_assoc in Hclips. destruct (vm_map_clip_end p x _) as [m1|]; [|done]. destruct (wire_objects p m1) as [m2|]; [|done]. destruct (vm_map_clip_start p s m2) as [m3|]; [|done]. rewrite Hclips.
  destruct (ws_ok _ _ _ _ _ _ _ _ Hws) as [Hch Hnd]. rewrite <- app_assoc in Hnd.
  assert (A ++ wired user V ++ F ++ (p, e3) :: R ++ B = (A ++ F ++ wired user V) ++ (p, e3) :: R ++ B) as El.
  { destruct HF as [-> | ->]; cbn [wired map app]; rewrite <- ?app_assoc; done. }
  rewrite El in *. rewrite <- app_assoc, El. rewrite at_deref, at_put by done.
  assert (no_dup ((A ++ F ++ wired user V) ++ (p, wire_up user e3) :: R ++ B)) as Hnd2 by (by eapply no_dup_perm; [| |exact Hnd]).
  rewrite at_deref, hole_after_eq by done. destruct (wire_up_range user e3) as (U1 & U2 & U3 & U4 & U5). unfold hole, passes. rewrite U2, U5. fold (hole x e3 (R ++ B)).
  assert ((A ++ F ++ wired user V) ++ (p, wire_up user e3) :: R ++ B = (A ++ F) ++ wired user (V ++ [(p, e3)]) ++ R ++ B) as El2 by (rewrite wired_app, <- !app_assoc; done).
  destruct (hole x e3 (R ++ B) || negb (Z.land (vme_protection e3) access =? access)); [|by rewrite El2, <- app_assoc].
  pose proof (wire_undo_spec s user m (new ++ log) (V ++ [(p, e3)]) (A ++ F) (R ++ B) (S (length (m_entries (with_list ((A ++ F ++ wired user V) ++ (p, wire_up user e3) :: R ++ B) (new ++ log) m))))) as Hun.
  assert (last_ptr HEAD ((A ++ F) ++ wired user (V ++ [(p, e3)])) = p) as Elp by (rewrite wired_app, app_assoc; apply last_ptr_snoc).
  rewrite Elp, <- El2 in Hun. rewrite Hun; [by rewrite <- !app_assoc|done| | |].
  - apply Forall_app. split; [done|apply (ws_front _ _ _ _ _ _ _ _ Hws)].
  - apply Forall_app. split; [done|]. constructor; [|constructor]. cbn. split; [apply (ws_range _ _ _ _ _ _ _ _ Hws)|by apply (ws_same _ _ _ _ _ _ _ _ Hws)].
  - cbn [m_entries with_list]. rewrite !length_app. cbn [length]. unfold wired. rewrite length_map. lia.
Qed.

(** ** The loop *)

Record wire_result (A V B F C1 C2 : list (Z * vm_map_entry)) (new : list vm_event) : Prop := {
  wr_ok : list_ok (m_min m) (m_max m) (A ++ F ++ V ++ C1 ++ C2);
  wr_total : total (F ++ C1 ++ C2) = total B;
  wr_ids : forall y, y ∈ ids B -> y ∈ ids (F ++ C1 ++ C2);
  wr_view : forall a, viewa (F ++ C1 ++ C2) a = viewa B a;
  wr_front : ends_by s F /\ (V = [] \/ F = []);
  wr_backed : forall a, backed_opt new (viewl B a) (viewl (F ++ C1 ++ C2) a)
}.

(** The addresses of the range from the first entry on are mapped and permit the access. *)
Definition all_pass (B C : list (Z * vm_map_entry)) : Prop :=
  match B with [] => True | (_, e) :: _ => forall a, s <= a -> vme_start e <= a < x -> exists v, viewl C a = Some v /\ passes v = true /\ (vme_wired_count v = 0 -> made v) end.

(** What stops the wiring of a range: an address that is not mapped, or an entry
    that does not permit the access. *)
Definition obstacle (B : list (Z * vm_map_entry)) : Prop :=
  (exists p e, (p, e) ∈ B /\ s <= vme_end e < x /\ viewl B (vme_end e) = None) \/ exists p e, (p, e) ∈ B /\ vme_start e < x /\ s < vme_end e /\ passes e = false.

Definition wire_post (A V B : list (Z * vm_map_entry)) (log : list vm_event) (r : progress) : Prop :=
  exists F C1 C2 new, wire_result A V B F C1 C2 new /\
    match r with
    | Goes_on m' => m' = with_list (A ++ F ++ wired user (V ++ C1) ++ C2) (new ++ log) m /\ ends_by x C1 /\ starts_from s C1 /\ starts_from x C2 /\ all_pass B (F ++ C1 ++ C2)
    | Leaves m' kr => kr = VM_FAILURE /\ m' = map_unlock (with_list (A ++ F ++ V ++ C1 ++ C2) (new ++ log) m) /\ obstacle B
    end.

Lemma obstacle_cons A p e B F e3 R new : list_ok (m_min m) (m_max m) (A ++ (p, e) :: B) -> wire_split A p e B F e3 R new -> obstacle (R ++ B) -> obstacle ((p, e) :: B).
Proof using.
  intros [Hc _] Hws. apply chain_mid in Hc as (_ & C2 & C3).
  assert (forall q y, (q, y) ∈ R ++ B -> vme_start y < x -> (q, y) ∈ B) as Hin.
  { intros q y Hq Hy. apply elem_of_app in Hq as [Hq|]; [|done]. destruct (ws_back _ _ _ _ _ _ _ _ Hws) as [[-> _]|(r & z & -> & Hz & _)]; [by apply not_elem_of_nil in Hq|]. apply list_elem_of_singleton in Hq as [= -> ->]. lia. }
  assert (forall q y, (q, y) ∈ B -> vme_end e <= vme_start y <= vme_end y) as Hord.
  { intros q y Hq. apply chain_Forall in C3. rewrite Forall_forall in C3. specialize (C3 _ Hq). cbn in C3. lia. }
  intros [(q & y & Hq & Hy & Hv)|(q & y & Hq & H1 & H2 & H3)].
  - left. assert ((q, y) ∈ B) as HqB.
    { apply Hin; [done|]. apply elem_of_app in Hq as [Hq|Hq]; [|apply Hord in Hq; lia]. destruct (ws_ok _ _ _ _ _ _ _ _ Hws) as [Ho _]. apply chain_Forall in Ho. rewrite Forall_forall in Ho.
      specialize (Ho (q, y)). cbn in Ho. assert (vme_start y <= vme_end y) by (apply Ho; rewrite !elem_of_app, elem_of_cons, elem_of_app; auto). lia. }
    exists q, y. split; [by right|]. split; [done|]. pose proof (Hord _ _ HqB). cbn [viewl]. rewrite (proj2 (covers_false _ _)) by lia. rewrite viewl_app in Hv. by destruct (viewl R (vme_end y)).
  - right. exists q, y. split; [right; by apply Hin|done].
Qed.

(** The entry at which the first pass stops. *)
Lemma obstacle_here A p e B F e3 R new : list_ok (m_min m) (m_max m) (A ++ (p, e) :: B) -> wire_split A p e B F e3 R new -> vme_start e < x -> s < vme_end e ->
  hole x e3 (R ++ B) || negb (passes e3) = true -> obstacle ((p, e) :: B).
Proof using.
  intros [Hc _] Hws Hlt Hse Hbad. apply chain_mid in Hc as (_ & C2 & C3). apply orb_true_iff in Hbad as [Hh|Hp%negb_true_iff].
  - left. unfold hole in Hh. apply andb_true_iff in Hh as [H1%Z.ltb_lt H2]. destruct (ws_back _ _ _ _ _ _ _ _ Hws) as [[-> He]|(q & y & -> & _ & He)]; [|lia]. rewrite He in *. cbn [app] in H2.
    exists p, e. split; [left|]. split; [lia|]. cbn [viewl]. rewrite (proj2 (covers_false _ _)) by lia. destruct B as [|[q n] B]; [done|]. apply Z.ltb_lt in H2.
    apply (viewl_below (vme_start n) (m_max m)); [|done]. cbn [chain] in *. split; [lia|]. by destruct C3 as (_ & ? & ?).
  - right. exists p, e. split; [left|]. split; [done|]. split; [done|]. unfold passes in *. by rewrite <- (proj1 (ws_same _ _ _ _ _ _ _ _ Hws)).
Qed.

Lemma ws_total_B A p e B F e3 R new : wire_split A p e B F e3 R new -> total (F ++ (p, e3) :: R ++ B) = total ((p, e) :: B).
Proof using. intros H. pose proof (ws_total _ _ _ _ _ _ _ _ H) as Ht. rewrite !total_app in *. cbn [total] in *. rewrite total_app. lia. Qed.

(** The list ends, or the range does. *)
Lemma wire_stop A V B log fuel : list_ok (m_min m) (m_max m) (A ++ wired user V ++ B) -> starts_from x B ->
  exists r, while_range (S fuel) x (wire_body s x access user) (first_ptr B) (with_list (A ++ wired user V ++ B) log m) = Some r /\ wire_post A V B log r.
Proof using Hsx.
  intros Hok HB. exists (Goes_on (with_list (A ++ wired user V ++ B) log m)). split.
  - cbn [while_range]. destruct B as [|[p e] B]; [done|]. cbn [first_ptr]. destruct Hok as [_ Hnd]. rewrite app_assoc in *. apply Forall_cons in HB as [HB _]. cbn in HB.
    rewrite (at_ptr _ _ _ _ Hnd), at_deref by done. by rewrite (proj2 (Z.ltb_ge _ _)) by done.
  - exists [], [], B, []. split; [constructor; try done; [exact (proj1 (wired_list_ok user _ _ A V B) Hok)|split; [constructor|by right]|intros a; apply backed_opt_refl]|]. split; [by rewrite app_nil_r|]. repeat split; try done; [constructor|constructor|].
    destruct B as [|[p e] B]; [done|]. intros a _ Ha. apply Forall_cons in HB as [HB _]. cbn in HB. lia.
Qed.

(** One entry that is wired, and the rest. *)
Lemma wire_cons A V p e B F e3 R new log m' : list_ok (m_min m) (m_max m) (A ++ wired user V ++ (p, e) :: B) -> wire_split (A ++ wired user V) p e B F e3 R new -> V = [] \/ F = [] ->
  hole x e3 (R ++ B) = false -> passes e3 = true -> wire_post (A ++ F) (V ++ [(p, e3)]) (R ++ B) (new ++ log) m' -> wire_post A V ((p, e) :: B) log m'.
Proof using Hsx.
  intros Hok Hws HF Hh Hp (F' & C1 & C2 & new2 & [Wo Wt Wi Wv [_ Wf] Wb] & Hr). pose proof (fun H => obstacle_cons _ _ _ _ _ _ _ _ H Hws) as Hobs. rewrite <- app_assoc in Hobs. specialize (Hobs Hok). assert (F' = []) as -> by (destruct Wf as [Wf|]; [by destruct V|done]). cbn [app] in *.
  destruct Hws as [So St Sv Sf Sr Sb Ss Sk Se Sm]. exists F, ((p, e3) :: C1), C2, (new2 ++ new).
  assert (forall a, viewl (F ++ (p, e3) :: C1 ++ C2) a = match viewl F a with Some v => Some v | None => if covers a e3 then Some (view_entry a e3) else viewl (C1 ++ C2) a end) as Hvl by (intros a; by rewrite viewl_app).
  split.
  - constructor; [by rewrite <- !app_assoc in Wo| | | | |].
    + cbn [app]. rewrite total_app. cbn [total]. rewrite Wt. rewrite !total_app in *. cbn [total] in *. lia.
    + intros y. rewrite !ids_app. cbn [map fst app]. rewrite <- ids_app. intros Hy. apply elem_of_cons in Hy as [->|Hy]; [set_solver|]. apply elem_of_app. right. apply elem_of_cons. right. apply Wi. rewrite ids_app. set_solver.
    + intros a. rewrite <- Sv. cbn [app]. rewrite !viewa_app, !viewa_cons, Wv. done.
    + split; [apply Sf|done].
    + intros a. cbn [app]. rewrite Hvl. specialize (Sk a). specialize (Se a). rewrite viewl_app in Sk. destruct (viewl F a) as [v|]; [eapply backed_opt_mono; [|exact Sk]; set_solver|].
      cbn [viewl] in Sk. destruct (covers a e3); [eapply backed_opt_mono; [|exact Sk]; set_solver|]. rewrite <- Se by done. eapply backed_opt_mono; [|apply Wb]. set_solver.
  - destruct m' as [m'|m' kr]; [|destruct Hr as (-> & -> & Ho); split; [done|]; split; [by rewrite <- !app_assoc|by apply Hobs]].
    destruct Hr as (-> & R1 & R2 & R3 & R4). split; [by rewrite <- !app_assoc|]. split; [constructor; [cbn; lia|done]|]. split; [constructor; [apply Sr|done]|]. split; [done|].
    cbn [all_pass app]. intros a Has Ha. rewrite Hvl. rewrite (viewl_ends_by s F) by (apply Sf || done).
    destruct (covers a e3) eqn:Ec; [exists (view_entry a e3); split; [done|]; split; [exact Hp|exact Sm]|]. apply covers_false in Ec.
    assert (vme_start e3 <= a) as Hsa by (destruct (Z.le_gt_cases s (vme_start e)); [destruct Sf as [_ Sf]; destruct (Sf ltac:(lia)) as [_ ->]; lia|rewrite (proj2 (proj2 Sr)) by lia; lia]).
    unfold hole in Hh. rewrite (proj2 (Z.ltb_lt _ _)) in Hh by lia. cbn [andb] in Hh. destruct (R ++ B) as [|[q n] l] eqn:El; [done|]. apply Z.ltb_ge in Hh. cbn [all_pass] in R4. apply R4; lia.
Qed.

Lemma wire_loop : forall B A V log fuel, list_ok (m_min m) (m_max m) (A ++ wired user V ++ B) -> ends_by s A -> V = [] \/ starts_from s B ->
  Forall (fun y => s < vme_end y.2 /\ counts_ok y.2) V -> Forall (fun y => s < vme_end y.2 /\ counts_ok y.2) B -> (length B + 1 < fuel)%nat ->
  exists r, while_range fuel x (wire_body s x access user) (first_ptr B) (with_list (A ++ wired user V ++ B) log m) = Some r /\ wire_post A V B log r.
Proof using Hsx.
  induction B as [|[p e] B IH]; intros A V log fuel Hok HA HVB HV HB Hf; (destruct fuel as [|fuel]; [lia|]); [apply wire_stop; [done|constructor]|].
  pose proof Hok as [Hc Hnd]. rewrite app_assoc in Hc, Hnd. apply chain_mid in Hc as (C1 & C2 & C3). destruct (Z.lt_ge_cases (vme_start e) x) as [Hlt|Hge].
  2:{ apply wire_stop; [done|]. constructor; [done|]. eapply Forall_impl; [apply (chain_starts_from _ _ _ C3)|]. cbn. intros ? ?. lia. }
  apply Forall_cons in HB as [[HB1 HB2] HB3]. cbn [snd] in HB1, HB2.
  destruct (wire_body_step A V p e B log Hok Hlt HB1 HA) as (F & e3 & R & new & Hws & HF & Hbody); [destruct HVB as [|HVB]; [by left|right; apply Forall_cons in HVB as [HVB _]; done]|done|done|].
  pose proof (at_deref _ _ _ _ log m Hnd) as Hd. rewrite <- app_assoc in Hd.
  cbn [first_ptr while_range]. rewrite (at_ptr _ _ _ _ Hnd), Hd. rewrite (proj2 (Z.ltb_lt _ _) Hlt). cbn [negb]. rewrite Hbody.
  destruct (hole x e3 (R ++ B) || negb (passes e3)) eqn:Ebad.
  - eexists. split; [done|]. exists F, [], ((p, e3) :: R ++ B), new. split; [|split; [done|split; [done|]]; rewrite app_assoc in Hok; by eapply obstacle_here]. constructor; [|by apply (ws_total_B _ _ _ _ _ _ _ _ Hws)| | | |].
    + pose proof (ws_ok _ _ _ _ _ _ _ _ Hws) as Ho. rewrite <- app_assoc in Ho. cbn [app]. destruct HF as [-> | ->]; cbn [wired map app] in *; [done|]. by apply (wired_list_ok user).
    + intros y. rewrite !ids_app. cbn [map fst app]. rewrite ids_app. set_solver.
    + apply (ws_view _ _ _ _ _ _ _ _ Hws).
    + split; [apply (ws_front _ _ _ _ _ _ _ _ Hws)|done].
    + apply (ws_backed _ _ _ _ _ _ _ _ Hws).
  - apply orb_false_iff in Ebad as [Eh Ep%negb_false_iff].
    assert (list_ok (m_min m) (m_max m) ((A ++ F) ++ wired user (V ++ [(p, e3)]) ++ R ++ B)) as Hok2.
    { pose proof (ws_ok _ _ _ _ _ _ _ _ Hws) as Ho. rewrite <- app_assoc in Ho. apply wired_list_ok. rewrite <- !app_assoc. cbn [app]. destruct HF as [-> | ->]; cbn [wired map app] in *; [done|]. by apply (wired_list_ok user). }
    assert (vme_next (with_list (A ++ F ++ wired user (V ++ [(p, e3)]) ++ R ++ B) (new ++ log) m) p = Some (first_ptr (R ++ B))) as ->.
    { destruct Hok2 as [_ Hn2]. rewrite wired_app in *. cbn [wired map fst snd] in *. rewrite <- !app_assoc in Hn2. cbn [app] in Hn2. rewrite <- !app_assoc. cbn [app]. rewrite !app_assoc in *. by apply at_next. }
    assert (Forall (fun y => s < vme_end y.2 /\ counts_ok y.2) (V ++ [(p, e3)])) as HV2.
    { apply Forall_app. split; [done|]. constructor; [|constructor]. split; [apply (ws_range _ _ _ _ _ _ _ _ Hws)|by apply (ws_same _ _ _ _ _ _ _ _ Hws)]. }
    assert (exists r, while_range fuel x (wire_body s x access user) (first_ptr (R ++ B)) (with_list ((A ++ F) ++ wired user (V ++ [(p, e3)]) ++ R ++ B) (new ++ log) m) = Some r /\ wire_post (A ++ F) (V ++ [(p, e3)]) (R ++ B) (new ++ log) r) as (r & Hr & Hpost).
    { destruct (ws_back _ _ _ _ _ _ _ _ Hws) as [[-> He]|(q & y & -> & Hy & He)].
      - cbn [app] in *. apply IH; [done|apply Forall_app; split; [done|apply (ws_front _ _ _ _ _ _ _ _ Hws)]|right|done|done|cbn in Hf; lia].
        eapply Forall_impl; [apply (chain_starts_from _ _ _ C3)|]. cbn. intros ? ?. lia.
      - destruct fuel as [|fuel]; [cbn in Hf; lia|]. apply wire_stop; [done|]. pose proof (ws_ok _ _ _ _ _ _ _ _ Hws) as [Ho _]. rewrite app_assoc in Ho. apply chain_mid in Ho as (_ & _ & Ho). rewrite He in Ho. by eapply chain_starts_from. }
    rewrite <- app_assoc in Hr. exists r. split; [done|]. by eapply wire_cons.
Qed.
End Wire.

(** ** The theorems on wiring *)

Section Wire.
Context {E : VmEnv}.

(** The second pass only makes the pages resident. *)
Lemma fault_loop m x : forall B A log fuel, no_dup (A ++ B) -> (length B < fuel)%nat ->
  exists new, while_range fuel x fault_body (first_ptr B) (with_list (A ++ B) log m) = Some (Goes_on (with_list (A ++ B) (new ++ log) m)).
Proof using.
  induction B as [|[p e] B IH]; intros A log fuel Hnd Hf; (destruct fuel as [|fuel]; [cbn in Hf; lia|]); cbn [first_ptr while_range]; [by exists []|].
  rewrite (at_ptr _ _ _ _ Hnd), at_deref by done. destruct (vme_start e <? x); cbn [negb]; [|by exists []]. unfold fault_body. rewrite at_deref by done.
  assert (exists new, (if (vme_wired_count e =? 1) && (vme_user_wired_count e <=? 1) then emit (Ev_fault_wire (vme_start e) (vme_end e)) (with_list (A ++ (p, e) :: B) log m)
    else with_list (A ++ (p, e) :: B) log m) = with_list (A ++ (p, e) :: B) (new ++ log) m) as [new ->] by (destruct (_ && _); [by eexists [_]|by exists []]).
  rewrite at_next by done. destruct (IH (A ++ [(p, e)]) (new ++ log) fuel) as [new2 Hw]; [by rewrite <- app_assoc|cbn in Hf; lia|].
  rewrite <- !app_assoc in Hw. cbn [app] in Hw. exists (new2 ++ new). by rewrite <- app_assoc.
Qed.

Lemma fault_pass m x l log p : no_dup l -> p ∈ ids l ->
  exists new, while_range (range_fuel (with_list l log m)) x fault_body p (with_list l log m) = Some (Goes_on (with_list l (new ++ log) m)).
Proof using.
  intros Hnd (A & e & B & ->)%in_split_ptr. apply (fault_loop m x ((p, e) :: B) A); [done|]. unfold range_fuel. cbn [m_entries with_list]. rewrite length_app. lia.
Qed.

(** The lists of the first pass, in the map. *)
Lemma wire_pass_ok m s user A p e B F C1 C2 new h log : map_ok m -> map_ok (set_hint h m) -> m_entries m = A ++ (p, e) :: B -> ends_by s A -> wire_result (set_hint h m) s A [] ((p, e) :: B) F C1 C2 new ->
  (forall V, V = wired user C1 \/ V = C1 -> map_ok (with_list (A ++ F ++ V ++ C2) log (set_hint h m)) /\ p ∈ ids (A ++ F ++ V ++ C2)) /\
  (forall a, viewa (A ++ F ++ C1 ++ C2) a = attrs <$> view m a) /\
  (forall V a, V = wired user C1 \/ V = C1 -> backed_opt new (view m a) (viewl (A ++ F ++ V ++ C2) a)).
Proof using.
  intros Hok Hokh Hl HA [Wo Wt Wi Wv _ Wb]. cbn [app] in Wo. split; [|split].
  - intros V HV. assert (list_ok (m_min m) (m_max m) (A ++ F ++ V ++ C2) /\ total V = total C1 /\ ids V = ids C1) as (Hlok & Ht & Hi).
    { destruct HV as [-> | ->]; [|done]. split; [|split; [apply wired_total|apply wired_ids]]. rewrite app_assoc. apply wired_list_ok. by rewrite <- app_assoc. }
    assert (forall y, y ∈ ids (m_entries m) -> y ∈ ids (A ++ F ++ V ++ C2)) as Hids.
    { intros y. rewrite Hl, !ids_app, Hi. rewrite !ids_app in Wi. intros Hy. apply elem_of_app in Hy as [Hy|Hy]; [set_solver|]. apply elem_of_app. right. by apply Wi. }
    split; [|apply Hids; rewrite Hl, ids_app; set_solver]. apply ok_new_list; [done|done| |done]. cbn [m_entries set_hint]. rewrite Hl, !total_app, Ht. rewrite !total_app in Wt. lia.
  - intros a. rewrite viewa_app, Wv. unfold view. rewrite Hl. rewrite <- viewa_app. done.
  - intros V a HV. assert (backed_opt new (view m a) (viewl (A ++ F ++ C1 ++ C2) a)) as Hb.
    { unfold view. rewrite Hl, !(viewl_app A). destruct (viewl A a); [apply backed_opt_refl|apply Wb]. }
    destruct HV as [-> | ->]; [|done]. eapply backed_opt_ext; [|exact Hb]. rewrite !viewl_app. destruct (viewl A a), (viewl F a); try done. pose proof (wired_behind user C1 a) as Hw.
    destruct (viewl C1 a), (viewl (wired user C1) a); done.
Qed.

Lemma viewa_wired_range A F C1 C2 s x user a : ends_by s A -> ends_by s F -> ends_by x C1 -> starts_from s C1 -> starts_from x C2 -> s < x ->
  viewa (A ++ F ++ wired user C1 ++ C2) a = if in_range s x a then wire_up user <$> viewa (A ++ F ++ C1 ++ C2) a else viewa (A ++ F ++ C1 ++ C2) a.
Proof using.
  intros HA HF H1 H2 H3 Hsx. rewrite !viewa_app, wired_viewa. unfold in_range. destruct (Z.leb_spec s a); cbn [andb].
  - rewrite (proj2 (viewa_none A a)), (proj2 (viewa_none F a)) by (by apply (viewl_ends_by s)). destruct (Z.ltb_spec a x).
    + destruct (viewa C1 a); [done|]. by rewrite (proj2 (viewa_none C2 a)) by (by apply (viewl_starts_from x)).
    + by rewrite (proj2 (viewa_none C1 a)) by (by apply (viewl_ends_by x)).
  - by rewrite (proj2 (viewa_none C1 a)) by (by apply (viewl_starts_from s)).
Qed.

(** What wiring the range from [s] to [x] makes of what an address is mapped to. *)
Definition wired_at (s x access : Z) (user : bool) (a : Z) (v v' : option vm_map_entry) : Prop :=
  match v, v' with
  | Some v, Some v' =>
      if in_range s x a then wired_once user v v' /\ Z.land (vme_protection v) access = access /\ (vme_wired_count v = 0 -> made v')
      else attrs v' = attrs v
  | None, None => in_range s x a = false
  | _, _ => False
  end.

(** The objects behind the wired addresses are those that were made. *)
Lemma wired_made A F C1 C2 s x user a v v' : ends_by s A -> ends_by s F -> starts_from x C2 -> in_range s x a = true ->
  viewl (F ++ C1 ++ C2) a = Some v -> (vme_wired_count v = 0 -> made v) -> viewl (A ++ F ++ wired user C1 ++ C2) a = Some v' -> vme_wired_count v = 0 -> made v'.
Proof using.
  intros HA HF HC [Ha1%Z.leb_le Ha2%Z.ltb_lt]%andb_true_iff. rewrite !viewl_app, (viewl_ends_by s A), (viewl_ends_by s F) by done. rewrite (viewl_starts_from x C2) by done.
  pose proof (wired_behind user C1 a) as Hw. destruct (viewl C1 a) as [w|]; [|done]. destruct (viewl (wired user C1) a) as [w'|]; [|done]. cbn in Hw. injection Hw as E1 E2 E3 E4. intros [= ->] Hm [= ->] H0.
  destruct (Hm H0) as [M1 M2]. unfold made. rewrite E1, E3, E4. by split.
Qed.

Lemma vm_map_wire_spec m s x access user p e A B h : map_ok m -> map_ok (set_hint h m) -> Forall (fun y => counts_ok y.2) (m_entries m) ->
  m_entries m = A ++ (p, e) :: B -> vme_start e <= s < vme_end e -> s < x ->
  exists m' kr new, vm_map_wire s x access user p (set_hint h m) = Some (m', kr) /\ map_ok m' /\ m_lock m' = Unlocked /\ m_log m' = new ++ m_log m /\
    (forall a, backed_opt new (view m a) (view m' a)) /\
    match kr with
    | VM_SUCCESS => forall a, wired_at s x access user a (view m a) (view m' a)
    | kr => kr = VM_FAILURE /\ (forall a, attrs <$> view m' a = attrs <$> view m a) /\
        ((exists a, in_range s x a = true /\ view m a = None) \/ exists p e, (p, e) ∈ m_entries m /\ vme_start e < x /\ s < vme_end e /\ Z.land (vme_protection e) access <> access)
    end.
Proof using.
  intros Hok Hokh Hcnt Hl Hs Hsx. unfold vm_map_wire. pose proof (ok_with_list (set_hint h m) (ok_nentries _ Hokh)) as Hm. cbn [m_entries set_hint m_log] in Hm. rewrite Hl in Hm.
  destruct (ok_list _ Hok) as [Hc Hnd]. rewrite Hl in Hc, Hnd, Hcnt. pose proof Hc as Hc'. apply chain_mid in Hc' as (C1' & C2' & C3').
  assert (ends_by s A) as HA by (eapply Forall_impl; [apply (chain_ends_by _ _ _ C1')|]; cbn; intros ? ?; lia). apply Forall_app in Hcnt as [_ Hcnt].
  destruct (wire_loop (set_hint h m) s x access user Hsx ((p, e) :: B) A [] (m_log m) (S (range_fuel (set_hint h m)))) as (r & Hr & F & C1 & C2 & new & Hwr & Hpost); [done|done|by left|constructor| |unfold range_fuel; cbn; rewrite Hl, length_app; cbn; lia|].
  { apply Forall_cons in Hcnt as [Hc1 Hc2]. constructor; [cbn in *; split; [lia|done]|]. pose proof (chain_Forall _ _ _ C3') as Hf. rewrite Forall_forall in Hf, Hc2 |- *. intros y Hy. specialize (Hf y Hy). split; [lia|by apply Hc2]. }
  cbn [first_ptr app wired map] in Hr. rewrite <- Hm in Hr. rewrite Hr. destruct (wire_pass_ok m s user A p e B F C1 C2 new h (new ++ m_log m) Hok Hokh Hl HA Hwr) as (Hres & Hview & Hbk).
  destruct r as [m1|m1 kr].
  - destruct Hpost as (-> & P1 & P2 & P3 & P4). cbn [app] in *. set (L := A ++ F ++ wired user C1 ++ C2) in *. destruct (Hres (wired user C1) (or_introl eq_refl)) as [Hok1 Hin]. fold L in Hok1, Hin.
    assert (forall t k, exists new2, while_range (range_fuel (set_lock t k (with_list L (new ++ m_log m) (set_hint h m)))) x fault_body p (set_lock t k (with_list L (new ++ m_log m) (set_hint h m))) =
      Some (Goes_on (set_lock t k (with_list L (new2 ++ new ++ m_log m) (set_hint h m))))) as Hfault.
    { intros t k. apply (fault_pass (set_lock t k (set_hint h m)) x L (new ++ m_log m) p); [apply (ok_list _ Hok1)|done]. }
    assert (forall log, map_ok (with_list L log (set_hint h m))) as Hokl.
    { intros log. destruct Hok1 as [? ? ? ? ? ?]. by constructor. }
    assert (forall a, wired_at s x access user a (view m a) (viewl L a)) as Hv2.
    { intros a. pose proof (viewa_wired_range A F C1 C2 s x user a HA (proj1 (wr_front _ _ _ _ _ _ _ _ _ Hwr)) P1 P2 P3 Hsx) as Hvr. fold L in Hvr. pose proof (Hview a) as Hva. rewrite Hva in Hvr.
      unfold viewa in Hvr. assert (in_range s x a = true -> exists w, viewl (F ++ C1 ++ C2) a = Some w /\ passes access w = true /\ (vme_wired_count w = 0 -> made w)) as Hin4.
      { intros [Ha1%Z.leb_le Ha2%Z.ltb_lt]%andb_true_iff. apply P4; lia. }
      unfold wired_at. destruct (in_range s x a) eqn:Er.
      - destruct (Hin4 eq_refl) as (w & Hw & Hpw & Hmw). unfold viewa in Hva. rewrite viewl_app, (viewl_ends_by s A), Hw in Hva by (done || (apply andb_true_iff in Er as [?%Z.leb_le _]; done)).
        destruct (view m a) as [v|]; [|done]. apply (inj Some) in Hva. destruct (viewl L a) as [v'|] eqn:Ev'; [|done]. cbn [fmap option_fmap option_map] in Hvr. apply (inj Some) in Hvr.
        split; [by apply wire_up_once|]. pose proof (f_equal vme_protection Hva) as Hp1. pose proof (f_equal vme_wired_count Hva) as Hp2. cbn in Hp1, Hp2.
        split; [rewrite <- Hp1; by apply Z.eqb_eq|]. rewrite <- Hp2. eapply (wired_made A F C1 C2 s x user a w v'); try done. apply (wr_front _ _ _ _ _ _ _ _ _ Hwr).
      - destruct (view m a) as [v|], (viewl L a) as [v'|]; try done. by apply (inj Some) in Hvr. }
    unfold map_unlock, map_write_to_read, map_lock_write. destruct is_kernel_pmap; (edestruct Hfault as [new2 Hw]; rewrite Hw; eexists _, VM_SUCCESS, (new2 ++ new); split; [done|]; split; [repeat apply ok_set_lock; apply Hokl|]; split; [done|];
      split; [cbn; by rewrite app_assoc|]; split; [intros a; eapply backed_opt_mono; [|apply (Hbk (wired user C1) a); by left]; set_solver|exact Hv2]).
  - destruct Hpost as (-> & -> & Hobs). cbn [app]. destruct (Hres C1 (or_intror eq_refl)) as [Hok1 _]. eexists _, VM_FAILURE, new. split; [done|]. split; [by apply ok_set_lock|]. split; [done|]. split; [done|].
    split; [intros a; apply (Hbk C1 a); by right|]. split; [done|]. split; [exact Hview|]. destruct Hobs as [(q & y & Hq & Hy & Hv)|(q & y & Hq & Hy & Hsy & Hp)].
    + left. exists (vme_end y). split; [apply andb_true_iff; split; [apply Z.leb_le|apply Z.ltb_lt]; lia|]. unfold view. rewrite Hl, viewl_app, (viewl_ends_by s A) by (done || lia). exact Hv.
    + right. exists q, y. split; [rewrite Hl; set_solver|]. split; [done|]. split; [done|]. by apply Z.eqb_neq.
Qed.

(** C13: [vm_map_pageable_common] with an access type wires a range that is not
    empty.  If it succeeds, every address of the range is mapped and permits the
    access; its wired count is one more, modulo 2^16 (for a user the user count,
    and with the first user the wired count), and if it was not wired it now has an
    object, which is no more copy-on-write if it may be written; all else about it,
    and the other addresses, stay.  If it fails, an address of the range is not
    mapped or an entry in the range does not permit the access, and every count is
    as it was.  In both cases what is behind an address is the same, a new object
    where there was none, or the same page of a shadow; and the map is unlocked and
    well formed. *)
Theorem vm_map_pageable_wires m start end_ access user : map_ok m -> Forall (fun y => counts_ok y.2) (m_entries m) -> access <> VM_PROT_NONE ->
  let '(s, x) := range_check m start end_ in s < x ->
  exists m' kr new, vm_map_pageable_common start end_ access user m = Some (m', kr) /\ map_ok m' /\ m_lock m' = Unlocked /\ m_log m' = new ++ m_log m /\
    (forall a, backed_opt new (view m a) (view m' a)) /\
    match kr with
    | VM_SUCCESS => forall a, wired_at s x access user a (view m a) (view m' a)
    | kr => kr = VM_FAILURE /\ (forall a, attrs <$> view m' a = attrs <$> view m a) /\
        ((exists a, in_range s x a = true /\ view m a = None) \/ exists p e, (p, e) ∈ m_entries m /\ vme_start e < x /\ s < vme_end e /\ Z.land (vme_protection e) access <> access)
    end.
Proof using.
  intros Hok Hcnt Hacc. unfold vm_map_pageable_common. change (range_check (map_lock_write m) start end_) with (range_check m start end_). destruct (range_check m start end_) as [s x]. intros Hsx.
  set (m1 := map_lock_write m). assert (map_ok m1) as Hok1 by (by apply ok_set_lock).
  destruct (lookup_located m1 s Hok1) as (h & p & found & -> & Hokh & Hloc). inversion Hloc as [A p' e B Hl Hx Hp|A B Hl HA HB Hp]; subst; cbn [negb].
  - rewrite (proj2 (Z.eqb_neq _ _) Hacc). apply (vm_map_wire_spec m1 s x access user p e A B h Hok1 Hokh Hcnt Hl Hx Hsx).
  - eexists _, VM_FAILURE, []. split; [done|]. split; [by apply ok_set_lock|]. split; [done|]. split; [done|]. split; [intros a; apply backed_opt_refl|]. split; [done|]. split; [done|]. left. exists s.
    split; [apply andb_true_iff; split; [apply Z.leb_le; lia|by apply Z.ltb_lt]|]. unfold view. change (m_entries m) with (m_entries m1). rewrite Hl, viewl_app, (viewl_ends_by s A) by (done || lia).
    apply (viewl_starts_from (s + 1)); [|lia]. eapply Forall_impl; [exact HB|]. cbn. intros ? ?. lia.
Qed.

(** [vm_map_pageable_common] without access unwires a range: it succeeds over
    ranges that are wired without a hole and lowers the counts of their addresses;
    else no address changes.  The references on objects stay accounted for and the
    map is unlocked and well formed. *)
Lemma vm_map_pageable_unwires m start end_ user : map_ok m ->
  let '(s, x) := range_check m start end_ in
  exists m' kr, vm_map_pageable_common start end_ VM_PROT_NONE user m = Some (m', kr) /\ map_ok m' /\ m_lock m' = Unlocked /\ same_refs m m' /\
    match kr with
    | VM_SUCCESS => (forall a, view m' a = if in_range s x a then wire_down user <$> view m a else view m a) /\
        forall a, in_range s x a = true -> exists v, view m a = Some v /\ unwire_refuses user v = None
    | kr => (kr = VM_FAILURE /\ view m s = None \/ kr = VM_INVALID_ARGUMENT) /\ forall a, view m' a = view m a
    end.
Proof using.
  intros Hok. unfold vm_map_pageable_common. change (range_check (map_lock_write m) start end_) with (range_check m start end_). destruct (range_check m start end_) as [s x].
  set (m1 := map_lock_write m). assert (map_ok m1) as Hok1 by (by apply ok_set_lock).
  destruct (lookup_located m1 s Hok1) as (h & p & found & -> & Hokh & Hloc). inversion Hloc as [A p' e B Hl Hx Hp|A B Hl HA HB Hp]; subst; cbn [negb].
  - rewrite Z.eqb_refl. destruct (vm_map_unwire_spec m1 s x user p e A B h Hok1 Hokh Hl Hx) as (m' & kr & Hw & H1 & H2 & H3 & H4). exists m', kr. split; [done|]. split; [done|]. split; [done|]. split; [exact H3|].
    destruct kr; try done; destruct H4 as [H4 H5]; (split; [by right|exact H5]).
  - eexists _, VM_FAILURE. split; [done|]. split; [by apply ok_set_lock|]. split; [done|]. split; [done|]. split; [|done]. left. split; [done|].
    unfold view. change (m_entries m) with (m_entries m1). rewrite Hl, viewl_app. rewrite (viewl_ends_by s A) by (done || lia). apply (viewl_starts_from (s + 1)); [|lia]. eapply Forall_impl; [exact HB|]. cbn. intros ? ?. lia.
Qed.
End Wire.
