(* ===== verification/VmMapFault.v ===== *)
(** * Address maps: page faults and simplification

    A fault finds the object and offset its address is mapped to;
    simplification merges entries without changing what is mapped. *)
From S2P Require Import Prelude VmMap VmMapOps VmMapDelete VmMapInv VmMapFind VmMapSpec.
From S2P Require Import VmMapWire VmMapEnter VmMapRemove.

(** C15: [vm_map_lookup_entry] gives, whatever the hint, the result of a search of
    the whole list: the entry that contains the address exactly when it is mapped,
    else the entry before it.  Only the hint changes, to an entry of the map. *)
Theorem vm_map_lookup_entry_any_hint m a : map_ok m -> exists h p found,
  vm_map_lookup_entry m a = Some (set_hint h m, p, found) /\ map_ok (set_hint h m) /\ (p, found) = ref_lookup HEAD (m_entries m) a /\
  if found then exists e, deref m p = Some e /\ vme_start e <= a < vme_end e /\ view m a = Some (view_entry a e)
  else view m a = None.
Proof.
  intros Hok. destruct (lookup_entry_ref m a Hok) as (h & El & Hh & _). eexists h, _, _. split; [exact El|]. split; [by apply ok_set_hint|].
  destruct (ok_list _ Hok) as [Hc Hnd]. pose proof (ref_lookup_located _ _ _ a Hc) as Hloc. destruct (ref_lookup HEAD (m_entries m) a) as [p found]. split; [done|]. cbn [fst snd].
  inversion Hloc as [A p' e B Hl Hx Hp|A B Hl HA HB Hp]; subst; unfold view, deref; rewrite Hl in *.
  - exists e. split; [apply find_ptr_mid; by destruct (no_dup_mid _ _ _ _ Hnd) as (_ & ? & _)|]. split; [done|]. apply chain_mid in Hc as (C1 & C2 & C3).
    rewrite viewl_app, (viewl_above _ _ _ _ C1) by lia. cbn [viewl]. by rewrite (proj2 (covers_spec a e)) by lia.
  - rewrite viewl_app, (viewl_ends_by a A) by (done || lia). apply (viewl_starts_from (a + 1)); [|lia]. eapply Forall_impl; [exact HB|]. cbn. intros ? ?. lia.
Qed.

Section Fault.
Context {E : VmEnv}.

(** ** Faults *)

(** The map at an entry, locked in some way, after the calls [new]. *)
Definition entry_at (m : vm_map) (A : list (Z * vm_map_entry)) (p : Z) (e : vm_map_entry) (B : list (Z * vm_map_entry)) (h : Z) (new : list vm_event) (m' : vm_map) : Prop :=
  exists t k, m' = set_lock t k (with_list (A ++ (p, e) :: B) (new ++ m_log m) (set_hint h m)).

Lemma entry_at_deref m A p e B h new m' : no_dup (A ++ (p, e) :: B) -> entry_at m A p e B h new m' -> deref m' p = Some e.
Proof using. intros Hnd (t & k & ->). apply (at_deref A p e B (new ++ m_log m) (set_hint h m) Hnd). Qed.

Lemma entry_at_lock m A p e B h new m' t k : entry_at m A p e B h new m' -> entry_at m A p e B h new (set_lock t k m').
Proof using. intros (t' & k' & ->). by exists t, k. Qed.

Lemma entry_at_put m A p e B h new m' e' ev : no_dup (A ++ (p, e) :: B) -> entry_at m A p e B h new m' -> entry_at m A p e' B h (ev :: new) (put_entry p e' (emit ev m')).
Proof using. intros Hnd (t & k & ->). exists t, k. change (emit ev (set_lock t k (with_list ?l ?log ?m1))) with (with_list l (ev :: log) (set_lock t k m1)). by rewrite at_put. Qed.

(** An entry with the same range and attributes is as good. *)
Definition same_attrs (e e' : vm_map_entry) : Prop := vme_start e' = vme_start e /\ vme_end e' = vme_end e /\ forall a, attrs (view_entry a e') = attrs (view_entry a e).

Lemma entry_at_ok m A p e B h new m' e0 : map_ok m -> h ∈ HEAD :: ids (m_entries m) -> m_entries m = A ++ (p, e0) :: B -> same_attrs e0 e -> entry_at m A p e B h new m' ->
  map_ok m' /\ (forall a, attrs <$> view m' a = attrs <$> view m a) /\ (forall a, covers a e0 = true -> view m' a = Some (view_entry a e)) /\
  ((forall a, backed new (view_entry a e0) (view_entry a e)) -> forall a, backed_opt new (view m a) (view m' a)).
Proof using.
  intros Hok Hh Hl (S1 & S2 & S3) (t & k & ->). destruct (ok_list _ Hok) as [Hc Hnd]. split; [|split; [|split]].
  - apply ok_set_lock, ok_new_list; [by apply ok_set_hint| | |]; cbn [m_entries set_hint m_min m_max]; rewrite ?Hl.
    + rewrite Hl in *. by eapply list_ok_change.
    + rewrite !total_app. cbn [total]. by rewrite S1, S2.
    + intros y. by rewrite !ids_app.
  - intros a. unfold view. cbn. rewrite Hl. change (viewa (A ++ (p, e) :: B) a = viewa (A ++ (p, e0) :: B) a). rewrite !viewa_app, !viewa_cons, S3. unfold covers. by rewrite S1, S2.
  - intros a Ha. unfold view. cbn. rewrite Hl in Hc. apply chain_mid in Hc as (C1 & C2 & C3). apply covers_spec in Ha as Ha'. rewrite viewl_app, (viewl_above _ _ _ _ C1) by lia. cbn [viewl].
    unfold covers in *. by rewrite S1, S2, Ha.
  - intros Hb a. unfold view. cbn [m_entries set_lock with_list]. rewrite Hl, !viewl_app. destruct (viewl A a); [apply backed_opt_refl|]. cbn [viewl]. unfold covers. rewrite S1, S2.
    destruct (_ && _); [apply Hb|apply backed_opt_refl].
Qed.

Lemma fault_entry_spec m vaddr : map_ok m -> exists h, h ∈ HEAD :: ids (m_entries m) /\
  ((fault_entry vaddr m = Some (set_hint h m, None) /\ view m vaddr = None) \/
   exists A p e B, fault_entry vaddr m = Some (set_hint h m, Some p) /\ m_entries m = A ++ (p, e) :: B /\ covers vaddr e = true).
Proof using.
  intros Hok. unfold fault_entry. destruct (ok_list _ Hok) as [Hc Hnd].
  assert (exists h, h ∈ HEAD :: ids (m_entries m) /\ ((LET (m, entry, found) <- vm_map_lookup_entry m vaddr ;; Some (m, if (found : bool) then Some entry else None)) = Some (set_hint h m, None) /\ view m vaddr = None \/
    exists A p e B, (LET (m, entry, found) <- vm_map_lookup_entry m vaddr ;; Some (m, if (found : bool) then Some entry else None)) = Some (set_hint h m, Some p) /\ m_entries m = A ++ (p, e) :: B /\ covers vaddr e = true)) as Hlook.
  { destruct (lookup_located m vaddr Hok) as (h & p & found & -> & Hokh & Hloc). exists h. split; [apply (ok_hint _ Hokh)|]. inversion Hloc as [A p' e B Hl Hx Hp|A B Hl HA HB Hp]; subst.
    - right. exists A, p, e, B. split; [done|]. split; [done|]. by apply covers_spec.
    - left. split; [done|]. unfold view. rewrite Hl, viewl_app, (viewl_ends_by vaddr A) by (done || lia). apply (viewl_starts_from (vaddr + 1)); [|lia]. eapply Forall_impl; [exact HB|]. cbn. intros ? ?. lia. }
  pose proof (ok_hint _ Hok) as Hh. destruct (Z.eqb_spec (m_hint m) HEAD) as [E0|E0]; [exact Hlook|]. apply elem_of_cons in Hh as [|Hh]; [done|]. destruct (in_split_ptr _ _ Hh) as (A & e & B & Hl).
  assert (deref m (m_hint m) = Some e) as ->. { unfold deref. rewrite Hl in *. apply find_ptr_mid. by destruct (no_dup_mid _ _ _ _ Hnd) as (_ & ? & _). }
  fold (covers vaddr e). destruct (covers vaddr e) eqn:Ec; [|exact Hlook]. exists (m_hint m). split; [set_solver|]. right. exists A, (m_hint m), e, B. split; [by destruct m|done].
Qed.

(** The shadow of a copy-on-write entry. *)
Lemma fault_shadow_spec upgrade m A p e B h m1 ft prot : no_dup (A ++ (p, e) :: B) -> entry_at m A p e B h [] m1 -> (Z.land ft VM_PROT_WRITE <> 0 -> Z.land (vme_protection e) VM_PROT_WRITE <> 0) ->
  (fault_shadow upgrade p ft prot m1 = Some (None, prot) /\ upgrade = false /\ vme_needs_copy e = true /\ Z.land ft VM_PROT_WRITE <> 0) \/
  exists m2 e2 prot2 new, fault_shadow upgrade p ft prot m1 = Some (Some m2, prot2) /\ entry_at m A p e2 B h new m2 /\ same_attrs e e2 /\
    (vme_needs_copy e2 = true -> Z.land ft VM_PROT_WRITE = 0 /\ prot2 = Z.ldiff prot VM_PROT_WRITE) /\ (vme_needs_copy e2 = false -> prot2 = prot) /\
    (forall a, backed new (view_entry a e) (view_entry a e2)) /\ (vme_object e2 <> VM_OBJECT_NULL \/ e2 = e /\ new = [] /\ m2 = m1).
Proof using.
  intros Hnd Hat Hwr. unfold fault_shadow. rewrite (entry_at_deref _ _ _ _ _ _ _ _ Hnd Hat). destruct (vme_needs_copy e) eqn:En.
  - destruct (Z.eqb_spec (Z.land ft VM_PROT_WRITE) 0) as [Ew|Ew]; cbn [negb].
    + right. exists m1, e, (Z.ldiff prot VM_PROT_WRITE), []. split; [done|]. split; [done|]. split; [done|]. split; [done|]. split; [by rewrite En|]. split; [intros a; by apply Backed_same|by right].
    + destruct upgrade; cbn [map_upgrade]; [|by left]. right. eexists _, _, prot, [_]. split; [done|]. split; [apply entry_at_lock; eapply entry_at_put; [exact Hnd|]; by apply entry_at_lock, entry_at_lock|].
      split; [done|]. split; [done|]. split; [done|]. pose proof (new_object_valid (m_log m)) as Hno. destruct Hat as (t & k & ->). split; [|left; exact Hno]. intros a. eapply Backed_shadow; [done|by apply Hwr|done|exact Hno|left|]. cbn. intros Ho.
      rewrite (proj2 (Z.eqb_neq _ _) Ho), (proj2 (Z.eqb_neq _ _) Hno). unfold u32. by rewrite Zplus_mod_idemp_r.
  - right. exists m1, e, prot, []. split; [done|]. split; [done|]. split; [done|]. split; [by rewrite En|]. split; [done|]. split; [intros a; by apply Backed_same|by right].
Qed.

(** The object of an entry without one. *)
Lemma fault_object_spec upgrade m A p e B h new m1 : no_dup (A ++ (p, e) :: B) -> entry_at m A p e B h new m1 ->
  (fault_object upgrade p m1 = Some None /\ upgrade = false /\ vme_object e = VM_OBJECT_NULL) \/
  exists m2 e2 new2, fault_object upgrade p m1 = Some (Some m2) /\ entry_at m A p e2 B h new2 m2 /\ same_attrs e e2 /\ vme_needs_copy e2 = vme_needs_copy e /\ vme_object e2 <> VM_OBJECT_NULL /\
    (e2 = e /\ new2 = new \/ vme_object e = VM_OBJECT_NULL /\ forall a, backed new2 (view_entry a e) (view_entry a e2)).
Proof using.
  intros Hnd Hat. unfold fault_object. rewrite (entry_at_deref _ _ _ _ _ _ _ _ Hnd Hat). destruct (Z.eqb_spec (vme_object e) VM_OBJECT_NULL) as [En|En].
  - destruct upgrade; cbn [map_upgrade]; [|by left]. right. eexists _, _, (_ :: new). split; [done|]. split; [apply entry_at_lock; eapply entry_at_put; [exact Hnd|]; by apply entry_at_lock|].
    split; [done|]. split; [done|]. split; [apply new_object_valid|]. right. split; [done|]. intros a. eapply Backed_new; [done|apply new_object_valid|left|done].
  - right. exists m1, e, new. split; [done|]. split; [done|]. split; [done|]. split; [done|]. split; [done|]. by left.
Qed.

(** A fault on a wired page must be able to do all that the page permits. *)
Definition needs_write (ft : Z) (v : vm_map_entry) : bool := negb (Z.land (if vme_wired_count v =? 0 then ft else vme_protection v) VM_PROT_WRITE =? 0).

(** What a fault of the type [ft] at [vaddr] must give; [u1] and [u2] say whether
    the lock can be upgraded. *)
Definition fault_post (m : vm_map) (u1 u2 : bool) (vaddr ft : Z) (r : fault) : Prop :=
  match r with
  | Fault_ends m' kr => map_ok m' /\ m_lock m' = Unlocked /\ (forall a, view m' a = view m a) /\
      ((kr = VM_INVALID_ADDRESS /\ view m vaddr = None) \/
       exists v, view m vaddr = Some v /\ vme_is_sub_map v = false /\ Z.land ft (vme_protection v) <> ft /\
         kr = if negb (Z.land (vme_protection v) VM_PROT_NOTIFY =? 0) && negb (Z.land ft VM_PROT_WRITE =? 0) then VM_WRITE_PROTECTION_FAILURE else VM_PROTECTION_FAILURE)
  | Fault_submap m' sub => map_ok m' /\ m_lock m' = Unlocked /\ (forall a, view m' a = view m a) /\ exists v, view m vaddr = Some v /\ vme_is_sub_map v = true /\ vme_object v = sub
  | Fault_retry m' => map_ok m' /\ m_lock m' = Unlocked /\ m_log m' = m_log m /\ (forall a, view m' a = view m a) /\
      exists v, view m vaddr = Some v /\ vme_is_sub_map v = false /\ Z.land ft (vme_protection v) = ft /\
        ((u1 = false /\ vme_needs_copy v = true /\ needs_write ft v = true) \/ (u2 = false /\ vme_object v = VM_OBJECT_NULL))
  | Fault_finds m' object offset prot wired version =>
      map_ok m' /\ m_lock m' = Unlocked /\ version = m_timestamp m' /\ (forall a, attrs <$> view m' a = attrs <$> view m a) /\
      (exists new, m_log m' = new ++ m_log m /\ forall a, backed_opt new (view m a) (view m' a)) /\ object <> VM_OBJECT_NULL /\
      exists v, view m' vaddr = Some v /\ vme_is_sub_map v = false /\ object = vme_object v /\ offset = vme_offset v /\ wired = negb (vme_wired_count v =? 0) /\
        Z.land ft (vme_protection v) = ft /\
        prot = (if vme_needs_copy v then Z.ldiff (vme_protection v) VM_PROT_WRITE else vme_protection v) /\
        (vme_needs_copy v = true -> needs_write ft v = false)
  end.

Lemma same_attrs_trans e1 e2 e3 : same_attrs e1 e2 -> same_attrs e2 e3 -> same_attrs e1 e3.
Proof using. intros (A1 & A2 & A3) (B1 & B2 & B3). split; [congruence|]. split; [congruence|]. intros a. by rewrite B3. Qed.

Lemma same_attrs_fields e e' : same_attrs e e' -> vme_protection e' = vme_protection e /\ vme_is_sub_map e' = vme_is_sub_map e /\ vme_wired_count e' = vme_wired_count e.
Proof using.
  intros (_ & _ & H). specialize (H 0). split; [by apply (f_equal vme_protection) in H|]. split; [by apply (f_equal vme_is_sub_map) in H|by apply (f_equal vme_wired_count) in H].
Qed.


(** ** Simplification *)

Lemma simplifies_spec start e1 e2 : simplifies start e1 e2 = true -> vme_end e1 = start /\ u32 (vme_offset e1 + (vme_end e1 - vme_start e1)) = vme_offset e2 /\
  vme_object e1 = vme_object e2 /\ vme_is_sub_map e1 = false /\ vme_is_sub_map e2 = false /\
  forall a, vme_start e2 = vme_end e1 -> view_entry a e2 = view_entry a e1.
Proof using.
  unfold simplifies. rewrite !andb_true_iff, !Z.eqb_eq, !negb_true_iff, eqb_true_iff. intros H. destruct H as ((((((((((((((H1 & H2) & H3) & H4) & H5) & H6) & H7) & H8) & H9) & H10) & H11) & H12) & H13) & H14) & H15).
  split_and!; try done. intros a Hs. unfold view_entry. rewrite H2, H3, H4, H5, H6, H7, H8, H9, H10, H11, H12, H14, H15. f_equal. destruct (_ =? _); [done|].
  rewrite <- H13, Hs. unfold u32. rewrite Zplus_mod_idemp_l. f_equal. lia.
Qed.

(** Two neighbours in one. *)
Lemma merge_list lo hi start A q e1 p e B : list_ok lo hi ((A ++ [(q, e1)]) ++ (p, e) :: B) -> simplifies start e1 e = true -> vme_start e <= start ->
  let e2 := vme_set_range (vme_start e1) (vme_end e) e1 in let l := A ++ (q, e1) :: (p, e) :: B in
  list_ok lo hi (A ++ (q, e2) :: B) /\ total (A ++ (q, e2) :: B) = total l /\ (forall a, viewl (A ++ (q, e2) :: B) a = viewl l a) /\
  forall sub o, refs sub o l = refs sub o (A ++ (q, e2) :: B) + refers sub o e.
Proof using.
  rewrite <- app_assoc. cbn [app]. intros [Hc Hnd] Es Hle. cbn zeta. set (e2 := vme_set_range (vme_start e1) (vme_end e) e1). destruct (simplifies_spec _ _ _ Es) as (S1 & S2 & S3 & S4 & S5 & S6).
  apply chain_mid in Hc as (C1 & C2 & C3 & C4 & C5). assert (vme_start e = vme_end e1) as He by lia. clear C3. split; [|split; [|split]].
  - split; [apply chain_mid; cbn; repeat split; [done|lia|done]|]. unfold no_dup in *. rewrite ids_app in *. cbn [map fst] in *. apply NoDup_cons in Hnd as [N1 N2]. apply NoDup_app in N2 as (N2 & N3 & N4).
    apply NoDup_cons in N4 as [N4 N5]. apply NoDup_cons in N5 as [N5 N6]. apply NoDup_cons. split; [set_solver|]. apply NoDup_app. split; [done|]. split; [set_solver|]. apply NoDup_cons. split; [set_solver|done].
  - rewrite !total_app. cbn. lia.
  - intros a. rewrite !viewl_app. destruct (viewl A a); [done|]. cbn [viewl]. rewrite S6 by done. change (view_entry a e2) with (view_entry a e1). unfold covers. cbn [e2 vme_start vme_end vme_set_range]. rewrite He.
    destruct (Z.leb_spec (vme_start e1) a), (Z.ltb_spec a (vme_end e1)), (Z.leb_spec (vme_end e1) a), (Z.ltb_spec a (vme_end e)); cbn [andb]; done || lia.
  - intros sub o. rewrite !refs_app. cbn [refs]. unfold refers. cbn [e2 vme_set_range vme_is_sub_map vme_object]. lia.
Qed.

(** [vm_map_simplify] terminates, changes for no address what it is mapped to,
    keeps the map well formed, hints included, and accounts for the reference of
    the entry it drops. *)
Lemma vm_map_simplify_same m start : map_ok m -> exists m', vm_map_simplify start m = Some m' /\ map_ok m' /\ m_lock m' = Unlocked /\ same_refs m m' /\ forall a, view m' a = view m a.
Proof using.
  intros Hok. unfold vm_map_simplify. set (m1 := map_lock_write m). assert (map_ok m1) as Hok1 by (by apply ok_set_lock).
  destruct (lookup_located m1 start Hok1) as (h & p & found & -> & Hokh & Hloc). assert (map_ok (map_unlock (set_hint h m1))) as Hoku by (by apply ok_set_lock).
  inversion Hloc as [A p' e B Hl Hx Hp|A B Hl HA HB Hp]; subst; cbn [negb]; [|eexists; split; [done|]; by split].
  pose proof (ok_with_list (set_hint h m1) (ok_nentries _ Hokh)) as Hm. cbn [m_entries set_hint m_log] in Hm. rewrite Hl in Hm. destruct (ok_list _ Hok1) as [Hc Hnd]. rewrite Hl in Hc, Hnd.
  rewrite Hm. rewrite at_prev by done. destruct (last_ptr_cases A) as [[-> ->]|(A' & q & e1 & -> & ->)]; [rewrite <- Hm; eexists; split; [done|]; by split|].
  assert ((A' ++ [(q, e1)]) ++ (p, e) :: B = A' ++ (q, e1) :: (p, e) :: B) as El by (by rewrite <- app_assoc). pose proof Hnd as Hnd1. rewrite El in Hnd1. pose proof Hc as Hc1. rewrite El in Hc1.
  pose proof (at_deref _ _ _ _ (m_log m1) (set_hint h m1) Hnd1) as Hdq. rewrite <- El in Hdq.
  rewrite (at_ptr _ _ _ _ Hnd1), at_deref by done. rewrite Hdq, <- Hm. destruct (simplifies start e1 e) eqn:Es; cbn [negb]; [|eexists; split; [done|]; by split].
  destruct (simplifies_spec _ _ _ Es) as (S1 & S2 & S3 & S4 & S5 & S6). set (e2 := vme_set_range (vme_start e1) (vme_end e) e1).
  eexists. split; [done|]. set (m2 := if m_first_free (set_hint h m1) =? p then set_first_free q (set_hint h m1) else set_hint h m1).
  assert (exists ff, m2 = with_list ((A' ++ [(q, e1)]) ++ (p, e) :: B) (m_log m) (set_first_free ff (set_hint h m1)) /\ ff ∈ HEAD :: ids (A' ++ (q, e1) :: B)) as (ff & -> & Hff).
  { unfold m2. destruct (Z.eqb_spec (m_first_free (set_hint h m1)) p) as [Ef|Ef].
    - exists q. split; [rewrite Hm at 1; done|rewrite ids_app; set_solver].
    - exists (m_first_free m). split; [rewrite Hm at 1; by destruct m|]. pose proof (ok_first_free _ Hok1) as Hf. rewrite Hl, El, ids_app in Hf. cbn [map fst] in Hf. rewrite ids_app. cbn [map fst]. cbn in Ef. set_solver. }
  change (SAVE_HINT q (with_list ?l ?g ?mm)) with (with_list l g (set_hint q mm)). rewrite at_unlink by done. rewrite <- app_assoc. cbn [app].
  destruct (merge_list (m_min m) (m_max m) start A' q e1 p e B (conj Hc Hnd) Es ltac:(lia)) as (Hok2 & Ht & Hv & Hrefs). fold e2 in Hok2, Ht, Hv, Hrefs. rewrite <- El, <- Hl in Ht, Hv, Hrefs.
  assert (no_dup (A' ++ (q, e1) :: B)) as Hnd2 by (by eapply no_dup_perm; [| |apply Hok2]). rewrite at_put by done.
  assert (forall log, map_ok (map_unlock (with_list (A' ++ (q, e2) :: B) log (set_hint q (set_first_free ff (set_hint h m1)))))) as Hokf.
  { intros log. rewrite ids_app in Hff. destruct Hok1 as [? ? ? ? ? ?]. constructor; cbn; try done; [by rewrite Ht|rewrite ids_app; set_solver|rewrite ids_app; set_solver]. }
  unfold vm_object_deallocate. rewrite <- S3. split; [destruct (_ =? _); [apply Hokf|apply (Hokf (_ :: _))]|]. split; [by destruct (_ =? _)|]. split.
  - intros sub o Ho. specialize (Hrefs sub o). unfold net. change (m_entries m1) with (m_entries m) in Hrefs. destruct (Z.eqb_spec (vme_object e1) VM_OBJECT_NULL) as [E0|E0]; cbn [m_entries m_log map_unlock set_lock emit with_list].
    + rewrite Hrefs. unfold refers. rewrite <- S3, S5, E0. destruct sub; cbn [Bool.eqb andb]; [lia|]. rewrite (proj2 (Z.eqb_neq VM_OBJECT_NULL o)) by (intros <-; naive_solver). lia.
    + rewrite Hrefs. unfold refers. rewrite <- S3, S5. destruct sub; cbn [Bool.eqb andb gives balance]; [lia|]. destruct (vme_object e1 =? o); lia.
  - intros a. destruct (_ =? _); exact (Hv a).
Qed.
End Fault.

(** ** Address maps: round trip, an interleaving, and examples

    Entering and removing a mapping is a round trip; an interleaving of deletion
    with a copy in progress leaves a lookup hint behind; and a concrete map for the
    theorems of the other files. *)

(** ** Enter and remove *)

Section Roundtrip.
Context {E : VmEnv}.

Lemma range_check_within m s x : m_min m <= s -> s <= x -> x <= m_max m -> range_check m s x = (s, x).
Proof using. intros H1 H2 H3. unfold range_check. rewrite (proj2 (Z.ltb_ge s (m_min m))), (proj2 (Z.ltb_ge (m_max m) x)), (proj2 (Z.ltb_ge x s)) by done. done. Qed.

(** C16: Memory entered with [vm_map_enter] and removed again with [vm_map_remove]
    leaves every address mapped as before, and of the references on objects only
    the one that was handed in is gone, given back. *)
Theorem vm_map_enter_remove m address size_ mask anywhere object offset needs_copy prot max_prot inheritance m1 s m2 :
  map_ok m -> is_u32 address -> is_u32 size_ -> is_u32 mask ->
  vm_map_enter address size_ mask anywhere object offset needs_copy prot max_prot inheritance m = Some (Entered m1 VM_SUCCESS s) ->
  vm_map_remove s (s + size_) m1 = Some (Deleted m2) ->
  map_ok m2 /\ m_lock m2 = Unlocked /\ (forall a, view m2 a = view m a) /\
  forall sub o, sub = true \/ o <> VM_OBJECT_NULL ->
    net sub o (m_entries m2) (m_log m2) = net sub o (m_entries m) (m_log m) + (if negb sub && (object =? o) then 1 else 0).
Proof using.
  intros Hok Ha Hs Hm He Hr. destruct (vm_map_enter_spec m address size_ mask anywhere object offset needs_copy prot max_prot inheritance Hok Ha Hs Hm) as (r & He' & Hpost).
  rewrite He in He'. injection He' as <-. destruct Hpost as (_ & _ & _ & (v & [Hok1 Hb [F1 F2] Hfree Hview] & Hv) & Hnet).
  destruct (vm_map_remove_spec m1 s (s + size_) Hok1) as (r & Hr' & Hpost). rewrite Hr in Hr'. injection Hr' as <-. unfold is_u32 in Hs.
  rewrite (range_check_within m1 s (s + size_)) in Hpost by lia. destruct Hpost as (Hlk & Hok2 & Href & Hview2 & _). split; [done|]. split; [done|]. split.
  - intros a. rewrite Hview2, Hview. destruct (in_range s (s + size_) a) eqn:Er; [|done]. rewrite (Hfree a Er).
    assert (stays (v a) = false) as ->; [|done]. destruct Hv as [Hv|(_ & e & Hx & Hv)]; rewrite Hv; unfold stays; cbn; [by rewrite andb_false_r|].
    assert (vme_projected_on e = 0) as -> by (unfold enter_extends in Hx; rewrite !andb_true_iff, !Z.eqb_eq in Hx; tauto). by rewrite andb_false_r.
  - intros sub o Ho. rewrite <- (Href sub o Ho). by apply Hnet.
Qed.
End Roundtrip.

(** ** A concrete map *)

Definition ex_alloc (used : list Z) : Z := 1 + fold_right Z.max 0 used.

Lemma ex_alloc_fresh used : ex_alloc used <> HEAD /\ ~ In (ex_alloc used) used.
Proof.
  assert (0 <= fold_right Z.max 0 used /\ forall y, In y used -> y <= fold_right Z.max 0 used) as [H0 H1].
  { induction used as [|y used [IH1 IH2]]; cbn; [split; [lia|done]|]. split; [lia|]. intros z [<-|Hz]; [lia|]. specialize (IH2 z Hz). lia. }
  unfold ex_alloc, HEAD. split; [lia|]. intros Hin. specialize (H1 _ Hin). lia.
Qed.

Lemma ex_object_valid (log : list vm_event) : 1000 + Z.of_nat (length log) <> VM_OBJECT_NULL.
Proof. unfold VM_OBJECT_NULL. lia. Qed.

Definition ex_env : VmEnv := {|
  zalloc_entry := ex_alloc; new_object := fun log => 1000 + Z.of_nat (length log); object_extends := fun _ _ => true; projection_persists := fun _ => false;
  is_kernel_map := false; is_kernel_pmap := false; pmap_enter_enable := false; kernel_object := 900; submap_object := 901; submap_object_clean := true;
  zalloc_fresh := ex_alloc_fresh; new_object_valid := ex_object_valid |}.

#[local] Existing Instance ex_env.

Definition ex_entry (s x object prot wired : Z) (copy transition : bool) : vm_map_entry :=
  mk_vme s x object 0 false false transition false copy prot VM_PROT_ALL VM_INHERIT_DEFAULT wired 0 0.

(** Two neighbours, a hole, and a third entry; the hint is at the third. *)
Definition ex_map : vm_map :=
  mk_map 4096 65536 [(1, ex_entry 4096 12288 50 3 0 true false); (2, ex_entry 12288 16384 0 3 0 false false); (3, ex_entry 24576 28672 51 1 1 false false)]
    3 true 77 16384 1 3 2 false false 0 Unlocked [].

Lemma ex_map_ok : map_ok ex_map.
Proof.
  constructor; cbn [ex_map m_min m_max m_entries m_nentries m_size m_hint m_first_free]; [done| |done|done|set_solver|set_solver].
  split; [cbn; lia|]. unfold no_dup, HEAD. cbn. repeat (apply NoDup_cons; split; [set_solver|]). apply NoDup_nil_2.
Qed.

Lemma ex_counts_ok : Forall (fun y => counts_ok y.2) (m_entries ex_map).
Proof. repeat constructor; cbn; lia. Qed.

Lemma vm_map_lookup_entry_any_hint_witness : exists h, vm_map_lookup_entry ex_map 5000 = Some (set_hint h ex_map, 1, true) /\ map_ok (set_hint h ex_map).
Proof.
  destruct (vm_map_lookup_entry_any_hint ex_map 5000 ex_map_ok) as (h & p & found & H1 & H2 & H3 & _). vm_compute in H3. injection H3 as -> ->. exists h. split; [exact H1|exact H2].
Defined.

Lemma vm_map_protect_range_witness : exists m', vm_map_protect 8192 30000 VM_PROT_READ false ex_map = Some (m', VM_SUCCESS) /\ map_ok m' /\
  (exists v, view m' 8192 = Some v /\ vme_protection v = VM_PROT_READ /\ vme_object v = 50) /\ view m' 8191 = view ex_map 8191.
Proof.
  destruct (vm_map_protect_range ex_map 8192 30000 VM_PROT_READ false ex_map_ok) as (m' & kr & new & H1 & H2 & _ & _ & _ & H3). assert (kr = VM_SUCCESS) as -> by (vm_compute in H1; congruence).
  assert (range_check ex_map 8192 30000 = (8192, 30000)) as Er by reflexivity. rewrite Er in H3. exists m'. split; [exact H1|]. split; [exact H2|]. destruct H3 as [H3 _]. split; [|exact (H3 8191)].
  pose proof (H3 8192) as Hv. cbn -[view] in Hv. destruct (view m' 8192) as [v|]; [|done]. exists v. split; [reflexivity|]. split; [apply Hv|apply Hv].
Defined.

Lemma vm_map_inherit_range_witness : exists m', vm_map_inherit 8192 30000 VM_INHERIT_NONE ex_map = Some (m', VM_SUCCESS) /\ map_ok m'.
Proof. destruct (vm_map_inherit_range ex_map 8192 30000 VM_INHERIT_NONE ex_map_ok) as (m' & new & H1 & H2 & _). exists m'. split; [exact H1|exact H2]. Defined.



(** The empty map of a user task. *)
Definition user_map : vm_map := vm_map_create 77 0 0xc0000000 true.

Lemma user_map_ok : map_ok user_map.
Proof. constructor; cbn; try done; [split; [cbn; lia|]; apply NoDup_singleton|left|left]. Qed.

Lemma vm_map_enter_keeps_lock_witness : exists m', vm_map_enter 4096 4096 (wordsize - 1) true 0 0 false 3 7 1 user_map = Some (Entered m' VM_NO_SPACE 4096) /\ m_lock m' = Write_locked.
Proof. apply (vm_map_enter_keeps_lock user_map 4096 4096 0 0 false 3 7 1 user_map_ok). cbn. lia. Defined.


Lemma vm_map_pageable_wires_witness : exists m', vm_map_pageable_common 8192 16384 VM_PROT_WRITE true ex_map = Some (m', VM_SUCCESS) /\ map_ok m'.
Proof.
  destruct (vm_map_pageable_wires ex_map 8192 16384 VM_PROT_WRITE true ex_map_ok ex_counts_ok ltac:(done) ltac:(cbn; lia)) as (m' & kr & new & H1 & H2 & _).
  assert (kr = VM_SUCCESS) as -> by (vm_compute in H1; congruence). exists m'. split; [exact H1|exact H2].
Defined.

(** The hole after 16384: nothing stays wired. *)
Lemma vm_map_pageable_fails : option_map snd (vm_map_pageable_common 8192 20480 VM_PROT_WRITE true ex_map) = Some VM_FAILURE.
Proof. vm_compute. reflexivity. Qed.

Lemma vm_map_pageable_unwires_witness : exists m', vm_map_pageable_common 24576 28672 VM_PROT_NONE false ex_map = Some (m', VM_SUCCESS) /\ map_ok m'.
Proof.
  destruct (vm_map_pageable_unwires ex_map 24576 28672 false ex_map_ok) as (m' & kr & H1 & H2 & _). assert (kr = VM_SUCCESS) as -> by (vm_compute in H1; congruence).
  exists m'. split; [exact H1|exact H2].
Defined.


Lemma vm_map_simplify_same_witness : exists m', vm_map_simplify 12288 ex_map = Some m' /\ map_ok m' /\ forall a, view m' a = view ex_map a.
Proof. destruct (vm_map_simplify_same ex_map 12288 ex_map_ok) as (m' & H1 & H2 & _ & _ & H3). exists m'. split; [exact H1|]. split; [exact H2|exact H3]. Defined.

Lemma vm_map_enter_remove_witness : exists m1 m2, vm_map_enter 0 8192 0 true 0 0 false 3 7 1 ex_map = Some (Entered m1 VM_SUCCESS 16384) /\
  vm_map_remove 16384 (16384 + 8192) m1 = Some (Deleted m2) /\ forall a, view m2 a = view ex_map a.
Proof.
  eexists _, _. split; [vm_compute; reflexivity|]. split; [vm_compute; reflexivity|].
  refine (proj1 (proj2 (proj2 (vm_map_enter_remove ex_map 0 8192 0 true 0 0 false 3 7 1 _ 16384 _ ex_map_ok _ _ _ _ _)))); [done|done|done|vm_compute; reflexivity|vm_compute; reflexivity].
Defined.

(** ** An interleaving that leaves a hint behind *)

(** A copy is being placed in the second entry. *)
Definition busy_map : vm_map :=
  mk_map 4096 65536 [(1, ex_entry 4096 12288 50 3 0 false false); (2, ex_entry 12288 16384 51 3 0 false true)] 2 true 77 12288 1 1 HEAD false false 0 Unlocked [].

Lemma busy_map_ok : map_ok busy_map.
Proof.
  constructor; cbn [busy_map m_min m_max m_entries m_nentries m_size m_hint m_first_free]; [done| |done|done|set_solver|set_solver].
  split; [cbn; lia|]. unfold no_dup, HEAD. cbn. repeat (apply NoDup_cons; split; [set_solver|]). apply NoDup_nil_2.
Qed.

(** C37: A [vm_map_remove] that waits for an entry in transition looks the entry up
    again when it is woken, which makes it the lookup hint, and then frees it: the
    hint of the map is not an entry any more, and every later lookup follows it. *)
Theorem vm_map_delete_dangling_hint : exists m1 m2 m3,
  vm_map_remove 12288 16384 busy_map = Some (Delete_blocks m1) /\ map_ok busy_map /\ transition_end 12288 16384 m1 = Some m2 /\
  delete_resume 12288 16384 m2 = Some (Deleted m3) /\ m_hint m3 ∉ HEAD :: ids (m_entries m3) /\ forall a, vm_map_lookup_entry m3 a = None.
Proof.
  eexists _, _, _. split; [vm_compute; reflexivity|]. split; [apply busy_map_ok|]. split; [vm_compute; reflexivity|]. split; [vm_compute; reflexivity|].
  split; [unfold HEAD; cbn; set_solver|]. intros a. reflexivity.
Qed.
