(* ===== verification/KernSched.v ===== *)
(** * The scheduler (kern/sched_prim.c): waits, priorities and run queues

    Threads wait for events in hashed queues and run from queues by priority.  The
    model is the uniprocessor with fixed priorities (NCPUS 1, MACH_HOST 0,
    MACH_FIXPRI 1).  Code at splsched runs in one piece.  Queues are lists. *)

From S2P Require Import Prelude.

(** ** Constants *)

Definition TH_WAIT : Z := 0x01.
Definition TH_SUSP : Z := 0x02.
Definition TH_RUN : Z := 0x04.
Definition TH_UNINT : Z := 0x08.
Definition TH_HALTED : Z := 0x10.
Definition TH_IDLE : Z := 0x80.
Definition TH_SCHED_STATE : Z := Eval cbv in Z.lor (Z.lor TH_WAIT TH_SUSP) (Z.lor TH_RUN TH_UNINT).
Definition TH_SWAPPED : Z := 0x0100.
Definition TH_SW_COMING_IN : Z := 0x0200.
Definition TH_SWAP_STATE : Z := Eval cbv in Z.lor TH_SWAPPED TH_SW_COMING_IN.

(** Whether one of the bits is set. *)
Definition any_bit (x mask : Z) : bool := negb (Z.land x mask =? 0).

Definition THREAD_NULL : Z := 0.
Definition THREAD_AWAKENED : Z := 0.
Definition THREAD_TIMED_OUT : Z := 1.
Definition AST_BLOCK : Z := 4.
Definition AST_PER_THREAD : Z := 3.
Definition POLICY_TIMESHARE : Z := 1.
Definition POLICY_FIXEDPRI : Z := 2.
Definition PROCESSOR_RUNNING : Z := 1.
Definition PROCESSOR_IDLE : Z := 2.
Definition PROCESSOR_DISPATCHING : Z := 3.
Definition NRQS : Z := 32.
Definition NUMQUEUES : Z := 59.
Definition PRI_SHIFT : Z := 18.
Definition SCHED_SHIFT : Z := 7.

(** ** Data *)

(** The run queue a thread is on: that of the processor set or of the
    processor. *)
Inductive rq_name := Rq_pset | Rq_proc.

#[export] Instance rq_name_eq_dec : EqDecision rq_name.
Proof. solve_decision. Defined.

(** The scheduling information of a thread. *)
Record priorities := mk_priorities {
  th_priority : Z;
  th_max_priority : Z;
  th_sched_pri : Z;   (* computed priority *)
  th_sched_data : Z;   (* quantum of a fixed priority *)
  th_policy : Z;
  th_depress_priority : Z;   (* depressed from this priority, or negative *)
  th_cpu_usage : Z;
  th_sched_usage : Z;
  th_sched_stamp : Z;   (* last update *)
  th_cpu_delta : Z;
  th_sched_delta : Z;
  th_time : Z   (* time of the timers since it was last read *)
}.

Record thread := mk_thread {
  th_state : Z;   (* TH_ bits *)
  th_wait_event : Z;
  th_wait_result : Z;
  th_suspend_count : Z;
  th_user_stop_count : Z;
  th_wake_active : bool;   (* someone waits for the thread to stop *)
  th_swap_func : Z;   (* continuation, or 0 *)
  th_timer_set : bool;
  th_ast : Z;
  th_pri : priorities;
  th_runq : option rq_name;
  th_bound : bool;   (* bound to the processor *)
  th_kernel_stack : Z;
  th_stack_privilege : Z   (* reserved stack, or 0 *)
}.

Record run_queue := mk_run_queue {
  rq_runq : list (list Z);
  rq_low : Z;
  rq_count : Z
}.

(** The global state: threads, queues, the processor set and the processor. *)
Record sched := mk_sched {
  s_threads : gmap Z thread;   (* by address *)
  s_wait : list (list Z);   (* wait_queue *)
  s_pset : run_queue;   (* default_pset.runq *)
  s_proc : run_queue;   (* the processor's runq *)
  s_idle_queue : list Z;
  s_idle_count : Z;
  s_set_quantum : Z;
  p_state : Z;
  p_next_thread : Z;
  p_idle_thread : Z;
  p_quantum : Z;
  p_first_quantum : bool;
  s_current : Z;   (* active_threads *)
  s_stack : Z;   (* active_stacks *)
  s_stack_free : list Z;
  s_need_ast : Z;
  s_tick : Z;   (* sched_tick *)
  s_swapin : list Z;   (* swapin_queue *)
  s_swapping : list Z   (* taken off it, not finished *)
}.

Definition pri_set_priority (x : Z) (p : priorities) : priorities := mk_priorities x (th_max_priority p) (th_sched_pri p) (th_sched_data p) (th_policy p) (th_depress_priority p) (th_cpu_usage p) (th_sched_usage p) (th_sched_stamp p) (th_cpu_delta p) (th_sched_delta p) (th_time p).
Definition pri_set_max_priority (x : Z) (p : priorities) : priorities := mk_priorities (th_priority p) x (th_sched_pri p) (th_sched_data p) (th_policy p) (th_depress_priority p) (th_cpu_usage p) (th_sched_usage p) (th_sched_stamp p) (th_cpu_delta p) (th_sched_delta p) (th_time p).
Definition pri_set_sched_pri (x : Z) (p : priorities) : priorities := mk_priorities (th_priority p) (th_max_priority p) x (th_sched_data p) (th_policy p) (th_depress_priority p) (th_cpu_usage p) (th_sched_usage p) (th_sched_stamp p) (th_cpu_delta p) (th_sched_delta p) (th_time p).
Definition pri_set_sched_data (x : Z) (p : priorities) : priorities := mk_priorities (th_priority p) (th_max_priority p) (th_sched_pri p) x (th_policy p) (th_depress_priority p) (th_cpu_usage p) (th_sched_usage p) (th_sched_stamp p) (th_cpu_delta p) (th_sched_delta p) (th_time p).
Definition pri_set_policy (x : Z) (p : priorities) : priorities := mk_priorities (th_priority p) (th_max_priority p) (th_sched_pri p) (th_sched_data p) x (th_depress_priority p) (th_cpu_usage p) (th_sched_usage p) (th_sched_stamp p) (th_cpu_delta p) (th_sched_delta p) (th_time p).
Definition pri_set_depress_priority (x : Z) (p : priorities) : priorities := mk_priorities (th_priority p) (th_max_priority p) (th_sched_pri p) (th_sched_data p) (th_policy p) x (th_cpu_usage p) (th_sched_usage p) (th_sched_stamp p) (th_cpu_delta p) (th_sched_delta p) (th_time p).
Definition pri_set_cpu_usage (x : Z) (p : priorities) : priorities := mk_priorities (th_priority p) (th_max_priority p) (th_sched_pri p) (th_sched_data p) (th_policy p) (th_depress_priority p) x (th_sched_usage p) (th_sched_stamp p) (th_cpu_delta p) (th_sched_delta p) (th_time p).
Definition pri_set_sched_usage (x : Z) (p : priorities) : priorities := mk_priorities (th_priority p) (th_max_priority p) (th_sched_pri p) (th_sched_data p) (th_policy p) (th_depress_priority p) (th_cpu_usage p) x (th_sched_stamp p) (th_cpu_delta p) (th_sched_delta p) (th_time p).
Definition pri_set_sched_stamp (x : Z) (p : priorities) : priorities := mk_priorities (th_priority p) (th_max_priority p) (th_sched_pri p) (th_sched_data p) (th_policy p) (th_depress_priority p) (th_cpu_usage p) (th_sched_usage p) x (th_cpu_delta p) (th_sched_delta p) (th_time p).
Definition pri_set_cpu_delta (x : Z) (p : priorities) : priorities := mk_priorities (th_priority p) (th_max_priority p) (th_sched_pri p) (th_sched_data p) (th_policy p) (th_depress_priority p) (th_cpu_usage p) (th_sched_usage p) (th_sched_stamp p) x (th_sched_delta p) (th_time p).
Definition pri_set_sched_delta (x : Z) (p : priorities) : priorities := mk_priorities (th_priority p) (th_max_priority p) (th_sched_pri p) (th_sched_data p) (th_policy p) (th_depress_priority p) (th_cpu_usage p) (th_sched_usage p) (th_sched_stamp p) (th_cpu_delta p) x (th_time p).
Definition pri_set_time (x : Z) (p : priorities) : priorities := mk_priorities (th_priority p) (th_max_priority p) (th_sched_pri p) (th_sched_data p) (th_policy p) (th_depress_priority p) (th_cpu_usage p) (th_sched_usage p) (th_sched_stamp p) (th_cpu_delta p) (th_sched_delta p) x.

Definition th_set_state (x : Z) (th : thread) : thread := mk_thread x (th_wait_event th) (th_wait_result th) (th_suspend_count th) (th_user_stop_count th) (th_wake_active th) (th_swap_func th) (th_timer_set th) (th_ast th) (th_pri th) (th_runq th) (th_bound th) (th_kernel_stack th) (th_stack_privilege th).
Definition th_set_wait_event (x : Z) (th : thread) : thread := mk_thread (th_state th) x (th_wait_result th) (th_suspend_count th) (th_user_stop_count th) (th_wake_active th) (th_swap_func th) (th_timer_set th) (th_ast th) (th_pri th) (th_runq th) (th_bound th) (th_kernel_stack th) (th_stack_privilege th).
Definition th_set_wait_result (x : Z) (th : thread) : thread := mk_thread (th_state th) (th_wait_event th) x (th_suspend_count th) (th_user_stop_count th) (th_wake_active th) (th_swap_func th) (th_timer_set th) (th_ast th) (th_pri th) (th_runq th) (th_bound th) (th_kernel_stack th) (th_stack_privilege th).
Definition th_set_suspend_count (x : Z) (th : thread) : thread := mk_thread (th_state th) (th_wait_event th) (th_wait_result th) x (th_user_stop_count th) (th_wake_active th) (th_swap_func th) (th_timer_set th) (th_ast th) (th_pri th) (th_runq th) (th_bound th) (th_kernel_stack th) (th_stack_privilege th).
Definition th_set_user_stop_count (x : Z) (th : thread) : thread := mk_thread (th_state th) (th_wait_event th) (th_wait_result th) (th_suspend_count th) x (th_wake_active th) (th_swap_func th) (th_timer_set th) (th_ast th) (th_pri th) (th_runq th) (th_bound th) (th_kernel_stack th) (th_stack_privilege th).
Definition th_set_wake_active (x : bool) (th : thread) : thread := mk_thread (th_state th) (th_wait_event th) (th_wait_result th) (th_suspend_count th) (th_user_stop_count th) x (th_swap_func th) (th_timer_set th) (th_ast th) (th_pri th) (th_runq th) (th_bound th) (th_kernel_stack th) (th_stack_privilege th).
Definition th_set_swap_func (x : Z) (th : thread) : thread := mk_thread (th_state th) (th_wait_event th) (th_wait_result th) (th_suspend_count th) (th_user_stop_count th) (th_wake_active th) x (th_timer_set th) (th_ast th) (th_pri th) (th_runq th) (th_bound th) (th_kernel_stack th) (th_stack_privilege th).
Definition th_set_timer_set (x : bool) (th : thread) : thread := mk_thread (th_state th) (th_wait_event th) (th_wait_result th) (th_suspend_count th) (th_user_stop_count th) (th_wake_active th) (th_swap_func th) x (th_ast th) (th_pri th) (th_runq th) (th_bound th) (th_kernel_stack th) (th_stack_privilege th).
Definition th_set_ast (x : Z) (th : thread) : thread := mk_thread (th_state th) (th_wait_event th) (th_wait_result th) (th_suspend_count th) (th_user_stop_count th) (th_wake_active th) (th_swap_func th) (th_timer_set th) x (th_pri th) (th_runq th) (th_bound th) (th_kernel_stack th) (th_stack_privilege th).
Definition th_set_pri (x : priorities) (th : thread) : thread := mk_thread (th_state th) (th_wait_event th) (th_wait_result th) (th_suspend_count th) (th_user_stop_count th) (th_wake_active th) (th_swap_func th) (th_timer_set th) (th_ast th) x (th_runq th) (th_bound th) (th_kernel_stack th) (th_stack_privilege th).
Definition th_set_runq (x : option rq_name) (th : thread) : thread := mk_thread (th_state th) (th_wait_event th) (th_wait_result th) (th_suspend_count th) (th_user_stop_count th) (th_wake_active th) (th_swap_func th) (th_timer_set th) (th_ast th) (th_pri th) x (th_bound th) (th_kernel_stack th) (th_stack_privilege th).
Definition th_set_kernel_stack (x : Z) (th : thread) : thread := mk_thread (th_state th) (th_wait_event th) (th_wait_result th) (th_suspend_count th) (th_user_stop_count th) (th_wake_active th) (th_swap_func th) (th_timer_set th) (th_ast th) (th_pri th) (th_runq th) (th_bound th) x (th_stack_privilege th).

Definition rq_set_runq (x : list (list Z)) (rq : run_queue) : run_queue := mk_run_queue x (rq_low rq) (rq_count rq).
Definition rq_set_low (x : Z) (rq : run_queue) : run_queue := mk_run_queue (rq_runq rq) x (rq_count rq).
Definition rq_set_count (x : Z) (rq : run_queue) : run_queue := mk_run_queue (rq_runq rq) (rq_low rq) x.

Definition s_set_threads (x : gmap Z thread) (s : sched) : sched := mk_sched x (s_wait s) (s_pset s) (s_proc s) (s_idle_queue s) (s_idle_count s) (s_set_quantum s) (p_state s) (p_next_thread s) (p_idle_thread s) (p_quantum s) (p_first_quantum s) (s_current s) (s_stack s) (s_stack_free s) (s_need_ast s) (s_tick s) (s_swapin s) (s_swapping s).
Definition s_set_wait (x : list (list Z)) (s : sched) : sched := mk_sched (s_threads s) x (s_pset s) (s_proc s) (s_idle_queue s) (s_idle_count s) (s_set_quantum s) (p_state s) (p_next_thread s) (p_idle_thread s) (p_quantum s) (p_first_quantum s) (s_current s) (s_stack s) (s_stack_free s) (s_need_ast s) (s_tick s) (s_swapin s) (s_swapping s).
Definition s_set_pset (x : run_queue) (s : sched) : sched := mk_sched (s_threads s) (s_wait s) x (s_proc s) (s_idle_queue s) (s_idle_count s) (s_set_quantum s) (p_state s) (p_next_thread s) (p_idle_thread s) (p_quantum s) (p_first_quantum s) (s_current s) (s_stack s) (s_stack_free s) (s_need_ast s) (s_tick s) (s_swapin s) (s_swapping s).
Definition s_set_proc (x : run_queue) (s : sched) : sched := mk_sched (s_threads s) (s_wait s) (s_pset s) x (s_idle_queue s) (s_idle_count s) (s_set_quantum s) (p_state s) (p_next_thread s) (p_idle_thread s) (p_quantum s) (p_first_quantum s) (s_current s) (s_stack s) (s_stack_free s) (s_need_ast s) (s_tick s) (s_swapin s) (s_swapping s).
Definition s_set_idle_queue (x : list Z) (s : sched) : sched := mk_sched (s_threads s) (s_wait s) (s_pset s) (s_proc s) x (s_idle_count s) (s_set_quantum s) (p_state s) (p_next_thread s) (p_idle_thread s) (p_quantum s) (p_first_quantum s) (s_current s) (s_stack s) (s_stack_free s) (s_need_ast s) (s_tick s) (s_swapin s) (s_swapping s).
Definition s_set_idle_count (x : Z) (s : sched) : sched := mk_sched (s_threads s) (s_wait s) (s_pset s) (s_proc s) (s_idle_queue s) x (s_set_quantum s) (p_state s) (p_next_thread s) (p_idle_thread s) (p_quantum s) (p_first_quantum s) (s_current s) (s_stack s) (s_stack_free s) (s_need_ast s) (s_tick s) (s_swapin s) (s_swapping s).
Definition s_set_set_quantum (x : Z) (s : sched) : sched := mk_sched (s_threads s) (s_wait s) (s_pset s) (s_proc s) (s_idle_queue s) (s_idle_count s) x (p_state s) (p_next_thread s) (p_idle_thread s) (p_quantum s) (p_first_quantum s) (s_current s) (s_stack s) (s_stack_free s) (s_need_ast s) (s_tick s) (s_swapin s) (s_swapping s).
Definition p_set_state (x : Z) (s : sched) : sched := mk_sched (s_threads s) (s_wait s) (s_pset s) (s_proc s) (s_idle_queue s) (s_idle_count s) (s_set_quantum s) x (p_next_thread s) (p_idle_thread s) (p_quantum s) (p_first_quantum s) (s_current s) (s_stack s) (s_stack_free s) (s_need_ast s) (s_tick s) (s_swapin s) (s_swapping s).
Definition p_set_next_thread (x : Z) (s : sched) : sched := mk_sched (s_threads s) (s_wait s) (s_pset s) (s_proc s) (s_idle_queue s) (s_idle_count s) (s_set_quantum s) (p_state s) x (p_idle_thread s) (p_quantum s) (p_first_quantum s) (s_current s) (s_stack s) (s_stack_free s) (s_need_ast s) (s_tick s) (s_swapin s) (s_swapping s).
Definition p_set_quantum (x : Z) (s : sched) : sched := mk_sched (s_threads s) (s_wait s) (s_pset s) (s_proc s) (s_idle_queue s) (s_idle_count s) (s_set_quantum s) (p_state s) (p_next_thread s) (p_idle_thread s) x (p_first_quantum s) (s_current s) (s_stack s) (s_stack_free s) (s_need_ast s) (s_tick s) (s_swapin s) (s_swapping s).
Definition p_set_first_quantum (x : bool) (s : sched) : sched := mk_sched (s_threads s) (s_wait s) (s_pset s) (s_proc s) (s_idle_queue s) (s_idle_count s) (s_set_quantum s) (p_state s) (p_next_thread s) (p_idle_thread s) (p_quantum s) x (s_current s) (s_stack s) (s_stack_free s) (s_need_ast s) (s_tick s) (s_swapin s) (s_swapping s).
Definition s_set_current (x : Z) (s : sched) : sched := mk_sched (s_threads s) (s_wait s) (s_pset s) (s_proc s) (s_idle_queue s) (s_idle_count s) (s_set_quantum s) (p_state s) (p_next_thread s) (p_idle_thread s) (p_quantum s) (p_first_quantum s) x (s_stack s) (s_stack_free s) (s_need_ast s) (s_tick s) (s_swapin s) (s_swapping s).
Definition s_set_stack (x : Z) (s : sched) : sched := mk_sched (s_threads s) (s_wait s) (s_pset s) (s_proc s) (s_idle_queue s) (s_idle_count s) (s_set_quantum s) (p_state s) (p_next_thread s) (p_idle_thread s) (p_quantum s) (p_first_quantum s) (s_current s) x (s_stack_free s) (s_need_ast s) (s_tick s) (s_swapin s) (s_swapping s).
Definition s_set_stack_free (x : list Z) (s : sched) : sched := mk_sched (s_threads s) (s_wait s) (s_pset s) (s_proc s) (s_idle_queue s) (s_idle_count s) (s_set_quantum s) (p_state s) (p_next_thread s) (p_idle_thread s) (p_quantum s) (p_first_quantum s) (s_current s) (s_stack s) x (s_need_ast s) (s_tick s) (s_swapin s) (s_swapping s).
Definition s_set_need_ast (x : Z) (s : sched) : sched := mk_sched (s_threads s) (s_wait s) (s_pset s) (s_proc s) (s_idle_queue s) (s_idle_count s) (s_set_quantum s) (p_state s) (p_next_thread s) (p_idle_thread s) (p_quantum s) (p_first_quantum s) (s_current s) (s_stack s) (s_stack_free s) x (s_tick s) (s_swapin s) (s_swapping s).
Definition s_set_tick (x : Z) (s : sched) : sched := mk_sched (s_threads s) (s_wait s) (s_pset s) (s_proc s) (s_idle_queue s) (s_idle_count s) (s_set_quantum s) (p_state s) (p_next_thread s) (p_idle_thread s) (p_quantum s) (p_first_quantum s) (s_current s) (s_stack s) (s_stack_free s) (s_need_ast s) x (s_swapin s) (s_swapping s).
Definition s_set_swapin (x : list Z) (s : sched) : sched := mk_sched (s_threads s) (s_wait s) (s_pset s) (s_proc s) (s_idle_queue s) (s_idle_count s) (s_set_quantum s) (p_state s) (p_next_thread s) (p_idle_thread s) (p_quantum s) (p_first_quantum s) (s_current s) (s_stack s) (s_stack_free s) (s_need_ast s) (s_tick s) x (s_swapping s).
Definition s_set_swapping (x : list Z) (s : sched) : sched := mk_sched (s_threads s) (s_wait s) (s_pset s) (s_proc s) (s_idle_queue s) (s_idle_count s) (s_set_quantum s) (p_state s) (p_next_thread s) (p_idle_thread s) (p_quantum s) (p_first_quantum s) (s_current s) (s_stack s) (s_stack_free s) (s_need_ast s) (s_tick s) (s_swapin s) x.

Definition th_sched_pri' (th : thread) : Z := th_sched_pri (th_pri th).

(** Reading and replacing the thread at address [t]. *)
Definition put_th (t : Z) (th : thread) (s : sched) : sched := s_set_threads (<[t := th]> (s_threads s)) s.
Definition get_th (t : Z) (s : sched) : option thread := s_threads s !! t.

Definition get_rq (n : rq_name) (s : sched) : run_queue := match n with Rq_pset => s_pset s | Rq_proc => s_proc s end.
Definition put_rq (n : rq_name) (rq : run_queue) (s : sched) : sched := match n with Rq_pset => s_set_pset rq s | Rq_proc => s_set_proc rq s end.

Definition ast_on (reasons : Z) (s : sched) : sched := s_set_need_ast (Z.lor (s_need_ast s) reasons) s.
Definition ast_off (reasons : Z) (s : sched) : sched := s_set_need_ast (Z.ldiff (s_need_ast s) reasons) s.

(** What the code is configured with: quanta, the policies and load of the
    processor set, the address of the processor, the offset of [wake_active] in a
    thread, and the addresses of [swapin_queue] and [idle_thread_continue]. *)
Class SchedConfig := {
  min_quantum : Z;
  policies : Z;
  sched_load : Z;
  master_processor : Z;
  wake_active_offset : Z;
  swapin_queue : Z;
  idle_thread_continue : Z
}.

(** ** Queues *)

(** [remqueue]. *)
Definition remqueue (t : Z) (q : list Z) : list Z := filter (fun u => u <> t) q.

(** [enqueue_tail] and [remqueue] on an array of queues. *)
Definition enqueue_at (i t : Z) (qs : list (list Z)) : option (list (list Z)) := LET q <- aget qs i ;; Some (aset qs i (q ++ [t])).
Definition remqueue_at (i t : Z) (qs : list (list Z)) : option (list (list Z)) := LET q <- aget qs i ;; Some (aset qs i (remqueue t q)).

Section Sched.
Context {C : SchedConfig}.

(** ** Priorities *)

Definition do_priority_computation (p : priorities) : Z :=
  let pri := th_priority p + Z.shiftr (th_sched_usage p) (PRI_SHIFT + SCHED_SHIFT) in
  if 31 <? pri then 31 else pri.

Definition compute_my_priority (p : priorities) : priorities := pri_set_sched_pri (do_priority_computation p) p.

(** The time since the timers were last read; every thread has a processor set. *)
Definition thread_timer_delta (p : priorities) : priorities :=
  let delta := u32 (th_time p) in
  pri_set_sched_delta (u32 (th_sched_delta p + delta * sched_load)) (pri_set_cpu_delta (u32 (th_cpu_delta p + delta)) (pri_set_time 0 p)).

(** Approximations of (5/8)^n by two shifts. *)
Definition wait_shift : list (Z * Z) :=
  [(1, 1); (1, 3); (1, -3); (2, -7); (3, 5); (3, -5); (4, -8); (5, 7);
   (5, -7); (6, -10); (7, 10); (7, -9); (8, -11); (9, 12); (9, -11); (10, -13);
   (11, 14); (11, -13); (12, -15); (13, 17); (13, -15); (14, -17); (15, 19); (16, 18);
   (16, -19); (17, 22); (18, 20); (18, -20); (19, 26); (20, 22); (20, -22); (21, -27)].

Definition age (sh : Z * Z) (usage : Z) : Z :=
  if 0 <? sh.2 then u32 (Z.shiftr usage sh.1 + Z.shiftr usage sh.2)
  else u32 (Z.shiftr usage sh.1 - Z.shiftr usage (- sh.2)).

Definition update_priority (tick : Z) (p : priorities) : option priorities :=
  let ticks := u32 (tick - th_sched_stamp p) in
  ASSERT negb (ticks =? 0) ;;
  let p := thread_timer_delta (pri_set_sched_stamp (u32 (th_sched_stamp p + ticks)) p) in
  LET p <- (if 30 <? ticks then Some (pri_set_sched_usage 0 (pri_set_cpu_usage 0 p))
            else
              LET sh <- aget wait_shift ticks ;;
              Some (pri_set_sched_usage (age sh (u32 (th_sched_usage p + th_sched_delta p)))
                     (pri_set_cpu_usage (age sh (u32 (th_cpu_usage p + th_cpu_delta p))) p))) ;;
  let p := pri_set_sched_delta 0 (pri_set_cpu_delta 0 p) in
  Some (if (th_policy p =? POLICY_TIMESHARE) && (th_depress_priority p <? 0) then compute_my_priority p else p).

(** The update, where it is due. *)
Definition update_if_due (tick : Z) (p : priorities) : option priorities :=
  if negb (th_sched_stamp p =? tick) then update_priority tick p else Some p.

(** ** Run queues *)

Definition run_queue_enqueue (n : rq_name) (t : Z) (s : sched) : option sched :=
  LET th <- get_th t s ;;
  let rq := get_rq n s in
  let whichq := if NRQS <=? u32 (th_sched_pri' th) then NRQS - 1 else u32 (th_sched_pri' th) in
  LET qs <- enqueue_at whichq t (rq_runq rq) ;;
  let low := if (whichq <? rq_low rq) || (rq_count rq =? 0) then whichq else rq_low rq in
  Some (put_th t (th_set_runq (Some n) th) (put_rq n (mk_run_queue qs low (rq_count rq + 1)) s)).

Definition thread_setrun (t : Z) (may_preempt : bool) (s : sched) : option sched :=
  LET th <- get_th t s ;;
  LET p <- update_if_due (s_tick s) (th_pri th) ;;
  let th := th_set_pri p th in
  let s := put_th t th s in
  ASSERT bool_decide (th_runq th = None) ;;
  if 0 <? s_idle_count s then
    match s_idle_queue s with
    | _ :: rest => Some (p_set_state PROCESSOR_DISPATCHING (p_set_next_thread t (s_set_idle_count (s_idle_count s - 1) (s_set_idle_queue rest s))))
    | [] => None
    end
  else
    let s := if th_bound th then ast_on AST_BLOCK s else s in
    LET s <- run_queue_enqueue (if th_bound th then Rq_proc else Rq_pset) t s ;;
    LET cur <- get_th (s_current s) s ;;
    Some (if may_preempt && (th_sched_pri' th <? th_sched_pri' cur) then ast_on AST_BLOCK (p_set_first_quantum false s) else s).

(** [remqueue] follows the links of the thread, whichever queue it is on. *)
Definition rem_runq (t : Z) (s : sched) : option (sched * option rq_name) :=
  LET th <- get_th t s ;;
  match th_runq th with
  | None => Some (s, None)
  | Some n =>
      let rq := get_rq n s in
      Some (put_th t (th_set_runq None th) (put_rq n (mk_run_queue (map (remqueue t) (rq_runq rq)) (rq_low rq) (rq_count rq - 1)) s), Some n)
  end.

Definition set_pri (t pri : Z) (resched : bool) (s : sched) : option sched :=
  LET (s, rq) <- rem_runq t s ;;
  LET th <- get_th t s ;;
  let s := put_th t (th_set_pri (pri_set_sched_pri pri (th_pri th)) th) s in
  match rq with
  | None => Some s
  | Some n => if resched then thread_setrun t true s else run_queue_enqueue n t s
  end.

Definition compute_priority (t : Z) (resched : bool) (s : sched) : option sched :=
  LET th <- get_th t s ;;
  let p := th_pri th in
  if th_policy p =? POLICY_TIMESHARE then
    let pri := do_priority_computation p in
    if th_depress_priority p <? 0 then set_pri t pri resched s
    else Some (put_th t (th_set_pri (pri_set_depress_priority pri p) th) s)
  else set_pri t (th_priority p) resched s.

(** The first queue that is not empty, from [i] on. *)
Fixpoint first_queue (fuel : nat) (i : Z) (qs : list (list Z)) : option Z :=
  match fuel with
  | O => None
  | S fuel' =>
      if i <? NRQS then
        LET q <- aget qs i ;;
        match q with [] => first_queue fuel' (i + 1) qs | _ => Some i end
      else None
  end.

Definition scan_fuel : nat := 33.

(** The head of a queue leaves it. *)
Definition dequeue_at (n : rq_name) (i : Z) (s : sched) : option (sched * Z) :=
  let rq := get_rq n s in
  LET q <- aget (rq_runq rq) i ;;
  match q with
  | [] => None
  | t :: rest =>
      LET th <- get_th t s ;;
      Some (put_th t (th_set_runq None th) (put_rq n (mk_run_queue (aset (rq_runq rq) i rest) (rq_low rq) (rq_count rq - 1)) s), t)
  end.

Definition set_low (n : rq_name) (low : Z) (s : sched) : sched := put_rq n (rq_set_low low (get_rq n s)) s.

(** With fixed priorities the hint must be accurate. *)
Definition fix_low (i : Z) (s : sched) : option Z :=
  if (0 <? rq_count (s_pset s)) && any_bit policies POLICY_FIXEDPRI then first_queue scan_fuel i (rq_runq (s_pset s)) else Some i.

Definition choose_pset_thread (s : sched) : option (sched * Z) :=
  let runq := s_pset s in
  if 0 <? rq_count runq then
    LET i <- first_queue scan_fuel (rq_low runq) (rq_runq runq) ;;
    LET (s, th) <- dequeue_at Rq_pset i s ;;
    LET i <- fix_low i s ;;
    Some (set_low Rq_pset i s, th)
  else
    let s := if p_state s =? PROCESSOR_RUNNING
             then s_set_idle_count (s_idle_count s + 1) (s_set_idle_queue (s_idle_queue s ++ [master_processor]) (p_set_state PROCESSOR_IDLE s))
             else s in
    Some (s, p_idle_thread s).

Definition choose_thread (s : sched) : option (sched * Z) :=
  let runq := s_proc s in
  if 0 <? rq_count runq then
    LET i <- first_queue scan_fuel (rq_low runq) (rq_runq runq) ;;
    LET (s, th) <- dequeue_at Rq_proc i s ;;
    Some (set_low Rq_proc i s, th)
  else choose_pset_thread s.

Definition thread_select (s : sched) : option (sched * Z) :=
  let s := p_set_first_quantum true s in
  if 0 <? rq_count (s_proc s) then
    LET (s, th) <- choose_thread s ;; Some (p_set_quantum min_quantum s, th)
  else
    LET (s, t) <-
      (if rq_count (s_pset s) =? 0 then
         LET cur <- get_th (s_current s) s ;;
         (* bound to this processor or not, there is only one *)
         if th_state cur =? TH_RUN then
           LET p <- update_if_due (s_tick s) (th_pri cur) ;;
           Some (put_th (s_current s) (th_set_pri p cur) s, s_current s)
         else choose_pset_thread s
       else
         let low := rq_low (s_pset s) in
         LET q <- aget (rq_runq (s_pset s)) low ;;
         match q with
         | [] => choose_pset_thread (set_low Rq_pset (low + 1) s)
         | _ =>
             LET (s, t) <- dequeue_at Rq_pset low s ;;
             LET i <- fix_low low s ;;
             Some (set_low Rq_pset i s, t)
         end) ;;
    LET th <- get_th t s ;;
    Some (p_set_quantum (if th_policy (th_pri th) =? POLICY_TIMESHARE then s_set_quantum s else th_sched_data (th_pri th)) s, t).

(** ** Waiting *)

(** The hash of an address, as a signed number. *)
Definition wait_hash (event : Z) : Z :=
  let i := if 2 ^ 31 <=? event then event - wordsize else event in
  (if i <? 0 then Z.lnot i else i) mod NUMQUEUES.

Definition assert_wait (event : Z) (interruptible : bool) (s : sched) : option sched :=
  let t := s_current s in
  LET th <- get_th t s ;;
  ASSERT th_wait_event th =? 0 ;;
  let th' := th_set_state (Z.lor (th_state th) (if interruptible then TH_WAIT else Z.lor TH_WAIT TH_UNINT)) th in
  if negb (event =? 0) then
    LET qs <- enqueue_at (wait_hash event) t (s_wait s) ;;
    Some (put_th t (th_set_wait_event event th') (s_set_wait qs s))
  else Some (put_th t th' s).

(** The cases of the switch on the state of a thread that is woken. *)
Inductive wake_kind := Wake_run | Wake_mark | Wake_none.

Definition wake_case (state : Z) : wake_kind :=
  let x := Z.land state TH_SCHED_STATE in
  if (x =? Z.lor TH_WAIT (Z.lor TH_SUSP TH_UNINT)) || (x =? Z.lor TH_WAIT TH_UNINT) || (x =? TH_WAIT) then Wake_run
  else if (x =? Z.lor TH_WAIT TH_SUSP) || (x =? Z.lor TH_RUN TH_WAIT) || (x =? Z.lor TH_RUN (Z.lor TH_WAIT TH_SUSP))
       || (x =? Z.lor TH_RUN (Z.lor TH_WAIT TH_UNINT)) || (x =? Z.lor TH_RUN (Z.lor TH_WAIT (Z.lor TH_SUSP TH_UNINT))) then Wake_mark
  else Wake_none.

(** The switch; [default] is what it does with a thread that does not wait. *)
Definition wake_thread (t result : Z) (default : option sched) (s : sched) : option sched :=
  LET th <- get_th t s ;;
  let state := th_state th in
  match wake_case state with
  | Wake_run => thread_setrun t true (put_th t (th_set_wait_result result (th_set_state (Z.lor (Z.ldiff state TH_WAIT) TH_RUN) th)) s)
  | Wake_mark => Some (put_th t (th_set_wait_result result (th_set_state (Z.ldiff state TH_WAIT) th)) s)
  | Wake_none => default
  end.

Definition reset_timeout_check (t : Z) (s : sched) : option sched := LET th <- get_th t s ;; Some (put_th t (th_set_timer_set false th) s).

(** The thread leaves the queue of its event. *)
Definition leave_wait (t event : Z) (s : sched) : option sched :=
  LET th <- get_th t s ;;
  LET qs <- remqueue_at (wait_hash event) t (s_wait s) ;;
  Some (put_th t (th_set_wait_event 0 th) (s_set_wait qs s)).

Definition clear_wait (t result : Z) (interrupt_only : bool) (s : sched) : option sched :=
  LET th <- get_th t s ;;
  if interrupt_only && any_bit (th_state th) TH_UNINT then Some s
  else
    let event := th_wait_event th in
    LET s <- (if negb (event =? 0) then leave_wait t event s else Some s) ;;
    LET s <- reset_timeout_check t s ;;
    wake_thread t result (Some s) s.

(** The threads of a queue; the next one is read before a thread leaves. *)
Fixpoint wakeup_loop (event : Z) (one_thread : bool) (result : Z) (q : list Z) (s : sched) : option sched :=
  match q with
  | [] => Some s
  | t :: q' =>
      LET th <- get_th t s ;;
      if th_wait_event th =? event then
        LET s <- leave_wait t event s ;;
        LET s <- reset_timeout_check t s ;;
        LET s <- wake_thread t result None s ;;
        if one_thread then Some s else wakeup_loop event one_thread result q' s
      else wakeup_loop event one_thread result q' s
  end.

Definition thread_wakeup_prim (event : Z) (one_thread : bool) (result : Z) (s : sched) : option sched :=
  LET q <- aget (s_wait s) (wait_hash event) ;;
  wakeup_loop event one_thread result q s.

Definition thread_wakeup (event : Z) (s : sched) : option sched := thread_wakeup_prim event false THREAD_AWAKENED s.

Definition thread_set_timeout (s : sched) : option sched :=
  LET th <- get_th (s_current s) s ;;
  Some (if any_bit (th_state th) TH_WAIT then put_th (s_current s) (th_set_timer_set true th) s else s).

(** The expiration of a thread's timer: it leaves the queue of timers first. *)
Definition thread_timeout (t : Z) (s : sched) : option sched :=
  LET s <- reset_timeout_check t s ;;
  clear_wait t THREAD_TIMED_OUT false s.

(** [thread_go] and [thread_will_wait] of kern/ipc_sched.c.  The store of -1 to the
    wait result is inside an assert; assertions are taken as enabled. *)
Definition thread_go (t : Z) (s : sched) : option sched :=
  LET s <- reset_timeout_check t s ;;
  wake_thread t THREAD_AWAKENED (Some s) s.

Definition thread_will_wait (t : Z) (s : sched) : option sched :=
  LET th <- get_th t s ;;
  Some (put_th t (th_set_state (Z.lor (th_state th) TH_WAIT) (th_set_wait_result (-1) th)) s).

Definition thread_will_wait_with_timeout (t : Z) (s : sched) : option sched :=
  LET s <- thread_will_wait t s ;;
  LET th <- get_th t s ;;
  Some (put_th t (th_set_timer_set true th) s).
End Sched.
