(* ===== verification/KernSwitch.v ===== *)
(** * The scheduler: switching, suspension and the clock

    Context switches and idling (kern/sched_prim.c, kern/thread_swap.c, the stacks
    of kern/thread.c), suspension and priorities (kern/thread.c), and what the
    clock does to the running thread (kern/priority.c, kern/ast.c).  A function
    that switches ends in the state in which the new thread runs and the old one
    is dispatched. *)

From S2P Require Import Prelude KernSched.

Section Switch.
Context {C : SchedConfig}.

(** ** Stacks *)

(** A stack from the free list, or the reserved one of the thread. *)
Definition stack_alloc_try (t : Z) (s : sched) : option (sched * bool) :=
  LET th <- get_th t s ;;
  match s_stack_free s with
  | stack :: rest => Some (put_th t (th_set_kernel_stack stack th) (s_set_stack_free rest s), true)
  | [] =>
      let stack := th_stack_privilege th in
      if negb (stack =? 0) then Some (put_th t (th_set_kernel_stack stack th) s, true) else Some (s, false)
  end.

Definition stack_free (t : Z) (s : sched) : option sched :=
  LET th <- get_th t s ;;
  let stack := th_kernel_stack th in
  let s := put_th t (th_set_kernel_stack 0 th) s in
  Some (if negb (stack =? th_stack_privilege th) then s_set_stack_free (stack :: s_stack_free s) s else s).

(** The stack of the running thread goes to the new one. *)
Definition stack_handoff (old new : Z) (s : sched) : option sched :=
  LET o <- get_th old s ;;
  let s := put_th old (th_set_kernel_stack 0 o) s in
  LET n <- get_th new s ;;
  Some (s_set_current new (put_th new (th_set_kernel_stack (s_stack s) n) s)).

Definition switch_context (old continuation new : Z) (s : sched) : option sched :=
  LET o <- get_th old s ;;
  let s := put_th old (th_set_swap_func continuation (th_set_kernel_stack (s_stack s) o)) s in
  LET n <- get_th new s ;;
  Some (s_set_stack (th_kernel_stack n) (s_set_current new s)).

Definition ast_context (t : Z) (s : sched) : option sched :=
  LET th <- get_th t s ;;
  Some (s_set_need_ast (Z.lor (Z.ldiff (s_need_ast s) AST_PER_THREAD) (th_ast th)) s).

(** ** Swapping in *)

Definition thread_swapin (t : Z) (s : sched) : option sched :=
  LET th <- get_th t s ;;
  let x := Z.land (th_state th) TH_SWAP_STATE in
  if x =? TH_SWAPPED then
    let s := put_th t (th_set_state (Z.lor (Z.ldiff (th_state th) TH_SWAP_STATE) TH_SW_COMING_IN) th) s in
    thread_wakeup swapin_queue (s_set_swapin (s_swapin s ++ [t]) s)
  else if x =? TH_SW_COMING_IN then Some s
  else None.

(** After [stack_alloc], which may wait, has found a stack. *)
Definition thread_doswapin (t stack : Z) (s : sched) : option sched :=
  LET th <- get_th t s ;;
  let th := th_set_state (Z.ldiff (th_state th) TH_SWAP_STATE) (th_set_kernel_stack stack th) in
  let s := put_th t th (s_set_swapping (remqueue t (s_swapping s)) s) in
  if any_bit (th_state th) TH_RUN then thread_setrun t true s else Some s.

(** ** Dispatching the old thread *)

Definition wake_event (t : Z) : Z := u32 (t + wake_active_offset).

(** The cases of the switches on the state of the old thread. *)
Inductive dispatch_kind := Dispatch_suspend | Dispatch_run | Dispatch_wait | Dispatch_idle.

Definition dispatch_case (x : Z) : option dispatch_kind :=
  if (x =? Z.lor TH_RUN TH_SUSP) || (x =? Z.lor TH_RUN (Z.lor TH_SUSP TH_HALTED)) || (x =? Z.lor TH_RUN (Z.lor TH_WAIT TH_SUSP)) then Some Dispatch_suspend
  else if (x =? Z.lor TH_RUN (Z.lor TH_SUSP TH_UNINT)) || (x =? Z.lor TH_RUN TH_UNINT) || (x =? TH_RUN) then Some Dispatch_run
  else if (x =? Z.lor TH_RUN (Z.lor TH_WAIT (Z.lor TH_SUSP TH_UNINT))) || (x =? Z.lor TH_RUN (Z.lor TH_WAIT TH_UNINT)) || (x =? Z.lor TH_RUN TH_WAIT) then Some Dispatch_wait
  else if x =? Z.lor TH_RUN TH_IDLE then Some Dispatch_idle
  else None.

(** Whoever waits for the thread to stop is woken. *)
Definition tell_stopped (t : Z) (s : sched) : option sched :=
  LET th <- get_th t s ;;
  if th_wake_active th then thread_wakeup (wake_event t) (put_th t (th_set_wake_active false th) s) else Some s.

(** The stack of a thread with a continuation is freed first. *)
Definition discard_stack (t : Z) (s : sched) : option sched :=
  LET th <- get_th t s ;;
  if negb (th_swap_func th =? 0) then
    ASSERT Z.land (th_state th) TH_SWAP_STATE =? 0 ;;
    stack_free t (put_th t (th_set_state (Z.lor (th_state th) TH_SWAPPED) th) s)
  else Some s.

Definition thread_dispatch (t : Z) (s : sched) : option sched :=
  LET s <- discard_stack t s ;;
  LET th <- get_th t s ;;
  LET k <- dispatch_case (Z.ldiff (th_state th) TH_SWAP_STATE) ;;
  match k with
  | Dispatch_suspend => tell_stopped t (put_th t (th_set_state (Z.ldiff (th_state th) TH_RUN) th) s)
  | Dispatch_run => thread_setrun t false s
  | Dispatch_wait => Some (put_th t (th_set_state (Z.ldiff (th_state th) TH_RUN) th) s)
  | Dispatch_idle => Some s
  end.

(** The same for a thread whose stack was handed off. *)
Definition dispatch_swapped (t continuation : Z) (s : sched) : option sched :=
  LET th <- get_th t s ;;
  let th := th_set_swap_func continuation th in
  let stopped := th_set_state (Z.lor (Z.ldiff (th_state th) TH_RUN) TH_SWAPPED) th in
  LET k <- dispatch_case (th_state th) ;;
  match k with
  | Dispatch_suspend => tell_stopped t (put_th t stopped s)
  | Dispatch_run => thread_setrun t false (put_th t (th_set_state (Z.lor (th_state th) TH_SWAPPED) th) s)
  | Dispatch_wait => Some (put_th t stopped s)
  | Dispatch_idle => Some (put_th t (th_set_state (Z.lor TH_RUN (Z.lor TH_IDLE TH_SWAPPED)) th) s)
  end.

(** ** Switching *)

(** The new thread is interruptible and in core. *)
Definition mark_running (t : Z) (s : sched) : option sched :=
  LET th <- get_th t s ;;
  ast_context t (put_th t (th_set_state (Z.ldiff (th_state th) (Z.lor TH_SWAPPED TH_UNINT)) th) s).

Definition invoke_handoff (old continuation new : Z) (s : sched) : option sched :=
  LET s <- mark_running new s ;;
  LET s <- stack_handoff old new s ;;
  dispatch_swapped old continuation s.

Definition invoke_switch (old continuation new : Z) (s : sched) : option sched :=
  LET s <- mark_running new s ;;
  LET s <- switch_context old continuation new s ;;
  thread_dispatch old s.

(** Whether the switch took place; if not, the new thread waits for a stack. *)
Definition thread_invoke (old continuation new : Z) (s : sched) : option (sched * bool) :=
  LET n <- get_th new s ;;
  if old =? new then Some (put_th new (th_set_state (Z.ldiff (th_state n) TH_UNINT) n) s, true)
  else
    LET o <- get_th old s ;;
    let swap := Z.land (th_state n) TH_SWAP_STATE in
    if negb (th_stack_privilege o =? s_stack s) && negb (continuation =? 0) then
      if swap =? TH_SWAPPED then LET s <- invoke_handoff old continuation new s ;; Some (s, true)
      else if swap =? TH_SW_COMING_IN then LET s <- thread_swapin new s ;; Some (s, false)
      else LET s <- invoke_switch old continuation new s ;; Some (s, true)
    else if any_bit (th_state n) TH_SWAPPED then
      LET (s, got) <- (if any_bit (th_state n) TH_SW_COMING_IN then Some (s, false) else stack_alloc_try new s) ;;
      if negb got then LET s <- thread_swapin new s ;; Some (s, false)
      else LET s <- invoke_switch old continuation new s ;; Some (s, true)
    else LET s <- invoke_switch old continuation new s ;; Some (s, true).

Fixpoint block_loop (fuel : nat) (old continuation : Z) (s : sched) : option sched :=
  match fuel with
  | O => None
  | S fuel' =>
      LET (s, new) <- thread_select s ;;
      LET (s, switched) <- thread_invoke old continuation new s ;;
      if switched then Some s else block_loop fuel' old continuation s
  end.

(** Every turn that fails leaves one thread less without a stack. *)
Definition block_fuel (s : sched) : nat := S (size (s_threads s)).

Definition thread_block (continuation : Z) (s : sched) : option sched :=
  block_loop (block_fuel s) (s_current s) continuation (ast_off AST_BLOCK s).

Definition thread_run (continuation new : Z) (s : sched) : option sched :=
  let old := s_current s in
  LET (s, switched) <- thread_invoke old continuation new s ;;
  if switched then Some s else block_loop (block_fuel s) old continuation s.

Definition thread_sleep (event : Z) (interruptible : bool) (s : sched) : option sched :=
  LET s <- assert_wait event interruptible s ;;
  thread_block 0 s.

(** One turn of the idle thread, when there is something to run. *)
Definition idle_turn (s : sched) : option sched :=
  if p_state s =? PROCESSOR_DISPATCHING then
    let new := p_next_thread s in
    LET th <- get_th new s ;;
    let quantum := if th_policy (th_pri th) =? POLICY_TIMESHARE then s_set_quantum s else th_sched_data (th_pri th) in
    thread_run idle_thread_continue new
      (p_set_first_quantum true (p_set_quantum quantum (p_set_state PROCESSOR_RUNNING (p_set_next_thread THREAD_NULL s))))
  else if p_state s =? PROCESSOR_IDLE then
    thread_block idle_thread_continue
      (p_set_state PROCESSOR_RUNNING (s_set_idle_queue (remqueue master_processor (s_idle_queue s)) (s_set_idle_count (s_idle_count s - 1) s)))
  else None.

(** The swapin thread takes the next thread, or waits. *)
Definition swapin_next (continuation : Z) (s : sched) : option sched :=
  match s_swapin s with
  | t :: rest => Some (s_set_swapping (t :: s_swapping s) (s_set_swapin rest s))
  | [] => LET s <- assert_wait swapin_queue false s ;; thread_block continuation s
  end.

(** ** Suspension *)

Definition thread_hold (t : Z) (s : sched) : option sched :=
  LET th <- get_th t s ;;
  Some (put_th t (th_set_state (Z.lor (th_state th) TH_SUSP) (th_set_suspend_count (th_suspend_count th + 1) th)) s).

Definition thread_release (t : Z) (s : sched) : option sched :=
  LET th <- get_th t s ;;
  let th := th_set_suspend_count (th_suspend_count th - 1) th in
  if th_suspend_count th =? 0 then
    let th := th_set_state (Z.ldiff (th_state th) (Z.lor TH_SUSP TH_HALTED)) th in
    if negb (any_bit (th_state th) (Z.lor TH_WAIT TH_RUN)) then
      thread_setrun t true (put_th t (th_set_state (Z.lor (th_state th) TH_RUN) th) s)
    else Some (put_th t th s)
  else Some (put_th t th s).

(** [thread_dowait] up to where it returns or sleeps. *)
Inductive dowait_result := Dowait_stopped (s : sched) | Dowait_sleeps (s : sched).

Definition dowait_sleep (t : Z) (s : sched) : option dowait_result :=
  LET th <- get_th t s ;;
  LET s <- thread_sleep (wake_event t) true (put_th t (th_set_wake_active true th) s) ;;
  Some (Dowait_sleeps s).

Definition thread_dowait (t : Z) (s : sched) : option dowait_result :=
  ASSERT negb (t =? s_current s) ;;
  LET th <- get_th t s ;;
  let x := Z.land (th_state th) TH_SCHED_STATE in
  if (x =? TH_SUSP) || (x =? Z.lor TH_WAIT TH_SUSP) then Some (Dowait_stopped s)
  else if x =? Z.lor TH_RUN TH_SUSP then
    LET (s, rq) <- rem_runq t s ;;
    match rq with
    | Some _ =>
        LET th <- get_th t s ;;
        LET s <- tell_stopped t (put_th t (th_set_state (Z.ldiff (th_state th) TH_RUN) th) s) ;;
        Some (Dowait_stopped s)
    | None => dowait_sleep t s
    end
  else if (x =? Z.lor TH_RUN (Z.lor TH_SUSP TH_UNINT)) || (x =? Z.lor TH_RUN (Z.lor TH_WAIT TH_SUSP))
       || (x =? Z.lor TH_RUN (Z.lor TH_WAIT (Z.lor TH_SUSP TH_UNINT))) || (x =? Z.lor TH_WAIT (Z.lor TH_SUSP TH_UNINT)) then dowait_sleep t s
  else Some (Dowait_stopped s).

(** [thread_dowait] after the sleep: [None] of the inner option is
    KERN_FAILURE. *)
Definition dowait_resume (t : Z) (must_halt : bool) (s : sched) : option (option dowait_result) :=
  LET cur <- get_th (s_current s) s ;;
  if negb (th_wait_result cur =? THREAD_AWAKENED) && negb must_halt then Some None
  else LET r <- thread_dowait t s ;; Some (Some r).

Definition thread_suspend (t : Z) (s : sched) : option dowait_result :=
  LET th <- get_th t s ;;
  let first := th_user_stop_count th =? 0 in
  let s := put_th t (th_set_user_stop_count (th_user_stop_count th + 1) th) s in
  if first then
    LET s <- thread_hold t s ;;
    if t =? s_current s then Some (Dowait_stopped (ast_on AST_BLOCK s)) else thread_dowait t s
  else Some (Dowait_stopped s).

(** Whether it succeeds. *)
Definition thread_resume (t : Z) (s : sched) : option (sched * bool) :=
  LET th <- get_th t s ;;
  if 0 <? th_user_stop_count th then
    let th := th_set_user_stop_count (th_user_stop_count th - 1) th in
    let s := put_th t th s in
    if th_user_stop_count th =? 0 then LET s <- thread_release t s ;; Some (s, true) else Some (s, true)
  else Some (s, false).

(** The branch of a thread that was asked to halt. *)
Definition thread_halt_self (thread_exception_return : Z) (s : sched) : option sched :=
  let t := s_current s in
  LET th <- get_th t s ;;
  thread_block thread_exception_return (put_th t (th_set_ast (Z.ldiff (th_ast th) 1) (th_set_state (Z.lor (th_state th) TH_HALTED) th)) s).

(** ** Priorities *)

Definition invalid_pri (pri : Z) : bool := (pri <? 0) || (NRQS <=? pri).

Definition change_pri (t : Z) (f : priorities -> priorities) (s : sched) : option sched :=
  LET th <- get_th t s ;; Some (put_th t (th_set_pri (f (th_pri th)) th) s).

(** [None] inside is KERN_INVALID_ARGUMENT or KERN_FAILURE. *)
Definition thread_priority (t priority : Z) (set_max : bool) (s : sched) : option (option sched) :=
  if invalid_pri priority then Some None
  else
    LET th <- get_th t s ;;
    if priority <? th_max_priority (th_pri th) then Some None
    else
      LET s <- (if 0 <=? th_depress_priority (th_pri th) then change_pri t (pri_set_depress_priority priority) s
                else LET s <- change_pri t (pri_set_priority priority) s ;; compute_priority t true s) ;;
      LET s <- (if set_max then change_pri t (pri_set_max_priority priority) s else Some s) ;;
      Some (Some s).

Definition thread_set_own_priority (priority : Z) (s : sched) : option sched :=
  let t := s_current s in
  LET th <- get_th t s ;;
  LET s <- (if priority <? th_max_priority (th_pri th) then change_pri t (pri_set_max_priority priority) s else Some s) ;;
  LET s <- change_pri t (pri_set_priority priority) s ;;
  compute_priority t true s.

Definition thread_max_priority (t max_priority : Z) (s : sched) : option (option sched) :=
  if invalid_pri max_priority then Some None
  else
    LET s <- change_pri t (pri_set_max_priority max_priority) s ;;
    LET th <- get_th t s ;;
    LET s <- (if th_priority (th_pri th) <? max_priority then
                LET s <- change_pri t (pri_set_priority max_priority) s ;; compute_priority t true s
              else if (0 <=? th_depress_priority (th_pri th)) && (th_depress_priority (th_pri th) <? max_priority) then
                change_pri t (pri_set_depress_priority max_priority) s
              else Some s) ;;
    Some (Some s).

(** The quantum in ticks for data in milliseconds, with the division of C. *)
Definition policy_quantum (tick data : Z) : Z :=
  let temp := data * 1000 in
  let temp := if negb (Z.rem temp tick =? 0) then temp + tick else temp in
  Z.quot temp tick.

Definition thread_policy (tick t policy data : Z) (s : sched) : option (option sched) :=
  if (policy <=? 0) || (POLICY_FIXEDPRI <? policy) then Some None
  else
    LET th <- get_th t s ;;
    let set_data := fun s => if policy =? POLICY_FIXEDPRI then change_pri t (pri_set_sched_data (policy_quantum tick data)) s else Some s in
    if policy =? th_policy (th_pri th) then LET s <- set_data s ;; Some (Some s)
    else if Z.land policies policy =? 0 then Some None
    else
      LET s <- change_pri t (pri_set_policy policy) s ;;
      LET s <- set_data s ;;
      LET s <- compute_priority t true s ;;
      Some (Some s).

(** ** The clock *)

Definition recompute_priorities (sched_thread_id : Z) (s : sched) : option sched :=
  let s := s_set_tick (u32 (s_tick s + 1)) s in
  if negb (sched_thread_id =? THREAD_NULL) then clear_wait sched_thread_id THREAD_AWAKENED false s else Some s.

Definition csw_needed (th : thread) (s : sched) : bool :=
  let pset := s_pset s in
  let pri := th_sched_pri' th in
  any_bit (th_state th) TH_SUSP || (0 <? rq_count (s_proc s))
  || ((th_policy (th_pri th) =? POLICY_TIMESHARE) && negb (p_first_quantum s) && (0 <? rq_count pset) && (rq_low pset <=? pri))
  || ((th_policy (th_pri th) =? POLICY_FIXEDPRI) && (0 <? rq_count pset)
      && ((negb (p_first_quantum s) && (rq_low pset <=? pri)) || (rq_low pset <? pri))).

(** The running case with timesharing only: the hint is corrected. *)
Definition ast_check_timeshare (th : thread) (s : sched) : option sched :=
  if negb (p_first_quantum s) && (0 <? rq_count (s_pset s)) then
    LET q <- aget (rq_runq (s_pset s)) (rq_low (s_pset s)) ;;
    LET s <- (match q with
              | [] => LET i <- first_queue scan_fuel (rq_low (s_pset s)) (rq_runq (s_pset s)) ;; Some (set_low Rq_pset i s)
              | _ => Some s
              end) ;;
    Some (if rq_low (s_pset s) <=? th_sched_pri' th then ast_on AST_BLOCK s else s)
  else Some s.

Definition ast_check (s : sched) : option sched :=
  LET th <- get_th (s_current s) s ;;
  if (p_state s =? PROCESSOR_IDLE) || (p_state s =? PROCESSOR_DISPATCHING) || (p_state s =? 0) then Some s
  else if p_state s =? PROCESSOR_RUNNING then
    let s := ast_on (th_ast th) s in
    if negb (s_need_ast s =? 0) then Some s
    else if any_bit (th_state th) TH_SUSP || (0 <? rq_count (s_proc s)) then Some (ast_on AST_BLOCK s)
    else if any_bit policies POLICY_FIXEDPRI then
      Some (if csw_needed th s then ast_on AST_BLOCK s
            else if th_policy (th_pri th) =? POLICY_FIXEDPRI then p_set_first_quantum true s else s)
    else ast_check_timeshare th s
  else None.

Definition USAGE_THRESHOLD : Z := Z.shiftl 1 (PRI_SHIFT + 2 + SCHED_SHIFT).

(** The usage since the last update, counted when it is [enough]. *)
Definition account (tick : Z) (enough : Z -> bool) (p : priorities) : option priorities :=
  if negb (th_sched_stamp p =? tick) then update_priority tick p
  else if (th_policy p =? POLICY_TIMESHARE) && (th_depress_priority p <? 0) then
    let p := thread_timer_delta p in
    Some (if enough (th_sched_delta p)
          then compute_my_priority (pri_set_sched_delta 0 (pri_set_sched_usage (u32 (th_sched_usage p + th_sched_delta p)) p))
          else p)
  else Some p.

Definition thread_quantum_update (nticks : Z) (cpu_idle : bool) (s : sched) : option sched :=
  let t := s_current s in
  let s := s_set_set_quantum min_quantum s in
  if negb cpu_idle then
    let s := p_set_quantum (p_quantum s - nticks) s in
    LET th <- get_th t s ;;
    LET s <- (if p_quantum s <=? 0 then
                LET p <- account (s_tick s) (fun _ => true) (th_pri th) ;;
                let s := p_set_first_quantum false (put_th t (th_set_pri p th) s) in
                Some (p_set_quantum (p_quantum s + (if th_policy p =? POLICY_TIMESHARE then min_quantum else th_sched_data p)) s)
              else
                LET p <- account (s_tick s) (fun delta => USAGE_THRESHOLD <=? delta) (th_pri th) ;;
                Some (put_th t (th_set_pri p th) s)) ;;
    ast_check s
  else Some s.

End Switch.
