(* ===== verification/KernSchedInv.v ===== *)
(** * The scheduler: the invariant

    Every thread is where its state says: a thread that can run is running, in one
    run queue, dispatched to the idle processor or being swapped in; a thread that
    waits for an event is in the queue of the event. *)

From S2P Require Import Prelude Counting KernSched KernSwitch.

(** ** The bits of a state *)

Record tbits := mk_bits { b_w : bool; b_s : bool; b_r : bool; b_n : bool; b_h : bool; b_i : bool; b_sw : bool; b_c : bool }.

Definition bits (x : Z) : tbits :=
  mk_bits (Z.testbit x 0) (Z.testbit x 1) (Z.testbit x 2) (Z.testbit x 3) (Z.testbit x 4) (Z.testbit x 7) (Z.testbit x 8) (Z.testbit x 9).

Definition enc (b : tbits) : Z :=
  b2z (b_w b) * TH_WAIT + b2z (b_s b) * TH_SUSP + b2z (b_r b) * TH_RUN + b2z (b_n b) * TH_UNINT +
  b2z (b_h b) * TH_HALTED + b2z (b_i b) * TH_IDLE + b2z (b_sw b) * TH_SWAPPED + b2z (b_c b) * TH_SW_COMING_IN.

Definition set_w x b := mk_bits x (b_s b) (b_r b) (b_n b) (b_h b) (b_i b) (b_sw b) (b_c b).
Definition set_s x b := mk_bits (b_w b) x (b_r b) (b_n b) (b_h b) (b_i b) (b_sw b) (b_c b).
Definition set_r x b := mk_bits (b_w b) (b_s b) x (b_n b) (b_h b) (b_i b) (b_sw b) (b_c b).
Definition set_n x b := mk_bits (b_w b) (b_s b) (b_r b) x (b_h b) (b_i b) (b_sw b) (b_c b).
Definition set_h x b := mk_bits (b_w b) (b_s b) (b_r b) (b_n b) x (b_i b) (b_sw b) (b_c b).
Definition set_sw x b := mk_bits (b_w b) (b_s b) (b_r b) (b_n b) (b_h b) (b_i b) x (b_c b).
Definition set_c x b := mk_bits (b_w b) (b_s b) (b_r b) (b_n b) (b_h b) (b_i b) (b_sw b) x.

(** An equation on states, in all cases of the bits. *)
Ltac all_bits b := destruct b as [[] [] [] [] [] [] [] []]; reflexivity.

Lemma bits_enc b : bits (enc b) = b.
Proof. all_bits b. Qed.

Lemma lor_wait b : Z.lor (enc b) TH_WAIT = enc (set_w true b).
Proof. all_bits b. Qed.

Lemma lor_wait_unint b : Z.lor (enc b) (Z.lor TH_WAIT TH_UNINT) = enc (set_n true (set_w true b)).
Proof. all_bits b. Qed.

Lemma lor_run b : Z.lor (enc b) TH_RUN = enc (set_r true b).
Proof. all_bits b. Qed.

Lemma lor_susp b : Z.lor (enc b) TH_SUSP = enc (set_s true b).
Proof. all_bits b. Qed.

Lemma lor_halted b : Z.lor (enc b) TH_HALTED = enc (set_h true b).
Proof. all_bits b. Qed.

Lemma lor_swapped b : Z.lor (enc b) TH_SWAPPED = enc (set_sw true b).
Proof. all_bits b. Qed.

Lemma lor_coming b : Z.lor (enc b) TH_SW_COMING_IN = enc (set_c true b).
Proof. all_bits b. Qed.

Lemma ldiff_wait b : Z.ldiff (enc b) TH_WAIT = enc (set_w false b).
Proof. all_bits b. Qed.

Lemma ldiff_run b : Z.ldiff (enc b) TH_RUN = enc (set_r false b).
Proof. all_bits b. Qed.

Lemma ldiff_unint b : Z.ldiff (enc b) TH_UNINT = enc (set_n false b).
Proof. all_bits b. Qed.

Lemma ldiff_swap b : Z.ldiff (enc b) TH_SWAP_STATE = enc (set_c false (set_sw false b)).
Proof. all_bits b. Qed.

Lemma ldiff_swapped_unint b : Z.ldiff (enc b) (Z.lor TH_SWAPPED TH_UNINT) = enc (set_n false (set_sw false b)).
Proof. all_bits b. Qed.

Lemma ldiff_susp_halted b : Z.ldiff (enc b) (Z.lor TH_SUSP TH_HALTED) = enc (set_h false (set_s false b)).
Proof. all_bits b. Qed.

Create Rewrite HintDb sched_bits.
#[export] Hint Rewrite bits_enc lor_wait lor_wait_unint lor_run lor_susp lor_halted lor_swapped lor_coming ldiff_wait ldiff_run ldiff_unint ldiff_swap
  ldiff_swapped_unint ldiff_susp_halted : sched_bits.

(** ** The tests of the code *)

Lemma any_wait b : any_bit (enc b) TH_WAIT = b_w b.
Proof. all_bits b. Qed.

Lemma any_susp b : any_bit (enc b) TH_SUSP = b_s b.
Proof. all_bits b. Qed.

Lemma any_run b : any_bit (enc b) TH_RUN = b_r b.
Proof. all_bits b. Qed.

Lemma any_unint b : any_bit (enc b) TH_UNINT = b_n b.
Proof. all_bits b. Qed.

Lemma any_wait_run b : any_bit (enc b) (Z.lor TH_WAIT TH_RUN) = b_w b || b_r b.
Proof. all_bits b. Qed.

Lemma any_swapped b : any_bit (enc b) TH_SWAPPED = b_sw b.
Proof. all_bits b. Qed.

Lemma any_coming b : any_bit (enc b) TH_SW_COMING_IN = b_c b.
Proof. all_bits b. Qed.

Lemma swap_is_swapped b : (Z.land (enc b) TH_SWAP_STATE =? TH_SWAPPED) = b_sw b && negb (b_c b).
Proof. all_bits b. Qed.

Lemma swap_is_coming b : (Z.land (enc b) TH_SWAP_STATE =? TH_SW_COMING_IN) = negb (b_sw b) && b_c b.
Proof. all_bits b. Qed.

Lemma swap_is_none b : (Z.land (enc b) TH_SWAP_STATE =? 0) = negb (b_sw b) && negb (b_c b).
Proof. all_bits b. Qed.

Lemma is_th_run b : (enc b =? TH_RUN) = b_r b && negb (b_w b) && negb (b_s b) && negb (b_n b) && negb (b_h b) && negb (b_i b) && negb (b_sw b) && negb (b_c b).
Proof. all_bits b. Qed.

Lemma sched_is_run b : (Z.land (enc b) TH_SCHED_STATE =? TH_RUN) = b_r b && negb (b_w b) && negb (b_s b) && negb (b_n b).
Proof. all_bits b. Qed.

Lemma wake_case_bits b : wake_case (enc b) = if negb (b_w b) then Wake_none else if b_r b || (b_s b && negb (b_n b)) then Wake_mark else Wake_run.
Proof. all_bits b. Qed.

(** What [thread_dispatch] does with a thread in these bits; the others are a
    panic. *)
Definition dispatch_of (b : tbits) : option dispatch_kind :=
  if negb (b_r b) then None
  else if b_i b then if b_w b || b_s b || b_n b || b_h b then None else Some Dispatch_idle
  else if b_h b then if b_s b && negb (b_w b) && negb (b_n b) then Some Dispatch_suspend else None
  else if b_s b && negb (b_n b) then Some Dispatch_suspend
  else if b_w b then Some Dispatch_wait else Some Dispatch_run.

Lemma dispatch_case_bits b : dispatch_case (enc (set_c false (set_sw false b))) = dispatch_of b.
Proof. all_bits b. Qed.

#[export] Hint Rewrite any_wait any_susp any_run any_unint any_wait_run any_swapped any_coming swap_is_swapped swap_is_coming swap_is_none is_th_run sched_is_run
  wake_case_bits dispatch_case_bits : sched_bits.

(** ** One thread *)

(** Where a thread is: it runs, it is the thread that the idle processor runs
    next, it is being swapped in, it is the idle thread, or the code that is
    executing has taken it. *)
Record place := mk_place { at_cur : bool; at_next : bool; at_coming : bool; at_idle : bool; at_hand : bool }.

Definition b2n (b : bool) : nat := if b then 1 else 0.

(** The state of a thread fits its place; [onrq] says that it is on a run queue,
    [held] that its suspend count is positive. *)
Definition okb (b : tbits) (p : place) (onrq held : bool) : bool :=
  (if at_idle p then negb onrq && negb (at_next p) && negb (at_coming p) && negb (at_hand p) && b_r b && negb (b_s b) && negb (b_w b) && negb (b_n b) && negb (b_h b)
   else Nat.eqb (b2n (at_cur p) + b2n onrq + b2n (at_next p) + b2n (at_coming p) + b2n (at_hand p)) (b2n (b_r b)))
  && implb (b_w b && b_r b) (at_cur p || at_hand p)
  && implb (negb (b_r b) && negb (b_w b)) (b_s b)
  && implb (b_h b) (b_s b && negb (b_w b) && negb (b_n b))
  && eqb (b_i b) (at_idle p)
  && eqb (b_s b) held
  && eqb (b_c b) (at_coming p) && implb (b_c b) (negb (b_sw b))
  && implb (at_cur p) (negb (b_sw b) && negb (b_c b)).

Definition pri_ok (p : priorities) : Prop :=
  0 <= th_priority p < NRQS /\ 0 <= th_sched_pri p < NRQS /\ 0 <= th_sched_usage p /\ is_u32 (th_sched_stamp p).

Definition on_runq (th : thread) : bool := bool_decide (th_runq th <> None).
Definition held (th : thread) : bool := 0 <? th_suspend_count th.
Definition tb (th : thread) : tbits := bits (th_state th).

(** The user's stops, however many, are one of the holds. *)
Definition stops_ok (th : thread) : Prop := 0 <= th_user_stop_count th /\ b2z (0 <? th_user_stop_count th) <= th_suspend_count th.

Record th_ok (p : place) (th : thread) : Prop := {
  k_enc : th_state th = enc (tb th);
  k_place : okb (tb th) p (on_runq th) (held th) = true;
  k_pri : pri_ok (th_pri th);
  k_event : is_u32 (th_wait_event th);
  k_waits : th_wait_event th <> 0 -> b_w (tb th) = true;
  k_counts : stops_ok th;
  k_stack : at_idle p = true -> th_stack_privilege th <> 0
}.

(** ** Facts in all cases of the booleans *)

(** A boolean function that is true everywhere. *)
Fixpoint everywhere (n : nat) (f : list bool -> bool) : bool :=
  match n with O => f [] | S n' => everywhere n' (fun l => f (true :: l)) && everywhere n' (fun l => f (false :: l)) end.

Lemma everywhere_all n f : everywhere n f = true -> forall l, length l = n -> f l = true.
Proof.
  revert f. induction n as [|n IH]; intros f H l Hl; [by destruct l|]. cbn in H. apply andb_true_iff in H as [H1 H2].
  destruct l as [|x l]; [done|]. injection Hl as Hl. destruct x; [exact (IH _ H1 l Hl)|exact (IH _ H2 l Hl)].
Qed.

Definition at_bits (g : tbits -> place -> bool -> bool -> bool) (l : list bool) : bool :=
  match l with
  | [w; s; r; n; h; i; sw; c; cur; next; coming; idle; hand; onrq; held] => g (mk_bits w s r n h i sw c) (mk_place cur next coming idle hand) onrq held
  | _ => true
  end.

Lemma all_places g : everywhere 15 (at_bits g) = true -> forall b p onrq held, g b p onrq held = true.
Proof.
  intros H [w s r n h i sw c] [cur next coming idle hand] onrq hd.
  exact (everywhere_all _ _ H [w; s; r; n; h; i; sw; c; cur; next; coming; idle; hand; onrq; hd] eq_refl).
Qed.

Lemma implb_elim a b : implb a b = true -> a = true -> b = true.
Proof. by destruct a, b. Qed.

(** ** Arrays of queues *)

(** The queues hold each thread once, in the queue that [f] gives. *)
Record queues_ok (qs : list (list Z)) (f : Z -> option Z) : Prop := {
  q_once : forall i q, aget qs i = Some q -> NoDup q;
  q_in : forall i q t, aget qs i = Some q -> t ∈ q <-> f t = Some i;
  q_range : forall t i, f t = Some i -> 0 <= i < alen qs
}.

Fixpoint qtotal (qs : list (list Z)) : Z := match qs with [] => 0 | q :: qs' => alen q + qtotal qs' end.

Lemma qtotal_nonneg qs : 0 <= qtotal qs.
Proof. induction qs as [|q qs IH]; cbn; [lia|]. pose proof (alen_nonneg q). lia. Qed.

Lemma qtotal_insert qs k q q' : qs !! k = Some q -> qtotal (<[k := q']> qs) = qtotal qs - alen q + alen q'.
Proof.
  revert k. induction qs as [|x qs IH]; intros [|k]; cbn; try done; intros H; [injection H as ->; lia|]. rewrite IH by done. lia.
Qed.

Lemma qtotal_aset qs i q q' : aget qs i = Some q -> qtotal (aset qs i q') = qtotal qs - alen q + alen q'.
Proof.
  unfold aget, aset. case_decide; [|done]. apply qtotal_insert.
Qed.

Lemma qtotal_pos qs : 0 < qtotal qs -> exists i t q, aget qs i = Some (t :: q).
Proof.
  induction qs as [|q qs IH]; cbn; [lia|]. intros H. destruct q as [|t q]; [|by exists 0, t, q].
  cbn in H. destruct IH as (i & t & q & Hi); [done|]. exists (i + 1), t, q. unfold aget in *. repeat case_decide; try done; try lia.
  replace (Z.to_nat (i + 1)) with (S (Z.to_nat i)) by lia. done.
Qed.

Lemma qtotal_zero qs i q : qtotal qs = 0 -> aget qs i = Some q -> q = [].
Proof.
  intros H Hq. pose proof (qtotal_aset qs i q [] Hq) as E. pose proof (qtotal_nonneg (aset qs i [])). destruct q; [done|]. unfold alen in E. cbn [length] in E. lia.
Qed.

Lemma remqueue_in t u q : u ∈ remqueue t q <-> u ∈ q /\ u <> t.
Proof. unfold remqueue. rewrite list_elem_of_filter. tauto. Qed.

Lemma remqueue_absent t q : t ∉ q -> remqueue t q = q.
Proof.
  unfold remqueue. induction q as [|u q IH]; [done|]. rewrite elem_of_cons. intros H. rewrite filter_cons_True by naive_solver. f_equal. naive_solver.
Qed.

Lemma remqueue_length t q : NoDup q -> t ∈ q -> alen (remqueue t q) = alen q - 1.
Proof.
  unfold remqueue, alen. induction q as [|u q IH]; [by intros _ ?%not_elem_of_nil|]. intros [Hu Hq]%NoDup_cons Ht.
  destruct (decide (u = t)) as [->|Hne].
  - rewrite filter_cons_False by naive_solver. fold (remqueue t q). rewrite remqueue_absent by done. cbn [length]. lia.
  - rewrite filter_cons_True by done. apply elem_of_cons in Ht as [->|Ht]; [done|]. cbn [length]. specialize (IH Hq Ht). lia.
Qed.

Section Queues.
Context (qs : list (list Z)) (f : Z -> option Z) (Hok : queues_ok qs f).

Lemma queues_ext f' : (forall u, f' u = f u) -> queues_ok qs f'.
Proof using Hok. intros E. destruct Hok as [H1 H2 H3]. split; [done|intros; rewrite E; by apply H2|intros t i; rewrite E; apply H3]. Qed.

Lemma queues_get i : 0 <= i < alen qs -> exists q, aget qs i = Some q.
Proof using. intros [q H]%aget_is_Some. by exists q. Qed.

Lemma queues_enqueue f' t i : f t = None -> 0 <= i < alen qs -> f' t = Some i -> (forall u, u <> t -> f' u = f u) ->
  exists qs', enqueue_at i t qs = Some qs' /\ queues_ok qs' f' /\ qtotal qs' = qtotal qs + 1 /\ alen qs' = alen qs /\
    forall j, aget qs' j = if j =? i then (fun q => q ++ [t]) <$> aget qs i else aget qs j.
Proof using Hok.
  intros Hn Hi Ht Hu. destruct (queues_get i Hi) as [q Hq]. destruct Hok as [H1 H2 H3]. exists (aset qs i (q ++ [t])). unfold enqueue_at. rewrite Hq.
  assert (Hg : forall j, aget (aset qs i (q ++ [t])) j = if j =? i then Some (q ++ [t]) else aget qs j).
  { intros j. destruct (Z.eqb_spec j i) as [->|]; [by apply aget_aset_eq|by apply aget_aset_ne]. }
  split; [done|]. split; [split|].
  - intros j r. rewrite Hg. destruct (j =? i); [|apply H1]. intros [= <-]. apply NoDup_app. split; [by eapply H1|]. split; [|apply NoDup_singleton].
    intros u Hin ->%list_elem_of_singleton. apply (H2 _ _ _ Hq) in Hin. congruence.
  - intros j r u. rewrite Hg. destruct (Z.eqb_spec j i) as [->|Hj].
    + intros [= <-]. rewrite elem_of_app, list_elem_of_singleton, (H2 _ _ _ Hq). destruct (decide (u = t)) as [->|]; [naive_solver|]. rewrite Hu by done. naive_solver.
    + intros Hr. rewrite (H2 _ _ _ Hr). destruct (decide (u = t)) as [->|]; [|by rewrite Hu]. rewrite Hn, Ht. naive_solver.
  - intros u j Hj. rewrite alen_aset. destruct (decide (u = t)) as [->|]; [|rewrite Hu in Hj by done; by eapply H3]. congruence.
  - rewrite (qtotal_aset _ _ _ _ Hq), alen_app, alen_aset. split; [unfold alen; cbn [length]; lia|]. split; [done|]. intros j. by rewrite Hg.
Qed.

(** A queue without one of its threads. *)
Lemma queues_without f' t i q q' : aget qs i = Some q -> f t = Some i -> f' t = None -> (forall u, u <> t -> f' u = f u) ->
  NoDup q' -> (forall u, u ∈ q' <-> u ∈ q /\ u <> t) -> alen q' = alen q - 1 ->
  queues_ok (aset qs i q') f' /\ qtotal (aset qs i q') = qtotal qs - 1.
Proof using Hok.
  intros Hq Hi Ht Hu Hnd Hin Hlen. destruct Hok as [H1 H2 H3]. pose proof (H3 _ _ Hi) as Hr.
  assert (Hg : forall j, aget (aset qs i q') j = if j =? i then Some q' else aget qs j).
  { intros j. destruct (Z.eqb_spec j i) as [->|]; [by apply aget_aset_eq|by apply aget_aset_ne]. }
  split; [split|].
  - intros j r. rewrite Hg. destruct (j =? i); [by intros [= <-]|apply H1].
  - intros j r u. rewrite Hg. destruct (Z.eqb_spec j i) as [->|Hj].
    + intros [= <-]. rewrite Hin, (H2 _ _ _ Hq). destruct (decide (u = t)) as [->|]; [naive_solver|]. rewrite Hu by done. naive_solver.
    + intros Hjr. rewrite (H2 _ _ _ Hjr). destruct (decide (u = t)) as [->|]; [|by rewrite Hu]. rewrite Ht, Hi. naive_solver.
  - intros u j Hj. rewrite alen_aset. destruct (decide (u = t)) as [->|]; [congruence|]. rewrite Hu in Hj by done. by eapply H3.
  - rewrite (qtotal_aset _ _ _ _ Hq). lia.
Qed.

Lemma queues_remove f' t i : f t = Some i -> f' t = None -> (forall u, u <> t -> f' u = f u) ->
  exists q, aget qs i = Some q /\ t ∈ q /\ remqueue_at i t qs = Some (aset qs i (remqueue t q)) /\
    queues_ok (aset qs i (remqueue t q)) f' /\ qtotal (aset qs i (remqueue t q)) = qtotal qs - 1.
Proof using Hok.
  intros Hi Ht Hu. destruct (queues_get i (q_range _ _ Hok _ _ Hi)) as [q Hq]. exists q. unfold remqueue_at. rewrite Hq.
  assert (Hin : t ∈ q) by by apply (q_in _ _ Hok _ _ _ Hq). pose proof (q_once _ _ Hok _ _ Hq) as Hnd. split; [done|]. split; [done|]. split; [done|].
  eapply queues_without; try done; [by apply NoDup_filter|intros; apply remqueue_in|by apply remqueue_length].
Qed.

(** Removal by following the links, without the index of the queue. *)
Lemma remqueue_everywhere t i q : f t = Some i -> aget qs i = Some q -> map (remqueue t) qs = aset qs i (remqueue t q).
Proof using Hok.
  intros Hi Hq. apply aget_ext; [rewrite alen_aset; unfold alen; by rewrite length_map|]. intros j _. pose proof (q_range _ _ Hok _ _ Hi) as Hr.
  assert (aget (map (remqueue t) qs) j = remqueue t <$> aget qs j) as ->.
  { unfold aget. case_decide; [|done]. apply list_lookup_fmap. }
  destruct (decide (j = i)) as [->|Hj]; [rewrite aget_aset_eq by done; by rewrite Hq|]. rewrite aget_aset_ne by done.
  destruct (aget qs j) as [r|] eqn:E; [|done]. cbn. f_equal. apply remqueue_absent. rewrite (q_in _ _ Hok _ _ _ E). congruence.
Qed.
End Queues.

(** ** The state *)

Definition place_of (h : option Z) (s : sched) (t : Z) : place :=
  mk_place (bool_decide (s_current s = t)) (bool_decide (p_next_thread s = t)) (bool_decide (t ∈ s_swapin s ++ s_swapping s))
    (bool_decide (p_idle_thread s = t)) (bool_decide (h = Some t)).

(** The queue that a thread belongs to. *)
Definition wait_of (th : thread) : option Z := if th_wait_event th =? 0 then None else Some (wait_hash (th_wait_event th)).
Definition run_of (n : rq_name) (th : thread) : option Z := if bool_decide (th_runq th = Some n) then Some (th_sched_pri' th) else None.
Definition wait_at (s : sched) (t : Z) : option Z := get_th t s ≫= wait_of.
Definition run_at (n : rq_name) (s : sched) (t : Z) : option Z := get_th t s ≫= run_of n.

Record rq_ok (rq : run_queue) (f : Z -> option Z) : Prop := {
  r_len : alen (rq_runq rq) = NRQS;
  r_queues : queues_ok (rq_runq rq) f;
  r_count : rq_count rq = qtotal (rq_runq rq);
  r_low : 0 <= rq_low rq < NRQS;
  r_below : forall i, 0 < rq_count rq -> 0 <= i < rq_low rq -> aget (rq_runq rq) i = Some []
}.

(** The processor: its state, the queue of idle processors and the thread that
    was given to it. *)
Definition proc_ok `{C : SchedConfig} (s : sched) : Prop :=
  (p_state s = PROCESSOR_RUNNING /\ s_idle_queue s = [] /\ s_idle_count s = 0 /\ p_next_thread s = THREAD_NULL) \/
  (p_state s = PROCESSOR_IDLE /\ s_idle_queue s = [master_processor] /\ s_idle_count s = 1 /\ p_next_thread s = THREAD_NULL) \/
  (p_state s = PROCESSOR_DISPATCHING /\ s_idle_queue s = [] /\ s_idle_count s = 0 /\ p_next_thread s <> THREAD_NULL).

(** Where threads are known. *)
Record known (h : option Z) (s : sched) : Prop := {
  n_null : get_th THREAD_NULL s = None;
  n_cur : is_Some (get_th (s_current s) s);
  n_idle : is_Some (get_th (p_idle_thread s) s);
  n_next : p_next_thread s <> THREAD_NULL -> is_Some (get_th (p_next_thread s) s);
  n_coming : forall t, t ∈ s_swapin s ++ s_swapping s -> is_Some (get_th t s);
  n_once : NoDup (s_swapin s ++ s_swapping s);
  n_hand : forall t, h = Some t -> is_Some (get_th t s)
}.

(** The invariant while the executing code has taken the thread [h]. *)
Record inv `{C : SchedConfig} (h : option Z) (s : sched) : Prop := {
  i_th : forall t th, get_th t s = Some th -> th_ok (place_of h s t) th;
  i_known : known h s;
  i_wait_len : alen (s_wait s) = NUMQUEUES;
  i_wait : queues_ok (s_wait s) (wait_at s);
  i_rq : forall n, rq_ok (get_rq n s) (run_at n s);
  i_proc : proc_ok s;
  i_tick : is_u32 (s_tick s)
}.

(** Between operations, nothing is taken, and a processor that is not running
    anything runs its idle thread. *)
Definition sched_ok `{C : SchedConfig} (s : sched) : Prop := inv None s /\ (p_state s <> PROCESSOR_RUNNING -> s_current s = p_idle_thread s).
