(* ===== verification/KernSchedOps.v ===== *)
(** * The scheduler: its operations keep the invariant *)

From S2P Require Import Prelude Counting KernSched KernSwitch KernSchedInv.

(** ** Threads *)

Lemma get_put t th s : get_th t (put_th t th s) = Some th.
Proof. unfold get_th, put_th. cbn. apply lookup_insert_eq. Qed.

Lemma get_put_ne t u th s : t <> u -> get_th u (put_th t th s) = get_th u s.
Proof. unfold get_th, put_th. cbn. apply lookup_insert_ne. Qed.

Lemma get_put_case t u th s : get_th u (put_th t th s) = if bool_decide (u = t) then Some th else get_th u s.
Proof. case_bool_decide as E; [subst; apply get_put|by apply get_put_ne]. Qed.

Lemma th_put_put t th th' s : put_th t th' (put_th t th s) = put_th t th' s.
Proof. unfold put_th. cbn. by rewrite insert_insert_eq. Qed.

Lemma implb_elim2 a b c : implb a (implb b c) = true -> a = true -> b = true -> c = true.
Proof. by destruct a, b, c. Qed.

(** A fact about the bits and the place of a thread, by evaluation in all cases. *)
Ltac places b p q z :=
  match goal with
  | |- _ = true -> _ = true -> _ = true => apply implb_elim2
  | |- _ = true -> _ = true => apply implb_elim
  end;
  match goal with
  | |- ?G = true => let f := eval pattern b, p, q, z in G in match f with ?g b p q z => apply (all_places g) end
  end;
  vm_compute; reflexivity.

Section Ops.
Context {C : SchedConfig}.

(** ** The threads of a state, one by one *)

(** Only the thread [t] changes hands. *)
Definition same_hand (t : Z) (h h' : option Z) : Prop := forall u, u <> t -> bool_decide (h' = Some u) = bool_decide (h = Some u).

Lemma same_hand_refl t h : same_hand t h h.
Proof using. done. Qed.

Lemma take_hand t : same_hand t None (Some t).
Proof using. intros u Hu. rewrite !bool_decide_false; congruence. Qed.

Lemma drop_hand t : same_hand t (Some t) None.
Proof using. intros u Hu. rewrite !bool_decide_false; congruence. Qed.

(** What decides where threads are. *)
Definition whereabouts (s : sched) := (s_current s, p_next_thread s, s_swapin s, s_swapping s, p_idle_thread s, (p_state s, s_idle_queue s, s_idle_count s, s_tick s)).

Lemma place_same h s s' t : whereabouts s' = whereabouts s -> place_of h s' t = place_of h s t.
Proof using. intros [= E1 E2 E3 E4 E5 E6 E7 E8 E9]. unfold place_of. by rewrite E1, E2, E3, E4, E5. Qed.

(** One thread and the queues change. *)
Lemma inv_change h h' t th th' s s' : inv h s -> get_th t s = Some th -> same_hand t h h' -> whereabouts s' = whereabouts s -> s_threads s' = <[t := th']> (s_threads s) ->
  th_ok (place_of h' s t) th' -> alen (s_wait s') = NUMQUEUES -> queues_ok (s_wait s') (wait_at s') -> (forall n, rq_ok (get_rq n s') (run_at n s')) -> inv h' s'.
Proof using.
  intros [It Ik Il Iw Ir Ip Itk] Ht Hh Hw Hth Hok Hl Hq Hr.
  assert (Hget : forall u, get_th u s' = if bool_decide (u = t) then Some th' else get_th u s).
  { intros u. unfold get_th. rewrite Hth. case_bool_decide as E; [subst; apply lookup_insert_eq|by apply lookup_insert_ne]. }
  assert (Hsome : forall u, is_Some (get_th u s) -> is_Some (get_th u s')).
  { intros u Hu. rewrite Hget. case_bool_decide; [by eexists|done]. }
  pose proof Hw as [= E1 E2 E3 E4 E5 E6 E7 E8 E9]. constructor; try done.
  - intros u x. rewrite Hget, (place_same _ s) by done. case_bool_decide as E; [intros [= <-]; by subst|]. intros Hx. specialize (It _ _ Hx).
    assert (place_of h' s u = place_of h s u) as -> by (unfold place_of; by rewrite Hh). done.
  - destruct Ik as [K1 K2 K3 K4 K5 K6 K7]. constructor; rewrite ?E1, ?E2, ?E3, ?E4, ?E5; auto.
    + rewrite Hget. case_bool_decide as E; [|done]. congruence.
    + intros u Hu. destruct (decide (u = t)) as [->|Hne]; [rewrite Hget, bool_decide_true by done; by eexists|]. apply Hsome, K7.
      specialize (Hh u Hne). rewrite (bool_decide_true (h' = _)) in Hh by done. symmetry in Hh. by apply bool_decide_eq_true in Hh.
  - unfold proc_ok in *. rewrite E2, E6, E7, E8. exact Ip.
  - by rewrite E9.
Qed.

Lemma wait_at_put t th th' s : get_th t s = Some th -> wait_of th' = wait_of th -> forall u, wait_at (put_th t th' s) u = wait_at s u.
Proof using. intros Ht Hw u. unfold wait_at. rewrite get_put_case. case_bool_decide as E; [subst; by rewrite Ht|done]. Qed.

Lemma run_at_put n t th th' s : get_th t s = Some th -> run_of n th' = run_of n th -> forall u, run_at n (put_th t th' s) u = run_at n s u.
Proof using. intros Ht Hw u. unfold run_at. rewrite get_put_case. case_bool_decide as E; [subst; by rewrite Ht|done]. Qed.

Lemma rq_ext rq f f' : rq_ok rq f -> (forall u, f' u = f u) -> rq_ok rq f'.
Proof using. intros [R1 R2 R3 R4 R5] E. constructor; try done. by eapply queues_ext. Qed.

(** A change of one thread that leaves the queues as they are. *)
Lemma inv_put h h' t th th' s : inv h s -> get_th t s = Some th -> same_hand t h h' -> th_ok (place_of h' s t) th' ->
  wait_of th' = wait_of th -> (forall n, run_of n th' = run_of n th) -> inv h' (put_th t th' s).
Proof using.
  intros I Ht Hh Hok Hw Hr. eapply inv_change; try done; [apply I|..].
  - eapply queues_ext; [apply I|]. by eapply wait_at_put.
  - intros n. replace (get_rq n (put_th t th' s)) with (get_rq n s) by by destruct n. eapply rq_ext; [apply I|]. by eapply run_at_put.
Qed.

(** One thread and one run queue change. *)
Lemma inv_put_rq n h h' t th th' rq s : inv h s -> get_th t s = Some th -> same_hand t h h' -> th_ok (place_of h' s t) th' ->
  wait_of th' = wait_of th -> (forall m, m <> n -> run_of m th' = run_of m th) -> rq_ok rq (run_at n (put_th t th' s)) -> inv h' (put_th t th' (put_rq n rq s)).
Proof using.
  intros I Ht Hh Hok Hw Hr Hrq. eapply (inv_change _ _ _ _ th' _ _ I Ht Hh); [by destruct n|by destruct n|done|..].
  - replace (s_wait (put_th t th' (put_rq n rq s))) with (s_wait s) by by destruct n. apply I.
  - replace (s_wait (put_th t th' (put_rq n rq s))) with (s_wait s) by by destruct n. eapply queues_ext; [apply I|]. intros u.
    rewrite <- (wait_at_put t th th' s Ht Hw u). by destruct n.
  - intros m. destruct (decide (m = n)) as [->|Hne].
    + replace (get_rq n (put_th t th' (put_rq n rq s))) with rq by by destruct n. eapply rq_ext; [exact Hrq|]. by destruct n.
    + replace (get_rq m (put_th t th' (put_rq n rq s))) with (get_rq m s) by by destruct m, n. eapply rq_ext; [apply I|]. intros u.
      rewrite <- (run_at_put m t th th' s Ht (Hr m Hne) u). by destruct n.
Qed.

(** Changes of a thread without influence on its place. *)
Lemma inv_put_same h t th th' s : inv h s -> get_th t s = Some th -> th_state th' = th_state th -> th_suspend_count th' = th_suspend_count th ->
  stops_ok th' -> th_stack_privilege th' = th_stack_privilege th ->
  th_runq th' = th_runq th -> th_wait_event th' = th_wait_event th -> pri_ok (th_pri th') -> (th_runq th = None \/ th_sched_pri' th' = th_sched_pri' th) -> inv h (put_th t th' s).
Proof using.
  intros I Ht E1 E2 E2' E3 E4 E5 E6 E7. eapply inv_put; try done.
  - destruct (i_th _ _ I _ _ Ht) as [K1 K2 K3 K4 K5 K6 K7]. unfold tb, held, on_runq in *.
    constructor; unfold tb, held, on_runq; rewrite ?E1, ?E2, ?E3, ?E4, ?E5 in *; auto.
  - unfold wait_of. by rewrite E5.
  - intros n. unfold run_of. rewrite E4. destruct E7 as [->| ->]; [|done]. by rewrite bool_decide_false.
Qed.

(** A change of the state word. *)
Lemma th_ok_bits p p' th b' : th_ok p th -> okb b' p' (on_runq th) (held th) = true -> at_idle p' = at_idle p -> (b_w (tb th) = true -> b_w b' = true \/ th_wait_event th = 0) ->
  th_ok p' (th_set_state (enc b') th).
Proof using.
  intros [K1 K2 K3 K4 K5 K6 K7] Hb Hi Hw. constructor; unfold tb; cbn [th_state th_set_state]; rewrite ?bits_enc; auto.
  - cbn [th_wait_event th_set_state]. intros He. destruct (Hw (K5 He)); [done|]. by contradict He.
  - rewrite Hi. auto.
Qed.

(** ** Facts on places *)

Lemma in_hand b p q z : okb b p q z = true -> at_hand p = true ->
  negb (at_cur p) && negb q && negb (at_next p) && negb (at_coming p) && negb (at_idle p) && b_r b && negb (b_c b) = true.
Proof using. places b p q z. Qed.

Definition set_hand x p := mk_place (at_cur p) (at_next p) (at_coming p) (at_idle p) x.
Definition set_next x p := mk_place (at_cur p) x (at_coming p) (at_idle p) (at_hand p).

Lemma place_hand t s : place_of (Some t) s t = set_hand true (place_of None s t).
Proof using. unfold place_of, set_hand. cbn. by rewrite (bool_decide_true (Some t = Some t)). Qed.

Lemma place_no_hand t s : set_hand false (place_of None s t) = place_of None s t.
Proof using. done. Qed.

Lemma to_runq b p q z : okb b (set_hand true p) q z = true -> negb (b_w b) = true -> okb b (set_hand false p) true z = true.
Proof using. places b p q z. Qed.

Lemma to_next b p q z : okb b (set_hand true p) q z = true -> negb (b_w b) = true -> okb b (set_next true (set_hand false p)) q z = true.
Proof using. places b p q z. Qed.

Lemma from_runq b p q z : okb b (set_hand false p) q z = true -> q = true -> okb b (set_hand true p) false z = true.
Proof using. places b p q z. Qed.

Lemma runq_waits b p q z : okb b (set_hand false p) q z = true -> q = true -> b_r b && negb (b_w b) && negb (at_idle p) && negb (at_cur p) && negb (b_c b) = true.
Proof using. places b p q z. Qed.

(** ** Priorities *)

Lemma priority_range p : pri_ok p -> 0 <= do_priority_computation p < NRQS.
Proof using.
  intros ((H1 & H1') & _ & H2 & _). unfold do_priority_computation, NRQS in *. pose proof (proj2 (Z.shiftr_nonneg (th_sched_usage p) (PRI_SHIFT + SCHED_SHIFT)) H2).
  destruct (Z.ltb_spec 31 (th_priority p + Z.shiftr (th_sched_usage p) (PRI_SHIFT + SCHED_SHIFT))); lia.
Qed.

Lemma age_nonneg sh u : 0 <= age sh u.
Proof using. unfold age. destruct (0 <? sh.2); apply u32_range. Qed.

Lemma compute_pri_ok p : pri_ok p -> pri_ok (compute_my_priority p).
Proof using. intros H. pose proof (priority_range p H). destruct H as (? & _ & ? & ?). unfold pri_ok. cbn. tauto. Qed.

Lemma stamp_catches_up tick stamp : is_u32 tick -> u32 (stamp + u32 (tick - stamp)) = tick.
Proof using.
  intros H. unfold u32. rewrite Zplus_mod_idemp_r. replace (stamp + (tick - stamp)) with tick by lia. by apply u32_small.
Qed.

Lemma update_priority_ok tick p : is_u32 tick -> pri_ok p -> th_sched_stamp p <> tick ->
  exists p', update_priority tick p = Some p' /\ pri_ok p' /\ th_sched_stamp p' = tick.
Proof using.
  intros Ht Hp Hs. unfold update_priority. pose proof (u32_range (tick - th_sched_stamp p)) as Hr. set (ticks := u32 (tick - th_sched_stamp p)) in *.
  destruct (Z.eqb_spec ticks 0) as [E|E]; cbn [negb].
  { exfalso. apply Hs. rewrite <- (stamp_catches_up tick (th_sched_stamp p)) by done. fold ticks. rewrite E, Z.add_0_r. symmetry. apply u32_small, Hp. }
  assert (Hfin : forall p', pri_ok p' -> pri_ok (if (th_policy p' =? POLICY_TIMESHARE) && (th_depress_priority p' <? 0) then compute_my_priority p' else p') /\
    th_sched_stamp (if (th_policy p' =? POLICY_TIMESHARE) && (th_depress_priority p' <? 0) then compute_my_priority p' else p') = th_sched_stamp p').
  { intros p' H'. destruct (_ && _); [split; [by apply compute_pri_ok|done]|done]. }
  destruct Hp as (H1 & H2 & H3 & H4). destruct (Z.ltb_spec 30 ticks).
  - eexists. split; [reflexivity|]. destruct (Hfin (pri_set_sched_delta 0 (pri_set_cpu_delta 0 (pri_set_sched_usage 0 (pri_set_cpu_usage 0
      (thread_timer_delta (pri_set_sched_stamp (u32 (th_sched_stamp p + ticks)) p))))))) as [F1 F2]; [unfold pri_ok; cbn; pose proof (u32_range (th_sched_stamp p + ticks)); intuition lia|].
    split; [exact F1|]. rewrite F2. cbn. by apply stamp_catches_up.
  - destruct (aget_is_Some wait_shift ticks) as [sh ->]; [change (alen wait_shift) with 32; unfold is_u32 in Hr; lia|]. eexists. split; [reflexivity|].
    match goal with |- pri_ok (if (th_policy ?x =? _) && _ then _ else _) /\ _ => destruct (Hfin x) as [F1 F2] end.
    { unfold pri_ok. cbn. pose proof (u32_range (th_sched_stamp p + ticks)). match goal with |- context [age ?a ?b] => pose proof (age_nonneg a b) end. tauto. }
    split; [exact F1|]. rewrite F2. cbn. by apply stamp_catches_up.
Qed.

Lemma update_if_due_ok tick p : is_u32 tick -> pri_ok p -> exists p', update_if_due tick p = Some p' /\ pri_ok p' /\ th_sched_stamp p' = tick.
Proof using.
  intros Ht Hp. unfold update_if_due. destruct (Z.eqb_spec (th_sched_stamp p) tick); cbn [negb]; [by exists p|by apply update_priority_ok].
Qed.

(** ** Run queues *)

(** A thread that was taken, with what that says of it. *)
Lemma hand_facts t th s : inv (Some t) s -> get_th t s = Some th -> th_runq th = None /\ b_r (tb th) = true /\ s_current s <> t /\ p_idle_thread s <> t /\ p_next_thread s <> t.
Proof using.
  intros I Ht. pose proof (k_place _ _ (i_th _ _ I _ _ Ht)) as H. pose proof (in_hand _ _ _ _ H) as Hh. rewrite place_hand in Hh. specialize (Hh eq_refl).
  unfold place_of, set_hand, on_runq in Hh. cbn in Hh. rewrite !andb_true_iff, !negb_true_iff, !bool_decide_eq_false in Hh. repeat split; try tauto.
  destruct (th_runq th); [|done]. exfalso. naive_solver.
Qed.

Lemma th_ok_runq p p' th r : th_ok p th -> okb (tb th) p' (bool_decide (r <> None)) (held th) = true -> at_idle p' = at_idle p -> th_ok p' (th_set_runq r th).
Proof using. intros [K1 K2 K3 K4 K5 K6 K7] H Hi. constructor; try done. rewrite Hi. exact K7. Qed.

Lemma th_ok_pri p th pr : th_ok p th -> pri_ok pr -> th_ok p (th_set_pri pr th).
Proof using. intros [K1 K2 K3 K4 K5 K6 K7] H. by constructor. Qed.

Lemma th_ok_place p p' th : th_ok p th -> okb (tb th) p' (on_runq th) (held th) = true -> at_idle p' = at_idle p -> th_ok p' th.
Proof using. intros [K1 K2 K3 K4 K5 K6 K7] H Hi. constructor; try done. rewrite Hi. exact K7. Qed.

(** A queue below the hint, or of an empty run queue, is empty. *)
Lemma rq_below rq f i : rq_ok rq f -> 0 <= i < NRQS -> (0 < rq_count rq -> i < rq_low rq) -> aget (rq_runq rq) i = Some [].
Proof using.
  intros [R1 R2 R3 R4 R5] Hi Hl. pose proof (qtotal_nonneg (rq_runq rq)). destruct (decide (0 < rq_count rq)) as [Hc|Hc]; [apply R5; [done|specialize (Hl Hc); lia]|].
  destruct (queues_get (rq_runq rq) i) as [q Hq]; [by rewrite R1|]. rewrite Hq. f_equal. eapply qtotal_zero; [|exact Hq]. lia.
Qed.

(** The queues of a run queue after [t] came in at its priority. *)
Definition enqueued (t pri : Z) (rq rq' : run_queue) : Prop :=
  rq_count rq' = rq_count rq + 1 /\ forall j, aget (rq_runq rq') j = if j =? pri then (fun q => q ++ [t]) <$> aget (rq_runq rq) pri else aget (rq_runq rq) j.

Lemma enqueue_ok n t th s : inv (Some t) s -> get_th t s = Some th -> b_w (tb th) = false ->
  exists rq, run_queue_enqueue n t s = Some (put_th t (th_set_runq (Some n) th) (put_rq n rq s)) /\ enqueued t (th_sched_pri' th) (get_rq n s) rq /\
    inv None (put_th t (th_set_runq (Some n) th) (put_rq n rq s)).
Proof using.
  intros I Ht Hw. destruct (hand_facts _ _ _ I Ht) as (Hq & Hrun & _). pose proof (i_th _ _ I _ _ Ht) as K. destruct (k_pri _ _ K) as (_ & Hp & _).
  fold (th_sched_pri' th) in Hp. unfold NRQS in Hp. unfold run_queue_enqueue. rewrite Ht.
  rewrite !(u32_small (th_sched_pri' th)) by (unfold is_u32, wordsize; lia). destruct (Z.leb_spec NRQS (th_sched_pri' th)) as [Hbig|_]; [unfold NRQS in Hbig; lia|].
  destruct (i_rq _ _ I n) as [R1 R2 R3 R4 R5].
  destruct (queues_enqueue _ _ R2 (run_at n (put_th t (th_set_runq (Some n) th) s)) t (th_sched_pri' th)) as (qs & -> & Q1 & Q2 & Q3 & Q4).
  - unfold run_at. rewrite Ht. cbn. unfold run_of. rewrite Hq. by rewrite bool_decide_false.
  - rewrite R1. unfold NRQS. lia.
  - unfold run_at. rewrite get_put. cbn. unfold run_of. by rewrite bool_decide_true.
  - intros u Hu. unfold run_at. by rewrite get_put_ne by done.
  - eexists. split; [reflexivity|]. split; [split; [done|exact Q4]|]. eapply inv_put_rq; try done; [apply drop_hand|..].
    + rewrite <- place_no_hand. eapply th_ok_runq; [exact K| |by rewrite place_hand]. apply (to_runq _ _ (on_runq th)); [rewrite <- place_hand; apply K|by rewrite Hw].
    + intros m Hm. unfold run_of. rewrite Hq, !bool_decide_false by (cbn; congruence). done.
    + constructor; cbn.
      * by rewrite Q3.
      * exact Q1.
      * lia.
      * destruct (_ || _); [unfold NRQS; lia|exact R4].
      * intros i _ Hi. rewrite Q4. destruct (Z.ltb_spec (th_sched_pri' th) (rq_low (get_rq n s))), (Z.eqb_spec (rq_count (get_rq n s)) 0); cbn [orb] in Hi;
          (destruct (Z.eqb_spec i (th_sched_pri' th)); [lia|]; apply (rq_below _ _ _ (i_rq _ _ I n)); unfold NRQS in *; lia).
Qed.

(** ** What does not move *)

(** What waking threads leaves as it is of a thread: all but whether it waits and
    can run, its event and result, timer, priority and run queue. *)
Definition core (th : thread) :=
  (set_w false (set_r false (tb th)), (th_suspend_count th, th_user_stop_count th, th_wake_active th, th_swap_func th, th_ast th), (th_bound th, th_kernel_stack th, th_stack_privilege th)).

Definition fixed (s : sched) := (s_current s, (s_swapin s, s_swapping s, p_idle_thread s, s_tick s), (s_stack s, s_stack_free s)).

Record quiet (s s' : sched) : Prop := {
  z_fixed : fixed s' = fixed s;
  z_runs : p_state s = PROCESSOR_RUNNING -> p_state s' = PROCESSOR_RUNNING;
  z_core : forall u, core <$> get_th u s' = core <$> get_th u s
}.

Lemma quiet_refl s : quiet s s.
Proof using. done. Qed.

Lemma quiet_trans s1 s2 s3 : quiet s1 s2 -> quiet s2 s3 -> quiet s1 s3.
Proof using. intros [A1 A2 A3] [B1 B2 B3]. constructor; [by rewrite B1|auto|intros u; by rewrite B3]. Qed.

Lemma quiet_put t th th' s : get_th t s = Some th -> core th' = core th -> quiet s (put_th t th' s).
Proof using. intros Ht Hc. constructor; try done. intros u. rewrite get_put_case. case_bool_decide as E; [subst; rewrite Ht; cbn; by rewrite Hc|done]. Qed.

(** The parts of the state that the invariant is about. *)
Lemma inv_flags h s s' : inv h s -> whereabouts s' = whereabouts s -> (s_threads s', s_wait s', s_pset s', s_proc s') = (s_threads s, s_wait s, s_pset s, s_proc s) -> inv h s'.
Proof using.
  intros [It Ik Il Iw Ir Ip Itk] Hw [= F1 F2 F3 F4]. pose proof Hw as [= E1 E2 E3 E4 E5 E6 E7 E8 E9].
  assert (Hg : forall u, get_th u s' = get_th u s) by (intros u; unfold get_th; by rewrite F1). constructor; rewrite ?F2; try done.
  - intros t th. rewrite Hg, (place_same _ s) by done. apply It.
  - destruct Ik. constructor; rewrite ?E1, ?E2, ?E3, ?E4, ?E5; intros; rewrite ?Hg; auto.
  - eapply queues_ext; [exact Iw|]. intros u. unfold wait_at. by rewrite Hg.
  - intros n. replace (get_rq n s') with (get_rq n s) by (destruct n; cbn; congruence). eapply rq_ext; [apply Ir|]. intros u. unfold run_at. by rewrite Hg.
  - unfold proc_ok in *. rewrite E2, E6, E7, E8. exact Ip.
  - by rewrite E9.
Qed.

(** ** Making a thread runnable *)

(** What [thread_setrun] does to the threads: it gives [t] a priority and a run
    queue, and no other thread changes. *)
Record made_runnable (t : Z) (th : thread) (s s' : sched) : Prop := {
  m_quiet : quiet s s';
  m_wait : s_wait s' = s_wait s;
  m_other : forall u, u <> t -> get_th u s' = get_th u s;
  m_self : exists p r, get_th t s' = Some (th_set_runq r (th_set_pri p th))
}.

(** The idle processor takes the thread. *)
Lemma dispatch_next t th s rest : inv (Some t) s -> get_th t s = Some th -> b_w (tb th) = false -> p_state s = PROCESSOR_IDLE -> s_idle_queue s = [master_processor] -> s_idle_count s = 1 ->
  rest = [] -> inv None (p_set_state PROCESSOR_DISPATCHING (p_set_next_thread t (s_set_idle_count (s_idle_count s - 1) (s_set_idle_queue rest s)))).
Proof using.
  intros I Ht Hw Hp Hq Hc ->. destruct (hand_facts _ _ _ I Ht) as (Hrq & Hr & _). pose proof I as [It Ik Il Iw Ir Ip Itk].
  assert (Hn : p_next_thread s = THREAD_NULL) by (unfold proc_ok in Ip; rewrite Hp in Ip; by naive_solver). pose proof (n_null _ _ Ik) as H0. constructor; try done.
  - intros u x Hx. change (get_th u s = Some x) in Hx. pose proof (It _ _ Hx) as K. destruct (decide (u = t)) as [->|Hne].
    + simplify_eq. assert (place_of None (p_set_state PROCESSOR_DISPATCHING (p_set_next_thread t (s_set_idle_count (s_idle_count s - 1) (s_set_idle_queue [] s)))) t =
        set_next true (set_hand false (place_of None s t))) as -> by (unfold place_of, set_next, set_hand; cbn; by rewrite (bool_decide_true (t = t))).
      eapply th_ok_place; [exact K| |done]. apply to_next; [rewrite <- place_hand; apply K|by rewrite Hw].
    + assert (place_of None (p_set_state PROCESSOR_DISPATCHING (p_set_next_thread t (s_set_idle_count (s_idle_count s - 1) (s_set_idle_queue [] s)))) u =
        place_of (Some t) s u) as ->; [|done]. unfold place_of. cbn. f_equal; [|by rewrite !bool_decide_false by congruence].
      rewrite (bool_decide_false (t = u)) by done. symmetry. apply bool_decide_false. rewrite Hn. intros <-. congruence.
  - destruct Ik. constructor; try done. all: intros _; cbn; by eexists.
  - right. right. cbn. repeat split; [lia|]. intros ->. congruence.
Qed.

Lemma runq_none th : th_runq th = None -> th_set_runq None th = th.
Proof using. intros <-. by destruct th. Qed.

Lemma setrun_ok t th may_preempt s : inv (Some t) s -> get_th t s = Some th -> b_w (tb th) = false ->
  exists s', thread_setrun t may_preempt s = Some s' /\ inv None s' /\ made_runnable t th s s'.
Proof using.
  intros I Ht Hw. destruct (hand_facts _ _ _ I Ht) as (Hrq & Hr & Hc & Hi & Hn). pose proof (i_th _ _ I _ _ Ht) as K. unfold thread_setrun. rewrite Ht.
  destruct (update_if_due_ok (s_tick s) (th_pri th)) as (p & -> & Hp & _); [apply I|apply K|]. cbn [th_runq th_set_pri th_bound]. rewrite Hrq, bool_decide_true by done.
  set (th1 := th_set_pri p th). set (s1 := put_th t th1 s).
  assert (I1 : inv (Some t) s1).
  { eapply inv_put; try done; [by apply th_ok_pri|]. intros n. unfold run_of. cbn. by rewrite Hrq. }
  assert (H1 : get_th t s1 = Some th1) by apply get_put. assert (Q1 : quiet s s1) by by eapply quiet_put.
  assert (O1 : forall u, u <> t -> get_th u s1 = get_th u s) by (intros; by apply get_put_ne).
  assert (Hw1 : b_w (tb th1) = false) by done.
  destruct (i_proc _ _ I1) as [(P1 & P2 & P3 & P4)|[(P1 & P2 & P3 & P4)|(P1 & P2 & P3 & P4)]].
  2: { rewrite P2, P3. cbn [Z.ltb Z.compare]. eexists. split; [reflexivity|]. split; [change (inv None (p_set_state PROCESSOR_DISPATCHING (p_set_next_thread t (s_set_idle_count (1 - 1) (s_set_idle_queue [] s1))))); rewrite <- P3 at 1; by eapply dispatch_next|].
       constructor; [|done|exact O1|exists p, None; rewrite runq_none by done; exact H1]. destruct Q1 as [A1 A2 A3]. constructor; [exact A1|cbn; change (p_state s1) with (p_state s) in P1; intros X; rewrite X in P1; done|exact A3]. }
  all: rewrite P3; cbn [Z.ltb Z.compare].
  all: set (s2 := if th_bound th then ast_on AST_BLOCK s1 else s1); assert (I2 : inv (Some t) s2) by (eapply inv_flags; [exact I1|by destruct (th_bound th)|by destruct (th_bound th)]);
    assert (H2 : get_th t s2 = Some th1) by (unfold s2; by destruct (th_bound th)); set (n := if th_bound th then Rq_proc else Rq_pset);
    destruct (enqueue_ok n t th1 s2 I2 H2 Hw1) as (rq & -> & _ & I3); set (s3 := put_th t (th_set_runq (Some n) th1) (put_rq n rq s2)) in *;
    destruct (n_cur _ _ (i_known _ _ I3)) as [cur ->]; eexists; (split; [reflexivity|]);
    (split; [eapply inv_flags; [exact I3|by destruct (_ && _)|by destruct (_ && _)]|]).
  all: assert (Hs3 : fixed s3 = fixed s /\ p_state s3 = p_state s /\ s_wait s3 = s_wait s) by (unfold s3, n, s2; by destruct (th_bound th)).
  all: assert (O3 : forall u, u <> t -> get_th u s3 = get_th u s) by (intros u Hu; unfold s3; rewrite get_put_ne by done; unfold n, s2; destruct (th_bound th); apply O1, Hu).
  all: assert (H3 : get_th t s3 = Some (th_set_runq (Some n) th1)) by apply get_put.
  all: destruct Hs3 as (F1 & F2 & F3); constructor; [|by destruct (_ && _)|by destruct (_ && _)|exists p, (Some n); by destruct (_ && _)].
  all: constructor; [by destruct (_ && _)|intros X; rewrite <- F2 in X; by destruct (_ && _)|].
  all: intros u; transitivity (core <$> get_th u s3); [by destruct (_ && _)|]; destruct (decide (u = t)) as [->|Hne]; [by rewrite H3, Ht|by rewrite O3].
Qed.

(** ** Taking a thread off a run queue *)

(** A thread on a run queue, and what that says of it. *)
Lemma runq_facts n t th s : inv None s -> get_th t s = Some th -> th_runq th = Some n ->
  b_r (tb th) = true /\ b_w (tb th) = false /\ b_c (tb th) = false /\ s_current s <> t /\ p_idle_thread s <> t.
Proof using.
  intros I Ht Hq. pose proof (k_place _ _ (i_th _ _ I _ _ Ht)) as H. rewrite <- place_no_hand in H.
  assert (Hon : on_runq th = true) by (unfold on_runq; rewrite Hq; by apply bool_decide_true). pose proof (runq_waits _ _ _ _ H Hon) as H'. clear H. rename H' into H.
  unfold place_of in H. cbn in H. rewrite !andb_true_iff, !negb_true_iff, !bool_decide_eq_false in H. tauto.
Qed.

(** A change of the hint or of anything in a run queue but its threads. *)
Lemma inv_set_rq h n rq s : inv h s -> rq_ok rq (run_at n s) -> inv h (put_rq n rq s).
Proof using.
  intros [It Ik Il Iw Ir Ip Itk] H.
  assert (Hg : forall u, get_th u (put_rq n rq s) = get_th u s) by by destruct n.
  assert (Hw : whereabouts (put_rq n rq s) = whereabouts s) by by destruct n. pose proof Hw as [= E1 E2 E3 E4 E5 E6 E7 E8 E9].
  constructor.
  - intros t th. rewrite Hg, (place_same _ s) by done. apply It.
  - destruct Ik. constructor; rewrite ?E1, ?E2, ?E3, ?E4, ?E5; intros; rewrite ?Hg; auto.
  - by destruct n.
  - replace (s_wait (put_rq n rq s)) with (s_wait s) by by destruct n. eapply queues_ext; [exact Iw|]. intros u. unfold wait_at. by rewrite Hg.
  - intros m. assert (forall u, run_at m (put_rq n rq s) u = run_at m s u) by (intros u; unfold run_at; by rewrite Hg).
    destruct (decide (m = n)) as [->|Hne].
    + replace (get_rq n (put_rq n rq s)) with rq by by destruct n. by eapply rq_ext.
    + replace (get_rq m (put_rq n rq s)) with (get_rq m s) by by destruct m, n. by eapply rq_ext; [apply Ir|].
  - unfold proc_ok in *. rewrite E2, E6, E7, E8. exact Ip.
  - by rewrite E9.
Qed.

Lemma take_ok n t th qs s : inv None s -> get_th t s = Some th -> th_runq th = Some n ->
  queues_ok qs (run_at n (put_th t (th_set_runq None th) s)) -> qtotal qs = qtotal (rq_runq (get_rq n s)) - 1 -> alen qs = NRQS ->
  (forall i, aget (rq_runq (get_rq n s)) i = Some [] -> aget qs i = Some []) ->
  inv (Some t) (put_th t (th_set_runq None th) (put_rq n (mk_run_queue qs (rq_low (get_rq n s)) (rq_count (get_rq n s) - 1)) s)).
Proof using.
  intros I Ht Hq Hqs Htot Hlen Hemp. pose proof (i_th _ _ I _ _ Ht) as K. destruct (i_rq _ _ I n) as [R1 R2 R3 R4 R5].
  eapply inv_put_rq; try done; [apply take_hand|..].
  - rewrite place_hand. eapply th_ok_runq; [exact K| |done]. pose proof (k_place _ _ K) as Hp. rewrite <- place_no_hand in Hp. apply (from_runq _ _ _ _ Hp).
    unfold on_runq. rewrite Hq. by apply bool_decide_true.
  - intros m Hm. unfold run_of. cbn. rewrite Hq, !bool_decide_false by congruence. done.
  - constructor; cbn; try done; [lia|]. intros i Hc Hi. apply Hemp, R5; [lia|done].
Qed.

Lemma rem_runq_ok t th n s : inv None s -> get_th t s = Some th -> th_runq th = Some n ->
  exists rq, rem_runq t s = Some (put_th t (th_set_runq None th) (put_rq n rq s), Some n) /\ inv (Some t) (put_th t (th_set_runq None th) (put_rq n rq s)).
Proof using.
  intros I Ht Hq. unfold rem_runq. rewrite Ht, Hq. eexists. split; [reflexivity|]. destruct (i_rq _ _ I n) as [R1 R2 R3 R4 R5].
  assert (Hi : run_at n s t = Some (th_sched_pri' th)) by (unfold run_at; rewrite Ht; cbn; unfold run_of; by rewrite Hq, bool_decide_true).
  destruct (queues_remove _ _ R2 (run_at n (put_th t (th_set_runq None th) s)) t (th_sched_pri' th) Hi) as (q & Hg & Hin & _ & Q1 & Q2).
  - unfold run_at. by rewrite get_put.
  - intros u Hu. unfold run_at. by rewrite get_put_ne.
  - apply take_ok; try done; rewrite (remqueue_everywhere _ _ R2 t (th_sched_pri' th) q) by done; [exact Q1|exact Q2|by rewrite alen_aset|].
    intros i He. destruct (decide (i = th_sched_pri' th)) as [->|]; [|by rewrite aget_aset_ne]. rewrite Hg in He. injection He as ->. by apply not_elem_of_nil in Hin.
Qed.

Lemma dequeue_ok n i t q s : inv None s -> aget (rq_runq (get_rq n s)) i = Some (t :: q) ->
  exists th rq, get_th t s = Some th /\ th_runq th = Some n /\ th_sched_pri' th = i /\ dequeue_at n i s = Some (put_th t (th_set_runq None th) (put_rq n rq s), t) /\
    rq_low rq = rq_low (get_rq n s) /\ rq_count rq = rq_count (get_rq n s) - 1 /\ rq_runq rq = aset (rq_runq (get_rq n s)) i q /\
    inv (Some t) (put_th t (th_set_runq None th) (put_rq n rq s)).
Proof using.
  intros I Hq. destruct (i_rq _ _ I n) as [R1 R2 R3 R4 R5]. assert (Hi : run_at n s t = Some i) by (apply (q_in _ _ R2 _ _ t Hq); left).
  unfold run_at in Hi. destruct (get_th t s) as [th|] eqn:Ht; [|done]. cbn in Hi. unfold run_of in Hi. case_bool_decide as Hrq; [|done]. injection Hi as Hi.
  exists th. eexists. split; [done|]. split; [done|]. split; [done|]. unfold dequeue_at. rewrite Hq, Ht. split; [reflexivity|]. repeat (split; [done|]).
  pose proof (q_once _ _ R2 _ _ Hq) as [Hn Hnd]%NoDup_cons.
  destruct (queues_without _ _ R2 (run_at n (put_th t (th_set_runq None th) s)) t i (t :: q) q) as [Q1 Q2]; try done.
  - unfold run_at. rewrite Ht. cbn. unfold run_of. rewrite bool_decide_true by done. by f_equal.
  - unfold run_at. by rewrite get_put.
  - intros u Hu. unfold run_at. by rewrite get_put_ne.
  - intros u. rewrite elem_of_cons. naive_solver.
  - unfold alen. cbn [length]. lia.
  - apply take_ok; try done; [by rewrite alen_aset|]. intros j He. destruct (decide (j = i)) as [->|]; [congruence|]. by rewrite aget_aset_ne.
Qed.

(** ** Finding the best priority *)

Lemma first_queue_ok qs j t q : alen qs = NRQS -> aget qs j = Some (t :: q) -> forall fuel i, 0 <= i <= j -> (Z.to_nat (NRQS - i) < fuel)%nat ->
  exists k u r, first_queue fuel i qs = Some k /\ i <= k < NRQS /\ aget qs k = Some (u :: r) /\ forall l, i <= l < k -> aget qs l = Some [].
Proof using.
  intros Hlen Hj. pose proof (aget_Some_range _ _ _ Hj) as Hr. rewrite Hlen in Hr. induction fuel as [|fuel IH]; intros i Hi Hf; [lia|]. cbn [first_queue].
  destruct (Z.ltb_spec i NRQS); [|lia]. destruct (queues_get qs i) as [r Hg]; [lia|]. rewrite Hg. destruct r as [|u r].
  - assert (i <> j) by congruence. destruct (IH (i + 1)) as (k & u & r & E1 & E2 & E3 & E4); [lia|lia|]. exists k, u, r. split; [done|]. split; [lia|]. split; [done|].
    intros l Hl. destruct (decide (l = i)) as [->|]; [done|apply E4; lia].
  - exists i, u, r. split; [done|]. split; [lia|]. split; [done|]. lia.
Qed.

(** A thread at the head of the first queue that is not empty. *)
Definition best (n : rq_name) (s : sched) (t : Z) : Prop :=
  exists i q, aget (rq_runq (get_rq n s)) i = Some (t :: q) /\ forall j, 0 <= j < i -> aget (rq_runq (get_rq n s)) j = Some [].

Lemma rq_nonempty n h s i : inv h s -> 0 < rq_count (get_rq n s) -> 0 <= i <= rq_low (get_rq n s) ->
  exists k u r, first_queue scan_fuel i (rq_runq (get_rq n s)) = Some k /\ i <= k < NRQS /\ aget (rq_runq (get_rq n s)) k = Some (u :: r) /\
    forall l, 0 <= l < k -> aget (rq_runq (get_rq n s)) l = Some [].
Proof using.
  intros I Hc Hi. pose proof (i_rq _ _ I n) as R. pose proof R as [R1 R2 R3 R4 R5]. destruct (qtotal_pos (rq_runq (get_rq n s))) as (j & t & q & Hj); [lia|].
  pose proof (aget_Some_range _ _ _ Hj). assert (rq_low (get_rq n s) <= j).
  { destruct (decide (rq_low (get_rq n s) <= j)); [done|]. rewrite R5 in Hj by lia. done. }
  destruct (first_queue_ok _ _ _ _ R1 Hj scan_fuel i) as (k & u & r & E1 & E2 & E3 & E4); [lia|unfold scan_fuel, NRQS; lia|]. exists k, u, r.
  repeat (split; [done|]). intros l Hl. destruct (decide (l < i)); [apply (rq_below _ _ _ R); unfold NRQS in *; lia|apply E4; lia].
Qed.

(** ** Selection *)

Lemma put_rq_get n rq s : get_rq n (put_rq n rq s) = rq.
Proof using. by destruct n. Qed.

Lemma inv_set_low h n low s : inv h s -> 0 <= low < NRQS -> (forall i, 0 < rq_count (get_rq n s) -> 0 <= i < low -> aget (rq_runq (get_rq n s)) i = Some []) ->
  inv h (set_low n low s).
Proof using. intros I Hl Hb. apply inv_set_rq; [done|]. destruct (i_rq _ _ I n) as [R1 R2 R3 R4 R5]. by constructor. Qed.

(** What [thread_select] leaves as it is. *)
Record selects (s s' : sched) : Prop := {
  e_fixed : fixed s' = fixed s;
  e_wait : s_wait s' = s_wait s;
  e_core : forall u, core <$> get_th u s' = core <$> get_th u s;
  e_state : forall u, th_state <$> get_th u s' = th_state <$> get_th u s
}.

Lemma selects_refl s : selects s s.
Proof using. done. Qed.

Lemma selects_trans s1 s2 s3 : selects s1 s2 -> selects s2 s3 -> selects s1 s3.
Proof using. intros [A1 A2 A3 A4] [B1 B2 B3 B4]. constructor; [by rewrite B1|by rewrite B2|intros u; by rewrite B3|intros u; by rewrite B4]. Qed.

Lemma selects_dequeue n t th rq s : get_th t s = Some th -> selects s (put_th t (th_set_runq None th) (put_rq n rq s)) /\ p_state (put_th t (th_set_runq None th) (put_rq n rq s)) = p_state s.
Proof using.
  intros Ht. split; [|by destruct n]. constructor; try by destruct n.
  all: intros u; rewrite get_put_case; case_bool_decide as E; [subst; by rewrite Ht|by destruct n].
Qed.

(** A thread leaves its run queue, and the hint is set. *)
Lemma dequeue_best n k t q s (fixes : bool) : inv None s -> aget (rq_runq (get_rq n s)) k = Some (t :: q) -> (forall l, 0 <= l < k -> aget (rq_runq (get_rq n s)) l = Some []) ->
  exists s1 k', dequeue_at n k s = Some (s1, t) /\
    (if fixes && (0 <? rq_count (get_rq n s1)) then first_queue scan_fuel k (rq_runq (get_rq n s1)) else Some k) = Some k' /\
    inv (Some t) (set_low n k' s1) /\ selects s (set_low n k' s1) /\ p_state (set_low n k' s1) = p_state s.
Proof using.
  intros I Hq Hb. destruct (i_rq _ _ I n) as [R1 R2 R3 R4 R5]. pose proof (aget_Some_range _ _ _ Hq) as Hk. rewrite R1 in Hk.
  destruct (dequeue_ok n k t q s I Hq) as (th & rq & Ht & Hrq & Hp & -> & L1 & L2 & L3 & I1). set (s1 := put_th t (th_set_runq None th) (put_rq n rq s)) in *.
  assert (Hg : get_rq n s1 = rq) by (unfold s1; by destruct n). destruct (selects_dequeue n t th rq s Ht) as [S1 S2]. fold s1 in S1, S2.
  assert (Hb1 : forall l, 0 <= l < k -> aget (rq_runq (get_rq n s1)) l = Some []) by (intros l Hl; rewrite Hg, L3, aget_aset_ne by lia; by apply Hb).
  assert (Hlow : forall k', selects s (set_low n k' s1) /\ p_state (set_low n k' s1) = p_state s).
  { intros k'. split; [|by destruct n]. eapply selects_trans; [exact S1|]. by destruct n. }
  exists s1. rewrite !Hg. destruct (fixes && (0 <? rq_count rq)) eqn:F.
  - apply andb_true_iff in F as [_ F%Z.ltb_lt].
    assert (I2 : inv (Some t) (set_low n k s1)) by (apply inv_set_low; [done|lia|intros; by apply Hb1]).
    assert (Hg2 : get_rq n (set_low n k s1) = rq_set_low k rq) by (unfold set_low; rewrite put_rq_get; by rewrite Hg).
    destruct (rq_nonempty n _ _ k I2) as (k' & u & r & E1 & E2 & E3 & E4); rewrite Hg2 in *; cbn in *; [done|lia|]. exists k'. split; [done|]. split; [done|]. split; [|apply Hlow].
    apply inv_set_low; [done|lia|]. intros i _ Hi. rewrite Hg. by apply E4.
  - exists k. split; [done|]. split; [done|]. split; [|apply Hlow]. apply inv_set_low; [done|lia|intros; by apply Hb1].
Qed.

(** The processor becomes idle. *)
Lemma idle_ok s : inv None s -> p_state s = PROCESSOR_RUNNING ->
  inv None (s_set_idle_count (s_idle_count s + 1) (s_set_idle_queue (s_idle_queue s ++ [master_processor]) (p_set_state PROCESSOR_IDLE s))).
Proof using.
  intros [It Ik Il Iw Ir Ip Itk] Hp. destruct Ip as [(P1 & P2 & P3 & P4)|[(P1 & _)|(P1 & _)]]; [|by rewrite Hp in P1|by rewrite Hp in P1]. constructor; try done; [by destruct Ik|].
  right. left. cbn. by rewrite P2, P3.
Qed.

Lemma choose_pset_ok s : inv None s -> p_state s = PROCESSOR_RUNNING -> exists s' t, choose_pset_thread s = Some (s', t) /\ selects s s' /\
  ((best Rq_pset s t /\ inv (Some t) s' /\ p_state s' = PROCESSOR_RUNNING) \/
   (rq_count (s_pset s) = 0 /\ t = p_idle_thread s /\ inv None s' /\ p_state s' = PROCESSOR_IDLE)).
Proof using.
  intros I Hrun. pose proof (i_rq _ _ I Rq_pset) as [R1 R2 R3 R4 R5]. cbn [get_rq] in *. unfold choose_pset_thread. destruct (Z.ltb_spec 0 (rq_count (s_pset s))) as [Hc|Hc].
  - destruct (rq_nonempty Rq_pset _ s (rq_low (s_pset s)) I) as (k & u & r & E1 & E2 & E3 & E4); [done|cbn; lia|]. cbn [get_rq] in *. rewrite E1.
    destruct (dequeue_best Rq_pset k u r s (any_bit policies POLICY_FIXEDPRI) I E3 E4) as (s1 & k' & D1 & D2 & D3 & D4 & D5). rewrite D1. unfold fix_low.
    rewrite andb_comm. cbn [get_rq] in D2. rewrite D2. do 2 eexists. split; [reflexivity|]. split; [done|]. left. split; [by exists k, r|]. split; [done|]. by rewrite D5.
  - rewrite Hrun, Z.eqb_refl. do 2 eexists. split; [reflexivity|]. split; [done|]. right. pose proof (qtotal_nonneg (rq_runq (s_pset s))). split; [lia|]. split; [done|].
    split; [by apply idle_ok|done].
Qed.

Lemma choose_thread_ok s : inv None s -> 0 < rq_count (s_proc s) -> exists s' t, choose_thread s = Some (s', t) /\ selects s s' /\
  best Rq_proc s t /\ inv (Some t) s' /\ p_state s' = p_state s.
Proof using.
  intros I Hc. unfold choose_thread. destruct (Z.ltb_spec 0 (rq_count (s_proc s))); [|lia].
  destruct (rq_nonempty Rq_proc _ s (rq_low (s_proc s)) I) as (k & u & r & E1 & E2 & E3 & E4); [done|cbn; destruct (i_rq _ _ I Rq_proc); cbn in *; lia|].
  cbn [get_rq] in *. rewrite E1. destruct (dequeue_best Rq_proc k u r s false I E3 E4) as (s1 & k' & D1 & D2 & D3 & D4 & D5). rewrite D1. injection D2 as <-.
  do 2 eexists. split; [reflexivity|]. split; [done|]. split; [by exists k, r|]. by split.
Qed.

(** Which thread [thread_select] takes: of the processor's run queue, of the
    set's, the current one, or the idle thread. *)
Inductive selected (s : sched) : Z -> Prop :=
| Sel_proc t : best Rq_proc s t -> selected s t
| Sel_pset t : rq_count (s_proc s) = 0 -> best Rq_pset s t -> selected s t
| Sel_current cur : rq_count (s_proc s) = 0 -> rq_count (s_pset s) = 0 -> get_th (s_current s) s = Some cur -> th_state cur = TH_RUN -> selected s (s_current s)
| Sel_idle cur : rq_count (s_proc s) = 0 -> rq_count (s_pset s) = 0 -> get_th (s_current s) s = Some cur -> th_state cur <> TH_RUN -> selected s (p_idle_thread s).

(** The outcome: a thread was taken, or the current or the idle thread goes on. *)
Definition outcome (s s' : sched) (t : Z) : Prop :=
  (inv (Some t) s' /\ p_state s' = PROCESSOR_RUNNING) \/
  (t = s_current s /\ inv None s' /\ p_state s' = PROCESSOR_RUNNING) \/
  (t = p_idle_thread s /\ inv None s' /\ p_state s' = PROCESSOR_IDLE).

(** The part of [thread_select] for the run queue of the set. *)
Lemma select_pset_ok s : inv None s -> p_state s = PROCESSOR_RUNNING -> rq_count (s_proc s) = 0 -> exists s' t,
  (if rq_count (s_pset s) =? 0 then
     LET cur <- get_th (s_current s) s ;;
     if th_state cur =? TH_RUN then
       LET p <- update_if_due (s_tick s) (th_pri cur) ;;
       Some (put_th (s_current s) (th_set_pri p cur) s, s_current s)
     else choose_pset_thread s
   else
     LET q <- aget (rq_runq (s_pset s)) (rq_low (s_pset s)) ;;
     match q with
     | [] => choose_pset_thread (set_low Rq_pset (rq_low (s_pset s) + 1) s)
     | _ =>
         LET (s1, t) <- dequeue_at Rq_pset (rq_low (s_pset s)) s ;;
         LET i <- fix_low (rq_low (s_pset s)) s1 ;;
         Some (set_low Rq_pset i s1, t)
     end) = Some (s', t) /\ selects s s' /\ selected s t /\ outcome s s' t /\ is_Some (get_th t s').
Proof using.
  intros I Hrun Hproc. pose proof (i_rq _ _ I Rq_pset) as [R1 R2 R3 R4 R5]. cbn [get_rq] in *. destruct (n_cur _ _ (i_known _ _ I)) as [cur Hcur].
  assert (Hsome : forall s' t, selects s s' -> is_Some (get_th t s) -> is_Some (get_th t s')).
  { intros s' t [_ _ E _] Hs. specialize (E t). destruct Hs as [x Hx]. rewrite Hx in E. by destruct (get_th t s'). }
  destruct (Z.eqb_spec (rq_count (s_pset s)) 0) as [H0|H0].
  - rewrite Hcur. destruct (Z.eqb_spec (th_state cur) TH_RUN) as [Hst|Hst].
    + destruct (update_if_due_ok (s_tick s) (th_pri cur)) as (p & -> & Hp & _); [apply I|apply (i_th _ _ I _ _ Hcur)|]. do 2 eexists. split; [reflexivity|].
      assert (Hnq : th_runq cur = None).
      { destruct (th_runq cur) as [m|] eqn:E; [|done]. by destruct (runq_facts _ _ _ _ I Hcur E) as (_ & _ & _ & ? & _). }
      split; [|split; [by eapply Sel_current|split; [|rewrite get_put; by eexists]]].
      * constructor; try done; intros u; rewrite get_put_case; case_bool_decide; subst; rewrite ?Hcur; done.
      * right. left. split; [done|]. split; [|done]. eapply inv_put; try done; [apply th_ok_pri; [by apply I|done]|]. intros n. unfold run_of. cbn. by rewrite Hnq.
    + destruct (choose_pset_ok s I Hrun) as (s' & t & -> & S1 & [(B & _)|(_ & -> & I' & Hi)]); [destruct B as (i & q & B & _); eapply qtotal_zero in B; [done|cbn [get_rq]; lia]|].
      do 2 eexists. split; [reflexivity|]. split; [done|]. split; [by eapply Sel_idle|]. split; [right; by right|]. eapply Hsome; [exact S1|]. apply I.
  - pose proof (qtotal_nonneg (rq_runq (s_pset s))) as Hnn. assert (Hc : 0 < rq_count (s_pset s)) by lia.
    destruct (queues_get (rq_runq (s_pset s)) (rq_low (s_pset s))) as [q Hq]; [lia|]. rewrite Hq.
    destruct (rq_nonempty Rq_pset _ s (rq_low (s_pset s)) I Hc) as (k & u & r & E1 & E2 & E3 & E4); [cbn; lia|]. cbn [get_rq] in *. destruct q as [|t q].
    + assert (rq_low (s_pset s) <> k) by congruence. set (s1 := set_low Rq_pset (rq_low (s_pset s) + 1) s).
      assert (I1 : inv None s1) by (apply inv_set_low; [done|lia|intros i _ Hi; cbn; apply E4; lia]).
      destruct (choose_pset_ok s1 I1 Hrun) as (s' & t & -> & S1 & [(B & I' & Hr)|(Hz & _)]); [|cbn in Hz; lia].
      do 2 eexists. split; [reflexivity|]. assert (selects s s') by (apply (selects_trans s s1); [by constructor|exact S1]). split; [done|]. split; [by apply Sel_pset|].
      split; [by left|]. by apply (n_hand _ _ (i_known _ _ I')).
    + destruct (dequeue_best Rq_pset _ t q s (any_bit policies POLICY_FIXEDPRI) I Hq) as (s1 & k' & D1 & D2 & D3 & D4 & D5); [intros l Hl; cbn; by apply R5|].
      rewrite D1. unfold fix_low. rewrite andb_comm. cbn [get_rq] in D2. rewrite D2. do 2 eexists. split; [reflexivity|]. split; [done|].
      split; [apply Sel_pset; [done|]; exists (rq_low (s_pset s)), q; split; [done|]; intros; by apply R5|]. split; [left; split; [done|congruence]|]. by apply (n_hand _ _ (i_known _ _ D3)).
Qed.

Lemma select_ok s : inv None s -> p_state s = PROCESSOR_RUNNING -> exists s' t, thread_select s = Some (s', t) /\ selects s s' /\ selected s t /\ outcome s s' t.
Proof using.
  intros I Hrun. unfold thread_select. cbv zeta. set (s0 := p_set_first_quantum true s). assert (I0 : inv None s0) by by eapply inv_flags.
  assert (Hout : forall s1 t q, outcome s0 s1 t -> outcome s (p_set_quantum q s1) t).
  { intros s1 t q [[A B]|[(A & B & D)|(A & B & D)]]; [left|right; left|right; right]; (split; [first [exact A|by eapply inv_flags]|]); try exact B;
    (split; [by eapply inv_flags|exact D]). }
  destruct (Z.ltb_spec 0 (rq_count (s_proc s0))) as [Hc|Hc].
  - destruct (choose_thread_ok s0 I0 Hc) as (s1 & t & -> & S1 & B & I1 & Hr). do 2 eexists. split; [reflexivity|].
    split; [apply (selects_trans s s0); [by constructor|]; apply (selects_trans s0 s1); [done|by constructor]|]. split; [by apply Sel_proc|]. apply Hout. left. split; [done|]. rewrite Hr. done.
  - assert (Hz : rq_count (s_proc s0) = 0) by (pose proof (i_rq _ _ I0 Rq_proc) as [_ _ R3 _ _]; cbn in *; pose proof (qtotal_nonneg (rq_runq (s_proc s))); lia).
    destruct (select_pset_ok s0 I0 Hrun Hz) as (s1 & t & -> & S1 & B & O & [th ->]). do 2 eexists. split; [reflexivity|].
    split; [apply (selects_trans s s0); [by constructor|]; apply (selects_trans s0 s1); [done|by constructor]|]. split; [|by apply Hout]. destruct B as [t B|t Z1 B|cur Z1 Z2 G T|cur Z1 Z2 G T];
      [exact (Sel_proc s t B)|exact (Sel_pset s t Z1 B)|exact (Sel_current s cur Z1 Z2 G T)|exact (Sel_idle s cur Z1 Z2 G T)].
Qed.
End Ops.
