(* ===== verification/KernSchedWake.v ===== *)
(** * The scheduler: waking and switching threads

    A wake-up takes exactly the threads that wait for the event off its queue and
    makes those runnable that are not suspended.  A switch gives the processor to
    the new thread and puts the old one where its state says. *)

From S2P Require Import Prelude Counting KernSched KernSwitch KernSchedInv KernSchedOps.

(** The state of a thread after it was woken: a thread that runs goes on, a thread
    that is suspended in an interruptible wait stays so, any other can run. *)
Definition woken (b : tbits) : tbits := if b_r b || (b_s b && negb (b_n b)) then set_w false b else set_r true (set_w false b).

Section Wake.
Context {C : SchedConfig}.

Lemma woken_core b : set_w false (set_r false (woken b)) = set_w false (set_r false b).
Proof using. all_bits b. Qed.

Lemma wake_marks b p q z : okb b (set_hand false p) q z = true -> b_w b && (b_r b || (b_s b && negb (b_n b))) = true -> okb (woken b) (set_hand false p) q z = true.
Proof using. places b p q z. Qed.

Lemma wake_runs b p q z : okb b (set_hand false p) q z = true -> b_w b && negb (b_r b || (b_s b && negb (b_n b))) = true -> negb q && okb (woken b) (set_hand true p) q z = true.
Proof using. places b p q z. Qed.

(** One thread was woken with the result. *)
Record wakes (t result : Z) (th : thread) (s s' : sched) : Prop := {
  v_quiet : quiet s s';
  v_other : forall u, u <> t -> get_th u s' = get_th u s;
  v_self : exists th', get_th t s' = Some th' /\ tb th' = woken (tb th) /\ th_wait_event th' = 0 /\ th_wait_result th' = result /\ th_timer_set th' = th_timer_set th
}.

Lemma wake_ok t th result default s : inv None s -> get_th t s = Some th -> th_wait_event th = 0 -> b_w (tb th) = true ->
  exists s', wake_thread t result default s = Some s' /\ inv None s' /\ wakes t result th s s' /\ s_wait s' = s_wait s.
Proof using.
  intros I Ht He Hw. pose proof (i_th _ _ I _ _ Ht) as K. pose proof (k_place _ _ K) as Hp. rewrite <- place_no_hand in Hp. unfold wake_thread. rewrite Ht, (k_enc _ _ K), wake_case_bits, Hw.
  cbn [negb]. pose proof (wake_marks _ _ _ _ Hp) as Hm. pose proof (wake_runs _ _ _ _ Hp) as Hr. rewrite Hw in Hm, Hr. cbn [andb] in Hm, Hr. rewrite ldiff_wait, lor_run.
  assert (Hx : forall b th', th_set_wait_result result (th_set_state (enc b) th') = th_set_state (enc b) (th_set_wait_result result th')) by done. rewrite !Hx.
  set (th1 := th_set_wait_result result th). assert (K1 : th_ok (place_of None s t) th1) by (destruct K; by constructor).
  destruct (b_r (tb th) || (b_s (tb th) && negb (b_n (tb th)))) eqn:E; cbn [negb] in *.
  - assert (Hwk : woken (tb th) = set_w false (tb th)) by (unfold woken; by rewrite E). rewrite Hwk in Hm. eexists. split; [reflexivity|]. split; [|split; [constructor|done]].
    + eapply inv_put; try done. eapply th_ok_bits; [exact K1| |done|by right]. by apply Hm.
    + eapply quiet_put; [exact Ht|]. unfold core, tb. cbn. by rewrite bits_enc.
    + intros u Hu. by apply get_put_ne.
    + eexists. rewrite get_put. split; [done|]. unfold tb at 1. cbn. rewrite bits_enc. done.
  - assert (Hwk : woken (tb th) = set_r true (set_w false (tb th))) by (unfold woken; by rewrite E). specialize (Hr eq_refl). rewrite Hwk in Hr. apply andb_true_iff in Hr as [Hnq Hr].
    set (th2 := th_set_state (enc (set_r true (set_w false (tb th)))) th1) in *.
    assert (Hq : th_runq th = None) by (unfold on_runq in Hnq; destruct (th_runq th); [by rewrite bool_decide_true in Hnq|done]).
    assert (I2 : inv (Some t) (put_th t th2 s)).
    { eapply inv_put; [exact I|exact Ht|apply take_hand|..]; [|done|by intros n; unfold run_of; cbn; rewrite Hq]. rewrite place_hand. eapply th_ok_bits; [exact K1|exact Hr|done|by right]. }
    assert (Htb : tb th2 = woken (tb th)) by (rewrite Hwk; unfold tb at 1; cbn; by rewrite bits_enc).
    destruct (setrun_ok t th2 true (put_th t th2 s) I2 (get_put _ _ _)) as (s' & -> & I' & M); [rewrite Htb, Hwk; done|]. exists s'. split; [done|]. split; [done|].
    destruct M as [M1 M2 M3 (p & r & M4)]. split; [constructor|done].
    + eapply quiet_trans; [|exact M1]. eapply quiet_put; [exact Ht|]. unfold core. rewrite Htb, woken_core. done.
    + intros u Hu. rewrite M3 by done. by apply get_put_ne.
    + eexists. split; [exact M4|]. by rewrite <- Htb.
Qed.

(** A thread leaves the queue of its event. *)
Lemma leave_ok t th s : inv None s -> get_th t s = Some th -> th_wait_event th <> 0 ->
  let e := th_wait_event th in
  exists q, aget (s_wait s) (wait_hash e) = Some q /\ t ∈ q /\
    leave_wait t e s = Some (put_th t (th_set_wait_event 0 th) (s_set_wait (aset (s_wait s) (wait_hash e) (remqueue t q)) s)) /\
    inv None (put_th t (th_set_wait_event 0 th) (s_set_wait (aset (s_wait s) (wait_hash e) (remqueue t q)) s)).
Proof using.
  intros I Ht He e. unfold leave_wait. rewrite Ht. assert (Hwe : wait_of th = Some (wait_hash e)) by (unfold wait_of; by destruct (Z.eqb_spec (th_wait_event th) 0)).
  set (th' := th_set_wait_event 0 th).
  destruct (queues_remove _ _ (i_wait _ _ I) (wait_at (put_th t th' s)) t (wait_hash e)) as (q & Hq & Hin & -> & Q1 & Q2).
  - unfold wait_at. by rewrite Ht.
  - unfold wait_at. by rewrite get_put.
  - intros u Hu. unfold wait_at. by rewrite get_put_ne.
  - exists q. split; [done|]. split; [done|]. split; [done|]. eapply (inv_change _ _ t th th' _ _ I Ht); try done.
    + destruct (i_th _ _ I _ _ Ht) as [K1 K2 K3 K4 K5 K6 K7]. by constructor.
    + cbn. rewrite alen_aset. apply I.
    + intros n. replace (get_rq n _) with (get_rq n s) by by destruct n. eapply rq_ext; [apply I|]. intros u. exact (run_at_put n t th th' s Ht eq_refl u).
Qed.

(** The three steps together. *)
Lemma unwait_ok t th result s : inv None s -> get_th t s = Some th -> th_wait_event th <> 0 -> let e := th_wait_event th in
  exists s1 s2 s' q, leave_wait t e s = Some s1 /\ reset_timeout_check t s1 = Some s2 /\ (forall default, wake_thread t result default s2 = Some s') /\ inv None s' /\
    quiet s s' /\ (forall u, u <> t -> get_th u s' = get_th u s) /\
    (exists th', get_th t s' = Some th' /\ tb th' = woken (tb th) /\ th_wait_event th' = 0 /\ th_wait_result th' = result /\ th_timer_set th' = false) /\
    aget (s_wait s) (wait_hash e) = Some q /\ t ∈ q /\ s_wait s' = aset (s_wait s) (wait_hash e) (remqueue t q).
Proof using.
  intros I Ht He e. pose proof (k_waits _ _ (i_th _ _ I _ _ Ht) He) as Hw. destruct (leave_ok t th s I Ht He) as (q & Hq & Hin & Hl & I1). fold e in Hq, Hl, I1.
  set (s1 := put_th t (th_set_wait_event 0 th) (s_set_wait (aset (s_wait s) (wait_hash e) (remqueue t q)) s)) in *.
  assert (H1 : get_th t s1 = Some (th_set_wait_event 0 th)) by apply get_put. set (th2 := th_set_timer_set false (th_set_wait_event 0 th)). set (s2 := put_th t th2 s1).
  assert (I2 : inv None s2) by (destruct (i_th _ _ I1 _ _ H1); eapply inv_put_same; try done; by right).
  assert (Hind : forall d d', wake_thread t result d s2 = wake_thread t result d' s2).
  { intros d d'. unfold wake_thread. assert (get_th t s2 = Some th2) as -> by apply get_put. assert (Hn : wake_case (th_state th2) <> Wake_none).
    { cbn. rewrite (k_enc _ _ (i_th _ _ I _ _ Ht)), wake_case_bits, Hw. cbn [negb]. by destruct (b_r (tb th) || (b_s (tb th) && negb (b_n (tb th)))). }
    by destruct (wake_case (th_state th2)). }
  destruct (wake_ok t th2 result None s2 I2) as (s' & Hwk & I' & [V1 V2 V3] & V4); [apply get_put|done|done|]. exists s1, s2, s', q.
  split; [done|]. split; [unfold reset_timeout_check; by rewrite H1|]. split; [intros d; by rewrite (Hind d None)|]. split; [done|].
  assert (O1 : forall u, u <> t -> get_th u s2 = get_th u s) by (intros u Hu; unfold s2, s1; by rewrite !get_put_ne).
  split; [|split; [intros u Hu; rewrite V2 by done; by apply O1|split; [exact V3|split; [done|split; [done|by rewrite V4]]]]].
  eapply quiet_trans; [|exact V1]. constructor; try done. intros u. destruct (decide (u = t)) as [->|Hu]; [|by rewrite O1]. unfold s2. by rewrite get_put, Ht.
Qed.

Lemma reset_ok h t th s : inv h s -> get_th t s = Some th -> reset_timeout_check t s = Some (put_th t (th_set_timer_set false th) s) /\ inv h (put_th t (th_set_timer_set false th) s).
Proof using.
  intros I Ht. unfold reset_timeout_check. rewrite Ht. split; [done|]. destruct (i_th _ _ I _ _ Ht). eapply inv_put_same; try done. by right.
Qed.

(** [clear_wait]: nothing but the timer changes if the thread does not wait or may
    not be interrupted. *)
Lemma clear_wait_ok t th result interrupt_only s : inv None s -> get_th t s = Some th ->
  exists s', clear_wait t result interrupt_only s = Some s' /\ inv None s' /\ quiet s s' /\ (forall u, u <> t -> get_th u s' = get_th u s) /\
    exists th', get_th t s' = Some th' /\
      if interrupt_only && b_n (tb th) then th' = th
      else th_wait_event th' = 0 /\ th_timer_set th' = false /\
        if b_w (tb th) then tb th' = woken (tb th) /\ th_wait_result th' = result else tb th' = tb th /\ th_wait_result th' = th_wait_result th.
Proof using.
  intros I Ht. pose proof (i_th _ _ I _ _ Ht) as K. unfold clear_wait. rewrite Ht, (k_enc _ _ K), any_unint. destruct (interrupt_only && b_n (tb th)) eqn:Ei.
  { exists s. split; [done|]. split; [done|]. split; [done|]. split; [done|]. by exists th. }
  destruct (Z.eqb_spec (th_wait_event th) 0) as [He|He]; cbn [negb].
  - destruct (reset_ok None t th s I Ht) as [-> I1]. set (th1 := th_set_timer_set false th) in *. assert (Q1 : quiet s (put_th t th1 s)) by by eapply quiet_put.
    destruct (b_w (tb th)) eqn:Hw.
    + destruct (wake_ok t th1 result (Some (put_th t th1 s)) (put_th t th1 s) I1) as (s' & -> & I' & [V1 V2 (th' & V3 & V4 & V5 & V6 & V7)] & _); [apply get_put|done|done|].
      exists s'. split; [done|]. split; [done|]. split; [by eapply quiet_trans|]. split; [intros u Hu; rewrite V2 by done; by apply get_put_ne|]. by exists th'.
    + exists (put_th t th1 s). split; [unfold wake_thread; rewrite get_put; cbn; rewrite (k_enc _ _ K), wake_case_bits, Hw; done|]. split; [done|]. split; [done|].
      split; [intros u Hu; by apply get_put_ne|]. exists th1. by rewrite get_put.
  - rewrite (k_waits _ _ K He). destruct (unwait_ok t th result s I Ht He) as (s1 & s2 & s' & q & -> & -> & Hw & I' & Q & O & (th' & G & W) & _). rewrite Hw.
    exists s'. split; [done|]. split; [done|]. split; [done|]. split; [done|]. exists th'. tauto.
Qed.

(** ** Wake-ups of an event *)

Definition waits_for (e : Z) (s : sched) (t : Z) : Prop := th_wait_event <$> get_th t s = Some e.

#[export] Instance waits_for_dec e s t : Decision (waits_for e s t).
Proof using. unfold waits_for. apply _. Defined.

(** The threads of a queue that a wake-up takes: all that wait for the event, or
    the first. *)
Fixpoint waiters (e : Z) (one_thread : bool) (q : list Z) (s : sched) : list Z :=
  match q with
  | [] => []
  | t :: q' => if decide (waits_for e s t) then t :: (if one_thread then [] else waiters e one_thread q' s) else waiters e one_thread q' s
  end.

Lemma waiters_same e one q s s' : (forall t, t ∈ q -> get_th t s' = get_th t s) -> waiters e one q s' = waiters e one q s.
Proof using.
  induction q as [|t q IH]; intros H; [done|]. cbn. rewrite IH by (intros u Hu; apply H; by right).
  assert (waits_for e s' t <-> waits_for e s t) by (unfold waits_for; rewrite H by left; done). destruct (decide (waits_for e s' t)), (decide (waits_for e s t)); tauto.
Qed.

Lemma waiters_in e one q s t : t ∈ waiters e one q s -> t ∈ q /\ waits_for e s t.
Proof using.
  induction q as [|u q IH]; cbn; [by intros ?%not_elem_of_nil|]. rewrite elem_of_cons. case_decide; [|naive_solver]. rewrite elem_of_cons. destruct one; [|naive_solver].
  rewrite elem_of_nil. naive_solver.
Qed.

Lemma waiters_all e q s t : t ∈ q -> waits_for e s t -> t ∈ waiters e false q s.
Proof using.
  induction q as [|u q IH]; cbn; [by intros ?%not_elem_of_nil|]. rewrite elem_of_cons. case_decide; rewrite ?elem_of_cons; naive_solver.
Qed.

(** A thread that was woken from the event. *)
Definition woken_up (result t : Z) (s s' : sched) : Prop :=
  exists th th', get_th t s = Some th /\ get_th t s' = Some th' /\ tb th' = woken (tb th) /\ th_wait_event th' = 0 /\ th_wait_result th' = result /\ th_timer_set th' = false.

Record wakes_all (e : Z) (ws : list Z) (result : Z) (s s' : sched) : Prop := {
  w_quiet : quiet s s';
  w_woken : forall t, t ∈ ws -> woken_up result t s s';
  w_rest : forall t, t ∉ ws -> get_th t s' = get_th t s;
  w_wait : forall i q, aget (s_wait s) i = Some q -> aget (s_wait s') i = Some (if i =? wait_hash e then filter (fun t => t ∉ ws) q else q)
}.

Lemma wakes_nothing e result s : wakes_all e [] result s s.
Proof using.
  constructor; try done; [by intros t ?%not_elem_of_nil|]. intros i q ->. f_equal. destruct (i =? wait_hash e); [|done].
  induction q as [|t q IH]; [done|]. rewrite filter_cons_True by apply not_elem_of_nil. by f_equal.
Qed.

(** One wake-up and then others, of different threads. *)
Lemma wakes_then e t ws result s s1 s' th q : get_th t s = Some th -> quiet s s1 -> (forall u, u <> t -> get_th u s1 = get_th u s) ->
  (exists th', get_th t s1 = Some th' /\ tb th' = woken (tb th) /\ th_wait_event th' = 0 /\ th_wait_result th' = result /\ th_timer_set th' = false) ->
  aget (s_wait s) (wait_hash e) = Some q -> s_wait s1 = aset (s_wait s) (wait_hash e) (remqueue t q) -> t ∉ ws -> wakes_all e ws result s1 s' -> wakes_all e (t :: ws) result s s'.
Proof using.
  intros Ht Q1 O1 (th' & G1 & W1) Hq Hs1 Hn [A1 A2 A3 A4]. constructor.
  - by eapply quiet_trans.
  - intros u [->|Hu]%elem_of_cons; [exists th, th'; rewrite A3 by done; done|]. assert (u <> t) by congruence. unfold woken_up. rewrite <- O1 by done. by apply A2.
  - intros u [? ?]%not_elem_of_cons. rewrite A3 by done. by apply O1.
  - pose proof (aget_Some_range _ _ _ Hq) as Hr. intros i r Hi. destruct (Z.eqb_spec i (wait_hash e)) as [->|Hne].
    + rewrite Hq in Hi. injection Hi as <-. rewrite (A4 (wait_hash e) (remqueue t q)) by (rewrite Hs1; by apply aget_aset_eq). rewrite Z.eqb_refl. f_equal. unfold remqueue.
      rewrite list_filter_filter. apply list_filter_iff. intros u. rewrite not_elem_of_cons. tauto.
    + rewrite (A4 i r) by (rewrite Hs1; by rewrite aget_aset_ne). by destruct (Z.eqb_spec i (wait_hash e)).
Qed.

Lemma wakeup_loop_ok e one result q : forall s, inv None s -> NoDup q -> (forall t, t ∈ q -> exists th, get_th t s = Some th /\ wait_of th = Some (wait_hash e)) ->
  exists s', wakeup_loop e one result q s = Some s' /\ inv None s' /\ wakes_all e (waiters e one q s) result s s'.
Proof using.
  induction q as [|t q IH]; intros s I Hnd Hin; cbn [wakeup_loop waiters]; [exists s; split; [done|]; split; [done|]; apply wakes_nothing|].
  apply NoDup_cons in Hnd as [Hnt Hnd]. destruct (Hin t) as (th & Ht & Hwt); [left|]. rewrite Ht.
  assert (Hd : waits_for e s t <-> th_wait_event th = e) by (unfold waits_for; rewrite Ht; cbn; naive_solver).
  destruct (Z.eqb_spec (th_wait_event th) e) as [He|He].
  - assert (Hne : th_wait_event th <> 0) by (unfold wait_of in Hwt; by destruct (Z.eqb_spec (th_wait_event th) 0)). rewrite decide_True by tauto.
    destruct (unwait_ok t th result s I Ht Hne) as (s1 & s2 & s3 & r & L & R & W & I3 & Q3 & O3 & G3 & Hr & _ & S3). rewrite He in *. rewrite L, R, W. destruct one.
    + exists s3. split; [done|]. split; [done|]. eapply wakes_then; try done; [by apply not_elem_of_nil|apply wakes_nothing].
    + destruct (IH s3 I3 Hnd) as (s' & Hl & I' & A').
      { intros u Hu. rewrite O3 by congruence. apply Hin. by right. }
      exists s'. split; [done|]. split; [done|]. rewrite (waiters_same _ _ q s s3) in A' by (intros u Hu; apply O3; congruence).
      eapply wakes_then; try done. intros Hw. by apply waiters_in in Hw as [? _].
  - rewrite decide_False by tauto. apply IH; [done|done|]. intros u Hu. apply Hin. by right.
Qed.

(** [thread_wakeup_prim] takes from the queue of the event the threads that wait
    for it. *)
Lemma wakeup_ok e one result s : inv None s -> exists q s', aget (s_wait s) (wait_hash e) = Some q /\ thread_wakeup_prim e one result s = Some s' /\ inv None s' /\
  wakes_all e (waiters e one q s) result s s'.
Proof using.
  intros I. destruct (queues_get (s_wait s) (wait_hash e)) as [q Hq].
  { rewrite (i_wait_len _ _ I). apply Z.mod_pos_bound. done. }
  destruct (wakeup_loop_ok e one result q s I) as (s' & Hl & I' & A).
  - eapply q_once; [apply I|exact Hq].
  - intros t Ht. apply (q_in _ _ (i_wait _ _ I) _ _ t Hq) in Ht. unfold wait_at in Ht. destruct (get_th t s) as [th|]; [|done]. by exists th.
  - exists q, s'. split; [done|]. unfold thread_wakeup_prim. by rewrite Hq.
Qed.

(** A thread that waits for the event is in its queue. *)
Lemma waiter_queued e s t q : inv None s -> e <> 0 -> waits_for e s t -> aget (s_wait s) (wait_hash e) = Some q -> t ∈ q.
Proof using.
  intros I He Hw Hq. apply (q_in _ _ (i_wait _ _ I) _ _ t Hq). unfold waits_for in Hw. unfold wait_at. destruct (get_th t s) as [th|]; [|done]. injection Hw as Hw.
  cbn. unfold wait_of. rewrite Hw. by destruct (Z.eqb_spec e 0).
Qed.
End Wake.

(** ** The scheduler: switching between threads

    A switch never panics and ends with the new thread running and the old one
    where its state says. *)

(** ** Threads without a stack *)

Lemma count_by_map {A} (f : A -> bool) (ts : gmap Z A) : count_pc f ts = count_pc (fun b : bool => b) (f <$> ts).
Proof.
  induction ts as [|k a ts Hk IH] using map_ind; [by rewrite fmap_empty|]. rewrite fmap_insert, !count_fresh, IH; [done|by rewrite lookup_fmap, Hk|done].
Qed.

Lemma count_pointwise {A} (f : A -> bool) (ts ts' : gmap Z A) : (forall u, f <$> ts' !! u = f <$> ts !! u) -> count_pc f ts' = count_pc f ts.
Proof. intros H. rewrite (count_by_map f ts'), (count_by_map f ts). f_equal. apply map_eq. intros u. by rewrite !lookup_fmap. Qed.

Section Block.
Context {C : SchedConfig}.

Definition no_stack (th : thread) : bool := b_sw (tb th).
Definition stackless (s : sched) : Z := count_pc no_stack (s_threads s).

Lemma stackless_core s s' : (forall u, core <$> get_th u s' = core <$> get_th u s) -> stackless s' = stackless s.
Proof using.
  intros H. apply count_pointwise. intros u. specialize (H u). unfold get_th in H. destruct (s_threads s !! u) as [x|], (s_threads s' !! u) as [y|]; try done.
  apply (f_equal (fmap (fun c => b_sw c.1.1))) in H. exact H.
Qed.

(** ** Facts on places *)

Definition set_cur x p := mk_place x (at_next p) (at_coming p) (at_idle p) (at_hand p).
Definition set_coming x p := mk_place (at_cur p) (at_next p) x (at_idle p) (at_hand p).

Lemma to_cur b p q z : okb b (set_hand true p) q z = true -> negb (b_sw b) = true -> okb b (set_cur true (set_hand false p)) q z = true.
Proof using. places b p q z. Qed.

Lemma idle_to_cur b p q z : okb b p q z = true -> at_idle p && negb (b_sw b) = true -> okb b (set_cur true p) q z = true.
Proof using. places b p q z. Qed.

Lemma from_cur b p q z : okb b (set_hand false p) q z = true -> at_cur p && negb (at_idle p) = true -> okb b (set_cur false (set_hand true p)) q z = true.
Proof using. places b p q z. Qed.

Lemma idle_from_cur b p q z : okb b p q z = true -> at_cur p && at_idle p = true -> okb b (set_cur false p) q z = true.
Proof using. places b p q z. Qed.

Lemma cur_swap b p q z : okb b p q z = true -> at_cur p = true -> negb (b_sw b) && negb (b_c b) && b_r b && negb q = true.
Proof using. places b p q z. Qed.

Lemma idle_swap b p q z : okb b p q z = true -> at_idle p = true -> negb (b_c b) && negb (at_hand p) && negb q && b_r b && negb (b_w b) = true.
Proof using. places b p q z. Qed.

Lemma marked b p q z : okb b p q z = true -> okb (set_n false (set_sw false b)) p q z = true.
Proof using. places b p q z. Qed.

Lemma to_swapped b p q z : okb b p q z = true -> negb (at_cur p) && negb (b_c b) = true -> okb (set_sw true b) p q z = true.
Proof using. places b p q z. Qed.

Lemma to_coming b p q z : okb b (set_hand true p) q z = true -> b_sw b && negb (b_w b) = true -> okb (set_c true (set_c false (set_sw false b))) (set_coming true (set_hand false p)) q z = true.
Proof using. places b p q z. Qed.

Definition is_kind (k : option dispatch_kind) : bool := match k with Some _ => true | None => false end.
Definition is_stop (k : option dispatch_kind) : bool := match k with Some Dispatch_suspend | Some Dispatch_wait => true | _ => false end.
Definition is_run (k : option dispatch_kind) : bool := match k with Some Dispatch_run => true | _ => false end.

Lemma dispatch_hand b p q z : okb b p q z = true -> at_hand p = true -> is_stop (dispatch_of b) || (is_run (dispatch_of b) && negb (b_w b)) = true.
Proof using. places b p q z. Qed.

Lemma dispatch_idle b p q z : okb b p q z = true -> at_idle p = true -> match dispatch_of b with Some Dispatch_idle => true | _ => false end = true.
Proof using. places b p q z. Qed.

Lemma to_stopped b p q z : okb b (set_hand true p) q z = true -> is_stop (dispatch_of b) = true -> okb (set_r false b) (set_hand false p) q z = true.
Proof using. places b p q z. Qed.

(** ** The current thread changes *)

(** The old thread is in the hands of the code that switches; the idle thread is
    nowhere else. *)
Definition hand_of (old : Z) (s : sched) : option Z := if old =? p_idle_thread s then None else Some old.

Lemma switch_ok h new n s : inv h s -> s_current s <> new -> (h = Some new \/ (h = None /\ new = p_idle_thread s)) -> get_th new s = Some n -> b_sw (tb n) = false ->
  inv (hand_of (s_current s) s) (s_set_current new s).
Proof using.
  intros I Hne Hh Hn Hsw. pose proof I as [It Ik Il Iw Ir Ip Itk]. set (old := s_current s) in *. set (h' := hand_of old s).
  assert (Hpl : forall u, u <> old -> u <> new -> place_of h' (s_set_current new s) u = place_of h s u).
  { intros u H1 H2. unfold place_of. cbn. f_equal; [rewrite !bool_decide_false; [done|done|by intros <-]|].
    unfold h', hand_of. rewrite (bool_decide_false (h = Some u)) by (destruct Hh as [->|[-> _]]; congruence). destruct (old =? p_idle_thread s); apply bool_decide_false; congruence. }
  constructor; try done.
  - intros u x Hx. change (get_th u s = Some x) in Hx. pose proof (It _ _ Hx) as K. pose proof (k_place _ _ K) as Hk.
    destruct (decide (u = new)) as [->|Hun]; [|destruct (decide (u = old)) as [->|Huo]; [|by rewrite Hpl]].
    + simplify_eq. assert (Hh' : bool_decide (h' = Some new) = false) by (apply bool_decide_false; unfold h', hand_of; destruct (old =? p_idle_thread s); congruence).
      destruct Hh as [->|[-> ->]].
      * assert (place_of h' (s_set_current new s) new = set_cur true (set_hand false (place_of None s new))) as ->.
        { unfold place_of, set_cur, set_hand. cbn. by rewrite Hh', (bool_decide_true (new = new)). }
        eapply th_ok_place; [exact K| |done]. apply to_cur; [rewrite <- place_hand; exact Hk|by rewrite Hsw].
      * assert (place_of h' (s_set_current (p_idle_thread s) s) (p_idle_thread s) = set_cur true (place_of None s (p_idle_thread s))) as ->.
        { unfold place_of, set_cur. cbn. by rewrite Hh', (bool_decide_true (p_idle_thread s = p_idle_thread s)). }
        eapply th_ok_place; [exact K| |done]. apply idle_to_cur; [done|]. apply andb_true_iff. split; [by apply bool_decide_true|by rewrite Hsw].
    + assert (Hho : bool_decide (h = Some old) = false) by (apply bool_decide_false; destruct Hh as [->|[-> _]]; congruence).
      assert (Hpo : place_of h s old = set_hand false (place_of h s old)) by (unfold place_of at 1; rewrite Hho; done).
      unfold h', hand_of in *. destruct (Z.eqb_spec old (p_idle_thread s)) as [Hi|Hi].
      * assert (place_of None (s_set_current new s) old = set_cur false (place_of h s old)) as ->.
        { unfold place_of, set_cur. cbn. by rewrite Hho, (bool_decide_false (new = old)). }
        eapply th_ok_place; [exact K| |done]. apply idle_from_cur; [done|]. cbn. by rewrite !bool_decide_true.
      * assert (place_of (Some old) (s_set_current new s) old = set_cur false (set_hand true (place_of h s old))) as ->.
        { unfold place_of, set_cur, set_hand. cbn. by rewrite (bool_decide_false (new = old)), (bool_decide_true (Some old = Some old)). }
        eapply th_ok_place; [exact K| |done]. apply from_cur; [by rewrite <- Hpo|]. cbn. by rewrite bool_decide_true, bool_decide_false.
  - destruct Ik. constructor; try done. intros t. unfold h', hand_of. destruct (old =? p_idle_thread s); [done|]. by intros [= <-].
Qed.

Lemma tb_set b th : tb (th_set_state (enc b) th) = b.
Proof using. apply bits_enc. Qed.

(** ** The old thread *)

(** What a dispatch leaves as it is. *)
Definition dispatched (s s' : sched) : Prop := s_current s' = s_current s /\ p_idle_thread s' = p_idle_thread s /\ (p_state s = PROCESSOR_RUNNING -> p_state s' = PROCESSOR_RUNNING).

Lemma quiet_dispatched s s' : quiet s s' -> dispatched s s'.
Proof using. intros [[= E1 E2 E3 E4 E5] Z _]. by split; [|split]. Qed.

Lemma dispatched_put t th s s' : dispatched (put_th t th s) s' -> dispatched s s'.
Proof using. done. Qed.

Lemma wakeup_quiet e s : inv None s -> exists s', thread_wakeup e s = Some s' /\ inv None s' /\ quiet s s'.
Proof using. intros I. destruct (wakeup_ok e false THREAD_AWAKENED s I) as (q & s' & _ & H & I' & [W _ _ _]). by exists s'. Qed.

Lemma tell_stopped_ok t th s : inv None s -> get_th t s = Some th -> exists s', tell_stopped t s = Some s' /\ inv None s' /\ dispatched s s'.
Proof using.
  intros I Ht. unfold tell_stopped. rewrite Ht. destruct (th_wake_active th); [|by exists s].
  assert (I1 : inv None (put_th t (th_set_wake_active false th) s)) by (destruct (i_th _ _ I _ _ Ht); eapply inv_put_same; try done; by right).
  destruct (wakeup_quiet (wake_event t) _ I1) as (s' & -> & I' & Q). exists s'. split; [done|]. split; [done|]. exact (quiet_dispatched _ _ Q).
Qed.

(** The switch on the state of the old thread: its bits are [b] so far and get
    [SWAPPED] if [sw]. *)
Lemma hand_stops old th (sw : bool) s : inv (Some old) s -> get_th old s = Some th -> is_stop (dispatch_of (tb th)) = true ->
  let b := if sw then set_sw true (set_r false (tb th)) else set_r false (tb th) in
  inv None (put_th old (th_set_state (enc b) th) s).
Proof using.
  intros I Ht Hk b. pose proof (i_th _ _ I _ _ Ht) as K. pose proof (k_place _ _ K) as Hp. pose proof (in_hand _ _ _ _ Hp) as Hin. rewrite place_hand in Hp, Hin. specialize (Hin eq_refl).
  pose proof (to_stopped _ _ _ _ Hp Hk) as Hs. eapply inv_put; [exact I|exact Ht|apply drop_hand| |done|done]. rewrite <- place_no_hand.
  assert (Hb : okb b (set_hand false (place_of None s old)) (on_runq th) (held th) = true).
  { unfold b. destruct sw; [|done]. apply to_swapped; [done|]. rewrite !andb_true_iff in Hin. destruct Hin as [[[[[[H1 _] _] _] _] _] H2]. apply andb_true_iff. by split. }
  eapply th_ok_bits; [exact K|exact Hb|by rewrite place_hand|]. intros Hw. left. unfold b. by destruct sw.
Qed.

Lemma swapped_bits b : b_sw b = false -> b_c b = false -> set_c false (set_sw false b) = b.
Proof using. destruct b as [? ? ? ? ? ? sw c]. cbn. by intros -> ->. Qed.

Lemma dispatch_case_whole b : b_sw b = false -> b_c b = false -> dispatch_case (enc b) = dispatch_of b.
Proof using. intros H1 H2. by rewrite <- dispatch_case_bits, swapped_bits. Qed.

(** The old thread has its stack or not; in the latter case its state says so
    already, or the dispatch says it. *)
Lemma dispatch_hand_ok old th s : inv (Some old) s -> get_th old s = Some th ->
  exists s', (LET k <- dispatch_of (tb th) ;;
   match k with
   | Dispatch_suspend => tell_stopped old (put_th old (th_set_state (Z.ldiff (th_state th) TH_RUN) th) s)
   | Dispatch_run => thread_setrun old false s
   | Dispatch_wait => Some (put_th old (th_set_state (Z.ldiff (th_state th) TH_RUN) th) s)
   | Dispatch_idle => Some s
   end) = Some s' /\ inv None s' /\ dispatched s s'.
Proof using.
  intros I Ht. pose proof (i_th _ _ I _ _ Ht) as K. pose proof (dispatch_hand _ _ _ _ (k_place _ _ K)) as Hd. rewrite place_hand in Hd. specialize (Hd eq_refl).
  rewrite (k_enc _ _ K), ldiff_run. pose proof (hand_stops old th false s I Ht) as Hst. cbn in Hst. destruct (dispatch_of (tb th)) as [[]|]; cbn in Hd; try done.
  - destruct (tell_stopped_ok old _ _ (Hst eq_refl) (get_put _ _ _)) as (s' & -> & I' & D). by exists s'.
  - destruct (setrun_ok old th false s I Ht) as (s' & -> & I' & [Q _ _ _]); [by apply negb_true_iff|]. exists s'. split; [done|]. split; [done|]. by apply quiet_dispatched.
  - eexists. split; [reflexivity|]. split; [by apply Hst|done].
Qed.

(** Fields that the invariant does not mention. *)
Lemma inv_put_core h t th th' s : inv h s -> get_th t s = Some th ->
  (th_state th', th_suspend_count th', th_user_stop_count th', th_stack_privilege th', th_runq th', th_wait_event th', th_pri th') =
  (th_state th, th_suspend_count th, th_user_stop_count th, th_stack_privilege th, th_runq th, th_wait_event th, th_pri th) -> inv h (put_th t th' s).
Proof using.
  intros I Ht [= E1 E2 E3 E4 E5 E6 E7]. destruct (i_th _ _ I _ _ Ht) as [_ _ K3 _ _ K6 _]. eapply inv_put_same; [exact I|exact Ht|done|done|unfold stops_ok in *; by rewrite E2, E3|done|done|done|by rewrite E7|].
  right. unfold th_sched_pri'. by rewrite E7.
Qed.

Lemma discard_stack_ok h old th s : inv h s -> get_th old s = Some th -> s_current s <> old -> b_sw (tb th) = false -> b_c (tb th) = false ->
  exists s1 th1, discard_stack old s = Some s1 /\ inv h s1 /\ get_th old s1 = Some th1 /\ (tb th1 = tb th \/ tb th1 = set_sw true (tb th)) /\ dispatched s s1.
Proof using.
  intros I Ht Hc Hsw Hco. unfold discard_stack. rewrite Ht. destruct (negb (th_swap_func th =? 0)); [|exists s, th; by repeat (split; [by auto|])].
  pose proof (i_th _ _ I _ _ Ht) as K. rewrite (k_enc _ _ K), swap_is_none, Hsw, Hco, lor_swapped. cbn [negb andb]. set (th1 := th_set_state (enc (set_sw true (tb th))) th).
  assert (I1 : inv h (put_th old th1 s)).
  { eapply inv_put; [exact I|exact Ht|done| |done|done]. eapply th_ok_bits; [exact K| |done|by left]. apply to_swapped; [apply K|]. apply andb_true_iff. split; [by cbn; rewrite bool_decide_false|by rewrite Hco]. }
  unfold stack_free. rewrite get_put. set (th2 := th_set_kernel_stack 0 th1). rewrite th_put_put.
  assert (I2 : inv h (put_th old th2 s)) by (rewrite <- (th_put_put old th1 th2 s); eapply inv_put_core; [exact I1|apply get_put|done]).
  eexists _, th2. split; [reflexivity|]. split; [destruct (negb _); [by eapply inv_flags|done]|]. split; [destruct (negb _); apply get_put|].
  split; [right; unfold tb at 1; cbn; by rewrite bits_enc|]. by destruct (negb _).
Qed.

Lemma dispatch_of_sw b : dispatch_of (set_sw true b) = dispatch_of b.
Proof using. done. Qed.

(** The old thread, at hand or the idle thread. *)
Lemma old_bits old th s : inv (hand_of old s) s -> get_th old s = Some th -> b_c (tb th) = false.
Proof using.
  intros I Ht. pose proof (k_place _ _ (i_th _ _ I _ _ Ht)) as Hp. unfold hand_of in *. destruct (Z.eqb_spec old (p_idle_thread s)) as [Hi|Hi].
  - apply idle_swap in Hp; [|by apply bool_decide_true]. rewrite !andb_true_iff, negb_true_iff in Hp. tauto.
  - pose proof (in_hand _ _ _ _ Hp) as Hin. rewrite place_hand in Hin. specialize (Hin eq_refl). rewrite !andb_true_iff, !negb_true_iff in Hin. tauto.
Qed.

Lemma thread_dispatch_ok old th s : inv (hand_of old s) s -> get_th old s = Some th -> s_current s <> old -> b_sw (tb th) = false ->
  exists s', thread_dispatch old s = Some s' /\ inv None s' /\ dispatched s s'.
Proof using.
  intros I Ht Hc Hsw. destruct (discard_stack_ok _ _ _ _ I Ht Hc Hsw (old_bits _ _ _ I Ht)) as (s1 & th1 & Hd & I1 & H1 & Hb & D1). unfold thread_dispatch. rewrite Hd, H1.
  pose proof (i_th _ _ I1 _ _ H1) as K1. pose proof D1 as (D2 & D3 & D4).
  assert (Hk : dispatch_case (Z.ldiff (th_state th1) TH_SWAP_STATE) = dispatch_of (tb th1)) by by rewrite (k_enc _ _ K1), ldiff_swap, dispatch_case_bits.
  rewrite Hk. unfold hand_of in *. rewrite <- D3 in I1, K1. destruct (Z.eqb_spec old (p_idle_thread s1)) as [Hi|Hi].
  - pose proof (dispatch_idle _ _ _ _ (k_place _ _ K1)) as Hdi. specialize (Hdi (bool_decide_eq_true_2 _ (eq_sym Hi))).
    destruct (dispatch_of (tb th1)) as [[]|]; try done. by exists s1.
  - destruct (dispatch_hand_ok old th1 s1 I1 H1) as (s' & -> & I' & D'). exists s'. split; [done|]. split; [done|]. destruct D' as (E2 & E3 & E4). unfold dispatched. rewrite E2, E3. auto.
Qed.

Lemma dispatch_swapped_ok old th continuation s : inv (hand_of old s) s -> get_th old s = Some th -> s_current s <> old -> b_sw (tb th) = false ->
  exists s', dispatch_swapped old continuation s = Some s' /\ inv None s' /\ dispatched s s'.
Proof using.
  intros I Ht Hc Hsw. pose proof (old_bits _ _ _ I Ht) as Hco. unfold dispatch_swapped. rewrite Ht. cbn [th_state th_set_swap_func]. pose proof (i_th _ _ I _ _ Ht) as K.
  rewrite (k_enc _ _ K), dispatch_case_whole, ldiff_run, !lor_swapped by done. set (th0 := th_set_swap_func continuation th).
  assert (I0 : inv (hand_of old s) (put_th old th0 s)) by (eapply inv_put_core; [exact I|exact Ht|done]). assert (H0 : get_th old (put_th old th0 s) = Some th0) by apply get_put.
  unfold hand_of in *. destruct (Z.eqb_spec old (p_idle_thread s)) as [Hi|Hi].
  - pose proof (dispatch_idle _ _ _ _ (k_place _ _ K)) as Hdi. specialize (Hdi (bool_decide_eq_true_2 _ (eq_sym Hi))).
    destruct (dispatch_of (tb th)) as [[]|] eqn:Ed; try done. eexists. split; [reflexivity|]. split; [|done].
    assert (Hb : enc (set_sw true (tb th)) = Z.lor TH_RUN (Z.lor TH_IDLE TH_SWAPPED)).
    { destruct (tb th) as [w x r n h i sw c]. cbn in Hsw, Hco. subst sw c. by destruct w, x, r, n, h, i. }
    rewrite <- Hb, <- (th_put_put old th0). eapply inv_put; [exact I0|exact H0|done| |done|done]. eapply (th_ok_bits (place_of None (put_th old th0 s) old)); [by apply I0| |done|by left].
    apply to_swapped; [apply K|]. apply andb_true_iff. split; [by cbn; rewrite bool_decide_false|by rewrite Hco].
  - pose proof (dispatch_hand _ _ _ _ (k_place _ _ K)) as Hd. rewrite place_hand in Hd. specialize (Hd eq_refl).
    pose proof (hand_stops old th0 true _ I0 H0) as Hst. cbn in Hst. rewrite th_put_put in Hst. change (tb th0) with (tb th) in Hst.
    destruct (dispatch_of (tb th)) as [[]|]; cbn in Hd; try done.
    + destruct (tell_stopped_ok old _ _ (Hst eq_refl) (get_put _ _ _)) as (s' & Hs & I' & D). exists s'. by rewrite Hs.
    + set (th1 := th_set_state (enc (set_sw true (tb th))) th0). assert (I1 : inv (Some old) (put_th old th1 s)).
      { rewrite <- (th_put_put old th0). eapply inv_put; [exact I0|exact H0|done| |done|done]. eapply th_ok_bits; [by apply I0| |done|by left]. apply to_swapped; [apply (i_th _ _ I0 _ _ H0)|].
        apply andb_true_iff. split; [by cbn; rewrite bool_decide_false|]. change (negb (b_c (tb th)) = true). by rewrite Hco. }
      destruct (setrun_ok old th1 false _ I1 (get_put _ _ _)) as (s' & Hs & I' & [Q _ _ _]); [unfold th1; rewrite tb_set; by apply negb_true_iff|].
      exists s'. rewrite Hs. split; [done|]. split; [done|]. exact (quiet_dispatched _ _ Q).
    + eexists. split; [reflexivity|]. split; [by apply Hst|done].
Qed.

(** ** The new thread *)

(** The thread that is switched to: it was taken, or it is the idle thread. *)
Definition chosen (h : option Z) (new : Z) (s : sched) : Prop := h = Some new \/ (h = None /\ new = p_idle_thread s).

Lemma mark_ok h new n s : inv h s -> get_th new s = Some n -> exists need n', mark_running new s = Some (s_set_need_ast need (put_th new n' s)) /\ inv h (s_set_need_ast need (put_th new n' s)) /\
  b_sw (tb n') = false /\ b_n (tb n') = false.
Proof using.
  intros I Hn. unfold mark_running, ast_context. rewrite Hn, get_put. pose proof (i_th _ _ I _ _ Hn) as K. rewrite (k_enc _ _ K), ldiff_swapped_unint. do 2 eexists. split; [reflexivity|].
  rewrite tb_set. split; [|done]. apply (inv_flags h (put_th new (th_set_state (enc (set_n false (set_sw false (tb n)))) n) s)); [|done|done].
  eapply inv_put; [exact I|exact Hn|done| |done|done]. eapply th_ok_bits; [exact K|apply marked, K|done|by left].
Qed.

Lemma cur_facts h t th s : inv h s -> get_th t s = Some th -> s_current s = t -> b_sw (tb th) = false /\ b_c (tb th) = false /\ b_r (tb th) = true /\ th_runq th = None.
Proof using.
  intros I Ht Hc. pose proof (cur_swap _ _ _ _ (k_place _ _ (i_th _ _ I _ _ Ht)) (bool_decide_eq_true_2 _ Hc)) as H. rewrite !andb_true_iff, !negb_true_iff in H.
  repeat split; try tauto. unfold on_runq in H. destruct (th_runq th); [|done]. rewrite bool_decide_true in H by done. by destruct H as [_ H].
Qed.

(** After a switch: the new thread runs, interruptibly. *)
Definition switched (new : Z) (s s' : sched) : Prop :=
  s_current s' = new /\ p_idle_thread s' = p_idle_thread s /\ (p_state s = PROCESSOR_RUNNING -> p_state s' = PROCESSOR_RUNNING).

Lemma invoke_switch_ok h continuation new n s : inv h s -> s_current s <> new -> chosen h new s -> get_th new s = Some n ->
  exists s', invoke_switch (s_current s) continuation new s = Some s' /\ inv None s' /\ switched new s s'.
Proof using.
  intros I Hne Hh Hn. unfold invoke_switch. destruct (mark_ok h new n s I Hn) as (need & n' & -> & I1 & Hsw & _). set (s1 := s_set_need_ast need (put_th new n' s)) in *.
  set (old := s_current s) in *. unfold switch_context. destruct (n_cur _ _ (i_known _ _ I1)) as [o Ho]. change (s_current s1) with old in Ho. rewrite Ho.
  set (o' := th_set_swap_func continuation (th_set_kernel_stack (s_stack s1) o)). set (s2 := put_th old o' s1).
  assert (I2 : inv h s2) by (eapply inv_put_core; [exact I1|exact Ho|done]). assert (H2 : get_th new s2 = Some n') by (unfold s2; rewrite get_put_ne by done; apply get_put). rewrite H2.
  destruct (cur_facts _ _ _ _ I1 Ho eq_refl) as (O1 & _). pose proof (switch_ok h new n' s2 I2 Hne Hh H2 Hsw) as I3.
  destruct (thread_dispatch_ok old o' (s_set_stack (th_kernel_stack n') (s_set_current new s2))) as (s' & -> & I' & D1 & D2 & D3).
  - eapply inv_flags; [exact I3|done|done].
  - apply get_put.
  - cbn. congruence.
  - exact O1.
  - exists s'. split; [done|]. split; [done|]. by split; [|split].
Qed.

Lemma invoke_handoff_ok h continuation new n s : inv h s -> s_current s <> new -> chosen h new s -> get_th new s = Some n ->
  exists s', invoke_handoff (s_current s) continuation new s = Some s' /\ inv None s' /\ switched new s s'.
Proof using.
  intros I Hne Hh Hn. unfold invoke_handoff. destruct (mark_ok h new n s I Hn) as (need & n' & -> & I1 & Hsw & _). set (s1 := s_set_need_ast need (put_th new n' s)) in *.
  set (old := s_current s) in *. unfold stack_handoff. destruct (n_cur _ _ (i_known _ _ I1)) as [o Ho]. change (s_current s1) with old in Ho. rewrite Ho.
  set (o' := th_set_kernel_stack 0 o). set (s2 := put_th old o' s1).
  assert (I2 : inv h s2) by (eapply inv_put_core; [exact I1|exact Ho|done]). assert (H2 : get_th new s2 = Some n') by (unfold s2; rewrite get_put_ne by done; apply get_put). rewrite H2.
  set (n2 := th_set_kernel_stack (s_stack s2) n'). set (s3 := put_th new n2 s2). assert (I3 : inv h s3) by (eapply inv_put_core; [exact I2|exact H2|done]).
  destruct (cur_facts _ _ _ _ I1 Ho eq_refl) as (O1 & _). pose proof (switch_ok h new n2 s3 I3 Hne Hh (get_put _ _ _) Hsw) as I4.
  destruct (dispatch_swapped_ok old o' continuation (s_set_current new s3) I4) as (s' & -> & I' & D1 & D2 & D3).
  - change (get_th old s3 = Some o'). unfold s3. rewrite get_put_ne by done. apply get_put.
  - cbn. congruence.
  - exact O1.
  - exists s'. split; [done|]. split; [done|]. by split; [|split].
Qed.

(** ** A thread that waits for a stack *)

Lemma coming_ok new n s : inv (Some new) s -> get_th new s = Some n -> b_sw (tb n) = true -> b_w (tb n) = false ->
  let b := set_c true (set_c false (set_sw false (tb n))) in
  inv None (s_set_swapin (s_swapin s ++ [new]) (put_th new (th_set_state (enc b) n) s)).
Proof using.
  intros I Hn Hsw Hw b. pose proof (i_th _ _ I _ _ Hn) as K. pose proof (k_place _ _ K) as Hp. rewrite place_hand in Hp.
  pose proof (in_hand _ _ _ _ Hp eq_refl) as Hin. rewrite !andb_true_iff, !negb_true_iff in Hin. destruct Hin as [[[[[[_ _] _] Hnc] _] _] _]. apply bool_decide_eq_false in Hnc.
  destruct I as [It Ik Il Iw Ir Ip Itk]. set (n' := th_set_state (enc b) n). set (s' := s_set_swapin (s_swapin s ++ [new]) (put_th new n' s)).
  assert (Hg : forall u, get_th u s' = if bool_decide (u = new) then Some n' else get_th u s) by (intros u; exact (get_put_case new u n' s)).
  assert (Hin : forall u, u ∈ s_swapin s' ++ s_swapping s' <-> u = new \/ u ∈ s_swapin s ++ s_swapping s).
  { intros u. cbn. rewrite <- app_assoc, !elem_of_app, list_elem_of_singleton. tauto. }
  assert (Hsome : forall u, is_Some (get_th u s) -> is_Some (get_th u s')) by (intros u Hu; rewrite Hg; case_bool_decide; [by eexists|done]).
  constructor; try done.
  - intros u x. rewrite Hg. case_bool_decide as E.
    + intros [= <-]. subst u. assert (place_of None s' new = set_coming true (set_hand false (place_of None s new))) as ->.
      { unfold place_of, set_coming, set_hand. cbn [at_cur at_next at_idle at_hand]. rewrite (bool_decide_true (new ∈ s_swapin s' ++ s_swapping s')) by (apply Hin; by left). done. }
      eapply th_ok_bits; [exact K| |by rewrite place_hand|by left]. apply to_coming; [done|]. by rewrite Hsw, Hw.
    + intros Hx. specialize (It _ _ Hx). assert (place_of None s' u = place_of (Some new) s u) as ->; [|done]. unfold place_of. f_equal; [|by rewrite !bool_decide_false by congruence].
      apply bool_decide_ext. rewrite Hin. naive_solver.
  - destruct Ik as [K1 K2 K3 K4 K5 K6 K7]. constructor; try done.
    + rewrite Hg. case_bool_decide as E; [|done]. congruence.
    + apply Hsome, K2.
    + apply Hsome, K3.
    + intros H. apply Hsome, K4, H.
    + intros u [->|Hu]%Hin; [rewrite Hg, bool_decide_true by done; by eexists|apply Hsome, K5, Hu].
    + cbn. rewrite <- app_assoc. apply NoDup_app in K6 as (N1 & N2 & N3). apply NoDup_app. split; [done|]. split.
      * intros u Hu [->|Hu']%elem_of_cons; [by apply Hnc, elem_of_app; left|by eapply N2].
      * apply NoDup_cons. split; [|done]. intros Hu. apply Hnc, elem_of_app. by right.
  - eapply queues_ext; [exact Iw|]. exact (wait_at_put new n n' s Hn eq_refl).
  - intros m. replace (get_rq m s') with (get_rq m s) by by destruct m. eapply rq_ext; [apply Ir|]. exact (run_at_put m new n n' s Hn eq_refl).
Qed.

Lemma swapin_ok new n s : inv (Some new) s -> get_th new s = Some n -> b_sw (tb n) = true -> b_w (tb n) = false ->
  exists s', thread_swapin new s = Some s' /\ inv None s' /\ dispatched s s' /\ stackless s' = stackless s - 1 /\ size (s_threads s') = size (s_threads s).
Proof using.
  intros I Hn Hsw Hw. pose proof (i_th _ _ I _ _ Hn) as K. pose proof (k_place _ _ K) as Hp. rewrite place_hand in Hp. pose proof (in_hand _ _ _ _ Hp eq_refl) as Hin.
  rewrite !andb_true_iff, !negb_true_iff in Hin. destruct Hin as [_ Hc]. unfold thread_swapin. rewrite Hn, (k_enc _ _ K), swap_is_swapped, Hsw, Hc, ldiff_swap, lor_coming. cbn [negb andb].
  destruct (wakeup_quiet swapin_queue _ (coming_ok new n s I Hn Hsw Hw)) as (s' & Hs & I' & Q). cbn zeta in Hs. exists s'. split; [exact Hs|]. split; [done|].
  pose proof (quiet_dispatched _ _ Q) as D. split; [exact D|]. destruct Q as [_ _ Qc]. split.
  - rewrite (stackless_core _ _ Qc). unfold stackless. cbn. rewrite (count_insert _ _ _ n) by exact Hn. unfold no_stack at 2 3. rewrite tb_set, Hsw. cbn. lia.
  - transitivity (size (<[new := th_set_state (enc (set_c true (set_c false (set_sw false (tb n))))) n]> (s_threads s))); [|by apply map_size_insert_Some].
    rewrite <- (map_size_fmap core), <- (map_size_fmap core (<[_ := _]> _)). f_equal. apply map_eq. intros u. rewrite !lookup_fmap. exact (Qc u).
Qed.

(** ** [thread_invoke] *)

Lemma chosen_bits h new n s : inv h s -> chosen h new s -> get_th new s = Some n -> b_c (tb n) = false /\ (h = None -> th_stack_privilege n <> 0).
Proof using.
  intros I Hh Hn. pose proof (i_th _ _ I _ _ Hn) as K. pose proof (k_place _ _ K) as Hp. destruct Hh as [->|[-> Hi]].
  - rewrite place_hand in Hp. pose proof (in_hand _ _ _ _ Hp eq_refl) as Hin. rewrite !andb_true_iff, !negb_true_iff in Hin. split; [tauto|done].
  - pose proof (idle_swap _ _ _ _ Hp (bool_decide_eq_true_2 _ (eq_sym Hi))) as Hin. rewrite !andb_true_iff, !negb_true_iff in Hin. split; [tauto|]. intros _. apply K. by apply bool_decide_true.
Qed.

(** A thread that does not get a stack is left to the swapin thread. *)
Definition missed (h : option Z) (new : Z) (s s' : sched) : Prop := h = Some new /\ dispatched s s' /\ stackless s' = stackless s - 1.

Lemma invoke_ok h continuation new n s : inv h s -> chosen h new s -> get_th new s = Some n -> (h = Some new -> b_w (tb n) = false) -> s_current s <> new ->
  exists s' sw, thread_invoke (s_current s) continuation new s = Some (s', sw) /\ inv None s' /\ if sw : bool then switched new s s' else missed h new s s'.
Proof using.
  intros I Hh Hn Hw Hne. destruct (chosen_bits _ _ _ _ I Hh Hn) as [Hc Hpr]. pose proof (i_th _ _ I _ _ Hn) as K. unfold thread_invoke. rewrite Hn. destruct (Z.eqb_spec (s_current s) new); [done|].
  destruct (n_cur _ _ (i_known _ _ I)) as [o Ho]. rewrite Ho, (k_enc _ _ K), swap_is_swapped, swap_is_coming, any_swapped, any_coming, Hc. cbn [negb]. rewrite !andb_true_r, !andb_false_r.
  destruct (invoke_switch_ok h continuation new n s I Hne Hh Hn) as (s' & Hs & I' & S').
  destruct (negb _ && negb _); [destruct (b_sw (tb n))|destruct (b_sw (tb n)) eqn:Hsw].
  - destruct (invoke_handoff_ok h continuation new n s I Hne Hh Hn) as (s2 & -> & I2 & S2). by exists s2, true.
  - rewrite Hs. by exists s', true.
  - unfold stack_alloc_try. rewrite Hn. assert (Hgot : forall k rest, exists s1,
      (LET s1 <- invoke_switch (s_current s) continuation new (put_th new (th_set_kernel_stack k n) (s_set_stack_free rest s)) ;; Some (s1, true)) = Some (s1, true) /\
      inv None s1 /\ switched new s s1).
    { intros k rest. set (s1 := put_th new (th_set_kernel_stack k n) (s_set_stack_free rest s)).
      assert (I1 : inv h s1) by (apply (inv_put_core h new n _ (s_set_stack_free rest s)); [by eapply inv_flags|exact Hn|done]).
      destruct (invoke_switch_ok h continuation new _ s1 I1 Hne Hh (get_put _ _ _)) as (s2 & Hs2 & I2 & S2). exists s2. change (s_current s1) with (s_current s) in Hs2. by rewrite Hs2. }
    destruct (s_stack_free s) as [|k rest] eqn:Hf; [|destruct (Hgot k rest) as (s1 & E1 & I1 & S1); by exists s1, true].
    destruct (Z.eqb_spec (th_stack_privilege n) 0) as [H0|H0]; cbn [negb].
    + destruct Hh as [->|[-> _]]; [|by specialize (Hpr eq_refl)]. destruct (swapin_ok new n s I Hn Hsw (Hw eq_refl)) as (s1 & -> & I1 & D1 & L1 & _). by exists s1, false.
    + destruct (Hgot (th_stack_privilege n) []) as (s1 & E1 & I1 & S1). exists s1, true. split; [|done]. rewrite <- E1.
      assert (s_set_stack_free [] s = s) as -> by (rewrite <- Hf; by destruct s). done.
  - rewrite Hs. by exists s', true.
Qed.

Lemma uninterrupted b p q z : okb b p q z = true -> okb (set_n false b) p q z = true.
Proof using. places b p q z. Qed.

Lemma invoke_self continuation s : inv None s -> exists s', thread_invoke (s_current s) continuation (s_current s) s = Some (s', true) /\ inv None s' /\
  s_current s' = s_current s /\ p_idle_thread s' = p_idle_thread s /\ p_state s' = p_state s.
Proof using.
  intros I. unfold thread_invoke. destruct (n_cur _ _ (i_known _ _ I)) as [o Ho]. rewrite Ho, Z.eqb_refl. eexists. split; [reflexivity|]. split; [|done].
  pose proof (i_th _ _ I _ _ Ho) as K. rewrite (k_enc _ _ K), ldiff_unint. eapply inv_put; [exact I|exact Ho|done| |done|done]. eapply th_ok_bits; [exact K|apply uninterrupted, K|done|by left].
Qed.

(** ** Blocking *)

Lemma best_facts n t s : inv None s -> best n s t -> exists th, get_th t s = Some th /\ th_runq th = Some n /\ b_w (tb th) = false.
Proof using.
  intros I (i & q & Hq & _). assert (Hi : run_at n s t = Some i) by (apply (q_in _ _ (r_queues _ _ (i_rq _ _ I n)) _ _ t Hq); left).
  unfold run_at in Hi. destruct (get_th t s) as [th|] eqn:Ht; [|done]. cbn in Hi. unfold run_of in Hi. case_bool_decide as Hr; [|done].
  exists th. split; [done|]. split; [done|]. by destruct (runq_facts _ _ _ _ I Ht Hr) as (_ & ? & _).
Qed.

(** A thread that was taken does not wait. *)
Lemma selected_bits s s1 t n : inv None s -> selects s s1 -> selected s t -> inv (Some t) s1 -> get_th t s1 = Some n -> b_w (tb n) = false.
Proof using.
  intros I [[= E1 E2 E3 E4 E5] _ _ Es] Hsel I1 Hn. destruct (hand_facts _ _ _ I1 Hn) as (_ & _ & Hc & Hi & _).
  assert (forall m, best m s t -> b_w (tb n) = false) as Hb.
  { intros m B. destruct (best_facts m t s I B) as (th & Ht & _ & Hw). specialize (Es t). rewrite Hn, Ht in Es. injection Es as Es. unfold tb in *. by rewrite Es. }
  destruct Hsel; [by eapply Hb|by eapply Hb|congruence|congruence].
Qed.

Lemma block_loop_ok continuation fuel : forall s, inv None s -> p_state s = PROCESSOR_RUNNING -> stackless s < Z.of_nat fuel ->
  exists s', block_loop fuel (s_current s) continuation s = Some s' /\ sched_ok s' /\ p_idle_thread s' = p_idle_thread s.
Proof using.
  induction fuel as [|fuel IH]; intros s I Hrun Hf; [pose proof (count_nonneg no_stack (s_threads s)); unfold stackless in Hf; lia|]. cbn [block_loop].
  destruct (select_ok s I Hrun) as (s1 & t & -> & Hsel & Ht & Hout). pose proof (e_fixed _ _ Hsel) as [= E1 E2 E3 E4 E5]. rewrite <- E1, <- E4.
  destruct Hout as [[I1 R1]|[(-> & I1 & R1)|(-> & I1 & R1)]].
  - destruct (n_hand _ _ (i_known _ _ I1) t eq_refl) as [n Hn]. pose proof (selected_bits s s1 t n I Hsel Ht I1 Hn) as Hw. destruct (hand_facts _ _ _ I1 Hn) as (_ & _ & Hc & _).
    destruct (invoke_ok (Some t) continuation t n s1 I1 (or_introl eq_refl) Hn (fun _ => Hw) Hc) as (s2 & sw & -> & I2 & S2). destruct sw.
    + exists s2. split; [done|]. destruct S2 as (_ & S2 & S3). split; [split; [done|]|done]. intros H. by specialize (S3 R1).
    + destruct S2 as (_ & (D1 & D2 & D3) & L2). rewrite <- D1, <- D2. apply IH; [done|auto|]. rewrite (stackless_core s s1 (e_core _ _ Hsel)) in L2. lia.
  - rewrite <- E1. destruct (invoke_self continuation s1 I1) as (s2 & -> & I2 & S1 & S2 & S3). exists s2. split; [done|]. split; [split; [done|]|done]. rewrite S3. congruence.
  - rewrite <- E4. destruct (decide (s_current s1 = p_idle_thread s1)) as [Hi|Hi].
    + rewrite <- Hi. destruct (invoke_self continuation s1 I1) as (s2 & -> & I2 & S1 & S2 & S3). exists s2. split; [done|]. split; [split; [done|]|]; congruence.
    + destruct (n_idle _ _ (i_known _ _ I1)) as [n Hn].
      destruct (invoke_ok None continuation (p_idle_thread s1) n s1 I1) as (s2 & sw & -> & I2 & S2); [by right|done|done|done|]. destruct sw; [|by destruct S2].
      exists s2. split; [done|]. destruct S2 as (S1 & S2 & _). split; [split; [done|]|done]. congruence.
Qed.

Lemma block_fuel_ok s : stackless s < Z.of_nat (block_fuel s).
Proof using. unfold stackless, block_fuel. pose proof (count_size no_stack (s_threads s)). lia. Qed.

(** [thread_block]: it returns, with the next thread running. *)
Lemma block_ok continuation s : inv None s -> p_state s = PROCESSOR_RUNNING ->
  exists s', thread_block continuation s = Some s' /\ sched_ok s' /\ p_idle_thread s' = p_idle_thread s.
Proof using.
  intros I Hrun. unfold thread_block. apply (block_loop_ok continuation _ (ast_off AST_BLOCK s)); [by eapply inv_flags|done|]. exact (block_fuel_ok s).
Qed.
End Block.
