(* ===== verification/KernSchedThms.v ===== *)
(** * The scheduler: threads on a uniprocessor

    Every operation keeps the invariant and none panics; what a wake-up and a
    selection do; priorities decay as they should. *)
From S2P Require Import Prelude Counting KernSched KernSwitch KernSchedInv KernSchedOps KernSchedWake.

Section Thms.
Context {C : SchedConfig}.

(** ** Operations that do not switch *)

Lemma quiet_sched s s' : (p_state s <> PROCESSOR_RUNNING -> s_current s = p_idle_thread s) -> inv None s' -> quiet s s' -> sched_ok s'.
Proof using.
  intros H I' [[= E1 E2 E3 E4 E5] Z _]. split; [done|]. intros Hp. rewrite E1, E4. apply H. intros Hr. by apply Hp, Z.
Qed.

Lemma put_sched t th' s : sched_ok s -> inv None (put_th t th' s) -> sched_ok (put_th t th' s).
Proof using. intros [_ H] I'. split; [done|exact H]. Qed.

Lemma to_wait b p q z : okb b p q z = true -> at_cur p && negb (at_idle p) && negb (b_h b) = true -> okb (set_w true b) p q z && okb (set_n true (set_w true b)) p q z = true.
Proof using. places b p q z. Qed.

Lemma to_held b p q z : okb b p q z = true -> negb (at_idle p) = true -> okb (set_s true b) p q true = true.
Proof using. places b p q z. Qed.

Lemma to_released b p q z : okb b p q z = true -> b_s b && (b_w b || b_r b) = true -> okb (set_h false (set_s false b)) p q false = true.
Proof using. places b p q z. Qed.

Lemma to_resumed b p q z : okb b (set_hand false p) q z = true -> b_s b && negb (b_w b || b_r b) = true -> negb q && okb (set_r true (set_h false (set_s false b))) (set_hand true p) q false = true.
Proof using. places b p q z. Qed.

Lemma to_halted b p q z : okb b p q z = true -> b_s b && negb (b_w b) && negb (b_n b) && negb (at_idle p) = true -> okb (set_h true b) p q z = true.
Proof using. places b p q z. Qed.

(** The current thread asserts a wait. *)
Definition may_wait (s : sched) : Prop := exists th, get_th (s_current s) s = Some th /\ th_wait_event th = 0 /\ b_h (tb th) = false /\ s_current s <> p_idle_thread s.

Lemma wait_bits th s : inv None s -> get_th (s_current s) s = Some th -> b_h (tb th) = false -> s_current s <> p_idle_thread s ->
  forall interruptible : bool, th_ok (place_of None s (s_current s)) (th_set_state (enc (if interruptible then set_w true (tb th) else set_n true (set_w true (tb th)))) th).
Proof using.
  intros I Ht Hh Hi interruptible. pose proof (i_th _ _ I _ _ Ht) as K. pose proof (to_wait _ _ _ _ (k_place _ _ K)) as Hb.
  assert (Hc : at_cur (place_of None s (s_current s)) && negb (at_idle (place_of None s (s_current s))) && negb (b_h (tb th)) = true).
  { rewrite Hh. unfold place_of. cbn [at_cur at_idle]. rewrite bool_decide_true, bool_decide_false by done. done. }
  specialize (Hb Hc). apply andb_true_iff in Hb as [B1 B2]. eapply th_ok_bits; [exact K|by destruct interruptible|done|intros _; left; by destruct interruptible].
Qed.

Lemma assert_wait_ok event interruptible s : sched_ok s -> may_wait s -> is_u32 event ->
  exists s', assert_wait event interruptible s = Some s' /\ sched_ok s' /\ whereabouts s' = whereabouts s.
Proof using.
  intros [I Hp] (th & Ht & He & Hh & Hi) Hu. unfold assert_wait. rewrite Ht, He. cbn [Z.eqb]. pose proof (i_th _ _ I _ _ Ht) as K.
  set (b := if interruptible then set_w true (tb th) else set_n true (set_w true (tb th))).
  assert (Hst : Z.lor (th_state th) (if interruptible then TH_WAIT else Z.lor TH_WAIT TH_UNINT) = enc b).
  { rewrite (k_enc _ _ K). unfold b. destruct interruptible; [apply lor_wait|apply lor_wait_unint]. }
  rewrite Hst. set (th' := th_set_state (enc b) th). pose proof (wait_bits th s I Ht Hh Hi interruptible) as K'. fold b th' in K'.
  destruct (Z.eqb_spec event 0) as [H0|H0]; cbn [negb].
  - eexists. split; [reflexivity|]. split; [|done]. split; [|exact Hp]. by eapply inv_put.
  - set (th2 := th_set_wait_event event th').
    destruct (queues_enqueue _ _ (i_wait _ _ I) (wait_at (put_th (s_current s) th2 s)) (s_current s) (wait_hash event)) as (qs & -> & Q1 & _ & Q2 & _).
    + unfold wait_at. rewrite Ht. cbn. unfold wait_of. by rewrite He.
    + rewrite (i_wait_len _ _ I). by apply Z.mod_pos_bound.
    + unfold wait_at. rewrite get_put. cbn. unfold wait_of. cbn. by destruct (Z.eqb_spec event 0).
    + intros u Hne. unfold wait_at. by rewrite get_put_ne.
    + eexists. split; [reflexivity|]. split; [|done]. split; [|exact Hp]. eapply (inv_change _ _ (s_current s) th th2 _ _ I Ht); try done.
      * destruct K' as [K1 K2 K3 K4 K5 K6 K7]. constructor; try done. intros _. unfold th2, tb. cbn [th_state th_set_wait_event th']. unfold th'. cbn [th_state th_set_state].
        rewrite bits_enc. unfold b. by destruct interruptible.
      * cbn. by rewrite Q2, (i_wait_len _ _ I).
      * intros n. replace (get_rq n _) with (get_rq n s) by by destruct n. eapply rq_ext; [apply I|]. exact (run_at_put n (s_current s) th th2 s Ht eq_refl).
Qed.

Lemma will_wait_ok s : sched_ok s -> may_wait s -> exists s', thread_will_wait (s_current s) s = Some s' /\ sched_ok s'.
Proof using.
  intros [I Hp] (th & Ht & He & Hh & Hi). unfold thread_will_wait. rewrite Ht. eexists. split; [reflexivity|]. split; [|exact Hp].
  pose proof (i_th _ _ I _ _ Ht) as K. rewrite (k_enc _ _ K), lor_wait. pose proof (wait_bits th s I Ht Hh Hi true) as K'. cbn [th_set_state] in K'.
  eapply inv_put; [exact I|exact Ht|done| |done|done]. destruct K'. by constructor.
Qed.

(** ** Suspension *)

Lemma th_ok_count p p' th b c : th_ok p th -> okb b p' (on_runq th) (0 <? c) = true -> at_idle p' = at_idle p -> (b_w (tb th) = true -> b_w b = true) ->
  b2z (0 <? th_user_stop_count th) <= c -> th_ok p' (th_set_state (enc b) (th_set_suspend_count c th)).
Proof using.
  intros [K1 K2 K3 K4 K5 K6 K7] Hb Hi Hw Hc.
  constructor; unfold tb, held; cbn [th_state th_set_state th_suspend_count th_set_suspend_count th_user_stop_count th_wait_event th_stack_privilege th_pri]; rewrite ?bits_enc; try done;
    [by intros ?%K5%Hw|by destruct K6; split|by rewrite Hi].
Qed.

Lemma hold_ok t th s : sched_ok s -> get_th t s = Some th -> t <> p_idle_thread s ->
  exists s' th', thread_hold t s = Some s' /\ sched_ok s' /\ get_th t s' = Some th' /\ tb th' = set_s true (tb th) /\ whereabouts s' = whereabouts s /\
    (forall u, u <> t -> get_th u s' = get_th u s) /\ th_wait_event th' = th_wait_event th.
Proof using.
  intros [I Hp] Ht Hi. unfold thread_hold. rewrite Ht. pose proof (i_th _ _ I _ _ Ht) as K. rewrite (k_enc _ _ K), lor_susp. eexists _, _. split; [reflexivity|].
  split; [split; [|exact Hp]|]; [|split; [apply get_put|split; [apply bits_enc|split; [done|split; [intros u Hu; by apply get_put_ne|done]]]]].
  pose proof (k_counts _ _ K) as [Hu1 Hu2].
  assert (0 <= b2z (0 <? th_user_stop_count th)) by by destruct (0 <? th_user_stop_count th).
  eapply inv_put; [exact I|exact Ht|done| |done|done]. eapply th_ok_count; [exact K| |done|done|lia].
  destruct (Z.ltb_spec 0 (th_suspend_count th + 1)); [|lia]. eapply to_held; [apply K|]. cbn. by rewrite bool_decide_false.
Qed.

Lemma held_susp p th : th_ok p th -> 0 < th_suspend_count th -> b_s (tb th) = true.
Proof using.
  intros K Hc. pose proof (k_place _ _ K) as Hk. unfold okb, held in Hk. rewrite !andb_true_iff in Hk. destruct Hk as [[[[_ Hk] _] _] _].
  destruct (Z.ltb_spec 0 (th_suspend_count th)); [|lia]. by apply eqb_prop in Hk.
Qed.

Lemma release_ok t th s : sched_ok s -> get_th t s = Some th -> b2z (0 <? th_user_stop_count th) < th_suspend_count th -> exists s', thread_release t s = Some s' /\ sched_ok s'.
Proof using.
  intros [I Hp] Ht Hc. unfold thread_release. rewrite Ht. pose proof (i_th _ _ I _ _ Ht) as K. pose proof (k_counts _ _ K) as [Hu1 Hu2]. pose proof (k_place _ _ K) as Hk.
  assert (0 <= b2z (0 <? th_user_stop_count th)) by by destruct (0 <? th_user_stop_count th).
  cbn [th_suspend_count th_set_suspend_count th_state]. destruct (Z.eqb_spec (th_suspend_count th - 1) 0) as [H0|H0].
  - assert (Hs : b_s (tb th) = true) by (eapply held_susp; [exact K|lia]). rewrite (k_enc _ _ K), ldiff_susp_halted. cbn [th_state th_set_state]. rewrite any_wait_run, lor_run. cbn [b_w b_r set_h set_s].
    rewrite H0. destruct (b_w (tb th) || b_r (tb th)) eqn:E; cbn [negb].
    + eexists. split; [reflexivity|]. split; [|exact Hp]. eapply inv_put; [exact I|exact Ht|done| |done|done]. eapply th_ok_count; [exact K| |done|done|lia].
      eapply to_released; [exact Hk|]. by rewrite Hs, E.
    + rewrite <- place_no_hand in Hk. pose proof (to_resumed _ _ _ _ Hk) as Hr. rewrite Hs, E in Hr. specialize (Hr eq_refl). apply andb_true_iff in Hr as [Hq Hr].
      set (th1 := th_set_state (enc (set_r true (set_h false (set_s false (tb th))))) (th_set_suspend_count 0 th)).
      assert (Hnq : th_runq th = None) by (unfold on_runq in Hq; destruct (th_runq th); [by rewrite bool_decide_true in Hq|done]).
      assert (I1 : inv (Some t) (put_th t th1 s)).
      { eapply inv_put; [exact I|exact Ht|apply take_hand| |done|intros n; unfold run_of; cbn; by rewrite Hnq]. eapply th_ok_count; [exact K| |by rewrite place_hand|done|lia]. by rewrite place_hand. }
      destruct (setrun_ok t th1 true _ I1 (get_put _ _ _)) as (s' & Hs' & I' & [Q _ _ _]).
      { unfold th1. rewrite tb_set. by apply orb_false_iff in E as [? _]. }
      exists s'. split; [exact Hs'|]. eapply quiet_sched; [|exact I'|exact Q]. exact Hp.
  - eexists. split; [reflexivity|]. split; [|exact Hp]. eapply inv_put; [exact I|exact Ht|done| |done|done]. destruct K as [K1 K2 K3 K4 K5 K6 K7]. constructor; try done; [|by split; cbn; [|lia]].
    unfold held in *. cbn. destruct (Z.ltb_spec 0 (th_suspend_count th)), (Z.ltb_spec 0 (th_suspend_count th - 1)); try lia. exact K2.
Qed.

Lemma resume_ok t th s : sched_ok s -> get_th t s = Some th -> exists s' ok, thread_resume t s = Some (s', ok) /\ sched_ok s' /\ ok = (0 <? th_user_stop_count th).
Proof using.
  intros [I Hp] Ht. unfold thread_resume. rewrite Ht. pose proof (i_th _ _ I _ _ Ht) as K. pose proof (k_counts _ _ K) as [Hu1 Hu2].
  destruct (Z.ltb_spec 0 (th_user_stop_count th)) as [Hn|Hn]; [|by exists s, false]. cbn [th_user_stop_count th_set_user_stop_count]. set (th1 := th_set_user_stop_count (th_user_stop_count th - 1) th).
  assert (I1 : inv None (put_th t th1 s)).
  { eapply inv_put; [exact I|exact Ht|done| |done|done]. destruct K as [K1 K2 K3 K4 K5 K6 K7]. constructor; try done. split; cbn; [lia|]. destruct (0 <? th_user_stop_count th - 1); cbn in *; lia. }
  destruct (Z.eqb_spec (th_user_stop_count th - 1) 0) as [H0|H0]; [|by exists (put_th t th1 s), true].
  destruct (release_ok t th1 (put_th t th1 s)) as (s' & -> & I'); [by split|apply get_put|cbn in *; rewrite H0; cbn; lia|]. by exists s', true.
Qed.

(** The current thread is not the idle thread, so the processor runs. *)
Lemma busy_runs s : sched_ok s -> s_current s <> p_idle_thread s -> p_state s = PROCESSOR_RUNNING.
Proof using. intros [_ H] Hne. destruct (decide (p_state s = PROCESSOR_RUNNING)); [done|]. by apply H in n. Qed.

Lemma sleep_ok event interruptible s : sched_ok s -> may_wait s -> is_u32 event -> exists s', thread_sleep event interruptible s = Some s' /\ sched_ok s'.
Proof using.
  intros Hok Hw Hu. unfold thread_sleep. destruct (assert_wait_ok event interruptible s Hok Hw Hu) as (s1 & -> & Hok1 & [= E1 E2 E3 E4 E5 E6 _ _ _]).
  destruct Hw as (_ & _ & _ & _ & Hi). destruct (block_ok 0 s1) as (s2 & -> & Hok2 & _); [apply Hok1|rewrite E6; by apply busy_runs|]. by exists s2.
Qed.

Lemma may_wait_put t th th' s : may_wait s -> get_th t s = Some th -> s_current s <> t -> may_wait (put_th t th' s).
Proof using. intros (c & Hc & H) Ht Hne. exists c. split; [rewrite get_put_ne by (cbn; congruence); exact Hc|exact H]. Qed.

Definition dowait_state (r : dowait_result) : sched := match r with Dowait_stopped s | Dowait_sleeps s => s end.

Lemma dowait_sleep_ok t th s : sched_ok s -> get_th t s = Some th -> may_wait s -> s_current s <> t -> exists r, dowait_sleep t s = Some r /\ sched_ok (dowait_state r).
Proof using.
  intros [I Hp] Ht Hw Hne. unfold dowait_sleep. rewrite Ht. set (th' := th_set_wake_active true th).
  assert (I1 : inv None (put_th t th' s)) by (eapply inv_put_core; [exact I|exact Ht|done]).
  destruct (sleep_ok (wake_event t) true (put_th t th' s)) as (s' & -> & Hok'); [by split|by eapply may_wait_put|apply u32_range|]. by exists (Dowait_sleeps s').
Qed.

Lemma dowait_cases b : (Z.land (enc b) TH_SCHED_STATE =? Z.lor TH_RUN TH_SUSP) = b_r b && b_s b && negb (b_w b) && negb (b_n b).
Proof using. all_bits b. Qed.

Lemma stops_bits b : b_r b && b_s b && negb (b_w b) && negb (b_n b) && negb (b_i b) = true -> is_stop (dispatch_of b) = true.
Proof using. by destruct b as [[] [] [] [] [] [] [] []]. Qed.

Lemma dowait_ok t th s : sched_ok s -> get_th t s = Some th -> may_wait s -> s_current s <> t -> exists r, thread_dowait t s = Some r /\ sched_ok (dowait_state r).
Proof using.
  intros Hok Ht Hw Hne. pose proof Hok as [I Hp]. unfold thread_dowait. destruct (Z.eqb_spec t (s_current s)) as [E|_]; [congruence|]. cbn [negb]. rewrite Ht.
  pose proof (i_th _ _ I _ _ Ht) as K. destruct (dowait_sleep_ok t th s Hok Ht Hw Hne) as (r & Hr & Hokr). rewrite (k_enc _ _ K), dowait_cases.
  destruct (_ || _); [by exists (Dowait_stopped s)|]. destruct (b_r (tb th) && b_s (tb th) && negb (b_w (tb th)) && negb (b_n (tb th))) eqn:E.
  - destruct (th_runq th) as [n|] eqn:Hq.
    + destruct (rem_runq_ok t th n s I Ht Hq) as (rq & -> & I1). set (s1 := put_th t (th_set_runq None th) (put_rq n rq s)) in *. assert (H1 : get_th t s1 = Some (th_set_runq None th)) by apply get_put.
      rewrite H1. change (th_state (th_set_runq None th)) with (th_state th). rewrite (k_enc _ _ K), ldiff_run. destruct (runq_facts _ _ _ _ I Ht Hq) as (_ & _ & _ & _ & Hi).
      assert (Hbi : b_i (tb th) = false).
      { pose proof (k_place _ _ K) as Hk. unfold okb in Hk. rewrite !andb_true_iff in Hk. destruct Hk as [[[[[_ Hk] _] _] _] _]. apply eqb_prop in Hk. rewrite Hk. by apply bool_decide_false. }
      pose proof (hand_stops t _ false s1 I1 H1) as I2. cbn zeta in I2. change (tb (th_set_runq None th)) with (tb th) in I2. specialize (I2 (stops_bits (tb th) ltac:(by rewrite E, Hbi))).
      destruct (tell_stopped_ok t _ _ I2 (get_put _ _ _)) as (s2 & Hs2 & I2' & D1 & D2 & D3). rewrite Hs2. exists (Dowait_stopped s2). split; [done|]. split; [done|].
      assert (Hw1 : s_current s1 = s_current s /\ p_idle_thread s1 = p_idle_thread s /\ p_state s1 = p_state s) by (unfold s1; by destruct n). destruct Hw1 as (W1 & W2 & W3).
      cbn [dowait_state]. intros Hr2. rewrite D1, D2. transitivity (s_current s); [exact W1|]. transitivity (p_idle_thread s); [|symmetry; exact W2].
      apply Hp. intros Hrun. apply Hr2, D3. by transitivity (p_state s).
    + unfold rem_runq. rewrite Ht, Hq, Hr. by exists r.
  - destruct (_ || _); [rewrite Hr; by exists r|by exists (Dowait_stopped s)].
Qed.

(** The counts of a thread change, and whether it is held does not. *)
Lemma inv_put_stops t th c s : inv None s -> get_th t s = Some th -> 0 <= c -> b2z (0 <? c) <= th_suspend_count th -> inv None (put_th t (th_set_user_stop_count c th) s).
Proof using.
  intros I Ht H0 H1. eapply inv_put; [exact I|exact Ht|done| |done|done]. destruct (i_th _ _ I _ _ Ht) as [K1 K2 K3 K4 K5 K6 K7]. by constructor.
Qed.

(** [thread_suspend] is a hold by the user and the wait for the thread to stop. *)
Lemma suspend_ok t th s : sched_ok s -> get_th t s = Some th -> t <> p_idle_thread s -> may_wait s -> exists r, thread_suspend t s = Some r /\ sched_ok (dowait_state r).
Proof using.
  intros Hok Ht Hi Hw. pose proof Hok as [I Hp]. unfold thread_suspend. rewrite Ht. pose proof (k_counts _ _ (i_th _ _ I _ _ Ht)) as [Hu1 Hu2].
  destruct (Z.eqb_spec (th_user_stop_count th) 0) as [H0|H0].
  - destruct (hold_ok t th s Hok Ht Hi) as (s1 & th1 & Hs1 & Hok1 & H1 & B1 & Hwh & Ho & _). set (c := th_user_stop_count th + 1). set (th2 := th_set_user_stop_count c th1). set (s2 := put_th t th2 s1).
    unfold thread_hold in *. rewrite Ht in Hs1. rewrite get_put, th_put_put. injection Hs1 as Hs1. rewrite <- Hs1, get_put in H1. injection H1 as H1.
    assert (E2 : put_th t (th_set_state (Z.lor (th_state (th_set_user_stop_count c th)) TH_SUSP)
      (th_set_suspend_count (th_suspend_count (th_set_user_stop_count c th) + 1) (th_set_user_stop_count c th))) s = s2) by (unfold s2, th2; rewrite <- Hs1, th_put_put, <- H1; done).
    rewrite E2. assert (Hok2 : sched_ok s2).
    { destruct Hok1 as [I1 Hp1]. split; [|exact Hp1]. apply inv_put_stops; [exact I1|by rewrite <- Hs1, get_put, H1|unfold c; lia|].
      assert (0 <= th_suspend_count th) by (rewrite H0 in Hu2; exact Hu2). rewrite <- H1. change (b2z (0 <? c) <= th_suspend_count th + 1). destruct (0 <? c); cbn; lia. }
    pose proof Hwh as [= W1 W2 W3 W4 W5 _ _ _ _]. assert (Hc2 : s_current s2 = s_current s) by exact W1. rewrite Hc2. destruct (Z.eqb_spec t (s_current s)) as [Hc|Hc].
    + exists (Dowait_stopped (ast_on AST_BLOCK s2)). split; [done|]. destruct Hok2 as [I2 Hp2]. split; [by eapply inv_flags|exact Hp2].
    + apply (dowait_ok t th2); [done|apply get_put| |congruence]. destruct Hw as (x & Hx1 & Hx3 & Hx4 & Hx5). exists x. rewrite Hc2. unfold s2. rewrite get_put_ne, Ho by done.
      split; [done|]. split; [done|]. split; [done|]. change (p_idle_thread (put_th t th2 s1)) with (p_idle_thread s1). congruence.
  - exists (Dowait_stopped (put_th t (th_set_user_stop_count (th_user_stop_count th + 1) th) s)). split; [done|]. split; [|exact Hp]. apply inv_put_stops; [done|done|lia|].
    destruct (Z.ltb_spec 0 (th_user_stop_count th)), (Z.ltb_spec 0 (th_user_stop_count th + 1)); cbn in *; lia.
Qed.

Lemma halt_self_ok continuation th s : sched_ok s -> get_th (s_current s) s = Some th -> s_current s <> p_idle_thread s -> b_s (tb th) = true -> b_w (tb th) = false -> b_n (tb th) = false ->
  exists s', thread_halt_self continuation s = Some s' /\ sched_ok s'.
Proof using.
  intros Hok Ht Hi Hs Hw Hn. pose proof Hok as [I Hp]. unfold thread_halt_self. rewrite Ht. pose proof (i_th _ _ I _ _ Ht) as K. rewrite (k_enc _ _ K), lor_halted.
  set (th' := th_set_ast (Z.ldiff (th_ast th) 1) (th_set_state (enc (set_h true (tb th))) th)).
  assert (I1 : inv None (put_th (s_current s) th' s)).
  { eapply inv_put; [exact I|exact Ht|done| |done|done]. assert (K' : th_ok (place_of None s (s_current s)) (th_set_state (enc (set_h true (tb th))) th)).
    { eapply th_ok_bits; [exact K| |done|by left]. eapply to_halted; [apply K|]. rewrite Hs, Hw, Hn. cbn. by rewrite bool_decide_false. }
    destruct K'. by constructor. }
  destruct (block_ok continuation _ I1) as (s' & -> & Hok' & _); [by apply (busy_runs s)|]. by exists s'.
Qed.

(** ** Priorities *)

Lemma change_pri_ok t th f s : inv None s -> get_th t s = Some th -> pri_ok (f (th_pri th)) -> th_sched_pri (f (th_pri th)) = th_sched_pri (th_pri th) ->
  exists s', change_pri t f s = Some s' /\ inv None s' /\ quiet s s' /\ get_th t s' = Some (th_set_pri (f (th_pri th)) th).
Proof using.
  intros I Ht Hp Hs. unfold change_pri. rewrite Ht. eexists. split; [reflexivity|]. split; [|split; [by eapply quiet_put|apply get_put]].
  destruct (i_th _ _ I _ _ Ht). eapply inv_put_same; try done. by right.
Qed.

Lemma set_pri_ok t th pri resched s : inv None s -> get_th t s = Some th -> 0 <= pri < NRQS -> exists s', set_pri t pri resched s = Some s' /\ inv None s' /\ quiet s s'.
Proof using.
  intros I Ht Hp. pose proof (i_th _ _ I _ _ Ht) as K. unfold set_pri. assert (Hpk : pri_ok (pri_set_sched_pri pri (th_pri th))) by (destruct (k_pri _ _ K) as (H1 & _ & H3); by split).
  destruct (th_runq th) as [n|] eqn:Hq.
  - destruct (rem_runq_ok t th n s I Ht Hq) as (rq & -> & I1). destruct (runq_facts _ _ _ _ I Ht Hq) as (_ & Hw & _). rewrite get_put. cbn [th_pri th_set_runq]. rewrite th_put_put.
    set (th1 := th_set_pri (pri_set_sched_pri pri (th_pri th)) (th_set_runq None th)). set (s1 := put_th t th1 (put_rq n rq s)).
    assert (I2 : inv (Some t) s1).
    { unfold s1. rewrite <- (th_put_put t (th_set_runq None th)). eapply inv_put; [exact I1|apply get_put|done| |done|done]. apply th_ok_pri; [apply (i_th _ _ I1), get_put|done]. }
    assert (Q1 : quiet s s1).
    { constructor; [by destruct n|by destruct n|]. intros u. unfold s1. rewrite get_put_case. case_bool_decide as E; [subst; by rewrite Ht|by destruct n]. }
    destruct resched.
    + destruct (setrun_ok t th1 true s1 I2 (get_put _ _ _) Hw) as (s' & -> & I' & [Q _ _ _]). exists s'. split; [done|]. split; [done|]. by eapply quiet_trans.
    + destruct (enqueue_ok n t th1 s1 I2 (get_put _ _ _) Hw) as (rq' & -> & _ & I'). eexists. split; [reflexivity|]. split; [exact I'|]. eapply quiet_trans; [exact Q1|].
      constructor; [by destruct n|by destruct n|]. intros u. rewrite get_put_case. case_bool_decide as E; [subst; unfold s1; by rewrite get_put|by destruct n].
  - unfold rem_runq. rewrite Ht, Hq, Ht. eexists. split; [reflexivity|]. split; [|by eapply quiet_put]. eapply inv_put; [exact I|exact Ht|done|by apply th_ok_pri|done|].
    intros n. unfold run_of. cbn. by rewrite Hq.
Qed.

Lemma compute_priority_ok t th resched s : inv None s -> get_th t s = Some th -> exists s', compute_priority t resched s = Some s' /\ inv None s' /\ quiet s s'.
Proof using.
  intros I Ht. unfold compute_priority. rewrite Ht. pose proof (k_pri _ _ (i_th _ _ I _ _ Ht)) as Hp. destruct (_ =? POLICY_TIMESHARE); [|eapply set_pri_ok; [done|done|apply Hp]].
  destruct (_ <? 0); [eapply set_pri_ok; [done|done|by apply priority_range]|]. eexists. split; [reflexivity|]. split; [|by eapply quiet_put].
  destruct (i_th _ _ I _ _ Ht). eapply inv_put_same; try done. by right.
Qed.

Lemma valid_pri pri : invalid_pri pri = false -> 0 <= pri < NRQS.
Proof using. unfold invalid_pri. rewrite orb_false_iff. intros [H1%Z.ltb_ge H2%Z.leb_gt]. lia. Qed.

(** A change of the base priority and what follows from it. *)
Lemma new_base_ok t th priority s : inv None s -> get_th t s = Some th -> 0 <= priority < NRQS ->
  exists s', (LET s <- change_pri t (pri_set_priority priority) s ;; compute_priority t true s) = Some s' /\ inv None s' /\ quiet s s'.
Proof using.
  intros I Ht Hp. destruct (k_pri _ _ (i_th _ _ I _ _ Ht)) as (_ & H2). destruct (change_pri_ok t th (pri_set_priority priority) s I Ht) as (s1 & -> & I1 & Q1 & H1); [by split|done|].
  destruct (compute_priority_ok t _ true s1 I1 H1) as (s2 & -> & I2 & Q2). exists s2. split; [done|]. split; [done|]. by eapply quiet_trans.
Qed.

Lemma quiet_get s s' t : quiet s s' -> is_Some (get_th t s) -> is_Some (get_th t s').
Proof using. intros [_ _ H] [th Ht]. specialize (H t). rewrite Ht in H. by destruct (get_th t s'). Qed.

Lemma thread_priority_ok t th priority set_max s : sched_ok s -> get_th t s = Some th -> exists r, thread_priority t priority set_max s = Some r /\ (forall s', r = Some s' -> sched_ok s') /\
  (r = None <-> invalid_pri priority = true \/ priority < th_max_priority (th_pri th)).
Proof using.
  intros [I Hp] Ht. unfold thread_priority. destruct (invalid_pri priority) eqn:Ev; [exists None; split; [done|]; split; [done|tauto]|]. apply valid_pri in Ev. rewrite Ht.
  destruct (Z.ltb_spec priority (th_max_priority (th_pri th))); [exists None; split; [done|]; split; [done|tauto]|]. pose proof (k_pri _ _ (i_th _ _ I _ _ Ht)) as Hpk.
  assert (exists s1, (if 0 <=? th_depress_priority (th_pri th) then change_pri t (pri_set_depress_priority priority) s
    else LET s0 <- change_pri t (pri_set_priority priority) s ;; compute_priority t true s0) = Some s1 /\ inv None s1 /\ quiet s s1) as (s1 & -> & I1 & Q1).
  { destruct (0 <=? _); [|by apply (new_base_ok t th)]. destruct (change_pri_ok t th (pri_set_depress_priority priority) s I Ht Hpk eq_refl) as (s1 & ? & ? & ? & _). by exists s1. }
  destruct (quiet_get _ _ t Q1) as [th1 H1]; [by eexists|].
  assert (exists s2, (if set_max then change_pri t (pri_set_max_priority priority) s1 else Some s1) = Some s2 /\ inv None s2 /\ quiet s1 s2) as (s2 & -> & I2 & Q2).
  { destruct set_max; [|by exists s1]. pose proof (k_pri _ _ (i_th _ _ I1 _ _ H1)) as Hp1.
    destruct (change_pri_ok t th1 (pri_set_max_priority priority) s1 I1 H1 Hp1 eq_refl) as (s2 & ? & ? & ? & _). by exists s2. }
  exists (Some s2). split; [done|]. split; [|split; [done|intros [H'|H']; [done|lia]]]. intros s' [= <-]. eapply quiet_sched; [exact Hp|done|by eapply quiet_trans].
Qed.

Lemma max_priority_ok t th max_priority s : sched_ok s -> get_th t s = Some th -> exists r, thread_max_priority t max_priority s = Some r /\ (forall s', r = Some s' -> sched_ok s').
Proof using.
  intros [I Hp] Ht. unfold thread_max_priority. destruct (invalid_pri max_priority) eqn:Ev; [by exists None|]. apply valid_pri in Ev. pose proof (k_pri _ _ (i_th _ _ I _ _ Ht)) as Hpk.
  destruct (change_pri_ok t th (pri_set_max_priority max_priority) s I Ht Hpk eq_refl) as (s1 & -> & I1 & Q1 & H1). rewrite H1.
  assert (exists s2, (if th_priority (th_pri (th_set_pri (pri_set_max_priority max_priority (th_pri th)) th)) <? max_priority then
      LET s <- change_pri t (pri_set_priority max_priority) s1 ;; compute_priority t true s
    else if (0 <=? th_depress_priority (th_pri (th_set_pri (pri_set_max_priority max_priority (th_pri th)) th))) &&
      (th_depress_priority (th_pri (th_set_pri (pri_set_max_priority max_priority (th_pri th)) th)) <? max_priority)
      then change_pri t (pri_set_depress_priority max_priority) s1 else Some s1) = Some s2 /\ inv None s2 /\ quiet s1 s2) as (s2 & -> & I2 & Q2).
  { destruct (_ <? max_priority); [by eapply new_base_ok|]. destruct (_ && _); [|by exists s1].
    destruct (change_pri_ok t _ (pri_set_depress_priority max_priority) s1 I1 H1 Hpk eq_refl) as (s2 & ? & ? & ? & _). by exists s2. }
  exists (Some s2). split; [done|]. intros s' [= <-]. eapply quiet_sched; [exact Hp|done|by eapply quiet_trans].
Qed.

Lemma policy_ok tick t th policy data s : sched_ok s -> get_th t s = Some th -> exists r, thread_policy tick t policy data s = Some r /\ (forall s', r = Some s' -> sched_ok s').
Proof using.
  intros [I Hp] Ht. unfold thread_policy. destruct (_ || _); [by exists None|]. rewrite Ht.
  assert (Hd : forall s0 th0, inv None s0 -> get_th t s0 = Some th0 -> exists s1 th1,
    (if policy =? POLICY_FIXEDPRI then change_pri t (pri_set_sched_data (policy_quantum tick data)) s0 else Some s0) = Some s1 /\ inv None s1 /\ quiet s0 s1 /\ get_th t s1 = Some th1).
  { intros s0 th0 I0 H0. destruct (policy =? POLICY_FIXEDPRI); [|by exists s0, th0]. pose proof (k_pri _ _ (i_th _ _ I0 _ _ H0)) as Hp0.
    destruct (change_pri_ok t th0 (pri_set_sched_data (policy_quantum tick data)) s0 I0 H0 Hp0 eq_refl) as (s1 & ? & ? & ? & ?). by eexists s1, _. }
  cbv beta zeta. destruct (policy =? th_policy (th_pri th)); [destruct (Hd s th I Ht) as (s1 & th1 & -> & I1 & Q1 & _); exists (Some s1); split; [done|]; intros s' [= <-]; by eapply quiet_sched|].
  destruct (_ =? 0); [by exists None|]. pose proof (k_pri _ _ (i_th _ _ I _ _ Ht)) as Hpk.
  destruct (change_pri_ok t th (pri_set_policy policy) s I Ht Hpk eq_refl) as (s1 & -> & I1 & Q1 & H1). destruct (Hd _ _ I1 H1) as (s2 & th2 & -> & I2 & Q2 & H2).
  destruct (compute_priority_ok t th2 true s2 I2 H2) as (s3 & -> & I3 & Q3). exists (Some s3). split; [done|]. intros s' [= <-].
  eapply quiet_sched; [exact Hp|done|]. eapply quiet_trans; [exact Q1|]. by eapply quiet_trans.
Qed.

Lemma own_priority_ok priority s : sched_ok s -> 0 <= priority < NRQS -> exists s', thread_set_own_priority priority s = Some s' /\ sched_ok s'.
Proof using.
  intros [I Hp] Hr. unfold thread_set_own_priority. destruct (n_cur _ _ (i_known _ _ I)) as [th Ht]. rewrite Ht. pose proof (k_pri _ _ (i_th _ _ I _ _ Ht)) as Hpk.
  assert (exists s1 th1, (if priority <? th_max_priority (th_pri th) then change_pri (s_current s) (pri_set_max_priority priority) s else Some s) = Some s1 /\ inv None s1 /\ quiet s s1 /\
    get_th (s_current s) s1 = Some th1) as (s1 & th1 & -> & I1 & Q1 & H1).
  { destruct (_ <? _); [|by exists s, th]. destruct (change_pri_ok _ th (pri_set_max_priority priority) s I Ht Hpk eq_refl) as (s1 & ? & ? & ? & ?). by eexists s1, _. }
  destruct (new_base_ok _ th1 priority s1 I1 H1 Hr) as (s2 & -> & I2 & Q2). exists s2. split; [done|]. eapply quiet_sched; [exact Hp|done|by eapply quiet_trans].
Qed.

(** ** The clock *)

Lemma tick_inv h x s : inv h s -> is_u32 x -> inv h (s_set_tick x s).
Proof using. intros [It Ik Il Iw Ir Ip Itk] Hx. constructor; try done. by destruct Ik. Qed.

Lemma recompute_ok sched_thread_id s : sched_ok s -> (sched_thread_id <> THREAD_NULL -> is_Some (get_th sched_thread_id s)) ->
  exists s', recompute_priorities sched_thread_id s = Some s' /\ sched_ok s'.
Proof using.
  intros [I Hp] Hs. unfold recompute_priorities. set (s1 := s_set_tick (u32 (s_tick s + 1)) s). assert (I1 : inv None s1) by (apply tick_inv; [done|apply u32_range]).
  destruct (Z.eqb_spec sched_thread_id THREAD_NULL) as [H0|H0]; cbn [negb]; [exists s1; split; [done|by split]|]. destruct (Hs H0) as [th Ht].
  destruct (clear_wait_ok sched_thread_id th THREAD_AWAKENED false s1 I1 Ht) as (s' & -> & I' & Q & _). exists s'. split; [done|]. by apply (quiet_sched s1).
Qed.

Lemma account_ok tick enough p : is_u32 tick -> pri_ok p -> exists p', account tick enough p = Some p' /\ pri_ok p'.
Proof using.
  intros Ht Hp. unfold account. destruct (Z.eqb_spec (th_sched_stamp p) tick); cbn [negb]; [|destruct (update_priority_ok tick p) as (p' & -> & ? & _); by eauto].
  destruct (_ && _); [|by exists p]. eexists. split; [reflexivity|]. assert (Hp' : pri_ok (thread_timer_delta p)) by exact Hp. destruct (enough _); [|done].
  apply compute_pri_ok. destruct Hp' as (? & ? & _ & ?). split; [done|]. split; [done|]. split; [|done]. cbn. apply u32_range.
Qed.

Lemma ast_check_ok s : sched_ok s -> exists s', ast_check s = Some s' /\ sched_ok s'.
Proof using.
  intros [I Hp]. unfold ast_check. destruct (n_cur _ _ (i_known _ _ I)) as [th ->]. assert (Hflag : forall s', whereabouts s' = whereabouts s ->
    (s_threads s', s_wait s', s_pset s', s_proc s') = (s_threads s, s_wait s, s_pset s, s_proc s) -> sched_ok s').
  { intros s' Hw Ht. split; [by eapply inv_flags|]. pose proof Hw as [= E1 _ _ _ E5 E6 _ _ _]. rewrite E1, E5, E6. exact Hp. }
  assert ((p_state s =? PROCESSOR_IDLE) || (p_state s =? PROCESSOR_DISPATCHING) || (p_state s =? 0) = negb (p_state s =? PROCESSOR_RUNNING)) as ->
    by (destruct (i_proc _ _ I) as [(-> & _)|[(-> & _)|(-> & _)]]; done). destruct (p_state s =? PROCESSOR_RUNNING); cbn [negb]; [|by exists s].
  destruct (negb _); [eexists; split; [reflexivity|by apply Hflag]|]. destruct (_ || _); [eexists; split; [reflexivity|by apply Hflag]|].
  destruct (any_bit policies POLICY_FIXEDPRI); [eexists; split; [reflexivity|]; destruct (csw_needed _ _); [by apply Hflag|]; destruct (_ =? POLICY_FIXEDPRI); by apply Hflag|].
  unfold ast_check_timeshare. destruct (negb _ && _) eqn:Ec; [|eexists; split; [reflexivity|by apply Hflag]]. apply andb_true_iff in Ec as [_ Hc%Z.ltb_lt]. cbn [s_pset ast_on s_set_need_ast] in *.
  pose proof (i_rq _ _ I Rq_pset) as [R1 R2 R3 R4 R5]. cbn [get_rq] in *. destruct (queues_get (rq_runq (s_pset s)) (rq_low (s_pset s))) as [q Hq]; [lia|]. rewrite Hq.
  destruct q as [|u q]; [|eexists; split; [reflexivity|]; destruct (_ <=? _); by apply Hflag].
  destruct (rq_nonempty Rq_pset _ s (rq_low (s_pset s)) I Hc) as (k & v & r & E1 & E2 & E3 & E4); [cbn; lia|]. cbn [get_rq] in *. rewrite E1. eexists. split; [reflexivity|].
  assert (I2 : inv None (set_low Rq_pset k s)) by (apply inv_set_low; [done|lia|intros i _ Hi; by apply E4]). split; [|by destruct (_ <=? _)].
  destruct (_ <=? _); eapply inv_flags; [exact I2|done|done|exact I2|done|done].
Qed.

Lemma quantum_update_ok nticks cpu_idle s : sched_ok s -> exists s', thread_quantum_update nticks cpu_idle s = Some s' /\ sched_ok s'.
Proof using.
  intros [I Hp]. unfold thread_quantum_update. assert (I0 : inv None (s_set_set_quantum min_quantum s)) by by eapply inv_flags. destruct cpu_idle; cbn [negb]; [by eexists|].
  set (s1 := p_set_quantum (p_quantum (s_set_set_quantum min_quantum s) - nticks) (s_set_set_quantum min_quantum s)). assert (I1 : inv None s1) by by eapply inv_flags.
  destruct (n_cur _ _ (i_known _ _ I1)) as [th Ht]. change (s_current s1) with (s_current s) in Ht. rewrite Ht. pose proof (k_pri _ _ (i_th _ _ I1 _ _ Ht)) as Hpk.
  destruct (cur_facts _ _ _ _ I1 Ht eq_refl) as (_ & _ & _ & Hnq).
  assert (Hput : forall p, pri_ok p -> inv None (put_th (s_current s) (th_set_pri p th) s1)).
  { intros p Hpo. eapply inv_put; [exact I1|exact Ht|done|apply th_ok_pri; [by apply I1|done]|done|]. intros n. unfold run_of. cbn. by rewrite Hnq. }
  destruct (p_quantum s1 <=? 0).
  - destruct (account_ok (s_tick s1) (fun _ => true) (th_pri th)) as (p & -> & Hpo); [apply I1|done|]. apply ast_check_ok. split; [|exact Hp]. eapply inv_flags; [by apply Hput|done|done].
  - destruct (account_ok (s_tick s1) (fun delta => USAGE_THRESHOLD <=? delta) (th_pri th)) as (p & -> & Hpo); [apply I1|done|]. apply ast_check_ok. split; [|exact Hp]. by apply Hput.
Qed.

(** ** Waking single threads *)

Lemma go_ok t th s : sched_ok s -> get_th t s = Some th -> th_wait_event th = 0 -> exists s', thread_go t s = Some s' /\ sched_ok s'.
Proof using.
  intros [I Hp] Ht He. unfold thread_go. destruct (reset_ok None t th s I Ht) as [-> I1]. set (th1 := th_set_timer_set false th) in *. destruct (b_w (tb th)) eqn:Hw.
  - destruct (wake_ok t th1 THREAD_AWAKENED (Some (put_th t th1 s)) (put_th t th1 s) I1) as (s' & -> & I' & [Q _ _] & _); [apply get_put|done|done|]. exists s'. split; [done|].
    eapply quiet_sched; [exact Hp|done|]. eapply quiet_trans; [|exact Q]. by eapply quiet_put.
  - exists (put_th t th1 s). split; [|by split]. unfold wake_thread. rewrite get_put. cbn. rewrite (k_enc _ _ (i_th _ _ I _ _ Ht)), wake_case_bits, Hw. done.
Qed.

Lemma timeout_ok t th s : sched_ok s -> get_th t s = Some th -> exists s', thread_timeout t s = Some s' /\ sched_ok s'.
Proof using.
  intros [I Hp] Ht. unfold thread_timeout. destruct (reset_ok None t th s I Ht) as [-> I1]. destruct (clear_wait_ok t _ THREAD_TIMED_OUT false _ I1 (get_put _ _ _)) as (s' & -> & I' & Q & _).
  exists s'. split; [done|]. eapply quiet_sched; [exact Hp|done|]. eapply quiet_trans; [|exact Q]. by eapply quiet_put.
Qed.

Lemma set_timeout_ok s : sched_ok s -> exists s', thread_set_timeout s = Some s' /\ sched_ok s'.
Proof using.
  intros [I Hp]. unfold thread_set_timeout. destruct (n_cur _ _ (i_known _ _ I)) as [th Ht]. rewrite Ht. eexists. split; [reflexivity|]. destruct (any_bit _ _); [|by split].
  split; [|exact Hp]. by eapply inv_put_core; [exact I|exact Ht|].
Qed.

(** ** The idle thread *)

Lemma from_next b p q z : okb b (set_hand false p) q z = true -> at_next p = true -> okb b (set_next false (set_hand true p)) q z && negb (b_w b) && negb (at_cur p) = true.
Proof using. places b p q z. Qed.

(** The processor takes the thread that was dispatched to it. *)
Lemma take_next s : inv None s -> p_state s = PROCESSOR_DISPATCHING -> exists n, get_th (p_next_thread s) s = Some n /\ b_w (tb n) = false /\ s_current s <> p_next_thread s /\
  inv (Some (p_next_thread s)) (p_set_state PROCESSOR_RUNNING (p_set_next_thread THREAD_NULL s)).
Proof using.
  intros I Hd. pose proof I as [It Ik Il Iw Ir Ip Itk]. destruct Ip as [(P & _)|[(P & _)|(_ & P2 & P3 & P4)]]; [by rewrite Hd in P|by rewrite Hd in P|].
  destruct (n_next _ _ Ik P4) as [n Hn]. set (new := p_next_thread s) in *. pose proof (It _ _ Hn) as K. pose proof (k_place _ _ K) as Hp. rewrite <- place_no_hand in Hp.
  pose proof (from_next _ _ _ _ Hp (bool_decide_eq_true_2 _ eq_refl)) as H. rewrite !andb_true_iff, !negb_true_iff in H. destruct H as [[Hb Hw] Hc]. apply bool_decide_eq_false in Hc.
  exists n. split; [done|]. split; [done|]. split; [done|]. set (s' := p_set_state PROCESSOR_RUNNING (p_set_next_thread THREAD_NULL s)). constructor; try done.
  - intros u x Hx. change (get_th u s = Some x) in Hx. assert (Hu0 : THREAD_NULL <> u) by (intros <-; rewrite (n_null _ _ Ik) in Hx; done). destruct (decide (u = new)) as [->|Hne].
    + simplify_eq. assert (place_of (Some new) s' new = set_next false (set_hand true (place_of None s new))) as ->.
      { unfold place_of, set_next, set_hand. cbn. by rewrite (bool_decide_false (THREAD_NULL = new)), (bool_decide_true (Some new = Some new)). }
      by eapply th_ok_place.
    + assert (place_of (Some new) s' u = place_of None s u) as ->; [|by apply It]. unfold place_of. cbn.
      rewrite (bool_decide_false (THREAD_NULL = u)), (bool_decide_false (Some new = Some u)), (bool_decide_false (new = u)) by congruence. done.
  - destruct Ik. constructor; try done. intros t [= <-]. by eexists.
  - by left.
Qed.

Lemma idle_turn_ok s : sched_ok s -> p_state s <> PROCESSOR_RUNNING -> exists s', idle_turn s = Some s' /\ sched_ok s'.
Proof using.
  intros [I Hp] Hnr. unfold idle_turn. destruct (i_proc _ _ I) as [(P & _)|[(P1 & P2 & P3 & P4)|(P1 & P2 & P3 & P4)]]; [done|..]; rewrite P1; cbn [Z.eqb].
  - change (PROCESSOR_IDLE =? PROCESSOR_DISPATCHING) with false. change (PROCESSOR_IDLE =? PROCESSOR_IDLE) with true. cbv iota.
    destruct (block_ok idle_thread_continue (p_set_state PROCESSOR_RUNNING (s_set_idle_queue (remqueue master_processor (s_idle_queue s)) (s_set_idle_count (s_idle_count s - 1) s)))) as (s' & -> & Hok & _); [|done|by exists s'].
    destruct I as [It Ik Il Iw Ir Ip Itk]. constructor; try done; [by destruct Ik|]. left. rewrite P2, P3. unfold remqueue. cbn. rewrite decide_False by naive_solver. done.
  - change (PROCESSOR_DISPATCHING =? PROCESSOR_DISPATCHING) with true. cbv iota zeta. destruct (take_next s I P1) as (n & Hn & Hw & Hc & I1). rewrite Hn.
    set (q := if _ =? POLICY_TIMESHARE then _ else _). set (s1 := p_set_first_quantum true (p_set_quantum q (p_set_state PROCESSOR_RUNNING (p_set_next_thread THREAD_NULL s)))).
    assert (I2 : inv (Some (p_next_thread s)) s1) by by eapply inv_flags. unfold thread_run.
    destruct (invoke_ok _ idle_thread_continue (p_next_thread s) n s1 I2 (or_introl eq_refl) Hn (fun _ => Hw) Hc) as (s2 & sw & -> & I3 & S2). destruct sw.
    + exists s2. split; [done|]. split; [done|]. destruct S2 as (_ & _ & S3). intros X. by specialize (S3 eq_refl).
    + destruct S2 as (_ & (D1 & D2 & D3) & _). rewrite <- D1. destruct (block_loop_ok idle_thread_continue (block_fuel s2) s2 I3 (D3 eq_refl) (block_fuel_ok s2)) as (s3 & -> & Hok & _). by exists s3.
Qed.

(** ** The swapin thread *)

Lemma swapin_next_ok continuation s : sched_ok s -> may_wait s -> is_u32 swapin_queue -> exists s', swapin_next continuation s = Some s' /\ sched_ok s'.
Proof using.
  intros Hok Hw Hu. unfold swapin_next. destruct (s_swapin s) as [|t rest] eqn:E.
  - destruct (assert_wait_ok swapin_queue false s Hok Hw Hu) as (s1 & -> & Hok1 & [= E1 E2 E3 E4 E5 E6 _ _ _]). destruct Hw as (_ & _ & _ & _ & Hi).
    destruct (block_ok continuation s1) as (s2 & -> & Hok2 & _); [apply Hok1|rewrite E6; by apply busy_runs|]. by exists s2.
  - eexists. split; [reflexivity|]. destruct Hok as [[It Ik Il Iw Ir Ip Itk] Hp]. split; [|exact Hp].
    assert (Hin : forall u, u ∈ rest ++ t :: s_swapping s <-> u ∈ s_swapin s ++ s_swapping s) by (intros u; rewrite E, !elem_of_app, !elem_of_cons; tauto). constructor; try done.
    + intros u x Hx. specialize (It _ _ Hx). assert (place_of None (s_set_swapping (t :: s_swapping s) (s_set_swapin rest s)) u = place_of None s u) as ->; [|done].
      unfold place_of. cbn. f_equal. by apply bool_decide_ext.
    + destruct Ik as [K1 K2 K3 K4 K5 K6 K7]. constructor; try done; [intros u Hu'; by apply K5, Hin|]. cbn. rewrite E in K6. eapply NoDup_Permutation_proper; [|exact K6]. by rewrite <- Permutation_middle.
Qed.

Lemma from_coming b p q z : okb b (set_hand false p) q z = true -> at_coming p = true ->
  okb (set_c false (set_sw false b)) (set_coming false (set_hand true p)) q z && b_r b && negb (b_w b) && negb q = true.
Proof using. places b p q z. Qed.

(** A thread that was swapped in can run. *)
Lemma doswapin_ok t stack s : sched_ok s -> t ∈ s_swapping s -> exists s', thread_doswapin t stack s = Some s' /\ sched_ok s'.
Proof using.
  intros [I Hpr] Hin. pose proof I as [It Ik Il Iw Ir Ip Itk]. destruct (n_coming _ _ Ik t) as [th Ht]; [apply elem_of_app; by right|]. unfold thread_doswapin. rewrite Ht.
  pose proof (It _ _ Ht) as K. pose proof (k_place _ _ K) as Hp. rewrite <- place_no_hand in Hp.
  pose proof (from_coming _ _ _ _ Hp (bool_decide_eq_true_2 (t ∈ s_swapin s ++ s_swapping s) ltac:(apply elem_of_app; by right))) as H.
  rewrite !andb_true_iff, !negb_true_iff in H. destruct H as [[[Hb Hr] Hw] Hq]. cbn [th_state th_set_kernel_stack th_set_state]. rewrite (k_enc _ _ K), ldiff_swap, any_run.
  cbn [b_r set_c set_sw]. rewrite Hr. set (th1 := th_set_state (enc (set_c false (set_sw false (tb th)))) (th_set_kernel_stack stack th)).
  set (s1 := put_th t th1 (s_set_swapping (remqueue t (s_swapping s)) s)).
  assert (Hnq : th_runq th = None) by (unfold on_runq in Hq; destruct (th_runq th); [by rewrite bool_decide_true in Hq|done]).
  destruct Ik as [K1 K2 K3 K4 K5 K6 K7]. pose proof K6 as (N1 & N2 & N3)%NoDup_app. assert (Hnt : t ∉ s_swapin s) by (intros X; by eapply N2).
  assert (Hcm : forall u, u ∈ s_swapin s ++ remqueue t (s_swapping s) <-> u <> t /\ u ∈ s_swapin s ++ s_swapping s).
  { intros u. rewrite !elem_of_app, remqueue_in. split; [intros [X|[X Y]]|intros [X [Y|Y]]]; [split; [congruence|tauto]|tauto|tauto|tauto]. }
  assert (Hsome : forall u, is_Some (get_th u s) -> is_Some (get_th u s1)) by (intros u Hu; unfold s1; rewrite get_put_case; case_bool_decide; [by eexists|exact Hu]).
  assert (I1 : inv (Some t) s1).
  { constructor; try done.
    - intros u x. unfold s1. rewrite get_put_case. fold s1. case_bool_decide as E.
      + intros [= <-]. subst u. assert (place_of (Some t) s1 t = set_coming false (set_hand true (place_of None s t))) as ->.
        { unfold place_of, set_coming, set_hand. cbn. rewrite (bool_decide_true (Some t = Some t)) by done. f_equal. apply bool_decide_false. rewrite Hcm. tauto. }
        assert (K' : th_ok (place_of None s t) (th_set_kernel_stack stack th)) by (destruct K; by constructor). eapply th_ok_bits; [exact K'|exact Hb|done|by left].
      + intros Hx. assert (place_of (Some t) s1 u = place_of None s u) as ->; [|by apply It]. unfold place_of. cbn. f_equal; [apply bool_decide_ext; rewrite Hcm; tauto|].
        by rewrite !bool_decide_false by congruence.
    - constructor; try done; [unfold s1; rewrite get_put_case; case_bool_decide; [congruence|done]|by apply Hsome|by apply Hsome|intros X; by apply Hsome, K4|intros u [_ Hu]%Hcm; by apply Hsome, K5| |].
      + cbn. apply NoDup_app. split; [done|]. split; [intros u Hu [Hu' _]%remqueue_in; by eapply N2|by apply NoDup_filter].
      + intros u [= <-]. unfold s1. rewrite get_put. by eexists.
    - eapply queues_ext; [exact Iw|]. exact (wait_at_put t th th1 s Ht eq_refl).
    - intros n. replace (get_rq n s1) with (get_rq n s) by by destruct n. eapply rq_ext; [apply Ir|]. apply (run_at_put n t th th1 s Ht). unfold run_of. cbn. by rewrite Hnq. }
  destruct (setrun_ok t th1 true s1 I1 (get_put _ _ _)) as (s' & -> & I' & [Q _ _ _]); [unfold th1; rewrite tb_set; exact Hw|]. exists s'. split; [done|]. by apply (quiet_sched s1).
Qed.
End Thms.
