(* ===== verification/KernSchedMachine.v ===== *)
(** * The scheduler: every thread has its place

    Sequences of operations of threads and interrupts on a uniprocessor; in every
    state that they reach no thread is lost or queued twice.  What a wake-up and a
    selection do; the table of thread states; the decay of usage. *)
From S2P Require Import Prelude Counting KernSched KernSwitch KernSchedInv KernSchedOps KernSchedWake.
From S2P Require Import KernSchedThms.

(** ** Occurrences in queues *)

Definition occ (t : Z) (l : list Z) : nat := length (filter (fun u => u = t) l).

Lemma occ_app t l1 l2 : occ t (l1 ++ l2) = (occ t l1 + occ t l2)%nat.
Proof. unfold occ. by rewrite filter_app, length_app. Qed.

Lemma occ_absent t l : t ∉ l -> occ t l = 0%nat.
Proof.
  unfold occ. induction l as [|u l IH]; [done|]. intros [Hu Hl]%not_elem_of_cons. rewrite filter_cons_False by congruence. by apply IH.
Qed.

Lemma occ_once t l : NoDup l -> t ∈ l -> occ t l = 1%nat.
Proof.
  unfold occ. induction l as [|u l IH]; [by intros _ ?%not_elem_of_nil|]. intros [Hu Hl]%NoDup_cons Ht. destruct (decide (u = t)) as [->|Hne].
  - rewrite filter_cons_True by done. cbn. f_equal. by apply occ_absent.
  - rewrite filter_cons_False by done. apply IH; [done|]. apply elem_of_cons in Ht as [->|]; done.
Qed.

Lemma occ_single t u : occ t [u] = b2n (bool_decide (u = t)).
Proof. unfold occ. case_bool_decide; [by rewrite filter_cons_True|by rewrite filter_cons_False]. Qed.

Lemma occ_nodup t l : NoDup l -> occ t l = b2n (bool_decide (t ∈ l)).
Proof. intros H. case_bool_decide; [by apply occ_once|by apply occ_absent]. Qed.

Lemma occ_concat t qs k q : (forall j r, qs !! j = Some r -> t ∈ r -> j = k) -> qs !! k = Some q -> occ t (concat qs) = occ t q.
Proof.
  revert k. induction qs as [|r qs IH]; intros k Hu Hk; [done|]. cbn [concat]. rewrite occ_app. destruct k as [|k].
  - injection Hk as ->. assert (occ t (concat qs) = 0%nat) as ->; [|lia]. apply occ_absent. rewrite list_elem_of_In, in_concat. intros (r & Hr & Ht).
    apply list_elem_of_In, list_elem_of_lookup in Hr as [j Hj]. apply list_elem_of_In in Ht. by specialize (Hu (S j) r Hj Ht).
  - rewrite (occ_absent t r) by (intros Ht; by specialize (Hu 0%nat r eq_refl Ht)). apply (IH k); [|done]. intros j x Hj Hx. specialize (Hu (S j) x Hj Hx). lia.
Qed.

Lemma occ_queues qs f t : queues_ok qs f -> occ t (concat qs) = match f t with Some _ => 1%nat | None => 0%nat end.
Proof.
  intros [H1 H2 H3]. assert (Hnat : forall j r, qs !! j = Some r -> aget qs (Z.of_nat j) = Some r) by (intros j r Hj; unfold aget; rewrite decide_True by lia; by rewrite Nat2Z.id).
  destruct (f t) as [i|] eqn:E.
  - pose proof (H3 _ _ E) as Hi. destruct (aget_is_Some qs i Hi) as [q Hq]. assert (Hk : qs !! Z.to_nat i = Some q) by (unfold aget in Hq; by rewrite decide_True in Hq by lia).
    rewrite (occ_concat t qs (Z.to_nat i) q); [|intros j r Hj Ht|done].
    + apply occ_once; [by eapply H1|]. by apply (H2 _ _ t Hq).
    + apply Hnat in Hj. apply (H2 _ _ t Hj) in Ht. rewrite E in Ht. injection Ht as ->. lia.
  - apply occ_absent. rewrite list_elem_of_In, in_concat. intros (r & Hr & Ht). apply list_elem_of_In, list_elem_of_lookup in Hr as [j Hj]. apply list_elem_of_In in Ht.
    apply Hnat in Hj. apply (H2 _ _ t Hj) in Ht. congruence.
Qed.

Section Machine.
Context {C : SchedConfig}.

(** ** Places *)

(** Everything that a thread that can run may be: running, given to the idle
    processor, in a run queue, or on its way to a stack. *)
Definition run_places (s : sched) : list Z :=
  s_current s :: p_next_thread s :: concat (rq_runq (s_pset s)) ++ concat (rq_runq (s_proc s)) ++ s_swapin s ++ s_swapping s.

(** The queues that are linked through the same field of a thread. *)
Definition linked_queues (s : sched) : list Z := concat (s_wait s) ++ concat (rq_runq (s_pset s)) ++ concat (rq_runq (s_proc s)) ++ s_swapin s.

Lemma occ_runqs t th s : inv None s -> get_th t s = Some th -> (occ t (concat (rq_runq (s_pset s))) + occ t (concat (rq_runq (s_proc s))) = b2n (on_runq th))%nat.
Proof using.
  intros I Ht. change (s_pset s) with (get_rq Rq_pset s). change (s_proc s) with (get_rq Rq_proc s). rewrite !(occ_queues _ _ t (r_queues _ _ (i_rq _ _ I _))). unfold run_at. rewrite Ht. cbn. unfold run_of, on_runq.
  by destruct (th_runq th) as [[]|].
Qed.

Lemma occ_wait t th s : inv None s -> get_th t s = Some th -> occ t (concat (s_wait s)) = b2n (negb (th_wait_event th =? 0)).
Proof using. intros I Ht. rewrite (occ_queues _ _ t (i_wait _ _ I)). unfold wait_at. rewrite Ht. cbn. unfold wait_of. by destruct (th_wait_event th =? 0). Qed.

Lemma places_ok t th s : inv None s -> get_th t s = Some th -> t <> p_idle_thread s -> occ t (run_places s) = b2n (any_bit (th_state th) TH_RUN).
Proof using.
  intros I Ht Hi. pose proof (i_th _ _ I _ _ Ht) as K. rewrite (k_enc _ _ K), any_run. pose proof (occ_runqs t th s I Ht) as Hrq. pose proof (k_place _ _ K) as Hk.
  unfold okb in Hk. rewrite !andb_true_iff in Hk. destruct Hk as [[[[[[[[Hk _] _] _] _] _] _] _] _]. unfold place_of in Hk. cbn [at_idle at_cur at_next at_coming at_hand] in Hk.
  rewrite (bool_decide_false (p_idle_thread s = t)) in Hk by congruence. rewrite (bool_decide_false (None = Some t)) in Hk by done. apply Nat.eqb_eq in Hk.
  unfold run_places. change (s_current s :: p_next_thread s :: ?l) with ([s_current s] ++ [p_next_thread s] ++ l). rewrite !occ_app, !occ_single.
  pose proof (occ_nodup t _ (n_once _ _ (i_known _ _ I))) as Hc. rewrite occ_app in Hc. cbn [b2n] in Hk. lia.
Qed.

(** Linked at most once. *)
Lemma linked_once t th s : inv None s -> get_th t s = Some th -> (occ t (linked_queues s) <= 1)%nat.
Proof using.
  intros I Ht. pose proof (i_th _ _ I _ _ Ht) as K. unfold linked_queues. rewrite !occ_app, (occ_wait t th s I Ht). pose proof (occ_runqs t th s I Ht) as Hrq.
  pose proof (n_once _ _ (i_known _ _ I)) as Hnd. assert (Hs : (occ t (s_swapin s) <= b2n (at_coming (place_of None s t)))%nat).
  { apply NoDup_app in Hnd as (N1 & _). rewrite (occ_nodup t _ N1). cbn. do 2 case_bool_decide; cbn; try lia. exfalso. set_solver. }
  assert (Hp : (b2n (b_w (tb th)) + b2n (on_runq th) + b2n (at_coming (place_of None s t)) <= 1)%nat).
  { pose proof (k_place _ _ K) as Hk. rewrite <- place_no_hand in Hk. apply Nat.leb_le. revert Hk. generalize (tb th), (place_of None s t), (on_runq th), (held th). intros b p q z. places b p q z. }
  assert ((b2n (negb (th_wait_event th =? 0)%Z) <= b2n (b_w (tb th)))%nat); [|lia].
  destruct (Z.eqb_spec (th_wait_event th) 0) as [|He]; cbn [negb b2n]; [lia|]. by rewrite (k_waits _ _ K He).
Qed.

(** ** Operations of threads and interrupts *)

Inductive sched_op :=
| Op_assert_wait (event : Z) (interruptible : bool) | Op_will_wait | Op_set_timeout | Op_block (continuation : Z)
| Op_wakeup (event : Z) (one_thread : bool) (result : Z) | Op_clear_wait (t result : Z) (interrupt_only : bool) | Op_timeout (t : Z) | Op_go (t : Z)
| Op_hold (t : Z) | Op_release (t : Z) | Op_suspend (t : Z) | Op_dowait (t : Z) | Op_resume (t : Z) | Op_halt_self (continuation : Z)
| Op_priority (t priority : Z) (set_max : bool) | Op_max_priority (t max_priority : Z) | Op_own_priority (priority : Z) | Op_policy (tick t policy data : Z)
| Op_recompute (sched_thread_id : Z) | Op_clock (nticks : Z) (cpu_idle : bool) | Op_idle_turn | Op_swapin_next (continuation : Z) | Op_doswapin (t stack : Z).

(** The state after a call that may fail: it is unchanged then. *)
Definition or_same (s : sched) (r : option (option sched)) : option sched := LET x <- r ;; Some (default s x).

Definition exec (op : sched_op) (s : sched) : option sched :=
  match op with
  | Op_assert_wait event interruptible => assert_wait event interruptible s
  | Op_will_wait => thread_will_wait (s_current s) s
  | Op_set_timeout => thread_set_timeout s
  | Op_block continuation => thread_block continuation s
  | Op_wakeup event one_thread result => thread_wakeup_prim event one_thread result s
  | Op_clear_wait t result interrupt_only => clear_wait t result interrupt_only s
  | Op_timeout t => thread_timeout t s
  | Op_go t => thread_go t s
  | Op_hold t => thread_hold t s
  | Op_release t => thread_release t s
  | Op_suspend t => LET r <- thread_suspend t s ;; Some (dowait_state r)
  | Op_dowait t => LET r <- thread_dowait t s ;; Some (dowait_state r)
  | Op_resume t => LET r <- thread_resume t s ;; Some r.1
  | Op_halt_self continuation => thread_halt_self continuation s
  | Op_priority t priority set_max => or_same s (thread_priority t priority set_max s)
  | Op_max_priority t max_priority => or_same s (thread_max_priority t max_priority s)
  | Op_own_priority priority => thread_set_own_priority priority s
  | Op_policy tick t policy data => or_same s (thread_policy tick t policy data s)
  | Op_recompute sched_thread_id => recompute_priorities sched_thread_id s
  | Op_clock nticks cpu_idle => thread_quantum_update nticks cpu_idle s
  | Op_idle_turn => idle_turn s
  | Op_swapin_next continuation => swapin_next continuation s
  | Op_doswapin t stack => thread_doswapin t stack s
  end.

(** What callers see to: only the running thread waits or blocks, and not the
    idle thread; nobody suspends the idle thread; a hold is released by who holds;
    [thread_go] is for threads that wait without an event. *)
Definition allowed (op : sched_op) (s : sched) : Prop :=
  match op with
  | Op_assert_wait event _ => may_wait s /\ is_u32 event
  | Op_will_wait => may_wait s
  | Op_set_timeout | Op_wakeup _ _ _ | Op_clock _ _ => True
  | Op_block _ => s_current s <> p_idle_thread s
  | Op_clear_wait t _ _ | Op_timeout t | Op_resume t | Op_priority t _ _ | Op_max_priority t _ | Op_policy _ t _ _ => is_Some (get_th t s)
  | Op_go t => th_wait_event <$> get_th t s = Some 0
  | Op_hold t => is_Some (get_th t s) /\ t <> p_idle_thread s
  | Op_release t => exists th, get_th t s = Some th /\ b2z (0 <? th_user_stop_count th) < th_suspend_count th
  | Op_suspend t => is_Some (get_th t s) /\ t <> p_idle_thread s /\ may_wait s
  | Op_dowait t => is_Some (get_th t s) /\ may_wait s /\ s_current s <> t
  | Op_halt_self _ => exists th, get_th (s_current s) s = Some th /\ s_current s <> p_idle_thread s /\ Z.land (th_state th) (Z.lor TH_SUSP (Z.lor TH_WAIT TH_UNINT)) = TH_SUSP
  | Op_own_priority priority => 0 <= priority < NRQS
  | Op_recompute t => t <> THREAD_NULL -> is_Some (get_th t s)
  | Op_idle_turn => p_state s <> PROCESSOR_RUNNING
  | Op_swapin_next _ => may_wait s /\ is_u32 swapin_queue
  | Op_doswapin t _ => t ∈ s_swapping s
  end.

Lemma halting_bits b : Z.land (enc b) (Z.lor TH_SUSP (Z.lor TH_WAIT TH_UNINT)) = TH_SUSP -> b_s b = true /\ b_w b = false /\ b_n b = false.
Proof using. by destruct b as [[] [] [] [] [] [] [] []]. Qed.

Lemma or_same_ok s r : sched_ok s -> (exists x, r = Some x /\ forall s', x = Some s' -> sched_ok s') -> exists s', or_same s r = Some s' /\ sched_ok s'.
Proof using. intros Hok (x & -> & H). destruct x as [s'|]; [exists s'|exists s]; (split; [done|]); auto. Qed.

(** No operation panics, and each keeps the invariant. *)
Lemma exec_ok op s : sched_ok s -> allowed op s -> exists s', exec op s = Some s' /\ sched_ok s'.
Proof using.
  intros Hok. pose proof Hok as [I Hp]. destruct op; cbn [allowed exec].
  - intros [Hw Hu]. destruct (assert_wait_ok event interruptible s Hok Hw Hu) as (s' & ? & ? & _). by exists s'.
  - by apply will_wait_ok.
  - intros _. by apply set_timeout_ok.
  - intros Hi. destruct (block_ok continuation s I (busy_runs _ Hok Hi)) as (s' & ? & ? & _). by exists s'.
  - intros _. destruct (wakeup_ok event one_thread result s I) as (q & s' & _ & ? & I' & [Q _ _ _]). exists s'. split; [done|]. by eapply quiet_sched.
  - intros [th Ht]. destruct (clear_wait_ok t th result interrupt_only s I Ht) as (s' & ? & I' & Q & _). exists s'. split; [done|]. by eapply quiet_sched.
  - intros [th Ht]. by eapply timeout_ok.
  - destruct (get_th t s) as [th|] eqn:Ht; [|done]. intros [= He]. by eapply go_ok.
  - intros [[th Ht] Hi]. destruct (hold_ok t th s Hok Ht Hi) as (s' & th' & ? & ? & _). by exists s'.
  - intros (th & Ht & Hc). by eapply release_ok.
  - intros ([th Ht] & Hi & Hw). destruct (suspend_ok t th s Hok Ht Hi Hw) as (r & -> & Hr). by exists (dowait_state r).
  - intros ([th Ht] & Hw & Hc). destruct (dowait_ok t th s Hok Ht Hw Hc) as (r & -> & Hr). by exists (dowait_state r).
  - intros [th Ht]. destruct (resume_ok t th s Hok Ht) as (s' & b & -> & Hr & _). by exists s'.
  - intros (th & Ht & Hi & Hb). rewrite (k_enc _ _ (i_th _ _ I _ _ Ht)) in Hb. destruct (halting_bits _ Hb) as (? & ? & ?). by eapply halt_self_ok.
  - intros [th Ht]. apply or_same_ok; [done|]. destruct (thread_priority_ok t th priority set_max s Hok Ht) as (r & ? & ? & _). by exists r.
  - intros [th Ht]. apply or_same_ok; [done|]. by eapply max_priority_ok.
  - by apply own_priority_ok.
  - intros [th Ht]. apply or_same_ok; [done|]. by eapply policy_ok.
  - by apply recompute_ok.
  - intros _. by apply quantum_update_ok.
  - by apply idle_turn_ok.
  - intros [Hw Hu]. by apply swapin_next_ok.
  - by apply doswapin_ok.
Qed.

(** The states that sequences of operations reach. *)
Inductive sched_reach (s0 : sched) : sched -> Prop :=
| Reach_start : sched_reach s0 s0
| Reach_step s op s' : sched_reach s0 s -> allowed op s -> exec op s = Some s' -> sched_reach s0 s'.

Lemma reach_ok s0 s : sched_ok s0 -> sched_reach s0 s -> sched_ok s.
Proof using.
  intros H0. induction 1 as [|s op s' _ IH Hal He]; [done|]. destruct (exec_ok op s IH Hal) as (s2 & He2 & Hok). congruence.
Qed.

(** C6: in every state that operations of threads and interrupts reach, no thread
    is lost and none is queued twice.  The next operation does not panic; a thread
    other than the idle thread is running, given to the idle processor, in a run
    queue or on its way to a stack exactly if its state has [TH_RUN], and then in
    one of these places, once; it is in a wait queue, once, exactly if it waits for
    an event; a thread that waits and has not stopped yet is the running one; a
    thread that is stopped and does not wait is suspended; and no thread is on two
    of the queues, which share its links. *)
Theorem threads_in_place s0 s : sched_ok s0 -> sched_reach s0 s ->
  (forall op, allowed op s -> exists s', exec op s = Some s') /\
  forall t th, get_th t s = Some th -> t <> p_idle_thread s ->
    occ t (run_places s) = b2n (any_bit (th_state th) TH_RUN) /\
    occ t (concat (s_wait s)) = b2n (negb (th_wait_event th =? 0)) /\
    (any_bit (th_state th) TH_WAIT = true -> any_bit (th_state th) TH_RUN = true -> t = s_current s) /\
    (any_bit (th_state th) (Z.lor TH_WAIT TH_RUN) = false -> any_bit (th_state th) TH_SUSP = true) /\
    (occ t (linked_queues s) <= 1)%nat.
Proof using.
  intros H0 Hr. pose proof (reach_ok _ _ H0 Hr) as Hok. pose proof Hok as [I _]. split.
  - intros op Hal. destruct (exec_ok op s Hok Hal) as (s' & ? & _). by exists s'.
  - intros t th Ht Hi. pose proof (i_th _ _ I _ _ Ht) as K. split; [by apply places_ok|]. split; [by apply occ_wait|]. rewrite (k_enc _ _ K), any_wait, any_run, any_wait_run, any_susp.
    pose proof (k_place _ _ K) as Hk. unfold okb in Hk. rewrite !andb_true_iff in Hk. destruct Hk as [[[[[[[[_ Hk1] Hk2] _] _] _] _] _] _].
    split; [|split; [|by eapply linked_once]].
    + intros Hw Hrn. rewrite Hw, Hrn in Hk1. cbn in Hk1. rewrite (bool_decide_false (None = Some t)), orb_false_r in Hk1 by done. by apply bool_decide_eq_true in Hk1.
    + intros [Hw Hrn]%orb_false_iff. rewrite Hw, Hrn in Hk2. exact Hk2.
Qed.

(** ** Wake-ups *)

(** A thread that stays stopped when it is woken: it sleeps interruptibly and is
    suspended. *)
Definition stays_stopped (th : thread) : Prop := any_bit (th_state th) TH_SUSP = true /\ any_bit (th_state th) TH_UNINT = false /\ any_bit (th_state th) TH_RUN = false.

Lemma waiter_bits e s t th : inv None s -> e <> 0 -> get_th t s = Some th -> th_wait_event th = e -> b_w (tb th) = true /\ t <> p_idle_thread s.
Proof using.
  intros I He Ht Hw. pose proof (i_th _ _ I _ _ Ht) as K. assert (Hb : b_w (tb th) = true) by (apply K; congruence). split; [done|]. intros Hi.
  pose proof (idle_swap _ _ _ _ (k_place _ _ K) (bool_decide_eq_true_2 _ (eq_sym Hi))) as H. rewrite Hb, !andb_true_iff in H. by destruct H.
Qed.

Lemma woken_runs b : b_s b && negb (b_n b) && negb (b_r b) = false -> b_r (woken b) = true.
Proof using. by destruct b as [? [] [] [] ? ? ? ?]. Qed.

Lemma first_waiter e q s : (exists t, t ∈ q /\ waits_for e s t) -> exists t q1 q2, q = q1 ++ t :: q2 /\ waits_for e s t /\ (forall u, u ∈ q1 -> ~ waits_for e s u) /\ waiters e true q s = [t].
Proof using.
  induction q as [|u q IH]; [by intros (t & ?%not_elem_of_nil & _)|]. intros (t & Ht & Hw). cbn. destruct (decide (waits_for e s u)) as [Hu|Hu].
  - exists u, [], q. split; [done|]. split; [done|]. split; [by intros v ?%not_elem_of_nil|done].
  - destruct IH as (v & q1 & q2 & -> & Hv & Hq1 & Hws); [exists t; split; [|done]; apply elem_of_cons in Ht as [->|]; done|].
    exists v, (u :: q1), q2. split; [done|]. split; [done|]. split; [by intros w [->|Hw']%elem_of_cons; auto|done].
Qed.

(** C7: a wake-up of an event wakes exactly the threads that wait for it, or with
    [one_thread] the one that came first: these leave the queue, get the result,
    and unless they are suspended in an interruptible wait they have a place to
    run; all other threads stay as they are, in the same order. *)
Theorem wakeup_wakes event one_thread result s q : sched_ok s -> event <> 0 -> aget (s_wait s) (wait_hash event) = Some q ->
  exists s' ws, thread_wakeup_prim event one_thread result s = Some s' /\ sched_ok s' /\
    (if one_thread
     then ws = [] /\ (forall t, ~ waits_for event s t) \/ exists t q1 q2, ws = [t] /\ q = q1 ++ t :: q2 /\ forall u, u ∈ q1 -> ~ waits_for event s u
     else (forall t, waits_for event s t -> t ∈ ws) /\ forall t, ~ waits_for event s' t) /\
    (forall t, t ∈ ws -> waits_for event s t /\ exists th th', get_th t s = Some th /\ get_th t s' = Some th' /\
       th_wait_event th' = 0 /\ th_wait_result th' = result /\ any_bit (th_state th') TH_WAIT = false /\ (~ stays_stopped th -> occ t (run_places s') = 1%nat)) /\
    (forall t, t ∉ ws -> get_th t s' = get_th t s) /\
    forall i r, aget (s_wait s) i = Some r -> aget (s_wait s') i = Some (if i =? wait_hash event then filter (fun t => t ∉ ws) r else r).
Proof using.
  intros [I Hp] He Hq. destruct (wakeup_ok event one_thread result s I) as (q' & s' & Hq' & Hwk & I' & [Q W R S']). rewrite Hq in Hq'. injection Hq' as <-.
  exists s', (waiters event one_thread q s). split; [done|]. assert (Hok' : sched_ok s') by by eapply quiet_sched. split; [done|]. split; [|split; [|by split]].
  - destruct one_thread.
    + destruct (decide (Exists (waits_for event s) q)) as [Hex|Hex].
      * right. apply Exists_exists in Hex. destruct (first_waiter event q s Hex) as (t & q1 & q2 & -> & _ & Hq1 & ->). by exists t, q1, q2.
      * left. assert (Hno : forall t, ~ waits_for event s t) by (intros t Ht; apply Hex, Exists_exists; exists t; split; [exact (waiter_queued event s t q I He Ht Hq)|done]). split; [|done].
        destruct (waiters event true q s) as [|t l] eqn:E; [done|]. destruct (waiters_in event true q s t) as [_ Ht]; [rewrite E; left|]. by apply Hno in Ht.
    + assert (Hall : forall t, waits_for event s t -> t ∈ waiters event false q s) by (intros t Ht; apply waiters_all; [exact (waiter_queued event s t q I He Ht Hq)|done]). split; [done|]. intros t Ht.
      destruct (decide (t ∈ waiters event false q s)) as [Hin|Hin].
      * destruct (W t Hin) as (th & th' & _ & H' & _ & H0 & _). unfold waits_for in Ht. rewrite H' in Ht. injection Ht as Ht. congruence.
      * apply Hin, Hall. unfold waits_for in *. by rewrite R in Ht.
  - intros t Hin. pose proof (waiters_in _ _ _ _ _ Hin) as [_ Hw]. split; [done|]. destruct (W t Hin) as (th & th' & Ht & Ht' & Hb & He' & Hr & _). exists th, th'.
    assert (Hev : th_wait_event th = event) by (unfold waits_for in Hw; rewrite Ht in Hw; by injection Hw). destruct (waiter_bits event s t th I He Ht Hev) as [Hbw Hi].
    pose proof (k_enc _ _ (i_th _ _ I' _ _ Ht')) as Hst. repeat (split; [done|]). split.
    + rewrite Hst, any_wait, Hb. unfold woken. by destruct (_ || _).
    + intros Hns. destruct Q as [[= E1 E2 E3 E4 E5] _ _]. rewrite (places_ok t th' s' I' Ht') by congruence. rewrite Hst, any_run, Hb, woken_runs; [done|].
      unfold stays_stopped in Hns. rewrite (k_enc _ _ (i_th _ _ I _ _ Ht)), any_susp, any_unint, any_run in Hns. destruct (b_s (tb th)), (b_n (tb th)), (b_r (tb th)); try done. tauto.
Qed.

(** ** Selection *)

Lemma best_first n t s : inv None s -> best n s t -> exists th, get_th t s = Some th /\ th_runq th = Some n /\
  forall u x, get_th u s = Some x -> th_runq x = Some n -> th_sched_pri' th <= th_sched_pri' x.
Proof using.
  intros I B. destruct (best_facts n t s I B) as (th & Ht & Hr & _). exists th. split; [done|]. split; [done|]. destruct B as (i & q & Hq & Hb). pose proof (i_rq _ _ I n) as [R1 R2 _ _ _].
  assert (Hat : forall u x, get_th u s = Some x -> th_runq x = Some n -> run_at n s u = Some (th_sched_pri' x)) by (intros u x Hu Hx; unfold run_at; rewrite Hu; cbn; unfold run_of; by rewrite bool_decide_true).
  assert (Hi : run_at n s t = Some i) by (apply (q_in _ _ R2 _ _ t Hq); left). rewrite (Hat t th Ht Hr) in Hi. injection Hi as Hi. intros u x Hu Hx. pose proof (Hat u x Hu Hx) as Hux.
  destruct (decide (th_sched_pri' th <= th_sched_pri' x)); [done|]. pose proof (q_range _ _ R2 _ _ Hux) as Hrg. pose proof (Hb (th_sched_pri' x)) as He. specialize (He ltac:(lia)).
  apply (q_in _ _ R2 _ _ u He) in Hux. by apply not_elem_of_nil in Hux.
Qed.

Lemma empty_rq n s : inv None s -> rq_count (get_rq n s) = 0 -> forall u x, get_th u s = Some x -> th_runq x <> Some n.
Proof using.
  intros I Hc u x Hu Hx. pose proof (i_rq _ _ I n) as [R1 R2 R3 _ _]. assert (Hat : run_at n s u = Some (th_sched_pri' x)) by (unfold run_at; rewrite Hu; cbn; unfold run_of; by rewrite bool_decide_true).
  pose proof (q_range _ _ R2 _ _ Hat) as Hr. destruct (aget_is_Some _ _ Hr) as [q Hq]. apply (q_in _ _ R2 _ _ u Hq) in Hat. assert (Hz : qtotal (rq_runq (get_rq n s)) = 0) by lia.
  rewrite (qtotal_zero _ _ q Hz Hq) in Hat. by apply not_elem_of_nil in Hat.
Qed.

(** C8: [thread_select] returns without panic, and the thread it returns is one of
    the best priority in the run queue of the processor, or in that of the
    processor set when the former is empty, and the first of those that came at
    this priority; when nothing else can run, it is the current thread if that can
    go on and else the idle thread.  The lazily kept hint and its correction for
    fixed priorities do not matter. *)
Theorem select_highest s : sched_ok s -> p_state s = PROCESSOR_RUNNING -> exists s' t th, thread_select s = Some (s', t) /\ get_th t s = Some th /\
  ((exists n q, th_runq th = Some n /\ (n = Rq_pset -> forall u x, get_th u s = Some x -> th_runq x <> Some Rq_proc) /\
     (forall u x, get_th u s = Some x -> th_runq x = Some n -> th_sched_pri' th <= th_sched_pri' x) /\ aget (rq_runq (get_rq n s)) (th_sched_pri' th) = Some (t :: q)) \/
   (forall u x, get_th u s = Some x -> th_runq x = None) /\
     exists cur, get_th (s_current s) s = Some cur /\ t = if th_state cur =? TH_RUN then s_current s else p_idle_thread s).
Proof using.
  intros [I _] Hrun. destruct (select_ok s I Hrun) as (s' & t & Hsel & _ & Hs & _). exists s', t.
  assert (Hhead : forall n, best n s t -> (n = Rq_pset -> rq_count (s_proc s) = 0) -> exists th, get_th t s = Some th /\ exists q, th_runq th = Some n /\
    (n = Rq_pset -> forall u x, get_th u s = Some x -> th_runq x <> Some Rq_proc) /\
    (forall u x, get_th u s = Some x -> th_runq x = Some n -> th_sched_pri' th <= th_sched_pri' x) /\ aget (rq_runq (get_rq n s)) (th_sched_pri' th) = Some (t :: q)).
  { intros n B Hc. destruct (best_first n t s I B) as (th & Ht & Hr & Hmin). destruct B as (i & q & Hq & _). exists th. split; [done|]. exists q. split; [done|].
    split; [intros Hn; by apply (empty_rq Rq_proc s I), Hc|]. split; [done|]. assert (Hi : run_at n s t = Some i) by (apply (q_in _ _ (r_queues _ _ (i_rq _ _ I n)) _ _ t Hq); left).
    unfold run_at in Hi. rewrite Ht in Hi. cbn in Hi. unfold run_of in Hi. rewrite bool_decide_true in Hi by done. injection Hi as ->. exact Hq. }
  assert (Hnone : rq_count (s_proc s) = 0 -> rq_count (s_pset s) = 0 -> forall u x, get_th u s = Some x -> th_runq x = None).
  { intros H1 H2 u x Hu. pose proof (empty_rq Rq_proc s I H1 u x Hu). pose proof (empty_rq Rq_pset s I H2 u x Hu). destruct (th_runq x) as [[]|]; congruence. }
  destruct Hs as [t B|t Hc B|cur H1 H2 Hc Hst|cur H1 H2 Hc Hst].
  - destruct (Hhead Rq_proc B) as (th & Ht & q & Hx); [done|]. exists th. split; [done|]. split; [done|]. left. by exists Rq_proc, q.
  - destruct (Hhead Rq_pset B) as (th & Ht & q & Hx); [done|]. exists th. split; [done|]. split; [done|]. left. by exists Rq_pset, q.
  - exists cur. split; [done|]. split; [done|]. right. split; [by apply Hnone|]. exists cur. split; [done|]. by rewrite Hst.
  - destruct (n_idle _ _ (i_known _ _ I)) as [idle Hid]. exists idle. split; [done|]. split; [done|]. right. split; [by apply Hnone|]. exists cur. split; [done|]. by destruct (Z.eqb_spec (th_state cur) TH_RUN).
Qed.

(** ** The decay of usage *)

Lemma shift_bounds u k : 0 <= k -> 2 ^ k * Z.shiftr u k <= u < 2 ^ k * Z.shiftr u k + 2 ^ k.
Proof using.
  intros Hk. rewrite Z.shiftr_div_pow2 by done. pose proof (Z.div_mod u (2 ^ k)). pose proof (Z.mod_pos_bound u (2 ^ k)). assert (0 < 2 ^ k) by (apply Z.pow_pos_nonneg; lia). lia.
Qed.

(** An entry of the table is good enough for [n] ticks: the sum or difference of
    the two powers is within one ninth of (5/8)^n. *)
Definition shift_good (n : Z) (sh : Z * Z) : bool :=
  let a := 2 ^ sh.1 in
  let b := 2 ^ Z.abs sh.2 in
  let v := if 0 <? sh.2 then b + a else b - a in
  (1 <=? sh.1) && (1 <=? Z.abs sh.2) && ((0 <? sh.2) || (sh.1 <=? Z.abs sh.2)) && (9 * Z.abs (8 ^ n * v - 5 ^ n * (a * b)) <=? 5 ^ n * (a * b)).

Fixpoint shifts_good (n : Z) (l : list (Z * Z)) : bool := match l with [] => true | sh :: l' => shift_good n sh && shifts_good (n + 1) l' end.

Lemma shifts_good_get n l k sh : shifts_good n l = true -> aget l k = Some sh -> shift_good (n + k) sh = true.
Proof using.
  unfold aget. case_decide as Hk; [|done]. intros H Hl. rewrite <- (Z2Nat.id k Hk). revert n H Hl. generalize (Z.to_nat k). intros m. revert l.
  induction m as [|m IH]; intros [|x l] n H Hl; try done; cbn in H; apply andb_true_iff in H as [H1 H2].
  - injection Hl as ->. by rewrite Z.add_0_r.
  - replace (n + Z.of_nat (S m)) with (n + 1 + Z.of_nat m) by lia. by apply (IH l).
Qed.

Lemma close_by_scale M P Q V u z e : 0 < M -> 0 < P -> 0 <= u -> M * z = u * V - e -> Z.abs e <= 2 * M -> 9 * Z.abs (P * V - Q * M) <= Q * M ->
  9 * Z.abs (P * z - Q * u) <= Q * u + 18 * P.
Proof using.
  intros HM HP Hu Hz He Hg. apply (Z.mul_le_mono_pos_l _ _ M HM). assert (Hw : M * (P * z - Q * u) = u * (P * V - Q * M) - P * e) by (replace (M * (P * z - Q * u)) with (P * (M * z) - Q * u * M) by ring; rewrite Hz; ring).
  replace (M * (9 * Z.abs (P * z - Q * u))) with (9 * Z.abs (M * (P * z - Q * u))) by (rewrite Z.abs_mul, (Z.abs_eq M) by lia; ring). rewrite Hw.
  pose proof (Z.abs_triangle (u * (P * V - Q * M)) (- (P * e))) as Ht. rewrite Z.abs_opp, !Z.abs_mul, (Z.abs_eq u), (Z.abs_eq P) in Ht by lia.
  assert (u * (9 * Z.abs (P * V - Q * M)) <= u * (Q * M)) by (apply Z.mul_le_mono_nonneg_l; lia). assert (P * Z.abs e <= P * (2 * M)) by (apply Z.mul_le_mono_nonneg_l; lia).
  replace (u * (P * V - Q * M) - P * e) with (u * (P * V - Q * M) + - (P * e)) by ring. lia.
Qed.

(** Two shifts of a 32-bit number, against the exact value. *)
Lemma age_close n sh u : 0 <= n -> shift_good n sh = true -> is_u32 u -> 9 * Z.abs (8 ^ n * age sh u - 5 ^ n * u) <= 5 ^ n * u + 18 * 8 ^ n /\ age sh u <= u.
Proof using.
  intros Hn Hg [Hu0 Hu1]. unfold shift_good in Hg. cbv zeta in Hg. rewrite !andb_true_iff, !Z.leb_le in Hg. destruct Hg as [[[Ha Hb] Hab] Hg]. unfold age.
  pose proof (shift_bounds u sh.1 ltac:(lia)) as B1. pose proof (proj2 (Z.shiftr_nonneg u sh.1) Hu0) as N1.
  assert (HA : 2 <= 2 ^ sh.1) by (change 2 with (2 ^ 1) at 1; apply Z.pow_le_mono_r; lia). assert (HB : 2 <= 2 ^ Z.abs sh.2) by (change 2 with (2 ^ 1) at 1; apply Z.pow_le_mono_r; lia).
  assert (H8 : 0 < 8 ^ n) by (apply Z.pow_pos_nonneg; lia). assert (H5 : 0 < 5 ^ n) by (apply Z.pow_pos_nonneg; lia).
  revert Hab Hg. destruct (Z.ltb_spec 0 sh.2) as [Hs|Hs]; intros Hab Hg.
  - rewrite (Z.abs_eq sh.2) in * by lia. pose proof (shift_bounds u sh.2 ltac:(lia)) as B2. pose proof (proj2 (Z.shiftr_nonneg u sh.2) Hu0) as N2.
    set (A := 2 ^ sh.1) in *. set (B := 2 ^ sh.2) in *. set (x := Z.shiftr u sh.1) in *. set (y := Z.shiftr u sh.2) in *. assert (x + y <= u) by nia. rewrite u32_small by (unfold is_u32; lia).
    split; [|done]. apply (close_by_scale (A * B) _ _ (B + A) u (x + y) (B * (u - A * x) + A * (u - B * y))); [nia|done|done|ring| |done]. rewrite Z.abs_eq by nia. nia.
  - rewrite (Z.abs_neq sh.2) in * by lia. cbn [orb] in Hab. apply Z.leb_le in Hab. pose proof (shift_bounds u (- sh.2) ltac:(lia)) as B2. pose proof (proj2 (Z.shiftr_nonneg u (- sh.2)) Hu0) as N2.
    assert (HAB : 2 ^ sh.1 <= 2 ^ (- sh.2)) by (apply Z.pow_le_mono_r; lia).
    set (A := 2 ^ sh.1) in *. set (B := 2 ^ (- sh.2)) in *. set (x := Z.shiftr u sh.1) in *. set (y := Z.shiftr u (- sh.2)) in *. assert (y <= x) by nia. assert (x <= u) by nia.
    rewrite u32_small by (unfold is_u32; lia). split; [|lia].
    apply (close_by_scale (A * B) _ _ (B - A) u (x - y) (B * (u - A * x) - A * (u - B * y))); [nia|done|done|ring| |done].
    assert (0 <= B * (u - A * x) < A * B) by nia. assert (0 <= A * (u - B * y) < A * B) by nia. lia.
Qed.

(** C17: after [n] seconds, up to thirty, [update_priority] has counted the time
    that was used and aged the usage by (5/8)^n to within a ninth, and two units of
    rounding, never above what it was; after more it has forgotten it.  The
    priority of a timesharing thread is its base priority and its usage, at most
    31. *)
Theorem usage_decays tick p : is_u32 tick -> pri_ok p -> th_sched_stamp p <> tick -> exists p', update_priority tick p = Some p' /\ th_sched_stamp p' = tick /\ pri_ok p' /\
  (let n := u32 (tick - th_sched_stamp p) in
   let used := u32 (th_sched_usage p + u32 (th_sched_delta p + u32 (th_time p) * sched_load)) in
   if n <=? 30 then 9 * Z.abs (8 ^ n * th_sched_usage p' - 5 ^ n * used) <= 5 ^ n * used + 18 * 8 ^ n /\ th_sched_usage p' <= used
   else th_sched_usage p' = 0) /\
  (th_policy p = POLICY_TIMESHARE -> th_depress_priority p < 0 -> th_sched_pri p' = Z.min 31 (th_priority p + Z.shiftr (th_sched_usage p') 25)).
Proof using.
  intros Ht Hp Hs. destruct (update_priority_ok tick p Ht Hp Hs) as (p' & Hup & Hp' & Hst). exists p'. split; [done|]. split; [done|]. split; [done|].
  unfold update_priority in Hup. destruct (negb (u32 (tick - th_sched_stamp p) =? 0)); [|done]. cbv zeta.
  pose proof (u32_range (tick - th_sched_stamp p)) as Hr. set (n := u32 (tick - th_sched_stamp p)) in *.
  assert (Hpri : forall q, th_priority q = th_priority p -> p' = (if (th_policy p =? POLICY_TIMESHARE) && (th_depress_priority p <? 0) then compute_my_priority q else q) ->
    th_sched_usage p' = th_sched_usage q /\ (th_policy p = POLICY_TIMESHARE -> th_depress_priority p < 0 -> th_sched_pri p' = Z.min 31 (th_priority p + Z.shiftr (th_sched_usage p') 25))).
  { intros q E3 ->. destruct ((th_policy p =? POLICY_TIMESHARE) && (th_depress_priority p <? 0)) eqn:E.
    - split; [done|]. intros _ _. cbn [th_sched_pri compute_my_priority pri_set_sched_pri th_sched_usage]. unfold do_priority_computation. rewrite E3. change (PRI_SHIFT + SCHED_SHIFT) with 25.
      destruct (Z.ltb_spec 31 (th_priority p + Z.shiftr (th_sched_usage q) 25)); lia.
    - split; [done|]. intros H1 H2. rewrite H1 in E. destruct (Z.ltb_spec (th_depress_priority p) 0); [done|lia]. }
  destruct (Z.ltb_spec 30 n) as [Hn|Hn].
  - injection Hup as Hup. symmetry in Hup. apply Hpri in Hup as [Hu Hpr]; [|done]. split; [|done]. destruct (Z.leb_spec n 30); [lia|]. by rewrite Hu.
  - destruct (aget wait_shift n) as [sh|] eqn:Hsh; [|done]. injection Hup as Hup. symmetry in Hup. apply Hpri in Hup as [Hu Hpr]; [|done]. split; [|done].
    destruct (Z.leb_spec n 30); [|lia]. rewrite Hu. cbn [th_sched_usage pri_set_sched_delta pri_set_cpu_delta pri_set_sched_usage]. apply age_close; [apply Hr| |apply u32_range].
    apply (shifts_good_get 0 wait_shift); [vm_compute; reflexivity|done].
Qed.
End Machine.

(** ** A system of three threads *)

#[local] Instance sc0 : SchedConfig := {| min_quantum := 10; policies := 1; sched_load := 128; master_processor := 0x50; wake_active_offset := 0x40; swapin_queue := 0x6000; idle_thread_continue := 0x7000 |}.

Definition pri0 (pri : Z) : priorities := mk_priorities pri 0 pri 0 POLICY_TIMESHARE (-1) 0 0 0 0 0 0.
Definition th0 (state suspends pri privilege stack : Z) : thread := mk_thread state 0 0 suspends 0 false 0 false 0 (pri0 pri) None false stack privilege.

(** The thread 0x200 runs, 0x300 was created and not started, and 0x100 is the
    idle thread. *)
Definition boot0 : sched :=
  mk_sched (<[0x100 := th0 0x84 0 31 0x9000 0x9000]> (<[0x200 := th0 TH_RUN 0 12 0 0]> {[0x300 := th0 TH_SUSP 1 10 0 0xb000]})) (replicate 59 []) (mk_run_queue (replicate 32 []) 0 0)
    (mk_run_queue (replicate 32 []) 0 0) [] 0 10 PROCESSOR_RUNNING THREAD_NULL 0x100 10 true 0x200 0xa000 [] 0 0 [] [].

Lemma boot0_threads t th : get_th t boot0 = Some th ->
  (t = 0x100 /\ th = th0 0x84 0 31 0x9000 0x9000) \/ (t = 0x200 /\ th = th0 TH_RUN 0 12 0 0) \/ (t = 0x300 /\ th = th0 TH_SUSP 1 10 0 0xb000).
Proof.
  unfold get_th, boot0. cbn [s_threads]. rewrite lookup_insert_Some. intros [[<- <-]|[_ H]]; [by left|]. right. apply lookup_insert_Some in H as [[<- <-]|[_ H]]; [by left|].
  right. by apply lookup_singleton_Some in H as [<- <-].
Qed.

Lemma empty_queues n f : (forall t, f t = None) -> queues_ok (replicate n []) f.
Proof.
  intros Hf. assert (He : forall i q, aget (replicate n []) i = Some q -> q = ([] : list Z)).
  { intros i q. unfold aget. case_decide; [|done]. by intros [-> _]%lookup_replicate. }
  split; [intros i q ->%He; constructor|intros i q t ->%He; rewrite Hf, elem_of_nil; done|intros t i; by rewrite Hf].
Qed.

Lemma empty_total n : qtotal (replicate n []) = 0.
Proof. induction n as [|n IH]; [done|]. cbn [replicate qtotal]. unfold alen. cbn [length]. lia. Qed.

Lemma boot0_ok : sched_ok boot0.
Proof.
  split; [|done]. constructor.
  - intros t th H. apply boot0_threads in H as [[-> ->]|[[-> ->]|[-> ->]]];
      (constructor; [reflexivity|vm_compute; reflexivity|vm_compute; intuition congruence|vm_compute; intuition congruence|done|vm_compute; intuition congruence|vm_compute; congruence]).
  - constructor; try done; try (by eexists); [by intros t ?%not_elem_of_nil|constructor].
  - done.
  - apply empty_queues. intros t. unfold wait_at. destruct (get_th t boot0) as [th|] eqn:E; [|done]. by apply boot0_threads in E as [[-> ->]|[[-> ->]|[-> ->]]].
  - intros n. assert (Hr : rq_ok (mk_run_queue (replicate 32 []) 0 0) (run_at n boot0)); [|by destruct n].
    constructor; cbn [rq_runq rq_low rq_count]; [done| |by rewrite empty_total|done|lia]. apply empty_queues. intros t. unfold run_at. destruct (get_th t boot0) as [th|] eqn:E; [|done].
    apply boot0_threads in E as [[-> ->]|[[-> ->]|[-> ->]]]; by destruct n.
  - by left.
  - done.
Qed.

(** The state after an operation. *)
Definition after (op : sched_op) (s : sched) : sched := default s (exec op s).

Lemma reach_after s0 s op : sched_reach s0 s -> allowed op s -> is_Some (exec op s) -> sched_reach s0 (after op s).
Proof. intros Hr Ha [s' Hs]. eapply Reach_step; [exact Hr|exact Ha|]. unfold after. by rewrite Hs. Qed.

(** 0x300 is started; 0x200 waits for the event 0x5000, so that 0x300 runs. *)
Definition started0 : sched := after (Op_release 0x300) boot0.
Definition waiting0 : sched := after (Op_assert_wait 0x5000 true) started0.
Definition blocked0 : sched := after (Op_block 0) waiting0.

Lemma started0_reach : sched_reach boot0 started0.
Proof. apply reach_after; [constructor|by eexists|by eexists]. Qed.

Lemma blocked0_reach : sched_reach boot0 blocked0.
Proof.
  apply reach_after; [apply reach_after; [apply started0_reach|split; [by eexists|done]|by eexists]|vm_compute; congruence|]. eexists. vm_compute. reflexivity.
Qed.

Lemma threads_in_place_witness : exists th, get_th 0x200 blocked0 = Some th /\ occ 0x200 (run_places blocked0) = 0%nat /\ occ 0x200 (concat (s_wait blocked0)) = 1%nat.
Proof.
  destruct (threads_in_place boot0 blocked0 boot0_ok blocked0_reach) as [_ H]. destruct (get_th 0x200 blocked0) as [th|] eqn:E; [|vm_compute in E; congruence].
  exists th. destruct (H 0x200 th E) as (H1 & H2 & _); [vm_compute; congruence|]. split; [reflexivity|]. rewrite H1, H2. vm_compute in E. injection E as <-. split; reflexivity.
Defined.

(** The wake-up moves 0x200 from the wait queue of its event to a run queue. *)
Lemma wakeup_wakes_witness : exists s', thread_wakeup_prim 0x5000 false THREAD_AWAKENED blocked0 = Some s' /\ forall t, ~ waits_for 0x5000 s' t.
Proof.
  destruct (wakeup_wakes 0x5000 false THREAD_AWAKENED blocked0 [0x200]) as (s' & ws & Hs & _ & [_ H] & _); [exact (reach_ok _ _ boot0_ok blocked0_reach)|lia|vm_compute; reflexivity|].
  exists s'. by split.
Defined.

Lemma select_highest_witness : exists s' t, thread_select started0 = Some (s', t) /\ exists th, get_th t started0 = Some th.
Proof.
  destruct (select_highest started0 (reach_ok _ _ boot0_ok started0_reach)) as (s' & t & th & Hs & Ht & _); [vm_compute; reflexivity|]. exists s', t. split; [done|]. by exists th.
Defined.

Lemma usage_decays_witness : exists p', update_priority 5 (pri0 12) = Some p' /\ th_sched_stamp p' = 5 /\ th_sched_pri p' = 12.
Proof.
  destruct (usage_decays 5 (pri0 12)) as (p' & Hp & Hs & _ & _ & Hpri); [done| |done|].
  - constructor; vm_compute; intuition congruence.
  - exists p'. split; [done|]. split; [done|]. rewrite Hpri by done. vm_compute in Hp. injection Hp as <-. reflexivity.
Defined.
